(* ===== verification/_CoqProject ===== *)
-Q . S2P
Prelude.v
Tokens.v
Layout.v
Nesting.v
LayoutFacts.v
LayoutErrors.v
RawTokens.v
RawFacts.v
Tokenize.v
LexRules.v
LexerProps.v
ScalarOps.v
Predicate.v
PredicateSem.v
Returns.v
KeyMaps.v
PredicateParts.v
PredicateProducts.v
PredicateAlgebra.v
KeyInstances.v
PredicatePaths.v
PredicatePathFacts.v
PredicateProps.v
Releases.v
ReleaseFacts.v
ReleaseProps.v
LineIndex.v
LineProps.v
Scheduler.v
SchedulerProps.v
Graphs.v
GraphProps.v
IntervalSets.v
IntervalFacts.v
IntervalProps.v
Guards.v
GuardSem.v
GuardFacts.v
GuardUnion.v
GuardProps.v
Values.v
KeyAdjacency.v
Columns.v
ColumnFacts.v
ColumnOps.v
Tiles.v
TileRows.v
TileFacts.v
TileStores.v
TileValid.v
Aggregates.v
TileMerges.v
MergeSpec.v
AppendFacts.v
MergeFacts.v
TilePaths.v
TileReleases.v
RemoveFacts.v
TileGuards.v
ValidFacts.v
TileProps.v
Ordered.v
ModulePaths.v
PathProps.v
Loading.v
LinkFacts.v
LinkProps.v
LoadFacts.v
LoadProps.v
Syntax.v
InterpValues.v
InterpText.v
Interp.v
InterpFrames.v
InterpSettled.v
InterpFuel.v
InterpFacts.v
InterpProps.v
