(* ===== verification/Prelude.v ===== *)
(** * A verification library for Cambra

    Cambra compiles a surface language (CHL) to a dataflow calculus (CCL) and runs
    it as a graph of operators that pull tiles of keyed data from each other.  This
    library models the parts of the Rust implementation below as executable
    definitions, one per Rust function, and proves what makes each correct.

    ** Parts of the program and the files that model them

    - The CHL lexer ([chl-parser/src/lexer.rs], spans from [ast.rs]) turns a source
      into the token stream the parser reads.  [Tokens] holds the tokens, brackets
      and errors.  [RawTokens] models [raw_tokens] over an interface [Logos] for the
      lexer that the logos crate generates, with its laws [LogosLaws]; [LexRules]
      reads the attributes of [Token] as an instance of it.  [Layout] models the
      layout pass, a record threaded through one definition per method of the Rust
      struct; [Tokenize] models [tokenize], the two runs of layout.  [Nesting] is the
      stream contract as a checker; [LexRules] also reads the literals.  The facts are
      in [LayoutFacts] (phases and nesting), [LayoutErrors] (what is written and
      reported, and balanced sources) and [RawFacts].
    - The line index ([chl-parser/src/line_index.rs]) converts byte offsets to
      line/column positions for editors: [LineIndex].
    - The syntax tree and the surface builtins ([chl-parser/src/ast.rs], [builtins.rs]):
      [Syntax], the types of the tree as one mutual inductive with its parts as records.
    - The reference interpreter ([chl-interp/src/eval.rs], [value.rs]) says what a program
      denotes; the compiler is tested against it.  [InterpValues] holds values with their
      order, rendering and equality; [InterpText] the state of the interpreter, the
      operators, the walks over program text, and the dispatch of traits; [Interp] every
      statement, expression and builtin, as a state monad that keeps the state on errors,
      over the recursive calls, tied by fuel ([eval_at], [exec_at], [block_value_at]); and
      [run], which runs passes until no channel is read before it is complete.  A cell
      that Rust shares is an index into a store.  [InterpFrames] is what running anything
      may change, [InterpSettled] that pending values never mix with settled ones,
      [InterpFuel] that fuel does not matter, [InterpFacts] the laws of values and
      operators; each goes once through all methods with a tactic of its own.
    - The scalar operators ([src/scalar_ops.rs], [src/view.rs]): [ScalarOps], integers
      at their width with wrap-around, both overflow profiles.
    - Predicates ([src/interpreter/tiling/predicate.rs], tag maps of [src/ccl/ty.rs])
      are the regions of keys and nested paths that the runtime's guards are made of.
      [Predicate] models the algebra; its four operations call each other, so they are
      written over a record of the recursive calls and tied by fuel.  [PredicatePaths]
      models the operations on nested levels.  Key sets are the interface [KeySets]
      (the interval sets of the runtime).  [PredicateSem] gives the laws [KeySetLaws], over
      the points of a line on which the keys lie, since the runtime does not know the
      neighbours of every key and takes some intervals without a key to be nonempty; the
      domains, the region a predicate denotes and the well-formed predicates;
      [Returns] the combinators for fuel; [KeyMaps], [PredicateParts],
      [PredicateProducts] and [PredicateAlgebra] the proof that the
      algebra is exact, by induction on the domain; [PredicatePathFacts] the
      operations on levels; [KeyInstances] the keys the properties are evaluated at.
    - Releases and the stream buffer ([src/interpreter/producer_releases.rs],
      [stream_buffer.rs]) decide what a streaming source may drop: [Releases], over the
      predicates and the interface [IndexSets]; [ReleaseFacts], with the buffer as a
      step relation and an executable instance of the interfaces.
    - Interval sets ([src/interpreter/tiling/interval_sets.rs], the canonical runs of
      [predicate.rs]) are the sets of keys at run time: [IntervalSets], over the
      interface [IntervalCrate] for the intervalsets crate; [IntervalFacts] the orders
      of ends, the tests and the canonical form.
    - Guards ([src/interpreter/tiling/guard.rs], tilings of [tiling_kind.rs]) name the
      cells of a tiling that a consumer asks for or has released: [Guards], with
      predicates at the levels; [GuardSem] the cells a guard names and the guards of a
      tiling, [GuardFacts] and [GuardUnion] the proofs that the operations are exact.
    - Columns ([src/interpreter/types/value.rs], [column_value.rs], [column_view.rs],
      [src/interpreter/binop.rs]) hold one value per row: [Values] and [Columns], with the
      operators over them in [ColumnOps]; [KeyAdjacency] has the neighbours of a key; [ColumnFacts] that the operations read, cut,
      join and filter columns as lists of values.
    - Tiles ([src/interpreter/tiling/tile.rs], the empty tiles of [tiling_kind.rs], the
      folds of [src/ccl/aggregate.rs]) carry the data between operators: nested
      collections as key columns with a run per row.  [Tiles] holds rows, paths and the
      operations that gather them, [TileStores] the building of tiles and what they state
      complete, [Aggregates] the folds, [TileValid] validity, [TileMerges] the merge of two
      deliveries with the validity that debug builds assert of it, [TileReleases] the removal
      of what a guard names and withholding,
      [TileGuards] the guards read back off a tile.
      [TileRows] reads a tile's rows back as nested values ([row_of]) and says which tiles
      are well formed ([tile_ok]); [TileFacts], [TilePaths], [MergeSpec], [AppendFacts],
      [MergeFacts], [RemoveFacts] and [ValidFacts] prove the operations against the rows;
      [ValidFacts] also has the instance of [KeySets] they are evaluated at.
    - The scheduler ([src/interpreter/scheduler.rs], [Notified] of
      [tile_operators/mod.rs], the closures of [tile_operators/fanout.rs] and
      [sinks.rs]) carries notifications from sources to sinks: [Scheduler], with the
      consumers as a store of shared cells with their borrow states and gates.  What the pull
      of a sink runs is an argument, of which nothing is assumed.
    - Graphs and scopes ([src/util.rs]): [Graphs], Tarjan's algorithm over the arrays
      of the Rust struct and the stack of scopes.
    - Module paths and loading ([chl-parser/src/module_path.rs], [source_map.rs],
      [src/ccl/label.rs], [src/ccl/load/mod.rs], [load/graph.rs]) turn a root file into
      the modules of a program and the order they are linked in.  [ModulePaths] holds
      paths, labels and source maps, [Loading] the loader with the graph it builds,
      over the interface [ModuleFiles] and an argument for the parser; [Ordered] is
      what they use of ordered sets.  [LinkFacts] has the invariants of the link order
      and of the search for a cycle, [LoadFacts] that of the loader.

    A stream buffer's releases are predicates, so [Releases] is proved over what
    [PredicateSem] and [PredicateParts] give; guards hold predicates at their levels
    and are proved over the algebra of [PredicateAlgebra]; a tile's levels state
    predicates and a release is a guard, so [MergeFacts] and [RemoveFacts] rest on both
    algebras; the compiled operators of [ScalarOps] are proved to
    implement those of the reference interpreter ([InterpFacts]); the scheduler notifies the
    producers that read the buffers; the loader reads the cyclic components of
    [Graphs] and names modules by the lexer's rules ([LexRules]); the lexer and the
    line index share the source's bytes.

    ** Conventions

    Stateful code is state passing over a record; a panic, an [expect] or an
    [unreachable!] is [None].  A Rust [str] is its UTF-8 bytes.  Hash maps are
    finite maps, or the list of entries in key order where an order is observable.
    Rust vectors that are only used as stacks have their last element first, as the
    files say.  Nothing is assumed of the fuel: the properties show that from some
    amount on the code's answer is returned and no longer changes ([returns]), so
    neither a panic nor a loop hides behind it.  Where a bound is known it is used:
    the powers take the 64 rounds of a [u64] exponent, the index operations one level.

    ** What the theorems show ([LexerProps], [InterpProps], [PredicateProps],
    [GuardProps], [TileProps], [IntervalProps], [ReleaseProps], [LineProps],
    [SchedulerProps], [GraphProps], [LinkProps], [LoadProps], [PathProps])

    - C1 to C5, the lexer: every source gives a well-nested stream, with one error
      for each bracket the recovery closes; recovery never touches a source whose
      brackets balance; raw tokens tile the source in order; string literals round-trip.
    - C6 to C9, the reference interpreter: [run] answers values in which nothing is
      pending; while it speculates no failure is the program's and every effect is
      pending; whatever runs, the stacks are restored and the state only grows; and
      finitely many channels need finitely many passes.
    - C10 and C11, arithmetic: the reference is exact, and the compiled kernels give what
      it gives.
    - C12 and C13, collections: no two keys are equal, and commit times compare by rank.
    - C14 to C18, predicates: intersection, difference, union and the reduction of unions
      are exact on every domain of keys and nested paths; subsumption is the emptiness of a
      difference, and what it answers yes to holds.  Domains are read with open unions: a
      union key may carry a tag that no predicate names.
    - C19 to C22, guards: the normal form, union and intersection of guards of one tiling
      are guards of it and name exactly the cells they should; a path called covered may be
      reclaimed.
    - C23 to C27, tiles: two deliveries merge into the entries of both, matched by key at
      every depth, and complete just where one of them is; removing a guard takes out the
      cells it takes and nothing it does not name; keeping paths and compacting give the
      rows they should; a tile of typed columns that the runtime's validity check accepts,
      with no keys where there are no rows, is one these theorems apply to.
    - C28 and C29, interval sets: sets called covered are included and canonical runs keep
      the values; over keys whose neighbours are known, coverage is inclusion and the
      canonical runs of a set are unique.
    - C30 and C31, releases: a release drops just the front run all released, and the
      buffer answers the values pushed in every reachable state.
    - C32, the line index: offsets and positions round-trip in both encodings.
    - C33 and C34, the scheduler: a notification cascade of consumers that do not pull ends
      on every graph, cyclic ones included, without re-entering a consumer, and a delivery
      pulls every sink a change leads to, whatever the pulls do.
    - C35, graphs: components are the classes of mutual reachability, dependencies
      first.
    - C36 and C37, the module graph: the link order is the greedy topological order by
      module path; cycles are reported one per component, each a shortest through its
      least module.
    - C38 to C40, loading: it ends with every file the root reaches, each once, and
      every statement has its edge or its error; labels are read back from the keys that
      records have at run time.

    The files hold further theorems of the same components (tokens kept by layout,
    powers and floor division at both widths, zipped views, integer literals, regions
    beneath a row and covered from above, selected rows, appended
    columns, the runs of a column, the agreement of producers, lines, paths read up a
    tile, module names, gates, registrations, scopes, linked programs)
    beside these.
    [PredicateProps] also records three places where the code departs from its
    comments ([flatten_or_nests], [subsumes_open_tags], [paired_inner_levels_panic]),
    and [PathProps] one ([label_colon_spelling]).  [InterpProps] has a program in which a
    failure of a comprehension leaves speculation ([comprehension_failure_escapes]),
    [KeyAdjacency] two strings without a string between them that are not neighbours
    ([strings_without_neighbours]), and [ValidFacts] a tile that validity accepts with keys
    in no row ([ungrounded_accepted]).

    ** Bounds and fuel

    The search for components takes one call per vertex, the search for a cycle and
    the link order one round per module and one to stop, loading one round per module
    that has a file, one for the root and one to stop, [run] one pass per channel and one
    more, compaction and merging a few calls per level of a tile; the theorems show these
    are enough.  The recursion of the interpreter is on fuel, and its answers do not depend
    on it.  File ids are below [2^32], as the source map asserts.

    ** What is not modelled

    The logos lexer and the intervalsets crate are code outside the repository and
    stay interfaces; so does the parser, built from the chumsky crate, in [Loading].
    The reference interpreter is modelled from the parsed module on, so parse errors are
    left out of it, its messages are templates, and the [Debug] rendering of a string, which
    reads Unicode tables, is the parameter [debug_str].
    Of [guard.rs] [check_from] and [onto_record_field] are left out, of
    [value.rs] the functions that are code, of [tile.rs] the levels
    inserted beneath others and the validity that debug builds assert of regrouped
    collections, and of [load/] the files on disk.  Of the consumers those that pull while
    they are notified, which the tests of the scheduler build, are left out.  The
    theorems on removal and validity are about tilings of collections, records and
    scalars; those on merging about collections that hold no store, and no aggregate where
    their keys can match.
    Not modelled: the tile operators and the commit operator, which keep their state in
    closures and reference-counted cells over the tiles modelled here; the CCL terms with
    inference, lowering and the passes on them; the parser, whose grammar is written with
    the combinators of the chumsky crate and whose recovery is that crate's; the lexer's
    highlighting; sockets, HTTP, the inspector's views, the editors' clients, and printing.
*)

From Stdlib Require Export Ascii.
From Stdlib Require Import Sorting.Sorted Sorting.Permutation.
From stdpp Require Export base tactics option list strings sets.

(** Byte strings: Rust's [str] as the list of its UTF-8 bytes. *)
Abbreviation bytes := (list ascii).

Declare Scope cambra_scope.
Delimit Scope cambra_scope with cambra.

(** The line feed, [b'\n']. *)
Definition LF : ascii := "010"%char.

(** A literal, as bytes. *)
Definition lit (s : string) : bytes := String.list_ascii_of_string s.

(** ** Automation *)

Create HintDb cambra.
Create Rewrite HintDb cambra_rw.

(** Case analysis on the scrutinee of the first [match] or [if] of the goal or
    of a hypothesis, keeping the equation. *)
Ltac case_goal :=
  match goal with
  | |- context [match ?x with _ => _ end] => destruct x eqn:?
  end.

Ltac case_hyp H :=
  match type of H with
  | context [match ?x with _ => _ end] => destruct x eqn:?
  end.

(** Boolean tests as propositions, everywhere. *)
Ltac breflect :=
  repeat match goal with
  | H : andb _ _ = true |- _ => apply andb_true_iff in H as [? ?]
  | H : orb _ _ = false |- _ => apply orb_false_iff in H as [? ?]
  | H : negb _ = true |- _ => apply negb_true_iff in H
  | H : negb _ = false |- _ => apply negb_false_iff in H
  | H : Nat.eqb _ _ = true |- _ => apply Nat.eqb_eq in H
  | H : Nat.eqb _ _ = false |- _ => apply Nat.eqb_neq in H
  | H : Nat.ltb _ _ = true |- _ => apply Nat.ltb_lt in H
  | H : Nat.ltb _ _ = false |- _ => apply Nat.ltb_ge in H
  | H : Nat.leb _ _ = true |- _ => apply Nat.leb_le in H
  | H : Nat.leb _ _ = false |- _ => apply Nat.leb_gt in H
  end.

(** ** Stable sorting by a key: Rust's [sort_by_key]. *)
Section SortByKey.
Context {A : Type} (key : A -> nat).

Fixpoint insert_by_key (x : A) (l : list A) : list A :=
  match l with
  | [] => [x]
  | y :: l' => if key x <=? key y then x :: l else y :: insert_by_key x l'
  end.

Definition sort_by_key (l : list A) : list A := foldr insert_by_key [] l.

Lemma insert_by_key_perm x l : insert_by_key x l ≡ₚ x :: l.
Proof.
  induction l as [|y l IH]; simpl; [done|].
  case_match; [done|]. rewrite IH. apply Permutation_swap.
Qed.

Lemma sort_by_key_perm l : sort_by_key l ≡ₚ l.
Proof.
  induction l as [|x l IH]; simpl; [done|].
  by rewrite insert_by_key_perm, IH.
Qed.

Lemma insert_by_key_sorted x l :
  StronglySorted (fun a b => key a <= key b) l ->
  StronglySorted (fun a b => key a <= key b) (insert_by_key x l).
Proof.
  induction 1 as [|y l Hs IH Hy]; simpl; [repeat constructor|].
  destruct (key x <=? key y) eqn:E; breflect.
  - constructor; [by constructor|]. constructor; [done|].
    eapply Forall_impl; [exact Hy|]. simpl. lia.
  - constructor; [done|].
    rewrite insert_by_key_perm. constructor; [lia|done].
Qed.

Lemma sort_by_key_sorted l :
  StronglySorted (fun a b => key a <= key b) (sort_by_key l).
Proof.
  induction l as [|x l IH]; simpl; [constructor|].
  by apply insert_by_key_sorted.
Qed.
End SortByKey.

(** ** Counting elements a boolean test accepts *)
Section Count.
Context {A : Type} (f : A -> bool).

Fixpoint countb (l : list A) : nat :=
  match l with
  | [] => 0
  | x :: l' => (if f x then 1 else 0) + countb l'
  end.

Lemma countb_app l1 l2 : countb (l1 ++ l2) = countb l1 + countb l2.
Proof. induction l1 as [|x l1 IH]; simpl; [done|]. rewrite IH. lia. Qed.

Lemma countb_snoc l x : countb (l ++ [x]) = countb l + (if f x then 1 else 0).
Proof. rewrite countb_app. simpl. lia. Qed.

Lemma countb_perm l1 l2 : l1 ≡ₚ l2 -> countb l1 = countb l2.
Proof. induction 1; simpl; lia. Qed.

Lemma countb_lt (g : A -> bool) l x :
  (forall y, y ∈ l -> f y = true -> g y = true) -> x ∈ l -> f x = false -> g x = true ->
  countb l < length (List.filter g l).
Proof.
  intros Hfg Hin Hfx Hgx.
  assert (forall l, (forall y, y ∈ l -> f y = true -> g y = true) ->
    countb l <= length (List.filter g l)) as Hle.
  { induction l0 as [|y l0 IH]; simpl; [lia|]. intros H.
    pose proof (IH (fun z Hz => H z (list_elem_of_further _ _ _ Hz))).
    pose proof (H y (list_elem_of_here _ _)). destruct (f y); [rewrite H1 by done; simpl; lia|].
    destruct (g y); simpl; lia. }
  induction l as [|y l IH]; simpl; [by apply elem_of_nil in Hin|].
  apply elem_of_cons in Hin as [<-|Hin].
  - rewrite Hfx, Hgx. simpl. specialize (Hle l).
    assert (countb l <= length (List.filter g l)); [|lia].
    apply Hle. intros z Hz. apply Hfg. by right.
  - assert (countb l < length (List.filter g l)).
    { apply IH; [|done]. intros z Hz. apply Hfg. by right. }
    pose proof (Hfg y (list_elem_of_here _ _)). destruct (f y); [rewrite H0 by done; simpl; lia|].
    destruct (g y); simpl; lia.
Qed.

Lemma countb_filter l : countb l = length (List.filter f l).
Proof. induction l as [|x l IH]; simpl; [done|]. destruct (f x); simpl; lia. Qed.
End Count.

(** ** [Vec::dedup]: adjacent equal elements reduced to one. *)
Fixpoint dedup {A} `{EqDecision A} (l : list A) : list A :=
  match l with
  | x :: (y :: _) as rest => if decide (x = y) then dedup rest else x :: dedup rest
  | _ => l
  end.

(** ** [slice::partition_point], of a list whose first elements are those that meet [f]. *)
Fixpoint partition_point {A} (f : A -> bool) (l : list A) : nat :=
  match l with
  | [] => 0
  | x :: l => if f x then S (partition_point f l) else 0
  end.

Lemma partition_point_before {A} (f : A -> bool) (l : list A) j x : j < partition_point f l -> l !! j = Some x -> f x = true.
Proof.
  revert j. induction l as [|y l IH]; intros j; simpl; [lia|]. destruct (f y) eqn:E; [|lia].
  destruct j as [|j]; simpl; [congruence|]. intros ? ?. apply (IH j); [lia|done].
Qed.

Lemma partition_point_at {A} (f : A -> bool) (l : list A) x : l !! partition_point f l = Some x -> f x = false.
Proof. induction l as [|y l IH]; simpl; [done|]. destruct (f y) eqn:E; simpl; [done|congruence]. Qed.

(** A case analysis that a boolean goal allows. *)
Lemma bool_cases (P : Prop) (b : bool) : (P -> b = true) -> (~ P -> b = true) -> b = true.
Proof. destruct b; [done|]. intros Hp Hn. apply Hn. intros H. by specialize (Hp H). Qed.

(** The first element that meets [P], where the goal allows to look for it. *)
Lemma first_meeting {A} (P : A -> Prop) (b : bool) (l : list A) :
  (exists x, x ∈ l /\ P x) ->
  (forall k x, l !! k = Some x -> P x -> (forall j y, j < k -> l !! j = Some y -> ~ P y) -> b = true) -> b = true.
Proof.
  intros Hex. revert b. induction l as [|y l IH]; intros b Hb; [by destruct Hex as (? & ?%not_elem_of_nil & _)|].
  apply (bool_cases (P y)); intros Hy; [by apply (Hb 0 y); [..|lia]|].
  apply IH.
  - destruct Hex as (x & Hx & Hp). apply elem_of_cons in Hx as [->|Hx]; [done|eauto].
  - intros k x Hk Hp Hmin. apply (Hb (S k) x Hk Hp). intros [|j] z Hj; simpl; [by intros [= <-]|].
    apply Hmin. lia.
Qed.

(** ** [mapM] over [option] *)

Lemma mapM_rel {A B} (f : A -> option B) (P : A -> B -> Prop) l :
  (forall x, x ∈ l -> exists y, f x = Some y /\ P x y) -> exists r, mapM f l = Some r /\ Forall2 P l r.
Proof.
  induction l as [|x l IH]; intros H; simpl; [by exists []|].
  destruct (H x) as (y & -> & Hy); [set_solver|]. destruct IH as (r & -> & Hr); [set_solver|].
  exists (y :: r). split; [done|by constructor].
Qed.

Lemma mapM_some {A B} (f : A -> option B) l :
  (forall x, x ∈ l -> is_Some (f x)) ->
  exists r, mapM f l = Some r /\ Forall2 (fun x y => f x = Some y) l r.
Proof. intros H. apply mapM_rel. intros x Hx. destruct (H x Hx) as [y ->]. eauto. Qed.

Lemma elem_of_mapM {A B} (f : A -> option B) l r y :
  mapM f l = Some r -> y ∈ r <-> exists x, x ∈ l /\ f x = Some y.
Proof.
  intros E%mapM_Some. induction E as [|x z l r Hx _ IH]; [set_solver|].
  rewrite elem_of_cons, IH. split.
  - intros [->|(w & ? & ?)]; [exists x; set_solver|exists w; set_solver].
  - intros (w & [->|Hw]%elem_of_cons & E); [left; congruence|right; eauto].
Qed.

Lemma mapM_omap {A B C} (f : A -> option B) (g : B -> option C) l r :
  mapM f l = Some r -> omap g r = omap (fun x => y ← f x; g y) l.
Proof.
  intros H%mapM_Some. induction H as [|x y l r Hx _ IH]; [done|]. csimpl. rewrite Hx. simpl. by rewrite IH.
Qed.

Lemma omap_sorted {A B} (R : A -> A -> Prop) (S : B -> B -> Prop) (g : A -> option B) l :
  (forall x y x' y', R x y -> g x = Some x' -> g y = Some y' -> S x' y') ->
  StronglySorted R l -> StronglySorted S (omap g l).
Proof.
  intros H. induction 1 as [|x l _ IH Hx]; [constructor|]. csimpl. destruct (g x) as [x'|] eqn:E; [|done].
  constructor; [done|]. apply Forall_forall. intros y' (y & Hy & E')%list_elem_of_omap.
  rewrite Forall_forall in Hx. eauto.
Qed.

(** ** Masks *)

(** The indices a mask keeps: [mask.iter().enumerate().filter_map(..)]. *)
Definition kept (mask : list bool) : list nat :=
  omap (fun '(i, keep) => if (keep : bool) then Some i else None) (imap pair mask).

(** The elements a mask keeps. *)
Fixpoint masked {A} (mask : list bool) (l : list A) : list A :=
  match mask, l with
  | keep :: mask, x :: l => if keep then x :: masked mask l else masked mask l
  | _, _ => []
  end.

Lemma imap_pair_shift {A} (l : list A) : imap (fun i x => (S i, x)) l = map (fun '(i, x) => (S i, x)) (imap pair l).
Proof. apply list_eq. intros i. rewrite list_lookup_fmap, !list_lookup_imap. by destruct (l !! i). Qed.

Lemma kept_mask_cons b mask : kept (b :: mask) = (if b then [0] else []) ++ map S (kept mask).
Proof.
  assert (H : omap (fun '(i, keep) => if (keep : bool) then Some i else None) (imap (fun i x => (S i, x)) mask) = map S (kept mask)).
  { rewrite imap_pair_shift. unfold kept. induction (imap pair mask) as [|[i k] l IH]; [done|]. csimpl. destruct k; simpl; by rewrite IH. }
  unfold kept at 1. rewrite imap_cons. csimpl. destruct b; [exact (f_equal (cons 0) H)|exact H].
Qed.

Lemma elem_of_kept mask i : i ∈ kept mask <-> mask !! i = Some true.
Proof.
  unfold kept. rewrite list_elem_of_omap. split.
  - intros ([j b] & Hin & E). destruct b; [|done]. simplify_eq. apply list_elem_of_lookup in Hin as [x Hx].
    rewrite list_lookup_imap in Hx. destruct (mask !! x) eqn:E; [|done]. simpl in Hx. by simplify_eq.
  - intros Hi. exists (i, true). split; [|done]. apply list_elem_of_lookup. exists i. by rewrite list_lookup_imap, Hi.
Qed.

Lemma kept_lt mask : Forall (fun i => i < length mask) (kept mask).
Proof. apply Forall_forall. intros i Hi%elem_of_kept. by apply lookup_lt_Some in Hi. Qed.

Lemma length_kept mask : length (kept mask) = countb id mask.
Proof.
  induction mask as [|b mask IH]; [done|]. rewrite kept_mask_cons, length_app, length_map, IH. by destruct b.
Qed.

Lemma masked_select {A} (mask : list bool) (l : list A) :
  length mask = length l -> mapM (fun i => l !! i) (kept mask) = Some (masked mask l).
Proof.
  revert l. induction mask as [|b mask IH]; intros [|x l] H; simpl in H; try done.
  rewrite kept_mask_cons. assert (E : mapM (fun i => (x :: l) !! i) (map S (kept mask)) = Some (masked mask l)).
  { rewrite <- IH by lia. clear. induction (kept mask) as [|i k IH]; simpl; [done|]. by rewrite IH. }
  destruct b; simpl; [by rewrite E|done].
Qed.

Lemma kept_sorted mask : StronglySorted lt (kept mask).
Proof.
  induction mask as [|b mask IH]; [constructor|]. rewrite kept_mask_cons.
  assert (H : StronglySorted lt (map S (kept mask))).
  { clear b. induction IH as [|i l _ IH Hi]; simpl; constructor; [done|].
    apply Forall_forall. intros j Hj. apply list_elem_of_In, in_map_iff in Hj as (k & <- & Hk%list_elem_of_In).
    rewrite Forall_forall in Hi. apply Hi in Hk. lia. }
  destruct b; simpl; [|done]. constructor; [done|]. apply Forall_forall. intros j Hj.
  apply list_elem_of_In, in_map_iff in Hj as (k & <- & _). lia.
Qed.
