(* ===== verification/Tokens.v ===== *)
(** * The CHL token alphabet ([chl-parser/src/lexer.rs], [ast.rs], [builtins.rs])

    Spans, tokens with their spellings, bracket kinds, lexical errors, the
    surface-builtin table and the highlight classes.  A Rust variant [Token::X]
    is the constructor [TX]: the bare names [True] and [False] are Rocq's. *)

From S2P Require Import Prelude.

(** ** Spans *)

(** [FileId(u32)], an index into a compilation's source map. *)
Definition FileId := nat.

Record Span := mkSpan { file : FileId; start : nat; end_ : nat }.

#[export] Instance Span_eq_dec : EqDecision Span.
Proof. solve_decision. Defined.

(** [Span::join]: the span covering both and the text between them. *)
Definition span_join (a b : Span) : Span :=
  mkSpan (file a) (Nat.min (start a) (start b)) (Nat.max (end_ a) (end_ b)).

(** ** Tokens *)

Inductive Token :=
  | TNewline | TIndent | TDedent | TBlockValueIndent | TBlockValueDedent | TError
  | TTrue | TFalse | TWhere | TAnd | TOr | TNot | TIf | TElif | TElse | TFor | TIn
  | TDef | TReturn | TYield | TPass | TWith | TMatch | TCase | TForall | TRequires
  | TType | TImpl | TInstance | TTrait | TImport | TUse | TAs | TPub | TRun
  | TParam | TConst | TThis
  | TLShiftEq | TLShift | TEqEq | TNotEq | TLtE | TLtColon | TGtE | TPlusPlus
  | TPlusEq | TCaretPlus | TCaretEq | TMinusEq | TArrow | TDoubleArrow | TDataArrow
  | TStarStar | TStarEq | TDoubleSlashEq | TDoubleSlash
  | TPlus | TMinus | TStar | TAmp | TPipe | TCaret | TEq | TLt | TGt
  | TLParen | TRParen | TLBracket | TRBracket | TBang | TLBrace | TRBrace | TComma
  | TColon | TColonEq | TColonColon | TDot | TDotDot | TBacktick | TSemi
  | TBackslash | TAt
  | TInt (n : Z) | TString (s : bytes) | TIdent (s : bytes).

#[export] Instance Token_eq_dec : EqDecision Token.
Proof. solve_decision. Defined.

Abbreviation spanned := (Token * Span)%type.

(** The constant [KEYWORDS]: every keyword spelling and the token it lexes to. *)
Definition KEYWORDS : list (string * Token) :=
  [ ("True", TTrue); ("False", TFalse); ("where", TWhere); ("and", TAnd);
    ("or", TOr); ("not", TNot); ("if", TIf); ("elif", TElif); ("else", TElse);
    ("for", TFor); ("in", TIn); ("def", TDef); ("return", TReturn);
    ("yield", TYield); ("pass", TPass); ("with", TWith); ("match", TMatch);
    ("case", TCase); ("forall", TForall); ("requires", TRequires);
    ("type", TType); ("impl", TImpl); ("instance", TInstance);
    ("trait", TTrait); ("import", TImport); ("use", TUse); ("as", TAs);
    ("pub", TPub); ("run", TRun); ("param", TParam); ("const", TConst);
    ("this", TThis) ]%string.

(** The fixed spellings of the [#[token]] attributes that are not keywords. *)
Definition SYMBOLS : list (string * Token) :=
  [ ("<<=", TLShiftEq); ("<<", TLShift); ("==", TEqEq); ("!=", TNotEq);
    ("<=", TLtE); ("<:", TLtColon); (">=", TGtE); ("++", TPlusPlus);
    ("+=", TPlusEq); ("^+", TCaretPlus); ("^=", TCaretEq); ("-=", TMinusEq);
    ("->", TArrow); ("=>", TDoubleArrow); ("|=>", TDataArrow);
    ("**", TStarStar); ("*=", TStarEq); ("//=", TDoubleSlashEq);
    ("//", TDoubleSlash); ("+", TPlus); ("-", TMinus); ("*", TStar);
    ("&", TAmp); ("|", TPipe); ("^", TCaret); ("=", TEq); ("<", TLt);
    (">", TGt); ("(", TLParen); (")", TRParen); ("[", TLBracket);
    ("]", TRBracket); ("!", TBang); ("{", TLBrace); ("}", TRBrace);
    (",", TComma); (":", TColon); (":=", TColonEq); ("::", TColonColon);
    (".", TDot); ("..", TDotDot); ("`", TBacktick); (";", TSemi);
    ("\", TBackslash); ("@", TAt) ]%string.

(** [impl Display for Token]. *)
Definition token_display (t : Token) : string :=
  match t with
  | TNewline => "newline"
  | TIndent | TBlockValueIndent => "indent"
  | TDedent | TBlockValueDedent => "dedent"
  | TError => "unrecognized characters"
  | TTrue => "True" | TFalse => "False" | TWhere => "where" | TForall => "forall"
  | TRequires => "requires" | TType => "type" | TImpl => "impl"
  | TInstance => "instance" | TTrait => "trait" | TAnd => "and" | TOr => "or"
  | TNot => "not" | TIf => "if" | TElif => "elif" | TElse => "else" | TFor => "for"
  | TIn => "in" | TDef => "def" | TReturn => "return" | TYield => "yield"
  | TPass => "pass" | TWith => "with" | TMatch => "match" | TCase => "case"
  | TImport => "import" | TUse => "use" | TAs => "as" | TPub => "pub"
  | TRun => "run" | TParam => "param" | TConst => "const" | TThis => "this"
  | TLShiftEq => "<<=" | TLShift => "<<" | TEqEq => "==" | TNotEq => "!="
  | TLtE => "<=" | TLtColon => "<:" | TGtE => ">=" | TPlusPlus => "++"
  | TPlusEq => "+=" | TCaretPlus => "^+" | TCaretEq => "^=" | TMinusEq => "-="
  | TArrow => "->" | TDoubleArrow => "=>" | TDataArrow => "|=>"
  | TStarStar => "**" | TStarEq => "*=" | TDoubleSlashEq => "//="
  | TDoubleSlash => "//" | TPlus => "+" | TMinus => "-" | TStar => "*"
  | TAmp => "&" | TPipe => "|" | TCaret => "^" | TEq => "=" | TLt => "<"
  | TGt => ">" | TLParen => "(" | TRParen => ")" | TLBracket => "["
  | TRBracket => "]" | TBang => "!" | TLBrace => "{" | TRBrace => "}"
  | TComma => "," | TColon => ":" | TColonEq => ":=" | TColonColon => "::"
  | TDot => "." | TDotDot => ".." | TBacktick => "`" | TSemi => ";"
  | TAt => "@" | TBackslash => "\"
  | TInt _ => "integer literal" | TString _ => "string literal"
  | TIdent _ => "identifier"
  end.

(** ** Token classes the layout pass reads *)

Definition is_newline (t : Token) : bool :=
  match t with TNewline => true | _ => false end.

(** The tokens no logos rule produces: layout's four, and [Error]. *)
Definition is_synthesised (t : Token) : bool :=
  match t with
  | TIndent | TDedent | TBlockValueIndent | TBlockValueDedent | TError => true
  | _ => false
  end.

(** Layout's four tokens. *)
Definition is_layout (t : Token) : bool :=
  match t with
  | TIndent | TDedent | TBlockValueIndent | TBlockValueDedent => true
  | _ => false
  end.

(** [opens_block_at_line_start]. *)
Definition opens_block_at_line_start (t : Token) : bool :=
  match t with
  | TIf | TElif | TElse | TFor | TDef | TType | TImpl | TInstance | TTrait
  | TWith | TMatch | TCase => true
  | _ => false
  end.

(** ** Brackets *)

Inductive Bracket := Paren | Square | Brace.

#[export] Instance Bracket_eq_dec : EqDecision Bracket.
Proof. solve_decision. Defined.

(** [Bracket::opened_by]. *)
Definition opened_by (t : Token) : option Bracket :=
  match t with
  | TLParen => Some Paren | TLBracket => Some Square | TLBrace => Some Brace
  | _ => None
  end.

(** [Bracket::closed_by]. *)
Definition closed_by (t : Token) : option Bracket :=
  match t with
  | TRParen => Some Paren | TRBracket => Some Square | TRBrace => Some Brace
  | _ => None
  end.

(** [Bracket::close_token]. *)
Definition close_token (b : Bracket) : Token :=
  match b with Paren => TRParen | Square => TRBracket | Brace => TRBrace end.

Definition is_closer (t : Token) : bool :=
  match closed_by t with Some _ => true | None => false end.

Lemma closed_by_close_token b : closed_by (close_token b) = Some b.
Proof. by destruct b. Qed.

Lemma opened_by_close_token b : opened_by (close_token b) = None.
Proof. by destruct b. Qed.

Lemma closed_by_inv t b : closed_by t = Some b -> t = close_token b.
Proof. by destruct t; simpl; intros [= <-]. Qed.

Lemma opened_not_closed t b : opened_by t = Some b -> closed_by t = None.
Proof. by destruct t. Qed.

(** ** Lexical errors *)

Inductive LexError :=
  | InvalidToken (span : Span)
  | UnterminatedString (span : Span)
  | DetachedBacktick (span : Span)
  | UnmatchedClose (span : Span)
  | MismatchedClose (span : Span) (close : Bracket) (open_ : Span) (opener : Bracket)
  | UnclosedBracket (span : Span)
  | InconsistentIndent (span : Span).

#[export] Instance LexError_eq_dec : EqDecision LexError.
Proof. solve_decision. Defined.

(** [LexError::span]. *)
Definition error_span (e : LexError) : Span :=
  match e with
  | InvalidToken s | UnterminatedString s | DetachedBacktick s | UnmatchedClose s
  | UnclosedBracket s | InconsistentIndent s | MismatchedClose s _ _ _ => s
  end.

(** The errors that stand for an open bracket nothing in the source closes. *)
Definition is_never_closed (e : LexError) : bool :=
  match e with UnclosedBracket _ | MismatchedClose _ _ _ _ => true | _ => false end.

(** [LexError::related]: the open bracket of a mismatched close. *)
Definition error_related (e : LexError) : option Span :=
  match e with MismatchedClose _ _ o _ => Some o | _ => None end.
