(* ===== verification/Layout.v ===== *)
(** * The off-side rule ([chl-parser/src/lexer.rs], [Layout])

    One run of the layout pass over the raw tokens of a source.  The Rust
    [Layout] is a mutable struct; here it is a record threaded through the
    operations, one definition per method.  The two stacks ([indent_stack] and
    [brackets]) are lists with the Rust vector's last element first.  A method
    that can panic (an [expect], a slice out of range) returns [None] where the
    code panics. *)

From S2P Require Import Prelude Tokens.

(** ** Indentation levels *)

Inductive Level :=
  | Fixed (c : nat)
  | Pending (min : nat)
  | Pinned (c : nat).

#[export] Instance Level_eq_dec : EqDecision Level.
Proof. solve_decision. Defined.

(** [Level::floor]. *)
Definition floor (l : Level) : nat :=
  match l with Fixed c | Pinned c => c | Pending min => min end.

(** [Level::closer]. *)
Definition closer (l : Level) : Token :=
  match l with Fixed _ => TDedent | Pending _ | Pinned _ => TBlockValueDedent end.

(** [Level::strands]. *)
Definition strands (l : Level) (indent : nat) : bool :=
  match l with Fixed c | Pinned c => c <? indent | Pending _ => false end.

(** [Level::closes_at]. *)
Definition closes_at (l : Level) (indent : nat) : bool :=
  match l with Fixed c | Pinned c => indent <? c | Pending min => indent <=? min end.

Definition is_fixed (l : Level) : bool :=
  match l with Fixed _ => true | _ => false end.

(** ** Open brackets *)

Record OpenBracket := mkOpen {
  kind : Bracket;
  ospan : Span;
  index : nat;
  ob_resync : bool;
  statement_ended : bool;
  stray : option (Bracket * Span)
}.

(** [OpenBracket::closes_early]. *)
Definition closes_early (b : OpenBracket) : bool :=
  ob_resync b || bool_decide (is_Some (stray b)).

Definition set_statement_ended (b : OpenBracket) : OpenBracket :=
  mkOpen (kind b) (ospan b) (index b) (ob_resync b) true (stray b).

Definition set_stray (b : OpenBracket) (s : Bracket * Span) : OpenBracket :=
  mkOpen (kind b) (ospan b) (index b) (ob_resync b) (statement_ended b) (Some s).

(** [innermost.stray.get_or_insert(s)]. *)
Definition stray_get_or_insert (b : OpenBracket) (s : Bracket * Span) : OpenBracket :=
  match stray b with Some _ => b | None => set_stray b s end.

(** ** The state of a run *)

Record Layout := mkLayout {
  lfile : FileId;
  source : bytes;
  out : list spanned;
  errors : list LexError;
  indent_stack : list Level;
  brackets : list OpenBracket;
  resync : list nat;
  resync_next : list nat;
  at_line_start : bool;
  dropped_newline : option Span;
  line_head : nat * nat;
  block_value_indents : list (nat * nat);
  line_opens_at_first_token : bool;
  head_next : bool;
  head_is_line_first : bool;
  line_short : bool;
  short_header : option nat;
  line_indent : nat
}.

Definition set_out (f : list spanned -> list spanned) (s : Layout) : Layout :=
  mkLayout (lfile s) (source s) (f (out s)) (errors s) (indent_stack s) (brackets s)
    (resync s) (resync_next s) (at_line_start s) (dropped_newline s) (line_head s)
    (block_value_indents s) (line_opens_at_first_token s) (head_next s)
    (head_is_line_first s) (line_short s) (short_header s) (line_indent s).

Definition set_errors (f : list LexError -> list LexError) (s : Layout) : Layout :=
  mkLayout (lfile s) (source s) (out s) (f (errors s)) (indent_stack s) (brackets s)
    (resync s) (resync_next s) (at_line_start s) (dropped_newline s) (line_head s)
    (block_value_indents s) (line_opens_at_first_token s) (head_next s)
    (head_is_line_first s) (line_short s) (short_header s) (line_indent s).

Definition set_indent_stack (x : list Level) (s : Layout) : Layout :=
  mkLayout (lfile s) (source s) (out s) (errors s) x (brackets s)
    (resync s) (resync_next s) (at_line_start s) (dropped_newline s) (line_head s)
    (block_value_indents s) (line_opens_at_first_token s) (head_next s)
    (head_is_line_first s) (line_short s) (short_header s) (line_indent s).

Definition set_brackets (x : list OpenBracket) (s : Layout) : Layout :=
  mkLayout (lfile s) (source s) (out s) (errors s) (indent_stack s) x
    (resync s) (resync_next s) (at_line_start s) (dropped_newline s) (line_head s)
    (block_value_indents s) (line_opens_at_first_token s) (head_next s)
    (head_is_line_first s) (line_short s) (short_header s) (line_indent s).

Definition set_resync_next (x : list nat) (s : Layout) : Layout :=
  mkLayout (lfile s) (source s) (out s) (errors s) (indent_stack s) (brackets s)
    (resync s) x (at_line_start s) (dropped_newline s) (line_head s)
    (block_value_indents s) (line_opens_at_first_token s) (head_next s)
    (head_is_line_first s) (line_short s) (short_header s) (line_indent s).

Definition set_at_line_start (x : bool) (s : Layout) : Layout :=
  mkLayout (lfile s) (source s) (out s) (errors s) (indent_stack s) (brackets s)
    (resync s) (resync_next s) x (dropped_newline s) (line_head s)
    (block_value_indents s) (line_opens_at_first_token s) (head_next s)
    (head_is_line_first s) (line_short s) (short_header s) (line_indent s).

Definition set_dropped_newline (x : option Span) (s : Layout) : Layout :=
  mkLayout (lfile s) (source s) (out s) (errors s) (indent_stack s) (brackets s)
    (resync s) (resync_next s) (at_line_start s) x (line_head s)
    (block_value_indents s) (line_opens_at_first_token s) (head_next s)
    (head_is_line_first s) (line_short s) (short_header s) (line_indent s).

(** The four fields [statement_head] writes. *)
Definition set_head (lh : nat * nat) (opens hn : bool) (s : Layout) : Layout :=
  mkLayout (lfile s) (source s) (out s) (errors s) (indent_stack s) (brackets s)
    (resync s) (resync_next s) (at_line_start s) (dropped_newline s) lh
    (block_value_indents s) opens hn
    (head_is_line_first s) (line_short s) (short_header s) (line_indent s).

Definition set_head_next (hn first : bool) (s : Layout) : Layout :=
  mkLayout (lfile s) (source s) (out s) (errors s) (indent_stack s) (brackets s)
    (resync s) (resync_next s) (at_line_start s) (dropped_newline s) (line_head s)
    (block_value_indents s) (line_opens_at_first_token s) hn
    first (line_short s) (short_header s) (line_indent s).

Definition set_block_value_indents (x : list (nat * nat)) (s : Layout) : Layout :=
  mkLayout (lfile s) (source s) (out s) (errors s) (indent_stack s) (brackets s)
    (resync s) (resync_next s) (at_line_start s) (dropped_newline s) (line_head s)
    x (line_opens_at_first_token s) (head_next s)
    (head_is_line_first s) (line_short s) (short_header s) (line_indent s).

Definition set_line_short (x : bool) (s : Layout) : Layout :=
  mkLayout (lfile s) (source s) (out s) (errors s) (indent_stack s) (brackets s)
    (resync s) (resync_next s) (at_line_start s) (dropped_newline s) (line_head s)
    (block_value_indents s) (line_opens_at_first_token s) (head_next s)
    (head_is_line_first s) x (short_header s) (line_indent s).

Definition set_short_header (x : option nat) (s : Layout) : Layout :=
  mkLayout (lfile s) (source s) (out s) (errors s) (indent_stack s) (brackets s)
    (resync s) (resync_next s) (at_line_start s) (dropped_newline s) (line_head s)
    (block_value_indents s) (line_opens_at_first_token s) (head_next s)
    (head_is_line_first s) (line_short s) x (line_indent s).

Definition set_line_indent (x : nat) (s : Layout) : Layout :=
  mkLayout (lfile s) (source s) (out s) (errors s) (indent_stack s) (brackets s)
    (resync s) (resync_next s) (at_line_start s) (dropped_newline s) (line_head s)
    (block_value_indents s) (line_opens_at_first_token s) (head_next s)
    (head_is_line_first s) (line_short s) (short_header s) x.

(** [self.out.push((tok, span))] and [self.errors.push(e)]. *)
Definition push_out (tok : Token) (span : Span) : Layout -> Layout :=
  set_out (fun o => o ++ [(tok, span)]).

Definition push_error (e : LexError) : Layout -> Layout :=
  set_errors (fun es => es ++ [e]).

(** ** The operations *)

(** [source[..n].rfind('\n').map(|i| i + 1).unwrap_or(0)]: where the line
    holding offset [n] starts. *)
Fixpoint line_start_of (src : bytes) (n at_ start : nat) : nat :=
  match n, src with
  | S n', c :: src' =>
      line_start_of src' n' (S at_) (if Ascii.eqb c LF then S at_ else start)
  | _, _ => start
  end.

(** [Layout::column]: the line's start and the column in it.  [None] where the
    slice [source[..span.start]] is out of range. *)
Definition column (s : Layout) (span : Span) : option (nat * nat) :=
  if start span <=? length (source s) then
    let ls := line_start_of (source s) (start span) 0 0 in
    Some (ls, start span - ls)
  else None.

(** [Layout::statement_head]. *)
Definition statement_head (tok : Token) (span : Span) (s : Layout) : Layout :=
  set_head (length (out s), start span)
    (if head_is_line_first s then opens_block_at_line_start tok
     else line_opens_at_first_token s)
    (match tok with TPub | TConst => true | _ => false end) s.

(** The error [Layout::never_closed] reports for a bracket. *)
Definition never_closed_error (b : OpenBracket) : LexError :=
  match stray b with
  | Some (close, span) => MismatchedClose span close (ospan b) (kind b)
  | None => UnclosedBracket (ospan b)
  end.

(** [Layout::never_closed]. *)
Definition never_closed (b : OpenBracket) : Layout -> Layout :=
  push_error (never_closed_error b).

(** The [while let [.., below, top]] loop of [Layout::line_start]: the levels
    left, and the closers pushed, in order. *)
Fixpoint close_levels (indent : nat) (stack : list Level) : list Level * list Token :=
  match stack with
  | top :: (below :: _) as rest =>
      if closes_at top indent && negb (is_fixed top && strands below indent) then
        let '(left_, closers) := close_levels indent rest in
        (left_, closer top :: closers)
      else (stack, [])
  | _ => (stack, [])
  end.

(** The indentation rule of [Layout::line_start]: from [if indent > current] to
    the end of its [match] on the level left on top. *)
Definition indent_rule (span : Span) (ls indent current : nat) (s : Layout) :
    option Layout :=
  if current <? indent then
    Some (push_out TIndent (mkSpan (lfile s) ls (start span))
            (set_indent_stack (Fixed indent :: indent_stack s) s))
  else
    let '(left_, closers) := close_levels indent (indent_stack s) in
    let s := set_indent_stack left_ s in
    let s := set_out (fun o => o ++ map (fun t =>
               (t, mkSpan (lfile s) (start span) (start span))) closers) s in
    top ← head left_;
    match top with
    | Pending _ => Some (set_indent_stack (Pinned indent :: tail left_) s)
    | Fixed c | Pinned c =>
        if c =? indent then Some s
        else Some (push_error (InconsistentIndent span) (set_line_short (indent <? c) s))
    end.

(** [Layout::line_start]: the first token of a logical line. *)
Definition line_start (tok : Token) (span : Span) (s : Layout) : option Layout :=
  '(ls, indent) ← column s span;
  let s := set_line_short false (set_line_indent indent s) in
  top ← head (indent_stack s);
  let level_floor := floor top in
  let current :=
    match short_header s with
    | Some column => Nat.min column level_floor
    | None => level_floor
    end in
  s ← indent_rule span ls indent current (set_short_header None s);
  Some (statement_head tok span (set_head_next (head_next s) true s)).

(** [Layout::end_line]: a [Newline] outside brackets. *)
Definition end_line (span : Span) (s : Layout) : Layout :=
  let opens_block :=
    match last (out s) with Some (TColon, _) => true | _ => false end in
  let s :=
    if opens_block && negb (line_opens_at_first_token s) then
      set_block_value_indents (block_value_indents s ++ [line_head s])
        (set_indent_stack (Pending (line_indent s) :: indent_stack s) s)
    else s in
  let s :=
    if opens_block && line_short s then set_short_header (Some (line_indent s)) s
    else s in
  set_at_line_start true (push_out TNewline span s).

(** Closing one bracket with a zero-width closer at [at_]. *)
Definition close_zero_width (at_ : Span) (b : OpenBracket) (s : Layout) : Layout :=
  never_closed b (push_out (close_token (kind b)) at_ s).

(** The first loop of [Layout::physical_line]: sets [statement_ended] from the
    innermost bracket outwards, stopping at the first that has it. *)
Fixpoint mark_statement_ended (bs : list OpenBracket) : list OpenBracket :=
  match bs with
  | [] => []
  | b :: bs' =>
      if statement_ended b then bs
      else set_statement_ended b :: mark_statement_ended bs'
  end.

(** The second loop of [Layout::physical_line]: closes the innermost brackets
    that close early. *)
Fixpoint close_early (at_ : Span) (bs : list OpenBracket) (s : Layout) : Layout :=
  match bs with
  | b :: bs' =>
      if closes_early b then
        close_early at_ bs' (close_zero_width at_ b (set_brackets bs' s))
      else s
  | [] => s
  end.

(** [Layout::physical_line]: [tok] starts a physical line inside brackets. *)
Definition physical_line (tok : Token) (span newline : Span) (s : Layout) :
    option Layout :=
  '(_, indent) ← column s span;
  if (line_indent s <? indent) || is_closer tok then Some s
  else
    let marked := mark_statement_ended (brackets s) in
    let at_ := mkSpan (lfile s) (start newline) (start newline) in
    let s := close_early at_ marked (set_brackets marked s) in
    Some (match brackets s with [] => end_line newline s | _ => s end).

(** [self.brackets.iter().rposition(|b| b.kind == kind)], as the brackets
    inside the one found (innermost first), that one, and those outside it. *)
Fixpoint find_open (k : Bracket) (bs : list OpenBracket) :
    option (list OpenBracket * OpenBracket * list OpenBracket) :=
  match bs with
  | [] => None
  | b :: bs' =>
      if decide (kind b = k) then Some ([], b, bs')
      else '(inner, m, outer) ← find_open k bs'; Some (b :: inner, m, outer)
  end.

(** [Layout::close]: a close bracket of kind [k]. *)
Definition close (k : Bracket) (span : Span) (s : Layout) : Layout :=
  match find_open k (brackets s) with
  | None =>
      match brackets s with
      | b :: bs =>
          match stray b with
          | None => set_brackets (set_stray b (k, span) :: bs) s
          | Some _ => push_error (UnmatchedClose span) s
          end
      | [] => push_error (UnmatchedClose span) s
      end
  | Some (inner, matched, outer) =>
      let at_ := mkSpan (lfile s) (start span) (start span) in
      let inner :=
        match inner with
        | b :: bs => stray_get_or_insert b (k, span) :: bs
        | [] => []
        end in
      let closes_others := match inner with [] => false | _ => true end in
      let s := foldl (fun s b => close_zero_width at_ b s) s inner in
      let s := set_brackets outer s in
      let s :=
        if closes_others && statement_ended matched then
          set_resync_next (resync_next s ++ [index matched]) s
        else s in
      let s :=
        match stray matched with
        | Some (_, st) => push_error (UnmatchedClose st) s
        | None => s
        end in
      push_out (close_token k) span s
  end.

(** The second half of [Layout::token], from [if let Some(kind) =
    Bracket::opened_by(tok)] on: the token is written, or closes a bracket, or
    ends a line. *)
Definition write_token (i : nat) (tok : Token) (span : Span) (s : Layout) : Layout :=
  match opened_by tok with
  | Some k =>
      push_out tok span
        (set_brackets
           (mkOpen k span i (bool_decide (i ∈ resync s)) false None :: brackets s) s)
  | None =>
      match closed_by tok with
      | Some k => close k span s
      | None =>
          if is_newline tok then
            match brackets s with
            | [] => end_line span s
            | _ =>
                match dropped_newline s with
                | None => set_dropped_newline (Some span) s
                | Some _ => s
                end
            end
          else
            let s := push_out tok span s in
            match tok, brackets s with
            | TSemi, [] => set_head_next true false s
            | _, _ => s
            end
      end
  end.

(** The first step of [Layout::token]: the physical line a token other than a
    newline starts, when newlines inside brackets were dropped before it. *)
Definition pending_line (tok : Token) (span : Span) (s : Layout) : option Layout :=
  match dropped_newline s with
  | Some newline =>
      if is_newline tok then Some s
      else physical_line tok span newline (set_dropped_newline None s)
  | None => Some s
  end.

(** The second step of [Layout::token]: the head of a line or of a statement. *)
Definition heads (tok : Token) (span : Span) (s : Layout) : option Layout :=
  if at_line_start s && match brackets s with [] => true | _ => false end then
    line_start tok span s
  else if head_next s && negb (is_newline tok) then Some (statement_head tok span s)
  else Some s.

(** [Layout::token]: the token [tok] at [span], the [i]th of the run. *)
Definition token (i : nat) (tok : Token) (span : Span) (s : Layout) : option Layout :=
  if at_line_start s && is_newline tok then Some s
  else
    s ← pending_line tok span s;
    s ← heads tok span s;
    Some (write_token i tok span (set_at_line_start false s)).

(** The loop of [Layout::run] over the raw tokens, numbered from [i]. *)
Fixpoint run_tokens (i : nat) (raw : list spanned) (s : Layout) : option Layout :=
  match raw with
  | [] => Some s
  | (tok, span) :: raw' => s ← token i tok span s; run_tokens (S i) raw' s
  end.

(** The first loop of [Layout::finish]. *)
Fixpoint finish_brackets (end_span : Span) (bs : list OpenBracket) (s : Layout) : Layout :=
  match bs with
  | [] => s
  | b :: bs' =>
      let s := push_out (close_token (kind b)) end_span (set_brackets bs' s) in
      let s := set_resync_next (resync_next s ++ [index b]) s in
      finish_brackets end_span bs' (never_closed b s)
  end.

(** The second loop of [Layout::finish]: dedents down to the bottom level. *)
Fixpoint finish_levels (stack : list Level) : list Level * list Token :=
  match stack with
  | top :: (_ :: _) as rest =>
      let '(left_, closers) := finish_levels rest in (left_, closer top :: closers)
  | _ => (stack, [])
  end.

(** The openers [next_if(|(before, _)| *before == i)] takes, and the rest. *)
Fixpoint openers_at (i : nat) (openers : list (nat * nat)) :
    list nat * list (nat * nat) :=
  match openers with
  | (before, at_) :: os =>
      if before =? i then let '(here, rest) := openers_at i os in (at_ :: here, rest)
      else ([], openers)
  | [] => ([], [])
  end.

(** The last loop of [Layout::finish]: each [BlockValueIndent] goes in before
    the token at its index. *)
Fixpoint insert_openers (f : FileId) (i : nat) (toks : list spanned)
    (openers : list (nat * nat)) : list spanned :=
  match toks with
  | [] => []
  | t :: toks' =>
      let '(here, rest) := openers_at i openers in
      map (fun at_ => (TBlockValueIndent, mkSpan f at_ at_)) here
        ++ t :: insert_openers f (S i) toks' rest
  end.

(** The newline [Layout::finish] adds unless the stream ends in one. *)
Definition trailing_newline (end_span : Span) (s : Layout) : Layout :=
  match last (out s) with
  | Some (TNewline, _) => s
  | _ => push_out TNewline end_span s
  end.

(** [Layout::finish]. *)
Definition finish (s : Layout) : Layout :=
  let end_span := mkSpan (lfile s) (length (source s)) (length (source s)) in
  let s := finish_brackets end_span (brackets s) s in
  let s := trailing_newline end_span s in
  let '(left_, closers) := finish_levels (indent_stack s) in
  let s := set_indent_stack left_ s in
  let s := set_out (fun o => o ++ map (fun t => (t, end_span)) closers) s in
  match block_value_indents s with
  | [] => s
  | openers => set_out (fun o => insert_openers (lfile s) 0 o openers) s
  end.

(** The initial state of [Layout::run]. *)
Definition initial (f : FileId) (src : bytes) (rs : list nat) : Layout :=
  {| lfile := f; source := src; out := []; errors := [];
     indent_stack := [Fixed 0]; brackets := []; resync := rs; resync_next := [];
     at_line_start := true; dropped_newline := None; line_head := (0, 0);
     block_value_indents := []; line_opens_at_first_token := false;
     head_next := false; head_is_line_first := false; line_short := false;
     short_header := None; line_indent := 0 |}.

(** [Layout::run]. *)
Definition run (f : FileId) (src : bytes) (raw : list spanned) (rs : list nat) :
    option Layout :=
  s ← run_tokens 0 raw (initial f src rs); Some (finish s).
