(* ===== verification/Nesting.v ===== *)
(** * Well-nested token streams

    The parser-facing contract of [tokenize], as a checker: one stack of open
    pairs, on which [Indent]/[Dedent], [BlockValueIndent]/[BlockValueDedent] and
    the three bracket pairs all nest, and on which no [Newline] and no layout
    token stands inside a bracket. *)

From S2P Require Import Prelude Tokens.

Inductive Opener := OIndent | OBlock | OBracket (b : Bracket).

#[export] Instance Opener_eq_dec : EqDecision Opener.
Proof. solve_decision. Defined.

(** Whether the innermost open pair is a bracket. *)
Definition in_bracket (st : list Opener) : bool :=
  match st with OBracket _ :: _ => true | _ => false end.

Definition nest_step (t : Token) (st : list Opener) : option (list Opener) :=
  match t with
  | TNewline => if in_bracket st then None else Some st
  | TIndent => if in_bracket st then None else Some (OIndent :: st)
  | TBlockValueIndent => if in_bracket st then None else Some (OBlock :: st)
  | TDedent => match st with OIndent :: st' => Some st' | _ => None end
  | TBlockValueDedent => match st with OBlock :: st' => Some st' | _ => None end
  | _ =>
      match opened_by t with
      | Some b => Some (OBracket b :: st)
      | None =>
          match closed_by t with
          | Some b =>
              match st with
              | OBracket b' :: st' => if decide (b = b') then Some st' else None
              | _ => None
              end
          | None => Some st
          end
      end
  end.

Fixpoint nest (l : list spanned) (st : list Opener) : option (list Opener) :=
  match l with
  | [] => Some st
  | (t, _) :: l' => st ← nest_step t st; nest l' st
  end.

(** Every pair of the stream is closed, in nesting order. *)
Definition well_nested (l : list spanned) : Prop := nest l [] = Some [].

#[export] Instance well_nested_dec l : Decision (well_nested l).
Proof. unfold well_nested. apply _. Defined.

(** The stream ends with a [Newline] and then only closers of layout levels. *)
Definition ends_at_column_zero (l : list spanned) : Prop :=
  exists body nl closers,
    l = body ++ (TNewline, nl) :: closers /\
    Forall (fun ts => fst ts = TDedent \/ fst ts = TBlockValueDedent) closers.

Lemma nest_app l1 l2 st :
  nest (l1 ++ l2) st = (nest l1 st ≫= nest l2).
Proof.
  revert st. induction l1 as [|[t sp] l1 IH]; intros st; simpl; [done|].
  destruct (nest_step t st); simpl; [apply IH|done].
Qed.

Lemma nest_cons t sp l st : nest ((t, sp) :: l) st = (nest_step t st ≫= nest l).
Proof. done. Qed.

(** What a closed segment does is independent of the pairs open around it, as
    long as the innermost of those is not a bracket. *)
Lemma nest_step_frame t st st' fr :
  in_bracket fr = false ->
  nest_step t st = Some st' -> nest_step t (st ++ fr) = Some (st' ++ fr).
Proof.
  intros Hfr H.
  destruct t; destruct st as [|[| |b0] st]; simpl in *; rewrite ?Hfr;
    simplify_eq; try done; repeat (case_decide || case_match); by simplify_eq.
Qed.

Lemma nest_frame l st st' fr :
  in_bracket fr = false ->
  nest l st = Some st' -> nest l (st ++ fr) = Some (st' ++ fr).
Proof.
  intros Hfr. revert st. induction l as [|[t sp] l IH]; intros st; simpl.
  { by intros [= ->]. }
  destruct (nest_step t st) as [st1|] eqn:E; simpl; [|done].
  rewrite (nest_step_frame _ _ _ _ Hfr E). simpl. apply IH.
Qed.

(** A token that is neither layout's, nor a newline, nor a bracket. *)
Definition is_plain (t : Token) : bool :=
  negb (is_layout t) && negb (is_newline t) &&
  match opened_by t, closed_by t with None, None => true | _, _ => false end.

Lemma nest_step_plain t st : is_plain t = true -> nest_step t st = Some st.
Proof. by destruct t. Qed.

Lemma nest_step_open t b st :
  opened_by t = Some b -> nest_step t st = Some (OBracket b :: st).
Proof. by destruct t; simpl; intros [= <-]. Qed.

Lemma nest_step_close b st : nest_step (close_token b) (OBracket b :: st) = Some st.
Proof. by destruct b. Qed.

#[export] Hint Rewrite nest_app : cambra_rw.
