(* ===== verification/LayoutFacts.v ===== *)
(** * Invariants of the layout pass

    Between two tokens of a run, a [Layout] is in one of two phases: [between]
    logical lines, or [within_line] one.  Both say what the stream written so far
    nests to, with the [BlockValueIndent]s already found put in.  Every
    operation moves between the phases, so a run never panics and what it
    writes is well nested. *)

From S2P Require Import Prelude Tokens Layout Nesting.

(** ** Inserting the openers *)

Section InsertOpeners.
Context (f : FileId).

(** Indices strictly ascending from [i]. *)
Fixpoint ascending (i : nat) (os : list (nat * nat)) : Prop :=
  match os with
  | [] => True
  | (b, _) :: os' => i <= b /\ ascending (S b) os'
  end.

Lemma ascending_weaken i j os : j <= i -> ascending i os -> ascending j os.
Proof. destruct os as [|[b at_] os]; simpl; [done|]. intros ? [? ?]. split; [lia|done]. Qed.

Lemma ascending_snoc i os b at_ :
  ascending i os -> i <= b -> Forall (fun o => fst o < b) os ->
  ascending i (os ++ [(b, at_)]).
Proof.
  revert i. induction os as [|[b' at'] os IH]; intros i; simpl; [done|].
  intros [? ?] ? [? ?]%Forall_cons. simpl in *. split; [done|]. apply IH; [done|lia|done].
Qed.

Lemma openers_at_ascending i os :
  ascending i os ->
  ascending (S i) (snd (openers_at i os)) /\
  (openers_at i os = ([], os) \/
   exists at_ os', os = (i, at_) :: os' /\ openers_at i os = ([at_], os')).
Proof.
  destruct os as [|[b at_] os]; simpl; [by eauto|]. intros [Hb Has].
  destruct (b =? i) eqn:E; breflect; subst; simpl.
  - assert (openers_at i os = ([], os)) as ->.
    { destruct os as [|[b' at'] os]; simpl in *; [done|].
      destruct (b' =? i) eqn:E; breflect; [lia|done]. }
    split; [done|]. eauto.
  - split; [split; [lia|done]|eauto].
Qed.

Lemma insert_openers_nil i l : insert_openers f i l [] = l.
Proof. revert i. induction l as [|t l IH]; intros i; simpl; [done|]. by rewrite IH. Qed.

(** Openers with an index in the first part go into it. *)
Lemma insert_openers_app i l1 l2 os :
  ascending i os -> Forall (fun o => fst o < i + length l1) os ->
  insert_openers f i (l1 ++ l2) os = insert_openers f i l1 os ++ l2.
Proof.
  revert i os. induction l1 as [|t l1 IH]; intros i os Has Hlt.
  - destruct os as [|[b at_] os]; simpl in *; [by rewrite insert_openers_nil|].
    apply Forall_cons in Hlt as [? _]. simpl in *. lia.
  - simpl. destruct (openers_at_ascending i os Has) as [Has' [E|(at_ & os' & -> & E)]];
      rewrite E in *; simpl in *.
    + rewrite IH; [done|done|]. eapply Forall_impl; [exact Hlt|]. simpl. lia.
    + rewrite IH; [done|done|]. apply Forall_cons in Hlt as [_ Hlt].
      eapply Forall_impl; [exact Hlt|]. simpl. lia.
Qed.

(** A last opener goes in right before the token at its index. *)
Lemma insert_openers_snoc i l1 t l2 os at_ :
  ascending i os -> Forall (fun o => fst o < i + length l1) os ->
  insert_openers f i (l1 ++ t :: l2) (os ++ [(i + length l1, at_)]) =
  insert_openers f i l1 os ++ (TBlockValueIndent, mkSpan f at_ at_) :: t :: l2.
Proof.
  revert i os. induction l1 as [|x l1 IH]; intros i os Has Hlt.
  - destruct os as [|[b a] os]; simpl in *.
    + rewrite Nat.add_0_r, Nat.eqb_refl. simpl. by rewrite insert_openers_nil.
    + apply Forall_cons in Hlt as [? _]. simpl in *. lia.
  - simpl. destruct (openers_at_ascending i os Has) as [Has' [E|(a & os' & -> & E)]].
    + assert (openers_at i (os ++ [(i + S (length l1), at_)]) =
              ([], os ++ [(i + S (length l1), at_)])) as ->.
      { destruct os as [|[b a] os]; simpl in *.
        - by destruct (i + S (length l1) =? i) eqn:E'; breflect; [lia|].
        - destruct (b =? i) eqn:Eb; [|done].
          destruct (openers_at i os); simplify_eq. }
      rewrite E in *; simpl in *.
      replace (i + S (length l1)) with (S i + length l1) by lia.
      rewrite IH; [done|done|]. eapply Forall_impl; [exact Hlt|]. simpl. lia.
    + simpl in *. rewrite Nat.eqb_refl in *. destruct Has as [_ Has].
      apply Forall_cons in Hlt as [_ Hlt].
      assert (openers_at i (os' ++ [(i + S (length l1), at_)]) =
              ([], os' ++ [(i + S (length l1), at_)])) as ->.
      { destruct os' as [|[b a'] os']; simpl in *.
        - by destruct (i + S (length l1) =? i) eqn:E'; breflect; [lia|].
        - destruct (b =? i) eqn:Eb; [breflect; lia|done]. }
      rewrite E in *; simpl in *.
      replace (i + S (length l1)) with (S i + length l1) by lia.
      rewrite IH; [done|done|]. eapply Forall_impl; [exact Hlt|]. simpl. lia.
Qed.
End InsertOpeners.

(** ** The phases *)

Definition level_opener (l : Level) : Opener :=
  match l with Fixed _ => OIndent | Pending _ | Pinned _ => OBlock end.

(** The layout pairs open under an indentation stack: one per level above the
    bottom. *)
Definition open_levels (stack : list Level) : list Opener :=
  map level_opener (removelast stack).

(** The bracket pairs open. *)
Definition open_brackets (bs : list OpenBracket) : list Opener :=
  map (fun b => OBracket (kind b)) bs.

(** The last token of a stream is not a [Colon]. *)
Definition no_colon_last (l : list spanned) : Prop :=
  match last l with Some (TColon, _) => False | _ => True end.

(** The stream so far, with the openers found so far put in. *)
Definition woven (s : Layout) (l : list spanned) : list spanned :=
  insert_openers (lfile s) 0 l (block_value_indents s).

Definition has_bottom (stack : list Level) : Prop := last stack = Some (Fixed 0).

(** Between two logical lines. *)
Record between (s : Layout) : Prop := {
  bt_bottom : has_bottom (indent_stack s);
  bt_brackets : brackets s = [];
  bt_dropped : dropped_newline s = None;
  bt_no_colon : no_colon_last (out s);
  bt_ascending : ascending 0 (block_value_indents s);
  bt_before : Forall (fun o => fst o < length (out s)) (block_value_indents s);
  bt_nest : nest (woven s (out s)) [] = Some (open_levels (indent_stack s))
}.

(** Within a logical line: [cur] is what the line's last statement wrote. *)
Record within_split (s : Layout) (pre cur : list spanned) : Prop := {
  wi_bottom : has_bottom (indent_stack s);
  wi_out : out s = pre ++ cur;
  wi_head : fst (line_head s) = length pre;
  wi_no_colon : no_colon_last pre;
  wi_head_next : head_next s = true -> brackets s = [] /\ no_colon_last (out s);
  wi_dropped : brackets s = [] -> dropped_newline s = None;
  wi_ascending : ascending 0 (block_value_indents s);
  wi_before : Forall (fun o => fst o < length pre) (block_value_indents s);
  wi_nest : nest (woven s pre) [] = Some (open_levels (indent_stack s));
  wi_cur : nest cur [] = Some (open_brackets (brackets s))
}.

Definition within_line (s : Layout) : Prop := exists pre cur, within_split s pre cur.

Definition phase (s : Layout) : Prop :=
  if at_line_start s then between s else within_line s.

(** ** Small facts *)

Lemma open_levels_cons l stack :
  stack <> [] -> open_levels (l :: stack) = level_opener l :: open_levels stack.
Proof. by destruct stack. Qed.

Lemma in_bracket_open_levels stack : in_bracket (open_levels stack) = false.
Proof.
  unfold open_levels. destruct (removelast stack) as [|[] ?]; done.
Qed.

Lemma has_bottom_cons l stack : has_bottom stack -> has_bottom (l :: stack).
Proof. unfold has_bottom. intros H. by rewrite last_cons, H. Qed.

Lemma has_bottom_ne stack : has_bottom stack -> stack <> [].
Proof. by intros H ->. Qed.

Lemma has_bottom_tail l stack : stack <> [] -> has_bottom (l :: stack) -> has_bottom stack.
Proof. unfold has_bottom. intros Hne. by destruct stack. Qed.

Lemma has_bottom_head stack : has_bottom stack -> exists l rest, stack = l :: rest.
Proof. destruct stack; [done|eauto]. Qed.

Lemma no_colon_last_snoc l t sp : t <> TColon -> no_colon_last (l ++ [(t, sp)]).
Proof. unfold no_colon_last. rewrite last_snoc. by destruct t. Qed.

(** Putting a closed segment after the woven stream. *)
Lemma nest_woven_app s pre cur st st' :
  ascending 0 (block_value_indents s) ->
  Forall (fun o => fst o < length pre) (block_value_indents s) ->
  nest (woven s pre) [] = Some st -> in_bracket st = false ->
  nest cur [] = Some st' ->
  nest (woven s (pre ++ cur)) [] = Some (st' ++ st).
Proof.
  intros Has Hlt Hn Hb Hc. unfold woven in *.
  rewrite insert_openers_app by done. rewrite nest_app, Hn. simpl.
  by apply (nest_frame _ _ _ _ Hb) in Hc.
Qed.

Lemma close_levels_spec indent stack :
  has_bottom stack ->
  forall left_ closers, close_levels indent stack = (left_, closers) ->
    has_bottom left_ /\
    forall sp, nest (map (fun t => (t, sp)) closers) (open_levels stack) =
               Some (open_levels left_).
Proof.
  induction stack as [|top stack IH]; intros Hb left_ closers; [done|].
  destruct stack as [|below rest]; [by intros [= <- <-]|].
  change (close_levels indent (top :: below :: rest)) with
    (if closes_at top indent && negb (is_fixed top && strands below indent) then
       let '(left_, closers) := close_levels indent (below :: rest) in
       (left_, closer top :: closers)
     else (top :: below :: rest, [])).
  case_match; [|by intros [= <- <-]].
  destruct (close_levels indent (below :: rest)) as [l' c'] eqn:E.
  intros [= <- <-].
  apply has_bottom_tail in Hb; [|done].
  destruct (IH Hb _ _ eq_refl) as [Hb' Hn]. split; [done|]. intros sp.
  rewrite open_levels_cons by done. simpl. rewrite <- (Hn sp).
  by destruct top.
Qed.

Lemma finish_levels_spec stack :
  has_bottom stack ->
  forall left_ closers, finish_levels stack = (left_, closers) ->
    left_ = [Fixed 0] /\
    Forall (fun t => t = TDedent \/ t = TBlockValueDedent) closers /\
    forall sp, nest (map (fun t => (t, sp)) closers) (open_levels stack) = Some [].
Proof.
  induction stack as [|top stack IH]; intros Hb left_ closers; [done|].
  destruct stack as [|below rest].
  { intros [= <- <-]. unfold has_bottom in Hb. simpl in Hb. by simplify_eq. }
  change (finish_levels (top :: below :: rest)) with
    (let '(left_, closers) := finish_levels (below :: rest) in
     (left_, closer top :: closers)).
  destruct (finish_levels (below :: rest)) as [l' c'] eqn:E.
  intros [= <- <-].
  apply has_bottom_tail in Hb; [|done].
  destruct (IH Hb _ _ eq_refl) as (-> & Hc & Hn). split; [done|]. split.
  { constructor; [|done]. destruct top; simpl; auto. }
  intros sp. rewrite open_levels_cons by done. simpl. rewrite <- (Hn sp).
  by destruct top.
Qed.

(** ** The operations preserve the phases *)

(** Whether a line's last token opens a block. *)
Lemma colon_last_split pre cur sp :
  no_colon_last pre -> last (pre ++ cur) = Some (TColon, sp) ->
  exists c cur', cur = c :: cur'.
Proof.
  intros Hpre Hl. destruct cur as [|c cur]; [|eauto].
  rewrite app_nil_r in Hl. unfold no_colon_last in Hpre. by rewrite Hl in Hpre.
Qed.

(** Whether ending the line opens a block right-hand side's level. *)
Definition opens_block_value (s : Layout) : bool :=
  match last (out s) with Some (TColon, _) => true | _ => false end &&
  negb (line_opens_at_first_token s).

Lemma end_line_fields sp s :
  let s' := end_line sp s in
  out s' = out s ++ [(TNewline, sp)] /\ errors s' = errors s /\
  lfile s' = lfile s /\ source s' = source s /\ brackets s' = brackets s /\
  dropped_newline s' = dropped_newline s /\ at_line_start s' = true /\
  resync s' = resync s /\ resync_next s' = resync_next s /\
  indent_stack s' =
    (if opens_block_value s then Pending (line_indent s) :: indent_stack s
     else indent_stack s) /\
  block_value_indents s' =
    (if opens_block_value s then block_value_indents s ++ [line_head s]
     else block_value_indents s).
Proof.
  unfold end_line. change (match last (out s) with Some (TColon, _) => true | _ => false end
    && negb (line_opens_at_first_token s)) with (opens_block_value s).
  destruct (opens_block_value s); case_match; simpl; by repeat split.
Qed.

Lemma end_line_between sp s :
  within_line s -> brackets s = [] -> between (end_line sp s).
Proof.
  intros (pre & cur & W) Hb. pose proof (wi_dropped _ _ _ W Hb) as Hd.
  destruct W as [Hbot Hout Hhead Hnc _ _ Has Hlt Hn Hcur].
  rewrite Hb in Hcur. simpl in Hcur.
  pose proof (in_bracket_open_levels (indent_stack s)) as Hib.
  destruct (end_line_fields sp s) as (Eo & _ & Ef & _ & Ebr & Ed & _ & _ & _ & Es & Ei).
  assert (Hlt' : Forall (fun o => fst o < length (out s ++ [(TNewline, sp)]))
                   (block_value_indents s)).
  { eapply Forall_impl; [exact Hlt|]. simpl. intros. rewrite Hout, !length_app. lia. }
  assert (nest (woven s pre ++ cur) [] = Some (open_levels (indent_stack s))) as Hn'.
  { rewrite nest_app, Hn. simpl. by apply (nest_frame _ _ _ _ Hib) in Hcur. }
  constructor; rewrite ?Eo, ?Ef, ?Ebr, ?Ed, ?Es, ?Ei; try done.
  - destruct (opens_block_value s); [by apply has_bottom_cons|done].
  - by apply no_colon_last_snoc.
  - destruct (opens_block_value s); [|done].
    destruct (line_head s) as [h a]. simpl in *. subst h.
    apply ascending_snoc; [done|lia|done].
  - destruct (opens_block_value s); [|done]. apply Forall_app. split; [done|].
    constructor; [|done]. rewrite Hhead, Hout, !length_app. simpl. lia.
  - unfold woven. rewrite Ef, Ei. unfold woven in Hn, Hn'.
    destruct (opens_block_value s) eqn:Eob.
    + assert (exists c cur', cur = c :: cur') as (c & cur' & ->).
      { unfold opens_block_value in Eob. rewrite Hout in Eob.
        repeat case_match; simplify_eq/=; by eapply colon_last_split. }
      destruct (line_head s) as [h at_]. simpl in Hhead. subst h.
      rewrite Hout, <- app_assoc, <- app_comm_cons.
      rewrite (insert_openers_snoc (lfile s) 0 pre c _ _ at_) by done.
      rewrite nest_app, Hn, open_levels_cons by (by apply has_bottom_ne).
      cbn [mbind option_bind]. rewrite nest_cons.
      cbn [nest_step]. rewrite Hib. cbn [mbind option_bind].
      change (c :: cur' ++ [(TNewline, sp)]) with ((c :: cur') ++ [(TNewline, sp)]).
      apply (nest_frame _ _ _ (OBlock :: open_levels (indent_stack s)) eq_refl) in Hcur.
      rewrite app_nil_l in Hcur. by rewrite nest_app, Hcur.
    + rewrite Hout, <- app_assoc.
      rewrite insert_openers_app by done. rewrite app_assoc, nest_app, Hn'. simpl.
      by rewrite Hib.
Qed.

Lemma between_ext s s' :
  lfile s' = lfile s -> out s' = out s -> indent_stack s' = indent_stack s ->
  brackets s' = brackets s -> dropped_newline s' = dropped_newline s ->
  block_value_indents s' = block_value_indents s ->
  between s -> between s'.
Proof.
  intros E1 E2 E3 E4 E5 E6 []. constructor; unfold woven in *;
    by rewrite ?E1, ?E2, ?E3, ?E4, ?E5, ?E6.
Qed.

(** Layout tokens written between two lines, moving the indentation stack. *)
Lemma between_push toks stack s :
  between s -> has_bottom stack -> toks <> [] ->
  Forall (fun ts => fst ts <> TColon) toks ->
  nest toks (open_levels (indent_stack s)) = Some (open_levels stack) ->
  between (set_out (fun o => o ++ toks) (set_indent_stack stack s)).
Proof.
  intros [Hbot Hbr Hd Hnc Has Hlt Hn] Hs Hne Hc Ht. constructor; simpl; try done.
  - destruct toks as [|[t sp] toks _] using rev_ind; [done|].
    apply Forall_app in Hc as [_ Hc]. apply Forall_cons in Hc as [Hc _].
    rewrite app_assoc. by apply no_colon_last_snoc.
  - eapply Forall_impl; [exact Hlt|]. simpl. intros. rewrite length_app. lia.
  - unfold woven in *; simpl. by rewrite insert_openers_app, nest_app, Hn by done.
Qed.

Lemma between_set_stack stack s :
  between s -> has_bottom stack -> open_levels stack = open_levels (indent_stack s) ->
  between (set_indent_stack stack s).
Proof.
  intros [Hbot Hbr Hd Hnc Has Hlt Hn] Hs Ho. constructor; simpl; try done.
  unfold woven in *; simpl. by rewrite Ho.
Qed.

Lemma within_between s :
  within_line s -> brackets s = [] -> no_colon_last (out s) -> between s.
Proof.
  intros (pre & cur & [Hbot Hout Hhead Hnc Hhn Hd Has Hlt Hn Hcur]) Hb Hc.
  rewrite Hb in Hcur. constructor; auto.
  - eapply Forall_impl; [exact Hlt|]. simpl. intros. rewrite Hout, length_app. lia.
  - rewrite Hout. eapply (nest_woven_app _ _ _ _ []); try done.
    apply in_bracket_open_levels.
Qed.

Lemma statement_head_within tok span s :
  between s -> within_line (statement_head tok span s).
Proof.
  intros [Hbot Hbr Hd Hnc Has Hlt Hn]. exists (out s), [].
  constructor; simpl; rewrite ?Hbr, ?app_nil_r; auto.
Qed.

Lemma closer_not_colon indent stack :
  Forall (fun t => t <> TColon) (snd (close_levels indent stack)).
Proof.
  induction stack as [|top stack IH]; [constructor|].
  destruct stack as [|below rest]; [constructor|].
  change (close_levels indent (top :: below :: rest)) with
    (if closes_at top indent && negb (is_fixed top && strands below indent) then
       let '(left_, closers) := close_levels indent (below :: rest) in
       (left_, closer top :: closers)
     else (top :: below :: rest, [])).
  case_match; [|constructor].
  destruct (close_levels indent (below :: rest)) as [l c]. simpl in *.
  constructor; [by destruct top|done].
Qed.

(** The levels [line_start] closes, written to the stream. *)
Lemma between_close_levels indent sp s left_ closers :
  between s -> close_levels indent (indent_stack s) = (left_, closers) ->
  between (set_out (fun o => o ++ map (fun t => (t, sp)) closers)
             (set_indent_stack left_ s)).
Proof.
  intros B E. pose proof (bt_bottom _ B) as Hb.
  destruct (close_levels_spec indent _ Hb _ _ E) as [Hl Hn].
  destruct closers as [|c cs].
  - specialize (Hn sp). simpl in Hn. simplify_eq.
    eapply between_ext; [..|apply (between_set_stack left_ s B Hl)]; simpl; auto.
    by rewrite app_nil_r.
  - apply between_push; [done|done|done| |apply Hn].
    pose proof (closer_not_colon indent (indent_stack s)) as Hc. rewrite E in Hc.
    apply Forall_fmap. eapply Forall_impl; [exact Hc|]. done.
Qed.

(** The fields no operation of a run writes. *)
Definition same_input (s s' : Layout) : Prop :=
  lfile s' = lfile s /\ source s' = source s /\ resync s' = resync s.

Lemma same_input_refl s : same_input s s.
Proof. done. Qed.

Lemma same_input_trans s1 s2 s3 :
  same_input s1 s2 -> same_input s2 s3 -> same_input s1 s3.
Proof. intros (? & ? & ?) (? & ? & ?). repeat split; congruence. Qed.

#[export] Hint Resolve same_input_refl : cambra.

Lemma column_some s span :
  start span <= length (source s) ->
  exists ls indent, column s span = Some (ls, indent).
Proof. unfold column. intros H. destruct (start span <=? _) eqn:E; breflect; [eauto|lia]. Qed.

Lemma column_ext s s' span : source s' = source s -> column s' span = column s span.
Proof. unfold column. by intros ->. Qed.

Lemma indent_rule_between span ls indent current s :
  between s ->
  exists s', indent_rule span ls indent current s = Some s' /\
    between s' /\ same_input s s' /\ brackets s' = [] /\ dropped_newline s' = None.
Proof.
  intros B. unfold indent_rule.
  pose proof (bt_bottom _ B) as Hb. pose proof (has_bottom_ne _ Hb) as Hne.
  destruct (current <? indent).
  - eexists. split; [done|].
    split; [|by repeat split; apply B].
    apply (between_push [(TIndent, _)]); [done|by apply has_bottom_cons|done|by repeat constructor|].
    simpl. rewrite in_bracket_open_levels. simpl. by rewrite open_levels_cons by done.
  - destruct (close_levels indent (indent_stack s)) as [left_ closers] eqn:E.
    destruct (close_levels_spec _ _ Hb _ _ E) as [Hl _].
    pose proof (between_close_levels indent
      (mkSpan (lfile s) (start span) (start span)) s left_ closers B E) as B'.
    destruct (has_bottom_head _ Hl) as (top & rest & ->). simpl.
    assert (forall s'', out s'' = out s ++ map (fun t =>
        (t, mkSpan (lfile s) (start span) (start span))) closers ->
        lfile s'' = lfile s -> source s'' = source s -> resync s'' = resync s ->
        indent_stack s'' = top :: rest -> brackets s'' = brackets s ->
        dropped_newline s'' = dropped_newline s ->
        block_value_indents s'' = block_value_indents s ->
        exists s', Some s'' = Some s' /\ between s' /\ same_input s s' /\
          brackets s' = [] /\ dropped_newline s' = None) as Hgo.
    { intros s'' H1 H2 H3 H4 H5 H6 H7 H8. exists s''. split; [done|].
      split; [by eapply between_ext; [..|exact B']|].
      rewrite H6, H7. by repeat split; [..|apply B|apply B]. }
    destruct top as [c|min|c]; [destruct (c =? indent); by apply Hgo| |
                                destruct (c =? indent); by apply Hgo].
    eexists. split; [done|]. split; [|by repeat split; apply B].
    apply (between_set_stack (Pinned indent :: rest)) in B'.
    + eapply between_ext; [..|exact B']; done.
    + unfold has_bottom in *. destruct rest; [done|done].
    + simpl. by destruct rest.
Qed.

Lemma line_start_within tok span s :
  between s -> start span <= length (source s) ->
  exists s', line_start tok span s = Some s' /\
    within_line s' /\ same_input s s' /\ brackets s' = [] /\ dropped_newline s' = None.
Proof.
  intros B Hsp. unfold line_start.
  destruct (column_some s span Hsp) as (ls & indent & ->). simpl.
  destruct (has_bottom_head _ (bt_bottom _ B)) as (top & rest & ->). simpl.
  match goal with |- context [indent_rule _ _ _ ?c ?s0] =>
    destruct (indent_rule_between span ls indent c s0) as (s' & E & B' & I & Hbr & Hd)
  end; [by eapply between_ext; [..|exact B]|].
  rewrite E. simpl. eexists. split; [done|].
  split; [|by repeat split; [apply I..| |]].
  by eapply statement_head_within, between_ext; [..|exact B'].
Qed.

(** ** Brackets closed with zero-width closers *)

(** The closers of [bs], at [at_]. *)
Definition closers_at (at_ : Span) (bs : list OpenBracket) : list spanned :=
  map (fun b => (close_token (kind b), at_)) bs.

(** What closing [bs] one after the other does to a state. *)
Definition closing (at_ : Span) (bs : list OpenBracket) (s : Layout) : Layout :=
  set_errors (fun es => es ++ map never_closed_error bs)
    (set_out (fun o => o ++ closers_at at_ bs) s).

Lemma closing_nil at_ s : closing at_ [] s = s.
Proof. unfold closing, set_errors, set_out; simpl. rewrite !app_nil_r. by destruct s. Qed.

Lemma foldl_close_zero_width at_ bs s :
  foldl (fun s b => close_zero_width at_ b s) s bs = closing at_ bs s.
Proof.
  revert s. induction bs as [|b bs IH]; intros s; simpl; [by rewrite closing_nil|].
  rewrite IH. unfold closing, set_errors, set_out; simpl. by rewrite <- !app_assoc.
Qed.

Lemma close_early_spec at_ bs s :
  exists taken rest, bs = taken ++ rest /\ Forall (fun b => closes_early b = true) taken /\
    (forall b rest', rest = b :: rest' -> closes_early b = false) /\
    close_early at_ bs (set_brackets bs s) = closing at_ taken (set_brackets rest s).
Proof.
  revert s. induction bs as [|b bs IH]; intros s; simpl.
  { exists [], []. by rewrite closing_nil. }
  destruct (closes_early b) eqn:E.
  - destruct (IH (close_zero_width at_ b s)) as (tk & rest & -> & Ht & Hr & Heq).
    exists (b :: tk), rest. split; [done|]. split; [by constructor|]. split; [done|].
    change (close_zero_width at_ b (set_brackets (tk ++ rest) (set_brackets (b :: tk ++ rest) s)))
      with (set_brackets (tk ++ rest) (close_zero_width at_ b s)).
    rewrite Heq. unfold closing, set_errors, set_out; simpl. by rewrite <- !app_assoc.
  - exists [], (b :: bs). split; [done|]. split; [done|].
    split; [by intros ? ? [= <- <-]|]. by rewrite closing_nil.
Qed.

Lemma finish_brackets_spec at_ bs s :
  finish_brackets at_ bs s =
  closing at_ bs
    (set_resync_next (resync_next s ++ map index bs)
       (match bs with [] => s | _ => set_brackets [] s end)).
Proof.
  revert s. induction bs as [|b bs IH]; intros s; simpl.
  { rewrite closing_nil. unfold set_resync_next. rewrite app_nil_r. by destruct s. }
  rewrite IH. destruct bs; unfold closing, set_errors, set_out, set_resync_next; simpl;
    by rewrite <- ?app_assoc.
Qed.

Lemma finish_brackets_fields at_ s :
  let s' := finish_brackets at_ (brackets s) s in
  out s' = out s ++ closers_at at_ (brackets s) /\
  errors s' = errors s ++ map never_closed_error (brackets s) /\
  resync_next s' = resync_next s ++ map index (brackets s) /\
  brackets s' = [] /\ indent_stack s' = indent_stack s /\ lfile s' = lfile s /\
  block_value_indents s' = block_value_indents s.
Proof. cbv zeta. rewrite finish_brackets_spec. by destruct (brackets s) eqn:E. Qed.

Lemma nest_closers at_ bs outer :
  nest (closers_at at_ bs) (open_brackets (bs ++ outer)) = Some (open_brackets outer).
Proof.
  induction bs as [|b bs IH]; simpl; [done|].
  assert (nest_step (close_token (kind b)) (OBracket (kind b) :: open_brackets (bs ++ outer))
          = Some (open_brackets (bs ++ outer))) as E by apply nest_step_close.
  unfold open_brackets in *. by rewrite E.
Qed.

Lemma find_open_spec k bs inner m outer :
  find_open k bs = Some (inner, m, outer) ->
  bs = inner ++ m :: outer /\ kind m = k /\ Forall (fun b => kind b <> k) inner.
Proof.
  revert inner. induction bs as [|b bs IH]; intros inner; simpl; [done|].
  case_decide as E; [by intros [= <- <- <-]|].
  destruct (find_open k bs) as [[[i' m'] o']|]; simpl; [|done].
  intros [= <- <- <-]. destruct (IH i' eq_refl) as (-> & ? & ?).
  by repeat split; [|constructor].
Qed.

Lemma find_open_none k bs :
  find_open k bs = None -> Forall (fun b => kind b <> k) bs.
Proof.
  induction bs as [|b bs IH]; simpl; [constructor|].
  case_decide as E; [done|]. destruct (find_open k bs) as [[[? ?] ?]|]; simpl; [done|].
  intros _. by constructor; [|apply IH].
Qed.

(** Tokens written within_line a line, moving the bracket stack. *)
Lemma within_push toks bs s s' :
  within_line s -> head_next s = false ->
  out s' = out s ++ toks -> brackets s' = bs -> head_next s' = false ->
  lfile s' = lfile s -> indent_stack s' = indent_stack s ->
  line_head s' = line_head s -> block_value_indents s' = block_value_indents s ->
  (bs = [] -> dropped_newline s' = None) ->
  nest toks (open_brackets (brackets s)) = Some (open_brackets bs) ->
  within_line s'.
Proof.
  intros (pre & cur & [Hbot Hout Hhead Hnc Hhn Hd Has Hlt Hn Hcur]) Hf
    Eo Eb Eh Ef Es El Ei Ed Hnest.
  exists pre, (cur ++ toks). constructor; unfold woven in *;
    rewrite ?Eo, ?Eb, ?Eh, ?Ef, ?Es, ?El, ?Ei, ?Hout, ?app_assoc; try done.
  by rewrite nest_app, Hcur.
Qed.

Lemma within_head_next s : within_line s -> brackets s <> [] -> head_next s = false.
Proof.
  intros (pre & cur & W) Hb. destruct (head_next s) eqn:E; [|done].
  by destruct (wi_head_next _ _ _ W E).
Qed.

Lemma close_input k span s : same_input s (close k span s).
Proof.
  unfold close. destruct (find_open k (brackets s)) as [[[inner m] outer]|].
  - rewrite foldl_close_zero_width. repeat case_match; done.
  - repeat case_match; done.
Qed.

(** [Layout::close], field by field, when an open bracket of the kind is found. *)
Lemma close_found k span s inner m outer :
  find_open k (brackets s) = Some (inner, m, outer) ->
  let at_ := mkSpan (lfile s) (start span) (start span) in
  let inner' := match inner with
                | b :: bs => stray_get_or_insert b (k, span) :: bs | [] => [] end in
  let s' := close k span s in
  out s' = out s ++ closers_at at_ inner ++ [(close_token k, span)] /\
  brackets s' = outer /\ head_next s' = head_next s /\
  indent_stack s' = indent_stack s /\ line_head s' = line_head s /\
  block_value_indents s' = block_value_indents s /\
  dropped_newline s' = dropped_newline s /\ at_line_start s' = at_line_start s /\
  errors s' = errors s ++ map never_closed_error inner' ++
    match stray m with Some (_, st) => [UnmatchedClose st] | None => [] end /\
  resync_next s' = resync_next s ++
    (if match inner with [] => false | _ => true end && statement_ended m
     then [index m] else []).
Proof.
  intros E. unfold close. rewrite E. cbv zeta. rewrite foldl_close_zero_width.
  assert (Hc : forall at_ i, closers_at at_ (match i with
              | b :: bs => stray_get_or_insert b (k, span) :: bs | [] => [] end)
            = closers_at at_ i).
  { intros at_ [|b i]; simpl; [done|]. unfold stray_get_or_insert. by case_match. }
  destruct inner as [|b inner]; simpl; destruct (stray m) as [[? ?]|]; simpl;
    try destruct (statement_ended m); simpl;
    rewrite ?app_nil_r, <- ?app_assoc; repeat split; try done;
    unfold stray_get_or_insert; by case_match.
Qed.

Lemma close_missing k span s :
  find_open k (brackets s) = None ->
  let s' := close k span s in
  out s' = out s /\ open_brackets (brackets s') = open_brackets (brackets s) /\
  head_next s' = head_next s /\ indent_stack s' = indent_stack s /\
  line_head s' = line_head s /\ block_value_indents s' = block_value_indents s /\
  dropped_newline s' = dropped_newline s /\ at_line_start s' = at_line_start s /\
  resync_next s' = resync_next s /\
  (errors s' = errors s \/ errors s' = errors s ++ [UnmatchedClose span]).
Proof.
  intros E. unfold close. rewrite E.
  destruct (brackets s) as [|b bs] eqn:Eb; [|destruct (stray b)]; simpl; rewrite ?Eb;
    repeat split; auto.
Qed.

Lemma open_brackets_nil bs : open_brackets bs = [] -> bs = [].
Proof. by destruct bs. Qed.

Lemma close_within k span s :
  within_line s -> head_next s = false -> dropped_newline s = None ->
  within_line (close k span s).
Proof.
  intros W Hf Hd. pose proof (close_input k span s) as (If & _ & _).
  destruct (find_open k (brackets s)) as [[[inner m] outer]|] eqn:E.
  - destruct (close_found k span s _ _ _ E) as (Eo & Eb & Eh & Es & El & Ei & Ed & _).
    apply find_open_spec in E as (Hbs & Hk & _).
    eapply within_push; [exact W|done|exact Eo|exact Eb|congruence..|].
    rewrite nest_app, Hbs, nest_closers. simpl. rewrite <- Hk.
    pose proof (nest_step_close (kind m) (open_brackets outer)) as Hs.
    unfold open_brackets in *. by rewrite Hs.
  - destruct (close_missing k span s E) as (Eo & Eb & Eh & Es & El & Ei & Ed & _).
    eapply (within_push []); [exact W|done|by rewrite Eo, app_nil_r|reflexivity
      |congruence..|by rewrite Eb].
Qed.

Lemma mark_statement_ended_open bs :
  open_brackets (mark_statement_ended bs) = open_brackets bs.
Proof. induction bs as [|b bs IH]; simpl; [done|]. case_match; simpl; congruence. Qed.

Lemma physical_line_phase tok span newline s :
  within_line s -> dropped_newline s = None -> head_next s = false ->
  start span <= length (source s) ->
  exists s', physical_line tok span newline s = Some s' /\ same_input s s' /\
    dropped_newline s' = None /\
    ((s' = s \/ at_line_start s' = at_line_start s) /\ within_line s' /\ head_next s' = false \/
     at_line_start s' = true /\ between s').
Proof.
  intros W Hd Hh Hsp. unfold physical_line.
  destruct (column_some s span Hsp) as (ls & indent & ->). simpl.
  case_match; [eexists; split; [done|]; by auto 6 with cambra|].
  set (at_ := mkSpan _ _ _). set (marked := mark_statement_ended (brackets s)).
  destruct (close_early_spec at_ marked s) as (tk & rest & Em & _ & _ & Heq).
  rewrite Heq.
  assert (W' : within_line (closing at_ tk (set_brackets rest s))).
  { eapply (within_push (closers_at at_ tk) rest s); try done.
    rewrite <- (mark_statement_ended_open (brackets s)).
    fold marked. rewrite Em. apply nest_closers. }
  assert (Eb : brackets (closing at_ tk (set_brackets rest s)) = rest) by done.
  eexists. split; [done|]. rewrite Eb. destruct rest as [|b rest].
  - destruct (end_line_fields newline (closing at_ tk (set_brackets [] s)))
      as (_ & _ & Ef & Eso & _ & Ed & Ea & Er & _).
    rewrite Ed. repeat split; try done. right. split; [done|].
    by apply end_line_between.
  - repeat split; try done. left. auto.
Qed.

(** The state a token is written in: within_line a line, with nothing left over from
    the tokens before it unless the token is a newline. *)
Definition ready (tok : Token) (s : Layout) : Prop :=
  within_line s /\
  (is_newline tok = false ->
   dropped_newline s = None /\ (head_next s = true -> tok = TPub \/ tok = TConst)).

Lemma within_push_plain tok span hn s s' :
  within_line s -> dropped_newline s = None -> is_plain tok = true ->
  (hn = true -> brackets s = [] /\ tok <> TColon) ->
  out s' = out s ++ [(tok, span)] -> brackets s' = brackets s -> head_next s' = hn ->
  lfile s' = lfile s -> indent_stack s' = indent_stack s ->
  line_head s' = line_head s -> block_value_indents s' = block_value_indents s ->
  dropped_newline s' = dropped_newline s -> within_line s'.
Proof.
  intros (pre & cur & [Hbot Hout Hhead Hnc _ Hd Has Hlt Hn Hcur]) Hdr Hp Hhn
    Eo Eb Eh Ef Es El Ei Ed.
  exists pre, (cur ++ [(tok, span)]). constructor; unfold woven in *;
    rewrite ?Eo, ?Eb, ?Eh, ?Ef, ?Es, ?El, ?Ei, ?Ed, ?Hout, ?app_assoc; try done.
  - intros H. destruct (Hhn H) as [? ?]. split; [done|]. by apply no_colon_last_snoc.
  - rewrite nest_app, Hcur. simpl. by rewrite nest_step_plain.
Qed.

Lemma within_phase s : at_line_start s = false -> within_line s -> phase s.
Proof. unfold phase. by intros ->. Qed.

Lemma write_token_phase i tok span s :
  ready tok s -> is_layout tok = false -> at_line_start s = false ->
  phase (write_token i tok span s) /\ same_input s (write_token i tok span s).
Proof.
  intros [W R] Hl Ha. unfold write_token.
  destruct (opened_by tok) as [k|] eqn:Eo.
  { assert (is_newline tok = false) as Hnl by (by destruct tok).
    destruct (R Hnl) as [Hd Hh]. split; [|done]. apply within_phase; [done|].
    assert (head_next s = false) as Hhn.
    { destruct (head_next s); [|done]. by destruct (Hh eq_refl) as [-> | ->]. }
    eapply within_push; [exact W|done|reflexivity|reflexivity|done..|].
    by rewrite nest_cons, (nest_step_open tok k). }
  destruct (closed_by tok) as [k|] eqn:Ec.
  { assert (is_newline tok = false) as Hnl by (by destruct tok).
    destruct (R Hnl) as [Hd Hh]. split; [|apply close_input].
    apply within_phase; [|apply close_within; try done].
    - destruct (find_open k (brackets s)) as [[[inner m] outer]|] eqn:E.
      + by destruct (close_found k span s _ _ _ E) as (_&_&_&_&_&_&_&->&_).
      + by destruct (close_missing k span s E) as (_&_&_&_&_&_&_&->&_).
    - destruct (head_next s); [|done]. by destruct (Hh eq_refl) as [-> | ->]. }
  destruct (is_newline tok) eqn:Hnl.
  { destruct (brackets s) as [|b bs] eqn:Eb.
    - pose proof (end_line_fields span s) as (_ & _ & Ef & Eso & _ & _ & Ea & Er & _).
      split; [|by repeat split]. unfold phase. rewrite Ea. by apply end_line_between.
    - destruct (dropped_newline s) eqn:Ed; (split; [apply within_phase; [done|]|done]);
        [done|].
      destruct W as (pre & cur & []). exists pre, cur.
      constructor; unfold woven in *; simpl; try done. by rewrite Eb. }
  destruct (R eq_refl) as [Hd Hh].
  assert (Hpl : is_plain tok = true).
  { unfold is_plain. by rewrite Hl, Hnl, Eo, Ec. }
  set (s1 := push_out tok span s).
  assert (Hgo : forall hn s', (hn = true -> brackets s = [] /\ tok <> TColon) ->
      out s' = out s1 -> brackets s' = brackets s -> head_next s' = hn ->
      lfile s' = lfile s -> indent_stack s' = indent_stack s ->
      line_head s' = line_head s -> block_value_indents s' = block_value_indents s ->
      dropped_newline s' = dropped_newline s -> at_line_start s' = false ->
      source s' = source s -> resync s' = resync s ->
      phase s' /\ same_input s s').
  { intros. split; [|done]. apply within_phase; [done|].
    by apply (within_push_plain tok span hn s s'). }
  assert (Hdef : phase s1 /\ same_input s s1).
  { apply (Hgo (head_next s)); try done. intros H. destruct W as (pre & cur & W).
    destruct (wi_head_next _ _ _ W H) as [? _].
    split; [done|]. by destruct (Hh H) as [-> | ->]. }
  destruct tok; try exact Hdef. change (brackets s1) with (brackets s).
  destruct (brackets s) eqn:Eb; [|exact Hdef]. by apply (Hgo true).
Qed.

Lemma within_set_at_line_start b s : within_line s -> within_line (set_at_line_start b s).
Proof. intros (pre & cur & []). exists pre, cur. by constructor. Qed.

Lemma within_drop_newline s : within_line s -> within_line (set_dropped_newline None s).
Proof. intros (pre & cur & []). exists pre, cur. by constructor. Qed.

(** The heads, once no physical line is pending. *)
Lemma heads_ready tok span s :
  phase s -> (at_line_start s && is_newline tok) = false ->
  (is_newline tok = false -> dropped_newline s = None) ->
  start span <= length (source s) ->
  exists s', heads tok span s = Some s' /\ ready tok s' /\ same_input s s'.
Proof.
  unfold phase, heads. intros P Hn Hd Hsp. destruct (at_line_start s).
  - simpl in Hn. rewrite (bt_brackets _ P). simpl.
    destruct (line_start_within tok span s P Hsp) as (s' & E & W & I & Hb & Hdr).
    exists s'. split; [done|]. split; [|done]. split; [done|]. intros _. split; [done|].
    unfold line_start in E.
    destruct (column s span) as [[? ?]|]; simpl in E; [|done].
    destruct (indent_stack s); simpl in E; [done|].
    destruct (indent_rule _ _ _ _ _); simpl in E; [|done]. simplify_eq. simpl.
    destruct tok; auto; done.
  - simpl. destruct (head_next s && negb (is_newline tok)) eqn:E; breflect.
    + destruct P as (pre & cur & W).
      match goal with H : head_next s = true |- _ =>
        destruct (wi_head_next _ _ _ W H) as [Hb Hc] end.
      eexists. split; [done|]. split; [|done].
      split; [apply statement_head_within, within_between; [by exists pre, cur|done..]|].
      intros Hnl. split; [by apply Hd|]. destruct tok; auto; done.
    + eexists. split; [done|]. split; [|done]. split; [done|]. intros Hnl.
      split; [by apply Hd|]. rewrite Hnl in E. simpl in E.
      by destruct (head_next s).
Qed.

Lemma prepare_ready tok span s :
  phase s -> (at_line_start s && is_newline tok) = false ->
  start span <= length (source s) ->
  exists s1 s', pending_line tok span s = Some s1 /\ heads tok span s1 = Some s' /\
    ready tok s' /\ same_input s s'.
Proof.
  intros P Hn Hsp. unfold pending_line.
  assert (Hnow : (is_newline tok = false -> dropped_newline s = None) ->
    exists s', heads tok span s = Some s' /\ ready tok s' /\ same_input s s').
  { intros Hd. by apply heads_ready. }
  destruct (dropped_newline s) as [nl|] eqn:Ed; [|destruct Hnow as (s' & ?); [done|eauto]].
  destruct (is_newline tok) eqn:Hnl; [destruct Hnow as (s' & ?); [done|eauto]|].
  assert (Ha : at_line_start s = false).
  { destruct (at_line_start s) eqn:E; [|done]. unfold phase in P. rewrite E in P.
    by rewrite (bt_dropped _ P) in Ed. }
  assert (W : within_line s) by (unfold phase in P; by rewrite Ha in P).
  assert (Hh : head_next s = false).
  { apply within_head_next; [done|]. intros Hb. destruct W as (? & ? & W).
    by rewrite (wi_dropped _ _ _ W Hb) in Ed. }
  destruct (physical_line_phase tok span nl (set_dropped_newline None s))
    as (s1 & E1 & I1 & Hd1 & Hcase); [by apply within_drop_newline|done..|].
  assert (P1 : phase s1).
  { destruct Hcase as [([-> | Ha'] & W' & _) | (Ha' & B')]; unfold phase.
    - simpl. by rewrite Ha.
    - simpl in Ha'. by rewrite Ha', Ha.
    - by rewrite Ha'. }
  destruct (heads_ready tok span s1) as (s' & E' & R & I2); try done.
  - rewrite Hnl. by destruct (at_line_start s1).
  - by rewrite (proj1 (proj2 I1)).
  - exists s1, s'. split; [done|]. split; [done|]. split; [done|].
    exact (same_input_trans _ _ _ I1 I2).
Qed.

Lemma token_phase i tok span s :
  phase s -> is_layout tok = false -> start span <= length (source s) ->
  exists s', token i tok span s = Some s' /\ phase s' /\ same_input s s'.
Proof.
  intros P Hl Hsp. unfold token.
  destruct (at_line_start s && is_newline tok) eqn:E; [by eauto with cambra|].
  destruct (prepare_ready tok span s P E Hsp) as (s0 & s1 & -> & H1 & [W R] & I).
  simpl. rewrite H1. simpl. eexists. split; [done|].
  destruct (write_token_phase i tok span (set_at_line_start false s1)) as [P' I']; try done.
  { split; [by apply within_set_at_line_start|done]. }
  split; [done|]. by apply (same_input_trans _ _ _ I).
Qed.

(** The raw tokens of a source: each starts inside it, and none is a layout
    token. *)
Definition raw_ok (src : bytes) (raw : list spanned) : Prop :=
  Forall (fun ts => is_layout (fst ts) = false /\ start (snd ts) <= length src) raw.

Lemma run_tokens_phase i raw s :
  phase s -> raw_ok (source s) raw ->
  exists s', run_tokens i raw s = Some s' /\ phase s' /\ same_input s s'.
Proof.
  revert i s. induction raw as [|[tok span] raw IH]; intros i s P H; simpl.
  { eauto with cambra. }
  apply Forall_cons in H as [[Hl Hsp] H]. simpl in *.
  destruct (token_phase i tok span s P Hl Hsp) as (s1 & -> & P1 & I1). simpl.
  destruct (IH (S i) s1 P1) as (s2 & -> & P2 & I2).
  { by rewrite (proj1 (proj2 I1)). }
  exists s2. split; [done|]. split; [done|]. by eapply same_input_trans.
Qed.

Lemma initial_phase f src rs : phase (initial f src rs).
Proof. by constructor. Qed.

(** ** The end of a run *)

(** Both phases, as one split of the stream. *)
Lemma phase_split s :
  phase s ->
  exists pre cur, out s = pre ++ cur /\ has_bottom (indent_stack s) /\
    ascending 0 (block_value_indents s) /\
    Forall (fun o => fst o < length pre) (block_value_indents s) /\
    nest (woven s pre) [] = Some (open_levels (indent_stack s)) /\
    nest cur [] = Some (open_brackets (brackets s)).
Proof.
  unfold phase. destruct (at_line_start s).
  - intros []. exists (out s), []. rewrite app_nil_r.
    split; [done|]. split; [done|]. split; [done|]. split; [done|]. split; [done|].
    by match goal with H : brackets s = [] |- _ => rewrite H end.
  - intros (pre & cur & []). by exists pre, cur.
Qed.

Lemma trailing_newline_spec end_span s :
  exists body nl, out (trailing_newline end_span s) = body ++ [(TNewline, nl)] /\
    (body = out s /\ nl = end_span \/ out s = body ++ [(TNewline, nl)]) /\
    trailing_newline end_span s = set_out (fun _ => body ++ [(TNewline, nl)]) s.
Proof.
  unfold trailing_newline. destruct (last (out s)) as [[t sp]|] eqn:E.
  - destruct (decide (t = TNewline)) as [->|Hne].
    + apply last_Some in E as [body E]. exists body, sp. rewrite E.
      split; [done|]. split; [by right|]. unfold set_out. rewrite <- E. by destruct s.
    + exists (out s), end_span. destruct t; try done; (split; [done|]; split; [by left|done]).
  - exists (out s), end_span. split; [done|]. split; [by left|done].
Qed.

Lemma finish_eq s :
  let end_span := mkSpan (lfile s) (length (source s)) (length (source s)) in
  let s1 := trailing_newline end_span (finish_brackets end_span (brackets s) s) in
  let '(left_, closers) := finish_levels (indent_stack s1) in
  finish s =
    set_out (fun o => insert_openers (lfile s1) 0
               (o ++ map (fun t => (t, end_span)) closers) (block_value_indents s1))
      (set_indent_stack left_ s1).
Proof.
  simpl. unfold finish.
  set (s1 := trailing_newline _ _).
  destruct (finish_levels (indent_stack s1)) as [l c].
  destruct (block_value_indents s1) as [|o os] eqn:E.
  - unfold set_out, set_indent_stack; simpl. rewrite E, insert_openers_nil. done.
  - unfold set_out, set_indent_stack; simpl. by rewrite E.
Qed.

(** The stream [finish] leaves: what was woven so far, then closers of the open
    brackets, a newline, and closers of the open levels. *)
Lemma finish_spec s :
  phase s ->
  well_nested (out (finish s)) /\ ends_at_column_zero (out (finish s)).
Proof.
  intros P. destruct (phase_split s P) as (pre & cur & Hout & Hb & Has & Hlt & Hn & Hcur).
  pose proof (finish_eq s) as F. cbv zeta in F.
  set (e := mkSpan (lfile s) (length (source s)) (length (source s))) in F.
  set (s0 := finish_brackets e (brackets s) s) in F.
  destruct (finish_brackets_fields e s) as (Eo & _ & _ & _ & Es & Ef & Ei).
  fold s0 in Eo, Es, Ef, Ei.
  destruct (trailing_newline_spec e s0) as (body & nl & E1 & Hbody & E1').
  rewrite E1' in F. simpl in F. rewrite Es, Ef, Ei in F.
  destruct (finish_levels (indent_stack s)) as [left_ closers] eqn:El.
  destruct (finish_levels_spec _ Hb _ _ El) as (_ & Hc & Hcn).
  assert (Hpre : nest (woven s (out s0)) [] = Some (open_levels (indent_stack s))).
  { rewrite Eo, Hout, <- app_assoc.
    apply (nest_woven_app s pre (cur ++ closers_at e (brackets s)) _ []); try done.
    - apply in_bracket_open_levels.
    - rewrite nest_app, Hcur. simpl. rewrite <- (app_nil_r (brackets s)) at 2.
      apply (nest_closers e (brackets s) []). }
  assert (Hlt0 : Forall (fun o => fst o < length (out s0)) (block_value_indents s)).
  { eapply Forall_impl; [exact Hlt|]. simpl. intros.
    rewrite Eo, Hout, !length_app. lia. }
  assert (Hbody' : nest (woven s (body ++ [(TNewline, nl)])) [] =
                   Some (open_levels (indent_stack s)) /\
                   Forall (fun o => fst o < length (body ++ [(TNewline, nl)]))
                     (block_value_indents s)).
  { destruct Hbody as [[-> ->] | Hbody]; [|by rewrite <- Hbody].
    split.
    - apply (nest_woven_app s (out s0) [(TNewline, e)] _ []); try done.
      apply in_bracket_open_levels.
    - eapply Forall_impl; [exact Hlt0|]. simpl. intros. rewrite length_app. lia. }
  destruct Hbody' as [Hbn Hbl].
  rewrite F. simpl. rewrite insert_openers_app by done. split.
  - unfold well_nested. unfold woven in Hbn. rewrite nest_app, Hbn. apply Hcn.
  - assert (exists w, insert_openers (lfile s) 0 (body ++ [(TNewline, nl)])
              (block_value_indents s) = w ++ [(TNewline, nl)]) as [w ->].
    { generalize 0, (block_value_indents s). clear. induction body as [|x body IH];
        intros i os; simpl; destruct (openers_at i os) as [here rest].
      - eauto.
      - destruct (IH (S i) rest) as [w ->]. eexists. by rewrite app_comm_cons, app_assoc. }
    exists w, nl, (map (fun t => (t, e)) closers). split; [by rewrite <- app_assoc|].
    apply Forall_fmap. eapply Forall_impl; [exact Hc|]. done.
Qed.

(** A run over raw tokens never panics, and what it leaves is well nested. *)
Lemma run_ok f src raw rs :
  raw_ok src raw ->
  exists s, run f src raw rs = Some s /\
    well_nested (out s) /\ ends_at_column_zero (out s).
Proof.
  intros H. unfold run.
  destruct (run_tokens_phase 0 raw (initial f src rs)) as (s & -> & P & _);
    [apply initial_phase|done|]. simpl.
  eexists. split; [done|]. by apply finish_spec.
Qed.
