(* ===== verification/LayoutErrors.v ===== *)
(** * What a layout run writes, and the errors it reports

    Each operation of a run extends the stream and the errors.  [effect] records
    how: a zero-width close bracket is written exactly when an error for an open
    bracket is reported, every token that is neither a newline nor a close
    bracket is written once and in order, and a second run is asked for only
    together with such an error. *)

From S2P Require Import Prelude Tokens Layout Nesting LayoutFacts.

(** A close bracket the source does not hold. *)
Definition is_zero_width_closer (ts : spanned) : bool :=
  is_closer (fst ts) && (start (snd ts) =? end_ (snd ts)).

(** The tokens that only structure the stream. *)
Definition is_blank (ts : spanned) : bool := is_layout (fst ts) || is_newline (fst ts).

(** The tokens layout may neither add nor drop. *)
Definition is_kept (ts : spanned) : bool :=
  negb (is_layout (fst ts)) && negb (is_newline (fst ts)) && negb (is_closer (fst ts)).

Definition kept (l : list spanned) : list spanned := List.filter is_kept l.

Definition zero_closers (l : list spanned) : nat := countb is_zero_width_closer l.
Definition never_closed_errors (l : list LexError) : nat := countb is_never_closed l.

Arguments kept : simpl never.
Arguments zero_closers : simpl never.
Arguments never_closed_errors : simpl never.

Record effect (k : list spanned) (s s' : Layout) : Prop := {
  ef_out : exists toks, out s' = out s ++ toks /\ kept toks = k;
  ef_resync : exists rn, resync_next s' = resync_next s ++ rn;
  ef_errors : exists errs, errors s' = errors s ++ errs;
  ef_count : zero_closers (out s') + never_closed_errors (errors s) =
             zero_closers (out s) + never_closed_errors (errors s');
  ef_ask : length (resync_next s') + never_closed_errors (errors s) <=
           length (resync_next s) + never_closed_errors (errors s')
}.

Lemma kept_app l1 l2 : kept (l1 ++ l2) = kept l1 ++ kept l2.
Proof. apply List.filter_app. Qed.

Lemma kept_cons t l : kept (t :: l) = kept [t] ++ kept l.
Proof. apply (kept_app [t]). Qed.

Lemma effect_trans k1 k2 s1 s2 s3 :
  effect k1 s1 s2 -> effect k2 s2 s3 -> effect (k1 ++ k2) s1 s3.
Proof.
  intros [(t1 & E1 & K1) (r1 & R1) (e1 & X1) C1 A1] [(t2 & E2 & K2) (r2 & R2) (e2 & X2) C2 A2].
  split; [| | |lia|lia].
  - exists (t1 ++ t2). rewrite E2, E1, kept_app, K1, K2. by rewrite app_assoc.
  - exists (r1 ++ r2). by rewrite R2, R1, app_assoc.
  - exists (e1 ++ e2). by rewrite X2, X1, app_assoc.
Qed.

(** A step that writes [toks] and reports [errs]. *)
Lemma effect_intro toks errs rn s s' :
  out s' = out s ++ toks -> errors s' = errors s ++ errs ->
  resync_next s' = resync_next s ++ rn ->
  zero_closers toks = never_closed_errors errs ->
  length rn <= never_closed_errors errs ->
  effect (kept toks) s s'.
Proof.
  intros E1 E2 E3 C A. unfold zero_closers, never_closed_errors in *.
  split; [eauto..| |]; unfold zero_closers, never_closed_errors;
    rewrite ?E1, ?E2, ?E3, ?countb_app, ?length_app; lia.
Qed.

Lemma effect_same s s' :
  out s' = out s -> errors s' = errors s -> resync_next s' = resync_next s ->
  effect [] s s'.
Proof.
  intros E1 E2 E3. apply (effect_intro [] [] []); rewrite ?app_nil_r; auto.
Qed.

Lemma kept_layout toks :
  Forall (fun ts : spanned => is_blank ts = true) toks ->
  kept toks = [] /\ zero_closers toks = 0.
Proof.
  induction 1 as [|[t sp] toks Ht _ [IH1 IH2]]; [done|].
  rewrite kept_cons, IH1. unfold zero_closers in *. simpl. rewrite IH2.
  by destruct t.
Qed.

(** Layout tokens and newlines, with no bracket error. *)
Lemma effect_layout toks errs s s' :
  Forall (fun ts : spanned => is_blank ts = true) toks ->
  never_closed_errors errs = 0 ->
  out s' = out s ++ toks -> errors s' = errors s ++ errs ->
  resync_next s' = resync_next s -> effect [] s s'.
Proof.
  intros Hl He E1 E2 E3. destruct (kept_layout toks Hl) as [Hk Hz]. rewrite <- Hk.
  apply (effect_intro toks errs []); rewrite ?app_nil_r; auto; simpl; lia.
Qed.

(** ** Per operation *)

Lemma zero_closers_closers_at f n bs :
  zero_closers (closers_at (mkSpan f n n) bs) = length bs /\
  kept (closers_at (mkSpan f n n) bs) = [].
Proof.
  induction bs as [|b bs [IH1 IH2]]; [done|].
  unfold zero_closers, closers_at in *; simpl. rewrite kept_cons, IH2.
  unfold is_zero_width_closer at 1, is_closer; simpl.
  rewrite closed_by_close_token, Nat.eqb_refl, IH1.
  split; [done|]. by destruct (kind b).
Qed.

Lemma never_closed_errors_map bs :
  never_closed_errors (map never_closed_error bs) = length bs.
Proof.
  induction bs as [|b bs IH]; [done|]. unfold never_closed_errors in *; simpl.
  rewrite IH. unfold never_closed_error. by repeat case_match.
Qed.

Lemma closing_effect f n bs s : effect [] s (closing (mkSpan f n n) bs s).
Proof.
  destruct (zero_closers_closers_at f n bs) as [Hz Hk]. rewrite <- Hk.
  apply (effect_intro _ (map never_closed_error bs) []); simpl; auto;
    rewrite ?app_nil_r, ?never_closed_errors_map; auto. lia.
Qed.

Lemma end_line_effect sp s : effect [] s (end_line sp s).
Proof.
  destruct (end_line_fields sp s) as (Eo & Ee & _ & _ & _ & _ & _ & _ & Er & _).
  apply (effect_layout [(TNewline, sp)] []); rewrite ?app_nil_r; try done.
  by repeat constructor.
Qed.

Lemma closers_layout indent stack sp :
  Forall (fun ts : spanned => is_blank ts = true)
    (map (fun t => (t, sp)) (snd (close_levels indent stack))).
Proof.
  induction stack as [|top stack IH]; [constructor|].
  destruct stack as [|below rest]; [constructor|].
  change (close_levels indent (top :: below :: rest)) with
    (if closes_at top indent && negb (is_fixed top && strands below indent) then
       let '(left_, closers) := close_levels indent (below :: rest) in
       (left_, closer top :: closers)
     else (top :: below :: rest, [])).
  case_match; [|constructor].
  destruct (close_levels indent (below :: rest)) as [l c]. simpl in *.
  by constructor; [destruct top|].
Qed.

Lemma indent_rule_effect span ls indent current s s' :
  indent_rule span ls indent current s = Some s' -> effect [] s s'.
Proof.
  unfold indent_rule. case_match.
  { intros [= <-]. apply (effect_layout [(TIndent, mkSpan (lfile s) ls (start span))] []);
      [by repeat constructor|done|done|by rewrite app_nil_r|done]. }
  pose proof (closers_layout indent (indent_stack s)
    (mkSpan (lfile s) (start span) (start span))) as Hl.
  destruct (close_levels indent (indent_stack s)) as [left_ closers]. simpl in Hl.
  destruct left_ as [|top rest]; simpl; [done|].
  destruct top as [c|min|c]; [destruct (c =? indent)| |destruct (c =? indent)];
    intros [= <-]; simpl;
    (eapply (effect_layout _ []) + eapply (effect_layout _ [InconsistentIndent span]));
    try exact Hl; simpl; auto; by rewrite app_nil_r.
Qed.

Lemma line_start_effect tok span s s' :
  line_start tok span s = Some s' -> effect [] s s'.
Proof.
  unfold line_start. destruct (column s span) as [[ls indent]|]; simpl; [|done].
  destruct (indent_stack s) as [|top rest]; simpl; [done|].
  match goal with |- context [indent_rule _ _ _ _ ?s1] =>
    assert (effect [] s s1) as H0 by (by apply effect_same) end.
  destruct (indent_rule _ _ _ _ _) as [s2|] eqn:E; simpl; [|done].
  intros [= <-]. apply indent_rule_effect in E.
  eapply (effect_trans [] []); [exact H0|].
  eapply (effect_trans [] []); [exact E|]. by apply effect_same.
Qed.

Lemma physical_line_effect tok span newline s s' :
  physical_line tok span newline s = Some s' -> effect [] s s'.
Proof.
  unfold physical_line. destruct (column s span) as [[ls indent]|]; simpl; [|done].
  case_match; [intros [= <-]; by apply effect_same|].
  set (at_ := mkSpan _ _ _).
  destruct (close_early_spec at_ (mark_statement_ended (brackets s)) s)
    as (tk & rest & _ & _ & _ & Heq).
  rewrite Heq. intros [= <-].
  assert (effect [] s (closing at_ tk (set_brackets rest s))) as H1.
  { eapply (effect_trans [] []); [|apply closing_effect]. by apply effect_same. }
  case_match; [|done]. eapply (effect_trans [] []); [exact H1|apply end_line_effect].
Qed.

(** A close bracket writes nothing the source does not hold but the zero-width
    closers it forces. *)
Lemma close_effect k span s :
  start span < end_ span -> effect [] s (close k span s).
Proof.
  intros Hsp. destruct (find_open k (brackets s)) as [[[inner m] outer]|] eqn:E.
  - destruct (close_found k span s _ _ _ E) as (Eo & _ & _ & _ & _ & _ & _ & _ & Ee & Er).
    set (f := lfile s) in *.
    destruct (zero_closers_closers_at f (start span) inner) as [Hz Hk].
    assert (Hzk : zero_closers [(close_token k, span)] = 0 /\
                  kept [(close_token k, span)] = []).
    { unfold zero_closers, is_zero_width_closer, is_kept, kept. simpl.
      destruct (start span =? end_ span) eqn:E'; breflect; [lia|].
      rewrite andb_false_r. by destruct k. }
    destruct Hzk as [Hz1 Hk1].
    replace (@nil spanned) with (kept (closers_at (mkSpan f (start span) (start span)) inner ++
      [(close_token k, span)])) by (by rewrite kept_app, Hk, Hk1).
    eapply effect_intro; [exact Eo|exact Ee|exact Er| |].
    + unfold zero_closers, never_closed_errors in *. rewrite !countb_app, Hz, Hz1.
      pose proof (never_closed_errors_map (match inner with
        | [] => [] | b :: bs => stray_get_or_insert b (k, span) :: bs end)) as Hm.
      unfold never_closed_errors in Hm. rewrite Hm.
      destruct inner; simpl; destruct (stray m) as [[? ?]|]; simpl; lia.
    + unfold never_closed_errors. rewrite countb_app.
      pose proof (never_closed_errors_map (match inner with
        | [] => [] | b :: bs => stray_get_or_insert b (k, span) :: bs end)) as Hm.
      unfold never_closed_errors in Hm. rewrite Hm.
      destruct inner; simpl; [lia|]. destruct (statement_ended m); simpl; lia.
  - destruct (close_missing k span s E) as (Eo & _ & _ & _ & _ & _ & _ & _ & Er & [Ee|Ee]).
    + by apply effect_same.
    + by apply (effect_layout [] [UnmatchedClose span]); rewrite ?app_nil_r.
Qed.

Lemma kept_singleton tok span :
  is_kept (tok, span) = false -> kept [(tok, span)] = [].
Proof. unfold kept. simpl. by intros ->. Qed.

Lemma write_token_effect i tok span s :
  is_layout tok = false -> start span < end_ span ->
  effect (kept [(tok, span)]) s (write_token i tok span s).
Proof.
  intros Hl Hsp. unfold write_token.
  assert (Hplain : is_closer tok = false -> forall s', out s' = out s ++ [(tok, span)] ->
      errors s' = errors s -> resync_next s' = resync_next s ->
      effect (kept [(tok, span)]) s s').
  { intros Hc s' E1 E2 E3. apply (effect_intro _ [] []); rewrite ?app_nil_r; auto.
    unfold zero_closers; simpl. unfold is_zero_width_closer; simpl. by rewrite Hc. }
  destruct (opened_by tok) as [k|] eqn:Eo.
  { apply Hplain; try done. unfold is_closer. by rewrite (opened_not_closed _ _ Eo). }
  destruct (closed_by tok) as [k|] eqn:Ec.
  { rewrite kept_singleton; [by apply close_effect|].
    unfold is_kept, is_closer; simpl. rewrite Ec. by rewrite !andb_false_r. }
  destruct (is_newline tok) eqn:Hn.
  { rewrite kept_singleton.
    - repeat case_match; by (apply end_line_effect || apply effect_same).
    - unfold is_kept; simpl. rewrite Hn. by rewrite andb_false_r. }
  assert (is_closer tok = false) as Hc by (unfold is_closer; by rewrite Ec).
  destruct tok; try (by apply Hplain). simpl. destruct (brackets s); by apply Hplain.
Qed.

Lemma token_effect i tok span s s' :
  is_layout tok = false -> start span < end_ span ->
  token i tok span s = Some s' -> effect (kept [(tok, span)]) s s'.
Proof.
  intros Hl Hsp. unfold token.
  destruct (at_line_start s && is_newline tok) eqn:E.
  { apply andb_true_iff in E as [_ E]. intros [= <-].
    rewrite kept_singleton; [by apply effect_same|].
    unfold is_kept; simpl. rewrite E. by rewrite andb_false_r. }
  destruct (pending_line tok span s) as [s1|] eqn:E1; simpl; [|done].
  assert (effect [] s s1) as H1.
  { unfold pending_line in E1. repeat case_match; simplify_eq; try (by apply effect_same).
    eapply (effect_trans [] []); [|by eapply physical_line_effect]. by apply effect_same. }
  destruct (heads tok span s1) as [s2|] eqn:E2; simpl; [|done].
  assert (effect [] s1 s2) as H2.
  { unfold heads in E2. repeat case_match; simplify_eq;
      (by eapply line_start_effect) || by apply effect_same. }
  intros [= <-].
  eapply (effect_trans []); [exact H1|]. eapply (effect_trans []); [exact H2|].
  eapply (effect_trans [] _ _ (set_at_line_start false s2)); [by apply effect_same|].
  by apply write_token_effect.
Qed.

(** Raw tokens as logos leaves them: inside the source, not empty, and none of
    layout's. *)
Definition raw_tokens_ok (src : bytes) (raw : list spanned) : Prop :=
  Forall (fun ts => is_layout (fst ts) = false /\
                    start (snd ts) < end_ (snd ts) /\ end_ (snd ts) <= length src) raw.

Lemma raw_tokens_ok_raw_ok src raw : raw_tokens_ok src raw -> raw_ok src raw.
Proof. intros H. eapply Forall_impl; [exact H|]. simpl. intros ? (? & ? & ?). split; [done|lia]. Qed.

Lemma run_tokens_effect i raw s s' src :
  raw_tokens_ok src raw -> run_tokens i raw s = Some s' -> effect (kept raw) s s'.
Proof.
  intros Hr. revert i s. induction Hr as [|[tok span] raw (Hl & Hsp & _) _ IH]; intros i s; simpl.
  { intros [= <-]. by apply effect_same. }
  destruct (token i tok span s) as [s1|] eqn:E; simpl; [|done]. intros H.
  apply token_effect in E; [|done..].
  rewrite kept_cons.
  eapply effect_trans; [exact E|]. by eapply IH.
Qed.

Lemma insert_openers_kept f i l os :
  kept (insert_openers f i l os) = kept l /\
  zero_closers (insert_openers f i l os) = zero_closers l.
Proof.
  revert i os. induction l as [|t l IH]; intros i os; simpl; [done|].
  destruct (openers_at i os) as [here rest]. destruct (IH (S i) rest) as [IH1 IH2].
  assert (Hh : kept (map (fun at_ => (TBlockValueIndent, mkSpan f at_ at_)) here) = [] /\
    zero_closers (map (fun at_ => (TBlockValueIndent, mkSpan f at_ at_)) here) = 0).
  { apply kept_layout. apply Forall_fmap, Forall_true. done. }
  destruct Hh as [Hh1 Hh2]. unfold zero_closers in *.
  rewrite kept_app, Hh1, countb_app, Hh2. simpl. by rewrite (kept_cons t l), (kept_cons t (insert_openers _ _ _ _)), IH1, IH2.
Qed.

Lemma finish_levels_blank stack left_ closers sp :
  finish_levels stack = (left_, closers) ->
  Forall (fun ts : spanned => is_blank ts = true) (map (fun t => (t, sp)) closers).
Proof.
  revert left_ closers. induction stack as [|top stack IH]; intros left_ closers E.
  { simpl in E. simplify_eq. constructor. }
  destruct stack as [|below rest]; [simpl in E; simplify_eq; constructor|].
  change (finish_levels (top :: below :: rest)) with
    (let '(left_, closers) := finish_levels (below :: rest) in
     (left_, closer top :: closers)) in E.
  destruct (finish_levels (below :: rest)) as [l c]. simplify_eq. simpl.
  constructor; [by destruct top|]. by eapply IH.
Qed.

(** What [finish] adds to what the run left. *)
Lemma finish_effect s :
  kept (out (finish s)) = kept (out s) /\
  zero_closers (out (finish s)) + never_closed_errors (errors s) =
    zero_closers (out s) + never_closed_errors (errors (finish s)) /\
  length (resync_next (finish s)) + never_closed_errors (errors s) <=
    length (resync_next s) + never_closed_errors (errors (finish s)).
Proof.
  pose proof (finish_eq s) as F. cbv zeta in F.
  set (n := length (source s)) in F. set (f := lfile s) in F. set (e := mkSpan f n n) in F.
  set (s0 := finish_brackets e (brackets s) s) in F.
  assert (H0 : kept (out s0) = kept (out s) /\
    zero_closers (out s0) = zero_closers (out s) + length (brackets s) /\
    never_closed_errors (errors s0) = never_closed_errors (errors s) + length (brackets s) /\
    length (resync_next s0) = length (resync_next s) + length (brackets s)).
  { destruct (zero_closers_closers_at f n (brackets s)) as [Hz Hk].
    destruct (finish_brackets_fields e s) as (Eo & Ee & Er & _).
    fold e in Hz, Hk. fold s0 in Eo, Ee, Er. rewrite Eo, Ee, Er.
    unfold zero_closers, never_closed_errors in *.
    rewrite kept_app, !countb_app, !length_app, Hz, Hk, app_nil_r, length_map.
    pose proof (never_closed_errors_map (brackets s)) as Hm.
    unfold never_closed_errors in Hm. rewrite Hm. auto. }
  destruct H0 as (Hk & Hz & He & Hr).
  destruct (trailing_newline_spec e s0) as (body & nl & _ & Hb & E1). rewrite E1 in F.
  simpl in F. destruct (finish_levels (indent_stack s0)) as [left_ closers] eqn:El.
  rewrite F. simpl. unfold never_closed_errors in *. rewrite He, Hr.
  set (ds := map _ closers).
  assert (Hds : kept ds = [] /\ zero_closers ds = 0).
  { apply kept_layout. by eapply finish_levels_blank. }
  destruct Hds as [Hd1 Hd2].
  destruct (insert_openers_kept (lfile s0) 0 ((body ++ [(TNewline, nl)]) ++ ds)
              (block_value_indents s0)) as [-> ->].
  rewrite kept_app, Hd1, app_nil_r. unfold zero_closers in *. rewrite countb_app, Hd2.
  assert (kept (body ++ [(TNewline, nl)]) = kept (out s0) /\
          countb is_zero_width_closer (body ++ [(TNewline, nl)]) =
          countb is_zero_width_closer (out s0)) as [Hb1 Hb2].
  { destruct Hb as [[-> _] | ->]; [|done].
    rewrite kept_app, countb_app. unfold kept at 2. simpl. by rewrite app_nil_r, Nat.add_0_r. }
  rewrite Hb1, Hb2, Hk, Hz. split; [done|]. lia.
Qed.

(** A whole run: zero-width closers and bracket errors match in number, what
    must be kept is kept, and a second run is asked for only with an error. *)
Lemma run_effect f src raw rs s :
  raw_tokens_ok src raw -> run f src raw rs = Some s ->
  zero_closers (out s) = never_closed_errors (errors s) /\
  kept (out s) = kept raw /\
  length (resync_next s) <= never_closed_errors (errors s).
Proof.
  intros Hr. unfold run.
  destruct (run_tokens 0 raw (initial f src rs)) as [s1|] eqn:E; simpl; [|done].
  intros [= <-]. eapply run_tokens_effect in E as [(t & Eo & Hk) _ _ Hc Ha]; [|done].
  destruct (finish_effect s1) as (Fk & Fc & Fa).
  unfold zero_closers, never_closed_errors in *. simpl in *.
  rewrite Fk, Eo. split; [lia|]. split; [done|lia].
Qed.

(** * Sources whose brackets balance

    On a source whose brackets balance, the recovery machinery of the layout
    pass is never used: no bracket error is reported, no second run is asked
    for, and the stream holds exactly the source's tokens with layout's added
    and the newlines inside brackets removed. *)

(** The brackets of [l] balance, with those of [st] open, innermost first. *)
Fixpoint balanced (l : list spanned) (st : list Bracket) : bool :=
  match l with
  | [] => match st with [] => true | _ => false end
  | (t, _) :: l' =>
      match opened_by t with
      | Some b => balanced l' (b :: st)
      | None =>
          match closed_by t with
          | Some b =>
              match st with
              | b' :: st' => bool_decide (b = b') && balanced l' st'
              | [] => false
              end
          | None => balanced l' st
          end
      end
  end.

(** Everything but layout's tokens and newlines. *)
Definition is_lexical (ts : spanned) : bool := negb (is_blank ts).
Definition lexical (l : list spanned) : list spanned := List.filter is_lexical l.
Arguments lexical : simpl never.

Definition is_indent_error (e : LexError) : bool :=
  match e with InconsistentIndent _ => true | _ => false end.

Lemma lexical_app l1 l2 : lexical (l1 ++ l2) = lexical l1 ++ lexical l2.
Proof. apply List.filter_app. Qed.

Lemma lexical_blank toks :
  Forall (fun ts : spanned => is_blank ts = true) toks -> lexical toks = [].
Proof.
  induction 1 as [|t toks Ht _ IH]; [done|]. unfold lexical in *. simpl.
  unfold is_lexical at 1. by rewrite Ht.
Qed.

(** A bracket the run has no complaint about. *)
Definition untouched (b : OpenBracket) : Prop := stray b = None /\ ob_resync b = false.

Record clean (st : list Bracket) (s : Layout) : Prop := {
  cl_brackets : map kind (brackets s) = st;
  cl_untouched : Forall untouched (brackets s);
  cl_resync : resync s = [];
  cl_resync_next : resync_next s = [];
  cl_errors : Forall (fun e => is_indent_error e = true) (errors s)
}.

(** A step that keeps the brackets and writes only blank tokens. *)
Record blank_step (s s' : Layout) : Prop := {
  bs_out : exists toks, out s' = out s ++ toks /\
             Forall (fun ts : spanned => is_blank ts = true) toks;
  bs_errors : exists errs, errors s' = errors s ++ errs /\
                Forall (fun e => is_indent_error e = true) errs;
  bs_kinds : map kind (brackets s') = map kind (brackets s);
  bs_untouched : Forall untouched (brackets s) -> Forall untouched (brackets s');
  bs_resync : resync s' = resync s;
  bs_resync_next : resync_next s' = resync_next s
}.

Lemma blank_step_same s s' :
  out s' = out s -> errors s' = errors s -> brackets s' = brackets s ->
  resync s' = resync s -> resync_next s' = resync_next s -> blank_step s s'.
Proof.
  intros E1 E2 E3 E4 E5. split; rewrite ?E3; auto; exists []; by rewrite app_nil_r.
Qed.

Lemma blank_step_trans s1 s2 s3 :
  blank_step s1 s2 -> blank_step s2 s3 -> blank_step s1 s3.
Proof.
  intros [(t1 & E1 & B1) (e1 & X1 & Y1) K1 U1 R1 N1] [(t2 & E2 & B2) (e2 & X2 & Y2) K2 U2 R2 N2].
  split; [| |congruence|auto|congruence|congruence].
  - exists (t1 ++ t2). rewrite E2, E1, app_assoc. split; [done|]. by apply Forall_app.
  - exists (e1 ++ e2). rewrite X2, X1, app_assoc. split; [done|]. by apply Forall_app.
Qed.

Lemma blank_step_clean st s s' : blank_step s s' -> clean st s -> clean st s'.
Proof.
  intros [_ (e & X & Y) K U R N] []. split; rewrite ?K, ?R, ?N, ?X; auto.
  by apply Forall_app.
Qed.

Lemma blank_step_lexical s s' :
  blank_step s s' -> lexical (out s') = lexical (out s).
Proof.
  intros [(t & E & B) _ _ _ _ _]. rewrite E, lexical_app, (lexical_blank t B).
  by rewrite app_nil_r.
Qed.

Lemma end_line_blank sp s : blank_step s (end_line sp s).
Proof.
  destruct (end_line_fields sp s) as (Eo & Ee & _ & _ & Eb & _ & _ & Er & En & _).
  split; rewrite ?Eb; auto.
  - exists [(TNewline, sp)]. split; [done|]. by repeat constructor.
  - exists []. by rewrite app_nil_r.
Qed.

Lemma indent_rule_blank span ls indent current s s' :
  indent_rule span ls indent current s = Some s' -> blank_step s s'.
Proof.
  unfold indent_rule. case_match.
  { intros [= <-]. split; simpl; auto; [|exists []; by rewrite app_nil_r].
    eexists. split; [done|]. by repeat constructor. }
  pose proof (closers_layout indent (indent_stack s)
    (mkSpan (lfile s) (start span) (start span))) as Hl.
  destruct (close_levels indent (indent_stack s)) as [left_ closers]. simpl in Hl.
  destruct left_ as [|top rest]; simpl; [done|].
  destruct top as [c|min|c]; [destruct (c =? indent)| |destruct (c =? indent)];
    intros [= <-]; (split; simpl; auto; [by eexists|]);
    try (exists []; by rewrite app_nil_r); eexists; (split; [done|]); by repeat constructor.
Qed.

Lemma line_start_blank tok span s s' :
  line_start tok span s = Some s' -> blank_step s s'.
Proof.
  unfold line_start. destruct (column s span) as [[ls indent]|]; simpl; [|done].
  destruct (indent_stack s) as [|top rest]; simpl; [done|].
  match goal with |- context [indent_rule _ _ _ _ ?s1] =>
    assert (blank_step s s1) as H0 by (by apply blank_step_same) end.
  destruct (indent_rule _ _ _ _ _) as [s2|] eqn:E; simpl; [|done].
  intros [= <-]. apply indent_rule_blank in E.
  eapply blank_step_trans; [exact H0|].
  eapply blank_step_trans; [exact E|]. by apply blank_step_same.
Qed.

Lemma mark_statement_ended_kinds bs :
  map kind (mark_statement_ended bs) = map kind bs /\
  (Forall untouched bs -> Forall untouched (mark_statement_ended bs)).
Proof.
  induction bs as [|b bs [IH1 IH2]]; simpl; [done|]. case_match; simpl; [done|].
  split; [by rewrite IH1|]. intros [? ?]%Forall_cons. constructor; auto.
Qed.

Lemma physical_line_blank tok span newline s s' :
  Forall untouched (brackets s) ->
  physical_line tok span newline s = Some s' -> blank_step s s'.
Proof.
  intros Hu. unfold physical_line. destruct (column s span) as [[ls indent]|]; simpl; [|done].
  case_match; [intros [= <-]; by apply blank_step_same|].
  set (at_ := mkSpan _ _ _).
  destruct (mark_statement_ended_kinds (brackets s)) as [Hk Hum].
  assert (close_early at_ (mark_statement_ended (brackets s))
    (set_brackets (mark_statement_ended (brackets s)) s) =
    set_brackets (mark_statement_ended (brackets s)) s) as ->.
  { destruct (mark_statement_ended (brackets s)) as [|b bs] eqn:E; simpl; [done|].
    pose proof (Hum Hu) as H'. apply Forall_cons in H' as [[Hs Hr] _].
    unfold closes_early. by rewrite Hs, Hr. }
  assert (blank_step s (set_brackets (mark_statement_ended (brackets s)) s)) as H1.
  { split; simpl; auto; exists []; by rewrite app_nil_r. }
  intros [= <-]. case_match; [|done].
  eapply blank_step_trans; [exact H1|apply end_line_blank].
Qed.

Lemma blank_is_newline tok span : is_newline tok = true -> lexical [(tok, span)] = [].
Proof. by destruct tok. Qed.

Lemma pending_line_blank tok span s s' :
  Forall untouched (brackets s) -> pending_line tok span s = Some s' -> blank_step s s'.
Proof.
  unfold pending_line. intros Hu. repeat case_match; intros; simplify_eq;
    try (by apply blank_step_same).
  apply (blank_step_trans _ (set_dropped_newline None s)); [by apply blank_step_same|].
  by eapply physical_line_blank.
Qed.

Lemma heads_blank tok span s s' : heads tok span s = Some s' -> blank_step s s'.
Proof.
  unfold heads. repeat case_match; intros; simplify_eq;
    (by eapply line_start_blank) || by apply blank_step_same.
Qed.

(** The bracket stack after one token of a balanced source, and what is left to
    balance. *)
Lemma balanced_cons tok span l st :
  balanced ((tok, span) :: l) st = true ->
  exists st', balanced l st' = true /\
    match opened_by tok with
    | Some b => st' = b :: st
    | None => match closed_by tok with Some b => st = b :: st' | None => st' = st end
    end.
Proof.
  simpl. destruct (opened_by tok); [eauto|]. destruct (closed_by tok) as [b|]; [|eauto].
  destruct st as [|b' st]; [done|]. intros [H1 H2]%andb_true_iff.
  apply bool_decide_eq_true in H1 as ->. eauto.
Qed.

Lemma write_token_clean i tok span l st s :
  clean st s -> balanced ((tok, span) :: l) st = true ->
  exists st', balanced l st' = true /\ clean st' (write_token i tok span s) /\
    lexical (out (write_token i tok span s)) = lexical (out s) ++ lexical [(tok, span)].
Proof.
  intros C Hb. apply balanced_cons in Hb as (st' & Hb & Hst). exists st'. split; [done|].
  pose proof C as [Ck Cu Cr Cn Ce]. unfold write_token.
  destruct (opened_by tok) as [k|] eqn:Eo.
  { subst st'. rewrite Cr. split; simpl; [|apply lexical_app].
    split; simpl; auto; [by rewrite Ck|]. by constructor. }
  destruct (closed_by tok) as [k|] eqn:Ec.
  { subst st. destruct (brackets s) as [|b bs] eqn:Eb; [done|]. injection Ck as Ek Ck.
    apply Forall_cons in Cu as [[Hst _] Cu].
    assert (find_open k (brackets s) = Some ([], b, bs)) as Hf.
    { rewrite Eb. simpl. by case_decide. }
    destruct (close_found k span s _ _ _ Hf) as (Fo & Fb & _ & _ & _ & _ & _ & _ & Fe & Fr).
    pose proof (close_input k span s) as (_ & _ & Fi).
    rewrite Fo, lexical_app. simpl in *. rewrite Hst, !app_nil_r in *.
    apply closed_by_inv in Ec as ->. split; [|done].
    split; rewrite ?Fb, ?Fi, ?Fr, ?Fe, ?app_nil_r; auto. }
  subst st'. destruct (is_newline tok) eqn:Hn.
  { rewrite (blank_is_newline tok span Hn), app_nil_r.
    assert (Hgo : forall s', blank_step s s' -> clean st s' /\ lexical (out s') = lexical (out s)).
    { intros s' B. split; [by eapply blank_step_clean|by apply blank_step_lexical]. }
    repeat case_match; apply Hgo; by (apply end_line_blank || apply blank_step_same). }
  assert (Hgo : forall s', out s' = out s ++ [(tok, span)] -> brackets s' = brackets s ->
    errors s' = errors s -> resync s' = resync s -> resync_next s' = resync_next s ->
    clean st s' /\ lexical (out s') = lexical (out s) ++ lexical [(tok, span)]).
  { intros s' E1 E2 E3 E4 E5. rewrite E1, lexical_app. split; [|done].
    by split; rewrite ?E2, ?E3, ?E4, ?E5. }
  destruct tok; try (by apply Hgo). simpl. destruct (brackets s) eqn:Eb; by apply Hgo.
Qed.

Lemma token_clean i tok span l st s s' :
  clean st s -> balanced ((tok, span) :: l) st = true ->
  token i tok span s = Some s' ->
  exists st', balanced l st' = true /\ clean st' s' /\
    lexical (out s') = lexical (out s) ++ lexical [(tok, span)].
Proof.
  intros C Hb. unfold token.
  destruct (at_line_start s && is_newline tok) eqn:E.
  { apply andb_true_iff in E as [_ E]. intros [= <-].
    apply balanced_cons in Hb as (st' & Hb & Hst). exists st'. split; [done|].
    destruct tok; try done. simpl in Hst. subst st'. by rewrite app_nil_r. }
  destruct (pending_line tok span s) as [s1|] eqn:E1; simpl; [|done].
  destruct (heads tok span s1) as [s2|] eqn:E2; simpl; [|done]. intros [= <-].
  apply pending_line_blank in E1; [|apply C]. apply heads_blank in E2.
  pose proof (blank_step_trans _ _ _ E1 E2) as B.
  pose proof (blank_step_trans _ _ (set_at_line_start false s2) B
    ltac:(by apply blank_step_same)) as B'.
  rewrite <- (blank_step_lexical _ _ B'). apply (write_token_clean _ _ _ _ st); [|done].
  by eapply blank_step_clean.
Qed.

Lemma run_tokens_clean i raw st s s' :
  clean st s -> balanced raw st = true -> run_tokens i raw s = Some s' ->
  clean [] s' /\ lexical (out s') = lexical (out s) ++ lexical raw.
Proof.
  revert i st s. induction raw as [|[tok span] raw IH]; intros i st s C Hb.
  - intros [= <-]. simpl in Hb. destruct st; [|done]. by rewrite app_nil_r.
  - cbn [run_tokens]. destruct (token i tok span s) as [s1|] eqn:E; simpl; [|done].
    destruct (token_clean _ _ _ _ _ _ _ C Hb E) as (st' & Hb' & C' & L').
    intros H. destruct (IH _ _ _ C' Hb' H) as [C2 L2]. split; [done|].
    rewrite L2, L', <- app_assoc. by rewrite <- (lexical_app [(tok, span)] raw).
Qed.

Lemma insert_openers_lexical f i l os : lexical (insert_openers f i l os) = lexical l.
Proof.
  revert i os. induction l as [|t l IH]; intros i os; simpl; [done|].
  destruct (openers_at i os) as [here rest].
  rewrite lexical_app, (lexical_blank (map _ here)); [|apply Forall_fmap, Forall_true; done].
  rewrite app_nil_l.
  change (t :: insert_openers f (S i) l rest) with ([t] ++ insert_openers f (S i) l rest).
  change (t :: l) with ([t] ++ l). by rewrite !lexical_app, IH.
Qed.

Lemma finish_clean s :
  clean [] s -> clean [] (finish s) /\ lexical (out (finish s)) = lexical (out s).
Proof.
  intros [Ck Cu Cr Cn Ce]. apply map_eq_nil in Ck.
  pose proof (finish_eq s) as F. cbv zeta in F. rewrite Ck in F.
  set (e := mkSpan (lfile s) (length (source s)) (length (source s))) in F.
  change (finish_brackets e [] s) with s in F.
  destruct (trailing_newline_spec e s) as (body & nl & _ & Hb & E1). rewrite E1 in F.
  simpl in F. destruct (finish_levels (indent_stack s)) as [left_ closers] eqn:El.
  rewrite F. split; [by split; simpl; auto; rewrite ?Ck|]. simpl.
  rewrite insert_openers_lexical, lexical_app, (lexical_blank (map _ closers)).
  - rewrite app_nil_r. destruct Hb as [[-> _] | ->]; [|done].
    rewrite lexical_app. by rewrite app_nil_r.
  - by eapply finish_levels_blank.
Qed.

(** A whole first run on a balanced source. *)
Lemma run_clean f src raw s :
  balanced raw [] = true -> run f src raw [] = Some s ->
  Forall (fun e => is_indent_error e = true) (errors s) /\ resync_next s = [] /\
  lexical (out s) = lexical raw.
Proof.
  intros Hb. unfold run.
  destruct (run_tokens 0 raw (initial f src [])) as [s1|] eqn:E; simpl; [|done].
  intros [= <-]. apply (run_tokens_clean 0 raw []) in E as [C L]; [|by constructor|done].
  destruct (finish_clean s1 C) as [C' L']. split; [apply C'|]. split; [apply C'|].
  by rewrite L', L.
Qed.
