(* ===== verification/RawTokens.v ===== *)
(** * Logos tokens before layout ([chl-parser/src/lexer.rs], [raw_tokens])

    The generated logos lexer is code outside the repository: the interface
    [Logos] stands for [Token::lexer], and [LogosLaws] states what [raw_tokens]
    relies on of it.  [LexRules] gives the rules of the [#[token]] and
    [#[regex]] attributes as one instance. *)

From S2P Require Import Prelude Tokens.

(** ** Literals *)

Definition ch (s : string) : ascii :=
  match s with String c _ => c | EmptyString => "000"%char end.

Definition BACKSLASH : ascii := ch "\".
Definition DQUOTE : ascii := "034"%char.
Definition SQUOTE : ascii := ch "'".

(** The constant [ESCAPES]. *)
Definition ESCAPES : list (ascii * ascii) :=
  [ (ch "n", LF); (ch "t", "009"%char); (ch "r", "013"%char);
    (BACKSLASH, BACKSLASH); (DQUOTE, DQUOTE); (SQUOTE, SQUOTE);
    (ch "0", "000"%char) ].

(** [escaped]. *)
Definition escaped (c : ascii) : option ascii :=
  snd <$> List.find (fun e => Ascii.eqb (fst e) c) ESCAPES.

(** [unescape]. *)
Fixpoint unescape (inner : bytes) : bytes :=
  match inner with
  | [] => []
  | c :: rest =>
      if negb (Ascii.eqb c BACKSLASH) then c :: unescape rest
      else
        match rest with
        | [] => [BACKSLASH]
        | next :: rest' =>
            match escaped next with
            | Some value => value :: unescape rest'
            | None => BACKSLASH :: next :: unescape rest'
            end
        end
  end.

(** [process_string]: the quotes stripped, the escapes processed. *)
Definition process_string (raw : bytes) (quote : ascii) : option bytes :=
  match raw with
  | q :: rest =>
      if Ascii.eqb q quote then
        match last rest with
        | Some q' =>
            if Ascii.eqb q' quote then Some (unescape (removelast rest)) else None
        | None => None
        end
      else None
  | [] => None
  end.

Definition is_digit (c : ascii) : bool :=
  (48 <=? nat_of_ascii c) && (nat_of_ascii c <=? 57).

Definition digit_value (c : ascii) : Z := Z.of_nat (nat_of_ascii c) - 48.

Definition UNDERSCORE : ascii := ch "_".

Definition I64_MAX : Z := 9223372036854775807.

(** [str::parse::<i64>] on a run of ASCII digits: the empty string and a value
    past [i64::MAX] are errors. *)
Fixpoint parse_digits (acc : Z) (text : bytes) : option Z :=
  match text with
  | [] => Some acc
  | c :: rest =>
      if is_digit c then
        let v := (acc * 10 + digit_value c)%Z in
        if (v <=? I64_MAX)%Z then parse_digits v rest else None
      else None
  end.

Definition parse_i64 (text : bytes) : option Z :=
  match text with [] => None | _ => parse_digits 0 text end.

(** [text.contains("__")]. *)
Fixpoint double_underscore (text : bytes) : bool :=
  match text with
  | c :: (d :: _) as rest =>
      (Ascii.eqb c UNDERSCORE && Ascii.eqb d UNDERSCORE) || double_underscore rest
  | _ => false
  end.

Definition ends_with_underscore (text : bytes) : bool :=
  match last text with Some c => Ascii.eqb c UNDERSCORE | None => false end.

Definition drop_underscores (text : bytes) : bytes :=
  List.filter (fun c => negb (Ascii.eqb c UNDERSCORE)) text.

(** [parse_int]. *)
Definition parse_int (text : bytes) : option Z :=
  if ends_with_underscore text || double_underscore text then None
  else parse_i64 (drop_underscores text).

(** ** The logos interface *)

(** [Token::lexer(source)] read from offset [pos]: the next match, [None] for a
    failed one, with its span; or [None] at the end of input. *)
Class Logos := logos_next : bytes -> nat -> option (option Token * nat * nat).

Definition is_quote (c : ascii) : bool := Ascii.eqb c DQUOTE || Ascii.eqb c SQUOTE.

(** What [raw_tokens] relies on of the generated lexer: a match lies in the rest
    of the source and is not empty, a rule produces none of the synthesised
    tokens, and a match that fails at a quote stays on its line. *)
Class LogosLaws (L : Logos) : Prop := {
  logos_bounds src pos r s e :
    logos_next src pos = Some (r, s, e) -> pos <= s /\ s < e /\ e <= length src;
  logos_produces src pos t s e :
    logos_next src pos = Some (Some t, s, e) -> is_synthesised t = false;
  logos_quote src pos s e c :
    logos_next src pos = Some (None, s, e) -> src !! s = Some c -> is_quote c = true ->
    forall i, s <= i < e -> src !! i <> Some LF
}.

(** ** [raw_tokens] *)

Record RawTokens := mkRaw {
  raw_toks : list spanned;
  raw_errors : list LexError;
  detached : list nat
}.

(** [source[n..].find('\n').map_or(source.len(), |i| n + i)]. *)
Fixpoint line_end_from (rest : bytes) (n : nat) : nat :=
  match rest with
  | [] => n
  | c :: rest' => if Ascii.eqb c LF then n else line_end_from rest' (S n)
  end.

Definition line_end (src : bytes) (n : nat) : nat := line_end_from (drop n src) n.

(** [source[a..b]]. *)
Definition slice (src : bytes) (a b : nat) : bytes := take (b - a) (drop a src).

Section RawTokens.
Context `{L : Logos} (f : FileId) (src : bytes).

(** A failed match that is not a quote: it extends the run of failed
    characters it touches, or starts one. *)
Definition push_failed (span : Span) (tokens : list spanned) (errors : list LexError) :
    list spanned * list LexError :=
  match last tokens, last errors with
  | Some (TError, run), Some (InvalidToken error) =>
      if end_ run =? start span then
        (removelast tokens ++ [(TError, mkSpan (file run) (start run) (end_ span))],
         removelast errors ++ [InvalidToken (mkSpan (file error) (start error) (end_ span))])
      else (tokens ++ [(TError, span)], errors ++ [InvalidToken span])
  | _, _ => (tokens ++ [(TError, span)], errors ++ [InvalidToken span])
  end.

(** The [while let Some(result) = lex.next()] loop.  [None] where
    [lex.bump(line_end - span.end)] underflows, or the fuel runs out. *)
Fixpoint raw_loop (fuel pos : nat) (tokens : list spanned) (errors : list LexError) :
    option (list spanned * list LexError) :=
  match fuel with
  | 0 => None
  | S fuel =>
      match logos_next src pos with
      | None => Some (tokens, errors)
      | Some (Some tok, s, e) =>
          raw_loop fuel e (tokens ++ [(tok, mkSpan f s e)]) errors
      | Some (None, s, e) =>
          match src !! s with
          | Some c =>
              if is_quote c then
                let le := line_end src s in
                if le <? e then None
                else
                  raw_loop fuel le
                    (tokens ++ [(TString (unescape (slice src (s + 1) le)), mkSpan f s le)])
                    (errors ++ [UnterminatedString (mkSpan f s (s + 1))])
              else
                let '(tokens, errors) := push_failed (mkSpan f s e) tokens errors in
                raw_loop fuel e tokens errors
          | None =>
              let '(tokens, errors) := push_failed (mkSpan f s e) tokens errors in
              raw_loop fuel e tokens errors
          end
      end
  end.

(** A backtick with no identifier directly after it, as [tokens.get(i + 1)]
    reads it. *)
Definition is_detached (tok : Token) (span : Span) (rest : list spanned) : bool :=
  match tok with
  | TBacktick =>
      match rest with
      | (TIdent _, next) :: _ => negb (start next =? end_ span)
      | _ => true
      end
  | _ => false
  end.

(** The loop over the backticks: their indices and errors. *)
Fixpoint find_detached (i : nat) (tokens : list spanned) : list nat * list LexError :=
  match tokens with
  | [] => ([], [])
  | (tok, span) :: rest =>
      let '(idx, errs) := find_detached (S i) rest in
      if is_detached tok span rest then (i :: idx, DetachedBacktick span :: errs)
      else (idx, errs)
  end.

(** [raw_tokens].  Every match takes a byte, so one more step than the source
    has bytes is enough. *)
Definition raw_tokens : option RawTokens :=
  '(tokens, errors) ← raw_loop (S (length src)) 0 [] [];
  let '(idx, errs) := find_detached 0 tokens in
  Some (mkRaw tokens (sort_by_key (fun e => start (error_span e)) (errors ++ errs)) idx).
End RawTokens.
