(* ===== verification/RawFacts.v ===== *)
(** * Facts about the raw tokens

    [raw_tokens] returns for every source; its tokens lie in the source, in
    order and without overlap; and its [Error] tokens are exactly the maximal
    runs of failed characters its [InvalidToken] errors report. *)

From S2P Require Import Prelude Tokens RawTokens.

(** ** Token chains *)

(** Tokens in source order from [lo] on, none empty, none overlapping. *)
Fixpoint chain (lo : nat) (l : list spanned) : Prop :=
  match l with
  | [] => True
  | (_, sp) :: l' => lo <= start sp /\ start sp < end_ sp /\ chain (end_ sp) l'
  end.

(** Where the last token ends, or [lo]. *)
Fixpoint chain_end (lo : nat) (l : list spanned) : nat :=
  match l with [] => lo | (_, sp) :: l' => chain_end (end_ sp) l' end.

Lemma chain_app lo l1 l2 :
  chain lo (l1 ++ l2) <-> chain lo l1 /\ chain (chain_end lo l1) l2.
Proof.
  revert lo. induction l1 as [|[t sp] l1 IH]; intros lo; simpl; [tauto|].
  rewrite IH. tauto.
Qed.

Lemma chain_end_app lo l1 l2 : chain_end lo (l1 ++ l2) = chain_end (chain_end lo l1) l2.
Proof. revert lo. induction l1 as [|[t sp] l1 IH]; intros lo; simpl; auto. Qed.

Lemma chain_snoc lo l t sp :
  chain lo l -> chain_end lo l <= start sp -> start sp < end_ sp ->
  chain lo (l ++ [(t, sp)]).
Proof. intros. rewrite chain_app. by simpl. Qed.

Lemma chain_end_snoc lo l t sp : chain_end lo (l ++ [(t, sp)]) = end_ sp.
Proof. by rewrite chain_end_app. Qed.

Lemma chain_bounds lo l :
  chain lo l -> Forall (fun ts => lo <= start (snd ts) /\ start (snd ts) < end_ (snd ts) /\
                                 end_ (snd ts) <= chain_end lo l) l.
Proof.
  revert lo. induction l as [|[t sp] l IH]; intros lo; simpl; [constructor|].
  intros (H1 & H2 & H3). pose proof (IH _ H3) as IH'.
  assert (end_ sp <= chain_end (end_ sp) l) as Hle.
  { clear IH IH'. revert H3. generalize (end_ sp). induction l as [|[t' sp'] l IH]; intros n; simpl; [lia|].
    intros (? & ? & Hc). specialize (IH _ Hc). lia. }
  constructor; [by simpl|].
  eapply Forall_impl; [exact IH'|]. simpl. intros ? (? & ? & ?). lia.
Qed.

(** ** The end of a line *)

Lemma line_end_from_spec rest n :
  n <= line_end_from rest n <= n + length rest /\
  (forall i c, i < line_end_from rest n - n -> rest !! i = Some c -> c <> LF).
Proof.
  revert n. induction rest as [|c rest IH]; intros n; simpl.
  { split; [lia|]. intros i c Hi. lia. }
  destruct (Ascii.eqb c LF) eqn:E.
  { split; [lia|]. intros i c' Hi. lia. }
  destruct (IH (S n)) as [H1 H2]. split; [lia|].
  intros [|i] c' Hi; simpl.
  - intros [= <-] ->. by rewrite Ascii.eqb_refl in E.
  - apply H2. lia.
Qed.

(** The line holding an offset ends at or after every offset with no line feed
    up to it. *)
Lemma line_end_ge src s e :
  s <= e <= length src -> (forall i, s <= i < e -> src !! i <> Some LF) ->
  e <= line_end src s.
Proof.
  intros He Hn. unfold line_end.
  assert (Hgo : forall rest n k, k <= length rest ->
    (forall i, i < k -> rest !! i <> Some LF) -> n + k <= line_end_from rest n).
  { clear. induction rest as [|c rest IH]; intros n k Hk Hn; simpl in *; [lia|].
    destruct k as [|k].
    { destruct (line_end_from_spec (c :: rest) n) as [? _]. simpl in *. lia. }
    destruct (Ascii.eqb c LF) eqn:E.
    { apply Ascii.eqb_eq in E. subst. exfalso. by apply (Hn 0); [lia|]. }
    specialize (IH (S n) k ltac:(lia)). rewrite <- Nat.add_succ_comm. apply IH.
    intros i Hi. apply (Hn (S i)). lia. }
  replace e with (s + (e - s)) at 1 by lia. apply Hgo; [rewrite length_drop; lia|].
  intros i Hi. rewrite lookup_drop. apply Hn. lia.
Qed.

Lemma line_end_le src s : s <= length src -> s <= line_end src s <= length src.
Proof.
  intros Hs. unfold line_end. destruct (line_end_from_spec (drop s src) s) as [H _].
  rewrite length_drop in H. lia.
Qed.

Lemma line_end_no_lf src s i c :
  s <= i < line_end src s -> src !! i = Some c -> c <> LF.
Proof.
  intros Hi Hc. unfold line_end in Hi.
  destruct (line_end_from_spec (drop s src) s) as [_ H].
  apply (H (i - s)); [lia|]. rewrite lookup_drop. by replace (s + (i - s)) with i by lia.
Qed.

(** ** The loop *)

Section Loop.
Context `{L : Logos} `{!LogosLaws L} (f : FileId) (src : bytes).

Definition invalid_span (e : LexError) : option Span :=
  match e with InvalidToken s => Some s | _ => None end.

Definition error_token_span (ts : spanned) : option Span :=
  match fst ts with TError => Some (snd ts) | _ => None end.

(** The [Error] tokens and the [InvalidToken] errors are the same spans. *)
Definition runs_match (tokens : list spanned) (errors : list LexError) : Prop :=
  omap error_token_span tokens = omap invalid_span errors.

(** No two [Error] tokens touch: each is a maximal run. *)
Definition maximal_runs (l : list spanned) : Prop :=
  forall l1 a b l2, l = l1 ++ (TError, a) :: (TError, b) :: l2 -> end_ a <> start b.

Record loop_inv (pos : nat) (tokens : list spanned) (errors : list LexError) : Prop := {
  li_chain : chain 0 tokens;
  li_pos : chain_end 0 tokens <= pos;
  li_src : pos <= length src;
  li_tokens : Forall (fun ts => is_layout (fst ts) = false /\ file (snd ts) = f) tokens;
  li_runs : runs_match tokens errors;
  li_maximal : maximal_runs tokens;
  li_last : forall sp, last tokens = Some (TError, sp) -> last errors = Some (InvalidToken sp);
  li_errors : Forall (fun e => is_never_closed e = false) errors
}.

Lemma maximal_runs_snoc l t sp :
  maximal_runs l ->
  (forall a, last l = Some (TError, a) -> t = TError -> end_ a <> start sp) ->
  maximal_runs (l ++ [(t, sp)]).
Proof.
  intros Hm Hl l1 a b l2 E.
  destruct l2 as [|x l2 _] using rev_ind.
  - assert (E' : l ++ [(t, sp)] = (l1 ++ [(TError, a)]) ++ [(TError, b)])
      by (by rewrite E, <- app_assoc).
    apply app_inj_tail in E' as [-> [= -> ->]]. apply Hl; [|done]. by rewrite last_snoc.
  - rewrite app_comm_cons, app_comm_cons, app_assoc in E.
    apply app_inj_tail in E as [-> _]. by eapply Hm.
Qed.

Lemma maximal_runs_prefix l1 l2 : maximal_runs (l1 ++ l2) -> maximal_runs l1.
Proof. intros H k a b k' ->. eapply H. by rewrite <- app_assoc. Qed.

(** A token that is no [Error], with errors that are no [InvalidToken]. *)
Lemma loop_inv_push pos tokens errors t s e errs pos' :
  loop_inv pos tokens errors -> pos <= s -> s < e -> e <= pos' -> pos' <= length src ->
  is_layout t = false -> t <> TError ->
  Forall (fun x => invalid_span x = None /\ is_never_closed x = false) errs ->
  loop_inv pos' (tokens ++ [(t, mkSpan f s e)]) (errors ++ errs).
Proof.
  intros [Hc Hp Hs Ht Hr Hm Hl He] H1 H2 H3 H4 Hlay Hne Herr. split; auto.
  - apply chain_snoc; simpl; auto; lia.
  - by rewrite chain_end_snoc.
  - apply Forall_app. split; [done|]. by repeat constructor.
  - unfold runs_match in *. rewrite !omap_app, Hr.
    assert (omap invalid_span errs = []) as ->.
    { clear -Herr. induction Herr as [|x errs [Hx _] _ IH]; simpl; [done|]. by rewrite Hx. }
    by destruct t.
  - apply maximal_runs_snoc; [done|]. by intros a _ ->.
  - intros sp. rewrite last_snoc. intros [= -> _]. done.
  - apply Forall_app. split; [done|]. eapply Forall_impl; [exact Herr|]. by intros ? [_ ?].
Qed.

Lemma push_failed_inv pos tokens errors s e tokens' errors' :
  loop_inv pos tokens errors -> pos <= s -> s < e -> e <= length src ->
  push_failed (mkSpan f s e) tokens errors = (tokens', errors') ->
  loop_inv e tokens' errors'.
Proof.
  intros [Hc Hp Hs Ht Hr Hm Hl He] H1 H2 H3.
  assert (Hnew : (forall a, last tokens = Some (TError, a) -> end_ a <> s) ->
    loop_inv e (tokens ++ [(TError, mkSpan f s e)]) (errors ++ [InvalidToken (mkSpan f s e)])).
  { intros Hgap. split; auto.
    - apply chain_snoc; simpl; auto; lia.
    - by rewrite chain_end_snoc.
    - apply Forall_app. split; [done|]. by repeat constructor.
    - unfold runs_match in *. by rewrite !omap_app, Hr.
    - apply maximal_runs_snoc; [done|]. intros a Ha _. by apply Hgap.
    - intros sp. rewrite !last_snoc. by intros [= <-].
    - apply Forall_app. split; [done|]. by repeat constructor. }
  unfold push_failed.
  destruct (last tokens) as [[t run]|] eqn:Elt.
  2: { intros [= <- <-]. by apply Hnew. }
  destruct (decide (t = TError)) as [->|Hne].
  2: { intros E. assert ((tokens', errors') = (tokens ++ [(TError, mkSpan f s e)],
         errors ++ [InvalidToken (mkSpan f s e)])) as [= -> ->] by (by destruct t).
       apply Hnew. by intros a [= -> ->]. }
  pose proof (Hl run eq_refl) as Ele. rewrite Ele.
  destruct (end_ run =? start (mkSpan f s e)) eqn:Et; breflect; simpl in Et.
  2: { intros [= <- <-]. apply Hnew. by intros a [= <-]. }
  apply last_Some in Elt as [l1 ->]. apply last_Some in Ele as [e1 ->].
  rewrite !removelast_last. intros [= <- <-]. simpl.
  apply chain_app in Hc as [Hc1 (Hc2 & Hc3 & _)].
  apply Forall_app in Ht as [Ht1 Ht2]. apply Forall_app in He as [He1 He2].
  apply Forall_cons in Ht2 as [[_ Hfile] _]. simpl in Hfile.
  split; auto.
  - apply chain_snoc; simpl; auto; lia.
  - by rewrite chain_end_snoc.
  - apply Forall_app. split; [done|]. by repeat constructor.
  - unfold runs_match in *. rewrite !omap_app in *. simpl in *.
    apply app_inj_tail in Hr as [-> _]. done.
  - apply maximal_runs_snoc; [by eapply maximal_runs_prefix|]. simpl.
    intros a Ha _. apply last_Some in Ha as [l2 ->].
    apply (Hm l2 a run []). by rewrite <- app_assoc.
  - intros sp. rewrite !last_snoc. by intros [= <-].
  - apply Forall_app. split; [done|]. by repeat constructor.
Qed.

Lemma loop_inv_init : loop_inv 0 [] [].
Proof. split; simpl; try done; try lia. by intros [|? ?] ? ? ?. Qed.

Lemma synthesised_layout t : is_synthesised t = false -> is_layout t = false /\ t <> TError.
Proof. by destruct t. Qed.

(** The loop returns, with fuel for every byte left. *)
Lemma raw_loop_ok fuel pos tokens errors :
  loop_inv pos tokens errors -> length src - pos < fuel ->
  exists tokens' errors' pos', raw_loop f src fuel pos tokens errors = Some (tokens', errors') /\
    loop_inv pos' tokens' errors'.
Proof.
  revert pos tokens errors. induction fuel as [|fuel IH]; intros pos tokens errors I Hf;
    [lia|]. cbn [raw_loop].
  destruct (logos_next src pos) as [[[r s] e]|] eqn:E; [|by eauto].
  pose proof (logos_bounds _ _ _ _ _ E) as (Hb1 & Hb2 & Hb3).
  destruct r as [t|].
  { destruct (synthesised_layout t (logos_produces _ _ _ _ _ E)) as [Hl Hne].
    apply IH; [|lia]. rewrite <- (app_nil_r errors).
    by eapply loop_inv_push. }
  assert (Hfail : exists tokens' errors' pos',
    (let '(tokens, errors) := push_failed (mkSpan f s e) tokens errors in
     raw_loop f src fuel e tokens errors) = Some (tokens', errors') /\
    loop_inv pos' tokens' errors').
  { destruct (push_failed (mkSpan f s e) tokens errors) as [t' e'] eqn:Ep.
    apply IH; [|lia]. by eapply push_failed_inv. }
  destruct (src !! s) as [c|] eqn:Ec; [|exact Hfail].
  destruct (is_quote c) eqn:Eq; [|exact Hfail].
  pose proof (line_end_ge src s e ltac:(lia) (logos_quote _ _ _ _ _ E Ec Eq)) as Hle.
  pose proof (line_end_le src s ltac:(lia)) as Hle'.
  destruct (line_end src s <? e) eqn:Elt; breflect; [lia|].
  apply IH; [|lia]. eapply loop_inv_push; try done; try lia. by repeat constructor.
Qed.
End Loop.
