(* ===== verification/Tokenize.v ===== *)
(** * [tokenize] ([chl-parser/src/lexer.rs])

    Raw tokens, without the detached backticks, laid out once, and a second
    time when the first run asks for it.  The theorems are the caller-visible
    invariants the parser relies on, for every source. *)

From S2P Require Import Prelude Tokens Layout Nesting LayoutFacts LayoutErrors.
From S2P Require Import RawTokens RawFacts.

(** A token stream and the lexical errors found producing it. *)
Record Lexed := mkLexed { lx_tokens : list spanned; lx_errors : list LexError }.

(** [.enumerate().filter(|(i, _)| detached.binary_search(i).is_err())]: the
    indices are ascending, so the search is membership. *)
Fixpoint without_detached (idx : list nat) (i : nat) (l : list spanned) : list spanned :=
  match l with
  | [] => []
  | t :: l' =>
      if bool_decide (i ∈ idx) then without_detached idx (S i) l'
      else t :: without_detached idx (S i) l'
  end.

(** [resync.sort_unstable(); resync.dedup()]. *)
Definition sorted_dedup (l : list nat) : list nat := dedup (sort_by_key id l).

Section Tokenize.
Context `{L : Logos}.

(** [tokenize].  [None] only where the code panics. *)
Definition tokenize (f : FileId) (src : bytes) : option Lexed :=
  raw ← raw_tokens f src;
  let tokens := without_detached (detached raw) 0 (raw_toks raw) in
  first ← run f src tokens [];
  laid ←
    (match resync_next first with
     | [] => Some first
     | next => run f src tokens (sorted_dedup next)
     end);
  Some (mkLexed (out laid)
          (sort_by_key (fun e => start (error_span e)) (raw_errors raw ++ errors laid))).
End Tokenize.

(** ** The tokens layout runs over *)

Lemma without_detached_subset idx i l P :
  Forall P l -> Forall P (without_detached idx i l).
Proof.
  intros H. revert i. induction H as [|t l Ht _ IH]; intros i; simpl; [constructor|].
  case_match; auto.
Qed.

(** Every backtick is directly followed by an identifier. *)
Fixpoint tags_attached (l : list spanned) : Prop :=
  match l with
  | [] => True
  | (TBacktick, sp) :: l' =>
      match l' with
      | (TIdent _, next) :: _ => start next = end_ sp
      | _ => False
      end /\ tags_attached l'
  | _ :: l' => tags_attached l'
  end.

Lemma find_detached_ge i l j : j ∈ fst (find_detached i l) -> i <= j.
Proof.
  revert i. induction l as [|[t sp] l IH]; intros i; simpl; [set_solver|].
  specialize (IH (S i)). destruct (find_detached (S i) l) as [idx errs]. simpl in *.
  destruct (is_detached t sp l); simpl; [|intros Hj; specialize (IH Hj); lia].
  intros [-> | Hj]%elem_of_cons; [lia|]. specialize (IH Hj). lia.
Qed.

(** Only backticks are detached. *)
Lemma find_detached_head i t sp l :
  i ∈ fst (find_detached i ((t, sp) :: l)) <-> is_detached t sp l = true.
Proof.
  simpl. pose proof (find_detached_ge (S i) l i) as Hge.
  destruct (find_detached (S i) l) as [idx errs]. simpl in *.
  destruct (is_detached t sp l); simpl; set_solver by lia.
Qed.

Lemma without_detached_attached idx i l :
  (forall j, i <= j -> j ∈ idx <-> j ∈ fst (find_detached i l)) ->
  tags_attached (without_detached idx i l).
Proof.
  revert i. induction l as [|[t sp] l IH]; intros i H; [done|].
  assert (IH' : tags_attached (without_detached idx (S i) l)).
  { apply IH. intros j Hj. rewrite H by lia. simpl.
    destruct (find_detached (S i) l) as [idx' errs']. simpl.
    destruct (is_detached t sp l); simpl; [|done]. set_solver by lia. }
  pose proof (find_detached_head i t sp l) as Hh. rewrite <- H in Hh by lia.
  cbn [without_detached]. case_bool_decide as Hi; [done|].
  destruct t; try done. split; [|done]. simpl in Hh.
  destruct l as [|[t' sp'] l]; [by destruct Hi; apply Hh|].
  destruct t'; try (by destruct Hi; apply Hh).
  destruct (start sp' =? end_ sp) eqn:E; [|by destruct Hi; apply Hh]. breflect.
  cbn [without_detached]. case_bool_decide as Hi'; [|done]. exfalso.
  rewrite H in Hi' by lia. simpl in Hi'. rewrite E, Nat.eqb_refl in Hi'. simpl in Hi'.
  pose proof (find_detached_ge (S (S i)) l (S i)) as Hge.
  destruct (find_detached (S (S i)) l) as [x y]. simpl in *. specialize (Hge Hi'). lia.
Qed.

Lemma find_detached_errors i l :
  Forall (fun e => is_never_closed e = false) (snd (find_detached i l)).
Proof.
  revert i. induction l as [|[t sp] l IH]; intros i; simpl; [constructor|].
  specialize (IH (S i)). destruct (find_detached (S i) l) as [idx errs]. simpl in *.
  case_match; simpl; [by constructor|done].
Qed.

Lemma find_detached_no_invalid i l : omap invalid_span (snd (find_detached i l)) = [].
Proof.
  revert i. induction l as [|[t sp] l IH]; intros i; simpl; [done|].
  specialize (IH (S i)). destruct (find_detached (S i) l) as [idx errs]. simpl in *.
  by case_match.
Qed.

Lemma never_closed_errors_none es :
  Forall (fun e => is_never_closed e = false) es -> never_closed_errors es = 0.
Proof. unfold never_closed_errors. by induction 1 as [|e es He _ IH]; simpl; rewrite ?He. Qed.

Section Facts.
Context `{L : Logos} `{!LogosLaws L}.

(** [raw_tokens] returns, and what it returns. *)
Lemma raw_tokens_spec f src :
  exists raw, raw_tokens f src = Some raw /\
    raw_tokens_ok src (raw_toks raw) /\ chain 0 (raw_toks raw) /\
    chain_end 0 (raw_toks raw) <= length src /\
    maximal_runs (raw_toks raw) /\
    omap error_token_span (raw_toks raw) ≡ₚ omap invalid_span (raw_errors raw) /\
    Forall (fun e => is_never_closed e = false) (raw_errors raw) /\
    tags_attached (without_detached (detached raw) 0 (raw_toks raw)).
Proof.
  unfold raw_tokens.
  destruct (raw_loop_ok f src (S (length src)) 0 [] []) as (ts & es & pos & -> & I);
    [apply loop_inv_init|lia|].
  simpl. pose proof (without_detached_attached (fst (find_detached 0 ts)) 0 ts) as Ht.
  pose proof (find_detached_errors 0 ts) as He.
  pose proof (find_detached_no_invalid 0 ts) as Hd.
  destruct (find_detached 0 ts) as [idx errs]. simpl in *.
  eexists. split; [done|]. simpl. destruct I as [Hc Hp Hs Hk Hr Hm Hl Hn].
  split; [|split; [done|split; [lia|split; [done|split; [|split]]]]].
  - apply chain_bounds in Hc. unfold raw_tokens_ok.
    rewrite Forall_forall in *. intros x Hx. destruct (Hk x Hx) as [? _].
    destruct (Hc x Hx) as (? & ? & ?). split; [done|]. lia.
  - rewrite sort_by_key_perm, omap_app, Hr, Hd. by rewrite app_nil_r.
  - rewrite sort_by_key_perm. by apply Forall_app.
  - by apply Ht.
Qed.

(** The two layout runs of [tokenize]. *)
Lemma tokenize_laid f src :
  exists raw laid rs,
    raw_tokens f src = Some raw /\
    run f src (without_detached (detached raw) 0 (raw_toks raw)) rs = Some laid /\
    tokenize f src = Some (mkLexed (out laid)
      (sort_by_key (fun e => start (error_span e)) (raw_errors raw ++ errors laid))) /\
    raw_tokens_ok src (without_detached (detached raw) 0 (raw_toks raw)) /\
    Forall (fun e => is_never_closed e = false) (raw_errors raw).
Proof.
  destruct (raw_tokens_spec f src) as (raw & E & Hok & _ & _ & _ & _ & Hn & _).
  set (tokens := without_detached (detached raw) 0 (raw_toks raw)).
  assert (Hok' : raw_tokens_ok src tokens) by (by apply without_detached_subset).
  destruct (run_ok f src tokens [] (raw_tokens_ok_raw_ok _ _ Hok')) as (s1 & E1 & _).
  unfold tokenize. rewrite E. simpl. fold tokens. rewrite E1. simpl.
  destruct (resync_next s1) as [|i next] eqn:Er.
  { by exists raw, s1, []. }
  destruct (run_ok f src tokens (sorted_dedup (i :: next))
              (raw_tokens_ok_raw_ok _ _ Hok')) as (s2 & E2 & _).
  rewrite E2. by exists raw, s2, (sorted_dedup (i :: next)).
Qed.
End Facts.
