(* ===== verification/LexRules.v ===== *)
(** * The lexer rules of [Token] as a [Logos] instance

    The [#[logos(skip)]], [#[token]] and [#[regex]] attributes of [Token]
    ([chl-parser/src/lexer.rs]) read as a maximal-munch lexer.  At any first
    byte at most one of the regex rules and the fixed spellings can match, so
    the longest match is a dispatch on that byte; a keyword wins over [Ident]
    at equal length, as its priority says.  A match that fails takes one byte,
    or, where a rule's callback returned [None], the bytes matched. *)

From S2P Require Import Prelude Tokens RawTokens.

Definition is_ident_start (c : ascii) : bool :=
  let n := nat_of_ascii c in
  ((65 <=? n) && (n <=? 90)) || ((97 <=? n) && (n <=? 122)) || Ascii.eqb c UNDERSCORE.

Definition is_ident_continue (c : ascii) : bool := is_ident_start c || is_digit c.

Definition is_hspace (c : ascii) : bool := Ascii.eqb c " "%char || Ascii.eqb c "009"%char.

Definition HASH : ascii := ch "#".

(** [skip "[ \t]+"] and [skip "#[^\n]*"]: the bytes skipped. *)
Fixpoint skip (in_comment : bool) (s : bytes) : nat :=
  match s with
  | [] => 0
  | c :: s' =>
      if in_comment then (if Ascii.eqb c LF then 0 else S (skip true s'))
      else if is_hspace c then S (skip false s')
      else if Ascii.eqb c HASH then S (skip true s')
      else 0
  end.

(** The length of the longest prefix of bytes [p] accepts. *)
Fixpoint span_len (p : ascii -> bool) (s : bytes) : nat :=
  match s with c :: s' => if p c then S (span_len p s') else 0 | [] => 0 end.

(** The rest of a string literal after its opening quote, up to and with its
    closing one: [([^q\\\n]|\\[^\n])*q]. *)
Fixpoint string_len (q : ascii) (s : bytes) : option nat :=
  match s with
  | [] => None
  | c :: s' =>
      if Ascii.eqb c q then Some 1
      else if Ascii.eqb c LF then None
      else if Ascii.eqb c BACKSLASH then
        match s' with
        | d :: s'' => if Ascii.eqb d LF then None else (fun n => 2 + n) <$> string_len q s''
        | [] => None
        end
      else S <$> string_len q s'
  end.

(** The longest of the fixed spellings that [s] starts with. *)
Definition symbol (s : bytes) : option (Token * nat) :=
  foldr (fun '(sp, t) best =>
    let l := lit sp in
    if bool_decide (take (length l) s = l) then
      match best with
      | Some (_, n) => if n <? length l then Some (t, length l) else best
      | None => Some (t, length l)
      end
    else best) None SYMBOLS.

(** The keyword [name] spells, if any. *)
Definition keyword (name : bytes) : option Token :=
  snd <$> List.find (fun '(sp, _) => bool_decide (lit sp = name)) KEYWORDS.

(** The rule that matches at the start of [s], and the bytes it takes. *)
Definition rule (c : ascii) (s : bytes) : option Token * nat :=
  if Ascii.eqb c LF then (Some TNewline, 1)
  else if is_quote c then
    match string_len c s with
    | Some n => (TString <$> process_string (c :: take n s) c, S n)
    | None => (None, 1)
    end
  else if is_digit c then
    let n := span_len (fun c => is_digit c || Ascii.eqb c UNDERSCORE) s in
    (TInt <$> parse_int (c :: take n s), S n)
  else if is_ident_start c then
    let n := span_len is_ident_continue s in
    let name := c :: take n s in
    (Some (match keyword name with Some t => t | None => TIdent name end), S n)
  else
    match symbol (c :: s) with
    | Some (t, n) => (Some t, n)
    | None => (None, 1)
    end.

(** The generated lexer, from offset [pos]. *)
Definition chl_next (src : bytes) (pos : nat) : option (option Token * nat * nat) :=
  let k := skip false (drop pos src) in
  match drop (pos + k) src with
  | [] => None
  | c :: s => let '(r, n) := rule c s in Some (r, pos + k, pos + k + n)
  end.

#[export] Instance chl_logos : Logos := chl_next.

(** ** The laws *)

Lemma skip_le b s : skip b s <= length s.
Proof.
  revert b. induction s as [|c s IH]; intros b; simpl; [lia|].
  pose proof (IH true). pose proof (IH false). repeat case_match; lia.
Qed.

Lemma span_len_le p s : span_len p s <= length s.
Proof. induction s as [|c s IH]; simpl; [lia|]. case_match; lia. Qed.

(** A literal on one line: no byte it takes is a line feed. *)
Lemma string_len_spec q s n :
  q <> LF -> string_len q s = Some n ->
  0 < n <= length s /\ forall i, i < n -> s !! i <> Some LF.
Proof.
  intros Hq. assert (exists m, length s <= m) as [m Hm] by eauto.
  revert s n Hm. induction m as [|m IH]; intros s n Hm; destruct s as [|c s]; simpl in *;
    try done; try lia.
  destruct (Ascii.eqb c q) eqn:Eq.
  { apply Ascii.eqb_eq in Eq. intros [= <-]. split; [lia|].
    intros [|i] Hi; simpl; [congruence|lia]. }
  destruct (Ascii.eqb c LF) eqn:El; [done|].
  assert (c <> LF) by (intros ->; by rewrite Ascii.eqb_refl in El).
  destruct (Ascii.eqb c BACKSLASH).
  - destruct s as [|d s]; [done|].
    destruct (Ascii.eqb d LF) eqn:Ed; [done|].
    assert (d <> LF) by (intros ->; by rewrite Ascii.eqb_refl in Ed).
    destruct (string_len q s) as [k|] eqn:Es; [|done]. intros [= <-].
    simpl in *. destruct (IH s k ltac:(lia) Es) as [H1 H2]. split; [lia|].
    intros [|[|i]] Hi; simpl; [congruence..|]. apply H2. lia.
  - destruct (string_len q s) as [k|] eqn:Es; [|done]. intros [= <-].
    destruct (IH s k ltac:(lia) Es) as [H1 H2]. split; [lia|].
    intros [|i] Hi; simpl; [congruence|]. apply H2. lia.
Qed.

Lemma symbol_spec s t n :
  symbol s = Some (t, n) -> 0 < n <= length s /\ t ∈ map snd SYMBOLS.
Proof.
  unfold symbol.
  assert (Forall (fun '(sp, _) => 0 < length (lit sp)) SYMBOLS) as Hpos
    by (unfold SYMBOLS; repeat constructor).
  revert t n. induction Hpos as [|[sp t'] l H _ IH]; intros t n; simpl; [done|].
  assert (Hin : forall x, x ∈ map snd l -> x ∈ t' :: map snd l) by (intros; by right).
  case_bool_decide as Et; [|intros E; destruct (IH _ _ E); auto].
  assert (Hl : length (lit sp) <= length s) by (rewrite <- Et, length_take; lia).
  destruct (foldr _ None l) as [[t0 n0]|].
  - destruct (n0 <? length (lit sp)); intros [= <- <-].
    + split; [lia|by left].
    + destruct (IH _ _ eq_refl); auto.
  - intros [= <- <-]. split; [lia|by left].
Qed.

Lemma keyword_spec name t : keyword name = Some t -> t ∈ map snd KEYWORDS.
Proof.
  unfold keyword. destruct (List.find _ KEYWORDS) as [[sp t']|] eqn:E; simpl; [|done].
  intros [= <-]. apply List.find_some in E as [E _].
  apply list_elem_of_In. exact (List.in_map snd _ _ E).
Qed.

Lemma rule_spec c s r n :
  rule c s = (r, n) ->
  0 < n <= S (length s) /\
  (forall t, r = Some t -> is_synthesised t = false) /\
  (is_quote c = true -> r = None -> forall i, i < n -> (c :: s) !! i <> Some LF).
Proof.
  unfold rule.
  destruct (Ascii.eqb c LF) eqn:El.
  { apply Ascii.eqb_eq in El as ->. intros [= <- <-]. split; [lia|]. split; [by intros ? [= <-]|done]. }
  assert (Hc : c <> LF) by (intros ->; by rewrite Ascii.eqb_refl in El).
  assert (Hone : forall i, i < 1 -> (c :: s) !! i <> Some LF).
  { intros i Hi. replace i with 0 by lia. simpl. congruence. }
  destruct (is_quote c) eqn:Eq.
  { destruct (string_len c s) as [k|] eqn:Es.
    - destruct (string_len_spec c s k Hc Es) as [H1 H2].
      intros [= <- <-]. split; [lia|]. split.
      + intros t Ht. by apply fmap_Some in Ht as (v & _ & ->).
      + intros _ _ [|i] Hi; simpl; [congruence|]. apply H2. lia.
    - intros [= <- <-]. split; [lia|]. by split. }
  destruct (is_digit c).
  { pose proof (span_len_le (fun c => is_digit c || Ascii.eqb c UNDERSCORE) s).
    intros [= <- <-]. split; [lia|]. split; [|done].
    intros t Ht. by apply fmap_Some in Ht as (v & _ & ->). }
  destruct (is_ident_start c).
  { pose proof (span_len_le is_ident_continue s).
    intros [= <- <-]. split; [lia|]. split; [|done]. intros t [= <-].
    destruct (keyword _) as [t|] eqn:Ek; [|done]. apply keyword_spec in Ek.
    revert t Ek. apply Forall_forall. unfold KEYWORDS. simpl. by repeat constructor. }
  destruct (symbol (c :: s)) as [[t k]|] eqn:Es.
  - apply symbol_spec in Es as [Hn Ht]. intros [= <- <-]. split; [done|]. split; [|done].
    intros ? [= <-]. revert t Ht. apply Forall_forall. unfold SYMBOLS. simpl.
    by repeat constructor.
  - intros [= <- <-]. split; [lia|]. by split.
Qed.

#[export] Instance chl_logos_laws : LogosLaws chl_logos.
Proof.
  assert (Hrule : forall src pos r s e, logos_next src pos = Some (r, s, e) ->
    exists c rest n, drop s src = c :: rest /\ rule c rest = (r, n) /\ e = s + n /\ pos <= s).
  { intros src pos r s e. unfold logos_next, chl_logos, chl_next.
    destruct (drop _ src) as [|c rest] eqn:Ed; [done|].
    destruct (rule c rest) as [r' n] eqn:Er. intros [= <- <- <-].
    exists c, rest, n. repeat split; auto. lia. }
  split.
  - intros src pos r s e H. destruct (Hrule _ _ _ _ _ H) as (c & rest & n & Hd & Hr & -> & Hp).
    destruct (rule_spec _ _ _ _ Hr) as [Hn _].
    assert (length (drop s src) = S (length rest)) as Hl by (by rewrite Hd).
    rewrite length_drop in Hl. lia.
  - intros src pos t s e H. destruct (Hrule _ _ _ _ _ H) as (c & rest & n & Hd & Hr & -> & Hp).
    destruct (rule_spec _ _ _ _ Hr) as (_ & Ht & _). by apply Ht.
  - intros src pos s e c H Hc Hq i Hi.
    destruct (Hrule _ _ _ _ _ H) as (c' & rest & n & Hd & Hr & -> & Hp).
    destruct (rule_spec _ _ _ _ Hr) as (_ & _ & Hlf).
    assert (c' = c) as ->.
    { assert (drop s src !! 0 = Some c') as Hc' by (by rewrite Hd).
      rewrite lookup_drop, Nat.add_0_r in Hc'. congruence. }
    replace i with (s + (i - s)) by lia. rewrite <- lookup_drop, Hd.
    apply Hlf; [done|done|lia].
Qed.

(** * Integer and string literals ([parse_int], [process_string], [unescape])

    What an integer literal's text means, with its separators and its [i64]
    bound, and a spelling for every string value. *)

(** ** Integers *)

(** The text of the [Int] rule: [[0-9][0-9_]*]. *)
Definition int_shape (text : bytes) : Prop :=
  match text with
  | c :: rest => is_digit c = true /\
      Forall (fun d => is_digit d = true \/ d = UNDERSCORE) rest
  | [] => False
  end.

(** Each [_] stands between two digits. *)
Definition separators_ok (text : bytes) : Prop :=
  forall i, text !! i = Some UNDERSCORE ->
    exists a b, 0 < i /\ text !! (i - 1) = Some a /\ text !! (i + 1) = Some b /\
      is_digit a = true /\ is_digit b = true.

(** The value of a run of digits, in base ten. *)
Definition decimal (text : bytes) : Z :=
  foldl (fun acc c => acc * 10 + digit_value c)%Z 0%Z text.

Lemma digit_value_bounds c : is_digit c = true -> (0 <= digit_value c <= 9)%Z.
Proof. unfold is_digit, digit_value. intros H. breflect. lia. Qed.

Lemma underscore_not_digit c : is_digit c = true -> c <> UNDERSCORE.
Proof. by intros H ->. Qed.

Lemma decimal_ge acc text :
  (0 <= acc)%Z -> Forall (fun c => is_digit c = true) text ->
  (acc <= foldl (fun acc c => acc * 10 + digit_value c)%Z acc text)%Z.
Proof.
  intros Ha H. revert acc Ha. induction H as [|c text Hc _ IH]; intros acc Ha; simpl; [lia|].
  pose proof (digit_value_bounds c Hc).
  specialize (IH (acc * 10 + digit_value c)%Z ltac:(lia)). lia.
Qed.

(** Checking the bound after every digit is checking it on the value. *)
Lemma parse_digits_spec acc text :
  (0 <= acc <= I64_MAX)%Z -> Forall (fun c => is_digit c = true) text ->
  parse_digits acc text =
    let v := foldl (fun acc c => acc * 10 + digit_value c)%Z acc text in
    if (v <=? I64_MAX)%Z then Some v else None.
Proof.
  intros Ha H. revert acc Ha. induction H as [|c text Hc Ht IH]; intros acc Ha; simpl.
  { destruct (acc <=? I64_MAX)%Z eqn:E; [done|]. apply Z.leb_gt in E. lia. }
  pose proof (digit_value_bounds c Hc). rewrite Hc.
  destruct (acc * 10 + digit_value c <=? I64_MAX)%Z eqn:E.
  - apply Z.leb_le in E. by rewrite IH by lia.
  - apply Z.leb_gt in E.
    pose proof (decimal_ge (acc * 10 + digit_value c) text ltac:(lia) Ht).
    destruct (_ <=? I64_MAX)%Z eqn:E' at 1; [|done]. apply Z.leb_le in E'. lia.
Qed.

Lemma drop_underscores_digits text :
  Forall (fun d => is_digit d = true \/ d = UNDERSCORE) text ->
  Forall (fun c => is_digit c = true) (drop_underscores text).
Proof.
  induction 1 as [|c text [Hc | ->] _ IH]; simpl; [constructor| |done].
  case_match; [by constructor|done].
Qed.

Lemma double_underscore_spec text :
  double_underscore text = true <->
  exists i, text !! i = Some UNDERSCORE /\ text !! S i = Some UNDERSCORE.
Proof.
  induction text as [|c text IH]; [split; [done|by intros (i & ? & ?)]|].
  destruct text as [|d text].
  { split; [done|]. intros ([|i] & ? & ?); done. }
  change (double_underscore (c :: d :: text)) with
    ((Ascii.eqb c UNDERSCORE && Ascii.eqb d UNDERSCORE) || double_underscore (d :: text)).
  rewrite orb_true_iff, andb_true_iff, IH, !Ascii.eqb_eq. split.
  - intros [[-> ->] | (i & H1 & H2)]; [by exists 0|by exists (S i)].
  - intros ([|i] & H1 & H2); [left; by simplify_eq/=|right; by exists i].
Qed.

Lemma ends_with_underscore_spec text :
  ends_with_underscore text = true <-> text !! (length text - 1) = Some UNDERSCORE.
Proof.
  unfold ends_with_underscore. rewrite last_lookup.
  replace (Nat.pred (length text)) with (length text - 1) by lia.
  destruct (text !! _) as [c|]; [|done]. rewrite Ascii.eqb_eq. by split; [intros ->|intros [= ->]].
Qed.

(** Neither [__] nor a last [_]: the separators stand between digits. *)
Lemma separators_ok_spec text :
  int_shape text ->
  separators_ok text <-> ends_with_underscore text || double_underscore text = false.
Proof.
  intros Hs. rewrite orb_false_iff, <- !not_true_iff_false.
  rewrite ends_with_underscore_spec, double_underscore_spec.
  assert (Hany : forall i c, text !! i = Some c -> is_digit c = true \/ c = UNDERSCORE).
  { destruct text as [|d text]; [done|]. destruct Hs as [Hd Ht]. intros [|i] c; simpl.
    - intros [= <-]. by left.
    - intros H. by apply (Forall_lookup_1 _ _ _ _ Ht H). }
  split.
  - intros S. split.
    + intros H. destruct (S _ H) as (a & b & _ & _ & Hb & _).
      apply lookup_lt_Some in Hb. lia.
    + intros (i & H1 & H2). destruct (S _ H1) as (a & b & _ & _ & Hb & _ & Hd).
      rewrite Nat.add_1_r in Hb. by simplify_eq.
  - intros [H1 H2] i Hi. destruct i as [|i].
    { destruct text; [done|]. injection Hi as ->. by destruct Hs. }
    assert (Hlt := lookup_lt_Some _ _ _ Hi).
    destruct (lookup_lt_is_Some_2 text i ltac:(lia)) as [a Ha].
    destruct (decide (S i + 1 < length text)) as [Hl|Hl].
    + destruct (lookup_lt_is_Some_2 text (S i + 1) Hl) as [b Hb].
      exists a, b. replace (S i - 1) with i by lia. split; [lia|]. split; [done|]. split; [done|].
      rewrite Nat.add_1_r in Hb.
      destruct (Hany _ _ Ha) as [?| ->]; [|by destruct H2; exists i].
      by destruct (Hany _ _ Hb) as [?| ->]; [|destruct H2; exists (S i)].
    + destruct H1. by replace (length text - 1) with (S i) by lia.
Qed.

(** The value [parse_int] gives a text of the [Int] rule. *)
Lemma parse_int_value text v :
  int_shape text ->
  parse_int text = Some v <->
  separators_ok text /\ v = decimal (drop_underscores text) /\ (0 <= v <= I64_MAX)%Z.
Proof.
  intros Hs. rewrite (separators_ok_spec text Hs). unfold parse_int.
  destruct (ends_with_underscore text || double_underscore text).
  { split; [done|]. by intros [? _]. }
  assert (Hd : Forall (fun c => is_digit c = true) (drop_underscores text) /\
               drop_underscores text <> []).
  { destruct text as [|d text]; [done|]. destruct Hs as [Hd Ht]. simpl.
    rewrite (proj2 (Ascii.eqb_neq d _)) by (by apply underscore_not_digit). simpl.
    split; [|done]. constructor; [done|]. by apply drop_underscores_digits. }
  destruct Hd as [Hd Hne].
  assert (parse_i64 (drop_underscores text) = parse_digits 0 (drop_underscores text)) as ->
    by (by destruct (drop_underscores text)).
  rewrite parse_digits_spec by (by unfold I64_MAX; auto with lia). cbv zeta.
  fold (decimal (drop_underscores text)).
  pose proof (decimal_ge 0 (drop_underscores text) ltac:(lia) Hd) as Hge.
  fold (decimal (drop_underscores text)) in Hge.
  destruct (decimal (drop_underscores text) <=? I64_MAX)%Z eqn:E.
  - apply Z.leb_le in E. split; [intros [= <-]; split; [done|]; lia|].
    by intros (_ & -> & _).
  - apply Z.leb_gt in E. split; [done|]. intros (_ & -> & ?). lia.
Qed.

(** ** Strings *)

(** A spelling of [s] that [ESCAPES] reads back: a character some escape stands
    for is written as that escape. *)
Definition escape_char (c : ascii) : bytes :=
  match List.find (fun e => Ascii.eqb (snd e) c) ESCAPES with
  | Some (e, _) => [BACKSLASH; e]
  | None => [c]
  end.

Definition escape (s : bytes) : bytes := concat (map escape_char s).

(** Every byte, for a finite check. *)
Definition all_bytes : list ascii := map ascii_of_nat (seq 0 256).

Lemma all_bytes_spec (P : ascii -> bool) :
  forallb P all_bytes = true -> forall c, P c = true.
Proof.
  intros H c. rewrite forallb_forall in H. apply H. unfold all_bytes.
  apply List.in_map_iff. exists (nat_of_ascii c). split; [apply ascii_nat_embedding|].
  apply List.in_seq. pose proof (nat_ascii_bounded c). lia.
Qed.

(** A spelling is one plain character, or an escape that stands for it. *)
Definition escape_reads (c : ascii) : bool :=
  match escape_char c with
  | [b; e] => Ascii.eqb b BACKSLASH &&
      match escaped e with Some v => Ascii.eqb v c | None => false end
  | [x] => Ascii.eqb x c && negb (Ascii.eqb c BACKSLASH)
  | _ => false
  end.

(** A spelling has no bare quote and no line feed. *)
Definition escape_scans (c : ascii) : bool :=
  match escape_char c with
  | [b; e] => Ascii.eqb b BACKSLASH && negb (Ascii.eqb e LF)
  | [x] => negb (is_quote x) && negb (Ascii.eqb x LF) && negb (Ascii.eqb x BACKSLASH)
  | _ => false
  end.

(** One escaped character reads back as itself, whatever follows. *)
Lemma unescape_escape_char c rest :
  unescape (escape_char c ++ rest) = c :: unescape rest.
Proof.
  assert (Hc : escape_reads c = true) by (apply all_bytes_spec; by vm_compute).
  unfold escape_reads in Hc. destruct (escape_char c) as [|x [|e [|? ?]]]; try done.
  - apply andb_true_iff in Hc as [Hx Hb]. apply Ascii.eqb_eq in Hx as ->.
    cbn [app unescape]. by rewrite Hb.
  - apply andb_true_iff in Hc as [Hx He]. apply Ascii.eqb_eq in Hx as ->.
    destruct (escaped e) as [v|] eqn:Ee; [|done]. apply Ascii.eqb_eq in He as ->.
    cbn [app unescape]. by rewrite Ascii.eqb_refl, Ee.
Qed.

Lemma unescape_escape s : unescape (escape s) = s.
Proof.
  induction s as [|c s IH]; [done|]. unfold escape in *. simpl.
  by rewrite unescape_escape_char, IH.
Qed.

(** The string rule takes an escaped text whole and stops at the quote. *)
Lemma string_len_escape q s rest :
  is_quote q = true ->
  string_len q (escape s ++ q :: rest) = Some (S (length (escape s))).
Proof.
  intros Hq. unfold escape. induction s as [|c s IH]; simpl.
  { by rewrite Ascii.eqb_refl. }
  assert (Hc : escape_scans c = true) by (apply all_bytes_spec; by vm_compute).
  unfold escape_scans in Hc. rewrite <- app_assoc.
  assert (Hne : forall x, is_quote x = false -> Ascii.eqb x q = false).
  { intros x Hx. apply Ascii.eqb_neq. by intros ->; congruence. }
  destruct (escape_char c) as [|x [|e [|? ?]]]; try done.
  - apply andb_true_iff in Hc as [Hc Hb]. apply andb_true_iff in Hc as [Hx Hl]. breflect.
    cbn [app string_len]. rewrite (Hne x) by done.
    by rewrite Hl, Hb, IH.
  - apply andb_true_iff in Hc as [Hx Hl]. apply Ascii.eqb_eq in Hx as ->.
    cbn [app string_len]. rewrite (Hne BACKSLASH) by done.
    change (Ascii.eqb BACKSLASH LF) with false. rewrite Ascii.eqb_refl.
    cbv iota. rewrite (proj1 (negb_true_iff _) Hl), IH. done.
Qed.
