(* ===== verification/LexerProps.v ===== *)
(** * The lexer's contract

    The properties [tokenize] promises the parser, for every source and every
    generated lexer that meets [LogosLaws]; each is applied to the rules of
    [LexRules] on a concrete source. *)

From S2P Require Import Prelude Tokens Layout Nesting LayoutFacts LayoutErrors.
From S2P Require Import RawTokens RawFacts Tokenize LexRules.
From Stdlib Require Import Sorting.Sorted.

Section Contract.
Context `{L : Logos} `{!LogosLaws L} (f : FileId) (src : bytes).

(** C1: [tokenize] never fails.  For every source it returns a stream whose
    [Indent]/[Dedent], [BlockValueIndent]/[BlockValueDedent] and bracket pairs
    all nest, with no [Newline] and no layout token between brackets, and
    which ends with a [Newline] followed only by closers of layout levels. *)
Theorem tokenize_stream_contract :
  exists lx, tokenize f src = Some lx /\
    well_nested (lx_tokens lx) /\ ends_at_column_zero (lx_tokens lx).
Proof.
  destruct (tokenize_laid f src) as (raw & laid & rs & _ & E & -> & Hok & _).
  eexists. split; [done|]. simpl.
  destruct (run_ok f src _ rs (raw_tokens_ok_raw_ok _ _ Hok)) as (s & E' & H). congruence.
Qed.

(** C2: every zero-width close bracket of the stream comes with one
    [UnclosedBracket] or [MismatchedClose] error, and there are no others;
    the errors are in source order. *)
Theorem tokenize_closer_errors :
  exists lx, tokenize f src = Some lx /\
    zero_closers (lx_tokens lx) = never_closed_errors (lx_errors lx) /\
    StronglySorted (fun a b => start (error_span a) <= start (error_span b)) (lx_errors lx).
Proof.
  destruct (tokenize_laid f src) as (raw & laid & rs & _ & E & -> & Hok & Hn).
  eexists. split; [done|]. simpl. split; [|apply sort_by_key_sorted].
  destruct (run_effect f src _ rs laid Hok E) as (Hz & _ & _). rewrite Hz.
  unfold never_closed_errors. rewrite (countb_perm _ _ _ (sort_by_key_perm _ _)), countb_app.
  pose proof (never_closed_errors_none _ Hn) as Hr. unfold never_closed_errors in Hr. lia.
Qed.

(** Layout neither drops, nor adds, nor reorders a token that is not a
    newline, a close bracket or one of its own: those of the stream are those
    of the raw tokens, less the detached backticks. *)
Theorem tokenize_keeps_tokens :
  exists raw lx, raw_tokens f src = Some raw /\ tokenize f src = Some lx /\
    kept (lx_tokens lx) = kept (without_detached (detached raw) 0 (raw_toks raw)).
Proof.
  destruct (tokenize_laid f src) as (raw & laid & rs & Er & E & -> & Hok & _).
  exists raw. eexists. split; [done|]. split; [done|]. simpl.
  by destruct (run_effect f src _ rs laid Hok E) as (_ & Hk & _).
Qed.

(** C3: on a source whose brackets balance no bracket error is reported, and
    the stream is the source's tokens, the detached backticks left out (each
    is an error of the raw pass), with only layout tokens and newlines added
    or removed: the recovery rules never fire. *)
Theorem tokenize_balanced_source raw :
  raw_tokens f src = Some raw ->
  balanced (without_detached (detached raw) 0 (raw_toks raw)) [] = true ->
  exists lx, tokenize f src = Some lx /\
    lexical (lx_tokens lx) = lexical (without_detached (detached raw) 0 (raw_toks raw)) /\
    Forall (fun e => e ∈ raw_errors raw \/ is_indent_error e = true) (lx_errors lx).
Proof.
  intros Er Hb.
  destruct (raw_tokens_spec f src) as (raw' & Er' & Hok & _). simplify_eq.
  set (tokens := without_detached (detached raw) 0 (raw_toks raw)) in *.
  assert (Hok' : raw_tokens_ok src tokens) by (by apply without_detached_subset).
  destruct (run_ok f src tokens [] (raw_tokens_ok_raw_ok _ _ Hok')) as (s & E & _).
  destruct (run_clean f src tokens s Hb E) as (He & Hn & Hl).
  unfold tokenize. rewrite Er. simpl. fold tokens. rewrite E. simpl. rewrite Hn. simpl.
  eexists. split; [done|]. simpl. split; [done|].
  rewrite sort_by_key_perm, Forall_app. split; apply Forall_forall.
  - intros e He'. by left.
  - intros e He'. right. by apply (proj1 (Forall_forall _ _) He).
Qed.

(** C4: the raw tokens lie in the source, in order and without overlap; their
    [Error] tokens are maximal runs, the spans of the [InvalidToken] errors;
    and once the detached backticks are dropped every backtick touches the
    identifier after it. *)
Theorem raw_tokens_contract :
  exists raw, raw_tokens f src = Some raw /\
    chain 0 (raw_toks raw) /\ chain_end 0 (raw_toks raw) <= length src /\
    maximal_runs (raw_toks raw) /\
    omap error_token_span (raw_toks raw) ≡ₚ omap invalid_span (raw_errors raw) /\
    tags_attached (without_detached (detached raw) 0 (raw_toks raw)).
Proof.
  destruct (raw_tokens_spec f src) as (raw & E & _ & H1 & H2 & H3 & H4 & _ & H5).
  by exists raw.
Qed.
End Contract.

(** ** Literals *)

(** C5: every string value has a literal: the spelling of [s] by [ESCAPES],
    between quotes of either kind, lexes as the one token [String(s)]. *)
Theorem string_literal_roundtrip q s rest :
  is_quote q = true ->
  chl_next (q :: escape s ++ q :: rest) 0 =
    Some (Some (TString s), 0, 2 + length (escape s)).
Proof.
  intros Hq. unfold chl_next. simpl.
  assert (is_hspace q = false /\ Ascii.eqb q HASH = false /\ Ascii.eqb q LF = false)
    as (H1 & H2 & H3).
  { apply orb_true_iff in Hq as [Hq|Hq]; by apply Ascii.eqb_eq in Hq as ->. }
  rewrite H1, H2. simpl. unfold rule. rewrite H3, Hq, (string_len_escape q s rest Hq).
  assert (process_string (q :: take (S (length (escape s))) (escape s ++ q :: rest)) q = Some s)
    as ->; [|done].
  replace (take (S (length (escape s))) (escape s ++ q :: rest)) with (escape s ++ [q]).
  2: { rewrite take_app_ge by lia.
       by replace (S (length (escape s)) - length (escape s)) with 1 by lia. }
  unfold process_string. rewrite Ascii.eqb_refl, last_snoc, Ascii.eqb_refl.
  by rewrite removelast_last, unescape_escape.
Qed.

(** An integer literal's text has a value exactly when each [_] stands
    between two digits and the decimal value of its digits fits an [i64]; the
    literal then has that value. *)
Theorem parse_int_spec text v :
  int_shape text ->
  parse_int text = Some v <->
  separators_ok text /\ v = decimal (drop_underscores text) /\ (0 <= v <= I64_MAX)%Z.
Proof. apply parse_int_value. Qed.

(** ** Witnesses *)

Definition LF_s : string := String LF EmptyString.

(** A block right-hand side, a bracket over two lines, an unclosed bracket and
    an unterminated string. *)
Definition sample : bytes := lit
  ("x = if a:" +:+ LF_s +:+ "        f(1," +:+ LF_s +:+ "          2)" +:+ LF_s +:+
   "    else:" +:+ LF_s +:+ "        g" +:+ LF_s +:+ "y = (1, ]" +:+ LF_s +:+
   "z = `foo $$ 'ab").

Definition balanced_sample : bytes := lit
  ("for r in rows:" +:+ LF_s +:+ "    out << {id: r[0]," +:+ LF_s +:+ "  v: (1)}" +:+ LF_s).

Lemma tokenize_stream_contract_witness :
  exists lx, tokenize 0 sample = Some lx /\
    well_nested (lx_tokens lx) /\ ends_at_column_zero (lx_tokens lx).
Proof. exact (tokenize_stream_contract 0 sample). Defined.

Lemma tokenize_closer_errors_witness :
  exists lx, tokenize 0 sample = Some lx /\
    zero_closers (lx_tokens lx) = never_closed_errors (lx_errors lx) /\
    StronglySorted (fun a b => start (error_span a) <= start (error_span b)) (lx_errors lx).
Proof. exact (tokenize_closer_errors 0 sample). Defined.

Lemma tokenize_keeps_tokens_witness :
  exists raw lx, raw_tokens 0 sample = Some raw /\ tokenize 0 sample = Some lx /\
    kept (lx_tokens lx) = kept (without_detached (detached raw) 0 (raw_toks raw)).
Proof. exact (tokenize_keeps_tokens 0 sample). Defined.

(** The raw tokens of [balanced_sample]. *)
Definition balanced_raw : RawTokens :=
  Eval vm_compute in
    match raw_tokens 0 balanced_sample with Some r => r | None => mkRaw [] [] [] end.

Lemma tokenize_balanced_source_witness :
  raw_tokens 0 balanced_sample = Some balanced_raw /\
  exists lx, tokenize 0 balanced_sample = Some lx /\
    lexical (lx_tokens lx) = lexical (raw_toks balanced_raw) /\
    Forall (fun e => e ∈ raw_errors balanced_raw \/ is_indent_error e = true) (lx_errors lx).
Proof.
  split; [vm_compute; reflexivity|].
  apply (tokenize_balanced_source 0 balanced_sample balanced_raw);
    vm_compute; reflexivity.
Defined.

Lemma raw_tokens_contract_witness :
  exists raw, raw_tokens 0 sample = Some raw /\
    chain 0 (raw_toks raw) /\ chain_end 0 (raw_toks raw) <= length sample /\
    maximal_runs (raw_toks raw) /\
    omap error_token_span (raw_toks raw) ≡ₚ omap invalid_span (raw_errors raw) /\
    tags_attached (without_detached (detached raw) 0 (raw_toks raw)).
Proof. exact (raw_tokens_contract 0 sample). Defined.

Lemma string_literal_roundtrip_witness :
  is_quote DQUOTE = true /\
  chl_next (DQUOTE :: escape (lit "it's" ++ [LF; DQUOTE]) ++ DQUOTE :: lit " + x") 0 =
    Some (Some (TString (lit "it's" ++ [LF; DQUOTE])), 0, 11).
Proof.
  split; [reflexivity|].
  exact (string_literal_roundtrip DQUOTE (lit "it's" ++ [LF; DQUOTE]) (lit " + x") eq_refl).
Defined.

Lemma parse_int_spec_witness :
  int_shape (lit "1_000_000") /\ separators_ok (lit "1_000_000").
Proof.
  assert (int_shape (lit "1_000_000")) as H.
  { split; [reflexivity|]. repeat (constructor; [first [left; reflexivity|right; reflexivity]|]).
    constructor. }
  split; [exact H|].
  exact (proj1 (proj1 (parse_int_spec (lit "1_000_000") 1000000 H) eq_refl)).
Defined.
