(* ===== verification/ScalarOps.v ===== *)
(** * Binary scalar kernels ([src/scalar_ops.rs], [src/view.rs])

    The element-wise kernels the runtime and constant folding share.  An [i64]
    or a [u64] is a [Z] in range; a kernel that panics gives [None].  The plain
    operators [+], [-] and [*] panic on overflow where the build has overflow
    checks (the debug profile) and wrap where it has not (the release profile);
    [checks] is that profile. *)

From Stdlib Require Import ZArith Lia.
From S2P Require Import Prelude.
Local Open Scope Z_scope.

(** ** Views *)

(** [View]: stored values, or one value repeated [len] times. *)
Inductive View (T : Type) :=
  | Slice (values : list T)
  | Constant (value : T) (len : nat).
Arguments Slice {T}.
Arguments Constant {T}.

(** [View::len]. *)
Definition view_len {T} (v : View T) : nat :=
  match v with Slice values => length values | Constant _ len => len end.

(** [View::range] over [a..b]: [None] where the range is not in the view. *)
Definition view_range {T} (v : View T) (a b : nat) : option (View T) :=
  match v with
  | Slice values =>
      if ((a <=? b) && (b <=? length values))%nat then Some (Slice (take (b - a) (drop a values)))
      else None
  | Constant value len => if (b <=? len)%nat then Some (Constant value (b - a)) else None
  end.

(** The values a view stands for. *)
Definition view_values {T} (v : View T) : list T :=
  match v with Slice values => values | Constant value len => replicate len value end.

(** ** Operators *)

Inductive ArithmeticKind := Add | Sub | Mul | FloorDiv | Pow.
Inductive CompareKind := Equals | NotEquals | Less | LessOrEq | Greater | GreaterOrEq.
Inductive LogicKind := And | Nand | Or | Nor | Xor | Xnor.

Inductive BinOpKind :=
  | Arithmetic (op : ArithmeticKind)
  | BoolLogic (op : LogicKind)
  | Concat
  | Compare (op : CompareKind).

(** ** Machine integers *)

Definition I64_MIN : Z := - 2 ^ 63.
Definition I64_MAX : Z := 2 ^ 63 - 1.
Definition U64_MAX : Z := 2 ^ 64 - 1.

Definition wrap_i64 (z : Z) : Z := (z + 2 ^ 63) mod 2 ^ 64 - 2 ^ 63.
Definition wrap_u64 (z : Z) : Z := z mod 2 ^ 64.

(** The traits [IntFloorDiv] and [IntPow] with the arithmetic operators, over
    one of the two element types: its range, its wrap-around, and the methods
    the two [impl]s differ in. *)
Class IntElem := {
  elem_min : Z;
  elem_max : Z;
  mul_wrapping : Z -> Z -> Z;
  wrap : Z -> Z;
  (** under the profile's overflow rule *)
  floor_div : bool -> Z -> Z -> option Z;
  (** the exponent as a [u64], or the panic of [int_pow]'s assertion *)
  pow_exponent : Z -> option Z
}.

Definition in_range `{IntElem} (z : Z) : Prop := elem_min <= z <= elem_max.

Definition in_rangeb `{IntElem} (z : Z) : bool := (elem_min <=? z) && (z <=? elem_max).

(** [i64 / i64] and [i64 % i64]: truncating, panicking on a zero divisor and on
    [i64::MIN / -1]. *)
Definition i64_panics (a b : Z) : bool := (b =? 0) || ((a =? I64_MIN) && (b =? -1)).

(** [impl IntFloorDiv for i64]. *)
Definition i64_floor_div (checks : bool) (a b : Z) : option Z :=
  if i64_panics a b then None
  else
    let quotient := Z.quot a b in
    if negb (Z.rem a b =? 0) && xorb (a <? 0) (b <? 0) then
      let q := quotient - 1 in
      if q <? I64_MIN then (if checks then None else Some (wrap_i64 q)) else Some q
    else Some quotient.

(** [impl IntFloorDiv for u64]. *)
Definition u64_floor_div (a b : Z) : option Z :=
  if b =? 0 then None else Some (a / b).

#[export] Instance i64_elem : IntElem := {
  elem_min := I64_MIN;
  elem_max := I64_MAX;
  mul_wrapping a b := wrap_i64 (a * b);
  wrap := wrap_i64;
  floor_div := i64_floor_div;
  pow_exponent e := if 0 <=? e then Some (Z.abs e) else None
}.

#[export] Instance u64_elem : IntElem := {
  elem_min := 0;
  elem_max := U64_MAX;
  mul_wrapping a b := wrap_u64 (a * b);
  wrap := wrap_u64;
  floor_div _ := u64_floor_div;
  pow_exponent e := Some e
}.

Section Kernels.
Context `{E : IntElem}.

(** [IntPow::raised]: the loop by squaring.  The exponent is a [u64], so 64
    rounds empty it. *)
Fixpoint raised_loop (fuel : nat) (base exponent acc : Z) : Z :=
  match fuel with
  | O => acc
  | S fuel =>
      if 0 <? exponent then
        let acc := if Z.land exponent 1 =? 1 then mul_wrapping acc base else acc in
        let exponent := Z.shiftr exponent 1 in
        let base := if 0 <? exponent then mul_wrapping base base else base in
        raised_loop fuel base exponent acc
      else acc
  end.

Definition raised (base exponent : Z) : Z := raised_loop 64 base exponent 1.

(** [IntPow::int_pow]. *)
Definition int_pow (a e : Z) : option Z := raised a <$> pow_exponent e.

(** A plain operator's result, under the profile's overflow rule. *)
Definition checked (checks : bool) (z : Z) : option Z :=
  if in_rangeb z then Some z else if checks then None else Some (wrap z).

(** The element function [zip_arithmetic] zips with. *)
Definition arithmetic (checks : bool) (op : ArithmeticKind) (a b : Z) : option Z :=
  match op with
  | Add => checked checks (a + b)
  | Sub => checked checks (a - b)
  | Mul => checked checks (a * b)
  | FloorDiv => floor_div checks a b
  | Pow => int_pow a b
  end.
End Kernels.

(** ** Zipping *)

Section Zip.
Context {T R : Type}.

(** [zip_views]: two constants need one call, and none at length zero.  The
    length check is a [debug_assert_eq], so [checks] is on where it is. *)
Definition zip_views (checks : bool) (l r : View T) (out : list R)
    (f : T -> T -> option R) : option (list R) :=
  if checks && negb (view_len l =? view_len r)%nat then None
  else match l, r with
  | Slice l, Slice r => rs ← mapM (fun '(a, b) => f a b) (zip l r); Some (out ++ rs)
  | Slice l, Constant value _ => rs ← mapM (fun a => f a value) l; Some (out ++ rs)
  | Constant value _, Slice r => rs ← mapM (fun b => f value b) r; Some (out ++ rs)
  | Constant a len, Constant b _ =>
      if (0 <? len)%nat then x ← f a b; Some (out ++ replicate len x) else Some out
  end.
End Zip.

(** [zip_arithmetic]. *)
Definition zip_arithmetic `{IntElem} (checks : bool) (op : ArithmeticKind)
    (l r : View Z) (out : list Z) : option (list Z) :=
  zip_views checks l r out (arithmetic checks op).

(** [zip_concat]. *)
Definition zip_concat (checks : bool) (l r : View bytes) (out : list bytes) : option (list bytes) :=
  zip_views checks l r out (fun a b => Some (a ++ b)).

(** The closures of [zip_compare], over [T]'s [PartialEq] and the
    [partial_cmp] of its [PartialOrd], with the default [lt], [le], [gt] and
    [ge]. *)
Definition compare_with {T} (eqb : T -> T -> bool) (partial_cmp : T -> T -> option comparison)
    (op : CompareKind) (a b : T) : bool :=
  match op with
  | Equals => eqb a b
  | NotEquals => negb (eqb a b)
  | Less => match partial_cmp a b with Some Lt => true | _ => false end
  | LessOrEq => match partial_cmp a b with Some Lt | Some Eq => true | _ => false end
  | Greater => match partial_cmp a b with Some Gt => true | _ => false end
  | GreaterOrEq => match partial_cmp a b with Some Gt | Some Eq => true | _ => false end
  end.

(** [zip_compare]. *)
Definition zip_compare {T} (checks : bool) (eqb : T -> T -> bool)
    (partial_cmp : T -> T -> option comparison) (op : CompareKind)
    (l r : View T) (out : list bool) : option (list bool) :=
  zip_views checks l r out (fun a b => Some (compare_with eqb partial_cmp op a b)).

(** The closures of [zip_bool_compare]. *)
Definition bool_compare (op : CompareKind) (a b : bool) : bool :=
  match op with
  | Equals => Bool.eqb a b
  | NotEquals => negb (Bool.eqb a b)
  | Less => negb a && b
  | LessOrEq => implb a b
  | Greater => a && negb b
  | GreaterOrEq => implb b a
  end.

(** [zip_bool_compare]. *)
Definition zip_bool_compare (checks : bool) (op : CompareKind) (l r : View bool) (out : list bool) :
    option (list bool) :=
  zip_views checks l r out (fun a b => Some (bool_compare op a b)).

(** The closures of [zip_bool_logic]. *)
Definition bool_logic (op : LogicKind) (a b : bool) : bool :=
  match op with
  | And => a && b
  | Nand => negb (a && b)
  | Or => a || b
  | Nor => negb (a || b)
  | Xor => xorb a b
  | Xnor => Bool.eqb a b
  end.

(** [zip_bool_logic]. *)
Definition zip_bool_logic (checks : bool) (op : LogicKind) (l r : View bool) (out : list bool) :
    option (list bool) :=
  zip_views checks l r out (fun a b => Some (bool_logic op a b)).

(** ** Facts *)

Lemma wrap_i64_congr z : wrap_i64 z mod 2 ^ 64 = z mod 2 ^ 64.
Proof.
  unfold wrap_i64. rewrite Zminus_mod_idemp_l. f_equal. lia.
Qed.

Lemma wrap_i64_range z : I64_MIN <= wrap_i64 z <= I64_MAX.
Proof.
  unfold wrap_i64, I64_MIN, I64_MAX.
  pose proof (Z.mod_pos_bound (z + 2 ^ 63) (2 ^ 64) ltac:(lia)). lia.
Qed.

(** Two numbers of the range that agree modulo 2^64 are equal. *)
Lemma wrap_i64_unique a b :
  a mod 2 ^ 64 = b mod 2 ^ 64 -> I64_MIN <= a <= I64_MAX -> a = wrap_i64 b.
Proof.
  intros Hm Ha. unfold wrap_i64.
  assert ((b + 2 ^ 63) mod 2 ^ 64 = a + 2 ^ 63) as ->; [|lia].
  rewrite <- (Z.mod_small (a + 2 ^ 63) (2 ^ 64)) by (unfold I64_MIN, I64_MAX in Ha; lia).
  rewrite (Zplus_mod b), (Zplus_mod a), Hm. done.
Qed.

(** The wrap-around of an element type, by its laws. *)
Class IntElemLaws (E : IntElem) : Prop := {
  wrap_range z : in_range (wrap z);
  wrap_congr z : wrap z mod 2 ^ 64 = z mod 2 ^ 64;
  wrap_unique a b : a mod 2 ^ 64 = b mod 2 ^ 64 -> in_range a -> a = wrap b;
  mul_wrapping_wrap a b : mul_wrapping a b = wrap (a * b);
  one_in_range : in_range 1
}.

#[export] Instance i64_laws : IntElemLaws i64_elem.
Proof.
  split; unfold in_range; simpl.
  - apply wrap_i64_range.
  - apply wrap_i64_congr.
  - apply wrap_i64_unique.
  - done.
  - unfold I64_MIN, I64_MAX. lia.
Qed.

#[export] Instance u64_laws : IntElemLaws u64_elem.
Proof.
  split; unfold in_range; simpl; unfold wrap_u64, U64_MAX.
  - intros z. pose proof (Z.mod_pos_bound z (2 ^ 64) ltac:(lia)). lia.
  - intros z. by rewrite Zmod_mod.
  - intros a b H Ha. rewrite <- H. symmetry. apply Z.mod_small. lia.
  - done.
  - lia.
Qed.


(** [Ord] of [bool]: [false] before [true]. *)
Definition bool_cmp (a b : bool) : option comparison :=
  Some (match a, b with
        | false, true => Lt
        | true, false => Gt
        | _, _ => Eq
        end).

Lemma bool_compare_with op a b : bool_compare op a b = compare_with Bool.eqb bool_cmp op a b.
Proof. by destruct op, a, b. Qed.

(** *** Zipping *)

Section ZipFacts.
Context {T R : Type} (f : T -> T -> option R).

(** The specification: [f] on the two sequences of values, row by row. *)
Fixpoint rows (l r : list T) : option (list R) :=
  match l, r with
  | a :: l, b :: r => x ← f a b; xs ← rows l r; Some (x :: xs)
  | _, _ => Some []
  end.

Lemma rows_zip l r : mapM (fun '(a, b) => f a b) (zip l r) = rows l r.
Proof.
  revert r. induction l as [|a l IH]; intros [|b r]; try done. simpl.
  destruct (f a b); simpl; [|done]. by rewrite <- IH.
Qed.

Lemma rows_left a n r : length r = n -> rows (replicate n a) r = mapM (f a) r.
Proof.
  revert r. induction n as [|n IH]; intros [|b r] H; simplify_eq/=; [done|].
  destruct (f a b); simpl; [|done]. by rewrite (IH r).
Qed.

Lemma rows_right l b n : length l = n -> rows l (replicate n b) = mapM (fun a => f a b) l.
Proof.
  revert l. induction n as [|n IH]; intros [|a l] H; simplify_eq/=; [done|].
  destruct (f a b); simpl; [|done]. by rewrite (IH l).
Qed.

Lemma rows_const a b n :
  rows (replicate n a) (replicate n b)
  = if (0 <? n)%nat then replicate n <$> f a b else Some [].
Proof.
  destruct (f a b) as [x|] eqn:E; destruct n as [|n]; simpl; rewrite ?E; try done. simpl.
  assert (rows (replicate n a) (replicate n b) = Some (replicate n x)) as ->; [|done].
  induction n as [|n IH]; simpl; [done|]. by rewrite E, IH.
Qed.

Lemma zip_views_rows checks l r out :
  view_len l = view_len r ->
  zip_views checks l r out f = (out ++.) <$> rows (view_values l) (view_values r).
Proof.
  intros H. unfold zip_views. rewrite H, Nat.eqb_refl, andb_false_r.
  destruct l as [l|a n], r as [r|b m]; simplify_eq/=.
  - rewrite rows_zip. by destruct (rows l r).
  - rewrite rows_right by done. by destruct (mapM _ l).
  - rewrite rows_left by done. by destruct (mapM _ r).
  - rewrite rows_const. destruct (0 <? m)%nat; simpl; [by destruct (f a b)|].
    by rewrite app_nil_r.
Qed.
End ZipFacts.

(** *** Division *)

Lemma quot_floor a b :
  b <> 0 ->
  a / b = if negb (Z.rem a b =? 0) && xorb (a <? 0) (b <? 0) then Z.quot a b - 1 else Z.quot a b.
Proof.
  intros Hb. pose proof (Z.quot_rem' a b) as Hq. pose proof (Z.rem_bound_abs a b Hb) as Hr.
  assert (0 <= a -> 0 <= Z.rem a b) as Hp by (intros; apply Z.rem_nonneg; lia).
  assert (a <= 0 -> Z.rem a b <= 0) as Hn by (intros; apply Z.rem_nonpos; lia).
  symmetry.
  destruct (Z.eqb_spec (Z.rem a b) 0), (Z.ltb_spec a 0), (Z.ltb_spec b 0); simpl;
    destruct (Z.lt_ge_cases b 0);
    try (apply Z.div_unique_pos with (r := Z.rem a b); lia);
    try (apply Z.div_unique_neg with (r := Z.rem a b); lia);
    try (apply Z.div_unique_pos with (r := Z.rem a b + b); lia);
    try (apply Z.div_unique_neg with (r := Z.rem a b + b); lia).
Qed.

Lemma i64_div_range a b :
  I64_MIN <= a <= I64_MAX -> I64_MIN <= b <= I64_MAX -> i64_panics a b = false ->
  I64_MIN <= a / b <= I64_MAX.
Proof.
  unfold i64_panics. intros Ha Hb Hp. apply orb_false_iff in Hp as [H0 H1].
  apply Z.eqb_neq in H0.
  assert (~ (a = I64_MIN /\ b = -1)) as H2.
  { intros [-> ->]. by rewrite !Z.eqb_refl in H1. }
  pose proof (Z.div_mod a b H0). unfold I64_MIN, I64_MAX in *.
  destruct (Z.lt_ge_cases b 0).
  - pose proof (Z.mod_neg_bound a b ltac:(lia)). nia.
  - pose proof (Z.mod_pos_bound a b ltac:(lia)). nia.
Qed.

(** *** Exponentiation *)

Section PowFacts.
Context `{E : IntElem} `{!IntElemLaws E}.

Definition same (a b : Z) : Prop := a mod 2 ^ 64 = b mod 2 ^ 64.

Lemma same_wrap z : same (wrap z) z.
Proof. apply wrap_congr. Qed.

#[local] Instance same_equiv : Equivalence same.
Proof. split; unfold same; repeat intro; congruence. Qed.

#[local] Instance same_mul : Proper (same ==> same ==> same) Z.mul.
Proof. intros a a' Ha b b' Hb. unfold same in *. by rewrite (Zmult_mod a b), (Zmult_mod a' b'), Ha, Hb. Qed.

Lemma pow_halves b e : 0 <= e -> b ^ e = b ^ (e mod 2) * (b * b) ^ (e / 2).
Proof.
  intros He. pose proof (Z.div_mod e 2 ltac:(lia)).
  pose proof (Z.mod_pos_bound e 2 ltac:(lia)).
  rewrite <- Z.pow_2_r, <- Z.pow_mul_r, <- Z.pow_add_r by (try lia; apply Z.div_pos; lia).
  f_equal. lia.
Qed.

#[local] Instance same_pow : Proper (same ==> eq ==> same) Z.pow.
Proof.
  intros a a' Ha e ? <-. destruct e as [|p|p]; [done| |done].
  rewrite <- (Z2Nat.id (Z.pos p)) by lia. induction (Z.to_nat (Z.pos p)) as [|n IH]; [done|].
  rewrite Nat2Z.inj_succ, !Z.pow_succ_r by lia. by apply same_mul.
Qed.

(** The loop's invariant: [acc * base ^ exponent] modulo 2^64. *)
Lemma raised_loop_spec fuel base exponent acc :
  0 <= exponent < 2 ^ Z.of_nat fuel -> in_range acc ->
  raised_loop fuel base exponent acc = wrap (acc * base ^ exponent).
Proof.
  revert base exponent acc. induction fuel as [|fuel IH]; intros base e acc He Hacc.
  - simpl in He. assert (e = 0) as -> by lia. simpl. rewrite Z.mul_1_r. by apply wrap_unique.
  - simpl. destruct (Z.ltb_spec 0 e) as [Hpos|H0].
    2:{ assert (e = 0) as -> by lia. simpl. rewrite Z.mul_1_r. by apply wrap_unique. }
    rewrite Nat2Z.inj_succ, Z.pow_succ_r in He by lia.
    assert (Z.land e 1 = e mod 2) as -> by (apply (Z.land_ones e 1); lia).
    rewrite Z.shiftr_div_pow2 by lia. change (2 ^ 1) with 2.
    pose proof (Z.div_mod e 2 ltac:(lia)) as Hdm. pose proof (Z.mod_pos_bound e 2 ltac:(lia)).
    rewrite IH.
    + apply wrap_unique; [|apply wrap_range]. rewrite wrap_congr.
      change (same ((if e mod 2 =? 1 then mul_wrapping acc base else acc)
        * (if 0 <? e / 2 then mul_wrapping base base else base) ^ (e / 2)) (acc * base ^ e)).
      rewrite (pow_halves base e) by lia. rewrite Z.mul_assoc. apply same_mul.
      * destruct (Z.eqb_spec (e mod 2) 1) as [->|].
        -- rewrite mul_wrapping_wrap, Z.pow_1_r. apply same_wrap.
        -- assert (e mod 2 = 0) as -> by lia. simpl. by rewrite Z.mul_1_r.
      * destruct (Z.ltb_spec 0 (e / 2)).
        -- rewrite mul_wrapping_wrap. apply same_pow; [apply same_wrap|done].
        -- assert (e / 2 = 0) as -> by lia. done.
    + split; [apply Z.div_pos; lia|]. apply Z.div_lt_upper_bound; lia.
    + destruct (e mod 2 =? 1); [|done]. rewrite mul_wrapping_wrap. apply wrap_range.
Qed.
End PowFacts.

(** ** Properties *)

(** Zipping two views of one length is the row-by-row application of the
    element function to the values the views stand for, whichever of the two is
    stored or repeated: the same rows appended to [out], and a panic exactly
    when some row panics.  Views of two lengths are refused under debug
    assertions. *)
Theorem zip_views_elementwise {T R} (f : T -> T -> option R) checks (l r : View T) out :
  (view_len l = view_len r ->
     zip_views checks l r out f = (out ++.) <$> rows f (view_values l) (view_values r)) /\
  (view_len l <> view_len r -> zip_views true l r out f = None).
Proof.
  split; [apply zip_views_rows|]. intros H. unfold zip_views.
  by rewrite (proj2 (Nat.eqb_neq _ _) H).
Qed.

Lemma zip_views_elementwise_witness :
  zip_views true (Constant 7 2) (Slice [2; -2]) [0] (i64_floor_div true) = Some [0; 3; -4].
Proof.
  destruct (zip_views_elementwise (i64_floor_div true) true (Constant 7 2) (Slice [2; -2]) [0])
    as [H _].
  rewrite H by reflexivity. vm_compute. reflexivity.
Defined.

(** On [i64] operands [floor_div] rounds toward negative infinity, gives a
    representable quotient, answers alike in both profiles, and panics exactly
    on a zero divisor and on [i64::MIN // -1]: its [quotient - 1] never
    overflows. *)
Theorem i64_floor_div_spec checks a b :
  I64_MIN <= a <= I64_MAX -> I64_MIN <= b <= I64_MAX ->
  i64_floor_div checks a b
  = (if (b =? 0) || ((a =? I64_MIN) && (b =? -1)) then None else Some (a / b)) /\
  forall q, i64_floor_div checks a b = Some q -> I64_MIN <= q <= I64_MAX.
Proof.
  intros Ha Hb. fold (i64_panics a b). unfold i64_floor_div.
  destruct (i64_panics a b) eqn:Hp; [done|].
  pose proof (i64_div_range a b Ha Hb Hp) as Hr.
  assert (b <> 0) as H0 by (intros ->; done).
  pose proof (quot_floor a b H0) as Hq.
  destruct (negb (Z.rem a b =? 0) && xorb (a <? 0) (b <? 0)); rewrite <- Hq.
  - destruct (Z.ltb_spec (a / b) I64_MIN); [lia|]. split; [done|]. by intros q [= <-].
  - split; [done|]. by intros q [= <-].
Qed.

Lemma i64_floor_div_spec_witness :
  i64_floor_div true I64_MIN 3 = Some (-3074457345618258603) /\
  i64_floor_div false I64_MIN (-1) = None.
Proof.
  split.
  - destruct (i64_floor_div_spec true I64_MIN 3 ltac:(unfold I64_MIN, I64_MAX; lia)
      ltac:(unfold I64_MIN, I64_MAX; lia)) as [-> _]. vm_compute. reflexivity.
  - destruct (i64_floor_div_spec false I64_MIN (-1) ltac:(unfold I64_MIN, I64_MAX; lia)
      ltac:(unfold I64_MIN, I64_MAX; lia)) as [-> _]. reflexivity.
Defined.

(** Exponentiation by squaring returns, within the 64 rounds a [u64]
    exponent has, the power wrapped to the element type, at both element types;
    [int_pow] panics on a negative [i64] exponent and on no other. *)
Theorem int_pow_spec a e :
  (I64_MIN <= e <= I64_MAX ->
     int_pow (E := i64_elem) a e = if e <? 0 then None else Some (wrap_i64 (a ^ e))) /\
  (0 <= e <= U64_MAX -> int_pow (E := u64_elem) a e = Some (wrap_u64 (a ^ e))).
Proof.
  unfold int_pow, raised. cbn [pow_exponent i64_elem u64_elem].
  unfold I64_MIN, I64_MAX, U64_MAX. split; intros He.
  - rewrite Z.ltb_antisym. destruct (Z.leb_spec 0 e); cbn [negb fmap option_fmap option_map]; [|done].
    rewrite raised_loop_spec; [|change (Z.of_nat 64) with 64; lia|apply one_in_range].
    by rewrite Z.mul_1_l, Z.abs_eq by lia.
  - cbn [fmap option_fmap option_map].
    rewrite raised_loop_spec; [|change (Z.of_nat 64) with 64; lia|apply one_in_range]. by rewrite Z.mul_1_l.
Qed.

Lemma int_pow_spec_witness :
  int_pow (E := i64_elem) 3 41 = Some (wrap_i64 (3 ^ 41)) /\
  int_pow (E := u64_elem) 2 64 = Some 0.
Proof.
  destruct (int_pow_spec 3 41) as [H _]. destruct (int_pow_spec 2 64) as [_ H'].
  split; [apply H; unfold I64_MIN, I64_MAX; lia|].
  rewrite H' by (unfold U64_MAX; lia). reflexivity.
Defined.

(** Comparing boolean columns with the bit operations is comparing them
    with the order in which [false] comes before [true], on every operator. *)
Theorem zip_bool_compare_ordered checks op l r out :
  zip_bool_compare checks op l r out = zip_compare checks Bool.eqb bool_cmp op l r out.
Proof.
  assert (Hf : forall a b, Some (bool_compare op a b) = Some (compare_with Bool.eqb bool_cmp op a b))
    by (intros a b; by rewrite bool_compare_with).
  unfold zip_bool_compare, zip_compare, zip_views. case_match; [done|].
  destruct l as [l|a n], r as [r|b m]; try (by rewrite Hf).
  - erewrite mapM_ext; [done|]. intros [a b]. apply Hf.
  - erewrite mapM_ext; [done|]. intros a. apply Hf.
  - erewrite mapM_ext; [done|]. intros b. apply Hf.
Qed.
