(* ===== verification/Predicate.v ===== *)
(** * Predicates: regions of keys and paths ([src/interpreter/tiling/predicate.rs])

    The algebra guards are made of: intersection, difference, union and
    containment of regions of record keys, union keys, scalar keys and nested
    paths.  A [HashMap] over field names is the list of its entries in name
    order; a panic is [None].  The four operations call each other, so they are
    written over a record [Ops] of the recursive calls ([intersect_with] and the
    others, one per method) and tied by fuel in [ops]; [PredicateAlgebra] proves
    that enough fuel exists for every pair of predicates over one domain. *)

From Stdlib Require Import List.
Set Warnings "-register-all,-clear-no-such-hyp".
From S2P Require Import Prelude.

(** ** Keys *)

(** [FieldKey]: a position or a name, positions first. *)
Inductive FieldKey := Index (n : nat) | Name (s : string).

#[export] Instance FieldKey_eq_dec : EqDecision FieldKey.
Proof. solve_decision. Defined.

(** [FieldKey]'s derived order. *)
Definition fieldkey_leb (a b : FieldKey) : bool :=
  match a, b with
  | Index m, Index n => m <=? n
  | Index _, Name _ => true
  | Name _, Index _ => false
  | Name s, Name t => match String.compare s t with Gt => false | _ => true end
  end.

Definition name_leb (s t : string) : bool :=
  match String.compare s t with Gt => false | _ => true end.

(** [sort_by] with a total order. *)
Section SortBy.
Context {A : Type} (leb : A -> A -> bool).
Fixpoint insert_by (x : A) (l : list A) : list A :=
  match l with
  | [] => [x]
  | y :: l' => if leb x y then x :: l else y :: insert_by x l'
  end.
Definition sort_by (l : list A) : list A := foldr insert_by [] l.
End SortBy.

(** The entry of a key in a map given by its entries. *)
Fixpoint assoc {A B} `{EqDecision A} (k : A) (l : list (A * B)) : option B :=
  match l with
  | [] => None
  | (k', v) :: l => if decide (k = k') then Some v else assoc k l
  end.

(** Interval sets over one kind of scalar key: the operations [Predicate] takes
    from the [intervalsets] crate and from [interval_sets.rs].  [canonical]
    clamps a set to its type's range and normalises its runs, [is_whole] reads
    a canonical set that holds every key of its type. *)
Class KeySets (K : Type) := {
  iset : Type;
  iset_eq_dec :: EqDecision iset;
  is_empty : iset -> bool;
  intersection : iset -> iset -> iset;
  union : iset -> iset -> iset;
  difference : iset -> iset -> iset;
  complement : iset -> iset;
  closed_point : K -> iset;
  canonical : iset -> iset;
  is_whole : iset -> bool;
  has_difference : iset -> iset -> bool;
  holds : iset -> K -> bool
}.

Section Predicates.
Context {K : Type} `{KS : KeySets K}.

(** The values a key can be: scalars, [Unit], records and tagged values. *)
Inductive Value :=
  | VKey (k : K)
  | VUnit
  | VRecord (fields : list (string * Value))
  | VUnion (tag : FieldKey) (inner : Value).

(** [Predicate]. *)
Inductive Predicate :=
  | PTrue
  | PFalse
  | PIntervals (s : iset)
  | PRecord (m : list (string * Predicate))
  | POr (arms : list Predicate)
  | PUnion (tags : list (FieldKey * Predicate)) (rest : bool)
  | PQualified (enclosing here : Predicate).

(** [PartialEq]. *)
Fixpoint pred_eqb (p q : Predicate) : bool :=
  match p, q with
  | PTrue, PTrue | PFalse, PFalse => true
  | PIntervals s, PIntervals t => bool_decide (s = t)
  | PRecord m, PRecord n =>
      (fix go m n := match m, n with
        | [], [] => true
        | (k, p) :: m, (l, q) :: n => bool_decide (k = l) && pred_eqb p q && go m n
        | _, _ => false
        end) m n
  | POr a, POr b =>
      (fix go a b := match a, b with
        | [], [] => true
        | p :: a, q :: b => pred_eqb p q && go a b
        | _, _ => false
        end) a b
  | PUnion a r, PUnion b s =>
      Bool.eqb r s &&
      (fix go m n := match m, n with
        | [], [] => true
        | (k, p) :: m, (l, q) :: n => bool_decide (k = l) && pred_eqb p q && go m n
        | _, _ => false
        end) a b
  | PQualified e h, PQualified e' h' => pred_eqb e e' && pred_eqb h h'
  | _, _ => false
  end.

(** ** Reading a predicate *)

(** [as_bool]: [Some true] where the spelling shows that every value is
    admitted, [Some false] where none is. *)
Fixpoint as_bool (p : Predicate) : option bool :=
  let is_true p := match as_bool p with Some b => b | None => false end in
  let is_false p := negb (match as_bool p with Some b => b | None => true end) in
  match p with
  | PFalse => Some false
  | PTrue => Some true
  | PRecord m =>
      if forallb (fun '(_, p) => is_true p) m then Some true
      else if existsb (fun '(_, p) => is_false p) m then Some false
      else None
  | PIntervals i => if is_empty i then Some false else if is_whole i then Some true else None
  | POr arms =>
      if existsb (fun p => bool_decide (as_bool p = Some true)) arms then Some true
      else if forallb (fun p => bool_decide (as_bool p = Some false)) arms then Some false
      else None
  | PUnion tags rest =>
      if forallb (fun '(_, p) => bool_decide (as_bool p = Some rest)) tags then Some rest
      else None
  | PQualified enclosing here =>
      if is_false enclosing || is_false here then Some false else None
  end.

Definition is_true (p : Predicate) : bool := default false (as_bool p).
Definition is_false (p : Predicate) : bool := negb (default true (as_bool p)).

(** [qualifies]. *)
Fixpoint qualifies (p : Predicate) : bool :=
  match p with
  | PQualified _ _ => true
  | POr arms => existsb qualifies arms
  | _ => false
  end.

(** [split_qualification]. *)
Definition split_qualification (p : Predicate) : Predicate * Predicate :=
  match p with
  | PQualified enclosing here => (enclosing, here)
  | unqualified => (PTrue, unqualified)
  end.

(** [any] and [all] over tests that can panic, stopping at the first answer. *)
Fixpoint anyM {A} (f : A -> option bool) (l : list A) : option bool :=
  match l with
  | [] => Some false
  | x :: l => b ← f x; if (b : bool) then Some true else anyM f l
  end.

Fixpoint allM {A} (f : A -> option bool) (l : list A) : option bool :=
  match l with
  | [] => Some true
  | x :: l => b ← f x; if (b : bool) then allM f l else Some false
  end.

(** [contains]: a key alone.  A qualified predicate panics. *)
Fixpoint contains (p : Predicate) (v : Value) : option bool :=
  match p with
  | PTrue => Some true
  | PFalse => Some false
  | PIntervals s => match v with VKey k => Some (holds s k) | _ => Some false end
  | PRecord m =>
      match v with
      | VRecord fields =>
          allM (fun '(k, p) =>
            match assoc k fields with Some v => contains p v | None => Some false end) m
      | _ => Some false
      end
  | POr arms => anyM (fun a => contains a v) arms
  | PUnion tags rest =>
      match v with
      | VUnion tag inner =>
          (fix get tags := match tags with
            | [] => Some rest
            | (t, p) :: tags => if decide (tag = t) then contains p inner else get tags
            end) tags
      | _ => Some false
      end
  | PQualified _ _ => None
  end.

(** [split_last]. *)
Definition split_last {A} (l : list A) : option (A * list A) :=
  match rev l with
  | [] => None
  | x :: above => Some (x, rev above)
  end.

(** [contains_path]: a node by its path, outermost key first. *)
Fixpoint contains_path (p : Predicate) (path : list Value) : option bool :=
  match p with
  | PTrue => Some true
  | PFalse => Some false
  | PQualified enclosing here =>
      match split_last path with
      | None => Some false
      | Some (key, above) =>
          b ← contains_path enclosing above; if (b : bool) then contains here key else Some false
      end
  | POr arms => anyM (fun a => contains_path a path) arms
  | _ => match last path with Some key => contains p key | None => Some false end
  end.

(** ** Building predicates *)

(** [Predicate::intervals]. *)
Definition intervals (set : iset) : Predicate :=
  let set := canonical set in
  if is_empty set then PFalse else if is_whole set then PTrue else PIntervals set.

(** [qualified]. *)
Definition qualified (enclosing here : Predicate) : Predicate :=
  if is_false enclosing || is_false here then PFalse
  else if is_true enclosing then here
  else PQualified enclosing here.

(** [TagMap::from_arms]: sorted by key; a repeated key panics. *)
Definition from_arms {B} (arms : list (FieldKey * B)) : option (list (FieldKey * B)) :=
  let arms := sort_by (fun a b => fieldkey_leb a.1 b.1) arms in
  if forallb (fun w => negb (bool_decide (w.1.1 = w.2.1))) (zip arms (tail arms))
  then Some arms else None.

Definition of_bool (b : bool) : Predicate := if b then PTrue else PFalse.

(** [tagged]. *)
Definition tagged (tags : list (FieldKey * Predicate)) (rest : bool) : option Predicate :=
  let kept := List.filter (fun '(_, p) => negb (bool_decide (as_bool p = Some rest))) tags in
  match kept with
  | [] => Some (of_bool rest)
  | _ => tags ← from_arms kept; Some (PUnion tags rest)
  end.

(** [over_every_tag]. *)
Definition over_every_tag (tags : list (FieldKey * Predicate)) : option Predicate :=
  tagged tags (forallb (fun '(_, p) => is_true p) tags).

(** [at_tag]. *)
Definition at_tag (tags : list (FieldKey * Predicate)) (rest : bool) (tag : FieldKey) : Predicate :=
  default (of_bool rest) (assoc tag tags).

(** [under_tag]. *)
Definition under_tag (p : Predicate) (tag : FieldKey) : option Predicate :=
  match p with
  | PTrue | PFalse => Some p
  | PUnion tags rest => Some (at_tag tags rest tag)
  | _ => None
  end.

(** [zip_tags]. *)
Definition zip_tags (p q : list (FieldKey * Predicate) * bool)
    (f : Predicate -> Predicate -> option Predicate) : option Predicate :=
  let named := dedup (sort_by fieldkey_leb (map fst p.1 ++ map fst q.1)) in
  tags ← mapM (fun tag =>
    combined ← f (at_tag p.1 p.2 tag) (at_tag q.1 q.2 tag); Some (tag, combined)) named;
  r ← f (of_bool p.2) (of_bool q.2);
  rest ← as_bool r;
  tags ← from_arms tags;
  tagged tags rest.

(** ** Componentwise predicates *)

(** [Componentwise]. *)
Inductive Componentwise := CRecord (names : list string) | CQualified.

(** [Componentwise::of]: [None] is the schema assertion's panic. *)
Definition componentwise_of (a b : Predicate) :
    option (option (Componentwise * list Predicate * list Predicate)) :=
  match a, b with
  | PQualified _ _, _ | _, PQualified _ _ =>
      let '(q1, k1) := split_qualification a in
      let '(q2, k2) := split_qualification b in
      Some (Some (CQualified, [q1; k1], [q2; k2]))
  | PRecord m1, PRecord m2 =>
      if (length m1 =? length m2)
         && forallb (fun kp => bool_decide (is_Some (assoc kp.1 m1))) m2
      then
        let names := sort_by name_leb (map fst m1) in
        first ← mapM (fun n => assoc n m1) names;
        second ← mapM (fun n => assoc n m2) names;
        Some (Some (CRecord names, first, second))
      else None
  | _, _ => Some None
  end.

(** [Componentwise::build]. *)
Definition build (shape : Componentwise) (components : list Predicate) : option Predicate :=
  if existsb is_false components then Some PFalse
  else match shape with
  | CRecord names => Some (PRecord (zip names components))
  | CQualified =>
      match components with
      | [enclosing; here] => Some (qualified enclosing here)
      | _ => None
      end
  end.

(** [Predicate::record]. *)
Definition record (fields : list (string * Predicate)) : option Predicate :=
  let names := sort_by name_leb (map fst fields) in
  components ← mapM (fun n => assoc n fields) names;
  build (CRecord names) components.

(** ** The operations *)

(** The recursive calls. *)
Record Ops := MkOps {
  o_intersect : Predicate -> Predicate -> option Predicate;
  o_minus : Predicate -> Predicate -> option Predicate;
  o_union : Predicate -> Predicate -> option Predicate;
  o_subsumes : Predicate -> Predicate -> option bool
}.

Section Step.
Context (R : Ops).

(** [same_region]. *)
Definition same_region (a b : Predicate) : option bool :=
  if pred_eqb a b then Some true
  else x ← o_subsumes R a b; if (x : bool) then o_subsumes R b a else Some false.

(** [Componentwise::meet]. *)
Definition cw_meet (shape : Componentwise) (a b : list Predicate) : option Predicate :=
  components ← mapM (fun '(p, q) => o_intersect R p q) (zip a b);
  build shape components.

(** [Componentwise::join]: the positions that differ, then the join. *)
Fixpoint differing (i : nat) (a b : list Predicate) : option (list nat) :=
  match a, b with
  | p :: a, q :: b =>
      same ← same_region p q;
      rest ← differing (S i) a b;
      Some (if (same : bool) then rest else i :: rest)
  | _, _ => Some []
  end.

Definition cw_join (shape : Componentwise) (a b : list Predicate) : option (option Predicate) :=
  d ← differing 0 a b;
  match d with
  | [] => Some <$> build shape a
  | [i] =>
      p ← a !! i; q ← b !! i;
      one ← o_union R p q;
      Some <$> build shape (<[i := one]> a)
  | _ => Some None
  end.

(** [join] and [join_with_any]. *)
Definition join (a b : Predicate) : option (option Predicate) :=
  c ← componentwise_of a b;
  match c with
  | Some (shape, first, second) => cw_join shape first second
  | None => Some None
  end.

Fixpoint join_with_any (arm : Predicate) (at_ : nat) (arms : list Predicate) :
    option (option (nat * Predicate)) :=
  match arms with
  | [] => Some None
  | other :: arms =>
      j ← join arm other;
      match j with
      | Some joined => Some (Some (at_, joined))
      | None => join_with_any arm (S at_) arms
      end
  end.

(** [flatten_or]: the arms, one level of nesting removed. *)
Definition or_arms (arms : list Predicate) : list Predicate :=
  flat_map (fun arm => match arm with POr inner => inner | other => [other] end) arms.

(** [flatten_or]: the [while let] loop.  Every round removes an arm from
    [joined], so its length bounds the rounds. *)
Fixpoint join_loop (rounds : nat) (arm : Predicate) (joined : list Predicate) (slot : nat) :
    option (list Predicate) :=
  m ← join_with_any arm 0 joined;
  match m with
  | Some (at_, merged) =>
      match rounds with
      | O => None
      | S rounds => join_loop rounds merged (delete at_ joined) (Nat.min slot at_)
      end
  | None =>
      let slot := Nat.min slot (length joined) in
      Some (take slot joined ++ arm :: drop slot joined)
  end.

(** [flatten_or]: the pass that joins arms. *)
Fixpoint join_arms (flat joined : list Predicate) : option (list Predicate) :=
  match flat with
  | [] => Some joined
  | arm :: flat =>
      joined ← join_loop (length joined) arm joined (length joined);
      join_arms flat joined
  end.

(** [flatten_or]: whether another arm covers the arm at [i]. *)
Definition covered (flat : list Predicate) (i : nat) (arm : Predicate) : option bool :=
  anyM (fun '(j, other) =>
    if decide (j = i) then Some false
    else
      x ← o_subsumes R other arm;
      if (x : bool) then
        if j <? i then Some true else negb <$> o_subsumes R arm other
      else Some false) (imap pair flat).

Definition flatten_or (arms : list Predicate) : option Predicate :=
  let flat := or_arms arms in
  match flat with
  | [] => None
  | _ =>
      flat ← join_arms flat [];
      dropped ← mapM (fun '(i, arm) => covered flat i arm) (imap pair flat);
      match omap (fun '(p, d) => if (d : bool) then None else Some p) (zip flat dropped) with
      | [] => None
      | [one] => Some one
      | reduced => Some (POr reduced)
      end
  end.

(** [Componentwise::minus]: the components of step [i], what both hold
    before position [i], what [b] leaves of [a] at it, and [a] after it. *)
Fixpoint stair_components (i : nat) (a b : list Predicate) {struct a} :
    option (list Predicate) :=
  match a, b with
  | p :: a, q :: b =>
      match i with
      | O => d ← o_minus R p q; Some (d :: a)
      | S i => m ← o_intersect R p q; rest ← stair_components i a b; Some (m :: rest)
      end
  | _, _ => Some []
  end.

Definition stair (shape : Componentwise) (a b : list Predicate) (i : nat) : option Predicate :=
  components ← stair_components i a b;
  build shape components.

Definition cw_minus (shape : Componentwise) (a b : list Predicate) : option Predicate :=
  steps ← mapM (stair shape a b) (seq 0 (length a));
  match List.filter (fun s => negb (is_false s)) steps with
  | [] => Some PFalse
  | steps => flatten_or steps
  end.

(** [Componentwise::contains]. *)
Definition cw_contains (a b : list Predicate) : option bool :=
  allM (fun '(p, q) => o_subsumes R p q) (zip a b).

(** [intersect]. *)
Definition intersect_with (a b : Predicate) : option Predicate :=
  match a, b with
  | PTrue, p | p, PTrue => Some p
  | PFalse, _ | _, PFalse => Some PFalse
  | PIntervals x, PIntervals y => Some (intervals (intersection x y))
  | POr arms, _ => rs ← mapM (fun x => o_intersect R x b) arms; flatten_or rs
  | _, POr arms => rs ← mapM (fun x => o_intersect R a x) arms; flatten_or rs
  | PUnion ps pr, PUnion qs qr => zip_tags (ps, pr) (qs, qr) (o_intersect R)
  | _, _ =>
      c ← componentwise_of a b;
      match c with
      | Some (shape, first, second) => cw_meet shape first second
      | None => None
      end
  end.

(** [minus]: the arms after the emptiness and universality tests and the two
    interval rules. *)
Definition minus_shapes (s o : Predicate) : option Predicate :=
  match s, o with
  | POr arms, _ => rs ← mapM (fun a => o_minus R a o) arms; flatten_or rs
  | _, POr arms => foldl (fun res arm => r ← res; o_minus R r arm) (Some s) arms
  | PUnion ps pr, PUnion qs qr => zip_tags (ps, pr) (qs, qr) (o_minus R)
  | PTrue, PUnion tags rest =>
      tags ← mapM (fun '(t, q) => d ← o_minus R PTrue q; Some (t, d)) tags;
      tagged tags (negb rest)
  | PTrue, PRecord m => o_minus R (PRecord (map (fun '(k, _) => (k, PTrue)) m)) o
  | _, _ =>
      c ← componentwise_of s o;
      match c with
      | Some (shape, first, second) => cw_minus shape first second
      | None => None
      end
  end.

(** [minus]: the two interval rules, then the shapes. *)
Definition minus_cases (s o : Predicate) : option Predicate :=
  match s, o with
  | PIntervals a, PIntervals b => Some (intervals (difference a b))
  | _, PIntervals i =>
      if is_true s then Some (intervals (complement i)) else minus_shapes s o
  | _, _ => minus_shapes s o
  end.

Definition minus_with (s o : Predicate) : option Predicate :=
  if is_false o then Some s
  else if is_true o then Some PFalse
  else if is_false s then Some PFalse
  else minus_cases s o.

(** [union]. *)
Definition union_with (a b : Predicate) : option Predicate :=
  match a, b with
  | PTrue, _ | _, PTrue => Some PTrue
  | PFalse, p | p, PFalse => Some p
  | PIntervals x, PIntervals y => Some (intervals (union x y))
  | POr arms, _ => flatten_or (arms ++ [b])
  | _, POr arms => flatten_or (a :: arms)
  | PUnion ps pr, PUnion qs qr => zip_tags (ps, pr) (qs, qr) (o_union R)
  | _, _ =>
      c ← componentwise_of a b;
      match c with
      | Some (shape, first, second) =>
          j ← cw_join shape first second;
          match j with
          | Some joined => Some joined
          | None => flatten_or [a; b]
          end
      | None => None
      end
  end.

(** [subsumes]: the arms after the emptiness and universality tests. *)
Definition subsumes_cases (s o : Predicate) : option bool :=
  match s, o with
  | PIntervals a, PIntervals b => Some (negb (has_difference b a))
  | _, POr arms => allM (fun a => o_subsumes R s a) arms
  | POr arms, _ =>
      x ← anyM (fun a => o_subsumes R a o) arms;
      if (x : bool) then Some true else is_false <$> o_minus R o s
  | PUnion ps pr, PUnion qs qr =>
      if pr || negb qr then
        allM (fun tag => o_subsumes R (at_tag ps pr tag) (at_tag qs qr tag))
          (map fst ps ++ map fst qs)
      else Some false
  | _, _ =>
      c ← componentwise_of s o;
      match c with
      | Some (_, first, second) => cw_contains first second
      | None => is_false <$> o_minus R o s
      end
  end.

Definition subsumes_with (s o : Predicate) : option bool :=
  if is_false o then Some true
  else if is_true s then Some true
  else subsumes_cases s o.
End Step.

(** The recursion, to a depth. *)
Fixpoint ops (fuel : nat) : Ops :=
  match fuel with
  | O => MkOps (fun _ _ => None) (fun _ _ => None) (fun _ _ => None) (fun _ _ => None)
  | S fuel =>
      let R := ops fuel in
      MkOps (intersect_with R) (minus_with R) (union_with R) (subsumes_with R)
  end.

Definition intersect (fuel : nat) : Predicate -> Predicate -> option Predicate :=
  o_intersect (ops fuel).
Definition minus (fuel : nat) : Predicate -> Predicate -> option Predicate :=
  o_minus (ops fuel).
Definition union_of (fuel : nat) : Predicate -> Predicate -> option Predicate :=
  o_union (ops fuel).
Definition subsumes (fuel : nat) : Predicate -> Predicate -> option bool :=
  o_subsumes (ops fuel).
End Predicates.
Arguments Value : clear implicits.
Arguments Predicate K {KS}.
