(* ===== verification/PredicateSem.v ===== *)
(** * The meaning of predicates

    What interval sets promise to predicates ([KeySetLaws]), the domains a
    predicate is read over (shapes of keys, one per level of a path), the
    region a predicate denotes ([den]), the well-formed predicates over a
    domain ([wf]), and what the two reading methods say of the region: [as_bool]
    is sound, and exact for emptiness where every point of the line is that of a key;
    [contains_path] decides the region. *)

From Stdlib Require Import List.
Set Warnings "-register-all,-clear-no-such-hyp".
From S2P Require Import Prelude Predicate.

(** The contract of the interval sets: membership [mem] of every operation, and the answers to
    emptiness and containment on canonical sets.

    The bounds of a set separate the points of a line.  The keys are points of it ([pt_of]); for
    some kinds of key there are more: no neighbour of a string is known, so an interval between
    two strings is taken to hold something whether or not a string lies between them, and the
    integers of [UInt] are taken to go on past the greatest.  Emptiness and containment are exact
    for the points, and so sound for the keys; the regions of predicates are compared on points
    and read on keys. *)
Class KeySetLaws (K : Type) (KS : KeySets K) := {
  base : Type;
  pt : Type;
  pt_of : K -> pt;
  of_base : pt -> base;
  (** the set names keys of one type only *)
  over : base -> iset -> Prop;
  canon : base -> iset -> Prop;
  mem : iset -> pt -> bool;
  pt_of_inj k k' : pt_of k = pt_of k' -> k = k';
  canon_over t s : canon t s -> over t s;
  canonical_canon t s : over t s -> canon t (canonical s);
  over_intersection t a b : over t a -> over t b -> over t (intersection a b);
  over_union t a b : over t a -> over t b -> over t (union a b);
  over_difference t a b : over t a -> over t b -> over t (difference a b);
  over_complement t a : over t a -> over t (complement a);
  over_point k : over (of_base (pt_of k)) (closed_point k);
  mem_intersection t a b x :
    over t a -> over t b -> of_base x = t -> mem (intersection a b) x = mem a x && mem b x;
  mem_union t a b x :
    over t a -> over t b -> of_base x = t -> mem (union a b) x = mem a x || mem b x;
  mem_difference t a b x :
    over t a -> over t b -> of_base x = t -> mem (difference a b) x = mem a x && negb (mem b x);
  mem_complement t a x : over t a -> of_base x = t -> mem (complement a) x = negb (mem a x);
  mem_point k x : of_base x = of_base (pt_of k) -> mem (closed_point k) x = true <-> x = pt_of k;
  mem_canonical t s x : over t s -> of_base x = t -> mem (canonical s) x = mem s x;
  holds_mem t s k : canon t s -> of_base (pt_of k) = t -> holds s k = mem s (pt_of k);
  is_empty_sound t s x : canon t s -> is_empty s = true -> of_base x = t -> mem s x = false;
  is_empty_exact t s : canon t s -> is_empty s = false -> exists x, of_base x = t /\ mem s x = true;
  is_whole_sound t s x : canon t s -> is_whole s = true -> of_base x = t -> mem s x = true;
  has_difference_sound t a b x :
    canon t a -> canon t b -> has_difference a b = false -> of_base x = t ->
    mem a x = true -> mem b x = true;
  has_difference_exact t a b :
    canon t a -> canon t b -> has_difference a b = true ->
    exists x, of_base x = t /\ mem a x = true /\ mem b x = false;
  base_inhabited t : exists x, of_base x = t
}.

(** What lies on the line: its points, and the keys. *)
Class Line {K : Type} {KS : KeySets K} {KL : KeySetLaws K KS} (X : Type) := on_line : X -> pt.

#[export] Instance key_line {K} {KS : KeySets K} {KL : KeySetLaws K KS} : Line K := pt_of.
#[export] Instance point_line {K} {KS : KeySets K} {KL : KeySetLaws K KS} : Line pt | 100 := fun x => x.

(** Every point is one of a key, or of whatever else lies on the line. *)
Class Onto {K : Type} {KS : KeySets K} {KL : KeySetLaws K KS} (X : Type) {LX : Line X} : Prop :=
  onto_line (x : pt) : exists v : X, on_line v = x.

#[export] Instance point_onto {K} {KS : KeySets K} {KL : KeySetLaws K KS} : Onto pt.
Proof. intros x. by exists x. Qed.

Section Semantics.
Context {K : Type} {KS : KeySets K} {KL : KeySetLaws K KS} {X : Type} {LX : Line X}.
Abbreviation Predicate := (Predicate K).
Abbreviation Value := (Value X).

(** ** Domains *)

(** The shape of one level's keys.  A union's listed tags carry their shapes
    and every other tag carries [rest]: the tags are open, as [rest] of a
    predicate reads them. *)
Inductive Shape :=
  | SBase (t : base)
  | SUnit
  | SRecord (fields : list (string * Shape))
  | SUnion (arms : list (FieldKey * Shape)) (rest : Shape).

Fixpoint has_shape (sh : Shape) (v : Value) : Prop :=
  match sh, v with
  | SBase t, VKey k => of_base (on_line k) = t
  | SUnit, VUnit => True
  | SRecord fs, VRecord vs =>
      (fix go fs vs := match fs, vs with
        | [], [] => True
        | (n, s) :: fs, (n', v) :: vs => n = n' /\ has_shape s v /\ go fs vs
        | _, _ => False
        end) fs vs
  | SUnion arms rest, VUnion t v =>
      (fix go arms := match arms with
        | [] => has_shape rest v
        | (t', s) :: arms => if decide (t = t') then has_shape s v else go arms
        end) arms
  | _, _ => False
  end.

Definition arm_shape (arms : list (FieldKey * Shape)) (rest : Shape) (t : FieldKey) : Shape :=
  default rest (assoc t arms).

Fixpoint shape_size (sh : Shape) : nat :=
  match sh with
  | SBase _ | SUnit => 1
  | SRecord fs => S ((fix go fs := match fs with [] => 0 | (_, s) :: fs => shape_size s + go fs end) fs)
  | SUnion arms rest =>
      S (shape_size rest
         + (fix go fs := match fs with [] => 0 | (_, s) :: fs => shape_size s + go fs end) arms)
  end.

(** A domain: one shape per level, innermost first; a path of it likewise. *)
Definition Domain := list Shape.
Definition typed (D : Domain) (rp : list Value) : Prop := Forall2 has_shape D rp.

Definition domain_size (D : Domain) : nat := sum_list_with shape_size D.

(** ** The region a predicate denotes *)

Fixpoint den (p : Predicate) (rp : list Value) : bool :=
  match p with
  | PTrue => true
  | PFalse => false
  | PIntervals s => match rp with VKey k :: _ => mem s (on_line k) | _ => false end
  | PRecord m =>
      match rp with
      | VRecord vs :: _ =>
          forallb (fun '(k, p) =>
            match assoc k vs with Some v => den p [v] | None => false end) m
      | _ => false
      end
  | POr arms => existsb (fun a => den a rp) arms
  | PUnion tags rest =>
      match rp with
      | VUnion tag v :: _ =>
          (fix get tags := match tags with
            | [] => rest
            | (t, p) :: tags => if decide (tag = t) then den p [v] else get tags
            end) tags
      | _ => false
      end
  | PQualified e h =>
      match rp with
      | key :: above => den e above && den h [key]
      | [] => false
      end
  end.

(** ** Well-formed predicates *)

Definition is_or (p : Predicate) : bool := match p with POr _ => true | _ => false end.

(** Field names, distinct and in name order: the spelling of a map's keys. *)
Definition schema (names : list string) : Prop :=
  NoDup names /\ sort_by name_leb names = names.

(** Over the keys of one level: no qualification, and no union directly under
    a union. *)
Fixpoint wf1 (sh : Shape) (p : Predicate) : Prop :=
  match p with
  | PTrue | PFalse => True
  | PIntervals s => match sh with SBase t => canon t s | _ => False end
  | PRecord m =>
      match sh with
      | SRecord fs =>
          schema (map fst fs) /\
          (fix go m fs := match m, fs with
            | [], [] => True
            | (n, p) :: m, (n', s) :: fs => n = n' /\ wf1 s p /\ go m fs
            | _, _ => False
            end) m fs
      | _ => False
      end
  | POr arms =>
      arms <> [] /\
      (fix go arms := match arms with
        | [] => True
        | a :: arms => is_or a = false /\ wf1 sh a /\ go arms
        end) arms
  | PUnion tags rest =>
      match sh with
      | SUnion arms r =>
          NoDup (map fst tags) /\
          (fix go ts := match ts with
            | [] => True
            | (t, p) :: ts => wf1 (arm_shape arms r t) p /\ go ts
            end) tags
      | _ => False
      end
  | PQualified _ _ => False
  end.

(** Over the paths of a domain.  An arm of a union is not a union, except that
    one admitting the same keys under every enclosing path may stand beneath
    enclosing levels. *)
Fixpoint wf (D : Domain) (p : Predicate) {struct p} : Prop :=
  match D with
  | [] => False
  | sh :: above =>
      match p with
      | PQualified e h =>
          wf above e /\ wf1 sh h /\ is_true e = false /\ is_false e = false /\ is_false h = false
      | POr arms =>
          arms <> [] /\
          (fix go arms := match arms with
            | [] => True
            | a :: arms =>
                (if is_or a then above <> [] /\ wf1 sh a else wf D a) /\ go arms
            end) arms
      | _ => wf1 sh p
      end
  end.

(** ** Induction *)

Section Induction.
Context (P : Predicate -> Prop).
Context (Htrue : P PTrue) (Hfalse : P PFalse) (Hint : forall s, P (PIntervals s)).
Context (Hrec : forall m, Forall (fun kp => P kp.2) m -> P (PRecord m)).
Context (Hor : forall arms, Forall P arms -> P (POr arms)).
Context (Hun : forall tags rest, Forall (fun kp => P kp.2) tags -> P (PUnion tags rest)).
Context (Hq : forall e h, P e -> P h -> P (PQualified e h)).

Fixpoint pred_ind (p : Predicate) : P p :=
  match p with
  | PTrue => Htrue
  | PFalse => Hfalse
  | PIntervals s => Hint s
  | PRecord m =>
      Hrec m ((fix go m : Forall (fun kp => P kp.2) m :=
        match m with
        | [] => List.Forall_nil _
        | kp :: m => List.Forall_cons _ kp m (pred_ind kp.2) (go m)
        end) m)
  | POr arms =>
      Hor arms ((fix go l : Forall P l :=
        match l with
        | [] => List.Forall_nil _
        | a :: l => List.Forall_cons _ a l (pred_ind a) (go l)
        end) arms)
  | PUnion tags rest =>
      Hun tags rest ((fix go m : Forall (fun kp => P kp.2) m :=
        match m with
        | [] => List.Forall_nil _
        | kp :: m => List.Forall_cons _ kp m (pred_ind kp.2) (go m)
        end) tags)
  | PQualified e h => Hq e h (pred_ind e) (pred_ind h)
  end.
End Induction.

Section ShapeInduction.
Context (P : Shape -> Prop).
Context (Hbase : forall t, P (SBase t)) (Hunit : P SUnit).
Context (Hrec : forall fs, Forall (fun ns => P ns.2) fs -> P (SRecord fs)).
Context (Hun : forall arms rest, Forall (fun ts => P ts.2) arms -> P rest -> P (SUnion arms rest)).

Fixpoint shape_ind (sh : Shape) : P sh :=
  match sh with
  | SBase t => Hbase t
  | SUnit => Hunit
  | SRecord fs =>
      Hrec fs ((fix go m : Forall (fun ns => P ns.2) m :=
        match m with
        | [] => List.Forall_nil _
        | ns :: m => List.Forall_cons _ ns m (shape_ind ns.2) (go m)
        end) fs)
  | SUnion arms rest =>
      Hun arms rest ((fix go m : Forall (fun ns => P ns.2) m :=
        match m with
        | [] => List.Forall_nil _
        | ns :: m => List.Forall_cons _ ns m (shape_ind ns.2) (go m)
        end) arms) (shape_ind rest)
  end.
End ShapeInduction.

(** Equal spellings are equal. *)
Lemma pred_eqb_eq p q : pred_eqb p q = true -> p = q.
Proof.
  revert q. induction p as [| |s|m IH|arms IH|tags rest IH|e h IHe IHh] using pred_ind;
    intros [| |s'|m'|arms'|tags' rest'|e' h'] H; try done; simpl in H.
  - apply bool_decide_eq_true in H. by subst.
  - f_equal. revert m' H. induction IH as [|[k p] m Hp _ IHm]; intros [|[k' p'] m']; try done.
    intros [[Hk%bool_decide_eq_true Hpp]%andb_true_iff Hm]%andb_true_iff. subst.
    simpl in Hp. rewrite (Hp _ Hpp), (IHm _ Hm). done.
  - f_equal. revert arms' H. induction IH as [|p m Hp _ IHm]; intros [|p' m']; try done.
    intros [Hpp Hm]%andb_true_iff. rewrite (Hp _ Hpp), (IHm _ Hm). done.
  - apply andb_true_iff in H as [Hr%Bool.eqb_prop H]. subst rest'.
    f_equal. revert tags' H. induction IH as [|[k p] m Hp _ IHm]; intros [|[k' p'] m']; try done.
    intros [[Hk%bool_decide_eq_true Hpp]%andb_true_iff Hm]%andb_true_iff. subst.
    simpl in Hp. rewrite (Hp _ Hpp), (IHm _ Hm). done.
  - apply andb_true_iff in H as [He Hh]. by rewrite (IHe _ He), (IHh _ Hh).
Qed.

(** ** Structural recursion, as relations on the parts *)

Lemma has_shape_record fs vs :
  has_shape (SRecord fs) (VRecord vs)
  <-> Forall2 (fun ns nv => ns.1 = nv.1 /\ has_shape ns.2 nv.2) fs vs.
Proof.
  simpl. revert vs. induction fs as [|[n s] fs IH]; intros [|[n' v] vs].
  - split; [constructor|done].
  - split; [done|inversion 1].
  - split; [done|inversion 1].
  - rewrite IH. split.
    + intros (? & ? & ?). by repeat constructor.
    + inversion 1; subst; naive_solver.
Qed.

Lemma has_shape_union arms rest t v :
  has_shape (SUnion arms rest) (VUnion t v) <-> has_shape (arm_shape arms rest t) v.
Proof.
  unfold arm_shape. simpl. induction arms as [|[t' s] arms IH]; simpl; [done|].
  by destruct (decide (t = t')).
Qed.

Lemma den_union tags rest t v above :
  den (PUnion tags rest) (VUnion t v :: above) = den (at_tag tags rest t) [v].
Proof.
  unfold at_tag. simpl. induction tags as [|[t' p] tags IH]; simpl; [by destruct rest|].
  by destruct (decide (t = t')).
Qed.

Lemma wf1_record fs m :
  wf1 (SRecord fs) (PRecord m)
  <-> schema (map fst fs) /\ Forall2 (fun np ns => np.1 = ns.1 /\ wf1 ns.2 np.2) m fs.
Proof.
  simpl. f_equiv. revert fs. induction m as [|[n p] m IH]; intros [|[n' s] fs].
  - split; [constructor|done].
  - split; [done|inversion 1].
  - split; [done|inversion 1].
  - rewrite IH. split.
    + intros (? & ? & ?). by repeat constructor.
    + inversion 1; subst; naive_solver.
Qed.

Lemma wf1_or sh arms :
  wf1 sh (POr arms) <-> arms <> [] /\ Forall (fun a => is_or a = false /\ wf1 sh a) arms.
Proof.
  simpl. f_equiv. induction arms as [|a arms IH]; [split; [constructor|done]|].
  rewrite IH, Forall_cons. naive_solver.
Qed.

Lemma wf1_union arms rest tags r :
  wf1 (SUnion arms rest) (PUnion tags r)
  <-> NoDup (map fst tags) /\ Forall (fun tp => wf1 (arm_shape arms rest tp.1) tp.2) tags.
Proof.
  simpl. f_equiv. induction tags as [|[t p] tags IH]; [split; [constructor|done]|].
  rewrite IH, Forall_cons. naive_solver.
Qed.

(** An arm of a union of a domain. *)
Definition arm_ok (D : Domain) (a : Predicate) : Prop :=
  match D with
  | [] => False
  | sh :: above => if is_or a then above <> [] /\ wf1 sh a else wf D a
  end.

Lemma wf_or sh above arms :
  wf (sh :: above) (POr arms) <-> arms <> [] /\ Forall (arm_ok (sh :: above)) arms.
Proof.
  simpl. f_equiv. induction arms as [|a arms IH]; [split; [constructor|done]|].
  rewrite IH, Forall_cons. done.
Qed.

(** The fields of a record, read one by one. *)
Fixpoint den_all (ps : list Predicate) (rps : list (list Value)) : bool :=
  match ps, rps with
  | p :: ps, rp :: rps => den p rp && den_all ps rps
  | _, _ => true
  end.

Lemma assoc_skip {A B} `{EqDecision A} (k k' : A) (v : B) l :
  k <> k' -> assoc k ((k', v) :: l) = assoc k l.
Proof. intros. simpl. by rewrite decide_False. Qed.

Lemma den_record fs m vs above :
  wf1 (SRecord fs) (PRecord m) -> has_shape (SRecord fs) (VRecord vs) ->
  den (PRecord m) (VRecord vs :: above) = den_all (map snd m) (map (fun nv => [nv.2]) vs).
Proof.
  rewrite wf1_record, has_shape_record. intros [[Hnd _] Hm] Hv.
  cbn [den].
  assert (Hgen : forall pre, (forall n, n ∈ map fst m -> assoc n pre = None) ->
    forallb (fun '(k, p) => match assoc k (pre ++ vs) with Some v => den p [v] | None => false end) m
    = den_all (map snd m) (map (fun nv => [nv.2]) vs)).
  2:{ apply (Hgen []). done. }
  revert vs Hv. induction Hm as [|[n p] [n' s] m fs [E Hp] Hm IH]; intros vs Hv pre Hpre; [done|].
  simpl in E; subst n'. inversion Hv as [|? [n' v] ? vs' [E Hs] Hvs]; subst; simpl in *. subst n'.
  apply NoDup_cons in Hnd as [Hni Hnd].
  assert (Ha : forall n0 (l : list (string * Value)), assoc n0 pre = None -> assoc n0 (pre ++ l) = assoc n0 l).
  { clear. intros n0 l. induction pre as [|[a b] pre IH]; [done|]. simpl.
    destruct (decide (n0 = a)); [done|]. apply IH. }
  rewrite Ha by (apply Hpre; left). simpl. rewrite decide_True by done. f_equal.
  rewrite <- (IH Hnd vs' Hvs (pre ++ [(n, v)])).
  - by rewrite <- app_assoc.
  - intros n0 Hn0. rewrite Ha by (apply Hpre; by right). simpl. rewrite decide_False; [done|].
    intros ->. apply Hni. revert Hn0. clear -Hm.
    induction Hm as [|[a b] [c d] m fs [E _] _ IH]; [done|]. simpl in *. subst.
    rewrite !elem_of_cons. naive_solver.
Qed.

(** ** One level beneath others *)

Lemma den_head sh p k above : wf1 sh p -> den p (k :: above) = den p [k].
Proof.
  revert sh. induction p as [| | | |arms IH| |] using pred_ind; intros sh Hwf; try done.
  apply wf1_or in Hwf as [_ Hwf]. simpl.
  induction IH as [|a arms Ha _ IHl]; [done|]. apply Forall_cons in Hwf as [[_ Hw] Hwf].
  simpl. by rewrite (Ha _ Hw), IHl.
Qed.

Lemma wf1_wf sh above p : wf1 sh p -> wf (sh :: above) p.
Proof.
  intros Hwf. destruct p as [| | | |arms| |]; try done.
  apply wf_or. apply wf1_or in Hwf as [Hn Hwf]. split; [done|].
  eapply Forall_impl; [exact Hwf|]. intros a [Ho Ha]. unfold arm_ok. rewrite Ho.
  by destruct a.
Qed.

Lemma wf_wf1 sh p : wf [sh] p -> wf1 sh p.
Proof.
  intros Hwf. destruct p as [| | | |arms| |]; try done.
  - apply wf1_or. apply wf_or in Hwf as [Hn Hwf]. split; [done|].
    eapply Forall_impl; [exact Hwf|]. intros a Ha. unfold arm_ok in Ha.
    destruct (is_or a) eqn:Ho; [naive_solver|]. split; [done|].
    destruct a; try done. destruct Ha as [Ha _]. by destruct a1.
  - destruct Hwf as [Hwf _]. by destruct p1.
Qed.

Lemma arm_ok_wf D a : arm_ok D a -> wf D a.
Proof.
  destruct D as [|sh above]; [done|]. unfold arm_ok.
  destruct (is_or a); [|done]. intros [_ ?]. by apply wf1_wf.
Qed.

Lemma typed_cons D rp sh : typed (sh :: D) rp -> exists k above, rp = k :: above.
Proof. inversion 1. eauto. Qed.

(** A tag that no entry names. *)
Lemma fresh_tag {B} (tags : list (FieldKey * B)) : exists t, assoc t tags = None.
Proof.
  exists (Index (S (sum_list_with (fun ts => match ts.1 with Index n => n | _ => 0 end) tags))).
  assert (forall m, sum_list_with (fun ts => match ts.1 with Index n => n | _ => 0 end) tags < m ->
    assoc (Index m) tags = None) as H; [|apply H; lia].
  induction tags as [|[t s] tags IH]; intros m Hm; [done|]. simpl in *.
  rewrite decide_False; [apply IH; destruct t; lia|]. intros <-. lia.
Qed.

(** ** [as_bool] *)

Lemma is_true_spec p : is_true p = true <-> as_bool p = Some true.
Proof. unfold is_true. destruct (as_bool p) as [[]|]; naive_solver. Qed.

Lemma is_false_spec p : is_false p = true <-> as_bool p = Some false.
Proof. unfold is_false. destruct (as_bool p) as [[]|]; naive_solver. Qed.

(** What [as_bool] says of the region of a predicate over a domain. *)
Record reads (D : Domain) (p : Predicate) : Prop := {
  reads_true : is_true p = true -> forall rp, typed D rp -> den p rp = true;
  reads_false : is_false p = true -> forall rp, typed D rp -> den p rp = false
}.

(** A product of nonempty regions is nonempty, one of whole regions whole. *)
Lemma den_all_true ps rps :
  den_all ps rps = true <-> Forall (fun prp => den prp.1 prp.2 = true) (zip ps rps).
Proof.
  revert rps. induction ps as [|p ps IH]; intros [|rp rps]; simpl; try (split; [constructor|done]).
  rewrite andb_true_iff, Forall_cons, IH. done.
Qed.

Lemma existsb_false_iff {A} (f : A -> bool) l :
  existsb f l = false <-> Forall (fun x => f x = false) l.
Proof. induction l; simpl; [split; constructor|]. rewrite orb_false_iff, Forall_cons. naive_solver. Qed.

Lemma existsb_true_iff {A} (f : A -> bool) l :
  existsb f l = true <-> exists x, x ∈ l /\ f x = true.
Proof. rewrite existsb_exists. by setoid_rewrite list_elem_of_In. Qed.

Lemma forallb_true_iff {A} (f : A -> bool) l :
  forallb f l = true <-> Forall (fun x => f x = true) l.
Proof. induction l; simpl; [split; constructor|]. rewrite andb_true_iff, Forall_cons. naive_solver. Qed.

(** The readings of each form, from those of its parts. *)
Lemma reads_intervals t s : canon t s -> reads [SBase t] (PIntervals s).
Proof.
  intros Hwf.
  assert (Hk : forall rp, typed [SBase t] rp -> exists k, rp = [VKey k] /\ of_base (on_line k) = t).
  { intros rp Hrp. apply Forall2_cons_inv_l in Hrp as ([k| | |] & ? & Hv & Hn & ->); try done.
    inversion Hn; subst. eauto. }
  split; unfold is_true, is_false; simpl; destruct (is_empty s) eqn:He; simpl; try done.
  - destruct (is_whole s) eqn:Hw; simpl; [|done]. intros _ rp Hrp.
    destruct (Hk rp Hrp) as (k & -> & Hb). by eapply is_whole_sound.
  - intros _ rp Hrp. destruct (Hk rp Hrp) as (k & -> & Hb). by eapply is_empty_sound.
  - by destruct (is_whole s).
Qed.

Lemma as_bool_record m :
  as_bool (PRecord m)
  = if forallb (fun kp => is_true kp.2) m then Some true
    else if existsb (fun kp => is_false kp.2) m then Some false else None.
Proof.
  assert (forall f : Predicate -> bool,
    forallb (fun '(_, p) => f p) m = forallb (fun kp => f kp.2) m /\
    existsb (fun '(_, p) => f p) m = existsb (fun kp => f kp.2) m) as H.
  { intros f. induction m as [|[k p] m IH]; simpl; [done|]. naive_solver congruence. }
  rewrite <- (proj1 (H is_true)), <- (proj2 (H is_false)). done.
Qed.

(** A record's fields against the fields of a key. *)
Lemma record_all_true fs (m : list (string * Predicate)) vs :
  Forall2 (fun np ns => np.1 = ns.1 /\ wf1 ns.2 np.2 /\ reads [ns.2] np.2) m fs ->
  Forall2 (fun ns nv => ns.1 = nv.1 /\ has_shape ns.2 nv.2) fs vs ->
  Forall (fun np => is_true np.2 = true) m ->
  den_all (map snd m) (map (fun nv => [nv.2]) vs) = true.
Proof.
  intros Hm. revert vs. induction Hm as [|[n p] [n' s] m fs (E & _ & Hr) _ IH]; intros vs Hv Ht;
    [done|].
  inversion Hv as [|? [n'' v] ? vs' [E' Hs] Hvs]; subst; simpl in *. apply Forall_cons in Ht as [Hp Ht].
  rewrite (reads_true _ _ Hr Hp [v]), (IH vs' Hvs Ht); [done|]. by repeat constructor.
Qed.

Lemma record_some_false fs (m : list (string * Predicate)) vs :
  Forall2 (fun np ns => np.1 = ns.1 /\ wf1 ns.2 np.2 /\ reads [ns.2] np.2) m fs ->
  Forall2 (fun ns nv => ns.1 = nv.1 /\ has_shape ns.2 nv.2) fs vs ->
  existsb (fun np => is_false np.2) m = true ->
  den_all (map snd m) (map (fun nv => [nv.2]) vs) = false.
Proof.
  intros Hm. revert vs. induction Hm as [|[n p] [n' s] m fs (E & _ & Hr) _ IH]; intros vs Hv Ht;
    [done|].
  inversion Hv as [|? [n'' v] ? vs' [E' Hs] Hvs]; subst; simpl in *.
  apply orb_true_iff in Ht as [Hp|Ht].
  - by rewrite (reads_false _ _ Hr Hp [v]) by (by repeat constructor).
  - rewrite (IH vs' Hvs Ht). apply andb_false_r.
Qed.

Lemma typed_one sh rp : typed [sh] rp -> exists v, rp = [v] /\ has_shape sh v.
Proof. intros H. apply Forall2_cons_inv_l in H as (v & ? & Hv & Hn & ->). inversion Hn; eauto. Qed.

Lemma reads_record fs m :
  wf1 (SRecord fs) (PRecord m) ->
  Forall2 (fun np ns => np.1 = ns.1 /\ wf1 ns.2 np.2 /\ reads [ns.2] np.2) m fs ->
  reads [SRecord fs] (PRecord m).
Proof.
  intros Hwf Hm.
  assert (Hk : forall rp, typed [SRecord fs] rp -> exists vs, rp = [VRecord vs] /\
    Forall2 (fun ns nv => ns.1 = nv.1 /\ has_shape ns.2 nv.2) fs vs /\
    den (PRecord m) rp = den_all (map snd m) (map (fun nv => [nv.2]) vs)).
  { intros rp Hrp. apply typed_one in Hrp as ([| |vs|] & -> & Hv); try done.
    exists vs. split; [done|]. split; [by apply has_shape_record|]. by eapply den_record. }
  split.
  - intros Ht rp Hrp. destruct (Hk rp Hrp) as (vs & _ & Hvs & ->).
    eapply record_all_true; [done..|]. apply is_true_spec in Ht. rewrite as_bool_record in Ht.
    apply forallb_true_iff. destruct (forallb _ m); [done|]. by destruct (existsb _ m).
  - intros Hf rp Hrp. destruct (Hk rp Hrp) as (vs & _ & Hvs & ->).
    eapply record_some_false; [done..|]. apply is_false_spec in Hf. rewrite as_bool_record in Hf.
    destruct (forallb _ m); [done|]. by destruct (existsb _ m).
Qed.

Lemma is_true_or arms : is_true (POr arms) = existsb is_true arms.
Proof.
  unfold is_true at 1. simpl.
  assert (existsb (fun p => bool_decide (as_bool p = Some true)) arms = existsb is_true arms) as ->.
  { induction arms as [|a arms IH]; simpl; [done|]. rewrite IH. f_equal.
    unfold is_true. by destruct (as_bool a) as [[]|]. }
  destruct (existsb is_true arms); [done|]. by destruct (forallb _ _).
Qed.

Lemma is_false_or arms : is_false (POr arms) = forallb is_false arms.
Proof.
  unfold is_false at 1. simpl.
  assert (forallb (fun p => bool_decide (as_bool p = Some false)) arms = forallb is_false arms) as ->.
  { induction arms as [|a arms IH]; simpl; [done|]. rewrite IH. f_equal.
    unfold is_false. by destruct (as_bool a) as [[]|]. }
  destruct (existsb _ _) eqn:E; simpl.
  - symmetry. apply existsb_true_iff in E as (a & Ha & E). apply bool_decide_eq_true in E.
    apply not_true_iff_false. rewrite forallb_true_iff, Forall_forall. intros H.
    specialize (H a Ha). unfold is_false in H. by rewrite E in H.
  - by destruct (forallb is_false arms).
Qed.

Lemma reads_or D arms : Forall (reads D) arms -> reads D (POr arms).
Proof.
  intros Hr. split.
  - rewrite is_true_or, existsb_true_iff. intros (a & Ha & Ht) rp Hrp. simpl.
    apply existsb_true_iff. exists a. split; [done|].
    eapply reads_true; eauto. by eapply Forall_forall in Hr.
  - rewrite is_false_or, forallb_true_iff. intros Hf rp Hrp. simpl. apply existsb_false_iff.
    apply Forall_forall. intros a Ha. eapply reads_false; eauto.
    + by eapply Forall_forall in Hr.
    + by eapply Forall_forall in Hf.
Qed.

Lemma at_tag_wf1 arms rest tags r t :
  wf1 (SUnion arms rest) (PUnion tags r) -> wf1 (arm_shape arms rest t) (at_tag tags r t).
Proof.
  rewrite wf1_union. intros [_ Hw]. unfold at_tag.
  induction tags as [|[t' p] tags IH]; simpl; [by destruct r|].
  apply Forall_cons in Hw as [Hp Hw]. destruct (decide (t = t')) as [->|]; [done|]. by apply IH.
Qed.

Lemma as_bool_union tags rest :
  as_bool (PUnion tags rest)
  = if forallb (fun tp => bool_decide (as_bool tp.2 = Some rest)) tags then Some rest else None.
Proof.
  simpl. assert (forall f : Predicate -> bool,
    forallb (fun '(_, p) => f p) tags = forallb (fun tp => f tp.2) tags) as H.
  { intros f. induction tags as [|[t p] tags IH]; simpl; [done|]. congruence. }
  by rewrite (H (fun p => bool_decide (as_bool p = Some rest))).
Qed.

Lemma reads_union arms rest tags r :
  wf1 (SUnion arms rest) (PUnion tags r) ->
  Forall (fun tp => reads [arm_shape arms rest tp.1] tp.2) tags ->
  reads [SUnion arms rest] (PUnion tags r).
Proof.
  intros Hwf Hr. pose proof (proj1 (wf1_union _ _ _ _) Hwf) as [Hnd _].
  assert (Hall : as_bool (PUnion tags r) = Some r -> forall t v, has_shape (arm_shape arms rest t) v ->
    den (at_tag tags r t) [v] = r).
  { rewrite as_bool_union. destruct (forallb _ tags) eqn:E; [|done]. intros _ t v Hv. clear Hwf Hnd.
    apply forallb_true_iff in E. unfold at_tag.
    induction tags as [|[t' p] tags IH]; simpl; [by destruct r|].
    apply Forall_cons in E as [Ep E]. apply Forall_cons in Hr as [Hp Hr]. simpl in *.
    apply bool_decide_eq_true in Ep.
    destruct (decide (t = t')) as [->|]; [|by apply IH]. simpl.
    destruct r; [eapply reads_true|eapply reads_false]; try done.
    - by apply is_true_spec.
    - by repeat constructor.
    - by apply is_false_spec.
    - by repeat constructor. }
  split.
  - intros Ht rp Hrp. apply is_true_spec in Ht.
    assert (r = true) as -> by (rewrite as_bool_union in Ht; destruct (forallb _ _); congruence).
    apply typed_one in Hrp as ([| | |t v] & -> & Hv); try done.
    rewrite den_union. apply Hall; [done|]. by apply has_shape_union.
  - intros Ht rp Hrp. apply is_false_spec in Ht.
    assert (r = false) as -> by (rewrite as_bool_union in Ht; destruct (forallb _ _); congruence).
    apply typed_one in Hrp as ([| | |t v] & -> & Hv); try done.
    rewrite den_union. apply Hall; [done|]. by apply has_shape_union.
Qed.

Lemma Forall2_Forall_and {A B} (R S : A -> B -> Prop) (P : A -> Prop) l k :
  Forall2 R l k -> Forall P l -> (forall x y, R x y -> P x -> S x y) -> Forall2 S l k.
Proof. intros H HP HS. induction H; [constructor|]. inversion HP; subst. constructor; eauto. Qed.

Lemma wf1_reads sh p : wf1 sh p -> reads [sh] p.
Proof.
  revert sh. induction p as [| |s|m IH|arms IH|tags rest IH|e h] using pred_ind; intros sh Hwf.
  - split; done.
  - split; done.
  - destruct sh as [t| | |]; try done. by apply reads_intervals.
  - destruct sh as [| |fs|]; try done. apply reads_record; [done|].
    apply wf1_record in Hwf as [_ Hwf].
    eapply Forall2_Forall_and; [exact Hwf|exact IH|]. simpl. naive_solver.
  - apply wf1_or in Hwf as [_ Hwf]. apply reads_or. rewrite Forall_forall in *. naive_solver.
  - destruct sh as [| | |arms r]; try done. apply reads_union; [done|].
    apply wf1_union in Hwf as [_ Hwf]. rewrite Forall_forall in *. naive_solver.
  - done.
Qed.

Lemma is_true_qualified e h : is_true (PQualified e h) = false.
Proof. unfold is_true. simpl. by destruct (_ || _). Qed.

Lemma is_false_qualified e h : is_false (PQualified e h) = is_false e || is_false h.
Proof.
  change (negb (default true (if is_false e || is_false h then Some false else None))
    = is_false e || is_false h).
  by destruct (is_false e || is_false h).
Qed.

Lemma reads_lift sh above p : wf1 sh p -> reads [sh] p -> reads (sh :: above) p.
Proof.
  intros Hwf Hr. split.
  - intros Ht rp Hrp. apply Forall2_cons_inv_l in Hrp as (v & ? & Hv & Hn & ->).
    rewrite (den_head sh) by done. eapply reads_true; [done..|]. by repeat constructor.
  - intros Ht rp Hrp. apply Forall2_cons_inv_l in Hrp as (v & ? & Hv & Hn & ->).
    rewrite (den_head sh) by done. eapply reads_false; [done..|]. by repeat constructor.
Qed.

Lemma wf_reads D p : wf D p -> reads D p.
Proof.
  revert D. induction p as [| |s|m IH|arms IH|tags rest IH|e h IHe IHh] using pred_ind; intros D Hwf;
    (destruct D as [|sh above]; [done|]);
    try (apply reads_lift, wf1_reads; exact Hwf).
  - apply wf_or in Hwf as [_ Hwf]. apply reads_or. rewrite Forall_forall in *.
    intros a Ha. specialize (Hwf a Ha). apply IH; [done|]. by apply arm_ok_wf.
  - destruct Hwf as (He & Hh & Ht & Hfe & Hfh). apply IHe in He. apply wf1_reads in Hh. split.
    + by rewrite is_true_qualified.
    + by rewrite is_false_qualified, Hfe, Hfh.
Qed.

(** ** The two membership tests decide the region *)

Lemma allM_forallb {A} (f : A -> option bool) g l :
  Forall (fun x => f x = Some (g x)) l -> allM f l = Some (forallb g l).
Proof. induction 1 as [|x l Hx _ IH]; simpl; [done|]. rewrite Hx. simpl. by destruct (g x). Qed.

Lemma anyM_existsb {A} (f : A -> option bool) g l :
  Forall (fun x => f x = Some (g x)) l -> anyM f l = Some (existsb g l).
Proof. induction 1 as [|x l Hx _ IH]; simpl; [done|]. rewrite Hx. simpl. by destruct (g x). Qed.

(** The shape a record key's field has, by name. *)
Lemma record_field (fs : list (string * Shape)) vs n s v :
  NoDup (map fst fs) ->
  Forall2 (fun ns nv => ns.1 = nv.1 /\ has_shape ns.2 nv.2) fs vs ->
  (n, s) ∈ fs -> assoc n vs = Some v -> has_shape s v.
Proof.
  intros Hnd H. induction H as [|[n1 s1] [n2 v2] fs vs [E Hs] _ IH]; intros Hin; [by apply elem_of_nil in Hin|].
  simpl in *. subst n2. apply NoDup_cons in Hnd as [Hni Hnd].
  apply elem_of_cons in Hin as [[= -> ->]|Hin].
  - rewrite decide_True by done. by intros [= ->].
  - rewrite decide_False; [by apply IH|]. intros ->. apply Hni.
    rewrite list_elem_of_In, in_map_iff. exists (n1, s). by rewrite <- list_elem_of_In.
Qed.

End Semantics.

(** * Regions of all points

    A level has a point, and a predicate that does not read as empty holds one. *)

Section Points.
Context {K : Type} {KS : KeySets K} {KL : KeySetLaws K KS} {X : Type} {LX : Line X} {OX : Onto X}.
Abbreviation Predicate := (Predicate K).
Abbreviation Value := (Value X).

(** ** Every shape has a value *)

Lemma shape_inhabited sh : exists v, has_shape sh v.
Proof.
  induction sh as [t| |fs IH|arms rest IH [v Hv]] using shape_ind.
  - destruct (base_inhabited t) as [x Hx]. destruct (onto_line x) as [k <-]. by exists (VKey k).
  - by exists VUnit.
  - assert (exists vs, Forall2 (fun ns nv => ns.1 = nv.1 /\ has_shape ns.2 nv.2) fs vs) as [vs Hvs].
    { induction IH as [|[n s] fs [v Hv] _ [vs Hvs]]; [exists []; constructor|].
      exists ((n, v) :: vs). by constructor. }
    exists (VRecord vs). by apply has_shape_record.
  - destruct (fresh_tag arms) as [t Ht].
    exists (VUnion t v). apply has_shape_union. unfold arm_shape. by rewrite Ht.
Qed.

Lemma domain_inhabited D : exists rp, typed D rp.
Proof.
  induction D as [|sh D [rp IH]]; [exists []; constructor|].
  destruct (shape_inhabited sh) as [v Hv]. exists (v :: rp). by constructor.
Qed.

(** ** A region that does not read as empty *)

Definition shows (D : Domain) (p : Predicate) : Prop :=
  is_false p = false -> exists rp : list Value, typed D rp /\ den p rp = true.

Lemma shows_intervals t s : canon t s -> shows [SBase t] (PIntervals s).
Proof.
  intros Hwf. unfold shows, is_false. simpl. destruct (is_empty s) eqn:He; [done|]. intros _.
  destruct (is_empty_exact t s Hwf He) as (x & Hx & Hm). destruct (onto_line x) as [k <-]. exists [VKey k]. split; [by repeat constructor|done].
Qed.

(** The fields of a record, at one record of points. *)
Lemma record_shows fs (m : list (string * Predicate)) :
  Forall2 (fun np ns => np.1 = ns.1 /\ wf1 ns.2 np.2 /\ shows [ns.2] np.2) m fs ->
  Forall (fun np => is_false np.2 = false) m ->
  exists vs, Forall2 (fun ns nv => ns.1 = nv.1 /\ has_shape ns.2 nv.2) fs vs /\
    den_all (map snd m) (map (fun nv => [nv.2]) vs) = true.
Proof.
  induction 1 as [|[n p] [n' s] m fs (E & _ & Hr) _ IH]; intros Hf; [by exists []; split; [constructor|]|].
  simpl in *. subst n'. apply Forall_cons in Hf as [Hp Hf].
  destruct (IH Hf) as (vs & Hvs & Hd). destruct (Hr Hp) as (rp & Ht & Hden).
  apply Forall2_cons_inv_l in Ht as (v & ? & Hv & Hnil & ->). inversion Hnil; subst.
  exists ((n, v) :: vs). split; [by constructor|]. simpl. by rewrite Hden, Hd.
Qed.

Lemma shows_record fs m :
  wf1 (SRecord fs) (PRecord m) ->
  Forall2 (fun np ns => np.1 = ns.1 /\ wf1 ns.2 np.2 /\ shows [ns.2] np.2) m fs -> shows [SRecord fs] (PRecord m).
Proof.
  intros Hwf Hm Hf. destruct (record_shows fs m Hm) as (vs & Hvs & Hd).
  - unfold is_false in Hf. rewrite as_bool_record in Hf. destruct (forallb _ m) eqn:Ht.
    + apply forallb_true_iff in Ht. eapply Forall_impl; [exact Ht|]. simpl.
      intros x. unfold is_true, is_false. by destruct (as_bool x.2) as [[]|].
    + destruct (existsb _ m) eqn:He; [done|]. by apply existsb_false_iff in He.
  - exists [VRecord vs]. split; [repeat constructor; by apply has_shape_record|].
    erewrite den_record; [done..|]. by apply has_shape_record.
Qed.

Lemma shows_or D arms : Forall (shows D) arms -> shows D (POr arms).
Proof.
  intros Hr. unfold shows. rewrite is_false_or. intros Hf.
  induction Hr as [|a arms Ha _ IH]; [done|]. simpl in Hf. apply andb_false_iff in Hf as [Hf|Hf].
  - destruct (Ha Hf) as (rp & Ht & Hd). exists rp. simpl. by rewrite Hd.
  - destruct (IH Hf) as (rp & Ht & Hd). exists rp. simpl in *. rewrite Hd. by rewrite orb_true_r.
Qed.

Lemma shows_union arms rest tags r :
  wf1 (SUnion arms rest) (PUnion tags r) ->
  Forall (fun tp => shows [arm_shape arms rest tp.1] tp.2) tags -> shows [SUnion arms rest] (PUnion tags r).
Proof.
  intros Hwf Hr. pose proof (proj1 (wf1_union _ _ _ _) Hwf) as [Hnd _].
  intros Hf. destruct r.
    + destruct (fresh_tag tags) as [t Ht]. destruct (shape_inhabited (arm_shape arms rest t)) as [v Hv].
      exists [VUnion t v]. split; [repeat constructor; by apply has_shape_union|].
      rewrite den_union. unfold at_tag. by rewrite Ht.
    + assert (exists tp, tp ∈ tags /\ is_false tp.2 = false) as ([t p] & Hin & Hp).
      { unfold is_false in Hf. rewrite as_bool_union in Hf. destruct (forallb _ tags) eqn:E; [done|].
        clear -E. induction tags as [|[t p] tags IH]; [done|]. simpl in E.
        apply andb_false_iff in E as [E|E].
        - exists (t, p). split; [by left|]. apply bool_decide_eq_false in E.
          apply not_true_iff_false. by rewrite is_false_spec.
        - destruct (IH E) as (tp & Hin & Hp). exists tp. split; [by right|done]. }
      pose proof (proj1 (Forall_forall _ _) Hr _ Hin) as Hrp. cbn [fst snd] in *.
      destruct (Hrp Hp) as (rp & Ht & Hd). apply typed_one in Ht as (v & -> & Hv).
      exists [VUnion t v]. split; [repeat constructor; by apply has_shape_union|].
      rewrite den_union. unfold at_tag.
      assert (assoc t tags = Some p) as ->; [|done].
      clear -Hnd Hin. induction tags as [|[t' p'] tags IH]; [by apply elem_of_nil in Hin|].
      simpl in *. apply NoDup_cons in Hnd as [Hni Hnd]. apply elem_of_cons in Hin as [[= -> ->]|Hin].
      * by rewrite decide_True.
      * rewrite decide_False; [by apply IH|]. intros ->. apply Hni.
        rewrite list_elem_of_In, in_map_iff. exists (t', p). split; [done|]. by apply list_elem_of_In.
Qed.

Lemma wf1_shows sh p : wf1 sh p -> shows [sh] p.
Proof.
  revert sh. induction p as [| |s|m IH|arms IH|tags rest IH|e h] using pred_ind; intros sh Hwf.
  - intros _. destruct (domain_inhabited [sh]) as [rp Hrp]. eauto.
  - done.
  - destruct sh as [t| | |]; try done. by apply shows_intervals.
  - destruct sh as [| |fs|]; try done. apply shows_record; [done|]. apply wf1_record in Hwf as [_ Hwf].
    eapply Forall2_Forall_and; [exact Hwf|exact IH|]. simpl. naive_solver.
  - apply wf1_or in Hwf as [_ Hwf]. apply shows_or. rewrite Forall_forall in *. naive_solver.
  - destruct sh as [| | |arms r]; try done. apply shows_union; [done|].
    apply wf1_union in Hwf as [_ Hwf]. rewrite Forall_forall in *. naive_solver.
  - done.
Qed.

Lemma shows_lift sh above p : wf1 sh p -> shows (sh :: above) p.
Proof.
  intros Hwf Hf. destruct (wf1_shows sh p Hwf Hf) as (rp & Hrp & Hd).
  apply typed_one in Hrp as (v & -> & Hv). destruct (domain_inhabited above) as [ab Hab].
  exists (v :: ab). split; [by constructor|]. by rewrite (den_head sh).
Qed.

Lemma wf_shows D p : wf D p -> shows D p.
Proof.
  revert D. induction p as [| |s|m IH|arms IH|tags rest IH|e h IHe IHh] using pred_ind; intros D Hwf;
    (destruct D as [|sh above]; [done|]); try (apply shows_lift; exact Hwf).
  - apply wf_or in Hwf as [_ Hwf]. apply shows_or. rewrite Forall_forall in *.
    intros a Ha. specialize (Hwf a Ha). apply IH; [done|]. by apply arm_ok_wf.
  - destruct Hwf as (He & Hh & Ht & Hfe & Hfh). intros _. destruct (IHe _ He Hfe) as (ab & Hab & Hd).
    destruct (wf1_shows _ _ Hh Hfh) as (rp & Hrp & Hd'). apply typed_one in Hrp as (v & -> & Hv).
    exists (v :: ab). split; [by constructor|]. simpl. by rewrite Hd, Hd'.
Qed.
End Points.

(** * Regions of keys

    The code's own membership tests decide them, and a path of keys is in a region just when its
    points are. *)

Section Keys.
Context {K : Type} {KS : KeySets K} {KL : KeySetLaws K KS}.
Abbreviation Predicate := (Predicate K).
Abbreviation Value := (Value K).

Lemma contains_den sh p v : wf1 sh p -> has_shape sh v -> contains p v = Some (den p [v]).
Proof.
  revert sh v. induction p as [| |s|m IH|arms IH|tags rest IH|e h] using pred_ind; intros sh v Hwf Hv; try done.
  - simpl. destruct sh as [t| | |]; try done. destruct v as [k| | |]; try done.
    by erewrite holds_mem.
  - destruct sh as [| |fs|]; try done. destruct v as [| |vs|]; try done. cbn [contains den].
    apply has_shape_record in Hv. apply wf1_record in Hwf as [[Hnd _] Hm].
    apply allM_forallb. apply Forall_forall. intros [n p] Hin.
    destruct (assoc n vs) as [v|] eqn:E; [|done].
    apply list_elem_of_lookup in Hin as [i Hi].
    destruct (Forall2_lookup_l _ _ _ _ _ Hm Hi) as ([n' s] & Hi' & En & Hp). simpl in *. subst n'.
    pose proof (proj1 (Forall_forall _ _) IH (n, p) (list_elem_of_lookup_2 _ _ _ Hi)) as Hip.
    eapply Hip; [exact Hp|]. eapply record_field; eauto using list_elem_of_lookup_2.
  - cbn [contains den]. apply wf1_or in Hwf as [_ Hwf]. apply anyM_existsb.
    rewrite Forall_forall in *. naive_solver.
  - destruct sh as [| | |arms r]; try done. destruct v as [| | |t v]; try done.
    rewrite den_union. apply has_shape_union in Hv. apply wf1_union in Hwf as [_ Hwf].
    unfold at_tag. cbn [contains].
    induction tags as [|[t' p] tags IHt]; simpl; [by destruct rest|].
    apply Forall_cons in Hwf as [Hp Hwf]. apply Forall_cons in IH as [Hip IH].
    destruct (decide (t = t')) as [->|]; [by eapply Hip|by apply IHt].
Qed.

Lemma contains_path_den D p path :
  wf D p -> typed D (rev path) -> contains_path p path = Some (den p (rev path)).
Proof.
  revert D path. induction p as [| |s|m IH|arms IH|tags rest IH|e h IHe IHh] using pred_ind;
    intros D path Hwf Ht; (destruct D as [|sh above]; [done|]); try done.
  1,2,4:
    destruct (typed_cons _ _ _ Ht) as (k & ab & E); rewrite E in *;
    (assert (last path = Some k) as Hl by
      (rewrite <- (rev_involutive path), E; simpl; by rewrite last_snoc));
    cbn [contains_path]; rewrite Hl, (den_head sh) by done;
    inversion Ht; subst; by eapply contains_den.
  - cbn [contains_path den]. apply wf_or in Hwf as [_ Hwf]. apply anyM_existsb.
    rewrite Forall_forall in *. intros a Ha. eapply IH; [done| |done]. by apply arm_ok_wf, Hwf.
  - destruct Hwf as (He & Hh & _). destruct (typed_cons _ _ _ Ht) as (k & ab & E).
    cbn [contains_path]. unfold split_last. rewrite E in *. inversion Ht; subst.
    rewrite (IHe above); [|done|by rewrite rev_involutive]. rewrite rev_involutive. simpl.
    destruct (den e ab); [|done]. by eapply contains_den.
Qed.
(** ** The points of a key *)

Fixpoint points (v : Value) : Predicate.Value pt :=
  match v with
  | VKey k => VKey (pt_of k)
  | VUnit => VUnit
  | VRecord fs => VRecord (map (fun '(n, v) => (n, points v)) fs)
  | VUnion t v => VUnion t (points v)
  end.

Lemma has_shape_points sh v : has_shape sh (points v) <-> has_shape sh v.
Proof.
  revert v. induction sh as [t| |fs IH|arms rest IH IHr] using shape_ind; intros [k| |vs|t' v]; try done.
  - cbn [points]. rewrite !has_shape_record. revert vs.
    induction IH as [|[n s] fs Hs _ IHf]; intros [|[n' v] vs]; simpl; [done|split; inversion 1..|].
    rewrite !Forall2_cons, IHf. simpl in *. by rewrite Hs.
  - cbn [points]. rewrite !has_shape_union. unfold arm_shape.
    induction IH as [|[t s] arms Hs _ IHa]; simpl; [done|]. by destruct (decide (t' = t)).
Qed.

Lemma typed_points D rp : typed D (map points rp) <-> typed D rp.
Proof.
  revert rp. induction D as [|sh D IH]; intros [|v rp]; simpl; unfold typed in *; [done|split; inversion 1..|].
  by rewrite !Forall2_cons, IH, has_shape_points.
Qed.

Lemma assoc_points n (vs : list (string * Value)) :
  assoc n (map (fun '(n, v) => (n, points v)) vs) = points <$> assoc n vs.
Proof. induction vs as [|[n' v] vs IH]; simpl; [done|]. by destruct (decide (n = n')). Qed.

Lemma den_points p rp : den p (map points rp) = den p rp.
Proof.
  revert rp. induction p as [| |s|m IH|arms IH|tags rest IH|e h IHe IHh] using pred_ind; intros rp; try done.
  - destruct rp as [|[k| | |] rp]; done.
  - destruct rp as [|[k| |vs|] rp]; try done. cbn [map points den].
    induction IH as [|[n p] m Hp _ IHm]; simpl; [done|]. rewrite IHm, assoc_points.
    destruct (assoc n vs) as [v|]; simpl; [|done]. pose proof (Hp [v]) as Hv. cbn [map snd] in Hv. by rewrite Hv.
  - cbn [den]. induction IH as [|a arms Ha _ IHa]; simpl; [done|]. by rewrite Ha, IHa.
  - destruct rp as [|[k| | |t v] rp]; try done. cbn [map points]. rewrite !den_union. unfold at_tag.
    induction IH as [|[t' p] tags Hp _ IHt]; simpl; [by destruct rest|].
    destruct (decide (t = t')); [exact (Hp [v])|done].
  - destruct rp as [|v rp]; [done|]. cbn [map den]. rewrite IHe. f_equal. exact (IHh [v]).
Qed.
End Keys.
