(* ===== verification/Returns.v ===== *)
(** * Computations with enough fuel

  [returns f P]: from some amount of fuel on, [f] answers, always alike, and
  the answer satisfies [P].  The combinators follow the shape of the code:
  sequencing, traversals, and searches that stop at the first answer. *)

From Stdlib Require Import List.
From S2P Require Import Prelude Predicate.

Definition returns {A} (f : nat -> option A) (P : A -> Prop) : Prop :=
  exists N a, P a /\ forall n, N <= n -> f n = Some a.

Lemma returns_const {A} (a : A) (P : A -> Prop) : P a -> returns (fun _ => Some a) P.
Proof. intros H. by exists 0, a. Qed.

Lemma returns_impl {A} (f : nat -> option A) (P : A -> Prop) (Q : A -> Prop) : returns f P -> (forall a, P a -> Q a) -> returns f Q.
Proof. intros (N & a & Ha & Hn) H. exists N, a. eauto. Qed.

Lemma returns_ext {A} (f g : nat -> option A) (P : A -> Prop) : (forall n, f n = g n) -> returns f P -> returns g P.
Proof. intros E (N & a & Ha & Hn). exists N, a. split; [done|]. intros. rewrite <- E. auto. Qed.

(** One more round of fuel. *)
Lemma returns_step {A} (f g : nat -> option A) (P : A -> Prop) : (forall n, f (S n) = g n) -> returns g P -> returns f P.
Proof.
  intros E (N & a & Ha & Hn). exists (S N), a. split; [done|].
  intros [|n] Hle; [lia|]. rewrite E. apply Hn. lia.
Qed.

Lemma returns_bind {A B} (f : nat -> option A) (g : nat -> A -> option B) (P : A -> Prop) (Q : B -> Prop) :
  returns f P -> (forall a, P a -> returns (fun n => g n a) Q) ->
  returns (fun n => f n ≫= g n) Q.
Proof.
  intros (N & a & Ha & Hn) Hg. destruct (Hg a Ha) as (M & b & Hb & Hm).
  exists (Nat.max N M), b. split; [done|]. intros n Hle. rewrite Hn by lia. simpl. apply Hm. lia.
Qed.

Lemma returns_fmap {A B} (f : nat -> option A) (g : A -> B) (P : A -> Prop) (Q : B -> Prop) :
  returns f P -> (forall a, P a -> Q (g a)) -> returns (fun n => g <$> f n) Q.
Proof.
  intros (N & a & Ha & Hn) H. exists N, (g a). split; [auto|]. intros n Hle. by rewrite Hn.
Qed.

Lemma returns_mapM {A B} (f : nat -> A -> option B) (P : A -> B -> Prop) l :
  Forall (fun x => returns (fun n => f n x) (P x)) l ->
  returns (fun n => mapM (f n) l) (Forall2 P l).
Proof.
  induction 1 as [|x l Hx _ IH]; [apply returns_const; constructor|]. simpl.
  eapply returns_bind; [exact Hx|]. intros y Hy.
  eapply returns_bind; [exact IH|]. intros ys Hys. apply returns_const. by constructor.
Qed.

(** A search: some element answers [true], or all answer [false]. *)
Lemma returns_anyM {A} (f : nat -> A -> option bool) (S : A -> bool -> Prop) l :
  Forall (fun x => returns (fun n => f n x) (S x)) l ->
  returns (fun n => anyM (f n) l)
    (fun b : bool => if b then exists x, x ∈ l /\ S x true else Forall (fun x => S x false) l).
Proof.
  induction 1 as [|x l Hx _ IH]; [apply returns_const; constructor|]. simpl.
  eapply returns_bind; [exact Hx|]. intros [] Hb.
  - apply returns_const. exists x. split; [by left|done].
  - eapply returns_impl; [exact IH|]. intros [] Hr.
    + destruct Hr as (y & Hy & HS). exists y. split; [by right|done].
    + by constructor.
Qed.

Lemma returns_allM {A} (f : nat -> A -> option bool) (S : A -> bool -> Prop) l :
  Forall (fun x => returns (fun n => f n x) (S x)) l ->
  returns (fun n => allM (f n) l)
    (fun b : bool => if b then Forall (fun x => S x true) l else exists x, x ∈ l /\ S x false).
Proof.
  induction 1 as [|x l Hx _ IH]; [apply returns_const; constructor|]. simpl.
  eapply returns_bind; [exact Hx|]. intros [] Hb.
  - eapply returns_impl; [exact IH|]. intros [] Hr.
    + by constructor.
    + destruct Hr as (y & Hy & HS). exists y. split; [by right|done].
  - apply returns_const. exists x. split; [by left|done].
Qed.

(** A fold whose accumulator keeps an invariant indexed by what is left. *)
Lemma returns_foldl {A B} (f : nat -> A -> B -> option A) (I : list B -> A -> Prop) l a :
  I l a ->
  (forall b l a, I (b :: l) a -> returns (fun n => f n a b) (I l)) ->
  returns (fun n => foldl (fun res b => r ← res; f n r b) (Some a) l) (I []).
Proof.
  intros H0 Hs. revert a H0. induction l as [|b l IH]; intros a H0; [by apply returns_const|].
  destruct (Hs b l a H0) as (N & a' & Ha' & Hn).
  destruct (IH a' Ha') as (M & r & Hr & Hm).
  exists (Nat.max N M), r. split; [done|]. intros n Hle. simpl. rewrite Hn by lia. apply Hm. lia.
Qed.
