(* ===== verification/KeyMaps.v ===== *)
(** * Maps by key

    The order of field keys and names, sorted lists without repetition, and the
    maps given by their entries ([TagMap], and the [HashMap]s of field names):
    what [from_arms] accepts and what a lookup finds. *)

From Stdlib Require Import List Sorting.Sorted.
From S2P Require Import Prelude Predicate.
Set Warnings "-clear-no-such-hyp".

(** ** Sorting by an order *)

Section Order.
Context {A : Type} (leb : A -> A -> bool).
Context (leb_total : forall x y, leb x y = true \/ leb y x = true).
Context (leb_trans : forall x y z, leb x y = true -> leb y z = true -> leb x z = true).
Context (leb_antisym : forall x y, leb x y = true -> leb y x = true -> x = y).

Abbreviation le := (fun x y => leb x y = true).

Lemma insert_by_perm x l : insert_by leb x l ≡ₚ x :: l.
Proof using Type.
  induction l as [|y l IH]; simpl; [done|]. destruct (leb x y); [done|].
  rewrite IH. apply Permutation_swap.
Qed.

Lemma sort_by_perm l : sort_by leb l ≡ₚ l.
Proof using Type. induction l as [|x l IH]; simpl; [done|]. by rewrite insert_by_perm, IH. Qed.

Lemma insert_by_sorted x l : StronglySorted le l -> StronglySorted le (insert_by leb x l).
Proof using leb_total leb_trans.
  induction 1 as [|y l Hs IH Hy]; simpl; [repeat constructor|].
  destruct (leb x y) eqn:E.
  - constructor; [by constructor|]. constructor; [done|].
    eapply Forall_impl; [exact Hy|]. simpl. eauto.
  - constructor; [done|]. rewrite insert_by_perm. constructor; [|done].
    destruct (leb_total x y); congruence.
Qed.

Lemma sort_by_sorted l : StronglySorted le (sort_by leb l).
Proof using leb_total leb_trans.
  induction l as [|x l IH]; simpl; [constructor|]. by apply insert_by_sorted.
Qed.

Lemma dedup_cons `{EqDecision A} (x y : A) l :
  dedup (x :: y :: l) = if decide (x = y) then dedup (y :: l) else x :: dedup (y :: l).
Proof using Type. done. Qed.

Lemma elem_of_dedup `{EqDecision A} (x : A) l : x ∈ dedup l <-> x ∈ l.
Proof using Type.
  induction l as [|y l IH]; [done|]. destruct l as [|z l]; [done|].
  rewrite dedup_cons. destruct (decide (y = z)) as [->|]; rewrite ?elem_of_cons, IH, ?elem_of_cons.
  - naive_solver.
  - naive_solver.
Qed.

Lemma dedup_NoDup `{EqDecision A} (l : list A) : StronglySorted le l -> NoDup (dedup l).
Proof using leb_antisym.
  induction 1 as [|x l Hs IH Hx]; [constructor|]. destruct l as [|y l]; [apply NoDup_singleton|].
  rewrite dedup_cons. destruct (decide (x = y)) as [->|Hne]; [done|].
  apply NoDup_cons. split; [|done]. rewrite elem_of_dedup. intros Hin.
  apply Forall_cons in Hx as [Hxy Hx]. inversion Hs as [|? ? Hs' Hy]; subst.
  apply elem_of_cons in Hin as [->|Hin]; [done|].
  apply Hne, leb_antisym; [done|]. by eapply Forall_forall in Hy.
Qed.
End Order.

(** ** The order of names and of field keys *)

Lemma ascii_compare_eq a b : Ascii.compare a b = Eq -> a = b.
Proof. apply Ascii.compare_eq_iff. Qed.

Lemma name_leb_antisym s t : name_leb s t = true -> name_leb t s = true -> s = t.
Proof.
  unfold name_leb. rewrite (String.compare_antisym t s). intros H1 H2.
  apply String.compare_eq_iff. destruct (String.compare s t); try done.
Qed.

Lemma name_leb_total s t : name_leb s t = true \/ name_leb t s = true.
Proof.
  unfold name_leb. rewrite (String.compare_antisym t s). destruct (String.compare s t); simpl; auto.
Qed.

Lemma name_leb_trans s t u : name_leb s t = true -> name_leb t u = true -> name_leb s u = true.
Proof.
  unfold name_leb. revert t u. induction s as [|a s IH]; intros [|b t] [|c u]; simpl; try done.
  unfold Ascii.compare.
  destruct (N.compare_spec (N_of_ascii a) (N_of_ascii b)) as [E1|E1|E1];
  destruct (N.compare_spec (N_of_ascii b) (N_of_ascii c)) as [E2|E2|E2]; try done;
  destruct (N.compare_spec (N_of_ascii a) (N_of_ascii c)) as [E3|E3|E3]; try done; try lia.
  apply IH.
Qed.

Lemma fieldkey_leb_total x y : fieldkey_leb x y = true \/ fieldkey_leb y x = true.
Proof.
  destruct x as [m|s], y as [n|t]; simpl; auto; [|apply name_leb_total].
  destruct (Nat.leb_spec m n); [auto|]. right. apply Nat.leb_le. lia.
Qed.

Lemma fieldkey_leb_trans x y z :
  fieldkey_leb x y = true -> fieldkey_leb y z = true -> fieldkey_leb x z = true.
Proof.
  destruct x as [m|s], y as [n|t], z as [k|u]; simpl; try done; [|apply name_leb_trans].
  rewrite !Nat.leb_le. lia.
Qed.

Lemma fieldkey_leb_antisym x y : fieldkey_leb x y = true -> fieldkey_leb y x = true -> x = y.
Proof.
  destruct x as [m|s], y as [n|t]; simpl; try done.
  - rewrite !Nat.leb_le. intros. f_equal. lia.
  - intros. f_equal. by apply name_leb_antisym.
Qed.

(** The tags two union predicates name: sorted, without repetition. *)
Lemma named_NoDup l : NoDup (dedup (sort_by fieldkey_leb l)).
Proof.
  apply (dedup_NoDup fieldkey_leb); [apply fieldkey_leb_antisym|].
  apply sort_by_sorted; [apply fieldkey_leb_total|apply fieldkey_leb_trans].
Qed.

Lemma elem_of_named x l : x ∈ dedup (sort_by fieldkey_leb l) <-> x ∈ l.
Proof. by rewrite elem_of_dedup, (sort_by_perm fieldkey_leb l). Qed.

(** ** Lookup *)

Section Assoc.
Context {A B : Type} `{EqDecision A}.
Implicit Types (l : list (A * B)).

Lemma assoc_In k v l : assoc k l = Some v -> (k, v) ∈ l.
Proof.
  induction l as [|[k' v'] l IH]; simpl; [done|]. destruct (decide (k = k')) as [->|].
  - intros [= ->]. left.
  - intros H'. right. auto.
Qed.

Lemma assoc_fst k v l : (k, v) ∈ l -> k ∈ map fst l.
Proof. intros Hin. rewrite list_elem_of_In, in_map_iff. exists (k, v). by rewrite <- list_elem_of_In. Qed.

Lemma In_assoc k v l : NoDup (map fst l) -> (k, v) ∈ l -> assoc k l = Some v.
Proof.
  induction l as [|[k' v'] l IH]; simpl; [by rewrite elem_of_nil|].
  intros [Hni Hnd]%NoDup_cons [[= -> ->]|Hin]%elem_of_cons; [by rewrite decide_True|].
  rewrite decide_False; [auto|]. intros ->. apply Hni. by eapply assoc_fst.
Qed.

Lemma assoc_None k l : assoc k l = None <-> k ∉ map fst l.
Proof.
  induction l as [|[k' v'] l IH]; simpl; [split; [intros _; apply not_elem_of_nil|done]|].
  rewrite not_elem_of_cons. destruct (decide (k = k')) as [->|]; naive_solver.
Qed.

Lemma assoc_perm k l l' : NoDup (map fst l) -> l ≡ₚ l' -> assoc k l = assoc k l'.
Proof.
  intros Hnd HP. assert (NoDup (map fst l')) as Hnd' by (by rewrite <- HP).
  destruct (assoc k l) as [v|] eqn:E.
  - symmetry. apply In_assoc; [done|]. rewrite <- HP. by apply assoc_In.
  - symmetry. apply assoc_None in E. apply assoc_None. by rewrite <- HP.
Qed.

Lemma assoc_keys (names : list A) l :
  map fst l = names -> NoDup names -> mapM (fun n => assoc n l) names = Some (map snd l).
Proof.
  intros <- Hnd. apply mapM_Some. revert Hnd.
  assert (forall pre, NoDup (map fst pre ++ map fst l) ->
    Forall2 (fun n v => assoc n (pre ++ l) = Some v) (map fst l) (map snd l)) as Hgen;
    [|apply (Hgen [])].
  induction l as [|[k v] l IH]; intros pre Hnd; [constructor|]. simpl. constructor.
  - apply In_assoc; [by rewrite map_app|]. apply elem_of_app. right. left.
  - specialize (IH (pre ++ [(k, v)])). rewrite <- app_assoc in IH. apply IH.
    rewrite map_app, <- app_assoc. done.
Qed.

Lemma assoc_filter k (f : A * B -> bool) l :
  NoDup (map fst l) ->
  assoc k (List.filter f l)
  = match assoc k l with Some v => if f (k, v) then Some v else None | None => None end.
Proof.
  induction l as [|[k' v'] l IH]; simpl; [done|]. intros [Hni Hnd]%NoDup_cons.
  destruct (f (k', v')) eqn:E; simpl; destruct (decide (k = k')) as [->|]; rewrite ?IH by done; try done.
  - by rewrite E.
  - rewrite E. assert (assoc k' l = None) as ->; [by apply assoc_None|done].
Qed.

Lemma NoDup_filter_fst (f : A * B -> bool) l :
  NoDup (map fst l) -> NoDup (map fst (List.filter f l)).
Proof.
  induction l as [|[k v] l IH]; simpl; [done|]. intros [Hni Hnd]%NoDup_cons.
  destruct (f (k, v)); [|auto]. apply NoDup_cons. split; [|auto].
  intros Hin. apply Hni. apply list_elem_of_In, in_map_iff in Hin as ([k' v'] & E & Hin).
  apply filter_In in Hin as [Hin _]. apply list_elem_of_In, in_map_iff. eauto.
Qed.
End Assoc.

(** [from_arms] on distinct keys. *)
Lemma from_arms_ok {B} (arms : list (FieldKey * B)) :
  NoDup (map fst arms) -> exists l, from_arms arms = Some l /\ l ≡ₚ arms.
Proof.
  intros Hnd. unfold from_arms.
  set (l := sort_by _ arms). assert (l ≡ₚ arms) as HP by apply sort_by_perm.
  exists l. split; [|done]. rewrite <- HP in Hnd. clearbody l. clear HP.
  assert (forallb (fun w => negb (bool_decide (w.1.1 = w.2.1))) (zip l (tail l)) = true) as ->; [|done].
  induction l as [|[k v] l IH]; [done|]. apply NoDup_cons in Hnd as [Hni Hnd].
  destruct l as [|[k' v'] l]; [done|]. cbn [tail zip zip_with forallb fst snd].
  apply andb_true_iff. split; [|by apply IH].
  apply negb_true_iff, bool_decide_eq_false. intros ->. apply Hni. left.
Qed.
