(* ===== verification/PredicateParts.v ===== *)
(** * The parts of the predicate algebra

    What each operation must give over a domain ([Good]), and the lemmas that
    reduce it to smaller domains: union keys tag by tag ([zip_tags]), and
    componentwise predicates, over record fields and over the two halves of a
    qualification alike ([Product]). *)

From Stdlib Require Import List.
From S2P Require Import Prelude Predicate PredicateSem Returns KeyMaps.
Set Warnings "-clear-no-such-hyp".

Section Parts.
Context {K : Type} {KS : KeySets K} {KL : KeySetLaws K KS} {X : Type} {LX : Line X} {OX : Onto X}.
Abbreviation Predicate := (Predicate K).
Abbreviation Value := (Value X).

(** ** The contracts *)

(** A well-formed predicate with a given region. *)
Definition Sem (D : Domain) (f : list Value -> bool) (r : Predicate) : Prop :=
  wf D r /\ forall rp, typed D rp -> den r rp = f rp.

(** An exact answer to whether [a] contains [b]. *)
Definition Sub (D : Domain) (a b : Predicate) (x : bool) : Prop :=
  if x then forall rp, typed D rp -> den b rp = true -> den a rp = true
  else exists rp, typed D rp /\ den b rp = true /\ den a rp = false.

Definition meet_of (a b : Predicate) (rp : list Value) : bool := den a rp && den b rp.
Definition diff_of (a b : Predicate) (rp : list Value) : bool := den a rp && negb (den b rp).
Definition join_of (a b : Predicate) (rp : list Value) : bool := den a rp || den b rp.

Record Good (D : Domain) : Prop := {
  good_intersect a b : wf D a -> wf D b ->
    returns (fun n => intersect n a b) (Sem D (meet_of a b));
  good_minus a b : wf D a -> wf D b ->
    returns (fun n => minus n a b) (Sem D (diff_of a b));
  good_union a b : wf D a -> wf D b ->
    returns (fun n => union_of n a b) (Sem D (join_of a b));
  good_subsumes a b : wf D a -> wf D b ->
    returns (fun n => subsumes n a b) (Sub D a b)
}.

(** One round of each operation. *)
Lemma step_intersect a b P :
  returns (fun n => intersect_with (ops n) a b) P -> returns (fun n => intersect n a b) P.
Proof. by apply returns_step. Qed.

Lemma step_minus a b P :
  returns (fun n => minus_with (ops n) a b) P -> returns (fun n => minus n a b) P.
Proof. by apply returns_step. Qed.

Lemma step_union a b P :
  returns (fun n => union_with (ops n) a b) P -> returns (fun n => union_of n a b) P.
Proof. by apply returns_step. Qed.

Lemma step_subsumes a b P :
  returns (fun n => subsumes_with (ops n) a b) P -> returns (fun n => subsumes n a b) P.
Proof. by apply returns_step. Qed.

Lemma Sem_false D f : D <> [] -> (forall rp, typed D rp -> f rp = false) -> Sem D f PFalse.
Proof. intros HD H. split; [by destruct D|]. intros rp Hrp. by rewrite H. Qed.

Lemma wf_nonempty D p : wf D p -> D <> [].
Proof. destruct D; [by destruct p|done]. Qed.

Lemma not_true p : is_true p = false -> as_bool p <> Some true.
Proof. unfold is_true. by destruct (as_bool p) as [[]|]. Qed.

(** The tests [minus] and [subsumes] make first. *)
Lemma minus_guards D a b :
  wf D a -> wf D b ->
  (is_false b = false -> is_true b = false -> is_false a = false ->
     returns (fun n => minus_cases (ops n) a b) (Sem D (diff_of a b))) ->
  returns (fun n => minus n a b) (Sem D (diff_of a b)).
Proof.
  intros Ha Hb H. apply step_minus. unfold minus_with.
  pose proof (wf_reads _ _ Ha) as Ra. pose proof (wf_reads _ _ Hb) as Rb.
  pose proof (wf_nonempty _ _ Ha) as HD.
  destruct (is_false b) eqn:Fb; [|destruct (is_true b) eqn:Tb; [|destruct (is_false a) eqn:Fa]].
  - apply returns_const. split; [done|]. intros rp Hrp. unfold diff_of.
    rewrite (reads_false _ _ Rb) by done. by rewrite andb_true_r.
  - apply returns_const, Sem_false; [done|]. intros rp Hrp. unfold diff_of.
    rewrite (reads_true _ _ Rb) by done. apply andb_false_r.
  - apply returns_const, Sem_false; [done|]. intros rp Hrp. unfold diff_of.
    by rewrite (reads_false _ _ Ra) by done.
  - by apply H.
Qed.

Lemma subsumes_guards D a b :
  wf D a -> wf D b ->
  (is_false b = false -> is_true a = false ->
     returns (fun n => subsumes_cases (ops n) a b) (Sub D a b)) ->
  returns (fun n => subsumes n a b) (Sub D a b).
Proof.
  intros Ha Hb H. apply step_subsumes. unfold subsumes_with.
  pose proof (wf_reads _ _ Ha) as Ra. pose proof (wf_reads _ _ Hb) as Rb.
  destruct (is_false b) eqn:Fb; [|destruct (is_true a) eqn:Ta].
  - apply returns_const. intros rp Hrp. by rewrite (reads_false _ _ Rb).
  - apply returns_const. intros rp Hrp. by rewrite (reads_true _ _ Ra).
  - by apply H.
Qed.

(** Containment read off a difference. *)
Lemma sub_by_minus D a b :
  returns (fun n => minus n b a) (Sem D (diff_of b a)) ->
  returns (fun n => is_false <$> o_minus (ops n) b a) (Sub D a b).
Proof.
  intros H. eapply returns_fmap; [exact H|]. intros r [Hw Hd].
  pose proof (wf_reads (X := X) _ _ Hw) as Rr. destruct (is_false r) eqn:Fr; simpl.
  - intros rp Hrp Hb. pose proof (reads_false _ _ Rr Fr rp Hrp) as Hf. rewrite Hd in Hf by done.
    unfold diff_of in Hf. rewrite Hb in Hf. by destruct (den a rp).
  - destruct (wf_shows _ _ Hw Fr) as (rp & Hrp & Ht). exists rp. rewrite Hd in Ht by done.
    unfold diff_of in Ht. apply andb_true_iff in Ht as [-> Ht]. by destruct (den a rp).
Qed.

(** ** Scalar keys *)

Lemma intervals_ok t s :
  over t s -> is_or (intervals s) = false /\ wf1 (SBase t) (intervals s) /\
    forall k above, of_base (on_line k) = t -> den (intervals s) (VKey k :: above) = mem s (on_line k).
Proof.
  intros Ho. pose proof (canonical_canon t s Ho) as Hc. unfold intervals.
  destruct (is_empty (canonical s)) eqn:He.
  - split; [done|]. split; [done|]. intros k above Hk. simpl.
    rewrite <- (mem_canonical t s (on_line k)) by done. symmetry. by eapply is_empty_sound.
  - destruct (is_whole (canonical s)) eqn:Hw; (split; [done|]); (split; [done|]);
      intros k above Hk; simpl; rewrite <- (mem_canonical t s (on_line k)) by done; [|done].
    symmetry. by eapply is_whole_sound.
Qed.

Lemma intervals_sem t above s f :
  over t s ->
  (forall k ab, typed (SBase t :: above) (VKey k :: ab) -> of_base (on_line k) = t ->
     f (VKey k :: ab) = mem s (on_line k)) ->
  Sem (SBase t :: above) f (intervals s).
Proof.
  intros Ho Hf. destruct (intervals_ok t s Ho) as (_ & Hw & Hd). split; [by apply wf1_wf|].
  intros rp Hrp. pose proof Hrp as Ht.
  apply Forall2_cons_inv_l in Hrp as ([k| | |] & ab & Hk & _ & ->); try done.
  by rewrite Hd, Hf.
Qed.

(** ** Union keys *)

Lemma den_as_bool D p b rp : wf D p -> as_bool p = Some b -> typed D rp -> den p rp = b.
Proof.
  intros Hwf Hb Ht. apply wf_reads in Hwf. destruct b.
  - eapply reads_true; eauto. by apply is_true_spec.
  - eapply reads_false; eauto. by apply is_false_spec.
Qed.

Lemma tagged_ok arms rest tags r :
  NoDup (map fst tags) -> Forall (fun tp => wf1 (arm_shape arms rest tp.1) tp.2) tags ->
  exists q, tagged tags r = Some q /\ is_or q = false /\ wf1 (SUnion arms rest) q /\
    forall t v, has_shape (arm_shape arms rest t) v ->
      den q [VUnion t v] = den (at_tag tags r t) [v].
Proof.
  intros Hnd Hwf. unfold tagged.
  set (keep := fun '(_, p) => _). set (kept := List.filter keep tags).
  assert (Hk : forall t v, has_shape (arm_shape arms rest t) v ->
    den (at_tag kept r t) [v] = den (at_tag tags r t) [v]).
  { intros t v Hv. unfold at_tag, kept. rewrite assoc_filter by done.
    destruct (assoc t tags) as [p|] eqn:E; [|done]. unfold keep.
    destruct (bool_decide _) eqn:Eb; [|done]. simpl. apply bool_decide_eq_true in Eb.
    apply assoc_In in E. pose proof (proj1 (Forall_forall _ _) Hwf _ E) as Hp. simpl in Hp.
    rewrite (den_as_bool [arm_shape arms rest t] p r); [by destruct r|by apply wf1_wf|done|].
    by repeat constructor. }
  assert (Hkw : Forall (fun tp => wf1 (arm_shape arms rest tp.1) tp.2) kept).
  { apply Forall_forall. intros tp Hin. unfold kept in Hin.
    apply list_elem_of_In, filter_In in Hin as [Hin _]. apply list_elem_of_In in Hin.
    by eapply Forall_forall in Hwf. }
  destruct (decide (kept = [])) as [E|E].
  - rewrite E in *. exists (of_bool r). split; [done|]. split; [by destruct r|].
    split; [by destruct r|]. intros t v Hv. rewrite <- Hk by done. unfold at_tag. by destruct r.
  - destruct (from_arms_ok kept) as (l & Hl & HP); [by apply NoDup_filter_fst|].
    exists (PUnion l r). split; [destruct kept; [done|]; by rewrite Hl|]. split; [done|].
    assert (NoDup (map fst l)) as Hnl by (rewrite HP; by apply NoDup_filter_fst).
    split; [apply wf1_union; split; [done|]; by rewrite HP|].
    intros t v Hv. rewrite den_union, <- Hk by done. unfold at_tag.
    by rewrite (assoc_perm t l kept).
Qed.

(** [f] acts on regions as [g] does on booleans, tag by tag. *)
Lemma zip_tags_ok (f : nat -> Predicate -> Predicate -> option Predicate) (g : bool -> bool -> bool)
    arms rest ps pr qs qr :
  wf1 (SUnion arms rest) (PUnion ps pr) -> wf1 (SUnion arms rest) (PUnion qs qr) ->
  (forall t p q, let D := [arm_shape arms rest t] in wf D p -> wf D q ->
     returns (fun n => f n p q) (Sem D (fun rp => g (den p rp) (den q rp)))) ->
  returns (fun n => f n (of_bool pr) (of_bool qr)) (fun r => as_bool r = Some (g pr qr)) ->
  returns (fun n => zip_tags (ps, pr) (qs, qr) (f n)) (fun r => is_or r = false /\
    Sem [SUnion arms rest] (fun rp => g (den (PUnion ps pr) rp) (den (PUnion qs qr) rp)) r).
Proof.
  intros Hp Hq Hf Hb. unfold zip_tags. cbn [fst snd].
  set (named := dedup _).
  assert (Hnd : NoDup named) by apply named_NoDup.
  eapply (returns_bind _ _ (fun tags => map fst tags = named /\
    Forall (fun tp => wf1 (arm_shape arms rest tp.1) tp.2 /\
      forall v, has_shape (arm_shape arms rest tp.1) v ->
        den tp.2 [v] = g (den (at_tag ps pr tp.1) [v]) (den (at_tag qs qr tp.1) [v])) tags)).
  { eapply returns_impl.
    - apply (returns_mapM _ (fun tag tp => tp.1 = tag /\ wf1 (arm_shape arms rest tag) tp.2 /\
        forall v, has_shape (arm_shape arms rest tag) v ->
          den tp.2 [v] = g (den (at_tag ps pr tag) [v]) (den (at_tag qs qr tag) [v]))).
      apply Forall_forall. intros tag _.
      eapply returns_bind; [apply Hf; apply wf1_wf; by eapply at_tag_wf1|].
      intros r [Hw Hd]. apply returns_const. split; [done|]. split; [by apply wf_wf1|].
      intros v Hv. apply Hd. by repeat constructor.
    - intros tags Ht. clear -Ht. induction Ht as [|t [t' p] named tags (E & Hw & Hd) _ [IH1 IH2]];
        [done|]. simpl in *. subst t'. split; [by f_equal|by constructor]. }
  intros tags [Hfst Ht].
  eapply returns_bind; [exact Hb|]. intros r Hr.
  rewrite Hr. cbn [mbind option_bind].
  destruct (from_arms_ok tags) as (l & Hl & HP); [by rewrite Hfst|]. rewrite Hl. cbn [mbind option_bind].
  assert (NoDup (map fst l)) as Hnl by (rewrite HP; by rewrite Hfst).
  destruct (tagged_ok arms rest l (g pr qr)) as (q & Eq & Ho & Hw & Hd); [done| |].
  { rewrite HP. eapply Forall_impl; [exact Ht|]. naive_solver. }
  rewrite Eq. apply returns_const. split; [done|]. split; [by apply wf1_wf|].
  intros rp Hrp. apply typed_one in Hrp as ([| | |t v] & -> & Hv); try done.
  apply has_shape_union in Hv. rewrite !den_union, Hd by done.
  unfold at_tag at 1. rewrite (assoc_perm t l tags) by done.
  destruct (assoc t tags) as [p|] eqn:E.
  - apply assoc_In in E. pose proof (proj1 (Forall_forall _ _) Ht _ E) as [_ Hp']. by apply Hp'.
  - apply assoc_None in E. rewrite Hfst in E. unfold named in E.
    rewrite elem_of_named, elem_of_app in E. unfold at_tag.
    rewrite (proj2 (assoc_None t ps)), (proj2 (assoc_None t qs)) by tauto.
    by destruct pr, qr, (g _ _).
Qed.
End Parts.
