(* ===== verification/PredicateProducts.v ===== *)
(** * Componentwise predicates

    A record predicate and a qualified predicate are products of regions of
    smaller domains.  [Product] states that once, and the four componentwise
    operations are proved over it: the meet, the join of two products that agree
    on all components but one, the staircase of a difference, containment. *)

From Stdlib Require Import List Btauto.
From S2P Require Import Prelude Predicate PredicateSem Returns KeyMaps PredicateParts.
Set Warnings "-clear-no-such-hyp".

Section Products.
Context {K : Type} {KS : KeySets K} {KL : KeySetLaws K KS} {X : Type} {LX : Line X} {OX : Onto X}.
Abbreviation Predicate := (Predicate K).
Abbreviation Value := (Value X).

(** The predicates a record shape builds. *)
Definition is_rec (p : Predicate) : bool :=
  match p with PFalse | PRecord _ => true | _ => false end.

Lemma is_rec_or p : is_rec p = true -> is_or p = false.
Proof. by destruct p. Qed.

(** The domain [D] as the product of [Ds], along [proj]. *)
Record Product (D : Domain) (shape : Componentwise) (Ds : list Domain)
    (proj : list Value -> list (list Value)) : Prop := {
  pr_typed rp : typed D rp -> Forall2 typed Ds (proj rp);
  pr_onto rps : Forall2 typed Ds rps -> exists rp, typed D rp /\ proj rp = rps;
  pr_build comps : Forall2 wf Ds comps ->
    exists r, build shape comps = Some r /\ arm_ok D r /\
      (shape = CQualified \/ is_rec r = true) /\
      forall rp, typed D rp -> den r rp = den_all comps (proj rp);
  pr_smaller : Forall (fun D' => domain_size D' < domain_size D) Ds
}.

(** Two predicates of [D] read as products of one shape. *)
Record Factors (D : Domain) (a b : Predicate) (shape : Componentwise)
    (first second : list Predicate) (Ds : list Domain) (proj : list Value -> list (list Value)) : Prop := {
  fa_of : componentwise_of a b = Some (Some (shape, first, second));
  fa_product : Product D shape Ds proj;
  fa_first : Forall2 wf Ds first;
  fa_second : Forall2 wf Ds second;
  fa_den_a rp : typed D rp -> den a rp = den_all first (proj rp);
  fa_den_b rp : typed D rp -> den b rp = den_all second (proj rp)
}.

Section Operations.
Context (Ds : list Domain) (HG : Forall Good Ds).

Lemma meet_components f s :
  Forall2 wf Ds f -> Forall2 wf Ds s ->
  returns (fun n => mapM (fun '(p, q) => o_intersect (ops n) p q) (zip f s))
    (fun comps => Forall2 wf Ds comps /\ forall rps, Forall2 typed Ds rps ->
      den_all comps rps = den_all f rps && den_all s rps).
Proof.
  intros Hf. revert s. induction Hf as [|D p Ds' f Hp Hf IH] in HG |- *; intros s Hs;
    inversion Hs as [|? q ? s' Hq Hs']; subst; clear Hs.
  - apply returns_const. split; [constructor|]. by intros rps Hr; inversion Hr.
  - apply Forall_cons in HG as [HD HG']. simpl.
    eapply returns_bind; [apply (good_intersect _ HD); done|]. intros r [Hw Hd].
    eapply returns_bind; [apply (IH HG' s' Hs')|]. intros rs [Hws Hds].
    apply returns_const. split; [by constructor|].
    intros rps Hr. inversion Hr as [|? rp ? rps' Ht Hts]; subst. simpl.
    rewrite Hd, Hds by done. unfold meet_of. btauto.
Qed.

Lemma same_region_ok D p q :
  Good D -> wf D p -> wf D q ->
  returns (fun n => same_region (ops n) p q)
    (fun x : bool => if x then forall rp, typed D rp -> den p rp = den q rp else True).
Proof using Type.
  intros HD Hp Hq. unfold same_region. destruct (pred_eqb p q) eqn:E.
  - apply returns_const. apply pred_eqb_eq in E. by subst.
  - eapply returns_bind; [apply (good_subsumes _ HD); done|]. intros [] Hx; [|by apply returns_const].
    eapply returns_impl; [apply (good_subsumes _ HD); done|]. intros [] Hy; [|done].
    intros rp Hrp. specialize (Hx rp Hrp). specialize (Hy rp Hrp).
    destruct (den p rp), (den q rp); naive_solver.
Qed.

(** What the list of differing positions says. *)
Definition differ_ok (Ds : list Domain) (i : nat) (f s : list Predicate) (d : list nat) : Prop :=
  match d with
  | [] => forall rps, Forall2 typed Ds rps -> den_all f rps = den_all s rps
  | [j] => exists k D p q, j = i + k /\ Ds !! k = Some D /\ f !! k = Some p /\ s !! k = Some q /\
      forall one, Sem D (join_of p q) one ->
        forall rps, Forall2 typed Ds rps ->
          den_all (<[k := one]> f) rps = den_all f rps || den_all s rps
  | _ => True
  end.

Lemma differing_ok f s i :
  Forall2 wf Ds f -> Forall2 wf Ds s ->
  returns (fun n => differing (ops n) i f s) (differ_ok Ds i f s).
Proof.
  intros Hf. revert s i. induction Hf as [|D p Ds' f Hp Hf IH] in HG |- *; intros s i Hs;
    inversion Hs as [|? q ? s' Hq Hs']; subst; clear Hs.
  - apply returns_const. done.
  - apply Forall_cons in HG as [HD HG']. cbn [differing].
    eapply returns_bind; [apply (same_region_ok D); done|]. intros same Hsame.
    eapply returns_bind; [apply (IH HG' s' (S i) Hs')|]. intros d Hd.
    apply returns_const. destruct same.
    + destruct d as [|j [|? ?]]; [| |done].
      * intros rps Hr. inversion Hr; subst. simpl. by rewrite Hsame, Hd.
      * destruct Hd as (k & D' & p' & q' & -> & HD' & Hp' & Hq' & Hd).
        exists (S k), D', p', q'. split; [lia|]. split; [done|]. split; [done|]. split; [done|].
        intros one Hone rps Hr. inversion Hr; subst. simpl.
        rewrite (Hd one), Hsame by done. btauto.
    + destruct d as [|? ?]; [|done].
      exists 0, D, p, q. split; [lia|]. split; [done|]. split; [done|]. split; [done|].
      intros one [Hw Hone] rps Hr. inversion Hr; subst. simpl.
      rewrite Hone, Hd by done. unfold join_of. btauto.
Qed.

(** The region of one step of the staircase. *)
Fixpoint stair_den (i : nat) (f s : list Predicate) (rps : list (list Value)) {struct f} : bool :=
  match f, s, rps with
  | p :: f, q :: s, rp :: rps =>
      match i with
      | O => den p rp && negb (den q rp) && den_all f rps
      | S i => den p rp && den q rp && stair_den i f s rps
      end
  | _, _, _ => true
  end.

Lemma stair_components_ok f s i :
  Forall2 wf Ds f -> Forall2 wf Ds s ->
  returns (fun n => stair_components (ops n) i f s)
    (fun comps => Forall2 wf Ds comps /\ forall rps, Forall2 typed Ds rps ->
      den_all comps rps = stair_den i f s rps).
Proof.
  intros Hf. revert s i. induction Hf as [|D p Ds' f Hp Hf IH] in HG |- *; intros s i Hs;
    inversion Hs as [|? q ? s' Hq Hs']; subst; clear Hs.
  - apply returns_const. split; [constructor|]. by intros rps Hr; inversion Hr.
  - apply Forall_cons in HG as [HD HG']. cbn [stair_components]. destruct i as [|i].
    + eapply returns_bind; [apply (good_minus _ HD); done|]. intros r [Hw Hd].
      apply returns_const. split; [by constructor|].
      intros rps Hr. inversion Hr; subst. simpl. by rewrite Hd.
    + eapply returns_bind; [apply (good_intersect _ HD); done|]. intros r [Hw Hd].
      eapply returns_bind; [apply (IH HG' s' i Hs')|]. intros rs [Hws Hds].
      apply returns_const. split; [by constructor|].
      intros rps Hr. inversion Hr; subst. simpl. rewrite Hd, Hds by done. done.
Qed.

(** The steps cover the difference. *)
Lemma stair_covers f s rps :
  length f = length s -> length f = length rps ->
  den_all f rps && negb (den_all s rps) = existsb (fun i => stair_den i f s rps) (seq 0 (length f)).
Proof using Type.
  revert s rps. induction f as [|p f IH]; intros [|q s] [|rp rps] H1 H2; try done.
  cbn [length seq existsb]. rewrite <- seq_shift.
  assert (forall l, existsb (fun i => stair_den i (p :: f) (q :: s) (rp :: rps)) (map S l)
    = den p rp && den q rp && existsb (fun i => stair_den i f s rps) l) as Hm.
  { induction l as [|j l IHl]; cbn [map existsb]; [btauto|]. rewrite IHl.
    cbn [stair_den]. btauto. }
  rewrite Hm, <- IH by (simpl in *; lia). cbn [den_all stair_den]. btauto.
Qed.

Lemma contains_components f s :
  Forall2 wf Ds f -> Forall2 wf Ds s ->
  (exists rps, Forall2 typed Ds rps /\ den_all s rps = true) ->
  returns (fun n => cw_contains (ops n) f s)
    (fun x : bool =>
      if x then forall rps, Forall2 typed Ds rps -> den_all s rps = true -> den_all f rps = true
      else exists rps, Forall2 typed Ds rps /\ den_all s rps = true /\ den_all f rps = false).
Proof.
  unfold cw_contains. intros Hf. revert s.
  induction Hf as [|D p Ds' f Hp Hf IH] in HG |- *; intros s Hs (rps & Hr & Hd);
    inversion Hs as [|? q ? s' Hq Hs']; subst; clear Hs.
  - apply returns_const. by intros rps' Hr'; inversion Hr'.
  - apply Forall_cons in HG as [HD HG']. inversion Hr as [|? rp ? rps' Ht Hts]; subst.
    simpl in Hd. apply andb_true_iff in Hd as [Hd1 Hd2]. cbn [zip zip_with allM].
    eapply returns_bind; [apply (good_subsumes _ HD); done|]. intros [] Hx.
    + eapply returns_impl; [apply (IH HG' s' Hs'); eauto|]. intros [] Hy.
      * intros rps Hrps Hden. inversion Hrps; subst. simpl in *.
        apply andb_true_iff in Hden as [? ?]. rewrite Hx, Hy by done. done.
      * destruct Hy as (rps & Hrps & Hy1 & Hy2). exists (rp :: rps).
        split; [by constructor|]. simpl. rewrite Hd1, Hy1, Hy2. split; [done|]. apply andb_false_r.
    + destruct Hx as (rp' & Hrp' & Hx1 & Hx2). apply returns_const.
      exists (rp' :: rps'). split; [by constructor|]. simpl. by rewrite Hx1, Hx2, Hd2.
Qed.
End Operations.

Lemma den_all_false Ds comps rps :
  Forall2 wf Ds comps -> existsb is_false comps = true -> Forall2 typed Ds rps ->
  den_all comps rps = false.
Proof.
  intros Hw. revert rps. induction Hw as [|D p Ds comps Hp _ IH]; intros rps He Hr; [done|].
  inversion Hr; subst. simpl in *. apply orb_true_iff in He as [He|He].
  - by rewrite (reads_false _ _ (wf_reads _ _ Hp) He).
  - rewrite IH by done. apply andb_false_r.
Qed.

(** ** Records as products of their fields *)

Definition record_proj (rp : list Value) : list (list Value) :=
  match rp with VRecord vs :: _ => map (fun nv => [nv.2]) vs | _ => [] end.

Definition record_domains (fs : list (string * Shape)) : list Domain :=
  map (fun ns => [ns.2]) fs.

Lemma record_smaller fs :
  Forall (fun D' => domain_size D' < domain_size [SRecord fs]) (record_domains fs).
Proof.
  unfold record_domains, domain_size. apply Forall_forall. intros D' HD'.
  apply list_elem_of_In, in_map_iff in HD' as ([n s] & <- & Hin). simpl. rewrite !Nat.add_0_r.
  apply Nat.lt_succ_r. revert Hin. clear. induction fs as [|[n' s'] fs IH]; simpl; [done|].
  intros [[= -> ->]|Hin]; [lia|]. specialize (IH Hin). lia.
Qed.

Lemma record_comps_wf fs m :
  schema (map fst fs) -> map fst m = map fst fs ->
  Forall2 wf (record_domains fs) (map snd m) <-> wf1 (SRecord fs) (PRecord m).
Proof.
  intros Hs Hn. rewrite wf1_record. unfold record_domains.
  transitivity (Forall2 (fun np ns => np.1 = ns.1 /\ wf1 ns.2 np.2) m fs); [|naive_solver].
  clear Hs. revert fs Hn. induction m as [|[n p] m IH]; intros [|[n' s] fs] Hn; simplify_eq/=.
  - split; constructor.
  - rewrite !Forall2_cons, IH by done. simpl.
    split; intros [H1 H2]; (split; [|done]).
    + split; [done|]. by apply wf_wf1.
    + apply wf1_wf. by destruct H1.
Qed.

Lemma record_build fs comps :
  schema (map fst fs) -> Forall2 wf (record_domains fs) comps ->
  exists r, build (CRecord (map fst fs)) comps = Some r /\ is_rec r = true /\
    wf1 (SRecord fs) r /\
    forall rp, typed [SRecord fs] rp -> den r rp = den_all comps (record_proj rp).
Proof.
  intros Hs Hw. unfold build.
  assert (Hlen : length comps = length fs).
  { apply Forall2_length in Hw. unfold record_domains in Hw. rewrite length_map in Hw. done. }
  assert (Htr : forall rp, typed [SRecord fs] rp -> exists vs, rp = [VRecord vs] /\
    has_shape (SRecord fs) (VRecord vs) /\ Forall2 typed (record_domains fs) (record_proj rp)).
  { intros rp Hrp. apply typed_one in Hrp as ([| |vs|] & -> & Hv); try done.
    exists vs. split; [done|]. split; [done|]. apply has_shape_record in Hv.
    unfold record_domains. simpl. apply Forall2_fmap_2. eapply Forall2_impl; [exact Hv|].
    intros ? ? [_ ?]. by repeat constructor. }
  destruct (existsb is_false comps) eqn:He.
  - exists PFalse. split; [done|]. split; [done|]. split; [done|]. intros rp Hrp.
    destruct (Htr rp Hrp) as (vs & _ & _ & Ht). symmetry. by eapply den_all_false.
  - assert (Hm : map fst (zip (map fst fs) comps) = map fst fs
      /\ map snd (zip (map fst fs) comps) = comps).
    { split; [apply fst_zip|apply snd_zip]; rewrite length_map; lia. }
    destruct Hm as [Hm1 Hm2].
    assert (Hwf : wf1 (SRecord fs) (PRecord (zip (map fst fs) comps))).
    { apply record_comps_wf; [done|done|by rewrite Hm2]. }
    eexists. split; [done|]. split; [done|]. split; [done|].
    intros rp Hrp. destruct (Htr rp Hrp) as (vs & -> & Hv & _).
    rewrite (den_record fs) by done. by rewrite Hm2.
Qed.

Lemma record_product fs :
  schema (map fst fs) ->
  Product [SRecord fs] (CRecord (map fst fs)) (record_domains fs) record_proj.
Proof.
  intros Hs. split.
  - intros rp Hrp. apply typed_one in Hrp as ([| |vs|] & -> & Hv); try done.
    apply has_shape_record in Hv. unfold record_domains. simpl. apply Forall2_fmap_2.
    eapply Forall2_impl; [exact Hv|]. intros ? ? [_ ?]. by repeat constructor.
  - intros rps Hr.
    assert (exists vs, Forall2 (fun ns nv => ns.1 = nv.1 /\ has_shape ns.2 nv.2) fs vs /\
      map (fun nv => [nv.2]) vs = rps) as (vs & Hvs & <-).
    { clear Hs. unfold record_domains in Hr.
      remember (map (fun ns => [ns.2]) fs) as Ds eqn:E. revert fs E.
      induction Hr as [|D rp Ds rps Ht _ IH]; intros [|[n s] fs] E; try done.
      - exists []. split; [constructor|done].
      - simplify_eq/=. destruct (IH fs eq_refl) as (vs & Hvs & <-).
        apply typed_one in Ht as (v & -> & Hv). exists ((n, v) :: vs). split; [by constructor|done]. }
    exists [VRecord vs]. split; [|done]. repeat constructor. by apply has_shape_record.
  - intros comps Hw. destruct (record_build fs comps Hs Hw) as (r & E & Ho & Hwf & Hd).
    exists r. split; [done|]. split; [unfold arm_ok; rewrite (is_rec_or _ Ho); by apply wf1_wf|].
    split; [by right|done].
  - apply record_smaller.
Qed.

Lemma wf1_record_names fs m : wf1 (SRecord fs) (PRecord m) -> map fst m = map fst fs.
Proof.
  rewrite wf1_record. intros [_ H]. induction H as [|[n p] [n' s] m fs [E _] _ IH]; [done|].
  simpl in *. by rewrite E, IH.
Qed.

Lemma record_den fs m rp :
  wf1 (SRecord fs) (PRecord m) -> typed [SRecord fs] rp ->
  den (PRecord m) rp = den_all (map snd m) (record_proj rp).
Proof.
  intros Hw Hrp. apply typed_one in Hrp as ([| |vs|] & -> & Hv); try done. by eapply den_record.
Qed.

Lemma record_factors fs m1 m2 :
  wf1 (SRecord fs) (PRecord m1) -> wf1 (SRecord fs) (PRecord m2) ->
  Factors [SRecord fs] (PRecord m1) (PRecord m2) (CRecord (map fst fs)) (map snd m1) (map snd m2)
    (record_domains fs) record_proj.
Proof.
  intros H1 H2. pose proof (wf1_record_names _ _ H1) as N1. pose proof (wf1_record_names _ _ H2) as N2.
  pose proof (proj1 (proj1 (wf1_record _ _) H1)) as Hs. destruct Hs as [Hnd Hsort] eqn:E; clear E.
  split.
  - cbn [componentwise_of].
    assert ((length m1 =? length m2) = true) as ->.
    { apply Nat.eqb_eq. rewrite <- (length_map fst m1), <- (length_map fst m2). congruence. }
    assert (forallb (fun kp => bool_decide (is_Some (assoc kp.1 m1))) m2 = true) as ->.
    { apply forallb_true_iff, Forall_forall. intros [k p] Hin. simpl. apply bool_decide_eq_true.
      destruct (assoc k m1) eqn:Ea; [eauto|]. apply assoc_None in Ea. destruct Ea.
      rewrite N1, <- N2. by eapply assoc_fst. }
    simpl. rewrite N1, Hsort, (assoc_keys (map fst fs) m1), (assoc_keys (map fst fs) m2) by done. done.
  - by apply record_product.
  - by apply record_comps_wf.
  - by apply record_comps_wf.
  - intros. by eapply record_den.
  - intros. by eapply record_den.
Qed.

(** ** Qualified predicates as products of the path above and the key *)

Definition qualified_proj (rp : list Value) : list (list Value) :=
  match rp with k :: above => [above; [k]] | [] => [] end.

Lemma qualified_build sh above e h :
  above <> [] -> wf above e -> wf [sh] h ->
  arm_ok (sh :: above) (qualified e h) /\
  forall rp, typed (sh :: above) rp -> den (qualified e h) rp = den_all [e; h] (qualified_proj rp).
Proof.
  intros Ha He Hh. unfold qualified. pose proof (wf_reads _ _ He) as Re. pose proof (wf_reads _ _ Hh) as Rh.
  assert (Ht : forall rp, typed (sh :: above) rp -> exists k ab, rp = k :: ab /\ typed above ab /\ typed [sh] [k]).
  { intros rp Hrp. apply Forall2_cons_inv_l in Hrp as (k & ab & Hk & Hab & ->). exists k, ab.
    split; [done|]. split; [done|]. by repeat constructor. }
  destruct (is_false e) eqn:Fe; [|destruct (is_false h) eqn:Fh]; cbn [orb].
  - split; [done|]. intros rp Hrp. destruct (Ht rp Hrp) as (k & ab & -> & Hab & Hk). simpl.
    by rewrite (reads_false _ _ Re).
  - split; [done|]. intros rp Hrp. destruct (Ht rp Hrp) as (k & ab & -> & Hab & Hk). simpl.
    rewrite (reads_false _ _ Rh) by done. by rewrite andb_false_r.
  - apply wf_wf1 in Hh. destruct (is_true e) eqn:Te.
    + split.
      * unfold arm_ok. destruct (is_or h) eqn:Oh; [done|]. by apply wf1_wf.
      * intros rp Hrp. destruct (Ht rp Hrp) as (k & ab & -> & Hab & Hk).
        rewrite (den_head sh) by done. simpl. rewrite (reads_true _ _ Re) by done. btauto.
    + split; [done|]. intros rp Hrp. destruct (Ht rp Hrp) as (k & ab & -> & Hab & Hk). simpl. btauto.
Qed.

Lemma qualified_product sh above :
  above <> [] -> Product (sh :: above) CQualified [above; [sh]] qualified_proj.
Proof.
  intros Ha. split.
  - intros rp Hrp. apply Forall2_cons_inv_l in Hrp as (k & ab & Hk & Hab & ->). by repeat constructor.
  - intros rps Hr. inversion Hr as [|? ab ? l Hab Hl]; subst. inversion Hl as [|? rp ? l' Hrp Hl']; subst.
    inversion Hl'; subst. apply typed_one in Hrp as (k & -> & Hk).
    exists (k :: ab). split; [by constructor|done].
  - intros comps Hw. inversion Hw as [|? e ? l He Hl]; subst. inversion Hl as [|? h ? l' Hh Hl']; subst.
    inversion Hl'; subst. unfold build.
    destruct (qualified_build sh above e h) as [Ho Hd]; [done..|].
    destruct (existsb is_false [e; h]) eqn:E.
    + exists PFalse. split; [done|]. split; [done|]. split; [by left|].
      intros rp Hrp. rewrite <- Hd by done. unfold qualified.
      cbn [existsb] in E. rewrite orb_false_r in E. by rewrite E.
    + eexists. split; [done|]. split; [done|]. split; [by left|done].
  - unfold domain_size. simpl. repeat constructor.
    + assert (0 < shape_size sh) by (destruct sh; simpl; lia). lia.
    + destruct above as [|s above]; [done|]. simpl.
      assert (0 < shape_size s) by (destruct s; simpl; lia). lia.
Qed.

Definition is_qualified (p : Predicate) : bool := match p with PQualified _ _ => true | _ => false end.

Lemma arm_wf1 sh above a : arm_ok (sh :: above) a -> is_qualified a = false -> wf1 sh a.
Proof.
  unfold arm_ok. destruct (is_or a) eqn:E; [by intros [_ ?]|]. by destruct a.
Qed.

Lemma split_wf sh above a :
  above <> [] -> arm_ok (sh :: above) a ->
  Forall2 wf [above; [sh]] [(split_qualification a).1; (split_qualification a).2] /\
  forall rp, typed (sh :: above) rp ->
    den a rp = den_all [(split_qualification a).1; (split_qualification a).2] (qualified_proj rp).
Proof.
  intros Ha Hok. destruct (is_qualified a) eqn:Eq.
  - destruct a as [| | | | | |e h]; try done. cbn [split_qualification fst snd].
    destruct Hok as (He & Hh & _). split; [repeat constructor; [done|by apply wf1_wf]|].
    intros rp Hrp. destruct (typed_cons _ _ _ Hrp) as (k & ab & ->). simpl. btauto.
  - pose proof (arm_wf1 _ _ _ Hok Eq) as Hw.
    assert (split_qualification a = (PTrue, a)) as -> by (by destruct a). cbn [fst snd].
    split; [repeat constructor; [by destruct above|by apply wf1_wf]|].
    intros rp Hrp. destruct (typed_cons _ _ _ Hrp) as (k & ab & ->).
    rewrite (den_head sh) by done. cbn [den_all qualified_proj den]. btauto.
Qed.

Lemma qualified_factors sh above a b :
  above <> [] -> arm_ok (sh :: above) a -> arm_ok (sh :: above) b ->
  is_qualified a || is_qualified b = true ->
  Factors (sh :: above) a b CQualified
    [(split_qualification a).1; (split_qualification a).2]
    [(split_qualification b).1; (split_qualification b).2] [above; [sh]] qualified_proj.
Proof.
  intros Ha Hoa Hob Hq.
  destruct (split_wf sh above a Ha Hoa) as [Wa Da]. destruct (split_wf sh above b Ha Hob) as [Wb Db].
  split; try done; [|by apply qualified_product].
  destruct a, b; try done.
Qed.

(** ** The operations over two factored predicates *)

Section Factored.
Context (D : Domain) (a b : Predicate) (shape : Componentwise) (first second : list Predicate)
  (Ds : list Domain) (proj : list Value -> list (list Value)).
Context (HF : Factors D a b shape first second Ds proj) (HG : Forall Good Ds).

(** An arm with a given region, in the class [build] makes. *)
Definition built (f : list Value -> bool) (r : Predicate) : Prop :=
  arm_ok D r /\ (shape = CQualified \/ is_rec r = true) /\
  forall rp, typed D rp -> den r rp = f rp.

Lemma build_returns comps f :
  Forall2 wf Ds comps ->
  (forall rp, typed D rp -> den_all comps (proj rp) = f rp) ->
  exists r, build shape comps = Some r /\ built f r.
Proof.
  intros Hw Hf. destruct (pr_build _ _ _ _ (fa_product _ _ _ _ _ _ _ _ HF) comps Hw)
    as (r & E & Ho & Hs & Hd).
  exists r. split; [done|]. split; [done|]. split; [done|]. intros rp Hrp. by rewrite Hd, Hf.
Qed.

Lemma cw_meet_ok : returns (fun n => cw_meet (ops n) shape first second) (built (meet_of a b)).
Proof.
  unfold cw_meet. destruct HF as [_ HP Hf Hs Da Db].
  eapply returns_bind; [by apply (meet_components Ds)|]. intros comps [Hw Hd].
  destruct (build_returns comps (meet_of a b)) as (r & E & Hr); [done| |].
  { intros rp Hrp. unfold meet_of. rewrite Hd, Da, Db by (try done; by eapply pr_typed). done. }
  rewrite E. by apply returns_const.
Qed.

Lemma cw_join_ok : returns (fun n => cw_join (ops n) shape first second)
  (fun j => match j with Some r => built (join_of a b) r | None => True end).
Proof.
  unfold cw_join. pose proof HF as [_ HP Hf Hs Da Db].
  eapply returns_bind; [by apply (differing_ok Ds)|]. intros d Hd.
  destruct d as [|i [|? ?]]; [| |by apply returns_const].
  - destruct (build_returns first (join_of a b)) as (r & E & Hr); [done| |].
    { intros rp Hrp. unfold join_of. rewrite Da, Db by done.
      rewrite <- (Hd (proj rp)) by (by eapply pr_typed). btauto. }
    rewrite E. by apply returns_const.
  - destruct Hd as (k & D' & p & q & -> & HD' & Hp & Hq & Hd). simpl. rewrite Hp, Hq. simpl.
    pose proof (Forall_lookup_1 _ _ _ _ HG HD') as HG'.
    eapply returns_bind; [apply (good_union _ HG')|].
    + by eapply (Forall2_lookup_lr _ _ _ _ _ _ Hf).
    + by eapply (Forall2_lookup_lr _ _ _ _ _ _ Hs).
    + intros one Hone.
      destruct (build_returns (<[k := one]> first) (join_of a b)) as (r & E & Hr).
      * rewrite <- (list_insert_id Ds k D') by done.
        apply Forall2_insert; [done|]. by destruct Hone.
      * intros rp Hrp. unfold join_of. rewrite (Hd one Hone), Da, Db by (try done; by eapply pr_typed).
        done.
      * rewrite E. by apply returns_const.
Qed.

Lemma cw_contains_ok :
  wf D b -> is_false b = false ->
  returns (fun n => cw_contains (ops n) first second) (Sub D a b).
Proof.
  intros Hwb Hfb. pose proof HF as [_ HP Hf Hs Da Db].
  eapply returns_impl; [apply (contains_components Ds HG first second Hf Hs)|].
  - destruct (wf_shows _ _ Hwb Hfb) as (rp & Hrp & Hd).
    exists (proj rp). split; [by eapply pr_typed|]. by rewrite <- Db.
  - intros [] Hx; simpl.
    + intros rp Hrp. rewrite Da, Db by done. apply Hx. by eapply pr_typed.
    + destruct Hx as (rps & Hr & H1 & H2). destruct (pr_onto _ _ _ _ HP rps Hr) as (rp & Hrp & <-).
      exists rp. rewrite Da, Db by done. done.
Qed.

(** The steps of the staircase that are left. *)
Lemma stairs_ok :
  returns (fun n => mapM (stair (ops n) shape first second) (seq 0 (length first)))
    (fun steps => exists kept, kept = List.filter (fun s => negb (is_false s)) steps /\
      Forall (fun s => arm_ok D s /\ (shape = CQualified \/ is_rec s = true)) kept /\
      forall rp, typed D rp -> existsb (fun s => den s rp) kept = diff_of a b rp).
Proof.
  pose proof HF as [_ HP Hf Hs Da Db].
  eapply returns_impl.
  - apply (returns_mapM _ (fun i => built (fun rp => stair_den i first second (proj rp)))).
    apply Forall_forall. intros i _. unfold stair.
    eapply returns_bind; [by apply (stair_components_ok Ds)|]. intros comps [Hw Hd].
    destruct (build_returns comps (fun rp => stair_den i first second (proj rp))) as (r & E & Hr);
      [done| |].
    { intros rp Hrp. apply Hd. by eapply pr_typed. }
    rewrite E. by apply returns_const.
  - intros steps Hsteps. eexists. split; [done|]. split.
    + apply Forall_forall. intros s [Hin _]%list_elem_of_In%filter_In.
      apply list_elem_of_In, list_elem_of_lookup in Hin as [i Hi].
      destruct (Forall2_lookup_r _ _ _ _ _ Hsteps Hi) as (j & _ & Hb & Ho & _). done.
    + intros rp Hrp. unfold diff_of. rewrite Da, Db by done.
      assert (length first = length second /\ length first = length (proj rp)) as [L1 L2].
      { rewrite <- (Forall2_length _ _ _ Hf), (Forall2_length _ _ _ Hs).
        split; [done|]. rewrite <- (Forall2_length _ _ _ Hs).
        apply (Forall2_length _ _ _ (pr_typed _ _ _ _ HP rp Hrp)). }
      rewrite (stair_covers first second (proj rp)) by done.
      clear L1 L2. induction Hsteps as [|i s idx steps (Ho & _ & Hd) _ IH]; [done|]. simpl.
      rewrite <- (Hd rp Hrp), <- IH. destruct (is_false s) eqn:Fs; simpl; [|done].
      by rewrite (reads_false _ _ (wf_reads _ _ (arm_ok_wf _ _ Ho)) Fs).
Qed.

Lemma cw_minus_ok :
  (forall kept, kept <> [] ->
     Forall (fun s => arm_ok D s /\ (shape = CQualified \/ is_rec s = true)) kept ->
     returns (fun n => flatten_or (ops n) kept) (Sem D (fun rp => existsb (fun s => den s rp) kept))) ->
  D <> [] ->
  returns (fun n => cw_minus (ops n) shape first second) (Sem D (diff_of a b)).
Proof.
  intros Hfl HD. unfold cw_minus. eapply returns_bind; [apply stairs_ok|].
  intros steps (kept & Ek & Hk & Hd). rewrite <- Ek. destruct kept as [|s kept].
  - apply returns_const, Sem_false; [done|]. intros rp Hrp. by rewrite <- Hd.
  - eapply returns_impl; [by apply Hfl|]. intros r [Hw Hr]. split; [done|].
    intros rp Hrp. by rewrite Hr, Hd.
Qed.
End Factored.
End Products.

(** * Unions of arms: [flatten_or]

    [flatten_or] joins arms until no two join and then drops the arms another
    covers.  Over any class of arms that [subsumes] decides and [join] stays in,
    it returns a union of the same region, with at least one arm left. *)

(** ** Dropping covered elements

    The rule of [flatten_or], over any list whose elements a reflexive and
    transitive test compares: an element is dropped when another covers it,
    unless the two cover each other and it comes first. *)
Section Reduce.
Context {A : Type} (sub : A -> A -> bool) (l : list A).

Definition covers (i j : nat) (x y : A) : bool :=
  negb (bool_decide (j = i)) && (sub y x && ((j <? i) || negb (sub x y))).

Definition dropped (i : nat) (x : A) : bool :=
  existsb (fun '(j, y) => covers i j x y) (imap pair l).

Definition reduced : list A :=
  omap (fun '(p, d) => if (d : bool) then None else Some p)
    (zip l (map (fun '(i, x) => dropped i x) (imap pair l))).

Context (sub_trans : forall x y z, x ∈ l -> y ∈ l -> z ∈ l ->
  sub x y = true -> sub y z = true -> sub x z = true).

Lemma elem_of_imap_pair (i : nat) (x : A) : (i, x) ∈ imap pair l <-> l !! i = Some x.
Proof using Type.
  rewrite elem_of_lookup_imap. split; [intros (j & y & [= -> ->] & H); done|eauto].
Qed.

Lemma elem_of_reduced x i : l !! i = Some x -> dropped i x = false -> x ∈ reduced.
Proof using Type.
  intros Hi Hd. unfold reduced. apply list_elem_of_omap. exists (x, false). split; [|done].
  apply list_elem_of_lookup. exists i. apply lookup_zip_with_Some. exists x, false.
  split; [done|]. split; [done|]. rewrite list_lookup_fmap, list_lookup_imap, Hi. simpl.
  by rewrite Hd.
Qed.

Lemma reduced_sub x : x ∈ reduced -> x ∈ l.
Proof using Type.
  unfold reduced. intros ([p d] & Hin & E)%list_elem_of_omap. destruct d; [done|]. simplify_eq.
  apply elem_of_zip_l in Hin. done.
Qed.

Lemma covers_spec i j x y :
  covers i j x y = true <-> j <> i /\ sub y x = true /\ (j < i \/ sub x y = false).
Proof using Type.
  unfold covers. rewrite !andb_true_iff, orb_true_iff, !negb_true_iff, bool_decide_eq_false,
    Nat.ltb_lt. done.
Qed.

Lemma covers_trans i j k x y z :
  l !! i = Some x -> l !! j = Some y -> l !! k = Some z ->
  covers i j x y = true -> covers j k y z = true -> covers i k x z = true.
Proof using sub_trans.
  rewrite !covers_spec. intros Hi Hj Hk (N1 & S1 & C1) (N2 & S2 & C2).
  pose proof (list_elem_of_lookup_2 _ _ _ Hi) as Hx.
  pose proof (list_elem_of_lookup_2 _ _ _ Hj) as Hy.
  pose proof (list_elem_of_lookup_2 _ _ _ Hk) as Hz.
  assert (sub z x = true) as Hzx by eauto.
  destruct (sub x z) eqn:Exz.
  - assert (sub x y = true) as Exy by eauto. assert (sub y z = true) as Eyz by eauto.
    destruct C1 as [C1|C1]; [|congruence]. destruct C2 as [C2|C2]; [|congruence].
    split; [lia|]. split; [done|]. left. lia.
  - split; [|by auto]. intros ->. simplify_eq. assert (sub x x = true) by eauto. congruence.
Qed.

Definition coverers (i : nat) (x : A) : nat :=
  length (List.filter (fun '(j, y) => covers i j x y) (imap pair l)).

(** Every element is kept or covered by one that is kept. *)
Lemma reduced_reaches i x :
  l !! i = Some x -> exists z, z ∈ reduced /\ (z = x \/ sub z x = true).
Proof using sub_trans.
  remember (coverers i x) as m eqn:Em. revert i x Em.
  induction (lt_wf m) as [m _ IH]. intros i x -> Hi.
  destruct (dropped i x) eqn:Ed; [|exists x; split; [apply (elem_of_reduced x i); [exact Hi|exact Ed]|by left]].
  unfold dropped in Ed. apply existsb_true_iff in Ed as ([j y] & Hin & Hc).
  apply elem_of_imap_pair in Hin as Hj.
  destruct (IH (coverers j y)) with (i := j) (x := y) as (z & Hz & Hzy); [|done|done|].
  - unfold coverers at 1. rewrite <- countb_filter. eapply countb_lt; [|exact Hin| |exact Hc].
    + intros [k z] Hk%elem_of_imap_pair Hcz. by apply (covers_trans i j k x y z).
    + apply not_true_iff_false. rewrite covers_spec. naive_solver.
  - exists z. split; [done|]. right. apply covers_spec in Hc as (_ & Hyx & _).
    destruct Hzy as [->|Hzy]; [done|].
    eapply sub_trans; [..|exact Hzy|exact Hyx].
    + by apply reduced_sub.
    + by eapply list_elem_of_lookup_2.
    + by eapply list_elem_of_lookup_2.
Qed.
End Reduce.

(** ** [flatten_or] *)

Section Flatten.
Context {K : Type} {KS : KeySets K} {KL : KeySetLaws K KS} {X : Type} {LX : Line X} {OX : Onto X}.
Abbreviation Predicate := (Predicate K).
Abbreviation Value := (Value X).

Context (D : Domain) (A : Predicate -> Prop).
Context (A_ok : forall a, A a -> arm_ok D a).
Context (A_sub : forall a b, A a -> A b -> returns (fun n => subsumes n a b) (Sub D a b)).
Context (A_join : forall a b, A a -> A b ->
  returns (fun n => join (ops n) a b) (fun j => match j with
    | Some r => A r /\ forall rp, typed D rp -> den r rp = den a rp || den b rp
    | None => True
    end)).

Definition any_den (l : list Predicate) (rp : list Value) : bool := existsb (fun a => den a rp) l.

Lemma join_with_any_ok arm base_ l :
  A arm -> Forall A l ->
  returns (fun n => join_with_any (ops n) arm base_ l) (fun m => match m with
    | Some (at_, merged) => exists k other, at_ = base_ + k /\ l !! k = Some other /\ A merged /\
        forall rp, typed D rp -> den merged rp = den arm rp || den other rp
    | None => True
    end).
Proof using A_join.
  intros Ha Hl. revert base_. induction Hl as [|other l Ho _ IH]; intros base_; [by apply returns_const|].
  cbn [join_with_any]. eapply returns_bind; [apply A_join; done|]. intros [r|] Hr.
  - apply returns_const. exists 0, other. split; [lia|]. naive_solver.
  - eapply returns_impl; [apply IH|]. intros [[at_ merged]|]; [|done].
    intros (k & o & -> & Hk & Hm). exists (S k), o. split; [lia|]. done.
Qed.

#[local] Instance any_den_perm : Proper ((≡ₚ) ==> eq ==> eq) any_den.
Proof using Type.
  intros l l' HP rp ? <-. unfold any_den. induction HP; simpl; try congruence. btauto.
Qed.

Lemma any_den_delete (l : list Predicate) k other rp :
  l !! k = Some other -> any_den l rp = den other rp || any_den (delete k l) rp.
Proof using Type.
  intros H. rewrite (delete_Permutation l k other) at 1 by done. done.
Qed.

Lemma join_loop_ok rounds arm joined slot :
  length joined <= rounds -> A arm -> Forall A joined ->
  returns (fun n => join_loop (ops n) rounds arm joined slot) (fun l => Forall A l /\ l <> [] /\
    forall rp, typed D rp -> any_den l rp = den arm rp || any_den joined rp).
Proof using A_join.
  revert arm joined slot. induction rounds as [|rounds IH]; intros arm joined slot Hle Ha Hj;
    cbn [join_loop]; (eapply returns_bind; [apply (join_with_any_ok arm 0 joined); done|]);
    intros [[at_ merged]|] Hm.
  - destruct Hm as (k & other & -> & Hk & _). destruct joined; [done|simpl in Hle; lia].
  - apply returns_const. destruct joined; [|simpl in Hle; lia].
    rewrite take_nil, drop_nil. split; [by constructor|]. split; [done|]. by intros.
  - destruct Hm as (k & other & -> & Hk & Hm & Hd). simpl.
    eapply returns_impl; [apply IH|].
    + rewrite length_delete by eauto. apply lookup_lt_Some in Hk. lia.
    + done.
    + by apply Forall_delete.
    + intros l (Hl & Hn & Hden). split; [done|]. split; [done|]. intros rp Hrp.
      rewrite Hden, Hd, (any_den_delete joined k other) by done. btauto.
  - apply returns_const. set (s := Nat.min _ _).
    assert (take s joined ++ arm :: drop s joined ≡ₚ arm :: joined) as HP.
    { rewrite <- Permutation_middle. by rewrite take_drop. }
    split; [rewrite HP; by constructor|]. split; [by destruct (take s joined)|].
    intros rp _. by rewrite HP.
Qed.

Lemma join_arms_ok flat joined :
  Forall A flat -> Forall A joined ->
  returns (fun n => join_arms (ops n) flat joined) (fun l => Forall A l /\
    (flat <> [] \/ joined <> [] -> l <> []) /\
    forall rp, typed D rp -> any_den l rp = any_den flat rp || any_den joined rp).
Proof using A_join.
  intros Hf. revert joined. induction Hf as [|arm flat Ha _ IH]; intros joined Hj.
  - apply returns_const. split; [done|]. split; [by intros []|]. done.
  - cbn [join_arms]. eapply returns_bind; [by apply join_loop_ok|]. intros l (Hl & Hn & Hd).
    eapply returns_impl; [apply IH; done|]. intros r (Hr & Hrn & Hrd).
    split; [done|]. split; [auto|]. intros rp Hrp. rewrite Hrd, Hd by done. simpl. btauto.
Qed.

(** Enough fuel for every pair of a list. *)
Lemma sub_table l :
  Forall A l -> exists N sub, (forall a b, a ∈ l -> b ∈ l -> Sub D a b (sub a b)) /\
    forall n a b, N <= n -> a ∈ l -> b ∈ l -> o_subsumes (ops n) a b = Some (sub a b).
Proof using A_sub.
  intros Hl.
  assert (forall xs : list (Predicate * Predicate), (forall ab, ab ∈ xs -> A ab.1 /\ A ab.2) ->
    exists N, forall ab, ab ∈ xs -> exists x, Sub D ab.1 ab.2 x /\
      forall n, N <= n -> subsumes n ab.1 ab.2 = Some x) as Hgen.
  { induction xs as [|ab xs IH]; intros Hxs; [exists 0; intros ab Hin; by apply elem_of_nil in Hin|].
    destruct IH as [N HN]; [intros ab' Hin; apply Hxs; by right|].
    destruct (Hxs ab) as [H1 H2]; [by left|].
    destruct (A_sub _ _ H1 H2) as (M & x & Hx & HM). exists (Nat.max N M).
    intros ab' [->|Hin]%elem_of_cons.
    - exists x. split; [done|]. intros n Hn. apply HM. lia.
    - destruct (HN ab' Hin) as (y & Hy & Hny). exists y. split; [done|]. intros n Hn. apply Hny. lia. }
  destruct (Hgen (list_prod l l)) as [N HN].
  { intros [a b] Hin. apply list_elem_of_In, in_prod_iff in Hin as [H1 H2].
    apply list_elem_of_In in H1, H2. rewrite Forall_forall in Hl. simpl. auto. }
  exists N, (fun a b => default false (subsumes N a b)). split.
  - intros a b Ha Hb. destruct (HN (a, b)) as (x & Hx & Hn).
    { apply list_elem_of_In, in_prod; by apply list_elem_of_In. }
    simpl in *. by rewrite Hn by lia.
  - intros n a b Hle Ha Hb. destruct (HN (a, b)) as (x & Hx & Hn).
    { apply list_elem_of_In, in_prod; by apply list_elem_of_In. }
    simpl in *. fold (subsumes n a b). by rewrite !Hn by lia.
Qed.

Lemma covered_dropped (l : list Predicate) sub n i arm :
  (forall a b, a ∈ l -> b ∈ l -> o_subsumes (ops n) a b = Some (sub a b)) -> arm ∈ l ->
  covered (ops n) l i arm = Some (dropped sub l i arm).
Proof using Type.
  intros Hs Ha. unfold covered, dropped. apply anyM_existsb. apply Forall_forall.
  intros [j other] Hin. apply elem_of_imap_pair, list_elem_of_lookup_2 in Hin.
  unfold covers. destruct (decide (j = i)) as [->|Hne]; [by rewrite bool_decide_true|].
  rewrite bool_decide_false by done. rewrite !Hs by done. simpl.
  destruct (sub other arm); simpl; [|done]. by destruct (j <? i).
Qed.

Lemma reduced_ok (l : list Predicate) sub :
  (forall a b, a ∈ l -> b ∈ l -> Sub D a b (sub a b)) ->
  (l <> [] -> reduced sub l <> []) /\
  forall rp, typed D rp -> any_den (reduced sub l) rp = any_den l rp.
Proof using Type.
  intros Hs.
  assert (Htr : forall x y z, x ∈ l -> y ∈ l -> z ∈ l ->
    sub x y = true -> sub y z = true -> sub x z = true).
  { intros x y z Hx Hy Hz E1 E2. pose proof (Hs x y Hx Hy) as S1. pose proof (Hs y z Hy Hz) as S2.
    pose proof (Hs x z Hx Hz) as S3. rewrite E1 in S1. rewrite E2 in S2.
    destruct (sub x z); [done|]. destruct S3 as (rp & Hrp & H1 & H2). simpl in *.
    rewrite S1 in H2; auto. }
  split.
  - intros Hne. destruct l as [|x l']; [done|].
    destruct (reduced_reaches sub _ Htr 0 x) as (z & Hz & _); [done|].
    intros E. rewrite E in Hz. by apply elem_of_nil in Hz.
  - intros rp Hrp. apply eq_true_iff_eq. unfold any_den. rewrite !existsb_true_iff. split.
    + intros (x & Hx & Hd). exists x. split; [by eapply reduced_sub|done].
    + intros (x & Hx & Hd). pose proof Hx as [i Hi]%list_elem_of_lookup.
      destruct (reduced_reaches sub l Htr i x Hi) as (z & Hz & Hzx). exists z. split; [done|].
      destruct Hzx as [->|Hzx]; [done|].
      pose proof (Hs z x (reduced_sub _ _ _ Hz) Hx) as S1. rewrite Hzx in S1. by apply S1.
Qed.

(** The result is one arm, or a union of arms. *)
Definition flat_arms (r : Predicate) : Prop := A r \/ exists l, r = POr l /\ Forall A l.

Lemma flatten_or_ok arms :
  D <> [] -> Forall A (or_arms arms) -> or_arms arms <> [] ->
  returns (fun n => flatten_or (ops n) arms)
    (fun r => flat_arms r /\ Sem D (any_den (or_arms arms)) r).
Proof using A_ok A_sub A_join.
  intros HD HA Hne. unfold flatten_or.
  assert (forall (B : Type) (x y : option B),
    match or_arms arms with [] => x | _ => y end = y) as Hm by (by destruct (or_arms arms)).
  eapply returns_ext; [intros n; symmetry; apply Hm|].
  eapply returns_bind; [by apply (join_arms_ok (or_arms arms) [])|]. intros l (Hl & Hn & Hd).
  specialize (Hn (or_introl Hne)).
  destruct (sub_table l Hl) as (N & sub & Hsub & Hops).
  destruct (reduced_ok l sub Hsub) as [Hrn Hrd]. specialize (Hrn Hn).
  assert (Hr : Forall A (reduced sub l)).
  { apply Forall_forall. intros x Hx. apply reduced_sub in Hx. by eapply Forall_forall in Hl. }
  assert (Hden : forall rp, typed D rp -> any_den (reduced sub l) rp = any_den (or_arms arms) rp).
  { intros rp Hrp. rewrite Hrd, Hd by done. simpl. btauto. }
  assert (Hval : forall n, N <= n ->
    mapM (fun '(i, arm) => covered (ops n) l i arm) (imap pair l)
    = Some (map (fun '(i, x) => dropped sub l i x) (imap pair l))).
  { intros n Hle. apply mapM_Some_2, Forall2_fmap_r, Forall_Forall2_diag, Forall_forall.
    intros [i x] Hin. apply elem_of_imap_pair, list_elem_of_lookup_2 in Hin.
    apply covered_dropped; auto. }
  destruct (reduced sub l) as [|one [|two rest]] eqn:Er; [done| |].
  - exists N, one. split.
    + split; [left; by inversion Hr|]. split; [apply arm_ok_wf, A_ok; by inversion Hr|].
      intros rp Hrp. rewrite <- Hden by done. simpl. btauto.
    + intros n Hle. rewrite Hval by done. cbn [mbind option_bind]. unfold reduced in Er. by rewrite Er.
  - exists N, (POr (one :: two :: rest)). split.
    + split; [right; eauto|]. split; [|intros rp Hrp; by rewrite <- Hden].
      destruct D as [|sh above]; [done|]. apply wf_or. split; [done|].
      eapply Forall_impl; [exact Hr|]. done.
    + intros n Hle. rewrite Hval by done. cbn [mbind option_bind]. unfold reduced in Er. by rewrite Er.
Qed.
End Flatten.
