(* ===== verification/PredicateAlgebra.v ===== *)
(** * The predicate algebra is exact

    Over every domain, [intersect], [minus], [union] and [subsumes] of two
    well-formed predicates return, with a well-formed result of exactly the
    region the operation names.  By induction on the size of the domain: the
    operations on predicates that are not unions reduce to smaller domains
    ([Simple]), [flatten_or] is exact at the domain, and unions distribute. *)

From Stdlib Require Import List Btauto.
From S2P Require Import Prelude Predicate PredicateSem Returns KeyMaps.
From S2P Require Import PredicateParts PredicateProducts.
Set Warnings "-clear-no-such-hyp".

Section Algebra.
Context {K : Type} {KS : KeySets K} {KL : KeySetLaws K KS} {X : Type} {LX : Line X} {OX : Onto X}.
Abbreviation Predicate := (Predicate K).
Abbreviation Value := (Value X).

(** The operations on predicates that are not unions. *)
Record Simple (D : Domain) : Prop := {
  simple_intersect a b : is_or a = false -> is_or b = false -> wf D a -> wf D b ->
    returns (fun n => intersect n a b) (Sem D (meet_of a b));
  simple_minus a b : is_or a = false -> is_or b = false -> wf D a -> wf D b ->
    returns (fun n => minus n a b) (Sem D (diff_of a b));
  simple_union a b : is_or a = false -> is_or b = false -> wf D a -> wf D b ->
    returns (fun n => union_of n a b) (Sem D (join_of a b));
  simple_subsumes a b : is_or a = false -> is_or b = false -> wf D a -> wf D b ->
    returns (fun n => subsumes n a b) (Sub D a b)
}.

Definition Flatten (D : Domain) : Prop := forall arms,
  Forall (wf D) arms -> arms <> [] ->
  returns (fun n => flatten_or (ops n) arms) (Sem D (any_den arms)).

(** ** Unions distribute *)

Fixpoint or_size (p : Predicate) : nat :=
  match p with
  | POr arms => S (sum_list_with or_size arms)
  | _ => 0
  end.

Lemma or_size_arm a arms : a ∈ arms -> or_size a < or_size (POr arms).
Proof. intros H. apply (sum_list_with_in _ or_size) in H. simpl. lia. Qed.

Lemma wf_arm D a arms : wf D (POr arms) -> a ∈ arms -> wf D a.
Proof.
  destruct D as [|sh above]; [done|]. rewrite wf_or. intros [_ H] Ha.
  eapply Forall_forall in H; [|done]. by apply arm_ok_wf.
Qed.

Lemma wf_arms_nonempty D arms : wf D (POr arms) -> arms <> [].
Proof. destruct D as [|sh above]; [done|]. rewrite wf_or. tauto. Qed.

Lemma any_den_map D (f : Predicate -> list Value -> bool) arms rs rp :
  Forall2 (fun x r => Sem D (f x) r) arms rs -> typed D rp ->
  any_den rs rp = existsb (fun x => f x rp) arms.
Proof.
  intros H Hrp. unfold any_den. induction H as [|x r arms rs [_ Hd] _ IH]; simpl; [done|].
  by rewrite Hd, IH.
Qed.

Lemma Sem_wf_all D (f : Predicate -> list Value -> bool) arms rs :
  Forall2 (fun x r => Sem D (f x) r) arms rs -> Forall (wf D) rs.
Proof. induction 1 as [|x r arms rs [Hw _] _ IH]; by constructor. Qed.

(** A union operand, arm by arm. *)
Lemma distribute D (f : nat -> Predicate -> option Predicate) (g : Predicate -> list Value -> bool)
    h arms :
  Flatten D -> arms <> [] ->
  Forall (fun x => returns (fun n => f n x) (Sem D (g x))) arms ->
  (forall rp, typed D rp -> existsb (fun x => g x rp) arms = h rp) ->
  returns (fun n => rs ← mapM (f n) arms; flatten_or (ops n) rs) (Sem D h).
Proof.
  intros HF Hne Hf Hg. eapply returns_bind; [apply (returns_mapM _ (fun x r => Sem D (g x) r)), Hf|]. intros rs Hrs.
  eapply returns_impl; [apply HF|].
  - by eapply Sem_wf_all.
  - intros ->. by inversion Hrs; subst.
  - intros r [Hw Hd]. split; [done|]. intros rp Hrp.
    rewrite Hd by done. rewrite <- Hg by done. by eapply any_den_map.
Qed.

Lemma existsb_and_r {A} (f : A -> bool) c l : existsb (fun x => f x && c) l = existsb f l && c.
Proof. induction l as [|x l IH]; simpl; [done|]. rewrite IH. btauto. Qed.

Lemma existsb_and_l {A} (f : A -> bool) c l : existsb (fun x => c && f x) l = c && existsb f l.
Proof. induction l as [|x l IH]; simpl; [btauto|]. rewrite IH. btauto. Qed.

Section Distribute.
Context (D : Domain) (HS : Simple D) (HF : Flatten D).

Lemma intersect_good a b : wf D a -> wf D b ->
  returns (fun n => intersect n a b) (Sem D (meet_of a b)).
Proof.
  remember (or_size a + or_size b) as m eqn:Em. revert a b Em.
  induction (lt_wf m) as [m _ IH]. intros a b -> Ha Hb.
  destruct (is_or a) eqn:Oa; [|destruct (is_or b) eqn:Ob; [|by apply simple_intersect]].
  - destruct a as [| | | |arms| |]; try done.
    apply step_intersect.
    assert (returns (fun n => rs ← mapM (fun x => o_intersect (ops n) x b) arms; flatten_or (ops n) rs)
      (Sem D (meet_of (POr arms) b))) as Hd.
    { apply (distribute D (fun n x => intersect n x b) (fun x => meet_of x b)); [done| | |].
      - by eapply wf_arms_nonempty.
      - apply Forall_forall. intros x Hx. eapply IH; [|done| |done].
        + pose proof (or_size_arm _ _ Hx). lia.
        + by eapply wf_arm.
      - intros rp _. unfold meet_of. apply existsb_and_r. }
    destruct b; try exact Hd; apply returns_const.
    + split; [done|]. intros rp _. unfold meet_of. simpl. btauto.
    + apply Sem_false; [by eapply wf_nonempty|]. intros rp _. apply andb_false_r.
  - destruct b as [| | | |arms| |]; try done.
    apply step_intersect.
    assert (returns (fun n => rs ← mapM (fun x => o_intersect (ops n) a x) arms; flatten_or (ops n) rs)
      (Sem D (meet_of a (POr arms)))) as Hd.
    { apply (distribute D (fun n x => intersect n a x) (fun x => meet_of a x)); [done| | |].
      - by eapply wf_arms_nonempty.
      - apply Forall_forall. intros x Hx. eapply IH; [|done|done|].
        + pose proof (or_size_arm _ _ Hx). lia.
        + by eapply wf_arm.
      - intros rp _. unfold meet_of. apply existsb_and_l. }
    destruct a; try exact Hd; try done; apply returns_const.
    + split; [done|]. done.
    + apply Sem_false; [by eapply wf_nonempty|]. done.
Qed.

Lemma union_good a b : wf D a -> wf D b ->
  returns (fun n => union_of n a b) (Sem D (join_of a b)).
Proof.
  intros Ha Hb. pose proof (wf_nonempty _ _ Ha) as HD.
  assert (HwT : wf D PTrue) by (by destruct D).
  destruct (is_or a) eqn:Oa; [|destruct (is_or b) eqn:Ob; [|by apply simple_union]].
  - destruct a as [| | | |arms| |]; try done.
    apply step_union.
    assert (returns (fun n => flatten_or (ops n) (arms ++ [b])) (Sem D (join_of (POr arms) b))) as Hd.
    { eapply returns_impl; [apply HF|].
      - apply Forall_app. split; [|by repeat constructor]. apply Forall_forall. intros x Hx.
        by eapply wf_arm.
      - by destruct arms.
      - intros r [Hw Hd]. split; [done|]. intros rp Hrp. rewrite Hd by done.
        unfold any_den, join_of. rewrite existsb_app. simpl. btauto. }
    destruct b; try exact Hd; apply returns_const.
    + split; [done|]. intros rp _. unfold join_of. simpl. btauto.
    + split; [done|]. intros rp _. unfold join_of. simpl. btauto.
  - destruct b as [| | | |arms| |]; try done.
    apply step_union.
    assert (returns (fun n => flatten_or (ops n) (a :: arms)) (Sem D (join_of a (POr arms)))) as Hd.
    { eapply returns_impl; [apply HF|].
      - constructor; [done|]. apply Forall_forall. intros x Hx. by eapply wf_arm.
      - done.
      - intros r [Hw Hd]. split; [done|]. intros rp Hrp. by rewrite Hd. }
    destruct a; try exact Hd; try done; apply returns_const; by split.
Qed.

(** What is left of [a] once the arms before are subtracted. *)
Lemma minus_fold a arms :
  wf D a -> Forall (wf D) arms ->
  (forall x r, x ∈ arms -> wf D r -> returns (fun n => minus n r x) (Sem D (diff_of r x))) ->
  returns (fun n => foldl (fun res arm => r ← res; o_minus (ops n) r arm) (Some a) arms)
    (Sem D (diff_of a (POr arms))).
Proof using Type.
  intros Ha Hw Hx.
  eapply returns_impl;
    [apply (returns_foldl (fun n r x => o_minus (ops n) r x)
       (fun left r => wf D r /\ exists done_, done_ ++ left = arms /\
          forall rp, typed D rp -> den r rp = den a rp && negb (any_den done_ rp)))|].
  - split; [done|]. exists []. split; [done|]. intros rp _. simpl. btauto.
  - intros x left r (Hr & done_ & E & Hd). eapply returns_impl; [apply Hx|].
    + rewrite <- E. apply elem_of_app. right. left.
    + done.
    + intros r' [Hw' Hd']. split; [done|]. exists (done_ ++ [x]).
      split; [by rewrite <- app_assoc|]. intros rp Hrp. rewrite Hd' by done.
      unfold diff_of. rewrite Hd by done. unfold any_den. rewrite existsb_app. simpl. btauto.
  - intros r (Hr & done_ & E & Hd). rewrite app_nil_r in E. subst. split; [done|]. done.
Qed.

Lemma minus_all a b : wf D a -> wf D b ->
  returns (fun n => minus n a b) (Sem D (diff_of a b)).
Proof.
  remember (or_size b) as k eqn:Ek. revert a b Ek.
  induction (lt_wf k) as [k _ IHk]. intros a b ->.
  remember (or_size a) as m eqn:Em. revert a Em.
  induction (lt_wf m) as [m _ IHm]. intros a -> Ha Hb.
  destruct (is_or a || is_or b) eqn:Oab.
  2:{ apply orb_false_iff in Oab as [Oa Ob]. by apply simple_minus. }
  apply minus_guards; [done..|]. intros Fb Tb Fa. unfold minus_cases.
  pose proof (wf_reads _ _ Ha) as Ra. pose proof (wf_nonempty _ _ Ha) as HD.
  destruct (is_or a) eqn:Oa.
  - destruct a as [| | | |arms| |]; try done.
    assert (returns (fun n => minus_shapes (ops n) (POr arms) b) (Sem D (diff_of (POr arms) b))) as Hd.
    { unfold minus_shapes.
      apply (distribute D (fun n x => minus n x b) (fun x => diff_of x b)); [done| | |].
      - by eapply wf_arms_nonempty.
      - apply Forall_forall. intros x Hx. eapply IHm; [|done| |done].
        + by apply or_size_arm.
        + by eapply wf_arm.
      - intros rp _. unfold diff_of. apply existsb_and_r. }
    destruct b; try exact Hd.
    destruct (is_true (POr arms)) eqn:Ta; [|exact Hd].
    apply returns_const. destruct D as [|sh above]; [done|].
    destruct sh as [t| | |]; try done.
    pose proof (canon_over _ _ Hb) as Ho.
    apply intervals_sem; [by apply over_complement|]. intros k ab Ht Hk. unfold diff_of.
    rewrite (reads_true _ _ Ra Ta) by done. rewrite (mem_complement t) by done. done.
  - destruct b as [| | | |arms| |]; try done.
    assert (returns (fun n => minus_shapes (ops n) a (POr arms)) (Sem D (diff_of a (POr arms)))) as Hd.
    { assert (returns (fun n => foldl (fun res arm => r ← res; o_minus (ops n) r arm) (Some a) arms)
        (Sem D (diff_of a (POr arms)))) as Hfold.
      { apply minus_fold; [done| |].
        - apply Forall_forall. intros x Hx. by eapply wf_arm.
        - intros x r Hx Hr. eapply IHk; [|done|done|by eapply wf_arm]. by apply or_size_arm. }
      destruct a; try done; exact Hfold. }
    destruct a; done.
Qed.

Lemma subsumes_all a b : wf D a -> wf D b ->
  returns (fun n => subsumes n a b) (Sub D a b).
Proof.
  remember (or_size a + or_size b) as m eqn:Em. revert a b Em.
  induction (lt_wf m) as [m _ IH]. intros a b -> Ha Hb.
  destruct (is_or b) eqn:Ob; [|destruct (is_or a) eqn:Oa; [|by apply simple_subsumes]].
  - apply subsumes_guards; [done..|]. intros Fb Ta. destruct b as [| | | |arms| |]; try done.
    assert (returns (fun n => allM (fun x => o_subsumes (ops n) a x) arms) (Sub D a (POr arms))) as Hd.
    { eapply returns_impl; [apply (returns_allM (fun n x => subsumes n a x) (fun x => Sub D a x))|].
      - apply Forall_forall. intros x Hx. eapply IH; [|done|done|by eapply wf_arm].
        pose proof (or_size_arm _ _ Hx). lia.
      - intros [] H; simpl in *.
        + intros rp Hrp (x & Hx & Hden)%existsb_true_iff.
          eapply Forall_forall in H; [|exact Hx]. by apply H.
        + destruct H as (x & Hx & rp & Hrp & H1 & H2). exists rp. split; [done|].
          split; [|done]. apply existsb_true_iff. eauto. }
    unfold subsumes_cases. destruct a; exact Hd.
  - apply subsumes_guards; [done..|]. intros Fb Ta. destruct a as [| | | |arms| |]; try done.
    assert (returns (fun n => x ← anyM (fun x => o_subsumes (ops n) x b) arms;
      if (x : bool) then Some true else is_false <$> o_minus (ops n) b (POr arms))
      (Sub D (POr arms) b)) as Hd.
    { eapply returns_bind; [apply (returns_anyM (fun n x => subsumes n x b) (fun x => Sub D x b))|].
      - apply Forall_forall. intros x Hx. eapply IH; [|done|by eapply wf_arm|done].
        pose proof (or_size_arm _ _ Hx). lia.
      - intros [] H.
        + apply returns_const. destruct H as (x & Hx & H). intros rp Hrp Hden. simpl.
          apply existsb_true_iff. exists x. split; [done|]. by apply H.
        + by apply sub_by_minus, minus_all. }
    unfold subsumes_cases. destruct b; try done; exact Hd.
Qed.

Lemma good_of_simple : Good D.
Proof.
  split; [apply intersect_good|apply minus_all|apply union_good|apply subsumes_all].
Qed.
End Distribute.

(** ** [flatten_or] over the arms of a domain *)

Lemma or_arms_ok D arms :
  Forall (wf D) arms -> arms <> [] ->
  Forall (arm_ok D) (or_arms arms) /\ or_arms arms <> [] /\
  forall rp, any_den (or_arms arms) rp = any_den arms rp.
Proof.
  intros Hw. induction Hw as [|a arms Ha Hw IH]; [done|]. intros _.
  pose proof (wf_nonempty _ _ Ha) as HD. destruct D as [|sh above]; [done|].
  assert (Forall (arm_ok (sh :: above)) (or_arms arms) /\
    forall rp, any_den (or_arms arms) rp = any_den arms rp) as [IH1 IH2].
  { destruct arms; [split; [constructor|done]|]. destruct IH as (? & _ & ?); done. }
  unfold or_arms. cbn [flat_map]. fold (or_arms arms). unfold any_den in *.
  assert (Hcons : forall l, Forall (arm_ok (sh :: above)) l -> l <> [] ->
    (forall rp, existsb (fun x => den x rp) l = den a rp) ->
    Forall (arm_ok (sh :: above)) (l ++ or_arms arms) /\ l ++ or_arms arms <> [] /\
    forall rp, existsb (fun x => den x rp) (l ++ or_arms arms)
      = existsb (fun x => den x rp) (a :: arms)).
  { intros l Hl Hn Hd. split; [by apply Forall_app|]. split; [by destruct l|].
    intros rp. rewrite existsb_app, Hd, IH2. done. }
  destruct a as [| | | |inner| |];
    try (apply Hcons; [apply Forall_singleton; exact Ha|done|intros rp; simpl; btauto]).
  apply wf_or in Ha as [Hn Hi]. by apply Hcons.
Qed.

Lemma flatten_of_arms D :
  D <> [] ->
  (forall a b, arm_ok D a -> arm_ok D b -> returns (fun n => subsumes n a b) (Sub D a b)) ->
  (forall a b, arm_ok D a -> arm_ok D b ->
    returns (fun n => join (ops n) a b) (fun j => match j with
      | Some r => arm_ok D r /\ forall rp, typed D rp -> den r rp = den a rp || den b rp
      | None => True
      end)) ->
  Flatten D.
Proof.
  intros HD Hs Hj arms Hw Hne. destruct (or_arms_ok D arms Hw Hne) as (Ha & Hn & Hd).
  eapply returns_impl; [by apply (flatten_or_ok D (arm_ok D))|].
  intros r [_ [Hr Hden]]. split; [done|]. intros rp Hrp. by rewrite Hden, Hd.
Qed.

(** ** One level *)

(** The operations are good over every smaller domain. *)
Definition Below (D : Domain) : Prop :=
  forall D', domain_size D' < domain_size D -> Good D'.

Lemma record_good fs : Below [SRecord fs] -> Forall Good (record_domains fs).
Proof.
  intros IH. eapply Forall_impl; [apply record_smaller|]. intros D' HD'. by apply IH.
Qed.

Lemma join_level sh a b :
  Below [sh] -> wf1 sh a -> wf1 sh b ->
  returns (fun n => join (ops n) a b) (fun j => match j with
    | Some r => is_rec r = true /\ wf1 sh r /\
        forall rp, typed [sh] rp -> den r rp = den a rp || den b rp
    | None => True
    end).
Proof.
  intros IH Ha Hb. unfold join.
  destruct a as [| | |m1| | |], b as [| | |m2| | |]; try done; try (by apply returns_const).
  destruct sh as [| |fs|]; try done.
  pose proof (record_factors fs m1 m2 Ha Hb) as HF. rewrite (fa_of _ _ _ _ _ _ _ _ HF).
  eapply returns_impl; [apply (cw_join_ok _ _ _ _ _ _ _ _ HF), record_good; done|].
  intros [r|]; [|done]. intros (Ho & [Hc|Hr] & Hd); [done|]. split; [done|]. split; [|done].
  apply wf_wf1. by apply arm_ok_wf.
Qed.

(** Record predicates and [False]. *)
Lemma sub_rec sh a b :
  Below [sh] -> is_rec a = true -> is_rec b = true -> wf1 sh a -> wf1 sh b ->
  returns (fun n => subsumes n a b) (Sub [sh] a b).
Proof.
  intros IH Ra Rb Ha Hb. pose proof (wf1_wf sh [] a Ha) as Wa. pose proof (wf1_wf sh [] b Hb) as Wb.
  apply subsumes_guards; [done..|]. intros Fb Ta.
  destruct b as [| | |m2| | |]; try done. destruct a as [| | |m1| | |]; try done.
  - cbn [subsumes_cases componentwise_of]. apply sub_by_minus, minus_guards; done.
  - destruct sh as [| |fs|]; try done.
    pose proof (record_factors fs m1 m2 Ha Hb) as HF. unfold subsumes_cases.
    rewrite (fa_of _ _ _ _ _ _ _ _ HF).
    by apply (cw_contains_ok _ _ _ _ _ _ _ _ HF); [apply record_good|..].
Qed.

Lemma flatten_rec sh kept :
  Below [sh] -> kept <> [] -> Forall (fun s => arm_ok [sh] s /\ is_rec s = true) kept ->
  returns (fun n => flatten_or (ops n) kept) (Sem [sh] (any_den kept)).
Proof.
  intros IH Hne Hk.
  assert (or_arms kept = kept) as Eo.
  { clear -Hk. induction Hk as [|s kept [_ Hs] _ IHk]; [done|]. unfold or_arms in *. simpl.
    rewrite IHk. by destruct s. }
  pose (A := fun s : Predicate => is_rec s = true /\ wf1 sh s).
  eapply returns_impl; [apply (flatten_or_ok [sh] A)|].
  - intros a [Hr Hw]. unfold arm_ok. rewrite (is_rec_or _ Hr). by apply wf1_wf.
  - intros a b [Ra Wa] [Rb Wb]. by apply sub_rec.
  - intros a b [Ra Wa] [Rb Wb]. eapply returns_impl; [by apply join_level|].
    intros [r|]; [|done]. intros (H1 & H2 & H3). by split.
  - done.
  - rewrite Eo. eapply Forall_impl; [exact Hk|]. intros s [Hs Hr]. split; [done|].
    by apply wf_wf1, arm_ok_wf.
  - by rewrite Eo.
  - intros r [_ Hr]. by rewrite Eo in Hr.
Qed.

Lemma minus_rec sh m1 m2 :
  Below [sh] -> wf1 sh (PRecord m1) -> wf1 sh (PRecord m2) ->
  returns (fun n => minus n (PRecord m1) (PRecord m2)) (Sem [sh] (diff_of (PRecord m1) (PRecord m2))).
Proof.
  intros IH Ha Hb. apply minus_guards; [by apply wf1_wf..|]. intros Fb Tb Fa.
  cbn [minus_cases minus_shapes].
  destruct sh as [| |fs|]; try done.
  pose proof (record_factors fs m1 m2 Ha Hb) as HF. rewrite (fa_of _ _ _ _ _ _ _ _ HF).
  apply (cw_minus_ok _ _ _ _ _ _ _ _ HF); [by apply record_good| |done].
  intros kept Hne Hk. apply flatten_rec; [done..|].
  eapply Forall_impl; [exact Hk|]. simpl. naive_solver.
Qed.

Lemma arm_smaller arms rest t :
  domain_size [arm_shape arms rest t] < domain_size [SUnion arms rest].
Proof.
  unfold domain_size, arm_shape. simpl. rewrite !Nat.add_0_r. apply Nat.lt_succ_r.
  induction arms as [|[t' s] arms IHa]; simpl; [lia|].
  destruct (decide (t = t')); simpl; lia.
Qed.

(** Everything less a predicate. *)
Lemma minus_true sh a :
  Below [sh] -> is_or a = false -> wf1 sh a ->
  returns (fun n => minus n PTrue a) (Sem [sh] (diff_of PTrue a)).
Proof.
  intros IH Oa Ha. apply minus_guards; [done|by apply wf1_wf|]. intros Fa Ta _.
  destruct a as [| |s|m| |tags rest|]; try done; cbn [minus_cases minus_shapes].
  - destruct sh as [t| | |]; try done. apply returns_const. pose proof (canon_over _ _ Ha) as Ho.
    apply intervals_sem; [by apply over_complement|]. intros k ab _ Hk. unfold diff_of. simpl.
    by rewrite (mem_complement t).
  - destruct sh as [| |fs|]; try done. set (whole := map _ m).
    assert (Hw : wf1 (SRecord fs) (PRecord whole)).
    { apply wf1_record in Ha as [Hs Hm]. apply wf1_record. split; [done|].
      clear -Hm. unfold whole. induction Hm as [|[n p] [n' s] m fs [E _] _ IHm]; [constructor|].
      by constructor. }
    eapply returns_impl; [by apply (minus_rec (SRecord fs) whole m)|]. intros r [Hr Hd]. split; [done|].
    intros rp Hrp. rewrite Hd by done. unfold diff_of. f_equal.
    eapply reads_true; [by apply wf1_reads| |done]. apply is_true_spec. rewrite as_bool_record.
    assert (forallb (fun kp => is_true kp.2) whole = true) as ->; [|done].
    apply forallb_true_iff. unfold whole. apply Forall_fmap, Forall_forall. by intros [k p] _.
  - destruct sh as [| | |arms r]; try done. pose proof Ha as Hwf.
    apply wf1_union in Ha as [Hnd Ht].
    eapply (returns_bind _ _ (fun ds => map fst ds = map fst tags /\
      Forall2 (fun tp td => wf1 (arm_shape arms r tp.1) td.2 /\ td.1 = tp.1 /\
        forall v, has_shape (arm_shape arms r tp.1) v -> den td.2 [v] = negb (den tp.2 [v])) tags ds)).
    + eapply returns_impl.
      * apply (returns_mapM _ (fun tp td => wf1 (arm_shape arms r tp.1) td.2 /\ td.1 = tp.1 /\
          forall v, has_shape (arm_shape arms r tp.1) v -> den td.2 [v] = negb (den tp.2 [v]))).
        eapply Forall_impl; [exact Ht|]. intros [t p] Hp. simpl in *.
        eapply returns_bind; [apply (good_minus _ (IH _ (arm_smaller arms r t))); by apply wf1_wf|].
        intros d [Hw Hd]. apply returns_const. split; [by apply wf_wf1|]. split; [done|].
        intros v Hv. apply (Hd [v]). by repeat constructor.
      * intros ds Hds. split; [|done]. clear -Hds.
        induction Hds as [|tp td tags ds (_ & E & _) _ IHd]; simpl; congruence.
    + intros ds [Hfst Hds].
      destruct (tagged_ok arms r ds (negb rest)) as (q & E & Ho & Hw & Hd).
      * by rewrite Hfst.
      * clear -Hds. induction Hds as [|tp td tags ds (Hw & E & _) _ IHd]; constructor; [|done].
        by rewrite E.
      * rewrite E. apply returns_const. split; [by apply wf1_wf|]. intros rp Hrp.
        apply typed_one in Hrp as ([| | |t v] & -> & Hv); try done. apply has_shape_union in Hv.
        unfold diff_of. rewrite Hd, den_union by done. simpl. clear -Hds Hv. unfold at_tag.
        induction Hds as [|[t1 p] [t2 d] tags ds (_ & E & Hd) _ IHd]; simpl in *; [by destruct rest|].
        subst t2. destruct (decide (t = t1)) as [->|]; [by apply Hd|done].
Qed.

(** Two union predicates. *)
Lemma sub_union arms r ps pr qs qr :
  Below [SUnion arms r] ->
  wf1 (SUnion arms r) (PUnion ps pr) -> wf1 (SUnion arms r) (PUnion qs qr) ->
  returns (fun n => subsumes_cases (ops n) (PUnion ps pr) (PUnion qs qr))
    (Sub [SUnion arms r] (PUnion ps pr) (PUnion qs qr)).
Proof.
  intros IH Ha Hb. cbn [subsumes_cases].
  assert (Hty : forall t v, has_shape (arm_shape arms r t) v -> typed [SUnion arms r] [VUnion t v]).
  { intros t v Hv. repeat constructor. by apply has_shape_union. }
  destruct (pr || negb qr) eqn:Er.
  - eapply returns_impl.
    + apply (returns_allM (fun n tag => subsumes n (at_tag ps pr tag) (at_tag qs qr tag))
        (fun tag => Sub [arm_shape arms r tag] (at_tag ps pr tag) (at_tag qs qr tag))).
      apply Forall_forall. intros tag _.
      apply (good_subsumes _ (IH _ (arm_smaller arms r tag))); apply wf1_wf; by eapply at_tag_wf1.
    + intros [] H.
      * intros rp Hrp. apply typed_one in Hrp as ([| | |t v] & -> & Hv); try done.
        apply has_shape_union in Hv. rewrite !den_union.
        destruct (decide (t ∈ map fst ps ++ map fst qs)) as [Hin|Hni].
        -- eapply Forall_forall in H; [|exact Hin]. apply H. by repeat constructor.
        -- rewrite elem_of_app in Hni. unfold at_tag.
           rewrite (proj2 (assoc_None t ps)), (proj2 (assoc_None t qs)) by tauto. simpl.
           by destruct pr, qr.
      * destruct H as (t & _ & rp & Hrp & H1 & H2). apply typed_one in Hrp as (v & -> & Hv).
        exists [VUnion t v]. rewrite !den_union. by auto.
  - apply returns_const. apply orb_false_iff in Er as [-> Er%negb_false_iff]. subst qr.
    destruct (fresh_tag (ps ++ qs)) as [t Ht]. apply assoc_None in Ht.
    rewrite map_app, elem_of_app in Ht.
    destruct (shape_inhabited (arm_shape arms r t)) as [v Hv].
    exists [VUnion t v]. split; [by apply Hty|]. rewrite !den_union. unfold at_tag.
    rewrite (proj2 (assoc_None t ps)), (proj2 (assoc_None t qs)) by tauto. done.
Qed.

Lemma sub_level sh a b :
  Below [sh] -> is_or a = false -> is_or b = false -> wf1 sh a -> wf1 sh b ->
  returns (fun n => subsumes n a b) (Sub [sh] a b).
Proof.
  intros IH Oa Ob Ha Hb. pose proof (wf1_wf sh [] a Ha) as Wa. pose proof (wf1_wf sh [] b Hb) as Wb.
  destruct (is_rec a && is_rec b) eqn:Rab.
  { apply andb_true_iff in Rab as [Ra Rb]. by apply sub_rec. }
  apply subsumes_guards; [done..|]. intros Fb Ta.
  destruct a as [| |s|m| |tags rest|]; try done.
  - destruct b as [| |s'|m'| |tags' rest'|]; try done; cbn [subsumes_cases componentwise_of];
      apply sub_by_minus, minus_guards; done.
  - destruct b as [| |s'|m'| |tags' rest'|]; try done; destruct sh as [t| | |]; try done.
    + by apply sub_by_minus, minus_true.
    + cbn [subsumes_cases]. apply returns_const. destruct (has_difference s' s) eqn:E; simpl.
      * destruct (has_difference_exact t s' s) as (x & Hk & H1 & H2); [done..|]. destruct (onto_line x) as [k <-].
        exists [VKey k]. split; [by repeat constructor|done].
      * intros rp Hrp. apply typed_one in Hrp as ([k| | |] & -> & Hk); try done. simpl in *.
        intros Hm. by eapply has_difference_sound.
  - destruct b as [| |s'|m'| |tags' rest'|]; try done; destruct sh as [t| | |]; try done.
    by apply sub_by_minus, minus_true.
  - destruct b as [| |s'|m'| |tags' rest'|]; try done; destruct sh as [t| | |arms r]; try done.
    + by apply sub_by_minus, minus_true.
    + by apply sub_union.
Qed.

Lemma flatten_level sh : Below [sh] -> Flatten [sh].
Proof.
  intros IH. apply flatten_of_arms; [done| |].
  - intros a b Ha Hb. unfold arm_ok in *. destruct (is_or a) eqn:Oa; [naive_solver|].
    destruct (is_or b) eqn:Ob; [naive_solver|]. apply sub_level; try done; by apply wf_wf1.
  - intros a b Ha Hb. eapply returns_impl; [apply (join_level sh); [done|..]|].
    + by apply wf_wf1, arm_ok_wf.
    + by apply wf_wf1, arm_ok_wf.
    + intros [r|]; [|done]. intros (H1 & H2 & H3). split; [|done]. unfold arm_ok.
      rewrite (is_rec_or _ H1). by apply wf1_wf.
Qed.

(** Two union predicates, tag by tag. *)
Lemma zip_level (f : nat -> Predicate -> Predicate -> option Predicate) g arms r ps pr qs qr :
  (forall t p q, let D := [arm_shape arms r t] in wf D p -> wf D q ->
     returns (fun n => f n p q) (Sem D (fun rp => g (den p rp) (den q rp)))) ->
  (forall x y : bool, returns (fun n => f n (of_bool x) (of_bool y)) (fun q => as_bool q = Some (g x y))) ->
  wf1 (SUnion arms r) (PUnion ps pr) -> wf1 (SUnion arms r) (PUnion qs qr) ->
  returns (fun n => zip_tags (ps, pr) (qs, qr) (f n))
    (Sem [SUnion arms r] (fun rp => g (den (PUnion ps pr) rp) (den (PUnion qs qr) rp))).
Proof.
  intros Hf Hb Ha Hb'. eapply returns_impl; [apply (zip_tags_ok f g arms r ps pr qs qr); auto|].
  by intros q [_ Hq].
Qed.

Lemma intersect_level sh a b :
  Below [sh] -> is_or a = false -> is_or b = false -> wf1 sh a -> wf1 sh b ->
  returns (fun n => intersect n a b) (Sem [sh] (meet_of a b)).
Proof.
  intros IH Oa Ob Ha Hb. apply step_intersect.
  assert (HT : forall p, wf1 sh p -> (forall rp, den p rp = meet_of a b rp) ->
    returns (fun _ => Some p) (Sem [sh] (meet_of a b))).
  { intros p Hp Hd. apply returns_const. split; [by apply wf1_wf|]. intros rp _. apply Hd. }
  destruct a as [| |s|m| |tags rest|], b as [| |s'|m'| |tags' rest'|]; try done;
    cbn [intersect_with];
    try (apply HT; [done|]; intros rp; unfold meet_of; cbn [den]; btauto).
  - destruct sh as [t| | |]; try done. apply returns_const.
    pose proof (canon_over _ _ Ha). pose proof (canon_over _ _ Hb).
    apply intervals_sem; [by apply over_intersection|]. intros k ab _ Hk. unfold meet_of. simpl.
    by rewrite (mem_intersection t).
  - by destruct sh.
  - by destruct sh.
  - by destruct sh.
  - destruct sh as [| |fs|]; try done.
    pose proof (record_factors fs m m' Ha Hb) as HF. rewrite (fa_of _ _ _ _ _ _ _ _ HF).
    eapply returns_impl; [apply (cw_meet_ok _ _ _ _ _ _ _ _ HF), record_good; done|].
    intros r (Ho & _ & Hd). split; [by apply arm_ok_wf|done].
  - by destruct sh.
  - by destruct sh.
  - by destruct sh.
  - destruct sh as [| | |arms r]; try done.
    apply (zip_level intersect andb); [| |done|done].
    + intros t p q Hp Hq. apply (good_intersect _ (IH _ (arm_smaller arms r t))); done.
    + intros [] []; apply step_intersect; by apply returns_const.
Qed.

Lemma union_level sh a b :
  Below [sh] -> is_or a = false -> is_or b = false -> wf1 sh a -> wf1 sh b ->
  returns (fun n => union_of n a b) (Sem [sh] (join_of a b)).
Proof.
  intros IH Oa Ob Ha Hb. apply step_union.
  assert (HT : forall p, wf1 sh p -> (forall rp, den p rp = join_of a b rp) ->
    returns (fun _ => Some p) (Sem [sh] (join_of a b))).
  { intros p Hp Hd. apply returns_const. split; [by apply wf1_wf|]. intros rp _. apply Hd. }
  destruct a as [| |s|m| |tags rest|], b as [| |s'|m'| |tags' rest'|]; try done;
    cbn [union_with];
    try (apply HT; [done|]; intros rp; unfold join_of; cbn [den]; btauto).
  - destruct sh as [t| | |]; try done. apply returns_const.
    pose proof (canon_over _ _ Ha). pose proof (canon_over _ _ Hb).
    apply intervals_sem; [by apply over_union|]. intros k ab _ Hk. unfold join_of. simpl.
    by rewrite (mem_union t).
  - by destruct sh.
  - by destruct sh.
  - by destruct sh.
  - destruct sh as [| |fs|]; try done.
    pose proof (record_factors fs m m' Ha Hb) as HF. rewrite (fa_of _ _ _ _ _ _ _ _ HF).
    cbn [mbind option_bind].
    eapply returns_bind; [apply (cw_join_ok _ _ _ _ _ _ _ _ HF), record_good; done|].
    intros [r|].
    + intros (Ho & _ & Hd). apply returns_const. split; [by apply arm_ok_wf|done].
    + intros _. eapply returns_impl; [apply (flatten_level _ IH [PRecord m; PRecord m']); [|done]|].
      * constructor; [by apply wf1_wf|]. constructor; [by apply wf1_wf|constructor].
      * intros r [Hw Hd]. split; [done|]. intros rp Hrp. rewrite Hd by done.
        unfold any_den, join_of. cbn [existsb]. btauto.
  - by destruct sh.
  - by destruct sh.
  - by destruct sh.
  - destruct sh as [| | |arms r]; try done.
    apply (zip_level union_of orb); [| |done|done].
    + intros t p q Hp Hq. apply (good_union _ (IH _ (arm_smaller arms r t))); done.
    + intros [] []; apply step_union; by apply returns_const.
Qed.

Lemma minus_level sh a b :
  Below [sh] -> is_or a = false -> is_or b = false -> wf1 sh a -> wf1 sh b ->
  returns (fun n => minus n a b) (Sem [sh] (diff_of a b)).
Proof.
  intros IH Oa Ob Ha Hb.
  destruct a as [| |s|m| |tags rest|]; try done; [by apply minus_true| | | |];
    (apply minus_guards; [by apply wf1_wf..|]); intros Fb Tb Fa; try done;
    destruct b as [| |s'|m'| |tags' rest'|]; try done; destruct sh as [t| |fs|arms r]; try done.
  - cbn [minus_cases]. apply returns_const.
    pose proof (canon_over _ _ Ha). pose proof (canon_over _ _ Hb).
    apply intervals_sem; [by apply over_difference|]. intros k ab _ Hk. unfold diff_of. simpl.
    by rewrite (mem_difference t).
  - cbn [minus_cases minus_shapes].
    pose proof (record_factors fs m m' Ha Hb) as HF. rewrite (fa_of _ _ _ _ _ _ _ _ HF).
    apply (cw_minus_ok _ _ _ _ _ _ _ _ HF); [by apply record_good| |done].
    intros kept Hne Hk. apply flatten_rec; [done..|].
    eapply Forall_impl; [exact Hk|]. simpl. naive_solver.
  - cbn [minus_cases minus_shapes].
    apply (zip_level minus (fun x y => x && negb y)); [| |done|done].
    + intros t p q Hp Hq. apply (good_minus _ (IH _ (arm_smaller arms r t))); done.
    + intros [] []; apply step_minus; by apply returns_const.
Qed.

Lemma simple_level sh : Below [sh] -> Simple [sh].
Proof.
  intros IH. split; intros a b Oa Ob Ha Hb; apply wf_wf1 in Ha, Hb.
  - by apply intersect_level.
  - by apply minus_level.
  - by apply union_level.
  - by apply sub_level.
Qed.

(** ** A level beneath others *)

Section Nested.
Context (sh : Shape) (above : Domain) (Habove : above <> []).
Abbreviation D := (sh :: above).
Context (IH : Below D).

Lemma shape_size_pos s : 0 < shape_size s.
Proof using Type. destruct s; simpl; lia. Qed.

Lemma good_here : Good [sh].
Proof.
  apply IH. unfold domain_size. simpl. destruct above as [|s ab]; [done|]. simpl.
  pose proof (shape_size_pos s). lia.
Qed.

Lemma good_above : Good above.
Proof using IH. apply IH. unfold domain_size. simpl. pose proof (shape_size_pos sh). lia. Qed.

Lemma good_parts : Forall Good [above; [sh]].
Proof. constructor; [apply good_above|]. constructor; [apply good_here|constructor]. Qed.

Lemma lift_sem f r :
  (forall k ab, f (k :: ab) = f [k]) -> Sem [sh] f r -> wf1 sh r /\ Sem D f r.
Proof using Type.
  intros Hf [Hw Hd]. apply wf_wf1 in Hw. split; [done|]. split; [by apply wf1_wf|].
  intros rp Hrp. apply Forall2_cons_inv_l in Hrp as (k & ab & Hk & _ & ->).
  rewrite (den_head sh), Hf by done. apply Hd. by repeat constructor.
Qed.

Lemma lift_sub a b x : wf1 sh a -> wf1 sh b -> Sub [sh] a b x -> Sub D a b x.
Proof using OX.
  intros Ha Hb. destruct x; simpl.
  - intros H rp Hrp. apply Forall2_cons_inv_l in Hrp as (k & ab & Hk & _ & ->).
    rewrite (den_head sh a k ab), (den_head sh b k ab) by done. apply H. by repeat constructor.
  - intros (rp & Hrp & H1 & H2). apply typed_one in Hrp as (k & -> & Hk).
    destruct (domain_inhabited above) as [ab Hab]. exists (k :: ab).
    split; [by constructor|]. by rewrite (den_head sh a k ab), (den_head sh b k ab).
Qed.

Lemma sub_unqualified a b :
  wf1 sh a -> wf1 sh b -> returns (fun n => subsumes n a b) (Sub D a b).
Proof.
  intros Ha Hb. eapply returns_impl; [apply (good_subsumes _ good_here); by apply wf1_wf|].
  intros x. by apply lift_sub.
Qed.

Lemma minus_unqualified a b :
  wf1 sh a -> wf1 sh b -> returns (fun n => minus n a b) (fun r => wf1 sh r /\ Sem D (diff_of a b) r).
Proof.
  intros Ha Hb. eapply returns_impl; [apply (good_minus _ good_here); by apply wf1_wf|].
  intros r. apply lift_sem. intros k ab. unfold diff_of. by rewrite (den_head sh a k ab), (den_head sh b k ab).
Qed.

(** The last rule of each operation, where one operand is qualified. *)
Lemma subsumes_cw R a b :
  is_or a = false -> is_or b = false -> is_qualified a || is_qualified b = true ->
  subsumes_cases R a b
  = (c ← componentwise_of a b;
     match c with
     | Some (_, first, second) => cw_contains R first second
     | None => is_false <$> o_minus R b a
     end).
Proof using Type. by destruct a, b. Qed.

Lemma minus_cw R a b :
  is_or a = false -> is_or b = false -> is_qualified a || is_qualified b = true ->
  is_true a = false \/ is_qualified b = true ->
  minus_cases R a b
  = (c ← componentwise_of a b;
     match c with
     | Some (shape, first, second) => cw_minus R shape first second
     | None => None
     end).
Proof using Type. intros Oa Ob Q T. destruct a, b; try done. unfold minus_cases. by rewrite is_true_qualified. Qed.

Lemma sub_qualified a b :
  is_or a = false -> is_or b = false -> arm_ok D a -> arm_ok D b ->
  is_qualified a || is_qualified b = true ->
  returns (fun n => subsumes n a b) (Sub D a b).
Proof.
  intros Oa Ob Ha Hb Q. apply subsumes_guards; [by apply arm_ok_wf..|]. intros Fb Ta.
  pose proof (qualified_factors sh above a b Habove Ha Hb Q) as HF.
  eapply returns_ext; [intros n; symmetry; by apply subsumes_cw|].
  rewrite (fa_of _ _ _ _ _ _ _ _ HF).
  apply (cw_contains_ok _ _ _ _ _ _ _ _ HF); [apply good_parts|by apply arm_ok_wf|done].
Qed.

(** [flatten_or] of one arm that is not a union asks nothing. *)
Lemma flatten_one R a : is_or a = false -> flatten_or R [a] = Some a.
Proof using Type.
  intros Oa. unfold flatten_or. assert (or_arms [a] = [a]) as -> by (by destruct a).
  cbn. unfold covered. cbn. done.
Qed.

Lemma intersect_true n (q : Predicate) : intersect (S n) q PTrue = Some q.
Proof using Type. by destruct q. Qed.

(** A qualified predicate less an unqualified one keeps its qualification. *)
Lemma qualified_minus_key q k u :
  wf D (PQualified q k) -> is_or u = false -> wf1 sh u ->
  returns (fun n => minus n (PQualified q k) u)
    (fun r => (r = PFalse \/ exists k', r = PQualified q k') /\ Sem D (diff_of (PQualified q k) u) r).
Proof.
  intros Hwf Ou Hu. pose proof Hwf as (Hq & Hk & Tq & Fq & Fk).
  pose proof (wf_reads _ _ Hwf) as Ra. pose proof (wf1_reads _ _ Hu) as Ru.
  assert (Hden : forall key ab, den u (key :: ab) = den u [key]) by (intros; by eapply den_head).
  assert (Hty : forall rp, typed D rp -> exists key ab, rp = key :: ab /\ typed [sh] [key]).
  { intros rp Hrp. apply Forall2_cons_inv_l in Hrp as (key & ab & Hkey & _ & ->).
    exists key, ab. split; [done|]. by repeat constructor. }
  apply step_minus. unfold minus_with.
  destruct (is_false u) eqn:Fu; [|destruct (is_true u) eqn:Tu].
  - apply returns_const. split; [right; eauto|]. split; [done|].
    intros rp Hrp. destruct (Hty rp Hrp) as (key & ab & -> & Ht). unfold diff_of.
    rewrite Hden, (reads_false _ _ Ru) by done. by rewrite andb_true_r.
  - apply returns_const. split; [by left|]. split; [done|]. intros rp Hrp.
    destruct (Hty rp Hrp) as (key & ab & -> & Ht). unfold diff_of.
    rewrite Hden, (reads_true _ _ Ru) by done. by rewrite andb_false_r.
  - rewrite is_false_qualified, Fq, Fk. cbn [orb].
    eapply returns_ext; [intros n; symmetry; apply minus_cw; [done|done|done|left; apply is_true_qualified]|].
    assert (componentwise_of (PQualified q k) u = Some (Some (CQualified, [q; k], [PTrue; u]))) as ->
      by (by destruct u).
    cbn [mbind option_bind]. unfold cw_minus.
    destruct (good_minus _ good_here k u) as (N & k' & [Hk' Hd'] & HN); [by apply wf1_wf..|].
    assert (Hr : (if is_false k' then PFalse else PQualified q k') = PFalse \/
      exists k'', (if is_false k' then PFalse else PQualified q k') = PQualified q k'')
      by (destruct (is_false k'); [by left|right; eauto]).
    exists (S (S N)), (if is_false k' then PFalse else PQualified q k'). split.
    + split; [done|]. pose proof (wf_reads _ _ Hk') as Rk'. pose proof (wf_wf1 _ _ Hk') as Hk1.
      split; [destruct (is_false k') eqn:Fk'; [done|]; simpl; by rewrite Fk'|].
      intros rp Hrp. destruct (Hty rp Hrp) as (key & ab & -> & Ht). unfold diff_of.
      rewrite Hden. cbn [den].
      assert (den k [key] && negb (den u [key]) = den k' [key]) as Hkk by (by rewrite Hd').
      rewrite <- andb_assoc, Hkk. destruct (is_false k') eqn:Fk'; [|done].
      rewrite (reads_false _ _ Rk') by done. by rewrite andb_false_r.
    + intros n Hn. destruct n as [|n]; [lia|]. cbn [length seq mapM].
      unfold stair. cbn [stair_components].
      assert (o_minus (ops (S n)) q PTrue = Some PFalse) as ->.
      { cbn [ops o_minus]. unfold minus_with. cbn. done. }
      assert (o_intersect (ops (S n)) q PTrue = Some q) as -> by apply intersect_true.
      assert (o_minus (ops (S n)) k u = Some k') as -> by (apply HN; lia).
      cbn [mbind option_bind]. unfold build. cbn [existsb]. rewrite Fq, orb_false_r. cbn [orb is_false].
      destruct (is_false k') eqn:Fk'.
      * cbn. done.
      * unfold qualified. rewrite Fq, Fk', Tq. cbn [orb].
        assert (is_false (PQualified q k') = false) as Ff by (by rewrite is_false_qualified, Fq, Fk').
        change (is_false PFalse) with true. cbn [orb mbind option_bind mret option_ret List.filter].
        change (is_false PFalse) with true. rewrite Ff. cbn [negb]. by apply flatten_one.
Qed.

Lemma minus_false n (u : Predicate) : minus (S n) PFalse u = Some PFalse.
Proof using Type.
  change (minus_with (ops n) PFalse u = Some PFalse). unfold minus_with.
  destruct (is_false u); [done|]. by destruct (is_true u).
Qed.

Lemma qualified_minus_keys q k us :
  wf D (PQualified q k) -> wf1 sh (POr us) ->
  returns (fun n => minus n (PQualified q k) (POr us)) (Sem D (diff_of (PQualified q k) (POr us))).
Proof.
  intros Hwf Hus. apply minus_guards; [done|by apply wf1_wf|]. intros _ _ _.
  cbn [minus_cases minus_shapes]. apply wf1_or in Hus as [_ Hus].
  eapply returns_impl;
    [apply (returns_foldl (fun n r x => o_minus (ops n) r x)
       (fun left r => (r = PFalse \/ exists k', r = PQualified q k') /\ wf D r /\
          exists done_, done_ ++ left = us /\
          forall rp, typed D rp -> den r rp = den (PQualified q k) rp && negb (any_den done_ rp)))|].
  - split; [right; eauto|]. split; [done|]. exists []. split; [done|]. intros rp _. simpl. btauto.
  - intros u left r (Hr & Hw & done_ & E & Hd).
    assert (is_or u = false /\ wf1 sh u) as [Ou Hu].
    { eapply (proj1 (Forall_forall _ _) Hus). rewrite <- E. apply elem_of_app. right. left. }
    assert (Hnext : forall r', Sem D (diff_of r u) r' -> exists done_, done_ ++ left = us /\
      forall rp, typed D rp -> den r' rp = den (PQualified q k) rp && negb (any_den done_ rp)).
    { intros r' [Hw' Hd']. exists (done_ ++ [u]). split; [by rewrite <- app_assoc|].
      intros rp Hrp. rewrite Hd' by done. unfold diff_of. rewrite Hd by done.
      unfold any_den. rewrite existsb_app. simpl. btauto. }
    destruct Hr as [->|[k' ->]].
    + eapply returns_step; [intros n; apply (minus_false n u)|]. apply returns_const.
      split; [by left|]. split; [done|]. apply Hnext. split; [done|]. done.
    + eapply returns_impl; [by apply (qualified_minus_key q k' u)|]. intros r' [Hc Hs].
      split; [done|]. split; [by destruct Hs|]. by apply Hnext.
  - intros r (_ & Hw & done_ & E & Hd). rewrite app_nil_r in E. subst. by split.
Qed.

Lemma arm_ok_key u : is_or u = false -> wf1 sh u -> arm_ok D u.
Proof using Type. intros Ou Hu. unfold arm_ok. rewrite Ou. by apply wf1_wf. Qed.

Lemma sub_arms a b :
  arm_ok D a -> arm_ok D b -> returns (fun n => subsumes n a b) (Sub D a b).
Proof.
  intros Ha Hb. destruct (is_qualified a || is_qualified b) eqn:Q.
  2:{ apply orb_false_iff in Q as [Qa Qb]. apply sub_unqualified; by eapply arm_wf1. }
  destruct (is_or a) eqn:Oa; [|destruct (is_or b) eqn:Ob; [|by apply sub_qualified]].
  - destruct a as [| | | |us| |]; try done. destruct b as [| | | | | |q k]; try done.
    pose proof (arm_wf1 _ _ _ Ha eq_refl) as Hus.
    apply subsumes_guards; [by apply arm_ok_wf..|]. intros Fb Ta. cbn [subsumes_cases].
    eapply returns_bind;
      [apply (returns_anyM (fun n x => subsumes n x (PQualified q k)) (fun x => Sub D x (PQualified q k)))|].
    + apply wf1_or in Hus as [_ Hus]. eapply Forall_impl; [exact Hus|]. intros u [Ou Hu].
      apply sub_qualified; [done|done|by apply arm_ok_key|done|]. simpl. apply orb_true_r.
    + intros [] H.
      * apply returns_const. destruct H as (x & Hx & H). intros rp Hrp Hden. simpl.
        apply existsb_true_iff. exists x. split; [done|]. by apply H.
      * by apply sub_by_minus, qualified_minus_keys.
  - destruct b as [| | | |us| |]; try done. pose proof (arm_wf1 _ _ _ Hb eq_refl) as Hus.
    destruct a as [| | | | | |q k]; try done.
    apply subsumes_guards; [by apply arm_ok_wf..|]. intros Fb Ta. cbn [subsumes_cases].
    eapply returns_impl;
      [apply (returns_allM (fun n x => subsumes n (PQualified q k) x) (fun x => Sub D (PQualified q k) x))|].
    + apply wf1_or in Hus as [_ Hus]. eapply Forall_impl; [exact Hus|]. intros u [Ou Hu].
      apply sub_qualified; [done|done|done|by apply arm_ok_key|done].
    + intros [] H; simpl in *.
      * intros rp Hrp (x & Hx & Hden)%existsb_true_iff.
        eapply Forall_forall in H; [|exact Hx]. by apply H.
      * destruct H as (x & Hx & rp & Hrp & H1 & H2). exists rp. split; [done|].
        split; [|done]. apply existsb_true_iff. eauto.
Qed.

Lemma below_here : Below [sh].
Proof.
  intros D' HD'. apply IH. unfold domain_size in *. simpl in *. lia.
Qed.

Lemma flatten_nested : Flatten D.
Proof.
  apply flatten_of_arms; [done|apply sub_arms|]. intros a b Ha Hb.
  destruct (is_qualified a || is_qualified b) eqn:Q.
  - pose proof (qualified_factors sh above a b Habove Ha Hb Q) as HF. unfold join.
    rewrite (fa_of _ _ _ _ _ _ _ _ HF). cbn [mbind option_bind].
    eapply returns_impl; [apply (cw_join_ok _ _ _ _ _ _ _ _ HF), good_parts|].
    intros [r|]; [|done]. by intros (H1 & _ & H2).
  - apply orb_false_iff in Q as [Qa Qb].
    pose proof (arm_wf1 _ _ _ Ha Qa) as Wa. pose proof (arm_wf1 _ _ _ Hb Qb) as Wb.
    eapply returns_impl; [apply (join_level sh a b); [apply below_here|done|done]|].
    intros [r|]; [|done]. intros (H1 & H2 & H3). split; [apply arm_ok_key; [by apply is_rec_or|done]|].
    intros rp Hrp. apply Forall2_cons_inv_l in Hrp as (k & ab & Hk & _ & ->).
    rewrite (den_head sh r k ab), (den_head sh a k ab), (den_head sh b k ab) by done.
    apply H3. by repeat constructor.
Qed.

Lemma simple_nested : Simple D.
Proof.
  assert (Hok : forall a, is_or a = false -> wf D a -> arm_ok D a).
  { intros a Oa Wa. unfold arm_ok. by rewrite Oa. }
  assert (Hbuilt : forall f r, built D CQualified f r -> Sem D f r).
  { intros f r (H1 & _ & H2). split; [by apply arm_ok_wf|done]. }
  assert (Hhead : forall p k ab, wf1 sh p -> den p (k :: ab) = den p [k]) by (intros; by eapply den_head).
  split; intros a b Oa Ob Ha Hb; pose proof (Hok a Oa Ha) as Aa; pose proof (Hok b Ob Hb) as Ab;
    destruct (is_qualified a || is_qualified b) eqn:Q;
    try (pose proof (qualified_factors sh above a b Habove Aa Ab Q) as HF);
    try (apply orb_false_iff in Q as [Qa Qb];
         pose proof (arm_wf1 _ _ _ Aa Qa) as Wa; pose proof (arm_wf1 _ _ _ Ab Qb) as Wb).
  - apply step_intersect.
    assert (returns (fun n => c ← componentwise_of a b;
      match c with Some (shape, f, s) => cw_meet (ops n) shape f s | None => None end)
      (Sem D (meet_of a b))) as Hcw.
    { rewrite (fa_of _ _ _ _ _ _ _ _ HF). cbn [mbind option_bind].
      eapply returns_impl; [apply (cw_meet_ok _ _ _ _ _ _ _ _ HF), good_parts|]. auto. }
    destruct a, b; try done; try exact Hcw; apply returns_const; (split; [done|]);
      intros rp _; unfold meet_of; cbn [den]; btauto.
  - eapply returns_impl; [apply (good_intersect _ good_here); by apply wf1_wf|].
    intros r Hr. apply lift_sem; [|done]. intros k ab. unfold meet_of. by rewrite (Hhead a), (Hhead b).
  - apply minus_guards; [done..|]. intros Fb Tb Fa.
    eapply returns_ext; [intros n; symmetry; apply minus_cw; try done|].
    { destruct (is_qualified b); [by right|]. left. destruct a; try done. apply is_true_qualified. }
    rewrite (fa_of _ _ _ _ _ _ _ _ HF). cbn [mbind option_bind].
    apply (cw_minus_ok _ _ _ _ _ _ _ _ HF); [apply good_parts| |done].
    intros kept Hne Hk. apply flatten_nested; [|done].
    eapply Forall_impl; [exact Hk|]. intros x [Hx _]. by apply arm_ok_wf.
  - eapply returns_impl; [apply (good_minus _ good_here); by apply wf1_wf|].
    intros r Hr. apply lift_sem; [|done]. intros k ab. unfold diff_of. by rewrite (Hhead a), (Hhead b).
  - apply step_union.
    assert (returns (fun n => c ← componentwise_of a b;
      match c with
      | Some (shape, f, s) =>
          j ← cw_join (ops n) shape f s;
          match j with Some joined => Some joined | None => flatten_or (ops n) [a; b] end
      | None => None
      end) (Sem D (join_of a b))) as Hcw.
    { rewrite (fa_of _ _ _ _ _ _ _ _ HF). cbn [mbind option_bind].
      eapply returns_bind; [apply (cw_join_ok _ _ _ _ _ _ _ _ HF), good_parts|].
      intros [r|] Hr; [apply returns_const; auto|].
      eapply returns_impl; [apply (flatten_nested [a; b]); [|done]|].
      { constructor; [done|]. constructor; [done|constructor]. }
      intros r [Hw Hd]. split; [done|]. intros rp Hrp. rewrite Hd by done.
      unfold any_den, join_of. cbn [existsb]. btauto. }
    destruct a, b; try done; try exact Hcw; apply returns_const; (split; [done|]);
      intros rp _; unfold join_of; cbn [den]; btauto.
  - eapply returns_impl; [apply (good_union _ good_here); by apply wf1_wf|].
    intros r Hr. apply lift_sem; [|done]. intros k ab. unfold join_of. by rewrite (Hhead a), (Hhead b).
  - by apply sub_arms.
  - by apply sub_arms.
Qed.
End Nested.

(** ** Every domain *)

Theorem good_all D : Good D.
Proof.
  remember (domain_size D) as m eqn:Em. revert D Em.
  induction (lt_wf m) as [m _ IHm]. intros D ->.
  assert (IH : Below D) by (intros D' HD'; by eapply IHm).
  destruct D as [|sh above]; [split; intros a b Ha; by apply wf_nonempty in Ha|].
  destruct (decide (above = [])) as [->|Hne].
  - apply good_of_simple; [by apply simple_level|by apply flatten_level].
  - apply good_of_simple; [by apply simple_nested|by apply flatten_nested].
Qed.

Theorem flatten_all D : D <> [] -> Flatten D.
Proof.
  intros HD. destruct D as [|sh above]; [done|].
  destruct (decide (above = [])) as [->|Hne].
  - apply flatten_level. intros D' _. apply good_all.
  - apply flatten_nested; [done|]. intros D' _. apply good_all.
Qed.
End Algebra.

(** * The operations on regions of keys

    What holds of all points holds of the keys among them. *)

Section KeyRegions.
Context {K : Type} {KS : KeySets K} {KL : KeySetLaws K KS}.
Abbreviation Predicate := (Predicate K).
Abbreviation Value := (Value K).
Implicit Types (D : Domain) (a b p q r : Predicate) (rp : list Value).

Lemma sem_keys D (f : list (Predicate.Value pt) -> bool) (g : list Value -> bool) r :
  (forall rp, typed D rp -> f (map points rp) = g rp) -> Sem D f r -> Sem D g r.
Proof.
  intros Hfg [Hw Hd]. split; [done|]. intros rp Hrp. rewrite <- den_points, <- Hfg by done.
  apply Hd. by apply typed_points.
Qed.

Lemma key_intersect D a b : wf D a -> wf D b ->
  returns (fun n => intersect n a b) (Sem (X := K) D (meet_of a b)).
Proof.
  intros Ha Hb. eapply returns_impl; [by apply (good_intersect _ (good_all (X := pt) D))|]. intros r.
  apply sem_keys. intros rp _. unfold meet_of. by rewrite !den_points.
Qed.

Lemma key_minus D a b : wf D a -> wf D b -> returns (fun n => minus n a b) (Sem (X := K) D (diff_of a b)).
Proof.
  intros Ha Hb. eapply returns_impl; [by apply (good_minus _ (good_all (X := pt) D))|]. intros r.
  apply sem_keys. intros rp _. unfold diff_of. by rewrite !den_points.
Qed.

Lemma key_union D a b : wf D a -> wf D b -> returns (fun n => union_of n a b) (Sem (X := K) D (join_of a b)).
Proof.
  intros Ha Hb. eapply returns_impl; [by apply (good_union _ (good_all (X := pt) D))|]. intros r.
  apply sem_keys. intros rp _. unfold join_of. by rewrite !den_points.
Qed.

(** An answer that [a] contains [b] is right of the keys. *)
Definition Holds (D : Domain) a b (x : bool) : Prop :=
  if x then forall rp, typed D rp -> den b rp = true -> den a rp = true else True.

Lemma key_subsumes D a b : wf D a -> wf D b -> returns (fun n => subsumes n a b) (Holds D a b).
Proof.
  intros Ha Hb. eapply returns_impl; [by apply (good_subsumes _ (good_all (X := pt) D))|].
  intros [] Hx; [|done]. intros rp Hrp. rewrite <- !den_points. apply Hx. by apply typed_points.
Qed.

Lemma key_flatten D : D <> [] -> Flatten (X := K) D.
Proof.
  intros HD arms Ha Hne. eapply returns_impl; [by apply (flatten_all (X := pt) D)|]. intros r.
  apply sem_keys. intros rp _. unfold any_den. clear. induction arms as [|a arms IH]; simpl; [done|].
  by rewrite den_points, IH.
Qed.

Lemma key_same_region D p q : wf D p -> wf D q ->
  returns (fun n => same_region (ops n) p q)
    (fun x : bool => if x then forall rp, typed D rp -> den p rp = den q rp else True).
Proof.
  intros Hp Hq. eapply returns_impl; [by apply (same_region_ok (X := pt)), Hq; [apply good_all|]|].
  intros [] Hx; [|done]. intros rp Hrp. rewrite <- !den_points. apply Hx. by apply typed_points.
Qed.
End KeyRegions.
