(* ===== verification/KeyInstances.v ===== *)
(** * A concrete kind of key

    Integer keys with the sets that are finite or have a finite complement: the
    smallest family the predicates' operations stay in, given as the instance
    the properties are evaluated at. *)

From Stdlib Require Import ZArith.
From stdpp Require Import gmap infinite.
From S2P Require Import Prelude Predicate PredicateSem.
Set Warnings "-clear-no-such-hyp".

(** [(false, X)] is [X], [(true, X)] everything but [X]. *)
Definition cofinite : Type := bool * gset Z.

Definition cof_mem (s : cofinite) (k : Z) : bool := xorb s.1 (bool_decide (k ∈ s.2)).

Definition cof_complement (s : cofinite) : cofinite := (negb s.1, s.2).

Definition cof_intersection (a b : cofinite) : cofinite :=
  match a, b with
  | (false, X), (false, Y) => (false, X ∩ Y)
  | (false, X), (true, Y) => (false, X ∖ Y)
  | (true, X), (false, Y) => (false, Y ∖ X)
  | (true, X), (true, Y) => (true, X ∪ Y)
  end.

Definition cof_union (a b : cofinite) : cofinite :=
  cof_complement (cof_intersection (cof_complement a) (cof_complement b)).

Definition cof_difference (a b : cofinite) : cofinite := cof_intersection a (cof_complement b).

Definition cof_is_empty (s : cofinite) : bool := negb s.1 && bool_decide (s.2 = ∅).

#[export] Instance int_keys : KeySets Z := {
  iset := cofinite;
  is_empty := cof_is_empty;
  intersection := cof_intersection;
  union := cof_union;
  difference := cof_difference;
  complement := cof_complement;
  closed_point k := (false, {[k]});
  canonical s := s;
  is_whole s := s.1 && bool_decide (s.2 = ∅);
  has_difference a b := negb (cof_is_empty (cof_difference a b));
  holds := cof_mem
}.

Lemma cof_mem_complement s k : cof_mem (cof_complement s) k = negb (cof_mem s k).
Proof. destruct s as [[] X]; unfold cof_mem; simpl; by destruct (bool_decide _). Qed.

Lemma cof_mem_intersection a b k : cof_mem (cof_intersection a b) k = cof_mem a k && cof_mem b k.
Proof.
  destruct a as [[] X], b as [[] Y]; unfold cof_mem; simpl; repeat case_bool_decide; set_solver.
Qed.

Lemma cof_mem_difference a b k : cof_mem (cof_difference a b) k = cof_mem a k && negb (cof_mem b k).
Proof. unfold cof_difference. by rewrite cof_mem_intersection, cof_mem_complement. Qed.

Lemma cof_empty s : cof_is_empty s = true -> forall k, cof_mem s k = false.
Proof.
  destruct s as [[] X]; unfold cof_is_empty, cof_mem; simpl; [done|].
  intros ->%bool_decide_eq_true k. by rewrite bool_decide_false by set_solver.
Qed.

Lemma cof_nonempty s : cof_is_empty s = false -> exists k, cof_mem s k = true.
Proof.
  destruct s as [[] X]; unfold cof_is_empty, cof_mem; simpl.
  - intros _. exists (fresh X). by rewrite bool_decide_false by apply is_fresh.
  - intros HX%bool_decide_eq_false. apply set_choose_L in HX as [k Hk]. exists k.
    by rewrite bool_decide_true.
Qed.

#[export] Instance int_key_laws : KeySetLaws Z int_keys.
Proof.
  refine {| base := unit; pt := Z; pt_of := fun k => k; of_base := fun _ => tt; over := fun _ _ => True; canon := fun _ _ => True;
    mem := cof_mem |}; simpl; try done.
  - intros t a b k _ _ _. apply cof_mem_intersection.
  - intros t a b k _ _ _. unfold cof_union.
    rewrite cof_mem_complement, cof_mem_intersection, !cof_mem_complement.
    by destruct (cof_mem a k), (cof_mem b k).
  - intros t a b k _ _ _. apply cof_mem_difference.
  - intros t a k _ _. apply cof_mem_complement.
  - intros k k' _. unfold cof_mem. simpl. rewrite bool_decide_eq_true. set_solver.
  - intros t s k _ He _. by apply cof_empty.
  - intros t s _ He. destruct (cof_nonempty s He) as [k Hk]. exists k. by destruct t.
  - intros t s k _ Hw _. apply andb_true_iff in Hw as [Hb HX]. apply bool_decide_eq_true in HX.
    unfold cof_mem. rewrite Hb, HX. by rewrite bool_decide_false by set_solver.
  - intros t a b k _ _ Hd _ Ha. apply negb_false_iff in Hd.
    pose proof (cof_empty _ Hd k) as Hm. rewrite cof_mem_difference, Ha in Hm. by destruct (cof_mem b k).
  - intros t a b _ _ Hd. apply negb_true_iff in Hd. destruct (cof_nonempty _ Hd) as [k Hk].
    exists k. rewrite cof_mem_difference in Hk. split; [by destruct t|].
    apply andb_true_iff in Hk as [-> Hk%negb_true_iff]. done.
  - intros []. by exists 0%Z.
Defined.

(** Here the keys are all the points. *)
#[export] Instance int_onto : Onto Z.
Proof. intros x. by exists x. Qed.
