(* ===== verification/PredicatePaths.v ===== *)
(** * Predicates over nested paths ([src/interpreter/tiling/predicate.rs])

    The restatements an operator makes of a region of paths: exactly one node,
    a row's group taken out of a nested collection and put back, a level
    inserted, paired or split, and a region less what the levels above already
    name whole.  The recursive unions take the fuel of [Predicate.ops]. *)

From Stdlib Require Import List.
From S2P Require Import Prelude Predicate.

Section Paths.
Context {K : Type} {KS : KeySets K}.
Abbreviation Predicate := (Predicate K).
Abbreviation Value := (Value K).

(** [Predicate::point]. *)
Fixpoint point (v : Value) : option Predicate :=
  match v with
  | VUnit => Some PTrue
  | VUnion tag inner => p ← point inner; tagged [(tag, p)] false
  | VRecord fields =>
      m ← (fix go fields := match fields with
        | [] => Some []
        | (name, field) :: fields => p ← point field; m ← go fields; Some ((name, p) :: m)
        end) fields;
      Some (PRecord m)
  | VKey k => Some (intervals (closed_point k))
  end.

(** [exactly]: one qualified component per level, outermost first. *)
Definition exactly (path : list Value) : option Predicate :=
  foldl (fun above key => above ← above; p ← point key; Some (qualified above p)) (Some PTrue) path.

(** [descend]. *)
Definition descend (p : Predicate) (levels : nat) : Predicate :=
  Nat.iter levels (fun region => qualified region PTrue) p.

(** [fold(False, union)] over the restated arms. *)
Definition union_fold (fuel : nat) (arms : list Predicate) : option Predicate :=
  foldl (fun all one => a ← all; union_of fuel a one) (Some PFalse) arms.

(** [union_all]. *)
Definition union_all (fuel : nat) (arms : list Predicate) : option Predicate :=
  match arms with
  | [] => Some PFalse
  | _ => flatten_or (ops fuel) arms
  end.

(** [unqualified_arms]. *)
Definition unqualified_arms (fuel : nat) (p : Predicate) : option Predicate :=
  match p with
  | POr arms => union_all fuel (List.filter (fun a => negb (qualifies a)) arms)
  | one => Some (if qualifies one then PFalse else one)
  end.

(** [split_record], over the field names alone: the values of [fields] are
    not read. *)
Definition split_record (p : Predicate) (fields : list string) : option (list (string * Predicate)) :=
  match as_bool p with
  | Some b => Some (map (fun f => (f, of_bool b)) fields)
  | None =>
      match p with
      | PRecord m =>
          if (length fields =? length m) && forallb (fun f => bool_decide (is_Some (assoc f m))) fields
          then Some m else None
      | _ => None
      end
  end.

(** [within]: the region of a row's group, over the group's own paths. *)
Fixpoint within (fuel : nat) (p : Predicate) (row : list Value) (depth : nat) : option Predicate :=
  match p with
  | POr arms => rs ← mapM (fun arm => within fuel arm row depth) arms; union_fold fuel rs
  | PQualified enclosing here =>
      match depth with
      | O => b ← contains_path enclosing row; Some (if (b : bool) then here else PFalse)
      | S depth => e ← within fuel enclosing row depth; Some (qualified e here)
      end
  | unqualified => Some unqualified
  end.

(** [qualified_by] on [True]. *)
Fixpoint true_qualified_by (rows : Predicate) (depth : nat) : Predicate :=
  qualified (match depth with O => rows | S depth => true_qualified_by rows depth end) PTrue.

(** [qualified_by]: a statement about every group, restated over whole paths. *)
Fixpoint qualified_by (fuel : nat) (p : Predicate) (rows : Predicate) (depth : nat) : option Predicate :=
  match p with
  | PFalse => Some PFalse
  | POr arms => rs ← mapM (fun arm => qualified_by fuel arm rows depth) arms; union_fold fuel rs
  | PQualified enclosing here =>
      match depth with
      | O => None
      | S depth => e ← qualified_by fuel enclosing rows depth; Some (qualified e here)
      end
  | unqualified =>
      let enclosing := match depth with O => rows | S depth => true_qualified_by rows depth end in
      Some (qualified enclosing unqualified)
  end.

(** [beneath]. *)
Definition beneath (fuel : nat) (p : Predicate) (row : list Value) (depth : nat) : option Predicate :=
  rows ← exactly row; qualified_by fuel p rows depth.

(** [with_component_restated]. *)
Fixpoint with_component_restated (fuel : nat) (p : Predicate) (level at_ : nat)
    (restate : Predicate -> option Predicate) : option Predicate :=
  match p with
  | POr arms =>
      rs ← mapM (fun arm => with_component_restated fuel arm level at_ restate) arms;
      union_fold fuel rs
  | _ =>
      if decide (at_ = level) then
        let '(enclosing, here) := split_qualification p in
        r ← restate here; Some (qualified enclosing r)
      else match p with
      | PQualified enclosing here =>
          e ← with_component_restated fuel enclosing (level - 1) at_ restate;
          Some (qualified e here)
      | unqualified => Some unqualified
      end
  end.

(** [with_level_inserted]. *)
Fixpoint with_level_inserted (fuel : nat) (p : Predicate) (level at_ : nat) : option Predicate :=
  match p with
  | POr arms => rs ← mapM (fun arm => with_level_inserted fuel arm level at_) arms; union_fold fuel rs
  | PQualified enclosing here =>
      e ← (if decide (at_ = level) then Some (qualified enclosing PTrue)
           else with_level_inserted fuel enclosing (level - 1) at_);
      Some (qualified e here)
  | unqualified => Some unqualified
  end.

(** [with_levels_paired]. *)
Fixpoint with_levels_paired (fuel : nat) (p : Predicate) (level at_ : nat) (fields : string * string) :
    option Predicate :=
  match p with
  | POr arms => rs ← mapM (fun arm => with_levels_paired fuel arm level at_ fields) arms; union_fold fuel rs
  | _ =>
      if decide (at_ + 1 = level) then
        let '(enclosing, here) := split_qualification p in
        let '(above, outer) := split_qualification enclosing in
        r ← record [(fields.1, outer); (fields.2, here)];
        Some (qualified above r)
      else match p with
      | PQualified enclosing here =>
          e ← with_levels_paired fuel enclosing (level - 1) at_ fields;
          Some (qualified e here)
      | unqualified => Some unqualified
      end
  end.

(** [with_levels_unpaired]. *)
Fixpoint with_levels_unpaired (fuel : nat) (p : Predicate) (level at_ : nat) (fields : string * string) :
    option Predicate :=
  match p with
  | POr arms =>
      rs ← mapM (fun arm => with_levels_unpaired fuel arm level at_ fields) arms; union_fold fuel rs
  | _ =>
      if decide (at_ = level) then
        let '(enclosing, here) := split_qualification p in
        let arms := match here with POr arms => arms | one => [one] end in
        rs ← mapM (fun pair =>
          split ← split_record pair [fields.1; fields.2];
          outer ← assoc fields.1 split;
          inner ← assoc fields.2 split;
          Some (qualified (qualified enclosing outer) inner)) arms;
        union_fold fuel rs
      else match p with
      | PQualified enclosing here =>
          e ← with_levels_unpaired fuel enclosing (level - 1) at_ fields;
          Some (qualified e here)
      | unqualified => Some unqualified
      end
  end.

(** [without_covered]: [Some None] where the region keeps all it names. *)
Definition without_covered (fuel : nat) (p : Predicate) (above : list Predicate) :
    option (option Predicate) :=
  let depth := length above in
  covered ← union_fold fuel (imap (fun level whole => descend whole (depth - 1 - level)) above);
  if is_false covered then Some None
  else
    let arms := match p with POr arms => arms | one => [one] end in
    kept ← mapM (fun arm =>
      match arm with
      | PQualified enclosing here =>
          e ← minus fuel enclosing covered; Some (qualified e here)
      | unqualified =>
          all ← subsumes fuel covered PTrue;
          Some (if (all : bool) then PFalse else unqualified)
      end) arms;
    let kept := List.filter (fun arm => negb (is_false arm)) kept in
    k ← (match kept with [] => Some PFalse | _ => flatten_or (ops fuel) kept end);
    Some (if pred_eqb k p then None else Some k).
End Paths.
