(* ===== verification/PredicatePathFacts.v ===== *)
(** * What the restatements say

    The region of every restatement of [PredicatePaths], for all well-formed
    predicates over the domain it expects. *)

From Stdlib Require Import List Btauto.
From S2P Require Import Prelude Predicate PredicateSem Returns KeyMaps.
From S2P Require Import PredicateParts PredicateProducts PredicateAlgebra PredicatePaths.
Set Warnings "-clear-no-such-hyp".

Section PathFacts.
Context {K : Type} {KS : KeySets K} {KL : KeySetLaws K KS}.
Abbreviation Predicate := (Predicate K).
Abbreviation Value := (Value K).

Lemma union_fold_ok D rs :
  D <> [] -> Forall (wf D) rs -> returns (fun n => union_fold n rs) (Sem D (any_den rs)).
Proof.
  intros HD Hrs. unfold union_fold.
  eapply returns_impl;
    [apply (returns_foldl (fun n a one => union_of n a one)
       (fun left a => wf D a /\ exists done_, done_ ++ left = rs /\
          forall rp, typed D rp -> den a rp = any_den done_ rp))|].
  - split; [by destruct D|]. by exists [].
  - intros x left a (Ha & done_ & E & Hd).
    assert (wf D x) as Hx.
    { eapply (proj1 (Forall_forall _ _) Hrs). rewrite <- E. apply elem_of_app. right. left. }
    eapply returns_impl; [by apply (key_union D)|]. intros r [Hw Hr].
    split; [done|]. exists (done_ ++ [x]). split; [by rewrite <- app_assoc|].
    intros rp Hrp. rewrite Hr by done. unfold join_of. rewrite Hd by done.
    unfold any_den. rewrite existsb_app. simpl. btauto.
  - intros a (Ha & done_ & E & Hd). rewrite app_nil_r in E. subst. by split.
Qed.

(** An [Or] restated arm by arm: [f] acts on every arm as [g] does on regions. *)
Lemma restate_arms D (f : nat -> Predicate -> option Predicate) (g : Predicate -> list Value -> bool) arms :
  D <> [] -> Forall (fun a => returns (fun n => f n a) (Sem D (g a))) arms ->
  returns (fun n => rs ← mapM (f n) arms; union_fold n rs)
    (Sem D (fun rp => existsb (fun a => g a rp) arms)).
Proof.
  intros HD Hf. eapply returns_bind; [apply (returns_mapM _ (fun a r => Sem D (g a) r)), Hf|].
  intros rs Hrs. eapply returns_impl; [apply (union_fold_ok D rs HD); by eapply Sem_wf_all|].
  intros r [Hw Hd]. split; [done|]. intros rp Hrp. rewrite Hd by done. by eapply any_den_map.
Qed.

(** [qualified] over a level and the levels above it. *)
Lemma qualified_ok sh above e h :
  above <> [] -> wf above e -> wf1 sh h ->
  wf (sh :: above) (qualified e h) /\
  forall k ab, typed (sh :: above) (k :: ab) -> den (qualified e h) (k :: ab) = den e ab && den h [k].
Proof.
  intros Ha He Hh. destruct (qualified_build sh above e h Ha He) as [Ho Hd]; [by apply wf1_wf|].
  split; [by apply arm_ok_wf|]. intros k ab Ht. rewrite Hd by done. simpl. btauto.
Qed.

Lemma qualified_true (h : Predicate) : qualified PTrue h = if is_false h then PFalse else h.
Proof. unfold qualified. cbn. done. Qed.

Lemma wf_split D1 D2 sh (p : Predicate) :
  wf (sh :: D1) p -> is_or p = false -> is_qualified p = false -> wf (sh :: D2) p /\ wf1 sh p.
Proof. intros Hw Ho Hq. assert (wf1 sh p) by (by destruct p). split; [by apply wf1_wf|done]. Qed.

(** ** One node *)

Fixpoint shape_ok (sh : Shape) : Prop :=
  match sh with
  | SBase _ | SUnit => True
  | SRecord fs =>
      schema (map fst fs) /\
      (fix go fs := match fs with [] => True | (_, s) :: fs => shape_ok s /\ go fs end) fs
  | SUnion arms rest =>
      shape_ok rest /\
      (fix go fs := match fs with [] => True | (_, s) :: fs => shape_ok s /\ go fs end) arms
  end.

Lemma shape_ok_record fs :
  shape_ok (SRecord fs) <-> schema (map fst fs) /\ Forall (fun ns => shape_ok ns.2) fs.
Proof.
  simpl. f_equiv. induction fs as [|[n s] fs IH]; [split; [constructor|done]|].
  rewrite IH, Forall_cons. done.
Qed.

Lemma shape_ok_arm arms rest t : shape_ok (SUnion arms rest) -> shape_ok (arm_shape arms rest t).
Proof.
  unfold arm_shape. intros [Hr Ha]. induction arms as [|[t' s] arms IH]; simpl; [done|].
  destruct Ha as [Hs Ha]. destruct (decide (t = t')); [done|]. by apply IH.
Qed.

Definition point_of (sh : Shape) (v : Value) (p : Predicate) : Prop :=
  is_or p = false /\ wf1 sh p /\ is_false p = false /\
  forall v', has_shape sh v' -> den p [v'] = true <-> v' = v.

Section ValueInduction.
Context (P : Value -> Prop).
Context (Hkey : forall k, P (VKey k)) (Hunit : P VUnit).
Context (Hrec : forall fs, Forall (fun nv => P nv.2) fs -> P (VRecord fs)).
Context (Hun : forall t v, P v -> P (VUnion t v)).
Fixpoint value_ind (v : Value) : P v :=
  match v with
  | VKey k => Hkey k
  | VUnit => Hunit
  | VRecord fs =>
      Hrec fs ((fix go m : Forall (fun nv => P nv.2) m :=
        match m with
        | [] => List.Forall_nil _
        | nv :: m => List.Forall_cons _ nv m (value_ind nv.2) (go m)
        end) fs)
  | VUnion t v => Hun t v (value_ind v)
  end.
End ValueInduction.

Lemma point_nonfalse sh (p : Predicate) v :
  wf1 sh p -> has_shape sh v -> den p [v] = true -> is_false p = false.
Proof.
  intros Hw Hv Hd. apply not_true_iff_false. intros Hf.
  rewrite (reads_false _ _ (wf1_reads _ _ Hw) Hf) in Hd; [done|]. by repeat constructor.
Qed.

Lemma point_record (fields : list (string * Value)) :
  point (VRecord fields)
  = (m ← mapM (fun nv => p ← point nv.2; Some (nv.1, p)) fields; Some (PRecord m)).
Proof.
  cbn [point]. f_equal. induction fields as [|[n v] fields IH]; simpl; [done|].
  destruct (point v); simpl; [|done]. by rewrite IH.
Qed.

Lemma point_ok sh v :
  shape_ok sh -> has_shape sh v -> exists p, point v = Some p /\ point_of sh v p.
Proof.
  revert sh. induction v as [k| |fields IH|t v IH] using value_ind; intros sh Hs Hv.
  - destruct sh as [b| | |]; try done. simpl in Hv. subst b.
    destruct (intervals_ok (X := K) (of_base (pt_of k)) (closed_point k)) as (Ho & Hw & Hd); [apply over_point|].
    eexists. split; [done|]. split; [done|]. split; [done|].
    assert (Hpt : forall v', has_shape (SBase (of_base (pt_of k))) v' ->
      den (intervals (closed_point k)) [v'] = true <-> v' = VKey k).
    { intros [k'| | |] Hk'; try done. simpl in Hk'. rewrite Hd, mem_point by done.
      split; [intros ?%pt_of_inj; by subst|by intros [= ->]]. }
    split; [|done]. eapply (point_nonfalse (SBase (of_base (pt_of k))) _ (VKey k)); [done|done|]. by apply Hpt.
  - destruct sh; try done. exists PTrue. split; [done|]. split; [done|]. split; [done|].
    split; [done|]. intros [] Hv'; try done.
  - destruct sh as [| |fs|]; try done. apply shape_ok_record in Hs as [Hsch Hs].
    apply has_shape_record in Hv as Hv'. rewrite point_record.
    assert (exists m, mapM (fun nv => p ← point nv.2; Some (nv.1, p)) fields = Some m /\
      Forall2 (fun np ns => np.1 = ns.1 /\ wf1 ns.2 np.2) m fs /\
      (forall vs, Forall2 (fun ns nv => ns.1 = nv.1 /\ has_shape ns.2 nv.2) fs vs ->
         den_all (map snd m) (map (fun nv => [nv.2]) vs) = true <-> vs = fields)) as (m & Em & Hm & Hden).
    { clear Hsch Hv. induction Hv' as [|[n s] [n' v] fs fields [En Hv] _ IHf].
      - exists []. split; [done|]. split; [constructor|]. intros vs Hvs. inversion Hvs. done.
      - simpl in En, Hv. subst n'. apply Forall_cons in IH as [IHv IH]. apply Forall_cons in Hs as [Hs1 Hs].
        destruct (IHf IH Hs) as (m & Em & Hm & Hd). destruct (IHv s Hs1 Hv) as (p & Ep & Hp).
        exists ((n, p) :: m). simpl in Ep. simpl. rewrite Ep. simpl. rewrite Em. split; [done|].
        destruct Hp as (_ & Hw & _ & Hpv). split; [by constructor|].
        intros vs Hvs. inversion Hvs as [|? [n'' v''] ? vs' [En Hv''] Hvs']; subst. simpl in *. subst n''.
        rewrite andb_true_iff, Hpv, (Hd vs' Hvs') by done. naive_solver. }
    exists (PRecord m). rewrite Em. split; [done|].
    assert (wf1 (SRecord fs) (PRecord m)) as Hw by (by apply wf1_record).
    assert (Hpt : forall v', has_shape (SRecord fs) v' -> den (PRecord m) [v'] = true <-> v' = VRecord fields).
    { intros [| |vs|] Hvs; try done. rewrite (den_record fs) by done.
      apply has_shape_record in Hvs. rewrite Hden by done. naive_solver. }
    split; [done|]. split; [done|]. split; [|done].
    eapply (point_nonfalse (SRecord fs) _ (VRecord fields)); [done|done|]. by apply Hpt.
  - destruct sh as [| | |arms rest]; try done. apply has_shape_union in Hv as Hv'.
    destruct (IH (arm_shape arms rest t)) as (p & Ep & Op & Wp & Fp & Hp);
      [by apply shape_ok_arm|done|].
    destruct (tagged_ok arms rest [(t, p)] false) as (q & Eq & Oq & Wq & Hq).
    { apply NoDup_singleton. } { by repeat constructor. }
    exists q. cbn [point]. rewrite Ep. cbn [mbind option_bind]. split; [done|].
    assert (Hpt : forall v', has_shape (SUnion arms rest) v' -> den q [v'] = true <-> v' = VUnion t v).
    { intros [| | |t' v'] Hvs; try done. apply has_shape_union in Hvs. rewrite Hq by done.
      unfold at_tag. simpl. destruct (decide (t' = t)) as [->|Hne]; simpl; [rewrite Hp by done|]; naive_solver. }
    split; [done|]. split; [done|]. split; [|done].
    eapply (point_nonfalse (SUnion arms rest) _ (VUnion t v)); [done|done|]. by apply Hpt.
Qed.

(** [exactly] of a path, components outermost first. *)
Lemma exactly_ok D path :
  Forall shape_ok D -> typed D (rev path) ->
  exists p, exactly path = Some p /\ (D <> [] -> wf D p /\ is_or p = false) /\
    (D = [] -> p = PTrue) /\ is_false p = false /\
    forall rp, typed D rp -> den p rp = true <-> rp = rev path.
Proof.
  revert D. induction path as [|key path IH] using rev_ind; intros D Hs Ht.
  - exists PTrue. inversion Ht; subst. split; [done|]. split; [done|]. split; [done|]. split; [done|].
    intros rp Hrp. inversion Hrp. done.
  - rewrite rev_app_distr in *. simpl in *. inversion Ht as [|sh ? above ? Hk Hab]; subst.
    apply Forall_cons in Hs as [Hs1 Hs].
    destruct (IH above Hs Hab) as (p & Ep & Hw & Hnil & Fp & Hd).
    destruct (point_ok sh key Hs1 Hk) as (q & Eq & Oq & Wq & Fq & Hq).
    unfold exactly in *. rewrite foldl_app. simpl. rewrite Ep. simpl. rewrite Eq. simpl.
    exists (qualified p q). split; [done|].
    destruct (decide (above = [])) as [->|Hne].
    + rewrite (Hnil eq_refl), qualified_true, Fq. inversion Hab; subst.
      split; [intros _; split; [by apply wf1_wf|done]|]. split; [done|]. split; [done|].
      intros rp Hrp. apply typed_one in Hrp as (v & -> & Hv). rewrite Hq by done. naive_solver.
    + destruct (Hw Hne) as [Wp Op]. destruct (qualified_ok sh above p q Hne Wp Wq) as [Hwf Hden].
      assert (Hpt : forall rp, typed (sh :: above) rp ->
        den (qualified p q) rp = true <-> rp = key :: rev path).
      { intros rp Hrp. apply Forall2_cons_inv_l in Hrp as (v & ab & Hv & Hab' & ->).
        rewrite Hden by (by constructor). rewrite andb_true_iff, Hd, Hq by done. naive_solver. }
      split; [intros _; split; [done|]|].
      * unfold qualified. destruct (is_false p || is_false q); [done|]. by destruct (is_true p).
      * split; [done|]. split; [|done]. apply not_true_iff_false. intros Hf.
        pose proof (reads_false _ _ (wf_reads _ _ Hwf) Hf (key :: rev path) Ht) as Hx.
        rewrite (proj2 (Hpt _ Ht)) in Hx; done.
Qed.

(** ** A row's group *)

(** Unqualified predicates read the same whatever lies above. *)
Lemma unqualified_den sh (p : Predicate) k ab ab' :
  wf1 sh p -> den p (k :: ab) = den p (k :: ab').
Proof. intros Hp. by rewrite (den_head sh p k ab), (den_head sh p k ab'). Qed.

(** The arms of an [Or] over one domain, restated into another. *)
Lemma restate_or D D' (f : nat -> Predicate -> option Predicate)
    (tr : list Value -> list Value) arms :
  D' <> [] -> wf D (POr arms) ->
  Forall (fun a => wf D a -> returns (fun n => f n a) (Sem D' (fun rp => den a (tr rp)))) arms ->
  returns (fun n => rs ← mapM (f n) arms; union_fold n rs)
    (Sem D' (fun rp => den (POr arms) (tr rp))).
Proof.
  intros HD Hw Hf. apply (restate_arms D' f (fun a rp => den a (tr rp))); [done|].
  apply Forall_forall. intros a Ha. eapply Forall_forall in Hf; [|exact Ha]. apply Hf.
  by eapply wf_arm.
Qed.

(** Induction along the enclosing paths. *)
Lemma path_ind (P : Predicate -> Prop) :
  (forall p, is_or p = false -> is_qualified p = false -> P p) ->
  (forall arms, Forall P arms -> P (POr arms)) ->
  (forall e h, P e -> P (PQualified e h)) -> forall p, P p.
Proof. intros H1 H2 H3 p. induction p using pred_ind; auto. Qed.

Lemma within_ok p Din Drow row depth :
  wf (Din ++ Drow) p -> length Din = S depth -> typed Drow (rev row) ->
  returns (fun n => within n p row depth) (Sem Din (fun rp => den p (rp ++ rev row))).
Proof.
  revert Din depth. induction p as [p Op Qp|arms IH|e h IHe] using path_ind;
    intros Din depth Hwf Hlen Hrow; (destruct Din as [|sh Din]; [done|]).
  - destruct (wf_split _ Din sh p Hwf Op Qp) as [Hw Hw1].
    eapply returns_ext; [intros n; symmetry; instantiate (1 := fun _ => Some p); by destruct p|].
    apply returns_const. split; [done|]. intros rp Hrp.
    destruct (typed_cons _ _ _ Hrp) as (k & ab & ->). by eapply unqualified_den.
  - apply (restate_or ((sh :: Din) ++ Drow) (sh :: Din) (fun n a => within n a row depth)
      (fun rp => rp ++ rev row)); [done|done|].
    eapply Forall_impl; [exact IH|]. intros a Ha Hw. by apply Ha.
  - destruct Hwf as (He & Hh & _). simpl in Hlen. destruct depth as [|depth].
    + destruct Din; [|done]. simpl in He. cbn [within].
      rewrite (contains_path_den Drow e row) by done. apply returns_const.
      split; [destruct (den e (rev row)); [by apply wf1_wf|done]|].
      intros rp Hrp. apply typed_one in Hrp as (k & -> & Hk). cbn [app den].
      by destruct (den e (rev row)).
    + cbn [within]. eapply returns_bind; [apply (IHe Din depth); [done|lia|done]|].
      intros r [Hw Hd]. apply returns_const. assert (Din <> []) as Hne by (by destruct Din).
      destruct (qualified_ok sh Din r h Hne Hw Hh) as [Hq Hden]. split; [done|].
      intros rp Hrp. apply Forall2_cons_inv_l in Hrp as (k & ab & Hk & Hab & ->).
      rewrite Hden by (by constructor). by rewrite Hd.
Qed.

Lemma true_qualified_by_ok Din Drow rows depth :
  Drow <> [] -> wf Drow rows -> length Din = S depth ->
  wf (Din ++ Drow) (true_qualified_by rows depth) /\
  forall rp rrow, typed Din rp -> typed Drow rrow ->
    den (true_qualified_by rows depth) (rp ++ rrow) = den rows rrow.
Proof.
  intros HD Hrows. revert Din. induction depth as [|depth IH]; intros Din Hlen;
    (destruct Din as [|sh Din]; [done|]); simpl in Hlen; cbn [true_qualified_by app].
  - destruct Din; [|done]. destruct (qualified_ok sh Drow rows PTrue HD Hrows) as [Hw Hd]; [done|].
    split; [done|]. intros rp rrow Hrp Hr. apply typed_one in Hrp as (k & -> & Hk).
    simpl. rewrite Hd by (by constructor). simpl. btauto.
  - destruct (IH Din) as [Hw Hd]; [lia|].
    destruct (qualified_ok sh (Din ++ Drow) (true_qualified_by rows depth) PTrue) as [Hw' Hd'];
      [by destruct Din|done|done|].
    split; [done|]. intros rp rrow Hrp Hr. apply Forall2_cons_inv_l in Hrp as (k & ab & Hk & Hab & ->).
    simpl. rewrite Hd' by (constructor; [done|by apply Forall2_app]). rewrite Hd by done. simpl. btauto.
Qed.

Lemma qualified_by_ok p Din Drow rows depth :
  Drow <> [] -> wf Din p -> length Din = S depth -> wf Drow rows ->
  returns (fun n => qualified_by n p rows depth)
    (Sem (Din ++ Drow) (fun rp => den rows (drop (S depth) rp) && den p (take (S depth) rp))).
Proof.
  intros HD. revert Din depth. induction p as [p Op Qp|arms IH|e h IHe] using path_ind;
    intros Din depth Hwf Hlen Hrows; (destruct Din as [|sh Din]; [done|]).
  - destruct (wf_split _ (Din ++ Drow) sh p Hwf Op Qp) as [_ Hw1].
    set (en := match depth with O => rows | S depth => true_qualified_by rows depth end).
    assert (wf (Din ++ Drow) en /\ forall ab, typed (Din ++ Drow) ab ->
      den en ab = den rows (drop depth ab)) as [He Hd].
    { unfold en. simpl in Hlen. destruct depth as [|depth]; [destruct Din; [|done]; by split|].
      destruct (true_qualified_by_ok Din Drow rows depth) as [H1 H2]; [done|done|lia|].
      split; [done|]. intros ab Hab. apply Forall2_app_inv_l in Hab as (l1 & l2 & Hl1 & Hl2 & ->).
      rewrite H2 by done. apply Forall2_length in Hl1. by rewrite drop_app_length' by lia. }
    destruct (qualified_ok sh (Din ++ Drow) en p) as [Hq Hden]; [by destruct Din|done|done|].
    assert (Hval : forall r, r = PFalse /\ p = PFalse \/ r = qualified en p ->
      Sem (sh :: Din ++ Drow) (fun rp => den rows (drop (S depth) rp) && den p (take (S depth) rp)) r).
    { intros r [[-> ->]| ->].
      - split; [done|]. intros rp _. simpl. by rewrite andb_false_r.
      - split; [done|]. intros rp Hrp. pose proof Hrp as Ht.
        apply Forall2_cons_inv_l in Hrp as (k & ab & Hk & Hab & ->).
        rewrite Hden, Hd by done. cbn [drop take]. by rewrite (den_head sh p k (take depth ab)). }
    destruct p; try done; apply returns_const, Hval; auto.
  - assert (Hg : forall arms rp,
      existsb (fun a => den rows (drop (S depth) rp) && den a (take (S depth) rp)) arms
      = den rows (drop (S depth) rp) && den (POr arms) (take (S depth) rp)).
    { intros l rp. simpl. apply existsb_and_l. }
    eapply returns_impl;
      [apply (restate_arms (sh :: Din ++ Drow) (fun n a => qualified_by n a rows depth)
         (fun a rp => den rows (drop (S depth) rp) && den a (take (S depth) rp)) arms); [done|]|].
    + apply Forall_forall. intros a Ha. eapply Forall_forall in IH; [|exact Ha].
      apply (IH (sh :: Din) depth); [by eapply wf_arm|done|done].
    + intros r [Hw Hd]. split; [done|]. intros rp Hrp. by rewrite Hd, Hg.
  - destruct Hwf as (He & Hh & _). simpl in Hlen.
    destruct depth as [|depth]; [destruct Din; [by destruct e|done]|].
    cbn [qualified_by]. eapply returns_bind; [apply (IHe Din depth); [done|lia|done]|].
    intros r [Hw Hd]. apply returns_const.
    destruct (qualified_ok sh (Din ++ Drow) r h) as [Hq Hden]; [by destruct Din|done|done|].
    split; [done|]. intros rp Hrp. pose proof Hrp as Ht.
    apply Forall2_cons_inv_l in Hrp as (k & ab & Hk & Hab & ->).
    rewrite Hden, Hd by done. cbn [drop take den]. btauto.
Qed.

(** A statement put beneath a row: read in that row's group it says what it
    said, in any other's it says nothing. *)
Lemma beneath_ok p Din Drow row depth :
  Drow <> [] -> Forall shape_ok Drow -> wf Din p -> length Din = S depth -> typed Drow (rev row) ->
  returns (fun n => beneath n p row depth) (fun r => wf (Din ++ Drow) r /\
    forall rp rrow, typed Din rp -> typed Drow rrow ->
      den r (rp ++ rrow) = true <-> rrow = rev row /\ den p rp = true).
Proof.
  intros HD Hs Hp Hlen Hrow. unfold beneath.
  destruct (exactly_ok Drow row Hs Hrow) as (rows & -> & Hw & _ & _ & Hd). cbn [mbind option_bind].
  eapply returns_impl; [apply (qualified_by_ok p Din Drow rows depth); try done; by apply Hw|].
  intros r [Hr Hden]. split; [done|]. intros rp rrow Hrp Hrrow.
  pose proof (Forall2_length _ _ _ Hrp) as Hl.
  rewrite Hden by (by apply Forall2_app).
  rewrite drop_app_length', take_app_length' by lia. rewrite andb_true_iff, Hd by done. done.
Qed.

(** ** Levels beneath, and levels inserted *)

Lemma descend_ok D Dn p :
  wf D p -> wf (Dn ++ D) (descend p (length Dn)) /\
  forall rn rp, typed Dn rn -> typed D rp -> den (descend p (length Dn)) (rn ++ rp) = den p rp.
Proof.
  intros Hp. pose proof (wf_nonempty _ _ Hp) as HD.
  induction Dn as [|sh Dn [Hw Hd]]; simpl.
  - split; [done|]. intros rn rp Hrn _. inversion Hrn; subst. done.
  - destruct (qualified_ok sh (Dn ++ D) (descend p (length Dn)) PTrue) as [Hq Hden];
      [by destruct Dn, D|done|done|].
    split; [done|]. intros rn rp Hrn Hrp. apply Forall2_cons_inv_l in Hrn as (k & ab & Hk & Hab & ->).
    simpl. rewrite Hden by (constructor; [done|by apply Forall2_app]). rewrite Hd by done. simpl. btauto.
Qed.

(** The path with its component [j] from the innermost removed. *)
Definition skip (j : nat) (rp : list Value) : list Value := take j rp ++ drop (S j) rp.

Lemma with_level_inserted_ok p Din Dab new_ level at_ :
  wf (Din ++ Dab) p -> length Dab = at_ -> at_ + length Din = S level -> 0 < length Din ->
  returns (fun n => with_level_inserted n p level at_)
    (Sem (Din ++ new_ :: Dab) (fun rp => den p (skip (length Din) rp))).
Proof.
  revert Din level. induction p as [p Op Qp|arms IH|e h IHe] using path_ind;
    intros Din level Hwf Hab Hlev Hpos; (destruct Din as [|sh Din]; [simpl in Hpos; lia|]).
  - destruct (wf_split _ (Din ++ new_ :: Dab) sh p Hwf Op Qp) as [Hw Hw1].
    eapply returns_ext; [intros n; symmetry; instantiate (1 := fun _ => Some p); by destruct p|].
    apply returns_const. split; [done|]. intros rp Hrp.
    destruct (typed_cons _ _ _ Hrp) as (k & ab & ->). by eapply unqualified_den.
  - apply (restate_or ((sh :: Din) ++ Dab) (sh :: Din ++ new_ :: Dab)
      (fun n a => with_level_inserted n a level at_) (skip (length (sh :: Din)))); [done|done|].
    eapply Forall_impl; [exact IH|]. intros a Ha Hw. by apply (Ha (sh :: Din) level).
  - destruct Hwf as (He & Hh & _). simpl in Hlev. cbn [with_level_inserted].
    assert (Hrest : returns (fun n => if decide (at_ = level) then Some (qualified e PTrue)
        else with_level_inserted n e (level - 1) at_)
      (Sem (Din ++ new_ :: Dab) (fun rp => den e (skip (length Din) rp)))).
    { destruct (decide (at_ = level)) as [->|Hne].
      - destruct Din as [|s Din]; [|simpl in Hlev; lia]. simpl in *. apply returns_const.
        destruct (qualified_ok new_ Dab e PTrue) as [Hq Hden]; [by eapply wf_nonempty|done|done|].
        split; [done|]. intros rp Hrp. pose proof Hrp as Ht.
        apply Forall2_cons_inv_l in Hrp as (k & ab & Hk & Hb & ->).
        rewrite Hden by done. unfold skip. simpl. rewrite drop_0. btauto.
      - destruct Din as [|s Din]; [simpl in Hlev; lia|].
        apply (IHe (s :: Din) (level - 1)); simpl in *; [done|done|lia|lia]. }
    eapply returns_bind; [exact Hrest|]. intros r [Hw Hd]. apply returns_const.
    destruct (qualified_ok sh (Din ++ new_ :: Dab) r h) as [Hq Hden]; [by destruct Din|done|done|].
    split; [done|]. intros rp Hrp. pose proof Hrp as Ht.
    apply Forall2_cons_inv_l in Hrp as (k & ab & Hk & Hb & ->).
    rewrite Hden, Hd by done. unfold skip. done.
Qed.

(** ** Less what the levels above name whole *)

(** The paths that one of the levels [above] covers; [above] outermost first. *)
Definition covered_by (above : list Predicate) (ab : list Value) : bool :=
  existsb (fun lw => den lw.2 (drop (length above - 1 - lw.1) ab)) (imap pair above).

Lemma covered_ok Dab above :
  Dab <> [] -> length above <= length Dab ->
  (forall level whole, above !! level = Some whole -> wf (drop (length above - 1 - level) Dab) whole) ->
  returns (fun n => union_fold n (imap (fun level whole => descend whole (length above - 1 - level)) above))
    (Sem Dab (covered_by above)).
Proof.
  intros HD Hlen Hw.
  assert (Hone : forall level whole, above !! level = Some whole ->
    let d := length above - 1 - level in
    wf Dab (descend whole d) /\
    forall ab, typed Dab ab -> den (descend whole d) ab = den whole (drop d ab)).
  { intros level whole Hl d. pose proof (Hw level whole Hl) as Hwf. fold d in Hwf.
    pose proof (lookup_lt_Some _ _ _ Hl) as Hlt.
    assert (d = length (take d Dab)) as Ed by (rewrite length_take; unfold d; lia).
    destruct (descend_ok (drop d Dab) (take d Dab) whole Hwf) as [H1 H2].
    rewrite <- Ed in H1, H2. rewrite take_drop in H1. split; [done|].
    intros ab Hab. rewrite <- (take_drop d ab) at 1. apply H2.
    - by apply Forall2_take.
    - by apply Forall2_drop. }
  eapply returns_impl; [apply (union_fold_ok Dab); [done|]|].
  - apply Forall_forall. intros x (level & whole & -> & Hl)%elem_of_lookup_imap. by apply Hone.
  - intros r [Hr Hd]. split; [done|]. intros ab Hab. rewrite Hd by done.
    apply eq_true_iff_eq. unfold any_den, covered_by. rewrite !existsb_true_iff. split.
    + intros (x & (level & whole & -> & Hl)%elem_of_lookup_imap & Hx).
      exists (level, whole). split; [by apply elem_of_imap_pair|]. simpl.
      by rewrite <- (proj2 (Hone level whole Hl)).
    + intros ([level whole] & Hl%elem_of_imap_pair & Hx). simpl in Hx.
      exists (descend whole (length above - 1 - level)). split.
      * apply elem_of_lookup_imap. eauto.
      * by rewrite (proj2 (Hone level whole Hl)).
Qed.

(** One arm less the covered paths. *)
Lemma kept_arm sh Dab covered_ a :
  Dab <> [] -> wf Dab covered_ -> arm_ok (sh :: Dab) a ->
  returns (fun n => match a with
    | PQualified enclosing here => e ← minus n enclosing covered_; Some (qualified e here)
    | unqualified =>
        all ← subsumes n covered_ PTrue; Some (if (all : bool) then PFalse else unqualified)
    end) (fun r => wf (sh :: Dab) r /\ forall k ab, typed (sh :: Dab) (k :: ab) ->
      (den r (k :: ab) = true -> den a (k :: ab) = true) /\
      (den a (k :: ab) = true -> den covered_ ab = false -> den r (k :: ab) = true)).
Proof.
  intros HD Hc Ha.
  assert (HwT : wf Dab PTrue) by (by destruct Dab).
  assert (Hunq : returns (fun n => all ← subsumes n covered_ PTrue;
      Some (if (all : bool) then PFalse else a))
    (fun r => wf (sh :: Dab) r /\ forall k ab, typed (sh :: Dab) (k :: ab) ->
      (den r (k :: ab) = true -> den a (k :: ab) = true) /\
      (den a (k :: ab) = true -> den covered_ ab = false -> den r (k :: ab) = true))).
  { eapply returns_bind; [by apply (key_subsumes Dab covered_ PTrue)|].
    intros [] Hs; apply returns_const.
    - split; [done|]. intros k ab Ht. split; [done|]. intros _ Hf. inversion Ht; subst.
      by rewrite (Hs ab) in Hf.
    - split; [by apply arm_ok_wf|]. done. }
  destruct a as [| | | | | |e h]; try exact Hunq.
  destruct Ha as (He & Hh & _).
  eapply returns_bind; [by apply (key_minus Dab e covered_)|].
  intros r [Hw Hd]. apply returns_const.
  destruct (qualified_ok sh Dab r h HD Hw Hh) as [Hq Hden]. split; [done|].
  intros k ab Ht. rewrite Hden by done. inversion Ht; subst.
  rewrite Hd by done. unfold diff_of. simpl.
  destruct (den e ab), (den covered_ ab), (den h [k]); naive_solver.
Qed.

Lemma or_list_ok sh Dab (p : Predicate) :
  wf (sh :: Dab) p ->
  let arms := match p with POr arms => arms | one => [one] end in
  Forall (arm_ok (sh :: Dab)) arms /\ forall rp, den p rp = any_den arms rp.
Proof.
  intros Hw. unfold any_den.
  assert (is_or p = false -> Forall (arm_ok (sh :: Dab)) [p] /\
    forall rp, den p rp = existsb (fun a => den a rp) [p]) as H.
  { intros Ho. split; [|intros rp; simpl; btauto]. constructor; [|constructor].
    unfold arm_ok. by rewrite Ho. }
  destruct p; try (by apply H). apply wf_or in Hw as [_ Hw]. done.
Qed.

Lemma without_covered_ok sh Dab p above :
  Dab <> [] -> wf (sh :: Dab) p -> length above <= length Dab ->
  (forall level whole, above !! level = Some whole -> wf (drop (length above - 1 - level) Dab) whole) ->
  returns (fun n => without_covered n p above) (fun o => forall r, o = Some r ->
    wf (sh :: Dab) r /\ forall k ab, typed (sh :: Dab) (k :: ab) ->
      (den r (k :: ab) = true -> den p (k :: ab) = true) /\
      (den p (k :: ab) = true -> covered_by above ab = false -> den r (k :: ab) = true)).
Proof.
  intros HD Hp Hlen Habove. unfold without_covered.
  eapply returns_bind; [by apply (covered_ok Dab)|]. intros c [Hc Hcd].
  destruct (is_false c); [by apply returns_const|].
  destruct (or_list_ok sh Dab p Hp) as [Harms Hpd]. set (arms := match p with POr arms => arms | one => [one] end) in *.
  eapply returns_bind.
  - apply (returns_mapM _ (fun a r => wf (sh :: Dab) r /\ forall k ab, typed (sh :: Dab) (k :: ab) ->
      (den r (k :: ab) = true -> den a (k :: ab) = true) /\
      (den a (k :: ab) = true -> den c ab = false -> den r (k :: ab) = true))).
    eapply Forall_impl; [exact Harms|]. intros a Ha. by apply kept_arm.
  - intros rs Hrs. set (kept := List.filter _ rs).
    assert (Hk : Forall (wf (sh :: Dab)) kept /\ forall rp, typed (sh :: Dab) rp -> any_den kept rp = any_den rs rp).
    { unfold kept, any_den. clear -Hrs. induction Hrs as [|a r arms rs [Hw _] _ [IH1 IH2]]; [by split; [constructor|]|].
      simpl. destruct (is_false r) eqn:Fr; simpl.
      - split; [done|]. intros rp Hrp. rewrite IH2 by done.
        by rewrite (reads_false _ _ (wf_reads _ _ Hw) Fr).
      - split; [by constructor|]. intros rp Hrp. by rewrite IH2. }
    destruct Hk as [Hkw Hkd].
    eapply (returns_bind _ _ (Sem (sh :: Dab) (any_den rs))).
    + clearbody kept. destruct kept as [|x kept'].
      * apply returns_const. split; [done|]. intros rp Hrp. by rewrite <- Hkd.
      * eapply returns_impl; [apply (key_flatten (sh :: Dab)); done|].
        intros r [Hw Hd]. split; [done|]. intros rp Hrp. by rewrite Hd, Hkd.
    + intros r [Hw Hd]. apply returns_const. intros r' Hr'.
      destruct (pred_eqb r p); [done|]. simplify_eq. split; [done|]. intros k ab Ht.
      rewrite Hd, Hpd by done. inversion Ht; subst. rewrite <- Hcd by done.
      unfold any_den. rewrite !existsb_true_iff. clear -Hrs Ht. split.
      * intros (x & Hx & Hden). apply list_elem_of_lookup in Hx as [i Hi].
        destruct (Forall2_lookup_r _ _ _ _ _ Hrs Hi) as (a & Ha & _ & Hax).
        exists a. split; [by eapply list_elem_of_lookup_2|]. by apply (Hax k ab Ht).
      * intros (a & Ha & Hden) Hc. apply list_elem_of_lookup in Ha as [i Hi].
        destruct (Forall2_lookup_l _ _ _ _ _ Hrs Hi) as (x & Hx & _ & Hax).
        exists x. split; [by eapply list_elem_of_lookup_2|]. by apply (Hax k ab Ht).
Qed.

(** ** Two levels as one level of pairs *)

Section Pairs.
Context (f0 f1 : string) (s0 s1 : Shape) (Hf : schema [f0; f1]).

Definition pair_of (x0 x1 : Value) : Value := VRecord [(f0, x0); (f1, x1)].
Definition pairs : Shape := SRecord [(f0, s0); (f1, s1)].

Lemma pair_typed v : has_shape pairs v -> exists x0 x1, v = pair_of x0 x1 /\ has_shape s0 x0 /\ has_shape s1 x1.
Proof using Type.
  unfold pairs. destruct v as [| |vs|]; try done. rewrite has_shape_record. intros H.
  inversion H as [|? [n0 x0] ? l [E0 H0] H']; subst.
  inversion H' as [|? [n1 x1] ? l' [E1 H1] H'']; subst. inversion H''; subst.
  simpl in *. subst. by exists x0, x1.
Qed.

Lemma typed_pair x0 x1 : has_shape s0 x0 -> has_shape s1 x1 -> has_shape pairs (pair_of x0 x1).
Proof using Type. intros. apply has_shape_record. by repeat constructor. Qed.

Lemma record_pair p0 p1 :
  wf1 s0 p0 -> wf1 s1 p1 ->
  exists r, record [(f0, p0); (f1, p1)] = Some r /\ wf1 pairs r /\ is_or r = false /\
    forall x0 x1, has_shape s0 x0 -> has_shape s1 x1 ->
      den r [pair_of x0 x1] = den p0 [x0] && den p1 [x1].
Proof.
  intros H0 H1. unfold record. cbn [map fst]. pose proof Hf as [Hnd Hsort]. rewrite Hsort.
  rewrite (assoc_keys [f0; f1] [(f0, p0); (f1, p1)]) by done. cbn [mbind option_bind map snd].
  destruct (record_build [(f0, s0); (f1, s1)] [p0; p1]) as (r & E & Hr & Hw & Hd).
  { exact Hf. } { repeat constructor; by apply wf1_wf. }
  exists r. split; [done|]. split; [done|]. split; [by apply is_rec_or|].
  intros x0 x1 Hx0 Hx1. rewrite Hd by (constructor; [by apply typed_pair|constructor]). simpl. btauto.
Qed.

(** The path with its outermost pair taken apart. *)
Definition unpair (n : nat) (rp : list Value) : list Value :=
  match drop n rp with
  | VRecord [(_, x0); (_, x1)] :: above => take n rp ++ x1 :: x0 :: above
  | _ => rp
  end.

Lemma with_levels_paired_ok p Din level :
  wf (Din ++ [s1; s0]) p -> level = S (length Din) ->
  returns (fun n => with_levels_paired n p level 0 (f0, f1))
    (Sem (Din ++ [pairs]) (fun rp => den p (unpair (length Din) rp))).
Proof.
  revert Din level. induction p as [p Op Qp|arms IH|e h IHe] using path_ind; intros Din level Hwf ->.
  - assert (Hbase : Din = [] ->
      returns (fun _ => r ← record [(f0, PTrue); (f1, p)]; Some (qualified PTrue r))
        (Sem (Din ++ [pairs]) (fun rp => den p (unpair (length Din) rp)))).
    { intros ->. destruct (wf_split _ [] s1 p Hwf Op Qp) as [_ Hw1].
      destruct (record_pair PTrue p) as (r & -> & Hw & Ho & Hd); [done|done|].
      cbn [mbind option_bind]. rewrite qualified_true. apply returns_const.
      split; [destruct (is_false r); [done|by apply wf1_wf]|].
      intros rp Hrp. apply typed_one in Hrp as (v & -> & Hv).
      apply pair_typed in Hv as (x0 & x1 & -> & H0 & H1). unfold unpair. cbn [length drop take app pair_of].
      rewrite (den_head s1 p x1 [x0]) by done.
      transitivity (den r [pair_of x0 x1]); [|by rewrite Hd].
      destruct (is_false r) eqn:Fr; [|done]. symmetry.
      apply (reads_false _ _ (wf1_reads _ _ Hw) Fr). constructor; [by apply typed_pair|constructor]. }
    destruct Din as [|sh Din].
    + destruct p; try done; by apply Hbase.
    + destruct (wf_split _ (Din ++ [pairs]) sh p Hwf Op Qp) as [Hw Hw1].
      eapply returns_ext; [intros n; symmetry; instantiate (1 := fun _ => Some p); by destruct p|].
      apply returns_const. split; [done|]. intros rp Hrp.
      destruct (typed_cons _ _ _ Hrp) as (k & ab & ->). unfold unpair. cbn [length drop take].
      repeat case_match; try done; by eapply unqualified_den.
  - apply (restate_or (Din ++ [s1; s0]) (Din ++ [pairs])
      (fun n a => with_levels_paired n a (S (length Din)) 0 (f0, f1)) (unpair (length Din)));
      [by destruct Din|done|].
    eapply Forall_impl; [exact IH|]. intros a Ha Hw. by apply (Ha Din).
  - destruct Din as [|sh Din].
    + destruct Hwf as (He & Hh & _). apply wf_wf1 in He. cbn [with_levels_paired].
      destruct (record_pair e h) as (r & Er & Hw & Ho & Hd); [done|done|].
      assert (split_qualification e = (PTrue, e)) as Es by (by destruct e).
      destruct (decide _) as [_|Hc]; [|done]. cbn [split_qualification]. rewrite Es. cbn [fst snd].
      rewrite Er. cbn [mbind option_bind]. rewrite qualified_true. apply returns_const.
      split; [destruct (is_false r); [done|by apply wf1_wf]|].
      intros rp Hrp. apply typed_one in Hrp as (v & -> & Hv).
      apply pair_typed in Hv as (x0 & x1 & -> & H0 & H1). unfold unpair. cbn [length drop take app pair_of].
      cbn [den]. rewrite <- Hd by done.
      destruct (is_false r) eqn:Fr; [|done]. symmetry.
      apply (reads_false _ _ (wf1_reads _ _ Hw) Fr). constructor; [by apply typed_pair|constructor].
    + destruct Hwf as (He & Hh & _). cbn [with_levels_paired length app].
      destruct (decide _) as [Hc|_]; [lia|]. replace (S (S (length Din)) - 1) with (S (length Din)) by lia.
      eapply returns_bind; [by apply (IHe Din)|]. intros r [Hw Hd]. apply returns_const.
      destruct (qualified_ok sh (Din ++ [pairs]) r h) as [Hq Hden]; [by destruct Din|done|done|].
      split; [done|]. intros rp Hrp. pose proof Hrp as Ht.
      apply Forall2_cons_inv_l in Hrp as (k & ab & Hk & Hb & ->).
      rewrite Hden, Hd by done. unfold unpair. cbn [drop take]. by repeat case_match.
Qed.
End Pairs.
End PathFacts.
