(* ===== verification/PredicateProps.v ===== *)
(** * The predicate algebra's contract

    The properties the runtime relies on, for every kind of key that meets
    [KeySetLaws] and every domain, in the terms of the code: what
    [contains_path] answers of the result of each operation.  Each is applied to
    the integer keys of [KeyInstances]. *)

From Stdlib Require Import List ZArith.
From stdpp Require Import gmap.
From S2P Require Import Prelude Predicate PredicateSem Returns KeyMaps.
From S2P Require Import PredicateParts PredicateProducts PredicateAlgebra.
From S2P Require Import PredicatePaths PredicatePathFacts KeyInstances.
Local Open Scope nat_scope.
Set Warnings "-clear-no-such-hyp".

(** ** Example predicates: pairs of integers under integer rows *)

Definition pt (z : Z) : Predicate Z := PIntervals (false, {[z]}).
Definition but (z : Z) : Predicate Z := PIntervals (true, {[z]}).
Definition pair_pred (p q : Predicate Z) : Predicate Z :=
  PRecord [("_0"%string, p); ("_1"%string, q)].
Definition pair_value (x y : Z) : Value Z :=
  VRecord [("_0"%string, VKey x); ("_1"%string, VKey y)].

Definition int_shape : Shape := SBase (tt : base).
Definition pair_shape : Shape := SRecord [("_0"%string, int_shape); ("_1"%string, int_shape)].
(** Innermost first. *)
Definition nested : Domain := [pair_shape; int_shape].

(** Pairs starting with 1 under row 1, and pairs not ending with 2 under every row. *)
Definition under_one : Predicate Z := PQualified (pt 1) (pair_pred (pt 1) PTrue).
Definition not_two : Predicate Z := pair_pred PTrue (but 2).

Lemma pair_schema : schema ["_0"%string; "_1"%string].
Proof. split; [by apply (bool_decide_unpack (NoDup _))|reflexivity]. Qed.

Lemma under_one_wf : wf nested under_one.
Proof. repeat split; apply pair_schema. Qed.

Lemma not_two_wf : wf nested not_two.
Proof. repeat split; apply pair_schema. Qed.

Section Contract.
Context {K : Type} {KS : KeySets K} {KL : KeySetLaws K KS}.
Abbreviation Predicate := (Predicate K).
Abbreviation Value := (Value K).

(** A region, read back by [contains_path]. *)
Lemma returns_region D (f : nat -> option Predicate) g :
  returns f (Sem D g) ->
  exists N r, wf D r /\ (forall n, N <= n -> f n = Some r) /\
    forall path, typed D (rev path) -> contains_path r path = Some (g (rev path)).
Proof.
  intros (N & r & [Hw Hd] & Hn). exists N, r. split; [done|]. split; [done|].
  intros path Hp. rewrite (contains_path_den D) by done. by rewrite Hd.
Qed.

(** C14: the intersection of two predicates over one domain returns, and
    admits exactly the paths both admit. *)
Theorem intersect_exact D (a b : Predicate) :
  wf D a -> wf D b ->
  exists N r, wf D r /\ (forall n, N <= n -> intersect n a b = Some r) /\
    forall path, typed D (rev path) ->
      contains_path r path
      = (x ← contains_path a path; y ← contains_path b path; Some (x && y)).
Proof.
  intros Ha Hb. destruct (returns_region D _ _ (key_intersect D a b Ha Hb))
    as (N & r & Hw & Hn & Hd). exists N, r. split; [done|]. split; [done|].
  intros path Hp. by rewrite Hd, !(contains_path_den D) by done.
Qed.

(** C15: the difference of two predicates over one domain returns, and admits
    exactly the paths the first admits and the second does not. *)
Theorem minus_exact D (a b : Predicate) :
  wf D a -> wf D b ->
  exists N r, wf D r /\ (forall n, N <= n -> minus n a b = Some r) /\
    forall path, typed D (rev path) ->
      contains_path r path
      = (x ← contains_path a path; y ← contains_path b path; Some (x && negb y)).
Proof.
  intros Ha Hb. destruct (returns_region D _ _ (key_minus D a b Ha Hb))
    as (N & r & Hw & Hn & Hd). exists N, r. split; [done|]. split; [done|].
  intros path Hp. by rewrite Hd, !(contains_path_den D) by done.
Qed.

(** C16: the union of two predicates over one domain returns, and admits
    exactly the paths one of them admits. *)
Theorem union_exact D (a b : Predicate) :
  wf D a -> wf D b ->
  exists N r, wf D r /\ (forall n, N <= n -> union_of n a b = Some r) /\
    forall path, typed D (rev path) ->
      contains_path r path
      = (x ← contains_path a path; y ← contains_path b path; Some (x || y)).
Proof.
  intros Ha Hb. destruct (returns_region D _ _ (key_union D a b Ha Hb))
    as (N & r & Hw & Hn & Hd). exists N, r. split; [done|]. split; [done|].
  intros path Hp. by rewrite Hd, !(contains_path_den D) by done.
Qed.

(** Containment and the difference say the same, on all points. *)
Lemma subsumes_by_minus D (a b : Predicate) :
  wf D a -> wf D b ->
  exists N x r, (forall n, N <= n -> subsumes n a b = Some x /\ minus n b a = Some r) /\ x = is_false r /\
    Holds D a b x.
Proof.
  intros Ha Hb. destruct (good_subsumes _ (good_all (X := PredicateSem.pt) D) a b Ha Hb) as (N & x & Hx & Hn).
  destruct (good_minus _ (good_all (X := PredicateSem.pt) D) b a Hb Ha) as (M & r & [Hw Hd] & Hm).
  exists (Nat.max N M), x, r. split; [intros n Hle; split; [apply Hn|apply Hm]; lia|]. split.
  - destruct x; simpl in Hx.
    + destruct (is_false r) eqn:Fr; [done|]. destruct (wf_shows (X := PredicateSem.pt) _ _ Hw Fr) as (rp & Hrp & Ht).
      rewrite Hd in Ht by done. unfold diff_of in Ht. apply andb_true_iff in Ht as [Hbt Hat]. by rewrite Hx in Hat.
    + destruct Hx as (rp & Hrp & H1 & H2). destruct (is_false r) eqn:Fr; [|done].
      pose proof (reads_false _ _ (wf_reads _ _ Hw) Fr rp Hrp) as Hf. rewrite Hd in Hf by done.
      unfold diff_of in Hf. by rewrite H1, H2 in Hf.
  - destruct x; [|done]. intros rp Hrp. rewrite <- !den_points. apply Hx. by apply typed_points.
Qed.

(** C17: [subsumes] returns, and answers [true] just where the difference that [minus] gives reads
    as empty.  [true] is right: every path of the domain the second admits is admitted by the
    first.  [false] is right too where the keys are all the points that bounds separate ([Onto]:
    not for strings, of which no neighbours are known, nor past the greatest [UInt]): then some
    path is admitted by the second alone. *)
Theorem subsumes_exact D (a b : Predicate) :
  wf D a -> wf D b ->
  exists N x r, (forall n, N <= n -> subsumes n a b = Some x /\ minus n b a = Some r) /\ x = is_false r /\
    (x = true -> forall path, typed D (rev path) ->
      contains_path b path = Some true -> contains_path a path = Some true) /\
    (x = false -> Onto K -> exists path, typed D (rev path) /\
      contains_path b path = Some true /\ contains_path a path = Some false).
Proof.
  intros Ha Hb. destruct (subsumes_by_minus D a b Ha Hb) as (N & x & r & Hn & Hr & Hx).
  exists N, x, r. split; [done|]. split; [done|]. split.
  - intros -> path Hp. rewrite !(contains_path_den D) by done. intros [= Hd]. f_equal. by apply Hx.
  - intros -> HO. destruct (good_subsumes _ (good_all (X := K) D) a b Ha Hb) as (M & y & Hy & Hm).
    assert (y = false) as ->.
    { pose proof (Hm (Nat.max N M) (Nat.le_max_r _ _)) as E. rewrite (proj1 (Hn _ (Nat.le_max_l N M))) in E. congruence. }
    destruct Hy as (rp & Hp & H1 & H2). exists (rev rp). rewrite rev_involutive. split; [done|].
    rewrite !(contains_path_den D), !rev_involutive by (by rewrite ?rev_involutive).
    by rewrite H1, H2.
Qed.

(** C18: [flatten_or] of a nonempty list of predicates over one domain returns
    the union of all of them: joining arms and dropping the arms another
    covers lose no path, and never drop every arm. *)
Theorem flatten_or_exact D (arms : list Predicate) :
  arms <> [] -> Forall (wf D) arms ->
  exists N r, wf D r /\ (forall n, N <= n -> flatten_or (ops n) arms = Some r) /\
    forall path, typed D (rev path) ->
      contains_path r path = anyM (fun a => contains_path a path) arms.
Proof.
  intros Hne Hw. assert (HD : D <> []) by (inversion Hw; subst; [done|by eapply wf_nonempty]).
  destruct (returns_region D _ _ (key_flatten D HD arms Hw Hne)) as (N & r & Hr & Hn & Hd).
  exists N, r. split; [done|]. split; [done|]. intros path Hp. rewrite Hd by done.
  symmetry. apply anyM_existsb. eapply Forall_impl; [exact Hw|]. intros a Ha. by eapply contains_path_den.
Qed.

(** [is_false] and [is_true] are sound: a predicate reads as empty only when no path of the domain
    is admitted, and as everything only when every path is; and where the keys are all the points,
    one that does not read as empty admits a path. *)
Theorem as_bool_exact D (p : Predicate) :
  wf D p ->
  (is_false p = true -> forall path, typed D (rev path) -> contains_path p path = Some false) /\
  (Onto K -> (forall path, typed D (rev path) -> contains_path p path = Some false) -> is_false p = true) /\
  (is_true p = true -> forall path, typed D (rev path) -> contains_path p path = Some true).
Proof.
  intros Hw. pose proof (wf_reads _ _ Hw) as Hr. split; [|split].
  - intros Hf path Hp. rewrite (contains_path_den D) by done. by rewrite (reads_false _ _ Hr).
  - intros HO H. destruct (is_false p) eqn:Hf; [done|].
    destruct (wf_shows (X := K) _ _ Hw Hf) as (rp & Hp & Hd).
    specialize (H (rev rp)). rewrite rev_involutive in H. specialize (H Hp).
    rewrite (contains_path_den D), rev_involutive in H by (by rewrite ?rev_involutive). congruence.
  - intros Ht path Hp. rewrite (contains_path_den D) by done. by rewrite (reads_true _ _ Hr).
Qed.

(** [within] takes a row's group out of a nested region: the result
    admits a path of the group just when the region admits the path through
    the row. *)
Theorem within_exact (p : Predicate) Din Drow row depth :
  wf (Din ++ Drow) p -> length Din = S depth -> typed Drow (rev row) ->
  exists N r, wf Din r /\ (forall n, N <= n -> within n p row depth = Some r) /\
    forall path, typed Din (rev path) -> contains_path r path = contains_path p (row ++ path).
Proof.
  intros Hp Hlen Hrow. destruct (returns_region Din _ _ (within_ok p Din Drow row depth Hp Hlen Hrow))
    as (N & r & Hw & Hn & Hd). exists N, r. split; [done|]. split; [done|].
  intros path Ht. rewrite Hd by done. symmetry. rewrite <- rev_app_distr.
  apply (contains_path_den (Din ++ Drow)); [done|]. rewrite rev_app_distr. by apply Forall2_app.
Qed.

(** [beneath] then [within] the same row is the region again, and within
    any other row it is empty: the two are inverse and a statement put beneath
    a row says nothing of its siblings. *)
Theorem beneath_within (p : Predicate) Din Drow row row' depth :
  Drow <> [] -> Forall shape_ok Drow -> wf Din p -> length Din = S depth ->
  typed Drow (rev row) -> typed Drow (rev row') ->
  exists N b r, (forall n, N <= n -> beneath n p row depth = Some b /\ within n b row' depth = Some r) /\
    forall path, typed Din (rev path) ->
      contains_path r path = Some true <-> row' = row /\ contains_path p path = Some true.
Proof.
  intros HD Hs Hp Hlen Hrow Hrow'.
  destruct (beneath_ok p Din Drow row depth HD Hs Hp Hlen Hrow) as (N & b & [Hb Hbd] & Hn).
  destruct (returns_region Din _ _ (within_ok b Din Drow row' depth Hb Hlen Hrow'))
    as (M & r & Hr & Hm & Hd).
  exists (Nat.max N M), b, r. split; [intros n Hle; split; [apply Hn|apply Hm]; lia|].
  intros path Hpath. rewrite Hd, (contains_path_den Din) by done.
  assert (forall x y : bool, Some x = Some y <-> x = y) as HSome by naive_solver.
  rewrite !HSome, Hbd by done. split; [|naive_solver].
  intros [E%(f_equal (@rev Value)) Hden]. rewrite !rev_involutive in E. done.
Qed.

(** Inserting a level keeps the region: a path of the result is admitted
    just when the path without the inserted component was. *)
Theorem with_level_inserted_exact (p : Predicate) Din Dab sh level at_ :
  wf (Din ++ Dab) p -> length Dab = at_ -> at_ + length Din = S level -> 0 < length Din ->
  exists N r, wf (Din ++ sh :: Dab) r /\
    (forall n, N <= n -> with_level_inserted n p level at_ = Some r) /\
    forall outer x inner, length outer = at_ -> typed (Din ++ sh :: Dab) (rev (outer ++ x :: inner)) ->
      contains_path r (outer ++ x :: inner) = contains_path p (outer ++ inner).
Proof.
  intros Hp Hab Hlev Hpos.
  destruct (returns_region _ _ _ (with_level_inserted_ok p Din Dab sh level at_ Hp Hab Hlev Hpos))
    as (N & r & Hw & Hn & Hd). exists N, r. split; [done|]. split; [done|].
  intros outer x inner Ho Ht. rewrite Hd by done.
  assert (rev (outer ++ x :: inner) = rev inner ++ x :: rev outer) as E.
  { rewrite rev_app_distr. simpl. by rewrite <- app_assoc. }
  rewrite E in Ht |- *. pose proof (Forall2_length _ _ _ Ht) as Hl.
  rewrite !length_app in Hl. simpl in Hl. rewrite !length_rev in Hl.
  assert (length (rev inner) = length Din) as Hi by (rewrite length_rev; lia).
  unfold skip. rewrite take_app_length' by done.
  rewrite (drop_app_ge _ _ (S (length Din))) by lia.
  replace (S (length Din) - length (rev inner)) with 1 by lia. cbn [drop]. rewrite drop_0.
  symmetry. rewrite <- rev_app_distr. apply (contains_path_den (Din ++ Dab)); [done|].
  rewrite rev_app_distr. apply Forall2_app_inv in Ht as [H1 H2]; [|done].
  apply Forall2_app; [done|]. by inversion H2.
Qed.

(** [without_covered] drops only paths that a level above already covers,
    and adds none: what it gives is inside the region, and holds every path of
    the region that no level above covers. *)
Theorem without_covered_sound sh Dab (p : Predicate) above :
  Dab <> [] -> wf (sh :: Dab) p -> length above <= length Dab ->
  (forall level whole, above !! level = Some whole ->
     wf (drop (length above - 1 - level) Dab) whole) ->
  exists N o, (forall n, N <= n -> without_covered n p above = Some o) /\
    forall r, o = Some r -> wf (sh :: Dab) r /\
      forall k ab, typed (sh :: Dab) (k :: ab) ->
        (contains_path r (rev (k :: ab)) = Some true -> contains_path p (rev (k :: ab)) = Some true) /\
        (contains_path p (rev (k :: ab)) = Some true -> covered_by above ab = false ->
           contains_path r (rev (k :: ab)) = Some true).
Proof.
  intros HD Hp Hl Ha.
  destruct (without_covered_ok sh Dab p above HD Hp Hl Ha) as (N & o & Ho & Hn).
  exists N, o. split; [done|]. intros r ->. destruct (Ho r eq_refl) as [Hw Hd]. split; [done|].
  intros k ab Ht. destruct (Hd k ab Ht) as [H1 H2].
  rewrite !(contains_path_den (sh :: Dab)), rev_involutive by (by rewrite ?rev_involutive).
  split; [intros [= H]; f_equal; auto|intros [= H] Hc; f_equal; auto].
Qed.

(** Merging the two outermost levels into one level of pairs keeps the
    region: the path through a pair is admitted just when the path through its
    two halves was. *)
Theorem with_levels_paired_exact (p : Predicate) f0 f1 s0 s1 Din level :
  schema [f0; f1] -> wf (Din ++ [s1; s0]) p -> level = S (length Din) ->
  exists N r, wf (Din ++ [pairs f0 f1 s0 s1]) r /\
    (forall n, N <= n -> with_levels_paired n p level 0 (f0, f1) = Some r) /\
    forall x0 x1 inner, has_shape s0 x0 -> has_shape s1 x1 -> typed Din (rev inner) ->
      contains_path r (pair_of f0 f1 x0 x1 :: inner) = contains_path p (x0 :: x1 :: inner).
Proof.
  intros Hf Hp Hl.
  destruct (returns_region _ _ _ (with_levels_paired_ok f0 f1 s0 s1 Hf p Din level Hp Hl))
    as (N & r & Hw & Hn & Hd). exists N, r. split; [done|]. split; [done|].
  intros x0 x1 inner H0 H1 Hi.
  assert (Hlen : length (rev inner) = length Din) by (symmetry; by eapply Forall2_length).
  rewrite Hd.
  - cbn [rev]. unfold unpair. rewrite drop_app_length', take_app_length' by done. cbn [pair_of].
    symmetry. erewrite contains_path_den; [|exact Hp|].
    + f_equal. cbn [rev]. by rewrite <- app_assoc.
    + cbn [rev]. rewrite <- app_assoc. apply Forall2_app; [done|]. by repeat constructor.
  - cbn [rev]. apply Forall2_app; [done|]. constructor; [by apply typed_pair|constructor].
Qed.
End Contract.

(** ** The properties at integer keys *)

Lemma intersect_exact_witness :
  exists N r, wf nested r /\ (forall n, N <= n -> intersect n under_one not_two = Some r) /\
    contains_path r [VKey 1%Z; pair_value 1 3] = Some true /\
    contains_path r [VKey 1%Z; pair_value 1 2] = Some false.
Proof.
  destruct (intersect_exact nested under_one not_two under_one_wf not_two_wf) as (N & r & Hw & Hn & Hd).
  exists N, r. split; [done|]. split; [done|]. rewrite !Hd by (by repeat constructor). by vm_compute.
Defined.

Lemma minus_exact_witness :
  exists N r, wf nested r /\ (forall n, N <= n -> minus n not_two under_one = Some r) /\
    contains_path r [VKey 1%Z; pair_value 1 3] = Some false /\
    contains_path r [VKey 4%Z; pair_value 1 3] = Some true.
Proof.
  destruct (minus_exact nested not_two under_one not_two_wf under_one_wf) as (N & r & Hw & Hn & Hd).
  exists N, r. split; [done|]. split; [done|]. rewrite !Hd by (by repeat constructor). by vm_compute.
Defined.

Lemma union_exact_witness :
  exists N r, wf nested r /\ (forall n, N <= n -> union_of n under_one not_two = Some r) /\
    contains_path r [VKey 1%Z; pair_value 1 2] = Some true /\
    contains_path r [VKey 4%Z; pair_value 1 2] = Some false.
Proof.
  destruct (union_exact nested under_one not_two under_one_wf not_two_wf) as (N & r & Hw & Hn & Hd).
  exists N, r. split; [done|]. split; [done|]. rewrite !Hd by (by repeat constructor). by vm_compute.
Defined.

Lemma subsumes_exact_witness :
  exists N x r, (forall n, N <= n -> subsumes n not_two under_one = Some x /\ minus n under_one not_two = Some r) /\
    x = is_false r /\
    if (x : bool)
    then forall path, typed nested (rev path) ->
      contains_path under_one path = Some true -> contains_path not_two path = Some true
    else exists path, typed nested (rev path) /\
      contains_path under_one path = Some true /\ contains_path not_two path = Some false.
Proof.
  destruct (subsumes_exact nested not_two under_one not_two_wf under_one_wf) as (N & x & r & Hn & Hr & Ht & Hf).
  exists N, x, r. split; [exact Hn|]. split; [exact Hr|]. destruct x; [exact (Ht eq_refl)|exact (Hf eq_refl int_onto)].
Defined.

Lemma flatten_or_exact_witness :
  exists N r, wf nested r /\ (forall n, N <= n -> flatten_or (ops n) [under_one; not_two; under_one] = Some r) /\
    contains_path r [VKey 1%Z; pair_value 1 2] = Some true.
Proof.
  destruct (flatten_or_exact nested [under_one; not_two; under_one]) as (N & r & Hw & Hn & Hd).
  - done.
  - constructor; [apply under_one_wf|]. constructor; [apply not_two_wf|].
    constructor; [apply under_one_wf|constructor].
  - exists N, r. split; [done|]. split; [done|]. rewrite Hd by (by repeat constructor). by vm_compute.
Defined.

Lemma as_bool_exact_witness :
  ~ (forall path, typed nested (rev path) -> contains_path under_one path = Some false).
Proof.
  destruct (as_bool_exact nested under_one under_one_wf) as (_ & Hf & _). intros H. by specialize (Hf int_onto H).
Defined.

Lemma within_exact_witness :
  exists N r, wf [pair_shape] r /\ (forall n, N <= n -> within n under_one [VKey 1%Z] 0 = Some r) /\
    contains_path r [pair_value 1 9] = Some true.
Proof.
  destruct (within_exact under_one [pair_shape] [int_shape] [VKey 1%Z] 0) as (N & r & Hw & Hn & Hd).
  - apply under_one_wf.
  - reflexivity.
  - by repeat constructor.
  - exists N, r. split; [done|]. split; [done|]. rewrite Hd by (by repeat constructor). by vm_compute.
Defined.

Lemma beneath_within_witness :
  exists N b r, (forall n, N <= n ->
      beneath n not_two [VKey 1%Z] 0 = Some b /\ within n b [VKey 5%Z] 0 = Some r) /\
    contains_path r [pair_value 0 3] <> Some true.
Proof.
  destruct (beneath_within not_two [pair_shape] [int_shape] [VKey 1%Z] [VKey 5%Z] 0)
    as (N & b & r & Hn & Hd).
  - done.
  - by repeat constructor.
  - repeat split; apply pair_schema.
  - reflexivity.
  - by repeat constructor.
  - by repeat constructor.
  - exists N, b, r. split; [done|]. rewrite Hd by (by repeat constructor). by intros [? _].
Defined.

Lemma with_level_inserted_exact_witness :
  exists N r, wf ([pair_shape] ++ int_shape :: [int_shape]) r /\
    (forall n, N <= n -> with_level_inserted n under_one 1 1 = Some r) /\
    contains_path r [VKey 1%Z; VKey 8%Z; pair_value 1 2] = Some true.
Proof.
  destruct (with_level_inserted_exact under_one [pair_shape] [int_shape] int_shape 1 1)
    as (N & r & Hw & Hn & Hd).
  - apply under_one_wf.
  - reflexivity.
  - reflexivity.
  - simpl. lia.
  - exists N, r. split; [done|]. split; [done|].
    transitivity (contains_path under_one ([VKey 1%Z] ++ [pair_value 1 2])); [|by vm_compute].
    apply (Hd [VKey 1%Z] (VKey 8%Z) [pair_value 1 2]); [reflexivity|by repeat constructor].
Defined.

Lemma without_covered_sound_witness :
  exists N o, (forall n, N <= n -> without_covered n under_one [but 7] = Some o) /\
    forall r, o = Some r -> wf nested r.
Proof.
  destruct (without_covered_sound pair_shape [int_shape] under_one [but 7]) as (N & o & Hn & Ho).
  - done.
  - apply under_one_wf.
  - simpl; lia.
  - intros [|level] whole Hw; simplify_eq/=; done.
  - exists N, o. split; [done|]. intros r Hr. apply (Ho r Hr).
Defined.

Lemma with_levels_paired_exact_witness :
  exists N r, wf ([] ++ [pairs "_0" "_1" int_shape pair_shape]) r /\
    (forall n, N <= n -> with_levels_paired n under_one 1 0 ("_0"%string, "_1"%string) = Some r) /\
    contains_path r [pair_of "_0" "_1" (VKey 1%Z) (pair_value 1 2)] = Some true.
Proof.
  destruct (with_levels_paired_exact under_one "_0" "_1" int_shape pair_shape [] 1) as (N & r & Hw & Hn & Hd).
  - apply pair_schema.
  - apply under_one_wf.
  - reflexivity.
  - exists N, r. split; [done|]. split; [done|].
    rewrite Hd; [by vm_compute|done|by repeat constructor|constructor].
Defined.

(** ** Where the code departs from its comments *)

(** Two pairs, as a union. *)
Definition diagonal : Predicate Z := POr [pair_pred (pt 1) (pt 1); pair_pred (pt 2) (pt 2)].

(** The arms of an [Or] can nest another: two qualifications that together cover
    every row join into their common keys, which may be an [Or]. *)
Fact flatten_or_nests :
  let arms := [PQualified (pt 1) diagonal; PQualified (pt 5) not_two; PQualified (but 1) diagonal] in
  forallb (fun a => negb (is_or a)) arms = true /\
  (r ← flatten_or (ops 20) arms;
   Some (match r with POr arms => existsb is_or arms | _ => false end)) = Some true.
Proof. split; vm_compute; reflexivity. Qed.

(** Over a union domain of two tags, both whole, [subsumes] does not see that
    everything is covered: the unnamed tags are taken to be inhabited. *)
Fact subsumes_open_tags :
  subsumes 20 (PUnion [(Name "A", PTrue); (Name "B", PTrue)] false : Predicate Z) PTrue = Some false.
Proof. vm_compute. reflexivity. Qed.

(** [with_levels_paired] below the outermost level, where the enclosing paths
    are a union: the record it builds has a qualified field, and reading it
    panics. *)
Fact paired_inner_levels_panic :
  let rows := POr [PQualified (pt 1) (pt 1); PQualified (pt 2) (pt 2)] in
  (r ← with_levels_paired 20 (PQualified rows (pt 7)) 2 1 ("a", "b");
   contains_path r [VKey 1%Z; VRecord [("a", VKey 1%Z); ("b", VKey 7%Z)]]) = None /\
  bool_decide (is_Some (with_levels_paired 20 (PQualified rows (pt 7)) 2 1 ("a", "b"))) = true.
Proof. split; vm_compute; reflexivity. Qed.
