(* ===== verification/Releases.v ===== *)
(** * Release bookkeeping and the stream buffer
    ([src/interpreter/producer_releases.rs], [src/interpreter/stream_buffer.rs])

    What each producer of a source has released, and the sliding window of
    values a streaming source keeps until all of them have.  Indices are [UInt]
    keys, the integers of [KeySets]; a panic is [None]; the predicates' unions
    and intersections take the fuel of [Predicate.ops]. *)

From Stdlib Require Import ZArith.
From stdpp Require Import gmap.
From S2P Require Import Prelude Predicate.
Local Open Scope Z_scope.

(** ** Index sets

    The further operations of the [intervalsets] crate the buffer reads index
    sets with: the empty and unbounded sets, a closed interval, one with no lower end, and
    the bounds of a set's intervals in order. *)
Class IndexSets (KS : KeySets Z) := {
  empty_set : iset;
  unbounded_set : iset;
  closed_interval : Z -> Z -> iset;
  unbound_closed : Z -> iset;
  bounds : iset -> list (option Z * option Z)
}.

Section Releases.
Context {KS : KeySets Z} {IS : IndexSets KS}.
Abbreviation Predicate := (Predicate Z).

(** ** [ProducerReleases] *)

Record ProducerReleases := MkReleases {
  per_producer : gmap string Predicate;
  on_registration : Predicate
}.

Definition releases_default : ProducerReleases := MkReleases ∅ PFalse.

(** [record]. *)
Definition record_release (fuel : nat) (r : ProducerReleases) (producer : string)
    (obsolete : Predicate) : option ProducerReleases :=
  let recorded := default (on_registration r) (per_producer r !! producer) in
  u ← union_of fuel recorded obsolete;
  Some (MkReleases (<[producer := u]> (per_producer r)) (on_registration r)).

(** [retire]. *)
Definition retire (r : ProducerReleases) (producer : string) : ProducerReleases :=
  MkReleases (delete producer (per_producer r)) (on_registration r).

(** [of]. *)
Definition released_by (r : ProducerReleases) (producer : string) : option Predicate :=
  per_producer r !! producer.

(** The fold of [agreed] and of [carry_to_new_producers]. *)
Definition intersect_all (fuel : nat) (l : list Predicate) : option Predicate :=
  foldl (fun agreed released => a ← agreed; intersect fuel a released) (Some PTrue) l.

(** [agreed]. *)
Definition agreed (fuel : nat) (r : ProducerReleases) : option Predicate :=
  if decide (per_producer r = ∅) then Some PFalse
  else intersect_all fuel (map snd (map_to_list (per_producer r))).

(** [carry_to_new_producers]. *)
Definition carry_to_new_producers (fuel : nat) (r : ProducerReleases) (predecessor : gset string) :
    option ProducerReleases :=
  let theirs := map snd (List.filter (fun np => bool_decide (np.1 ∈ predecessor))
    (map_to_list (per_producer r))) in
  start ← (match theirs with [] => agreed fuel r | _ => intersect_all fuel theirs end);
  Some (MkReleases (per_producer r) start).

(** ** [UIntStreamBuffer] *)

Record UIntStreamBuffer := MkBuffer {
  buffer : list bytes;
  start_idx : Z;
  ready_size : Z;
  eof_reached : bool;
  closed : bool;
  releases : ProducerReleases
}.

Definition U64_MAX : Z := 2 ^ 64 - 1.

(** [new]. *)
Definition buffer_new : UIntStreamBuffer := MkBuffer [] 0 0 false false releases_default.

(** [push]: the counter's overflow is a panic, as in a build with overflow checks. *)
Definition push (b : UIntStreamBuffer) (value : bytes) : option UIntStreamBuffer :=
  if ready_size b =? U64_MAX then None
  else if closed b then
    Some (MkBuffer (buffer b) (start_idx b + 1) (ready_size b + 1) (eof_reached b) (closed b) (releases b))
  else
    Some (MkBuffer (buffer b ++ [value]) (start_idx b) (ready_size b + 1) (eof_reached b) (closed b)
            (releases b)).

(** [get_opt]: [None] is the index panic, [Some None] an index not held. *)
Definition get_opt (b : UIntStreamBuffer) (i : Z) : option (option bytes) :=
  if closed b || (i <? start_idx b) || (ready_size b <=? i) then Some None
  else match buffer b !! Z.to_nat (i - start_idx b) with
  | Some v => Some (Some v)
  | None => None
  end.

(** [get]. *)
Definition get (b : UIntStreamBuffer) (i : Z) : option bytes :=
  o ← get_opt b i; o.

(** [release_index]: [drain] panics past the end. *)
Definition release_index (b : UIntStreamBuffer) (i : Z) : option UIntStreamBuffer :=
  if i <? start_idx b then Some b
  else if ready_size b <=? i then None
  else
    let n := Z.to_nat (i - start_idx b + 1) in
    if (n <=? length (buffer b))%nat then
      Some (MkBuffer (drop n (buffer b)) (i + 1) (ready_size b) (eof_reached b) (closed b) (releases b))
    else None.

(** [close]. *)
Definition close (b : UIntStreamBuffer) : UIntStreamBuffer :=
  MkBuffer [] (ready_size b) (ready_size b) (eof_reached b) true (releases b).

(** [Predicate::at_or_below] of an index. *)
Definition at_or_below (i : Z) : Predicate := intervals (unbound_closed i).

(** [get_yield_predicate]. *)
Definition get_yield_predicate (b : UIntStreamBuffer) : Predicate :=
  if eof_reached b then PTrue
  else if ready_size b =? 0 then PFalse
  else at_or_below (ready_size b - 1).

(** [retained_window]. *)
Definition retained_window (b : UIntStreamBuffer) : Z * Z :=
  if closed b || (ready_size b <=? start_idx b) then (0, 0) else (start_idx b, ready_size b).

(** [live_window]. *)
Definition live_window (b : UIntStreamBuffer) : iset :=
  if ready_size b <=? start_idx b then empty_set
  else closed_interval (start_idx b) (ready_size b - 1).

(** [index_set]: every key of [Z] is an index, so the bounds need no test. *)
Definition index_set (guard : Predicate) : option iset :=
  match guard with
  | PTrue => Some unbounded_set
  | PFalse => Some empty_set
  | PIntervals s => Some s
  | _ => None
  end.

(** [lo..=hi]. *)
Definition inclusive (lo hi : Z) : list Z := map (fun j => lo + Z.of_nat j) (seq 0 (Z.to_nat (hi - lo + 1))).

(** [get_elements]. *)
Definition get_elements (b : UIntStreamBuffer) (producer : string) : option (list Z) :=
  obsolete ← released_by (releases b) producer;
  s ← index_set obsolete;
  runs ← mapM (fun iv => match iv with
    | (Some lo, Some hi) => Some (inclusive lo hi)
    | _ => None
    end) (bounds (difference (live_window b) s));
  Some (concat runs).

(** [released_prefix]: the outer [None] is the [unreachable!]. *)
Definition released_prefix (b : UIntStreamBuffer) (agreed : iset) : option (option Z) :=
  match bounds (intersection (live_window b) agreed) with
  | (Some lo, Some hi) :: _ => Some (if lo =? start_idx b then Some hi else None)
  | [] => Some None
  | _ => None
  end.

(** [release]. *)
Definition release (fuel : nat) (b : UIntStreamBuffer) (producer : string) (obsolete : Predicate) :
    option UIntStreamBuffer :=
  r ← record_release fuel (releases b) producer obsolete;
  let b := MkBuffer (buffer b) (start_idx b) (ready_size b) (eof_reached b) (closed b) r in
  a ← agreed fuel (releases b);
  if is_true a then Some (close b)
  else
    s ← index_set a;
    p ← released_prefix b s;
    match p with
    | Some i => release_index b i
    | None => Some b
    end.

(** [carry_release_to_new_producers] and [retire_producer]. *)
Definition carry_release_to_new_producers (fuel : nat) (b : UIntStreamBuffer)
    (predecessor : gset string) : option UIntStreamBuffer :=
  r ← carry_to_new_producers fuel (releases b) predecessor;
  Some (MkBuffer (buffer b) (start_idx b) (ready_size b) (eof_reached b) (closed b) r).

Definition retire_producer (b : UIntStreamBuffer) (producer : string) : UIntStreamBuffer :=
  MkBuffer (buffer b) (start_idx b) (ready_size b) (eof_reached b) (closed b)
    (retire (releases b) producer).

(** [first_index_for_a_new_producer]. *)
Definition first_index_for_a_new_producer (b : UIntStreamBuffer) : option Z :=
  s ← index_set (on_registration (releases b));
  p ← released_prefix b s;
  Some (match p with Some last => last + 1 | None => start_idx b end).
End Releases.
