(* ===== verification/ReleaseFacts.v ===== *)
(** * What the release bookkeeping guarantees

    The contract of index sets ([IndexSetLaws]), and the facts of [Releases]:
    the agreement is what every producer has released, the window holds the
    values pushed and not dropped, and a release drops the longest run every
    producer has released. *)

From Stdlib Require Import ZArith Lia.
From stdpp Require Import gmap.
From stdpp Require Import list sorting.
From S2P Require Import Prelude Predicate PredicateSem PredicateParts Releases.
Local Open Scope Z_scope.
Set Warnings "-clear-no-such-hyp".

(** Runs of indices: nonempty, ascending, disjoint. *)
Fixpoint ascending (gap : Z) (l : list (Z * Z)) : Prop :=
  match l with
  | [] => True
  | (lo, hi) :: l =>
      lo <= hi /\ Forall (fun lh => hi + gap < lh.1) l /\ ascending gap l
  end.

Definition in_run (k : Z) (lh : Z * Z) : Prop := lh.1 <= k <= lh.2.

(** Whether a set holds a key. *)
Abbreviation key_mem s k := (mem s (pt_of k)).

(** The contract of the index sets: all keys are of one type, membership of the
    three sets, the bounds of a bounded set as its runs, and the runs of a
    canonical set cut by a window are not adjacent. *)
Class IndexSetLaws (KS : KeySets Z) (KL : KeySetLaws Z KS) (IS : IndexSets KS) := {
  index_base : base;
  of_index k : of_base (pt_of k) = index_base;
  over_empty : over index_base empty_set;
  over_unbounded : over index_base unbounded_set;
  over_closed lo hi : over index_base (closed_interval lo hi);
  over_unbound_closed i : over index_base (unbound_closed i);
  mem_empty k : key_mem empty_set k = false;
  mem_unbounded k : key_mem unbounded_set k = true;
  mem_closed lo hi k : key_mem (closed_interval lo hi) k = (lo <=? k) && (k <=? hi);
  mem_unbound_closed i k : key_mem (unbound_closed i) k = (k <=? i);
  bounds_finite s lo hi :
    over index_base s -> (forall k, key_mem s k = true -> lo <= k <= hi) ->
    exists l, bounds s = map (fun lh => (Some lh.1, Some lh.2)) l /\ ascending 0 l /\
      forall k, key_mem s k = true <-> Exists (in_run k) l;
  bounds_separated s lo hi l :
    canon index_base s \/ s = unbounded_set \/ s = empty_set ->
    bounds (intersection (closed_interval lo hi) s) = map (fun lh => (Some lh.1, Some lh.2)) l ->
    ascending 1 l
}.

Section ReleaseFacts.
Context {KS : KeySets Z} {KL : KeySetLaws Z KS} {IS : IndexSets KS} {IL : IndexSetLaws KS KL IS}.
Abbreviation Predicate := (Predicate Z).

(** ** Predicates over indices *)

(** The predicates a [UInt] extent has: everything, nothing, or a canonical set. *)
Definition index_pred (p : Predicate) : Prop := is_or p = false /\ wf1 (SBase index_base) p.

Definition admits (p : Predicate) (k : Z) : bool := den p [VKey k].

Lemma index_key k : has_shape (SBase index_base) (VKey k).
Proof. apply of_index. Qed.

Lemma contains_admits p k : index_pred p -> contains p (VKey k) = Some (admits p k).
Proof. intros [_ Hw]. apply (contains_den (SBase index_base)); [done|apply index_key]. Qed.

Lemma intervals_index s :
  over index_base s -> index_pred (intervals s) /\ forall k, admits (intervals s) k = key_mem s k.
Proof.
  intros Ho. destruct (intervals_ok index_base s Ho) as (H1 & H2 & H3).
  split; [done|]. intros k. apply H3, of_index.
Qed.

Lemma index_cases p :
  index_pred p -> p = PTrue \/ p = PFalse \/ exists s, p = PIntervals s /\ canon index_base s.
Proof. intros [Ho Hw]. destruct p; simpl in *; try done; eauto. Qed.

Lemma index_intersect n a b :
  index_pred a -> index_pred b ->
  exists r, intersect (S n) a b = Some r /\ index_pred r /\ forall k, admits r k = admits a k && admits b k.
Proof.
  intros Ha Hb. change (intersect (S n) a b) with (intersect_with (ops n) a b).
  destruct (index_cases a Ha) as [->|[->|(s & -> & Hs)]];
    destruct (index_cases b Hb) as [->|[->|(s' & -> & Hs')]];
    try (eexists; split; [reflexivity|]; split; [done|]; intros k; unfold admits; simpl;
         by rewrite ?andb_true_r, ?andb_false_r).
  pose proof (canon_over _ _ Hs). pose proof (canon_over _ _ Hs').
  destruct (intervals_index (intersection s s')) as [H1 H2]; [by apply over_intersection|].
  eexists. split; [reflexivity|]. split; [done|]. intros k. rewrite H2.
  apply (mem_intersection index_base); [done|done|apply of_index].
Qed.

Lemma index_union n a b :
  index_pred a -> index_pred b ->
  exists r, union_of (S n) a b = Some r /\ index_pred r /\ forall k, admits r k = admits a k || admits b k.
Proof.
  intros Ha Hb. change (union_of (S n) a b) with (union_with (ops n) a b).
  destruct (index_cases a Ha) as [->|[->|(s & -> & Hs)]];
    destruct (index_cases b Hb) as [->|[->|(s' & -> & Hs')]];
    try (eexists; split; [reflexivity|]; split; [done|]; intros k; unfold admits; simpl;
         by rewrite ?orb_true_r, ?orb_false_r).
  pose proof (canon_over _ _ Hs). pose proof (canon_over _ _ Hs').
  destruct (intervals_index (union s s')) as [H1 H2]; [by apply over_union|].
  eexists. split; [reflexivity|]. split; [done|]. intros k. rewrite H2.
  apply (mem_union index_base); [done|done|apply of_index].
Qed.

(** The index set of a predicate. *)
Lemma index_set_ok p :
  index_pred p -> exists s, index_set p = Some s /\ over index_base s /\
    (canon index_base s \/ s = unbounded_set \/ s = empty_set) /\ forall k, key_mem s k = admits p k.
Proof.
  intros Hp. destruct (index_cases p Hp) as [->|[->|(s & -> & Hs)]].
  - exists unbounded_set. split; [done|]. split; [apply over_unbounded|]. split; [auto|].
    intros k. apply mem_unbounded.
  - exists empty_set. split; [done|]. split; [apply over_empty|]. split; [auto|].
    intros k. apply mem_empty.
  - exists s. split; [done|]. split; [by apply canon_over|]. split; [auto|done].
Qed.

(** ** The agreement *)

Definition releases_ok (r : ProducerReleases) : Prop :=
  map_Forall (fun _ p => index_pred p) (per_producer r) /\ index_pred (on_registration r).

(** Every registered producer has released [k]. *)
Definition all_released (r : ProducerReleases) (k : Z) : Prop :=
  per_producer r <> ∅ /\ map_Forall (fun _ p => admits p k = true) (per_producer r).

Lemma intersect_all_ok n l :
  Forall index_pred l ->
  exists a, intersect_all (S n) l = Some a /\ index_pred a /\
    forall k, admits a k = true <-> Forall (fun p => admits p k = true) l.
Proof.
  intros Hl. unfold intersect_all.
  assert (forall a0, index_pred a0 -> exists a,
    foldl (fun agreed released => a ← agreed; intersect (S n) a released) (Some a0) l = Some a /\
    index_pred a /\ forall k, admits a k = true <-> admits a0 k = true /\ Forall (fun p => admits p k = true) l)
    as Hgen.
  { induction Hl as [|p l Hp _ IH]; intros a0 Ha0.
    - exists a0. split; [done|]. split; [done|]. intros k. rewrite Forall_nil. tauto.
    - destruct (index_intersect n a0 p Ha0 Hp) as (r & Er & Hr & Hd).
      destruct (IH r Hr) as (a & Ea & Ha & Hk). exists a. simpl. rewrite Er.
      split; [done|]. split; [done|]. intros k. rewrite Hk, Hd, andb_true_iff, Forall_cons. tauto. }
  destruct (Hgen PTrue) as (a & Ea & Ha & Hk); [done|]. exists a. split; [done|]. split; [done|].
  intros k. rewrite Hk. unfold admits at 1. simpl. tauto.
Qed.

Lemma Forall_values {A} (P : A -> Prop) (m : gmap string A) :
  Forall P (map snd (map_to_list m)) <-> map_Forall (fun _ x => P x) m.
Proof.
  rewrite Forall_forall. unfold map_Forall. split.
  - intros H k x Hk. apply H. apply list_elem_of_In, in_map_iff. exists (k, x). split; [done|].
    apply list_elem_of_In. by apply elem_of_map_to_list.
  - intros H x Hx. apply list_elem_of_In, in_map_iff in Hx as ([k y] & <- & Hin).
    apply list_elem_of_In, elem_of_map_to_list in Hin. by eapply H.
Qed.

Lemma agreed_ok n r :
  releases_ok r -> exists a, agreed (S n) r = Some a /\ index_pred a /\
    forall k, admits a k = true <-> all_released r k.
Proof.
  intros [Hp _]. unfold agreed, all_released. destruct (decide (per_producer r = ∅)) as [E|E].
  - exists PFalse. split; [done|]. split; [done|]. intros k. unfold admits. simpl. naive_solver.
  - destruct (intersect_all_ok n (map snd (map_to_list (per_producer r)))) as (a & Ea & Ha & Hk).
    { by apply Forall_values. }
    exists a. split; [done|]. split; [done|]. intros k. rewrite Hk, Forall_values. naive_solver.
Qed.

Lemma record_release_ok n r producer obsolete :
  releases_ok r -> index_pred obsolete ->
  exists r' p, record_release (S n) r producer obsolete = Some r' /\ releases_ok r' /\
    per_producer r' = <[producer := p]> (per_producer r) /\ on_registration r' = on_registration r /\
    forall k, admits p k
      = admits (default (on_registration r) (per_producer r !! producer)) k || admits obsolete k.
Proof.
  intros [Hp Hr] Ho. unfold record_release.
  assert (index_pred (default (on_registration r) (per_producer r !! producer))) as Hd.
  { destruct (per_producer r !! producer) as [p|] eqn:E; [|done]. simpl. by apply (Hp _ _ E). }
  destruct (index_union n _ _ Hd Ho) as (u & -> & Hu & Hk). simpl.
  eexists _, u. split; [done|]. simpl. split; [|done].
  split; [|done]. by apply map_Forall_insert_2.
Qed.

(** ** The window *)

Record window_ok (b : UIntStreamBuffer) : Prop := {
  wi_start : 0 <= start_idx b <= ready_size b;
  wi_ready : ready_size b <= U64_MAX;
  wi_open : closed b = false -> Z.of_nat (length (buffer b)) = ready_size b - start_idx b;
  wi_closed : closed b = true -> buffer b = [] /\ start_idx b = ready_size b;
  wi_releases : releases_ok (releases b)
}.

Lemma live_mem b k : key_mem (live_window b) k = (start_idx b <=? k) && (k <? ready_size b).
Proof.
  unfold live_window. destruct (Z.leb_spec (ready_size b) (start_idx b)).
  - rewrite mem_empty. destruct (Z.leb_spec (start_idx b) k), (Z.ltb_spec k (ready_size b)); lia || done.
  - rewrite mem_closed. f_equal. destruct (Z.leb_spec k (ready_size b - 1)), (Z.ltb_spec k (ready_size b)); lia || done.
Qed.

Lemma live_over b : over index_base (live_window b).
Proof. unfold live_window. case_match; [apply over_empty|apply over_closed]. Qed.

Lemma ascending_gt gap l k lo hi :
  ascending gap ((lo, hi) :: l) -> k <= hi + gap -> Exists (in_run k) l -> False.
Proof.
  intros (_ & Hf & _) Hk He. apply Exists_exists in He as ([lo' hi'] & Hin & Hr).
  rewrite Forall_forall in Hf. specialize (Hf _ Hin). unfold in_run in Hr. simpl in *. lia.
Qed.

Lemma released_prefix_ok b s :
  over index_base s -> canon index_base s \/ s = unbounded_set \/ s = empty_set ->
  exists p, released_prefix b s = Some p /\
    match p with
    | Some hi => start_idx b <= hi < ready_size b /\
        (forall i, start_idx b <= i <= hi -> key_mem s i = true) /\
        (hi + 1 < ready_size b -> key_mem s (hi + 1) = false)
    | None => start_idx b < ready_size b -> key_mem s (start_idx b) = false
    end.
Proof.
  intros Ho Hc. unfold released_prefix.
  assert (Hmem : forall k, key_mem (intersection (live_window b) s) k
    = (start_idx b <=? k) && (k <? ready_size b) && key_mem s k).
  { intros k. rewrite (mem_intersection index_base), live_mem; [done|apply live_over|done|apply of_index]. }
  destruct (bounds_finite (intersection (live_window b) s) (start_idx b) (ready_size b))
    as (l & El & Hasc & Hl).
  { apply over_intersection; [apply live_over|done]. }
  { intros k. rewrite Hmem, !andb_true_iff, Z.leb_le, Z.ltb_lt. lia. }
  setoid_rewrite Hmem in Hl. setoid_rewrite andb_true_iff in Hl.
  setoid_rewrite andb_true_iff in Hl. setoid_rewrite Z.leb_le in Hl. setoid_rewrite Z.ltb_lt in Hl.
  rewrite El. destruct l as [|[lo hi] l].
  - exists None. split; [done|]. intros Hlt. apply not_true_iff_false. intros Hm.
    destruct (Hl (start_idx b)) as [H _]. specialize (H ltac:(repeat split; [lia|lia|done])). inversion H.
  - simpl. pose proof Hasc as (Hle & Hf & _).
    assert (Hlo : start_idx b <= lo < ready_size b /\ key_mem s lo = true).
    { destruct (Hl lo) as [_ H]. destruct H as [[? ?] ?]; [left; unfold in_run; simpl; lia|]. done. }
    destruct (Z.eqb_spec lo (start_idx b)) as [E|E].
    + exists (Some hi). split; [done|].
      assert (Hrun : forall i, lo <= i <= hi -> start_idx b <= i < ready_size b /\ key_mem s i = true).
      { intros i Hi. destruct (Hl i) as [_ H]. destruct H as [[? ?] ?]; [left; unfold in_run; simpl; lia|]. done. }
      split; [destruct (Hrun hi); lia|]. split; [intros i Hi; by apply Hrun; lia|].
      intros Hlt. apply not_true_iff_false. intros Hm.
      assert (Hsep : ascending 1 ((lo, hi) :: l)).
      { eapply (bounds_separated s (start_idx b) (ready_size b - 1)); [done|].
        unfold live_window in El. destruct (Z.leb_spec (ready_size b) (start_idx b)); [lia|]. exact El. }
      destruct (Hl (hi + 1)) as [H _]. specialize (H ltac:(repeat split; [lia|lia|done])).
      inversion H as [? ? Hr|? ? Hr]; subst; [unfold in_run in Hr; simpl in Hr; lia|].
      eapply ascending_gt; [exact Hsep| |exact Hr]. lia.
    + exists None. split; [done|]. intros Hlt. apply not_true_iff_false. intros Hm.
      destruct (Hl (start_idx b)) as [H _]. specialize (H ltac:(repeat split; [lia|lia|done])).
      inversion H as [? ? Hr|? ? Hr]; subst; [unfold in_run in Hr; simpl in Hr; lia|].
      eapply ascending_gt; [exact Hasc| |exact Hr]. lia.
Qed.

Lemma release_index_ok b i :
  window_ok b -> closed b = false -> start_idx b <= i < ready_size b ->
  exists b', release_index b i = Some b' /\ window_ok b' /\ start_idx b' = i + 1 /\
    ready_size b' = ready_size b /\ closed b' = false /\ releases b' = releases b /\
    buffer b' = drop (Z.to_nat (i - start_idx b + 1)) (buffer b).
Proof.
  intros [H1 H2 H3 H4 H5] Hc Hi. unfold release_index.
  destruct (Z.ltb_spec i (start_idx b)); [lia|]. destruct (Z.leb_spec (ready_size b) i); [lia|].
  specialize (H3 Hc). destruct (Nat.leb_spec (Z.to_nat (i - start_idx b + 1)) (length (buffer b))); [|lia].
  eexists. split; [done|]. simpl. split; [|by rewrite Hc].
  split; simpl; [lia|lia| |by rewrite Hc|done]. intros _. rewrite length_drop. lia.
Qed.

(** What a release does to the window. *)
Record release_effect (b b' : UIntStreamBuffer) : Prop := {
  re_window : window_ok b';
  re_ready : ready_size b' = ready_size b;
  re_start : start_idx b <= start_idx b';
  (** a release closes the window only when every producer is done with every index *)
  re_close : closed b' = true -> closed b = true \/ forall k, all_released (releases b') k;
  (** only what all have released is dropped *)
  re_dropped i : start_idx b <= i < start_idx b' -> all_released (releases b') i;
  (** and no more can be *)
  re_longest : start_idx b' < ready_size b' -> ~ all_released (releases b') (start_idx b');
  re_buffer : closed b' = false ->
    buffer b' = drop (Z.to_nat (start_idx b' - start_idx b)) (buffer b)
}.

Lemma with_releases_ok b r :
  window_ok b -> releases_ok r ->
  window_ok (MkBuffer (buffer b) (start_idx b) (ready_size b) (eof_reached b) (closed b) r).
Proof. intros [H1 H2 H3 H4 H5] Hr. by split. Qed.

Lemma release_ok n b producer obsolete :
  window_ok b -> index_pred obsolete ->
  exists b', release (S n) b producer obsolete = Some b' /\ release_effect b b' /\
    exists p, per_producer (releases b') = <[producer := p]> (per_producer (releases b)) /\
      forall k, admits p k = admits (default (on_registration (releases b))
        (per_producer (releases b) !! producer)) k || admits obsolete k.
Proof.
  intros Hb Ho. unfold release.
  destruct (record_release_ok n (releases b) producer obsolete (wi_releases _ Hb) Ho)
    as (r & p & -> & Hr & Hper & _ & Hk). cbn [mbind option_bind releases].
  set (b1 := MkBuffer _ _ _ _ _ r). pose proof (with_releases_ok b r Hb Hr) as Hb1. fold b1 in Hb1.
  destruct (agreed_ok n r Hr) as (a & -> & Ha & Hka). cbn [mbind option_bind].
  pose proof (wi_start _ Hb) as Hs.
  destruct (is_true a) eqn:Ta.
  - exists (close b1). split; [done|]. split; [|by exists p].
    assert (Hall : forall k, all_released r k).
    { intros k. apply Hka. destruct Ha as [_ Hw].
      apply (reads_true _ _ (wf1_reads _ _ Hw) Ta [VKey k]). by repeat constructor; apply index_key. }
    split; simpl; try done; try lia.
    + split; simpl; try done; try lia. apply Hb.
    + by auto.
  - destruct (index_set_ok a Ha) as (s & -> & Hover & Hcanon & Hmem). cbn [mbind option_bind].
    destruct (released_prefix_ok b1 s Hover Hcanon) as (pr & -> & Hpr). cbn [mbind option_bind].
    assert (Hall : forall k, key_mem s k = true <-> all_released r k).
    { intros k. by rewrite Hmem, Hka. }
    destruct pr as [i|].
    + destruct Hpr as (Hi & Hrun & Hnext). simpl in Hi, Hrun, Hnext.
      destruct (closed b) eqn:Ec; [destruct (wi_closed _ Hb Ec); lia|].
      destruct (release_index_ok b1 i Hb1 eq_refl Hi) as (b' & -> & Hb' & Es & Er & Ec' & Erel & Ebuf).
      exists b'. split; [done|]. split; [|exists p; by rewrite Erel]. simpl in *. split; rewrite ?Erel, ?Es, ?Er; try done.
      * lia.
      * by rewrite Ec'.
      * intros j Hj. apply Hall, Hrun. lia.
      * intros Hlt Hrel. apply Hall in Hrel. rewrite Hnext in Hrel; [done|lia].
      * intros _. rewrite Ebuf. f_equal. lia.
    + exists b1. split; [done|]. split; [|by exists p]. simpl in Hpr. split; simpl; try done.
      * by auto.
      * intros j Hj. lia.
      * intros Hlt Hrel. apply Hall in Hrel. rewrite Hpr in Hrel; done.
      * intros _. rewrite Z.sub_diag. by rewrite drop_0.
Qed.

(** ** Elements offered to a producer *)

Lemma inclusive_elem lo hi k : k ∈ inclusive lo hi <-> lo <= k <= hi.
Proof.
  unfold inclusive. rewrite list_elem_of_In, in_map_iff. split.
  - intros (j & <- & Hj%in_seq). lia.
  - intros H. exists (Z.to_nat (k - lo)). split; [lia|]. apply in_seq. lia.
Qed.

Lemma get_elements_ok b producer p :
  released_by (releases b) producer = Some p -> index_pred p ->
  exists l, get_elements b producer = Some l /\
    forall k, k ∈ l <-> start_idx b <= k < ready_size b /\ admits p k = false.
Proof.
  intros Hp Hi. unfold get_elements. rewrite Hp. cbn [mbind option_bind].
  destruct (index_set_ok p Hi) as (s & -> & Ho & _ & Hs). cbn [mbind option_bind].
  assert (Hmem : forall k, key_mem (difference (live_window b) s) k
    = (start_idx b <=? k) && (k <? ready_size b) && negb (key_mem s k)).
  { intros k. rewrite (mem_difference index_base), live_mem; [done|apply live_over|done|apply of_index]. }
  destruct (bounds_finite (difference (live_window b) s) (start_idx b) (ready_size b))
    as (l & -> & _ & Hl).
  { apply over_difference; [apply live_over|done]. }
  { intros k. rewrite Hmem, !andb_true_iff, Z.leb_le, Z.ltb_lt. lia. }
  assert (mapM (fun iv : option Z * option Z => match iv with
    | (Some lo, Some hi) => Some (inclusive lo hi) | _ => None end)
    (map (fun lh => (Some lh.1, Some lh.2)) l) = Some (map (fun lh => inclusive lh.1 lh.2) l)) as ->.
  { clear. induction l as [|[lo hi] l IH]; simpl; [done|]. by rewrite IH. }
  cbn [mbind option_bind]. eexists. split; [done|]. intros k.
  assert (k ∈ concat (map (fun lh => inclusive lh.1 lh.2) l) <-> Exists (in_run k) l) as ->.
  { rewrite list_elem_of_In, in_concat, Exists_exists. split.
    - intros (x & (lh & <- & Hlh)%in_map_iff & Hk). exists lh. split; [by apply list_elem_of_In|].
      by apply list_elem_of_In, inclusive_elem in Hk.
    - intros (lh & Hlh & Hk). exists (inclusive lh.1 lh.2). split.
      + apply in_map_iff. exists lh. split; [done|]. by apply list_elem_of_In.
      + by apply list_elem_of_In, inclusive_elem. }
  rewrite <- Hl, Hmem, !andb_true_iff, Z.leb_le, Z.ltb_lt, Hs, negb_true_iff. done.
Qed.

Lemma first_index_ok b :
  window_ok b ->
  exists f, first_index_for_a_new_producer b = Some f /\ start_idx b <= f <= ready_size b /\
    (forall i, start_idx b <= i < f -> admits (on_registration (releases b)) i = true) /\
    (f < ready_size b -> admits (on_registration (releases b)) f = false).
Proof.
  intros Hb. unfold first_index_for_a_new_producer.
  destruct (index_set_ok _ (proj2 (wi_releases _ Hb))) as (s & -> & Ho & Hc & Hm). cbn [mbind option_bind].
  destruct (released_prefix_ok b s Ho Hc) as (pr & -> & Hpr). cbn [mbind option_bind].
  pose proof (wi_start _ Hb). eexists. split; [done|]. destruct pr as [hi|].
  - destruct Hpr as (Hi & Hrun & Hnext). split; [lia|]. split.
    + intros i ?. rewrite <- Hm. apply Hrun. lia.
    + intros ?. rewrite <- Hm. by apply Hnext.
  - split; [lia|]. split; [intros i ?; lia|]. intros ?. rewrite <- Hm. by apply Hpr.
Qed.

(** ** The buffer as a machine *)

(** One call on a buffer, with every value pushed so far. *)
Inductive step : UIntStreamBuffer * list bytes -> UIntStreamBuffer * list bytes -> Prop :=
  | step_push b b' h v : push b v = Some b' -> step (b, h) (b', h ++ [v])
  | step_release n b b' h producer obsolete :
      index_pred obsolete -> release (S n) b producer obsolete = Some b' -> step (b, h) (b', h)
  | step_close b h : step (b, h) (close b, h)
  | step_eof b h :
      step (b, h) (MkBuffer (buffer b) (start_idx b) (ready_size b) true (closed b) (releases b), h)
  | step_retire b h producer : step (b, h) (retire_producer b producer, h)
  | step_carry n b b' h predecessor :
      carry_release_to_new_producers (S n) b predecessor = Some b' -> step (b, h) (b', h).

Inductive reachable : UIntStreamBuffer * list bytes -> Prop :=
  | reach_new : reachable (buffer_new, [])
  | reach_step s s' : reachable s -> step s s' -> reachable s'.

Definition holds_pushed (b : UIntStreamBuffer) (h : list bytes) : Prop :=
  window_ok b /\ ready_size b = Z.of_nat (length h) /\
  (closed b = false -> buffer b = drop (Z.to_nat (start_idx b)) h).

Lemma carry_ok n r predecessor :
  releases_ok r -> exists r', carry_to_new_producers (S n) r predecessor = Some r' /\ releases_ok r' /\
    per_producer r' = per_producer r.
Proof.
  intros Hr. unfold carry_to_new_producers. set (theirs := map snd _).
  assert (Forall index_pred theirs) as Ht.
  { unfold theirs. apply Forall_forall. intros p Hp.
    apply list_elem_of_In, in_map_iff in Hp as ([k q] & <- & Hin).
    apply filter_In in Hin as [Hin _]. apply list_elem_of_In, elem_of_map_to_list in Hin.
    by apply (proj1 Hr _ _ Hin). }
  assert (exists a, match theirs with [] => agreed (S n) r | _ => intersect_all (S n) theirs end = Some a
    /\ index_pred a) as (a & -> & Ha).
  { destruct theirs as [|x l]; [destruct (agreed_ok n r Hr) as (a & ? & ? & _); by exists a|].
    destruct (intersect_all_ok n _ Ht) as (a & ? & ? & _). by exists a. }
  eexists. split; [done|]. split; [|done]. split; [apply Hr|done].
Qed.

Lemma step_holds b h b' h' : step (b, h) (b', h') -> holds_pushed b h -> holds_pushed b' h'.
Proof.
  intros Hs [Hb [Hl Hd]]. pose proof Hb as [H1 H2 H3 H4 H5].
  inversion Hs as [? ? ? v Hp|n ? ? ? producer obsolete Hi Hr| | |? ? producer|n ? ? ? pre Hc]; subst; clear Hs.
  - unfold push in Hp. destruct (Z.eqb_spec (ready_size b) U64_MAX); [done|].
    destruct (closed b) eqn:Ec; simplify_eq; unfold holds_pushed; simpl; rewrite length_app; simpl.
    + destruct (H4 eq_refl). split; [|split; [lia|done]]. split; simpl; try done; try lia. intros _.
      split; [done|lia].
    + specialize (H3 eq_refl). split; [|split; [lia|]].
      * split; simpl; try done; try lia. intros _. rewrite length_app. simpl. lia.
      * intros _. rewrite (Hd eq_refl), drop_app_le; [done|]. lia.
  - destruct (release_ok n b producer obsolete Hb Hi) as (b2 & E & Heff & _). rewrite E in Hr. simplify_eq.
    destruct Heff as [E1 E2 E3 E4 E5 E6 E7]. split; [done|]. split; [lia|]. intros Hc'.
    rewrite (E7 Hc'). destruct (closed b) eqn:Ec.
    + destruct (H4 eq_refl) as [-> Hst]. rewrite drop_nil. symmetry. apply drop_ge.
      pose proof (wi_start _ E1). lia.
    + rewrite (Hd eq_refl), drop_drop. f_equal. pose proof (wi_start _ E1). lia.
  - split; [|split; [done|done]]. split; simpl; try done; lia.
  - split; [by split|]. done.
  - split; [|done]. apply (with_releases_ok b _ Hb). destruct H5 as [Hp Hr]. split; [|done].
    by apply map_Forall_delete.
  - unfold carry_release_to_new_producers in Hc. destruct (carry_ok n (releases b) pre H5) as (r' & Er & Hr & _).
    rewrite Er in Hc. simplify_eq/=. split; [|done]. by apply (with_releases_ok b).
Qed.

Lemma reachable_holds s : reachable s -> holds_pushed s.1 s.2.
Proof.
  induction 1 as [|[b h] [b' h'] _ IH Hs]; [|by eapply step_holds].
  split; [|done]. split; simpl; try done.
Qed.

Lemma get_opt_ok b h i :
  holds_pushed b h ->
  get_opt b i = Some (if closed b || (i <? start_idx b) || (ready_size b <=? i) then None
                      else h !! Z.to_nat i).
Proof.
  intros [[H1 H2 H3 H4 H5] [Hl Hd]]. unfold get_opt.
  destruct (closed b) eqn:Ec; [done|]. simpl.
  destruct (Z.ltb_spec i (start_idx b)); [done|]. destruct (Z.leb_spec (ready_size b) i); [done|]. simpl.
  rewrite (Hd eq_refl), lookup_drop.
  replace (Z.to_nat (start_idx b) + Z.to_nat (i - start_idx b))%nat with (Z.to_nat i) by lia.
  destruct (h !! Z.to_nat i) eqn:E; [done|]. apply lookup_ge_None in E. lia.
Qed.
End ReleaseFacts.

(** * Sets of integers as runs

    The index sets as the values at which membership flips: an executable
    instance of [KeySets] and of [IndexSets] over integer keys, with one form
    for each set that is a finite union of runs. *)

(** Whether the keys below every flip are in, and the flips, ascending. *)
Definition runs : Type := bool * list Z.

Fixpoint run_mem (b : bool) (l : list Z) (k : Z) : bool :=
  match l with
  | [] => b
  | x :: l => if x <=? k then run_mem (negb b) l k else b
  end.

Definition runs_mem (s : runs) (k : Z) : bool := run_mem s.1 s.2 k.

(** Two ascending lists as one, a shared value once. *)
Fixpoint insert_flip (x : Z) (l : list Z) : list Z :=
  match l with
  | [] => [x]
  | y :: l' => if x <? y then x :: l else if x =? y then l else y :: insert_flip x l'
  end.

Definition merge_flips (a b : list Z) : list Z := foldr insert_flip b a.

(** The set [f] makes of two: a flip is kept where the outcome changes. *)
Definition combine_runs (f : bool -> bool -> bool) (a b : runs) : runs :=
  let g k := f (runs_mem a k) (runs_mem b k) in
  (f a.1 b.1, List.filter (fun p => negb (Bool.eqb (g p) (g (p - 1)))) (merge_flips a.2 b.2)).

Definition runs_is_empty (s : runs) : bool :=
  match s with (false, []) => true | _ => false end.

Definition runs_difference (a b : runs) : runs := combine_runs (fun x y => x && negb y) a b.

(** The intervals, from the value [from] opened one. *)
Fixpoint outside_bounds (l : list Z) : list (option Z * option Z) :=
  match l with
  | [] => []
  | [x] => [(Some x, None)]
  | x :: y :: l => (Some x, Some (y - 1)) :: outside_bounds l
  end.

Definition runs_bounds (s : runs) : list (option Z * option Z) :=
  match s with
  | (false, l) => outside_bounds l
  | (true, []) => [(None, None)]
  | (true, x :: l) => (None, Some (x - 1)) :: outside_bounds l
  end.

Definition run_keys : KeySets Z := {|
  iset := runs;
  is_empty := runs_is_empty;
  intersection := combine_runs andb;
  union := combine_runs orb;
  difference := runs_difference;
  complement s := (negb s.1, s.2);
  closed_point k := (false, [k; k + 1]);
  canonical s := s;
  is_whole s := match s with (true, []) => true | _ => false end;
  has_difference a b := negb (runs_is_empty (runs_difference a b));
  holds := runs_mem
|}.

Definition run_sets : IndexSets run_keys := {|
  empty_set := (false, []) : @iset _ run_keys;
  unbounded_set := (true, []) : @iset _ run_keys;
  closed_interval lo hi := (if lo <=? hi then (false, [lo; hi + 1]) else (false, [])) : @iset _ run_keys;
  unbound_closed i := (true, [i + 1]) : @iset _ run_keys;
  bounds := runs_bounds : @iset _ run_keys -> _
|}.

(** ** Flips in order *)

Abbreviation sorted := (StronglySorted Z.lt).

Lemma insert_flip_elem x l k : k ∈ insert_flip x l <-> k = x \/ k ∈ l.
Proof.
  induction l as [|y l IH]; simpl; [set_solver|].
  destruct (Z.ltb_spec x y); [set_solver|]. destruct (Z.eqb_spec x y); set_solver.
Qed.

Lemma insert_flip_sorted x l : sorted l -> sorted (insert_flip x l).
Proof.
  induction 1 as [|y l Hl IH Hy]; simpl; [by repeat constructor|].
  destruct (Z.ltb_spec x y).
  - constructor; [by constructor|]. constructor; [done|].
    eapply Forall_impl; [exact Hy|]. simpl. lia.
  - destruct (Z.eqb_spec x y); [by constructor|]. constructor; [done|].
    apply Forall_forall. intros k [->|Hk]%insert_flip_elem; [lia|].
    rewrite Forall_forall in Hy. auto.
Qed.

Lemma merge_flips_elem a b k : k ∈ merge_flips a b <-> k ∈ a \/ k ∈ b.
Proof. induction a as [|x a IH]; simpl; [set_solver|]. rewrite insert_flip_elem. set_solver. Qed.

Lemma merge_flips_sorted a b : sorted b -> sorted (merge_flips a b).
Proof. intros Hb. induction a; simpl; [done|]. by apply insert_flip_sorted. Qed.

Lemma filter_sorted (f : Z -> bool) l : sorted l -> sorted (List.filter f l).
Proof.
  induction 1 as [|x l Hl IH Hx]; simpl; [constructor|]. destruct (f x); [|done].
  constructor; [done|]. apply Forall_forall. intros k [Hk _]%list_elem_of_In%filter_In.
  rewrite Forall_forall in Hx. by apply Hx, list_elem_of_In.
Qed.

(** ** Membership *)

Lemma run_mem_below b l k : Forall (Z.lt k) l -> run_mem b l k = b.
Proof.
  destruct 1 as [|x l Hx]; simpl; [done|]. by destruct (Z.leb_spec x k); [lia|].
Qed.

Lemma run_mem_negb b l k : run_mem (negb b) l k = negb (run_mem b l k).
Proof. revert b. induction l as [|x l IH]; intros b; simpl; [done|]. destruct (x <=? k); auto. Qed.

(** Membership changes only at a flip. *)
Lemma run_mem_off b l p : p ∉ l -> run_mem b l p = run_mem b l (p - 1).
Proof.
  revert b. induction l as [|x l IH]; intros b Hp; simpl; [done|].
  apply not_elem_of_cons in Hp as [Hx Hl].
  destruct (Z.leb_spec x p), (Z.leb_spec x (p - 1)); try lia; auto.
Qed.

(** A function that changes only at [l] is membership in its own flips. *)
Lemma run_mem_flips (g : Z -> bool) l x0 k :
  sorted l -> Forall (Z.lt x0) l -> (forall p, x0 < p -> p ∉ l -> g p = g (p - 1)) -> x0 <= k ->
  run_mem (g x0) (List.filter (fun p => negb (Bool.eqb (g p) (g (p - 1)))) l) k = g k.
Proof.
  intros Hs. revert x0. induction Hs as [|x l Hl IH Hx]; intros x0 H0 Hg Hk; simpl.
  - revert k Hk. apply (Zlt_lower_bound_ind (fun k => g x0 = g k)). intros k' IHk Hk.
    destruct (decide (k' = x0)) as [->|]; [done|].
    rewrite (Hg k'); [|lia|set_solver]. apply IHk; lia.
  - apply Forall_cons in H0 as [Hx0 H0].
    assert (Hflat : forall j, x0 <= j < x -> g j = g x0).
    { intros j [Hj Hjx]. revert j Hj Hjx.
      apply (Zlt_lower_bound_ind (fun j => j < x -> g j = g x0)). intros k' IHk Hk' Hlt.
      destruct (decide (k' = x0)) as [->|]; [done|]. rewrite (Hg k'); [apply IHk; lia|lia|].
      rewrite not_elem_of_cons. split; [lia|]. rewrite Forall_forall in Hx.
      intros Hin. specialize (Hx _ Hin). lia. }
    assert (Hrest : forall p, x < p -> p ∉ l -> g p = g (p - 1)).
    { intros p Hp Hin. apply Hg; [lia|]. rewrite not_elem_of_cons. split; [lia|done]. }
    specialize (IH x Hx Hrest). rewrite (Hflat (x - 1)) by lia.
    destruct (Z.leb_spec x k) as [Hxk|Hxk].
    + rewrite <- (IH Hxk).
      destruct (g x) eqn:E1, (g x0) eqn:E2; simpl; try done; destruct (Z.leb_spec x k); try lia; done.
    + rewrite (Hflat k) by lia. apply run_mem_below.
      apply Forall_forall. intros p Hp.
      assert (p ∈ x :: l) as [->|Hin]%elem_of_cons.
      { destruct (negb _); [apply elem_of_cons in Hp as [->|Hp]|]; [set_solver|..];
          apply elem_of_cons; right; by apply list_elem_of_In, filter_In in Hp as [?%list_elem_of_In _]. }
      * lia.
      * rewrite Forall_forall in Hx. specialize (Hx _ Hin). lia.
Qed.

Lemma below_all l k : exists x0, x0 <= k /\ Forall (Z.lt x0) l.
Proof.
  induction l as [|x l (x0 & Hk & Hl)]; [exists k; split; [lia|constructor]|].
  exists (Z.min x0 (x - 1)). split; [lia|]. constructor; [lia|].
  eapply Forall_impl; [exact Hl|]. simpl. lia.
Qed.

Definition runs_ok (s : runs) : Prop := sorted s.2.

Lemma combine_ok f a b : runs_ok a -> runs_ok b -> runs_ok (combine_runs f a b).
Proof. intros Ha Hb. apply filter_sorted, merge_flips_sorted, Hb. Qed.

Lemma combine_mem f a b k :
  runs_ok a -> runs_ok b -> runs_mem (combine_runs f a b) k = f (runs_mem a k) (runs_mem b k).
Proof.
  intros Ha Hb. destruct (below_all (merge_flips a.2 b.2) k) as (x0 & Hx & Hl).
  assert (Hin : forall p, p ∈ a.2 \/ p ∈ b.2 -> x0 < p).
  { intros p Hp. rewrite Forall_forall in Hl. by apply Hl, merge_flips_elem. }
  set (g j := f (runs_mem a j) (runs_mem b j)).
  assert (f a.1 b.1 = g x0) as E.
  { unfold g, runs_mem. rewrite !run_mem_below; [done|apply Forall_forall; auto..]. }
  unfold combine_runs. fold g. rewrite E. apply (run_mem_flips g); [by apply merge_flips_sorted|done| |done].
  intros p _ Hp. rewrite merge_flips_elem in Hp. unfold g, runs_mem.
  rewrite (run_mem_off _ a.2), (run_mem_off _ b.2); [done|tauto..].
Qed.

Lemma runs_nonempty s : runs_ok s -> runs_is_empty s = false -> exists k, runs_mem s k = true.
Proof.
  destruct s as [[] l]; intros Hs He.
  - destruct (below_all l 0) as (k & _ & Hk). exists k. by apply run_mem_below.
  - destruct l as [|x l]; [done|]. exists x. unfold runs_mem. simpl. rewrite Z.leb_refl.
    apply StronglySorted_inv in Hs as [_ Hx]. by apply run_mem_below.
Qed.

Lemma runs_empty s k : runs_is_empty s = true -> runs_mem s k = false.
Proof. by destruct s as [[] []]. Qed.

Lemma runs_empty_difference a b k :
  runs_ok a -> runs_ok b -> runs_is_empty (runs_difference a b) = true -> runs_mem a k = true ->
  runs_mem b k = true.
Proof.
  intros Ha Hb He Hk. apply (runs_empty _ k) in He. unfold runs_difference in He.
  rewrite combine_mem, Hk in He by done. by destruct (runs_mem b k).
Qed.

Definition run_key_laws : KeySetLaws Z run_keys.
Proof.
  refine {| base := unit; pt := Z; pt_of := fun k => k; of_base := fun _ => tt;
    over := fun (_ : unit) (s : @iset Z run_keys) => runs_ok s;
    canon := fun (_ : unit) (s : @iset Z run_keys) => runs_ok s;
    mem := runs_mem : @iset Z run_keys -> Z -> bool |}; simpl; try done.
  - intros t a b. apply combine_ok.
  - intros t a b. apply combine_ok.
  - intros t a b. apply combine_ok.
  - intros k. repeat constructor. lia.
  - intros t a b k Ha Hb _. by apply combine_mem.
  - intros t a b k Ha Hb _. by apply combine_mem.
  - intros t a b k Ha Hb _. by apply combine_mem.
  - intros t a k _ _. apply run_mem_negb.
  - intros k k' _. unfold runs_mem. simpl.
    destruct (Z.leb_spec k k'), (Z.leb_spec (k + 1) k'); split; intros; try done; lia.
  - intros t s k _ He _. by apply runs_empty.
  - intros t s Hs He. destruct (runs_nonempty s Hs He) as [k Hk]. exists k. by destruct t.
  - by intros t [[] []] k _ Hw _.
  - intros t a b k Ha Hb Hd _. apply runs_empty_difference; [done..|]. by apply negb_false_iff.
  - intros t a b Ha Hb Hd. apply negb_true_iff in Hd.
    destruct (runs_nonempty (runs_difference a b)) as [k Hk]; [by apply combine_ok|done|]. exists k.
    unfold runs_difference in Hk. rewrite combine_mem in Hk by done. apply andb_true_iff in Hk as [? ?%negb_true_iff]. by destruct t.
  - intros []. by exists 0.
Defined.

(** ** The runs of a set *)

Lemma StronglySorted_skip x l : sorted (x :: l) -> sorted l.
Proof. by intros [? _]%StronglySorted_inv. Qed.

(** A bounded set's flips pair up. *)
Lemma outside_bounds_ok l hi :
  sorted l -> (forall k, run_mem false l k = true -> k <= hi) ->
  exists r, outside_bounds l = map (fun lh => (Some lh.1, Some lh.2)) r /\ ascending 1 r /\
    (forall lh, lh ∈ r -> Forall (fun x => x <= lh.1) (take 1 l)) /\
    forall k, run_mem false l k = true <-> Exists (in_run k) r.
Proof.
  remember (length l) as n eqn:En. revert l En.
  induction (lt_wf n) as [n _ IH]. intros [|x [|y l]] -> Hs Hb.
  - exists []. split; [done|]. split; [done|]. split; [set_solver|]. intros k. by rewrite Exists_nil.
  - exfalso. specialize (Hb (Z.max x (hi + 1))). simpl in Hb.
    destruct (Z.leb_spec x (Z.max x (hi + 1))); [|lia]. specialize (Hb eq_refl). lia.
  - apply StronglySorted_inv in Hs as [Hs Hx]. apply Forall_cons in Hx as [Hxy Hx].
    pose proof (StronglySorted_inv Hs) as [Hl Hy].
    assert (Hm : forall k, run_mem false (x :: y :: l) k = true <-> x <= k < y \/ run_mem false l k = true).
    { intros k. assert (k < y -> run_mem false l k = false) as Hlow.
      { intros Hk. apply run_mem_below. eapply Forall_impl; [exact Hy|]. simpl. lia. }
      simpl. destruct (Z.leb_spec x k), (Z.leb_spec y k); simpl; rewrite ?Hlow by lia; intuition (done || lia). }
    destruct (IH (length l)) with (l := l) as (r & E & Ha & Hhd & Hr); [simpl; lia|done|done| |].
    { intros k Hk. apply Hb, Hm. by right. }
    assert (Hgt : Forall (fun lh => y < lh.1) r).
    { apply Forall_forall. intros lh Hlh. specialize (Hhd _ Hlh). destruct l as [|z l]; simpl in *.
      - destruct r; [by apply not_elem_of_nil in Hlh|done].
      - apply Forall_cons in Hhd as [? _]. apply Forall_cons in Hy as [? _]. lia. }
    exists ((x, y - 1) :: r). split; [by simpl; rewrite E|]. split; [|split].
    + simpl. split; [lia|]. split; [|done]. eapply Forall_impl; [exact Hgt|]. simpl. lia.
    + intros lh [->|Hlh]%elem_of_cons; simpl; [repeat constructor; lia|].
      constructor; [|done]. rewrite Forall_forall in Hgt. specialize (Hgt _ Hlh). simpl in Hgt. lia.
    + intros k. rewrite Hm, Hr, Exists_cons. unfold in_run at 2. simpl. intuition lia.
Qed.

Lemma bounded_outside s lo hi :
  (forall k, runs_mem s k = true -> lo <= k <= hi) -> s.1 = false.
Proof.
  intros Hb. destruct s as [[] l]; [|done]. destruct (below_all l (lo - 1)) as (k & Hk & Hl).
  specialize (Hb k (run_mem_below _ _ _ Hl)). lia.
Qed.

Lemma runs_bounds_ok s lo hi :
  runs_ok s -> (forall k, runs_mem s k = true -> lo <= k <= hi) ->
  exists l, runs_bounds s = map (fun lh => (Some lh.1, Some lh.2)) l /\ ascending 1 l /\
    forall k, runs_mem s k = true <-> Exists (in_run k) l.
Proof.
  intros Hs Hb. pose proof (bounded_outside s lo hi Hb) as Hf. destruct s as [b l]. simpl in Hf. subst b.
  destruct (outside_bounds_ok l hi Hs) as (r & H1 & H2 & _ & H3); [|by exists r].
  intros k Hk. specialize (Hb k Hk). lia.
Qed.

Lemma separated_ascending l : ascending 1 l -> ascending 0 l.
Proof.
  induction l as [|[lo hi] l IH]; simpl; [done|]. intros (H1 & H2 & H3). split; [done|]. split; [|auto].
  eapply Forall_impl; [exact H2|]. simpl. lia.
Qed.

Lemma closed_interval_ok lo hi :
  runs_ok (@closed_interval _ run_sets lo hi) /\
  forall k, runs_mem (@closed_interval _ run_sets lo hi) k = (lo <=? k) && (k <=? hi).
Proof.
  simpl. destruct (Z.leb_spec lo hi).
  - split; [repeat constructor; lia|]. intros k. unfold runs_mem. simpl.
    destruct (Z.leb_spec lo k), (Z.leb_spec (hi + 1) k), (Z.leb_spec k hi); try done; lia.
  - split; [constructor|]. intros k. unfold runs_mem. simpl.
    destruct (Z.leb_spec lo k), (Z.leb_spec k hi); try done; lia.
Qed.

Definition run_set_laws : IndexSetLaws run_keys run_key_laws run_sets.
Proof.
  refine {| index_base := tt : @base _ _ run_key_laws |}; simpl; try done.
  - constructor.
  - constructor.
  - apply closed_interval_ok.
  - intros i. repeat constructor.
  - apply closed_interval_ok.
  - intros i k. unfold runs_mem. simpl. destruct (Z.leb_spec (i + 1) k), (Z.leb_spec k i); try done; lia.
  - intros s lo hi Hs Hb. destruct (runs_bounds_ok s lo hi Hs Hb) as (l & H1 & H2 & H3).
    exists l. split; [done|]. split; [by apply separated_ascending|done].
  - intros s lo hi l Hs El.
    assert (runs_ok s) as Hok by (destruct Hs as [Hs|[->| ->]]; [done|constructor..]).
    destruct (closed_interval_ok lo hi) as [Hc Hm].
    destruct (runs_bounds_ok (combine_runs andb (@closed_interval _ run_sets lo hi) s) lo hi)
      as (r & H1 & H2 & _); [by apply combine_ok| |].
    { intros k. rewrite combine_mem, Hm by done. rewrite !andb_true_iff, Z.leb_le, Z.leb_le. tauto. }
    simpl in H1. rewrite H1 in El. apply (f_equal (map (fun p => (default 0 p.1, default 0 p.2)))) in El.
    rewrite !map_map in El. simpl in El.
    assert (forall m : list (Z * Z), map (fun x => (x.1, x.2)) m = m) as Hid.
    { intros m. rewrite <- (map_id m) at 2. apply map_ext. by intros []. }
    rewrite !Hid in El. by subst.
Defined.
