(* ===== verification/ReleaseProps.v ===== *)
(** * The contract of the releases and of the stream buffer

    What a source may rely on, for every kind of index set that meets
    [IndexSetLaws], in the terms of the code; each property is applied to the
    run sets of [RunSets]. *)

From Stdlib Require Import ZArith Lia.
From stdpp Require Import gmap.
From S2P Require Import Prelude.
From S2P Require Import Predicate PredicateSem PredicateParts Releases ReleaseFacts.
Set Warnings "-clear-no-such-hyp".
Local Open Scope Z_scope.

Section Contract.
Context {KS : KeySets Z} {KL : KeySetLaws Z KS} {IS : IndexSets KS} {IL : IndexSetLaws KS KL IS}.
Abbreviation Predicate := (Predicate Z).

(** What a predicate over indices answers, as a proposition. *)
Lemma contains_true p k : index_pred p -> contains p (VKey k) = Some true <-> admits p k = true.
Proof. intros Hp. rewrite contains_admits by done. split; [by intros [=]|by intros ->]. Qed.

Lemma contains_false p k : index_pred p -> contains p (VKey k) = Some false <-> admits p k = false.
Proof. intros Hp. rewrite contains_admits by done. split; [by intros [=]|by intros ->]. Qed.

(** The agreement returns, and admits an index just when some producer is
    registered and every registered producer's record admits it. *)
Theorem agreed_exact n (r : ProducerReleases) :
  releases_ok r ->
  exists a, agreed (S n) r = Some a /\
    forall k, contains a (VKey k) = Some true <->
      per_producer r <> ∅ /\ forall producer p, released_by r producer = Some p ->
        contains p (VKey k) = Some true.
Proof.
  intros Hr. destruct (agreed_ok n r Hr) as (a & Ea & Ha & Hk). exists a. split; [done|].
  intros k. rewrite contains_true, Hk by done. unfold all_released, map_Forall, released_by.
  apply and_iff_compat_l. split; intros H producer p Hp; specialize (H producer p Hp);
    apply contains_true; eauto; by apply (proj1 Hr _ _ Hp).
Qed.

(** C30: a release returns a well-formed window whose producer has released
    what it had and [obsolete]; it drops a run from the front that every
    producer has released, stops only at an index some producer has not
    released (or at the end of the window), keeps the other values in place, and
    closes only when every producer has released every index. *)
Theorem release_exact n (b : UIntStreamBuffer) producer (obsolete : Predicate) :
  window_ok b -> index_pred obsolete ->
  exists b', release (S n) b producer obsolete = Some b' /\ release_effect b b' /\
    exists p, released_by (releases b') producer = Some p /\
      (forall other, other <> producer ->
        released_by (releases b') other = released_by (releases b) other) /\
      forall k, contains p (VKey k) = Some true <->
        contains (default (on_registration (releases b)) (released_by (releases b) producer)) (VKey k)
          = Some true \/ contains obsolete (VKey k) = Some true.
Proof.
  intros Hb Ho. destruct (release_ok n b producer obsolete Hb Ho) as (b' & E & Heff & p & Hp & Hk).
  exists b'. split; [done|]. split; [done|]. exists p. unfold released_by. rewrite Hp.
  split; [apply lookup_insert_eq|]. split; [intros; by apply lookup_insert_ne|]. intros k.
  assert (index_pred p) as Hip.
  { apply (proj1 (wi_releases _ (re_window _ _ Heff)) producer). rewrite Hp. apply lookup_insert_eq. }
  assert (index_pred (default (on_registration (releases b)) (per_producer (releases b) !! producer))) as Hd.
  { destruct (wi_releases _ Hb) as [H1 H2].
    destruct (per_producer (releases b) !! producer) eqn:El; [|done]. by apply (H1 _ _ El). }
  by rewrite !contains_true, Hk, orb_true_iff.
Qed.

(** C31: whatever was called on a new buffer, its window is well formed, and
    [get_opt] never panics: it answers the value pushed at that position for an
    index in the window of an open buffer, and none for every other. *)
Theorem buffer_holds_pushed (b : UIntStreamBuffer) (h : list bytes) i :
  reachable (b, h) ->
  window_ok b /\ ready_size b = Z.of_nat (length h) /\
  get_opt b i = Some (if closed b || (i <? start_idx b) || (ready_size b <=? i) then None
                      else h !! Z.to_nat i).
Proof.
  intros Hr%reachable_holds. pose proof Hr as (H1 & H2 & _). simpl in *. split; [done|].
  split; [done|]. by apply get_opt_ok.
Qed.

(** For a registered producer [get_elements] returns exactly the indices
    of the window it has not released, and reading each of them answers the value pushed
    there. *)
Theorem get_elements_exact (b : UIntStreamBuffer) (h : list bytes) producer p :
  reachable (b, h) -> released_by (releases b) producer = Some p ->
  exists l, get_elements b producer = Some l /\
    forall k, (k ∈ l <-> start_idx b <= k < ready_size b /\ contains p (VKey k) = Some false) /\
      (k ∈ l -> exists v, h !! Z.to_nat k = Some v /\ get b k = Some v).
Proof.
  intros Hr%reachable_holds Hp. simpl in Hr. destruct (Hr) as (Hb & Hl & Hd).
  assert (index_pred p) as Hip by apply (proj1 (wi_releases _ Hb) _ _ Hp).
  destruct (get_elements_ok b producer p Hp Hip) as (l & El & Hk). exists l. split; [done|].
  intros k. rewrite contains_false by done. split; [done|]. intros [Hw _]%Hk.
  destruct (h !! Z.to_nat k) as [v|] eqn:Ev; [|apply lookup_ge_None in Ev; pose proof (wi_start _ Hb); lia].
  exists v. split; [done|]. unfold get. rewrite (get_opt_ok b h k Hr). cbn [mbind option_bind].
  destruct (closed b) eqn:Ec; [destruct (wi_closed _ Hb Ec); lia|]. simpl.
  destruct (Z.ltb_spec k (start_idx b)), (Z.leb_spec (ready_size b) k); try lia. done.
Qed.

(** [first_index_for_a_new_producer] is the first index of the window
    that the carried release does not admit, or the end of the window. *)
Theorem first_index_exact (b : UIntStreamBuffer) :
  window_ok b ->
  exists f, first_index_for_a_new_producer b = Some f /\ start_idx b <= f <= ready_size b /\
    (forall i, start_idx b <= i < f -> contains (on_registration (releases b)) (VKey i) = Some true) /\
    (f < ready_size b -> contains (on_registration (releases b)) (VKey f) = Some false).
Proof.
  intros Hb. destruct (first_index_ok b Hb) as (f & E & Hf & Hin & Hout). pose proof (wi_releases _ Hb) as [_ Hr].
  exists f. split; [done|]. split; [done|]. rewrite contains_false by done. split; [|done].
  intros i Hi. rewrite contains_true by done. auto.
Qed.
End Contract.

(** ** Instances at the run sets *)

#[local] Existing Instances run_keys run_key_laws run_sets run_set_laws.

(** The indices [lo] to [hi]. *)
Definition covering (lo hi : Z) : Predicate Z := PIntervals (closed_interval lo hi).

Lemma covering_ok lo hi : index_pred (covering lo hi).
Proof. split; [done|]. apply (proj1 (closed_interval_ok lo hi)). Qed.

(** Four values, of which one producer has released the first two, another the first and the third. *)
Definition two_readers : option UIntStreamBuffer :=
  b ← push buffer_new (lit "a");
  b ← push b (lit "b");
  b ← push b (lit "c");
  b ← push b (lit "d");
  b ← release 1 b "q" PFalse;
  b ← release 1 b "p" (covering 0 1);
  b ← release 1 b "q" (covering 2 2);
  release 1 b "q" (covering 0 0).

Definition pushed : list bytes := [lit "a"; lit "b"; lit "c"; lit "d"].

Definition two_readers_buffer : UIntStreamBuffer := default buffer_new two_readers.

Lemma two_readers_some : two_readers = Some two_readers_buffer.
Proof. vm_compute. reflexivity. Qed.

Lemma two_readers_reachable : reachable (two_readers_buffer, pushed).
Proof.
  pose proof two_readers_some as E. unfold two_readers in E.
  do 7 (apply bind_Some in E as (? & ? & E)).
  eapply reach_step; [|eapply (step_release 0), E; apply covering_ok].
  repeat (eapply reach_step; [|eapply (step_release 0); [|eassumption]; first [done|apply covering_ok]]).
  change pushed with (((([] ++ [lit "a"]) ++ [lit "b"]) ++ [lit "c"]) ++ [lit "d"]).
  repeat (eapply reach_step; [|eapply step_push; eassumption]). apply reach_new.
Qed.

Lemma two_readers_window : window_ok two_readers_buffer.
Proof. by destruct (reachable_holds _ two_readers_reachable) as (? & _ & _). Qed.

Lemma agreed_exact_witness :
  exists a, agreed 1 (releases two_readers_buffer) = Some a /\ contains a (VKey 0) = Some true /\
    forall producer p, released_by (releases two_readers_buffer) producer = Some p ->
      contains p (VKey 0) = Some true.
Proof.
  destruct (agreed_exact 0 (releases two_readers_buffer)) as (a & Ea & Hk).
  - apply (wi_releases _ two_readers_window).
  - exists a. split; [exact Ea|].
    assert (option_bind _ _ (fun a => contains a (VKey 0)) (agreed 1 (releases two_readers_buffer))
      = Some true) as H by (vm_compute; reflexivity).
    rewrite Ea in H. split; [exact H|]. apply (Hk 0). exact H.
Defined.

Lemma release_exact_witness :
  exists b', release 1 two_readers_buffer "p" (covering 2 2) = Some b' /\
    release_effect two_readers_buffer b'.
Proof.
  destruct (release_exact 0 two_readers_buffer "p" (covering 2 2)) as (b' & E & Heff & _).
  - apply two_readers_window.
  - apply covering_ok.
  - exists b'. split; [exact E|exact Heff].
Defined.

Lemma buffer_holds_pushed_witness :
  closed two_readers_buffer = false /\ get_opt two_readers_buffer 1 = Some (Some (lit "b")) /\
  get_opt two_readers_buffer 0 = Some None.
Proof.
  split; [vm_compute; reflexivity|].
  destruct (buffer_holds_pushed two_readers_buffer pushed 1) as (_ & _ & ->); [apply two_readers_reachable|].
  destruct (buffer_holds_pushed two_readers_buffer pushed 0) as (_ & _ & ->); [apply two_readers_reachable|].
  split; vm_compute; reflexivity.
Defined.

Lemma get_elements_exact_witness :
  exists p l, released_by (releases two_readers_buffer) "p" = Some p /\
    get_elements two_readers_buffer "p" = Some l /\ l = [2; 3] /\
    exists v, pushed !! 2%nat = Some v /\ get two_readers_buffer 2 = Some v.
Proof.
  destruct (released_by (releases two_readers_buffer) "p") as [p|] eqn:Ep; [|by vm_compute in Ep].
  destruct (get_elements_exact two_readers_buffer pushed "p" p two_readers_reachable Ep) as (l & El & Hk).
  exists p, l. split; [done|]. split; [done|].
  assert (get_elements two_readers_buffer "p" = Some [2; 3]) as E by (vm_compute; reflexivity).
  rewrite E in El. injection El as <-. split; [done|]. apply (proj2 (Hk 2)). apply list_elem_of_here.
Defined.

Lemma first_index_exact_witness :
  exists f, first_index_for_a_new_producer two_readers_buffer = Some f /\ f = 1 /\
    contains (on_registration (releases two_readers_buffer)) (VKey f) = Some false.
Proof.
  destruct (first_index_exact two_readers_buffer two_readers_window) as (f & E & _ & _ & Hf).
  assert (first_index_for_a_new_producer two_readers_buffer = Some 1) as E1 by (vm_compute; reflexivity).
  rewrite E1 in E. injection E as <-. exists 1. split; [done|]. split; [done|]. apply Hf.
  vm_compute. reflexivity.
Defined.
