(* ===== verification/LineIndex.v ===== *)
(** * Byte offsets and line/column positions ([chl-parser/src/line_index.rs])

    The index of a text's lines and its conversions, with columns in bytes or in
    UTF-16 code units.  A text is its UTF-8 bytes; a panic is [None]. *)

From stdpp Require Import list.
From S2P Require Import Prelude.
Local Open Scope nat_scope.
Set Warnings "-clear-no-such-hyp".

(** ** The text *)

Definition CR : ascii := "013"%char.

Definition code (c : ascii) : nat := nat_of_ascii c.

(** A byte that continues a character. *)
Definition is_cont (c : ascii) : bool := (128 <=? code c) && (code c <? 192).

(** [u8::is_ascii]. *)
Definition is_ascii_byte (c : ascii) : bool := code c <? 128.

(** [str::is_char_boundary]. *)
Definition is_char_boundary (text : bytes) (i : nat) : bool :=
  match text !! i with
  | Some c => (i =? 0) || negb (is_cont c)
  | None => i =? length text
  end.

(** [char::len_utf16], of the character a byte starts. *)
Definition len_utf16 (lead : ascii) : nat := if 240 <=? code lead then 2 else 1.

(** [str::encode_utf16().count()]. *)
Fixpoint utf16_count (text : bytes) : nat :=
  match text with
  | [] => 0
  | c :: text => (if is_cont c then 0 else len_utf16 c) + utf16_count text
  end.

(** [&text[a..b]]. *)
Definition slice (text : bytes) (a b : nat) : option bytes :=
  if (a <=? b) && is_char_boundary text a && is_char_boundary text b then Some (take (b - a) (drop a text))
  else None.

(** ** The index *)

Inductive Encoding := Utf8 | Utf16.

Record LineCol := MkLineCol { line : nat; col : nat }.

Record LineIndex := MkLineIndex { starts : list nat; ends : list nat; all_ascii : bool }.

(** The loop of [LineIndex::new] from byte [i]: the line starts and ends it pushes. *)
Fixpoint scan (i : nat) (text : bytes) : list nat * list nat :=
  match text with
  | [] => ([], [])
  | c :: rest =>
      if Ascii.eqb c LF then
        let '(s, e) := scan (i + 1) rest in (i + 1 :: s, i :: e)
      else if Ascii.eqb c CR then
        match rest with
        | d :: rest' =>
            if Ascii.eqb d LF then let '(s, e) := scan (i + 2) rest' in (i + 2 :: s, i :: e)
            else let '(s, e) := scan (i + 1) rest in (i + 1 :: s, i :: e)
        | [] => ([i + 1], [i])
        end
      else scan (i + 1) rest
  end.

(** [LineIndex::new]. *)
Definition line_index (text : bytes) : LineIndex :=
  let '(s, e) := scan 0 text in
  MkLineIndex (0 :: s) (e ++ [length text]) (forallb is_ascii_byte text).

Definition line_count (x : LineIndex) : nat := length (starts x).

(** The outer [None] is the index panic. *)
Definition line_range (x : LineIndex) (line : nat) : option (option (nat * nat)) :=
  match starts x !! line with
  | None => Some None
  | Some s => e ← ends x !! line; Some (Some (s, e))
  end.

Definition line_col (x : LineIndex) (offset : nat) : option LineCol :=
  last ← last (ends x);
  if offset <=? last then
    let line := partition_point (fun start => start <=? offset) (starts x) - 1 in
    e ← ends x !! line;
    s ← starts x !! line;
    Some (MkLineCol line (Nat.min offset e - s))
  else None.

(** The loop of [offset], to a character's start. *)
Fixpoint to_boundary (text : bytes) (offset : nat) : nat :=
  if is_char_boundary text offset then offset
  else match offset with S offset => to_boundary text offset | O => O end.

(** [LineIndex::offset], with its debug assertion. *)
Definition offset (x : LineIndex) (text : bytes) (pos : LineCol) : option nat :=
  if bool_decide (last (ends x) = Some (length text)) then
    match starts x !! line pos with
    | None => Some (length text)
    | Some start =>
        e ← ends x !! line pos;
        Some (to_boundary text (start + Nat.min (col pos) (e - start)))
    end
  else None.

Definition line_col_in (x : LineIndex) (text : bytes) (offset : nat) (encoding : Encoding) : option LineCol :=
  bytes ← line_col x offset;
  if is_char_boundary text offset then
    match encoding with
    | Utf8 => Some bytes
    | Utf16 =>
        if all_ascii x then Some bytes
        else
          start ← starts x !! line bytes;
          t ← slice text start (start + col bytes);
          Some (MkLineCol (line bytes) (utf16_count t))
    end
  else None.

(** The loop of [offset_in]: the first character the column falls in or before. *)
Fixpoint find_unit (text : bytes) (i units column : nat) : option nat :=
  match text with
  | [] => None
  | c :: rest =>
      if is_cont c then find_unit rest (i + 1) units column
      else
        let units := units + len_utf16 c in
        if column <? units then Some i else find_unit rest (i + 1) units column
  end.

Definition offset_in (x : LineIndex) (text : bytes) (pos : LineCol) (encoding : Encoding) : option nat :=
  match encoding with
  | Utf8 => offset x text pos
  | Utf16 =>
      if all_ascii x then offset x text pos
      else match starts x !! line pos with
      | None => Some (length text)
      | Some start =>
          e ← ends x !! line pos;
          t ← slice text start e;
          match find_unit t 0 0 (col pos) with
          | Some i => Some (start + i)
          | None => Some e
          end
      end
  end.

(** * What the line index records

    The lines of a text, as contents and terminators, and where
    [LineIndex.line_index] puts them; the characters of a UTF-8 text. *)

(** ** Lines *)

Definition plain (c : ascii) : Prop := c <> LF /\ c <> CR.

Definition join_lines (ls : list (bytes * bytes)) : bytes := concat (map (fun ct => ct.1 ++ ct.2) ls).

(** Contents without terminators, each but the last ended by one; a lone
    carriage return is one only where no line feed follows. *)
Fixpoint text_lines (ls : list (bytes * bytes)) : Prop :=
  match ls with
  | [] => False
  | [(c, t)] => Forall plain c /\ t = []
  | (c, t) :: ls =>
      Forall plain c /\
      (t = [LF] \/ t = [CR; LF] \/ t = [CR] /\ head (join_lines ls) <> Some LF) /\ text_lines ls
  end.

(** Where the contents lie in a text that starts at [i]. *)
Fixpoint spans (i : nat) (ls : list (bytes * bytes)) : list (nat * nat) :=
  match ls with
  | [] => []
  | (c, t) :: ls => (i, i + length c) :: spans (i + length c + length t) ls
  end.

Definition recorded (i : nat) (text : bytes) (se : list nat * list nat) (ls : list (bytes * bytes)) : Prop :=
  text_lines ls /\ text = join_lines ls /\
  i :: se.1 = map fst (spans i ls) /\ se.2 ++ [i + length text] = map snd (spans i ls).

(** A plain byte extends the first line, a terminator adds an empty one. *)
Lemma recorded_plain i c text se ls :
  plain c -> recorded (i + 1) text se ls -> exists ls', recorded i (c :: text) se ls'.
Proof.
  intros Hc (Hl & -> & Hs & He). destruct ls as [|[c0 t0] ls]; [done|].
  exists ((c :: c0, t0) :: ls). simpl in *. injection Hs as Hs. split.
  - destruct ls; destruct_and!; repeat split; try done; by constructor.
  - split; [done|]. simpl. replace (i + S (length c0)) with (i + 1 + length c0) by lia.
    split; [by rewrite Hs|]. rewrite <- He. do 2 f_equal. unfold join_lines. simpl. lia.
Qed.

Lemma recorded_term i t text s e ls :
  (t = [LF] \/ t = [CR; LF] \/ t = [CR] /\ head text <> Some LF) ->
  recorded (i + length t) text (s, e) ls ->
  exists ls', recorded i (t ++ text) (i + length t :: s, i :: e) ls'.
Proof.
  intros Ht (Hl & -> & Hs & He). exists (([], t) :: ls). split.
  - destruct ls; [done|]. repeat split; [constructor|done|apply Hl].
  - split; [done|]. simpl. rewrite Nat.add_0_r, <- Hs, <- He. split; [done|]. do 3 f_equal.
    rewrite length_app. lia.
Qed.

Lemma scan_recorded text i : exists ls, recorded i text (scan i text) ls.
Proof.
  remember (length text) as n eqn:En. revert i text En.
  induction (lt_wf n) as [n _ IH]. intros i text ->.
  assert (Hrec : forall j rest, length rest < length text -> exists ls, recorded j rest (scan j rest) ls).
  { intros j rest Hr. by apply (IH (length rest) Hr). }
  destruct text as [|c rest]; simpl.
  { exists [([], [])]. by repeat split. }
  destruct (Ascii.eqb_spec c LF) as [->|Hlf].
  { destruct (Hrec (i + 1) rest) as [ls Hls]; [simpl; lia|]. destruct (scan (i + 1) rest) as [s e].
    apply (recorded_term i [LF] rest s e ls); [auto|done]. }
  destruct (Ascii.eqb_spec c CR) as [->|Hcr].
  - destruct rest as [|d rest].
    { apply (recorded_term i [CR] [] [] [] [([], [])]); [auto|]. by repeat split. }
    destruct (Ascii.eqb_spec d LF) as [->|Hd].
    + destruct (Hrec (i + 2) rest) as [ls Hls]; [simpl; lia|]. destruct (scan (i + 2) rest) as [s e].
      apply (recorded_term i [CR; LF] rest s e ls); [auto|done].
    + destruct (Hrec (i + 1) (d :: rest)) as [ls Hls]; [simpl; lia|]. destruct (scan (i + 1) _) as [s e].
      apply (recorded_term i [CR] (d :: rest) s e ls); [|done]. right. right. split; [done|]. simpl. congruence.
  - destruct (Hrec (i + 1) rest) as [ls Hls]; [simpl; lia|]. by eapply recorded_plain.
Qed.

(** The index of a text, by its lines. *)
Lemma line_index_spans text :
  exists ls, text_lines ls /\ text = join_lines ls /\
    starts (line_index text) = map fst (spans 0 ls) /\ ends (line_index text) = map snd (spans 0 ls).
Proof.
  destruct (scan_recorded text 0) as (ls & Hl & Ht & Hs & He). exists ls. unfold line_index.
  destruct (scan 0 text) as [s e]. done.
Qed.

(** ** Where an offset lies *)

(** [o] is inside a line terminator: between its two bytes. *)
Definition inside_crlf (text : bytes) (o : nat) : Prop :=
  exists e, o = e + 1 /\ text !! e = Some CR /\ text !! o = Some LF.

Lemma spans_lower i ls k se : spans i ls !! k = Some se -> i <= se.1.
Proof.
  revert i k. induction ls as [|[c t] ls IH]; intros i [|k] H; simplify_eq/=; [lia|].
  apply IH in H. lia.
Qed.

Lemma content_not_inside pre c rest o :
  Forall plain c -> (last pre = Some CR -> head (c ++ rest) <> Some LF) ->
  length pre <= o <= length pre + length c -> ~ inside_crlf (pre ++ c ++ rest) o.
Proof.
  intros Hc Hp Ho (e & -> & He & Hlf). destruct (decide (length pre <= e)) as [Hge|Hlt].
  - rewrite lookup_app_r, lookup_app_l in He by lia.
    rewrite Forall_lookup in Hc. by destruct (Hc _ _ He).
  - rewrite lookup_app_l in He by lia. rewrite lookup_app_r in Hlf by lia.
    replace (e + 1 - length pre) with 0 in Hlf by lia.
    rewrite <- head_lookup in Hlf. apply Hp; [|done]. rewrite last_lookup. by replace (pred (length pre)) with e by lia.
Qed.

(** The last line whose start is at most [o] is the one [o] lies in. *)
Lemma locate ls i o pre :
  text_lines ls -> length pre = i -> (last pre = Some CR -> head (join_lines ls) <> Some LF) -> i <= o <= i + length (join_lines ls) ->
  exists k s e, partition_point (fun start => start <=? o) (map fst (spans i ls)) = S k /\
    spans i ls !! k = Some (s, e) /\ s <= o /\ s <= e <= i + length (join_lines ls) /\
    (o <= e /\ ~ inside_crlf (pre ++ join_lines ls) o \/
     o = e + 1 /\ inside_crlf (pre ++ join_lines ls) o).
Proof.
  revert i pre. induction ls as [|[c t] ls IH]; intros i pre Hl Hp Hcr Ho; [done|]. simpl.
  destruct (Nat.leb_spec i o); [|lia]. destruct ls as [|ct ls].
  { destruct Hl as [Hl ->]. unfold join_lines in *. simpl in *. rewrite !app_nil_r in *.
    exists 0, i, (i + length c). repeat split; try lia. left. split; [lia|].
    rewrite <- (app_nil_r c). apply content_not_inside; rewrite ?app_nil_r; [done|done|lia]. }
  destruct Hl as (Hc & Ht & Hl). remember (ct :: ls) as ls' eqn:E. clear E ct ls.
  assert (Hj : join_lines ((c, t) :: ls') = c ++ t ++ join_lines ls') by (unfold join_lines; simpl; by rewrite <- app_assoc).
  rewrite Hj, !length_app in *.
  destruct (decide (i + length c + length t <= o)) as [Hge|Hlt].
  - destruct (IH (i + length c + length t) (pre ++ c ++ t) Hl) as (k & s & e & H1 & H2 & H3 & H4 & H5).
    { rewrite !length_app. lia. }
    { rewrite !last_app. destruct Ht as [->|[->|[-> Ht]]]; done. }
    { lia. }
    exists (S k), s, e. rewrite H1. repeat split; try done; try lia. by rewrite <- !app_assoc in H5.
  - exists 0, i, (i + length c). split.
    { f_equal. destruct (spans _ ls') as [|[s e] l] eqn:E; [done|]. simpl.
      destruct (Nat.leb_spec s o) as [Hs|]; [|done].
      apply (f_equal (fun l => l !! 0)) in E. apply spans_lower in E. simpl in E. lia. }
    repeat split; try lia. destruct (decide (o <= i + length c)).
    { left. split; [done|]. apply content_not_inside; [done|done|lia]. }
    right.
    assert (t = [CR; LF] /\ o = i + length c + 1) as [-> ->].
    { destruct Ht as [->|[->|[-> _]]]; simpl in *; [lia| |lia]. split; [done|lia]. }
    split; [done|]. exists (i + length c). split; [done|].
    rewrite !(lookup_app_r pre), !(lookup_app_r c) by lia. subst i.
    replace (length pre + length c - length pre - length c) with 0 by lia.
    replace (length pre + length c + 1 - length pre - length c) with 1 by lia. done.
Qed.

(** The record of a line, from the index. *)
Lemma span_lookup (l : list (nat * nat)) k se :
  l !! k = Some se -> map fst l !! k = Some se.1 /\ map snd l !! k = Some se.2.
Proof. intros H. split; by rewrite list_lookup_fmap, H. Qed.

Lemma ends_last i ls : text_lines ls -> last (map snd (spans i ls)) = Some (i + length (join_lines ls)).
Proof.
  revert i. induction ls as [|[c t] ls IH]; intros i Hl; [done|]. destruct ls as [|ct ls].
  - destruct Hl as [_ ->]. unfold join_lines. simpl. by rewrite !app_nil_r.
  - destruct Hl as (_ & _ & Hl). specialize (IH (i + length c + length t) Hl).
    remember (ct :: ls) as ls' eqn:E. simpl.
    assert (join_lines ((c, t) :: ls') = c ++ t ++ join_lines ls') as -> by (unfold join_lines; simpl; by rewrite <- app_assoc).
    rewrite !length_app. destruct (map snd _) as [|x l]; [done|]. simpl in *. rewrite IH. f_equal. lia.
Qed.

(** ** Characters *)

Definition char_len (lead : ascii) : nat :=
  if code lead <? 128 then 1 else if code lead <? 224 then 2 else if code lead <? 240 then 3 else 4.

(** A UTF-8 text: each character its lead byte and the continuation bytes it announces. *)
Inductive utf8 : bytes -> Prop :=
  | utf8_nil : utf8 []
  | utf8_char lead conts rest :
      is_cont lead = false -> Forall (fun c => is_cont c = true) conts ->
      length conts = char_len lead - 1 -> utf8 rest -> utf8 (lead :: conts ++ rest).

Lemma utf8_head c text : utf8 (c :: text) -> is_cont c = false.
Proof. by inversion 1. Qed.

(** No byte after an ASCII one continues a character. *)
Lemma utf8_after_ascii text i c d :
  utf8 text -> text !! i = Some c -> is_ascii_byte c = true -> text !! S i = Some d -> is_cont d = false.
Proof.
  intros Hu. revert i. induction Hu as [|lead conts rest Hl Hc Hn Hu IH]; intros i Hi Ha Hd; [done|].
  destruct i as [|i]; simplify_eq/=.
  - assert (conts = []) as ->.
    { destruct conts as [|x conts]; [done|]. unfold char_len, is_ascii_byte in *. rewrite Ha in Hn. done. }
    destruct rest as [|x rest]; [done|]. simplify_eq/=. by apply utf8_head in Hu.
  - apply lookup_app_Some in Hi as [Hi|[Hlen Hi]].
    + rewrite Forall_lookup in Hc. specialize (Hc _ _ Hi). simpl in Hc. unfold is_cont, is_ascii_byte in *.
      breflect. lia.
    + eapply IH; [exact Hi|done|]. rewrite lookup_app_r in Hd by lia.
      rewrite <- Hd. f_equal. lia.
Qed.

Lemma boundary_length text : is_char_boundary text (length text) = true.
Proof. unfold is_char_boundary. rewrite lookup_ge_None_2 by lia. apply Nat.eqb_refl. Qed.

Lemma boundary_of text i c : text !! i = Some c -> is_cont c = false -> is_char_boundary text i = true.
Proof. intros Hi Hc. unfold is_char_boundary. rewrite Hi, Hc. apply orb_true_r. Qed.

Lemma boundary_after text i c :
  utf8 text -> text !! i = Some c -> is_ascii_byte c = true -> is_char_boundary text (S i) = true.
Proof.
  intros Hu Hi Ha. destruct (text !! S i) as [d|] eqn:Hd.
  - eapply boundary_of; [done|]. apply (utf8_after_ascii text i c d Hu Hi Ha Hd).
  - apply lookup_ge_None in Hd. apply lookup_lt_Some in Hi.
    replace (S i) with (length text) by lia. apply boundary_length.
Qed.

Lemma boundary_le text i : is_char_boundary text i = true -> i <= length text.
Proof.
  unfold is_char_boundary. destruct (text !! i) eqn:E; [|intros ?; breflect; lia].
  apply lookup_lt_Some in E. lia.
Qed.

Lemma boundary_lead text i c :
  utf8 text -> is_char_boundary text i = true -> text !! i = Some c -> is_cont c = false.
Proof.
  intros Hu Hb Hi. unfold is_char_boundary in Hb. rewrite Hi in Hb.
  destruct (Nat.eqb_spec i 0) as [->|]; [|by apply negb_true_iff].
  destruct text; simplify_eq/=. by eapply utf8_head.
Qed.

(** The starts and the ends of lines are character boundaries. *)
Lemma spans_boundary ls pre :
  utf8 (pre ++ join_lines ls) -> is_char_boundary (pre ++ join_lines ls) (length pre) = true ->
  text_lines ls ->
  Forall (fun se => is_char_boundary (pre ++ join_lines ls) se.1 = true /\
    is_char_boundary (pre ++ join_lines ls) se.2 = true /\ se.1 <= se.2) (spans (length pre) ls).
Proof.
  revert pre. induction ls as [|[c t] ls IH]; intros pre Hu Hb Hl; [done|]. simpl. destruct ls as [|ct ls].
  { destruct Hl as [_ ->]. repeat constructor; simpl; [done| |lia].
    replace (length pre + length c) with (length (pre ++ join_lines [(c, [])])); [apply boundary_length|].
    unfold join_lines. simpl. rewrite !length_app. simpl. lia. }
  destruct Hl as (Hc & Ht & Hl). remember (ct :: ls) as ls' eqn:E. clear E ct ls.
  assert (Hj : pre ++ join_lines ((c, t) :: ls') = (pre ++ c ++ t) ++ join_lines ls').
  { unfold join_lines. simpl. by rewrite <- !app_assoc. }
  assert (Hlen : length pre + length c + length t = length (pre ++ c ++ t)) by (rewrite !length_app; lia).
  rewrite Hj in *. rewrite Hlen. constructor; simpl.
  - split; [done|]. split; [|lia].
    assert (exists x, head t = Some x /\ is_cont x = false) as (x & Hx & Hcx).
    { destruct Ht as [->|[->|[-> _]]]; eexists; by split. }
    eapply boundary_of; [|done]. rewrite <- !app_assoc, !lookup_app_r by lia.
    replace (_ - _ - _) with 0 by lia. destruct t; simplify_eq/=. done.
  - apply IH; [done| |done].
    assert (exists t' x, t = t' ++ [x] /\ is_ascii_byte x = true) as (t' & x & -> & Hx).
    { destruct Ht as [->|[->|[-> _]]]; [by exists [], LF|by exists [CR], LF|by exists [], CR]. }
    rewrite !length_app. simpl. replace (length pre + (length c + (length t' + 1)))
      with (S (length (pre ++ c ++ t'))) by (rewrite !length_app; lia).
    eapply boundary_after; [done| |done].
    replace ((pre ++ c ++ t' ++ [x]) ++ join_lines ls') with ((pre ++ c ++ t') ++ x :: join_lines ls')
      by by rewrite <- !app_assoc.
    rewrite lookup_app_r, Nat.sub_diag by done. done.
Qed.

(** ** The loop to a character's start *)

Lemma to_boundary_id text o : is_char_boundary text o = true -> to_boundary text o = o.
Proof. intros H. destruct o; simpl; by rewrite H. Qed.

Lemma to_boundary_ok text o : o <= length text -> is_char_boundary text (to_boundary text o) = true /\ to_boundary text o <= o.
Proof.
  induction o as [|o IH]; intros Ho; simpl.
  - assert (is_char_boundary text 0 = true) as E by by destruct text. rewrite E. done.
  - destruct (is_char_boundary text (S o)) eqn:E; [done|]. destruct IH; [lia|]. split; [done|lia].
Qed.

Lemma to_boundary_ge text s o : is_char_boundary text s = true -> s <= o -> s <= to_boundary text o.
Proof.
  intros Hs. induction o as [|o IH]; intros Ho; [lia|]. simpl.
  destruct (is_char_boundary text (S o)) eqn:E; [lia|].
  destruct (decide (s = S o)) as [->|]; [congruence|]. apply IH. lia.
Qed.

(** ** Columns in code units *)

Lemma utf16_count_app a b : utf16_count (a ++ b) = utf16_count a + utf16_count b.
Proof. induction a as [|c a IH]; simpl; [done|]. rewrite IH. lia. Qed.

Lemma find_unit_app a b i units column :
  units + utf16_count a <= column ->
  find_unit (a ++ b) i units column = find_unit b (i + length a) (units + utf16_count a) column.
Proof.
  revert i units. induction a as [|c a IH]; intros i units H; simpl in *.
  - by rewrite !Nat.add_0_r.
  - destruct (is_cont c); simpl in *.
    + rewrite IH by lia. f_equal; lia.
    + destruct (Nat.ltb_spec column (units + len_utf16 c)); [lia|]. rewrite IH by lia. f_equal; lia.
Qed.

Lemma utf16_count_ascii text : forallb is_ascii_byte text = true -> utf16_count text = length text.
Proof.
  induction text as [|c text IH]; simpl; [done|]. intros [Hc Ht]%andb_true_iff. rewrite IH by done.
  unfold is_cont, len_utf16, is_ascii_byte in *. breflect.
  destruct (Nat.leb_spec 128 (code c)), (Nat.leb_spec 240 (code c)); simpl; lia.
Qed.
