(* ===== verification/LineProps.v ===== *)
(** * The contract of the line index

    The lines of a text, and the round trips between offsets and positions in
    either encoding. *)

From stdpp Require Import list.
From S2P Require Import Prelude LineIndex.
Set Warnings "-clear-no-such-hyp".
Local Open Scope nat_scope.

(** ** The line of an offset *)

(** An offset's line in the index of a text. *)
Record in_line (text : bytes) (o l s e : nat) : Prop := {
  il_start : starts (line_index text) !! l = Some s;
  il_end : ends (line_index text) !! l = Some e;
  il_le : s <= o;
  il_content : s <= e <= length text;
  il_before : o <= e /\ ~ inside_crlf text o \/ o = e + 1 /\ inside_crlf text o
}.

Lemma ends_last_length text : last (ends (line_index text)) = Some (length text).
Proof.
  destruct (line_index_spans text) as (ls & Hl & Ht & _ & ->). rewrite Ht at 1. by apply ends_last.
Qed.

Lemma line_col_ok text o :
  o <= length text ->
  exists l s e, in_line text o l s e /\
    line_col (line_index text) o = Some (MkLineCol l (Nat.min o e - s)).
Proof.
  intros Ho. unfold line_col. rewrite ends_last_length. cbn [mbind option_bind].
  destruct (Nat.leb_spec o (length text)); [|lia].
  destruct (line_index_spans text) as (ls & Hl & Ht & Es & Ee).
  destruct (locate ls 0 o [] Hl eq_refl) as (k & s & e & Hk & Hse & H1 & H2 & H3); [done|rewrite <- Ht; lia|].
  simpl in H2, H3. rewrite <- Ht in *. destruct (span_lookup _ _ _ Hse) as [Hs He].
  exists k, s, e. rewrite Es, Hk. replace (S k - 1) with k by lia. rewrite Ee, He, Hs.
  split; [|done]. by split; rewrite ?Es, ?Ee.
Qed.

Lemma line_boundaries text l s e :
  utf8 text -> starts (line_index text) !! l = Some s -> ends (line_index text) !! l = Some e ->
  is_char_boundary text s = true /\ is_char_boundary text e = true /\ s <= e.
Proof.
  intros Hu Hs He. destruct (line_index_spans text) as (ls & Hl & Ht & Es & Ee).
  rewrite Es, list_lookup_fmap in Hs. rewrite Ee, list_lookup_fmap in He.
  destruct (spans 0 ls !! l) as [se|] eqn:E; [|done]. simplify_eq/=.
  assert (is_char_boundary (join_lines ls) 0 = true) as H0 by by destruct (join_lines ls).
  pose proof (spans_boundary ls [] Hu H0 Hl) as Hf. rewrite Forall_lookup in Hf. by apply (Hf l).
Qed.

(** A slice between boundaries. *)
Lemma slice_ok text a b :
  a <= b -> is_char_boundary text a = true -> is_char_boundary text b = true ->
  slice text a b = Some (take (b - a) (drop a text)).
Proof. intros H Ha Hb. unfold slice. rewrite Ha, Hb. by destruct (Nat.leb_spec a b); [|lia]. Qed.

Lemma offset_line text pos s e :
  starts (line_index text) !! line pos = Some s -> ends (line_index text) !! line pos = Some e ->
  offset (line_index text) text pos = Some (to_boundary text (s + Nat.min (col pos) (e - s))).
Proof.
  intros Hs He. unfold offset. rewrite ends_last_length, bool_decide_true by done. by rewrite Hs, He.
Qed.

(** The end of a line's content, for the offset between its terminator's bytes. *)
Definition clamped (text : bytes) (o o' : nat) : Prop :=
  (inside_crlf text o -> o' = o - 1) /\ (~ inside_crlf text o -> o' = o).

Lemma in_line_clamped text o l s e : in_line text o l s e -> clamped text o (Nat.min o e) /\ s <= Nat.min o e.
Proof. intros [H1 H2 H3 H4 H5]. unfold clamped. destruct H5 as [[? ?]|[? ?]]; split; try lia; split; (done || lia). Qed.

Lemma clamped_boundary text o l s e :
  utf8 text -> is_char_boundary text o = true -> in_line text o l s e ->
  is_char_boundary text (Nat.min o e) = true.
Proof.
  intros Hu Hb Hi. destruct (line_boundaries text l s e Hu (il_start _ _ _ _ _ Hi) (il_end _ _ _ _ _ Hi)) as (_ & He & _).
  by destruct (Nat.min_spec o e) as [[_ ->]|[_ ->]].
Qed.

(** What a code-unit search finds in a line: the offset it was counted to. *)
Lemma find_unit_line text s m e :
  utf8 text -> is_char_boundary text m = true -> s <= m <= e -> e <= length text ->
  match find_unit (take (e - s) (drop s text)) 0 0 (utf16_count (take (m - s) (drop s text))) with
  | Some i => s + i = m
  | None => e = m
  end.
Proof.
  intros Hu Hb Hm He.
  assert (Hsplit : take (e - s) (drop s text) = take (m - s) (drop s text) ++ take (e - m) (drop m text)).
  { replace (e - s) with ((m - s) + (e - m)) by lia. rewrite <- take_take_drop, drop_drop. do 3 f_equal. lia. }
  rewrite Hsplit, find_unit_app by lia. rewrite length_take, length_drop. simpl.
  rewrite (Nat.min_l (m - s)) by lia.
  destruct (drop m text) as [|c rest] eqn:Ed.
  - rewrite take_nil. simpl. apply (f_equal length) in Ed. rewrite length_drop in Ed. simpl in Ed. lia.
  - assert (text !! m = Some c) as Hc.
    { rewrite <- (Nat.add_0_r m), <- lookup_drop, Ed. done. }
    pose proof (boundary_lead text m c Hu Hb Hc) as Hlead.
    destruct (e - m) as [|n] eqn:En; simpl; [lia|]. rewrite Hlead.
    destruct (Nat.ltb_spec (utf16_count (take (m - s) (drop s text)))
      (utf16_count (take (m - s) (drop s text)) + len_utf16 c)); [lia|].
    unfold len_utf16 in *. destruct (240 <=? code c); lia.
Qed.

(** Bytes of an ASCII text count as code units. *)
Lemma ascii_units text a n :
  forallb is_ascii_byte text = true -> a + n <= length text -> utf16_count (take n (drop a text)) = n.
Proof.
  intros Ha Hn. rewrite utf16_count_ascii; [rewrite length_take, length_drop; lia|].
  apply forallb_forall. intros c Hc. rewrite forallb_forall in Ha. apply Ha.
  apply list_elem_of_In in Hc. apply elem_of_take in Hc as (i & Hi & _). rewrite lookup_drop in Hi.
  apply list_elem_of_In. by eapply list_elem_of_lookup_2.
Qed.

(** Where a line lies in the text. *)
Lemma spans_content ls i k c t :
  ls !! k = Some (c, t) ->
  spans i ls !! k
    = Some (i + length (join_lines (take k ls)), i + length (join_lines (take k ls)) + length c) /\
  take (length c) (drop (length (join_lines (take k ls))) (join_lines ls)) = c.
Proof.
  revert i k. induction ls as [|[c0 t0] ls IH]; intros i [|k] Hk; simplify_eq/=.
  - split; [do 2 f_equal; lia|]. unfold join_lines. simpl. rewrite drop_0, <- app_assoc. apply take_app_length.
  - destruct (IH (i + length c0 + length t0) k Hk) as [H1 H2].
    assert (Hj : forall l, join_lines ((c0, t0) :: l) = (c0 ++ t0) ++ join_lines l) by done.
    rewrite !Hj, length_app, H1, length_app. split; [do 2 f_equal; lia|].
    rewrite drop_app_ge by (rewrite length_app; lia).
    rewrite length_app. by replace (_ + _ + _ - _) with (length (join_lines (take k ls))) by lia.
Qed.

Lemma spans_length i ls : length (spans i ls) = length ls.
Proof. revert i. induction ls as [|[c t] ls IH]; intros i; simpl; [done|]. by rewrite IH. Qed.

(** The line whose content holds an offset is the one found for it. *)
Lemma spans_partition ls i k s e o :
  text_lines ls -> spans i ls !! k = Some (s, e) -> s <= o <= e ->
  partition_point (fun start => start <=? o) (map fst (spans i ls)) = S k.
Proof.
  revert i k. induction ls as [|[c t] ls IH]; intros i [|k] Hl Hk Ho; simplify_eq/=.
  - destruct (Nat.leb_spec s o); [|lia]. f_equal. destruct ls as [|[c' t'] ls]; [done|].
    destruct Hl as (_ & Ht & _). simpl. destruct (Nat.leb_spec (s + length c + length t) o); [|done].
    destruct Ht as [->|[->|[-> _]]]; simpl in *; lia.
  - pose proof (spans_lower _ _ _ _ Hk). simpl in *. destruct (Nat.leb_spec i o); [|lia].
    f_equal. destruct ls as [|ct ls]; [done|]. apply IH; [|done|done]. by destruct Hl as (_ & _ & Hl).
Qed.

Lemma partition_in text l s e o :
  starts (line_index text) !! l = Some s -> ends (line_index text) !! l = Some e -> s <= o <= e ->
  partition_point (fun start => start <=? o) (starts (line_index text)) = S l.
Proof.
  intros Hs He Ho. destruct (line_index_spans text) as (ls & Hl & Ht & Es & Ee).
  rewrite Es, list_lookup_fmap in Hs. rewrite Ee, list_lookup_fmap in He. rewrite Es.
  destruct (spans 0 ls !! l) as [[s' e']|] eqn:E; [|done]. simplify_eq/=. by eapply spans_partition.
Qed.

(** ** Properties *)

(** The index of a text has one line for each content between line feeds,
    carriage returns and pairs of the two, and answers each line's range: the
    bytes of its content. *)
Theorem line_index_lines text :
  exists ls, text_lines ls /\ text = join_lines ls /\ line_count (line_index text) = length ls /\
    forall k, match ls !! k with
    | Some (c, _) => exists s, line_range (line_index text) k = Some (Some (s, s + length c)) /\
        s = length (join_lines (take k ls)) /\ take (length c) (drop s text) = c
    | None => line_range (line_index text) k = Some None
    end.
Proof.
  destruct (line_index_spans text) as (ls & Hl & Ht & Es & Ee). exists ls. unfold line_count, line_range.
  rewrite Es, Ee, length_map, spans_length. repeat split; try done. intros k.
  destruct (ls !! k) as [[c t]|] eqn:Hk.
  - destruct (spans_content ls 0 k c t Hk) as [H1 H2]. exists (length (join_lines (take k ls))).
    destruct (span_lookup _ _ _ H1) as [-> ->]. by rewrite <- Ht in H2.
  - rewrite list_lookup_fmap, (proj2 (lookup_ge_None _ _)); [done|].
    rewrite spans_length. by apply lookup_ge_None.
Qed.

(** C32: in either encoding, an offset at a character boundary has a position,
    its column the bytes or the code units from the line's start, and the position's
    offset is the offset, or the end of the line's content where the offset splits a
    two-byte terminator; any other offset is a panic. *)
Theorem position_roundtrip text o encoding :
  utf8 text ->
  if (o <=? length text) && is_char_boundary text o then
    exists p s o', line_col_in (line_index text) text o encoding = Some p /\ clamped text o o' /\
      line_range (line_index text) (line p) <> Some None /\
      starts (line_index text) !! line p = Some s /\
      col p = match encoding with Utf8 => o' - s | Utf16 => utf16_count (take (o' - s) (drop s text)) end /\
      offset_in (line_index text) text p encoding = Some o'
  else line_col_in (line_index text) text o encoding = None.
Proof.
  intros Hu. unfold line_col_in. destruct (Nat.leb_spec o (length text)) as [Ho|Ho]; simpl.
  2:{ unfold line_col. rewrite ends_last_length. simpl. by destruct (Nat.leb_spec o (length text)); [lia|]. }
  destruct (line_col_ok text o Ho) as (l & s & e & Hi & ->). cbn [mbind option_bind].
  destruct (is_char_boundary text o) eqn:Hb; [|done].
  destruct (in_line_clamped _ _ _ _ _ Hi) as [Hcl Hs]. pose proof (clamped_boundary _ _ _ _ _ Hu Hb Hi) as Hm.
  destruct Hi as [H1 H2 H3 H4 H5]. destruct (line_boundaries text l s e Hu H1 H2) as (Hbs & Hbe & _).
  set (m := Nat.min o e) in *.
  assert (Hr : forall c, line_range (line_index text) (line (MkLineCol l c)) <> Some None).
  { intros c. unfold line_range. simpl. by rewrite H1, H2. }
  assert (Hoff : offset (line_index text) text (MkLineCol l (m - s)) = Some m).
  { rewrite (offset_line text (MkLineCol l (m - s)) s e H1 H2). simpl. f_equal.
    replace (s + _) with m by lia. by apply to_boundary_id. }
  destruct encoding; [by exists (MkLineCol l (m - s)), s, m|].
  destruct (all_ascii (line_index text)) eqn:Ha.
  - exists (MkLineCol l (m - s)), s, m. repeat split; try done; [apply Hcl..| |].
    + simpl. rewrite ascii_units; [done| |lia]. unfold line_index in Ha. by destruct (scan 0 text).
    + simpl. by rewrite Ha.
  - simpl. rewrite H1. cbn [mbind option_bind]. replace (s + (m - s)) with m by lia.
    rewrite slice_ok by (done || lia). cbn [mbind option_bind].
    exists (MkLineCol l (utf16_count (take (m - s) (drop s text)))), s, m.
    repeat split; try done; [apply Hcl..|]. simpl. rewrite Ha, H1, H2. cbn [mbind option_bind].
    rewrite slice_ok by (done || lia). cbn [mbind option_bind].
    pose proof (find_unit_line text s m e Hu Hm ltac:(lia) ltac:(lia)) as Hf.
    by destruct (find_unit _ _ _ _); rewrite Hf.
Qed.

(** Every position has an offset, at a character boundary of the text: the
    end of the text past its last line, and otherwise within the line's content; a
    position at a boundary of its line's content is the position of its offset. *)
Theorem offset_clamps text pos :
  utf8 text ->
  exists o, offset (line_index text) text pos = Some o /\ is_char_boundary text o = true /\
    match line_range (line_index text) (line pos) with
    | Some (Some (s, e)) => s <= o <= e /\ o <= s + col pos /\
        (is_char_boundary text (s + col pos) = true -> s + col pos <= e ->
         o = s + col pos /\ line_col (line_index text) o = Some pos)
    | _ => o = length text
    end.
Proof.
  intros Hu. unfold line_range.
  destruct (starts (line_index text) !! line pos) as [s|] eqn:Hs.
  2:{ exists (length text). unfold offset. rewrite ends_last_length, bool_decide_true, Hs by done.
      repeat split. apply boundary_length. }
  assert (exists e, ends (line_index text) !! line pos = Some e) as [e He].
  { destruct (line_index_spans text) as (ls & _ & _ & Es & Ee). rewrite Es in Hs. rewrite Ee.
    rewrite list_lookup_fmap in *. destruct (spans 0 ls !! line pos); [by eexists|done]. }
  destruct (line_boundaries text _ s e Hu Hs He) as (Hbs & Hbe & Hle). rewrite He. cbn [mbind option_bind].
  rewrite (offset_line text pos s e Hs He). eexists. split; [done|].
  pose proof (boundary_le _ _ Hbe) as Hel. set (m := s + _).
  destruct (to_boundary_ok text m) as [Hb Hm]; [lia|]. split; [done|].
  pose proof (to_boundary_ge text s m Hbs). split; [lia|]. split; [lia|]. intros Hbc Hce.
  assert (m = s + col pos) as Em by lia. rewrite to_boundary_id by by rewrite Em. split; [done|].
  unfold line_col. rewrite ends_last_length. cbn [mbind option_bind].
  destruct (Nat.leb_spec m (length text)); [|lia].
  rewrite (partition_in text (line pos) s e) by (done || lia). simpl. rewrite Nat.sub_0_r, He, Hs. simpl.
  destruct pos as [l c]. simpl in *. do 2 f_equal. lia.
Qed.

(** ** Instances *)

(** A two-byte character, a carriage return and a line feed, a four-byte character. *)
Definition line_sample : bytes :=
  ["195"; "169"; CR; LF; "240"; "159"; "152"; "128"]%char.

Lemma line_sample_utf8 : utf8 line_sample.
Proof.
  apply (utf8_char "195" ["169"]%char); [done|by repeat constructor|done|].
  apply (utf8_char CR []); [done|constructor|done|].
  apply (utf8_char LF []); [done|constructor|done|].
  apply (utf8_char "240" ["159"; "152"; "128"]%char); [done|by repeat constructor|done|constructor].
Qed.

(** Past the second line's character: two code units, four bytes. *)
Lemma position_roundtrip_witness :
  exists p s o', line_col_in (line_index line_sample) line_sample 8 Utf16 = Some p /\ clamped line_sample 8 o' /\
    line_range (line_index line_sample) (line p) <> Some None /\
    starts (line_index line_sample) !! line p = Some s /\
    col p = utf16_count (take (o' - s) (drop s line_sample)) /\
    offset_in (line_index line_sample) line_sample p Utf16 = Some o'.
Proof. exact (position_roundtrip line_sample 8 Utf16 line_sample_utf8). Defined.

Lemma offset_clamps_witness :
  exists o, offset (line_index line_sample) line_sample (MkLineCol 1 2) = Some o /\ is_char_boundary line_sample o = true /\
    o = 4.
Proof.
  destruct (offset_clamps line_sample (MkLineCol 1 2) line_sample_utf8) as (o & E & Hb & _).
  exists o. split; [exact E|]. split; [exact Hb|].
  assert (offset (line_index line_sample) line_sample (MkLineCol 1 2) = Some 4) as E4 by (vm_compute; reflexivity).
  rewrite E4 in E. congruence.
Defined.
