(* ===== verification/Scheduler.v ===== *)
(** * Notifications and the scheduler
    ([src/interpreter/scheduler.rs], [Notified] of
    [src/interpreter/tile_operators/mod.rs], the fan-out's closure of
    [src/interpreter/tile_operators/fanout.rs], [SinkConsumer] of
    [src/interpreter/sinks.rs])

    Consumers are values shared by handle, so the graph they form is a store:
    operators behind their gates, plain consumer cells and fan-outs, each by its
    identity.  A [RefCell] is its borrow state, a panic or a lack of fuel [None].
    What a sink's pull runs is a parameter of [deliver]. *)

From stdpp Require Import gmap.
From S2P Require Import Prelude.
From S2P Require Import Returns.
Local Open Scope nat_scope.
Set Warnings "-clear-no-such-hyp".

(** ** [Notified] *)

(** The [Cell]s that flags live in: the gate of an operator's shared consumer,
    the [forwarded] gate of a fan-out, the flag of an input's consumer. *)
Inductive FlagCell := GateOf (op : nat) | ForwardedOf (fan : nat) | InputOf (input : nat).

#[export] Instance FlagCell_eq_dec : EqDecision FlagCell.
Proof. solve_decision. Defined.

#[export] Instance FlagCell_countable : Countable FlagCell.
Proof.
  refine (inj_countable' (fun c => match c with
    | GateOf n => inl (inl n) | ForwardedOf n => inl (inr n) | InputOf n => inr n end)
    (fun s => match s with inl (inl n) => GateOf n | inl (inr n) => ForwardedOf n | inr n => InputOf n end) _).
  by intros [].
Defined.

Inductive Notified := Always | Flag (c : FlagCell).

(** The cells that hold [true]. *)
Abbreviation Flags := (gset FlagCell).

Definition mark_news (n : Notified) (s : Flags) : bool * Flags :=
  match n with
  | Always => (true, s)
  | Flag c => (bool_decide (c ∉ s), {[c]} ∪ s)
  end.

Definition is_set (n : Notified) (s : Flags) : bool :=
  match n with Always => true | Flag c => bool_decide (c ∈ s) end.

Definition mark (n : Notified) (s : Flags) : Flags :=
  match n with Always => s | Flag c => {[c]} ∪ s end.

(** [take]. *)
Definition take_flag (n : Notified) (s : Flags) : bool * Flags :=
  match n with
  | Always => (true, s)
  | Flag c => (bool_decide (c ∈ s), s ∖ {[c]})
  end.

(** ** Consumers *)

(** The notification closures the runtime builds: [forwarding_consumer] of an operator's gated
    consumer, [Notified::consumer], the closure a fan-out subscribes its input
    with, and [SinkConsumer].  They pass a notification on, set flags and queue pulls: none of
    them pulls an operator while it is being notified. *)
Inductive Consumer :=
  | Forward (op : nat)
  | Marking (notified : Notified) (downstream : Consumer)
  | FanClosure (fan : nat)
  | SinkNotify (pull : nat).

(** The consumers by identity: the consumer behind each operator's gate, the
    consumer of each plain cell, and each fan-out's branches with whether the
    subscriber still exists. *)
Record Graph := MkGraph {
  ops : gmap nat Consumer;
  cells : gmap nat Consumer;
  fans : gmap nat (list (nat * bool))
}.

(** The flags, the cells borrowed, the two wakeup queues; [passed] records the
    operators whose consumer a gate has passed a notification to, and [fan_busy] are the fan-outs
    whose shared state a pull holds. *)
Record World := MkWorld {
  flags : Flags;
  op_busy : gset nat;
  cell_busy : gset nat;
  wakeups : list nat;
  sink_pulls : list nat;
  passed : list nat;
  fan_busy : gset nat
}.

Definition with_flags (w : World) (s : Flags) : World :=
  MkWorld s (op_busy w) (cell_busy w) (wakeups w) (sink_pulls w) (passed w) (fan_busy w).
Definition with_op_busy (w : World) (s : gset nat) : World :=
  MkWorld (flags w) s (cell_busy w) (wakeups w) (sink_pulls w) (passed w) (fan_busy w).
Definition with_cell_busy (w : World) (s : gset nat) : World :=
  MkWorld (flags w) (op_busy w) s (wakeups w) (sink_pulls w) (passed w) (fan_busy w).
Definition with_wakeups (w : World) (q : list nat) : World :=
  MkWorld (flags w) (op_busy w) (cell_busy w) q (sink_pulls w) (passed w) (fan_busy w).
Definition with_sink_pulls (w : World) (q : list nat) : World :=
  MkWorld (flags w) (op_busy w) (cell_busy w) (wakeups w) q (passed w) (fan_busy w).
Definition with_passed (w : World) (l : list nat) : World :=
  MkWorld (flags w) (op_busy w) (cell_busy w) (wakeups w) (sink_pulls w) l (fan_busy w).

(** [WakeupQueue::request]. *)
Definition request (q : list nat) (consumer : nat) : list nat :=
  if existsb (Nat.eqb consumer) q then q else q ++ [consumer].

Section Notify.
Context (g : Graph).

(** [FanOutShared::live_indices], as the cells at those indices. *)
Definition live_branches (branches : list (nat * bool)) : list nat :=
  map fst (List.filter snd branches).

(** [GatedConsumer::notify]: the closure of [GatedConsumer::new], borrowed. *)
Definition notify_gated (notify : Consumer -> World -> option World) (op : nat) (w : World) :
    option World :=
  if bool_decide (op ∈ op_busy w) then None
  else
    consumer ← ops g !! op;
    let w := with_op_busy w ({[op]} ∪ op_busy w) in
    let '(news, s) := mark_news (Flag (GateOf op)) (flags w) in
    let w := with_flags w s in
    w ← (if news then notify consumer (with_passed w (passed w ++ [op])) else Some w);
    Some (with_op_busy w (op_busy w ∖ {[op]})).

(** [borrow_mut().notify()] of a plain cell. *)
Definition notify_cell (notify : Consumer -> World -> option World) (cell : nat) (w : World) :
    option World :=
  if bool_decide (cell ∈ cell_busy w) then None
  else
    consumer ← cells g !! cell;
    w ← notify consumer (with_cell_busy w ({[cell]} ∪ cell_busy w));
    Some (with_cell_busy w (cell_busy w ∖ {[cell]})).

(** The closure of a fan-out: where it still exists its state is borrowed, to read the branches,
    and they are notified in turn. *)
Definition notify_fan (notify : Consumer -> World -> option World) (fan : nat) (w : World) : option World :=
  match fans g !! fan with
  | None => Some w
  | Some branches =>
      if bool_decide (fan ∈ fan_busy w) then None
      else
        let '(news, s) := mark_news (Flag (ForwardedOf fan)) (flags w) in
        let w := with_flags w s in
        if news then
          foldl (fun w cell => w ← w; notify_cell notify cell w) (Some w) (live_branches branches)
        else Some w
  end.

(** [SinkConsumer::notify]. *)
Definition notify_sink (pull : nat) (w : World) : World :=
  with_sink_pulls w (request (sink_pulls w) pull).

(** [Consumer::notify]. *)
Fixpoint notify (fuel : nat) (c : Consumer) (w : World) : option World :=
  match fuel with
  | O => None
  | S fuel =>
      match c with
      | Forward op =>
          if bool_decide (op ∈ op_busy w) then
            if is_set (Flag (GateOf op)) (flags w) then Some w
            else Some (with_wakeups w (request (wakeups w) op))
          else notify_gated (notify fuel) op w
      | Marking n downstream => notify fuel downstream (with_flags w (mark n (flags w)))
      | FanClosure fan => notify_fan (notify fuel) fan w
      | SinkNotify pull => Some (notify_sink pull w)
      end
  end.

(** The gate of an operator, reopened by the pull that [TileProducer::get] starts. *)
Definition pull_reopens (op : nat) (w : World) : World :=
  with_flags w (take_flag (Flag (GateOf op)) (flags w)).2.

(** The sink pulls of a delivery, in order. *)
Definition run_pulls (pull : nat -> World -> option World) (l : list nat) (w : World) : option World :=
  foldl (fun w p => w ← w; pull p w) (Some w) l.

(** The wakes of a delivery: the polled consumers, then the queued wakeups,
    taken after the first; and whether there was any. *)
Definition deliver_wakes (fuel : nat) (woken : list nat) (w : World) : option (World * bool) :=
  w ← foldl (fun w cell => w ← w; notify_cell (notify fuel) cell w) (Some w) woken;
  let queued := wakeups w in
  w ← foldl (fun w op => w ← w; notify_gated (notify fuel) op w) (Some (with_wakeups w [])) queued;
  Some (w, match woken, queued with [], [] => false | _, _ => true end).

(** [Scheduler::deliver]. *)
Definition deliver (fuel : nat) (pull : nat -> World -> option World) (woken : list nat) (w : World) :
    option (World * bool) :=
  '(w, delivered) ← deliver_wakes fuel woken w;
  let queued := sink_pulls w in
  w ← run_pulls pull queued (with_sink_pulls w []);
  Some (w, match queued with [] => delivered | _ => true end).
End Notify.

(** ** Sources and producer frames *)

(** [source_handles]: each source's identity and the cells registered for it. *)
Abbreviation Handles := (gmap string (nat * list nat)).

(** [add_source_handle]; [None] where the id names another source. *)
Definition add_source_handle (handles : Handles) (id : string) (source consumer : nat) : option Handles :=
  match handles !! id with
  | Some (s, consumers) =>
      if s =? source then Some (<[id := (s, consumers ++ [consumer])]> handles) else None
  | None => Some (<[id := (source, [consumer])]> handles)
  end.

Definition forget_source (handles : Handles) (id : string) : Handles := delete id handles.

(** [poll_sources]: registrations of dropped consumers are pruned, and the
    others of each source with new data returned, in the map's order; [alive] is whether a cell still has
    an owner, [check_for_new_data] what each source answers. *)
Definition poll_sources (alive : nat -> bool) (check_for_new_data : nat -> bool) (handles : Handles) :
    Handles * list nat :=
  let pruned := (fun sc : nat * list nat => (sc.1, List.filter alive sc.2)) <$> handles in
  (pruned,
   concat (map (fun ise : string * (nat * list nat) =>
     if check_for_new_data ise.2.1 then ise.2.2 else []) (map_to_list pruned))).

(** [producer_frames], outermost first. *)
Definition begin_source_producers (frames : list (list string)) : list (list string) := frames ++ [[]].

Definition extend_last (frames : list (list string)) (names : list string) : list (list string) :=
  match last frames with
  | Some frame => removelast frames ++ [frame ++ names]
  | None => frames
  end.

(** [None] where no frame is open. *)
Definition end_source_producers (frames : list (list string)) : option (list string * list (list string)) :=
  producers ← last frames;
  Some (producers, extend_last (removelast frames) producers).

Definition note_source_producer (frames : list (list string)) (producer : string) : list (list string) :=
  extend_last frames [producer].

(** * What a notification cascade does

    Cascades end because each gate passes one notification; what they leave is a
    [Spread]: gates closed on the way, each with its consumer's targets reached. *)

Lemma request_elem q c x : x ∈ request q c <-> x = c \/ x ∈ q.
Proof.
  unfold request. destruct (existsb (Nat.eqb c) q) eqn:E; [|set_solver].
  apply existsb_exists in E as (y & Hy & ->%Nat.eqb_eq). apply list_elem_of_In in Hy. set_solver.
Qed.

Lemma request_nodup q c : NoDup q -> NoDup (request q c).
Proof.
  intros Hq. unfold request. destruct (existsb (Nat.eqb c) q) eqn:E; [done|].
  apply NoDup_app. split; [done|]. split; [|apply NoDup_singleton].
  intros x Hx ->%list_elem_of_singleton. assert (existsb (Nat.eqb c) q = true); [|congruence].
  apply existsb_exists. exists c. split; [by apply list_elem_of_In|apply Nat.eqb_refl].
Qed.

Section Cascade.
Context (g : Graph).

(** ** The graph *)

(** The identities a consumer names exist. *)
Fixpoint known (c : Consumer) : Prop :=
  match c with
  | Forward op => op ∈ dom (ops g)
  | Marking _ downstream => known downstream
  | FanClosure _ | SinkNotify _ => True
  end.

(** Handles do not dangle, flags are cells of their own, and a cell is the
    branch of one fan-out at most. *)
Fixpoint own_flags (c : Consumer) : Prop :=
  match c with
  | Marking (Flag (InputOf _)) downstream | Marking Always downstream => own_flags downstream
  | Marking _ _ => False
  | _ => True
  end.

Definition wired_consumer (c : Consumer) : Prop := known c /\ own_flags c.

Record wired : Prop := {
  wired_ops op c : ops g !! op = Some c -> wired_consumer c;
  wired_cells cell c : cells g !! cell = Some c -> wired_consumer c;
  wired_branches fan branches cell :
    fans g !! fan = Some branches -> cell ∈ live_branches branches -> cell ∈ dom (cells g);
  wired_apart fan fan' branches branches' cell :
    fans g !! fan = Some branches -> fans g !! fan' = Some branches' ->
    cell ∈ live_branches branches -> cell ∈ live_branches branches' -> fan = fan'
}.

(** ** States *)

(** Whatever is being notified is behind a closed gate, and no fan-out is being pulled. *)
Record guarded (w : World) : Prop := {
  guarded_ops op : op ∈ op_busy w -> GateOf op ∈ flags w;
  guarded_cells cell fan branches :
    cell ∈ cell_busy w -> fans g !! fan = Some branches -> cell ∈ live_branches branches ->
    ForwardedOf fan ∈ flags w;
  guarded_fans : fan_busy w = ∅
}.

(** A consumer's targets have been notified. *)
Fixpoint reached (w : World) (c : Consumer) : Prop :=
  match c with
  | Forward op => GateOf op ∈ flags w
  | Marking n downstream => is_set n (flags w) = true /\ reached w downstream
  | FanClosure fan => fans g !! fan = None \/ ForwardedOf fan ∈ flags w
  | SinkNotify pull => pull ∈ sink_pulls w
  end.

(** From [w] to [w']: flags are only set, sink pulls only queued, each gate
    that closed passed one notification, and what it passed it to has been reached. *)
Record Spread (w w' : World) : Prop := {
  sp_ops : op_busy w' = op_busy w;
  sp_cells : cell_busy w' = cell_busy w;
  sp_fans : fan_busy w' = fan_busy w;
  sp_flags : flags w ⊆ flags w';
  sp_pulls p : p ∈ sink_pulls w -> p ∈ sink_pulls w';
  sp_nodup : NoDup (sink_pulls w) -> NoDup (sink_pulls w');
  sp_passed : exists l, passed w' = passed w ++ l /\ NoDup l /\
    forall op, op ∈ l <-> GateOf op ∈ flags w' /\ GateOf op ∉ flags w;
  sp_op_reached op c :
    GateOf op ∈ flags w' -> GateOf op ∉ flags w -> ops g !! op = Some c -> reached w' c;
  sp_fan_reached fan branches cell c :
    ForwardedOf fan ∈ flags w' -> ForwardedOf fan ∉ flags w -> fans g !! fan = Some branches ->
    cell ∈ live_branches branches -> cells g !! cell = Some c -> reached w' c
}.

Lemma reached_mono w w' c :
  flags w ⊆ flags w' -> (forall p, p ∈ sink_pulls w -> p ∈ sink_pulls w') -> reached w c -> reached w' c.
Proof.
  intros Hf Hp. induction c as [op|n d IH|fan|p]; simpl; [set_solver| |set_solver|auto].
  intros [Hn Hd]. split; [|auto]. destruct n as [|c]; simpl in *; [done|].
  apply bool_decide_eq_true in Hn. apply bool_decide_eq_true. set_solver.
Qed.

Lemma spread_refl w : Spread w w.
Proof.
  split; try done. exists []. split; [by rewrite app_nil_r|]. split; [constructor|]. set_solver.
Qed.

Lemma spread_trans w w1 w2 : Spread w w1 -> Spread w1 w2 -> Spread w w2.
Proof.
  intros [A1 A2 A0 A3 A4 A5 (l & A6 & A7 & A8) A9 A10] [B1 B2 B0 B3 B4 B5 (l' & B6 & B7 & B8) B9 B10].
  split; [congruence|congruence|congruence|set_solver|auto|auto| | |].
  - exists (l ++ l'). split; [by rewrite B6, A6, app_assoc|]. split.
    + apply NoDup_app. split; [done|]. split; [|done]. intros op Hl Hl'.
      apply A8 in Hl. apply B8 in Hl'. tauto.
    + intros op. rewrite elem_of_app, A8, B8. destruct (decide (GateOf op ∈ flags w1)); set_solver.
  - intros op c Hin Hout Hop. destruct (decide (GateOf op ∈ flags w1)); [|by eapply B9].
    eapply (reached_mono w1); [done|done|]. by eapply A9.
  - intros fan branches cell c Hin Hout Hfan Hcell Hc.
    destruct (decide (ForwardedOf fan ∈ flags w1)); [|by eapply B10].
    eapply (reached_mono w1); [done|done|]. by eapply A10.
Qed.

Lemma spread_guarded w w' : Spread w w' -> guarded w -> guarded w'.
Proof.
  intros [A1 A2 A0 A3 _ _ _ _ _] [G1 G2 G3]. split.
  - intros op. rewrite A1. auto.
  - intros cell fan branches. rewrite A2. eauto.
  - by rewrite A0.
Qed.

(** ** Progress *)

Definition all_gates : Flags := set_map GateOf (dom (ops g)) ∪ set_map ForwardedOf (dom (fans g)).

Definition open_gates (w : World) : nat := size (all_gates ∖ flags w).

Lemma open_gates_set w s c :
  c ∈ all_gates -> c ∉ flags w -> s = {[c]} ∪ flags w -> size (all_gates ∖ s) < open_gates w.
Proof.
  intros Hc Hn ->. unfold open_gates. apply subset_size. split; [set_solver|]. intros Hs.
  assert (c ∈ all_gates ∖ flags w) as Hin by set_solver. apply Hs in Hin. set_solver.
Qed.

Definition settles (n : nat) : Prop :=
  forall c w, open_gates w <= n -> guarded w -> wired_consumer c ->
    returns (fun k => notify g k c w)
      (fun w' => Spread w w' /\ wakeups w' = wakeups w /\ reached w' c).

(** A gate that closes, its consumer notified and reached. *)
Lemma spread_gate w w' op c :
  GateOf op ∉ flags w -> ops g !! op = Some c ->
  Spread (MkWorld ({[GateOf op]} ∪ flags w) ({[op]} ∪ op_busy w) (cell_busy w) (wakeups w) (sink_pulls w)
            (passed w ++ [op]) (fan_busy w)) w' ->
  op ∉ op_busy w -> reached w' c ->
  Spread w (with_op_busy w' (op_busy w' ∖ {[op]})).
Proof.
  intros Hgate Hop [A1 A2 A0 A3 A4 A5 (l & A6 & A7 & A8) A9 A10] Hbusy Hr. simpl in *.
  assert (Hre : forall c', reached w' c' -> reached (with_op_busy w' (op_busy w' ∖ {[op]})) c').
  { intros c'. by apply reached_mono. }
  split; simpl; [rewrite A1; set_solver|done|done|set_solver|done|done| | |].
  - exists (op :: l). split; [by rewrite A6, <- app_assoc|]. split.
    + constructor; [|done]. rewrite A8. set_solver.
    + intros op'. rewrite elem_of_cons, A8. destruct (decide (op' = op)) as [->|]; set_solver.
  - intros op' c' Hin Hout Hop'. apply Hre. destruct (decide (op' = op)) as [->|].
    + by simplify_eq.
    + eapply A9; [done|set_solver|done].
  - intros fan branches cell c' Hin Hout Hfan Hcell Hc. apply Hre. eapply A10; [done|set_solver|done..].
Qed.

(** Behind a closed gate nothing happens. *)
Lemma notify_gated_closed f op w :
  op ∈ dom (ops g) -> op ∉ op_busy w -> GateOf op ∈ flags w -> notify_gated g f op w = Some w.
Proof.
  intros [c Hc]%elem_of_dom Hbusy Hset. unfold notify_gated. rewrite bool_decide_false, Hc by done. simpl.
  rewrite bool_decide_false by tauto. simpl. f_equal.
  destruct w. unfold with_op_busy, with_flags. simpl in *. f_equal; set_solver.
Qed.

Lemma notify_gated_ok n op w :
  wired -> (forall m, m < n -> settles m) -> open_gates w <= n -> guarded w ->
  op ∈ dom (ops g) -> op ∉ op_busy w ->
  returns (fun k => notify_gated g (notify g k) op w)
    (fun w' => Spread w w' /\ wakeups w' = wakeups w /\ GateOf op ∈ flags w').
Proof.
  intros Hw IH Hn Hg Hop Hbusy. destruct (decide (GateOf op ∈ flags w)) as [Hset|Hset].
  - eapply returns_ext; [intros k; symmetry; by apply notify_gated_closed|].
    apply returns_const. split; [apply spread_refl|done].
  - apply elem_of_dom in Hop as [c Hc]. unfold notify_gated. rewrite bool_decide_false, Hc by done. simpl.
    rewrite bool_decide_true by done.
    set (w1 := MkWorld ({[GateOf op]} ∪ flags w) ({[op]} ∪ op_busy w) (cell_busy w) (wakeups w) (sink_pulls w)
      (passed w ++ [op]) (fan_busy w)).
    assert (open_gates w1 < open_gates w) as Hlt.
    { eapply (open_gates_set w _ (GateOf op)); [|done|done]. unfold all_gates.
      apply elem_of_union_l, elem_of_map. exists op. split; [done|]. apply elem_of_dom. by exists c. }
    eapply returns_bind.
    { eapply (IH (open_gates w1)); [lia|done| |by eapply wired_ops].
      split; simpl.
      - intros op' [->%elem_of_singleton|Hop]%elem_of_union; [set_solver|].
        apply elem_of_union_r. by apply Hg.
      - intros. apply elem_of_union_r. by eapply guarded_cells.
      - apply Hg. }
    intros w' (Hsp & Hwk & Hr). apply returns_const. split; [by eapply spread_gate|].
    split; [done|]. simpl. apply (sp_flags _ _ Hsp). simpl. set_solver.
Qed.

Lemma notify_cell_ok n cell w c :
  (forall w, open_gates w <= n -> guarded w -> returns (fun k => notify g k c w)
     (fun w' => Spread w w' /\ wakeups w' = wakeups w /\ reached w' c)) ->
  open_gates w <= n -> guarded w -> cells g !! cell = Some c -> cell ∉ cell_busy w ->
  (forall fan branches, fans g !! fan = Some branches -> cell ∈ live_branches branches ->
    ForwardedOf fan ∈ flags w) ->
  returns (fun k => notify_cell g (notify g k) cell w)
    (fun w' => Spread w w' /\ wakeups w' = wakeups w /\ reached w' c).
Proof.
  intros IH Hn Hg Hc Hbusy Hfwd. unfold notify_cell. rewrite bool_decide_false, Hc by done.
  cbn [mbind option_bind]. eapply returns_bind.
  { apply (IH (with_cell_busy w ({[cell]} ∪ cell_busy w))); [done|]. split; simpl; [apply Hg| |].
    - intros cell' fan branches [->%elem_of_singleton|Hcell]%elem_of_union; [apply Hfwd|].
      by eapply guarded_cells.
    - apply Hg. }
  intros w' ([A1 A2 A0 A3 A4 A5 A6 A7 A8] & Hwk & Hr). simpl in *. apply returns_const.
  assert (Hre : forall c', reached w' c' -> reached (with_cell_busy w' (cell_busy w' ∖ {[cell]})) c').
  { intros c'. by apply reached_mono. }
  split; [|split; [done|by apply Hre]]. split; simpl; try done.
  - rewrite A2. set_solver.
  - intros. apply Hre. by eapply A7.
  - intros. apply Hre. by eapply A8.
Qed.

(** The branches of a fan-out in turn: those before [l] have been reached. *)
Definition branches_reached (w0 : World) (live l : list nat) (w : World) : Prop :=
  Spread w0 w /\ wakeups w = wakeups w0 /\
  exists before, live = before ++ l /\
    forall cell c, cell ∈ before -> cells g !! cell = Some c -> reached w c.

Lemma notify_branches_ok n fan branches w :
  wired -> settles n -> open_gates w <= n -> guarded w ->
  fans g !! fan = Some branches -> ForwardedOf fan ∈ flags w ->
  (forall cell, cell ∈ live_branches branches -> cell ∉ cell_busy w) ->
  returns (fun k => foldl (fun w cell => w ← w; notify_cell g (notify g k) cell w) (Some w)
             (live_branches branches))
    (branches_reached w (live_branches branches) []).
Proof.
  intros Hw IH Hn Hg Hfan Hset Hfree.
  apply (returns_foldl (fun k w cell => notify_cell g (notify g k) cell w)).
  { split; [apply spread_refl|]. split; [done|]. exists []. split; [done|]. set_solver. }
  intros cell l w1 (Hsp & Hwk & before & Hlive & Hb).
  assert (cell ∈ live_branches branches) as Hcell by (rewrite Hlive; set_solver).
  destruct (proj1 (elem_of_dom _ _) (wired_branches Hw _ _ _ Hfan Hcell)) as [c Hc].
  eapply returns_impl.
  { apply (notify_cell_ok n cell w1 c); [|..].
    - intros w2 H2 G2. apply IH; [done|done|by eapply wired_cells].
    - unfold open_gates in *. etransitivity; [|exact Hn]. apply subseteq_size.
      pose proof (sp_flags _ _ Hsp). set_solver.
    - by eapply spread_guarded.
    - done.
    - rewrite (sp_cells _ _ Hsp). auto.
    - intros fan' branches' Hfan' Hcell'. rewrite (wired_apart Hw fan' fan branches' branches cell) by done.
      by apply (sp_flags _ _ Hsp). }
  intros w2 (Hsp2 & Hwk2 & Hr). split; [by eapply spread_trans|]. split; [congruence|].
  exists (before ++ [cell]). split; [by rewrite <- app_assoc|].
  intros cell' c' [Hin| ->%list_elem_of_singleton]%elem_of_app Hc'; [|by simplify_eq].
  eapply (reached_mono w1); [apply Hsp2|apply Hsp2|]. eauto.
Qed.

(** A fan-out's gate that closes, its branches notified and reached. *)
Lemma spread_fan w w' fan branches :
  ForwardedOf fan ∉ flags w -> fans g !! fan = Some branches ->
  branches_reached (with_flags w ({[ForwardedOf fan]} ∪ flags w)) (live_branches branches) [] w' ->
  Spread w w'.
Proof.
  intros Hgate Hfan ([A1 A2 A0 A3 A4 A5 (l & A6 & A7 & A8) A9 A10] & _ & before & Hlive & Hb).
  rewrite app_nil_r in Hlive. subst before. simpl in *.
  split; [done|done|done|set_solver|done|done| | |].
  - exists l. split; [done|]. split; [done|]. intros op. rewrite A8. set_solver.
  - intros op c Hin Hout. apply A9; [done|set_solver].
  - intros fan' branches' cell c Hin Hout Hfan' Hcell Hc.
    destruct (decide (fan' = fan)) as [->|]; [simplify_eq; by eapply Hb|].
    eapply A10; [done|set_solver|done..].
Qed.

Lemma spread_mark w n :
  match n with Flag (InputOf _) | Always => True | _ => False end ->
  Spread w (with_flags w (mark n (flags w))).
Proof.
  destruct n as [|[| |i]]; intros H; try done; simpl.
  { assert (with_flags w (flags w) = w) as -> by by destruct w. apply spread_refl. }
  split; simpl; [done|done|done|set_solver|done|done| | |].
  - exists []. split; [by rewrite app_nil_r|]. split; [constructor|]. set_solver.
  - intros op c Hin Hout. set_solver.
  - intros fan branches cell c Hin Hout. set_solver.
Qed.

Lemma spread_request w p : Spread w (with_sink_pulls w (request (sink_pulls w) p)).
Proof.
  split; simpl; try done.
  - intros p' Hp. apply request_elem. auto.
  - apply request_nodup.
  - exists []. split; [by rewrite app_nil_r|]. split; [constructor|]. set_solver.
Qed.

Lemma spread_open w w' : Spread w w' -> open_gates w' <= open_gates w.
Proof. intros Hs. unfold open_gates. apply subseteq_size. pose proof (sp_flags _ _ Hs). set_solver. Qed.

Lemma settles_all : wired -> forall n, settles n.
Proof.
  intros Hw n. induction (lt_wf n) as [n _ IH]. intros c.
  induction c as [op|nt d IHd|fan|p]; intros w Hn Hg [Hk Ho]; eapply returns_step; try done; simpl.
  - destruct (decide (op ∈ op_busy w)) as [Hb|Hb].
    + rewrite bool_decide_true, bool_decide_true by (done || by apply Hg). apply returns_const.
      split; [apply spread_refl|]. split; [done|]. by apply Hg.
    + rewrite bool_decide_false by done. by apply (notify_gated_ok n).
  - assert (Spread w (with_flags w (mark nt (flags w)))) as Hsp.
    { apply spread_mark. simpl in Ho. by destruct nt as [|[]]. }
    eapply returns_impl.
    { apply IHd; [pose proof (spread_open _ _ Hsp); lia|by eapply spread_guarded|].
      split; [done|]. simpl in Ho. by destruct nt as [|[]]. }
    intros w' (Hsp' & Hwk & Hr). split; [by eapply spread_trans|]. split; [done|]. split; [|done].
    destruct nt as [|c]; simpl; [done|]. apply bool_decide_eq_true, (sp_flags _ _ Hsp'). simpl. set_solver.
  - unfold notify_fan. destruct (fans g !! fan) as [branches|] eqn:Hfan.
    2:{ apply returns_const. split; [apply spread_refl|]. split; [done|]. by left. }
    rewrite (bool_decide_false (fan ∈ fan_busy w)) by (rewrite (guarded_fans _ Hg); set_solver). simpl.
    destruct (decide (ForwardedOf fan ∈ flags w)) as [Hset|Hset].
    + rewrite bool_decide_false by tauto. apply returns_const.
      assert (with_flags w ({[ForwardedOf fan]} ∪ flags w) = w) as ->.
      { destruct w. unfold with_flags. simpl in *. f_equal. set_solver. }
      split; [apply spread_refl|]. split; [done|]. by right.
    + rewrite bool_decide_true by done. set (w1 := with_flags w ({[ForwardedOf fan]} ∪ flags w)).
      assert (open_gates w1 < open_gates w) as Hlt.
      { eapply (open_gates_set w _ (ForwardedOf fan)); [|done|done]. unfold all_gates.
        apply elem_of_union_r, elem_of_map. exists fan. split; [done|]. apply elem_of_dom. by exists branches. }
      eapply returns_impl.
      { apply (notify_branches_ok (open_gates w1) fan branches w1 Hw); [apply IH; lia|done| |done|simpl; set_solver|].
        - destruct Hg as [G1 G2 G3]. split; simpl; intros; [apply elem_of_union_r; eauto..|done].
        - intros cell Hcell Hbusy. apply Hset. by eapply guarded_cells. }
      intros w' Hbr. pose proof Hbr as (Hsp & Hwk & _). split; [by eapply spread_fan|]. split; [done|].
      right. apply (sp_flags _ _ Hsp). simpl. set_solver.
  - apply returns_const. split; [apply spread_request|]. split; [done|]. simpl. apply request_elem. auto.
Qed.

(** ** Paths *)

(** A consumer leads to a sink's pull through gates that are open. *)
Inductive leads (w : World) : Consumer -> nat -> Prop :=
  | leads_sink p : leads w (SinkNotify p) p
  | leads_marking n d p : leads w d p -> leads w (Marking n d) p
  | leads_forward op c p :
      GateOf op ∉ flags w -> ops g !! op = Some c -> leads w c p -> leads w (Forward op) p
  | leads_fan fan branches cell c p :
      ForwardedOf fan ∉ flags w -> fans g !! fan = Some branches -> cell ∈ live_branches branches ->
      cells g !! cell = Some c -> leads w c p -> leads w (FanClosure fan) p.

Lemma leads_reached w w' c p : Spread w w' -> reached w' c -> leads w c p -> p ∈ sink_pulls w'.
Proof.
  intros Hs Hr Hl. induction Hl as [p|n d p Hl IH|op c p Hg Ho Hl IH|fan branches cell c p Hg Hf Hb Hc Hl IH]; simpl in Hr.
  - done.
  - apply IH, Hr.
  - apply IH. by eapply sp_op_reached.
  - destruct Hr as [?|Hr]; [congruence|]. apply IH. by eapply sp_fan_reached.
Qed.

(** ** Deliveries *)

(** Nothing is being notified and no fan-out is being pulled. *)
Definition quiet (w : World) : Prop := op_busy w = ∅ /\ cell_busy w = ∅ /\ fan_busy w = ∅.

Lemma quiet_guarded w : quiet w -> guarded w.
Proof. intros (H1 & H2 & H3). split; [rewrite H1|rewrite H2|done]; set_solver. Qed.

Lemma spread_quiet w w' : Spread w w' -> quiet w -> quiet w'.
Proof.
  intros Hs (H1 & H2 & H3).
  split_and!; [by rewrite (sp_ops _ _ Hs)|by rewrite (sp_cells _ _ Hs)|by rewrite (sp_fans _ _ Hs)].
Qed.

(** A source's consumer: registered, and no fan-out's branch. *)
Definition source_cell (cell : nat) : Prop :=
  cell ∈ dom (cells g) /\
  forall fan branches, fans g !! fan = Some branches -> cell ∉ live_branches branches.

(** Wakes in turn: the targets of those before [l] have been reached. *)
Definition woken_so_far (consumer : nat -> Consumer -> Prop) (w0 : World) (all l : list nat) (w : World) : Prop :=
  Spread w0 w /\ wakeups w = wakeups w0 /\
  exists before, all = before ++ l /\ forall x c, x ∈ before -> consumer x c -> reached w c.

Lemma woken_next consumer w0 all x l w w' :
  woken_so_far consumer w0 all (x :: l) w ->
  Spread w w' -> wakeups w' = wakeups w -> (forall c, consumer x c -> reached w' c) ->
  woken_so_far consumer w0 all l w'.
Proof.
  intros (Hs & Hk & before & Ha & Hb) Hs' Hk' Hx.
  split; [by eapply spread_trans|]. split; [congruence|]. exists (before ++ [x]).
  split; [by rewrite <- app_assoc|]. intros y c [Hin| ->%list_elem_of_singleton]%elem_of_app Hc; [|auto].
  eapply (reached_mono w); [apply Hs'|apply Hs'|]. eauto.
Qed.

Lemma woken_start consumer w all : woken_so_far consumer w all all w.
Proof. split; [apply spread_refl|]. split; [done|]. exists []. split; [done|]. set_solver. Qed.

Lemma wake_cells_ok woken w :
  wired -> quiet w -> Forall source_cell woken ->
  returns (fun k => foldl (fun w cell => w ← w; notify_cell g (notify g k) cell w) (Some w) woken)
    (woken_so_far (fun cell c => cells g !! cell = Some c) w woken []).
Proof.
  intros Hw Hq Hs. apply (returns_foldl (fun k w cell => notify_cell g (notify g k) cell w));
    [apply woken_start|].
  intros cell l w1 Hso. pose proof Hso as (Hsp & _ & before & Hl & _).
  assert (source_cell cell) as [[c Hc]%elem_of_dom Hno].
  { rewrite Forall_forall in Hs. apply Hs. rewrite Hl. set_solver. }
  pose proof (spread_quiet _ _ Hsp Hq) as Hq1. eapply returns_impl.
  { apply (notify_cell_ok (open_gates w1) cell w1 c); [|done|by apply quiet_guarded|done| |].
    - intros w2 H2 G2. apply (settles_all Hw (open_gates w1)); [done|done|by eapply wired_cells].
    - destruct Hq1 as (_ & -> & _). set_solver.
    - intros fan branches Hfan Hcell. by destruct (Hno fan branches Hfan). }
  intros w2 (Hsp2 & Hk2 & Hr). eapply woken_next; [done..|]. intros c' Hc'. by simplify_eq.
Qed.

Lemma wake_ops_ok queued w :
  wired -> quiet w -> Forall (fun op => op ∈ dom (ops g)) queued ->
  returns (fun k => foldl (fun w op => w ← w; notify_gated g (notify g k) op w) (Some w) queued)
    (woken_so_far (fun op c => c = Forward op) w queued []).
Proof.
  intros Hw Hq Hs. apply (returns_foldl (fun k w op => notify_gated g (notify g k) op w));
    [apply woken_start|].
  intros op l w1 Hso. pose proof Hso as (Hsp & _ & before & Hl & _).
  assert (op ∈ dom (ops g)) as Hop.
  { rewrite Forall_forall in Hs. apply Hs. rewrite Hl. set_solver. }
  pose proof (spread_quiet _ _ Hsp Hq) as Hq1. eapply returns_impl.
  { apply (notify_gated_ok (open_gates w1) op w1 Hw); [|done|by apply quiet_guarded|done|].
    - intros m _. by apply settles_all.
    - destruct Hq1 as [-> _]. set_solver. }
  intros w2 (Hsp2 & Hk2 & Hr). eapply woken_next; [done..|]. intros c ->. done.
Qed.
End Cascade.
