(* ===== verification/SchedulerProps.v ===== *)
(** * The notification contract

    Cascades end and reach, deliveries announce once per pull, source
    registrations wake, and producer frames record what registered under them. *)

From stdpp Require Import gmap.
From S2P Require Import Prelude Returns Scheduler.
Set Warnings "-clear-no-such-hyp".
Local Open Scope nat_scope.

(** ** Events on producer frames *)

Inductive Event := Begin | Note (producer : string) | End.

Definition frame_step (frames : list (list string)) (e : Event) : option (list (list string)) :=
  match e with
  | Begin => Some (begin_source_producers frames)
  | Note producer => Some (note_source_producer frames producer)
  | End => snd <$> end_source_producers frames
  end.

Definition run_frames (frames : list (list string)) (es : list Event) : option (list (list string)) :=
  foldl (fun fs e => fs ← fs; frame_step fs e) (Some frames) es.

(** Frames opened and closed in pairs. *)
Inductive balanced : list Event -> Prop :=
  | balanced_nil : balanced []
  | balanced_note producer es : balanced es -> balanced (Note producer :: es)
  | balanced_frame inner es : balanced inner -> balanced es -> balanced (Begin :: inner ++ End :: es).

(** The producers registered, in order. *)
Definition noted (es : list Event) : list string :=
  omap (fun e => match e with Note producer => Some producer | _ => None end) es.

Lemma extend_last_snoc frames frame names :
  extend_last (frames ++ [frame]) names = frames ++ [frame ++ names].
Proof. unfold extend_last. by rewrite last_snoc, removelast_last. Qed.

Lemma run_frames_app frames es es' :
  run_frames frames (es ++ es') = run_frames frames es ≫= fun fs => run_frames fs es'.
Proof.
  unfold run_frames. rewrite foldl_app.
  set (start := foldl _ _ es). destruct start as [fs|]; simpl; [done|].
  induction es' as [|e es' IH]; [done|]. apply IH.
Qed.

Lemma run_frames_cons frames e es :
  run_frames frames (e :: es) = frame_step frames e ≫= fun fs => run_frames fs es.
Proof. apply (run_frames_app frames [e]). Qed.

Lemma noted_app es es' : noted (es ++ es') = noted es ++ noted es'.
Proof. unfold noted. apply omap_app. Qed.

(** Balanced events leave the frames as they were, what they noted in the innermost. *)
Lemma run_balanced es frames frame :
  balanced es -> run_frames (frames ++ [frame]) es = Some (frames ++ [frame ++ noted es]).
Proof.
  intros Hb. revert frames frame.
  induction Hb as [|producer es Hb IH|inner es Hi IHi Hb IH]; intros frames frame.
  - simpl. by rewrite app_nil_r.
  - rewrite run_frames_cons. cbn [frame_step mbind option_bind]. unfold note_source_producer.
    rewrite extend_last_snoc, IH. simpl. by rewrite <- app_assoc.
  - rewrite run_frames_cons. cbn [frame_step mbind option_bind]. unfold begin_source_producers.
    rewrite run_frames_app, IHi. cbn [mbind option_bind]. rewrite run_frames_cons.
    cbn [frame_step]. unfold end_source_producers. rewrite last_snoc. cbn [mbind option_bind fmap option_fmap option_map].
    rewrite removelast_last, extend_last_snoc. cbn [snd]. rewrite IH. simpl.
    rewrite noted_app. simpl. by rewrite <- app_assoc.
Qed.

Section Contract.
Context (g : Graph).

(** A notification that comes back into an operator being notified. *)
Lemma notify_reenters op u n :
  op ∈ op_busy u ->
  exists u', notify g (S n) (Forward op) u = Some u' /\ flags u' = flags u /\
    (GateOf op ∈ flags u -> u' = u) /\
    (GateOf op ∉ flags u -> op ∈ wakeups u' /\ (NoDup (wakeups u) -> NoDup (wakeups u'))).
Proof.
  intros Hb. simpl. rewrite bool_decide_true by done. case_bool_decide as Hset.
  - exists u. split_and!; done.
  - eexists. split_and!; [done..|]. intros _. split; [apply request_elem; by left|apply request_nodup].
Qed.

(** C33: the consumers the runtime builds ([Consumer]) pass notifications on, set flags and
    queue sink pulls; none pulls while it is notified.  From a state whose busy consumers
    are behind closed gates, with no fan-out being pulled, a notification of such a consumer
    returns whatever cycles the consumers form: no borrow fails and nothing is deferred, every
    gate it closes passes one notification and every consumer behind one is reached, and each
    sink it leads to through open gates has a pull queued.  From any other state, as a pull
    inside a cascade leaves, a notification that re-enters an operator being notified is dropped
    only behind a closed gate, and is else queued, once, for the next delivery. *)
Theorem notify_cascade (c : Consumer) (w : World) :
  wired g -> guarded g w -> wired_consumer g c ->
  (exists N w', (forall n, N <= n -> notify g n c w = Some w') /\
    Spread g w w' /\ wakeups w' = wakeups w /\ reached g w' c /\
    forall p, leads g w c p -> p ∈ sink_pulls w') /\
  (forall op u n, op ∈ op_busy u ->
    exists u', notify g (S n) (Forward op) u = Some u' /\ flags u' = flags u /\
      (GateOf op ∈ flags u -> u' = u) /\
      (GateOf op ∉ flags u -> op ∈ wakeups u' /\ (NoDup (wakeups u) -> NoDup (wakeups u')))).
Proof.
  intros Hw Hg Hc. split; [|intros; by apply notify_reenters].
  destruct (settles_all g Hw (open_gates g w) c w) as (N & w' & (Hs & Hk & Hr) & Hn); [done..|].
  exists N, w'. split; [done|]. split; [done|]. split; [done|]. split; [done|].
  intros p. by eapply leads_reached.
Qed.

(** An operator's consumer passes one notification from one pull to the
    next: a second changes nothing, and after the pull that reopens the gate the next
    one passes. *)
Theorem gate_passes_once (op : nat) (w : World) :
  wired g -> quiet w -> op ∈ dom (ops g) ->
  exists N w1 w2 l, passed w2 = passed w1 ++ l /\ op ∈ l /\ NoDup l /\
    forall n, N <= n -> notify g n (Forward op) w = Some w1 /\ notify g n (Forward op) w1 = Some w1 /\
      notify g n (Forward op) (pull_reopens op w1) = Some w2.
Proof.
  intros Hw Hq Hop.
  assert (wired_consumer g (Forward op)) as Hc by done.
  assert (forall w, quiet w -> exists N w', quiet w' /\ GateOf op ∈ flags w' /\ Spread g w w' /\
    forall n, N <= n -> notify g n (Forward op) w = Some w') as Hrun.
  { intros w0 H0. destruct (settles_all g Hw (open_gates g w0) (Forward op) w0)
      as (N & w' & (Hs & _ & Hr) & Hn); [done|by apply quiet_guarded|done|].
    exists N, w'. split; [by eapply spread_quiet|done]. }
  destruct (Hrun w Hq) as (N & w1 & Hq1 & Hset & _ & Hn).
  destruct (Hrun (pull_reopens op w1)) as (N' & w2 & _ & Hset2 & Hs & Hn'); [done|].
  destruct (sp_passed _ _ _ Hs) as (l & Hl & Hnd & Hin). simpl in Hl, Hin.
  exists (S (Nat.max N N')), w1, w2, l. split; [done|]. split; [apply Hin; set_solver|]. split; [done|].
  intros n Hle. split; [apply Hn; lia|]. split; [|apply Hn'; lia].
  destruct n as [|n]; [lia|]. simpl. rewrite bool_decide_false by (destruct Hq1 as [-> _]; set_solver).
  apply notify_gated_closed; [done| |done]. destruct Hq1 as [-> _]. set_solver.
Qed.

(** Emptying the wakeup queue changes no flag. *)
Lemma spread_take w : Spread g w (with_wakeups w []).
Proof. destruct (spread_refl g w) as [H1 H2 H3 H4 H5 H6 H7 H8]. by split. Qed.

Lemma deliver_wakes_ok woken w :
  wired g -> quiet w -> Forall (source_cell g) woken -> Forall (fun op => op ∈ dom (ops g)) (wakeups w) ->
  returns (fun n => deliver_wakes g n woken w) (fun wd =>
    Spread g w wd.1 /\ wakeups wd.1 = [] /\ (wd.2 = true <-> woken <> [] \/ wakeups w <> []) /\
    (forall cell c, cell ∈ woken -> cells g !! cell = Some c -> reached g wd.1 c) /\
    (forall op, op ∈ wakeups w -> reached g wd.1 (Forward op))).
Proof.
  intros Hw Hq Hs Ho. unfold deliver_wakes.
  eapply returns_bind; [by apply wake_cells_ok|]. intros w1 (Hs1 & Hk1 & b1 & E1 & Hr1).
  rewrite app_nil_r in E1. subst b1. rewrite Hk1. eapply returns_bind.
  { apply (wake_ops_ok g (wakeups w) (with_wakeups w1 []) Hw); [|done]. by apply (spread_quiet g w w1). }
  intros w2 (Hs2 & Hk2 & b2 & E2 & Hr2). rewrite app_nil_r in E2. subst b2.
  apply returns_const. simpl in *. split; [|split; [done|split; [|split]]].
  - eapply spread_trans; [done|]. eapply spread_trans; [apply spread_take|done].
  - destruct woken, (wakeups w); split; (done || tauto || naive_solver).
  - intros cell c Hin Hc. eapply (reached_mono g w1); [apply Hs2|apply Hs2|]. eauto.
  - intros op Hop. by apply (Hr2 op (Forward op)).
Qed.

(** C34: from a state in which nothing is borrowed and no sink's pull is queued twice, and where
    the polled consumers are sources' and the queued wakeups operators', a delivery notifies all
    of them, returning from each, and then runs the sink pulls queued by then, in their order and
    once each, from a state in which nothing is borrowed and no wakeup is queued.  Among them is
    the pull of every sink that a polled consumer or a queued wakeup leads to through open gates.
    It says whether it notified or pulled anything.  What a pull does is left open: the
    delivery gives whatever the pulls give, in that order. *)
Theorem deliver_reaches (woken : list nat) (w : World) :
  wired g -> quiet w -> NoDup (sink_pulls w) ->
  Forall (source_cell g) woken -> Forall (fun op => op ∈ dom (ops g)) (wakeups w) ->
  exists N w1 delivered,
    (forall n pull, N <= n -> deliver g n pull woken w
      = (w' ← run_pulls pull (sink_pulls w1) (with_sink_pulls w1 []); Some (w', delivered))) /\
    quiet w1 /\ Spread g w w1 /\ wakeups w1 = [] /\ NoDup (sink_pulls w1) /\
    (delivered = true <-> woken <> [] \/ wakeups w <> [] \/ sink_pulls w1 <> []) /\
    (forall cell c p, cell ∈ woken -> cells g !! cell = Some c -> leads g w c p -> p ∈ sink_pulls w1) /\
    (forall op p, op ∈ wakeups w -> leads g w (Forward op) p -> p ∈ sink_pulls w1).
Proof.
  intros Hw Hq Hnd Hs Ho.
  destruct (deliver_wakes_ok woken w Hw Hq Hs Ho) as (N & [w1 d1] & (Hs1 & Hk1 & Hd & Hc & Hop) & Hn).
  simpl in *. exists N, w1, (match sink_pulls w1 with [] => d1 | _ => true end).
  split; [intros n pull Hle; unfold deliver; by rewrite Hn|].
  split; [by eapply spread_quiet|]. split; [done|]. split; [done|]. split; [by apply (sp_nodup _ _ _ Hs1)|].
  split.
  { destruct (sink_pulls w1); [rewrite Hd; naive_solver|]. split; [by auto|done]. }
  split.
  - intros cell c p Hin Hcell. eapply leads_reached; [done|]. by eapply Hc.
  - intros op p Hin. eapply leads_reached; [done|]. by apply Hop.
Qed.
End Contract.

(** The frame opened around balanced registrations returns every producer
    registered in it, nested frames included, in order, and adds them to the enclosing
    frame. *)
Theorem frame_records (frames : list (list string)) (es : list Event) :
  balanced es ->
  exists frames', run_frames (begin_source_producers frames) es = Some frames' /\
    end_source_producers frames' = Some (noted es, extend_last frames (noted es)).
Proof.
  intros Hb. exists (frames ++ [noted es]). split; [by apply (run_balanced es frames [])|].
  unfold end_source_producers. rewrite last_snoc. simpl. by rewrite removelast_last.
Qed.

(** The consumers a poll wakes. *)
Lemma poll_elem (alive check : nat -> bool) (handles : Handles) cell :
  cell ∈ (poll_sources alive check handles).2 <->
  exists id source consumers, handles !! id = Some (source, consumers) /\ check source = true /\
    cell ∈ consumers /\ alive cell = true.
Proof.
  unfold poll_sources. simpl.
  rewrite list_elem_of_In, in_concat. split.
  - intros (l & Hl & Hin). apply in_map_iff in Hl as ([id [source consumers]] & <- & Hm).
    apply list_elem_of_In, elem_of_map_to_list in Hm. rewrite lookup_fmap in Hm.
    destruct (handles !! id) as [[source' consumers']|] eqn:E; [|done]. simplify_eq/=.
    destruct (check source) eqn:Ec; [|done]. apply filter_In in Hin as [Hin Ha].
    exists id, source, consumers'. by rewrite list_elem_of_In.
  - intros (id & source & consumers & Hh & Hc & Hin & Ha). exists (List.filter alive consumers). split.
    + apply in_map_iff. exists (id, (source, List.filter alive consumers)). simpl. rewrite Hc. split; [done|].
      apply list_elem_of_In, elem_of_map_to_list. by rewrite lookup_fmap, Hh.
    + apply filter_In. by rewrite <- list_elem_of_In.
Qed.

(** A poll wakes just the registered consumers still owned whose source has
    new data, and keeps just the registrations still owned. *)
Theorem poll_wakes (alive check : nat -> bool) (handles : Handles) :
  (forall cell, cell ∈ (poll_sources alive check handles).2 <->
    exists id source consumers, handles !! id = Some (source, consumers) /\ check source = true /\
      cell ∈ consumers /\ alive cell = true) /\
  forall id, (poll_sources alive check handles).1 !! id
    = (fun sc => (sc.1, List.filter alive sc.2)) <$> handles !! id.
Proof.
  split; [apply poll_elem|]. intros id. apply lookup_fmap.
Qed.

(** A consumer registered with a source is woken by a poll that finds the
    source has new data, unless its owner dropped it; registering an id for another
    source fails, and otherwise keeps the other registrations; once the source is
    forgotten a poll wakes only what other sources had registered. *)
Theorem registration_wakes (alive check : nat -> bool) (handles : Handles) id source consumer :
  match add_source_handle handles id source consumer with
  | None => exists other consumers, handles !! id = Some (other, consumers) /\ other <> source
  | Some h =>
      (alive consumer = true -> check source = true -> consumer ∈ (poll_sources alive check h).2) /\
      (forall cell, cell ∈ (poll_sources alive check handles).2 -> cell ∈ (poll_sources alive check h).2) /\
      (forall cell, cell ∈ (poll_sources alive check (forget_source h id)).2 <->
        exists id' source' consumers, id' <> id /\ handles !! id' = Some (source', consumers) /\
          check source' = true /\ cell ∈ consumers /\ alive cell = true)
  end.
Proof.
  assert (Hforget : forall v cell, cell ∈ (poll_sources alive check (forget_source (<[id := v]> handles) id)).2 <->
    exists id' source' consumers, id' <> id /\ handles !! id' = Some (source', consumers) /\
      check source' = true /\ cell ∈ consumers /\ alive cell = true).
  { intros v cell. unfold forget_source. rewrite delete_insert_eq, poll_elem.
    setoid_rewrite lookup_delete_Some. naive_solver. }
  unfold add_source_handle. destruct (handles !! id) as [[s consumers]|] eqn:E.
  - destruct (Nat.eqb_spec s source) as [->|Hne]; [|by exists s, consumers].
    split; [|split].
    + intros Ha Hc. apply poll_elem. exists id, source, (consumers ++ [consumer]).
      rewrite lookup_insert_eq. set_solver.
    + intros cell (id' & s' & cs & Hh & Hc & Hin & Ha)%poll_elem. apply poll_elem.
      destruct (decide (id' = id)) as [->|].
      * simplify_eq. exists id, source, (consumers ++ [consumer]). rewrite lookup_insert_eq. set_solver.
      * exists id', s', cs. by rewrite lookup_insert_ne.
    + apply Hforget.
  - split; [|split].
    + intros Ha Hc. apply poll_elem. exists id, source, [consumer]. rewrite lookup_insert_eq. set_solver.
    + intros cell (id' & s' & cs & Hh & Hc & Hin & Ha)%poll_elem. apply poll_elem.
      exists id', s', cs. rewrite lookup_insert_ne; [done|congruence].
    + apply Hforget.
Qed.

(** ** Instances *)

(** Two operators that notify each other, the first through a flag, the second
    also, through a fan-out, a sink; a source's consumer forwards to the first. *)
Definition ring : Graph := MkGraph
  {[1 := Marking (Flag (InputOf 7)) (Forward 2); 2 := FanClosure 3]}
  {[10 := Forward 1; 11 := SinkNotify 5; 12 := Forward 1]}
  {[3 := [(11, true); (12, true)]]}.

Definition at_rest : World := MkWorld ∅ ∅ ∅ [] [] [] ∅.

Lemma ring_wired : wired ring.
Proof.
  split; simpl.
  - intros op c Hop. unfold wired_consumer.
    apply lookup_insert_Some in Hop as [[<- <-]|[_ Hop]]; [done|].
    by apply lookup_singleton_Some in Hop as [<- <-].
  - intros cell c Hc. unfold wired_consumer.
    apply lookup_insert_Some in Hc as [[<- <-]|[_ Hc]]; [done|].
    apply lookup_insert_Some in Hc as [[<- <-]|[_ Hc]]; [done|].
    by apply lookup_singleton_Some in Hc as [<- <-].
  - intros fan branches cell Hf Hc. apply lookup_singleton_Some in Hf as [<- <-].
    apply elem_of_cons in Hc as [->|Hc]; [by apply elem_of_dom|].
    apply list_elem_of_singleton in Hc as ->. by apply elem_of_dom.
  - intros fan fan' branches branches' cell Hf Hf' _ _.
    apply lookup_singleton_Some in Hf as [<- _]. by apply lookup_singleton_Some in Hf' as [<- _].
Qed.

Lemma ring_leads : leads ring at_rest (Forward 1) 5.
Proof.
  eapply leads_forward; [done|done|]. apply leads_marking. eapply leads_forward; [done|done|].
  eapply (leads_fan _ _ _ _ 11); [done|done|by left|done|]. apply leads_sink.
Qed.

Lemma notify_cascade_witness :
  exists N w', (forall n, N <= n -> notify ring n (Forward 1) at_rest = Some w') /\ 5 ∈ sink_pulls w'.
Proof.
  destruct (notify_cascade ring (Forward 1) at_rest) as [(N & w' & Hn & _ & _ & _ & Hp) _].
  - apply ring_wired.
  - by apply quiet_guarded.
  - split; [by apply elem_of_dom|done].
  - exists N, w'. split; [exact Hn|]. apply Hp, ring_leads.
Defined.

Lemma gate_passes_once_witness :
  exists N w1, forall n, N <= n ->
    notify ring n (Forward 2) at_rest = Some w1 /\ notify ring n (Forward 2) w1 = Some w1.
Proof.
  destruct (gate_passes_once ring 2 at_rest) as (N & w1 & w2 & l & _ & _ & _ & Hn).
  - apply ring_wired.
  - done.
  - by apply elem_of_dom.
  - exists N, w1. intros n Hle. destruct (Hn n Hle) as (H1 & H2 & _). done.
Defined.

Lemma deliver_reaches_witness :
  exists N w1, (forall n pull, N <= n -> deliver ring n pull [10] at_rest
      = (w' ← run_pulls pull (sink_pulls w1) (with_sink_pulls w1 []); Some (w', true))) /\
    5 ∈ sink_pulls w1 /\ quiet w1.
Proof.
  destruct (deliver_reaches ring [10] at_rest) as (N & w1 & d & Hn & Hq & _ & _ & _ & Hd & Hc & _).
  - apply ring_wired.
  - done.
  - constructor.
  - constructor; [|constructor]. split; [by apply elem_of_dom|].
    intros fan branches Hf Hin. simpl in Hf. apply lookup_singleton_Some in Hf as [<- <-].
    apply elem_of_cons in Hin as [Hin|Hin]; [done|]. by apply list_elem_of_singleton in Hin.
  - constructor.
  - assert (d = true) as -> by (apply Hd; by left). exists N, w1. split; [exact Hn|].
    split; [|exact Hq]. apply (Hc 10 (Forward 1)); [by left|done|apply ring_leads].
Defined.

Lemma frame_records_witness :
  exists frames', run_frames (begin_source_producers [["a"]]) [Note "b"; Begin; Note "c"; End] = Some frames' /\
    end_source_producers frames' = Some (["b"; "c"], [["a"; "b"; "c"]])%string.
Proof.
  apply (frame_records [["a"%string]] [Note "b"; Begin; Note "c"; End]).
  apply balanced_note, (balanced_frame [Note "c"] []); [apply balanced_note|]; apply balanced_nil.
Defined.
