(* ===== verification/Graphs.v ===== *)
(** * Strongly connected components and scopes ([src/util.rs])

    Tarjan's algorithm as the compiler runs it on the dependencies of recursive
    definitions, over the arrays of the Rust struct, and the stack of lexical
    scopes.  An index out of range, or the [expect] of an empty stack, is [None];
    the recursion of [visit] takes fuel. *)

From stdpp Require Import list gmap.
From Stdlib Require Import Sorting.Sorted.
From stdpp Require Import list relations.
From S2P Require Import Prelude.
Local Open Scope nat_scope.
Set Warnings "-clear-no-such-hyp".

(** [v[i] = x], a panic out of range. *)
Definition set_at {A} (l : list A) (i : nat) (x : A) : option (list A) :=
  if i <? length l then Some (<[i := x]> l) else None.

(** ** [strongly_connected] *)

(** [Tarjan]; the stack has its last element first. *)
Record Tarjan := MkTarjan {
  index : list (option nat);
  low : list nat;
  on_stack : list bool;
  stack : list nat;
  next : nat;
  components : list (list nat)
}.

(** [self.low[v] = self.low[v].min(x)]. *)
Definition lower (v x : nat) (t : Tarjan) : option Tarjan :=
  l ← low t !! v;
  ls ← set_at (low t) v (Nat.min l x);
  Some (MkTarjan (index t) ls (on_stack t) (stack t) (next t) (components t)).

(** The first lines of [visit]: number [v] and push it. *)
Definition enter (v : nat) (t : Tarjan) : option Tarjan :=
  ix ← set_at (index t) v (Some (next t));
  ls ← set_at (low t) v (next t);
  os ← set_at (on_stack t) v true;
  Some (MkTarjan ix ls os (v :: stack t) (next t + 1) (components t)).

(** The loop that pops a component: the stack left, the flags, the component. *)
Fixpoint pop_until (v : nat) (stk : list nat) (os : list bool) (component : list nat) :
    option (list nat * list bool * list nat) :=
  match stk with
  | [] => None
  | w :: stk =>
      os ← set_at os w false;
      let component := component ++ [w] in
      if w =? v then Some (stk, os, component) else pop_until v stk os component
  end.

(** The end of [visit]: emit the component [v] is the root of. *)
Definition leave (v : nat) (t : Tarjan) : option Tarjan :=
  l ← low t !! v;
  ix ← index t !! v;
  if bool_decide (Some l = ix) then
    '(stk, os, component) ← pop_until v (stack t) (on_stack t) [];
    Some (MkTarjan (index t) (low t) os stk (next t) (components t ++ [component]))
  else Some t.

(** One successor of [v], visited by [visit] if it has no index. *)
Definition successor (visit : nat -> Tarjan -> option Tarjan) (v : nat) (t : Tarjan) (w : nat) :
    option Tarjan :=
  ix ← index t !! w;
  match ix with
  | None =>
      t ← visit w t;
      l ← low t !! w;
      lower v l t
  | Some w_index =>
      on ← on_stack t !! w;
      if (on : bool) then lower v w_index t else Some t
  end.

(** [visit]. *)
Fixpoint visit (successors : list (list nat)) (fuel : nat) (v : nat) (t : Tarjan) : option Tarjan :=
  match fuel with
  | O => None
  | S fuel =>
      t ← enter v t;
      ws ← successors !! v;
      t ← foldl (fun t w => t ← t; successor (visit successors fuel) v t w) (Some t) ws;
      leave v t
  end.

Definition tarjan_new (n : nat) : Tarjan :=
  MkTarjan (replicate n None) (replicate n 0) (replicate n false) [] 0 [].

(** One root of the outer loop. *)
Definition root (successors : list (list nat)) (fuel : nat) (t : Tarjan) (v : nat) : option Tarjan :=
  ix ← index t !! v;
  match ix with
  | None => visit successors fuel v t
  | Some _ => Some t
  end.

Definition strongly_connected (fuel : nat) (successors : list (list nat)) : option (list (list nat)) :=
  let n := length successors in
  t ← foldl (fun t v => t ← t; root successors fuel t v) (Some (tarjan_new n)) (seq 0 n);
  Some (components t).

(** The filter's condition; [None] is the index panic of [c[0]]. *)
Definition is_cyclic (successors : list (list nat)) (c : list nat) : option bool :=
  if 1 <? length c then Some true
  else v ← head c; ws ← successors !! v; Some (existsb (Nat.eqb v) ws).

Fixpoint filterM {A} (f : A -> option bool) (l : list A) : option (list A) :=
  match l with
  | [] => Some []
  | x :: l => b ← f x; r ← filterM f l; Some (if b : bool then x :: r else r)
  end.

Definition cyclic_components (fuel : nat) (successors : list (list nat)) : option (list (list nat)) :=
  comps ← strongly_connected fuel successors;
  filterM (is_cyclic successors) comps.

(** ** [ScopeStack] *)

Section Scopes.
Context {V : Type}.

(** Scopes, innermost last. *)
Definition ScopeStack : Type := list (gmap string V).

Definition push_scope (s : ScopeStack) : ScopeStack := s ++ [∅].

(** [pop_scope]: underflow panics. *)
Definition pop_scope (s : ScopeStack) : option ScopeStack :=
  match last s with Some _ => Some (removelast s) | None => None end.

(** [bind_at], with its debug assertion. *)
Definition bind_at (s : ScopeStack) (depth : nat) (name : string) (value : V) : option ScopeStack :=
  scope ← s !! depth;
  match scope !! name with
  | Some _ => None
  | None => Some (<[depth := <[name := value]> scope]> s)
  end.

Definition depth (s : ScopeStack) : nat := length s.

(** [bind], in the innermost scope. *)
Definition bind (s : ScopeStack) (name : string) (value : V) : option ScopeStack :=
  match s with [] => None | _ => bind_at s (length s - 1) name value end.

(** [suspend_above]: [split_off] panics past the end. *)
Definition suspend_above (s : ScopeStack) (depth : nat) : option (ScopeStack * ScopeStack) :=
  if depth <=? length s then Some (drop depth s, take depth s) else None.

Definition resume (s suspended : ScopeStack) : ScopeStack := s ++ suspended.

Fixpoint find_map {A B} (f : A -> option B) (l : list A) : option B :=
  match l with
  | [] => None
  | x :: l => match f x with Some y => Some y | None => find_map f l end
  end.

(** [lookup]. *)
Definition scope_lookup (s : ScopeStack) (name : string) : option V :=
  find_map (fun scope => scope !! name) (rev s).
End Scopes.

(** * Tarjan's algorithm is correct

    The invariant of the depth-first search: what is numbered is on the stack or
    emitted, the stack hangs together under the vertices still being visited, and
    what is emitted is closed; [visit] keeps it, and its low link bounds every edge
    that leaves the part of the stack it added. *)

Lemma set_at_ok {A} (l : list A) i x : i < length l -> set_at l i x = Some (<[i := x]> l).
Proof. intros H. unfold set_at. by destruct (Nat.ltb_spec i (length l)); [|lia]. Qed.

Section Graph.
Context (successors : list (list nat)).

Abbreviation size := (length successors).

Definition edge (x y : nat) : Prop := exists ws, successors !! x = Some ws /\ y ∈ ws.

Abbreviation reach := (rtc edge).

(** Successors are vertices. *)
Definition closed_graph : Prop := forall x y, edge x y -> y < size.

(** Mutually reachable. *)
Definition linked (x y : nat) : Prop := reach x y /\ reach y x.

(** A path that leaves a set leaves it over an edge. *)
Lemma reach_leaves (P : nat -> Prop) `{!forall x, Decision (P x)} x z :
  reach x z -> P x -> ~ P z -> exists a b, P a /\ edge a b /\ ~ P b /\ reach x a /\ reach b z.
Proof.
  intros Hr. induction Hr as [x|x y z Hxy Hyz IH]; intros Hx Hz; [done|].
  destruct (decide (P y)) as [Hy|Hy].
  - destruct (IH Hy Hz) as (a & b & ? & ? & ? & ? & ?). exists a, b. repeat split; try done. by eapply rtc_l.
  - exists x, y. repeat split; try done.
Qed.

(** ** States *)

Definition numbered (t : Tarjan) (x i : nat) : Prop := index t !! x = Some (Some i).

Definition seen (t : Tarjan) (x : nat) : Prop := exists i, numbered t x i.

Abbreviation emitted t := (concat (components t)).

Lemma numbered_unique t x i j : numbered t x i -> numbered t x j -> i = j.
Proof. unfold numbered. congruence. Qed.

(** [x] was numbered after [y]. *)
Definition above (t : Tarjan) (x y : nat) : Prop :=
  forall i j, numbered t x i -> numbered t y j -> j < i.

Lemma sorted_transport t t' l :
  (forall x i, x ∈ l -> numbered t' x i -> numbered t x i) ->
  StronglySorted (above t) l -> StronglySorted (above t') l.
Proof.
  intros Hn Hs. induction Hs as [|x l Hl IH Hx]; constructor.
  - apply IH. set_solver.
  - rewrite Forall_forall in Hx |- *. intros y Hy i j Hi Hj.
    apply (Hx y Hy); apply Hn; [set_solver|done|set_solver|done].
Qed.

(** The state between two steps, with the vertices being visited. *)
Record inv (gray : list nat) (t : Tarjan) : Prop := {
  inv_index : length (index t) = size;
  inv_low : length (low t) = size;
  inv_on_length : length (on_stack t) = size;
  inv_next x i : numbered t x i -> i < next t;
  inv_distinct x y i : numbered t x i -> numbered t y i -> x = y;
  inv_on x : on_stack t !! x = Some true <-> x ∈ stack t;
  (** what has a number is on the stack or emitted, once *)
  inv_seen x : seen t x <-> x ∈ stack t ++ emitted t;
  inv_nodup : NoDup (stack t ++ emitted t);
  inv_sorted : StronglySorted (above t) (stack t);
  inv_gray x : x ∈ gray -> x ∈ stack t;
  (** what is finished has no successor that is not seen *)
  inv_black x y : seen t x -> x ∉ gray -> edge x y -> seen t y;
  (** the stack hangs together *)
  inv_up x i : x ∈ stack t -> numbered t x i ->
    exists y j, y ∈ gray /\ numbered t y j /\ j <= i /\ reach x y;
  inv_down y x i j : y ∈ gray -> x ∈ stack t -> numbered t y j -> numbered t x i -> j <= i -> reach y x;
  (** each component is a class, with what it reaches emitted before *)
  inv_class c x y : c ∈ components t -> x ∈ c -> (y ∈ c <-> linked x y);
  inv_nonempty c : c ∈ components t -> c <> [];
  inv_order before c after x y : components t = before ++ c :: after -> x ∈ c -> edge x y ->
    y ∈ concat before ++ c
}.

Lemma emitted_closed gray t x y : inv gray t -> x ∈ emitted t -> reach x y -> y ∈ emitted t.
Proof.
  intros Hi Hx Hr. induction Hr as [|x z y Hxz Hzy IH]; [done|]. apply IH.
  apply list_elem_of_In, in_concat in Hx as (c & Hc & Hx). apply list_elem_of_In in Hc, Hx.
  apply list_elem_of_split in Hc as (before & after & E).
  pose proof (inv_order _ _ Hi _ _ _ _ _ E Hx Hxz) as Hz. rewrite E, concat_app. simpl.
  set_solver.
Qed.

(** The numbers, low links and stack of [t'] extend those of [t]. *)
Record extends (t t' : Tarjan) (new : list nat) : Prop := {
  ext_numbered x i : numbered t x i -> numbered t' x i;
  ext_low x : seen t x -> low t' !! x = low t !! x;
  ext_stack : stack t' = new ++ stack t;
  ext_new x : x ∈ new -> ~ seen t x
}.

Lemma extends_refl t : extends t t [].
Proof. split; try done; set_solver. Qed.

(** What [visit] of [v] leaves: its low link is its number, or the number of a
    vertex under it that it reaches, and no edge from the new part of the stack goes
    below it. *)
Record visited (v : nat) (t t' : Tarjan) (new : list nat) : Prop := {
  vis_extends : extends t t' new;
  vis_seen : numbered t' v (next t);
  vis_low : exists m, low t' !! v = Some m /\ m <= next t /\
    (m < next t -> exists y, y ∈ stack t /\ numbered t y m /\ reach v y) /\
    forall x y i, x ∈ new -> y ∈ stack t -> edge x y -> numbered t y i -> m <= i
}.

(** Between two successors of [v]: [t0] is the state [visit] began in, [new] what
    lies above [v] on the stack, [ws] the successors done. *)
Record looping (gray : list nat) (v : nat) (t0 t : Tarjan) (new ws : list nat) : Prop := {
  lo_inv : inv (v :: gray) t;
  lo_extends : extends t0 t (new ++ [v]);
  lo_numbered : numbered t v (next t0);
  lo_seen w : w ∈ ws -> seen t w;
  lo_low : exists m, low t !! v = Some m /\ m <= next t0 /\
    (m < next t0 -> exists y, y ∈ stack t0 /\ numbered t0 y m /\ reach v y) /\
    (forall x y i, x ∈ new -> y ∈ stack t0 -> edge x y -> numbered t0 y i -> m <= i) /\
    forall w i, w ∈ ws -> w ∈ stack t0 -> numbered t0 w i -> m <= i
}.

(** ** Entering *)

Lemma inv_stack_seen gray t x : inv gray t -> x ∈ stack t -> seen t x.
Proof. intros Hi Hx. apply (inv_seen _ _ Hi). set_solver. Qed.

Lemma seen_lt gray t x : inv gray t -> seen t x -> x < size.
Proof. intros Hi [i Hx]. rewrite <- (inv_index _ _ Hi). by eapply lookup_lt_Some. Qed.

Lemma unseen gray t x : inv gray t -> x < size -> ~ seen t x -> index t !! x = Some None.
Proof.
  intros Hi Hx Hn. rewrite <- (inv_index _ _ Hi) in Hx. apply lookup_lt_is_Some in Hx as [[i|] Hix]; [|done].
  destruct Hn. by exists i.
Qed.

Lemma enter_ok gray v t :
  inv gray t -> v < size -> ~ seen t v -> (forall y, y ∈ gray -> reach y v) ->
  exists t1, enter v t = Some t1 /\ looping gray v t t1 [] [].
Proof.
  intros Hi Hv Hn Hr. pose proof Hi as [I1 I2 I3 I4 I5 I6 I7 I8 I9 I10 I11 I12 I13 I14 I15 I16].
  unfold enter. rewrite !set_at_ok by congruence. eexists. split; [done|].
  set (t1 := MkTarjan _ _ _ _ _ _).
  assert (Hnum : forall x i, numbered t1 x i <-> x = v /\ i = next t \/ x <> v /\ numbered t x i).
  { intros x i. unfold numbered, t1. simpl. destruct (decide (x = v)) as [->|Hx].
    - rewrite list_lookup_insert_eq by congruence. naive_solver.
    - rewrite list_lookup_insert_ne by done. naive_solver. }
  assert (Hfresh : v ∉ stack t ++ emitted t) by (by rewrite <- I7).
  assert (Hold : forall x i, numbered t x i -> numbered t1 x i).
  { intros x i Hx. apply Hnum. right. split; [|done]. intros ->. apply Hn. by exists i. }
  assert (Hst : forall x, x ∈ stack t -> x <> v) by set_solver.
  split.
  - split; try done; simpl.
    + by rewrite length_insert.
    + by rewrite length_insert.
    + by rewrite length_insert.
    + intros x i [[-> ->]|[_ Hx]]%Hnum; [lia|]. specialize (I4 _ _ Hx). lia.
    + intros x y i [[-> ->]|[Hx1 Hx]]%Hnum [[-> E]|[Hy1 Hy]]%Hnum; try done.
      * apply I4 in Hy. lia.
      * subst. apply I4 in Hx. lia.
      * by eapply I5.
    + intros x. destruct (decide (x = v)) as [->|Hx].
      * rewrite list_lookup_insert_eq by congruence. set_solver.
      * rewrite list_lookup_insert_ne, I6 by done. set_solver.
    + intros x. transitivity (x = v \/ seen t x).
      * unfold seen. setoid_rewrite Hnum. destruct (decide (x = v)); naive_solver.
      * rewrite I7. set_solver.
    + constructor; [done|]. done.
    + constructor.
      * apply (sorted_transport t); [|done]. intros x i Hx [[-> _]|[_ ?]]%Hnum; [|done]. by destruct (Hst v).
      * apply Forall_forall. intros y Hy i j [[_ ->]|[? _]]%Hnum [[-> _]|[_ Hj]]%Hnum; try done.
        -- by destruct (Hst v).
        -- by apply I4 in Hj.
    + intros x. set_solver.
    + intros x y [i [[-> _]|[_ Hx]]%Hnum] Hg Hxy; [set_solver|].
      assert (seen t y) as [j Hj] by (eapply I11; [by exists i|set_solver|done]). exists j. auto.
    + intros x i Hx [[-> ->]|[Hne Hxi]]%Hnum.
      * exists v, (next t). split; [set_solver|]. split; [apply Hnum; auto|]. split; [lia|apply rtc_refl].
      * destruct (I12 x i) as (y & j & Hy & Hyj & Hle & Hxy); [set_solver|done|].
        exists y, j. split; [set_solver|]. auto.
    + intros y x i j Hy Hx Hyj Hxi Hle.
      destruct (decide (x = v)) as [->|Hxv].
      * apply elem_of_cons in Hy as [->|Hy]; [apply rtc_refl|auto].
      * apply Hnum in Hxi as [[? _]|[_ Hxi]]; [done|]. assert (x ∈ stack t) as Hxs by set_solver.
        destruct (decide (y = v)) as [->|Hyv].
        -- apply Hnum in Hyj as [[_ ->]|[? _]]; [|done]. apply I4 in Hxi. lia.
        -- apply Hnum in Hyj as [[? _]|[_ Hyj]]; [done|]. eapply (I13 y x i j); try done. set_solver.
  - split; simpl; [done| |done|set_solver].
    intros x Hx. apply list_lookup_insert_ne. intros <-. done.
  - apply Hnum. auto.
  - set_solver.
  - exists (next t). simpl. rewrite list_lookup_insert_eq by congruence.
    split; [done|]. split; [lia|]. split; [lia|]. split; set_solver.
Qed.

(** ** Successors *)

Definition with_low (t : Tarjan) (l : list nat) : Tarjan :=
  MkTarjan (index t) l (on_stack t) (stack t) (next t) (components t).

Lemma inv_with_low gray t l : inv gray t -> length l = size -> inv gray (with_low t l).
Proof. intros [] Hl. by split. Qed.

Lemma lower_ok v x t m :
  low t !! v = Some m -> lower v x t = Some (with_low t (<[v := Nat.min m x]> (low t))).
Proof.
  intros Hm. unfold lower. rewrite Hm. cbn [mbind option_bind]. rewrite set_at_ok; [done|].
  by eapply lookup_lt_Some.
Qed.

Lemma sorted_app_above t l x l' y :
  StronglySorted (above t) (l ++ x :: l') -> y ∈ l -> above t y x.
Proof.
  induction l as [|z l IH]; intros Hs Hy; [by apply elem_of_nil in Hy|].
  apply StronglySorted_inv in Hs as [Hs Hz]. apply elem_of_cons in Hy as [->|Hy]; [|auto].
  rewrite Forall_forall in Hz. apply Hz. set_solver.
Qed.

(** A number below [v]'s on the stack is under [v]. *)
Lemma under gray v t0 t new ws y m :
  looping gray v t0 t new ws -> y ∈ stack t -> numbered t y m -> m < next t0 ->
  y ∈ stack t0 /\ forall i, numbered t0 y i -> i = m.
Proof.
  intros [Li Le Ln _ _] Hy Hm Hlt. split.
  - rewrite (ext_stack _ _ _ Le), <- app_assoc in Hy.
    apply elem_of_app in Hy as [Hy|[Hy|Hy]%elem_of_app]; [| |done].
    + pose proof (inv_sorted _ _ Li) as Hs. rewrite (ext_stack _ _ _ Le), <- app_assoc in Hs.
      pose proof (sorted_app_above _ _ _ _ _ Hs Hy _ _ Hm Ln). lia.
    + apply list_elem_of_singleton in Hy as ->. pose proof (numbered_unique _ _ _ _ Hm Ln). lia.
  - intros i Hi. apply (ext_numbered _ _ _ Le) in Hi. by eapply numbered_unique.
Qed.

(** A low link taken in: the state after [lower], with the successor [w] done. *)
Lemma looping_lower gray v t0 t new new' ws w m' :
  looping gray v t0 t new ws ->
  forall t', inv (v :: gray) t' -> extends t t' new' -> seen t' w ->
  (m' < next t0 -> exists y, y ∈ stack t0 /\ numbered t0 y m' /\ reach v y) ->
  (forall x y i, x ∈ new' -> y ∈ stack t0 -> edge x y -> numbered t0 y i -> m' <= i) ->
  (forall i, w ∈ stack t0 -> numbered t0 w i -> m' <= i) ->
  exists t'', lower v m' t' = Some t'' /\ looping gray v t0 t'' (new' ++ new) (w :: ws).
Proof.
  intros Hlo t' Hi Hext Hw Hm1 Hm2 Hm3.
  pose proof Hlo as [Li Le Ln Ls (m & Lm & Lle & L1 & L2 & L3)].
  assert (Hlow : low t' !! v = Some m).
  { rewrite (ext_low _ _ _ Hext); [done|]. by eexists. }
  pose proof (lookup_lt_Some _ _ _ Hlow) as Hvl.
  rewrite (lower_ok v m' t' m Hlow). eexists. split; [done|].
  assert (Hvt : forall x, seen t0 x -> x <> v).
  { intros x Hx ->. apply (ext_new _ _ _ Le v); [set_solver|done]. }
  split.
  - apply inv_with_low; [done|]. rewrite length_insert. apply Hi.
  - split; simpl.
    + intros x i Hx. by apply (ext_numbered _ _ _ Hext), (ext_numbered _ _ _ Le).
    + intros x Hx. rewrite list_lookup_insert_ne by (symmetry; auto).
      rewrite (ext_low _ _ _ Hext); [by apply (ext_low _ _ _ Le)|].
      destruct Hx as [i Hx]. exists i. by apply (ext_numbered _ _ _ Le).
    + rewrite (ext_stack _ _ _ Hext), (ext_stack _ _ _ Le). by rewrite <- !app_assoc.
    + intros x Hx Hseen. rewrite <- app_assoc in Hx. apply elem_of_app in Hx as [Hx|Hx].
      * apply (ext_new _ _ _ Hext x Hx). destruct Hseen as [i ?]. exists i. by apply (ext_numbered _ _ _ Le).
      * by apply (ext_new _ _ _ Le x Hx).
  - by apply (ext_numbered _ _ _ Hext).
  - intros x [->|Hx]%elem_of_cons; [done|]. destruct (Ls x Hx) as [i ?]. exists i.
    by apply (ext_numbered _ _ _ Hext).
  - exists (Nat.min m m'). simpl. rewrite list_lookup_insert_eq by done. split; [done|]. split; [lia|].
    split; [|split].
    + intros Hlt. destruct (Nat.min_spec m m') as [[_ E]|[_ E]]; rewrite E in *; auto.
    + intros x y i [Hx|Hx]%elem_of_app Hy Hxy Hyi; [pose proof (Hm2 x y i Hx Hy Hxy Hyi); lia|].
      pose proof (L2 x y i Hx Hy Hxy Hyi). lia.
    + intros x i [->|Hx]%elem_of_cons Hs Hxi; [pose proof (Hm3 i Hs Hxi); lia|].
      pose proof (L3 x i Hx Hs Hxi). lia.
Qed.

(** What [visit] does, with fuel for the vertices not seen. *)
Definition visits (visit : nat -> Tarjan -> option Tarjan) (n : nat) : Prop :=
  forall gray v t, inv gray t -> v < size -> ~ seen t v -> (forall y, y ∈ gray -> reach y v) ->
    size - length (stack t ++ emitted t) <= n ->
    exists t' new, visit v t = Some t' /\ inv gray t' /\ visited v t t' new.

Lemma looping_seen gray v t0 t new ws :
  inv gray t0 -> looping gray v t0 t new ws -> S (length (stack t0 ++ emitted t0)) <= length (stack t ++ emitted t).
Proof.
  intros H0 [Li Le Ln _ _].
  assert (Hv : ~ seen t0 v) by (apply (ext_new _ _ _ Le); set_solver).
  change (S (length (stack t0 ++ emitted t0))) with (length (v :: stack t0 ++ emitted t0)).
  apply NoDup_incl_length.
  - apply NoDup_ListNoDup. constructor; [|apply (inv_nodup _ _ H0)]. by rewrite <- (inv_seen _ _ H0).
  - intros x Hx. apply list_elem_of_In. apply list_elem_of_In in Hx. apply (inv_seen _ _ Li).
    apply elem_of_cons in Hx as [->|Hx]; [by eexists|].
    apply (inv_seen _ _ H0) in Hx as [i Hx]. exists i. by apply (ext_numbered _ _ _ Le).
Qed.

Lemma successor_ok visit n gray v t0 t new ws w :
  closed_graph -> visits visit n -> inv gray t0 -> (forall y, y ∈ gray -> reach y v) ->
  size - S (length (stack t0 ++ emitted t0)) <= n ->
  looping gray v t0 t new ws -> edge v w ->
  exists t' new', successor visit v t w = Some t' /\ looping gray v t0 t' new' (w :: ws).
Proof.
  intros Hg Hvis H0 Hr Hn Hlo Hvw. pose proof Hlo as [Li Le Ln Ls _].
  pose proof (Hg _ _ Hvw) as Hw. unfold successor.
  assert (is_Some (index t !! w)) as [ix Hix] by (apply lookup_lt_is_Some; rewrite (inv_index _ _ Li); lia).
  rewrite Hix. cbn [mbind option_bind]. destruct ix as [wi|].
  - assert (is_Some (on_stack t !! w)) as [on Hon] by (apply lookup_lt_is_Some; rewrite (inv_on_length _ _ Li); lia).
    rewrite Hon. cbn [mbind option_bind].
    assert (seen t w) as Hseen by by exists wi.
    assert (Hstk : w ∈ stack t0 -> forall i, numbered t0 w i -> wi = i).
    { intros Hs i Hi. apply (ext_numbered _ _ _ Le) in Hi. by eapply numbered_unique. }
    destruct on.
    + apply (inv_on _ _ Li) in Hon.
      destruct (looping_lower gray v t0 t new [] ws w wi Hlo t Li (extends_refl t) Hseen) as (t'' & E & H'').
      * intros Hlt. destruct (under _ _ _ _ _ _ _ _ Hlo Hon Hix Hlt) as [Hs Hi].
        destruct (inv_stack_seen _ _ _ H0 Hs) as [i Hwi]. rewrite (Hi i Hwi) in Hwi.
        exists w. split; [done|]. split; [done|]. by apply rtc_once.
      * set_solver.
      * intros i Hs Hi. rewrite (Hstk Hs i Hi). lia.
      * by exists t'', ([] ++ new).
    + exists t, new. split; [done|]. destruct Hlo as [? ? ? ? (m & M1 & M2 & M3 & M4 & M5)]. split; try done.
      * intros x [->|Hx]%elem_of_cons; auto.
      * exists m. repeat split; try done. intros x i [->|Hx]%elem_of_cons Hs Hi; [|eauto].
        exfalso. assert (on_stack t !! w = Some true); [|congruence]. apply (inv_on _ _ Li).
        rewrite (ext_stack _ _ _ Le). set_solver.
  - assert (Hns : ~ seen t w) by (intros [i Hi]; unfold numbered in Hi; congruence).
    destruct (Hvis (v :: gray) w t) as (t' & new' & E & Hi' & [Ve Vs (m' & V1 & V2 & V3 & V4)]); try done.
    { intros y [->|Hy]%elem_of_cons; [by apply rtc_once|]. eapply rtc_r; [by apply Hr|done]. }
    { pose proof (looping_seen _ _ _ _ _ _ H0 Hlo). lia. }
    rewrite E. cbn [mbind option_bind]. rewrite V1. cbn [mbind option_bind].
    assert (Hsub : forall y i, y ∈ stack t0 -> numbered t0 y i -> y ∈ stack t /\ numbered t y i).
    { intros y i Hy Hi. split; [rewrite (ext_stack _ _ _ Le); set_solver|by apply (ext_numbered _ _ _ Le)]. }
    destruct (looping_lower gray v t0 t new new' ws w m' Hlo t' Hi' Ve) as (t'' & E'' & H'').
    + by eexists.
    + intros Hlt. destruct (decide (m' < next t)) as [Hlt'|Hge].
      * destruct (V3 Hlt') as (y & Hy & Hym & Hwy).
        destruct (under _ _ _ _ _ _ _ _ Hlo Hy Hym Hlt) as [Hs Hi].
        destruct (inv_stack_seen _ _ _ H0 Hs) as [i Hwi]. rewrite (Hi i Hwi) in Hwi.
        exists y. split; [done|]. split; [done|]. by eapply rtc_l.
      * pose proof (inv_next _ _ Li _ _ Ln). lia.
    + intros x y i Hx Hy Hxy Hyi. destruct (Hsub y i Hy Hyi). by eapply V4.
    + intros i Hs Hi. destruct Hns. exists i. by apply (Hsub w i Hs Hi).
    + by exists t'', (new' ++ new).
Qed.

Lemma successors_ok visit n gray v t0 ws :
  closed_graph -> visits visit n -> inv gray t0 -> (forall y, y ∈ gray -> reach y v) ->
  size - S (length (stack t0 ++ emitted t0)) <= n -> successors !! v = Some ws ->
  forall before after t new, ws = before ++ after -> looping gray v t0 t new before ->
  exists t' new' all, foldl (fun t w => t ← t; successor visit v t w) (Some t) after = Some t' /\
    looping gray v t0 t' new' all /\ forall w, w ∈ ws -> w ∈ all.
Proof.
  intros Hg Hvis H0 Hr Hn Hws.
  assert (forall after t new done, (forall w, w ∈ after -> edge v w) -> looping gray v t0 t new done ->
    exists t' new' all, foldl (fun t w => t ← t; successor visit v t w) (Some t) after = Some t' /\
      looping gray v t0 t' new' all /\ forall w, w ∈ done \/ w ∈ after -> w ∈ all) as Hgen.
  { induction after as [|w after IH]; intros t new done Hafter Hlo.
    - exists t, new, done. split; [done|]. split; [done|]. set_solver.
    - destruct (successor_ok visit n gray v t0 t new done w) as (t1 & new1 & E & H1); try done.
      { apply Hafter. set_solver. }
      destruct (IH t1 new1 (w :: done)) as (t' & new' & all & E' & H' & Hall); [set_solver|done|].
      exists t', new', all. simpl. rewrite E. split; [done|]. split; [done|]. intros x Hx. apply Hall. set_solver. }
  intros before after t new -> Hlo.
  destruct (Hgen after t new before) as (t' & new' & all & E & H' & Hall); [|done|].
  { intros w Hw. eexists. split; [done|]. set_solver. }
  exists t', new', all. split; [done|]. split; [done|]. intros w Hw. apply Hall. set_solver.
Qed.

(** ** Leaving *)

Lemma pop_until_ok v new rest os component :
  v ∉ new -> (forall x, x ∈ new ++ [v] -> x < length os) ->
  exists os', pop_until v (new ++ v :: rest) os component = Some (rest, os', component ++ new ++ [v]) /\
    length os' = length os /\
    forall x, os' !! x = if bool_decide (x ∈ new ++ [v]) then Some false else os !! x.
Proof.
  revert os component. induction new as [|w new IH]; intros os component Hv Hlt; simpl.
  - rewrite set_at_ok by (apply Hlt; set_solver). cbn [mbind option_bind]. rewrite Nat.eqb_refl.
    eexists. split; [done|]. split; [apply length_insert|]. intros x. case_bool_decide as Hx.
    + apply list_elem_of_singleton in Hx as ->. apply list_lookup_insert_eq, Hlt. set_solver.
    + apply list_lookup_insert_ne. set_solver.
  - rewrite set_at_ok by (apply Hlt; set_solver). cbn [mbind option_bind].
    destruct (Nat.eqb_spec w v) as [->|Hwv]; [set_solver|].
    destruct (IH (<[w := false]> os) (component ++ [w])) as (os' & E & Hl & Hos); [set_solver| |].
    { intros x Hx. rewrite length_insert. apply Hlt. set_solver. }
    exists os'. rewrite E. split; [by rewrite <- app_assoc|]. split; [by rewrite Hl, length_insert|].
    intros x. rewrite Hos. destruct (decide (x ∈ new ++ [v])) as [Hx|Hx].
    + rewrite !bool_decide_true; [done|by right|done].
    + rewrite bool_decide_false by done. destruct (decide (x = w)) as [->|Hxw].
      * rewrite bool_decide_true by left. apply list_lookup_insert_eq, Hlt. by left.
      * rewrite bool_decide_false by (intros [?|?]%elem_of_cons; done). by apply list_lookup_insert_ne.
Qed.

Section Leave.
Context (gray : list nat) (v : nat) (t0 t : Tarjan) (new ws : list nat).
Context (H0 : inv gray t0) (Hlo : looping gray v t0 t new ws) (Hws : forall w, edge v w -> w ∈ ws).

Lemma leave_stack : stack t = new ++ v :: stack t0.
Proof. rewrite (ext_stack _ _ _ (lo_extends _ _ _ _ _ _ Hlo)). by rewrite <- app_assoc. Qed.

Lemma leave_black x y : seen t x -> x ∉ gray -> edge x y -> seen t y.
Proof.
  intros Hx Hg Hxy. destruct (decide (x = v)) as [->|Hne].
  - apply (lo_seen _ _ _ _ _ _ Hlo). auto.
  - eapply (inv_black _ _ (lo_inv _ _ _ _ _ _ Hlo)); [done| |done]. set_solver.
Qed.

Lemma gray_under y : y ∈ gray -> y ∈ stack t0 /\ y <> v.
Proof.
  intros Hy. pose proof (inv_gray _ _ H0 y Hy) as Hs. split; [done|]. intros ->.
  apply (ext_new _ _ _ (lo_extends _ _ _ _ _ _ Hlo) v); [set_solver|]. by eapply inv_stack_seen.
Qed.

(** [v] is not a root: it stays on the stack, under a vertex it reaches. *)
Lemma leave_stays m : low t !! v = Some m -> m < next t0 -> inv gray t.
Proof.
  intros Hm Hlt. pose proof (lo_inv _ _ _ _ _ _ Hlo) as Li.
  destruct (lo_low _ _ _ _ _ _ Hlo) as (m' & Hm' & _ & L1 & _). simplify_eq.
  pose proof (lo_extends _ _ _ _ _ _ Hlo) as Le.
  destruct Li as [I1 I2 I3 I4 I5 I6 I7 I8 I9 I10 I11 I12 I13 I14 I15 I16]. split; try done.
  - intros x Hx. apply I10. set_solver.
  - apply leave_black.
  - intros x i Hx Hxi. destruct (I12 x i Hx Hxi) as (y & j & Hy & Hyj & Hle & Hxy).
    apply elem_of_cons in Hy as [->|Hy]; [|by exists y, j].
    destruct (L1 Hlt) as (z & Hz & Hzm & Hvz).
    pose proof (numbered_unique _ _ _ _ Hyj (lo_numbered _ _ _ _ _ _ Hlo)) as ->.
    destruct (inv_up _ _ H0 z m Hz Hzm) as (y & j & Hy & Hyj' & Hle' & Hzy).
    exists y, j. split; [done|]. split; [by apply (ext_numbered _ _ _ Le)|]. split; [lia|].
    etransitivity; [done|]. by etransitivity.
  - intros y x i j Hy. apply I13. set_solver.
Qed.

(** Where the low link of [v] is its number, nothing leaves its part of the stack
    but into what is emitted. *)
Lemma leave_sealed a b :
  low t !! v = Some (next t0) -> a ∈ new ++ [v] -> edge a b -> b ∉ new ++ [v] -> b ∈ emitted t.
Proof.
  intros Hm Ha Hab Hb. pose proof (lo_inv _ _ _ _ _ _ Hlo) as Li.
  pose proof (lo_extends _ _ _ _ _ _ Hlo) as Le.
  destruct (lo_low _ _ _ _ _ _ Hlo) as (m' & Hm' & _ & _ & L2 & L3). simplify_eq.
  assert (a ∈ stack t) as Has by (rewrite leave_stack; set_solver).
  assert (seen t b) as Hsb.
  { apply (leave_black a); [by eapply inv_stack_seen| |done]. intros Hg. destruct (gray_under a Hg) as [Hs _].
    apply (ext_new _ _ _ Le a Ha). by eapply inv_stack_seen. }
  apply (inv_seen _ _ Li) in Hsb as [Hs|?]%elem_of_app; [|done].
  rewrite leave_stack in Hs. assert (b ∈ stack t0) as Hb0 by set_solver.
  destruct (inv_stack_seen _ _ _ H0 Hb0) as [i Hi]. pose proof (inv_next _ _ H0 _ _ Hi).
  apply elem_of_app in Ha as [Ha|Ha%list_elem_of_singleton].
  - pose proof (L2 a b i Ha Hb0 Hab Hi). lia.
  - subst a. pose proof (L3 b i (Hws b Hab) Hb0 Hi). lia.
Qed.

(** So its part of the stack is a class. *)
Lemma leave_class x y :
  low t !! v = Some (next t0) -> x ∈ new ++ [v] -> (y ∈ new ++ [v] <-> linked x y).
Proof.
  intros Hm Hx. pose proof (lo_inv _ _ _ _ _ _ Hlo) as Li.
  assert (Hstk : forall z, z ∈ new ++ [v] -> z ∈ stack t) by (intros z; rewrite leave_stack; set_solver).
  assert (Hout : forall a z, a ∈ new ++ [v] -> reach a z -> z ∉ new ++ [v] -> z ∈ emitted t).
  { intros a z Ha Haz Hz. destruct (reach_leaves (fun z => z ∈ new ++ [v]) a z) as (c & d & Hc & Hcd & Hd & _ & Hdz);
      [done..|]. eapply emitted_closed; [done| |done]. by apply (leave_sealed c). }
  assert (Hnot : forall z, z ∈ stack t -> z ∉ emitted t).
  { intros z Hz Hz'. pose proof (inv_nodup _ _ Li) as (_ & Hd & _)%NoDup_app. by eapply Hd. }
  assert (Hdown : forall z, z ∈ new ++ [v] -> reach v z /\ reach z v).
  { intros z Hz. destruct (inv_stack_seen _ _ _ Li (Hstk z Hz)) as [i Hi].
    pose proof (lo_numbered _ _ _ _ _ _ Hlo) as Hv. split.
    - eapply (inv_down _ _ Li v z i); [set_solver|auto|done|done|].
      apply elem_of_app in Hz as [Hz|Hz%list_elem_of_singleton]; [|subst; by rewrite (numbered_unique _ _ _ _ Hi Hv)].
      pose proof (inv_sorted _ _ Li) as Hs. rewrite leave_stack in Hs.
      pose proof (sorted_app_above _ _ _ _ _ Hs Hz _ _ Hi Hv). lia.
    - destruct (inv_up _ _ Li z i) as (u & j & Hu & Huj & Hle & Hzu); [auto|done|].
      apply elem_of_cons in Hu as [->|Hu]; [done|]. destruct (gray_under u Hu) as [Hu0 Huv]. exfalso.
      assert (u ∈ stack t) as Hus by (rewrite leave_stack; set_solver).
      apply (Hnot u Hus). apply (Hout z u Hz Hzu). intros Hin.
      apply (ext_new _ _ _ (lo_extends _ _ _ _ _ _ Hlo) u Hin). by eapply inv_stack_seen. }
  split.
  - intros Hy. destruct (Hdown x Hx), (Hdown y Hy). split; by etransitivity.
  - intros [Hxy Hyx]. destruct (decide (y ∈ new ++ [v])) as [|Hy]; [done|]. exfalso.
    apply (Hnot x (Hstk x Hx)). eapply emitted_closed; [done| |done]. by apply (Hout x).
Qed.

(** [v] is a root: its component is emitted. *)
Lemma leave_pops os :
  low t !! v = Some (next t0) -> length os = size ->
  (forall x, os !! x = if bool_decide (x ∈ new ++ [v]) then Some false else on_stack t !! x) ->
  inv gray (MkTarjan (index t) (low t) os (stack t0) (next t) (components t ++ [new ++ [v]])).
Proof.
  intros Hm Hl Hos. pose proof (lo_inv _ _ _ _ _ _ Hlo) as Li. pose proof leave_stack as Hst.
  pose proof (lo_extends _ _ _ _ _ _ Hlo) as Le.
  pose proof Li as [I1 I2 I3 I4 I5 I6 I7 I8 I9 I10 I11 I12 I13 I14 I15 I16].
  assert (Hnew : forall x, x ∈ stack t0 -> x ∉ new ++ [v]).
  { intros x Hx Hin. apply (ext_new _ _ _ Le x Hin). by eapply inv_stack_seen. }
  assert (Hperm : stack t0 ++ concat (components t ++ [new ++ [v]]) ≡ₚ stack t ++ emitted t).
  { rewrite concat_app, Hst. simpl. rewrite app_nil_r, (Permutation_app_comm (emitted t)), app_assoc.
    apply Permutation_app_tail. by rewrite Permutation_app_comm, <- app_assoc. }
  split; simpl; try done.
  - intros x. rewrite Hos. case_bool_decide as Hx.
    + split; [done|]. intros Hs. by destruct (Hnew x Hs).
    + rewrite I6, Hst. set_solver.
  - intros x. change (seen _ x) with (seen t x). by rewrite I7, Hperm.
  - by rewrite Hperm.
  - rewrite Hst in I9. clear - I9. induction new as [|x l IH]; simpl in I9.
    + by apply StronglySorted_inv in I9 as [? _].
    + apply StronglySorted_inv in I9 as [? _]. auto.
  - apply (inv_gray _ _ H0).
  - apply leave_black.
  - intros x i Hx Hxi. destruct (I12 x i) as (y & j & Hy & Hyj & Hle & Hxy); [rewrite Hst; set_solver|done|].
    apply elem_of_cons in Hy as [->|Hy]; [|by exists y, j]. exfalso.
    rewrite (numbered_unique _ _ _ _ Hyj (lo_numbered _ _ _ _ _ _ Hlo)) in Hle.
    destruct (inv_stack_seen _ _ _ H0 Hx) as [i' Hi']. pose proof (inv_next _ _ H0 _ _ Hi').
    pose proof (numbered_unique _ _ _ _ Hxi (ext_numbered _ _ _ Le _ _ Hi')). lia.
  - intros y x i j Hy Hx. apply I13; [set_solver|]. rewrite Hst. set_solver.
  - intros c x y [Hc| ->%list_elem_of_singleton]%elem_of_app; [by apply I14|]. by apply leave_class.
  - intros c [Hc| ->%list_elem_of_singleton]%elem_of_app; [by apply I15|]. by destruct new.
  - intros before c after x y E Hx Hxy.
    destruct after as [|c' after _] using rev_ind.
    + apply app_inj_tail in E as [<- <-]. destruct (decide (y ∈ new ++ [v])); [set_solver|].
      apply elem_of_app. left. by apply (leave_sealed x).
    + rewrite app_comm_cons, app_assoc in E. apply app_inj_tail in E as [E _]. by eapply I16.
Qed.

Lemma leave_ok :
  exists t' new', leave v t = Some t' /\ inv gray t' /\ visited v t0 t' new'.
Proof.
  pose proof (lo_inv _ _ _ _ _ _ Hlo) as Li. pose proof (lo_extends _ _ _ _ _ _ Hlo) as Le.
  pose proof (lo_numbered _ _ _ _ _ _ Hlo) as Hv.
  destruct (lo_low _ _ _ _ _ _ Hlo) as (m & Hm & Hle & L1 & L2 & L3).
  unfold leave. rewrite Hm. cbn [mbind option_bind]. rewrite Hv. cbn [mbind option_bind].
  case_bool_decide as E.
  - simplify_eq.
    assert (Hnew : v ∉ new).
    { pose proof (inv_nodup _ _ Li) as Hnd. rewrite leave_stack in Hnd.
      apply NoDup_app in Hnd as [(_ & Hd & _)%NoDup_app _]. intros Hin. apply (Hd v Hin). set_solver. }
    rewrite leave_stack. destruct (pop_until_ok v new (stack t0) (on_stack t) [] Hnew) as (os & -> & Hlos & Hos).
    { intros x Hx. rewrite (inv_on_length _ _ Li). apply (seen_lt (v :: gray) t); [done|].
      apply (inv_stack_seen (v :: gray)); [done|]. rewrite leave_stack. set_solver. }
    cbn [mbind option_bind]. eexists _, []. split; [done|]. split.
    { apply leave_pops; [done| |done]. rewrite Hlos. apply Li. }
    split; [|done|].
    + split; simpl; [apply Le|apply Le|done|set_solver].
    + exists (next t0). repeat split; [done|lia|lia|set_solver].
  - assert (m < next t0) as Hlt by (destruct (decide (m = next t0)) as [->|]; [done|lia]).
    exists t, (new ++ [v]). split; [done|]. split; [by eapply leave_stays|]. split; [done|done|].
    exists m. split; [done|]. split; [done|]. split; [done|].
    intros x y i [Hx|Hx%list_elem_of_singleton]%elem_of_app Hy Hxy Hyi; [by eapply L2|]. subst x.
    by apply (L3 y i (Hws y Hxy)).
Qed.
End Leave.

(** ** The search *)

Lemma unseen_count gray t v :
  inv gray t -> v < size -> ~ seen t v -> length (stack t ++ emitted t) < size.
Proof.
  intros Hi Hv Hn. apply Nat.lt_le_trans with (length (v :: stack t ++ emitted t)); [simpl; lia|].
  rewrite <- (length_seq size 0). apply NoDup_incl_length.
  - apply NoDup_ListNoDup. constructor; [|apply Hi]. by rewrite <- (inv_seen _ _ Hi).
  - intros x Hx. apply in_seq. apply list_elem_of_In, elem_of_cons in Hx as [->|Hx]; [lia|].
    apply (inv_seen _ _ Hi) in Hx. pose proof (seen_lt _ _ _ Hi Hx). lia.
Qed.

Lemma visit_ok n : closed_graph -> visits (visit successors n) n.
Proof.
  intros Hg. induction n as [|n IH]; intros gray v t Hi Hv Hn Hr Hfuel.
  { pose proof (unseen_count gray t v Hi Hv Hn). lia. }
  destruct (enter_ok gray v t Hi Hv Hn Hr) as (t1 & E1 & Hlo1).
  assert (is_Some (successors !! v)) as [ws Hws] by by apply lookup_lt_is_Some.
  simpl. rewrite E1. cbn [mbind option_bind]. rewrite Hws. cbn [mbind option_bind].
  destruct (successors_ok (visit successors n) n gray v t ws Hg IH Hi Hr) with (before := @nil nat) (after := ws)
    (t := t1) (new := @nil nat) as (t2 & new2 & all & -> & Hlo2 & Hall); [lia|done|done|done|].
  apply (leave_ok gray v t t2 new2 all Hi Hlo2). intros w (ws' & Hws' & Hw). simplify_eq. auto.
Qed.

Lemma inv_new : inv [] (tarjan_new size).
Proof.
  assert (Hn : forall x i, ~ numbered (tarjan_new size) x i).
  { intros x i Hx. apply lookup_replicate in Hx as [? _]. done. }
  split; simpl; try (by rewrite length_replicate); try set_solver.
  - intros x. rewrite lookup_replicate. set_solver.
  - intros x. split; [|set_solver]. intros [i Hx]. by destruct (Hn x i).
  - constructor.
  - constructor.
  - intros x y [i Hx]. by destruct (Hn x i).
  - by intros [|? ?] c after x y E.
Qed.

(** The outer loop: what lies before the root is seen. *)
Lemma roots_ok n l k t :
  closed_graph -> size <= n -> seq k (size - k) = l -> k <= size ->
  inv [] t -> stack t = [] -> (forall v, v < k -> seen t v) ->
  exists t', foldl (fun t v => t ← t; root successors n t v) (Some t) l = Some t' /\
    inv [] t' /\ stack t' = [] /\ forall v, v < size -> seen t' v.
Proof.
  intros Hg Hn. revert k t. induction l as [|v l IH]; intros k t Hl Hk Hi Hs Hseen.
  - exists t. split; [done|]. split; [done|]. split; [done|]. intros v Hv. apply Hseen.
    apply (f_equal length) in Hl. rewrite length_seq in Hl. simpl in Hl. lia.
  - assert (Hlen : length (seq k (size - k)) = S (length l)) by by rewrite Hl. rewrite length_seq in Hlen.
    replace (size - k) with (S (size - S k)) in Hl by lia. simpl in Hl. injection Hl as <- Hl.
    assert (exists t1, root successors n t k = Some t1 /\ inv [] t1 /\ stack t1 = [] /\
      forall v, v <= k -> seen t1 v) as (t1 & E1 & Hi1 & Hs1 & Hseen1).
    { unfold root. assert (is_Some (index t !! k)) as [[i|] Hix]
        by (apply lookup_lt_is_Some; rewrite (inv_index _ _ Hi); lia).
      - rewrite Hix. exists t. split; [done|]. split; [done|]. split; [done|]. intros v Hv.
        destruct (decide (v = k)) as [->|]; [by exists i|]. apply Hseen. lia.
      - rewrite Hix. cbn [mbind option_bind].
        destruct (visit_ok n Hg [] k t Hi) as (t1 & new & E1 & Hi1 & [Ve Vs _]); [lia| |set_solver|lia|].
        { intros [i Hx]. unfold numbered in Hx. congruence. }
        exists t1. split; [done|]. split; [done|]. split.
        + destruct (stack t1) as [|x st] eqn:Est; [done|]. exfalso.
          assert (x ∈ stack t1) as Hx by (rewrite Est; set_solver).
          destruct (inv_stack_seen _ _ _ Hi1 Hx) as [i Hxi].
          destruct (inv_up _ _ Hi1 x i Hx Hxi) as (y & _ & Hy & _). by apply elem_of_nil in Hy.
        + intros v Hv. destruct (decide (v = k)) as [->|]; [by eexists|].
          destruct (Hseen v) as [i Hvi]; [lia|]. exists i. by apply (ext_numbered _ _ _ Ve). }
    simpl. rewrite E1. apply (IH (S k)); try done; [lia|]. intros v Hv. apply Hseen1. lia.
Qed.

(** The components a search ends with. *)
Lemma strongly_connected_ok n :
  closed_graph -> size <= n ->
  exists t, strongly_connected n successors = Some (components t) /\ inv [] t /\
    (forall v, v ∈ emitted t <-> v < size) /\ NoDup (emitted t).
Proof.
  intros Hg Hn. unfold strongly_connected.
  destruct (roots_ok n (seq 0 size) 0 (tarjan_new size) Hg Hn) as (t & -> & Hi & Hs & Hall);
    [f_equal; lia|lia|apply inv_new|done|lia|].
  exists t. split; [done|]. split; [done|]. split.
  - intros v. transitivity (seen t v); [rewrite (inv_seen _ _ Hi), Hs; done|].
    split; [by apply (seen_lt []) | auto].
  - pose proof (inv_nodup _ _ Hi) as Hnd. by rewrite Hs in Hnd.
Qed.
End Graph.
