(* ===== verification/GraphProps.v ===== *)
(** * The contract of the graph and scope utilities

    What the compiler relies on: recursive groups are the strongly connected
    components, dependencies first, and scopes shadow and are restored. *)

From stdpp Require Import list relations gmap.
From S2P Require Import Prelude Graphs.
Set Warnings "-clear-no-such-hyp".
Local Open Scope nat_scope.

(** A component with one vertex that lies on a cycle has a self-loop. *)
Lemma cycle_self_loop successors c x y :
  (forall a b, a ∈ c -> (b ∈ c <-> linked successors a b)) -> NoDup c -> length c <= 1 ->
  x ∈ c -> edge successors x y -> rtc (edge successors) y x -> edge successors x x.
Proof.
  intros Hc Hnd Hl Hx Hxy Hyx. assert (y ∈ c) as Hy.
  { apply (Hc x y Hx). split; [by apply rtc_once|done]. }
  destruct c as [|a [|b c]]; simpl in Hl; [set_solver| |lia].
  apply list_elem_of_singleton in Hx, Hy. by subst.
Qed.

(** Two vertices of a component lie on a cycle. *)
Lemma linked_cycle successors x y :
  linked successors x y -> x <> y -> exists z, edge successors x z /\ rtc (edge successors) z x.
Proof.
  intros [Hxy Hyx] Hne. inversion Hxy as [|? z ? Hxz Hzy]; subst; [done|].
  exists z. split; [done|]. by etransitivity.
Qed.

(** The filter of [cyclic_components] keeps a component just when its vertices lie on cycles. *)
Lemma is_cyclic_ok successors c :
  (forall a b, a ∈ c -> (b ∈ c <-> linked successors a b)) -> NoDup c -> c <> [] ->
  (forall a, a ∈ c -> a < length successors) ->
  exists b, is_cyclic successors c = Some b /\
    forall x, x ∈ c -> (b = true <-> exists z, edge successors x z /\ rtc (edge successors) z x).
Proof.
  intros Hc Hnd Hne Hlt. unfold is_cyclic. destruct (Nat.ltb_spec 1 (length c)) as [Hl|Hl].
  - exists true. split; [done|]. intros x Hx. split; [intros _|done].
    destruct c as [|a [|b c]]; simpl in Hl; [lia|lia|].
    assert (exists y, y ∈ a :: b :: c /\ x <> y) as (y & Hy & Hxy).
    { apply NoDup_cons in Hnd as [Ha _]. destruct (decide (x = a)) as [->|]; [exists b|exists a]; set_solver. }
    by apply (linked_cycle _ x y); [apply Hc|].
  - destruct c as [|a c]; [done|]. simpl. assert (is_Some (successors !! a)) as [ws Hws].
    { apply lookup_lt_is_Some, Hlt. set_solver. }
    rewrite Hws. exists (existsb (Nat.eqb a) ws). split; [done|]. intros x Hx.
    assert (existsb (Nat.eqb a) ws = true <-> a ∈ ws) as ->.
    { rewrite existsb_exists. split; [intros (y & Hy & ->%Nat.eqb_eq); by apply list_elem_of_In|].
      intros Ha. exists a. split; [by apply list_elem_of_In|apply Nat.eqb_refl]. }
    assert (x = a) as -> by (destruct c; simpl in *; [by apply list_elem_of_singleton|lia]). split.
    + intros Ha. exists a. split; [by exists ws|apply rtc_refl].
    + intros (z & Haz & Hza). destruct (cycle_self_loop successors (a :: c) a z) as (ws' & Hws' & ?); try done.
      by simplify_eq.
Qed.

Lemma filterM_ok {A} (f : A -> option bool) l :
  (forall x, x ∈ l -> is_Some (f x)) ->
  exists r, filterM f l = Some r /\ r `sublist_of` l /\ forall x, x ∈ r <-> x ∈ l /\ f x = Some true.
Proof.
  induction l as [|x l IH]; intros Hf; simpl.
  - exists []. split; [done|]. split; [done|]. set_solver.
  - destruct (Hf x) as [b Hb]; [set_solver|]. destruct IH as (r & -> & Hs & Hr); [set_solver|].
    rewrite Hb. simpl. exists (if b then x :: r else r). split; [done|].
    destruct b; split; [by constructor|set_solver|by constructor|]. intros y. rewrite Hr. set_solver.
Qed.

(** C35: [strongly_connected] of a graph returns, with fuel for one call per
    vertex; the components hold every vertex once, each is a class of mutual
    reachability, and a component comes after every component it reaches. *)
Theorem strongly_connected_exact successors n :
  closed_graph successors -> length successors <= n ->
  exists comps, strongly_connected n successors = Some comps /\
    concat comps ≡ₚ seq 0 (length successors) /\
    (forall c x y, c ∈ comps -> x ∈ c -> (y ∈ c <-> linked successors x y)) /\
    forall before c after x y, comps = before ++ c :: after -> x ∈ c ->
      rtc (edge successors) x y -> y ∈ concat before ++ c.
Proof.
  intros Hg Hn. destruct (strongly_connected_ok successors n Hg Hn) as (t & E & Hi & Hall & Hnd).
  exists (components t). split; [done|]. split; [|split].
  - apply NoDup_Permutation; [done|apply NoDup_ListNoDup, seq_NoDup|]. intros x. rewrite Hall, elem_of_seq. lia.
  - intros c x y. apply (inv_class _ _ _ Hi).
  - intros before c after x y Ec Hx Hr.
    assert (Hclosed : forall a b, a ∈ concat before ++ c -> edge successors a b -> b ∈ concat before ++ c).
    { intros a b [Ha|Ha]%elem_of_app Hab; [|by eapply (inv_order _ _ _ Hi)].
      apply list_elem_of_In, in_concat in Ha as (d & Hd & Ha). apply list_elem_of_In in Hd, Ha.
      apply list_elem_of_split in Hd as (b1 & b2 & ->). rewrite <- app_assoc in Ec. simpl in Ec.
      pose proof (inv_order _ _ _ Hi b1 d (b2 ++ c :: after) a b Ec Ha Hab) as Hb.
      rewrite concat_app. simpl. set_solver. }
    assert (x ∈ concat before ++ c) as Hx' by set_solver. clear Hx. induction Hr as [|x z y Hxz _ IH]; [done|].
    apply IH. by eapply Hclosed.
Qed.

(** The components [cyclic_components] keeps. *)
Lemma cyclic_components_ok successors n :
  closed_graph successors -> length successors <= n ->
  exists comps cyclic, strongly_connected n successors = Some comps /\
    cyclic_components n successors = Some cyclic /\ cyclic `sublist_of` comps /\ NoDup (concat comps) /\
    (forall c, c ∈ cyclic -> c <> [] /\ forall x y, x ∈ c -> (y ∈ c <-> linked successors x y)) /\
    forall x, x ∈ concat cyclic <->
      x < length successors /\ exists z, edge successors x z /\ rtc (edge successors) z x.
Proof.
  intros Hg Hn. destruct (strongly_connected_ok successors n Hg Hn) as (t & E & Hi & Hall & Hnd).
  exists (components t). unfold cyclic_components. rewrite E. cbn [mbind option_bind].
  assert (Hin : forall c x, c ∈ components t -> x ∈ c -> x ∈ concat (components t)).
  { intros c x Hc Hx. apply list_elem_of_In, in_concat. exists c. by rewrite <- !list_elem_of_In. }
  assert (Hcyc : forall c, c ∈ components t -> exists b, is_cyclic successors c = Some b /\
    forall x, x ∈ c -> (b = true <-> exists z, edge successors x z /\ rtc (edge successors) z x)).
  { intros c Hc. apply is_cyclic_ok.
    - intros a b. by apply (inv_class _ _ _ Hi).
    - apply list_elem_of_split in Hc as (b1 & b2 & Ec). rewrite Ec, concat_app in Hnd. simpl in Hnd.
      apply NoDup_app in Hnd as (_ & _ & Hnd). by apply NoDup_app in Hnd as [? _].
    - by apply (inv_nonempty _ _ _ Hi).
    - intros a Ha. apply Hall. eauto. }
  destruct (filterM_ok (is_cyclic successors) (components t)) as (r & -> & Hs & Hr).
  { intros c Hc. destruct (Hcyc c Hc) as (b & -> & _). by eexists. }
  exists r. split; [done|]. split; [done|]. split; [done|]. split; [done|]. split.
  { intros c [Hc _]%Hr. split; [by apply (inv_nonempty _ _ _ Hi)|]. intros x y. by apply (inv_class _ _ _ Hi). }
  intros x. split.
  - intros (c & Hc & Hx)%list_elem_of_In%in_concat. apply list_elem_of_In in Hc, Hx.
    apply Hr in Hc as [Hc Hb]. split; [apply Hall; eauto|].
    destruct (Hcyc c Hc) as (b & E' & Hx'). rewrite E' in Hb. simplify_eq. by apply Hx'.
  - intros [Hx Hz]. apply Hall in Hx. apply list_elem_of_In, in_concat in Hx as (c & Hc & Hx).
    apply list_elem_of_In in Hc, Hx. apply list_elem_of_In, in_concat. exists c.
    rewrite <- !list_elem_of_In. split; [|done]. apply Hr. split; [done|].
    destruct (Hcyc c Hc) as (b & E' & Hx'). rewrite E'. f_equal. by apply (Hx' x).
Qed.

(** [cyclic_components] returns, in the order of [strongly_connected],
    the components whose vertices lie on a cycle: a vertex is in one just when an edge from it
    leads back to it. *)
Theorem cyclic_components_exact successors n :
  closed_graph successors -> length successors <= n ->
  exists comps cyclic, strongly_connected n successors = Some comps /\
    cyclic_components n successors = Some cyclic /\ cyclic `sublist_of` comps /\
    forall x, x ∈ concat cyclic <->
      x < length successors /\ exists z, edge successors x z /\ rtc (edge successors) z x.
Proof.
  intros Hg Hn. destruct (cyclic_components_ok successors n Hg Hn) as (comps & cyclic & ? & ? & ? & _ & _ & ?).
  by exists comps, cyclic.
Qed.

(** A component that another reaches, and a vertex that depends on both. *)
Definition calls : list (list nat) := [[1]; [0; 2]; [2]; [0; 4]; []].

Lemma calls_closed : closed_graph calls.
Proof.
  intros x y (ws & Hx & Hy). do 5 (destruct x as [|x]; [simplify_eq/=; set_solver by lia|]). done.
Qed.

Lemma strongly_connected_exact_witness :
  exists comps, strongly_connected 5 calls = Some comps /\ comps = [[2]; [1; 0]; [4]; [3]] /\
    (1 ∈ [1; 0] <-> linked calls 0 1).
Proof.
  destruct (strongly_connected_exact calls 5 calls_closed) as (comps & E & _ & Hc & _); [vm_compute; lia|].
  assert (strongly_connected 5 calls = Some [[2]; [1; 0]; [4]; [3]]) as E' by (vm_compute; reflexivity).
  rewrite E' in E. injection E as <-. eexists. split; [exact E'|]. split; [reflexivity|].
  apply (Hc [1; 0] 0 1); apply list_elem_of_further, list_elem_of_here.
Defined.

Lemma cyclic_components_exact_witness :
  exists cyclic, cyclic_components 5 calls = Some cyclic /\ cyclic = [[2]; [1; 0]] /\
    (1 ∈ concat cyclic <-> 1 < length calls /\ exists z, edge calls 1 z /\ rtc (edge calls) z 1).
Proof.
  destruct (cyclic_components_exact calls 5 calls_closed) as (comps & cyclic & _ & E & _ & Hx); [vm_compute; lia|].
  assert (cyclic_components 5 calls = Some [[2]; [1; 0]]) as E' by (vm_compute; reflexivity).
  rewrite E' in E. injection E as <-. eexists. split; [exact E'|]. split; [reflexivity|]. apply (Hx 1).
Defined.

(** ** Scopes *)
Section Scopes.
Context {V : Type}.
Implicit Type s : ScopeStack (V := V).

Lemma bind_pushed s name v : bind (push_scope s) name v = Some (s ++ [<[name := v]> ∅]).
Proof.
  assert (Hat : bind_at (s ++ [∅]) (length s) name v = Some (s ++ [<[name := v]> ∅])).
  { unfold bind_at, ScopeStack in *. rewrite (list_lookup_middle s [] ∅) by done. cbn [mbind option_bind].
    rewrite lookup_empty. f_equal. by rewrite insert_app_r_alt, Nat.sub_diag by done. }
  rewrite <- Hat. unfold bind, push_scope. rewrite length_app, Nat.add_sub. by destruct s.
Qed.

Lemma scope_lookup_snoc s scope name :
  scope_lookup (s ++ [scope]) name = match scope !! name with Some v => Some v | None => scope_lookup s name end.
Proof. unfold scope_lookup. by rewrite rev_app_distr. Qed.

(** A name bound in a new scope shadows the outer ones, which answer for every
    other name and are there again when the scope is left. *)
Theorem scope_shadows s name v :
  exists s', bind (push_scope s) name v = Some s' /\ scope_lookup s' name = Some v /\
    (forall other, other <> name -> scope_lookup s' other = scope_lookup s other) /\ pop_scope s' = Some s.
Proof.
  eexists. split; [apply bind_pushed|]. split; [by rewrite scope_lookup_snoc, lookup_insert_eq|]. split.
  - intros other Hne. by rewrite scope_lookup_snoc, lookup_insert_ne, lookup_empty by done.
  - unfold pop_scope. rewrite last_snoc. f_equal. apply removelast_last.
Qed.

(** Scopes that were suspended are there again after [resume]. *)
Theorem suspend_resume s d :
  d <= length s -> exists above below, suspend_above s d = Some (above, below) /\ depth below = d /\ resume below above = s.
Proof.
  intros Hd. unfold suspend_above. rewrite (proj2 (Nat.leb_le _ _) Hd). eexists _, _. split; [done|].
  split; [unfold depth; rewrite length_take; lia|]. apply take_drop.
Qed.
End Scopes.
