(* ===== verification/IntervalSets.v ===== *)
(** * Interval sets ([src/interpreter/tiling/interval_sets.rs], [canonical_runs] of
    [src/interpreter/tiling/predicate.rs])

    The operations on sets of intervals that the runtime adds to the
    [intervalsets] crate.  The crate is code outside the repository: its intervals,
    bounds and order are the interface [IntervalCrate], and [IntervalLaws] states what
    the code relies on of them.  A set is the list of its intervals. *)

From stdpp Require Import list sorting.
From S2P Require Import Prelude.
Local Open Scope nat_scope.

Inductive Side := Left | Right.
Inductive BoundType := Open | Closed.

Definition flip (s : Side) : Side := match s with Left => Right | Right => Left end.

Record Bound (T : Type) := MkBound { bound_type : BoundType; bound_value : T }.
Arguments MkBound {T} _ _.
Arguments bound_type {T} _.
Arguments bound_value {T} _.

Definition is_open {T} (b : Bound T) : bool := match bound_type b with Open => true | Closed => false end.

(** The order of values, and the crate's intervals over them. *)
Class IntervalCrate (T : Type) := {
  value_leb : T -> T -> bool;
  value_eqb : T -> T -> bool;
  try_adjacent : T -> Side -> option T;
  bound_contains : Bound T -> Side -> T -> bool;
  bound_normalized : Bound T -> Side -> Bound T;
  Interval : Type;
  ileft : Interval -> option (Bound T);
  iright : Interval -> option (Bound T);
  interval_is_empty : Interval -> bool;
  interval_contains : Interval -> T -> bool;
  interval_ltb : Interval -> Interval -> bool;
  interval_closed : T -> T -> Interval;
  interval_unbounded : Interval;
  new_half_bounded : Side -> Bound T -> Interval;
  new_finite : Bound T -> Bound T -> Interval;
  (** [IntervalSet::new], as the intervals of the set *)
  set_new : list Interval -> list Interval
}.

Section Sets.
Context {T : Type} {IC : IntervalCrate T}.

Definition value_ltb (v w : T) : bool := negb (value_leb w v).

(** ** [has_difference] *)

(** [normalized]. *)
Definition normalized (b : Bound T) (side : Side) : Bound T :=
  if is_open b && bool_decide (is_Some (try_adjacent (bound_value b) (flip side)))
  then bound_normalized b side else b.

Definition starts_at_or_before (y x : Interval) : bool :=
  match ileft y, ileft x with
  | None, _ => true
  | Some _, None => false
  | Some by_, Some bx =>
      let by_ := normalized by_ Left in
      let bx := normalized bx Left in
      match bound_type by_ with
      | Closed => value_leb (bound_value by_) (bound_value bx)
      | Open => value_ltb (bound_value by_) (bound_value bx)
          || value_eqb (bound_value by_) (bound_value bx) && is_open bx
      end
  end.

Definition ends_at_or_after (y x : Interval) : bool :=
  match iright y, iright x with
  | None, _ => true
  | Some _, None => false
  | Some by_, Some bx =>
      let by_ := normalized by_ Right in
      let bx := normalized bx Right in
      match bound_type by_ with
      | Closed => value_leb (bound_value bx) (bound_value by_)
      | Open => value_ltb (bound_value bx) (bound_value by_)
          || value_eqb (bound_value bx) (bound_value by_) && is_open bx
      end
  end.

Definition touches (y z : Interval) : bool :=
  match iright y, ileft z with
  | Some e, Some s =>
      let e := normalized e Right in
      let s := normalized s Left in
      let v := bound_value e in
      let w := bound_value s in
      match bound_type e, bound_type s with
      | Closed, Closed => value_leb w v
          || match try_adjacent v Right with Some next => value_leb w next | None => false end
      | Closed, Open | Open, Closed => value_leb w v
      | Open, Open => value_ltb w v
      end
  | _, _ => false
  end.

(** The loop of [run_covers]. *)
Fixpoint run_loop (x y : Interval) (rest : list Interval) : bool :=
  if ends_at_or_after y x then true
  else match rest with
  | next :: rest => if touches y next then run_loop x next rest else false
  | [] => false
  end.

(** [run_covers]; [run[0]] of an empty run is out of range, which no caller passes. *)
Definition run_covers (x : Interval) (run : list Interval) : bool :=
  match run with
  | [] => false
  | y :: rest => if starts_at_or_before y x then run_loop x y rest else false
  end.

Definition covered (x : Interval) (covering : list Interval) : bool :=
  if interval_is_empty x then true
  else
    let at_ := partition_point (fun y => interval_ltb y x) covering in
    ((0 <? at_) && run_covers x (drop (at_ - 1) covering))
    || ((at_ <? length covering) && run_covers x (drop at_ covering)).

Definition set_has_difference (self rhs : list Interval) : bool :=
  existsb (fun x => negb (covered x rhs)) self.

(** ** [holds] *)

Definition set_holds (set : list Interval) (value : T) : bool :=
  let at_ := partition_point (fun y =>
    match iright y with Some e => negb (bound_contains e Right value) | None => false end) set in
  match set !! at_ with Some y => interval_contains y value | None => false end.

Fixpoint right_ends_ascend (set : list Interval) : bool :=
  match set with
  | a :: (b :: _) as rest => ends_at_or_after b a && right_ends_ascend rest
  | _ => true
  end.

(** ** [canonical_runs] *)

(** [joined]. *)
Definition joined (a b : Interval) : option Interval :=
  match iright a, ileft b with
  | Some e, Some s =>
      let meets :=
        if value_eqb (bound_value e) (bound_value s) then negb (is_open e && is_open s)
        else negb (is_open e) && negb (is_open s)
             && match try_adjacent (bound_value e) Right with
                | Some n => value_eqb n (bound_value s)
                | None => false
                end in
      if meets then
        Some (match ileft a, iright b with
        | None, None => interval_unbounded
        | None, Some rb => new_half_bounded Right rb
        | Some lb, None => new_half_bounded Left lb
        | Some lb, Some rb => new_finite lb rb
        end)
      else None
  | _, _ => None
  end.

(** The debug assertion on finite intervals. *)
Definition bound_eqb (a b : Bound T) : bool :=
  eqb (is_open a) (is_open b) && value_eqb (bound_value a) (bound_value b).

Definition finite_normalized (i : Interval) : bool :=
  match ileft i, iright i with
  | Some lb, Some rb => bound_eqb lb (bound_normalized lb Left) && bound_eqb rb (bound_normalized rb Right)
  | _, _ => true
  end.

(** An interval of the set with its bound normalized. *)
Definition normalize_interval (i : Interval) : Interval :=
  match ileft i, iright i with
  | Some lb, None => new_half_bounded Left (bound_normalized lb Left)
  | None, Some rb => new_half_bounded Right (bound_normalized rb Right)
  | _, _ => i
  end.

(** One step of [normalize_and_join]; the intervals merged so far have their last first. *)
Definition join_step (acc : list Interval * bool) (next : Interval) : list Interval * bool :=
  let '(merged, ordered) := acc in
  let next := normalize_interval next in
  match merged with
  | prev :: before =>
      match joined prev next with
      | Some one => (one :: before, ordered)
      | None => (next :: merged, ordered && interval_ltb prev next)
      end
  | [] => ([next], ordered)
  end.

(** [None] where the assertion fails. *)
Definition normalize_and_join (set : list Interval) : option (list Interval * bool) :=
  if forallb finite_normalized set then
    let '(merged, ordered) := foldl join_step ([], true) set in Some (rev merged, ordered)
  else None.

(** [canonical_runs], with its debug assertions. *)
Definition canonical_runs (set : list Interval) : option (list Interval) :=
  '(merged, ordered) ← normalize_and_join set;
  '(merged, ordered) ← if (ordered : bool) then Some (merged, true) else normalize_and_join (set_new merged);
  if ordered && right_ends_ascend merged then Some merged else None.
End Sets.

(** ** [single_interval_set] *)

(** [IntegerKey]: the greatest value of the type, and a value as the key it is. *)
Section IntegerColumn.
Context {T : Type} {IC : IntervalCrate T} (greatest : Z) (value : Z -> T).

(** [checked_add(1)]. *)
Definition next_key (v : Z) : option Z := if (v <? greatest)%Z then Some (v + 1)%Z else None.

(** The loop over the sorted values: the runs closed so far are written first. *)
Fixpoint key_runs (start finish : Z) (values : list Z) : list Interval :=
  match values with
  | [] => [interval_closed (value start) (value finish)]
  | v :: values =>
      if bool_decide (next_key finish = Some v) then key_runs start v values
      else interval_closed (value start) (value finish) :: key_runs v v values
  end.

Definition single_interval_set (data : list Z) : list Interval :=
  match dedup (merge_sort Z.le data) with
  | [] => []
  | first :: values => key_runs first first values
  end.
End IntegerColumn.
