(* ===== verification/IntervalFacts.v ===== *)
(** * What the interval sets' operations answer

    The contract of the [intervalsets] crate ([IntervalLaws]), the kinds of key over
    which a gap between intervals holds a value ([DomainLaws]), and the facts of
    [IntervalSets]: coverage is inclusion, [holds] is membership, and canonical runs are
    the same values with a gap after each. *)

From Stdlib Require Import Sorting.Sorted.
From stdpp Require Import list sorting.
From S2P Require Import Prelude IntervalSets.
From S2P Require Import KeyMaps.
Local Open Scope nat_scope.
Set Warnings "-clear-no-such-hyp".

(** A value inside a bound, as the crate documents it. *)
Definition inside {T} {IC : IntervalCrate T} (b : Bound T) (side : Side) (v : T) : bool :=
  match side, bound_type b with
  | Left, Closed => value_leb (bound_value b) v
  | Left, Open => value_ltb (bound_value b) v
  | Right, Closed => value_leb v (bound_value b)
  | Right, Open => value_ltb v (bound_value b)
  end.

Definition inside_opt {T} {IC : IntervalCrate T} (b : option (Bound T)) (side : Side) (v : T) : bool :=
  match b with Some b => inside b side v | None => true end.

Class IntervalLaws (T : Type) (IC : IntervalCrate T) := {
  leb_refl v : value_leb v v = true;
  leb_antisym v w : value_leb v w = true -> value_leb w v = true -> v = w;
  leb_trans u v w : value_leb u v = true -> value_leb v w = true -> value_leb u w = true;
  leb_total v w : value_leb v w = true \/ value_leb w v = true;
  eqb_spec v w : value_eqb v w = true <-> v = w;
  adjacent_right v w : try_adjacent v Right = Some w ->
    value_ltb v w = true /\ forall u, value_ltb v u = true -> value_leb w u = true;
  adjacent_left v w : try_adjacent v Left = Some w ->
    value_ltb w v = true /\ forall u, value_ltb u v = true -> value_leb u w = true;
  bound_contains_spec b side v : bound_contains b side v = inside b side v;
  normalized_open b side w :
    bound_type b = Open -> try_adjacent (bound_value b) (flip side) = Some w ->
    bound_normalized b side = MkBound Closed w;
  normalized_same b side :
    bound_type b = Closed \/ try_adjacent (bound_value b) (flip side) = None -> bound_normalized b side = b;
  interval_contains_spec i v : interval_contains i v =
    negb (interval_is_empty i) && inside_opt (ileft i) Left v && inside_opt (iright i) Right v;
  (** intervals are ordered by where they start *)
  ltb_starts y x v : interval_ltb y x = true -> inside_opt (ileft x) Left v = true -> inside_opt (ileft y) Left v = true;
  nltb_starts y x v : interval_ltb y x = false -> inside_opt (ileft y) Left v = true -> inside_opt (ileft x) Left v = true;
  ltb_before y x :
    (exists v, interval_contains y v = true) -> (exists w, interval_contains x w = true) ->
    (forall v w, interval_contains y v = true -> interval_contains x w = true -> value_ltb v w = true) ->
    interval_ltb y x = true;
  closed_bounds lo hi : value_leb lo hi = true ->
    interval_is_empty (interval_closed lo hi) = false /\
    ileft (interval_closed lo hi) = Some (MkBound Closed lo) /\ iright (interval_closed lo hi) = Some (MkBound Closed hi);
  unbounded_bounds : interval_is_empty interval_unbounded = false /\
    ileft interval_unbounded = None /\ iright interval_unbounded = None;
  half_bounds side b : interval_is_empty (new_half_bounded side b) = false /\
    ileft (new_half_bounded side b) = match side with Left => Some b | Right => None end /\
    iright (new_half_bounded side b) = match side with Left => None | Right => Some b end;
  finite_bounds l r : (exists v, inside l Left v = true /\ inside r Right v = true) ->
    interval_is_empty (new_finite l r) = false /\
    ileft (new_finite l r) = Some (bound_normalized l Left) /\ iright (new_finite l r) = Some (bound_normalized r Right)
}.

(** Between two keys there is a key, unless each is the next of the other.  It holds of booleans
    and of the two kinds of integers, whose neighbours [try_adjacent] gives, and not of strings,
    of which it gives none though some have a next one ([KeyAdjacency]): only the converses, that
    a difference is a value left out and that a form is determined by its values, ask for it. *)
Class DomainLaws (T : Type) (IC : IntervalCrate T) := {
  between v w : value_ltb v w = true ->
    try_adjacent v Right = Some w \/ exists u, value_ltb v u = true /\ value_ltb u w = true;
  between_left v w : value_ltb v w = true ->
    try_adjacent w Left = Some v \/ exists u, value_ltb v u = true /\ value_ltb u w = true
}.

Create HintDb order.

Section Facts.
Context {T : Type} {IC : IntervalCrate T} {IL : IntervalLaws T IC}.
Implicit Types (u v w : T) (x y z i : Interval) (l : list Interval).

(** ** The order *)

Abbreviation le v w := (value_leb v w = true).
Abbreviation lt v w := (value_ltb v w = true).

Lemma lt_nle v w : lt v w <-> ~ le w v.
Proof. unfold value_ltb. rewrite negb_true_iff. by destruct (value_leb w v). Qed.

Lemma nlt_le v w : value_ltb v w = false <-> le w v.
Proof. unfold value_ltb. by rewrite negb_false_iff. Qed.

Lemma lt_le v w : lt v w -> le v w.
Proof. intros H%lt_nle. by destruct (leb_total v w). Qed.

Lemma le_lt_trans u v w : le u v -> lt v w -> lt u w.
Proof. intros H1 H2%lt_nle. apply lt_nle. intros H3. apply H2. by eapply leb_trans. Qed.

Lemma lt_le_trans u v w : lt u v -> le v w -> lt u w.
Proof. intros H1%lt_nle H2. apply lt_nle. intros H3. apply H1. by eapply leb_trans. Qed.

Lemma lt_trans u v w : lt u v -> lt v w -> lt u w.
Proof. intros H1 H2. eapply le_lt_trans; [by apply lt_le|done]. Qed.

Lemma lt_irrefl v : ~ lt v v.
Proof. intros H%lt_nle. apply H, leb_refl. Qed.

Lemma le_cases v w : le v w -> lt v w \/ v = w.
Proof.
  intros H. destruct (value_ltb v w) eqn:E; [by left|]. right. apply nlt_le in E. by apply leb_antisym.
Qed.

Lemma le_or_lt v w : le v w \/ lt w v.
Proof. destruct (value_leb v w) eqn:E; [by left|]. right. unfold value_ltb. by rewrite E. Qed.

Hint Resolve lt_le le_lt_trans lt_le_trans lt_trans leb_trans leb_refl : order.

(** ** Bounds *)

Lemma inside_left_mono b v w : inside b Left v = true -> le v w -> inside b Left w = true.
Proof. unfold inside. destruct (bound_type b); eauto with order. Qed.

Lemma inside_right_mono b v w : inside b Right v = true -> le w v -> inside b Right w = true.
Proof. unfold inside. destruct (bound_type b); eauto with order. Qed.

Lemma inside_opt_left b v w : inside_opt b Left v = true -> le v w -> inside_opt b Left w = true.
Proof. destruct b; simpl; [apply inside_left_mono|done]. Qed.

Lemma inside_opt_right b v w : inside_opt b Right v = true -> le w v -> inside_opt b Right w = true.
Proof. destruct b; simpl; [apply inside_right_mono|done]. Qed.

(** Beyond a bound. *)
Lemma outside_right b v w : inside b Right v = true -> inside b Right w = false -> lt v w.
Proof.
  intros Hv Hw. destruct (le_or_lt w v) as [Hle|]; [|done].
  rewrite (inside_right_mono b v w) in Hw by done. done.
Qed.

Lemma outside_left b v w : inside b Left v = true -> inside b Left w = false -> lt w v.
Proof.
  intros Hv Hw. destruct (le_or_lt v w) as [Hle|]; [|done].
  rewrite (inside_left_mono b v w) in Hw by done. done.
Qed.

Lemma bound_normalized_inside b side v : inside (bound_normalized b side) side v = inside b side v.
Proof.
  destruct (bound_type b) eqn:Eb.
  2:{ by rewrite normalized_same by auto. }
  destruct (try_adjacent (bound_value b) (flip side)) as [w|] eqn:Ea.
  2:{ by rewrite normalized_same by auto. }
  rewrite (normalized_open b side w) by done. unfold inside. rewrite Eb. simpl.
  destruct side; simpl in Ea.
  - apply adjacent_right in Ea as [Hlt Hle]. apply eq_true_iff_eq. split; [|apply Hle]. eauto with order.
  - apply adjacent_left in Ea as [Hlt Hle]. apply eq_true_iff_eq. split; [|apply Hle]. eauto with order.
Qed.

Lemma normalized_cases b side :
  normalized b side = bound_normalized b side.
Proof.
  unfold normalized. destruct (is_open b && _) eqn:E; [done|]. symmetry. apply normalized_same.
  unfold is_open in E. destruct (bound_type b); [|by left]. right. simpl in E.
  apply bool_decide_eq_false in E. by destruct (try_adjacent _ _); [destruct E|].
Qed.

Lemma normalized_inside b side v : inside (normalized b side) side v = inside b side v.
Proof. rewrite normalized_cases. apply bound_normalized_inside. Qed.

(** A normalized bound is open only where its value has no neighbour inward. *)
Lemma normalized_open_none b side :
  bound_type (normalized b side) = Open -> try_adjacent (bound_value (normalized b side)) (flip side) = None.
Proof.
  rewrite normalized_cases. destruct (bound_type b) eqn:Eb.
  2:{ rewrite normalized_same by auto. congruence. }
  destruct (try_adjacent (bound_value b) (flip side)) as [w|] eqn:Ea.
  - by rewrite (normalized_open b side w).
  - by rewrite normalized_same by auto.
Qed.

(** ** Intervals *)

Abbreviation contains x v := (interval_contains x v = true).

Lemma contains_spec x v :
  contains x v <-> interval_is_empty x = false /\ inside_opt (ileft x) Left v = true /\ inside_opt (iright x) Right v = true.
Proof. rewrite interval_contains_spec, !andb_true_iff, negb_true_iff. tauto. Qed.

Lemma contains_left x v : contains x v -> inside_opt (ileft x) Left v = true.
Proof. intros H%contains_spec. tauto. Qed.

Lemma contains_right x v : contains x v -> inside_opt (iright x) Right v = true.
Proof. intros H%contains_spec. tauto. Qed.

(** Between a value of the interval and its end. *)
Lemma contains_up x v w : contains x v -> le v w -> inside_opt (iright x) Right w = true -> contains x w.
Proof. rewrite !contains_spec. intros (? & ? & ?) ? ?. eauto using inside_opt_left. Qed.

Lemma contains_down x v w : contains x v -> le w v -> inside_opt (ileft x) Left w = true -> contains x w.
Proof. rewrite !contains_spec. intros (? & ? & ?) ? ?. eauto using inside_opt_right. Qed.

Lemma contains_between x u v w : contains x u -> contains x w -> le u v -> le v w -> contains x v.
Proof.
  intros Hu Hw Huv Hvw. apply (contains_up x u); [done..|]. eapply inside_opt_right; [by apply contains_right|done].
Qed.

Lemma opt_outside_right b v w : inside_opt b Right v = true -> inside_opt b Right w = false -> lt v w.
Proof. destruct b; simpl; [apply outside_right|done]. Qed.

Lemma opt_outside_left b v w : inside_opt b Left v = true -> inside_opt b Left w = false -> lt w v.
Proof. destruct b; simpl; [apply outside_left|done]. Qed.

(** ** Comparing ends *)

Ltac bounds :=
  unfold inside, is_open; repeat match goal with |- context [bound_type ?b] => destruct (bound_type b) eqn:? end;
  rewrite ?orb_true_iff, ?andb_true_iff, ?eqb_spec; simpl.

Lemma starts_sound y x v :
  starts_at_or_before y x = true -> inside_opt (ileft x) Left v = true -> inside_opt (ileft y) Left v = true.
Proof.
  unfold starts_at_or_before. destruct (ileft y) as [p|], (ileft x) as [q|]; cbn [inside_opt]; try done.
  rewrite <- (normalized_inside p), <- (normalized_inside q).
  generalize (normalized p Left) as p', (normalized q Left) as q'. intros p' q'. bounds; try (eauto with order; fail).
  all: intros [?|[Heq ?]] ?; [|rewrite <- ?Heq in *]; eauto with order; try congruence.
Qed.

Lemma ends_sound y x v :
  ends_at_or_after y x = true -> inside_opt (iright x) Right v = true -> inside_opt (iright y) Right v = true.
Proof.
  unfold ends_at_or_after. destruct (iright y) as [p|], (iright x) as [q|]; cbn [inside_opt]; try done.
  rewrite <- (normalized_inside p), <- (normalized_inside q).
  generalize (normalized p Right) as p', (normalized q Right) as q'. intros p' q'. bounds; try (eauto with order; fail).
  all: intros [?|[Heq ?]] ?; [|rewrite <- ?Heq in *]; eauto with order; try congruence.
Qed.

Lemma touches_sound y z v :
  touches y z = true -> inside_opt (iright y) Right v = false -> inside_opt (ileft z) Left v = true.
Proof.
  unfold touches. destruct (iright y) as [p|], (ileft z) as [q|]; cbn [inside_opt]; try done.
  rewrite <- (normalized_inside p), <- (normalized_inside q).
  generalize (normalized p Right) as p', (normalized q Left) as q'. intros p' q' Ht Hv.
  assert (Hv' : match bound_type p' with Open => le (bound_value p') v | Closed => lt (bound_value p') v end).
  { unfold inside in Hv. destruct (bound_type p'); [by apply nlt_le|]. unfold value_ltb. by rewrite Hv. }
  revert Ht Hv'. clear Hv. bounds; intros Ht Hv'; eauto with order.
  destruct Ht as [?|H]; [eauto with order|]. destruct (try_adjacent _ _) as [n|] eqn:E; [|done].
  apply adjacent_right in E as [_ E]. eauto with order.
Qed.

(** ** Sets *)

(** The intervals each hold a value, and ascend without meeting. *)
Definition before y z : Prop := forall v w, contains y v -> contains z w -> lt v w.

Definition valid l : Prop := Forall (fun x => exists v, contains x v) l /\ StronglySorted before l.

Definition in_set l v : Prop := Exists (fun x => contains x v) l.

(** An end of [x] that is not bounded is one the keys do not have. *)
Definition open_left x : Prop := ileft x = None -> forall v, exists u, lt u v.
Definition open_right x : Prop := iright x = None -> forall v, exists u, lt v u.
Definition open_ended x : Prop := open_left x /\ open_right x.

Lemma valid_cons y l : valid (y :: l) <->
  (exists v, contains y v) /\ Forall (before y) l /\ valid l.
Proof.
  unfold valid. rewrite Forall_cons. split.
  - intros [[? ?] Hs]. apply StronglySorted_inv in Hs as [? ?]. tauto.
  - intros (? & ? & ? & ?). split; [tauto|]. by constructor.
Qed.

Lemma valid_drop l n : valid l -> valid (drop n l).
Proof.
  revert n. induction l as [|y l IH]; intros [|n]; simpl; try done. rewrite valid_cons. intros (_ & _ & ?). by apply IH.
Qed.

Lemma valid_before l j k y z : valid l -> l !! j = Some y -> l !! k = Some z -> j < k -> before y z.
Proof.
  revert j k. induction l as [|x l IH]; intros [|j] [|k]; simpl; try done; try lia;
    rewrite valid_cons; intros (Hv & Hb & Hl) Hj Hk Hjk.
  - injection Hj as <-. rewrite Forall_forall in Hb. apply Hb, list_elem_of_lookup. eauto.
  - apply (IH j k); [done..|lia].
Qed.

Lemma before_cover y z v a b : before y z -> contains y a -> contains z b -> le v b -> inside_opt (ileft z) Left v = true -> lt a v.
Proof. intros Hyz Ha Hb Hv Hl. apply (Hyz a v); [done|]. by apply (contains_down z b). Qed.

Lemma before_irrefl y v : before y y -> ~ contains y v.
Proof. intros H Hv. by apply (lt_irrefl v), H. Qed.

(** *** Coverage is sound *)

Lemma run_loop_sound x y rest v :
  Forall (fun y => interval_is_empty y = false) (y :: rest) -> contains x v -> inside_opt (ileft y) Left v = true ->
  run_loop x y rest = true -> in_set (y :: rest) v.
Proof.
  intros Hne Hx. revert y Hne. induction rest as [|z rest IH]; intros y Hne Hl; apply Forall_cons in Hne as [Hy Hne];
    simpl; destruct (ends_at_or_after y x) eqn:E.
  1, 3: intros _; left; apply contains_spec; repeat split; [done..|]; eapply ends_sound; [done|by apply contains_right].
  1: done.
  destruct (touches y z) eqn:Et; [|done]. intros Hrun. destruct (inside_opt (iright y) Right v) eqn:Er.
  - left. by apply contains_spec.
  - right. apply IH; [done| |done]. by apply (touches_sound y).
Qed.

Lemma run_covers_sound x l v :
  Forall (fun y => interval_is_empty y = false) l -> contains x v -> run_covers x l = true -> in_set l v.
Proof.
  intros Hne Hx. unfold run_covers. destruct l as [|y rest]; [done|].
  destruct (starts_at_or_before y x) eqn:E; [|done]. apply run_loop_sound; [done..|].
  eapply starts_sound; [done|by apply contains_left].
Qed.

Lemma in_set_drop l n v : in_set (drop n l) v -> in_set l v.
Proof. unfold in_set. intros H. rewrite <- (take_drop n l), Exists_app. by right. Qed.

Lemma covered_sound x l v :
  Forall (fun y => interval_is_empty y = false) l -> contains x v -> covered x l = true -> in_set l v.
Proof.
  intros Hne Hx. unfold covered. apply contains_spec in Hx as Hx'. destruct Hx' as [-> _].
  rewrite orb_true_iff, !andb_true_iff. intros [[_ H]|[_ H]]; eapply in_set_drop, run_covers_sound; eauto using Forall_drop.
Qed.

Lemma valid_nonempty l : valid l -> Forall (fun y => interval_is_empty y = false) l.
Proof. intros [H _]. eapply Forall_impl; [done|]. intros y [v Hv%contains_spec]. tauto. Qed.
End Facts.

(** * Coverage and membership are exact

    Where the keys are such that a gap between two intervals holds a key
    ([DomainLaws]), [covered] misses nothing: a run that does not cover leaves a
    value out.  [holds] finds the one interval that can hold a value. *)

Section Exact.
Context {T : Type} {IC : IntervalCrate T} {IL : IntervalLaws T IC} {DL : DomainLaws T IC}.
Implicit Types (u v w : T) (x y z i : Interval) (l : list Interval).

Abbreviation le v w := (value_leb v w = true).
Abbreviation lt v w := (value_ltb v w = true).
Abbreviation contains x v := (interval_contains x v = true).
Hint Resolve lt_le le_lt_trans lt_le_trans lt_trans leb_trans leb_refl : order.

(** ** A comparison of ends that fails has a value to show *)

Lemma nle_lt v w : value_leb v w = false -> lt w v.
Proof. intros H. unfold value_ltb. by rewrite H. Qed.

Lemma le_nlt v w : le w v -> value_ltb v w = false.
Proof. apply nlt_le. Qed.

Hint Resolve nle_lt le_nlt : order.

Lemma not_ge v w : lt v w -> value_leb w v = false.
Proof. unfold value_ltb. by rewrite negb_true_iff. Qed.

Hint Resolve not_ge : order.

(** The order of two normalized left bounds, where the second is not inside the first. *)
Lemma left_gap (p q : Bound T) :
  (bound_type q = Open -> try_adjacent (bound_value q) Right = None) ->
  match bound_type p with
  | Closed => value_leb (bound_value p) (bound_value q)
  | Open => value_ltb (bound_value p) (bound_value q) || value_eqb (bound_value p) (bound_value q) && is_open q
  end = false ->
  exists u, inside q Left u = true /\ inside p Left u = false.
Proof.
  intros Hn. unfold inside, is_open in *. destruct (bound_type p) eqn:Ep, (bound_type q) eqn:Eq; simpl.
  - rewrite andb_true_r, orb_false_iff. intros [Hle%nlt_le Hne]. destruct (le_cases _ _ Hle) as [Hlt|Heq].
    + destruct (between _ _ Hlt) as [Ha|(u & ? & ?)]; [rewrite Hn in Ha; done|]. exists u. eauto with order.
    + rewrite (proj2 (eqb_spec _ _)) in Hne; [done|by symmetry].
  - rewrite andb_false_r, orb_false_r. intros Hle%nlt_le. exists (bound_value q). eauto with order.
  - intros Hlt%nle_lt. destruct (between _ _ Hlt) as [Ha|(u & ? & ?)]; [rewrite Hn in Ha; done|]. exists u. eauto with order.
  - intros Hlt. exists (bound_value q). eauto with order.
Qed.

Lemma right_gap (p q : Bound T) :
  (bound_type q = Open -> try_adjacent (bound_value q) Left = None) ->
  match bound_type p with
  | Closed => value_leb (bound_value q) (bound_value p)
  | Open => value_ltb (bound_value q) (bound_value p) || value_eqb (bound_value q) (bound_value p) && is_open q
  end = false ->
  exists u, inside q Right u = true /\ inside p Right u = false.
Proof.
  intros Hn. unfold inside, is_open in *. destruct (bound_type p) eqn:Ep, (bound_type q) eqn:Eq; simpl.
  - rewrite andb_true_r, orb_false_iff. intros [Hle%nlt_le Hne]. destruct (le_cases _ _ Hle) as [Hlt|Heq].
    + destruct (between_left _ _ Hlt) as [Ha|(u & ? & ?)]; [rewrite Hn in Ha; done|]. exists u. eauto with order.
    + rewrite (proj2 (eqb_spec _ _)) in Hne; [done|by symmetry].
  - rewrite andb_false_r, orb_false_r. intros Hle%nlt_le. exists (bound_value q). eauto with order.
  - intros Hlt%nle_lt. destruct (between_left _ _ Hlt) as [Ha|(u & ? & ?)]; [rewrite Hn in Ha; done|]. exists u. eauto with order.
  - intros Hlt. exists (bound_value q). eauto with order.
Qed.

(** A value of [x] that [y] starts after. *)
Lemma starts_complete y x v :
  open_left x -> contains x v -> starts_at_or_before y x = false ->
  exists u, contains x u /\ le u v /\ inside_opt (ileft y) Left u = false.
Proof.
  intros Hx Hv Hs. cut (exists u, inside_opt (ileft x) Left u = true /\ inside_opt (ileft y) Left u = false).
  { intros (u & Hu & Hy). destruct (le_or_lt u v) as [Hle|Hlt].
    - exists u. split; [by apply (contains_down x v)|done].
    - exists v. repeat split; [done|apply leb_refl|]. destruct (inside_opt (ileft y) Left v) eqn:E; [|done].
      rewrite (inside_opt_left _ v u) in Hy; [done..|by apply lt_le]. }
  unfold open_left in Hx. unfold starts_at_or_before in Hs. destruct (ileft y) as [p|]; [|done]. destruct (ileft x) as [q|]; cbn [inside_opt].
  - destruct (left_gap (normalized p Left) (normalized q Left)) as (u & Hu); [apply (normalized_open_none q Left)|done|].
    exists u. by rewrite !normalized_inside in Hu.
  - destruct (Hx eq_refl (bound_value p)) as [u Hu]. exists u. split; [done|].
    unfold inside. destruct (bound_type p); eauto with order.
Qed.

Lemma ends_complete y x v :
  open_right x -> contains x v -> ends_at_or_after y x = false ->
  exists u, contains x u /\ le v u /\ inside_opt (iright y) Right u = false.
Proof.
  intros Hx Hv Hs. cut (exists u, inside_opt (iright x) Right u = true /\ inside_opt (iright y) Right u = false).
  { intros (u & Hu & Hy). destruct (le_or_lt v u) as [Hle|Hlt].
    - exists u. split; [by apply (contains_up x v)|done].
    - exists v. repeat split; [done|apply leb_refl|]. destruct (inside_opt (iright y) Right v) eqn:E; [|done].
      rewrite (inside_opt_right _ v u) in Hy; [done..|by apply lt_le]. }
  unfold open_right in Hx. unfold ends_at_or_after in Hs. destruct (iright y) as [p|]; [|done]. destruct (iright x) as [q|]; cbn [inside_opt].
  - destruct (right_gap (normalized p Right) (normalized q Right)) as (u & Hu); [apply (normalized_open_none q Right)|done|].
    exists u. by rewrite !normalized_inside in Hu.
  - destruct (Hx eq_refl (bound_value p)) as [u Hu]. exists u. split; [done|].
    unfold inside. destruct (bound_type p); eauto with order.
Qed.

(** Two intervals in order have an end and a start. *)
Lemma before_ends y z v w : before y z -> contains y v -> contains z w -> iright y <> None /\ ileft z <> None.
Proof.
  intros Hb Hv Hw. pose proof (Hb v w Hv Hw) as Hlt. split; intros Hn.
  - apply (lt_irrefl w), Hb; [|done]. apply (contains_up y v); [done|by apply lt_le|by rewrite Hn].
  - apply (lt_irrefl v), Hb; [done|]. apply (contains_down z w); [done|by apply lt_le|by rewrite Hn].
Qed.

Lemma touches_complete y z v w :
  before y z -> contains y v -> contains z w -> touches y z = false ->
  exists u, inside_opt (iright y) Right u = false /\ inside_opt (ileft z) Left u = false.
Proof.
  intros Hb Hv Hw. destruct (before_ends y z v w Hb Hv Hw) as [He Hs]. unfold touches.
  destruct (iright y) as [p|]; [|done]. destruct (ileft z) as [q|]; [|done]. cbn [inside_opt]. intros Ht.
  cut (exists u, inside (normalized p Right) Right u = false /\ inside (normalized q Left) Left u = false).
  { intros [u Hu]. exists u. by rewrite !normalized_inside in Hu. }
  revert Ht. generalize (normalized p Right) as p', (normalized q Left) as q'. intros p' q'.
  unfold inside. destruct (bound_type p') eqn:Ep, (bound_type q') eqn:Eq.
  - intros ?%nlt_le. exists (bound_value p'). eauto with order.
  - intros ?%nle_lt. exists (bound_value p'). eauto with order.
  - intros ?%nle_lt. exists (bound_value q'). eauto with order.
  - rewrite orb_false_iff. intros [Hlt%nle_lt Hadj].
    destruct (between _ _ Hlt) as [Ha|(u & ? & ?)]; [by rewrite Ha, leb_refl in Hadj|]. exists u. eauto with order.
Qed.

(** ** Coverage is complete *)

(** A value inside the start of a later interval is not in an earlier one. *)
Lemma later_start y z v a b :
  before y z -> contains y a -> contains z b -> inside_opt (ileft z) Left v = true -> lt a v.
Proof.
  intros Hb Ha Hz Hl. destruct (le_or_lt v b) as [Hle|Hlt]; [by eapply before_cover|].
  eapply lt_trans; [by apply Hb|done].
Qed.

Lemma in_set_cons y l v : in_set (y :: l) v <-> contains y v \/ in_set l v.
Proof. unfold in_set. apply Exists_cons. Qed.

Lemma in_set_above y l v a : Forall (before y) l -> contains y a -> in_set l v -> lt a v.
Proof.
  intros Hb Ha Hv. apply Exists_exists in Hv as (i & Hi & Hv). rewrite Forall_forall in Hb. by apply (Hb i Hi).
Qed.

(** The first of the later intervals is met by the values of [x] beyond [y]. *)
Lemma next_met x y z rest v u :
  valid (y :: z :: rest) -> contains x v -> contains y v -> contains x u -> in_set (z :: rest) u ->
  exists n, contains x n /\ contains z n /\ le n u.
Proof.
  intros (_ & Hb & (Hz & Hbz & _)%valid_cons)%valid_cons Hxv Hyv Hxu Hu. apply Forall_cons in Hb as [Hyz _].
  apply in_set_cons in Hu as [Hu|Hu]; [exists u; eauto with order|]. destruct Hz as [n Hn]. exists n.
  pose proof (in_set_above z rest u n Hbz Hn Hu). repeat split; [|done|by apply lt_le].
  apply (contains_between x v n u); eauto using lt_le.
Qed.

Lemma run_loop_complete x y rest v :
  valid (y :: rest) -> open_right x -> contains x v -> contains y v ->
  (forall w, contains x w -> inside_opt (ileft y) Left w = true -> in_set (y :: rest) w) ->
  run_loop x y rest = true.
Proof.
  intros Hval Hx. revert y v Hval. induction rest as [|z rest IH]; intros y v Hval Hxv Hyv Hall;
    simpl; destruct (ends_at_or_after y x) eqn:E; try done;
    destruct (ends_complete y x v Hx Hxv E) as (u & Hxu & Hvu & Hu).
  all: pose proof (Hall u Hxu (inside_opt_left _ _ _ (contains_left y v Hyv) Hvu)) as [Hyu|Hin]%in_set_cons.
  1, 3: apply contains_right in Hyu; congruence.
  1: by apply Exists_nil in Hin.
  destruct (next_met x y z rest v u Hval Hxv Hyv Hxu Hin) as (n & Hxn & Hzn & Hnu).
  apply valid_cons in Hval as (_ & Hb & Hval). apply Forall_cons in Hb as [Hyz Hb].
  destruct (touches y z) eqn:Et.
  - apply (IH z n); [done..|]. intros w Hw Hlw.
    assert (Hvw : lt v w) by (by apply (later_start y z w v n)).
    assert (Hlw' : inside_opt (ileft y) Left w = true).
    { eapply inside_opt_left; [by apply (contains_left y v)|by apply lt_le]. }
    pose proof (Hall w Hw Hlw') as [Hyw|Hin']%in_set_cons; [exfalso|done].
    apply (lt_irrefl w). by apply (later_start y z w w n).
  - exfalso. destruct (touches_complete y z v n Hyz Hyv Hzn Et) as (g & Hg1 & Hg2).
    pose proof (opt_outside_right _ _ _ (contains_right y v Hyv) Hg1) as Hvg.
    pose proof (opt_outside_left _ _ _ (contains_left z n Hzn) Hg2) as Hgn.
    assert (Hxg : contains x g) by (apply (contains_between x v g n); eauto using lt_le).
    assert (Hlg : inside_opt (ileft y) Left g = true).
    { eapply inside_opt_left; [by apply (contains_left y v)|by apply lt_le]. }
    pose proof (Hall g Hxg Hlg) as [Hyg|[Hzg|Hin']%in_set_cons]%in_set_cons.
    + apply contains_right in Hyg. congruence.
    + apply contains_left in Hzg. congruence.
    + apply valid_cons in Hval as (_ & Hbz & _). apply (lt_irrefl g). eapply lt_trans; [done|].
      by apply (in_set_above z rest g n).
Qed.

Lemma in_set_lookup l v : in_set l v <-> exists j y, l !! j = Some y /\ contains y v.
Proof.
  unfold in_set. rewrite Exists_exists. split.
  - intros (y & (j & Hj)%list_elem_of_lookup & Hv). eauto.
  - intros (j & y & Hj & Hv). exists y. split; [|done]. apply list_elem_of_lookup. eauto.
Qed.

Lemma valid_lookup l j y : valid l -> l !! j = Some y -> exists v, contains y v.
Proof. intros [H _] Hj. rewrite Forall_lookup in H. by apply (H j). Qed.

(** The values of a set that are not of its first intervals are of the rest. *)
Lemma in_set_rest l k v :
  in_set l v -> (forall j y, j < k -> l !! j = Some y -> ~ contains y v) -> in_set (drop k l) v.
Proof.
  rewrite !in_set_lookup. intros (j & y & Hj & Hv) Hk.
  destruct (decide (j < k)); [by destruct (Hk j y)|]. exists (j - k), y. split; [|done].
  rewrite lookup_drop. by replace (k + (j - k)) with j by lia.
Qed.

(** The search starts the run at the first interval that meets [x], or at the one before. *)
Lemma covered_from x l k y v :
  valid l -> l !! k = Some y -> contains x v -> contains y v ->
  (forall j z, j < k -> l !! j = Some z -> ~ exists w, contains x w /\ contains z w) ->
  run_covers x (drop k l) = true -> covered x l = true.
Proof.
  intros Hval Hk Hxv Hyv Hmin Hrun. unfold covered. apply contains_spec in Hxv as Hx'. destruct Hx' as [-> _].
  set (at_ := partition_point _ l). assert (Hlen : k < length l) by (by eapply lookup_lt_Some).
  assert (k <= at_).
  { destruct (decide (at_ < k)) as [Hlt|]; [|lia]. exfalso.
    destruct (lookup_lt_is_Some_2 l at_) as [z Hz]; [lia|].
    pose proof (partition_point_at _ _ _ Hz) as Hf. destruct (valid_lookup l at_ z Hval Hz) as [a Ha].
    apply (Hmin at_ z Hlt Hz). exists a. split; [|done]. apply (contains_down x v); [done| |].
    - apply lt_le. by apply (valid_before l at_ k z y).
    - eapply nltb_starts; [exact Hf|by apply contains_left]. }
  assert (at_ <= S k).
  { destruct (decide (S k < at_)) as [Hlt|]; [|lia]. exfalso.
    assert (Hlen' : at_ <= length l) by (unfold at_; clear; induction l; simpl; [lia|]; case_match; lia).
    destruct (lookup_lt_is_Some_2 l (S k)) as [z Hz]; [lia|].
    pose proof (partition_point_before _ _ _ _ Hlt Hz) as Hf. destruct (valid_lookup l (S k) z Hval Hz) as [a Ha].
    apply (lt_irrefl v), (later_start y z v v a); [|done..|].
    - apply (valid_before l k (S k) y z); [done..|lia].
    - eapply ltb_starts; [exact Hf|by apply contains_left]. }
  destruct (decide (k = at_)) as [->|].
  - rewrite (proj2 (Nat.ltb_lt _ _) Hlen), Hrun. by rewrite orb_true_r.
  - assert (at_ = S k) as -> by lia. simpl. by rewrite Nat.sub_0_r, Hrun.
Qed.

Lemma covered_complete x l v :
  valid l -> open_ended x -> contains x v -> (forall w, contains x w -> in_set l w) -> covered x l = true.
Proof.
  intros Hval Hx Hxv Hall. apply (first_meeting (fun y => exists w, contains x w /\ contains y w) _ l).
  { pose proof (Hall v Hxv) as (y & Hy & Hv)%Exists_exists. eauto. }
  intros k y Hk (w & Hxw & Hyw) Hmin. apply (covered_from x l k y w); [done..|].
  rewrite (drop_S l y k Hk). simpl. destruct (starts_at_or_before y x) eqn:Es.
  - apply (run_loop_complete x y _ w); [|apply Hx|done..|].
    + rewrite <- (drop_S l y k Hk). by apply valid_drop.
    + intros u Hu _. rewrite <- (drop_S l y k Hk). apply in_set_rest; [by apply Hall|].
      intros j z Hj Hz Hzu. apply (Hmin j z Hj Hz). eauto.
  - exfalso. destruct (starts_complete y x w (proj1 Hx) Hxw Es) as (u & Hu & Huw & Hn).
    pose proof (Hall u Hu) as (j & z & Hj & Hz)%in_set_lookup. destruct (lt_eq_lt_dec j k) as [[Hlt| ->]|Hlt].
    + by apply (Hmin j z Hlt Hj); eauto.
    + simplify_eq. apply contains_left in Hz. congruence.
    + pose proof (valid_before l k j y z Hval Hk Hj Hlt w u Hyw Hz). eapply (lt_irrefl w), lt_le_trans; eauto.
Qed.

(** ** [has_difference] and [holds] *)

(** Answering no is sound over any keys. *)
Lemma no_difference_sound a b :
  Forall (fun y => interval_is_empty y = false) b -> set_has_difference a b = false -> forall v, in_set a v -> in_set b v.
Proof.
  intros Hb. unfold set_has_difference. rewrite <- not_true_iff_false, existsb_exists.
  intros Hn v (x & Hx & Hv)%Exists_exists. destruct (covered x b) eqn:E; [by eapply covered_sound|].
  destruct Hn. exists x. rewrite E. split; [by apply list_elem_of_In|done].
Qed.

Lemma no_difference_complete a b :
  Forall (fun x => (exists v, contains x v) /\ open_ended x) a -> valid b ->
  (forall v, in_set a v -> in_set b v) -> set_has_difference a b = false.
Proof.
  intros Ha Hb Hall. unfold set_has_difference. rewrite <- not_true_iff_false, existsb_exists.
  intros (x & Hx%list_elem_of_In & Hc). rewrite Forall_forall in Ha. destruct (Ha x Hx) as [[v Hv] Ho].
  rewrite (covered_complete x b v) in Hc; [done..|]. intros w Hw. apply Hall, Exists_exists. eauto.
Qed.
End Exact.

Section Holds.
Context {T : Type} {IC : IntervalCrate T} {IL : IntervalLaws T IC}.
Implicit Types (v w : T) (x y z : Interval) (l : list Interval).

(** The order [holds] searches by: no interval is empty, and a later one starts no earlier. *)
Definition left_ordered l : Prop :=
  Forall (fun y => interval_is_empty y = false) l /\
  StronglySorted (fun y z => forall v, inside_opt (ileft z) Left v = true -> inside_opt (ileft y) Left v = true) l.

Lemma left_ordered_cons y l : left_ordered (y :: l) <->
  interval_is_empty y = false /\
  Forall (fun z => forall v, inside_opt (ileft z) Left v = true -> inside_opt (ileft y) Left v = true) l /\ left_ordered l.
Proof.
  unfold left_ordered. rewrite Forall_cons. split.
  - intros [[? ?] Hs]. apply StronglySorted_inv in Hs as [? ?]. tauto.
  - intros (? & ? & ? & ?). split; [tauto|]. by constructor.
Qed.

Lemma ends_ascend_right y l v :
  right_ends_ascend (y :: l) = true -> inside_opt (iright y) Right v = true ->
  Forall (fun z => inside_opt (iright z) Right v = true) l.
Proof.
  revert y. induction l as [|z l IH]; intros y; [constructor|].
  change (right_ends_ascend (y :: z :: l)) with (ends_at_or_after z y && right_ends_ascend (z :: l)).
  rewrite andb_true_iff. intros [Hzy Hl] Hy. assert (inside_opt (iright z) Right v = true) by (by eapply ends_sound).
  constructor; [done|]. by apply IH with z.
Qed.

Lemma right_ends_ascend_tail y l : right_ends_ascend (y :: l) = true -> right_ends_ascend l = true.
Proof. destruct l as [|z l]; [done|]. simpl. rewrite andb_true_iff. tauto. Qed.

Lemma holds_exact l v :
  left_ordered l -> right_ends_ascend l = true -> set_holds l v = existsb (fun x => interval_contains x v) l.
Proof.
  induction l as [|y l IH]; [done|]. intros Hl Hr. apply left_ordered_cons in Hl as (Hne & Hlo & Hl).
  apply right_ends_ascend_tail in Hr as Hr'. specialize (IH Hl Hr'). unfold set_holds in *. simpl.
  assert (Hbeyond : match iright y with Some e => negb (bound_contains e Right v) | None => false end
                    = negb (inside_opt (iright y) Right v)).
  { destruct (iright y); [|done]. by rewrite bound_contains_spec. }
  rewrite Hbeyond. destruct (inside_opt (iright y) Right v) eqn:Ey; simpl.
  - destruct (interval_contains y v) eqn:Ec; [done|]. symmetry. simpl. apply not_true_iff_false.
    rewrite existsb_exists. intros (z & Hz%list_elem_of_In & Hc). rewrite Forall_forall in Hlo.
    apply not_true_iff_false in Ec. apply Ec, contains_spec. repeat split; [done| |done].
    by apply (Hlo z Hz), contains_left.
  - rewrite IH. rewrite interval_contains_spec, Ey. by rewrite andb_false_r.
Qed.
End Holds.

(** * Canonical runs

    [canonical_runs] keeps the values of a set and leaves a gap after each of its
    intervals; a set in that form is determined by its values.  The runs of a column of
    integers are in that form. *)

Section Canon.
Context {T : Type} {IC : IntervalCrate T} {IL : IntervalLaws T IC} {DL : DomainLaws T IC}.
Implicit Types (u v w : T) (x y z i a b c : Interval) (l r : list Interval).

Abbreviation le v w := (value_leb v w = true).
Abbreviation lt v w := (value_ltb v w = true).
Abbreviation contains x v := (interval_contains x v = true).
Hint Resolve lt_le le_lt_trans lt_le_trans lt_trans leb_trans leb_refl : order.

(** ** Normalized intervals *)

Definition normal_opt (b : option (Bound T)) (side : Side) : Prop :=
  match b with Some b => bound_normalized b side = b | None => True end.

Definition normal x : Prop := normal_opt (ileft x) Left /\ normal_opt (iright x) Right.

(** No interval is joined to the next. *)
Definition unjoined l : Prop := Sorted (fun y z => joined y z = None) l.

(** A gap after each interval. *)
Definition separated l : Prop := Sorted (fun y z => touches y z = false) l.

Lemma normalized_normal (p : Bound T) side : bound_normalized p side = p -> normalized p side = p.
Proof. by rewrite normalized_cases. Qed.

Lemma normalize_idem (p : Bound T) side : bound_normalized (bound_normalized p side) side = bound_normalized p side.
Proof.
  pose proof (normalized_open_none p side) as H. rewrite normalized_cases in H. apply normalized_same.
  destruct (bound_type (bound_normalized p side)); [right; by apply H|by left].
Qed.

Lemma bound_eqb_eq (p q : Bound T) : bound_eqb p q = true -> p = q.
Proof.
  unfold bound_eqb, is_open. rewrite andb_true_iff, eqb_spec. destruct p as [[] v], q as [[] w]; simpl; intros [? ?]; by subst.
Qed.

Lemma normalize_interval_normal i : finite_normalized i = true -> normal (normalize_interval i).
Proof.
  unfold finite_normalized, normalize_interval, normal. destruct (ileft i) as [p|] eqn:El, (iright i) as [q|] eqn:Er.
  - rewrite andb_true_iff. intros [H1%bound_eqb_eq H2%bound_eqb_eq]. rewrite El, Er. simpl. by split.
  - intros _. destruct (half_bounds Left (bound_normalized p Left)) as (_ & -> & ->). simpl. split; [apply normalize_idem|done].
  - intros _. destruct (half_bounds Right (bound_normalized q Right)) as (_ & -> & ->). simpl. split; [done|apply normalize_idem].
  - intros _. by rewrite El, Er.
Qed.

Lemma half_contains side (p : Bound T) v : contains (new_half_bounded side p) v <-> inside p side v = true.
Proof. rewrite contains_spec. destruct (half_bounds side p) as (-> & -> & ->). destruct side; simpl; tauto. Qed.

Lemma normalize_interval_contains i v : interval_is_empty i = false -> contains (normalize_interval i) v <-> contains i v.
Proof.
  intros He. unfold normalize_interval. destruct (ileft i) as [p|] eqn:El, (iright i) as [q|] eqn:Er; try done;
    rewrite half_contains, bound_normalized_inside, contains_spec, El, Er; cbn [inside_opt]; tauto.
Qed.

Lemma normalize_interval_open i : open_ended i -> open_ended (normalize_interval i).
Proof.
  unfold open_ended, open_left, open_right, normalize_interval.
  destruct (ileft i) as [p|] eqn:El, (iright i) as [q|] eqn:Er; rewrite ?El, ?Er; try done; intros [? ?].
  - by destruct (half_bounds Left (bound_normalized p Left)) as (_ & -> & ->).
  - by destruct (half_bounds Right (bound_normalized q Right)) as (_ & -> & ->).
Qed.

(** ** Joining *)

(** Where two intervals meet, every value beyond the first is inside the start of the second. *)
Lemma joined_meets a b c v :
  joined a b = Some c -> inside_opt (iright a) Right v = false -> inside_opt (ileft b) Left v = true.
Proof.
  unfold joined. destruct (iright a) as [e|]; [|done]. destruct (ileft b) as [s|]; [|done]. cbn [inside_opt].
  unfold inside, is_open. destruct (value_eqb _ _) eqn:E.
  - apply eqb_spec in E. rewrite E.
    destruct (bound_type e), (bound_type s); simpl; try done; intros _.
    + apply nlt_le.
    + intros H. unfold value_ltb. by rewrite H.
    + intros H. apply lt_le. unfold value_ltb. by rewrite H.
  - destruct (bound_type e), (bound_type s); simpl; try done.
    destruct (try_adjacent _ _) as [n|] eqn:Ea; [|done]. destruct (value_eqb n _) eqn:En; [|done].
    apply eqb_spec in En as <-. apply adjacent_right in Ea as [_ Ha]. intros _ H. apply Ha. unfold value_ltb. by rewrite H.
Qed.

(** The interval made of the start of one and the end of the other. *)
Lemma joined_bounds a b c :
  normal a -> normal b -> (exists v, inside_opt (ileft a) Left v = true /\ inside_opt (iright b) Right v = true) ->
  joined a b = Some c -> interval_is_empty c = false /\ ileft c = ileft a /\ iright c = iright b.
Proof.
  intros [Ha _] [_ Hb] (v & Hl & Hr). unfold joined. destruct (iright a); [|done]. destruct (ileft b); [|done].
  case_match; [|done]. intros [= <-]. revert Ha Hb Hl Hr.
  destruct (ileft a) as [p|], (iright b) as [q|]; cbn [inside_opt normal_opt]; intros Hp Hq Hl Hr.
  - destruct (finite_bounds p q) as (-> & -> & ->); [eauto|]. by rewrite Hp, Hq.
  - by destruct (half_bounds Left p) as (-> & -> & ->).
  - by destruct (half_bounds Right q) as (-> & -> & ->).
  - by destruct unbounded_bounds as (-> & -> & ->).
Qed.

Lemma joined_contains a b c v :
  normal a -> normal b -> before a b -> (exists u, contains a u) -> (exists w, contains b w) -> joined a b = Some c ->
  contains c v <-> contains a v \/ contains b v.
Proof.
  intros Hna Hnb Hab [u Hu] [w Hw] Hj. pose proof (Hab u w Hu Hw) as Huw.
  destruct (joined_bounds a b c) as (He & Hl & Hr); [done..| |done|].
  { exists w. split; [|by apply contains_right]. eapply inside_opt_left; [by apply contains_left|by apply lt_le]. }
  rewrite (contains_spec c), He, Hl, Hr. split.
  - intros (_ & Hla & Hrb). destruct (inside_opt (iright a) Right v) eqn:Ea.
    + left. apply contains_spec in Hu as [? _]. by apply contains_spec.
    + right. apply contains_spec in Hw as [? _]. apply contains_spec. eauto using joined_meets.
  - intros [Hv|Hv]; (split; [done|]).
    + split; [by apply contains_left|]. eapply inside_opt_right; [by apply contains_right|]. apply lt_le. by apply Hab.
    + split; [|by apply contains_right]. eapply inside_opt_left; [by apply contains_left|]. apply lt_le. by apply Hab.
Qed.

(** ** Gaps *)

Lemma normal_open (p : Bound T) side w :
  bound_normalized p side = p -> bound_type p = Open -> try_adjacent (bound_value p) (flip side) <> Some w.
Proof. intros Hn Ho Ha. rewrite (normalized_open p side w Ho Ha) in Hn. rewrite <- Hn in Ho. done. Qed.

(** Intervals in order do not overlap: with a closed end, the value at it is the interval's. *)
Lemma end_value a e v : contains a v -> iright a = Some e -> bound_type e = Closed -> contains a (bound_value e).
Proof.
  intros Hv He Hc. pose proof (contains_right a v Hv) as Hr. rewrite He in Hr. simpl in Hr. unfold inside in Hr.
  rewrite Hc in Hr. apply (contains_up a v); [done..|]. rewrite He. simpl. unfold inside. rewrite Hc. apply leb_refl.
Qed.

Lemma start_value b s v : contains b v -> ileft b = Some s -> bound_type s = Closed -> contains b (bound_value s).
Proof.
  intros Hv Hs Hc. pose proof (contains_left b v Hv) as Hl. rewrite Hs in Hl. simpl in Hl. unfold inside in Hl.
  rewrite Hc in Hl. apply (contains_down b v); [done..|]. rewrite Hs. simpl. unfold inside. rewrite Hc. apply leb_refl.
Qed.

(** A value inside both facing bounds would be in both, or in one out of order. *)
Lemma facing_apart a b u v w :
  before a b -> contains a u -> contains b w ->
  inside_opt (iright a) Right v = true -> inside_opt (ileft b) Left v = true -> False.
Proof.
  intros Hab Hu Hw Hr Hl. destruct (le_or_lt u v) as [Huv|Hvu].
  - assert (Hv : contains a v) by (by apply (contains_up a u)). apply (lt_irrefl v).
    by apply (later_start a b v v w).
  - apply (lt_irrefl u). eapply lt_trans; [|done]. by apply (later_start a b v u w).
Qed.

(** Between the end and the start, where the start is the lower. *)
Lemma facing_between a b e s u w :
  before a b -> contains a u -> contains b w -> iright a = Some e -> ileft b = Some s -> normal a -> normal b ->
  bound_type e = Open \/ bound_type s = Open -> ~ lt (bound_value s) (bound_value e).
Proof.
  intros Hab Hu Hw He Hs [_ Hna] [Hnb _] Ho Hlt. rewrite He in Hna. rewrite Hs in Hnb. simpl in Hna, Hnb.
  assert (Hex : exists g, lt (bound_value s) g /\ lt g (bound_value e)).
  { destruct Ho as [Ho|Ho].
    - destruct (between_left _ _ Hlt) as [Ha|?]; [by destruct (normal_open e Right (bound_value s))|done].
    - destruct (between _ _ Hlt) as [Ha|?]; [by destruct (normal_open s Left (bound_value e))|done]. }
  destruct Hex as (g & Hg1 & Hg2). apply (facing_apart a b u g w Hab Hu Hw).
  - rewrite He. simpl. unfold inside. destruct (bound_type e); eauto with order.
  - rewrite Hs. simpl. unfold inside. destruct (bound_type s); eauto with order.
Qed.

Lemma joined_gap a b u w :
  normal a -> normal b -> before a b -> contains a u -> contains b w -> joined a b = None -> touches a b = false.
Proof.
  intros Hna Hnb Hab Hu Hw. destruct (before_ends a b u w Hab Hu Hw) as [He Hs]. unfold joined, touches.
  destruct (iright a) as [e|] eqn:Ee; [|done]. destruct (ileft b) as [s|] eqn:Es; [|done].
  destruct Hna as [Hla Hra], Hnb as [Hlb Hrb]. rewrite Ee in Hra. rewrite Es in Hlb. simpl in Hra, Hlb.
  rewrite !normalized_normal by done.
  pose proof (facing_between a b e s u w Hab Hu Hw Ee Es) as Hf. unfold normal in Hf. rewrite Ee, Es in Hf. simpl in Hf.
  specialize (Hf (conj Hla Hra) (conj Hlb Hrb)).
  set (m := if value_eqb _ _ then _ else _). intros Hm. assert (Hm' : m = false) by (by destruct m). clear Hm.
  subst m. unfold is_open in Hm'. destruct (value_eqb (bound_value e) (bound_value s)) eqn:E.
  - apply eqb_spec in E. destruct (bound_type e), (bound_type s); simpl in Hm'; try done. rewrite E. apply nlt_le, leb_refl.
  - assert (Hle : ~ lt (bound_value s) (bound_value e) -> value_leb (bound_value s) (bound_value e) = false).
    { intros Hn. apply not_true_iff_false. intros [?|Heq]%le_cases; [done|]. rewrite (proj2 (eqb_spec _ _)) in E; done. }
    destruct (bound_type e) eqn:Te, (bound_type s) eqn:Ts; simpl in Hm'.
    1: apply not_true_iff_false; tauto. 1, 2: apply Hle; tauto.
    assert (Hlt : lt (bound_value e) (bound_value s)).
    { apply Hab; [by apply (end_value a e u)|by apply (start_value b s w)]. }
    rewrite (not_ge _ _ Hlt). simpl. destruct (try_adjacent _ _) as [n|] eqn:Ea; [|done].
    apply not_true_iff_false. intros Hle'. apply adjacent_right in Ea as [_ Ha].
    rewrite (proj2 (eqb_spec _ _)) in Hm'; [done|]. apply leb_antisym; [by apply Ha|done].
Qed.

(** ** The pass over a set *)

(** The runs from an interval on, and whether they are in order. *)
Fixpoint runs_from (prev : Interval) (l : list Interval) : list Interval * bool :=
  match l with
  | [] => ([prev], true)
  | next :: l =>
      let next := normalize_interval next in
      match joined prev next with
      | Some one => runs_from one l
      | None => let '(r, o) := runs_from next l in (prev :: r, interval_ltb prev next && o)
      end
  end.

Lemma foldl_runs l prev passed o :
  foldl join_step (prev :: passed, o) l = (rev (runs_from prev l).1 ++ passed, o && (runs_from prev l).2).
Proof.
  revert prev passed o. induction l as [|next l IH]; intros prev passed o; simpl; [by rewrite andb_true_r|].
  destruct (joined prev (normalize_interval next)) as [one|]; [apply IH|]. rewrite IH.
  destruct (runs_from (normalize_interval next) l) as [r o']. simpl. by rewrite <- app_assoc, andb_assoc.
Qed.

Lemma before_same y z y' z' :
  (forall v, contains y' v <-> contains y v) -> (forall v, contains z' v <-> contains z v) -> before y z -> before y' z'.
Proof. intros Hy Hz H v w Hv Hw. apply H; [by apply Hy|by apply Hz]. Qed.

(** What a pass from [prev] yields. *)
Record pass (prev : Interval) (l r : list Interval) : Prop := {
  pass_valid : valid r;
  pass_unjoined : unjoined r;
  pass_normal : Forall normal r;
  pass_start : exists y r', r = y :: r' /\ ileft y = ileft prev;
  pass_in v : in_set r v <-> in_set (prev :: l) v;
  pass_open : open_ended prev -> Forall open_ended l -> Forall open_ended r
}.

Lemma pass_cons prev next l r :
  valid (prev :: next :: l) -> normal prev ->
  (forall v, contains (normalize_interval next) v <-> contains next v) -> joined prev (normalize_interval next) = None ->
  pass (normalize_interval next) l r -> pass prev (next :: l) (prev :: r).
Proof.
  intros (Hp & Hb & Hval)%valid_cons Hnp Hsame Ht [Hv Hs Hn (y & r' & -> & Hy) Hin Ho].
  assert (Hin' : forall v, in_set (y :: r') v <-> in_set (next :: l) v).
  { intros v. rewrite Hin, !in_set_cons, Hsame. done. }
  split; [| |by constructor| | |].
  - apply valid_cons. repeat split; [done| |apply Hv..]. apply Forall_forall. intros z Hz v w Hpv Hzw.
    apply (in_set_above prev (next :: l) w v Hb Hpv), Hin', Exists_exists. eauto.
  - constructor; [done|]. constructor. revert Ht. unfold joined. rewrite Hy.
    destruct (iright prev); [|done]. destruct (ileft (normalize_interval next)); [|done]. by case_match.
  - by exists prev, (y :: r').
  - intros v. rewrite !(in_set_cons prev), Hin'. done.
  - intros Hop [? ?]%Forall_cons. constructor; [done|]. apply Ho; [by apply normalize_interval_open|done].
Qed.

Lemma join_valid a b c l :
  (forall v, contains c v <-> contains a v \/ contains b v) -> valid (a :: b :: l) -> valid (c :: l).
Proof.
  intros Hc (Ha & Hb & (Hb' & Hbl & Hl)%valid_cons)%valid_cons. apply Forall_cons in Hb as [_ Hal]. apply valid_cons.
  destruct Ha as [u Hu]. repeat split; [exists u; apply Hc; by left| |apply Hl..].
  apply Forall_forall. rewrite Forall_forall in Hal, Hbl. intros z Hz v w Hv Hw.
  apply Hc in Hv as [Hv|Hv]; [by apply (Hal z Hz)|by apply (Hbl z Hz)].
Qed.

Lemma valid_second a b b' l :
  (forall v, contains b' v <-> contains b v) -> valid (a :: b :: l) -> valid (a :: b' :: l).
Proof.
  intros Hb (Ha & Hab & (Hb' & Hbl & Hl)%valid_cons)%valid_cons. apply Forall_cons in Hab as [Hab Hal].
  apply valid_cons. split; [done|]. split.
  - constructor; [|done]. by apply (before_same a b).
  - apply valid_cons. split; [|split; [|done]].
    + destruct Hb' as [v Hv]. exists v. by apply Hb.
    + eapply Forall_impl; [done|]. intros z Hz. by apply (before_same b z).
Qed.

Lemma runs_from_ok l prev :
  valid (prev :: l) -> normal prev -> Forall (fun i => finite_normalized i = true) l ->
  exists r, runs_from prev l = (r, true) /\ pass prev l r.
Proof.
  revert prev. induction l as [|next l IH]; intros prev Hval Hn Hf; simpl.
  { exists [prev]. split; [done|]. split; [done|repeat constructor|by constructor|by exists prev, []|done|by constructor]. }
  apply Forall_cons in Hf as [Hfn Hf]. set (next' := normalize_interval next).
  assert (Hsame : forall v, contains next' v <-> contains next v).
  { intros v. apply normalize_interval_contains. apply valid_nonempty in Hval.
    by apply Forall_cons in Hval as [_ [? _]%Forall_cons]. }
  assert (Hval' : valid (prev :: next' :: l)) by (by apply (valid_second prev next)).
  pose proof Hval' as (Hp & [Hpn _]%Forall_cons & Hnl)%valid_cons. pose proof Hnl as (Hnext & _)%valid_cons.
  assert (Hnn : normal next') by (by apply normalize_interval_normal).
  destruct (joined prev next') as [one|] eqn:Ej.
  - assert (Hone : forall v, contains one v <-> contains prev v \/ contains next' v).
    { intros v. by apply joined_contains. }
    assert (Hb1 : interval_is_empty one = false /\ ileft one = ileft prev /\ iright one = iright next').
    { destruct Hp as [u Hu], Hnext as [w Hw]. apply joined_bounds; [done..| |done]. exists u.
      split; [by apply contains_left|]. eapply inside_opt_right; [by apply contains_right|]. apply lt_le. by apply Hpn. }
    destruct Hb1 as (_ & Hl1 & Hr1).
    destruct (IH one) as (r & Hr & [H1 H2 H3 H4 H5 H6]); [by apply (join_valid prev next')| |done|].
    { split; [rewrite Hl1; apply Hn|rewrite Hr1; apply Hnn]. }
    exists r. split; [done|]. split; [done..|by rewrite <- Hl1| |].
    { intros v. rewrite H5, !in_set_cons, Hone, Hsame. tauto. }
    intros [Hop _] [Hon ?]%Forall_cons. apply H6; [|done]. unfold open_ended, open_left, open_right.
    rewrite Hl1, Hr1. split; [done|]. by apply normalize_interval_open in Hon as [_ ?].
  - destruct (IH next' Hnl Hnn Hf) as (r & Hr & Hpass). rewrite Hr. exists (prev :: r). split.
    + f_equal. rewrite andb_true_r. by apply ltb_before.
    + by apply (pass_cons prev next l r).
Qed.

(** ** [canonical_runs] *)

(** An interval after another ends at or after it. *)
Lemma later_end a b u w : before a b -> contains a u -> contains b w -> ends_at_or_after b a = true.
Proof.
  intros Hab Hu Hw. destruct (before_ends a b u w Hab Hu Hw) as [He _].
  assert (Hin : inside_opt (iright b) Right w = true) by (by apply contains_right).
  assert (Hout : inside_opt (iright a) Right w = false).
  { apply not_true_iff_false. intros Hr. apply (lt_irrefl w), Hab; [|done].
    apply (contains_up a u); [done|apply lt_le; by apply Hab|done]. }
  unfold ends_at_or_after. destruct (iright b) as [p|]; [|done]. destruct (iright a) as [q|]; [|done].
  cbn [inside_opt] in *. rewrite <- (normalized_inside p) in Hin. rewrite <- (normalized_inside q) in Hout.
  revert Hin Hout. unfold inside. destruct (bound_type (normalized p Right)), (bound_type (normalized q Right)).
  - intros Hp Hq%nlt_le. apply orb_true_iff. left. by eapply le_lt_trans.
  - intros Hp Hq%nle_lt. apply orb_true_iff. left. by eapply lt_trans.
  - intros Hp Hq%nlt_le. by eapply leb_trans.
  - intros Hp Hq%nle_lt. apply lt_le. by eapply lt_le_trans.
Qed.

Lemma valid_ascend l : valid l -> right_ends_ascend l = true.
Proof.
  induction l as [|a [|b l] IH]; [done..|]. intros (Ha & [Hab _]%Forall_cons & Hval)%valid_cons.
  change (right_ends_ascend (a :: b :: l)) with (ends_at_or_after b a && right_ends_ascend (b :: l)).
  rewrite IH, andb_true_r by done. pose proof Hval as ([w Hw] & _)%valid_cons. destruct Ha as [u Hu].
  by apply (later_end a b u w).
Qed.

(** What [canonical_runs] does over any keys. *)
Lemma canonical_runs_ok l :
  valid l -> forallb finite_normalized l = true ->
  exists r, canonical_runs l = Some r /\ valid r /\ unjoined r /\ Forall normal r /\
    (Forall open_ended l -> Forall open_ended r) /\ forall v, in_set r v <-> in_set l v.
Proof.
  intros Hval Hf. unfold canonical_runs, normalize_and_join. rewrite Hf. destruct l as [|x l].
  { exists []. split; [done|]. by repeat constructor. }
  simpl in Hf. apply andb_true_iff in Hf as [Hfx Hf]. pose proof Hval as (Hx & Hb & Hl)%valid_cons.
  assert (Hsame : forall v, contains (normalize_interval x) v <-> contains x v).
  { intros v. apply normalize_interval_contains. apply valid_nonempty in Hval. by apply Forall_cons in Hval as [? _]. }
  destruct (runs_from_ok l (normalize_interval x)) as (r & Hr & [H1 H2 H3 _ H5 H6]).
  - apply valid_cons. destruct Hx as [v Hv]. split; [exists v; by apply Hsame|]. split; [|done].
    eapply Forall_impl; [done|]. intros z Hz. by apply (before_same x z).
  - by apply normalize_interval_normal.
  - apply Forall_forall. intros i Hi. rewrite forallb_forall in Hf. by apply Hf, list_elem_of_In.
  - cbn [foldl join_step]. rewrite foldl_runs, Hr. simpl. rewrite app_nil_r, rev_involutive, (valid_ascend r) by done.
    exists r. split_and!; [done..| |].
    + intros [Hox Hol]%Forall_cons. apply H6; [by apply normalize_interval_open|done].
    + intros v. by rewrite H5, !in_set_cons, Hsame.
Qed.

(** Where a gap between intervals holds a key, one is left after each. *)
Lemma unjoined_separated l : valid l -> Forall normal l -> unjoined l -> separated l.
Proof.
  intros Hval Hn Hu. induction Hu as [|a l _ IH Hd]; [constructor|].
  apply Forall_cons in Hn as [Hna Hn]. apply valid_cons in Hval as ([u Hu] & Hb & Hval).
  constructor; [by apply IH|]. destruct Hd as [|b l Hj]; constructor.
  apply Forall_cons in Hb as [Hab _]. apply Forall_cons in Hn as [Hnb _]. apply valid_cons in Hval as ([w Hw] & _).
  by apply (joined_gap a b u w).
Qed.

(** The form [canonical_runs] leaves a set in. *)
Definition canonical l : Prop := valid l /\ separated l /\ Forall normal l /\ Forall open_ended l.

(** ** A set in canonical form is determined by its values *)

(** The value after an interval that no interval of the set holds. *)
Lemma gap_after l j y z :
  valid l -> separated l -> l !! j = Some y -> l !! S j = Some z ->
  exists g, ~ in_set l g /\ (forall k x v, k <= j -> l !! k = Some x -> contains x v -> lt v g) /\
    (forall k x v, j < k -> l !! k = Some x -> contains x v -> lt g v).
Proof.
  intros Hval Hsep Hj Hz.
  assert (Ht : touches y z = false).
  { revert j Hj Hz. clear Hval. induction Hsep as [|x l Hs IH Hd]; intros [|j]; simpl; try done; [|by apply IH].
    destruct l; [done|]. intros [= ->] [= ->]. by inversion Hd. }
  destruct (valid_lookup l j y Hval Hj) as [u Hu], (valid_lookup l (S j) z Hval Hz) as [w Hw].
  destruct (touches_complete y z u w) as (g & Hg1 & Hg2); [apply (valid_before l j (S j)); [done..|lia]|done..|].
  assert (Hlo : forall k x v, k <= j -> l !! k = Some x -> contains x v -> lt v g).
  { intros k x v Hk Hx Hv. pose proof (opt_outside_right _ _ _ (contains_right y u Hu) Hg1) as Hug.
    destruct (decide (k = j)) as [->|]; [simplify_eq; by apply (opt_outside_right (iright y)); [apply contains_right|]|].
    eapply lt_trans; [|done]. apply (valid_before l k j x y); [done..|lia|done|done]. }
  assert (Hhi : forall k x v, j < k -> l !! k = Some x -> contains x v -> lt g v).
  { intros k x v Hk Hx Hv. pose proof (opt_outside_left _ _ _ (contains_left z w Hw) Hg2) as Hgw.
    destruct (decide (k = S j)) as [->|]; [simplify_eq; by apply (opt_outside_left (ileft z)); [apply contains_left|]|].
    eapply lt_trans; [done|]. apply (valid_before l (S j) k z x); [done..|lia|done|done]. }
  exists g. split; [|done]. intros (k & x & Hk & Hv)%in_set_lookup. apply (lt_irrefl g).
  destruct (decide (k <= j)); [by apply (Hlo k x)|]. apply (Hhi k x); [lia|done..].
Qed.

(** An interval whose values are the set's lies within one of its intervals. *)
Lemma within_one x l k y v :
  valid l -> separated l -> (forall w, contains x w -> in_set l w) ->
  l !! k = Some y -> contains x v -> contains y v -> forall w, contains x w -> contains y w.
Proof.
  intros Hval Hsep Hin Hk Hxv Hyv w Hxw. pose proof (Hin w Hxw) as (j & z & Hj & Hz)%in_set_lookup.
  destruct (lt_eq_lt_dec j k) as [[Hlt|Heq]|Hlt]; [exfalso|by simplify_eq|exfalso].
  - destruct (lookup_lt_is_Some_2 l (S j)) as [z' Hz']; [apply lookup_lt_Some in Hk; lia|].
    destruct (gap_after l j z z' Hval Hsep Hj Hz') as (g & Hg & Hlo & Hhi). apply Hg, Hin.
    apply (contains_between x w g v); [done..| |].
    + apply lt_le, (Hlo j z); [lia|done..].
    + by apply lt_le, (Hhi k y).
  - destruct (lookup_lt_is_Some_2 l (S k)) as [z' Hz']; [apply lookup_lt_Some in Hj; lia|].
    destruct (gap_after l k y z' Hval Hsep Hk Hz') as (g & Hg & Hlo & Hhi). apply Hg, Hin.
    apply (contains_between x v g w); [done..| |].
    + apply lt_le, (Hlo k y); [lia|done..].
    + by apply lt_le, (Hhi j z).
Qed.

Lemma normal_left_eq (p q : Bound T) :
  match bound_type p with
  | Closed => value_leb (bound_value p) (bound_value q)
  | Open => value_ltb (bound_value p) (bound_value q) || value_eqb (bound_value p) (bound_value q) && is_open q
  end = true ->
  match bound_type q with
  | Closed => value_leb (bound_value q) (bound_value p)
  | Open => value_ltb (bound_value q) (bound_value p) || value_eqb (bound_value q) (bound_value p) && is_open p
  end = true -> p = q.
Proof.
  destruct p as [[] v], q as [[] w]; simpl; rewrite ?orb_true_iff, ?andb_true_iff, ?eqb_spec; intros H1 H2.
  - destruct H1 as [H1|[-> _]]; [|done]. destruct H2 as [H2|[-> _]]; [|done].
    destruct (lt_irrefl v). eauto with order.
  - destruct H1 as [H1|[_ ?]]; [|done]. destruct (lt_irrefl v). eauto with order.
  - destruct H2 as [H2|[_ ?]]; [|done]. destruct (lt_irrefl v). eauto with order.
  - f_equal. by apply leb_antisym.
Qed.

(** Two normalized intervals of the same values have the same bounds. *)
Lemma same_bounds x y v :
  normal x -> normal y -> open_ended x -> open_ended y -> contains x v -> (forall w, contains x w <-> contains y w) ->
  ileft x = ileft y /\ iright x = iright y.
Proof.
  intros [Hxl Hxr] [Hyl Hyr] [Hox1 Hox2] [Hoy1 Hoy2] Hv Hsame. assert (Hv' : contains y v) by (by apply Hsame). split.
  - assert (H1 : starts_at_or_before y x = true).
    { destruct (starts_at_or_before y x) eqn:E; [done|]. destruct (starts_complete y x v) as (u & Hu & _ & Hn); [done..|].
      apply Hsame, contains_left in Hu. congruence. }
    assert (H2 : starts_at_or_before x y = true).
    { destruct (starts_at_or_before x y) eqn:E; [done|]. destruct (starts_complete x y v) as (u & Hu & _ & Hn); [done..|].
      apply Hsame, contains_left in Hu. congruence. }
    unfold starts_at_or_before in H1, H2. destruct (ileft x) as [p|], (ileft y) as [q|]; try done.
    rewrite !normalized_normal in H1, H2 by done. f_equal. by apply normal_left_eq.
  - assert (H1 : ends_at_or_after y x = true).
    { destruct (ends_at_or_after y x) eqn:E; [done|]. destruct (ends_complete y x v) as (u & Hu & _ & Hn); [done..|].
      apply Hsame, contains_right in Hu. congruence. }
    assert (H2 : ends_at_or_after x y = true).
    { destruct (ends_at_or_after x y) eqn:E; [done|]. destruct (ends_complete x y v) as (u & Hu & _ & Hn); [done..|].
      apply Hsame, contains_right in Hu. congruence. }
    unfold ends_at_or_after in H1, H2. destruct (iright x) as [p|], (iright y) as [q|]; try done.
    rewrite !normalized_normal in H1, H2 by done. f_equal. revert H1 H2.
    destruct p as [[] p], q as [[] q]; simpl; rewrite ?orb_true_iff, ?andb_true_iff, ?eqb_spec; intros H1 H2.
    + destruct H1 as [H1|[-> _]]; [|done]. destruct H2 as [H2|[-> _]]; [|done]. destruct (lt_irrefl p). eauto with order.
    + destruct H2 as [H2|[_ ?]]; [|done]. destruct (lt_irrefl p). eauto with order.
    + destruct H1 as [H1|[_ ?]]; [|done]. destruct (lt_irrefl p). eauto with order.
    + f_equal. by apply leb_antisym.
Qed.

Lemma canonical_tail x l : canonical (x :: l) -> canonical l.
Proof.
  intros (Hv & Hs & Hn & Ho). apply valid_cons in Hv as (_ & _ & ?). apply Sorted_inv in Hs as [? _].
  apply Forall_cons in Hn as [_ ?]. apply Forall_cons in Ho as [_ ?]. done.
Qed.

(** The first intervals of two canonical sets of the same values have a value in common. *)
Lemma heads_meet x y l r :
  valid (x :: l) -> valid (y :: r) -> (forall v, in_set (x :: l) v <-> in_set (y :: r) v) ->
  exists v, contains x v /\ contains y v.
Proof.
  intros ([v Hv] & Hxl & _)%valid_cons ([w Hw] & Hyr & _)%valid_cons Hsame.
  assert (H1 : in_set (y :: r) v) by (apply Hsame, in_set_cons; by left).
  assert (H2 : in_set (x :: l) w) by (apply Hsame, in_set_cons; by left).
  apply in_set_cons in H1 as [?|H1]; [eauto|]. apply in_set_cons in H2 as [?|H2]; [eauto|].
  destruct (lt_irrefl v). eapply lt_trans; [by apply (in_set_above x l w v)|by apply (in_set_above y r v w)].
Qed.

Lemma canonical_unique l r :
  canonical l -> canonical r -> (forall v, in_set l v <-> in_set r v) ->
  Forall2 (fun x y => ileft x = ileft y /\ iright x = iright y) l r.
Proof.
  revert r. induction l as [|x l IH]; intros [|y r] Hl Hr Hsame; [done|..].
  1: destruct Hr as (((w & Hw) & _)%valid_cons & _); assert (H : in_set [] w) by (apply Hsame, in_set_cons; by left).
  2: destruct Hl as (((w & Hw) & _)%valid_cons & _); assert (H : in_set [] w) by (apply Hsame, in_set_cons; by left).
  1, 2: by apply Exists_nil in H.
  pose proof (canonical_tail x l Hl) as Hl'. pose proof (canonical_tail y r Hr) as Hr'.
  destruct Hl as (Hlv & Hls & [Hnx _]%Forall_cons & [Hox _]%Forall_cons).
  destruct Hr as (Hrv & Hrs & [Hny _]%Forall_cons & [Hoy _]%Forall_cons).
  destruct (heads_meet x y l r Hlv Hrv Hsame) as (v & Hxv & Hyv).
  assert (Heq : forall w, contains x w <-> contains y w).
  { intros w. split; intros Hw.
    - apply (within_one x (y :: r) 0 y v); try done. intros u Hu. apply Hsame, in_set_cons. by left.
    - apply (within_one y (x :: l) 0 x v); try done. intros u Hu. apply Hsame, in_set_cons. by left. }
  constructor; [by apply (same_bounds x y v)|]. apply IH; [done..|]. intros w.
  apply valid_cons in Hlv as (_ & Hxl & _). apply valid_cons in Hrv as (_ & Hyr & _).
  specialize (Hsame w). rewrite !in_set_cons in Hsame. split; intros Hw.
  - assert (~ contains x w) by (intros Hx; by apply (lt_irrefl w), (in_set_above x l)). rewrite Heq in *. tauto.
  - assert (~ contains y w) by (intros Hy; by apply (lt_irrefl w), (in_set_above y r)). rewrite <- Heq in *. tauto.
Qed.
End Canon.

(** ** The runs of a column *)

Section Column.
Context {T : Type} {IC : IntervalCrate T} {IL : IntervalLaws T IC} (greatest : Z) (value : Z -> T).
Context (value_order : forall a b, value_leb (value a) (value b) = (a <=? b)%Z).
Context (value_next : forall a, try_adjacent (value a) Right = value <$> next_key greatest a).
Implicit Types (k s f : Z) (vs : list Z).

Lemma closed_contains s f v :
  (s <= f)%Z -> interval_contains (interval_closed (value s) (value f)) v = value_leb (value s) v && value_leb v (value f).
Proof.
  intros Hsf. rewrite interval_contains_spec. destruct (closed_bounds (value s) (value f)) as (-> & -> & ->); [|done].
  rewrite value_order. lia.
Qed.

Lemma key_runs_bounds s f vs :
  Forall (fun i => exists lo hi, i = interval_closed (value lo) (value hi) /\ lo ∈ s :: vs /\ hi ∈ f :: vs)
    (key_runs greatest value s f vs).
Proof.
  revert s f. induction vs as [|v vs IH]; intros s f; simpl.
  { constructor; [|done]. exists s, f. repeat split; apply list_elem_of_here. }
  case_bool_decide.
  - eapply Forall_impl; [apply IH|]. intros i (lo & hi & -> & Hlo & Hhi). exists lo, hi. rewrite !elem_of_cons in *. tauto.
  - constructor; [exists s, f; repeat split; apply list_elem_of_here|].
    eapply Forall_impl; [apply IH|]. intros i (lo & hi & -> & Hlo & Hhi). exists lo, hi. rewrite !elem_of_cons in *. tauto.
Qed.

(** The keys of the runs from [s] to [f] and beyond, and the intervals they are of. *)
Lemma key_runs_ok s f vs :
  (s <= f)%Z -> StronglySorted Z.lt (f :: vs) ->
  valid (key_runs greatest value s f vs) /\ separated (key_runs greatest value s f vs) /\
  (exists hi r, key_runs greatest value s f vs = interval_closed (value s) (value hi) :: r /\ (s <= hi)%Z) /\
  (forall v, in_set (key_runs greatest value s f vs) v -> value_leb (value s) v = true) /\
  (forall k, in_set (key_runs greatest value s f vs) (value k) <-> (s <= k <= f)%Z \/ k ∈ vs).
Proof.
  revert s f. induction vs as [|v vs IH]; intros s f Hsf Hs; apply StronglySorted_inv in Hs as [Hs Hf]; simpl.
  { assert (Hc := closed_contains s f). split; [|split; [|split; [|split]]].
    - apply valid_cons. split; [|split; [done|by repeat constructor]]. exists (value s). rewrite Hc, !value_order by done. lia.
    - by repeat constructor.
    - eauto.
    - intros v [Hv|Hv]%in_set_cons; [|by apply Exists_nil in Hv]. rewrite Hc in Hv by done. by apply andb_true_iff in Hv as [? _].
    - intros k. rewrite in_set_cons, Hc, !value_order, list_elem_of_In by done. unfold in_set. rewrite Exists_nil. simpl. lia. }
  apply Forall_cons in Hf as [Hfv Hf]. case_bool_decide as Hn.
  - unfold next_key in Hn. destruct (f <? greatest)%Z; [|done]. injection Hn as Hn.
    destruct (IH s v) as (H1 & H2 & H3 & H4 & H5); [lia|done|]. repeat (split; [done|]). intros k. rewrite H5, elem_of_cons.
    split; [intros [?|?]; [|tauto]; destruct (decide (k = v)); [tauto|]; lia|intros [?|[->|?]]; [lia..|tauto]].
  - destruct (IH v v) as (H1 & H2 & (hi & r & Hr & Hhi) & H4 & H5); [lia|done|]. assert (Hc := closed_contains s f).
    assert (Hb : forall w, interval_contains (interval_closed (value s) (value f)) w = true ->
      forall u, in_set (key_runs greatest value v v vs) u -> value_ltb w u = true).
    { intros w Hw u Hu. rewrite Hc in Hw by done. apply andb_true_iff in Hw as [_ Hw]. eapply le_lt_trans; [done|].
      eapply lt_le_trans; [|by apply H4]. unfold value_ltb. rewrite value_order. lia. }
    split; [|split; [|split; [eauto|split]]].
    + apply valid_cons. split; [exists (value s); rewrite Hc, !value_order by done; lia|]. split; [|done].
      apply Forall_forall. intros i Hi w u Hw Hu. apply Hb; [done|]. apply Exists_exists. eauto.
    + constructor; [done|]. rewrite Hr. constructor. unfold touches.
      destruct (closed_bounds (value s) (value f)) as (_ & _ & ->); [rewrite value_order; lia|].
      destruct (closed_bounds (value v) (value hi)) as (_ & -> & _); [rewrite value_order; lia|].
      rewrite !normalized_normal by (apply normalized_same; by left). simpl. rewrite value_next, value_order.
      unfold next_key in *. destruct (f <? greatest)%Z; simpl; [rewrite value_order|]; [|lia].
      assert (f + 1 <> v)%Z by congruence. lia.
    + intros w [Hw|Hw]%in_set_cons; [rewrite Hc in Hw by done; by apply andb_true_iff in Hw as [? _]|].
      eapply leb_trans; [|by apply H4]. rewrite value_order. lia.
    + intros k. rewrite in_set_cons, Hc, !value_order, H5, elem_of_cons by done.
      split; [intros [?|[?|?]]; [lia| |tauto]; assert (k = v) by lia; tauto|intros [?|[->|?]]; [lia..|tauto]].
Qed.

Lemma dedup_ascending l : StronglySorted Z.le l -> StronglySorted Z.lt (dedup l).
Proof.
  induction 1 as [|x l Hs IH Hx]; [constructor|]. destruct l as [|y l]; [by repeat constructor|].
  change (dedup (x :: y :: l)) with (if decide (x = y) then dedup (y :: l) else x :: dedup (y :: l)).
  destruct (decide (x = y)); [done|]. constructor; [done|]. apply Forall_forall. intros z Hz. rewrite elem_of_dedup in Hz.
  apply Forall_cons in Hx as [Hxy _]. apply StronglySorted_inv in Hs as [_ Hy].
  apply elem_of_cons in Hz as [->|Hz]; [lia|]. rewrite Forall_forall in Hy. specialize (Hy z Hz). lia.
Qed.

Lemma sorted_keys_ascending data : StronglySorted Z.lt (dedup (merge_sort Z.le data)).
Proof. apply dedup_ascending, StronglySorted_merge_sort; try apply _. Qed.

Lemma sorted_keys_in data k : k ∈ dedup (merge_sort Z.le data) <-> k ∈ data.
Proof. rewrite elem_of_dedup. by rewrite (merge_sort_Permutation Z.le data). Qed.
End Column.
