(* ===== verification/IntervalProps.v ===== *)
(** * Theorems about interval sets

    Coverage, membership, canonical runs and the runs of a column, and an instance of
    the crate's interface over integers on which they are evaluated. *)

From Stdlib Require Import Sorting.Sorted.
From stdpp Require Import list sorting.
From S2P Require Import Prelude IntervalSets IntervalFacts.
Set Warnings "-clear-no-such-hyp".
Local Open Scope Z_scope.

(** ** Intervals of integers, up to a greatest one where there is one *)

Inductive ZInterval := ZEmpty | ZBetween (l r : option (Bound Z)).

Section Integers.
Context (greatest : option Z).

Definition z_adjacent (v : Z) (side : Side) : option Z :=
  match side with
  | Left => Some (v - 1)
  | Right => match greatest with Some g => if v <? g then Some (v + 1) else None | None => Some (v + 1) end
  end.

Definition z_contains (b : Bound Z) (side : Side) (v : Z) : bool :=
  match side, bound_type b with
  | Left, Closed => bound_value b <=? v
  | Left, Open => bound_value b <? v
  | Right, Closed => v <=? bound_value b
  | Right, Open => v <? bound_value b
  end.

Definition z_normalized (b : Bound Z) (side : Side) : Bound Z :=
  match bound_type b, z_adjacent (bound_value b) (flip side) with
  | Open, Some w => MkBound Closed w
  | _, _ => b
  end.

Definition z_left (i : ZInterval) : option (Bound Z) := match i with ZEmpty => None | ZBetween l _ => l end.
Definition z_right (i : ZInterval) : option (Bound Z) := match i with ZEmpty => None | ZBetween _ r => r end.
Definition z_is_empty (i : ZInterval) : bool := match i with ZEmpty => true | ZBetween _ _ => false end.

Definition z_in (i : ZInterval) (v : Z) : bool :=
  match i with
  | ZEmpty => false
  | ZBetween l r => match l with Some b => z_contains b Left v | None => true end
      && match r with Some b => z_contains b Right v | None => true end
  end.

(** The order of the starts. *)
Definition z_before (y x : ZInterval) : bool :=
  match y, x with
  | ZEmpty, ZBetween _ _ => true
  | ZBetween None _, ZBetween (Some _) _ => true
  | ZBetween (Some p) _, ZBetween (Some q) _ =>
      (bound_value p <? bound_value q) || (bound_value p =? bound_value q) && negb (is_open p) && is_open q
  | _, _ => false
  end.

#[export] Instance Z_crate : IntervalCrate Z := {|
  value_leb := Z.leb;
  value_eqb := Z.eqb;
  try_adjacent := z_adjacent;
  bound_contains := z_contains;
  bound_normalized := z_normalized;
  Interval := ZInterval;
  ileft := z_left;
  iright := z_right;
  interval_is_empty := z_is_empty;
  interval_contains := z_in;
  interval_ltb := z_before;
  interval_closed lo hi := ZBetween (Some (MkBound Closed lo)) (Some (MkBound Closed hi));
  interval_unbounded := ZBetween None None;
  new_half_bounded side b := match side with Left => ZBetween (Some b) None | Right => ZBetween None (Some b) end;
  new_finite l r := ZBetween (Some (z_normalized l Left)) (Some (z_normalized r Right));
  set_new := List.filter (fun i => negb (z_is_empty i))
|}.

Lemma z_ltb v w : @value_ltb Z Z_crate v w = (v <? w).
Proof. unfold value_ltb. simpl. lia. Qed.

Lemma z_inside b side v : @inside Z Z_crate b side v = z_contains b side v.
Proof. unfold inside, z_contains. destruct side, (bound_type b); rewrite ?z_ltb; done. Qed.

Lemma z_inside_opt b side v :
  @inside_opt Z Z_crate b side v = match b with Some b => z_contains b side v | None => true end.
Proof. destruct b; [apply z_inside|done]. Qed.

(** Bounds opened to the comparisons they make. *)
Ltac open_bounds :=
  unfold z_contains, is_open in *;
  repeat match goal with b : Bound Z |- _ => let t := fresh in let v := fresh "v" in destruct b as [t v]; destruct t end;
  simpl in *.

Lemma z_before_ok y x v w :
  z_in y v = true -> z_in x w = true -> (v <? w) = true -> z_in x v = false -> z_before y x = true.
Proof.
  destruct y as [|[p|] r], x as [|[q|] s]; simpl; try done; open_bounds; intros ? ? ? ?;
    try (destruct s as [s|]; open_bounds); lia.
Qed.

#[export] Instance Z_laws : IntervalLaws Z Z_crate.
Proof.
  split; intros; simpl in *; rewrite ?z_inside, ?z_inside_opt in *; try lia; try done.
  - unfold z_adjacent in H. destruct greatest; [destruct (_ <? _); [|done]|]; injection H as <-;
      (split; [|intros u]; rewrite z_ltb; lia).
  - injection H as <-. split; [|intros u]; rewrite z_ltb; lia.
  - unfold z_normalized. by rewrite H, H0.
  - unfold z_normalized. destruct H as [->| ->]; [done|]. by destruct (bound_type b).
  - by destruct i.
  - destruct y as [|[p|] ?], x as [|[q|] ?]; simpl in *; try done. open_bounds; lia.
  - destruct y as [|[p|] ?], x as [|[q|] ?]; simpl in *; try done. open_bounds; lia.
  - destruct H as [v Hv], H0 as [w Hw]. pose proof (H1 v w Hv Hw) as Hvw. rewrite z_ltb in Hvw.
    apply (z_before_ok y x v w); [done..|]. apply not_true_iff_false. intros Hxv.
    specialize (H1 v v Hv Hxv). rewrite z_ltb in H1. lia.
  - by destruct side.
Qed.
End Integers.

#[export] Instance Z_domain : DomainLaws Z (Z_crate None).
Proof.
  split; intros v w; rewrite z_ltb; intros Hvw; simpl.
  - destruct (decide (v + 1 = w)) as [->|]; [by left|]. right. exists (v + 1). rewrite !z_ltb. lia.
  - destruct (decide (w - 1 = v)) as [->|]; [by left|]. right. exists (v + 1). rewrite !z_ltb. lia.
Qed.

(** ** What the operations promise *)

Section Promises.
Context {T : Type} {IC : IntervalCrate T} {IL : IntervalLaws T IC}.

(** C28: where [has_difference] answers no, every value of the first set is a value of the second, over keys of any
    kind; no interval of the second need be more than nonempty.  It is exact, however many touching intervals cover one
    of the first, where a key lies between any two keys that [try_adjacent] does not make neighbours ([DomainLaws]:
    booleans and integers, not strings), the intervals of the first each hold a value and have no open end past which
    no key lies, and those of the second hold values and ascend without meeting, though they may touch. *)
Theorem has_difference_is_inclusion (a b : list Interval) :
  Forall (fun y => interval_is_empty y = false) b ->
  (set_has_difference a b = false -> forall v, in_set a v -> in_set b v) /\
  (DomainLaws T IC -> Forall (fun x => (exists v, interval_contains x v = true) /\ open_ended x) a -> valid b ->
   (forall v, in_set a v -> in_set b v) -> set_has_difference a b = false).
Proof. intros Hb. split; [by apply no_difference_sound|]. intros DL Ha Hv. by apply no_difference_complete. Qed.

(** The binary search of [holds] finds what a scan of the set finds, for intervals ordered by their starts whose
    ends ascend as [right_ends_ascend] tests. *)
Theorem holds_is_scan (l : list Interval) (v : T) :
  left_ordered l -> right_ends_ascend l = true ->
  set_holds l v = existsb (fun x => interval_contains x v) l.
Proof. apply holds_exact. Qed.


(** [single_interval_set] holds exactly the keys of the column, in ascending runs with a gap after each, and every
    run is closed with ends from the column: no key beyond the greatest of the type is formed. *)
Theorem single_interval_set_runs (greatest : Z) (value : Z -> T) (data : list Z) :
  (forall a b, value_leb (value a) (value b) = (a <=? b)) ->
  (forall a, try_adjacent (value a) Right = value <$> next_key greatest a) ->
  let runs := single_interval_set greatest value data in
  (forall k, in_set runs (value k) <-> k ∈ data) /\ valid runs /\ separated runs /\
  Forall (fun i => exists lo hi, i = interval_closed (value lo) (value hi) /\ lo ∈ data /\ hi ∈ data) runs.
Proof.
  intros Hord Hnext. simpl. unfold single_interval_set. pose proof (sorted_keys_ascending data) as Hs.
  assert (Hin : forall k, k ∈ dedup (merge_sort Z.le data) <-> k ∈ data) by apply sorted_keys_in.
  destruct (dedup (merge_sort Z.le data)) as [|first vs].
  { split; [|by repeat constructor]. intros k. rewrite <- Hin, list_elem_of_In. unfold in_set. by rewrite Exists_nil. }
  destruct (key_runs_ok greatest value Hord Hnext first first vs) as (H1 & H2 & _ & _ & H5); [lia|done|].
  split; [|split; [done|split; [done|]]].
  - intros k. rewrite H5, <- Hin, elem_of_cons. split; intros [?|?]; try tauto; left; lia.
  - eapply Forall_impl; [apply key_runs_bounds|]. intros i (lo & hi & -> & Hlo & Hhi). exists lo, hi. by rewrite <- !Hin.
Qed.
End Promises.

(** ** On integers *)

Definition iv (lo hi : Z) : ZInterval := ZBetween (Some (MkBound Closed lo)) (Some (MkBound Closed hi)).

Lemma iv_valid (l : list (Z * Z)) :
  Forall (fun p => p.1 <= p.2) l -> StronglySorted (fun p q => p.2 < q.1) l ->
  @valid Z (Z_crate None) (map (fun p => iv p.1 p.2) l).
Proof.
  intros Hl. induction 1 as [|[lo hi] l Hs IH Hx]; [by repeat constructor|].
  apply Forall_cons in Hl as [Hle Hl]. simpl in Hle. cbn [map]. apply (valid_cons (IC := Z_crate None)). split; [|split; [|by apply IH]].
  - exists lo. simpl. unfold z_contains. simpl. lia.
  - apply Forall_map. eapply Forall_impl; [exact Hx|]. intros [lo' hi'] Hlt v w. simpl in *. unfold z_contains, value_ltb. simpl. lia.
Qed.

Lemma has_difference_is_inclusion_witness :
  @set_has_difference Z (Z_crate None) [iv 1 2] [iv 0 1; iv 2 3] = false /\
  forall v, @in_set Z (Z_crate None) [iv 1 2] v -> @in_set Z (Z_crate None) [iv 0 1; iv 2 3] v.
Proof.
  destruct (has_difference_is_inclusion (IC := Z_crate None) [iv 1 2] [iv 0 1; iv 2 3]) as [Hs Hc]; [by repeat constructor|].
  assert (Hin : forall v, @in_set Z (Z_crate None) [iv 1 2] v -> @in_set Z (Z_crate None) [iv 0 1; iv 2 3] v)
    by (apply Hs; reflexivity).
  split; [|exact Hin]. apply Hc; [apply Z_domain| |apply (iv_valid [(0, 1); (2, 3)]); repeat constructor; simpl; lia|exact Hin].
  repeat constructor; simpl; try done. exists 1. reflexivity.
Defined.

(** A gap is a difference, and so is what lies beyond a run. *)
Example has_difference_gap :
  @set_has_difference Z (Z_crate None) [iv 3 6] [iv 0 1; iv 3 4; iv 5 5] = true /\
  @set_has_difference Z (Z_crate None) [iv 1 3] [iv 0 1; iv 3 4] = true.
Proof. by split. Qed.

Lemma holds_is_scan_witness :
  @set_holds Z (Z_crate None) [iv 0 1; iv 4 6; ZBetween (Some (MkBound Open 8)) None] 5 =
  existsb (fun x => z_in x 5) [iv 0 1; iv 4 6; ZBetween (Some (MkBound Open 8)) None].
Proof.
  apply (holds_is_scan (IC := Z_crate None)); [|reflexivity].
  split; repeat constructor; simpl; unfold inside, value_ltb; simpl; lia.
Defined.


Example canonical_runs_joins :
  @canonical_runs Z (Z_crate None) [iv 0 1; iv 2 3; iv 5 6; ZBetween (Some (MkBound Open 6)) None] =
  Some [iv 0 3; ZBetween (Some (MkBound Closed 5)) None].
Proof. reflexivity. Qed.

(** A column that holds the greatest key of its type. *)
Lemma single_interval_set_runs_witness :
  let runs := @single_interval_set Z (Z_crate (Some 255)) 255 id [255; 7; 254; 3; 7; 8] in
  runs = [iv 3 3; iv 7 8; iv 254 255] /\
  (forall k, @in_set Z (Z_crate (Some 255)) runs (id k) <-> k ∈ [255; 7; 254; 3; 7; 8]) /\
  @valid Z (Z_crate (Some 255)) runs /\ @separated Z (Z_crate (Some 255)) runs /\
  Forall (fun i => exists lo hi, i = iv lo hi /\ lo ∈ [255; 7; 254; 3; 7; 8] /\ hi ∈ [255; 7; 254; 3; 7; 8]) runs.
Proof.
  split; [reflexivity|].
  apply (single_interval_set_runs (IC := Z_crate (Some 255)) 255 id).
  - reflexivity.
  - intros a. unfold next_key. simpl. by destruct (a <? 255).
Defined.
