(* ===== verification/Guards.v ===== *)
(** * Tilings and guards ([src/interpreter/tiling/guard.rs], [tiling_kind.rs])

    A guard names a region of a tile: which keys of a collection, which parts of what they
    hold, which fields of a record.  A [HashMap] of fields is the list of its entries in name
    order; a panic is [None].  [flatten_or] and [union] call each other, so they are written
    over a record [GOps] of the recursive calls and tied by fuel in [gops], as the predicate
    operations they call are in [Predicate.ops]. *)

From Stdlib Require Import List.
From S2P Require Import Prelude Predicate PredicatePaths.

(** ** Tilings *)

Inductive AggregateKind := Sum | Max | Min | Drain | Sole.

(** [Tiling], over the extents of values. *)
Inductive Tiling (E : Type) :=
  | TScalar (e : E)
  | TRecord (fields : list (string * Tiling E))
  | TDataFunction (domain : E) (codomain : Tiling E)
  | TAggregation (kind : AggregateKind) (accumulator : Tiling E)
  | TStore (domain : E) (codomain : Tiling E).
Arguments TScalar {E} _.
Arguments TRecord {E} _.
Arguments TDataFunction {E} _ _.
Arguments TAggregation {E} _ _.
Arguments TStore {E} _ _.

(** [FunctionGuard], over the guards of the values. *)
Inductive FunctionGuard (P G : Type) := FDomain (p : P) | FCodomain (g : G).
Arguments FDomain {P G} _.
Arguments FCodomain {P G} _.

Section Guards.
Context {K : Type} {KS : KeySets K}.
Abbreviation Predicate := (Predicate K).
Abbreviation Value := (Value K).

Inductive TileGuard :=
  | GScalar (p : Predicate)
  | GRecord (fields : list (string * TileGuard))
  | GFunction (f : FunctionGuard Predicate TileGuard)
  | GAggregation (p : Predicate)
  | GOr (arms : list TileGuard).

(** ** Reading tilings *)

Section Tilings.
Context {E : Type}.

Fixpoint universal_guard (t : Tiling E) : TileGuard :=
  match t with
  | TScalar _ => GScalar PTrue
  | TRecord m => GRecord (map (fun '(k, t) => (k, universal_guard t)) m)
  | TDataFunction _ _ | TStore _ _ => GFunction (FDomain PTrue)
  | TAggregation _ _ => GAggregation PTrue
  end.

Fixpoint empty_guard (t : Tiling E) : TileGuard :=
  match t with
  | TScalar _ => GScalar PFalse
  | TRecord m => GRecord (map (fun '(k, t) => (k, empty_guard t)) m)
  | TDataFunction _ _ | TStore _ _ => GFunction (FDomain PFalse)
  | TAggregation _ _ => GAggregation PFalse
  end.

(** [store_state]. *)
Definition store_state (t : Tiling E) : option (Tiling E) :=
  match t with
  | TStore domain (TRecord keys) =>
      Some (TRecord (map (fun '(k, value) => (k, TDataFunction domain value)) keys))
  | _ => None
  end.

(** [is_scalar]. *)
Fixpoint is_scalar (t : Tiling E) : bool :=
  match t with
  | TScalar _ => true
  | TRecord m => forallb (fun '(_, t) => is_scalar t) m
  | _ => false
  end.

Definition is_data_function (t : Tiling E) : bool :=
  match t with TDataFunction _ _ => true | _ => false end.

(** [holds_a_level]. *)
Fixpoint holds_a_level (t : Tiling E) : bool :=
  match t with
  | TDataFunction _ _ => true
  | TRecord m => existsb (fun '(_, t) => holds_a_level t) m
  | _ => false
  end.

(** [values_at], the level by its index. *)
Fixpoint values_at (t : Tiling E) (level : nat) : option (Tiling E) :=
  match level, t with
  | O, _ => Some t
  | S level, TDataFunction _ codomain => values_at codomain level
  | S _, _ => None
  end.

Fixpoint deepest_values (t : Tiling E) : Tiling E :=
  match t with TDataFunction _ codomain => deepest_values codomain | other => other end.

Fixpoint levels (t : Tiling E) : nat :=
  match t with TDataFunction _ codomain => 1 + levels codomain | _ => 0 end.

(** [append_level]. *)
Fixpoint append_level (t : Tiling E) (domain : E) (codomain : Tiling E) : option (Tiling E) :=
  match t with
  | TDataFunction outer inner =>
      if is_data_function inner then inner ← append_level inner domain codomain; Some (TDataFunction outer inner)
      else Some (TDataFunction outer (TDataFunction domain codomain))
  | _ => None
  end.
End Tilings.

(** ** Reading guards *)

Fixpoint is_universal (g : TileGuard) : bool :=
  match g with
  | GScalar p | GAggregation p => bool_decide (as_bool p = Some true)
  | GRecord m => forallb (fun '(_, g) => is_universal g) m
  | GFunction (FDomain p) => bool_decide (as_bool p = Some true)
  | GFunction (FCodomain g) => is_universal g
  | GOr arms => existsb is_universal arms
  end.

Fixpoint guard_is_empty (g : TileGuard) : bool :=
  match g with
  | GScalar p | GAggregation p => bool_decide (as_bool p = Some false)
  | GRecord m => forallb (fun '(_, g) => guard_is_empty g) m
  | GFunction (FDomain p) => bool_decide (as_bool p = Some false)
  | GFunction (FCodomain g) => guard_is_empty g
  | GOr arms => forallb guard_is_empty arms
  end.

(** [FunctionGuard]'s two tests. *)
Definition function_is_universal (f : FunctionGuard Predicate TileGuard) : bool :=
  match f with FDomain p => bool_decide (as_bool p = Some true) | FCodomain g => is_universal g end.

Definition function_is_empty (f : FunctionGuard Predicate TileGuard) : bool :=
  match f with FDomain p => bool_decide (as_bool p = Some false) | FCodomain g => guard_is_empty g end.

(** [expect_universal_or_empty]. *)
Definition expect_universal_or_empty (g : TileGuard) : option bool :=
  if guard_is_empty g then Some false else if is_universal g then Some true else None.

(** [leaf_rows], with its assertion. *)
Definition leaf_rows (p : Predicate) : option Predicate :=
  let '(enclosing, here) := split_qualification p in
  if is_false here then Some PFalse else if is_true here then Some enclosing else None.

(** [names_a_path]. *)
Fixpoint names_a_path (g : TileGuard) : bool :=
  match g with
  | GFunction (FDomain p) | GScalar p | GAggregation p => qualifies p
  | GFunction (FCodomain g) => names_a_path g
  | GRecord m => existsb (fun '(_, g) => names_a_path g) m
  | GOr arms => existsb names_a_path arms
  end.

(** [covers_at] and [covers_path]. *)
Fixpoint covers_at (g : TileGuard) (path : list Value) (level : nat) : option bool :=
  match g with
  | GOr arms => anyM (fun arm => covers_at arm path level) arms
  | GFunction (FDomain p) =>
      if level <? length path then contains_path p (take (S level) path) else Some false
  | GFunction (FCodomain inner) =>
      if level + 1 <? length path then covers_at inner path (level + 1) else Some (is_universal inner)
  | GRecord m => allM (fun '(_, g) => covers_at g path level) m
  | GScalar p | GAggregation p =>
      rows ← leaf_rows p;
      if is_true rows then Some true
      else if level <=? length path then contains_path rows (take level path) else Some false
  end.

Definition covers_path (g : TileGuard) (path : list Value) : option bool := covers_at g path 0.

(** [CurryLevel::wrap_guard]. *)
Definition wrap_guard (level : nat) (inner : TileGuard) : TileGuard :=
  Nat.iter level (fun g => GFunction (FCodomain g)) inner.

(** [flatten_or]: the chains of codomain steps a guard is the union of. *)
Fixpoint chains (g : TileGuard) : list TileGuard :=
  match g with
  | GOr arms => flat_map chains arms
  | GFunction (FCodomain inner) => map (fun arm => GFunction (FCodomain arm)) (chains inner)
  | other => [other]
  end.

(** [same_place]. *)
Fixpoint same_place (a b : TileGuard) : bool :=
  match a, b with
  | GFunction (FDomain _), GFunction (FDomain _) => true
  | GFunction (FCodomain x), GFunction (FCodomain y) => same_place x y
  | GRecord _, GRecord _ | GScalar _, GScalar _ | GAggregation _, GAggregation _ => true
  | _, _ => false
  end.

(** [domain_at]. *)
Fixpoint domain_at (arm : TileGuard) : option (nat * Predicate) :=
  match arm with
  | GFunction (FDomain p) => Some (0, p)
  | GFunction (FCodomain inner) => '(depth, p) ← domain_at inner; Some (S depth, p)
  | _ => None
  end.

(** [with_domain]. *)
Fixpoint with_domain (arm : TileGuard) (p : Predicate) : option TileGuard :=
  match arm with
  | GFunction (FDomain _) => Some (GFunction (FDomain p))
  | GFunction (FCodomain inner) => inner ← with_domain inner p; Some (GFunction (FCodomain inner))
  | _ => None
  end.

(** [zip_fields]. *)
Definition zip_fields (m1 m2 : list (string * TileGuard))
    (combine : TileGuard -> TileGuard -> option TileGuard) : option (list (string * TileGuard)) :=
  if length m1 =? length m2 then
    mapM (fun '(k, g) => other ← assoc k m2; r ← combine g other; Some (k, r)) m1
  else None.

(** The arms of a predicate. *)
Definition pred_arms (p : Predicate) : list Predicate := match p with POr arms => arms | one => [one] end.

(** [matches!(arm, Predicate::Qualified { here, .. } if here.is_true())], with what encloses it. *)
Definition whole_arm (arm : Predicate) : option Predicate :=
  match arm with PQualified enclosing here => if is_true here then Some enclosing else None | _ => None end.

(** The recursive calls. *)
Record GOps := MkGOps {
  g_flatten : list TileGuard -> option TileGuard;
  g_union : TileGuard -> TileGuard -> option TileGuard
}.

Section Step.
Context (R : GOps) (fuel : nat).

(** ** Normalization *)

(** [whole_under]. *)
Fixpoint whole_under (p : Predicate) : option Predicate :=
  match p with
  | POr arms => rs ← mapM whole_under arms; union_fold fuel rs
  | PQualified enclosing here =>
      Some (if is_true p then PTrue else if is_true here then enclosing else PFalse)
  | p => Some (if is_true p then PTrue else PFalse)
  end.

(** [fold(True, intersect)]. *)
Definition intersect_fold (ps : list Predicate) : option Predicate :=
  foldl (fun acc p => a ← acc; intersect fuel a p) (Some PTrue) ps.

(** [whole_rows]. *)
Fixpoint whole_rows (g : TileGuard) : option Predicate :=
  if is_universal g then Some PTrue
  else if guard_is_empty g then Some PFalse
  else match g with
  | GScalar p | GAggregation p => leaf_rows p
  | GFunction (FDomain p) => whole_under p
  | GFunction (FCodomain inner) => w ← whole_rows inner; whole_under w
  | GRecord m => rs ← mapM (fun '(_, g) => whole_rows g) m; intersect_fold rs
  | GOr arms => rs ← mapM whole_rows arms; union_fold fuel rs
  end.

(** [keep] of [without_covered_keys]. *)
Definition keep (covered : list Predicate) (p : Predicate) : option Predicate :=
  o ← without_covered fuel p covered; Some (default p o).

(** [without_covered_keys]. *)
Fixpoint without_covered_keys (g : TileGuard) (covered : list Predicate) : option TileGuard :=
  match g with
  | GScalar p => p ← keep covered p; Some (GScalar p)
  | GAggregation p => p ← keep covered p; Some (GAggregation p)
  | GFunction (FDomain p) => p ← keep covered p; Some (GFunction (FDomain p))
  | GFunction (FCodomain inner) =>
      inner ← without_covered_keys inner (covered ++ [PFalse]); Some (GFunction (FCodomain inner))
  | GRecord m =>
      m ← mapM (fun '(k, g) => g ← without_covered_keys g covered; Some (k, g)) m; Some (GRecord m)
  | GOr arms => arms ← mapM (fun arm => without_covered_keys arm covered) arms; g_flatten R arms
  end.

(** [lift_record]; [lifted] lifts the keys every field names whole. *)
Definition lift_record (fields : list (string * TileGuard)) (depth : nat)
    (lifted : Predicate -> option (list TileGuard)) : option (list TileGuard) :=
  rs ← mapM (fun '(_, g) => whole_rows g) fields;
  whole ← intersect_fold rs;
  if is_false whole then Some [wrap_guard depth (GRecord fields)]
  else
    let covered := replicate (depth - 1) PFalse ++ [whole] in
    up ← lifted whole;
    rest ← mapM (fun '(k, g) => g ← without_covered_keys g covered; Some (k, g)) fields;
    Some (if guard_is_empty (GRecord rest) then up else up ++ [wrap_guard depth (GRecord rest)]).

(** [lift], of the chain of [depth] codomain steps to [leaf]. *)
Fixpoint lift_at (depth : nat) (leaf : TileGuard) : option (list TileGuard) :=
  match depth with
  | O => Some [leaf]
  | S above =>
      if is_universal leaf then lift_at above (GFunction (FDomain PTrue))
      else match leaf with
      | GFunction (FDomain p) =>
          let arms := pred_arms p in
          let whole := omap whole_arm arms in
          let part := List.filter (fun arm => bool_decide (whole_arm arm = None)) arms in
          match whole with
          | [] => Some [wrap_guard depth leaf]
          | _ =>
              lifted ← mapM (fun enclosing => lift_at above (GFunction (FDomain enclosing))) whole;
              match part with
              | [] => Some (concat lifted)
              | _ => p ← flatten_or (ops fuel) part; Some (concat lifted ++ [wrap_guard depth (GFunction (FDomain p))])
              end
          end
      | GScalar p | GAggregation p =>
          rows ← leaf_rows p;
          if is_false rows then Some [wrap_guard depth leaf]
          else lift_at above (GFunction (FDomain rows))
      | GRecord fields => lift_record fields depth (fun whole => lift_at above (GFunction (FDomain whole)))
      | _ => Some [wrap_guard depth leaf]
      end
  end.

(** The steps of a chain and what it ends in. *)
Fixpoint unwrap (g : TileGuard) : nat * TileGuard :=
  match g with
  | GFunction (FCodomain inner) => let '(d, leaf) := unwrap inner in (S d, leaf)
  | leaf => (0, leaf)
  end.

Definition lift (chain : TileGuard) : option (list TileGuard) :=
  let '(depth, leaf) := unwrap chain in lift_at depth leaf.

(** [union_in_place]. *)
Fixpoint union_in_place (a b : TileGuard) : option TileGuard :=
  match a, b with
  | GFunction (FDomain p), GFunction (FDomain q) => u ← union_of fuel p q; Some (GFunction (FDomain u))
  | GFunction (FCodomain x), GFunction (FCodomain y) => u ← union_in_place x y; Some (GFunction (FCodomain u))
  | GRecord _, GRecord _ | GScalar _, GScalar _ | GAggregation _, GAggregation _ => g_union R a b
  | _, _ => None
  end.

(** [flatten_or]: an arm put with the first of its place. *)
Fixpoint merge_arm (merged : list TileGuard) (arm : TileGuard) : option (list TileGuard) :=
  match merged with
  | [] => Some [arm]
  | g :: merged =>
      if same_place g arm then u ← union_in_place g arm; Some (u :: merged)
      else merged ← merge_arm merged arm; Some (g :: merged)
  end.

(** [without_covered_arms]. *)
Definition without_covered_arms (arms : list TileGuard) : option (list TileGuard) :=
  let depths := omap domain_at arms in
  match depths with
  | [] => Some arms
  | _ =>
      let deepest := foldr Nat.max 0 (map fst depths) in
      let above := foldl (fun above '(depth, p) => <[depth := p]> above) (replicate (S deepest) PFalse) depths in
      pruned ← mapM (fun arm =>
        match domain_at arm with
        | Some (S depth, p) =>
            o ← without_covered fuel p (take (S depth) above);
            match o with Some kept => with_domain arm kept | None => Some arm end
        | _ => Some arm
        end) arms;
      Some (if existsb (fun arm => negb (guard_is_empty arm)) pruned
            then List.filter (fun arm => negb (guard_is_empty arm)) pruned
            else take 1 pruned)
  end.

(** [flatten_or]. *)
Definition flatten_guards (arms : list TileGuard) : option TileGuard :=
  lifted ← mapM lift (flat_map chains arms);
  let flat := concat lifted in
  match List.find is_universal flat with
  | Some everything => Some everything
  | None =>
      let flat :=
        if existsb (fun g => negb (guard_is_empty g)) flat
        then List.filter (fun g => negb (guard_is_empty g)) flat else take 1 flat in
      merged ← foldl (fun acc arm => merged ← acc; merge_arm merged arm) (Some []) flat;
      merged ← without_covered_arms merged;
      match merged with
      | [] => None
      | [one] => Some one
      | _ => Some (GOr merged)
      end
  end.

(** ** Union *)

(** [FunctionGuard::union]: [Some None] where no single arm holds the union. *)
Definition function_union (f1 f2 : FunctionGuard Predicate TileGuard) :
    option (option (FunctionGuard Predicate TileGuard)) :=
  if function_is_empty f1 then Some (Some f2)
  else if function_is_empty f2 then Some (Some f1)
  else if function_is_universal f1 then Some (Some f1)
  else if function_is_universal f2 then Some (Some f2)
  else match f1, f2 with
  | FDomain p1, FDomain p2 => u ← union_of fuel p1 p2; Some (Some (FDomain u))
  | FCodomain g1, FCodomain g2 => u ← g_union R g1 g2; Some (Some (FCodomain u))
  | _, _ => Some None
  end.

(** [TileGuard::union]. *)
Definition union_guards (a b : TileGuard) : option TileGuard :=
  match a, b with
  | GScalar p, GScalar q => u ← union_of fuel p q; Some (GScalar u)
  | GAggregation p, GAggregation q => u ← union_of fuel p q; Some (GAggregation u)
  | GFunction f1, GFunction f2 =>
      u ← function_union f1 f2;
      match u with
      | Some merged => flatten_guards [GFunction merged]
      | None => flatten_guards [a; b]
      end
  | GRecord m1, GRecord m2 => m ← zip_fields m1 m2 (g_union R); Some (GRecord m)
  | GOr arms, g => flatten_guards (arms ++ [g])
  | g, GOr arms => flatten_guards (arms ++ [g])
  | _, _ => None
  end.
End Step.

(** The recursion, to a depth. *)
Fixpoint gops (fuel : nat) : GOps :=
  match fuel with
  | O => MkGOps (fun _ => None) (fun _ _ => None)
  | S fuel => MkGOps (flatten_guards (gops fuel) fuel) (union_guards (gops fuel) fuel)
  end.

Definition guard_flatten_or (fuel : nat) : list TileGuard -> option TileGuard := g_flatten (gops fuel).
Definition guard_union (fuel : nat) : TileGuard -> TileGuard -> option TileGuard := g_union (gops fuel).

(** ** Intersection *)

Section Intersection.
Context (fuel : nat).

(** [require_level]: [pred] describes the keys of level [own]; [own - 1] below level 0 panics. *)
Fixpoint require_level (p : Predicate) (at_ own : nat) (pred : Predicate) {struct own} : option Predicate :=
  (fix arms_of pred := match pred with
    | POr arms => rs ← mapM arms_of arms; flatten_or (ops fuel) rs
    | _ =>
        let '(enclosing, here) := split_qualification pred in
        if own =? at_ + 1 then e ← intersect fuel enclosing p; Some (qualified e here)
        else match own with
        | O => None
        | S own => e ← require_level p at_ own enclosing; Some (qualified e here)
        end
    end) pred.

(** [require_at]. *)
Fixpoint require_at (g : TileGuard) (p : Predicate) (at_ level : nat) : option TileGuard :=
  match g with
  | GFunction (FDomain pred) => r ← require_level p at_ level pred; Some (GFunction (FDomain r))
  | GFunction (FCodomain inner) => r ← require_at inner p at_ (level + 1); Some (GFunction (FCodomain r))
  | GOr arms => rs ← mapM (fun arm => require_at arm p at_ level) arms; guard_flatten_or fuel rs
  | GRecord m => m ← mapM (fun '(k, g) => g ← require_at g p at_ level; Some (k, g)) m; Some (GRecord m)
  | GScalar pred => r ← require_level p at_ level pred; Some (GScalar r)
  | GAggregation pred => r ← require_level p at_ level pred; Some (GAggregation r)
  end.

(** [FunctionGuard::intersect_at]; [rec] intersects guards. *)
Definition function_intersect_at (rec : TileGuard -> TileGuard -> nat -> option TileGuard)
    (f1 f2 : FunctionGuard Predicate TileGuard) (level : nat) : option (FunctionGuard Predicate TileGuard) :=
  if function_is_empty f1 then Some f1
  else if function_is_empty f2 then Some f2
  else if function_is_universal f1 then Some f2
  else if function_is_universal f2 then Some f1
  else match f1, f2 with
  | FDomain p1, FDomain p2 => r ← intersect fuel p1 p2; Some (FDomain r)
  | FCodomain g1, FCodomain g2 => r ← rec g1 g2 (level + 1); Some (FCodomain r)
  | FDomain p, FCodomain g | FCodomain g, FDomain p => r ← require_at g p level (level + 1); Some (FCodomain r)
  end.
End Intersection.

(** [TileGuard::intersect_at]. *)
Fixpoint intersect_at (fuel : nat) (a b : TileGuard) (level : nat) : option TileGuard :=
  match fuel with
  | O => None
  | S fuel =>
      match a, b with
      | GScalar p, GScalar q => r ← intersect fuel p q; Some (GScalar r)
      | GAggregation p, GAggregation q => r ← intersect fuel p q; Some (GAggregation r)
      | GFunction f1, GFunction f2 => r ← function_intersect_at fuel (intersect_at fuel) f1 f2 level; Some (GFunction r)
      | GRecord m1, GRecord m2 => m ← zip_fields m1 m2 (fun a b => intersect_at fuel a b level); Some (GRecord m)
      | GOr arms, g => rs ← mapM (fun a => intersect_at fuel a g level) arms; guard_flatten_or fuel rs
      | g, GOr arms => rs ← mapM (fun a => intersect_at fuel a g level) arms; guard_flatten_or fuel rs
      | _, _ => None
      end
  end.

Definition guard_intersect (fuel : nat) (a b : TileGuard) : option TileGuard := intersect_at fuel a b 0.

(** ** Restating a guard *)

(** [whole_keys]. *)
Definition whole_keys (fuel : nat) (g : TileGuard) : option Predicate :=
  n ← guard_flatten_or fuel [g];
  match n with
  | GFunction (FDomain p) => Some p
  | GOr arms =>
      foldl (fun acc arm => a ← acc; match arm with GFunction (FDomain p) => union_of fuel a p | _ => Some a end)
        (Some PFalse) arms
  | n => Some (if is_universal n then PTrue else PFalse)
  end.

(** [released_cells]. *)
Fixpoint released_walk (fuel : nat) (g : TileGuard) (under_a_level : bool) : option TileGuard :=
  match g with
  | GFunction (FCodomain inner) => r ← released_walk fuel inner true; Some (GFunction (FCodomain r))
  | GRecord m =>
      m ← mapM (fun '(k, field) =>
        r ← match field with
            | GScalar p => Some (if under_a_level then field else GScalar PFalse)
            | other => released_walk fuel other under_a_level
            end;
        Some (k, r)) m;
      Some (GRecord m)
  | GOr arms => rs ← mapM (fun arm => released_walk fuel arm under_a_level) arms; guard_flatten_or fuel rs
  | GFunction (FDomain _) => Some (GFunction (FDomain PFalse))
  | GScalar _ => Some (GScalar PFalse)
  | GAggregation _ => Some (GAggregation PFalse)
  end.

Definition released_cells (fuel : nat) (g : TileGuard) : option (option TileGuard) :=
  part ← released_walk fuel g false;
  Some (if guard_is_empty part then None else Some part).

(** [map_level_predicates], with a function that keeps no state. *)
Fixpoint map_level_predicates (fuel : nat) (f : nat -> Predicate -> Predicate) (g : TileGuard) (depth : nat) : option TileGuard :=
  match g with
  | GFunction (FDomain p) => Some (GFunction (FDomain (f depth p)))
  | GFunction (FCodomain inner) => r ← map_level_predicates fuel f inner (depth + 1); Some (GFunction (FCodomain r))
  | GRecord m => m ← mapM (fun '(k, g) => g ← map_level_predicates fuel f g depth; Some (k, g)) m; Some (GRecord m)
  | GOr arms => rs ← mapM (fun arm => map_level_predicates fuel f arm depth) arms; guard_flatten_or fuel rs
  | GScalar p => Some (if qualifies p then GScalar (f depth p) else g)
  | GAggregation p => Some (if qualifies p then GAggregation (f depth p) else g)
  end.

Section Standing.
Context {E : Type} (fuel : nat) (beneath : TileGuard -> option TileGuard).

(** [through_standing_levels]: the walk, and the restated guard. *)
Fixpoint standing_walk (g : TileGuard) (remaining : nat) {struct g} : option TileGuard :=
  match remaining with
  | O => beneath g
  | S remaining =>
      match g with
      | GFunction (FCodomain inner) => r ← standing_walk inner remaining; Some (GFunction (FCodomain r))
      | keys => Some keys
      end
  end.

Definition through_standing_levels (g : TileGuard) (levels : nat) (input : Tiling E) : option TileGuard :=
  n ← guard_flatten_or fuel [g];
  if guard_is_empty n then Some (empty_guard input)
  else if is_universal n then Some (universal_guard input)
  else
    rs ← mapM (fun arm => standing_walk arm levels) (match n with GOr arms => arms | arm => [arm] end);
    restated ← guard_flatten_or fuel rs;
    Some (if guard_is_empty restated then empty_guard input else restated).
End Standing.

(** [through_shared_levels]. *)
Definition through_shared_levels {E} (fuel : nat) (g : TileGuard) (levels : nat) (input : Tiling E) : option TileGuard :=
  through_standing_levels fuel (fun beneath =>
    values ← values_at input levels;
    Some (if is_universal beneath then universal_guard values else empty_guard values)) g levels input.
End Guards.
Arguments TileGuard K {KS}.
