(* ===== verification/GuardSem.v ===== *)
(** * The region a guard names

    A tile of a tiling has cells: a key per collection level, a name per record, down to a
    value.  [names] says which cells a guard names, [wfg] which guards belong to a tiling
    below the levels of a domain.  The tests [is_universal] and [is_empty] are sound for the
    region, and the chains of a guard name its region together. *)

From Stdlib Require Import List Btauto.
From S2P Require Import Prelude Predicate PredicateSem Returns KeyMaps.
From S2P Require Import PredicateParts PredicateProducts PredicateAlgebra PredicatePaths PredicatePathFacts.
From S2P Require Import Guards.
Set Warnings "-clear-no-such-hyp".

Section GuardSemantics.
Context {K : Type} {KS : KeySets K} {KL : KeySetLaws K KS}.
Abbreviation Predicate := (Predicate K).
Abbreviation Value := (Value K).
Abbreviation TileGuard := (TileGuard K).
Abbreviation Tiling := (Tiling Shape).

(** ** Cells *)

Inductive Step := SKey (k : Value) | SField (name : string).

Fixpoint cell_of (t : Tiling) (c : list Step) : Prop :=
  match t with
  | TScalar _ | TAggregation _ _ => c = []
  | TRecord fs =>
      match c with
      | SField f :: c =>
          (fix go fs := match fs with
            | [] => False
            | (n, t) :: fs => if decide (f = n) then cell_of t c else go fs
            end) fs
      | _ => False
      end
  | TDataFunction sh t =>
      match c with SKey k :: c => has_shape sh k /\ cell_of t c | _ => False end
  | TStore sh _ => match c with [SKey k] => has_shape sh k | _ => False end
  end.

(** The cells a guard names, under the keys [rp] above it, innermost first. *)
Fixpoint names (g : TileGuard) (rp : list Value) (c : list Step) : bool :=
  match g with
  | GScalar p | GAggregation p => den p (VUnit :: rp)
  | GRecord m =>
      match c with
      | SField f :: c =>
          (fix go m := match m with
            | [] => false
            | (n, g) :: m => if decide (f = n) then names g rp c else go m
            end) m
      | _ => false
      end
  | GFunction (FDomain p) => match c with SKey k :: _ => den p (k :: rp) | _ => false end
  | GFunction (FCodomain g) => match c with SKey k :: c => names g (k :: rp) c | _ => false end
  | GOr arms => existsb (fun a => names a rp c) arms
  end.

(** ** Guards of a tiling *)

(** A keyless leaf names its one cell under every path, under none, or under those of a predicate. *)
Definition leaf_ok (D : Domain) (p : Predicate) : Prop :=
  p = PTrue \/ p = PFalse \/ exists e, p = PQualified e PTrue /\ wf D e /\ is_true e = false /\ is_false e = false.

Lemma leaf_wf D p : leaf_ok D p -> wf (SUnit :: D) p.
Proof. by intros [->|[->|(e & -> & ? & ? & ?)]]. Qed.

Fixpoint wfg (D : Domain) (t : Tiling) (g : TileGuard) {struct g} : Prop :=
  match g with
  | GScalar p => match t with TScalar _ => leaf_ok D p | _ => False end
  | GAggregation p => match t with TAggregation _ _ => leaf_ok D p | _ => False end
  | GFunction (FDomain p) =>
      match t with TDataFunction sh _ | TStore sh _ => wf (sh :: D) p | _ => False end
  | GFunction (FCodomain g) =>
      match t with TDataFunction sh t => wfg (sh :: D) t g | _ => False end
  | GRecord m =>
      match t with
      | TRecord fs =>
          NoDup (map fst fs) /\
          (fix go m fs := match m, fs with
            | [], [] => True
            | (n, g) :: m, (n', t) :: fs => n = n' /\ wfg D t g /\ go m fs
            | _, _ => False
            end) m fs
      | _ => False
      end
  | GOr arms =>
      arms <> [] /\ (fix go arms := match arms with [] => True | a :: arms => wfg D t a /\ go arms end) arms
  end.

Lemma wfg_record D m fs :
  wfg D (TRecord fs) (GRecord m) <->
  NoDup (map fst fs) /\ Forall2 (fun ng nt => ng.1 = nt.1 /\ wfg D nt.2 ng.2) m fs.
Proof.
  simpl. f_equiv. revert fs. induction m as [|[n g] m IH]; intros [|[n' t] fs]; simpl.
  - split; [constructor|done].
  - split; [done|]. intros H. inversion H.
  - split; [done|]. intros H. inversion H.
  - rewrite IH, Forall2_cons. simpl. tauto.
Qed.

Lemma wfg_or D t arms : wfg D t (GOr arms) <-> arms <> [] /\ Forall (wfg D t) arms.
Proof.
  simpl. f_equiv. induction arms as [|a arms IH]; [split; [constructor|done]|]. rewrite IH, Forall_cons. done.
Qed.

Lemma names_record m rp f c :
  names (GRecord m) rp (SField f :: c) = match assoc f m with Some g => names g rp c | None => false end.
Proof. simpl. induction m as [|[n g] m IH]; simpl; [done|]. by destruct (decide (f = n)). Qed.

Lemma cell_record fs c :
  cell_of (TRecord fs) c <-> exists f c' t, c = SField f :: c' /\ assoc f fs = Some t /\ cell_of t c'.
Proof.
  simpl. destruct c as [|[k|f] c].
  1, 2: split; [done|]; intros (? & ? & ? & ? & _); done.
  induction fs as [|[n t] fs IH]; simpl.
  - split; [done|]. intros (? & ? & ? & _ & ? & _). done.
  - destruct (decide (f = n)) as [->|Hne].
    + split; [|intros (f & c' & t' & [= <- <-] & H & Hc)].
      * intros Hc. exists n, c, t. by rewrite decide_True.
      * rewrite decide_True in H by done. by simplify_eq.
    + rewrite IH. f_equiv. intros f'. f_equiv. intros c'. f_equiv. intros t'.
      split; intros ([= <- <-] & H & Hc); [|]; (split; [done|]); rewrite decide_False in * by done; done.
Qed.

(** ** Induction *)

Section Induction.
Context (P : TileGuard -> Prop).
Context (Hscalar : forall p, P (GScalar p)) (Haggregation : forall p, P (GAggregation p)).
Context (Hrec : forall m, Forall (fun ng => P ng.2) m -> P (GRecord m)).
Context (Hdom : forall p, P (GFunction (FDomain p))).
Context (Hcod : forall g, P g -> P (GFunction (FCodomain g))).
Context (Hor : forall arms, Forall P arms -> P (GOr arms)).

Fixpoint guard_ind (g : TileGuard) : P g :=
  match g with
  | GScalar p => Hscalar p
  | GAggregation p => Haggregation p
  | GRecord m =>
      Hrec m ((fix go m : Forall (fun ng => P ng.2) m :=
        match m with
        | [] => List.Forall_nil _
        | ng :: m => List.Forall_cons _ ng m (guard_ind ng.2) (go m)
        end) m)
  | GFunction (FDomain p) => Hdom p
  | GFunction (FCodomain g) => Hcod g (guard_ind g)
  | GOr arms =>
      Hor arms ((fix go arms : Forall P arms :=
        match arms with
        | [] => List.Forall_nil _
        | a :: arms => List.Forall_cons _ a arms (guard_ind a) (go arms)
        end) arms)
  end.
End Induction.

(** The record guard's field at a field of the tiling. *)
Lemma record_guard_field D m fs f t :
  wfg D (TRecord fs) (GRecord m) -> assoc f fs = Some t -> exists g, assoc f m = Some g /\ wfg D t g /\ (f, g) ∈ m.
Proof.
  rewrite wfg_record. intros [_ H]. induction H as [|[n g] [n' t'] m fs [En Hg] _ IH]; [done|]. simpl in *. subst n'.
  destruct (decide (f = n)) as [->|].
  - intros [= <-]. exists g. split; [done|]. split; [done|]. apply list_elem_of_here.
  - intros Ht. destruct (IH Ht) as (g' & ? & ? & ?). exists g'. split; [done|]. split; [done|]. by apply list_elem_of_further.
Qed.

Lemma typed_unit D rp : typed D rp -> typed (SUnit :: D) (VUnit :: rp).
Proof. by constructor. Qed.

Lemma forallb_snd {A B} (f : B -> bool) (m : list (A * B)) :
  forallb (fun '(_, g) => f g) m = forallb (fun ng => f ng.2) m.
Proof. induction m as [|[n g] m IH]; simpl; [done|]. congruence. Qed.

(** ** The two tests *)

Lemma universal_sound D t g rp c :
  wfg D t g -> is_universal g = true -> typed D rp -> cell_of t c -> names g rp c = true.
Proof.
  revert D t rp c. induction g as [p|p|m IH|p|g IH|arms IH] using guard_ind; intros D t rp c Hw Hu Hrp Hc.
  - destruct t; try done. apply leaf_wf in Hw. apply bool_decide_eq_true in Hu.
    apply (reads_true _ _ (wf_reads _ _ Hw)); [by apply is_true_spec|by apply typed_unit].
  - destruct t; try done. apply leaf_wf in Hw. apply bool_decide_eq_true in Hu.
    apply (reads_true _ _ (wf_reads _ _ Hw)); [by apply is_true_spec|by apply typed_unit].
  - destruct t as [|fs| | |]; try done. apply cell_record in Hc as (f & c' & t & -> & Ht & Hc).
    destruct (record_guard_field D m fs f t Hw Ht) as (g & Hg & Hwg & Hin). rewrite names_record, Hg.
    simpl in Hu. rewrite forallb_snd, forallb_true_iff, Forall_forall in Hu. rewrite Forall_forall in IH.
    by apply (IH (f, g) Hin D t rp c' Hwg (Hu (f, g) Hin)).
  - apply bool_decide_eq_true in Hu.
    assert (H : forall sh k, wf (sh :: D) p -> has_shape sh k -> den p (k :: rp) = true).
    { intros sh k Hp Hk. apply (reads_true _ _ (wf_reads _ _ Hp)); [by apply is_true_spec|by constructor]. }
    destruct t; try done; simpl in *; destruct c as [|[k|] [|? ?]]; try done; [..|by eapply H]; destruct Hc; by eapply H.
  - destruct t as [| |sh t| |]; try done. destruct c as [|[k|] c]; try done. destruct Hc as [Hk Hc].
    simpl. apply (IH (sh :: D) t); [done..|by constructor|done].
  - apply wfg_or in Hw as [_ Hw]. simpl in *. apply existsb_true_iff in Hu as (a & Ha & Hu).
    apply existsb_true_iff. exists a. split; [done|]. rewrite Forall_forall in IH, Hw. by apply (IH a Ha D t); [apply Hw|..].
Qed.

Lemma empty_sound D t g rp c :
  wfg D t g -> guard_is_empty g = true -> typed D rp -> cell_of t c -> names g rp c = false.
Proof.
  revert D t rp c. induction g as [p|p|m IH|p|g IH|arms IH] using guard_ind; intros D t rp c Hw Hu Hrp Hc.
  - destruct t; try done. apply leaf_wf in Hw. apply bool_decide_eq_true in Hu.
    apply (reads_false _ _ (wf_reads _ _ Hw)); [by apply is_false_spec|by apply typed_unit].
  - destruct t; try done. apply leaf_wf in Hw. apply bool_decide_eq_true in Hu.
    apply (reads_false _ _ (wf_reads _ _ Hw)); [by apply is_false_spec|by apply typed_unit].
  - destruct t as [|fs| | |]; try done. apply cell_record in Hc as (f & c' & t & -> & Ht & Hc).
    destruct (record_guard_field D m fs f t Hw Ht) as (g & Hg & Hwg & Hin). rewrite names_record, Hg.
    simpl in Hu. rewrite forallb_snd, forallb_true_iff, Forall_forall in Hu. rewrite Forall_forall in IH.
    by apply (IH (f, g) Hin D t rp c' Hwg (Hu (f, g) Hin)).
  - apply bool_decide_eq_true in Hu.
    assert (H : forall sh k, wf (sh :: D) p -> has_shape sh k -> den p (k :: rp) = false).
    { intros sh k Hp Hk. apply (reads_false _ _ (wf_reads _ _ Hp)); [by apply is_false_spec|by constructor]. }
    destruct t; try done; simpl in *; destruct c as [|[k|] [|? ?]]; try done; [..|by eapply H]; destruct Hc; by eapply H.
  - destruct t as [| |sh t| |]; try done. destruct c as [|[k|] c]; try done. destruct Hc as [Hk Hc].
    simpl. apply (IH (sh :: D) t); [done..|by constructor|done].
  - apply wfg_or in Hw as [_ Hw]. simpl in *. rewrite forallb_true_iff in Hu. apply existsb_false_iff.
    rewrite Forall_forall in *. intros a Ha. by apply (IH a Ha D t); [apply Hw|apply Hu|..].
Qed.
End GuardSemantics.
