(* ===== verification/GuardFacts.v ===== *)
(** * The parts of guard normalization

    Leaves, the keys a guard names whole, a guard less what is covered above it, and the
    chains of codomain steps: what each says of the region it is given. *)

From Stdlib Require Import List Btauto.
From S2P Require Import Prelude Predicate PredicateSem Returns KeyMaps.
From S2P Require Import PredicateParts PredicateProducts PredicateAlgebra PredicatePaths PredicatePathFacts.
From S2P Require Import Guards GuardSem.
Set Warnings "-clear-no-such-hyp".

Section GuardFacts.
Context {K : Type} {KS : KeySets K} {KL : KeySetLaws K KS}.
Abbreviation Predicate := (Predicate K).
Abbreviation Value := (Value K).
Abbreviation TileGuard := (TileGuard K).
Abbreviation Tiling := (Tiling Shape).

(** A guard of the tiling with a given region. *)
Definition SemG (D : Domain) (t : Tiling) (f : list Value -> list Step -> bool) (g : TileGuard) : Prop :=
  wfg D t g /\ forall rp c, typed D rp -> cell_of t c -> names g rp c = f rp c.

Definition any_names (gs : list TileGuard) (rp : list Value) (c : list Step) : bool := existsb (fun g => names g rp c) gs.

(** Two facts of one computation. *)
Lemma returns_and {A} (f : nat -> option A) (P Q : A -> Prop) :
  returns f P -> returns f Q -> returns f (fun a => P a /\ Q a).
Proof.
  intros (N & a & Ha & Hn) (M & b & Hb & Hm). exists (Nat.max N M), a.
  assert (a = b) as -> by (specialize (Hn (Nat.max N M)); specialize (Hm (Nat.max N M)); rewrite Hm in Hn by lia;
    injection Hn; [done|lia]).
  split; [done|]. intros n Hle. apply Hm. lia.
Qed.

(** ** Leaves *)

Lemma leaf_rows_ok D p :
  D <> [] -> leaf_ok D p -> exists e, leaf_rows p = Some e /\ wf D e /\ forall rp, typed D rp -> den p (VUnit :: rp) = den e rp.
Proof.
  intros HD [->|[->|(e & -> & He & _)]].
  - exists PTrue. split; [done|]. by destruct D.
  - exists PFalse. split; [done|]. by destruct D.
  - exists e. split; [done|]. split; [done|]. intros rp Hrp. simpl. apply andb_true_r.
Qed.

Lemma qualified_leaf D e : wf D e -> leaf_ok D (qualified e PTrue) /\
  forall rp, typed D rp -> den (qualified e PTrue) (VUnit :: rp) = den e rp.
Proof.
  intros He. unfold qualified. destruct (is_false e) eqn:Ef; simpl; [|destruct (is_true e) eqn:Et].
  - split; [by right; left|]. intros rp Hrp. by rewrite (reads_false _ _ (wf_reads _ _ He) Ef).
  - split; [by left|]. intros rp Hrp. by rewrite (reads_true _ _ (wf_reads _ _ He) Et).
  - split; [right; right; by exists e|]. intros rp Hrp. simpl. apply andb_true_r.
Qed.

Lemma build_leaf (e : Predicate) : build CQualified [e; PTrue] = Some (qualified e PTrue).
Proof. unfold build, qualified. simpl. by destruct (is_false e). Qed.

(** A leaf with a region. *)
Definition SemL (D : Domain) (f : list Value -> bool) (p : Predicate) : Prop :=
  leaf_ok D p /\ forall rp, typed D rp -> den p (VUnit :: rp) = f rp.

Definition leaf_den (p : Predicate) (rp : list Value) : bool := den p (VUnit :: rp).

Lemma leaf_union D p q :
  leaf_ok D p -> leaf_ok D q -> returns (fun n => union_of n p q) (SemL D (fun rp => leaf_den p rp || leaf_den q rp)).
Proof.
  intros Hp Hq. apply step_union. unfold SemL, leaf_den. pose proof Hp as Hp'. pose proof Hq as Hq'.
  destruct Hp as [->|[->|(e1 & -> & H1 & Ht1 & Hf1)]], Hq as [->|[->|(e2 & -> & H2 & Ht2 & Hf2)]];
    try (apply returns_const; split; [done|]; intros rp Hrp; simpl; btauto).
  simpl. unfold cw_join, differing. simpl.
  eapply (returns_bind _ _ (fun j => exists r, j = Some r /\ SemL D (fun rp => den e1 rp || den e2 rp) r)).
  2:{ intros j (r & -> & Hr & Hd). apply returns_const. split; [done|]. intros rp Hrp. rewrite Hd by done. simpl. btauto. }
  eapply (returns_bind _ _ (fun d => d = [0] \/ d = [] /\ forall rp, typed D rp -> den e1 rp = den e2 rp)).
  - eapply returns_bind; [by apply (key_same_region D e1 e2)|]. intros [] Hs; apply returns_const; [right|by left].
    done.
  - intros d [->|[-> Hs]].
    + simpl. eapply returns_bind; [by apply (key_union D e1 e2)|]. intros r [Hr Hd].
      change (insert 0 r [e1; PTrue]) with [r; PTrue]. rewrite build_leaf. apply returns_const.
      destruct (qualified_leaf D r Hr) as [Hl Hden]. eexists. split; [done|]. split; [done|]. intros rp Hrp. by rewrite Hden, Hd.
    + rewrite build_leaf. apply returns_const. destruct (qualified_leaf D e1 H1) as [Hl Hden].
      eexists. split; [done|]. split; [done|]. intros rp Hrp. rewrite Hden, <- Hs by done. btauto.
Qed.

Lemma leaf_intersect D p q :
  leaf_ok D p -> leaf_ok D q -> returns (fun n => intersect n p q) (SemL D (fun rp => leaf_den p rp && leaf_den q rp)).
Proof.
  intros Hp Hq. apply step_intersect. unfold SemL, leaf_den. pose proof Hp as Hp'. pose proof Hq as Hq'.
  destruct Hp as [->|[->|(e1 & -> & H1 & Ht1 & Hf1)]], Hq as [->|[->|(e2 & -> & H2 & Ht2 & Hf2)]];
    try (apply returns_const; split; [done|]; intros rp Hrp; simpl; btauto).
  simpl. unfold cw_meet. simpl. eapply (returns_bind _ _ (fun ps => exists r, ps = [r; PTrue] /\ Sem D (meet_of e1 e2) r)).
  - eapply returns_bind; [by apply (key_intersect D e1 e2)|]. intros r Hr.
    apply (returns_step _ (fun _ => Some [r; PTrue])); [done|]. apply returns_const. eauto.
  - intros ps (r & -> & Hr & Hd). rewrite build_leaf. apply returns_const.
    destruct (qualified_leaf D r Hr) as [Hl Hden]. split; [done|]. intros rp Hrp. rewrite Hden, Hd by done.
    unfold meet_of. btauto.
Qed.

(** ** Less what is covered above *)

(** The keys covered at the levels above [D]: at most one predicate per level, outermost first. *)
Definition covers_ok (D : Domain) (covered : list Predicate) : Prop :=
  D <> [] /\ length covered <= length D /\
  forall level whole, covered !! level = Some whole -> wf (drop (length covered - 1 - level) D) whole.

Lemma covers_ok_deeper D covered sh : covers_ok D covered -> covers_ok (sh :: D) (covered ++ [PFalse]).
Proof.
  intros (HD & Hlen & Hw). split; [done|]. rewrite length_app. simpl. split; [lia|]. intros level whole Hl.
  destruct (decide (level < length covered)) as [Hlt|Hge].
  - rewrite lookup_app_l in Hl by done. specialize (Hw level whole Hl).
    by replace (length covered + 1 - 1 - level) with (S (length covered - 1 - level)) by lia.
  - rewrite lookup_app_r in Hl by lia. apply list_lookup_singleton_Some in Hl as [Hz <-].
    by replace (length covered + 1 - 1 - level) with 0 by lia.
Qed.

Lemma covered_by_deeper covered k rp : covered_by (covered ++ [PFalse]) (k :: rp) = covered_by covered rp.
Proof.
  unfold covered_by. rewrite imap_app, existsb_app, length_app. simpl. rewrite !orb_false_r.
  apply eq_true_iff_eq. rewrite !existsb_true_iff. split; intros ([level whole] & Hl & Hd); exists (level, whole);
    (split; [done|]); simpl in *; apply elem_of_imap_pair, lookup_lt_Some in Hl;
    replace (length covered + 1 - 1 - level) with (S (length covered - 1 - level)) in * by lia; done.
Qed.

Lemma keep_ok sh D p covered :
  covers_ok D covered -> wf (sh :: D) p ->
  returns (fun n => keep n covered p) (fun r => wf (sh :: D) r /\ forall k rp, typed (sh :: D) (k :: rp) ->
    (den r (k :: rp) = true -> den p (k :: rp) = true) /\
    (den p (k :: rp) = true -> covered_by covered rp = false -> den r (k :: rp) = true)).
Proof.
  intros (HD & Hlen & Hw) Hp. unfold keep. eapply returns_bind; [by apply (without_covered_ok sh D)|].
  intros [r|] Hr; apply returns_const; [by apply Hr|]. by split.
Qed.

Lemma keep_leaf D p covered : covers_ok D covered -> leaf_ok D p -> returns (fun n => keep n covered p) (leaf_ok D).
Proof.
  intros (HD & Hlen & Hw) Hp. unfold keep, without_covered.
  eapply (returns_bind _ _ (fun o => forall r, o = Some r -> leaf_ok D r));
    [|intros [r|] Hr; apply returns_const; [by apply Hr|done]].
  eapply returns_bind; [by apply (covered_ok D)|]. intros c [Hc Hcd].
  destruct (is_false c) eqn:Ec; [by apply returns_const|].
  assert (Harms : match p with POr arms => arms | one => [one] end = [p]).
  { by destruct Hp as [->|[->|(e & -> & _)]]. }
  rewrite Harms. eapply (returns_bind _ _ (fun kept => exists r, kept = [r] /\ leaf_ok D r)).
  - assert (Hunq : forall q, leaf_ok D q -> returns (fun n => all ← subsumes n c PTrue; Some (if (all : bool) then PFalse else q)) (leaf_ok D)).
    { intros q Hq. eapply returns_bind; [apply (key_subsumes D c PTrue); [done|by destruct D]|].
      intros [] _; apply returns_const; [by right; left|done]. }
    simpl. eapply (returns_bind _ _ (leaf_ok D)); [|intros r Hr; apply returns_const; eauto].
    destruct Hp as [->|[->|(e & -> & He & _)]]; [apply Hunq; by left|apply Hunq; by right; left|].
    eapply returns_bind; [by apply (key_minus D e c)|]. intros r [Hr _]. apply returns_const. by apply qualified_leaf.
  - intros kept (r & -> & Hr). eapply (returns_bind _ _ (leaf_ok D)).
    + simpl. destruct (is_false r); simpl; [apply returns_const; by right; left|].
      eapply returns_ext; [|by apply (returns_const r)]. intros n. symmetry. apply flatten_one.
      by destruct Hr as [->|[->|(e & -> & _)]].
    + intros k Hk. apply returns_const. intros r'. destruct (pred_eqb k p); [done|]. by intros [= <-].
Qed.

Lemma keep_leaf_ok D p covered :
  covers_ok D covered -> leaf_ok D p ->
  returns (fun n => keep n covered p) (fun r => leaf_ok D r /\ forall rp, typed D rp ->
    (leaf_den r rp = true -> leaf_den p rp = true) /\
    (leaf_den p rp = true -> covered_by covered rp = false -> leaf_den r rp = true)).
Proof.
  intros Hc Hp. eapply returns_impl; [apply returns_and; [by apply keep_leaf|by apply (keep_ok SUnit D), leaf_wf]|].
  intros r [Hl [_ Hr]]. split; [done|]. intros rp Hrp. by apply Hr, typed_unit.
Qed.

(** ** The keys named whole *)

Lemma whole_under_ok sh D p :
  D <> [] -> wf (sh :: D) p ->
  returns (fun n => whole_under n p) (fun w => wf D w /\
    forall k rp, typed (sh :: D) (k :: rp) -> den w rp = true -> den p (k :: rp) = true).
Proof.
  intros HD. assert (HT : wf D PTrue) by (by destruct D). assert (HF : wf D PFalse) by (by destruct D).
  induction p as [| | | |arms IH| |e h] using pred_ind; intros Hw.
  5:{ assert (Hall : Forall (wf (sh :: D)) arms).
      { apply Forall_forall. intros a Ha. by apply (wf_arm _ a arms). }
      eapply returns_bind; [apply (returns_mapM _ (fun a w => wf D w /\
        forall k rp, typed (sh :: D) (k :: rp) -> den w rp = true -> den a (k :: rp) = true))|].
      { rewrite Forall_forall in *. intros a Ha. by apply IH; [|apply Hall]. }
      intros rs Hrs. eapply returns_impl; [apply (union_fold_ok D rs HD)|].
      { apply Forall_forall. intros r (i & Hi)%list_elem_of_lookup.
        by destruct (Forall2_lookup_r _ _ _ _ _ Hrs Hi) as (a & _ & ? & _). }
      intros w [Hww Hd]. split; [done|]. intros k rp Ht. inversion Ht; subst. rewrite Hd by done. unfold any_den.
      rewrite existsb_true_iff. intros (r & (i & Hi)%list_elem_of_lookup & Hr).
      destruct (Forall2_lookup_r _ _ _ _ _ Hrs Hi) as (a & Ha & _ & Har). simpl. apply existsb_true_iff.
      exists a. split; [by eapply list_elem_of_lookup_2|]. by apply Har. }
  6:{ apply returns_const. rewrite is_true_qualified. destruct Hw as (He & Hh & _). destruct (is_true h) eqn:Eh; [|done].
      split; [done|]. intros k rp Ht Hd. simpl. rewrite Hd. inversion Ht; subst.
      by rewrite (reads_true _ _ (wf1_reads _ _ Hh) Eh [k]) by (by repeat constructor). }
  all: apply returns_const; match goal with |- context [is_true ?q] => destruct (is_true q) eqn:Eq end; [|done];
    (split; [done|]); intros k rp Ht _; by apply (reads_true _ _ (wf_reads _ _ Hw) Eq).
Qed.

Lemma intersect_fold_ok D ps :
  D <> [] -> Forall (wf D) ps -> returns (fun n => intersect_fold n ps) (Sem D (fun rp => forallb (fun p => den p rp) ps)).
Proof.
  intros HD Hps. unfold intersect_fold. eapply returns_impl;
    [apply (returns_foldl (fun n a p => intersect n a p)
       (fun left a => wf D a /\ exists done_, done_ ++ left = ps /\
          forall rp, typed D rp -> den a rp = forallb (fun p => den p rp) done_))|].
  - split; [by destruct D|]. by exists [].
  - intros x left a (Ha & done_ & E & Hd).
    assert (wf D x) as Hx.
    { eapply (proj1 (Forall_forall _ _) Hps). rewrite <- E. apply elem_of_app. right. left. }
    eapply returns_impl; [by apply (key_intersect D)|]. intros r [Hw Hr].
    split; [done|]. exists (done_ ++ [x]). split; [by rewrite <- app_assoc|].
    intros rp Hrp. rewrite Hr by done. unfold meet_of. rewrite Hd by done. rewrite forallb_app. simpl. btauto.
  - intros a (Ha & done_ & E & Hd). rewrite app_nil_r in E. subst. by split.
Qed.

(** What the rows a guard names whole say of its region. *)
Definition WholeOf (D : Domain) (t : Tiling) (g : TileGuard) (w : Predicate) : Prop :=
  wf D w /\ forall rp c, typed D rp -> cell_of t c -> den w rp = true -> names g rp c = true.

Lemma whole_rows_unfold n g : whole_rows n g =
  if is_universal g then Some PTrue
  else if guard_is_empty g then Some PFalse
  else match g with
  | GScalar p | GAggregation p => leaf_rows p
  | GFunction (FDomain p) => whole_under n p
  | GFunction (FCodomain inner) => w ← whole_rows n inner; whole_under n w
  | GRecord m => rs ← mapM (fun '(_, g) => whole_rows n g) m; intersect_fold n rs
  | GOr arms => rs ← mapM (whole_rows n) arms; union_fold n rs
  end.
Proof. by destruct g as [| |[]| |]. Qed.

(** A field of a record guard, with the tiling of that name. *)
Lemma field_tiling D m fs i n g :
  wfg D (TRecord fs) (GRecord m) -> m !! i = Some (n, g) -> exists t, assoc n fs = Some t /\ (n, t) ∈ fs /\ wfg D t g.
Proof.
  rewrite wfg_record. intros [Hnd Hm] Hi. destruct (Forall2_lookup_l _ _ _ _ _ Hm Hi) as ([n' t] & Ht & En & Hg).
  simpl in *. subst n'. exists t. pose proof (list_elem_of_lookup_2 _ _ _ Ht) as Hin. split; [by apply In_assoc|done].
Qed.

Lemma whole_rows_record D fs m :
  D <> [] -> wfg D (TRecord fs) (GRecord m) ->
  (forall n g t, (n, g) ∈ m -> wfg D t g -> returns (fun k => whole_rows k g) (WholeOf D t g)) ->
  returns (fun k => rs ← mapM (fun '(_, g) => whole_rows k g) m; intersect_fold k rs) (WholeOf D (TRecord fs) (GRecord m)).
Proof.
  intros HD Hw IH.
  eapply returns_bind; [apply (returns_mapM _ (fun ng w => exists t, assoc ng.1 fs = Some t /\ WholeOf D t ng.2 w))|].
  { apply Forall_forall. intros [n g] Hin. apply list_elem_of_lookup in Hin as [i Hi].
    destruct (field_tiling D m fs i n g Hw Hi) as (t & Ht & _ & Hg).
    eapply returns_impl; [apply (IH n g t); [by eapply list_elem_of_lookup_2|done]|]. intros w Hwo. by exists t. }
  intros rs Hrs. eapply returns_impl; [apply (intersect_fold_ok D rs HD)|].
  { apply Forall_forall. intros r (i & Hi)%list_elem_of_lookup.
    by destruct (Forall2_lookup_r _ _ _ _ _ Hrs Hi) as (a & _ & t & _ & ? & _). }
  intros w [Hww Hd]. split; [done|]. intros rp c Hrp Hc. rewrite Hd by done. rewrite forallb_true_iff, Forall_forall.
  intros Hall. apply cell_record in Hc as (f & c' & t & -> & Ht & Hc).
  destruct (record_guard_field D m fs f t Hw Ht) as (g & Hg & Hwg & Hin). rewrite names_record, Hg.
  apply list_elem_of_lookup in Hin as [i Hi]. destruct (Forall2_lookup_l _ _ _ _ _ Hrs Hi) as (r & Hr & t' & Ht' & _ & Hwo).
  simpl in *. rewrite Ht in Ht'. injection Ht' as <-. apply Hwo; [done..|]. by apply Hall, (list_elem_of_lookup_2 _ i).
Qed.

Lemma whole_rows_or D t arms :
  D <> [] -> Forall (fun a => returns (fun k => whole_rows k a) (WholeOf D t a)) arms ->
  returns (fun k => rs ← mapM (whole_rows k) arms; union_fold k rs) (WholeOf D t (GOr arms)).
Proof.
  intros HD IH. eapply returns_bind; [apply (returns_mapM _ (fun a w => WholeOf D t a w)), IH|].
  intros rs Hrs. eapply returns_impl; [apply (union_fold_ok D rs HD)|].
  { apply Forall_forall. intros r (i & Hi)%list_elem_of_lookup.
    by destruct (Forall2_lookup_r _ _ _ _ _ Hrs Hi) as (a & _ & ? & _). }
  intros w [Hww Hd]. split; [done|]. intros rp c Hrp Hc. rewrite Hd by done. unfold any_den. rewrite existsb_true_iff.
  intros (r & (i & Hi)%list_elem_of_lookup & Hr). destruct (Forall2_lookup_r _ _ _ _ _ Hrs Hi) as (a & Ha & _ & Har).
  simpl. apply existsb_true_iff. exists a. split; [by eapply list_elem_of_lookup_2|]. by apply Har.
Qed.

Lemma whole_rows_leaf D (t : Tiling) (g : TileGuard) p :
  D <> [] -> leaf_ok D p -> (forall rp c, names g rp c = den p (VUnit :: rp)) -> returns (fun _ => leaf_rows p) (WholeOf D t g).
Proof.
  intros HD Hp Hn. destruct (leaf_rows_ok D p HD Hp) as (e & -> & He & Hd). apply returns_const.
  split; [done|]. intros rp c Hrp _ Hde. by rewrite Hn, Hd.
Qed.

Lemma whole_rows_ok D t g : D <> [] -> wfg D t g -> returns (fun n => whole_rows n g) (WholeOf D t g).
Proof.
  revert D t. induction g as [p|p|m IH|p|g IH|arms IH] using guard_ind; intros D t HD Hw;
    (eapply returns_ext; [intros n; symmetry; apply whole_rows_unfold|]);
    (destruct (is_universal _) eqn:Eu; [apply returns_const; split; [by destruct D|];
      intros rp c Hrp Hc _; by apply (universal_sound D t)|]);
    (destruct (guard_is_empty _) eqn:Ee; [apply returns_const; split; [by destruct D|done]|]).
  - destruct t; try done. by apply whole_rows_leaf.
  - destruct t; try done. by apply whole_rows_leaf.
  - destruct t as [|fs| | |]; try done. apply whole_rows_record; [done..|]. intros n g t Hin Hg.
    rewrite Forall_forall in IH. by apply (IH (n, g) Hin D t).
  - destruct t as [| |sh t| |sh t]; try done; (eapply returns_impl; [by apply (whole_under_ok sh D p)|]);
      intros w [Hww Hd]; (split; [done|]); intros rp c Hrp Hc Hdw; simpl in *; destruct c as [|[k|] c]; try done;
      [destruct Hc as [Hk _]|destruct c; try done]; (apply Hd; [by constructor|done]).
  - destruct t as [| |sh t| |]; try done. eapply returns_bind; [by apply (IH (sh :: D) t)|].
    intros w0 [Hw0 Hd0]. eapply returns_impl; [by apply (whole_under_ok sh D w0)|].
    intros w [Hww Hd]. split; [done|]. intros rp c Hrp Hc Hdw. destruct c as [|[k|] c]; try done. destruct Hc as [Hk Hc].
    simpl. apply Hd0; [by constructor|done|]. apply Hd; [by constructor|done].
  - apply wfg_or in Hw as [_ Hw]. apply whole_rows_or; [done|]. rewrite Forall_forall in *. intros a Ha.
    by apply IH; [| |apply Hw].
Qed.
End GuardFacts.

(** * Normalizing a union of guards

    [flatten_or] of guards of one tiling returns a guard of the tiling that names the same
    cells.  The recursion through the fields of records is on the size of the tiling. *)

Section GuardFlatten.
Context {K : Type} {KS : KeySets K} {KL : KeySetLaws K KS}.
Abbreviation Predicate := (Predicate K).
Abbreviation Value := (Value K).
Abbreviation TileGuard := (TileGuard K).
Abbreviation Tiling := (Tiling Shape).

Fixpoint tsize (t : Tiling) : nat :=
  match t with
  | TScalar _ | TAggregation _ _ | TStore _ _ => 1
  | TRecord fs => S ((fix go fs := match fs with [] => 0 | (_, t) :: fs => tsize t + go fs end) fs)
  | TDataFunction _ t => S (tsize t)
  end.

Lemma tsize_field n t (fs : list (string * Tiling)) : (n, t) ∈ fs -> tsize t < tsize (TRecord fs).
Proof.
  simpl. induction fs as [|[n' t'] fs IH]; intros H; [by apply elem_of_nil in H|].
  apply elem_of_cons in H as [[= <- <-]|H]; [lia|]. specialize (IH H). lia.
Qed.

Definition FlatOK (D : Domain) (t : Tiling) : Prop := forall arms : list TileGuard,
  arms <> [] -> Forall (wfg D t) arms -> returns (fun n => guard_flatten_or n arms) (SemG D t (any_names arms)).

Definition UnionOK (D : Domain) (t : Tiling) : Prop := forall a b : TileGuard,
  wfg D t a -> wfg D t b ->
  returns (fun n => guard_union n a b) (SemG D t (fun rp c => names a rp c || names b rp c)).

(** ** Less the covered keys *)

(** What is left of a region: part of it, and all of it that is not covered. *)
Definition LessOf (D : Domain) (t : Tiling) (covered : list Predicate) (g r : TileGuard) : Prop :=
  wfg D t r /\ forall rp c, typed D rp -> cell_of t c ->
    (names r rp c = true -> names g rp c = true) /\
    (names g rp c = true -> covered_by covered rp = false -> names r rp c = true).

(** The fields of a record, each restated. *)
Lemma restate_fields D fs m (f : nat -> string -> TileGuard -> option TileGuard) (Q : string -> Tiling -> TileGuard -> TileGuard -> Prop) :
  wfg D (TRecord fs) (GRecord m) ->
  (forall n g t, (n, g) ∈ m -> (n, t) ∈ fs -> wfg D t g -> returns (fun k => f k n g) (fun r => wfg D t r /\ Q n t g r)) ->
  returns (fun k => mapM (fun '(n, g) => g ← f k n g; Some (n, g)) m) (fun m' =>
    wfg D (TRecord fs) (GRecord m') /\
    forall n g t, assoc n m = Some g -> assoc n fs = Some t -> exists r, assoc n m' = Some r /\ Q n t g r).
Proof.
  intros Hw Hf. apply wfg_record in Hw as [Hnd Hm].
  assert (Hall : returns (fun k => mapM (fun '(n, g) => g ← f k n g; Some (n, g)) m) (fun m' =>
    Forall2 (fun ng nt => ng.1 = nt.1 /\ wfg D nt.2 ng.2) m' fs /\
    forall n g t, assoc n m = Some g -> assoc n fs = Some t -> exists r, assoc n m' = Some r /\ Q n t g r)).
  { clear Hnd. induction Hm as [|[n g] [n' t] m fs [En Hg] Hm IH]; [apply returns_const; by split; [constructor|]|].
    simpl in En, Hg. subst n'. simpl.
    eapply (returns_bind _ _ (fun nr => nr.1 = n /\ wfg D t nr.2 /\ Q n t g nr.2)).
    - eapply returns_bind; [apply (Hf n g t); [apply list_elem_of_here..|done]|]. intros r Hr. by apply returns_const.
    - intros [n' r] (En & Hwr & Hq). simpl in *. subst n'. eapply returns_bind.
      + apply IH. intros n0 g0 t0 H1 H2. apply (Hf n0); by apply list_elem_of_further.
      + intros m' [Hm' Hass]. apply returns_const. split; [by constructor|]. intros n0 g0 t0. simpl.
        destruct (decide (n0 = n)) as [->|]; [|apply Hass]. intros [= <-] [= <-]. eauto. }
  eapply returns_impl; [exact Hall|]. intros m' [Hm' Hass]. split; [by apply wfg_record|done].
Qed.

Lemma less_record D fs m covered m' :
  wfg D (TRecord fs) (GRecord m) -> wfg D (TRecord fs) (GRecord m') ->
  (forall n g t, assoc n m = Some g -> assoc n fs = Some t -> exists r, assoc n m' = Some r /\ LessOf D t covered g r) ->
  LessOf D (TRecord fs) covered (GRecord m) (GRecord m').
Proof.
  intros Hm Hw H. split; [done|]. intros rp c Hrp Hc. apply cell_record in Hc as (f & c' & t & -> & Ht & Hc).
  destruct (record_guard_field D m fs f t Hm Ht) as (g & Hg & _). destruct (H f g t Hg Ht) as (r & Hr & _ & Hl).
  rewrite !names_record, Hg, Hr. by apply Hl.
Qed.

Lemma without_covered_keys_ok g D t covered :
  (forall D' t', tsize t' <= tsize t -> FlatOK D' t') -> covers_ok D covered -> wfg D t g ->
  returns (fun n => without_covered_keys (gops n) n g covered) (LessOf D t covered g).
Proof.
  revert D t covered. induction g as [p|p|m IH|p|g IH|arms IH] using guard_ind; intros D t covered Hflat Hcov Hw.
  - destruct t; try done. simpl. eapply returns_bind; [by apply keep_leaf_ok|]. intros r [Hr Hd]. apply returns_const.
    split; [done|]. intros rp c Hrp _. by apply Hd.
  - destruct t; try done. simpl. eapply returns_bind; [by apply keep_leaf_ok|]. intros r [Hr Hd]. apply returns_const.
    split; [done|]. intros rp c Hrp _. by apply Hd.
  - destruct t as [|fs| | |]; try done. simpl. rewrite Forall_forall in IH. eapply returns_bind.
    + apply (restate_fields D fs m (fun k _ g => without_covered_keys (gops k) k g covered) (fun _ t g r => LessOf D t covered g r)); [done|].
      intros n g t Hg Ht Hwg. eapply returns_impl; [apply (IH (n, g) Hg D t); [|done..]|].
      * intros D' t' Hle. apply Hflat. apply tsize_field in Ht. lia.
      * intros r Hr. split; [apply Hr|done].
    + intros m' [Hm' Hl]. apply returns_const. by apply less_record.
  - assert (H : forall sh, wf (sh :: D) p -> returns (fun n => keep n covered p) (fun r => wf (sh :: D) r /\ forall k rp, typed (sh :: D) (k :: rp) ->
      (den r (k :: rp) = true -> den p (k :: rp) = true) /\ (den p (k :: rp) = true -> covered_by covered rp = false -> den r (k :: rp) = true)))
      by (intros sh; by apply keep_ok).
    simpl. destruct t as [| |sh t| |sh t]; try done; (eapply returns_bind; [by apply (H sh)|]); intros r [Hr Hd];
      apply returns_const; (split; [done|]); intros rp c Hrp Hc; simpl in *; destruct c as [|[k|] c]; try done;
      [destruct Hc as [Hk _]|destruct c; try done]; apply Hd; by constructor.
  - destruct t as [| |sh t| |]; try done. simpl. eapply returns_bind.
    + apply (IH (sh :: D) t (covered ++ [PFalse])); [|by apply covers_ok_deeper|done].
      intros D' t' Hle. apply Hflat. simpl. lia.
    + intros r [Hr Hd]. apply returns_const. split; [done|]. intros rp c Hrp Hc. destruct c as [|[k|] c]; try done.
      destruct Hc as [Hk Hc]. simpl. rewrite <- (covered_by_deeper covered k rp). apply Hd; [by constructor|done].
  - apply wfg_or in Hw as [Hne Hw]. simpl. eapply returns_bind.
    + apply (returns_mapM _ (fun a r => LessOf D t covered a r)). rewrite Forall_forall in *. intros a Ha. by apply IH; [..|apply Hw].
    + intros rs Hrs. eapply returns_impl.
      { apply (Hflat D t); [done| |].
        - intros ->. by inversion Hrs; subst.
        - apply Forall_forall. intros r (i & Hi)%list_elem_of_lookup. by destruct (Forall2_lookup_r _ _ _ _ _ Hrs Hi) as (a & _ & ? & _). }
      intros r [Hr Hd]. split; [done|]. intros rp c Hrp Hc. rewrite Hd by done. unfold any_names. simpl. rewrite !existsb_true_iff. split.
      * intros (x & (i & Hi)%list_elem_of_lookup & Hx). destruct (Forall2_lookup_r _ _ _ _ _ Hrs Hi) as (a & Ha & _ & Hl).
        exists a. split; [by eapply list_elem_of_lookup_2|]. by apply (Hl rp c).
      * intros (a & (i & Hi)%list_elem_of_lookup & Hx) Hcv. destruct (Forall2_lookup_l _ _ _ _ _ Hrs Hi) as (x & Hx' & _ & Hl).
        exists x. split; [by eapply list_elem_of_lookup_2|]. by apply (Hl rp c).
Qed.

(** ** Chains *)

Lemma wrap_succ d (g : TileGuard) : wrap_guard (S d) g = wrap_guard d (GFunction (FCodomain g)).
Proof. unfold wrap_guard. by rewrite Nat.iter_succ_r. Qed.

Lemma unwrap_wrap g d leaf : unwrap g = (d, leaf) -> g = wrap_guard d leaf.
Proof.
  revert d leaf. induction g as [p|p|m|p|g IH|arms] using guard_ind; intros d leaf; simpl; try (by intros [= <- <-]).
  destruct (unwrap g) as [d' leaf'] eqn:E. intros [= <- <-]. simpl. f_equal. f_equal. by apply IH.
Qed.

(** The tiling and the keys a chain of [d] steps leads to. *)
Lemma wrap_focus d D t (g : TileGuard) :
  wfg D t (wrap_guard d g) -> exists D' t', wfg D' t' g /\ length D' = d + length D /\ tsize t' <= tsize t /\
    (forall h, wfg D' t' h -> wfg D t (wrap_guard d h)) /\
    (forall rp c, typed D rp -> cell_of t c -> exists rp' c', typed D' rp' /\ cell_of t' c' /\
       forall h, names (wrap_guard d h) rp c = names h rp' c').
Proof.
  revert D t. induction d as [|d IH]; intros D t Hw.
  { exists D, t. split; [done|]. split; [done|]. split; [done|]. split; [done|]. intros rp c Hrp Hc. by exists rp, c. }
  simpl in Hw. destruct t as [| |sh t| |]; try done. destruct (IH (sh :: D) t Hw) as (D' & t' & Hg & Hlen & Hs & Hwrap & Hn).
  exists D', t'. split; [done|]. split; [simpl in Hlen; lia|]. split; [simpl; lia|]. split; [intros h Hh; by apply Hwrap|].
  intros rp c Hrp Hc. destruct c as [|[k|] c]; try done. destruct Hc as [Hk Hc].
  destruct (Hn (k :: rp) c) as (rp' & c' & H1 & H2 & H3); [by constructor|done|]. exists rp', c'. done.
Qed.

(** Guards of the tiling that name a region together. *)
Definition Arms (D : Domain) (t : Tiling) (g : TileGuard) (gs : list TileGuard) : Prop :=
  gs <> [] /\ Forall (wfg D t) gs /\ forall rp c, typed D rp -> cell_of t c -> any_names gs rp c = names g rp c.

Lemma arms_one D t g : wfg D t g -> Arms D t g [g].
Proof. intros Hw. split; [done|]. split; [by constructor|]. intros rp c _ _. unfold any_names. simpl. btauto. Qed.

Lemma arms_ext D t g h gs :
  (forall rp c, typed D rp -> cell_of t c -> names g rp c = names h rp c) -> Arms D t g gs -> Arms D t h gs.
Proof. intros H (Hne & Hw & Hd). split; [done|]. split; [done|]. intros rp c Hrp Hc. by rewrite Hd, H. Qed.

Lemma any_names_app l1 l2 rp c : any_names (l1 ++ l2) rp c = any_names l1 rp c || any_names l2 rp c.
Proof. unfold any_names. apply existsb_app. Qed.

Lemma arms_concat D t (hs : list TileGuard) gss :
  Forall2 (Arms D t) hs gss ->
  Forall (wfg D t) (concat gss) /\ (hs <> [] -> concat gss <> []) /\
  forall rp c, typed D rp -> cell_of t c -> any_names (concat gss) rp c = any_names hs rp c.
Proof.
  induction 1 as [|h gs hs gss (Hne & Hw & Hd) _ (IH1 & _ & IH2)]; simpl; [by split; [constructor|]|].
  split; [by apply Forall_app|]. split; [by destruct gs|]. intros rp c Hrp Hc. rewrite any_names_app, Hd, IH2 by done. done.
Qed.

Lemma existsb_of_map {A B} (f : B -> bool) (h : A -> B) l : existsb f (map h l) = existsb (fun x => f (h x)) l.
Proof. induction l as [|x l IH]; simpl; [done|]. by rewrite IH. Qed.

Lemma chains_ok D t g : wfg D t g -> Arms D t g (chains g).
Proof.
  revert D t. induction g as [p|p|m _|p|g IH|arms IH] using guard_ind; intros D t Hw; try (by apply arms_one).
  - destruct t as [| |sh t| |]; try done. destruct (IH (sh :: D) t Hw) as (Hne & Hws & Hd). simpl. split; [by destruct (chains g)|]. split.
    + apply Forall_map. eapply Forall_impl; [exact Hws|]. done.
    + intros rp c Hrp Hc. destruct c as [|[k|] c]; try done. destruct Hc as [Hk Hc].
      specialize (Hd (k :: rp) c). unfold any_names in *. rewrite existsb_of_map. simpl. rewrite <- Hd by (by try constructor). done.
  - apply wfg_or in Hw as [Hne Hw].
    assert (H : Forall2 (Arms D t) arms (map chains arms)).
    { clear Hne. induction arms as [|a arms IHa]; [constructor|]. apply Forall_cons in IH as [Ha IH], Hw as [Hwa Hw].
      constructor; [by apply Ha|by apply IHa]. }
    destruct (arms_concat D t arms _ H) as (H1 & H2 & H3). simpl. rewrite flat_map_concat_map.
    split; [by apply H2|]. split; [done|]. intros rp c Hrp Hc. by rewrite H3.
Qed.

(** ** Lifting *)

(** The chains whose end is a step below a level: that level and the end. *)
Lemma wrap_level above D t (leaf : TileGuard) :
  wfg D t (wrap_guard (S above) leaf) -> exists D0 sh t', wfg (sh :: D0) t' leaf /\ length D0 = above + length D /\ tsize t' < tsize t /\
    (forall p, wf (sh :: D0) p -> wfg D t (wrap_guard above (GFunction (FDomain p)))) /\
    (forall h, wfg (sh :: D0) t' h -> wfg D t (wrap_guard (S above) h)) /\
    (forall rp c, typed D rp -> cell_of t c -> exists k rp' c', typed (sh :: D0) (k :: rp') /\ cell_of t' c' /\
       (forall p, names (wrap_guard above (GFunction (FDomain p))) rp c = den p (k :: rp')) /\
       (forall h, names (wrap_guard (S above) h) rp c = names h (k :: rp') c')).
Proof.
  rewrite wrap_succ. intros Hw. destruct (wrap_focus above D t _ Hw) as (D0 & t0 & Hg & Hlen & Hs & Hwrap & Hn).
  destruct t0 as [| |sh t'| |]; try done. exists D0, sh, t'. split; [done|]. split; [done|]. split; [simpl in Hs; lia|].
  split; [intros p Hp; by apply Hwrap|]. split; [intros h Hh; rewrite wrap_succ; by apply Hwrap|].
  intros rp c Hrp Hc. destruct (Hn rp c Hrp Hc) as (rp' & c' & Hrp' & Hc' & He). destruct c' as [|[k|] c']; try done.
  destruct Hc' as [Hk Hc']. exists k, rp', c'. split; [by constructor|]. split; [done|]. split.
  - intros p. by rewrite He.
  - intros h. rewrite wrap_succ. by rewrite He.
Qed.

(** The level a domain guard stands at. *)
Lemma domain_level D t p :
  wfg D t (GFunction (FDomain p)) -> exists sh, (forall q, wf (sh :: D) q <-> wfg D t (GFunction (FDomain q))) /\ wf (sh :: D) p /\
    forall c, cell_of t c -> exists k c', c = SKey k :: c' /\ has_shape sh k.
Proof.
  intros Hp. destruct t as [| |sh t| |sh t]; try done; exists sh; (split; [done|]); (split; [done|]); intros c Hc;
    destruct c as [|[k|] c]; try done; [destruct Hc|destruct c; [|done]]; eauto.
Qed.

(** A predicate's arms: those that name every key under a path, and the rest. *)
Lemma split_arms arms k (rp : list Value) sh D :
  Forall (arm_ok (sh :: D)) arms -> has_shape sh k ->
  any_den arms (k :: rp) =
  existsb (fun e => den e rp) (omap whole_arm arms)
  || any_den (List.filter (fun arm => bool_decide (whole_arm arm = None)) arms) (k :: rp).
Proof.
  intros Ha Hk. unfold any_den. induction Ha as [|a arms Ha _ IH]; [done|]. simpl. rewrite IH.
  destruct (whole_arm a) as [e|] eqn:Ew; simpl; change (list_omap _ _ whole_arm arms) with (omap whole_arm arms).
  - assert (den a (k :: rp) = den e rp) as ->; [|btauto].
    unfold whole_arm in Ew. destruct a as [| | | | | |e' h]; try done. destruct (is_true h) eqn:Eh; [|done]. injection Ew as <-.
    destruct Ha as (_ & Hh & _). simpl. rewrite (reads_true _ _ (wf1_reads _ _ Hh) Eh [k]) by (by repeat constructor). btauto.
  - btauto.
Qed.

Lemma whole_arm_wf sh D a e : arm_ok (sh :: D) a -> whole_arm a = Some e -> wf D e.
Proof.
  unfold whole_arm. intros Ha. destruct a as [| | | | | |e' h]; try done. destruct (is_true h); [|done]. intros [= <-]. apply Ha.
Qed.

(** The end of a chain of [depth] steps, with what [lift] makes of a key named at the level above. *)
Definition LiftOK (D : Domain) (t : Tiling) (above : nat) : Prop := forall p,
  wfg D t (wrap_guard above (GFunction (FDomain p))) ->
  returns (fun n => lift_at (gops n) n above (GFunction (FDomain p))) (Arms D t (wrap_guard above (GFunction (FDomain p)))).

Lemma lift_domain D t above p :
  LiftOK D t above -> wfg D t (wrap_guard (S above) (GFunction (FDomain p))) ->
  returns (fun n => match omap whole_arm (pred_arms p) with
    | [] => Some [wrap_guard (S above) (GFunction (FDomain p))]
    | _ =>
        lifted ← mapM (fun enclosing => lift_at (gops n) n above (GFunction (FDomain enclosing))) (omap whole_arm (pred_arms p));
        match List.filter (fun arm => bool_decide (whole_arm arm = None)) (pred_arms p) with
        | [] => Some (concat lifted)
        | _ =>
            p ← flatten_or (ops n) (List.filter (fun arm => bool_decide (whole_arm arm = None)) (pred_arms p));
            Some (concat lifted ++ [wrap_guard (S above) (GFunction (FDomain p))])
        end
    end) (Arms D t (wrap_guard (S above) (GFunction (FDomain p)))).
Proof.
  intros Hlift Hw. destruct (wrap_level above D t _ Hw) as (D0 & sh & t' & Hp & Hlen & Hs & Hdom & Hcod & Hn).
  destruct (domain_level _ _ _ Hp) as (sh' & Hq & Hp' & Hcell). clear Hp. rename Hp' into Hp.
  destruct (or_list_ok sh' (sh :: D0) p Hp) as [Harms Hden]. fold (pred_arms p) in Harms, Hden.
  set (whole := omap whole_arm (pred_arms p)). set (part := List.filter _ (pred_arms p)).
  assert (Hwhole : Forall (wf (sh :: D0)) whole).
  { apply Forall_forall. intros e He. apply list_elem_of_omap in He as (a & Ha & Ee). rewrite Forall_forall in Harms.
    by apply (whole_arm_wf sh' _ a e); [apply Harms|]. }
  assert (Hpart : Forall (wf (sh' :: sh :: D0)) part).
  { apply Forall_forall. intros a Ha. apply list_elem_of_In, filter_In in Ha as [Ha _]. apply list_elem_of_In in Ha.
    rewrite Forall_forall in Harms. by apply arm_ok_wf, Harms. }
  destruct whole as [|e0 whole'] eqn:Ewh; [apply returns_const; by apply arms_one|]. rewrite <- Ewh in *.
  assert (Hne : whole <> []) by (by rewrite Ewh). clear e0 whole' Ewh.
  eapply returns_bind; [apply (returns_mapM _ (fun e gs => Arms D t (wrap_guard above (GFunction (FDomain e))) gs))|].
  { eapply Forall_impl; [exact Hwhole|]. intros e He. by apply Hlift, Hdom. }
  intros lifted Hl.
  assert (Hl' : Forall2 (Arms D t) (map (fun e => wrap_guard above (GFunction (FDomain e))) whole) lifted) by (by apply Forall2_fmap_l).
  destruct (arms_concat D t _ _ Hl') as (H1 & H2 & H3).
  assert (Hpt : forall rp c, typed D rp -> cell_of t c -> exists k k' rp', typed (sh' :: sh :: D0) (k' :: k :: rp') /\
    (forall q, names (wrap_guard (S above) (GFunction (FDomain q))) rp c = den q (k' :: k :: rp')) /\
    any_names (concat lifted) rp c = existsb (fun e => den e (k :: rp')) whole).
  { intros rp c Hrp Hc. rewrite H3 by done. destruct (Hn rp c Hrp Hc) as (k & rp' & c' & Ht & Hc' & Hnd & Hnc).
    destruct (Hcell c' Hc') as (k' & c'' & -> & Hk'). exists k, k', rp'. split; [by constructor|]. split; [intros q; by rewrite Hnc|].
    unfold any_names. rewrite existsb_of_map. clear -Hnd. induction whole as [|e whole IH]; simpl; [done|]. by rewrite Hnd, IH. }
  destruct part as [|a0 part'] eqn:Ept in |- * at 1.
  - apply returns_const. split; [apply H2; by destruct whole|]. split; [done|]. intros rp c Hrp Hc.
    destruct (Hpt rp c Hrp Hc) as (k & k' & rp' & Ht & Hnp & ->). rewrite Hnp, Hden. inversion Ht; subst.
    rewrite (split_arms (pred_arms p) k' (k :: rp') sh' (sh :: D0)) by done. fold part whole. rewrite Ept. simpl. btauto.
  - eapply returns_bind; [apply (key_flatten (sh' :: sh :: D0)); [done|exact Hpart|by rewrite Ept]|].
    intros q [Hwq Hdq]. apply returns_const. split; [by destruct (concat lifted)|]. split.
    + apply Forall_app. split; [done|]. constructor; [|done]. by apply Hcod, Hq.
    + intros rp c Hrp Hc. rewrite any_names_app. destruct (Hpt rp c Hrp Hc) as (k & k' & rp' & Ht & Hnp & ->).
      unfold any_names. cbn [existsb]. rewrite !Hnp, Hdq, Hden by done. inversion Ht; subst.
      rewrite (split_arms (pred_arms p) k' (k :: rp') sh' (sh :: D0)) by done. fold part whole. btauto.
Qed.

Lemma covers_whole D d w : D <> [] -> wf D w -> d < length D -> covers_ok D (replicate d PFalse ++ [w]).
Proof.
  intros HD Hw Hd. split; [done|]. rewrite length_app, length_replicate. simpl. split; [lia|]. intros level whole Hl.
  destruct (decide (level < d)) as [Hlt|Hge].
  - rewrite lookup_app_l in Hl by (by rewrite length_replicate). apply lookup_replicate in Hl as [-> _].
    destruct (drop (d + 1 - 1 - level) D) eqn:E; [|done]. apply (f_equal length) in E. rewrite length_drop in E. simpl in E. lia.
  - rewrite lookup_app_r in Hl by (rewrite length_replicate; lia). rewrite length_replicate in Hl.
    apply list_lookup_singleton_Some in Hl as [Hz <-]. by replace (d + 1 - 1 - level) with 0 by lia.
Qed.

Lemma covered_whole d (w : Predicate) rp : covered_by (replicate d PFalse ++ [w]) rp = den w rp.
Proof.
  unfold covered_by. rewrite length_app, length_replicate. simpl. apply eq_true_iff_eq. rewrite existsb_true_iff. split.
  - intros ([level whole] & Hl%elem_of_imap_pair & Hd). simpl in Hd. destruct (decide (level < d)) as [Hlt|Hge].
    + rewrite lookup_app_l in Hl by (by rewrite length_replicate). by apply lookup_replicate in Hl as [-> _].
    + rewrite lookup_app_r in Hl by (rewrite length_replicate; lia). rewrite length_replicate in Hl.
      apply list_lookup_singleton_Some in Hl as [Hz <-]. by replace (d + 1 - 1 - level) with 0 in Hd by lia.
  - intros Hd. exists (d, w). split.
    + apply elem_of_imap_pair. rewrite lookup_app_r by (rewrite length_replicate; lia). rewrite length_replicate.
      by replace (d - d) with 0 by lia.
    + simpl. by replace (d + 1 - 1 - d) with 0 by lia.
Qed.

Lemma lift_record_ok D t above fields :
  (forall D' t', tsize t' < tsize t -> FlatOK D' t') ->
  LiftOK D t above -> wfg D t (wrap_guard (S above) (GRecord fields)) ->
  returns (fun n => lift_record (gops n) n fields (S above) (fun w => lift_at (gops n) n above (GFunction (FDomain w))))
    (Arms D t (wrap_guard (S above) (GRecord fields))).
Proof.
  intros Hflat Hlift Hw. destruct (wrap_level above D t _ Hw) as (D0 & sh & t' & Hp & Hlen & Hs & Hdom & Hcod & Hn).
  destruct t' as [|fs| | |]; try done. unfold lift_record.
  assert (Hwh : returns (fun n => rs ← mapM (fun '(_, g) => whole_rows n g) fields; intersect_fold n rs) (WholeOf (sh :: D0) (TRecord fs) (GRecord fields))).
  { apply whole_rows_record; [done..|]. intros n g t' _ Hg. by apply whole_rows_ok. }
  assert (Hmain : returns (fun n => whole ← rs ← mapM (fun '(_, g) => whole_rows n g) fields; intersect_fold n rs;
    if is_false whole then Some [wrap_guard (S above) (GRecord fields)]
    else
      up ← lift_at (gops n) n above (GFunction (FDomain whole));
      rest ← mapM (fun '(k, g) => g ← without_covered_keys (gops n) n g (replicate (S above - 1) PFalse ++ [whole]); Some (k, g)) fields;
      Some (if guard_is_empty (GRecord rest) then up else up ++ [wrap_guard (S above) (GRecord rest)]))
    (Arms D t (wrap_guard (S above) (GRecord fields)))).
  2:{ eapply returns_ext; [|exact Hmain]. intros n. simpl. by destruct (mapM _ fields). }
  eapply returns_bind; [exact Hwh|]. intros whole [Hww Hwd]. destruct (is_false whole); [apply returns_const; by apply arms_one|].
  eapply returns_bind; [by apply Hlift, Hdom|]. intros up (Hup1 & Hup2 & Hup3).
  simpl (S above - 1). rewrite Nat.sub_0_r. eapply returns_bind.
  { apply (restate_fields (sh :: D0) fs fields (fun n _ g => without_covered_keys (gops n) n g (replicate above PFalse ++ [whole]))
      (fun _ t g r => LessOf (sh :: D0) t (replicate above PFalse ++ [whole]) g r)); [done|].
    intros n g t' Hg Ht Hwg. eapply returns_impl; [apply without_covered_keys_ok; [| |exact Hwg]|].
    - intros D' t'' Hle. apply Hflat. apply tsize_field in Ht. lia.
    - apply covers_whole; [done..|simpl; lia].
    - intros r Hr. split; [apply Hr|done]. }
  intros rest [Hrw Hrl]. apply returns_const.
  assert (Hless : LessOf (sh :: D0) (TRecord fs) (replicate above PFalse ++ [whole]) (GRecord fields) (GRecord rest)) by (by apply less_record).
  destruct Hless as [_ Hless].
  assert (Hreg : forall rp c, typed D rp -> cell_of t c ->
    names (wrap_guard (S above) (GRecord fields)) rp c = any_names up rp c || names (wrap_guard (S above) (GRecord rest)) rp c).
  { intros rp c Hrp Hc. rewrite Hup3 by done. destruct (Hn rp c Hrp Hc) as (k & rp' & c' & Ht & Hc' & Hnd & Hnc).
    rewrite Hnd, !Hnc. specialize (Hless (k :: rp') c' Ht Hc'). specialize (Hwd (k :: rp') c' Ht Hc').
    rewrite covered_whole in Hless. destruct Hless as [L1 L2].
    destruct (den whole (k :: rp')), (names (GRecord fields) (k :: rp') c'), (names (GRecord rest) (k :: rp') c'); naive_solver. }
  destruct (guard_is_empty (GRecord rest)) eqn:Ee.
  - split; [done|]. split; [done|]. intros rp c Hrp Hc. rewrite Hreg by done.
    destruct (Hn rp c Hrp Hc) as (k & rp' & c' & Ht & Hc' & _ & Hnc). rewrite Hnc.
    rewrite (empty_sound (sh :: D0) (TRecord fs) (GRecord rest)) by done. btauto.
  - split; [by destruct up|]. split; [apply Forall_app; split; [done|]; constructor; [by apply Hcod|done]|].
    intros rp c Hrp Hc. rewrite any_names_app, Hreg by done. unfold any_names at 2. cbn [existsb]. btauto.
Qed.

Lemma lift_leaf D t above (leaf : TileGuard) p :
  (forall rp c, names leaf rp c = den p (VUnit :: rp)) -> (forall D' t', wfg D' t' leaf -> leaf_ok D' p) ->
  LiftOK D t above -> wfg D t (wrap_guard (S above) leaf) ->
  returns (fun n => rows ← leaf_rows p;
    if is_false rows then Some [wrap_guard (S above) leaf] else lift_at (gops n) n above (GFunction (FDomain rows)))
    (Arms D t (wrap_guard (S above) leaf)).
Proof.
  intros Hnm Hlf Hlift Hw. destruct (wrap_level above D t _ Hw) as (D0 & sh & t' & Hp & Hlen & Hs & Hdom & Hcod & Hn).
  destruct (leaf_rows_ok (sh :: D0) p) as (e & -> & He & Hd); [done|by eapply Hlf|]. simpl.
  destruct (is_false e); [apply returns_const; by apply arms_one|].
  eapply returns_impl; [by apply Hlift, Hdom|]. intros gs. apply arms_ext. intros rp c Hrp Hc.
  destruct (Hn rp c Hrp Hc) as (k & rp' & c' & Ht & Hc' & Hnd & Hnc). change (GFunction (FCodomain (wrap_guard above leaf))) with (wrap_guard (S above) leaf).
  by rewrite Hnd, Hnc, Hnm, Hd.
Qed.

Lemma lift_at_ok D t d leaf :
  (forall D' t', tsize t' < tsize t -> FlatOK D' t') -> wfg D t (wrap_guard d leaf) ->
  returns (fun n => lift_at (gops n) n d leaf) (Arms D t (wrap_guard d leaf)).
Proof.
  intros Hflat. revert leaf. induction d as [|above IH]; intros leaf Hw; [apply returns_const; by apply arms_one|].
  assert (Hlift : LiftOK D t above) by (intros p; apply IH). cbn [lift_at].
  destruct (is_universal leaf) eqn:Eu.
  { destruct (wrap_level above D t _ Hw) as (D0 & sh & t' & Hp & Hlen & Hs & Hdom & Hcod & Hn).
    eapply returns_impl; [by apply Hlift, Hdom|]. intros gs. apply arms_ext. intros rp c Hrp Hc.
    destruct (Hn rp c Hrp Hc) as (k & rp' & c' & Ht & Hc' & Hnd & Hnc). rewrite Hnd, Hnc. simpl. symmetry.
    by apply (universal_sound (sh :: D0) t'). }
  destruct leaf as [p|fields|[p|g]|p|arms].
  - apply (lift_leaf D t above (GScalar p) p); [done| |done..]. by intros D' [].
  - by apply lift_record_ok.
  - eapply returns_ext; [|by apply (lift_domain D t above p)]. intros n. reflexivity.
  - apply returns_const. by apply arms_one.
  - apply (lift_leaf D t above (GAggregation p) p); [done| |done..]. by intros D' [].
  - apply returns_const. by apply arms_one.
Qed.

Lemma lift_ok D t g :
  (forall D' t', tsize t' < tsize t -> FlatOK D' t') -> wfg D t g -> returns (fun n => lift (gops n) n g) (Arms D t g).
Proof.
  intros Hflat Hw. unfold lift. destruct (unwrap g) as [d leaf] eqn:E. apply unwrap_wrap in E as ->. by apply lift_at_ok.
Qed.
End GuardFlatten.
