(* ===== verification/GuardUnion.v ===== *)
(** * Unions of guards

    Arms of one place as one arm, arms less what a shallower arm covers, and with them
    [flatten_or] and [union]: both return, and name exactly the union of the regions. *)

From Stdlib Require Import List Btauto.
From S2P Require Import Prelude Predicate PredicateSem Returns KeyMaps.
From S2P Require Import PredicateParts PredicateProducts PredicateAlgebra PredicatePaths PredicatePathFacts.
From S2P Require Import Guards GuardSem GuardFacts.
Set Warnings "-clear-no-such-hyp".

Section GuardUnion.
Context {K : Type} {KS : KeySets K} {KL : KeySetLaws K KS}.
Abbreviation Predicate := (Predicate K).
Abbreviation Value := (Value K).
Abbreviation TileGuard := (TileGuard K).
Abbreviation Tiling := (Tiling Shape).

Definition either (a b : TileGuard) (rp : list Value) (c : list Step) : bool := names a rp c || names b rp c.

(** One round of each operation. *)
Lemma step_flatten arms P :
  returns (fun n => flatten_guards (gops n) n arms) P -> returns (fun n => guard_flatten_or n arms) P.
Proof. by apply returns_step. Qed.

Lemma step_guard_union a b P :
  returns (fun n => union_guards (gops n) n a b) P -> returns (fun n => guard_union n a b) P.
Proof. by apply returns_step. Qed.

(** ** Records and leaves *)

Lemma wfg_length D fs m : wfg D (TRecord fs) (GRecord m) -> length m = length fs.
Proof. intros [_ H]%wfg_record. by apply Forall2_length in H. Qed.

Lemma zip_fields_ok D fs m1 m2 (f : nat -> TileGuard -> TileGuard -> option TileGuard)
    (Q : Tiling -> TileGuard -> TileGuard -> TileGuard -> Prop) :
  wfg D (TRecord fs) (GRecord m1) -> wfg D (TRecord fs) (GRecord m2) ->
  (forall n t a b, (n, t) ∈ fs -> (n, a) ∈ m1 -> (n, b) ∈ m2 -> wfg D t a -> wfg D t b -> returns (fun k => f k a b) (fun r => wfg D t r /\ Q t a b r)) ->
  returns (fun k => zip_fields m1 m2 (f k)) (fun m => wfg D (TRecord fs) (GRecord m) /\
    forall n t a b, assoc n fs = Some t -> assoc n m1 = Some a -> assoc n m2 = Some b -> exists r, assoc n m = Some r /\ Q t a b r).
Proof.
  intros H1 H2 Hf. unfold zip_fields. rewrite (wfg_length D fs m1), (wfg_length D fs m2), Nat.eqb_refl by done.
  eapply returns_ext; [|eapply returns_impl;
    [apply (restate_fields D fs m1 (fun k n a => b ← assoc n m2; f k a b)
      (fun n t a r => forall b, assoc n m2 = Some b -> Q t a b r)); [done|]|]].
  - intros k. apply mapM_ext. intros [n a]. by destruct (assoc n m2).
  - intros n a t Ha Ht Hwa. pose proof H2 as [Hnd _]%wfg_record.
    destruct (record_guard_field D m2 fs n t H2) as (b & Hb & Hwb & Hin); [by apply In_assoc|]. rewrite Hb. simpl.
    eapply returns_impl; [by apply (Hf n t a b)|]. intros r [Hr HQ]. split; [done|]. by intros b' [= <-].
  - intros m [Hm Hq]. split; [done|]. intros n t a b Ht Ha Hb. destruct (Hq n a t Ha Ht) as (r & Hr & HQ). eauto.
Qed.

(** A combination of two record guards, from that of their fields. *)
Lemma record_cells D fs m1 m2 m (op : bool -> bool -> bool) :
  wfg D (TRecord fs) (GRecord m1) -> wfg D (TRecord fs) (GRecord m2) -> wfg D (TRecord fs) (GRecord m) ->
  (forall n t a b, assoc n fs = Some t -> assoc n m1 = Some a -> assoc n m2 = Some b ->
     exists r, assoc n m = Some r /\ forall rp c, typed D rp -> cell_of t c -> names r rp c = op (names a rp c) (names b rp c)) ->
  SemG D (TRecord fs) (fun rp c => op (names (GRecord m1) rp c) (names (GRecord m2) rp c)) (GRecord m).
Proof.
  intros H1 H2 Hm H. split; [done|]. intros rp c Hrp Hc. apply cell_record in Hc as (f & c' & t & -> & Ht & Hc).
  destruct (record_guard_field D m1 fs f t H1 Ht) as (a & Ha & _), (record_guard_field D m2 fs f t H2 Ht) as (b & Hb & _).
  destruct (H f t a b Ht Ha Hb) as (r & Hr & Hd). rewrite !names_record, Ha, Hb, Hr. by apply Hd.
Qed.

(** The places where two guards are combined without normalization. *)
Definition basic (a b : TileGuard) : bool :=
  match a, b with
  | GRecord _, GRecord _ | GScalar _, GScalar _ | GAggregation _, GAggregation _ => true
  | _, _ => false
  end.

Lemma union_basic D t a b :
  (forall D' t', tsize t' < tsize t -> UnionOK D' t') -> basic a b = true -> wfg D t a -> wfg D t b ->
  returns (fun n => guard_union n a b) (SemG D t (either a b)).
Proof.
  intros IH Hb Ha Hwb. apply step_guard_union. destruct a as [p|m1| |p|], b as [q|m2| |q|]; try done; simpl.
  - destruct t; try done. eapply returns_bind; [by apply leaf_union|]. intros r [Hr Hd]. apply returns_const.
    split; [done|]. intros rp c Hrp _. by apply Hd.
  - destruct t as [|fs| | |]; try done. eapply returns_bind.
    + apply (zip_fields_ok D fs m1 m2 guard_union (fun t a b r => forall rp c, typed D rp -> cell_of t c -> names r rp c = either a b rp c)); [done..|].
      intros n t a b Ht _ _ Hwa Hwb'. eapply returns_impl; [apply (IH D t); [by eapply tsize_field|done..]|]. done.
    + intros m [Hm Hq]. apply returns_const. by apply (record_cells D fs m1 m2 m orb).
  - destruct t; try done. eapply returns_bind; [by apply leaf_union|]. intros r [Hr Hd]. apply returns_const.
    split; [done|]. intros rp c Hrp _. by apply Hd.
Qed.

(** ** Arms of one place *)

Lemma union_in_place_ok D t a b :
  (forall D' t', tsize t' < tsize t -> UnionOK D' t') -> same_place a b = true -> wfg D t a -> wfg D t b ->
  returns (fun n => union_in_place (gops n) n a b) (SemG D t (either a b)).
Proof.
  revert D t b. induction a as [p|p|m|p|a IHa|arms] using guard_ind; intros D t b IH Hs Ha Hb.
  1: destruct b as [q| |[]| |]; try done; by apply union_basic.
  1: destruct b as [| |[]|q|]; try done; by apply union_basic.
  1: destruct b as [|m2|[]| |]; try done; by apply union_basic.
  - destruct b as [| |[q|]| |]; try done. simpl. destruct (domain_level D t p Ha) as (sh & Hq & Hp & Hcell).
    assert (Hwq : wf (sh :: D) q) by (by apply Hq).
    eapply returns_bind; [by apply (key_union (sh :: D) p q)|]. intros r [Hr Hd]. apply returns_const.
    split; [by apply Hq|]. intros rp c Hrp Hc. destruct (Hcell c Hc) as (k & c' & -> & Hk). simpl. rewrite Hd by (by constructor). done.
  - destruct b as [| |[|b]| |]; try done. destruct t as [| |sh t| |]; try done. simpl in *.
    eapply returns_bind; [apply (IHa (sh :: D) t b); [|done..]; intros D' t' Hlt; apply IH; simpl; lia|].
    intros r [Hr Hd]. apply returns_const. split; [done|]. intros rp c Hrp Hc. destruct c as [|[k|] c]; try done.
    destruct Hc as [Hk Hc]. apply Hd; [by constructor|done].
  - done.
Qed.

Lemma merge_arm_ok D t merged arm :
  (forall D' t', tsize t' < tsize t -> UnionOK D' t') -> Forall (wfg D t) merged -> wfg D t arm ->
  returns (fun n => merge_arm (gops n) n merged arm) (fun r => r <> [] /\ Forall (wfg D t) r /\
    forall rp c, typed D rp -> cell_of t c -> any_names r rp c = any_names merged rp c || names arm rp c).
Proof.
  intros IH Hm Ha. induction Hm as [|g merged Hg Hm IHm]; simpl.
  { apply returns_const. split; [done|]. split; [by constructor|]. intros rp c _ _. unfold any_names. simpl. btauto. }
  destruct (same_place g arm) eqn:Es.
  - eapply returns_bind; [by apply (union_in_place_ok D t g arm)|]. intros u [Hu Hd]. apply returns_const.
    split; [done|]. split; [by constructor|]. intros rp c Hrp Hc. unfold any_names. simpl. rewrite Hd by done. unfold either. btauto.
  - eapply returns_bind; [exact IHm|]. intros r (_ & Hr & Hd). apply returns_const. split; [done|]. split; [by constructor|].
    intros rp c Hrp Hc. specialize (Hd rp c Hrp Hc). unfold any_names in *. simpl. rewrite Hd. btauto.
Qed.

Lemma merge_arms_ok D t flat :
  (forall D' t', tsize t' < tsize t -> UnionOK D' t') -> flat <> [] -> Forall (wfg D t) flat ->
  returns (fun n => foldl (fun acc arm => merged ← acc; merge_arm (gops n) n merged arm) (Some []) flat)
    (fun r => r <> [] /\ Forall (wfg D t) r /\ forall rp c, typed D rp -> cell_of t c -> any_names r rp c = any_names flat rp c).
Proof.
  intros IH Hne Hw. eapply returns_impl; [apply (returns_foldl (fun n merged arm => merge_arm (gops n) n merged arm)
    (fun left r => Forall (wfg D t) r /\ exists done_, done_ ++ left = flat /\ (done_ <> [] -> r <> []) /\
       forall rp c, typed D rp -> cell_of t c -> any_names r rp c = any_names done_ rp c))|].
  - split; [constructor|]. by exists [].
  - intros arm left r (Hr & done_ & E & _ & Hd).
    assert (Ha : wfg D t arm).
    { rewrite Forall_forall in Hw. apply Hw. rewrite <- E. apply elem_of_app. right. apply list_elem_of_here. }
    eapply returns_impl; [by apply (merge_arm_ok D t r arm)|]. intros r' (Hne' & Hr' & Hd'). split; [done|].
    exists (done_ ++ [arm]). split; [by rewrite <- app_assoc|]. split; [done|]. intros rp c Hrp Hc.
    rewrite Hd', Hd, any_names_app by done. unfold any_names at 3. simpl. btauto.
  - intros r (Hr & done_ & E & Hn & Hd). rewrite app_nil_r in E. subst done_. split; [by apply Hn|done].
Qed.

(** ** What a shallower arm covers *)

(** The levels above and the tiling at a depth, and the keys above and the rest of a cell there. *)
Fixpoint at_level (D : Domain) (t : Tiling) (d : nat) {struct d} : option (Domain * Tiling) :=
  match d with
  | O => Some (D, t)
  | S d => match t with TDataFunction sh t => at_level (sh :: D) t d | _ => None end
  end.

Fixpoint at_cell (rp : list Value) (c : list Step) (d : nat) {struct d} : option (list Value * list Step) :=
  match d with
  | O => Some (rp, c)
  | S d => match c with SKey k :: c => at_cell (k :: rp) c d | _ => None end
  end.

Lemma wrap_at d D t (h : TileGuard) : wfg D t (wrap_guard d h) <->
  exists D' t', at_level D t d = Some (D', t') /\ wfg D' t' h.
Proof.
  revert D t. induction d as [|d IH]; intros D t; simpl.
  - split; [intros H; by exists D, t|]. by intros (D' & t' & [= <- <-] & ?).
  - destruct t as [| |sh t| |]; try (split; [done|]; by intros (D' & t' & ? & _)). apply IH.
Qed.

Lemma names_at d (h : TileGuard) rp c :
  names (wrap_guard d h) rp c = match at_cell rp c d with Some (rp', c') => names h rp' c' | None => false end.
Proof. revert rp c. induction d as [|d IH]; intros rp c; simpl; [done|]. destruct c as [|[k|] c]; try done. Qed.

Lemma at_level_above D t d l D' t' :
  at_level D t d = Some (D', t') -> l < d -> exists sh Dl tl, at_level D t l = Some (Dl, TDataFunction sh tl) /\ drop (d - 1 - l) D' = sh :: Dl.
Proof.
  revert D t l. induction d as [|d IH]; intros D t l Hd Hl; [lia|]. simpl in Hd. destruct t as [| |sh t| |]; try done.
  destruct l as [|l].
  - exists sh, D, t. split; [done|]. replace (S d - 1 - 0) with d by lia. clear -Hd. revert sh D t Hd.
    induction d as [|d IH]; intros sh D t; simpl; [by intros [= <- <-]|]. destruct t as [| |sh' t| |]; try done. intros Hd.
    specialize (IH sh' (sh :: D) t Hd). apply (f_equal (drop 1)) in IH. rewrite drop_drop in IH.
    by rewrite Nat.add_1_r in IH.
  - destruct (IH (sh :: D) t l Hd) as (sh' & Dl & tl & H1 & H2); [lia|]. exists sh', Dl, tl. split; [done|].
    by replace (S d - 1 - S l) with (d - 1 - l) by lia.
Qed.

Lemma at_cell_above rp c d l rp' c' :
  at_cell rp c d = Some (rp', c') -> l < d -> exists k rl cl, at_cell rp c l = Some (rl, SKey k :: cl) /\ drop (d - 1 - l) rp' = k :: rl.
Proof.
  revert rp c l. induction d as [|d IH]; intros rp c l Hd Hl; [lia|]. simpl in Hd. destruct c as [|[k|] c]; try done.
  destruct l as [|l].
  - exists k, rp, c. split; [done|]. replace (S d - 1 - 0) with d by lia. clear -Hd. revert k rp c Hd.
    induction d as [|d IH]; intros k rp c; simpl; [by intros [= <- <-]|]. destruct c as [|[k'|] c]; try done. intros Hd.
    specialize (IH k' (k :: rp) c Hd). apply (f_equal (drop 1)) in IH. rewrite drop_drop in IH. by rewrite Nat.add_1_r in IH.
  - destruct (IH (k :: rp) c l Hd) as (k' & rl & cl & H1 & H2); [lia|]. exists k', rl, cl. split; [done|].
    by replace (S d - 1 - S l) with (d - 1 - l) by lia.
Qed.

Lemma at_cell_ok D t rp c d D' t' :
  at_level D t d = Some (D', t') -> typed D rp -> cell_of t c -> exists rp' c', at_cell rp c d = Some (rp', c') /\ typed D' rp' /\ cell_of t' c'.
Proof.
  revert D t rp c. induction d as [|d IH]; intros D t rp c; simpl; [intros [= <- <-]; eauto|].
  destruct t as [| |sh t| |]; try done. intros Hd Hrp Hc. destruct c as [|[k|] c]; try done. destruct Hc as [Hk Hc].
  apply (IH (sh :: D) t); [done|by constructor|done].
Qed.

Lemma at_level_length D t d D' t' : at_level D t d = Some (D', t') -> length D' = d + length D.
Proof.
  revert D t. induction d as [|d IH]; intros D t; simpl; [by intros [= <- <-]|]. destruct t as [| |sh t| |]; try done.
  intros Hd. apply IH in Hd. simpl in Hd. lia.
Qed.

Lemma domain_at_wrap g d p : domain_at g = Some (d, p) -> g = wrap_guard d (GFunction (FDomain p)).
Proof.
  revert d. induction g as [| | |q|g IH|] using guard_ind; intros d; simpl; try done; [by intros [= <- <-]|].
  destruct (domain_at g) as [[d' p']|]; simpl; [|done]. intros [= <- ->]. simpl. f_equal. f_equal. by apply IH.
Qed.

Lemma with_domain_wrap d p q : with_domain (wrap_guard d (GFunction (FDomain p))) q = Some (wrap_guard d (GFunction (FDomain q)) : TileGuard).
Proof. induction d as [|d IH]; simpl; [done|]. by rewrite IH. Qed.

(** The predicates by depth: each is an arm's, or names nothing. *)
Lemma depths_ok (depths : list (nat * Predicate)) above0 :
  Forall (fun dp => dp.1 < length above0) depths ->
  let above := foldl (fun above '(depth, p) => <[depth := p]> above) above0 depths in
  length above = length above0 /\ forall l q, above !! l = Some q -> above0 !! l = Some q \/ (l, q) ∈ depths.
Proof.
  revert above0. induction depths as [|[d p] depths IH]; intros above0 Hd; simpl; [by split; [|left]|].
  apply Forall_cons in Hd as [Hd0 Hd]. simpl in Hd0. destruct (IH (<[d := p]> above0)) as [Hlen Hq].
  { eapply Forall_impl; [exact Hd|]. intros x. by rewrite length_insert. }
  rewrite length_insert in Hlen. split; [done|]. intros l q Hl. destruct (Hq l q Hl) as [Hi|Hi]; [|right; by apply list_elem_of_further].
  destruct (decide (l = d)) as [->|].
  - rewrite list_lookup_insert_eq in Hi by done. injection Hi as <-. right. apply list_elem_of_here.
  - rewrite list_lookup_insert_ne in Hi by done. by left.
Qed.

(** An arm pruned: what it loses, an arm of lesser depth names. *)
Definition Pruned (D : Domain) (t : Tiling) (depths : list (nat * Predicate)) (arm r : TileGuard) : Prop :=
  wfg D t r /\ forall rp c, typed D rp -> cell_of t c ->
    (names r rp c = true -> names arm rp c = true) /\
    (names arm rp c = true -> names r rp c = true \/
       exists d p l q, domain_at arm = Some (d, p) /\ l < d /\ (l, q) ∈ depths /\ names (wrap_guard l (GFunction (FDomain q))) rp c = true).

Lemma prune_ok D t depths above arm :
  wfg D t arm -> (forall l q, (l, q) ∈ depths -> wfg D t (wrap_guard l (GFunction (FDomain q)))) ->
  (forall d p, domain_at arm = Some (d, p) -> d < length above) ->
  (forall l q, above !! l = Some q -> q = PFalse \/ (l, q) ∈ depths) ->
  returns (fun n => match domain_at arm with
    | Some (S depth, p) =>
        o ← without_covered n p (take (S depth) above);
        match o with Some kept => with_domain arm kept | None => Some arm end
    | _ => Some arm
    end) (Pruned D t depths arm).
Proof.
  intros Hw Hdep Hlen Habove. assert (Hself : Pruned D t depths arm arm) by (split; [done|]; intros rp c _ _; split; [done|by left]).
  destruct (domain_at arm) as [[[|d] p]|] eqn:Ed; [by apply returns_const| |by apply returns_const].
  pose proof (domain_at_wrap _ _ _ Ed) as Earm. specialize (Hlen (S d) p eq_refl).
  pose proof Hw as Hw'. rewrite Earm in Hw'. apply wrap_at in Hw' as (D' & t' & Hat & Hp).
  destruct (domain_level D' t' p Hp) as (sh & Hq & Hwp & Hcell). pose proof (at_level_length _ _ _ _ _ Hat) as Hl'.
  assert (Hlook : forall l q, take (S d) above !! l = Some q -> l < S d /\ (q = PFalse \/ (l, q) ∈ depths)).
  { intros l q Hl. pose proof (lookup_lt_Some _ _ _ Hl) as Hlt. rewrite length_take in Hlt. split; [lia|].
    rewrite lookup_take_lt in Hl by lia. by apply Habove. }
  assert (Htk : length (take (S d) above) = S d) by (rewrite length_take; lia).
  eapply returns_bind; [apply (without_covered_ok sh D' p)|].
  - intros ->. simpl in Hl'. lia.
  - done.
  - rewrite Htk. lia.
  - intros l q Hl. rewrite Htk. destruct (Hlook l q Hl) as [Hlt [->|Hin]].
    + destruct (drop (S d - 1 - l) D') eqn:E; [|done]. apply (f_equal length) in E. rewrite length_drop in E. simpl in E. lia.
    + destruct (at_level_above D t (S d) l D' t' Hat Hlt) as (shl & Dl & tl & Hatl & Hdrop). rewrite Hdrop.
      pose proof (Hdep l q Hin) as (D2 & t2 & Hat2 & Hq2)%wrap_at. rewrite Hatl in Hat2. by injection Hat2 as <- <-.
  - intros [kept|] Hk; [|by apply returns_const]. destruct (Hk kept eq_refl) as [Hwk Hdk]. rewrite Earm, with_domain_wrap.
    apply returns_const. split; [apply wrap_at; exists D', t'; split; [done|by apply Hq]|]. intros rp c Hrp Hc.
    destruct (at_cell_ok D t rp c (S d) D' t' Hat Hrp Hc) as (rp' & c' & Hcl & Hrp' & Hc').
    destruct (Hcell c' Hc') as (k & c'' & -> & Hk'). rewrite !names_at, Hcl. simpl.
    destruct (Hdk k rp') as [K1 K2]; [by constructor|]. split; [done|]. intros Hn.
    destruct (covered_by (take (S d) above) rp') eqn:Ec; [right|left; by apply K2].
    unfold covered_by in Ec. apply existsb_true_iff in Ec as ([l q] & Hl%elem_of_imap_pair & Hdq). simpl in Hdq. rewrite Htk in Hdq.
    destruct (Hlook l q Hl) as [Hlt [->|Hin]]; [done|]. exists (S d), p, l, q. split; [rewrite Earm in Ed; exact Ed|]. split; [done|]. split; [done|].
    destruct (at_cell_above rp c (S d) l rp' _ Hcl Hlt) as (kl & rl & cl & Hat2 & Hdr). rewrite names_at, Hat2. simpl. by rewrite <- Hdr.
Qed.

(** Dropping empty arms, unless all are. *)
Lemma drop_empty D t (l : list TileGuard) :
  l <> [] -> Forall (wfg D t) l ->
  let r := if existsb (fun g => negb (guard_is_empty g)) l then List.filter (fun g => negb (guard_is_empty g)) l else take 1 l in
  r <> [] /\ Forall (wfg D t) r /\ forall rp c, typed D rp -> cell_of t c -> any_names r rp c = any_names l rp c.
Proof.
  intros Hne Hw. destruct (existsb _ l) eqn:E; simpl.
  - split; [|split].
    + apply existsb_true_iff in E as (g & Hg & He). intros Hn.
      assert (Hi : g ∈ List.filter (fun g => negb (guard_is_empty g)) l) by (apply list_elem_of_In, filter_In; by rewrite <- list_elem_of_In).
      rewrite Hn in Hi. by apply elem_of_nil in Hi.
    + apply Forall_forall. intros g Hg. apply list_elem_of_In, filter_In in Hg as [Hg _]. rewrite Forall_forall in Hw. by apply Hw, list_elem_of_In.
    + intros rp c Hrp Hc. unfold any_names. clear E Hne. induction Hw as [|g l Hg _ IH]; simpl; [done|].
      destruct (guard_is_empty g) eqn:Ee; simpl; rewrite IH; [|done]. by rewrite (empty_sound D t g).
  - destruct l as [|g l]; [done|]. simpl. rewrite take_0. apply Forall_cons in Hw as [Hg Hw]. split; [done|]. split; [by constructor|].
    intros rp c Hrp Hc. unfold any_names. simpl in *. apply orb_false_iff in E as [Eg E].
    assert (existsb (fun g => names g rp c) l = false) as ->; [|btauto]. apply existsb_false_iff, Forall_forall. intros h Hh.
    rewrite Forall_forall in Hw. apply (empty_sound D t); [by apply Hw| |done..]. apply existsb_false_iff in E. rewrite Forall_forall in E.
    specialize (E h Hh). by apply negb_false_iff in E.
Qed.

Lemma without_covered_arms_ok D t arms :
  arms <> [] -> Forall (wfg D t) arms ->
  returns (fun n => without_covered_arms n arms) (fun r => r <> [] /\ Forall (wfg D t) r /\
    forall rp c, typed D rp -> cell_of t c -> any_names r rp c = any_names arms rp c).
Proof.
  intros Hne Hw. unfold without_covered_arms. destruct (omap domain_at arms) as [|x0 dl] eqn:Edl; [by apply returns_const|].
  rewrite <- Edl. clear x0 dl Edl. set (depths := omap domain_at arms). set (deepest := foldr Nat.max 0 (map fst depths)).
  assert (Hdeep : forall d p, (d, p) ∈ depths -> d <= deepest).
  { unfold deepest. clear. induction depths as [|[d' p'] l IH]; intros d p Hin; [by apply elem_of_nil in Hin|].
    apply elem_of_cons in Hin as [[= -> ->]|Hin]; simpl; [lia|]. specialize (IH d p Hin). lia. }
  destruct (depths_ok depths (replicate (S deepest) PFalse)) as [Hlen Hq].
  { apply Forall_forall. intros [d p] Hin. rewrite length_replicate. specialize (Hdeep d p Hin). simpl. lia. }
  set (above := foldl _ _ depths) in *. rewrite length_replicate in Hlen.
  assert (Hdep : forall l q, (l, q) ∈ depths -> exists arm, arm ∈ arms /\ domain_at arm = Some (l, q)).
  { intros l q Hin. by apply list_elem_of_omap in Hin. }
  rewrite Forall_forall in Hw. eapply returns_bind; [apply (returns_mapM _ (Pruned D t depths))|].
  { apply Forall_forall. intros arm Ha. apply (prune_ok D t depths above arm); [by apply Hw| | |].
    - intros l q Hin. destruct (Hdep l q Hin) as (g & Hg & Eg). apply domain_at_wrap in Eg as <-. by apply Hw.
    - intros d p Ed. rewrite Hlen. apply Nat.lt_succ_r, (Hdeep d p). apply list_elem_of_omap. eauto.
    - intros l q Hl. destruct (Hq l q Hl) as [Hi|Hi]; [left|by right]. by apply lookup_replicate in Hi as [-> _]. }
  intros pruned Hp. apply returns_const. destruct (drop_empty D t pruned) as (R1 & R2 & R3).
  { intros ->. by inversion Hp; subst. }
  { apply Forall_forall. intros r (i & Hi)%list_elem_of_lookup. by destruct (Forall2_lookup_r _ _ _ _ _ Hp Hi) as (a & _ & ? & _). }
  split; [done|]. split; [done|]. intros rp c Hrp Hc. rewrite R3 by done. apply eq_true_iff_eq. unfold any_names. rewrite !existsb_true_iff. split.
  - intros (r & (i & Hi)%list_elem_of_lookup & Hr). destruct (Forall2_lookup_r _ _ _ _ _ Hp Hi) as (a & Ha & _ & Hl).
    exists a. split; [by eapply list_elem_of_lookup_2|]. by apply (Hl rp c).
  - assert (Hmain : forall bound a, a ∈ arms -> (forall d p, domain_at a = Some (d, p) -> d < bound) -> names a rp c = true ->
      exists r, r ∈ pruned /\ names r rp c = true); [|intros (a & Ha & Hn); by apply (Hmain (S deepest) a); [|intros d p Ed;
        apply Nat.lt_succ_r, (Hdeep d p), list_elem_of_omap; eauto|]].
    induction bound as [|bound IH]; intros a (i & Hi)%list_elem_of_lookup Hb Hn;
      destruct (Forall2_lookup_l _ _ _ _ _ Hp Hi) as (r & Hr & _ & Hl); destruct (proj2 (Hl rp c Hrp Hc) Hn) as [?|(d & p & l & q & Ed & Hlt & Hin & Hnl)];
      try (exists r; split; [by eapply list_elem_of_lookup_2|done]).
    + specialize (Hb d p Ed). lia.
    + destruct (Hdep l q Hin) as (g & Hg & Eg). apply (IH g Hg); [|by rewrite (domain_at_wrap _ _ _ Eg)].
      intros d' p' Ed'. rewrite Eg in Ed'. injection Ed' as <- <-. specialize (Hb d p Ed). lia.
Qed.

(** ** [flatten_or] *)

Lemma flatten_step D t :
  (forall D' t', tsize t' < tsize t -> FlatOK D' t') -> (forall D' t', tsize t' < tsize t -> UnionOK D' t') ->
  forall arms, arms <> [] -> Forall (wfg D t) arms ->
  returns (fun n => flatten_guards (gops n) n arms) (SemG D t (any_names arms)).
Proof.
  intros Hflat Hunion arms Hne Hw. unfold flatten_guards.
  destruct (arms_concat D t arms (map chains arms)) as (C1 & C2 & C3).
  { clear Hne. induction Hw as [|a arms Ha _ IH]; constructor; [by apply chains_ok|done]. }
  rewrite <- flat_map_concat_map in C1, C2, C3. specialize (C2 Hne).
  eapply returns_bind; [apply (returns_mapM _ (Arms D t)); eapply Forall_impl; [exact C1|]; intros g Hg; by apply lift_ok|].
  intros lifted Hl. destruct (arms_concat D t _ _ Hl) as (L1 & L2 & L3). specialize (L2 C2).
  destruct (List.find is_universal (concat lifted)) as [g|] eqn:Ef.
  - apply find_some in Ef as [Hin Hu]. apply list_elem_of_In in Hin. apply returns_const.
    rewrite Forall_forall in L1. specialize (L1 g Hin). split; [done|]. intros rp c Hrp Hc.
    rewrite <- C3, <- L3, (universal_sound D t g) by done. symmetry. apply existsb_true_iff. exists g. split; [done|].
    by apply (universal_sound D t g).
  - destruct (drop_empty D t (concat lifted) L2 L1) as (E1 & E2 & E3). cbv zeta.
    eapply returns_bind; [by apply (merge_arms_ok D t)|]. intros merged (M1 & M2 & M3).
    eapply returns_bind; [by apply (without_covered_arms_ok D t)|]. intros kept (K1 & K2 & K3).
    assert (Hreg : forall rp c, typed D rp -> cell_of t c -> any_names kept rp c = any_names arms rp c).
    { intros rp c Hrp Hc. by rewrite K3, M3, E3, L3, C3. }
    destruct kept as [|one [|two kept]]; [done|..]; apply returns_const.
    + split; [by apply Forall_cons in K2 as [? _]|]. intros rp c Hrp Hc. rewrite <- Hreg by done. unfold any_names. simpl. btauto.
    + split; [by apply wfg_or|]. intros rp c Hrp Hc. by rewrite <- Hreg.
Qed.

(** ** [union] *)

Lemma function_union_ok D t f1 f2 :
  (forall D' t', tsize t' < tsize t -> UnionOK D' t') -> wfg D t (GFunction f1) -> wfg D t (GFunction f2) ->
  returns (fun n => function_union (gops n) n f1 f2) (fun o => forall f, o = Some f ->
    SemG D t (either (GFunction f1) (GFunction f2)) (GFunction f)).
Proof.
  intros IH H1 H2. unfold function_union.
  change (function_is_empty f1) with (guard_is_empty (GFunction f1)). change (function_is_empty f2) with (guard_is_empty (GFunction f2)).
  change (function_is_universal f1) with (is_universal (GFunction f1)). change (function_is_universal f2) with (is_universal (GFunction f2)).
  unfold SemG, either.
  destruct (guard_is_empty (GFunction f1)) eqn:E1.
  { apply returns_const. intros f [= <-]. split; [done|]. intros rp c Hrp Hc. by rewrite (empty_sound D t (GFunction f1)). }
  destruct (guard_is_empty (GFunction f2)) eqn:E2.
  { apply returns_const. intros f [= <-]. split; [done|]. intros rp c Hrp Hc. rewrite (empty_sound D t (GFunction f2)) by done. btauto. }
  destruct (is_universal (GFunction f1)) eqn:U1.
  { apply returns_const. intros f [= <-]. split; [done|]. intros rp c Hrp Hc. by rewrite (universal_sound D t (GFunction f1)). }
  destruct (is_universal (GFunction f2)) eqn:U2.
  { apply returns_const. intros f [= <-]. split; [done|]. intros rp c Hrp Hc. rewrite (universal_sound D t (GFunction f2)) by done. btauto. }
  destruct f1 as [p|g], f2 as [q|h]; try (by apply returns_const).
  - destruct (domain_level D t p H1) as (sh & Hiff & Hp & Hcell). apply Hiff in H2 as Hq.
    eapply returns_bind; [by apply (key_union (sh :: D) p q)|]. intros u [Hu Hd]. apply returns_const. intros f [= <-].
    split; [by apply Hiff|]. intros rp c Hrp Hc. destruct (Hcell c Hc) as (k & c' & -> & Hk). simpl. rewrite Hd by (by constructor). done.
  - destruct t as [| |sh t| |]; try done. eapply returns_bind; [apply (IH (sh :: D) t); [simpl; lia|done..]|].
    intros u [Hu Hd]. apply returns_const. intros f [= <-]. split; [done|]. intros rp c Hrp Hc. destruct c as [|[k|] c]; try done.
    destruct Hc as [Hk Hc]. simpl. rewrite Hd by (by try constructor). done.
Qed.

Lemma union_step D t :
  (forall D' t', tsize t' < tsize t -> UnionOK D' t') ->
  (forall arms, arms <> [] -> Forall (wfg D t) arms -> returns (fun n => flatten_guards (gops n) n arms) (SemG D t (any_names arms))) ->
  UnionOK D t.
Proof.
  intros Hunion Hflat a b Ha Hb. destruct (basic a b) eqn:Eb; [by apply union_basic|].
  assert (Hor : forall arms g, arms <> [] -> Forall (wfg D t) arms -> wfg D t g ->
    returns (fun n => flatten_guards (gops n) n (arms ++ [g])) (SemG D t (fun rp c => any_names arms rp c || names g rp c))).
  { intros arms g Hne Hw Hg. eapply returns_impl; [apply Hflat; [by destruct arms|]; apply Forall_app; by repeat constructor|].
    intros r [Hr Hd]. split; [done|]. intros rp c Hrp Hc. rewrite Hd, any_names_app by done. unfold any_names at 2. simpl. btauto. }
  apply step_guard_union.
  assert (Hf : forall f1 f2, a = GFunction f1 -> b = GFunction f2 ->
    returns (fun n => u ← function_union (gops n) n f1 f2;
      match u with Some merged => flatten_guards (gops n) n [GFunction merged] | None => flatten_guards (gops n) n [a; b] end)
      (SemG D t (either a b))).
  { intros f1 f2 -> ->. eapply returns_bind; [by apply (function_union_ok D t f1 f2)|]. intros [f|] Hf.
    - destruct (Hf f eq_refl) as [Hwf Hd]. eapply returns_impl; [apply Hflat; [done|by constructor]|]. intros r [Hr Hdr].
      split; [done|]. intros rp c Hrp Hc. rewrite Hdr, <- Hd by done. unfold any_names. simpl. btauto.
    - eapply returns_impl; [apply Hflat; [done|by repeat constructor]|]. intros r [Hr Hdr].
      split; [done|]. intros rp c Hrp Hc. rewrite Hdr by done. unfold any_names, either. simpl. btauto. }
  destruct a as [p|m1|f1|p|arms1].
  5:{ apply wfg_or in Ha as [Hne Ha]. eapply returns_impl; [by apply (Hor arms1 b)|]. done. }
  all: destruct b as [q|m2|f2|q|arms2]; try done.
  all: try (apply wfg_or in Hb as [Hne Hb]; eapply returns_impl; [by eapply (Hor arms2)|]; intros r [Hr Hd]; (split; [done|]);
    intros rp c Hrp Hc; rewrite Hd by done; simpl; apply orb_comm).
  all: try (by apply Hf).
  all: exfalso; try destruct f1; try destruct f2; by destruct t.
Qed.

(** Every tiling's guards have unions. *)
Theorem guards_all D t : FlatOK D t /\ UnionOK D t.
Proof.
  revert D. induction t as [t IH] using (Wf_nat.induction_ltof1 _ tsize). intros D. unfold Wf_nat.ltof in IH.
  assert (Hstep := flatten_step D t (fun D' t' H => proj1 (IH t' H D')) (fun D' t' H => proj2 (IH t' H D'))).
  split; [intros arms Hne Hw; apply step_flatten; by apply Hstep|]. apply union_step; [|done]. intros D' t' H. by apply IH.
Qed.

(** Arms restated one by one, as the guard of their union. *)
Lemma distribute_arms D t (f : nat -> TileGuard -> option TileGuard) (g : TileGuard -> list Value -> list Step -> bool) h arms :
  arms <> [] -> Forall (fun a => returns (fun n => f n a) (SemG D t (g a))) arms ->
  (forall rp c, typed D rp -> cell_of t c -> existsb (fun a => g a rp c) arms = h rp c) ->
  returns (fun n => rs ← mapM (f n) arms; guard_flatten_or n rs) (SemG D t h).
Proof.
  intros Hne Hf Hg. eapply returns_bind; [apply (returns_mapM _ (fun a r => SemG D t (g a) r)), Hf|]. intros rs Hrs.
  eapply returns_impl; [apply (proj1 (guards_all D t))|].
  - intros ->. by inversion Hrs; subst.
  - clear -Hrs. induction Hrs as [|a r arms rs [Hr _] _ IH]; by constructor.
  - intros r [Hw Hd]. split; [done|]. intros rp c Hrp Hc. rewrite Hd, <- Hg by done. unfold any_names.
    clear -Hrs Hrp Hc. induction Hrs as [|a r' arms rs [_ Hr] _ IH]; simpl; [done|]. by rewrite Hr, IH.
Qed.
End GuardUnion.

(** * Intersections of guards, and the paths a guard covers

    [intersect] names exactly the cells both guards name, also where one names keys and the
    other what lies under them; [covers_path] and [whole_keys] claim no cell the guard does
    not name. *)

Section GuardMeet.
Context {K : Type} {KS : KeySets K} {KL : KeySetLaws K KS}.
Abbreviation Predicate := (Predicate K).
Abbreviation Value := (Value K).
Abbreviation TileGuard := (TileGuard K).
Abbreviation Tiling := (Tiling Shape).

(** ** A requirement on a level above *)

Section Require.
Context (p : Predicate) (at_ : nat).

(** [p] speaks of the keys of level [at_], of the levels [D] of which there are [own]. *)
Definition of_level (D : Domain) (own : nat) : Prop :=
  length D = own /\ at_ < own /\ wf (drop (own - 1 - at_) D) p.

Lemma require_level_unfold n own pred : require_level n p at_ own pred =
  match pred with
  | POr arms => rs ← mapM (require_level n p at_ own) arms; flatten_or (ops n) rs
  | _ =>
      let '(enclosing, here) := split_qualification pred in
      if own =? at_ + 1 then e ← intersect n enclosing p; Some (qualified e here)
      else match own with
      | O => None
      | S own => e ← require_level n p at_ own enclosing; Some (qualified e here)
      end
  end.
Proof. by destruct own, pred. Qed.

Lemma split_parts sh D pred :
  D <> [] -> wf (sh :: D) pred -> is_or pred = false ->
  let '(e, h) := split_qualification pred in
  wf D e /\ wf1 sh h /\ forall k rp, typed (sh :: D) (k :: rp) -> den pred (k :: rp) = den e rp && den h [k].
Proof.
  intros HD Hw Ho. destruct (is_qualified pred) eqn:Eq.
  - destruct pred as [| | | | | |e h]; try done. simpl. destruct Hw as (He & Hh & _). done.
  - assert (Hw1 : wf1 sh pred) by (by destruct pred). assert (split_qualification pred = (PTrue, pred)) as -> by (by destruct pred).
    split; [by destruct D|]. split; [done|]. intros k rp _. simpl. by apply (den_head sh).
Qed.

Lemma require_level_ok own sh D pred :
  of_level D own -> wf (sh :: D) pred ->
  returns (fun n => require_level n p at_ own pred)
    (Sem (sh :: D) (fun rp => den pred rp && den p (drop (own - at_) rp))).
Proof.
  revert sh D pred. induction own as [|own IH]; intros sh D pred (Hlen & Hat & Hp) Hw; [lia|].
  assert (HD : D <> []) by (by intros ->). revert Hw.
  assert (Hdrop : forall k (rp : list Value), drop (S own - at_) (k :: rp) = drop (own - at_) rp) by (intros k rp; by rewrite Nat.sub_succ_l by lia).
  assert (Hone : forall pred, is_or pred = false -> wf (sh :: D) pred -> returns (fun n => require_level n p at_ (S own) pred)
    (Sem (sh :: D) (fun rp => den pred rp && den p (drop (S own - at_) rp)))).
  { clear pred. intros pred Ho Hw. pose proof (split_parts sh D pred HD Hw Ho) as Hs. destruct (split_qualification pred) as [e h] eqn:Es.
    destruct Hs as (He & Hh & Hden).
    assert (Hre : returns (fun n => if S own =? at_ + 1 then intersect n e p else require_level n p at_ own e)
      (Sem D (fun rp => den e rp && den p (drop (own - at_) rp)))).
    { destruct (Nat.eqb_spec (S own) (at_ + 1)) as [Heq|Hne].
      - replace (S own - 1 - at_) with 0 in Hp by lia. rewrite drop_0 in Hp.
        eapply returns_impl; [by apply (key_intersect D e p)|]. intros r [Hr Hd]. split; [done|]. intros rp Hrp.
        rewrite Hd by done. unfold meet_of. by replace (own - at_) with 0 by lia.
      - destruct D as [|sh' D']; [done|]. apply IH; [|done]. simpl in Hlen. split; [lia|]. split; [lia|].
        replace (S own - 1 - at_) with (S (own - 1 - at_)) in Hp by lia. done. }
    eapply returns_ext; [|eapply (returns_bind _ (fun n e => Some (qualified e h))); [exact Hre|]].
    - intros n. rewrite require_level_unfold. destruct pred; try done; rewrite Es; by destruct (S own =? at_ + 1).
    - intros r [Hr Hd]. apply returns_const. destruct (qualified_ok sh D r h HD Hr Hh) as [Hq Hqd]. split; [done|]. intros rp Hrp.
      destruct (typed_cons _ _ _ Hrp) as (k & ab & ->). rewrite Hqd, Hden, Hdrop by done. inversion Hrp; subst. rewrite Hd by done. btauto. }
  induction pred as [pred Ho _|arms IHa|e h _] using path_ind; [by apply Hone| |by apply Hone]. intros Hw.
  assert (Harms : Forall (wf (sh :: D)) arms) by (apply Forall_forall; intros a Ha; by apply (wf_arm _ a arms)).
  eapply returns_ext; [intros n; symmetry; apply require_level_unfold|].
  apply (distribute (sh :: D) (fun n => require_level n p at_ (S own)) (fun a rp => den a rp && den p (drop (S own - at_) rp)));
    [by apply key_flatten|by eapply wf_arms_nonempty| |].
  - rewrite Forall_forall in *. intros a Ha. by apply IHa; [|apply Harms].
  - intros rp _. apply existsb_and_r.
Qed.

Lemma require_leaf own D pred :
  of_level D own -> leaf_ok D pred ->
  returns (fun n => require_level n p at_ own pred) (SemL D (fun rp => leaf_den pred rp && den p (drop (own - 1 - at_) rp))).
Proof.
  intros Hof Hl. pose proof Hof as (Hlen & Hat & Hp). assert (HD : D <> []) by (intros ->; simpl in Hlen; lia).
  assert (Hform : returns (fun n => require_level n p at_ own pred) (leaf_ok D)).
  { eapply returns_ext; [intros n; symmetry; apply require_level_unfold|].
    assert (Hq : forall e h, h = PTrue \/ h = PFalse -> wf D e -> returns (fun n =>
      if own =? at_ + 1 then r ← intersect n e p; Some (qualified r h)
      else match own with O => None | S own => r ← require_level n p at_ own e; Some (qualified r h) end) (leaf_ok D)).
    { intros e h Hh He. assert (Hlq : forall r, wf D r -> leaf_ok D (qualified r h)).
      { intros r Hr. destruct Hh as [->| ->]; [by apply qualified_leaf|]. unfold qualified. simpl. rewrite orb_true_r. by right; left. }
      destruct (Nat.eqb_spec own (at_ + 1)) as [Heq|Hne].
      - replace (own - 1 - at_) with 0 in Hp by lia. rewrite drop_0 in Hp.
        eapply returns_bind; [by apply (key_intersect D e p)|]. intros r [Hr _]. apply returns_const. by apply Hlq.
      - destruct own as [|own]; [lia|]. destruct D as [|sh D]; [done|]. eapply returns_bind; [apply (require_level_ok own sh D e)|].
        + simpl in Hlen. split; [lia|]. split; [lia|]. by replace (S own - 1 - at_) with (S (own - 1 - at_)) in Hp by lia.
        + done.
        + intros r [Hr _]. apply returns_const. by apply Hlq. }
    destruct Hl as [->|[->|(e & -> & He & _)]]; simpl; apply Hq; try tauto; by destruct D. }
  eapply returns_impl; [apply returns_and; [exact Hform|by apply (require_level_ok own SUnit D pred), leaf_wf]|].
  intros r [Hr [_ Hd]]. split; [done|]. intros rp Hrp. rewrite Hd by (by apply typed_unit). unfold leaf_den.
  by replace (own - at_) with (S (own - 1 - at_)) by lia.
Qed.

Lemma of_level_deeper D own sh : of_level D own -> of_level (sh :: D) (own + 1).
Proof.
  intros (Hlen & Hat & Hp). split; [simpl; lia|]. split; [lia|]. by replace (own + 1 - 1 - at_) with (S (own - 1 - at_)) by lia.
Qed.

Lemma require_at_ok g D t level :
  of_level D level -> wfg D t g ->
  returns (fun n => require_at n g p at_ level) (SemG D t (fun rp c => names g rp c && den p (drop (level - 1 - at_) rp))).
Proof.
  revert D t level. induction g as [q|q|m IH|q|g IH|arms IH] using guard_ind; intros D t level Hof Hw; cbn [require_at].
  - destruct t; try done. eapply returns_bind; [by apply (require_leaf level D q)|]. intros r [Hr Hd]. apply returns_const.
    split; [done|]. intros rp c Hrp _. by apply Hd.
  - destruct t; try done. eapply returns_bind; [by apply (require_leaf level D q)|]. intros r [Hr Hd]. apply returns_const.
    split; [done|]. intros rp c Hrp _. by apply Hd.
  - destruct t as [|fs| | |]; try done. rewrite Forall_forall in IH. eapply returns_bind.
    + apply (restate_fields D fs m (fun k _ g => require_at k g p at_ level)
        (fun _ t g r => forall rp c, typed D rp -> cell_of t c -> names r rp c = names g rp c && den p (drop (level - 1 - at_) rp))); [done|].
      intros n g t Hg Ht Hwg. by apply (IH (n, g) Hg D t level).
    + intros m' [Hm' Hq]. apply returns_const. split; [done|]. intros rp c Hrp Hc.
      apply cell_record in Hc as (f & c' & t & -> & Ht & Hc). destruct (record_guard_field D m fs f t Hw Ht) as (g & Hg & _).
      destruct (Hq f g t Hg Ht) as (r & Hr & Hd). rewrite !names_record, Hg, Hr. by apply Hd.
  - destruct (domain_level D t q Hw) as (sh & Hiff & Hq & Hcell). eapply returns_bind; [by apply (require_level_ok level sh D q)|].
    intros r [Hr Hd]. apply returns_const. split; [by apply Hiff|]. intros rp c Hrp Hc. destruct (Hcell c Hc) as (k & c' & -> & Hk).
    simpl. rewrite Hd by (by constructor). destruct Hof as (_ & Hat & _). by replace (level - at_) with (S (level - 1 - at_)) by lia.
  - destruct t as [| |sh t| |]; try done. eapply returns_bind; [by apply (IH (sh :: D) t (level + 1)); [apply of_level_deeper|]|].
    intros r [Hr Hd]. apply returns_const. split; [done|]. intros rp c Hrp Hc. destruct c as [|[k|] c]; try done. destruct Hc as [Hk Hc].
    simpl. rewrite Hd by (by try constructor). destruct Hof as (_ & Hat & _). by replace (level + 1 - 1 - at_) with (S (level - 1 - at_)) by lia.
  - apply wfg_or in Hw as [Hne Hw]. apply (distribute_arms D t (fun n a => require_at n a p at_ level)
      (fun a rp c => names a rp c && den p (drop (level - 1 - at_) rp))); [done| |].
    + rewrite Forall_forall in *. intros a Ha. by apply IH; [..|apply Hw].
    + intros rp c _ _. apply existsb_and_r.
Qed.
End Require.

(** ** Intersection *)

Fixpoint gsize (g : TileGuard) : nat :=
  match g with
  | GScalar _ | GAggregation _ | GFunction (FDomain _) => 1
  | GRecord m => S ((fix go m := match m with [] => 0 | (_, g) :: m => gsize g + go m end) m)
  | GFunction (FCodomain g) => S (gsize g)
  | GOr arms => S ((fix go arms := match arms with [] => 0 | g :: arms => gsize g + go arms end) arms)
  end.

Lemma gsize_arm a arms : a ∈ arms -> gsize a < gsize (GOr arms).
Proof.
  simpl. induction arms as [|x arms IH]; intros H; [by apply elem_of_nil in H|].
  apply elem_of_cons in H as [->|H]; [lia|]. specialize (IH H). lia.
Qed.

Lemma gsize_field n g m : (n, g) ∈ m -> gsize g < gsize (GRecord m).
Proof.
  simpl. induction m as [|[n' g'] m IH]; intros H; [by apply elem_of_nil in H|].
  apply elem_of_cons in H as [[= <- <-]|H]; [lia|]. specialize (IH H). lia.
Qed.

Definition both (a b : TileGuard) (rp : list Value) (c : list Step) : bool := names a rp c && names b rp c.

Definition MeetOK (a b : TileGuard) : Prop := forall D t, wfg D t a -> wfg D t b ->
  returns (fun n => intersect_at n a b (length D)) (SemG D t (both a b)).

Lemma function_intersect_ok D t f1 f2 :
  (forall g h, gsize g + gsize h < gsize (GFunction f1) + gsize (GFunction f2) -> MeetOK g h) ->
  wfg D t (GFunction f1) -> wfg D t (GFunction f2) ->
  returns (fun n => function_intersect_at n (intersect_at n) f1 f2 (length D))
    (fun f => SemG D t (both (GFunction f1) (GFunction f2)) (GFunction f)).
Proof.
  intros IH H1 H2. unfold function_intersect_at.
  change (function_is_empty f1) with (guard_is_empty (GFunction f1)). change (function_is_empty f2) with (guard_is_empty (GFunction f2)).
  change (function_is_universal f1) with (is_universal (GFunction f1)). change (function_is_universal f2) with (is_universal (GFunction f2)).
  unfold SemG, both.
  destruct (guard_is_empty (GFunction f1)) eqn:E1.
  { apply returns_const. split; [done|]. intros rp c Hrp Hc. by rewrite (empty_sound D t (GFunction f1)). }
  destruct (guard_is_empty (GFunction f2)) eqn:E2.
  { apply returns_const. split; [done|]. intros rp c Hrp Hc. rewrite (empty_sound D t (GFunction f2)) by done. btauto. }
  destruct (is_universal (GFunction f1)) eqn:U1.
  { apply returns_const. split; [done|]. intros rp c Hrp Hc. by rewrite (universal_sound D t (GFunction f1)). }
  destruct (is_universal (GFunction f2)) eqn:U2.
  { apply returns_const. split; [done|]. intros rp c Hrp Hc. rewrite (universal_sound D t (GFunction f2)) by done. btauto. }
  assert (Hmix : forall p g, wfg D t (GFunction (FDomain p)) -> wfg D t (GFunction (FCodomain g)) ->
    returns (fun n => r ← require_at n g p (length D) (length D + 1); Some (FCodomain r : FunctionGuard Predicate TileGuard))
      (fun f => SemG D t (both (GFunction (FDomain p)) (GFunction (FCodomain g))) (GFunction f))).
  { intros p g Hp Hg. destruct t as [| |sh t| |]; try done. simpl in Hp, Hg.
    eapply returns_bind; [apply (require_at_ok p (length D) g (sh :: D) t (length D + 1)); [|done]|].
    - split; [simpl; lia|]. split; [lia|]. by replace (length D + 1 - 1 - length D) with 0 by lia.
    - intros r [Hr Hd]. apply returns_const. split; [done|]. intros rp c Hrp Hc. destruct c as [|[k|] c]; try done.
      destruct Hc as [Hk Hc]. unfold both. simpl. rewrite Hd by (by try constructor). replace (length D + 1 - 1 - length D) with 0 by lia.
      simpl. apply andb_comm. }
  destruct f1 as [p|g], f2 as [q|h].
  - destruct (domain_level D t p H1) as (sh & Hiff & Hp & Hcell). apply Hiff in H2 as Hq.
    eapply returns_bind; [by apply (key_intersect (sh :: D) p q)|]. intros r [Hr Hd]. apply returns_const.
    split; [by apply Hiff|]. intros rp c Hrp Hc. destruct (Hcell c Hc) as (k & c' & -> & Hk). simpl. rewrite Hd by (by constructor). done.
  - by apply Hmix.
  - eapply returns_impl; [by apply (Hmix q g)|]. intros f [Hf Hd]. split; [done|]. intros rp c Hrp Hc. rewrite Hd by done. apply andb_comm.
  - destruct t as [| |sh t| |]; try done. eapply returns_bind.
    { replace (length D + 1) with (length (sh :: D)) by (simpl; lia). apply (IH g h); [simpl; lia|done..]. }
    intros r [Hr Hd]. apply returns_const. split; [done|]. intros rp c Hrp Hc. destruct c as [|[k|] c]; try done.
    destruct Hc as [Hk Hc]. simpl. rewrite Hd by (by try constructor). done.
Qed.

Lemma intersect_or a arms :
  (forall x, x ∈ arms -> MeetOK x a) -> forall D t, wfg D t (GOr arms) -> wfg D t a ->
  returns (fun n => rs ← mapM (fun x => intersect_at n x a (length D)) arms; guard_flatten_or n rs) (SemG D t (both (GOr arms) a)).
Proof.
  intros IH D t [Hne Hw]%wfg_or Ha. apply (distribute_arms D t (fun n x => intersect_at n x a (length D)) (fun x => both x a)); [done| |].
  - rewrite Forall_forall in *. intros x Hx. by apply IH; [..|apply Hw|].
  - intros rp c _ _. apply existsb_and_r.
Qed.

Lemma step_intersect_at a b level (g : nat -> option TileGuard) P :
  (forall n, intersect_at (S n) a b level = g n) -> returns g P -> returns (fun n => intersect_at n a b level) P.
Proof. intros E H. by apply (returns_step (fun n => intersect_at n a b level) g). Qed.

Theorem guards_meet a b : MeetOK a b.
Proof.
  remember (gsize a + gsize b) as s eqn:Es. revert a b Es. induction s as [s IHs] using lt_wf_ind. intros a b ->.
  assert (IH : forall g h, gsize g + gsize h < gsize a + gsize b -> MeetOK g h) by (intros g h Hlt; by apply (IHs _ Hlt)). clear IHs.
  intros D t Ha Hb. assert (Hor2 : forall arms, b = GOr arms ->
    returns (fun n => rs ← mapM (fun x => intersect_at n x a (length D)) arms; guard_flatten_or n rs) (SemG D t (both a b))).
  { intros arms ->. eapply returns_impl; [apply (intersect_or a arms); [|done..]|].
    - intros x Hx. apply IH. apply gsize_arm in Hx. lia.
    - intros r [Hr Hd]. split; [done|]. intros rp c Hrp Hc. rewrite Hd by done. apply andb_comm. }
  destruct a as [p|m1|f1|p|arms1].
  5:{ eapply step_intersect_at; [done|]. apply (intersect_or b arms1); [|done..]. intros x Hx. apply IH. apply gsize_arm in Hx. lia. }
  all: destruct b as [q|m2|f2|q|arms2]; try (eapply step_intersect_at; [done|by apply Hor2]).
  all: try (exfalso; try destruct f1; try destruct f2; by destruct t).
  - destruct t; try done. eapply step_intersect_at; [done|]. eapply returns_bind; [by apply (leaf_intersect D p q)|].
    intros r [Hr Hd]. apply returns_const. split; [done|]. intros rp c Hrp _. by apply Hd.
  - destruct t as [|fs| | |]; try done. eapply step_intersect_at; [done|]. eapply returns_bind.
    + apply (zip_fields_ok D fs m1 m2 (fun n a b => intersect_at n a b (length D))
        (fun t a b r => forall rp c, typed D rp -> cell_of t c -> names r rp c = both a b rp c)); [done..|].
      intros n t a b _ Hma Hmb Hwa Hwb. apply (IH a b); [|done..]. apply gsize_field in Hma, Hmb. lia.
    + intros m [Hm Hq]. apply returns_const. by apply (record_cells D fs m1 m2 m andb).
  - eapply step_intersect_at; [done|]. eapply returns_bind; [by apply (function_intersect_ok D t f1 f2)|]. intros f Hf. by apply returns_const.
  - destruct t; try done. eapply step_intersect_at; [done|]. eapply returns_bind; [by apply (leaf_intersect D p q)|].
    intros r [Hr Hd]. apply returns_const. split; [done|]. intros rp c Hrp _. by apply Hd.
Qed.

(** ** Paths *)

(** A cell whose keys run along the path, as far as both go. *)
Fixpoint along (path : list Value) (c : list Step) : Prop :=
  match c with
  | [] => True
  | SField _ :: c => along path c
  | SKey k :: c => match path with [] => True | k' :: path => k = k' /\ along path c end
  end.

Lemma anyM_true {A} (f : A -> option bool) l : anyM f l = Some true -> exists x, x ∈ l /\ f x = Some true.
Proof.
  induction l as [|x l IH]; simpl; [done|]. destruct (f x) as [[]|] eqn:E; simpl; [|intros H|done].
  - intros _. exists x. split; [apply list_elem_of_here|done].
  - destruct (IH H) as (y & Hy & Hf). exists y. split; [by apply list_elem_of_further|done].
Qed.

Lemma allM_true {A} (f : A -> option bool) l x : allM f l = Some true -> x ∈ l -> f x = Some true.
Proof.
  induction l as [|y l IH]; simpl; intros H Hx; [by apply elem_of_nil in Hx|]. destruct (f y) as [[]|] eqn:E; simpl in H; [|done..].
  apply elem_of_cons in Hx as [->|Hx]; [done|by apply IH].
Qed.

Lemma covers_leaf_sound D p path rest rp :
  path = rev rp ++ rest -> leaf_ok D p -> typed D rp -> covers_at (GScalar p) path (length rp) = Some true -> den p (VUnit :: rp) = true.
Proof.
  simpl. intros Epath Hp Hrp H. assert (D = [] \/ D <> []) as [->|HD] by (destruct D; auto).
  { inversion Hrp; subst rp. destruct Hp as [->|[->|(e & -> & He & _)]]; [done| |by apply wf_nonempty in He]. by destruct (0 <=? length path). }
  destruct (leaf_rows_ok D p HD Hp) as (e & Er & He & Hd). rewrite Er in H. simpl in H. rewrite Hd by done.
  destruct (is_true e) eqn:Et; [by apply (reads_true _ _ (wf_reads _ _ He) Et)|].
  destruct (length rp <=? length path); [|done]. subst path. rewrite take_app_length' in H by (by rewrite length_rev).
  rewrite (contains_path_den D), rev_involutive in H by (by rewrite ?rev_involutive). by injection H.
Qed.

(** Under the [level] keys [rp] of the path, a covered path's cells are named. *)
Lemma covers_at_sound g D t path rest rp c :
  path = rev rp ++ rest -> wfg D t g -> typed D rp -> cell_of t c -> along rest c ->
  covers_at g path (length rp) = Some true -> names g rp c = true.
Proof.
  revert D t rest rp c. induction g as [p|p|m IH|p|g IH|arms IH] using guard_ind; intros D t rest rp c Epath Hw Hrp Hc Hal.
  1, 2: destruct t; try done; by apply (covers_leaf_sound D p path rest).
  - destruct t as [|fs| | |]; try done. intros H. apply cell_record in Hc as (f & c' & t & -> & Ht & Hc).
    destruct (record_guard_field D m fs f t Hw Ht) as (g & Hg & Hwg & Hin). rewrite names_record, Hg.
    rewrite Forall_forall in IH. apply (IH (f, g) Hin D t rest); [done..|]. by apply (allM_true _ _ (f, g) H Hin).
  - destruct (domain_level D t p Hw) as (sh & Hiff & Hp & Hcell). destruct (Hcell c Hc) as (k & c' & -> & Hk). simpl. intros H.
    destruct (Nat.ltb_spec (length rp) (length path)) as [Hlt|]; [|done]. destruct rest as [|k' rest].
    { subst path. rewrite app_nil_r, length_rev in Hlt. lia. }
    destruct Hal as [<- Hal]. assert (Etake : take (S (length rp)) path = rev (k :: rp)).
    { subst path. simpl. rewrite <- (length_rev rp), take_app, take_ge by lia.
      replace (S (length (rev rp)) - length (rev rp)) with 1 by lia. by destruct rest. }
    assert (Htk : take (S (length rp)) path = rev (k :: rp)) by exact Etake. simpl in H, Htk. rewrite Htk in H.
    change (rev rp ++ [k]) with (rev (k :: rp)) in H. rewrite (contains_path_den (sh :: D)), rev_involutive in H;
      [by injection H|done|rewrite rev_involutive; by constructor].
  - destruct t as [| |sh t| |]; try done. destruct c as [|[k|] c]; try done. destruct Hc as [Hk Hc]. cbn [covers_at names].
    destruct (Nat.ltb_spec (length rp + 1) (length path)) as [Hlt|_].
    + destruct rest as [|k' rest]; [subst path; rewrite app_nil_r, length_rev in Hlt; lia|]. destruct Hal as [<- Hal].
      rewrite Nat.add_1_r. change (S (length rp)) with (length (k :: rp)). apply (IH (sh :: D) t rest); [|done|by constructor|done..].
      subst path. simpl. by rewrite <- app_assoc.
    + intros [= Hu]. apply (universal_sound (sh :: D) t); [done..|by constructor|done].
  - apply wfg_or in Hw as [_ Hw]. cbn [covers_at names]. intros (a & Ha & Hn)%anyM_true. apply existsb_true_iff. exists a. split; [done|].
    rewrite Forall_forall in *. by apply (IH a Ha D t rest); [|apply Hw|..].
Qed.

(** The keys [whole_keys] gives are named whole. *)
Lemma whole_keys_sound sh t g :
  wfg [] (TDataFunction sh t) g ->
  returns (fun n => whole_keys n g) (fun w => wf [sh] w /\
    forall k c, has_shape sh k -> cell_of t c -> den w [k] = true -> names g [] (SKey k :: c) = true).
Proof.
  intros Hw. unfold whole_keys. eapply returns_bind; [apply (proj1 (guards_all [] (TDataFunction sh t)) [g]); [done|by constructor]|].
  intros n [Hn Hd].
  assert (Hd' : forall k c, has_shape sh k -> cell_of t c -> names n [] (SKey k :: c) = names g [] (SKey k :: c)).
  { intros k c Hk Hc. rewrite (Hd [] (SKey k :: c)); [|constructor|done]. unfold any_names. simpl. btauto. }
  clear Hd. destruct n as [p|m|[p|h]|p|arms]; try done.
  - apply returns_const. split; [done|]. intros k c Hk Hc Hden. rewrite <- Hd' by done. done.
  - apply returns_const. split; [by destruct (is_universal _)|]. intros k c Hk Hc. destruct (is_universal _) eqn:Eu; [|done]. intros _.
    rewrite <- Hd' by done. apply (universal_sound [] (TDataFunction sh t)); [done..|constructor|done].
  - apply wfg_or in Hn as [_ Hn]. eapply returns_impl; [apply (returns_foldl
      (fun n a arm => match arm with GFunction (FDomain p) => union_of n a p | _ => Some a end)
      (fun left w => Forall (wfg [] (TDataFunction sh t)) left /\ wf [sh] w /\ (exists done_, done_ ++ left = arms) /\
        forall k c, has_shape sh k -> cell_of t c -> den w [k] = true -> any_names arms [] (SKey k :: c) = true))|].
    + split; [done|]. split; [done|]. split; [by exists []|done].
    + intros arm left w ([Harm Hleft]%Forall_cons & Hww & (done_ & E) & Hsound).
      assert (Hin : arm ∈ arms) by (rewrite <- E; apply elem_of_app; right; apply list_elem_of_here).
      assert (E' : (done_ ++ [arm]) ++ left = arms) by (by rewrite <- app_assoc).
      assert (Hkeep : returns (fun _ => Some w) (fun w => Forall (wfg [] (TDataFunction sh t)) left /\ wf [sh] w /\
        (exists done_, done_ ++ left = arms) /\ forall k c, has_shape sh k -> cell_of t c -> den w [k] = true -> any_names arms [] (SKey k :: c) = true)).
      { apply returns_const. split; [done|]. split; [done|]. split; [by exists (done_ ++ [arm])|done]. }
      destruct arm as [| |[p|]| |]; try exact Hkeep.
      eapply returns_impl; [by apply (key_union [sh] w p)|]. intros u [Hu Hd]. split; [done|]. split; [done|].
      split; [by exists (done_ ++ [GFunction (FDomain p)])|]. intros k c Hk Hc. rewrite Hd by (by repeat constructor). unfold join_of.
      rewrite orb_true_iff. intros [H|H]; [by apply Hsound|]. apply existsb_true_iff. exists (GFunction (FDomain p)). done.
    + intros w (_ & Hww & _ & Hsound). split; [done|]. intros k c Hk Hc Hden. rewrite <- Hd' by done. by apply Hsound.
Qed.
End GuardMeet.
