(* ===== verification/GuardProps.v ===== *)
(** * The guard algebra's contract

    What the runtime relies on of the guards of one tiling, in terms of the cells they
    name: unions, normal forms and intersections lose and add none, and what is reclaimed
    by paths or by whole keys is named. *)

From Stdlib Require Import List ZArith Btauto.
From stdpp Require Import gmap.
From S2P Require Import Prelude Predicate PredicateSem Returns KeyMaps.
From S2P Require Import PredicateParts PredicateAlgebra PredicatePaths PredicatePathFacts KeyInstances PredicateProps.
From S2P Require Import Guards GuardSem GuardFacts GuardUnion.
Local Open Scope nat_scope.
Set Warnings "-clear-no-such-hyp".

Section Contract.
Context {K : Type} {KS : KeySets K} {KL : KeySetLaws K KS}.
Abbreviation TileGuard := (TileGuard K).
Abbreviation Tiling := (Tiling Shape).

(** A guard, as what the operation returns with enough fuel. *)
Lemma returns_guard D (t : Tiling) (f : nat -> option TileGuard) g :
  returns f (SemG D t g) ->
  exists N r, wfg D t r /\ (forall n, N <= n -> f n = Some r) /\
    forall rp c, typed D rp -> cell_of t c -> names r rp c = g rp c.
Proof. intros (N & r & [Hw Hd] & Hn). by exists N, r. Qed.

(** Every record of a tiling names its fields once. *)
Fixpoint tiling_ok (t : Tiling) : Prop :=
  match t with
  | TRecord fs => NoDup (map fst fs) /\ (fix go fs := match fs with [] => True | (_, t) :: fs => tiling_ok t /\ go fs end) fs
  | TDataFunction _ t => tiling_ok t
  | _ => True
  end.

Lemma tiling_ok_record fs : tiling_ok (TRecord fs) <-> NoDup (map fst fs) /\ Forall (fun nt => tiling_ok nt.2) fs.
Proof.
  simpl. f_equiv. induction fs as [|[n t] fs IH]; [split; [constructor|done]|]. rewrite IH, Forall_cons. done.
Qed.

Lemma whole_guard (f : Tiling -> TileGuard) (b : bool) :
  (forall e, f (TScalar e) = GScalar (of_bool b)) -> (forall k t, f (TAggregation k t) = GAggregation (of_bool b)) ->
  (forall sh t, f (TDataFunction sh t) = GFunction (FDomain (of_bool b))) -> (forall sh t, f (TStore sh t) = GFunction (FDomain (of_bool b))) ->
  (forall fs, f (TRecord fs) = GRecord (map (fun '(k, t) => (k, f t)) fs)) ->
  forall t, tiling_ok t -> forall D, wfg D t (f t) /\ (if b then is_universal (f t) else guard_is_empty (f t)) = true.
Proof.
  intros H1 H2 H3 H4 H5 t. induction t as [t IH] using (Wf_nat.induction_ltof1 _ tsize). unfold Wf_nat.ltof in IH. intros Hok D.
  assert (Hleaf : leaf_ok D (of_bool b)) by (destruct b; [by left|by right; left]).
  destruct t as [e|fs|sh t|k t|sh t]; rewrite ?H1, ?H2, ?H3, ?H4, ?H5; try (by destruct b).
  apply tiling_ok_record in Hok as [Hnd Hok].
  assert (Hfs : Forall (fun nt => wfg D nt.2 (f nt.2) /\ (if b then is_universal (f nt.2) else guard_is_empty (f nt.2)) = true) fs).
  { rewrite Forall_forall in *. intros [n t] Hin. apply (IH t); [by eapply tsize_field|by apply (Hok (n, t))]. }
  split.
  - apply wfg_record. split; [done|]. clear -Hfs. induction Hfs as [|[n t] fs [Hw _] _ IHf]; simpl; constructor; [done|exact IHf].
  - assert (H : forall h, (forall nt, nt ∈ fs -> h (f nt.2) = true) -> forallb (fun '(_, g) => h g) (map (fun '(k, t) => (k, f t)) fs) = true).
    { intros h. clear. induction fs as [|[n t] fs IHf]; simpl; intros Hh; [done|]. pose proof (Hh (n, t) (list_elem_of_here _ _)) as Hx. simpl in Hx. rewrite Hx. simpl.
      apply IHf. intros nt Hnt. apply Hh. by apply list_elem_of_further. }
    rewrite Forall_forall in Hfs. destruct b; cbn [is_universal guard_is_empty]; apply H; intros nt Hnt; by apply (Hfs nt).
Qed.

(** A tiling's universal guard is a guard of the tiling that names every cell, its empty guard one that names none,
    under whatever levels the tiling stands; [is_universal] and [is_empty] recognise them. *)
Theorem tiling_guards_typed D (t : Tiling) :
  tiling_ok t ->
  wfg D t (universal_guard t) /\ wfg D t (empty_guard t) /\
  is_universal (universal_guard t : TileGuard) = true /\ guard_is_empty (empty_guard t : TileGuard) = true /\
  forall rp c, typed D rp -> cell_of t c -> names (universal_guard t) rp c = true /\ names (empty_guard t) rp c = false.
Proof.
  intros Hok. destruct (whole_guard universal_guard true) with (t := t) (D := D) as [Hu1 Hu2]; try done.
  destruct (whole_guard empty_guard false) with (t := t) (D := D) as [He1 He2]; try done.
  repeat (split; [done|]). intros rp c Hrp Hc. split; [by apply (universal_sound D t)|by apply (empty_sound D t)].
Qed.

(** C19: [flatten_or] of guards of one tiling returns a guard of the tiling that names exactly the cells one of them
    names: distributing codomain steps, lifting whole values to their keys, joining arms of one place and dropping what a
    shallower arm covers keep the region. *)
Theorem guard_flatten_or_exact D (t : Tiling) (arms : list TileGuard) :
  arms <> [] -> Forall (wfg D t) arms ->
  exists N r, wfg D t r /\ (forall n, N <= n -> guard_flatten_or n arms = Some r) /\
    forall rp c, typed D rp -> cell_of t c -> names r rp c = existsb (fun g => names g rp c) arms.
Proof. intros Hne Hw. by apply returns_guard, (proj1 (guards_all D t)). Qed.

(** C20: [union] of two guards of one tiling returns a guard of the tiling that names exactly the cells one of them
    names. *)
Theorem guard_union_exact D (t : Tiling) (a b : TileGuard) :
  wfg D t a -> wfg D t b ->
  exists N r, wfg D t r /\ (forall n, N <= n -> guard_union n a b = Some r) /\
    forall rp c, typed D rp -> cell_of t c -> names r rp c = names a rp c || names b rp c.
Proof. intros Ha Hb. by apply returns_guard, (proj2 (guards_all D t)). Qed.

(** C21: [intersect] of two guards of one tiling returns a guard of the tiling that names exactly the cells both name,
    also where one names keys and the other what the keys hold. *)
Theorem guard_intersect_exact (t : Tiling) (a b : TileGuard) :
  wfg [] t a -> wfg [] t b ->
  exists N r, wfg [] t r /\ (forall n, N <= n -> guard_intersect n a b = Some r) /\
    forall c, cell_of t c -> names r [] c = names a [] c && names b [] c.
Proof.
  intros Ha Hb. destruct (returns_guard [] t _ _ (guards_meet a b [] t Ha Hb)) as (N & r & Hw & Hn & Hd).
  exists N, r. split; [done|]. split; [done|]. intros c Hc. by apply Hd; [constructor|].
Qed.

(** C22: a path that [covers_path] calls covered may be reclaimed: the guard names every cell along it, in every field of
    the records it runs through and however deep. *)
Theorem covers_path_sound (t : Tiling) (g : TileGuard) path c :
  wfg [] t g -> covers_path g path = Some true -> cell_of t c -> along path c -> names g [] c = true.
Proof. intros Hw Hcov Hc Hal. by apply (covers_at_sound g [] t path path [] c eq_refl Hw (List.Forall2_nil _)). Qed.
End Contract.

(** ** Rows of a record of a value and a nested collection *)

Definition rows : Tiling Shape :=
  TDataFunction int_shape (TRecord [("a"%string, TScalar int_shape); ("b"%string, TDataFunction int_shape (TScalar int_shape))]).

(** Row 1 whole; the value of every row; the values of row 2 under the keys but 7. *)
Definition row_one : TileGuard Z := GFunction (FDomain (pt 1)).
Definition values_only : TileGuard Z :=
  GFunction (FCodomain (GRecord [("a"%string, GScalar PTrue); ("b"%string, GFunction (FDomain PFalse))])).
Definition under_two : TileGuard Z :=
  GFunction (FCodomain (GRecord [("a"%string, GScalar PFalse); ("b"%string, GFunction (FDomain (PQualified (pt 2) (but 7))))])).

Lemma rows_names : NoDup (map fst [("a"%string, TScalar int_shape); ("b"%string, TDataFunction int_shape (TScalar int_shape))]).
Proof. by apply (bool_decide_unpack (NoDup _)). Qed.

Lemma row_one_wfg : wfg [] rows row_one.
Proof. done. Qed.

Lemma values_only_wfg : wfg [] rows values_only.
Proof. split; [apply rows_names|]. simpl. split; [done|]. split; [by left|done]. Qed.

Lemma under_two_wfg : wfg [] rows under_two.
Proof. split; [apply rows_names|]. simpl. split; [done|]. split; [by right; left|done]. Qed.

Lemma tiling_guards_typed_witness :
  wfg [] rows (universal_guard rows) /\ wfg [] rows (empty_guard rows) /\
  is_universal (universal_guard rows : TileGuard Z) = true /\ guard_is_empty (empty_guard rows : TileGuard Z) = true.
Proof.
  destruct (tiling_guards_typed (K := Z) [] rows) as (H1 & H2 & H3 & H4 & _); [|done].
  split; [apply rows_names|]. done.
Defined.

(** Row 1 beside the values of every row: the value of row 1 is named once. *)
Lemma guard_flatten_or_exact_witness :
  exists N r, wfg [] rows r /\ (forall n, N <= n -> guard_flatten_or n [row_one; values_only; under_two] = Some r) /\
    names r [] [SKey (VKey 1%Z); SField "b"; SKey (VKey 7%Z)] = true /\
    names r [] [SKey (VKey 2%Z); SField "b"; SKey (VKey 7%Z)] = false.
Proof.
  destruct (guard_flatten_or_exact [] rows [row_one; values_only; under_two]) as (N & r & Hw & Hn & Hd); [done| |].
  - apply Forall_cons. split; [apply row_one_wfg|]. apply Forall_cons. split; [apply values_only_wfg|].
    apply Forall_cons. split; [apply under_two_wfg|constructor].
  - exists N, r. split; [done|]. split; [done|]. rewrite !Hd; [by vm_compute|constructor|done|constructor|done].
Defined.

(** The values of every row, and the collections of row 2: row 2 is named whole, and only it. *)
Definition values_and_two : TileGuard Z :=
  GFunction (FCodomain (GRecord [("a"%string, GScalar PTrue); ("b"%string, GFunction (FDomain (PQualified (pt 2) PTrue)))])).

Example whole_keys_lifted :
  (w ← whole_keys 5 values_and_two; contains w (VKey 2%Z)) = Some true /\
  (w ← whole_keys 5 values_and_two; contains w (VKey 3%Z)) = Some false /\
  (length ∘ chains <$> guard_flatten_or 5 [values_and_two]) = Some 2.
Proof. repeat split; by vm_compute. Qed.

Lemma guard_union_exact_witness :
  exists N r, wfg [] rows r /\ (forall n, N <= n -> guard_union n row_one under_two = Some r) /\
    names r [] [SKey (VKey 2%Z); SField "b"; SKey (VKey 6%Z)] = true /\ names r [] [SKey (VKey 2%Z); SField "a"] = false.
Proof.
  destruct (guard_union_exact [] rows row_one under_two) as (N & r & Hw & Hn & Hd); [apply row_one_wfg|apply under_two_wfg|].
  exists N, r. split; [done|]. split; [done|]. rewrite !Hd; [by vm_compute|constructor|done|constructor|done].
Defined.

(** Keys against what they hold. *)
Lemma guard_intersect_exact_witness :
  exists N r, wfg [] rows r /\ (forall n, N <= n -> guard_intersect n row_one values_only = Some r) /\
    names r [] [SKey (VKey 1%Z); SField "a"] = true /\ names r [] [SKey (VKey 2%Z); SField "a"] = false /\
    names r [] [SKey (VKey 1%Z); SField "b"; SKey (VKey 3%Z)] = false.
Proof.
  destruct (guard_intersect_exact rows row_one values_only) as (N & r & Hw & Hn & Hd); [apply row_one_wfg|apply values_only_wfg|].
  exists N, r. split; [done|]. split; [done|]. rewrite !Hd; [by vm_compute|done..].
Defined.

Lemma covers_path_sound_witness :
  covers_path values_and_two [VKey 2%Z; VKey 5%Z] = Some true /\
  names values_and_two [] [SKey (VKey 2%Z); SField "b"; SKey (VKey 5%Z)] = true.
Proof.
  split; [by vm_compute|]. apply (covers_path_sound rows values_and_two [VKey 2%Z; VKey 5%Z]).
  - split; [apply rows_names|]. simpl. split; [done|]. split; [by left|done].
  - by vm_compute.
  - done.
  - done.
Defined.
