(* ===== verification/Values.v ===== *)
(** * Values at run time ([src/interpreter/types/value.rs])

    [Value] of the runtime: the keys of [Predicate] over the scalars [Scalar], which
    hold the integers, strings, booleans and function values of the Rust enum.  Its
    equality, its partial order and the order of positions; a panic is [None].
    Computable functions, which stand for code, are left out. *)

From Stdlib Require Import ZArith.
From S2P Require Import Prelude Predicate.
Set Warnings "-register-all".

(** The scalar arms of [Value]; a function value is its bindings, input and output. *)
Inductive Scalar :=
  | SInt (i : Z)
  | SUInt (i : Z)
  | SString (s : string)
  | SBool (b : bool)
  | SFunction (bindings : list (Value Scalar * Value Scalar)).

Abbreviation Value := (Value Scalar).

(** ** Equality *)

Definition value_eqb {K} (keqb : K -> K -> bool) : Predicate.Value K -> Predicate.Value K -> bool :=
  fix go a b {struct a} :=
    match a, b with
    | VKey x, VKey y => keqb x y
    | VUnit, VUnit => true
    | VRecord f, VRecord g =>
        (fix fields f g := match f, g with
          | [], [] => true
          | (n, v) :: f, (m, w) :: g => bool_decide (n = m) && go v w && fields f g
          | _, _ => false
          end) f g
    | VUnion t v, VUnion u w => bool_decide (t = u) && go v w
    | _, _ => false
    end.

(** [PartialEq]. *)
Fixpoint scalar_eqb (a b : Scalar) : bool :=
  match a, b with
  | SInt x, SInt y | SUInt x, SUInt y => bool_decide (x = y)
  | SString x, SString y => bool_decide (x = y)
  | SBool x, SBool y => Bool.eqb x y
  | SFunction l, SFunction m =>
      (fix go l m := match l, m with
        | [], [] => true
        | (i, o) :: l, (j, p) :: m =>
            value_eqb scalar_eqb i j && value_eqb scalar_eqb o p && go l m
        | _, _ => false
        end) l m
  | _, _ => false
  end.

(** Induction over values, and over scalars with what holds of the scalars of their values. *)
Section ValueInduction.
Context {K : Type} (P : Predicate.Value K -> Prop).
Context (Hkey : forall k, P (VKey k)) (Hunit : P VUnit).
Context (Hrec : forall f, Forall (fun nv => P nv.2) f -> P (VRecord f)).
Context (Hunion : forall t v, P v -> P (VUnion t v)).

Fixpoint value_ind (v : Predicate.Value K) : P v :=
  match v with
  | VKey k => Hkey k
  | VUnit => Hunit
  | VRecord f =>
      Hrec f ((fix go f : Forall (fun nv => P nv.2) f :=
        match f with
        | [] => List.Forall_nil _
        | nv :: f => List.Forall_cons _ nv f (value_ind nv.2) (go f)
        end) f)
  | VUnion t v => Hunion t v (value_ind v)
  end.
End ValueInduction.

Definition value_all {K} (P : K -> Prop) : Predicate.Value K -> Prop :=
  fix go v := match v with
    | VKey k => P k
    | VUnit => True
    | VRecord f => (fix fields f := match f with [] => True | (_, v) :: f => go v /\ fields f end) f
    | VUnion _ v => go v
    end.

Definition value_all_of {K} {P : K -> Prop} (H : forall k, P k) : forall v : Predicate.Value K, value_all P v :=
  fix go v := match v with
    | VKey k => H k
    | VUnit => I
    | VRecord f =>
        (fix fields f : value_all P (VRecord f) :=
          match f with [] => I | (_, v) :: f => conj (go v) (fields f) end) f
    | VUnion _ v => go v
    end.

Section ScalarInduction.
Context (P : Scalar -> Prop).
Context (Hint : forall i, P (SInt i)) (Huint : forall i, P (SUInt i)).
Context (Hstring : forall s, P (SString s)) (Hbool : forall b, P (SBool b)).
Context (Hfunction : forall l, Forall (fun io => value_all P io.1 /\ value_all P io.2) l -> P (SFunction l)).

Fixpoint scalar_ind (s : Scalar) : P s :=
  match s with
  | SInt i => Hint i
  | SUInt i => Huint i
  | SString s => Hstring s
  | SBool b => Hbool b
  | SFunction l =>
      Hfunction l ((fix go l : Forall (fun io => value_all P io.1 /\ value_all P io.2) l :=
        match l with
        | [] => List.Forall_nil _
        | io :: l =>
            List.Forall_cons _ io l (conj (value_all_of scalar_ind io.1) (value_all_of scalar_ind io.2)) (go l)
        end) l)
  end.
End ScalarInduction.

Lemma value_eqb_spec {K} (keqb : K -> K -> bool) (v w : Predicate.Value K) :
  value_all (fun k => forall l, keqb k l = true <-> k = l) v -> value_eqb keqb v w = true <-> v = w.
Proof.
  revert w. induction v as [k| |f IH|t v IH] using value_ind; intros w Hk; destruct w as [l| |g|u w]; try done.
  - simpl in *. rewrite Hk. split; congruence.
  - transitivity (f = g); [|split; congruence]. revert g Hk.
    induction IH as [|[n v] f Hv _ IHf]; intros [|[m w] g]; try done. simpl in *. intros [Hk Hf].
    rewrite !andb_true_iff, bool_decide_eq_true, (Hv w Hk), (IHf g Hf).
    split; [intros [[]]; congruence|intros [= -> -> ->]; done].
  - simpl in *. rewrite andb_true_iff, bool_decide_eq_true, IH by done. split; [intros []; congruence|by intros [= -> ->]].
Qed.

Lemma scalar_eqb_spec a b : scalar_eqb a b = true <-> a = b.
Proof.
  revert b. induction a as [x|x|x|x|l IH] using scalar_ind; intros [y|y|y|y|m]; try done; simpl.
  1-3: rewrite bool_decide_eq_true; split; congruence.
  - rewrite Bool.eqb_true_iff. split; congruence.
  - transitivity (l = m); [|split; congruence].
    revert m. induction IH as [|[i o] l [Hi Ho] _ IHl]; intros [|[j p] m]; try done. simpl in *.
    rewrite !andb_true_iff, (value_eqb_spec _ i j Hi), (value_eqb_spec _ o p Ho), IHl.
    split; [intros [[]]; congruence|intros [= -> -> ->]; done].
Qed.

#[export] Instance scalar_eq_dec : EqDecision Scalar.
Proof.
  intros a b. destruct (scalar_eqb a b) eqn:E.
  - left. by apply scalar_eqb_spec.
  - right. intros H%scalar_eqb_spec. congruence.
Defined.

#[export] Instance value_eq_dec : EqDecision Value.
Proof.
  intros v w. destruct (value_eqb scalar_eqb v w) eqn:E.
  - left. apply (value_eqb_spec scalar_eqb v w); [apply value_all_of, scalar_eqb_spec|done].
  - right. intros H. apply (value_eqb_spec scalar_eqb v w) in H; [congruence|apply value_all_of, scalar_eqb_spec].
Defined.

(** ** Reading a value *)

Definition value_as_bool (v : Value) : option bool := match v with VKey (SBool b) => Some b | _ => None end.
Definition as_int (v : Value) : option Z := match v with VKey (SInt i) => Some i | _ => None end.
Definition as_uint (v : Value) : option Z := match v with VKey (SUInt i) => Some i | _ => None end.
Definition as_string (v : Value) : option string := match v with VKey (SString s) => Some s | _ => None end.

(** [uint_of_row], lossless. *)
Definition uint_from_row (row : nat) : Value := VKey (SUInt (Z.of_nat row)).

(** ** Order *)

(** [bool]'s order. *)
Definition bool_compare (a b : bool) : comparison :=
  match a, b with true, false => Gt | false, true => Lt | _, _ => Eq end.

(** [FieldKey]'s order. *)
Definition fieldkey_compare (a b : FieldKey) : comparison :=
  match a, b with
  | Index m, Index n => Nat.compare m n
  | Index _, Name _ => Lt
  | Name _, Index _ => Gt
  | Name s, Name t => String.compare s t
  end.

(** [partial_cmp]: [Some None] where the two do not compare, [None] where the order is not
    implemented. *)
Fixpoint partial_cmp (a b : Value) : option (option comparison) :=
  match a with
  | VKey (SInt x) => Some (match b with VKey (SInt y) => Some (Z.compare x y) | _ => None end)
  | VKey (SUInt x) => Some (match b with VKey (SUInt y) => Some (Z.compare x y) | _ => None end)
  | VKey (SString x) => Some (match b with VKey (SString y) => Some (String.compare x y) | _ => None end)
  | VKey (SBool x) => Some (match b with VKey (SBool y) => Some (bool_compare x y) | _ => None end)
  | VUnit => Some (match b with VUnit => Some Eq | _ => None end)
  | VRecord fields =>
      match b with
      | VRecord o_fields =>
          if bool_decide (map fst fields = map fst o_fields) then
            (fix entries f g := match f, g with
              | (_, v) :: f, (_, w) :: g =>
                  o ← partial_cmp v w;
                  match o with
                  | Some Eq => entries f g
                  | unequal => Some unequal
                  end
              | _, _ => Some (Some Eq)
              end) fields o_fields
          else Some None
      | _ => Some None
      end
  | VUnion tag inner =>
      match b with
      | VUnion o_tag o_inner =>
          match fieldkey_compare tag o_tag with
          | Eq => partial_cmp inner o_inner
          | o => Some (Some o)
          end
      | _ => Some None
      end
  | VKey (SFunction _) => None
  end.

(** [compare_positions]: positions of one domain compare. *)
Definition compare_positions (a b : Value) : option comparison :=
  o ← partial_cmp a b; o.
