(* ===== verification/KeyAdjacency.v ===== *)
(** * Neighbours among keys ([impl Domain for Value] of [types/value.rs])

    The neighbour a key has on a side, and for which kinds of key two keys with no key between
    them are neighbours: booleans and integers, not strings. *)

From Stdlib Require Import ZArith.
From stdpp Require Import strings.
From S2P Require Import Prelude ScalarOps Predicate Values IntervalSets.
Set Warnings "-register-all".
Local Open Scope Z_scope.

(** [try_adjacent]. *)
Definition value_try_adjacent (v : Value) (side : Side) : option Value :=
  let checked lo hi (i : Z) := if (lo <=? i) && (i <=? hi) then Some i else None in
  match v, side with
  | VKey (SBool false), Left => None
  | VKey (SBool true), Left => Some (VKey (SBool false))
  | VKey (SBool false), Right => Some (VKey (SBool true))
  | VKey (SBool true), Right => None
  | VKey (SInt i), Left => VKey ∘ SInt <$> checked I64_MIN I64_MAX (i - 1)
  | VKey (SInt i), Right => VKey ∘ SInt <$> checked I64_MIN I64_MAX (i + 1)
  | VKey (SUInt i), Left => VKey ∘ SUInt <$> checked 0 U64_MAX (i - 1)
  | VKey (SUInt i), Right => VKey ∘ SUInt <$> checked 0 U64_MAX (i + 1)
  | _, _ => None
  end.

(** The keys of the kinds that have neighbours, within their type. *)
Definition discrete (v : Value) : bool :=
  match v with
  | VKey (SBool _) => true
  | VKey (SInt i) => (I64_MIN <=? i) && (i <=? I64_MAX)
  | VKey (SUInt i) => (0 <=? i) && (i <=? U64_MAX)
  | _ => false
  end.

Abbreviation key_lt v w := (compare_positions v w = Some Lt).

Lemma compare_int x y : compare_positions (VKey (SInt x)) (VKey (SInt y)) = Some (x ?= y).
Proof. done. Qed.

Lemma compare_uint x y : compare_positions (VKey (SUInt x)) (VKey (SUInt y)) = Some (x ?= y).
Proof. done. Qed.

(** Two keys, the neighbour of one, or a key between them. *)
Lemma discrete_between v w : discrete v = true -> discrete w = true -> key_lt v w ->
  value_try_adjacent v Right = Some w /\ value_try_adjacent w Left = Some v \/
  exists u, discrete u = true /\ key_lt v u /\ key_lt u w.
Proof.
  destruct v as [[i|i| |b|]| | |], w as [[j|j| |c|]| | |]; try done; unfold discrete; intros Hv Hw Hlt.
  - rewrite compare_int in Hlt. injection Hlt as Hlt. assert (Hij : i < j) by exact Hlt. clear Hlt.
    destruct (decide (i + 1 = j)) as [<-|Hne].
    + left. unfold value_try_adjacent. replace (i + 1 - 1) with i by lia. by rewrite Hv, Hw.
    + right. exists (VKey (SInt (i + 1))). rewrite !compare_int.
      rewrite (proj2 (Z.compare_lt_iff i (i + 1))), (proj2 (Z.compare_lt_iff (i + 1) j)) by lia.
      split; [|done]. rewrite andb_true_iff, !Z.leb_le in *. lia.
  - rewrite compare_uint in Hlt. injection Hlt as Hlt. assert (Hij : i < j) by exact Hlt. clear Hlt.
    destruct (decide (i + 1 = j)) as [<-|Hne].
    + left. unfold value_try_adjacent. replace (i + 1 - 1) with i by lia. by rewrite Hv, Hw.
    + right. exists (VKey (SUInt (i + 1))). rewrite !compare_uint.
      rewrite (proj2 (Z.compare_lt_iff i (i + 1))), (proj2 (Z.compare_lt_iff (i + 1) j)) by lia.
      split; [|done]. rewrite andb_true_iff, !Z.leb_le in *. lia.
  - destruct b, c; try done. by left.
Qed.

(** The empty string and the string of one zero byte have no string between them, and neither is
    given as the other's neighbour: an interval between two strings may hold none and be taken
    for nonempty. *)
Lemma strings_without_neighbours :
  let first := EmptyString in
  let second := String Ascii.zero EmptyString in
  key_lt (VKey (SString first)) (VKey (SString second)) /\
  (forall s, ~ (key_lt (VKey (SString first)) (VKey (SString s)) /\ key_lt (VKey (SString s)) (VKey (SString second)))) /\
  (forall side s, value_try_adjacent (VKey (SString s)) side = None).
Proof.
  split; [done|]. split; [|by intros []]. intros [|c s] [H1 H2]; [done|]. revert H2. unfold compare_positions. simpl.
  destruct c as [[] [] [] [] [] [] [] []]; simpl; try done. by destruct s.
Qed.
