(* ===== verification/Columns.v ===== *)
(** * Columns of values ([src/interpreter/types/column_value.rs])

    A column holds one value per row in one array per kind of value.  Here are the arms of
    [ColumnValue], with a union's arms as the rows that carry each tag, and one definition
    per method.  A [HashMap] of fields is the list of its entries in name order and a
    [TagMap] the list of its arms in tag order; a panic is [None].  An iterator of indices
    that comes with its length is one list. *)

From Stdlib Require Import ZArith List.
From S2P Require Import Prelude Predicate Values.
Set Warnings "-register-all".

(** [UnionArm]: the rows that carry a tag, ascending, and their payloads in that order. *)
Record UnionArm (C : Type) := MkArm { arm_rows : list nat; arm_values : C }.
Arguments MkArm {C} _ _.
Arguments arm_rows {C} _.
Arguments arm_values {C} _.

Inductive ColumnValue :=
  | Units (len : nat)
  | Ints (v : list Z)
  | UInts (v : list Z)
  | Strings (v : list string)
  | Bools (v : list bool)
  | Variants (v : list Value)
  | FunctionBindings (inputs outputs : ColumnValue)
  | Records (fields : list (string * ColumnValue))
  | Union (arms : list (FieldKey * UnionArm ColumnValue)).

(** ** Arms *)

(** [binary_search] of an ascending list. *)
Fixpoint position_of (x : nat) (l : list nat) : option nat :=
  match l with
  | [] => None
  | y :: l => if x =? y then Some 0 else S <$> position_of x l
  end.

Definition slot_of {C} (arm : UnionArm C) (row : nat) : option nat := position_of row (arm_rows arm).

(** [row_slots]. *)
Definition row_slots {C} (arm : UnionArm C) : list (nat * nat) := imap (fun slot row => (row, slot)) (arm_rows arm).

Definition arm_len {C} (arm : UnionArm C) : nat := length (arm_rows arm).
Definition arm_is_empty {C} (arm : UnionArm C) : bool := arm_len arm =? 0.

(** ** Reading *)

(** [len]: a column of records has a field to read it off. *)
Fixpoint len (c : ColumnValue) : option nat :=
  match c with
  | Units n => Some n
  | Bools v => Some (length v)
  | Ints v | UInts v => Some (length v)
  | Strings v => Some (length v)
  | Variants v => Some (length v)
  | Records m => match m with (_, cv) :: _ => len cv | [] => None end
  | FunctionBindings inputs _ => len inputs
  | Union arms => Some (sum_list_with (fun a => arm_len a.2) arms)
  end.

(** [is_empty]. *)
Definition col_is_empty (c : ColumnValue) : option bool := n ← len c; Some (n =? 0).

(** [index_at]. *)
Fixpoint index_at (c : ColumnValue) (i : nat) : option Value :=
  match c with
  | Units _ => Some VUnit
  | Bools v => b ← v !! i; Some (VKey (SBool b))
  | Ints v => z ← v !! i; Some (VKey (SInt z))
  | UInts v => z ← v !! i; Some (VKey (SUInt z))
  | Strings v => s ← v !! i; Some (VKey (SString s))
  | Variants v => v !! i
  | FunctionBindings inputs outputs =>
      input ← index_at inputs i; output ← index_at outputs i; Some (VKey (SFunction [(input, output)]))
  | Records r => fields ← mapM (fun '(k, v) => x ← index_at v i; Some (k, x)) r; Some (VRecord fields)
  | Union arms =>
      (fix find arms := match arms with
        | [] => None
        | (tag, arm) :: arms =>
            match slot_of arm i with
            | Some slot => inner ← index_at (arm_values arm) slot; Some (VUnion tag inner)
            | None => find arms
            end
        end) arms
  end.

(** [as_single]. *)
Fixpoint single_of (c : ColumnValue) : option (option Value) :=
  n ← len c;
  if n =? 1 then
    match c with
    | Units len => Some (if len =? 1 then Some VUnit else None)
    | Bools v => b ← v !! 0; Some (Some (VKey (SBool b)))
    | Ints v => z ← v !! 0; Some (Some (VKey (SInt z)))
    | UInts v => z ← v !! 0; Some (Some (VKey (SUInt z)))
    | Strings v => s ← v !! 0; Some (Some (VKey (SString s)))
    | Variants v => x ← v !! 0; Some (Some x)
    | FunctionBindings inputs outputs =>
        i ← single_of inputs; input ← i;
        o ← single_of outputs; output ← o;
        Some (Some (VKey (SFunction [(input, output)])))
    | Records r =>
        fields ← mapM (fun '(k, v) => s ← single_of v; x ← s; Some (k, x)) r; Some (Some (VRecord fields))
    | Union arms =>
        (fix find arms := match arms with
          | [] => Some None
          | (tag, arm) :: arms =>
              if arm_is_empty arm then find arms
              else s ← single_of (arm_values arm); Some (inner ← s; Some (VUnion tag inner))
          end) arms
    end
  else Some None.

(** [drain_to_value_iter]: the values of the column, row by row. *)
Fixpoint drain_to_value_iter (c : ColumnValue) : option (list Value) :=
  match c with
  | Units n => Some (replicate n VUnit)
  | Bools v => Some (map (fun b => VKey (SBool b)) v)
  | Ints v => Some (map (fun z => VKey (SInt z)) v)
  | UInts v => Some (map (fun z => VKey (SUInt z)) v)
  | Strings v => Some (map (fun s => VKey (SString s)) v)
  | Variants v => Some v
  | FunctionBindings inputs outputs =>
      i ← drain_to_value_iter inputs; o ← drain_to_value_iter outputs;
      Some (map (fun io => VKey (SFunction [io])) (zip i o))
  | Records m =>
      n ← match m with (_, v) :: _ => len v | [] => Some 0 end;
      mapM (fun i => fields ← mapM (fun '(k, v) => x ← index_at v i; Some (k, x)) m; Some (VRecord fields)) (seq 0 n)
  | Union arms =>
      rows ← mapM (fun '(tag, arm) =>
        mapM (fun '(row, slot) => inner ← index_at (arm_values arm) slot; Some (row, VUnion tag inner)) (row_slots arm)) arms;
      Some (map snd (sort_by_key fst (concat rows)))
  end.

(** [as_bools]. *)
Definition as_bools (c : ColumnValue) : option (list bool) := match c with Bools b => Some b | _ => None end.

(** ** Building *)

(** [empty_like]. *)
Fixpoint empty_like (c : ColumnValue) : ColumnValue :=
  match c with
  | Units _ => Units 0
  | Ints _ => Ints []
  | UInts _ => UInts []
  | Strings _ => Strings []
  | Bools _ => Bools []
  | Variants _ => Variants []
  | FunctionBindings inputs outputs => FunctionBindings (empty_like inputs) (empty_like outputs)
  | Records r => Records (map (fun '(k, v) => (k, empty_like v)) r)
  | Union arms => Union (map (fun '(k, arm) => (k, MkArm [] (empty_like (arm_values arm)))) arms)
  end.

(** [clear]: the same columns at no rows. *)
Fixpoint clear (c : ColumnValue) : ColumnValue :=
  match c with
  | Units _ => Units 0
  | Ints _ => Ints []
  | UInts _ => UInts []
  | Strings _ => Strings []
  | Bools _ => Bools []
  | Variants _ => Variants []
  | Records r => Records (map (fun '(k, v) => (k, clear v)) r)
  | FunctionBindings _ _ | Union _ => empty_like c
  end.

(** [single]. *)
Fixpoint single (value : Value) : ColumnValue :=
  match value with
  | VUnit => Units 1
  | VKey (SBool b) => Bools [b]
  | VKey (SInt i) => Ints [i]
  | VKey (SUInt i) => UInts [i]
  | VKey (SString s) => Strings [s]
  | VRecord fields => Records (map (fun '(k, v) => (k, single v)) fields)
  | _ => Variants [value]
  end.

(** The rows of [sel] an arm carries: the new row and the slot its payload is read from. *)
Definition arm_selection {C} (arm : UnionArm C) (sel : list nat) : list (nat * nat) :=
  omap (fun '(new_row, orig) => slot ← slot_of arm orig; Some (new_row, slot)) (imap pair sel).

(** [select_indices]. *)
Fixpoint select_indices (c : ColumnValue) (indices : list nat) : option ColumnValue :=
  match c with
  | Units _ => Some (Units (length indices))
  | Bools v => r ← mapM (fun i => v !! i) indices; Some (Bools r)
  | Ints v => r ← mapM (fun i => v !! i) indices; Some (Ints r)
  | UInts v => r ← mapM (fun i => v !! i) indices; Some (UInts r)
  | Strings v => r ← mapM (fun i => v !! i) indices; Some (Strings r)
  | Variants v => r ← mapM (fun i => v !! i) indices; Some (Variants r)
  | FunctionBindings inputs outputs =>
      i ← select_indices inputs indices; o ← select_indices outputs indices; Some (FunctionBindings i o)
  | Records r => r ← mapM (fun '(k, v) => x ← select_indices v indices; Some (k, x)) r; Some (Records r)
  | Union arms =>
      arms ← mapM (fun '(k, arm) =>
        let picked := arm_selection arm indices in
        values ← select_indices (arm_values arm) (map snd picked);
        Some (k, MkArm (map fst picked) values)) arms;
      Some (Union arms)
  end.

(** [retain_vec]: the write cursor swaps each kept element down; [None] where the mask is
    longer than the vector. *)
Fixpoint retain_loop {T} (v : list T) (mask : list bool) (read write : nat) : option (list T * nat) :=
  match mask with
  | [] => Some (v, write)
  | keep :: mask =>
      if (keep : bool) then
        if write =? read then retain_loop v mask (S read) (S write)
        else
          a ← v !! write; b ← v !! read;
          retain_loop (<[read := a]> (<[write := b]> v)) mask (S read) (S write)
      else retain_loop v mask (S read) write
  end.

Definition retain_vec {T} (v : list T) (mask : list bool) : option (list T) :=
  '(v, write) ← retain_loop v mask 0 0; Some (take write v).

(** [retain] of a union: the dense number of each kept row. *)
Fixpoint new_rows (mask : list bool) (next : nat) : list (option nat) :=
  match mask with
  | [] => []
  | keep :: mask => (if (keep : bool) then Some next else None) :: new_rows mask (if keep then S next else next)
  end.

(** [retain]. *)
Fixpoint retain (c : ColumnValue) (mask : list bool) : option ColumnValue :=
  n ← len c;
  if length mask =? n then
    match c with
    | Units _ => Some (Units (countb id mask))
    | Ints v => r ← retain_vec v mask; Some (Ints r)
    | UInts v => r ← retain_vec v mask; Some (UInts r)
    | Strings v => r ← retain_vec v mask; Some (Strings r)
    | Variants v => r ← retain_vec v mask; Some (Variants r)
    | Bools v => r ← retain_vec v mask; Some (Bools r)
    | FunctionBindings inputs outputs =>
        i ← retain inputs mask; o ← retain outputs mask; Some (FunctionBindings i o)
    | Records r => r ← mapM (fun '(k, v) => x ← retain v mask; Some (k, x)) r; Some (Records r)
    | Union arms =>
        let new_row := new_rows mask 0 in
        arms ← mapM (fun '(k, arm) =>
          picked ← mapM (fun '(row, slot) => new ← new_row !! row; Some (new, slot)) (row_slots arm);
          let picked := omap (fun '(new, slot) => row ← new; Some (row, slot)) picked in
          values ← select_indices (arm_values arm) (map snd picked);
          Some (k, MkArm (map fst picked) values)) arms;
        Some (Union arms)
    end
  else None.

(** The entry of a key in a map, replaced: [get_mut]. *)
Fixpoint update_key {K T} `{EqDecision K} (entries : list (K * T)) (key : K) (f : T -> option T) : option (list (K * T)) :=
  match entries with
  | [] => None
  | (k, v) :: rest =>
      if decide (k = key) then v ← f v; Some ((k, v) :: rest)
      else rest ← update_key rest key f; Some ((k, v) :: rest)
  end.

(** [get_or_insert_with] on arms in tag order, then the arm replaced. *)
Definition upsert_arm {T} (arms : list (FieldKey * T)) (key : FieldKey) (default : T) (f : T -> option T) :
    option (list (FieldKey * T)) :=
  match assoc key arms with
  | Some _ => update_key arms key f
  | None => v ← f default; Some (insert_by (fun a b => fieldkey_leb a.1 b.1) (key, v) arms)
  end.

(** [append], by recursion on the column appended; a tag the receiver lacks starts as an
    empty arm of the incoming shape. *)
Fixpoint append (s o : ColumnValue) {struct o} : option ColumnValue :=
  match s, o with
  | Units s, Units o => Some (Units (s + o))
  | Ints s, Ints o => Some (Ints (s ++ o))
  | UInts s, UInts o => Some (UInts (s ++ o))
  | Bools s, Bools o => Some (Bools (s ++ o))
  | Strings s, Strings o => Some (Strings (s ++ o))
  | Variants s, Variants o => Some (Variants (s ++ o))
  | FunctionBindings si so, FunctionBindings oi oo =>
      i ← append si oi; x ← append so oo; Some (FunctionBindings i x)
  | Records s, Records o =>
      fields ← (fix go s o {struct o} := match o with
        | [] => Some s
        | (k, v) :: o => s ← update_key s k (fun x => append x v); go s o
        end) s o;
      Some (Records fields)
  | Union sa, Union oa =>
      offset ← len (Union sa);
      arms ← (fix go sa oa {struct oa} := match oa with
        | [] => Some sa
        | (tag, MkArm rows payloads) :: oa =>
            sa ← upsert_arm sa tag (MkArm [] (empty_like payloads)) (fun arm =>
              values ← append (arm_values arm) payloads;
              Some (MkArm (arm_rows arm ++ map (fun r => r + offset) rows) values));
            go sa oa
        end) sa oa;
      Some (Union arms)
  | _, _ => None
  end.

(** [extend_from]: the same rows, the borrowed column copied. *)
Fixpoint extend_from (s o : ColumnValue) {struct o} : option ColumnValue :=
  match s, o with
  | Ints s, Ints o => Some (Ints (s ++ o))
  | UInts s, UInts o => Some (UInts (s ++ o))
  | Strings s, Strings o => Some (Strings (s ++ o))
  | Bools s, Bools o => Some (Bools (s ++ o))
  | Records s, Records o =>
      fields ← (fix go s o {struct o} := match o with
        | [] => Some s
        | (k, v) :: o => s ← update_key s k (fun x => extend_from x v); go s o
        end) s o;
      Some (Records fields)
  | s, o => append s o
  end.

(** ** Columns of an extent *)

Inductive BaseType := BInt | BUInt | BString | BBool | BUnit.

(** [Extent]: a data source's domain is the extent of its elements, as it reports it; of a
    range and of a restriction the columns read only that they are one. *)
Inductive Extent :=
  | EBase (b : BaseType)
  | EFunction (domain codomain : Extent)
  | ERecord (fields : list (string * Extent))
  | EUnion (arms : list (FieldKey * Extent))
  | EUIntRange
  | EDataSourceDomain (element_extent : Extent)
  | ERestricted (base : Extent).

(** The rows whose value carries [tag], with their payloads. *)
Definition tag_bucket (values : list (FieldKey * Value)) (tag : FieldKey) : list (nat * Value) :=
  omap (fun '(row, (t, inner)) => if decide (t = tag) then Some (row, inner) else None) (imap pair values).

(** [from_values]. *)
Fixpoint from_values (extent : Extent) (values : list Value) : option ColumnValue :=
  match extent with
  | EBase BUnit => Some (Units (length values))
  | EBase BBool => v ← mapM value_as_bool values; Some (Bools v)
  | EBase BInt => v ← mapM as_int values; Some (Ints v)
  | EBase BUInt | EUIntRange => v ← mapM as_uint values; Some (UInts v)
  | EBase BString => v ← mapM as_string values; Some (Strings v)
  | ERecord m =>
      fields ← mapM (fun '(key, e) =>
        field_values ← mapM (fun v => match v with VRecord r => assoc key r | _ => None end) values;
        c ← from_values e field_values; Some (key, c)) m;
      Some (Records fields)
  | EDataSourceDomain d => from_values d values
  | EUnion sub_extents =>
      tagged ← mapM (fun v => match v with VUnion tag inner => Some (tag, inner) | _ => None end) values;
      arms ← mapM (fun '(tag, e) =>
        let bucket := tag_bucket tagged tag in
        c ← from_values e (map snd bucket); Some (tag, MkArm (map fst bucket) c)) sub_extents;
      Some (Union arms)
  | EFunction _ _ | ERestricted _ => Some (Variants values)
  end.

(** [is_compatible_with_extent]: the first match reads through one source domain or one
    restriction. *)
Definition resolved (extent : Extent) : Extent :=
  match extent with EDataSourceDomain e => e | ERestricted base => base | other => other end.

Fixpoint is_compatible_with_extent (c : ColumnValue) (extent : Extent) : bool :=
  match c, resolved extent with
  | Units _, EBase BUnit => true
  | Bools _, EBase BBool => true
  | Ints _, EBase BInt => true
  | UInts _, EBase BUInt => true
  | UInts _, EUIntRange => true
  | Strings _, EBase BString => true
  | Records fields, ERecord ext_fields =>
      (length fields =? length ext_fields) &&
      forallb (fun '(k, cv) =>
        match assoc k ext_fields with Some e => is_compatible_with_extent cv e | None => false end) fields
  | FunctionBindings _ _, EFunction _ _ => true
  | Union arms, EUnion ext_arms =>
      forallb (fun '(k, arm) =>
        match assoc k ext_arms with Some e => is_compatible_with_extent (arm_values arm) e | None => false end) arms
  | Variants _, _ => true
  | _, _ => false
  end.

(** ** Columns out of others *)

(** [repeat] of a column of one row. *)
Fixpoint repeat (c : ColumnValue) (n : nat) : option ColumnValue :=
  l ← len c;
  if l =? 1 then
    match c with
    | Units _ => Some (Units n)
    | Bools v => x ← v !! 0; Some (Bools (replicate n x))
    | Ints v => x ← v !! 0; Some (Ints (replicate n x))
    | UInts v => x ← v !! 0; Some (UInts (replicate n x))
    | Strings v => x ← v !! 0; Some (Strings (replicate n x))
    | Variants v => x ← v !! 0; Some (Variants (replicate n x))
    | Records r => r ← mapM (fun '(k, v) => x ← repeat v n; Some (k, x)) r; Some (Records r)
    | Union arms =>
        arms ← mapM (fun '(k, arm) =>
          if arm_is_empty arm then Some (k, arm)
          else values ← repeat (arm_values arm) n; Some (k, MkArm (seq 0 n) values)) arms;
        Some (Union arms)
    | FunctionBindings _ _ => None
    end
  else None.

(** [v[range]]. *)
Definition slice_vec {T} (v : list T) (from to : nat) : option (list T) :=
  if (from <=? to) && (to <=? length v) then Some (take (to - from) (drop from v)) else None.

(** [slice]. *)
Fixpoint slice (c : ColumnValue) (from to : nat) : option ColumnValue :=
  match c with
  | Ints v => r ← slice_vec v from to; Some (Ints r)
  | UInts v => r ← slice_vec v from to; Some (UInts r)
  | Strings v => r ← slice_vec v from to; Some (Strings r)
  | Bools v => r ← slice_vec v from to; Some (Bools r)
  | Records r => r ← mapM (fun '(k, v) => x ← slice v from to; Some (k, x)) r; Some (Records r)
  | _ => select_indices c (seq from (to - from))
  end.

(** [cartesian_product]: field [j] of row [i] is read at [(i / stride) % lengths[j]], the
    stride being the product of the later lengths. *)
Definition product_indices (total stride length : nat) : list nat :=
  map (fun i => (i / stride) mod length) (seq 0 total).

Definition cartesian_product (data : list (string * ColumnValue)) : option ColumnValue :=
  match data with
  | [] => Some (Records [])
  | _ =>
      lengths ← mapM (fun kc => len kc.2) data;
      let total := foldr Nat.mul 1 lengths in
      expanded ← mapM (fun '(j, (key, column)) =>
        length ← lengths !! j;
        let stride := foldr Nat.mul 1 (drop (S j) lengths) in
        c ← select_indices column (product_indices total stride length);
        Some (key, c)) (imap pair data);
      Some (Records expanded)
  end.

(** [positional_union]. *)
Definition positional_union (tags : list nat) (variants : list ColumnValue) : ColumnValue :=
  Union (imap (fun j values =>
    (Index j, MkArm (omap (fun '(row, t) => if t =? j then Some row else None) (imap pair tags)) values)) variants).

(** [uints_from_rows]. *)
Definition uints_from_rows (rows : list nat) : ColumnValue := UInts (map Z.of_nat rows).

(** A [HashMap] from each key to its position, the last of equal keys staying. *)
Definition position_map {A} `{EqDecision A} (keys : list A) (k : A) : option nat :=
  fst <$> last (List.filter (fun ik => bool_decide (ik.2 = k)) (imap pair keys)).

(** [transform_by_map]: what is returned; the receiver is left empty. *)
Definition transform_by_map (c map_keys map_values : ColumnValue) : option ColumnValue :=
  indices ← match c, map_keys with
    | UInts v, UInts mk | Ints v, Ints mk => mapM (position_map mk) v
    | Strings v, Strings mk => mapM (position_map mk) v
    | Bools v, Bools mk => mapM (position_map mk) v
    | Variants v, Variants mk => mapM (position_map mk) v
    | Records _, Records _ | Union _, Union _ =>
        n ← len c; m ← len map_keys;
        keys ← mapM (index_at map_keys) (seq 0 m);
        mapM (fun i => k ← index_at c i; position_map keys k) (seq 0 n)
    | _, _ => None
    end;
  select_indices map_values indices.

(** [transform_by_list]. *)
Definition transform_by_list (c map : ColumnValue) : option ColumnValue :=
  match c with
  | UInts v => select_indices map (List.map Z.to_nat v)
  | _ => None
  end.
