(* ===== verification/ColumnFacts.v ===== *)
(** * Columns hold one value per row

    [col t n c] says that [c] is a column of [n] rows of the type [t]: every array has [n]
    entries, the fields of a column of records are the type's, and the arms of a union
    partition the rows.  Selection, retention and concatenation keep it and are exact on
    every row; a retained column is the selection of the rows kept. *)

From Stdlib Require Import ZArith List Sorting.Sorted.
From stdpp Require Import sorting.
From S2P Require Import Prelude Predicate KeyMaps Values Columns.
Set Warnings "-register-all".

(** ** Types of columns *)

Inductive CTy :=
  | TyUnit
  | TyInt
  | TyUInt
  | TyString
  | TyBool
  | TyVariants
  | TyFunction (inputs outputs : CTy)
  | TyRecord (fields : list (string * CTy))
  | TyUnion (arms : list (FieldKey * CTy)).

(** The rows [0..n] divided among arms of distinct tags. *)
Definition partition {C} (n : nat) (arms : list (FieldKey * UnionArm C)) : Prop :=
  NoDup (map fst arms) /\
  Forall (fun a => StronglySorted lt (arm_rows a.2)) arms /\
  (forall i, i < n <-> exists a, a ∈ arms /\ i ∈ arm_rows a.2) /\
  (forall i a b, a ∈ arms -> b ∈ arms -> i ∈ arm_rows a.2 -> i ∈ arm_rows b.2 -> a.1 = b.1).

Fixpoint col (t : CTy) (n : nat) (c : ColumnValue) {struct c} : Prop :=
  match c, t with
  | Units m, TyUnit => m = n
  | Ints v, TyInt | UInts v, TyUInt => length v = n
  | Strings v, TyString => length v = n
  | Bools v, TyBool => length v = n
  | Variants v, TyVariants => length v = n
  | FunctionBindings i o, TyFunction a b => col a n i /\ col b n o
  | Records fields, TyRecord ts =>
      fields <> [] /\ NoDup (map fst ts) /\
      (fix go fields ts := match fields, ts with
        | [], [] => True
        | (k, c) :: fields, (k', t) :: ts => k = k' /\ col t n c /\ go fields ts
        | _, _ => False
        end) fields ts
  | Union arms, TyUnion ts =>
      partition n arms /\
      (fix go arms := match arms with
        | [] => True
        | (k, arm) :: arms =>
            match assoc k ts with Some t => col t (arm_len arm) (arm_values arm) | None => False end /\ go arms
        end) arms
  | _, _ => False
  end.

Lemma col_records t n fields :
  col t n (Records fields) <->
  exists ts, t = TyRecord ts /\ fields <> [] /\ NoDup (map fst ts) /\
    Forall2 (fun kc kt => kc.1 = kt.1 /\ col kt.2 n kc.2) fields ts.
Proof.
  assert (H : forall ts, ((fix go fields ts := match fields, ts with
        | [], [] => True
        | (k, c) :: fields, (k', t) :: ts => k = k' /\ col t n c /\ go fields ts
        | _, _ => False
        end) fields ts) <-> Forall2 (fun kc kt => kc.1 = kt.1 /\ col kt.2 n kc.2) fields ts).
  { induction fields as [|[k c] fields IH]; intros [|[k' u] ts]; simpl.
    - split; [constructor|done].
    - split; [done|intros H; inversion H].
    - split; [done|intros H; inversion H].
    - rewrite IH, Forall2_cons. simpl. tauto. }
  split.
  - destruct t as [| | | | | | |ts|]; try done. intros (? & ? & ?). exists ts. by rewrite <- H.
  - intros (ts & -> & ? & ? & ?%H). done.
Qed.

Lemma col_union t n arms :
  col t n (Union arms) <->
  exists ts, t = TyUnion ts /\ partition n arms /\
    Forall (fun a => exists u, assoc a.1 ts = Some u /\ col u (arm_len a.2) (arm_values a.2)) arms.
Proof.
  assert (H : forall ts, ((fix go arms := match arms with
        | [] => True
        | (k, arm) :: arms =>
            match assoc k ts with Some t => col t (arm_len arm) (arm_values arm) | None => False end /\ go arms
        end) arms) <-> Forall (fun a => exists u, assoc a.1 ts = Some u /\ col u (arm_len a.2) (arm_values a.2)) arms).
  { intros ts. induction arms as [|[k arm] arms IH]; simpl; [split; [constructor|done]|].
    rewrite IH, Forall_cons. simpl. f_equiv. destruct (assoc k ts) as [u|]; [|by split; [|intros (? & ? & _)]].
    split; [by exists u|]. by intros (? & [= <-] & ?). }
  split.
  - destruct t as [| | | | | | | |ts]; try done. intros (? & ?). exists ts. by rewrite <- H.
  - intros (ts & -> & ? & ?%H). done.
Qed.

(** Induction over columns. *)
Section Induction.
Context (P : ColumnValue -> Prop).
Context (Hunits : forall n, P (Units n)) (Hints : forall v, P (Ints v)) (Huints : forall v, P (UInts v)).
Context (Hstrings : forall v, P (Strings v)) (Hbools : forall v, P (Bools v)) (Hvariants : forall v, P (Variants v)).
Context (Hfun : forall i o, P i -> P o -> P (FunctionBindings i o)).
Context (Hrec : forall fields, Forall (fun kc => P kc.2) fields -> P (Records fields)).
Context (Hunion : forall arms, Forall (fun a => P (arm_values a.2)) arms -> P (Union arms)).

Fixpoint column_ind (c : ColumnValue) : P c :=
  match c with
  | Units n => Hunits n
  | Ints v => Hints v
  | UInts v => Huints v
  | Strings v => Hstrings v
  | Bools v => Hbools v
  | Variants v => Hvariants v
  | FunctionBindings i o => Hfun i o (column_ind i) (column_ind o)
  | Records fields =>
      Hrec fields ((fix go fields : Forall (fun kc => P kc.2) fields :=
        match fields with
        | [] => List.Forall_nil _
        | (k, c) :: fields => List.Forall_cons (fun kc => P kc.2) (k, c) fields (column_ind c) (go fields)
        end) fields)
  | Union arms =>
      Hunion arms ((fix go arms : Forall (fun a => P (arm_values a.2)) arms :=
        match arms with
        | [] => List.Forall_nil _
        | (k, MkArm rows values) :: arms =>
            List.Forall_cons (fun a => P (arm_values a.2)) (k, MkArm rows values) arms (column_ind values) (go arms)
        end) arms)
  end.
End Induction.

(** ** Rows of a union *)

Lemma position_of_lookup x l s : position_of x l = Some s -> l !! s = Some x.
Proof.
  revert s. induction l as [|y l IH]; intros s; simpl; [done|].
  destruct (x =? y) eqn:E; breflect; [intros [= <-]; by subst|].
  destruct (position_of x l) as [s'|]; simpl; [|done]. intros [= <-]. by apply IH.
Qed.

Lemma position_of_NoDup x l s : NoDup l -> l !! s = Some x -> position_of x l = Some s.
Proof.
  revert s. induction l as [|y l IH]; intros s; simpl; [done|]. intros [Hni Hnd]%NoDup_cons.
  destruct s as [|s]; simpl; [intros [= ->]; by rewrite Nat.eqb_refl|]. intros Hs.
  destruct (x =? y) eqn:E; breflect; [subst; by apply list_elem_of_lookup_2 in Hs|]. by rewrite (IH s).
Qed.

Lemma position_of_None x l : position_of x l = None <-> x ∉ l.
Proof.
  induction l as [|y l IH]; simpl; [split; [intros _; apply not_elem_of_nil|done]|].
  rewrite not_elem_of_cons. destruct (x =? y) eqn:E; breflect; [naive_solver|].
  destruct (position_of x l); naive_solver.
Qed.

Lemma sorted_NoDup l : StronglySorted lt l -> NoDup l.
Proof.
  induction 1 as [|x l _ IH Hx]; constructor; [|done]. intros Hin.
  rewrite Forall_forall in Hx. apply Hx in Hin. lia.
Qed.

Lemma sorted_slots l x y i j :
  StronglySorted lt l -> l !! i = Some x -> l !! j = Some y -> i < j -> x < y.
Proof.
  intros H. revert i j. induction H as [|z l _ IH Hz]; intros i j; [by rewrite lookup_nil|].
  destruct j as [|j]; [lia|]. destruct i as [|i]; simpl.
  - intros [= <-] Hy _. rewrite Forall_forall in Hz. by eapply Hz, list_elem_of_lookup_2.
  - intros Hx Hy Hij. apply (IH i j); [done..|lia].
Qed.

(** The value at a row is read from the arm that carries the row. *)
Lemma union_index n arms k arm i s :
  partition n arms -> (k, arm) ∈ arms -> slot_of arm i = Some s ->
  index_at (Union arms) i = (inner ← index_at (arm_values arm) s; Some (VUnion k inner)).
Proof.
  intros (Hnd & _ & _ & Huniq) Hin Hs.
  assert (Hi : i ∈ arm_rows arm) by (eapply list_elem_of_lookup_2, position_of_lookup; exact Hs).
  assert (H : forall a, a ∈ arms -> is_Some (slot_of a.2 i) -> a = (k, arm)).
  { intros [k' arm'] Ha [s' Hs']. apply position_of_lookup, list_elem_of_lookup_2 in Hs'.
    pose proof (Huniq i _ _ Ha Hin Hs' Hi) as E. simpl in E. subst k'.
    rewrite list_elem_of_lookup in Ha, Hin. destruct Ha as [x Hx], Hin as [y Hy].
    assert (x = y) as ->; [|congruence].
    apply (NoDup_lookup _ x y k Hnd); by rewrite list_lookup_fmap, ?Hx, ?Hy. }
  clear Huniq Hnd. simpl. induction arms as [|[k' arm'] arms IH]; [by apply not_elem_of_nil in Hin|].
  destruct (slot_of arm' i) as [s'|] eqn:E.
  - assert ((k', arm') = (k, arm)) as [= -> ->]; [apply (H (k', arm')); [left|by exists s']|]. by simplify_eq.
  - apply IH; [|intros a Ha; apply H; by right]. apply elem_of_cons in Hin as [[= <- <-]|Hin]; [congruence|done].
Qed.

Lemma partition_carrier {C} n (arms : list (FieldKey * UnionArm C)) i :
  partition n arms -> i < n -> exists k arm s, (k, arm) ∈ arms /\ slot_of arm i = Some s.
Proof.
  intros (_ & _ & Hcov & _) Hi. apply Hcov in Hi as ([k arm] & Ha & Hi). exists k, arm.
  destruct (slot_of arm i) as [s|] eqn:E; [by exists s|]. by apply position_of_None in E.
Qed.

(** The arms' rows are the column's. *)
(** The rows of the arms, together. *)
Lemma partition_perm {C} n (arms : list (FieldKey * UnionArm C)) :
  partition n arms -> concat (map (fun a => arm_rows a.2) arms) ≡ₚ seq 0 n.
Proof.
  intros (Hnd & Hs & Hcov & Huniq). apply NoDup_Permutation; [|apply NoDup_seq|].
  - clear Hcov. induction arms as [|[k a] arms IH]; simpl; [constructor|].
    apply NoDup_cons in Hnd as [Hni Hnd]. apply Forall_cons in Hs as [Ha Hs]. apply NoDup_app. split; [by apply sorted_NoDup|].
    split; [|apply IH; [done..|]; intros i x y Hx Hy; apply Huniq; by right].
    intros i Hi Hin. apply list_elem_of_In, in_concat in Hin as (rs & Hrs & Hin). apply in_map_iff in Hrs as ([k' b] & <- & Hb).
    apply list_elem_of_In in Hin, Hb. apply Hni.
    rewrite (Huniq i (k, a) (k', b)); [|left|by right|done..]. apply list_elem_of_In, in_map_iff. exists (k', b). split; [done|by apply list_elem_of_In].
  - intros i. rewrite elem_of_seq. split.
    + intros Hin. apply list_elem_of_In, in_concat in Hin as (rs & Hrs & Hin). apply in_map_iff in Hrs as (a & <- & Ha).
      split; [lia|]. apply Hcov. exists a. split; by apply list_elem_of_In.
    + intros [_ Hi]. apply Hcov in Hi as (a & Ha & Hi). apply list_elem_of_In, in_concat.
      exists (arm_rows a.2). split; [|by apply list_elem_of_In]. apply in_map_iff. exists a. split; [done|by apply list_elem_of_In].
Qed.

Lemma partition_sum {C} n (arms : list (FieldKey * UnionArm C)) :
  partition n arms -> sum_list_with (fun a => arm_len a.2) arms = n.
Proof.
  intros HP%partition_perm%Permutation_length. rewrite length_seq in HP. rewrite <- HP. clear.
  induction arms as [|a arms IH]; simpl; [done|]. rewrite length_app, IH. done.
Qed.

(** ** Length *)

Lemma col_len t n c : col t n c -> len c = Some n.
Proof.
  revert t n. induction c as [m|v|v|v|v|v|i o IHi _|fields IH|arms _] using column_ind; intros t n H;
    [destruct t; try done; simpl in *; congruence..| | |].
  - destruct t; try done. destruct H as [H _]. by eapply IHi.
  - apply col_records in H as (ts & -> & Hne & _ & H). destruct H as [|[k c] [k' u] fields ts [_ H] _]; [done|].
    apply Forall_cons in IH as [IH _]. simpl in *. by eapply IH.
  - apply col_union in H as (ts & -> & Hp & _). simpl. f_equal. by apply partition_sum.
Qed.

(** ** Selection *)

Lemma vec_select {T} (v : list T) indices :
  Forall (fun i => i < length v) indices ->
  exists r, mapM (fun i => v !! i) indices = Some r /\ length r = length indices /\
    forall j i, indices !! j = Some i -> r !! j = v !! i.
Proof.
  intros H. destruct (mapM_some (fun i => v !! i) indices) as (r & Hr & H2).
  { intros i Hi. rewrite Forall_forall in H. by apply lookup_lt_is_Some, H. }
  exists r. split; [done|]. split; [by apply Forall2_length in H2|]. intros j i Hj.
  destruct (Forall2_lookup_l _ _ _ _ _ H2 Hj) as (y & -> & ->). done.
Qed.

Lemma imap_pair_fst {A} (l : list A) : map fst (imap pair l) = seq 0 (length l).
Proof.
  apply list_eq. intros i. rewrite list_lookup_fmap, list_lookup_imap.
  destruct (decide (i < length l)) as [Hi|Hi].
  - rewrite lookup_seq_lt by done. destruct (lookup_lt_is_Some_2 l i Hi) as [x ->]. done.
  - rewrite lookup_seq_ge, lookup_ge_None_2 by lia. done.
Qed.

Lemma seq_sorted a n : StronglySorted lt (seq a n).
Proof.
  revert a. induction n as [|n IH]; intros a; simpl; constructor; [done|].
  apply Forall_forall. intros i. rewrite elem_of_seq. lia.
Qed.

Lemma sorted_fst {A} (l : list (nat * A)) : StronglySorted lt (map fst l) <-> StronglySorted (fun a b => a.1 < b.1) l.
Proof.
  induction l as [|x l IH]; [split; constructor|]. simpl. split; intros H; apply StronglySorted_inv in H as [Hs Hx];
    (constructor; [by apply IH|]); rewrite Forall_forall in Hx; apply Forall_forall; intros y Hy.
  - apply (Hx y.1), list_elem_of_In, in_map_iff. exists y. split; [done|by apply list_elem_of_In].
  - apply list_elem_of_In, in_map_iff in Hy as (z & <- & Hz%list_elem_of_In). by apply Hx.
Qed.

Lemma elem_of_arm_selection {C} (arm : UnionArm C) indices j s :
  (j, s) ∈ arm_selection arm indices <-> exists i, indices !! j = Some i /\ slot_of arm i = Some s.
Proof.
  unfold arm_selection. rewrite list_elem_of_omap. split.
  - intros ([j' i] & Hin & E). destruct (slot_of arm i) as [s'|] eqn:Es; [|done]. simpl in E. simplify_eq.
    apply list_elem_of_lookup in Hin as [x Hx]. rewrite list_lookup_imap in Hx.
    destruct (indices !! x) as [y|] eqn:Ey; [|done]. simpl in Hx. simplify_eq. eauto.
  - intros (i & Hi & Hs). exists (j, i). split; [|by rewrite Hs].
    apply list_elem_of_lookup. exists j. by rewrite list_lookup_imap, Hi.
Qed.

Lemma arm_selection_sorted {C} (arm : UnionArm C) indices : StronglySorted lt (map fst (arm_selection arm indices)).
Proof.
  apply sorted_fst. apply (omap_sorted (fun a b => a.1 < b.1)).
  - intros [j i] [j' i'] x y Hlt. simpl. destruct (slot_of arm i), (slot_of arm i'); simpl; try done. intros [= <-] [= <-]. done.
  - apply sorted_fst. rewrite imap_pair_fst. apply seq_sorted.
Qed.

Lemma map_fst_lookup {A B} (l : list (A * B)) i x : map fst l !! i = Some x -> exists y, l !! i = Some (x, y).
Proof. rewrite list_lookup_fmap. destruct (l !! i) as [[a b]|]; [|done]. intros [= <-]. eauto. Qed.

(** The arm a selection leaves: its rows are the new rows, and a payload is where it was. *)
Definition selected {C} (arm arm' : UnionArm C) (indices : list nat) : Prop :=
  StronglySorted lt (arm_rows arm') /\
  forall j i, indices !! j = Some i -> j ∈ arm_rows arm' <-> i ∈ arm_rows arm.

Lemma partition_select {C} n (arms arms' : list (FieldKey * UnionArm C)) indices :
  partition n arms -> Forall (fun i => i < n) indices ->
  Forall2 (fun a a' => a.1 = a'.1 /\ selected a.2 a'.2 indices /\ forall j, j ∈ arm_rows a'.2 -> j < length indices) arms arms' ->
  partition (length indices) arms'.
Proof.
  intros (Hnd & Hs & Hcov & Huniq) Hlt H. rewrite Forall_forall in Hlt.
  assert (Hfst : map fst arms' = map fst arms).
  { clear -H. induction H as [|a a' arms arms' (E & _) _ IH]; simpl; [done|]. by rewrite IH, E. }
  assert (Hback : forall a', a' ∈ arms' -> exists a, a ∈ arms /\ a.1 = a'.1 /\ selected a.2 a'.2 indices /\
      forall j, j ∈ arm_rows a'.2 -> j < length indices).
  { intros a' Ha'. apply list_elem_of_lookup in Ha' as [x Hx]. destruct (Forall2_lookup_r _ _ _ _ _ H Hx) as (a & Ha & ?).
    exists a. split; [by eapply list_elem_of_lookup_2|done]. }
  split; [by rewrite Hfst|]. split.
  { apply Forall_forall. intros a' Ha'. destruct (Hback a' Ha') as (a & _ & _ & [? _] & _). done. }
  split.
  - intros j. split.
    + intros Hj. destruct (lookup_lt_is_Some_2 indices j Hj) as [i Hi].
      destruct (proj1 (Hcov i)) as (a & Ha & Hin); [by eapply Hlt, list_elem_of_lookup_2|].
      apply list_elem_of_lookup in Ha as [x Hx]. destruct (Forall2_lookup_l _ _ _ _ _ H Hx) as (a' & Ha' & _ & [_ Hsel] & _).
      exists a'. split; [by eapply list_elem_of_lookup_2|]. by apply (Hsel j i Hi).
    + intros (a' & Ha' & Hj). destruct (Hback a' Ha') as (a & _ & _ & _ & Hb). by apply Hb.
  - intros j a' b' Ha' Hb' Hja Hjb.
    destruct (Hback a' Ha') as (a & Ha & <- & [_ Hsa] & Hlen), (Hback b' Hb') as (b & Hb & <- & [_ Hsb] & _).
    destruct (lookup_lt_is_Some_2 indices j (Hlen j Hja)) as [i Hi].
    apply (Huniq i a b Ha Hb); [by apply (Hsa j i Hi)|by apply (Hsb j i Hi)].
Qed.

(** What a selection of a column leaves. *)
Definition selection (t : CTy) (c : ColumnValue) (indices : list nat) (c' : ColumnValue) : Prop :=
  col t (length indices) c' /\ forall j i, indices !! j = Some i -> index_at c' j = index_at c i.

Lemma slot_lt {C} (arm : UnionArm C) i s : slot_of arm i = Some s -> s < arm_len arm.
Proof. intros H%position_of_lookup. by apply lookup_lt_Some in H. Qed.

Lemma select_arm u (k : FieldKey) (arm : UnionArm ColumnValue) indices :
  (forall indices, Forall (fun i => i < arm_len arm) indices ->
    exists c', select_indices (arm_values arm) indices = Some c' /\ selection u (arm_values arm) indices c') ->
  let picked := arm_selection arm indices in
  exists arm', (values ← select_indices (arm_values arm) (map snd picked); Some (k, MkArm (map fst picked) values)) = Some (k, arm') /\
    col u (arm_len arm') (arm_values arm') /\ selected arm arm' indices /\
    (forall j, j ∈ arm_rows arm' -> j < length indices) /\
    forall j i s, indices !! j = Some i -> slot_of arm i = Some s ->
      exists s', slot_of arm' j = Some s' /\ index_at (arm_values arm') s' = index_at (arm_values arm) s.
Proof.
  intros Hsel picked. pose proof (elem_of_arm_selection arm indices) as Hel. fold picked in Hel.
  pose proof (arm_selection_sorted arm indices) as Hsorted. fold picked in Hsorted.
  destruct (Hsel (map snd picked)) as (c' & -> & Hc & Hix).
  { apply Forall_forall. intros s Hs. apply list_elem_of_In, in_map_iff in Hs as ([j s'] & <- & Hin).
    apply list_elem_of_In, Hel in Hin as (i & _ & Hs). by eapply slot_lt. }
  exists (MkArm (map fst picked) c'). split; [done|]. simpl. unfold arm_len. simpl. rewrite !length_map in *. split; [done|].
  assert (Hrow : forall j, j ∈ map fst picked <-> exists i s, indices !! j = Some i /\ slot_of arm i = Some s).
  { intros j. rewrite list_elem_of_In, in_map_iff. split.
    - intros ([j' s] & <- & Hin%list_elem_of_In). apply Hel in Hin as (i & ? & ?). eauto.
    - intros (i & s & ? & ?). exists (j, s). split; [done|]. apply list_elem_of_In, Hel. eauto. }
  split; [|split].
  - split; [done|]. intros j i Hj. simpl. rewrite Hrow. split.
    + intros (i' & s & Hi' & Hs). simplify_eq. by eapply list_elem_of_lookup_2, position_of_lookup.
    + intros Hin. destruct (slot_of arm i) as [s|] eqn:E; [by exists i, s|]. by apply position_of_None in E.
  - intros j (i & s & Hi & _)%Hrow. by apply lookup_lt_Some in Hi.
  - intros j i s Hj Hs. assert (Hin : (j, s) ∈ picked) by (apply Hel; eauto).
    apply list_elem_of_lookup in Hin as [p Hp]. exists p. split.
    + apply position_of_NoDup; [by apply sorted_NoDup|]. simpl. by rewrite list_lookup_fmap, Hp.
    + apply Hix. by rewrite list_lookup_fmap, Hp.
Qed.

Lemma vec_selection {T} (mk : list T -> ColumnValue) (f : T -> Value) t n v indices :
  (forall v i, index_at (mk v) i = x ← v !! i; Some (f x)) -> (forall v m, length v = m -> col t m (mk v)) ->
  length v = n -> Forall (fun i => i < n) indices ->
  exists c', (r ← mapM (fun i => v !! i) indices; Some (mk r)) = Some c' /\ selection t (mk v) indices c'.
Proof.
  intros Hix Hcol <- Hlt. destruct (vec_select v indices Hlt) as (r & -> & Hlen & Hr). exists (mk r). split; [done|].
  split; [by apply Hcol|]. intros j i Hj. rewrite !Hix. by rewrite (Hr j i Hj).
Qed.

(** That the columns inside a column are selected as they should. *)
Definition selects (c : ColumnValue) : Prop :=
  forall t n indices, col t n c -> Forall (fun i => i < n) indices ->
    exists c', select_indices c indices = Some c' /\ selection t c indices c'.

Lemma select_records n fields (ts : list (string * CTy)) indices :
  Forall (fun kc => selects kc.2) fields -> Forall (fun i => i < n) indices ->
  Forall2 (fun kc kt => kc.1 = kt.1 /\ col kt.2 n kc.2) fields ts ->
  exists fields', mapM (fun '(k, v) => x ← select_indices v indices; Some (k, x)) fields = Some fields' /\
    Forall2 (fun kc kt => kc.1 = kt.1 /\ col kt.2 (length indices) kc.2) fields' ts /\
    Forall2 (fun kc kc' => kc.1 = kc'.1 /\ forall j i, indices !! j = Some i -> index_at kc'.2 j = index_at kc.2 i) fields fields'.
Proof.
  intros IH Hlt H. induction H as [|[k c] [k' u] fields ts [E Hc] _ IHf]; [by exists []|]. simpl in *. subst k'.
  apply Forall_cons in IH as [IHc IH]. destruct (IHc u n indices Hc Hlt) as (c' & Ec & Cc & Xc).
  destruct (IHf IH) as (fields' & Ef & Cf & Xf). exists ((k, c') :: fields'). simpl in *. rewrite Ec, Ef. split; [done|].
  split; constructor; done.
Qed.

Lemma records_index (fields fields' : list (string * ColumnValue)) i j :
  Forall2 (fun kc kc' => kc.1 = kc'.1 /\ index_at kc'.2 j = index_at kc.2 i) fields fields' ->
  index_at (Records fields') j = index_at (Records fields) i.
Proof.
  intros H. simpl. f_equal. induction H as [|[k c] [k' c'] fields fields' [E Hc] _ IHf]; simpl in *; [done|].
  by rewrite Hc, IHf, E.
Qed.

(** A union rebuilt arm by arm reads at [j] what the first reads at [i]. *)
Lemma union_index_transfer n n' (arms arms' : list (FieldKey * UnionArm ColumnValue)) i j :
  partition n arms -> partition n' arms' -> i < n ->
  Forall2 (fun a a' => a.1 = a'.1 /\ forall s, slot_of a.2 i = Some s ->
    exists s', slot_of a'.2 j = Some s' /\ index_at (arm_values a'.2) s' = index_at (arm_values a.2) s) arms arms' ->
  index_at (Union arms') j = index_at (Union arms) i.
Proof.
  intros Hp Hp' Hi H. destruct (partition_carrier n arms i Hp Hi) as (k & arm & s & Ha & Hs).
  pose proof Ha as Hx. apply list_elem_of_lookup in Hx as [x Hx].
  destruct (Forall2_lookup_l _ _ _ _ _ H Hx) as ([k' arm'] & Ha' & E & Hix). simpl in E, Hix. subst k'.
  destruct (Hix s Hs) as (s' & Hs' & Es). apply list_elem_of_lookup_2 in Ha'.
  by rewrite (union_index _ _ _ _ _ _ Hp' Ha' Hs'), (union_index _ _ _ _ _ _ Hp Ha Hs), Es.
Qed.

Lemma select_union t n arms indices :
  Forall (fun a => selects (arm_values a.2)) arms -> col t n (Union arms) -> Forall (fun i => i < n) indices ->
  exists c', select_indices (Union arms) indices = Some c' /\ selection t (Union arms) indices c'.
Proof.
  intros IH (ts & -> & Hp & H)%col_union Hlt.
  destruct (mapM_rel (fun '(k, arm) => values ← select_indices (arm_values arm) (map snd (arm_selection arm indices));
      Some (k, MkArm (map fst (arm_selection arm indices)) values))
    (fun a a' => a.1 = a'.1 /\ (exists u, assoc a'.1 ts = Some u /\ col u (arm_len a'.2) (arm_values a'.2)) /\
      selected a.2 a'.2 indices /\ (forall j, j ∈ arm_rows a'.2 -> j < length indices) /\
      forall j i s, indices !! j = Some i -> slot_of a.2 i = Some s ->
        exists s', slot_of a'.2 j = Some s' /\ index_at (arm_values a'.2) s' = index_at (arm_values a.2) s) arms)
    as (arms' & Earms & H2).
  { intros [k arm] Ha. rewrite Forall_forall in H, IH. destruct (H _ Ha) as (u & Hu & Hc).
    destruct (select_arm u k arm indices) as (arm' & E & Hc' & Hsel & Hlen & Hix).
    { intros idx Hidx. by apply (IH _ Ha u (arm_len arm)). }
    exists (k, arm'). split; [done|]. simpl. split; [done|]. split; [by exists u|done]. }
  assert (Hp' : partition (length indices) arms').
  { apply (partition_select n arms); [done..|]. eapply Forall2_impl; [exact H2|]. intros a a' (? & _ & ? & ? & _). done. }
  exists (Union arms'). split; [simpl; by rewrite Earms|]. split.
  - apply col_union. exists ts. split; [done|]. split; [done|]. apply Forall_forall. intros a' Ha'.
    apply list_elem_of_lookup in Ha' as [x Hx]. destruct (Forall2_lookup_r _ _ _ _ _ H2 Hx) as (a & _ & _ & ? & _). done.
  - intros j i Hj. rewrite Forall_forall in Hlt. apply (union_index_transfer n (length indices)); [done..| |].
    + by eapply Hlt, list_elem_of_lookup_2.
    + eapply Forall2_impl; [exact H2|]. intros a a' (? & _ & _ & _ & Hix). split; [done|]. intros s. by apply Hix.
Qed.

Lemma select_ok c : selects c.
Proof.
  induction c as [m|v|v|v|v|v|i o IHi IHo|fields IH|arms IH] using column_ind; intros t n indices H Hlt.
  - destruct t; try done. exists (Units (length indices)). by split.
  - destruct t; try done. by apply (vec_selection Ints (fun z => VKey (SInt z)) _ n).
  - destruct t; try done. by apply (vec_selection UInts (fun z => VKey (SUInt z)) _ n).
  - destruct t; try done. by apply (vec_selection Strings (fun z => VKey (SString z)) _ n).
  - destruct t; try done. by apply (vec_selection Bools (fun z => VKey (SBool z)) _ n).
  - destruct t; try done. apply (vec_selection Variants id _ n); [|done..].
    intros w i. simpl. by destruct (w !! i).
  - destruct t; try done. destruct H as [Hi Ho].
    destruct (IHi _ n indices Hi Hlt) as (i' & Ei & Ci & Xi), (IHo _ n indices Ho Hlt) as (o' & Eo & Co & Xo).
    exists (FunctionBindings i' o'). split; [simpl; by rewrite Ei, Eo|]. split; [done|]. intros j x Hj. simpl. by rewrite (Xi j x), (Xo j x).
  - apply col_records in H as (ts & -> & Hne & Hnd & H).
    destruct (select_records n fields ts indices IH Hlt H) as (fields' & Ef & Cf & Xf).
    exists (Records fields'). split; [simpl; by rewrite Ef|]. split.
    + apply col_records. exists ts. split; [done|]. split; [|done]. intros ->. by inversion Xf; subst.
    + intros j i Hj. apply records_index. eapply Forall2_impl; [exact Xf|]. intros a b [? Hx]. split; [done|by apply Hx].
  - by apply (select_union t n).
Qed.

(** ** Retention *)

Lemma swap_middle {T} (d m rest : list T) x y :
  <[length (d ++ y :: m) := y]> (<[length d := x]> ((d ++ y :: m) ++ x :: rest)) = (d ++ [x]) ++ (m ++ [y]) ++ rest.
Proof.
  rewrite <- app_assoc, insert_app_r_alt by lia. rewrite Nat.sub_diag. simpl.
  rewrite insert_app_r_alt by (rewrite length_app; lia). rewrite length_app. simpl.
  replace (length d + S (length m) - length d) with (S (length m)) by lia. simpl.
  rewrite insert_app_r_alt by lia. rewrite Nat.sub_diag. simpl. by rewrite <- !app_assoc.
Qed.

Lemma retain_loop_ok {T} (done_ mid rest : list T) mask :
  length mask = length rest ->
  exists v' write, retain_loop (done_ ++ mid ++ rest) mask (length (done_ ++ mid)) (length done_) = Some (v', write) /\
    take write v' = done_ ++ masked mask rest.
Proof.
  revert done_ mid rest. induction mask as [|b mask IH]; intros d m [|x rest] H; simpl in H; try done.
  - exists (d ++ m ++ []), (length d). split; [done|]. by rewrite take_app_length, app_nil_r.
  - injection H as H. simpl. destruct b.
    + destruct m as [|y m].
      * rewrite app_nil_r, Nat.eqb_refl. destruct (IH (d ++ [x]) [] rest H) as (v' & w & E & Et).
        exists v', w. split; [|by rewrite Et, <- app_assoc]. rewrite <- E.
        f_equal; rewrite ?app_nil_r, ?length_app, <- ?app_assoc; simpl; [done|lia..].
      * replace (length d =? length (d ++ y :: m)) with false by (symmetry; apply Nat.eqb_neq; rewrite length_app; simpl; lia).
        rewrite app_assoc. rewrite (list_lookup_middle (d ++ y :: m)) by done.
        rewrite (lookup_app_l (d ++ y :: m)) by (rewrite length_app; simpl; lia). rewrite (list_lookup_middle d) by done. simpl.
        destruct (IH (d ++ [x]) (m ++ [y]) rest H) as (v' & w & E & Et).
        exists v', w. split; [|by rewrite Et, <- app_assoc]. rewrite <- E. f_equal; [|rewrite ?length_app; simpl; lia..].
        apply swap_middle.
    + destruct (IH d (m ++ [x]) rest H) as (v' & w & E & Et). exists v', w. split; [|done].
      rewrite <- E. f_equal; rewrite ?length_app, <- ?app_assoc; simpl; [done|lia].
Qed.

Lemma retain_vec_ok {T} (v : list T) mask :
  length mask = length v -> retain_vec v mask = mapM (fun i => v !! i) (kept mask).
Proof.
  intros H. destruct (retain_loop_ok [] [] v mask H) as (v' & w & E & Et). simpl in E.
  unfold retain_vec. rewrite E, masked_select by done. simpl. by rewrite Et.
Qed.

Lemma new_rows_kept mask next row j :
  new_rows mask next !! row = Some (Some (next + j)) <-> kept mask !! j = Some row.
Proof.
  revert next row j. induction mask as [|b mask IH]; intros next row j; [by split|]. rewrite kept_mask_cons. destruct b; simpl.
  - destruct row as [|row]; simpl.
    + split; [intros [= E]; by replace j with 0 by lia|]. destruct j as [|j]; simpl; [intros _; f_equal; f_equal; lia|].
      rewrite list_lookup_fmap. by destruct (kept mask !! j).
    + destruct j as [|j]; simpl.
      * split; [|done]. rewrite Nat.add_0_r. intros H. exfalso. clear -H.
        assert (G : forall m next row j, new_rows m next !! row = Some (Some j) -> next <= j).
        { clear. induction m as [|b m IH]; intros next row j; simpl; [done|]. destruct row as [|row]; simpl.
          - destruct b; [intros [= ->]; lia|done].
          - intros H%IH. destruct b; lia. }
        apply G in H. lia.
      * rewrite <- Nat.add_succ_comm. rewrite IH, list_lookup_fmap. destruct (kept mask !! j) as [i|]; simpl; split; congruence.
  - destruct row as [|row]; simpl.
    + split; [done|]. rewrite list_lookup_fmap. by destruct (kept mask !! j).
    + rewrite IH, list_lookup_fmap. destruct (kept mask !! j) as [i|]; simpl; split; congruence.
Qed.

Lemma length_new_rows mask next : length (new_rows mask next) = length mask.
Proof. revert next. induction mask as [|b mask IH]; intros next; simpl; [done|]. by rewrite IH. Qed.

Lemma elem_of_row_slots {C} (arm : UnionArm C) row s : (row, s) ∈ row_slots arm <-> arm_rows arm !! s = Some row.
Proof.
  unfold row_slots. rewrite list_elem_of_lookup. split.
  - intros [i Hi]. rewrite list_lookup_imap in Hi. destruct (arm_rows arm !! i) as [r|] eqn:E; [|done]. simpl in Hi. by simplify_eq.
  - intros H. exists s. by rewrite list_lookup_imap, H.
Qed.

Lemma row_slots_sorted {C} (arm : UnionArm C) :
  StronglySorted lt (arm_rows arm) -> StronglySorted (fun a b => a.1 < b.1) (row_slots arm).
Proof.
  intros H. apply sorted_fst. replace (map fst (row_slots arm)) with (arm_rows arm); [done|].
  unfold row_slots. apply list_eq. intros i. rewrite list_lookup_fmap, list_lookup_imap. by destruct (arm_rows arm !! i).
Qed.

(** Lists of rows with slots, in row order, are determined by their entries. *)
Lemma sorted_rows_unique {A} (l m : list (nat * A)) :
  StronglySorted (fun a b => a.1 < b.1) l -> StronglySorted (fun a b => a.1 < b.1) m ->
  (forall x, x ∈ l <-> x ∈ m) -> l = m.
Proof.
  intros Hl Hm H.
  assert (Hnd : forall k : list (nat * A), StronglySorted (fun a b => a.1 < b.1) k -> NoDup k).
  { intros k Hk. apply (NoDup_fmap_1 fst). apply sorted_NoDup, sorted_fst, Hk. }
  assert (Has : AntiSymm (=) (fun a b : nat * A => a.1 < b.1)) by (intros x y; lia).
  apply (StronglySorted_unique (fun a b => a.1 < b.1)); [done..|].
  by apply NoDup_Permutation; [apply Hnd..|].
Qed.

Lemma retain_arm {C} (arm : UnionArm C) mask :
  StronglySorted lt (arm_rows arm) -> (forall r, r ∈ arm_rows arm -> r < length mask) ->
  exists picked, mapM (fun '(row, slot) => new ← new_rows mask 0 !! row; Some (new, slot)) (row_slots arm) = Some picked /\
    omap (fun '(new, slot) => row ← new; Some (row, slot)) picked = arm_selection arm (kept mask).
Proof.
  intros Hs Hlt.
  destruct (mapM_some (fun '(row, slot) => new ← new_rows mask 0 !! row; Some (new, slot)) (row_slots arm)) as (picked & E & _).
  { intros [row s] Hin%elem_of_row_slots. apply list_elem_of_lookup_2, Hlt in Hin.
    rewrite <- (length_new_rows mask 0) in Hin. destruct (lookup_lt_is_Some_2 _ _ Hin) as [x ->]. by eexists. }
  exists picked. split; [done|]. rewrite (mapM_omap _ _ _ _ E).
  assert (Hval : forall (row slot j s : nat),
    ('(new, slot) ← (new ← new_rows mask 0 !! row; Some (new, slot)); row ← new; Some (row, slot)) = Some (j, s) <->
    s = slot /\ kept mask !! j = Some row).
  { intros row slot j s. rewrite <- (new_rows_kept mask 0 row j). simpl. destruct (new_rows mask 0 !! row) as [[r|]|]; simpl; naive_solver. }
  apply sorted_rows_unique.
  - apply (omap_sorted (fun a b => a.1 < b.1)); [|by apply row_slots_sorted].
    intros [r s] [r' s'] [j t] [j' t'] Hlt' [_ Hj]%Hval [_ Hj']%Hval. simpl in *.
    destruct (decide (j < j')) as [|Hge]; [done|].
    destruct (decide (j = j')) as [->|Hne]; [simplify_eq; lia|].
    pose proof (sorted_slots _ _ _ j' j (kept_sorted mask) Hj' Hj). lia.
  - apply sorted_fst, arm_selection_sorted.
  - intros [j s]. rewrite list_elem_of_omap, elem_of_arm_selection. split.
    + intros ([row slot] & Hin%elem_of_row_slots & [-> Hj]%Hval). exists row. split; [done|].
      by apply position_of_NoDup; [apply sorted_NoDup|].
    + intros (row & Hj & Hs2%position_of_lookup). exists (row, s). split; [by apply elem_of_row_slots|]. by apply Hval.
Qed.

(** A retained column is the selection of the rows the mask keeps. *)
Lemma retain_ok t c mask : col t (length mask) c -> retain c mask = select_indices c (kept mask).
Proof.
  revert t. induction c as [m|v|v|v|v|v|i o IHi IHo|fields IH|arms IH] using column_ind; intros t H.
  all: pose proof (col_len _ _ _ H) as Hlen; unfold retain; fold retain; rewrite Hlen; simpl; rewrite Nat.eqb_refl.
  1-6: destruct t; try done; simpl in H; rewrite ?retain_vec_ok by done; try done.
  - by rewrite length_kept.
  - destruct t; try done. destruct H as [Hi Ho]. by rewrite (IHi _ Hi), (IHo _ Ho).
  - apply col_records in H as (ts & -> & _ & _ & H). f_equal. clear Hlen.
    induction H as [|[k c] [k' u] fields ts [_ Hc] _ IHf]; [done|]. apply Forall_cons in IH as [IHc IH].
    simpl in *. by rewrite (IHc _ Hc), IHf.
  - apply col_union in H as (ts & -> & (_ & Hs & Hcov & _) & H). f_equal. clear Hlen.
    assert (Hlt : forall a r, a ∈ arms -> r ∈ arm_rows a.2 -> r < length mask) by (intros a r ? ?; apply Hcov; eauto).
    clear Hcov. induction arms as [|[k arm] arms IHa]; [done|].
    apply Forall_cons in IH as [_ IH], Hs as [Hsa Hs], H as [_ H]. simpl in *.
    destruct (retain_arm arm mask) as (picked & -> & Ep); [done| |].
    { intros r. apply (Hlt (k, arm)). left. }
    simpl. rewrite Ep, IHa; [done..|]. intros a r Ha. apply Hlt. by right.
Qed.

(** ** Concatenation *)

(** What a concatenation of two columns holds. *)
Definition concatenation (t : CTy) (n m : nat) (a b c : ColumnValue) : Prop :=
  col t (n + m) c /\ (forall i, i < n -> index_at c i = index_at a i) /\ (forall i, i < m -> index_at c (n + i) = index_at b i).

(** The two loops of [append]. *)
Fixpoint append_fields (s o : list (string * ColumnValue)) : option (list (string * ColumnValue)) :=
  match o with
  | [] => Some s
  | (k, v) :: o => s ← update_key s k (fun x => append x v); append_fields s o
  end.

Fixpoint append_arms (offset : nat) (sa oa : list (FieldKey * UnionArm ColumnValue)) : option (list (FieldKey * UnionArm ColumnValue)) :=
  match oa with
  | [] => Some sa
  | (tag, MkArm rows payloads) :: oa =>
      sa ← upsert_arm sa tag (MkArm [] (empty_like payloads)) (fun arm =>
        values ← append (arm_values arm) payloads;
        Some (MkArm (arm_rows arm ++ map (fun r => r + offset) rows) values));
      append_arms offset sa oa
  end.

Lemma append_records s o : append (Records s) (Records o) = (fields ← append_fields s o; Some (Records fields)).
Proof. done. Qed.

Lemma append_union sa oa :
  append (Union sa) (Union oa) = (offset ← len (Union sa); arms ← append_arms offset sa oa; Some (Union arms)).
Proof.
  simpl. generalize (sum_list_with (fun a => arm_len a.2) sa). intros offset. f_equal. revert sa.
  induction oa as [|[tag [rows payloads]] oa IH]; intros sa; [done|]. simpl. by destruct (upsert_arm _ _ _ _); simpl.
Qed.

Lemma vec_append {T} (mk : list T -> ColumnValue) (f : T -> Value) t (a b : list T) :
  (forall v i, index_at (mk v) i = x ← v !! i; Some (f x)) -> (forall v m, length v = m -> col t m (mk v)) ->
  concatenation t (length a) (length b) (mk a) (mk b) (mk (a ++ b)).
Proof.
  intros Hix Hcol. split; [by apply Hcol, length_app|]. split; intros i Hi; rewrite !Hix.
  - by rewrite lookup_app_l.
  - by rewrite lookup_app_r, Nat.add_comm, Nat.add_sub by lia.
Qed.

Lemma update_key_middle {K T} `{EqDecision K} (pre : list (K * T)) k x suf f :
  k ∉ map fst pre -> update_key (pre ++ (k, x) :: suf) k f = (v ← f x; Some (pre ++ (k, v) :: suf)).
Proof.
  induction pre as [|[k' y] pre IH]; simpl; [by rewrite decide_True|]. intros [Hne Hni]%not_elem_of_cons.
  rewrite decide_False, IH by done. by destruct (f x).
Qed.

Lemma append_fields_ok n m ts pre s o :
  (forall kc t a, kc ∈ o -> col t n a -> col t m kc.2 -> exists c, append a kc.2 = Some c /\ concatenation t n m a kc.2 c) ->
  NoDup (map fst pre ++ map fst ts) ->
  Forall2 (fun kc kt => kc.1 = kt.1 /\ col kt.2 n kc.2) s ts -> Forall2 (fun kc kt => kc.1 = kt.1 /\ col kt.2 m kc.2) o ts ->
  exists r, append_fields (pre ++ s) o = Some (pre ++ r) /\
    Forall2 (fun kc kt => kc.1 = kt.1 /\ col kt.2 (n + m) kc.2) r ts /\
    Forall2 (fun a c => a.1 = c.1 /\ forall i, i < n -> index_at c.2 i = index_at a.2 i) s r /\
    Forall2 (fun b c => b.1 = c.1 /\ forall i, i < m -> index_at c.2 (n + i) = index_at b.2 i) o r.
Proof.
  intros Hap Hnd Hs. revert pre o Hap Hnd. induction Hs as [|[k a] [k' t] s ts [E Ha] _ IH]; intros pre o Hap Hnd Ho.
  - inversion Ho; subst. exists []. by rewrite app_nil_r.
  - simpl in E. subst k'. inversion Ho as [|[k' b] ? o' ? [E Hb] Ho']; subst. simpl in *. subst k'.
    destruct (Hap (k, b) t a) as (c & Ec & Cc & X1 & X2); [left|done..|]. simpl in *.
    rewrite update_key_middle; [|apply NoDup_app in Hnd as (_ & Hd & _); intros Hin; apply (Hd k Hin); left].
    rewrite Ec. simpl. destruct (IH (pre ++ [(k, c)]) o') as (r & Er & Cr & Y1 & Y2); [| |done|].
    { intros kc u x Hin. apply Hap. by right. }
    { by rewrite map_app, <- app_assoc. }
    rewrite <- !app_assoc in Er. simpl in Er. exists ((k, c) :: r). split; [done|]. split; [by constructor|]. split; by constructor.
Qed.

Lemma empty_like_ok t n c : col t n c -> col t 0 (empty_like c).
Proof.
  revert t n. induction c as [m|v|v|v|v|v|i o IHi IHo|fields IH|arms IH] using column_ind; intros t n H;
    [destruct t; try done..| | |].
  - destruct t; try done. destruct H. split; eauto.
  - apply col_records in H as (ts & -> & Hne & Hnd & H). apply col_records. exists ts.
    split; [done|]. split; [by destruct fields|]. split; [done|]. clear Hne Hnd.
    induction H as [|[k c] [k' u] fields ts [E Hc] _ IHf]; simpl; [constructor|]. apply Forall_cons in IH as [IHc IH].
    constructor; [|auto]. simpl in *. eauto.
  - apply col_union in H as (ts & -> & (Hnd & _) & H). apply col_union. exists ts. split; [done|]. split.
    + split; [rewrite map_map; erewrite map_ext; [exact Hnd|by intros [? ?]]|].
      assert (Hr : forall a, a ∈ map (fun '(k, arm) => (k, MkArm [] (empty_like (arm_values arm)))) arms -> arm_rows a.2 = []).
      { intros a Ha. apply list_elem_of_In, in_map_iff in Ha as ([k arm] & <- & _). done. }
      split; [apply Forall_forall; intros a Ha; rewrite (Hr a Ha); constructor|]. split.
      * intros i. split; [lia|]. intros (a & Ha & Hi). rewrite (Hr a Ha) in Hi. by apply not_elem_of_nil in Hi.
      * intros i a b Ha _ Hi. rewrite (Hr a Ha) in Hi. by apply not_elem_of_nil in Hi.
    + clear Hnd. induction arms as [|[k arm] arms IHa]; simpl; [constructor|]. apply Forall_cons in IH as [IHc IH], H as [(u & Hu & Hc) H].
      constructor; [|auto]. exists u. split; [done|]. by eapply IHc.
Qed.

Lemma update_key_ok {K T} `{EqDecision K} (l : list (K * T)) key x v f :
  assoc key l = Some x -> f x = Some v ->
  exists l', update_key l key f = Some l' /\ map fst l' = map fst l /\ forall k, assoc k l' = if decide (k = key) then Some v else assoc k l.
Proof.
  intros Ha Hf. induction l as [|[k' y] l IH]; [done|]. simpl in *. destruct (decide (key = k')) as [->|Hne].
  - simplify_eq. rewrite decide_True, Hf by done. simpl. eexists. split; [done|]. split; [done|]. intros k. simpl.
    by destruct (decide (k = k')).
  - rewrite decide_False by done. destruct (IH Ha) as (l' & -> & Hfst & Hl). simpl. eexists. split; [done|]. simpl. rewrite Hfst.
    split; [done|]. intros k. simpl. rewrite Hl. destruct (decide (k = k')) as [->|]; [|done]. by rewrite decide_False.
Qed.

Lemma upsert_ok {T} (arms : list (FieldKey * T)) key d v f :
  NoDup (map fst arms) -> f (default d (assoc key arms)) = Some v ->
  exists arms', upsert_arm arms key d f = Some arms' /\ NoDup (map fst arms') /\
    forall k, assoc k arms' = if decide (k = key) then Some v else assoc k arms.
Proof.
  intros Hnd Hf. unfold upsert_arm. destruct (assoc key arms) as [x|] eqn:E; simpl in Hf.
  - destruct (update_key_ok arms key x v f E Hf) as (l' & -> & Hfst & Hl). exists l'. by rewrite Hfst.
  - rewrite Hf. simpl. eexists. split; [done|]. set (l' := insert_by _ _ _).
    assert (HP : l' ≡ₚ (key, v) :: arms) by apply insert_by_perm.
    assert (Hnd' : NoDup (map fst l')).
    { rewrite HP. simpl. constructor; [by apply assoc_None|done]. }
    split; [done|]. intros k. rewrite (assoc_perm k _ _ Hnd' HP). simpl. by destruct (decide (k = key)).
Qed.

Definition rows_of {C} (a : option (UnionArm C)) : list nat := match a with Some arm => arm_rows arm | None => [] end.

(** The arm of a tag after a concatenation: its rows follow, shifted, and its payloads with them. *)
Definition joined (offset : nat) (a b r : option (UnionArm ColumnValue)) : Prop :=
  match b with
  | None => r = a
  | Some b =>
      exists arm, r = Some arm /\ arm_rows arm = rows_of a ++ map (fun x => x + offset) (arm_rows b) /\
        (forall s, s < length (rows_of a) -> index_at (arm_values arm) s = a ← a; index_at (arm_values a) s) /\
        (forall s, s < arm_len b -> index_at (arm_values arm) (length (rows_of a) + s) = index_at (arm_values b) s)
  end.

Definition appends (c : ColumnValue) : Prop :=
  forall t n m a, col t n a -> col t m c -> exists r, append a c = Some r /\ concatenation t n m a c r.

Definition arms_typed (ts : list (FieldKey * CTy)) (arms : list (FieldKey * UnionArm ColumnValue)) : Prop :=
  Forall (fun a => exists u, assoc a.1 ts = Some u /\ col u (arm_len a.2) (arm_values a.2)) arms.

Lemma arms_typed_assoc ts arms k arm :
  arms_typed ts arms -> assoc k arms = Some arm -> exists u, assoc k ts = Some u /\ col u (arm_len arm) (arm_values arm).
Proof. intros H Ha%assoc_In. unfold arms_typed in H. rewrite Forall_forall in H. by apply (H (k, arm)). Qed.

Lemma arms_typed_intro ts arms :
  NoDup (map fst arms) ->
  (forall k arm, assoc k arms = Some arm -> exists u, assoc k ts = Some u /\ col u (arm_len arm) (arm_values arm)) -> arms_typed ts arms.
Proof. intros Hnd H. apply Forall_forall. intros [k arm] Ha. apply (H k). by apply In_assoc. Qed.

Lemma append_arms_ok offset ts oa sa :
  Forall (fun a => appends (arm_values a.2)) oa -> NoDup (map fst sa) -> NoDup (map fst oa) ->
  arms_typed ts sa -> arms_typed ts oa ->
  exists r, append_arms offset sa oa = Some r /\ NoDup (map fst r) /\ arms_typed ts r /\
    forall k, joined offset (assoc k sa) (assoc k oa) (assoc k r).
Proof.
  revert sa. induction oa as [|[tag [rows payloads]] oa IH]; intros sa Hap Hns Hno Hts Hto; [by exists sa|].
  apply Forall_cons in Hap as [Hc Hap]. apply NoDup_cons in Hno as [Hni Hno]. apply Forall_cons in Hto as [(u & Hu & Hp) Hto].
  simpl in Hu, Hp, Hc, Hni. set (d := MkArm [] (empty_like payloads)). set (base := default d (assoc tag sa)).
  assert (Hb : col u (arm_len base) (arm_values base)).
  { unfold base. destruct (assoc tag sa) as [arm|] eqn:E; simpl; [|by eapply empty_like_ok].
    destruct (arms_typed_assoc ts sa tag arm Hts E) as (u' & ? & ?). by simplify_eq. }
  destruct (Hc u _ _ _ Hb Hp) as (values & Ev & Cv & X1 & X2).
  set (new := MkArm (arm_rows base ++ map (fun r => r + offset) rows) values).
  destruct (upsert_ok sa tag d new (fun arm => values ← append (arm_values arm) payloads;
      Some (MkArm (arm_rows arm ++ map (fun r => r + offset) rows) values))) as (sa' & Es & Hns' & Hl); [done| |].
  { fold base. by rewrite Ev. }
  destruct (IH sa' Hap Hns' Hno) as (r & Er & Hnr & Htr & Hj); [|done|].
  { apply arms_typed_intro; [done|]. intros k arm. rewrite Hl. destruct (decide (k = tag)) as [->|]; [|by apply arms_typed_assoc].
    intros [= <-]. exists u. split; [done|]. unfold arm_len, new. simpl. by rewrite length_app, length_map. }
  exists r. simpl. fold d. rewrite Es. simpl. split; [done|]. split; [done|]. split; [done|].
  intros k. simpl. specialize (Hj k). rewrite Hl in Hj. destruct (decide (k = tag)) as [->|]; [|done].
  rewrite (proj2 (assoc_None tag oa)) in Hj by done. exists new. split; [done|].
  assert (Hrows : arm_rows base = rows_of (assoc tag sa)) by (unfold base; by destruct (assoc tag sa)).
  simpl. rewrite Hrows. split; [done|]. unfold arm_len in X1, X2. rewrite Hrows in X1, X2. split; [|done].
  intros s Hs. rewrite X1 by done. unfold base. destruct (assoc tag sa); [done|simpl in Hs; lia].
Qed.

Lemma sorted_app l1 l2 n :
  StronglySorted lt l1 -> StronglySorted lt l2 -> Forall (fun x => x < n) l1 -> StronglySorted lt (map (fun x => x + n) l2) ->
  StronglySorted lt (l1 ++ map (fun x => x + n) l2).
Proof.
  intros H1 H2 Hlt H3. induction H1 as [|x l1 _ IH Hx]; simpl; [done|]. apply Forall_cons in Hlt as [Hxn Hlt].
  constructor; [auto|]. apply Forall_app. split; [done|]. apply Forall_forall. intros y Hy.
  apply list_elem_of_In, in_map_iff in Hy as (z & <- & _). lia.
Qed.

Lemma sorted_shift l n : StronglySorted lt l -> StronglySorted lt (map (fun x => x + n) l).
Proof.
  induction 1 as [|x l _ IH Hx]; simpl; constructor; [done|]. apply Forall_forall. intros y Hy.
  apply list_elem_of_In, in_map_iff in Hy as (z & <- & Hz%list_elem_of_In). rewrite Forall_forall in Hx. apply Hx in Hz. lia.
Qed.

Lemma elem_of_shift i n l : i ∈ map (fun x => x + n) l <-> n <= i /\ i - n ∈ l.
Proof.
  rewrite list_elem_of_In, in_map_iff. split.
  - intros (z & <- & Hz%list_elem_of_In). by replace (z + n - n) with z by lia; split; [lia|].
  - intros [Hi Hin]. exists (i - n). split; [lia|]. by apply list_elem_of_In.
Qed.

Section JoinedPartition.
Context (n m : nat) (sa oa r : list (FieldKey * UnionArm ColumnValue)).
Context (Hsa : partition n sa) (Hoa : partition m oa) (Hnr : NoDup (map fst r)).
Context (Hj : forall k, joined n (assoc k sa) (assoc k oa) (assoc k r)).

Lemma joined_rows k : rows_of (assoc k r) = rows_of (assoc k sa) ++ map (fun x => x + n) (rows_of (assoc k oa)).
Proof using Hj.
  specialize (Hj k). unfold joined in Hj. destruct (assoc k oa) as [b|]; simpl.
  - destruct Hj as (arm & -> & E & _). done.
  - by rewrite Hj, app_nil_r.
Qed.

Lemma rows_in {C} p (arms : list (FieldKey * UnionArm C)) k i : partition p arms -> i ∈ rows_of (assoc k arms) -> i < p.
Proof using Type.
  intros (_ & _ & Hcov & _) Hi. destruct (assoc k arms) as [arm|] eqn:E; simpl in Hi; [|by apply not_elem_of_nil in Hi].
  apply Hcov. exists (k, arm). split; [by apply assoc_In|done].
Qed.

Lemma rows_sorted {C} p (arms : list (FieldKey * UnionArm C)) k : partition p arms -> StronglySorted lt (rows_of (assoc k arms)).
Proof using Type.
  intros (_ & Hs & _). destruct (assoc k arms) as [arm|] eqn:E; simpl; [|constructor].
  apply assoc_In in E. rewrite Forall_forall in Hs. by apply (Hs (k, arm)).
Qed.

Lemma rows_cover {C} p (arms : list (FieldKey * UnionArm C)) i : partition p arms -> i < p -> exists k, i ∈ rows_of (assoc k arms).
Proof using Type.
  intros (Hnd & _ & Hcov & _) Hi. apply Hcov in Hi as ([k arm] & Ha & Hi). exists k. by rewrite (In_assoc k arm).
Qed.

Lemma rows_unique {C} p (arms : list (FieldKey * UnionArm C)) i k k' :
  partition p arms -> i ∈ rows_of (assoc k arms) -> i ∈ rows_of (assoc k' arms) -> k = k'.
Proof using Type.
  intros (_ & _ & _ & Hu) H1 H2.
  destruct (assoc k arms) as [a|] eqn:E1; simpl in H1; [|by apply not_elem_of_nil in H1].
  destruct (assoc k' arms) as [b|] eqn:E2; simpl in H2; [|by apply not_elem_of_nil in H2].
  by apply (Hu i (k, a) (k', b)); [apply assoc_In..| |].
Qed.

Lemma joined_elem k i :
  i ∈ rows_of (assoc k r) <-> (i < n /\ i ∈ rows_of (assoc k sa)) \/ (n <= i /\ i - n ∈ rows_of (assoc k oa)).
Proof using Hj Hsa.
  rewrite joined_rows, elem_of_app, elem_of_shift. split; [|tauto]. intros [H|H]; [left|by right].
  split; [by eapply (rows_in n)|done].
Qed.

Lemma joined_partition : partition (n + m) r.
Proof using Hj Hsa Hoa Hnr.
  assert (Hrow : forall a, a ∈ r -> arm_rows a.2 = rows_of (assoc a.1 r)).
  { intros [k arm] Ha. by rewrite (In_assoc k arm). }
  split; [done|]. split; [|split].
  - apply Forall_forall. intros a Ha. rewrite (Hrow a Ha), joined_rows.
    apply sorted_app; [by eapply rows_sorted..| |by eapply sorted_shift, rows_sorted].
    apply Forall_forall. intros i. by apply (rows_in n).
  - intros i. split.
    + intros Hi. assert (exists k, i ∈ rows_of (assoc k r)) as [k Hk].
      { destruct (decide (i < n)) as [Hin|Hin].
        - destruct (rows_cover n sa i Hsa Hin) as [k Hk]. exists k. apply joined_elem. by left.
        - destruct (rows_cover m oa (i - n) Hoa) as [k Hk]; [lia|]. exists k. apply joined_elem. right. split; [lia|done]. }
      destruct (assoc k r) as [arm|] eqn:E; simpl in Hk; [|by apply not_elem_of_nil in Hk].
      exists (k, arm). split; [by apply assoc_In|done].
    + intros (a & Ha & Hi). rewrite (Hrow a Ha) in Hi. apply joined_elem in Hi as [[? _]|[? Hi]]; [lia|].
      apply (rows_in m) in Hi; [lia|done].
  - intros i a b Ha Hb. rewrite (Hrow a Ha), (Hrow b Hb), !joined_elem.
    intros [[? H1]|[? H1]] [[? H2]|[? H2]]; [by apply (rows_unique n sa i)|lia..|by apply (rows_unique m oa (i - n))].
Qed.

Lemma joined_index_left i : i < n -> index_at (Union r) i = index_at (Union sa) i.
Proof using Hj Hsa Hoa Hnr.
  intros Hi. destruct (partition_carrier n sa i Hsa Hi) as (k & arm & s & Ha & Hs).
  pose proof (Hj k) as Hk. rewrite (In_assoc k arm) in Hk by first [done|apply Hsa]. pose proof (position_of_lookup _ _ _ Hs) as Hrow.
  rewrite (union_index _ _ _ _ _ _ Hsa Ha Hs). unfold joined in Hk. destruct (assoc k oa) as [b|].
  - destruct Hk as (arm' & Er & Erows & X1 & _). apply assoc_In in Er.
    rewrite (union_index _ _ _ _ _ s joined_partition Er).
    + simpl in X1. by rewrite X1 by (by apply lookup_lt_Some in Hrow).
    + unfold slot_of. rewrite Erows. simpl. apply position_of_NoDup.
      * pose proof joined_partition as (_ & Hst & _). rewrite Forall_forall in Hst. specialize (Hst _ Er). simpl in Hst.
        rewrite Erows in Hst. by apply sorted_NoDup.
      * by apply lookup_app_l_Some.
  - apply assoc_In in Hk. by rewrite (union_index _ _ _ _ _ s joined_partition Hk).
Qed.

Lemma joined_index_right i : i < m -> index_at (Union r) (n + i) = index_at (Union oa) i.
Proof using Hj Hsa Hoa Hnr.
  intros Hi. destruct (partition_carrier m oa i Hoa Hi) as (k & b & s & Hb & Hs).
  pose proof (Hj k) as Hk. rewrite (In_assoc k b oa) in Hk by first [done|apply Hoa]. pose proof (position_of_lookup _ _ _ Hs) as Hrow.
  rewrite (union_index _ _ _ _ _ _ Hoa Hb Hs). destruct Hk as (arm & Er & Erows & _ & X2). apply assoc_In in Er.
  rewrite (union_index _ _ _ _ _ (length (rows_of (assoc k sa)) + s) joined_partition Er).
  - by rewrite X2 by (by eapply slot_lt).
  - unfold slot_of. rewrite Erows. apply position_of_NoDup.
    + pose proof joined_partition as (_ & Hst & _). rewrite Forall_forall in Hst. specialize (Hst _ Er). simpl in Hst.
      rewrite Erows in Hst. by apply sorted_NoDup.
    + rewrite lookup_app_r by lia. rewrite Nat.add_comm, Nat.add_sub. rewrite list_lookup_fmap, Hrow. simpl. f_equal. lia.
Qed.
End JoinedPartition.

Lemma append_ok c : appends c.
Proof.
  induction c as [k|v|v|v|v|v|i o IHi IHo|fields IH|arms IH] using column_ind; intros t n m a Ha Hc.
  - destruct t; try done. destruct a; try done. simpl in *. subst. eexists. split; [done|]. by split.
  - destruct t; try done. destruct a; try done. simpl in Ha, Hc. subst. eexists. split; [done|]. by apply (vec_append Ints (fun z => VKey (SInt z))).
  - destruct t; try done. destruct a; try done. simpl in Ha, Hc. subst. eexists. split; [done|]. by apply (vec_append UInts (fun z => VKey (SUInt z))).
  - destruct t; try done. destruct a; try done. simpl in Ha, Hc. subst. eexists. split; [done|]. by apply (vec_append Strings (fun z => VKey (SString z))).
  - destruct t; try done. destruct a; try done. simpl in Ha, Hc. subst. eexists. split; [done|]. by apply (vec_append Bools (fun z => VKey (SBool z))).
  - destruct t; try done. destruct a; try done. simpl in Ha, Hc. subst. eexists. split; [done|]. apply (vec_append Variants id); [|done].
    intros w i. simpl. by destruct (w !! i).
  - destruct t; try done. destruct a as [| | | | | |ai ao| |]; try done. destruct Ha as [Hai Hao], Hc as [Hi Ho].
    destruct (IHi _ n m _ Hai Hi) as (x & Ex & Cx & X1 & X2), (IHo _ n m _ Hao Ho) as (y & Ey & Cy & Y1 & Y2).
    exists (FunctionBindings x y). split; [simpl; by rewrite Ex, Ey|]. split; [done|].
    split; intros j Hj; simpl; [by rewrite X1, Y1|by rewrite X2, Y2].
  - apply col_records in Hc as (ts & -> & Hne & Hnd & Hc). destruct a as [| | | | | | |sf|]; try done.
    apply col_records in Ha as (ts' & [= <-] & Hne' & _ & Ha).
    destruct (append_fields_ok n m ts [] sf fields) as (r & Er & Cr & X1 & X2); [|done..|].
    { intros kc u b Hin Hb Hkc. rewrite Forall_forall in IH. by apply (IH kc Hin). }
    exists (Records r). rewrite append_records. simpl in Er. rewrite Er. split; [done|]. split; [|split].
    + apply col_records. exists ts. split; [done|]. split; [|done]. intros ->. by inversion X1; subst.
    + intros i Hi. apply records_index. eapply Forall2_impl; [exact X1|]. intros ? ? [? Hx]. split; [done|by apply Hx].
    + intros i Hi. apply records_index. eapply Forall2_impl; [exact X2|]. intros ? ? [? Hx]. split; [done|by apply Hx].
  - pose proof (col_len _ _ _ Ha) as Hlen. apply col_union in Hc as (ts & -> & Hp & Hc). destruct a as [| | | | | | | |sa]; try done.
    apply col_union in Ha as (ts' & [= <-] & Hpa & Ha).
    destruct (append_arms_ok n ts arms sa IH) as (r & Er & Hnr & Htr & Hj); [apply Hpa|apply Hp|done..|].
    exists (Union r). rewrite append_union, Hlen. simpl. rewrite Er. split; [done|].
    pose proof (joined_partition n m sa arms r Hpa Hp Hnr Hj) as Hpr. split; [|split].
    + apply col_union. by exists ts.
    + intros i. by apply (joined_index_left n m sa arms).
    + intros i. by apply (joined_index_right n m sa arms).
Qed.

(** Every row of a column has a value. *)
Lemma index_some c t n i : col t n c -> i < n -> is_Some (index_at c i).
Proof.
  revert t n i. induction c as [m|v|v|v|v|v|ci co IHi IHo|fields IH|arms IH] using column_ind; intros t n i H Hi.
  1-6: destruct t; try done; simpl in *; subst; try destruct (lookup_lt_is_Some_2 v i Hi) as [x ->]; by eexists.
  - destruct t as [| | | | | |a b| |]; try done. destruct H as [Ha Hb]. destruct (IHi a n i Ha Hi) as [x Hx]. destruct (IHo b n i Hb Hi) as [y Hy].
    simpl. rewrite Hx, Hy. by eexists.
  - apply col_records in H as (ts & -> & _ & _ & H). destruct (mapM_some (fun '(k, v) => x ← index_at v i; Some (k, x)) fields) as (r & Er & _).
    + intros [k c] Hin. apply list_elem_of_lookup in Hin as [j Hj]. destruct (Forall2_lookup_l _ _ _ _ _ H Hj) as ([k' u] & _ & _ & Hc).
      rewrite Forall_forall in IH. destruct (IH (k, c) (list_elem_of_lookup_2 _ _ _ Hj) u n i Hc Hi) as [x Hx]. simpl in Hx. rewrite Hx. by eexists.
    + simpl. rewrite Er. by eexists.
  - apply col_union in H as (ts & -> & Hp & H). destruct (partition_carrier n arms i Hp Hi) as (k & arm & s & Ha & Hs).
    rewrite (union_index _ _ _ _ _ _ Hp Ha Hs). rewrite Forall_forall in H, IH. destruct (H _ Ha) as (u & _ & Hc).
    destruct (IH (k, arm) Ha u _ s Hc (slot_lt _ _ _ Hs)) as [x Hx]. simpl in Hx. rewrite Hx. by eexists.
Qed.
