(* ===== verification/ColumnOps.v ===== *)
(** * Binary operators on columns ([src/interpreter/binop.rs], [types/column_view.rs])

    The dispatch of the operators over columns: views of a column, the kernels of
    [ScalarOps] on the operands' common prefix, and the comparison of records and of
    tagged values.  A panic is [None]; [checks] is the build profile, as in [ScalarOps]. *)

From Stdlib Require Import ZArith List.
From S2P Require Import Prelude Predicate ScalarOps Values Columns.
Set Warnings "-register-all".

(** ** Views of a column *)

Inductive ColumnView :=
  | ViewInts (v : View Z)
  | ViewUInts (v : View Z)
  | ViewStrings (v : View string)
  | ViewBools (v : View bool).

Definition column_view_len (v : ColumnView) : nat :=
  match v with
  | ViewInts v | ViewUInts v => view_len v
  | ViewStrings v => view_len v
  | ViewBools v => view_len v
  end.

Definition column_view_is_empty (v : ColumnView) : bool := column_view_len v =? 0.

Definition view_empty_like (v : ColumnView) : ColumnValue :=
  match v with
  | ViewInts _ => Ints []
  | ViewUInts _ => UInts []
  | ViewStrings _ => Strings []
  | ViewBools _ => Bools []
  end.

Definition column_view_range (v : ColumnView) (a b : nat) : option ColumnView :=
  match v with
  | ViewInts v => ViewInts <$> view_range v a b
  | ViewUInts v => ViewUInts <$> view_range v a b
  | ViewStrings v => ViewStrings <$> view_range v a b
  | ViewBools v => ViewBools <$> view_range v a b
  end.

Definition column_view_prefix (v : ColumnView) (rows : nat) : option ColumnView := column_view_range v 0 rows.

Definition view (c : ColumnValue) : option ColumnView :=
  match c with
  | Ints v => Some (ViewInts (Slice v))
  | UInts v => Some (ViewUInts (Slice v))
  | Strings v => Some (ViewStrings (Slice v))
  | Bools v => Some (ViewBools (Slice v))
  | _ => None
  end.

Definition extend {T} (out : list T) (v : View T) : list T :=
  match v with
  | Slice values => out ++ values
  | Constant value len => out ++ replicate len value
  end.

Definition extend_from_view (c : ColumnValue) (v : ColumnView) : option ColumnValue :=
  match c, v with
  | Ints out, ViewInts v => Some (Ints (extend out v))
  | UInts out, ViewUInts v => Some (UInts (extend out v))
  | Strings out, ViewStrings v => Some (Strings (extend out v))
  | Bools out, ViewBools v => Some (Bools (extend out v))
  | _, _ => None
  end.

(** ** Operators *)

Definition binop_output_extent (op : BinOpKind) : Extent :=
  match op with
  | Arithmetic _ => EBase BInt
  | Compare _ | BoolLogic _ => EBase BBool
  | Concat => EBase BString
  end.

Definition binop_result_column (op : BinOpKind) (left : ColumnView) : ColumnValue :=
  match op with
  | Arithmetic _ => view_empty_like left
  | Concat => Strings []
  | BoolLogic _ | Compare _ => Bools []
  end.

Definition binop_result_column_of (op : BinOpKind) (left : ColumnValue) : ColumnValue :=
  match view left with Some v => binop_result_column op v | None => Bools [] end.

Definition apply_binop_views (checks : bool) (op : BinOpKind) (left right : ColumnView) (out : ColumnValue) :
    option ColumnValue :=
  let rows := Nat.min (column_view_len left) (column_view_len right) in
  left ← column_view_prefix left rows;
  right ← column_view_prefix right rows;
  match op, left, right, out with
  | Arithmetic op, ViewInts l, ViewInts r, Ints o => Ints <$> @zip_arithmetic i64_elem checks op l r o
  | Arithmetic op, ViewUInts l, ViewUInts r, UInts o => UInts <$> @zip_arithmetic u64_elem checks op l r o
  | BoolLogic op, ViewBools l, ViewBools r, Bools o => Bools <$> zip_bool_logic checks op l r o
  | Concat, ViewStrings l, ViewStrings r, Strings o => Strings <$> zip_views checks l r o (fun a b => Some (a ++ b)%string)
  | Compare op, ViewStrings l, ViewStrings r, Bools o =>
      Bools <$> zip_compare checks String.eqb (fun a b => Some (String.compare a b)) op l r o
  | Compare op, ViewInts l, ViewInts r, Bools o
  | Compare op, ViewUInts l, ViewUInts r, Bools o =>
      Bools <$> zip_compare checks Z.eqb (fun a b => Some (Z.compare a b)) op l r o
  | Compare op, ViewBools l, ViewBools r, Bools o => Bools <$> zip_bool_compare checks op l r o
  | _, _, _, _ => None
  end.

(** ** The order of two values *)

(** [str::parse::<usize>]: an optional plus and decimal digits, in range. *)
Definition digit_of (c : ascii) : option Z :=
  let d := (Z.of_N (N_of_ascii c) - 48)%Z in if ((0 <=? d) && (d <=? 9))%Z then Some d else None.

Fixpoint parse_digits (s : string) (acc : Z) : option Z :=
  match s with
  | EmptyString => Some acc
  | String c s => d ← digit_of c; parse_digits s (10 * acc + d)%Z
  end.

Definition parse_usize (s : string) : option Z :=
  let digits := match s with String "+"%char rest => rest | _ => s end in
  n ← (match digits with EmptyString => None | _ => parse_digits digits 0 end);
  if (n <=? U64_MAX)%Z then Some n else None.

(** The position a field's name spells: [_0], [_1] and so on. *)
Definition position_name (name : string) : option Z :=
  match name with String "_"%char rest => parse_usize rest | _ => None end.

(** [sort_by_key], which is stable. *)
Fixpoint insert_position {A} (x : Z * A) (l : list (Z * A)) : list (Z * A) :=
  match l with
  | [] => [x]
  | y :: l => if (y.1 <=? x.1)%Z then y :: insert_position x l else x :: y :: l
  end.

Definition sort_positions {A} (l : list (Z * A)) : list (Z * A) := fold_left (fun l x => insert_position x l) l [].

Definition positions (fields : list (string * Value)) : option (list (Z * Value)) :=
  out ← mapM (fun '(k, v) => i ← position_name k; Some (i, v)) fields; Some (sort_positions out).

Fixpoint value_depth (v : Value) : nat :=
  match v with
  | VRecord fields => S (foldr Nat.max 0 (map (fun '(_, v) => value_depth v) fields))
  | VUnion _ v => S (value_depth v)
  | _ => 1
  end.

(** [compare_values]: [Some None] for two values with no order.  The fields of a record are
    compared in the order of their positions, so the recursion is on the depth of the left. *)
Fixpoint compare_values_at (fuel : nat) (a b : Value) : option (option comparison) :=
  match fuel with
  | O => None
  | S fuel =>
      match a, b with
      | VRecord x, VRecord y =>
          match positions x, positions y with
          | Some x, Some y =>
              if negb (length x =? length y) then Some None
              else (fix go x y := match x, y with
                | (_, l) :: x, (_, r) :: y =>
                    o ← compare_values_at fuel l r;
                    match o with
                    | Some Eq => go x y
                    | other => Some other
                    end
                | _, _ => Some (Some Eq)
                end) x y
          | _, _ => Some None
          end
      | _, _ => partial_cmp a b
      end
  end.

Definition compare_values (a b : Value) : option (option comparison) := compare_values_at (value_depth a) a b.

(** ** Comparing rows *)

(** [equal_rows]. *)
Definition equal_rows (op : CompareKind) (left right : ColumnValue) : option (list bool) :=
  n ← len left; m ← len right;
  mapM (fun i =>
    l ← index_at left i; r ← index_at right i;
    Some (Bool.eqb (bool_decide (l = r)) (match op with Equals => true | _ => false end))) (seq 0 (Nat.min n m)).

(** [order_rows]. *)
Definition order_rows (op : CompareKind) (left right : ColumnValue) : option (list bool) :=
  n ← len left; m ← len right;
  mapM (fun i =>
    l ← index_at left i; r ← index_at right i;
    o ← compare_values l r;
    ord ← o;
    match op, ord with
    | Less, Lt | LessOrEq, (Lt | Eq) | Greater, Gt | GreaterOrEq, (Gt | Eq) => Some true
    | (Equals | NotEquals), _ => None
    | _, _ => Some false
    end) (seq 0 (Nat.min n m)).

(** [compared_fields]. *)
Definition compared_fields {L R} (left : list (string * L)) (right : list (string * R)) : list (string * (L * R)) :=
  omap (fun '(name, l) => r ← assoc name right; Some (name, (l, r))) left.

(** One field of a comparison folded into the rows so far, which shrink to the field's. *)
Definition fold_field (op : CompareKind) (acc field : list bool) : option (list bool) :=
  let acc := take (Nat.min (length acc) (length field)) acc in
  match op with
  | Equals => Some (zip_with andb acc field)
  | NotEquals => Some (zip_with orb acc field)
  | _ => None
  end.

Definition is_equality (op : CompareKind) : bool := match op with Equals | NotEquals => true | _ => false end.

(** [apply_binop_into], with [compare_records] in its recursion. *)
Fixpoint apply_binop_into (checks : bool) (op : BinOpKind) (left right out : ColumnValue) {struct left} :
    option ColumnValue :=
  let plain := fun _ : unit => match view left, view right with
    | Some l, Some r => apply_binop_views checks op l r out
    | _, _ => None
    end in
  match op, out with
  | Compare op, Bools o =>
      match left, right with
      | Records l, Records r =>
          if is_equality op then
            lens ← mapM (fun '(_, (l, r)) => n ← len l; m ← len r; Some (Nat.min n m)) (compared_fields l r);
            let rows := match lens with [] => 0 | n :: lens => foldr Nat.min n lens end in
            acc ← (fix go l acc := match l with
              | [] => Some acc
              | (name, lc) :: l =>
                  match assoc name r with
                  | None => go l acc
                  | Some rc =>
                      field ← apply_binop_into checks (Compare op) lc rc (Bools []);
                      field ← as_bools field;
                      acc ← fold_field op acc field; go l acc
                  end
              end) l (replicate rows (match op with Equals => true | _ => false end));
            Some (Bools (o ++ acc))
          else bs ← order_rows op left right; Some (Bools (o ++ bs))
      | (Union _ | Variants _), (Union _ | Variants _) =>
          if is_equality op then bs ← equal_rows op left right; Some (Bools (o ++ bs)) else plain tt
      | _, _ => plain tt
      end
  | _, _ => plain tt
  end.

(** [apply_binop_column]. *)
Definition apply_binop_column (checks : bool) (op : BinOpKind) (left right : ColumnValue) : option ColumnValue :=
  apply_binop_into checks op left right (binop_result_column_of op left).
