(* ===== verification/Tiles.v ===== *)
(** * Tiles ([src/interpreter/tiling/tile.rs])

    A tile is the data one operator hands another: columns of scalars, records of tiles over
    the same rows, and collections in compressed sparse row form.  Here are the tile and the
    operations that read it, gather its rows and filter its keys; [TileMerges] has the merges,
    [TileValid] validity and [TileReleases] the operations on guards and completion.  A [BitSet] is a finite set of numbers, a
    [HashMap] of fields the list of its entries in name order; a panic is [None].  The
    validity that debug builds assert of a collection just regrouped or filtered is left out; the one they
    assert of a merged tile is in [TileMerges]. *)

From Stdlib Require Import List.
From stdpp Require Import gmap.
From S2P Require Import Prelude Predicate PredicatePaths Guards Values Columns.
Set Warnings "-register-all".

Section Tiles.
Context {KS : KeySets Scalar}.
Abbreviation Predicate := (Predicate Scalar).

Inductive Tile :=
  | TileScalar (cv : ColumnValue)
  | TileRecord (fields : list (string * Tile)) (absent : gmap string (gset nat))
  | TileDataFunction (row_starts : list nat) (domain : ColumnValue) (codomain : Tile)
      (domain_predicate : Predicate) (deleted : gset nat)
  | TileAggregation (kind : AggregateKind) (accumulator : Tile) (terminal : ColumnValue)
  | TileStore (state seed decided frontier : Tile) (terminal : bool) (closed_keys : list Value).

(** [Tile::record]. *)
Definition tile_record (fields : list (string * Tile)) : Tile := TileRecord fields ∅.

(** ** Reading *)

(** [level_run]: the half-open run of keys of row [i]; the last runs to the level's end. *)
Definition level_run (offsets : list nat) (i below_len : nat) : option (nat * nat) :=
  start ← offsets !! i;
  if i + 1 <? length offsets then stop ← offsets !! (i + 1); Some (start, stop) else Some (start, below_len).

Definition range (run : nat * nat) : list nat := seq run.1 (run.2 - run.1).

(** [row_run] and [row_runs]. *)
Definition row_run (t : Tile) (row : nat) : option (nat * nat) :=
  match t with
  | TileDataFunction row_starts domain _ _ _ => n ← len domain; level_run row_starts row n
  | _ => None
  end.

Definition row_runs (t : Tile) : option (list (nat * nat)) :=
  match t with
  | TileDataFunction row_starts domain _ _ _ =>
      n ← len domain; mapM (fun row => level_run row_starts row n) (seq 0 (length row_starts))
  | _ => None
  end.

Definition tile_is_data_function (t : Tile) : bool :=
  match t with TileDataFunction _ _ _ _ _ => true | _ => false end.

(** [holds_a_level]. *)
Fixpoint tile_holds_a_level (t : Tile) : bool :=
  match t with
  | TileDataFunction _ _ _ _ _ => true
  | TileRecord fields _ => existsb (fun '(_, t) => tile_holds_a_level t) fields
  | TileScalar _ | TileAggregation _ _ _ | TileStore _ _ _ _ _ _ => false
  end.

(** [level_width]. *)
Definition level_width (t : Tile) : option nat :=
  match t with TileDataFunction _ domain _ _ _ => len domain | _ => Some 0 end.

(** [rows], with [record_rows]. *)
Fixpoint rows (t : Tile) : option nat :=
  match t with
  | TileScalar cv => len cv
  | TileRecord fields absent =>
      counts ← mapM (fun '(name, field) => n ← rows field; Some (n + match absent !! name with Some s => size s | None => 0 end)) fields;
      Some (foldr Nat.max 0 counts)
  | TileDataFunction row_starts _ _ _ _ => Some (length row_starts)
  | TileAggregation _ accumulator _ => rows accumulator
  | TileStore _ _ _ _ _ _ => Some 1
  end.

Definition record_rows (fields : list (string * Tile)) (absent : gmap string (gset nat)) : option nat :=
  rows (TileRecord fields absent).

(** [is_empty]. *)
Fixpoint tile_is_empty (t : Tile) : option bool :=
  match t with
  | TileScalar cv => col_is_empty cv
  | TileRecord m _ => allM (fun '(_, t) => tile_is_empty t) m
  | TileDataFunction _ domain _ _ deleted => n ← len domain; Some (n =? size deleted)
  | TileAggregation _ accumulator _ => tile_is_empty accumulator
  | TileStore _ _ _ frontier _ _ => n ← level_width frontier; Some (n =? 0)
  end.

(** A column of one boolean that holds. *)
Definition single_true (c : ColumnValue) : option bool :=
  v ← single_of c; match v with Some v => value_as_bool v | None => Some false end.

(** [is_terminal]. *)
Fixpoint is_terminal (t : Tile) : option bool :=
  match t with
  | TileScalar cv => e ← col_is_empty cv; Some (negb e)
  | TileRecord m _ => allM (fun '(_, t) => is_terminal t) m
  | TileDataFunction _ _ _ domain_predicate _ => Some (default false (Predicate.as_bool domain_predicate))
  | TileAggregation _ _ terminal => single_true terminal
  | TileStore _ _ _ _ terminal _ => Some terminal
  end.

(** [cell_count]. *)
Fixpoint cell_count (t : Tile) : option nat :=
  match t with
  | TileScalar cv => len cv
  | TileRecord fields _ => counts ← mapM (fun '(_, t) => cell_count t) fields; Some (sum_list counts)
  | TileDataFunction _ domain codomain _ _ => n ← len domain; m ← cell_count codomain; Some (n + m)
  | TileAggregation _ accumulator _ => cell_count accumulator
  | TileStore state seed decided frontier _ _ =>
      a ← cell_count state; b ← cell_count seed; c ← cell_count decided; d ← cell_count frontier; Some (a + b + c + d)
  end.

(** [deepest_values]. *)
Fixpoint tile_deepest_values (t : Tile) : Tile :=
  match t with TileDataFunction _ _ codomain _ _ => tile_deepest_values codomain | other => other end.

(** [values_at], the level by its index. *)
Fixpoint tile_values_at (t : Tile) (level : nat) : option Tile :=
  match level, t with
  | O, _ => Some t
  | S level, TileDataFunction _ _ codomain _ _ => tile_values_at codomain level
  | S _, _ => None
  end.

(** [values_at_mut]: the tile with that level replaced. *)
Fixpoint with_values_at (t : Tile) (level : nat) (f : Tile -> option Tile) : option Tile :=
  match level, t with
  | O, _ => f t
  | S level, TileDataFunction starts domain codomain pred deleted =>
      codomain ← with_values_at codomain level f; Some (TileDataFunction starts domain codomain pred deleted)
  | S _, _ => None
  end.

(** [deepest_values_mut]. *)
Fixpoint with_deepest_values (t : Tile) (f : Tile -> option Tile) : option Tile :=
  match t with
  | TileDataFunction starts domain codomain pred deleted =>
      codomain ← with_deepest_values codomain f; Some (TileDataFunction starts domain codomain pred deleted)
  | other => f other
  end.

(** [innermost_depth]. *)
Fixpoint innermost_depth (t : Tile) : option nat :=
  match t with
  | TileDataFunction _ _ codomain _ _ => Some (match innermost_depth codomain with Some below => below + 1 | None => 0 end)
  | _ => None
  end.

(** [key_levels]. *)
Fixpoint key_levels (t : Tile) : list (list nat * ColumnValue) :=
  match t with
  | TileDataFunction row_starts domain codomain _ _ => (row_starts, domain) :: key_levels codomain
  | _ => []
  end.

(** [live_keys]. *)
Definition live_keys (domain : ColumnValue) (deleted : gset nat) : option (list (nat * Value)) :=
  n ← len domain;
  mapM (fun i => v ← index_at domain i; Some (i, v)) (List.filter (fun i => negb (bool_decide (i ∈ deleted))) (seq 0 n)).

(** ** Key paths *)

(** [key_paths]: each row's path, extended by each key of its run. *)
Definition key_paths (t : Tile) (row_paths : list (list Value)) : option (list (list Value)) :=
  match t with
  | TileDataFunction _ domain _ _ _ =>
      paths ← mapM (fun '(row, path) =>
        run ← row_run t row;
        mapM (fun key => v ← index_at domain key; Some (path ++ [v])) (range run)) (imap pair row_paths);
      Some (concat paths)
  | _ => None
  end.

(** [row_paths_at], from the rows' paths here; [paths_at] is its next level. *)
Fixpoint row_paths_from (t : Tile) (paths : list (list Value)) (depth : nat) : option (list (list Value)) :=
  match depth with
  | O => Some paths
  | S depth =>
      paths ← key_paths t paths;
      match t with
      | TileDataFunction _ _ codomain _ _ => row_paths_from codomain paths depth
      | _ => None
      end
  end.

Definition row_paths_at (t : Tile) (depth : nat) : option (list (list Value)) := row_paths_from t [[]] depth.

(** [paths_at]: the loop stops at the level asked for. *)
Fixpoint paths_from (t : Tile) (paths : list (list Value)) (level : nat) : option (list (list Value)) :=
  paths ← key_paths t paths;
  match level with
  | O => Some paths
  | S level =>
      match t with
      | TileDataFunction _ _ codomain _ _ => paths_from codomain paths level
      | _ => None
      end
  end.

Definition paths_at (t : Tile) (level : nat) : option (list (list Value)) := paths_from t [[]] level.

(** [path_to]: the key and, read up the levels above it, the keys of the rows that hold it. *)
Fixpoint path_up (t : Tile) (depth index : nat) (path : list Value) : option (list Value) :=
  node ← tile_values_at t depth;
  match node with
  | TileDataFunction row_starts domain _ _ _ =>
      v ← index_at domain index;
      let path := v :: path in
      match partition_point (fun start => start <=? index) row_starts with
      | O => None
      | S row => match depth with O => Some path | S depth => path_up t depth row path end
      end
  | _ => None
  end.

Definition path_to (t : Tile) (level index : nat) : option (list Value) := path_up t level index [].

(** ** Gathering rows *)

(** The start of each run, the runs following one another. *)
Fixpoint run_starts (at_ : nat) (lengths : list nat) : list nat :=
  match lengths with [] => [] | n :: lengths => at_ :: run_starts (at_ + n) lengths end.

(** The bits of [deleted], where [picked] moves each key. *)
Definition moved_bits (deleted : gset nat) (picked : list nat) : gset nat :=
  list_to_set (omap (fun '(to, from) => if decide (from ∈ deleted) then Some to else None) (imap pair picked)).

(** [regroup_rows] of a collection whose codomain's rows [select] gathers. *)
Definition regroup_with (select : list nat -> option Tile) (row_starts : list nat) (domain : ColumnValue)
    (domain_predicate : Predicate) (deleted : gset nat) (groups : list (list nat)) : option Tile :=
  n ← len domain;
  runs ← mapM (fun group => parts ← mapM (fun row => run ← level_run row_starts row n; Some (range run)) group; Some (concat parts)) groups;
  let picked := concat runs in
  domain ← select_indices domain picked;
  codomain ← select picked;
  Some (TileDataFunction (run_starts 0 (map length runs)) domain codomain domain_predicate (moved_bits deleted picked)).

(** [cell_positions]: each row's cell in a column that holds none at [missing]. *)
Fixpoint cell_positions_from (missing : gset nat) (row next n : nat) : list (option nat) :=
  match n with
  | O => []
  | S n =>
      if decide (row ∈ missing) then None :: cell_positions_from missing (S row) next n
      else Some next :: cell_positions_from missing (S row) (S next) n
  end.

Definition cell_positions (rows : nat) (missing : gset nat) : list (option nat) := cell_positions_from missing 0 0 rows.

(** [select_rows]: the cells of a field that has none at some rows. *)
Definition select_cells (total : nat) (missing : gset nat) (cells : ColumnValue) (rows : list nat) :
    option (ColumnValue * gset nat) :=
  let at_ := cell_positions total missing in
  positions ← mapM (fun r => at_ !! r) rows;
  let picked := omap id positions in
  let gone : gset nat := list_to_set (omap (fun '(i, p) => match p with None => Some i | Some _ => None end) (imap pair positions)) in
  cells ← select_indices cells picked;
  Some (cells, gone).

(** [select_rows] of a record's fields: the fields, and the rows each has no cell at. *)
Definition select_field (select : Tile -> option Tile) (total : nat) (absent : gmap string (gset nat)) (rows : list nat)
    (name : string) (field : Tile) : option (Tile * option (gset nat)) :=
  match absent !! name with
  | None => t ← select field; Some (t, None)
  | Some missing =>
      match field with
      | TileScalar cells =>
          '(cells, gone) ← select_cells total missing cells rows;
          Some (TileScalar cells, if decide (gone = ∅) then None else Some gone)
      | _ => None
      end
  end.

(** The fields and their absences apart. *)
Definition record_of (fields : list (string * (Tile * option (gset nat)))) : Tile :=
  TileRecord (map (fun '(k, (t, _)) => (k, t)) fields)
    (list_to_map (omap (fun '(k, (_, gone)) => gone ← gone; Some (k, gone)) fields)).

(** [select_rows]. *)
Fixpoint select_rows (t : Tile) (rows_ : list nat) : option Tile :=
  match t with
  | TileScalar cv =>
      e ← col_is_empty cv;
      if (e : bool) then Some (TileScalar cv) else c ← select_indices cv rows_; Some (TileScalar c)
  | TileRecord fields absent =>
      total ← record_rows fields absent;
      fields ← mapM (fun '(name, field) => f ← select_field (fun f => select_rows f rows_) total absent rows_ name field; Some (name, f)) fields;
      Some (record_of fields)
  | TileDataFunction row_starts domain codomain domain_predicate deleted =>
      regroup_with (select_rows codomain) row_starts domain domain_predicate deleted (map (fun r => [r]) rows_)
  | TileAggregation kind accumulator terminal =>
      accumulator ← select_rows accumulator rows_;
      terminal ← select_indices terminal rows_;
      Some (TileAggregation kind accumulator terminal)
  | TileStore state seed decided frontier terminal closed_keys =>
      state ← select_rows state rows_;
      seed ← select_rows seed rows_;
      decided ← select_rows decided rows_;
      frontier ← select_rows frontier rows_;
      Some (TileStore state seed decided frontier terminal closed_keys)
  end.

(** [regroup_rows]. *)
Definition regroup_rows (t : Tile) (groups : list (list nat)) : option Tile :=
  match t with
  | TileDataFunction row_starts domain codomain domain_predicate deleted =>
      regroup_with (select_rows codomain) row_starts domain domain_predicate deleted groups
  | _ => None
  end.

(** [retain_rows]. *)
Fixpoint retain_rows (t : Tile) (mask : list bool) : option Tile :=
  match t with
  | TileScalar cv =>
      e ← col_is_empty cv;
      if (e : bool) then Some t else c ← retain cv mask; Some (TileScalar c)
  | TileRecord fields absent =>
      if decide (absent = ∅) then
        fields ← mapM (fun '(k, f) => f ← retain_rows f mask; Some (k, f)) fields; Some (TileRecord fields absent)
      else select_rows t (kept mask)
  | TileStore _ _ _ _ _ _ => select_rows t (kept mask)
  | TileDataFunction _ _ _ _ _ => regroup_rows t (map (fun r => [r]) (kept mask))
  | TileAggregation kind accumulator terminal =>
      accumulator ← retain_rows accumulator mask;
      terminal ← retain terminal mask;
      Some (TileAggregation kind accumulator terminal)
  end.

(** ** Filtering keys *)

(** [retain_keys]. *)
Definition retain_keys (t : Tile) (mask : list bool) : option Tile :=
  match t with
  | TileDataFunction row_starts domain codomain domain_predicate deleted =>
      n ← len domain;
      counts ← mapM (fun row =>
        run ← level_run row_starts row n;
        bits ← mapM (fun k => mask !! k) (range run);
        Some (countb id bits)) (seq 0 (length row_starts));
      bits ← mapM (fun k => mask !! k) (seq 0 n);
      let survivors := kept bits in
      domain ← select_indices domain survivors;
      codomain ← retain_rows codomain mask;
      Some (TileDataFunction (run_starts 0 counts) domain codomain domain_predicate (moved_bits deleted survivors))
  | _ => None
  end.

(** [mark_deleted]. *)
Definition mark_deleted (t : Tile) (mask : list bool) : option Tile :=
  match t with
  | TileDataFunction row_starts domain codomain domain_predicate deleted =>
      Some (TileDataFunction row_starts domain codomain domain_predicate (deleted ∪ list_to_set (kept (map negb mask))))
  | _ => None
  end.

(** The levels of tiles inside a tile: the depth of the recursion of [compact]. *)
Fixpoint height (t : Tile) : nat :=
  match t with
  | TileScalar _ => 1
  | TileRecord fields _ => S (foldr Nat.max 0 (map (fun '(_, t) => height t) fields))
  | TileDataFunction _ _ codomain _ _ => S (height codomain)
  | TileAggregation _ accumulator _ => S (height accumulator)
  | TileStore state seed decided frontier _ _ =>
      S (Nat.max (Nat.max (height state) (height seed)) (Nat.max (height decided) (height frontier)))
  end.

(** [compact]: each level's removed keys go with their groups, and then the levels below. *)
Fixpoint compact_at (fuel : nat) (t : Tile) : option Tile :=
  match fuel with
  | O => None
  | S fuel =>
      match t with
      | TileDataFunction row_starts domain codomain domain_predicate deleted =>
          t ← (if decide (deleted = ∅) then Some t
               else n ← len domain;
                 retain_keys (TileDataFunction row_starts domain codomain domain_predicate ∅)
                   (map (fun k => negb (bool_decide (k ∈ deleted))) (seq 0 n)));
          match t with
          | TileDataFunction row_starts domain codomain domain_predicate deleted =>
              codomain ← compact_at fuel codomain;
              Some (TileDataFunction row_starts domain codomain domain_predicate deleted)
          | _ => None
          end
      | TileRecord fields absent =>
          fields ← mapM (fun '(k, f) => f ← compact_at fuel f; Some (k, f)) fields; Some (TileRecord fields absent)
      | TileAggregation kind accumulator terminal =>
          accumulator ← compact_at fuel accumulator; Some (TileAggregation kind accumulator terminal)
      | TileScalar _ | TileStore _ _ _ _ _ _ => Some t
      end
  end.

Definition compact (t : Tile) : option Tile := compact_at (height t) t.

(** [holds_deleted_rows]. *)
Fixpoint holds_deleted_rows (t : Tile) : bool :=
  match t with
  | TileDataFunction _ _ codomain _ deleted => negb (bool_decide (deleted = ∅)) || holds_deleted_rows codomain
  | TileRecord fields _ => existsb (fun '(_, t) => holds_deleted_rows t) fields
  | TileAggregation _ accumulator _ => holds_deleted_rows accumulator
  | TileScalar _ | TileStore _ _ _ _ _ _ => false
  end.

(** [retain_paths]: the filter of each level, down to the last. *)
Fixpoint retain_paths_under (t : Tile) (depth : nat) (row_paths : list (list Value)) (keep : list Value -> bool) : option Tile :=
  paths ← key_paths t row_paths;
  let mask := map keep paths in
  t ← retain_keys t mask;
  match depth with
  | O => Some t
  | S depth =>
      match t with
      | TileDataFunction row_starts domain codomain domain_predicate deleted =>
          codomain ← retain_paths_under codomain depth (masked mask paths) keep;
          Some (TileDataFunction row_starts domain codomain domain_predicate deleted)
      | _ => None
      end
  end.

Definition retain_paths (t : Tile) (level : nat) (keep : list Value -> bool) : option Tile :=
  retain_paths_under t level [[]] keep.
End Tiles.
Arguments Tile {KS}.
