(* ===== verification/TileRows.v ===== *)
(** * The rows a tile holds

    [tile_ok T n t]: the tile [t] is of the tiling [T] over [n] rows, each collection's runs
    dividing its keys in order.  [row_of t r] is what the tile holds at row [r], the columns
    read back as one nested value.  The operations on tiles are proved against these rows. *)

From Stdlib Require Import List.
From stdpp Require Import gmap.
From S2P Require Import Prelude Predicate Guards Values Columns ColumnFacts Tiles.
Set Warnings "-register-all,-clear-no-such-hyp".

(** ** Runs *)

(** The starts of the runs of [n] rows over [m] keys. *)
Definition csr (n m : nat) (starts : list nat) : Prop :=
  exists lens, starts = run_starts 0 lens /\ length lens = n /\ sum_list lens = m.

Lemma length_run_starts a lens : length (run_starts a lens) = length lens.
Proof. revert a. induction lens as [|x lens IH]; intros a; simpl; [done|]. by rewrite IH. Qed.

Lemma lookup_run_starts a lens i : i < length lens -> run_starts a lens !! i = Some (a + sum_list (take i lens)).
Proof.
  revert a i. induction lens as [|x lens IH]; intros a i Hi; simpl in *; [lia|].
  destruct i as [|i]; simpl; [f_equal; lia|]. rewrite IH by lia. f_equal. lia.
Qed.

Lemma level_run_starts lens i m :
  i < length lens -> sum_list lens = m ->
  level_run (run_starts 0 lens) i m = Some (sum_list (take i lens), sum_list (take (S i) lens)).
Proof.
  intros Hi Hm. unfold level_run. rewrite (lookup_run_starts 0 lens i) by done. simpl option_bind. rewrite length_run_starts, !Nat.add_1_r.
  destruct (S i <? length lens) eqn:E; breflect.
  - by rewrite lookup_run_starts by lia.
  - by rewrite (take_ge _ (S i)), Hm by lia.
Qed.

Lemma sum_list_app' (l k : list nat) : sum_list (l ++ k) = sum_list l + sum_list k.
Proof. induction l as [|x l IH]; simpl; [done|]. rewrite IH. lia. Qed.

Lemma sum_take_S (lens : list nat) i x : lens !! i = Some x -> sum_list (take (S i) lens) = sum_list (take i lens) + x.
Proof. intros H. rewrite (take_S_r _ _ _ H), sum_list_app'. simpl. lia. Qed.

Lemma sum_take_le (lens : list nat) i : sum_list (take i lens) <= sum_list lens.
Proof. rewrite <- (take_drop i lens) at 2. rewrite sum_list_app'. lia. Qed.

Lemma run_range lens i x :
  lens !! i = Some x -> range (sum_list (take i lens), sum_list (take (S i) lens)) = seq (sum_list (take i lens)) x.
Proof. intros H. unfold range. simpl fst. simpl snd. rewrite (sum_take_S _ _ _ H). f_equal. lia. Qed.

Lemma run_lt lens i x k :
  lens !! i = Some x -> k ∈ seq (sum_list (take i lens)) x -> k < sum_list lens.
Proof.
  intros H. rewrite elem_of_seq. pose proof (sum_take_S _ _ _ H). pose proof (sum_take_le lens (S i)). lia.
Qed.

Lemma length_concat {A} (ls : list (list A)) : length (concat ls) = sum_list (map length ls).
Proof. induction ls as [|l ls IH]; simpl; [done|]. by rewrite length_app, IH. Qed.

(** The [x]-th element of the [g]-th run. *)
Lemma lookup_concat {A} (ls : list (list A)) g l x :
  ls !! g = Some l -> x < length l -> concat ls !! (sum_list (take g (map length ls)) + x) = l !! x.
Proof.
  revert g. induction ls as [|k ls IH]; intros [|g]; simpl; [done..| |]; intros H Hx.
  - simplify_eq. by rewrite lookup_app_l.
  - rewrite lookup_app_r by lia. rewrite <- (IH g H Hx). f_equal. lia.
Qed.

(** Every run of a concatenation, mapped. *)
Lemma map_run {A B} (ls : list (list A)) g l (f : A -> B) (f' : nat -> B) :
  ls !! g = Some l -> (forall j x, concat ls !! j = Some x -> f' j = f x) ->
  map f' (seq (sum_list (take g (map length ls))) (length l)) = map f l.
Proof.
  intros Hg Hf. apply list_eq. intros i. rewrite !list_lookup_fmap. destruct (decide (i < length l)) as [Hi|Hi].
  - rewrite lookup_seq_lt by done. simpl. destruct (lookup_lt_is_Some_2 l i Hi) as [x Hx]. rewrite Hx. simpl. f_equal.
    apply Hf. by rewrite (lookup_concat ls g l i).
  - by rewrite lookup_seq_ge, lookup_ge_None_2 by lia.
Qed.

Section TileRows.
Context {KS : KeySets Scalar}.
Abbreviation Tiling := (Tiling CTy).

(** ** Tiles of a tiling *)

Fixpoint tile_ok (T : Tiling) (n : nat) (t : Tile) {struct t} : Prop :=
  match t, T with
  | TileScalar cv, TScalar ty => exists m, (m = 0 \/ m = n) /\ col ty m cv
  | TileRecord fields absent, TRecord ts =>
      NoDup (map fst ts) /\ (forall k, is_Some (absent !! k) -> k ∈ map fst ts) /\
      (fix go fields ts := match fields, ts with
        | [], [] => True
        | (k, f) :: fields, (k', T) :: ts =>
            k = k' /\
            match absent !! k with
            | None => tile_ok T n f
            | Some missing =>
                missing <> ∅ /\ (forall r, r ∈ missing -> r < n) /\
                match f, T with TileScalar cells, TScalar ty => col ty (n - size missing) cells | _, _ => False end
            end /\ go fields ts
        | _, _ => False
        end) fields ts
  | TileDataFunction starts domain codomain _ deleted, TDataFunction ty T =>
      exists m, col ty m domain /\ csr n m starts /\ (forall k, k ∈ deleted -> k < m) /\ tile_ok T m codomain
  | TileAggregation kind accumulator terminal, TAggregation k T =>
      kind = k /\ tile_ok T n accumulator /\ col TyBool n terminal
  | TileStore state seed decided frontier _ _, TStore ty T =>
      match store_state (TStore ty T) with Some logs => tile_ok logs n state | None => False end /\
      tile_ok T n seed /\ tile_ok (TDataFunction ty (TScalar TyUnit)) n decided /\
      tile_ok (TDataFunction ty (TScalar TyUnit)) n frontier
  | _, _ => False
  end.

(** A field of a record over [n] rows. *)
Definition field_ok (n : nat) (absent : gmap string (gset nat)) (kf : string * Tile) (kT : string * Tiling) : Prop :=
  kf.1 = kT.1 /\
  match absent !! kf.1 with
  | None => tile_ok kT.2 n kf.2
  | Some missing =>
      missing <> ∅ /\ (forall r, r ∈ missing -> r < n) /\
      exists cells ty, kf.2 = TileScalar cells /\ kT.2 = TScalar ty /\ col ty (n - size missing) cells
  end.

Lemma tile_ok_record T n fields absent :
  tile_ok T n (TileRecord fields absent) <->
  exists ts, T = TRecord ts /\ NoDup (map fst ts) /\ (forall k, is_Some (absent !! k) -> k ∈ map fst ts) /\
    Forall2 (field_ok n absent) fields ts.
Proof.
  assert (H : forall ts, ((fix go fields ts := match fields, ts with
        | [], [] => True
        | (k, f) :: fields, (k', T) :: ts =>
            k = k' /\
            match absent !! k with
            | None => tile_ok T n f
            | Some missing =>
                missing <> ∅ /\ (forall r, r ∈ missing -> r < n) /\
                match f, T with TileScalar cells, TScalar ty => col ty (n - size missing) cells | _, _ => False end
            end /\ go fields ts
        | _, _ => False
        end) fields ts) <-> Forall2 (field_ok n absent) fields ts).
  { induction fields as [|[k f] fields IH]; intros [|[k' U] ts].
    - split; [constructor|done].
    - split; [done|intros H; inversion H].
    - split; [done|intros H; inversion H].
    - rewrite IH, Forall2_cons, (and_assoc (k = k')). f_equiv. unfold field_ok. simpl. f_equiv.
      destruct (absent !! k) as [missing|]; [|done]. do 2 f_equiv. split.
      + destruct f; try done. destruct U; try done. eauto.
      + intros (cells & ty & -> & -> & ?). done. }
  split.
  - destruct T as [|ts| | |]; try done. intros (? & ? & ?%H). eauto.
  - intros (ts & -> & ? & ? & ?%H). done.
Qed.

(** Induction over tiles. *)
Section Induction.
Context (P : Tile -> Prop).
Context (Hscalar : forall cv, P (TileScalar cv)).
Context (Hrecord : forall fields absent, Forall (fun kf => P kf.2) fields -> P (TileRecord fields absent)).
Context (Hfunction : forall starts domain codomain pred deleted, P codomain -> P (TileDataFunction starts domain codomain pred deleted)).
Context (Haggregation : forall kind acc terminal, P acc -> P (TileAggregation kind acc terminal)).
Context (Hstore : forall state seed decided frontier terminal closed,
  P state -> P seed -> P decided -> P frontier -> P (TileStore state seed decided frontier terminal closed)).

Fixpoint tile_ind (t : Tile) : P t :=
  match t with
  | TileScalar cv => Hscalar cv
  | TileRecord fields absent =>
      Hrecord fields absent ((fix go fields : Forall (fun kf => P kf.2) fields :=
        match fields with
        | [] => List.Forall_nil _
        | (k, f) :: fields => List.Forall_cons (fun kf => P kf.2) (k, f) fields (tile_ind f) (go fields)
        end) fields)
  | TileDataFunction starts domain codomain pred deleted => Hfunction starts domain codomain pred deleted (tile_ind codomain)
  | TileAggregation kind acc terminal => Haggregation kind acc terminal (tile_ind acc)
  | TileStore state seed decided frontier terminal closed =>
      Hstore state seed decided frontier terminal closed (tile_ind state) (tile_ind seed) (tile_ind decided) (tile_ind frontier)
  end.
End Induction.

(** ** Rows *)

Inductive RowVal :=
  | RCell (v : option Value)
  | RRecord (fields : list (string * RowVal))
  | RColl (entries : list (option Value * bool * RowVal))
  | RAgg (kind : AggregateKind) (acc : RowVal) (terminal : option Value)
  | RStore (state seed decided frontier : RowVal) (terminal : bool) (closed : list Value).

(** The cell of a row in a column that has none at [missing]. *)
Definition cell_at (cells : ColumnValue) (missing : gset nat) (r : nat) : option Value :=
  match cell_positions (S r) missing !! r with Some (Some p) => index_at cells p | _ => None end.

(** The cell of a row in a column; none where the column has not arrived. *)
Definition cell_of_column (cv : ColumnValue) (r : nat) : option Value :=
  if bool_decide (len cv = Some 0) then None else index_at cv r.

Fixpoint row_of (t : Tile) (r : nat) : RowVal :=
  match t with
  | TileScalar cv => RCell (cell_of_column cv r)
  | TileRecord fields absent =>
      RRecord (map (fun '(k, f) => (k,
        match absent !! k, f with
        | Some missing, TileScalar cells => RCell (cell_at cells missing r)
        | _, _ => row_of f r
        end)) fields)
  | TileDataFunction starts domain codomain _ deleted =>
      RColl (match len domain with
        | Some n =>
            match level_run starts r n with
            | Some run => map (fun k => (index_at domain k, bool_decide (k ∈ deleted), row_of codomain k)) (range run)
            | None => []
            end
        | None => []
        end)
  | TileAggregation kind acc terminal => RAgg kind (row_of acc r) (index_at terminal r)
  | TileStore state seed decided frontier terminal closed =>
      RStore (row_of state r) (row_of seed r) (row_of decided r) (row_of frontier r) terminal closed
  end.

(** What a field of a record holds at a row. *)
Definition field_row (absent : gmap string (gset nat)) (kf : string * Tile) (r : nat) : RowVal :=
  match absent !! kf.1, kf.2 with
  | Some missing, TileScalar cells => RCell (cell_at cells missing r)
  | _, _ => row_of kf.2 r
  end.

Lemma row_of_record fields absent r :
  row_of (TileRecord fields absent) r = RRecord (map (fun kf => (kf.1, field_row absent kf r)) fields).
Proof. simpl. f_equal. apply map_ext. by intros [k f]. Qed.

(** The entries of the keys [ks] of a collection. *)
Definition entries (domain : ColumnValue) (codomain : Tile) (deleted : gset nat) (ks : list nat) : list (option Value * bool * RowVal) :=
  map (fun k => (index_at domain k, bool_decide (k ∈ deleted), row_of codomain k)) ks.

Lemma row_of_function lens domain codomain pred deleted ty m r x :
  col ty m domain -> sum_list lens = m -> lens !! r = Some x ->
  row_of (TileDataFunction (run_starts 0 lens) domain codomain pred deleted) r
  = RColl (entries domain codomain deleted (seq (sum_list (take r lens)) x)).
Proof.
  intros Hc Hm Hx. simpl. rewrite (col_len _ _ _ Hc), level_run_starts by (done || by eapply lookup_lt_Some).
  by rewrite (run_range _ _ _ Hx).
Qed.

(** Two tiles that hold the same at the rows [rows]. *)
Definition gathers (T : Tiling) (t : Tile) (rows : list nat) (t' : Tile) : Prop :=
  tile_ok T (length rows) t' /\ forall j i, rows !! j = Some i -> row_of t' j = row_of t i.
End TileRows.
