(* ===== verification/TileFacts.v ===== *)
(** * Gathering and filtering rows

    [select_rows], [regroup_rows], [retain_rows], [retain_keys] and [compact] keep a tile's
    tiling, and what each leaves at a row is read off the rows it was given. *)

From Stdlib Require Import List.
From stdpp Require Import gmap.
From S2P Require Import Prelude Predicate Guards Values Columns ColumnFacts Tiles TileRows.
Set Warnings "-register-all,-clear-no-such-hyp".

(** ** Cells of a column with absences *)

Definition present (missing : gset nat) (i : nat) : bool := negb (bool_decide (i ∈ missing)).

Lemma present_true missing i : i ∉ missing -> present missing i = true.
Proof. intros H. unfold present. by rewrite bool_decide_false. Qed.

Lemma present_false missing i : i ∈ missing -> present missing i = false.
Proof. intros H. unfold present. by rewrite bool_decide_true. Qed.

Lemma cell_positions_from_lookup missing row next n j :
  j < n -> cell_positions_from missing row next n !! j
    = Some (if decide (row + j ∈ missing) then None else Some (next + countb (present missing) (seq row j))).
Proof.
  revert row next j. induction n as [|n IH]; intros row next j Hj; [lia|]. simpl.
  destruct j as [|j].
  - rewrite Nat.add_0_r. destruct (decide (row ∈ missing)); simpl; [done|]. by rewrite Nat.add_0_r.
  - rewrite <- Nat.add_succ_comm. destruct (decide (row ∈ missing)) as [Hr|Hr]; simpl; rewrite IH by lia; f_equal; destruct (decide _); try done.
    + by rewrite present_false.
    + rewrite present_true by done. f_equal. lia.
Qed.

Lemma cell_positions_lookup n missing r :
  r < n -> cell_positions n missing !! r = Some (if decide (r ∈ missing) then None else Some (countb (present missing) (seq 0 r))).
Proof. intros Hr. unfold cell_positions. by rewrite cell_positions_from_lookup. Qed.

Lemma cell_at_eq cells missing r :
  cell_at cells missing r = if decide (r ∈ missing) then None else index_at cells (countb (present missing) (seq 0 r)).
Proof. unfold cell_at. rewrite cell_positions_lookup by lia. by destruct (decide _). Qed.

Lemma countb_seq_size (X : gset nat) n : (forall i, i ∈ X -> i < n) -> countb (fun i => bool_decide (i ∈ X)) (seq 0 n) = size X.
Proof.
  intros HX. rewrite countb_filter.
  assert (Hnd : NoDup (List.filter (fun i => bool_decide (i ∈ X)) (seq 0 n))).
  { apply NoDup_ListNoDup, List.NoDup_filter, NoDup_ListNoDup, NoDup_seq. }
  rewrite <- (size_list_to_set (C := gset nat) _ Hnd). f_equal. apply set_eq. intros i.
  rewrite elem_of_list_to_set, list_elem_of_In, filter_In, <- list_elem_of_In, elem_of_seq, bool_decide_eq_true.
  split; [tauto|]. intros Hi. split; [split; [lia|by apply HX]|done].
Qed.

Lemma size_bounded (X : gset nat) n : (forall i, i ∈ X -> i < n) -> size X <= n.
Proof.
  intros H. pose proof (countb_seq_size X n H) as Hs. rewrite countb_filter in Hs.
  pose proof (List.filter_length_le (fun i => bool_decide (i ∈ X)) (seq 0 n)). rewrite length_seq in *. lia.
Qed.

Lemma countb_negb {A} (f : A -> bool) l : countb (fun x => negb (f x)) l = length l - countb f l.
Proof.
  induction l as [|x l IH]; simpl; [done|]. rewrite IH. pose proof (countb_filter f l). pose proof (List.filter_length_le f l).
  destruct (f x); simpl; lia.
Qed.

Lemma countb_present n (missing : gset nat) : (forall i, i ∈ missing -> i < n) -> countb (present missing) (seq 0 n) = n - size missing.
Proof. intros H. unfold present. rewrite countb_negb, length_seq, countb_seq_size; done. Qed.

Lemma countb_seq_lt (f : nat -> bool) r n : r < n -> f r = true -> countb f (seq 0 r) < countb f (seq 0 n).
Proof.
  intros Hr Hf. replace n with (r + (1 + (n - r - 1))) by lia. rewrite seq_app, countb_app. simpl. rewrite Hf. lia.
Qed.

Lemma countb_ext {A} (f g : A -> bool) l : (forall x, x ∈ l -> f x = g x) -> countb f l = countb g l.
Proof.
  intros H. induction l as [|x l IH]; simpl; [done|]. rewrite H by left. rewrite IH; [done|]. intros y Hy. apply H. by right.
Qed.

(** The position of the [j]-th entry among those that are there. *)
Lemma omap_id_rank {A} (ps : list (option A)) j p :
  ps !! j = Some (Some p) -> omap id ps !! countb (fun x => bool_decide (is_Some x)) (take j ps) = Some p.
Proof.
  revert j. induction ps as [|[x|] ps IH]; intros [|j] H; simpl in *; try done; [congruence|..]; by apply IH.
Qed.

Lemma length_omap_id {A} (ps : list (option A)) : length (omap id ps) = countb (fun x => bool_decide (is_Some x)) ps.
Proof. induction ps as [|[x|] ps IH]; simpl; [done|..]; by rewrite <- IH. Qed.

(** The rows with no cell. *)
Definition gone_rows {A} (ps : list (option A)) : gset nat :=
  list_to_set (omap (fun '(i, p) => match p with None => Some i | Some _ => None end) (imap pair ps)).

Lemma elem_of_gone {A} (ps : list (option A)) j : j ∈ gone_rows ps <-> ps !! j = Some None.
Proof.
  unfold gone_rows. rewrite elem_of_list_to_set, list_elem_of_omap. split.
  - intros ([i [p|]] & Hin & E); [done|]. simplify_eq. apply list_elem_of_lookup in Hin as [x Hx].
    rewrite list_lookup_imap in Hx. destruct (ps !! x) as [y|] eqn:Ey; [|done]. simpl in Hx. by simplify_eq.
  - intros H. exists (j, None). split; [|done]. apply list_elem_of_lookup. exists j. by rewrite list_lookup_imap, H.
Qed.

Lemma gone_count {A} (ps : list (option A)) j :
  j <= length ps -> countb (present (gone_rows ps)) (seq 0 j) = countb (fun x => bool_decide (is_Some x)) (take j ps).
Proof.
  induction j as [|j IH]; intros Hj; [done|]. destruct (lookup_lt_is_Some_2 ps j) as [x Hx]; [lia|].
  rewrite (take_S_r _ _ _ Hx), seq_S, !countb_snoc, IH by lia. f_equal. simpl. unfold present.
  destruct x as [x|]; [rewrite bool_decide_false|rewrite bool_decide_true]; try done; by rewrite elem_of_gone, Hx.
Qed.

Lemma gone_lt {A} (ps : list (option A)) j : j ∈ gone_rows ps -> j < length ps.
Proof. rewrite elem_of_gone. by intros ?%lookup_lt_Some. Qed.

Lemma length_picked {A} (ps : list (option A)) : length (omap id ps) = length ps - size (gone_rows ps).
Proof.
  rewrite length_omap_id, <- (countb_present (length ps) (gone_rows ps) (gone_lt ps)), gone_count by done.
  by rewrite firstn_all.
Qed.

(** The cells at the positions [ps] of a column, a row without one having none. *)
Lemma picked_cells_ok ty n cells (ps : list (option nat)) :
  col ty n cells -> (forall p, Some p ∈ ps -> p < n) ->
  exists cells', select_indices cells (omap id ps) = Some cells' /\ col ty (length ps - size (gone_rows ps)) cells' /\
    forall j p, ps !! j = Some p -> cell_at cells' (gone_rows ps) j = (p ← p; index_at cells p).
Proof.
  intros Hc Hlt. destruct (select_ok cells ty n (omap id ps) Hc) as (cells' & E & Hc' & Hix).
  { apply Forall_forall. intros p (x & Hx & Ex)%list_elem_of_omap. simpl in Ex. subst x. by apply Hlt. }
  exists cells'. split; [done|]. rewrite length_picked in Hc'. split; [done|]. intros j p Hj. rewrite cell_at_eq. destruct p as [p|].
  - rewrite decide_False by (rewrite elem_of_gone, Hj; done). rewrite gone_count by (by apply lookup_lt_Some in Hj; lia).
    apply Hix. by apply omap_id_rank.
  - rewrite decide_True; [done|]. by rewrite elem_of_gone.
Qed.

(** The position of a row's cell. *)
Definition cell_position (missing : gset nat) (r : nat) : option nat :=
  if decide (r ∈ missing) then None else Some (countb (present missing) (seq 0 r)).

Lemma cell_position_lt n missing r p :
  (forall r, r ∈ missing -> r < n) -> r < n -> cell_position missing r = Some p -> p < n - size missing.
Proof.
  intros Hm Hr. unfold cell_position. destruct (decide _); [done|]. intros [= <-]. rewrite <- countb_present by done.
  apply countb_seq_lt; [done|by apply present_true].
Qed.

Lemma cell_at_position cells missing r : cell_at cells missing r = (p ← cell_position missing r; index_at cells p).
Proof. rewrite cell_at_eq. unfold cell_position. by destruct (decide _). Qed.

(** The cells of [select_cells], and that they are the rows' cells. *)
Lemma select_cells_ok ty n missing cells rows_ :
  (forall r, r ∈ missing -> r < n) -> col ty (n - size missing) cells -> Forall (fun r => r < n) rows_ ->
  exists cells' gone, select_cells n missing cells rows_ = Some (cells', gone) /\
    col ty (length rows_ - size gone) cells' /\ (forall j, j ∈ gone -> j < length rows_) /\
    forall j r, rows_ !! j = Some r -> cell_at cells' gone j = cell_at cells missing r.
Proof.
  intros Hm Hc Hlt. unfold select_cells. assert (E : mapM (fun r => cell_positions n missing !! r) rows_ = Some (map (cell_position missing) rows_)).
  { apply mapM_Some. apply Forall2_fmap_r. rewrite Forall_forall in Hlt. apply Forall_Forall2_diag, Forall_forall. intros r Hr.
    by apply cell_positions_lookup, Hlt. }
  rewrite E. cbn [mbind option_bind]. fold (gone_rows (map (cell_position missing) rows_)).
  destruct (picked_cells_ok ty _ cells (map (cell_position missing) rows_) Hc) as (cells' & -> & Hc' & Hix).
  { intros p (r & E' & Hr)%list_elem_of_fmap. rewrite Forall_forall in Hlt. eapply cell_position_lt; [done|by apply Hlt|done]. }
  rewrite length_map in Hc'. do 2 eexists. split; [done|]. split; [done|]. split.
  - intros j Hj%gone_lt. by rewrite length_map in Hj.
  - intros j r Hj. rewrite (Hix j (cell_position missing r)); [by rewrite cell_at_position|]. by rewrite list_lookup_fmap, Hj.
Qed.

(** ** Runs and masks *)

Lemma filter_map_S (f : nat -> bool) l : List.filter f (map S l) = map S (List.filter (fun k => f (S k)) l).
Proof. induction l as [|x l IH]; simpl; [done|]. destruct (f (S x)); simpl; by rewrite IH. Qed.

Definition masks (mask : list bool) (k : nat) : bool := default false (mask !! k).

Lemma kept_filter mask : kept mask = List.filter (masks mask) (seq 0 (length mask)).
Proof.
  induction mask as [|b mask IH]; [done|]. rewrite kept_mask_cons, IH. simpl. rewrite <- seq_shift, filter_map_S.
  unfold masks. simpl. by destruct b.
Qed.

Definition run_keys (lens : list nat) (r : nat) : list nat := seq (sum_list (take r lens)) (nth r lens 0).

Lemma concat_runs lens : concat (map (run_keys lens) (seq 0 (length lens))) = seq 0 (sum_list lens).
Proof.
  induction lens as [|x lens IH] using rev_ind; [done|].
  rewrite length_app, seq_app, map_app, concat_app, sum_list_app', seq_app. simpl. rewrite app_nil_r. f_equal.
  - rewrite <- IH. f_equal. apply map_ext_in. intros r Hr%list_elem_of_In%elem_of_seq. unfold run_keys.
    rewrite take_app_le by lia. f_equal. apply app_nth1. lia.
  - unfold run_keys. rewrite take_app_length, app_nth2, Nat.sub_diag by lia. simpl. f_equal. lia.
Qed.

Lemma filter_concat {A} (f : A -> bool) ls : List.filter f (concat ls) = concat (map (List.filter f) ls).
Proof. induction ls as [|l ls IH]; simpl; [done|]. by rewrite List.filter_app, IH. Qed.

(** The keys of each row that a mask keeps. *)
Definition kept_runs (mask : list bool) (lens : list nat) : list (list nat) :=
  map (fun r => List.filter (masks mask) (run_keys lens r)) (seq 0 (length lens)).

Lemma concat_kept_runs mask lens : length mask = sum_list lens -> concat (kept_runs mask lens) = kept mask.
Proof.
  intros H. rewrite kept_filter, H, <- concat_runs, filter_concat. unfold kept_runs. by rewrite map_map.
Qed.

Lemma mapM_lookup_seq {A} (l : list A) : mapM (fun k => l !! k) (seq 0 (length l)) = Some l.
Proof.
  apply mapM_Some. apply Forall2_same_length_lookup. split; [by rewrite length_seq|]. intros i x y Hx Hy.
  apply lookup_seq in Hx as [-> _]. done.
Qed.

Lemma mask_bits mask l :
  Forall (fun k => k < length mask) l -> exists bits, mapM (fun k => mask !! k) l = Some bits /\ countb id bits = length (List.filter (masks mask) l).
Proof.
  induction 1 as [|k l Hk _ (bits & E & Hb)]; [by exists []|]. destruct (lookup_lt_is_Some_2 mask k Hk) as [b Hkb].
  exists (b :: bits). simpl. rewrite Hkb, E. split; [done|]. simpl. unfold masks at 1. rewrite Hkb. simpl. destruct b; simpl; by rewrite Hb.
Qed.

Lemma run_keys_lt lens r k : r < length lens -> k ∈ run_keys lens r -> k < sum_list lens.
Proof.
  intros Hr. destruct (lookup_lt_is_Some_2 lens r Hr) as [x Hx]. unfold run_keys. rewrite (nth_lookup_Some _ _ _ _ Hx). by apply run_lt.
Qed.

Section TileFacts.
Context {KS : KeySets Scalar}.
Abbreviation Tiling := (Tiling CTy).

(** ** Records *)

(** A field with the rows it has no cell at. *)
Definition field_done (n : nat) (T : Tiling) (f : Tile * option (gset nat)) : Prop :=
  match f.2 with
  | None => tile_ok T n f.1
  | Some missing =>
      missing <> ∅ /\ (forall r, r ∈ missing -> r < n) /\
      exists cells ty, f.1 = TileScalar cells /\ T = TScalar ty /\ col ty (n - size missing) cells
  end.

Definition done_row (f : Tile * option (gset nat)) (r : nat) : RowVal :=
  match f.2, f.1 with
  | Some missing, TileScalar cells => RCell (cell_at cells missing r)
  | _, _ => row_of f.1 r
  end.

Lemma record_of_absent (fields : list (string * (Tile * option (gset nat)))) k f :
  NoDup (map fst fields) -> (k, f) ∈ fields ->
  (list_to_map (omap (fun '(k, (_, gone)) => gone ← gone; Some (k, gone)) fields) : gmap string (gset nat)) !! k = f.2.
Proof.
  induction fields as [|[k' [t g]] fields IH]; intros Hnd Hin; [by apply not_elem_of_nil in Hin|].
  simpl in Hnd. apply NoDup_cons in Hnd as [Hni Hnd]. csimpl.
  assert (Hnone : forall k, k ∉ map fst fields ->
    (list_to_map (omap (fun '(k, (_, gone)) => gone ← gone; Some (k, gone)) fields) : gmap string (gset nat)) !! k = None).
  { intros k0 Hk0. apply not_elem_of_list_to_map. intros Hk. apply Hk0. apply list_elem_of_fmap in Hk as ([x gx] & -> & Hx).
    apply list_elem_of_omap in Hx as ([y [u [gy|]]] & Hy & E); [|done]. simpl in E. simplify_eq.
    apply list_elem_of_In, in_map_iff. exists (x, (u, Some gx)). split; [done|by apply list_elem_of_In]. }
  apply elem_of_cons in Hin as [[= -> ->]|Hin].
  - destruct g as [g|]; simpl; [by rewrite lookup_insert_eq|]. by apply Hnone.
  - assert (k <> k').
    { intros ->. apply Hni. apply list_elem_of_In, in_map_iff. exists (k', f). split; [done|by apply list_elem_of_In]. }
    destruct g as [g|]; simpl; [rewrite lookup_insert_ne by done|]; by apply IH.
Qed.

Lemma record_of_fst (fields : list (string * (Tile * option (gset nat)))) :
  map fst (map (fun '(k, (t, _)) => (k, t)) fields) = map fst fields.
Proof. rewrite map_map. apply map_ext. by intros [? [? ?]]. Qed.

Lemma record_of_ok n fields (ts : list (string * Tiling)) :
  NoDup (map fst ts) -> Forall2 (fun kf kT => kf.1 = kT.1 /\ field_done n kT.2 kf.2) fields ts ->
  tile_ok (TRecord ts) n (record_of fields) /\
  forall r, row_of (record_of fields) r = RRecord (map (fun kf => (kf.1, done_row kf.2 r)) fields).
Proof.
  intros Hnd H.
  assert (Hfst : map fst fields = map fst ts).
  { clear Hnd. induction H as [|a b fields ts [E _] _ IH]; simpl; [done|]. by rewrite E, IH. }
  assert (Hnf : NoDup (map fst fields)) by by rewrite Hfst.
  unfold record_of. set (absent := list_to_map _).
  assert (Habs : forall kf, kf ∈ fields -> absent !! kf.1 = kf.2.2).
  { intros [k f] Hin. by apply (record_of_absent fields k f). }
  split.
  - apply tile_ok_record. exists ts. split; [done|]. split; [done|]. split.
    + intros k [g Hg]. rewrite <- Hfst. apply elem_of_list_to_map_2 in Hg.
      apply list_elem_of_omap in Hg as ([x [u [gx|]]] & Hx & E); [|done]. simpl in E. simplify_eq.
      apply list_elem_of_In, in_map_iff. exists (k, (u, Some g)). split; [done|by apply list_elem_of_In].
    + clearbody absent. clear Hnd Hfst Hnf. induction H as [|[k [t g]] [k' T] fields ts [E Hf] _ IH]; simpl; constructor.
      * simpl in E. subst k'. split; [done|]. pose proof (Habs (k, (t, g)) (list_elem_of_here _ _)) as Ha. simpl in *. by rewrite Ha.
      * apply IH. intros kf Hkf. apply Habs. by right.
  - intros r. rewrite row_of_record. f_equal. rewrite map_map. apply map_ext_in. intros [k [t g]] Hin%list_elem_of_In.
    f_equal. unfold field_row, done_row. pose proof (Habs (k, (t, g)) Hin) as Ha. simpl in *. by rewrite Ha.
Qed.

(** ** The number of rows *)

Lemma rows_ok T n t : tile_ok T n t -> exists x, rows t = Some x /\ (n <> 0 -> x <= n).
Proof.
  revert T n. induction t as [cv|fields absent IH|starts domain codomain pred deleted _|kind acc terminal IH|st se de fr te cl _ _ _ _] using tile_ind;
    intros T n H.
  - destruct T; try done. destruct H as (m & Hm & Hc). exists m. simpl. rewrite (col_len _ _ _ Hc). split; [done|]. lia.
  - apply tile_ok_record in H as (ts & -> & _ & _ & H).
    assert (Hc : exists counts, mapM (fun '(name, field) => n ← rows field;
        Some (n + match absent !! name with Some s => size s | None => 0 end)) fields = Some counts /\
        (n <> 0 -> Forall (fun x => x <= n) counts)).
    { induction H as [|[k f] [k' U] fields ts [E Hf] _ IHf]; [by exists []|]. apply Forall_cons in IH as [IHc IH].
      destruct (IHf IH) as (counts & Ec & Hle). simpl in *.
      assert (exists x, rows f = Some x /\ (n <> 0 -> x + match absent !! k with Some s => size s | None => 0 end <= n)) as (x & -> & Hx).
      { destruct (absent !! k) as [missing|].
        - destruct Hf as (_ & Hlt & cells & ty & -> & _ & Hcol). exists (n - size missing). simpl. split; [by eapply col_len|].
          pose proof (size_bounded missing n Hlt). lia.
        - destruct (IHc U n Hf) as (x & Hx & Hle'). exists x. split; [done|]. intros. specialize (Hle' ltac:(done)). lia. }
      exists (x + match absent !! k with Some s => size s | None => 0 end :: counts). simpl. rewrite Ec. split; [done|].
      intros Hn. constructor; auto. }
    destruct Hc as (counts & Ec & Hle). exists (foldr Nat.max 0 counts). split; [simpl; by rewrite Ec|]. intros Hn. specialize (Hle Hn).
    clear -Hle. induction Hle; simpl; lia.
  - destruct T; try done. destruct H as (m & _ & (lens & -> & <- & _) & _). exists (length lens). simpl. rewrite length_run_starts. split; [done|lia].
  - destruct T; try done. destruct H as (_ & H & _). by eapply IH.
  - exists 1. split; [done|lia].
Qed.

Lemma foldr_max_le l x : x ∈ l -> x <= foldr Nat.max 0 l.
Proof. induction l as [|y l IH]; simpl; [by intros ?%not_elem_of_nil|]. intros [->|H]%elem_of_cons; [lia|]. apply IH in H. lia. Qed.

(** A record that lacks a cell knows its number of rows. *)
Lemma record_rows_ok ts n fields absent k missing :
  tile_ok (TRecord ts) n (TileRecord fields absent) -> absent !! k = Some missing -> record_rows fields absent = Some n.
Proof.
  intros H Hk. destruct (rows_ok _ _ _ H) as (x & Hx & Hle). unfold record_rows. rewrite Hx. f_equal.
  apply tile_ok_record in H as (ts' & [= <-] & Hnd & Hsub & H).
  assert (Hin : k ∈ map fst ts) by (apply Hsub; by eexists). apply list_elem_of_In, in_map_iff in Hin as ([k' U] & E & Hin%list_elem_of_In).
  simpl in E. subst k'. apply list_elem_of_lookup in Hin as [i Hi]. destruct (Forall2_lookup_r _ _ _ _ _ H Hi) as ([k' f] & Hf & E & Hok).
  simpl in E, Hok. subst k'. rewrite Hk in Hok. destruct Hok as (Hne & Hlt & cells & ty & -> & _ & Hc).
  pose proof (size_bounded missing n Hlt) as Hs.
  assert (n <> 0). { intros ->. apply Hne. apply set_eq. intros r. split; [intros ?%Hlt; lia|set_solver]. }
  specialize (Hle ltac:(done)). enough (n <= x) by lia. simpl in Hx.
  destruct (mapM _ fields) as [counts|] eqn:Ec; [|done]. simpl in Hx. injection Hx as <-. apply foldr_max_le.
  apply (elem_of_mapM _ _ _ n Ec). exists (k, TileScalar cells). split; [by eapply list_elem_of_lookup_2|].
  simpl. rewrite (col_len _ _ _ Hc), Hk. simpl. f_equal. lia.
Qed.
(** ** Gathering rows *)

(** That the rows of a tile are gathered as they should. *)
Definition gathers_ok (t : Tile) : Prop :=
  forall T n rows_, tile_ok T n t -> Forall (fun r => r < n) rows_ ->
    exists t', select_rows t rows_ = Some t' /\ gathers T t rows_ t'.

Lemma gather_scalar cv : gathers_ok (TileScalar cv).
Proof.
  intros T n rows_ H Hlt. destruct T as [ty| | | |]; try done. destruct H as (m & Hm & Hc). simpl. unfold col_is_empty.
  rewrite (col_len _ _ _ Hc). simpl. destruct (m =? 0) eqn:E; breflect.
  - subst m. eexists. split; [done|]. split; [exists 0; by split; [left|]|]. intros j i _. simpl. unfold cell_of_column.
    by rewrite (col_len _ _ _ Hc).
  - destruct Hm as [->| ->]; [done|]. destruct (select_ok cv ty n rows_ Hc Hlt) as (c' & -> & Hc' & Hix). simpl.
    eexists. split; [done|]. split; [exists (length rows_); by split; [right|]|]. intros j i Hj. simpl. unfold cell_of_column.
    rewrite (col_len _ _ _ Hc), (col_len _ _ _ Hc'), !bool_decide_false; [by rewrite (Hix j i Hj)|..];
      intros [= E']; first [lia|apply lookup_lt_Some in Hj; lia].
Qed.

Lemma select_field_ok ts n fields absent total rows_ kf kT :
  tile_ok (TRecord ts) n (TileRecord fields absent) -> record_rows fields absent = Some total ->
  Forall (fun r => r < n) rows_ -> gathers_ok kf.2 -> field_ok n absent kf kT ->
  exists f, select_field (fun f => select_rows f rows_) total absent rows_ kf.1 kf.2 = Some f /\
    field_done (length rows_) kT.2 f /\ forall j i, rows_ !! j = Some i -> done_row f j = field_row absent kf i.
Proof.
  intros Hok Htot Hlt IH [E Hf]. unfold select_field, field_row. destruct (absent !! kf.1) as [missing|] eqn:Ea.
  - rewrite (record_rows_ok _ _ _ _ _ _ Hok Ea) in Htot. injection Htot as <-.
    destruct Hf as (Hne & Hm & cells & ty & -> & -> & Hc).
    destruct (select_cells_ok ty n missing cells rows_ Hm Hc Hlt) as (cells' & gone & -> & Hc' & Hg & Hix). simpl.
    eexists. split; [done|]. destruct (decide (gone = ∅)) as [->|Hgone].
    + unfold field_done, done_row. simpl. rewrite size_empty, Nat.sub_0_r in Hc'. split; [exists (length rows_); by split; [right|]|].
      intros j i Hj. f_equal. rewrite <- (Hix j i Hj), cell_at_eq, decide_False by set_solver. unfold cell_of_column.
      rewrite (col_len _ _ _ Hc'), bool_decide_false by (intros [= E']; apply lookup_lt_Some in Hj; lia).
      f_equal. rewrite countb_present by set_solver. rewrite size_empty. lia.
    + unfold field_done, done_row. simpl. split; [by split; [|split; [|eauto]]|]. intros j i Hj. by rewrite (Hix j i Hj).
  - destruct (IH _ n rows_ Hf Hlt) as (t' & -> & Hok' & Hrow). simpl. eexists. split; [done|]. split; [done|].
    intros j i Hj. unfold done_row. simpl. by rewrite (Hrow j i Hj).
Qed.

Lemma gather_record fields absent : Forall (fun kf => gathers_ok kf.2) fields -> gathers_ok (TileRecord fields absent).
Proof.
  intros IH T n rows_ H Hlt. pose proof H as Hok. apply tile_ok_record in H as (ts & -> & Hnd & _ & H).
  destruct (rows_ok _ _ _ Hok) as (total & Htot & _). fold (record_rows fields absent) in Htot.
  assert (Hf : exists fields', mapM (fun '(name, field) => f ← select_field (fun f => select_rows f rows_) total absent rows_ name field;
      Some (name, f)) fields = Some fields' /\ Forall2 (fun kf kT => kf.1 = kT.1 /\ field_done (length rows_) kT.2 kf.2) fields' ts /\
      Forall2 (fun kf kf' => kf.1 = kf'.1 /\ forall j i, rows_ !! j = Some i -> done_row kf'.2 j = field_row absent kf i) fields fields').
  { clear Hnd. assert (Hsel : forall kf kT, kf ∈ fields -> field_ok n absent kf kT ->
      exists f, select_field (fun f => select_rows f rows_) total absent rows_ kf.1 kf.2 = Some f /\
        field_done (length rows_) kT.2 f /\ forall j i, rows_ !! j = Some i -> done_row f j = field_row absent kf i).
    { intros kf kT Hin. rewrite Forall_forall in IH. by apply (select_field_ok ts n fields); [..|apply IH]. }
    clear IH Htot Hok. induction H as [|[k f] [k' T] fields ts Hkf _ IHf]; [by exists []|].
    destruct (Hsel (k, f) (k', T)) as (g & Eg & Hg & Hrow); [left|done|].
    destruct IHf as (fields' & Ef & H1 & H2); [intros kf kT Hin; apply Hsel; by right|].
    exists ((k, g) :: fields'). simpl in *. rewrite Eg. simpl. rewrite Ef. split; [done|]. split; constructor; try done.
    split; [|done]. by destruct Hkf. }
  destruct Hf as (fields' & Ef & H1 & H2). destruct (record_of_ok (length rows_) fields' ts Hnd H1) as [Hok' Hrow].
  exists (record_of fields'). simpl. fold (record_rows fields absent). rewrite Htot. simpl. rewrite Ef. split; [done|]. split; [done|].
  intros j i Hj. rewrite Hrow, row_of_record. f_equal. clear -H2 Hj.
  induction H2 as [|kf kf' fields fields' [E Hx] _ IH]; simpl; [done|]. by rewrite IH, E, (Hx j i Hj).
Qed.

Lemma elem_of_moved deleted picked j : j ∈ moved_bits deleted picked <-> exists i, picked !! j = Some i /\ i ∈ deleted.
Proof.
  unfold moved_bits. rewrite elem_of_list_to_set, list_elem_of_omap. split.
  - intros ([to from] & Hin & E). apply list_elem_of_lookup in Hin as [x Hx]. rewrite list_lookup_imap in Hx.
    destruct (picked !! x) as [i|] eqn:Ex; [|done]. simpl in Hx. simplify_eq. destruct (decide _); [|done]. simplify_eq. eauto.
  - intros (i & Hi & Hd). exists (j, i). split; [|by rewrite decide_True]. apply list_elem_of_lookup. exists j. by rewrite list_lookup_imap, Hi.
Qed.

(** The keys of the rows of a group. *)
Definition group_keys (lens : list nat) (group : list nat) : list nat :=
  concat (map (fun r => seq (sum_list (take r lens)) (nth r lens 0)) group).

Lemma group_runs lens m group :
  sum_list lens = m -> Forall (fun r => r < length lens) group ->
  mapM (fun row => run ← level_run (run_starts 0 lens) row m; Some (range run)) group
  = Some (map (fun r => seq (sum_list (take r lens)) (nth r lens 0)) group).
Proof.
  intros Hm H. apply mapM_Some. induction H as [|r group Hr _ IH]; constructor; [|done]. rewrite level_run_starts by done. simpl.
  destruct (lookup_lt_is_Some_2 lens r Hr) as [x Hx]. rewrite (nth_lookup_Some _ _ _ _ Hx). f_equal. by apply run_range.
Qed.

Lemma group_keys_lt lens group k : Forall (fun r => r < length lens) group -> k ∈ group_keys lens group -> k < sum_list lens.
Proof.
  intros H Hk. apply list_elem_of_In, in_concat in Hk as (run & Hrun & Hk). apply in_map_iff in Hrun as (r & <- & Hr%list_elem_of_In).
  rewrite Forall_forall in H. destruct (lookup_lt_is_Some_2 lens r (H r Hr)) as [x Hx]. rewrite (nth_lookup_Some _ _ _ _ Hx) in Hk.
  apply list_elem_of_In in Hk. by eapply run_lt.
Qed.

(** A collection rebuilt from runs of the keys of another. *)
Lemma rebuilt_ok ty T domain codomain pred deleted runs domain' codomain' :
  selection ty domain (concat runs) domain' -> gathers T codomain (concat runs) codomain' ->
  let t' := TileDataFunction (run_starts 0 (map length runs)) domain' codomain' pred (moved_bits deleted (concat runs)) in
  tile_ok (TDataFunction ty T) (length runs) t' /\
  forall g run, runs !! g = Some run -> row_of t' g = RColl (entries domain codomain deleted run).
Proof.
  intros [Hc' Hix] [HT' Hrow] t'. assert (Hsum : sum_list (map length runs) = length (concat runs)) by by rewrite length_concat.
  split.
  - exists (length (concat runs)). split; [done|]. split; [|split; [|done]].
    + exists (map length runs). by rewrite length_map.
    + intros k (i & Hi & _)%elem_of_moved. by apply lookup_lt_Some in Hi.
  - intros g run Hg.
    unfold t'. rewrite (row_of_function (map length runs) domain' codomain' pred _ ty (length (concat runs)) g (length run)); [|done..|].
    + f_equal. unfold entries. apply (map_run runs g run); [done|]. intros j x Hj. f_equal; [f_equal|].
      * by apply Hix.
      * apply bool_decide_ext. rewrite elem_of_moved, Hj. split; [|by exists x]. intros (i & [= <-] & ?). done.
      * by apply Hrow.
    + by rewrite list_lookup_fmap, Hg.
Qed.

(** A collection re-grouped: each group holds the entries of its rows' runs, in its order. *)
Lemma regroup_ok ty T m lens domain codomain pred deleted groups :
  gathers_ok codomain -> col ty m domain -> sum_list lens = m -> tile_ok T m codomain ->
  Forall (Forall (fun r => r < length lens)) groups ->
  exists t', regroup_with (select_rows codomain) (run_starts 0 lens) domain pred deleted groups = Some t' /\
    tile_ok (TDataFunction ty T) (length groups) t' /\
    forall g group, groups !! g = Some group -> row_of t' g = RColl (entries domain codomain deleted (group_keys lens group)).
Proof.
  intros IH Hc Hm HT Hg. unfold regroup_with. rewrite (col_len _ _ _ Hc). simpl.
  set (runs := map (group_keys lens) groups).
  assert (Hruns : mapM (fun group => parts ← mapM (fun row => run ← level_run (run_starts 0 lens) row m; Some (range run)) group;
      Some (concat parts)) groups = Some runs).
  { subst runs. apply mapM_Some. clear -Hg Hm. induction Hg as [|group groups Hgr _ IHg]; constructor; [|done]. by rewrite (group_runs lens m). }
  rewrite Hruns. simpl.
  assert (Hpick : Forall (fun k => k < m) (concat runs)).
  { apply Forall_forall. intros k Hk. apply list_elem_of_In, in_concat in Hk as (run & Hrun & Hk). apply in_map_iff in Hrun as (group & <- & Hgr%list_elem_of_In).
    rewrite Forall_forall in Hg. rewrite <- Hm. by eapply group_keys_lt; [apply Hg|apply list_elem_of_In]. }
  destruct (select_ok domain ty m (concat runs) Hc Hpick) as (domain' & -> & Hsel).
  destruct (IH T m (concat runs) HT Hpick) as (codomain' & -> & Hgat). simpl. eexists. split; [done|].
  destruct (rebuilt_ok ty T domain codomain pred deleted runs domain' codomain' Hsel Hgat) as [Hok Hrow].
  subst runs. rewrite length_map in Hok. split; [done|]. intros g group Hgr. apply Hrow. by rewrite list_lookup_fmap, Hgr.
Qed.

Lemma gather_function starts domain codomain pred deleted :
  gathers_ok codomain -> gathers_ok (TileDataFunction starts domain codomain pred deleted).
Proof.
  intros IH T n rows_ H Hlt. destruct T as [| |ty T| |]; try done. destruct H as (m & Hc & (lens & -> & <- & Hm) & _ & HT).
  destruct (regroup_ok ty T m lens domain codomain pred deleted (map (fun r => [r]) rows_)) as (t' & E & Hok & Hrow); try done.
  { apply Forall_forall. intros g Hg. apply list_elem_of_In, in_map_iff in Hg as (r & <- & Hr%list_elem_of_In).
    rewrite Forall_forall in Hlt. constructor; [by apply Hlt|constructor]. }
  exists t'. split; [done|]. rewrite length_map in Hok. split; [done|]. intros j i Hj.
  rewrite (Hrow j [i]) by (by rewrite list_lookup_fmap, Hj). rewrite Forall_forall in Hlt.
  assert (i < length lens) as Hi by (by eapply Hlt, list_elem_of_lookup_2). destruct (lookup_lt_is_Some_2 lens i Hi) as [x Hx].
  rewrite (row_of_function lens domain codomain pred deleted ty m i x) by done.
  unfold group_keys. simpl. by rewrite (nth_lookup_Some _ _ _ _ Hx), app_nil_r.
Qed.

Lemma select_rows_ok t : gathers_ok t.
Proof.
  induction t as [cv|fields absent IH|starts domain codomain pred deleted IH|kind acc terminal IH|st se de fr te cl H1 H2 H3 H4] using tile_ind.
  - apply gather_scalar.
  - by apply gather_record.
  - by apply gather_function.
  - intros T n rows_ H Hlt. destruct T as [| | |k T|]; try done. destruct H as (-> & Ha & Ht).
    destruct (IH T n rows_ Ha Hlt) as (acc' & Ea & Ha' & Hrow), (select_ok terminal TyBool n rows_ Ht Hlt) as (t' & Et & Ht' & Hix).
    eexists. split; [simpl; by rewrite Ea, Et|]. split; [done|]. intros j i Hj. simpl. by rewrite (Hrow j i), (Hix j i).
  - intros T n rows_ H Hlt. destruct T as [| | | |ty T]; try done. destruct H as (Hst & Hse & Hde & Hfr).
    destruct (store_state (TStore ty T)) as [logs|] eqn:El; [|done].
    destruct (H1 _ n rows_ Hst Hlt) as (st' & E1 & O1 & R1), (H2 _ n rows_ Hse Hlt) as (se' & E2 & O2 & R2),
      (H3 _ n rows_ Hde Hlt) as (de' & E3 & O3 & R3), (H4 _ n rows_ Hfr Hlt) as (fr' & E4 & O4 & R4).
    eexists. split; [cbn [select_rows]; rewrite E1, E2, E3, E4; done|]. split.
    + cbn [tile_ok]. rewrite El. done.
    + intros j i Hj. simpl. by rewrite (R1 j i), (R2 j i), (R3 j i), (R4 j i).
Qed.
(** ** Filtering rows *)

Lemma select_plain_fields (select : Tile -> option Tile) total rows_ fields :
  mapM (fun '(name, field) => f ← select_field select total ∅ rows_ name field; Some (name, f)) fields
  = (fields' ← mapM (fun '(k, f) => f ← select f; Some (k, f)) fields; Some (map (fun '(k, t) => (k, (t, None))) fields')).
Proof.
  induction fields as [|[k f] fields IH]; [done|]. simpl.
  assert (E : select_field select total ∅ rows_ k f = (t ← select f; Some (t, None))) by (unfold select_field; by rewrite lookup_empty).
  rewrite E. destruct (select f) as [t|]; [|done]. simpl. rewrite IH.
  by destruct (mapM (fun '(k, f) => f ← select f; Some (k, f)) fields); simpl.
Qed.

Lemma record_of_plain fields : record_of (map (fun '(k, t) => (k, (t, None))) fields) = TileRecord fields ∅.
Proof.
  unfold record_of. f_equal.
  - rewrite map_map. rewrite <- (map_id fields) at 2. apply map_ext. by intros [? ?].
  - induction fields as [|[k f] fields IH]; [done|]. csimpl. done.
Qed.

(** Retaining rows is gathering those the mask keeps. *)
Lemma retain_rows_select t T mask : tile_ok T (length mask) t -> retain_rows t mask = select_rows t (kept mask).
Proof.
  revert T. induction t as [cv|fields absent IH|starts domain codomain pred deleted _|kind acc terminal IH|st se de fr te cl _ _ _ _] using tile_ind;
    intros T H.
  - destruct T; try done. destruct H as (m & Hm & Hc). simpl. unfold col_is_empty. rewrite (col_len _ _ _ Hc). simpl.
    destruct (m =? 0) eqn:E; breflect; [done|]. destruct Hm as [->| ->]; [done|]. by rewrite (retain_ok _ _ _ Hc).
  - cbn [retain_rows]. destruct (decide (absent = ∅)) as [->|]; [|done]. pose proof H as Hok.
    destruct (rows_ok _ _ _ Hok) as (total & Htot & _). apply tile_ok_record in H as (ts & -> & _ & _ & H).
    cbn [select_rows]. unfold record_rows. rewrite Htot. simpl.
    rewrite select_plain_fields. unfold record_rows in Htot. simpl in Htot. clear Htot Hok.
    assert (E : mapM (fun '(k, f) => f ← retain_rows f mask; Some (k, f)) fields
      = mapM (fun '(k, f) => f ← select_rows f (kept mask); Some (k, f)) fields).
    { induction H as [|[k f] [k' U] fields ts [_ Hf] _ IHf]; [done|]. apply Forall_cons in IH as [IHc IH]. simpl in *.
      rewrite (IHc U), IHf; [done..|]. by rewrite lookup_empty in Hf. }
    rewrite E. destruct (mapM (fun '(k, f) => f ← select_rows f (kept mask); Some (k, f)) fields) as [fields'|]; [|done]. simpl. by rewrite record_of_plain.
  - done.
  - destruct T as [| | |k T|]; try done. destruct H as (_ & Ha & Ht). simpl. by rewrite (IH _ Ha), (retain_ok _ _ _ Ht).
  - done.
Qed.
(** ** Filtering keys *)

Lemma retain_keys_ok ty T m lens domain codomain pred deleted mask :
  col ty m domain -> sum_list lens = m -> tile_ok T m codomain -> length mask = m ->
  exists domain' codomain', retain_keys (TileDataFunction (run_starts 0 lens) domain codomain pred deleted) mask
      = Some (TileDataFunction (run_starts 0 (map length (kept_runs mask lens))) domain' codomain' pred (moved_bits deleted (kept mask))) /\
    retain_rows codomain mask = Some codomain' /\ selection ty domain (kept mask) domain' /\ gathers T codomain (kept mask) codomain'.
Proof.
  intros Hc Hm HT Hl. subst m. simpl. rewrite (col_len _ _ _ Hc), length_run_starts. simpl.
  assert (Hcount : mapM (fun row => run ← level_run (run_starts 0 lens) row (sum_list lens); bits ← mapM (fun k => mask !! k) (range run);
      Some (countb id bits)) (seq 0 (length lens)) = Some (map length (kept_runs mask lens))).
  { apply mapM_Some. unfold kept_runs. rewrite map_map. apply Forall2_fmap_r, Forall_Forall2_diag.
    apply Forall_forall. intros r Hr%elem_of_seq. rewrite level_run_starts by (done || lia). simpl.
    destruct (lookup_lt_is_Some_2 lens r) as [x Hx]; [lia|]. rewrite (run_range lens r x Hx).
    assert (E : seq (sum_list (take r lens)) x = run_keys lens r) by (unfold run_keys; by rewrite (nth_lookup_Some _ _ _ _ Hx)). rewrite E.
    destruct (mask_bits mask (run_keys lens r)) as (bits & -> & Hb); [|simpl; by rewrite Hb].
    apply Forall_forall. intros k Hk. rewrite Hl. eapply run_keys_lt; [|done]. lia. }
  rewrite Hcount. simpl.
  assert (mapM (fun k => mask !! k) (seq 0 (sum_list lens)) = Some mask) as -> by (rewrite <- Hl; apply mapM_lookup_seq). simpl.
  assert (Hk : Forall (fun k => k < sum_list lens) (kept mask)) by (rewrite <- Hl; apply kept_lt).
  destruct (select_ok domain ty _ (kept mask) Hc Hk) as (domain' & -> & Hsel).
  destruct (select_rows_ok codomain T _ (kept mask) HT Hk) as (codomain' & E & Hgat). rewrite <- Hl in HT.
  rewrite (retain_rows_select codomain T mask HT), E. simpl. exists domain', codomain'. done.
Qed.

(** The tile a mask over the keys leaves, row by row. *)
Lemma retain_keys_rows ty T m lens domain codomain pred deleted mask :
  col ty m domain -> sum_list lens = m -> tile_ok T m codomain -> length mask = m ->
  exists t', retain_keys (TileDataFunction (run_starts 0 lens) domain codomain pred deleted) mask = Some t' /\
    tile_ok (TDataFunction ty T) (length lens) t' /\
    forall r, r < length lens -> row_of t' r = RColl (entries domain codomain deleted (List.filter (masks mask) (run_keys lens r))).
Proof.
  intros Hc Hm HT Hl. destruct (retain_keys_ok ty T m lens domain codomain pred deleted mask Hc Hm HT Hl) as (d & c & E & _ & Hsel & Hgat).
  eexists. split; [exact E|]. rewrite <- (concat_kept_runs mask lens) in * by lia.
  destruct (rebuilt_ok ty T domain codomain pred deleted (kept_runs mask lens) d c Hsel Hgat) as [Hok Hrow].
  unfold kept_runs in Hok at 1. rewrite length_map, length_seq in Hok. split; [done|]. intros r Hr. apply Hrow. unfold kept_runs.
  rewrite list_lookup_fmap, lookup_seq_lt by done. done.
Qed.

(** ** Compaction *)

Lemma height_select t rows_ t' : select_rows t rows_ = Some t' -> height t' = height t.
Proof.
  revert rows_ t'. induction t as [cv|fields absent IH|starts domain codomain pred deleted IH|kind acc terminal IH|st se de fr te cl H1 H2 H3 H4] using tile_ind;
    intros rows_ t'.
  - simpl. destruct (col_is_empty cv) as [[]|]; simpl; [intros [= <-]; done| |done].
    destruct (select_indices cv rows_); simpl; [|done]. by intros [= <-].
  - cbn [select_rows]. destruct (record_rows fields absent) as [total|]; [|done]. simpl.
    destruct (mapM _ fields) as [fields'|] eqn:E; [|done]. simpl. intros [= <-]. simpl. f_equal. f_equal. rewrite map_map.
    apply mapM_Some in E. induction E as [|[k f] [k' [t g]] fields fields' Ef _ IHf]; [done|]. apply Forall_cons in IH as [IHc IH].
    simpl. rewrite IHf by done. f_equal. simpl in Ef.
    destruct (select_field _ total absent rows_ k f) as [[t2 g2]|] eqn:Es; [|done]. simpl in Ef. simplify_eq.
    unfold select_field in Es. destruct (absent !! k') as [missing|].
    + destruct f; try done. destruct (select_cells total missing cv rows_) as [[c2 gone]|]; [|done]. simpl in Es. by simplify_eq.
    + destruct (select_rows f rows_) as [t2|] eqn:Et; [|done]. simpl in Es. simplify_eq. by eapply IHc.
  - cbn [select_rows]. unfold regroup_with. destruct (len domain) as [n|]; [|done]. simpl.
    destruct (mapM _ (map _ rows_)) as [runs|]; [|done]. simpl. destruct (select_indices domain _); [|done]. simpl.
    destruct (select_rows codomain _) as [c2|] eqn:Ec; [|done]. simpl. intros [= <-]. simpl. f_equal. by eapply IH.
  - simpl. destruct (select_rows acc rows_) as [a2|] eqn:Ea; [|done]. simpl. destruct (select_indices terminal rows_); [|done].
    intros [= <-]. simpl. f_equal. by eapply IH.
  - cbn [select_rows]. destruct (select_rows st rows_) as [st2|] eqn:E1; [|done]. simpl.
    destruct (select_rows se rows_) as [se2|] eqn:E2; [|done]. simpl. destruct (select_rows de rows_) as [de2|] eqn:E3; [|done]. simpl.
    destruct (select_rows fr rows_) as [fr2|] eqn:E4; [|done]. intros [= <-]. simpl.
    by rewrite (H1 _ _ E1), (H2 _ _ E2), (H3 _ _ E3), (H4 _ _ E4).
Qed.
(** What compaction leaves of a row: the entries that are not removed, at every level. *)
Fixpoint prune (v : RowVal) : RowVal :=
  match v with
  | RColl entries =>
      RColl ((fix go entries := match entries with
        | [] => []
        | (k, deleted, v) :: entries => if (deleted : bool) then go entries else (k, false, prune v) :: go entries
        end) entries)
  | RRecord fields => RRecord (map (fun '(k, v) => (k, prune v)) fields)
  | RAgg kind acc terminal => RAgg kind (prune acc) terminal
  | RCell _ | RStore _ _ _ _ _ _ => v
  end.

Lemma prune_entries domain codomain deleted ks :
  prune (RColl (entries domain codomain deleted ks))
  = RColl (map (fun k => (index_at domain k, false, prune (row_of codomain k))) (List.filter (present deleted) ks)).
Proof.
  simpl. f_equal. induction ks as [|k ks IH]; [done|]. simpl. unfold present at 1. destruct (bool_decide (k ∈ deleted)); simpl; by rewrite IH.
Qed.

Definition compacts (fuel : nat) : Prop :=
  forall t T n, height t <= fuel -> tile_ok T n t ->
    exists t', compact_at fuel t = Some t' /\ tile_ok T n t' /\ holds_deleted_rows t' = false /\
      forall r, r < n -> row_of t' r = prune (row_of t r).

Lemma moved_empty picked : moved_bits ∅ picked = ∅.
Proof. apply set_eq. intros j. rewrite elem_of_moved. set_solver. Qed.

(** A collection with no removed key whose values are compacted. *)
Lemma compact_values ty T n starts domain codomain codomain' pred m :
  col ty m domain -> csr n m starts -> tile_ok T m codomain' -> (forall k, k < m -> row_of codomain' k = prune (row_of codomain k)) ->
  tile_ok (TDataFunction ty T) n (TileDataFunction starts domain codomain' pred ∅) /\
  forall r, r < n -> row_of (TileDataFunction starts domain codomain' pred ∅) r
    = prune (row_of (TileDataFunction starts domain codomain pred ∅) r).
Proof.
  intros Hc Hcsr HT' Hrow. split.
  - exists m. split; [done|]. split; [done|]. split; [set_solver|done].
  - destruct Hcsr as (lens & -> & <- & Hm). intros r Hr. destruct (lookup_lt_is_Some_2 lens r Hr) as [x Hx].
    rewrite !(row_of_function lens domain _ pred ∅ ty m r x), prune_entries by done. f_equal.
    rewrite (List.forallb_filter_id (present ∅)) by (apply forallb_forall; intros; apply present_true; set_solver).
    unfold entries. apply map_ext_in. intros k Hk%list_elem_of_In. rewrite bool_decide_false by set_solver.
    f_equal. apply Hrow. rewrite <- Hm. by eapply run_lt.
Qed.

(** Dropping the removed keys of one level. *)
Lemma drop_removed ty T m lens domain codomain pred deleted :
  col ty m domain -> sum_list lens = m -> tile_ok T m codomain ->
  exists m' starts domain' codomain', retain_keys (TileDataFunction (run_starts 0 lens) domain codomain pred ∅)
      (map (fun k => negb (bool_decide (k ∈ deleted))) (seq 0 m)) = Some (TileDataFunction starts domain' codomain' pred ∅) /\
    col ty m' domain' /\ csr (length lens) m' starts /\ tile_ok T m' codomain' /\ height codomain' = height codomain /\
    forall r, r < length lens -> prune (row_of (TileDataFunction starts domain' codomain' pred ∅) r)
      = prune (row_of (TileDataFunction (run_starts 0 lens) domain codomain pred deleted) r).
Proof.
  intros Hc Hm HT. set (mask := map _ (seq 0 m)). assert (Hl : length mask = m) by (subst mask; by rewrite length_map, length_seq).
  destruct (retain_keys_ok ty T m lens domain codomain pred ∅ mask Hc Hm HT Hl) as (d & c & E & Er & Hsel & Hgat). rewrite moved_empty in E.
  rewrite <- (concat_kept_runs mask lens) in Hsel, Hgat by lia. exists (length (concat (kept_runs mask lens))). do 3 eexists. split; [exact E|].
  split; [apply Hsel|]. split.
  { exists (map length (kept_runs mask lens)). split; [done|]. split; [unfold kept_runs; by rewrite !length_map, length_seq|by rewrite length_concat]. }
  split; [apply Hgat|]. split.
  { rewrite <- Hl in HT. rewrite (retain_rows_select codomain T mask HT) in Er. by eapply height_select. }
  destruct (rebuilt_ok ty T domain codomain pred ∅ (kept_runs mask lens) d c Hsel Hgat) as [_ Hrow]. rewrite moved_empty in Hrow.
  intros r Hr. rewrite (Hrow r (List.filter (masks mask) (run_keys lens r)))
    by (unfold kept_runs; by rewrite list_lookup_fmap, lookup_seq_lt by done).
  destruct (lookup_lt_is_Some_2 lens r Hr) as [x Hx]. rewrite (row_of_function lens domain codomain pred deleted ty m r x), !prune_entries by done.
  f_equal. f_equal. rewrite (List.forallb_filter_id (present ∅)) by (apply forallb_forall; intros; apply present_true; set_solver).
  unfold run_keys. rewrite (nth_lookup_Some _ _ _ _ Hx). apply List.filter_ext_in. intros k Hk%list_elem_of_In.
  assert (k < m) by (rewrite <- Hm; by eapply run_lt). unfold masks, mask. rewrite list_lookup_fmap, lookup_seq_lt by done. done.
Qed.

Lemma compact_function fuel ty T n starts domain codomain pred deleted :
  compacts fuel -> height codomain <= fuel -> tile_ok (TDataFunction ty T) n (TileDataFunction starts domain codomain pred deleted) ->
  exists t', compact_at (S fuel) (TileDataFunction starts domain codomain pred deleted) = Some t' /\
    tile_ok (TDataFunction ty T) n t' /\ holds_deleted_rows t' = false /\
    forall r, r < n -> row_of t' r = prune (row_of (TileDataFunction starts domain codomain pred deleted) r).
Proof.
  intros IH Hh (m & Hc & Hcsr & Hd & HT). cbn [compact_at]. destruct (decide (deleted = ∅)) as [->|Hne].
  - cbn [mbind option_bind]. destruct (IH codomain T m Hh HT) as (c' & -> & HT' & Hdel & Hrow). cbn [mbind option_bind].
    eexists. split; [done|]. destruct (compact_values ty T n starts domain codomain c' pred m Hc Hcsr HT' Hrow) as [Hok Hrows].
    split; [done|]. split; [|done]. simpl. by rewrite bool_decide_true.
  - rewrite (col_len _ _ _ Hc). cbn [mbind option_bind]. destruct Hcsr as (lens & -> & <- & Hm).
    destruct (drop_removed ty T m lens domain codomain pred deleted Hc Hm HT) as (m' & st & d & c & -> & Hd' & Hcsr' & HTc & Hhc & Hr1).
    cbn [mbind option_bind]. destruct (IH c T m') as (c' & -> & HT' & Hdel & Hrow); [lia|done|]. cbn [mbind option_bind].
    eexists. split; [done|]. destruct (compact_values ty T _ st d c c' pred m' Hd' Hcsr' HT' Hrow) as [Hok Hrows].
    split; [done|]. split; [simpl; by rewrite bool_decide_true|]. intros r Hr. by rewrite Hrows, Hr1.
Qed.

Lemma compact_ok fuel : compacts fuel.
Proof.
  induction fuel as [|fuel IH]; intros t T n Hh Hok; [destruct t; simpl in Hh; lia|].
  destruct t as [cv|fields absent|starts domain codomain pred deleted|kind acc terminal|st se de fr te cl]; simpl in Hh.
  - eexists. split; [done|]. by split.
  - apply tile_ok_record in Hok as (ts & -> & Hnd & Hsub & H).
    assert (Hf : exists fields', mapM (fun '(k, f) => f ← compact_at fuel f; Some (k, f)) fields = Some fields' /\
      Forall2 (field_ok n absent) fields' ts /\ forallb (fun '(_, t) => negb (holds_deleted_rows t)) fields' = true /\
      forall r, r < n -> map (fun kf => (kf.1, field_row absent kf r)) fields' = map (fun kf => (kf.1, prune (field_row absent kf r))) fields).
    { clear Hnd Hsub. induction H as [|[k f] [k' U] fields ts [E Hf] _ IHf]; [by exists []|]. simpl in Hh.
      destruct IHf as (fields' & Ef & H1 & H2 & H3); [lia|]. simpl in E, Hf. subst k'.
      assert (exists f', compact_at fuel f = Some f' /\ field_ok n absent (k, f') (k, U) /\ holds_deleted_rows f' = false /\
        forall r, r < n -> field_row absent (k, f') r = prune (field_row absent (k, f) r)) as (f' & Ef' & Hf' & Hd & Hr).
      { unfold field_ok, field_row. simpl. destruct (absent !! k) as [missing|].
        - destruct Hf as (? & ? & cells & ty & -> & -> & Hcol). exists (TileScalar cells). destruct fuel; [simpl in Hh; lia|].
          split; [done|]. split; [|done]. split; [done|]. split; [done|]. split; [done|]. eauto.
        - destruct (IH f U n) as (f' & Ef' & ? & ? & Hr); [lia|done|]. exists f'. split; [done|]. split; [done|]. split; [done|].
          intros r Hr'. rewrite (Hr r Hr'). by destruct f'. }
      exists ((k, f') :: fields'). simpl. rewrite Ef'. simpl. rewrite Ef. split; [done|]. split; [by constructor|].
      split; [by rewrite Hd|]. intros r Hr'. by rewrite (Hr r Hr'), (H3 r Hr'). }
    destruct Hf as (fields' & Ef & H1 & H2 & H3). exists (TileRecord fields' absent). cbn [compact_at]. rewrite Ef. split; [done|].
    split; [apply tile_ok_record; by exists ts|]. split.
    + simpl. clear -H2. induction fields' as [|[k f] fields' IHf]; [done|]. simpl in *. by destruct (holds_deleted_rows f); [|apply IHf].
    + intros r Hr. rewrite !row_of_record, (H3 r Hr). simpl. f_equal. rewrite map_map. done.
  - destruct T as [| |ty T| |]; try done. apply compact_function; [done|lia|done].
  - destruct T as [| | |k T|]; try done. destruct Hok as (-> & Ha & Ht). destruct (IH acc T n) as (a' & Ea & Ha' & Hd & Hr); [lia|done|].
    exists (TileAggregation k a' terminal). cbn [compact_at]. rewrite Ea. split; [done|]. split; [done|]. split; [done|].
    intros r Hr'. simpl. by rewrite (Hr r Hr').
  - eexists. split; [done|]. by split.
Qed.
End TileFacts.
