(* ===== verification/TileStores.v ===== *)
(** * Building tiles and reading stores ([src/interpreter/tiling/tile.rs], [tiling_kind.rs])

    The tiles built from flat columns, the empty tile of a tiling, the parts of a store that
    a reader asks for, and the predicates of every level mapped in place.  Watermarks are the
    positions a store's rows are decided through. *)

From Stdlib Require Import List.
From stdpp Require Import gmap.
From S2P Require Import Prelude Predicate PredicatePaths Guards Values Columns Tiles.
Set Warnings "-register-all".

Section TileStores.
Context {KS : KeySets Scalar}.
Abbreviation Predicate := (Predicate Scalar).

(** [Tile::grouped] and [Tile::data_function], over one row. *)
Definition grouped (row_starts : list nat) (domain : ColumnValue) (codomain : Tile) (domain_predicate : Predicate)
    (deleted : gset nat) : Tile := TileDataFunction row_starts domain codomain domain_predicate deleted.

Definition data_function (domain : ColumnValue) (codomain : Tile) (domain_predicate : Predicate) (deleted : gset nat) : Tile :=
  grouped [0] domain codomain domain_predicate deleted.

(** [nest_levels]: the levels from the innermost out, each but the first under the starts of
    the level above it. *)
Fixpoint nest_rest (starts : list (list nat)) (levels : list ColumnValue) (innermost : Tile) : option Tile :=
  match starts, levels with
  | [], [] => Some innermost
  | start :: starts, keys :: levels =>
      built ← nest_rest starts levels innermost; Some (grouped start keys built PFalse ∅)
  | _, _ => None
  end.

Definition nest_levels (levels : list ColumnValue) (starts : list (list nat)) (innermost : Tile)
    (domain_predicate : Predicate) : option Tile :=
  match levels with
  | [] => None
  | keys :: levels => built ← nest_rest starts levels innermost; Some (data_function keys built domain_predicate ∅)
  end.

(** [store_frontier_rows]: a run of one position, or of none, per row. *)
Definition store_frontier_rows (watermarks : list (option Value)) (domain : Extent) (complete : Predicate) : option Tile :=
  let positions := omap id watermarks in
  keys ← from_values domain positions;
  Some (grouped (run_starts 0 (map (fun w => match w with Some _ => 1 | None => 0 end) watermarks)) keys
    (TileScalar (Units (length positions))) complete ∅).

(** [row_watermark]: [Some None] for a row decided through nothing. *)
Definition row_watermark (frontier : Tile) (row : nat) : option (option Value) :=
  match frontier with
  | TileDataFunction _ domain _ _ _ =>
      '(start, stop) ← row_run frontier row;
      if start <? stop then v ← index_at domain start; Some (Some v) else Some None
  | _ => None
  end.

(** [empty_at_rows], [empty_tile] and [empty_at_no_rows].  A store's state is the tiling
    [store_state] gives, one changelog per key. *)
Fixpoint empty_at_rows (t : Tiling Extent) (rows : nat) : option Tile :=
  match t with
  | TScalar e => c ← from_values e []; Some (TileScalar c)
  | TRecord m => fields ← mapM (fun '(k, t) => t ← empty_at_rows t rows; Some (k, t)) m; Some (tile_record fields)
  | TDataFunction domain codomain =>
      keys ← from_values domain [];
      codomain ← empty_at_rows codomain 0;
      Some (grouped (replicate rows 0) keys codomain PFalse ∅)
  | TAggregation kind accumulator =>
      accumulator ← empty_at_rows accumulator 0; Some (TileAggregation kind accumulator (Bools []))
  | TStore domain codomain =>
      keys ← from_values domain [];
      state ← (match codomain with
        | TRecord values =>
            logs ← mapM (fun '(k, t) => t ← empty_at_rows t 0; Some (k, grouped (replicate rows 0) keys t PFalse ∅)) values;
            Some (tile_record logs)
        | _ => None
        end);
      seed ← empty_at_rows codomain rows;
      frontier ← store_frontier_rows (replicate rows None) domain PFalse;
      Some (TileStore state seed (grouped (replicate rows 0) keys (TileScalar (Units 0)) PFalse ∅) frontier false [])
  end.

Definition empty_tile (t : Tiling Extent) : option Tile := empty_at_rows t 1.
Definition empty_at_no_rows (t : Tiling Extent) : option Tile := empty_at_rows t 0.

(** ** Reading a store *)

(** [store_state] of a tile and [store_keys]. *)
Definition store_state_of (t : Tile) : option (list (string * Tile)) :=
  match t with TileStore (TileRecord keys _) _ _ _ _ _ => Some keys | _ => None end.

Definition store_keys (t : Tile) : option (list string) := map fst <$> store_state_of t.

(** [store_changelog]: [Some None] for a key outside the key space. *)
Definition store_changelog (t : Tile) (key : string) : option (option (ColumnValue * Tile)) :=
  keys ← store_state_of t;
  match assoc key keys with
  | None => Some None
  | Some (TileDataFunction _ domain codomain _ _) => Some (Some (domain, codomain))
  | Some _ => None
  end.

(** [store_seed]: [Some None] for a tile that is no store, a key outside the key space or one
    the seed omits. *)
Definition store_seed (t : Tile) (key : string) : option (option ColumnValue) :=
  match t with
  | TileStore _ seed _ _ _ _ =>
      match seed with
      | TileRecord keys _ =>
          match assoc key keys with
          | None => Some None
          | Some (TileScalar column) => e ← col_is_empty column; Some (if (e : bool) then None else Some column)
          | Some _ => None
          end
      | _ => None
      end
  | _ => Some None
  end.

(** ** The predicates of the levels *)

(** [map_level_predicates]. *)
Fixpoint map_predicates_at (f : nat -> Predicate -> option Predicate) (t : Tile) (depth : nat) : option Tile :=
  match t with
  | TileDataFunction starts domain codomain pred deleted =>
      pred ← f depth pred;
      codomain ← map_predicates_at f codomain (S depth);
      Some (TileDataFunction starts domain codomain pred deleted)
  | TileRecord fields absent =>
      fields ← mapM (fun '(k, t) => t ← map_predicates_at f t depth; Some (k, t)) fields; Some (TileRecord fields absent)
  | other => Some other
  end.

Definition map_level_predicates (f : nat -> Predicate -> option Predicate) (t : Tile) : option Tile :=
  map_predicates_at f t 0.

(** [completion_at], over the levels above: what the level above states holds of all beneath. *)
Fixpoint completion_from (fuel : nat) (t : Tile) (above : option Predicate) (level : nat) : option Predicate :=
  match t with
  | TileDataFunction _ _ codomain pred _ =>
      complete ← (match above with None => Some pred | Some above => union_of fuel (descend above 1) pred end);
      match level with O => Some complete | S level => completion_from fuel codomain (Some complete) level end
  | _ => None
  end.

Definition completion_at (fuel : nat) (t : Tile) (level : nat) : option Predicate := completion_from fuel t None level.

(** [drop_covered_completion]: [states_a_qualified] and then the walk. *)
Fixpoint states_a_qualified (t : Tile) : bool :=
  match t with
  | TileDataFunction _ _ codomain pred _ => qualifies pred || states_a_qualified codomain
  | TileRecord fields _ => existsb (fun '(_, t) => states_a_qualified t) fields
  | _ => false
  end.

Fixpoint drop_walk (fuel : nat) (t : Tile) (above : list Predicate) : option Tile :=
  match t with
  | TileDataFunction starts domain codomain pred deleted =>
      kept ← without_covered fuel pred above;
      let pred := default pred kept in
      codomain ← drop_walk fuel codomain (above ++ [pred]);
      Some (TileDataFunction starts domain codomain pred deleted)
  | TileRecord fields absent =>
      fields ← mapM (fun '(k, t) => t ← drop_walk fuel t above; Some (k, t)) fields; Some (TileRecord fields absent)
  | other => Some other
  end.

Definition drop_covered_completion (fuel : nat) (t : Tile) : option Tile :=
  if states_a_qualified t then drop_walk fuel t [] else Some t.
End TileStores.
