(* ===== verification/TileValid.v ===== *)
(** * Validity of tiles ([src/interpreter/tiling/tile.rs])

    [validate_tile] checks the row counts a tile states, that the keys of a row are distinct, and
    that no column is missing under a key called complete.  Debug builds assert it after a merge.
    [pf] is the fuel of the predicates.  A panic is [None]. *)

From Stdlib Require Import List.
From stdpp Require Import gmap.
From S2P Require Import Prelude Predicate PredicatePaths Guards Values Columns Tiles TileStores.
Set Warnings "-register-all".

Section TileValid.
Context {KS : KeySets Scalar}.
Abbreviation Predicate := (Predicate Scalar).

Fixpoint nondecreasing (l : list nat) : bool :=
  match l with x :: ((y :: _) as rest) => (x <=? y) && nondecreasing rest | _ => true end.

(** A run per row, from 0 on, not decreasing and inside the keys. *)
Definition starts_ok (starts : list nat) (rows width : nat) : bool :=
  (length starts =? rows) && match head starts with Some s => s =? 0 | None => true end && nondecreasing starts &&
  match last starts with Some s => s <=? width | None => true end.

(** The keys of a run are distinct. *)
Definition run_distinct (starts : list nat) (keys : list Value) (row : nat) : option bool :=
  '(from, to) ← level_run starts row (length keys);
  run ← slice_vec keys from to;
  Some (bool_decide (NoDup run)).

(** The positions of each row ascend. *)
Definition ascends_in_row (log : Tile) (row : nat) : option bool :=
  match log with
  | TileDataFunction _ domain _ _ _ =>
      '(from, to) ← row_run log row;
      allM (fun i =>
        a ← index_at domain (i - 1); b ← index_at domain i;
        o ← compare_positions a b; Some (match o with Lt => true | _ => false end)) (seq (from + 1) (to - (from + 1)))
  | _ => Some false
  end.

Definition ascends_per_row (log : Tile) (rows : nat) : option bool :=
  match log with TileDataFunction _ _ _ _ _ => allM (ascends_in_row log) (seq 0 rows) | _ => Some false end.

(** A row is decided through one watermark or none, and its positions lie at or below it. *)
Definition within_frontier (frontier decided : Tile) (row : nat) : option bool :=
  '(from, to) ← row_run frontier row;
  match frontier with
  | TileDataFunction _ watermarks _ _ _ =>
      '(start, stop) ← row_run decided row;
      match decided with
      | TileDataFunction _ positions _ _ _ =>
          match to - from with
          | 0 => Some (start =? stop)
          | 1 =>
              w ← index_at watermarks from;
              allM (fun i => p ← index_at positions i; o ← compare_positions p w; Some (match o with Gt => false | _ => true end))
                (seq start (stop - start))
          | _ => Some false
          end
      | _ => Some false
      end
  | _ => Some false
  end.

(** [valid_over_settled]; a store's parts are checked with nothing known above. *)
Fixpoint valid_over_settled (pf : nat) (t : Tile) (rows_ : nat) (row_paths : option (list (list Value))) (above : Predicate)
    (settled : list bool) {struct t} : option bool :=
  match t with
  | TileScalar cv =>
      n ← len cv; Some (if n =? 0 then negb (existsb id settled) || (rows_ =? 0) else n =? rows_)
  | TileRecord fields absent =>
      allM (fun '(name, t) =>
        match absent !! name with
        | Some missing =>
            n ← rows t; Some ((n + size missing =? rows_) && bool_decide (set_Forall (fun r => r < rows_) missing))
        | None => valid_over_settled pf t rows_ row_paths above settled
        end) fields
  | TileDataFunction starts domain codomain domain_predicate deleted =>
      n ← len domain;
      if negb (starts_ok starts rows_ n) then Some false
      else if negb (bool_decide (set_Forall (fun i => i < n) deleted)) then Some false
      else
        all_ ← drain_to_value_iter domain;
        unique ← allM (run_distinct starts all_) (seq 0 rows_);
        if negb unique then Some false
        else
          key_paths ← (match row_paths with None => Some None | Some paths => p ← key_paths t paths; Some (Some p) end);
          '(settled, complete) ← (match key_paths with
            | Some paths =>
                complete ← union_of pf (descend above 1) domain_predicate;
                settled ← mapM (contains_path complete) paths; Some (settled, complete)
            | None =>
                settled ← mapM (fun key =>
                  if qualifies domain_predicate then Some false else v ← index_at domain key; contains domain_predicate v) (seq 0 n);
                Some (settled, PFalse)
            end);
          valid_over_settled pf codomain n key_paths complete settled
  | TileAggregation _ accumulator terminal =>
      n ← rows accumulator; m ← len terminal;
      if negb (n =? m) then Some false
      else
        empty ← tile_is_empty accumulator;
        if (empty : bool) then Some (negb (existsb id settled) || (rows_ =? 0))
        else if negb (n =? rows_) then Some false
        else allM (fun '(r, s) => if (s : bool) then v ← index_at terminal r; Some (bool_decide (v = VKey (SBool true))) else Some true) (imap pair settled)
  | TileStore state seed decided frontier _ _ =>
      match state with
      | TileRecord keys _ =>
          let over := fun t => valid_over_settled pf t rows_ (if rows_ =? 1 then Some [[]] else None) PFalse [] in
          a ← ascends_per_row decided rows_;
          if negb a then Some false else
          b ← over state; if negb b then Some false else
          c ← over seed; if negb c then Some false else
          d ← over decided; if negb d then Some false else
          e ← over frontier; if negb e then Some false else
          f ← allM (within_frontier frontier decided) (seq 0 rows_); if negb f then Some false else
          allM (fun '(_, log) => ascends_per_row log rows_) keys
      | _ => Some false
      end
  end.

(** [valid_over] and [validate_tile]. *)
Definition valid_over (pf : nat) (t : Tile) (rows_ : nat) : option bool :=
  valid_over_settled pf t rows_ (if rows_ =? 1 then Some [[]] else None) PFalse [].

Fixpoint validate_tile (pf : nat) (t : Tile) : option bool :=
  match t with
  | TileScalar _ => Some true
  | TileRecord fields _ => allM (fun '(_, t) => validate_tile pf t) fields
  | TileAggregation _ accumulator terminal => n ← rows accumulator; m ← len terminal; Some (n =? m)
  | TileDataFunction starts _ _ _ _ => valid_over pf t (length starts)
  | TileStore _ _ _ _ _ _ => valid_over pf t 1
  end.
End TileValid.
