(* ===== verification/Aggregates.v ===== *)
(** * Aggregates ([src/ccl/aggregate.rs])

    How an aggregate folds rows into its accumulator: the identity it starts from, the fold
    of a batch in place, and what counts as no value yet.  Appending one tile's rows to
    another's is an argument, which [TileMerges] supplies; a panic is [None], and [checks] is
    the build profile's overflow rule, as in [ScalarOps]. *)

From Stdlib Require Import ZArith List.
From stdpp Require Import gmap.
From S2P Require Import Prelude Predicate ScalarOps Guards Values Columns ColumnOps Tiles TileStores.
Set Warnings "-register-all".

(** [is_partial]. *)
Definition is_partial (kind : AggregateKind) : bool :=
  match kind with Sum | Max | Min | Drain => false | Sole => true end.

(** [output_extent]: the extent of an extreme, where it has one, is that of its elements, so a
    record's fields are kept where each has one. *)
Fixpoint output_extent (kind : AggregateKind) (input : Extent) : option Extent :=
  match kind, input with
  | Sum, EBase BInt => Some (EBase BInt)
  | (Max | Min), EBase b => Some (EBase b)
  | (Max | Min), ERecord fields =>
      if forallb (fun '(_, f) => match output_extent kind f with Some _ => true | None => false end) fields
      then Some input else None
  | Drain, _ => Some (EBase BUnit)
  | Sole, e => Some e
  | _, _ => None
  end.

(** [identity]: [Some None] where the fold has none, [None] where the pair has no meaning. *)
Fixpoint identity (kind : AggregateKind) (extent : Extent) : option (option ColumnValue) :=
  match kind, extent with
  | Sum, EBase BInt => Some (Some (Ints [0%Z]))
  | Max, EBase BInt => Some (Some (Ints [I64_MIN]))
  | Min, EBase BInt => Some (Some (Ints [I64_MAX]))
  | Max, EBase BUInt => Some (Some (UInts [0%Z]))
  | Min, EBase BUInt => Some (Some (UInts [U64_MAX]))
  | Max, EBase BString => Some (Some (Strings [EmptyString]))
  | Max, EBase BBool => Some (Some (Bools [false]))
  | Min, EBase BBool => Some (Some (Bools [true]))
  | (Max | Min), ERecord fields =>
      cs ← (fix go fields := match fields with
        | [] => Some (Some [])
        | (name, f) :: fields =>
            c ← identity kind f;
            match c with
            | None => Some None
            | Some c => rest ← go fields; Some (rest ← rest; Some ((name, c) :: rest))
            end
        end) fields;
      Some (cs ← cs; Some (Records cs))
  | Drain, EBase BUnit => Some (Some (Units 1))
  | Min, EBase BString => Some None
  | _, _ => None
  end.

(** ** Extremes of a batch *)

(** [Iterator::max] and [Iterator::min]: the last of the greatest, the first of the least. *)
Definition iter_max {T} (cmp : T -> T -> comparison) (l : list T) : option T :=
  match l with
  | [] => None
  | x :: l => Some (fold_left (fun m y => match cmp m y with Gt => m | _ => y end) l x)
  end.

Definition iter_min {T} (cmp : T -> T -> comparison) (l : list T) : option T :=
  match l with
  | [] => None
  | x :: l => Some (fold_left (fun m y => match cmp m y with Gt => y | _ => m end) l x)
  end.

Definition set_first {T} (acc : list T) (x : T) : option (list T) :=
  match acc with [] => None | _ :: acc => Some (x :: acc) end.

Definition accumulate_max {T} (cmp : T -> T -> comparison) (acc values : list T) : option (list T) :=
  match iter_max cmp values with
  | None => Some acc
  | Some max => held ← acc !! 0; match cmp max held with Gt => set_first acc max | _ => Some acc end
  end.

Definition accumulate_min {T} (cmp : T -> T -> comparison) (acc values : list T) : option (list T) :=
  match iter_min cmp values with
  | None => Some acc
  | Some min => held ← acc !! 0; match cmp min held with Lt => set_first acc min | _ => Some acc end
  end.

(** [Iterator::sum] of [i64]s. *)
Definition iter_sum (checks : bool) (l : list Z) : option Z :=
  fold_left (fun s x => s ← s; @checked i64_elem checks (s + x)%Z) l (Some 0%Z).

(** The row of a batch that lies beyond the one held, if any. *)
Fixpoint chosen_row (beyond : comparison) (vs : ColumnValue) (rows : list nat) (held : Value) (chosen : option nat) :
    option (option nat) :=
  match rows with
  | [] => Some chosen
  | i :: rows =>
      v ← index_at vs i;
      o ← compare_values v held;
      if bool_decide (o = Some beyond) then chosen_row beyond vs rows v (Some i)
      else chosen_row beyond vs rows held chosen
  end.

(** The fold of the rows [start..end] of a column into a column. *)
Definition accumulate_column (checks : bool) (kind : AggregateKind) (acc vs : ColumnValue) (start stop : nat) :
    option ColumnValue :=
  let rows := seq start (stop - start) in
  match kind, acc, vs with
  | Sum, Ints acc, Ints vs =>
      vs ← slice_vec vs start stop;
      total ← iter_sum checks vs;
      held ← acc !! 0;
      sum ← @checked i64_elem checks (held + total)%Z;
      Ints <$> set_first acc sum
  | Max, Ints acc, Ints vs => vs ← slice_vec vs start stop; Ints <$> accumulate_max Z.compare acc vs
  | Max, UInts acc, UInts vs => vs ← slice_vec vs start stop; UInts <$> accumulate_max Z.compare acc vs
  | Max, Strings acc, Strings vs => vs ← slice_vec vs start stop; Strings <$> accumulate_max String.compare acc vs
  | Max, Bools acc, Bools vs =>
      any ← anyM (fun i => vs !! i) rows; if (any : bool) then Bools <$> set_first acc true else Some (Bools acc)
  | Min, Ints acc, Ints vs => vs ← slice_vec vs start stop; Ints <$> accumulate_min Z.compare acc vs
  | Min, UInts acc, UInts vs => vs ← slice_vec vs start stop; UInts <$> accumulate_min Z.compare acc vs
  | Min, Strings acc, Strings vs => vs ← slice_vec vs start stop; Strings <$> accumulate_min String.compare acc vs
  | Min, Bools acc, Bools vs =>
      any ← anyM (fun i => b ← vs !! i; Some (negb b)) rows;
      if (any : bool) then Bools <$> set_first acc false else Some (Bools acc)
  | (Max | Min), Records _, Records _ =>
      let beyond := match kind with Max => Gt | _ => Lt end in
      held ← index_at acc 0;
      chosen ← chosen_row beyond vs rows held None;
      match chosen with Some i => select_indices vs [i] | None => Some acc end
  | Drain, Units _, _ => Some acc
  | _, _, _ => None
  end.

Section Aggregates.
Context {KS : KeySets Scalar}.

(** [as_column]. *)
Fixpoint as_column (t : Tile) : option ColumnValue :=
  match t with
  | TileScalar column => Some column
  | TileRecord fields absent =>
      if bool_decide (map_Forall (fun _ (a : gset nat) => a = ∅) absent) then
        cs ← mapM (fun '(name, field) => c ← as_column field; Some (name, c)) fields; Some (Records cs)
      else None
  | _ => None
  end.

(** [accumulate]. *)
Definition accumulate (merge_rows : Tile -> Tile -> option Tile) (checks : bool) (kind : AggregateKind)
    (accumulator values : Tile) (start stop : nat) : option Tile :=
  match kind with
  | Sole =>
      if stop <? start then None
      else
        let incoming := stop - start in
        held ← rows accumulator;
        if 1 <? held + incoming then None
        else if 0 <? incoming then
          picked ← select_rows values (seq start incoming); merge_rows accumulator picked
        else Some accumulator
  | _ =>
      if start =? stop then Some accumulator
      else
        values ← as_column values;
        match accumulator with
        | TileScalar acc =>
            e ← col_is_empty acc;
            c ← (if (e : bool) then
                   acc ← select_indices values [start]; accumulate_column checks kind acc values (S start) stop
                 else accumulate_column checks kind acc values start stop);
            Some (TileScalar c)
        | _ => None
        end
  end.

(** [extract]: the accumulator is the value, of the columns a fold can leave. *)
Definition extract (kind : AggregateKind) (accumulator : Tile) : option Tile :=
  match kind, accumulator with
  | Sole, _ => Some accumulator
  | Sum, TileScalar (Ints _)
  | (Max | Min), TileScalar (Ints _ | UInts _ | Strings _ | Bools _ | Records _)
  | Drain, TileScalar (Units _) => Some accumulator
  | _, _ => None
  end.

(** ** What a fold starts from *)

(** [Tiling::extent]. *)
Fixpoint tiling_extent (t : Tiling Extent) : Extent :=
  match t with
  | TScalar e => e
  | TRecord m => ERecord (map (fun '(k, t) => (k, tiling_extent t)) m)
  | TStore domain codomain | TDataFunction domain codomain => EFunction domain (tiling_extent codomain)
  | TAggregation _ accumulator => tiling_extent accumulator
  end.

(** [output_tiling]. *)
Definition output_tiling (kind : AggregateKind) (input : Tiling Extent) : option (Tiling Extent) :=
  match kind with
  | Sole => Some input
  | _ => TScalar <$> output_extent kind (tiling_extent input)
  end.

(** [seed]. *)
Definition seed (kind : AggregateKind) (accumulator : Tiling Extent) : option Tile :=
  if is_partial kind then empty_at_no_rows accumulator
  else
    let extent := tiling_extent accumulator in
    start ← identity kind extent;
    match start with
    | Some c => Some (TileScalar c)
    | None => c ← from_values extent []; Some (TileScalar c)
    end.

(** [initial_accumulator], with its two assertions. *)
Definition initial_accumulator (kind : AggregateKind) (accumulator : Tiling Extent) : option Tile :=
  seed ← seed kind accumulator;
  empty ← tile_is_empty seed;
  if is_partial kind && negb empty then None
  else if negb empty || is_partial kind then Some seed
  else
    start ← identity kind (tiling_extent accumulator);
    match start with None => Some seed | Some _ => None end.

(** [awaits_first_element]. *)
Definition awaits_first_element (kind : AggregateKind) (accumulator : Tile) : option bool :=
  n ← rows accumulator; Some (negb (is_partial kind) && (n =? 0)).
End Aggregates.
