(* ===== verification/TileMerges.v ===== *)
(** * Merging tiles ([src/interpreter/tiling/tile.rs])

    [merge] joins two deliveries of one value, a collection by its keys; [merge_rows] appends
    the rows of one tile to those of another.  Both are [merge_part], which is mutually
    recursive with [merged_rows] and not on a part of its arguments, so both take fuel for the
    depth of the tile; [pf] is the fuel of the predicates' unions, [checks] the build's
    overflow rule, and [debug] whether the build asserts that a merged whole is valid.  A panic
    is [None]. *)

From Stdlib Require Import ZArith List.
From stdpp Require Import gmap.
From S2P Require Import Prelude Predicate ScalarOps Guards Values Columns ColumnOps Tiles TileStores TileValid Aggregates.
Set Warnings "-register-all".

(** ** Equality *)

#[export] Instance aggregate_kind_eq_dec : EqDecision AggregateKind.
Proof. solve_decision. Defined.

(** [PartialEq] of columns; a union's arms are compared as a map. *)
Fixpoint column_eqb (a b : ColumnValue) : bool :=
  match a, b with
  | Units n, Units m => n =? m
  | Ints v, Ints w | UInts v, UInts w => bool_decide (v = w)
  | Strings v, Strings w => bool_decide (v = w)
  | Bools v, Bools w => bool_decide (v = w)
  | Variants v, Variants w => bool_decide (v = w)
  | FunctionBindings i o, FunctionBindings j p => column_eqb i j && column_eqb o p
  | Records f, Records g =>
      (length f =? length g) && forallb (fun '(k, c) => match assoc k g with Some d => column_eqb c d | None => false end) f
  | Union arms, Union arms' =>
      (length arms =? length arms') &&
      forallb (fun '(k, arm) => match assoc k arms' with
        | Some arm' => bool_decide (arm_rows arm = arm_rows arm') && column_eqb (arm_values arm) (arm_values arm')
        | None => false
        end) arms
  | _, _ => false
  end.

Section TileMerges.
Context {KS : KeySets Scalar}.
Abbreviation Predicate := (Predicate Scalar).

(** [PartialEq] of tiles. *)
Fixpoint tile_eqb (a b : Tile) : bool :=
  match a, b with
  | TileScalar c, TileScalar d => column_eqb c d
  | TileRecord f absent, TileRecord g absent' =>
      (length f =? length g) && forallb (fun '(k, t) => match assoc k g with Some u => tile_eqb t u | None => false end) f &&
      bool_decide (absent = absent')
  | TileDataFunction s d c p del, TileDataFunction s' d' c' p' del' =>
      bool_decide (s = s') && column_eqb d d' && tile_eqb c c' && pred_eqb p p' && bool_decide (del = del')
  | TileAggregation k a t, TileAggregation k' a' t' =>
      bool_decide (k = k') &&
      tile_eqb a a' && column_eqb t t'
  | TileStore a b c d t k, TileStore a' b' c' d' t' k' =>
      tile_eqb a a' && tile_eqb b b' && tile_eqb c c' && tile_eqb d d' && Bool.eqb t t' && bool_decide (k = k')
  | _, _ => false
  end.

(** ** Rows of a merge *)

Inductive RowSource :=
  | Left (i : nat)
  | Right (j : nat)
  | Both (i j : nat).

Definition is_both (s : RowSource) : bool := match s with Both _ _ => true | _ => false end.

(** [appended_absence]: the rows a field has no cell at once rows are appended to rows, [Some None]
    where it has one at each. *)
Definition not_arrived (field : Tile) (missing : option (gset nat)) : option bool :=
  match missing, field with
  | None, TileScalar cells => col_is_empty cells
  | _, _ => Some false
  end.

Definition side_absence (field : Tile) (missing : option (gset nat)) (rows : nat) : option (gset nat) :=
  n ← not_arrived field missing;
  Some (if (n : bool) then list_to_set (seq 0 rows) else default ∅ missing).

Definition shifted (by_ : nat) (X : gset nat) : gset nat := set_map (fun r => r + by_) X.

Definition appended_absence (s_field : Tile) (s_missing : option (gset nat)) (s_rows : nat)
    (o_field : Tile) (o_missing : option (gset nat)) (o_rows : nat) : option (option (gset nat)) :=
  match s_missing, o_missing with
  | None, None => Some None
  | _, _ =>
      s ← side_absence s_field s_missing s_rows;
      o ← side_absence o_field o_missing o_rows;
      let absent := s ∪ shifted s_rows o in
      Some (if decide (absent = ∅) then None else Some absent)
  end.

(** [columns_whole_or_absent]. *)
Fixpoint columns_whole_or_absent (t : Tile) (rows_ : nat) : option bool :=
  match t with
  | TileScalar column => n ← len column; Some ((n =? 0) || (n =? rows_))
  | TileRecord fields absent =>
      allM (fun '(name, f) =>
        match absent !! name with
        | Some missing =>
            n ← rows f; Some ((n + size missing =? rows_) && bool_decide (set_Forall (fun r => r < rows_) missing))
        | None => columns_whole_or_absent f rows_
        end) fields
  | TileDataFunction row_starts _ _ _ _ => Some (length row_starts =? rows_)
  | TileAggregation _ _ _ | TileStore _ _ _ _ _ _ => Some true
  end.

(** [merged_cells]: the positions of each side's cells, and each row's cell in the two columns
    run together. *)
Definition side_positions (cells : ColumnValue) (missing : option (gset nat)) (rows_ : nat) : option (list (option nat)) :=
  e ← col_is_empty cells;
  Some (match e, missing with
    | true, None => replicate rows_ None
    | _, _ => cell_positions rows_ (default ∅ missing)
    end).

Definition source_cell (l_at r_at : list (option nat)) (offset : nat) (source : RowSource) : option (option nat) :=
  match source with
  | Left i => l_at !! i
  | Right j => c ← r_at !! j; Some (match c with Some c => Some (offset + c) | None => None end)
  | Both i j =>
      l ← l_at !! i; r ← r_at !! j;
      match (l : option nat), (r : option nat) with
      | Some _, Some _ => None
      | Some c, None => Some (Some c)
      | None, Some c => Some (Some (offset + c))
      | None, None => Some None
      end
  end.

Definition merged_cells (l_cells : ColumnValue) (l_missing : option (gset nat)) (l_rows : nat)
    (r_cells : ColumnValue) (r_missing : option (gset nat)) (r_rows : nat) (order : list RowSource) :
    option (ColumnValue * gset nat) :=
  l_at ← side_positions l_cells l_missing l_rows;
  r_at ← side_positions r_cells r_missing r_rows;
  offset ← len l_cells;
  combined ← append l_cells r_cells;
  cells ← mapM (source_cell l_at r_at offset) order;
  picked ← select_indices combined (omap id cells);
  Some (picked, list_to_set (omap (fun '(i, p) => match p with None => Some i | Some _ => None end) (imap pair cells))).

(** [merged_column]. *)
Definition merged_column (left right : ColumnValue) (order : list RowSource) : option ColumnValue :=
  le ← col_is_empty left; re ← col_is_empty right;
  if le && re then Some left
  else
    combined ← append left right;
    offset ← len left;
    picks ← mapM (fun source =>
      match source with
      | Left i => Some (if (le : bool) then None else Some i)
      | Right j => Some (if (re : bool) then None else Some (offset + j))
      | Both i j =>
          match le, re with
          | false, true => Some (Some i)
          | true, false => Some (Some (offset + j))
          | true, true => Some None
          | false, false => None
          end
      end) order;
    let picked := omap id picks in
    if (length picked =? length order) || (length picked =? 0) then select_indices combined picked else None.

(** [matched_keys]: a map of keys to their positions holds the last of each. *)
Fixpoint matched_left (lefts : list (nat * Value)) (right : list (Value * nat)) : list RowSource :=
  match lefts with
  | [] => []
  | (i, v) :: lefts =>
      (match assoc v right with Some j => Both i j | None => Left i end) :: matched_left lefts right
  end.

Definition matched_rights (sources : list RowSource) : list nat :=
  omap (fun s => match s with Both _ j => Some j | _ => None end) sources.

Definition matched_keys (l_domain : ColumnValue) (l_run : list nat) (r_domain : ColumnValue) (r_run : list nat) :
    option (list RowSource) :=
  right ← mapM (fun j => v ← index_at r_domain j; Some (v, j)) r_run;
  left ← mapM (fun i => v ← index_at l_domain i; Some (i, v)) l_run;
  let out := matched_left left (rev right) in
  Some (out ++ map Right (List.filter (fun j => negb (bool_decide (j ∈ matched_rights out))) r_run)).

(** The keys of each row of a merge of two levels. *)
Definition row_keys (grows : bool) (l_starts : list nat) (l_domain : ColumnValue) (r_starts : list nat) (r_domain : ColumnValue)
    (source : RowSource) : option (list RowSource) :=
  n ← len l_domain; m ← len r_domain;
  match source with
  | Left row => run ← level_run l_starts row n; Some (map Left (range run))
  | Right row => run ← level_run r_starts row m; Some (map Right (range run))
  | Both l_row r_row =>
      l_run ← level_run l_starts l_row n;
      r_run ← level_run r_starts r_row m;
      if grows then matched_keys l_domain (range l_run) r_domain (range r_run)
      else Some (map Left (range l_run) ++ map Right (range r_run))
  end.

Definition key_value (l_domain r_domain : ColumnValue) (key : RowSource) : option Value :=
  match key with Left i | Both i _ => index_at l_domain i | Right j => index_at r_domain j end.

(** Each key's path, its row's extended by the key. *)
Definition merged_paths (l_domain r_domain : ColumnValue) (row_paths : list (list Value)) (keys : list (list RowSource)) :
    option (list (list Value)) :=
  paths ← mapM (fun '(row, keys) =>
    mapM (fun key => v ← key_value l_domain r_domain key; path ← row_paths !! row; Some (path ++ [v])) keys) (imap pair keys);
  Some (concat paths).

(** Where a key sits in the two key columns run together. *)
Definition picked_at (offset : nat) (key : RowSource) : nat :=
  match key with Left i | Both i _ => i | Right j => offset + j end.

Definition key_deleted (l_deleted r_deleted : gset nat) (key : RowSource) : bool :=
  match key with
  | Left i => bool_decide (i ∈ l_deleted)
  | Right j => bool_decide (j ∈ r_deleted)
  | Both i j => bool_decide (i ∈ l_deleted) && bool_decide (j ∈ r_deleted)
  end.

Definition positions_where {A} (f : A -> bool) (l : list A) : gset nat :=
  list_to_set (omap (fun '(i, x) => if f x then Some i else None) (imap pair l)).

(** The two watermarks of a store compared: none is below every position. *)
Definition watermark_gt (a b : option Value) : option bool :=
  match a, b with
  | None, _ => Some false
  | Some _, None => Some true
  | Some x, Some y => o ← partial_cmp x y; Some (bool_decide (o = Some Gt))
  end.

(** ** The merges *)

Section Merge.
Context (checks debug : bool) (pf : nat).

(** [debug_assert!(!whole || validate_tile(self))]. *)
Definition asserted (whole : bool) (merged : option Tile) : option Tile :=
  if whole && debug then t ← merged; valid ← validate_tile pf t; if (valid : bool) then Some t else None else merged.

(** [append_keys], over the merge of the codomains. *)
Definition append_keys (merge_codomain : Tile -> Tile -> option Tile) (t other : Tile) (whole : bool) : option Tile :=
  match t, other with
  | TileDataFunction s_starts s_domain s_codomain s_pred s_deleted, TileDataFunction o_starts o_domain o_codomain o_pred o_deleted =>
      shift ← len s_domain;
      starts ← (if whole then
                  if (length s_starts =? 1) && (length o_starts =? 1) then Some s_starts else None
                else Some (s_starts ++ map (fun start => start + shift) o_starts));
      domain ← append s_domain o_domain;
      codomain ← merge_codomain s_codomain o_codomain;
      n ← len domain;
      ok ← columns_whole_or_absent codomain n;
      if (ok : bool) then
        pred ← union_of pf s_pred o_pred;
        Some (TileDataFunction starts domain codomain pred (s_deleted ∪ shifted shift o_deleted))
      else None
  | _, _ => None
  end.

(** The rows a record's fields have no cells at, once rows are appended to rows. *)
Definition record_absence (s_fields o_fields : list (string * Tile)) (s_absent o_absent : gmap string (gset nat)) :
    option (gmap string (gset nat)) :=
  if decide (s_absent = ∅ /\ o_absent = ∅) then Some s_absent
  else
    s_rows ← record_rows s_fields s_absent;
    o_rows ← record_rows o_fields o_absent;
    gone ← mapM (fun '(name, field) =>
      o_field ← assoc name o_fields;
      a ← appended_absence field (s_absent !! name) s_rows o_field (o_absent !! name) o_rows;
      Some (name, a)) s_fields;
    Some (foldl (fun absent '(name, a) => match a with Some rows => <[name := rows]> absent | None => delete name absent end) s_absent gone).

(** [gathered_rows]. *)
Definition gathered_rows (merge_rows : Tile -> Tile -> option Tile) (left right : Tile) (order : list RowSource) : option Tile :=
  offset ← rows left;
  picked ← mapM (fun source => match source with Left i => Some i | Right j => Some (offset + j) | Both _ _ => None end) order;
  combined ← merge_rows left right;
  select_rows combined picked.

Fixpoint merge_part (fuel : nat) (whole : bool) (t other : Tile) {struct fuel} : option Tile :=
  match fuel with
  | O => None
  | S fuel =>
      asserted whole (match t, other with
      | TileDataFunction _ _ codomain _ _, TileDataFunction _ _ _ _ _ =>
          if negb whole || negb (tile_holds_a_level codomain) then append_keys (merge_part fuel false) t other whole
          else
            n ← rows t; m ← rows other;
            if (n =? 1) && (m =? 1) then merged_rows fuel t other [Both 0 0] [true] [[]] else None
      | TileScalar s, TileScalar o => TileScalar <$> append s o
      | TileAggregation s_kind s_acc s_term, TileAggregation o_kind o_acc o_term =>
          if bool_decide (s_kind = o_kind) then
            if whole then
              n ← rows o_acc;
              acc ← accumulate (merge_part fuel false) checks s_kind s_acc o_acc 0 n;
              term ← apply_binop_column checks (BoolLogic Or) s_term o_term;
              Some (TileAggregation s_kind acc term)
            else
              acc ← merge_part fuel false s_acc o_acc;
              term ← append s_term o_term;
              Some (TileAggregation s_kind acc term)
          else None
      | TileRecord s_fields s_absent, TileRecord o_fields o_absent =>
          if length s_fields =? length o_fields then
            absent ← (if whole then Some s_absent else record_absence s_fields o_fields s_absent o_absent);
            fields ← mapM (fun '(f, t) => o ← assoc f o_fields; t ← merge_part fuel whole t o; Some (f, t)) s_fields;
            Some (TileRecord fields absent)
          else None
      | TileStore s_state s_seed s_decided s_frontier s_terminal s_closed, TileStore o_state o_seed o_decided o_frontier o_terminal o_closed =>
          state ← merge_part fuel whole s_state o_state;
          decided ← merge_part fuel whole s_decided o_decided;
          empty ← tile_is_empty s_seed;
          seed ← (if (empty : bool) then Some o_seed
                  else if negb whole then merge_part fuel false s_seed o_seed
                  else o_empty ← tile_is_empty o_seed; if o_empty || tile_eqb s_seed o_seed then Some s_seed else None);
          frontier ← (if whole then
                        o ← row_watermark o_frontier 0; s ← row_watermark s_frontier 0;
                        later ← watermark_gt o s; Some (if (later : bool) then o_frontier else s_frontier)
                      else merge_part fuel false s_frontier o_frontier);
          Some (TileStore state seed decided frontier (s_terminal || o_terminal) (s_closed ++ o_closed))
      | _, _ => None
      end)
  end
with merged_rows (fuel : nat) (left right : Tile) (order : list RowSource) (settled : list bool) (row_paths : list (list Value))
    {struct fuel} : option Tile :=
  match fuel with
  | O => None
  | S fuel =>
      match left, right with
      | TileScalar l, TileScalar r => TileScalar <$> merged_column l r order
      | TileRecord l l_absent, TileRecord r r_absent =>
          if negb (length l =? length r) then None
          else if decide (l_absent = ∅ /\ r_absent = ∅) then
            fields ← mapM (fun '(name, t) => other ← assoc name r; t ← merged_rows fuel t other order settled row_paths; Some (name, t)) l;
            Some (tile_record fields)
          else
            l_rows ← record_rows l l_absent;
            r_rows ← record_rows r r_absent;
            fields ← mapM (fun '(name, t) =>
              other ← assoc name r;
              match l_absent !! name, r_absent !! name with
              | None, None => t ← merged_rows fuel t other order settled row_paths; Some (name, (t, None))
              | l_missing, r_missing =>
                  match t, other with
                  | TileScalar l_cells, TileScalar r_cells =>
                      '(cells, missing) ← merged_cells l_cells l_missing l_rows r_cells r_missing r_rows order;
                      Some (name, (TileScalar cells, if decide (missing = ∅) then None else Some missing))
                  | _, _ => None
                  end
              end) l;
            Some (record_of fields)
      | TileDataFunction l_starts l_domain l_codomain l_pred l_deleted, TileDataFunction r_starts r_domain r_codomain r_pred r_deleted =>
          row_keys ← mapM (row_keys (tile_holds_a_level l_codomain) l_starts l_domain r_starts r_domain) order;
          let keys := concat row_keys in
          key_paths ← merged_paths l_domain r_domain row_paths row_keys;
          key_settled ← mapM (fun '(key, path) =>
            contains_path (match key with Right _ => r_pred | _ => l_pred end) path) (zip keys key_paths);
          combined ← append l_domain r_domain;
          offset ← len l_domain;
          domain ← select_indices combined (map (picked_at offset) keys);
          codomain ← merged_rows fuel l_codomain r_codomain keys key_settled key_paths;
          pred ← union_of pf l_pred r_pred;
          Some (TileDataFunction (run_starts 0 (map length row_keys)) domain codomain pred
            (positions_where (key_deleted l_deleted r_deleted) keys))
      | TileAggregation _ _ _, TileAggregation _ _ _ =>
          if existsb is_both order then
            rows ← mapM (fun source =>
              match source with
              | Left i => select_rows left [i]
              | Right j => select_rows right [j]
              | Both i j =>
                  row ← select_rows left [i]; other ← select_rows right [j]; merge_part fuel true row other
              end) order;
            match rows with
            | [] => None
            | out :: rows => foldl (fun out row => out ← out; merge_part fuel false out row) (Some out) rows
            end
          else gathered_rows (merge_part fuel false) left right order
      | TileStore _ _ _ _ _ _, TileStore _ _ _ _ _ _ =>
          if existsb is_both order then
            if length order =? 1 then merge_part fuel true left right else None
          else gathered_rows (merge_part fuel false) left right order
      | _, _ => None
      end
  end.

(** [merge_rows] and [merge], with fuel for the depth of the tile. *)
Definition merge_rows (t other : Tile) : option Tile := merge_part (height t) false t other.

Definition merge (t other : Tile) : option Tile :=
  t ← merge_part (4 * height t) true t other; drop_covered_completion pf t.
End Merge.
End TileMerges.
