(* ===== verification/MergeSpec.v ===== *)
(** * What a merge of two tiles means

    The conditions under which two tiles merge and the values the merge holds.  [stated]: each
    level's completion is a well-formed region of the paths to that level.  [unites] and [joins]:
    from some fuel on the completions of two tiles have a union at each level, and a third tile
    states it.
    [alike]: the rows of one tile can follow those of another, each column having arrived on
    both sides or on neither.  [merge_val] is the merge of two row values, by key at every depth;
    [apart] says that where keys cannot match the two sides hold different ones, and
    [carried] is the condition that no column of a merge is short or delivered twice. *)

From Stdlib Require Import List.
From stdpp Require Import gmap.
From S2P Require Import Prelude Predicate PredicateSem Returns KeyMaps PredicateParts PredicateAlgebra Guards Values Columns ColumnFacts Tiles TileRows TileFacts TileMerges.
Set Warnings "-register-all,-clear-no-such-hyp".

(** Of each element of a list, inside a recursion. *)
Definition all_of {A} (P : A -> Prop) : list A -> Prop :=
  fix go l := match l with [] => True | x :: l => P x /\ go l end.

Lemma all_of_Forall {A} (P : A -> Prop) l : all_of P l <-> Forall P l.
Proof. induction l as [|x l IH]; simpl; [split; constructor|]. by rewrite Forall_cons, IH. Qed.

(** From some amount of fuel on, of all elements at once. *)
Lemma eventually_Forall {A} (P : nat -> A -> Prop) l :
  Forall (fun x => exists N, forall n, N <= n -> P n x) l -> exists N, forall n, N <= n -> Forall (P n) l.
Proof.
  induction 1 as [|x l [N Hx] _ [M IH]]; [exists 0; constructor|].
  exists (Nat.max N M). intros n Hn. constructor; [apply Hx; lia|apply IH; lia].
Qed.

(** Induction over tilings, a record's fields included. *)
Section TilingInduction.
Context {E : Type} (P : Tiling E -> Prop).
Context (Hscalar : forall e, P (TScalar e)).
Context (Hrecord : forall ts, Forall (fun kt => P kt.2) ts -> P (TRecord ts)).
Context (Hfunction : forall e T, P T -> P (TDataFunction e T)).
Context (Haggregation : forall k T, P T -> P (TAggregation k T)).
Context (Hstore : forall e T, P T -> P (TStore e T)).

Fixpoint tiling_ind (T : Tiling E) : P T :=
  match T with
  | TScalar e => Hscalar e
  | TRecord ts =>
      Hrecord ts ((fix go ts : Forall (fun kt => P kt.2) ts :=
        match ts with
        | [] => List.Forall_nil _
        | kt :: ts => List.Forall_cons _ kt ts (tiling_ind kt.2) (go ts)
        end) ts)
  | TDataFunction e T => Hfunction e T (tiling_ind T)
  | TAggregation k T => Haggregation k T (tiling_ind T)
  | TStore e T => Hstore e T (tiling_ind T)
  end.
End TilingInduction.

Section MergeSpec.
Context {KS : KeySets Scalar} {KL : KeySetLaws Scalar KS}.
Abbreviation Tiling := (Tiling CTy).
Abbreviation Predicate := (Predicate Scalar).
(** The shape of the keys of a type. *)
Context (shape : CTy -> Shape).

(** ** Completions *)

Fixpoint stated (D : Domain) (T : Tiling) (t : Tile) {struct t} : Prop :=
  match t, T with
  | TileDataFunction _ _ codomain pred _, TDataFunction ty T =>
      wf (shape ty :: D) pred /\ stated (shape ty :: D) T codomain
  | TileRecord fields _, TRecord ts =>
      all_of (fun '(k, t) => match assoc k ts with Some T => stated D T t | None => False end) fields
  | TileAggregation _ accumulator _, TAggregation _ T => stated D T accumulator
  | _, _ => True
  end.

Fixpoint unites (N : nat) (D : Domain) (T : Tiling) (t u : Tile) {struct t} : Prop :=
  match t, u, T with
  | TileDataFunction _ _ codomain p _, TileDataFunction _ _ codomain' q _, TDataFunction ty T =>
      (exists r, Sem (shape ty :: D) (join_of p q) r /\ forall pf, N <= pf -> union_of pf p q = Some r) /\ unites N (shape ty :: D) T codomain codomain'
  | TileRecord fields _, TileRecord fields' _, TRecord ts =>
      all_of (fun '(k, t) => match assoc k ts, assoc k fields' with Some T, Some u => unites N D T t u | _, _ => False end) fields
  | TileAggregation _ acc _, TileAggregation _ acc' _, TAggregation _ T => unites N D T acc acc'
  | _, _, _ => True
  end.

(** What a merged tile states of each level: the union of what the two state. *)
Fixpoint joins (N : nat) (t u w : Tile) {struct t} : Prop :=
  match t, u, w with
  | TileDataFunction _ _ codomain p _, TileDataFunction _ _ codomain' q _, TileDataFunction _ _ codomain'' r _ =>
      (forall pf, N <= pf -> union_of pf p q = Some r) /\ joins N codomain codomain' codomain''
  | TileRecord fields _, TileRecord fields' _, TileRecord fields'' _ =>
      all_of (fun '(k, t) => match assoc k fields', assoc k fields'' with Some u, Some w => joins N t u w | _, _ => False end) fields
  | TileAggregation _ acc _, TileAggregation _ acc' _, TileAggregation _ acc'' _ => joins N acc acc' acc''
  | _, _, _ => True
  end.

(** The fields of a record against the record's tilings and the fields of another. *)
Lemma record_aligned n absent fields (ts : list (string * Tiling)) :
  Forall2 (field_ok n absent) fields ts -> map fst fields = map fst ts.
Proof. induction 1 as [|a b fields ts [E _] _ IH]; simpl; [done|]. by rewrite E, IH. Qed.

Lemma field_type n absent fields (ts : list (string * Tiling)) k f :
  NoDup (map fst ts) -> Forall2 (field_ok n absent) fields ts -> (k, f) ∈ fields ->
  exists T, assoc k ts = Some T /\ field_ok n absent (k, f) (k, T).
Proof.
  intros Hnd H Hin. apply list_elem_of_lookup in Hin as [i Hi]. destruct (Forall2_lookup_l _ _ _ _ _ H Hi) as ([k' T] & HT & E & Hf).
  simpl in E. subst k'. exists T. split; [|done]. apply In_assoc; [done|]. by eapply list_elem_of_lookup_2.
Qed.

Lemma field_mate n m absent absent' fields fields' (ts : list (string * Tiling)) k f :
  NoDup (map fst ts) -> Forall2 (field_ok n absent) fields ts -> Forall2 (field_ok m absent') fields' ts -> (k, f) ∈ fields ->
  exists T u, assoc k ts = Some T /\ assoc k fields' = Some u /\ field_ok n absent (k, f) (k, T) /\ field_ok m absent' (k, u) (k, T).
Proof.
  intros Hnd H H' Hin. destruct (field_type _ _ _ _ _ _ Hnd H Hin) as (T & HT & Hf). exists T.
  assert (HkT : k ∈ map fst fields').
  { rewrite (record_aligned _ _ _ _ H'). apply assoc_In in HT. by eapply assoc_fst. }
  destruct (assoc k fields') as [u|] eqn:Eu; [|by apply assoc_None in Eu]. exists u. split; [done|]. split; [done|]. split; [done|].
  destruct (field_type _ _ _ _ k u Hnd H') as (T' & HT' & Hu); [by apply assoc_In|]. by simplify_eq.
Qed.

(** With enough fuel the completions of two tiles of one tiling unite. *)
Lemma unites_enough T n m D t u :
  tile_ok T n t -> tile_ok T m u -> stated D T t -> stated D T u -> exists M, forall N, M <= N -> unites N D T t u.
Proof.
  revert T n m D u. induction t as [cv|fields absent IH|starts domain codomain pred deleted IH|kind acc terminal IH|st se de fr te cl _ _ _ _] using tile_ind;
    intros T n m D u Ht Hu Hst Hsu.
  - by exists 0.
  - apply tile_ok_record in Ht as (ts & -> & Hnd & _ & Ht). destruct u as [|fields' absent'| | |]; try by exists 0.
    apply tile_ok_record in Hu as (ts' & [= <-] & _ & _ & Hu). simpl in Hst, Hsu.
    destruct (eventually_Forall (fun N '(k, t) => match assoc k ts, assoc k fields' with Some T, Some u => unites N D T t u | _, _ => False end) fields)
      as [N HN]; [|exists N; intros pf Hpf; simpl; by apply all_of_Forall, HN].
    rewrite all_of_Forall, Forall_forall in Hst, Hsu. rewrite Forall_forall in IH. apply Forall_forall. intros [k f] Hin.
    destruct (field_mate _ _ _ _ _ _ _ k f Hnd Ht Hu Hin) as (T & g & HT & Hg & [_ Hf] & [_ Hfg]). simpl in Hf, Hfg. rewrite HT, Hg.
    pose proof (Hst (k, f) Hin) as Hs. pose proof (Hsu (k, g) (assoc_In _ _ _ Hg)) as Hs'. simpl in Hs, Hs'. rewrite HT in Hs, Hs'.
    destruct (absent !! k) as [missing|]; [destruct Hf as (_ & _ & cells & ty & -> & -> & _); by exists 0|].
    destruct (absent' !! k) as [missing'|]; [destruct Hfg as (_ & _ & cells & ty & -> & -> & _); destruct f; by exists 0|].
    by apply (IH (k, f) Hin T n m D g).
  - destruct T as [| |ty T| |]; try done. destruct u as [| |starts' domain' codomain' pred' deleted'| |]; try done.
    destruct Ht as (a & _ & _ & _ & Ht). destruct Hu as (b & _ & _ & _ & Hu). destruct Hst as [Hp Hst]. destruct Hsu as [Hq Hsu].
    destruct (key_union (shape ty :: D) pred pred' Hp Hq) as (N & r & Hr & HN).
    destruct (IH T a b _ codomain' Ht Hu Hst Hsu) as [M HM]. exists (Nat.max N M). intros N' Hle. split; [|apply HM; lia].
    exists r. split; [done|]. intros pf Hpf. apply HN. lia.
  - destruct T as [| | |k T|]; try done. destruct u as [| | |k' acc' terminal'|]; try done. destruct Ht as (_ & Ht & _). destruct Hu as (_ & Hu & _).
    by apply (IH T n m D acc').
  - by exists 0.
Qed.

(** ** Rows that follow rows *)

Fixpoint alike (n m : nat) (t u : Tile) {struct t} : Prop :=
  match t, u with
  | TileScalar a, TileScalar b =>
      exists x y, len a = Some x /\ len b = Some y /\ (x + y = 0 \/ x + y = n + m)
  | TileRecord fields absent, TileRecord fields' absent' =>
      (absent = ∅ /\ absent' = ∅ \/ record_rows fields absent = Some n /\ record_rows fields' absent' = Some m) /\
      all_of (fun '(k, t) => match absent !! k, absent' !! k with
        | None, None => match assoc k fields' with Some u => alike n m t u | None => False end
        | _, _ => True
        end) fields
  | TileDataFunction _ domain codomain _ _, TileDataFunction _ domain' codomain' _ _ =>
      exists a b, len domain = Some a /\ len domain' = Some b /\ alike a b codomain codomain'
  | TileAggregation _ acc _, TileAggregation _ acc' _ => alike n m acc acc'
  | _, _ => False
  end.

(** ** Rows merged by key *)

(** Whether a row's keys are distinct, at every level. *)
Fixpoint distinct (v : RowVal) : Prop :=
  match v with
  | RColl es => NoDup (map (fun e => e.1.1) es) /\ all_of (fun e => distinct e.2) es
  | RRecord fields => all_of (fun kv => distinct kv.2) fields
  | _ => True
  end.

Fixpoint entry_of (k : option Value) (es : list (option Value * bool * RowVal)) : option (bool * RowVal) :=
  match es with
  | [] => None
  | (k', d, v) :: es => if decide (k = k') then Some (d, v) else entry_of k es
  end.

(** Two runs of entries: the left run's order, each key with what the right holds under it, and then
    the keys only the right holds.  A key is removed where both sides removed it. *)
Definition match_entries (merge : RowVal -> RowVal -> RowVal) (es fs : list (option Value * bool * RowVal)) :
    list (option Value * bool * RowVal) :=
  map (fun '(k, d, v) => match entry_of k fs with Some (d', v') => (k, d && d', merge v v') | None => (k, d, v) end) es ++
  List.filter (fun f => negb (bool_decide (f.1.1 ∈ map (fun e => e.1.1) es))) fs.

(** The value of a row both sides delivered: a cell from the side that has it, a record field by
    field, and a collection's keys matched. *)
Fixpoint merge_val (T : Tiling) (a b : RowVal) {struct T} : RowVal :=
  match T, a, b with
  | TScalar _, RCell x, RCell y => RCell (match x with Some v => Some v | None => y end)
  | TRecord ts, RRecord f, RRecord g =>
      RRecord ((fix go ts f g := match ts, f, g with
        | (k, T) :: ts, (_, v) :: f, (_, w) :: g => (k, merge_val T v w) :: go ts f g
        | _, _, _ => []
        end) ts f g)
  | TDataFunction _ T, RColl es, RColl fs => RColl (match_entries (merge_val T) es fs)
  | _, _, _ => a
  end.

(** No key that holds no collection is delivered twice: such runs follow one another unmatched. *)
Fixpoint apart (T : Tiling) (a b : RowVal) {struct T} : Prop :=
  match T, a, b with
  | TRecord ts, RRecord f, RRecord g =>
      (fix go ts f g := match ts, f, g with
        | (_, T) :: ts, (_, v) :: f, (_, w) :: g => apart T v w /\ go ts f g
        | _, _, _ => True
        end) ts f g
  | TDataFunction _ T, RColl es, RColl fs =>
      if holds_a_level T then
        Forall (fun e => match entry_of e.1.1 fs with Some (_, v) => apart T e.2 v | None => True end) es
      else Forall (fun e => e.1.1 ∉ map (fun f => f.1.1) fs) es
  | _, _, _ => True
  end.

(** What the merge leaves: runs of keys that hold no collection follow one another. *)
Fixpoint merged_val (T : Tiling) (a b : RowVal) {struct T} : RowVal :=
  match T, a, b with
  | TScalar _, RCell x, RCell y => RCell (match x with Some v => Some v | None => y end)
  | TRecord ts, RRecord f, RRecord g =>
      RRecord ((fix go ts f g := match ts, f, g with
        | (k, T) :: ts, (_, v) :: f, (_, w) :: g => (k, merged_val T v w) :: go ts f g
        | _, _, _ => []
        end) ts f g)
  | TDataFunction _ T, RColl es, RColl fs =>
      RColl (if holds_a_level T then match_entries (merged_val T) es fs else es ++ fs)
  | _, _, _ => a
  end.

Lemma entry_of_None k es : k ∉ map (fun e => e.1.1) es -> entry_of k es = None.
Proof.
  induction es as [|[[k' d] v] es IH]; simpl; [done|]. rewrite not_elem_of_cons. intros [Hk Hes].
  rewrite decide_False by done. by apply IH.
Qed.

Lemma entry_of_Some k es d v : entry_of k es = Some (d, v) -> (k, d, v) ∈ es.
Proof.
  induction es as [|[[k' d'] v'] es IH]; simpl; [done|]. destruct (decide (k = k')) as [->|].
  - intros [= -> ->]. apply list_elem_of_here.
  - intros H. by apply list_elem_of_further, IH.
Qed.

(** Runs with no key in common follow one another. *)
Lemma match_apart merge es fs :
  Forall (fun e => e.1.1 ∉ map (fun f => f.1.1) fs) es -> match_entries merge es fs = es ++ fs.
Proof.
  intros H. unfold match_entries. f_equal.
  - induction H as [|[[k d] v] es Hk _ IH]; simpl; [done|]. simpl in Hk. by rewrite entry_of_None, IH.
  - rewrite Forall_forall in H.
    assert (Hfs : forall f, f ∈ fs -> f.1.1 ∉ map (fun e => e.1.1) es).
    { intros f Hf (e & E & He)%list_elem_of_fmap. apply (H e He), list_elem_of_fmap. by exists f. }
    clear H. induction fs as [|f fs IH]; simpl; [done|].
    rewrite bool_decide_false by (apply Hfs; left). simpl. rewrite IH; [done|].
    intros g Hg. apply Hfs. by right.
Qed.

(** Where no such key is delivered twice, the merge is by key throughout. *)
Lemma merged_apart T a b : apart T a b -> merged_val T a b = merge_val T a b.
Proof.
  revert a b. induction T as [ty|ts IH|ty T IH|k T IH|ty T IH] using tiling_ind; intros a b Ha; try done.
  - destruct a as [|f| | |], b as [|g| | |]; try done. cbn [merged_val merge_val apart] in *. f_equal.
    revert f g Ha. induction IH as [|[k T] ts HT _ IHts]; intros [|[k1 v] f] [|[k2 w] g] Ha; try done.
    destruct Ha as [Hv Ha]. f_equal; [|by apply IHts]. f_equal. by apply HT.
  - destruct a as [| |es| |], b as [| |fs| |]; try done. cbn [merged_val merge_val apart] in *. f_equal.
    destruct (holds_a_level T); [|by rewrite match_apart]. unfold match_entries. f_equal.
    induction Ha as [|[[k d] v] es He _ IHes]; simpl; [done|]. rewrite IHes. f_equal. simpl in He.
    destruct (entry_of k fs) as [[d' v']|]; [|done]. f_equal. by apply IH.
Qed.

(** The keys of a merge by key are distinct where those of each side are. *)
Lemma match_keys merge es fs :
  map (fun e => e.1.1) (match_entries merge es fs)
  = map (fun e => e.1.1) es ++ List.filter (fun k => negb (bool_decide (k ∈ map (fun e => e.1.1) es))) (map (fun f => f.1.1) fs).
Proof.
  unfold match_entries. rewrite map_app. f_equal.
  - rewrite map_map. apply map_ext. intros [[k d] v]. by destruct (entry_of k fs) as [[]|].
  - induction fs as [|f fs IH]; simpl; [done|]. destruct (bool_decide _); simpl; by rewrite IH.
Qed.

Lemma merge_distinct T a b : distinct a -> distinct b -> distinct (merge_val T a b).
Proof.
  revert a b. induction T as [ty|ts IH|ty T IH|k T IH|ty T IH] using tiling_ind; intros a b Ha Hb; try done.
  - by destruct a, b.
  - destruct a as [|f| | |], b as [|g| | |]; try done. cbn [merge_val distinct] in *. rewrite !all_of_Forall in *.
    revert f g Ha Hb. induction IH as [|[k T] ts HT _ IHts]; intros [|[k1 v] f] [|[k2 w] g] Ha Hb; try constructor.
    + apply Forall_cons in Ha as [? _]. apply Forall_cons in Hb as [? _]. by apply HT.
    + apply Forall_cons in Ha as [_ ?]. apply Forall_cons in Hb as [_ ?]. by apply IHts.
  - destruct a as [| |es| |], b as [| |fs| |]; try done. cbn [merge_val distinct] in *.
    destruct Ha as [Hes Hev], Hb as [Hfs Hfv]. rewrite all_of_Forall, Forall_forall in Hev, Hfv. split.
    + rewrite match_keys. apply NoDup_app. split; [done|]. split.
      * intros k Hk Hf. apply list_elem_of_In, filter_In in Hf as [_ Hf]. by rewrite bool_decide_true in Hf.
      * apply NoDup_ListNoDup, List.NoDup_filter, NoDup_ListNoDup, Hfs.
    + apply all_of_Forall, Forall_forall. intros e He. unfold match_entries in He. apply elem_of_app in He as [He|He].
      * apply list_elem_of_fmap in He as ([[k d] v] & -> & He). pose proof (Hev _ He) as Hv. simpl in Hv.
        destruct (entry_of k fs) as [[d' v']|] eqn:E; [|done]. apply entry_of_Some in E. cbn [snd]. apply IH; [done|].
        exact (Hfv _ E).
      * apply list_elem_of_In, filter_In in He as [He%list_elem_of_In _]. by apply Hfv.
Qed.

Definition source_row (T : Tiling) (l r : Tile) (source : RowSource) : RowVal :=
  match source with
  | Left i => row_of l i
  | Right j => row_of r j
  | Both i j => merged_val T (row_of l i) (row_of r j)
  end.

(** ** Columns that are carried *)

Section Cells.
Context (la rb : nat -> option Value).

Definition source_value (source : RowSource) : option Value :=
  match source with
  | Left i => la i
  | Right j => rb j
  | Both i j => match la i with Some v => Some v | None => rb j end
  end.

(** No cell is delivered twice. *)
Definition once (source : RowSource) : Prop :=
  match source with Both i j => la i = None \/ rb j = None | _ => True end.
End Cells.

(** The cell of a field at a row. *)
Definition field_cell (absent : gmap string (gset nat)) (kf : string * Tile) (r : nat) : option Value :=
  match field_row absent kf r with RCell v => v | _ => None end.

(** Every column of a merge holds a value at each row or at none, and no cell is delivered twice. *)
Fixpoint carried (n m : nat) (l r : Tile) (order : list RowSource) {struct l} : Prop :=
  match l, r with
  | TileScalar a, TileScalar b =>
      Forall (once (cell_of_column a) (cell_of_column b)) order /\
      (Forall (fun s => is_Some (source_value (cell_of_column a) (cell_of_column b) s)) order \/
       Forall (fun s => source_value (cell_of_column a) (cell_of_column b) s = None) order)
  | TileRecord fields absent, TileRecord fields' absent' =>
      (absent = ∅ /\ absent' = ∅ \/ record_rows fields absent = Some n /\ record_rows fields' absent' = Some m) /\
      all_of (fun '(k, t) => match assoc k fields' with
        | None => False
        | Some u =>
            match absent !! k, absent' !! k with
            | None, None => carried n m t u order
            | _, _ => Forall (once (field_cell absent (k, t)) (field_cell absent' (k, u))) order
            end
        end) fields
  | TileDataFunction starts domain codomain _ _, TileDataFunction starts' domain' codomain' _ _ =>
      exists a b keys, len domain = Some a /\ len domain' = Some b /\
        mapM (row_keys (tile_holds_a_level codomain) starts domain starts' domain') order = Some keys /\
        carried a b codomain codomain' (concat keys)
  | _, _ => False
  end.
End MergeSpec.
