(* ===== verification/AppendFacts.v ===== *)
(** * Appending rows

    [merge_rows] of two tiles of one tiling holds the rows of the first and then those of the
    second, at every level, and states the union of their completions. *)

From Stdlib Require Import List.
From stdpp Require Import gmap.
From S2P Require Import Prelude Predicate PredicateSem KeyMaps Guards Values Columns ColumnFacts Tiles TileRows TileFacts TileStores Aggregates TileMerges MergeSpec.
Set Warnings "-register-all,-clear-no-such-hyp".

(** ** Sets of rows *)

Lemma elem_of_shifted by_ (X : gset nat) r : r ∈ shifted by_ X <-> by_ <= r /\ r - by_ ∈ X.
Proof.
  unfold shifted. rewrite elem_of_map. split.
  - intros (x & -> & Hx). split; [lia|]. by replace (x + by_ - by_) with x by lia.
  - intros [Hr Hx]. exists (r - by_). split; [lia|done].
Qed.

Lemma size_shifted by_ (X : gset nat) : size (shifted by_ X) = size X.
Proof.
  unfold shifted, set_map. rewrite size_list_to_set; [by rewrite length_fmap|]. apply NoDup_fmap_2; [|apply NoDup_elements].
  intros x y. lia.
Qed.

Lemma size_appended n (X Y : gset nat) : (forall r, r ∈ X -> r < n) -> size (X ∪ shifted n Y) = size X + size Y.
Proof.
  intros HX. rewrite size_union, size_shifted; [done|]. intros r Hr [Hn _]%elem_of_shifted. apply HX in Hr. lia.
Qed.

Lemma countb_map {A B} (g : A -> B) (f : B -> bool) l : countb f (map g l) = countb (fun x => f (g x)) l.
Proof. induction l as [|x l IH]; simpl; [done|]. by rewrite IH. Qed.

(** The cells among the first rows, where the rows of one side follow those of another. *)
Lemma countb_appended n (X Y : gset nat) r :
  (forall i, i ∈ X -> i < n) ->
  countb (present (X ∪ shifted n Y)) (seq 0 (n + r)) = n - size X + countb (present Y) (seq 0 r).
Proof.
  intros HX. rewrite seq_app, countb_app. f_equal.
  - rewrite <- (countb_present n X HX). apply countb_ext. intros i Hi%elem_of_seq. unfold present. f_equal. apply bool_decide_ext.
    rewrite elem_of_union, elem_of_shifted. split; [intros [?|?]; [done|lia]|by left].
  - simpl. replace (seq n r) with (map (Nat.add n) (seq 0 r)) by (rewrite fmap_add_seq; f_equal; lia). rewrite countb_map.
    apply countb_ext. intros i _. unfold present. f_equal. apply bool_decide_ext. rewrite elem_of_union, elem_of_shifted.
    replace (n + i - n) with i by lia. split; [intros [Hi|?]; [apply HX in Hi; lia|by destruct H]|right; split; [lia|done]].
Qed.

(** ** Runs that follow runs *)

Lemma run_starts_app a lens lens' : run_starts a (lens ++ lens') = run_starts a lens ++ run_starts (a + sum_list lens) lens'.
Proof. revert a. induction lens as [|x lens IH]; intros a; simpl; [by rewrite Nat.add_0_r|]. rewrite IH. by rewrite Nat.add_assoc. Qed.

Lemma run_starts_shift a k lens : map (fun start => start + k) (run_starts a lens) = run_starts (a + k) lens.
Proof. revert a. induction lens as [|x lens IH]; intros a; simpl; [done|]. rewrite IH. f_equal. f_equal. lia. Qed.

Section AppendFacts.
Context {KS : KeySets Scalar} {KL : KeySetLaws Scalar KS}.
Abbreviation Tiling := (Tiling CTy).

(** ** Cells *)

(** A column with the rows it has no cell at, as the rows it stands for. *)
Definition cells_ok (ty : CTy) (n : nat) (missing : gset nat) (cells : ColumnValue) : Prop :=
  (forall r, r ∈ missing -> r < n) /\ col ty (n - size missing) cells.

Lemma append_cells_ok ty n m X Y a b :
  cells_ok ty n X a -> cells_ok ty m Y b ->
  exists c, append a b = Some c /\ cells_ok ty (n + m) (X ∪ shifted n Y) c /\
    (forall r, r < n -> cell_at c (X ∪ shifted n Y) r = cell_at a X r) /\
    (forall r, r < m -> cell_at c (X ∪ shifted n Y) (n + r) = cell_at b Y r).
Proof.
  intros [HX Ha] [HY Hb]. destruct (append_ok b ty _ _ a Ha Hb) as (c & Ec & Hc & Hl & Hr). exists c. split; [done|].
  pose proof (size_bounded X n HX). pose proof (size_bounded Y m HY). split; [split|split].
  - intros r [Hx|[Hn Hy]%elem_of_shifted]%elem_of_union; [apply HX in Hx; lia|apply HY in Hy; lia].
  - rewrite size_appended by done. by replace (n + m - (size X + size Y)) with (n - size X + (m - size Y)) by lia.
  - intros r Hlt. rewrite !cell_at_eq.
    assert (E : countb (present (X ∪ shifted n Y)) (seq 0 r) = countb (present X) (seq 0 r)).
    { apply countb_ext. intros i Hi%elem_of_seq. unfold present. f_equal. apply bool_decide_ext. rewrite elem_of_union, elem_of_shifted.
      split; [intros [?|?]; [done|lia]|by left]. }
    destruct (decide (r ∈ X)) as [Hin|Hin].
    + by rewrite decide_True by set_solver.
    + rewrite decide_False by (rewrite elem_of_union, elem_of_shifted; intros [?|?]; [done|lia]). rewrite E. apply Hl.
      rewrite <- (countb_present n X HX). apply countb_seq_lt; [done|by apply present_true].
  - intros r Hlt. rewrite !cell_at_eq. assert (Hiff : n + r ∈ X ∪ shifted n Y <-> r ∈ Y).
    { rewrite elem_of_union, elem_of_shifted. replace (n + r - n) with r by lia. split; [intros [Hi|[_ Hi]]; [apply HX in Hi; lia|done]|right; split; [lia|done]]. }
    destruct (decide (r ∈ Y)) as [Hin|Hin]; [by rewrite decide_True by by apply Hiff|]. rewrite decide_False by by rewrite Hiff.
    rewrite countb_appended by done. apply Hr. rewrite <- (countb_present m Y HY). apply countb_seq_lt; [done|by apply present_true].
Qed.

(** A column whose cells are all there. *)
Lemma cell_at_whole cells ty n r : col ty n cells -> r < n -> cell_at cells ∅ r = cell_of_column cells r.
Proof.
  intros Hc Hr. rewrite cell_at_eq, decide_False by set_solver. unfold cell_of_column.
  rewrite (col_len _ _ _ Hc), bool_decide_false by (intros [= ?]; lia). f_equal. rewrite countb_present by set_solver. rewrite size_empty. lia.
Qed.

Lemma cell_at_none cells (X : gset nat) n r : r < n -> X = list_to_set (seq 0 n) -> cell_at cells X r = None.
Proof. intros Hr ->. rewrite cell_at_eq, decide_True; [done|]. apply elem_of_list_to_set, elem_of_seq. lia. Qed.

(** One side of [appended_absence]. *)
Lemma side_absence_ok n absent k f ty :
  field_ok n absent (k, f) (k, TScalar ty) ->
  exists cells X, f = TileScalar cells /\ side_absence f (absent !! k) n = Some X /\ cells_ok ty n X cells /\
    (X = ∅ -> absent !! k = None) /\ forall r, r < n -> field_row absent (k, f) r = RCell (cell_at cells X r).
Proof.
  intros [_ Hf]. unfold field_row, side_absence. simpl in *. destruct (absent !! k) as [missing|] eqn:Ea.
  - destruct Hf as (Hne & Hlt & cells & ty' & -> & [= <-] & Hc). exists cells, missing. simpl. by repeat split.
  - destruct f as [cells| | | |]; try done. destruct Hf as (m & Hm & Hc). exists cells. unfold not_arrived, col_is_empty. simpl.
    rewrite (col_len _ _ _ Hc). simpl. destruct (m =? 0) eqn:E; breflect.
    + subst m. eexists. split; [done|]. split; [done|]. split; [split|split; [done|]].
      * intros r [_ ?]%elem_of_list_to_set%elem_of_seq. lia.
      * rewrite size_list_to_set by apply NoDup_seq. by rewrite length_seq, Nat.sub_diag.
      * intros r Hr. unfold cell_of_column. rewrite (col_len _ _ _ Hc), bool_decide_true by done. by rewrite (cell_at_none _ _ n).
    + assert (m = n) as -> by (destruct Hm; congruence). exists ∅. split; [done|]. split; [done|]. split; [split; [set_solver|by rewrite size_empty, Nat.sub_0_r]|].
      split; [done|]. intros r Hr. f_equal. symmetry. by apply (cell_at_whole cells ty n).
Qed.

(** ** Records *)

(** The field both sides give, with the rows it has no cell at. *)
Lemma append_scalar_field ty n m absent absent' k f u :
  field_ok n absent (k, f) (k, TScalar ty) -> field_ok m absent' (k, u) (k, TScalar ty) ->
  is_Some (absent !! k) \/ is_Some (absent' !! k) ->
  exists c gone, (exists a b, f = TileScalar a /\ u = TileScalar b /\ append a b = Some c) /\
    appended_absence f (absent !! k) n u (absent' !! k) m = Some gone /\ field_done (n + m) (TScalar ty) (TileScalar c, gone) /\
    (forall r, r < n -> done_row (TileScalar c, gone) r = field_row absent (k, f) r) /\
    (forall r, r < m -> done_row (TileScalar c, gone) (n + r) = field_row absent' (k, u) r).
Proof.
  intros Hf Hu Hsome. destruct (side_absence_ok _ _ _ _ _ Hf) as (a & X & -> & EX & HX & _ & Hrx).
  destruct (side_absence_ok _ _ _ _ _ Hu) as (b & Y & -> & EY & HY & _ & Hry).
  destruct (append_cells_ok ty n m X Y a b HX HY) as (c & Ec & [Hlt Hc] & Hl & Hr). exists c.
  assert (E : appended_absence (TileScalar a) (absent !! k) n (TileScalar b) (absent' !! k) m
    = Some (if decide (X ∪ shifted n Y = ∅) then None else Some (X ∪ shifted n Y))).
  { unfold appended_absence. rewrite EX, EY. destruct (absent !! k), (absent' !! k); try done. by destruct Hsome as [[? ?]|[? ?]]. }
  eexists. split; [by exists a, b|]. split; [exact E|]. unfold field_done, done_row. clear E. destruct (decide _) as [He|He]; simpl.
  - rewrite He, size_empty, Nat.sub_0_r in Hc. split; [exists (n + m); by split; [right|]|].
    split; intros r Hr'; rewrite <- (cell_at_whole c ty (n + m)), <- He by (done || lia).
    + by rewrite Hl, Hrx.
    + by rewrite Hr, Hry.
  - split; [split; [done|]; split; [done|]; by exists c, ty|]. split; intros r Hr'; [by rewrite Hl, Hrx|by rewrite Hr, Hry].
Qed.

Lemma choose_list {A B} (R : A -> B -> Prop) l : (forall x, x ∈ l -> exists y, R x y) -> exists l', Forall2 R l l'.
Proof.
  induction l as [|x l IH]; intros H; [by exists []|]. destruct (H x) as [y Hy]; [by left|].
  destruct IH as [l' Hl']; [intros z Hz; apply H; by right|]. exists (y :: l'). by constructor.
Qed.

Lemma foldl_absence (l : list (string * option (gset nat))) (absent : gmap string (gset nat)) k :
  NoDup (map fst l) ->
  foldl (fun absent '(name, a) => match a with Some rows => <[name := rows]> absent | None => delete name absent end) absent l !! k
  = match assoc k l with Some a => a | None => absent !! k end.
Proof.
  revert absent. induction l as [|[name a] l IH]; intros absent Hnd; [done|]. simpl in Hnd. apply NoDup_cons in Hnd as [Hni Hnd]. simpl.
  rewrite IH by done. destruct (decide (k = name)) as [->|Hne].
  - apply assoc_None in Hni. rewrite Hni. destruct a; [by rewrite lookup_insert_eq|by rewrite lookup_delete_eq].
  - destruct (assoc k l); [done|]. destruct a; [by rewrite lookup_insert_ne|by rewrite lookup_delete_ne].
Qed.

Lemma record_of_map (fields : list (string * (Tile * option (gset nat)))) (absent : gmap string (gset nat)) :
  NoDup (map fst fields) -> (forall kf, kf ∈ fields -> absent !! kf.1 = kf.2.2) -> (forall k, is_Some (absent !! k) -> k ∈ map fst fields) ->
  TileRecord (map (fun '(k, (t, _)) => (k, t)) fields) absent = record_of fields.
Proof.
  intros Hnd Hin Hsub. unfold record_of. f_equal. apply map_eq. intros k. destruct (decide (k ∈ map fst fields)) as [Hk|Hk].
  - apply list_elem_of_In, in_map_iff in Hk as ([k' f] & E & Hf%list_elem_of_In). simpl in E. subst k'.
    rewrite (record_of_absent fields k f Hnd Hf). exact (Hin (k, f) Hf).
  - destruct (absent !! k) as [a|] eqn:Ea; [destruct Hk; apply Hsub; by rewrite Ea|]. symmetry. apply not_elem_of_list_to_map.
    intros Hx. apply Hk. apply list_elem_of_fmap in Hx as ([x gx] & -> & Hx). apply list_elem_of_omap in Hx as ([y [u [gy|]]] & Hy & E); [|done].
    simpl in E. simplify_eq. apply list_elem_of_In, in_map_iff. exists (x, (u, Some gx)). split; [done|by apply list_elem_of_In].
Qed.

(** The check of [append_keys]. *)
Lemma columns_whole_ok T n t : tile_ok T n t -> columns_whole_or_absent t n = Some true.
Proof.
  revert T n. induction t as [cv|fields absent IH|starts domain codomain pred deleted _|kind acc terminal _|st se de fr te cl _ _ _ _] using tile_ind;
    intros T n H.
  - destruct T; try done. destruct H as (m & Hm & Hc). simpl. rewrite (col_len _ _ _ Hc). simpl. f_equal. apply orb_true_iff.
    rewrite !Nat.eqb_eq. lia.
  - apply tile_ok_record in H as (ts & -> & _ & _ & H). cbn [columns_whole_or_absent].
    induction H as [|[k f] [k' U] fields ts [E Hf] _ IHf]; [done|]. apply Forall_cons in IH as [IHc IH]. cbn [allM].
    assert (Hk : match absent !! k with
      | Some missing => n0 ← rows f; Some ((n0 + size missing =? n) && bool_decide (set_Forall (fun r => r < n) missing))
      | None => columns_whole_or_absent f n end = Some true).
    { simpl in Hf, IHc. destruct (absent !! k) as [missing|]; [|by eapply IHc]. destruct Hf as (_ & Hlt & cells & ty & -> & -> & Hc).
      simpl. rewrite (col_len _ _ _ Hc). simpl. pose proof (size_bounded missing n Hlt). f_equal. apply andb_true_iff. rewrite Nat.eqb_eq.
      split; [lia|]. by apply bool_decide_true. }
    rewrite Hk. cbn [mbind option_bind]. by apply IHf.
  - destruct T; try done. destruct H as (m & _ & (lens & -> & <- & _) & _). simpl. by rewrite length_run_starts, Nat.eqb_refl.
  - done.
  - done.
Qed.

Section Append.
Context (shape : CTy -> Shape) (checks : bool) (N : nat).

(** What appending two tiles gives. *)
Definition appended (D : Domain) (T : Tiling) (n m : nat) (t u w : Tile) : Prop :=
  tile_ok T (n + m) w /\ stated shape D T w /\ joins N t u w /\
  (forall r, r < n -> row_of w r = row_of t r) /\ (forall r, r < m -> row_of w (n + r) = row_of u r).

Definition appends_rows (fuel : nat) : Prop :=
  forall T n m D t u, height t <= fuel -> tile_ok T n t -> tile_ok T m u -> alike n m t u -> unites shape N D T t u ->
    exists w, (forall debug pf, N <= pf -> merge_part checks debug pf fuel false t u = Some w) /\ appended D T n m t u w.

Lemma append_scalar fuel ty n m D a b :
  tile_ok (TScalar ty) n (TileScalar a) -> tile_ok (TScalar ty) m (TileScalar b) -> alike n m (TileScalar a) (TileScalar b) ->
  exists w, (forall debug pf, N <= pf -> merge_part checks debug pf (S fuel) false (TileScalar a) (TileScalar b) = Some w) /\
    appended D (TScalar ty) n m (TileScalar a) (TileScalar b) w.
Proof.
  intros (x & Hx & Ha) (y & Hy & Hb) (x' & y' & Ex & Ey & Hxy). rewrite (col_len _ _ _ Ha) in Ex. rewrite (col_len _ _ _ Hb) in Ey. simplify_eq.
  destruct (append_ok b ty _ _ a Ha Hb) as (c & Ec & Hc & Hl & Hr). exists (TileScalar c). simpl. rewrite Ec. split; [done|].
  split; [exists (x' + y'); by split|]. split; [done|]. split; [done|].
  unfold cell_of_column. simpl. unfold cell_of_column. rewrite (col_len _ _ _ Ha), (col_len _ _ _ Hb), (col_len _ _ _ Hc).
  split; intros r Hlt; f_equal.
  - destruct Hx as [->| ->].
    + rewrite (bool_decide_true (Some 0 = Some 0)) by done. by rewrite bool_decide_true by (f_equal; lia).
    + rewrite !bool_decide_false by (intros [=]; lia). by apply Hl.
  - destruct Hy as [->| ->].
    + rewrite (bool_decide_true (Some 0 = Some 0)) by done. by rewrite bool_decide_true by (f_equal; lia).
    + rewrite !bool_decide_false by (intros [=]; lia). assert (x' = n) as -> by lia. by apply Hr.
Qed.

(** A field of two records appended. *)
Definition field_appended (D : Domain) (ts : list (string * Tiling)) (n m : nat) (absent absent' : gmap string (gset nat))
    (fields' : list (string * Tile)) (fuel : nat) (kf : string * Tile) (kd : string * (Tile * option (gset nat))) : Prop :=
  kd.1 = kf.1 /\ exists T u, assoc kf.1 ts = Some T /\ assoc kf.1 fields' = Some u /\
    (forall debug pf, N <= pf -> merge_part checks debug pf fuel false kf.2 u = Some kd.2.1) /\
    appended_absence kf.2 (absent !! kf.1) n u (absent' !! kf.1) m = Some kd.2.2 /\
    field_done (n + m) T kd.2 /\ stated shape D T kd.2.1 /\ joins N kf.2 u kd.2.1 /\
    (forall r, r < n -> done_row kd.2 r = field_row absent kf r) /\ (forall r, r < m -> done_row kd.2 (n + r) = field_row absent' (kf.1, u) r).

Lemma append_field fuel D ts n m absent absent' fields fields' kf :
  appends_rows fuel -> height kf.2 <= fuel -> NoDup (map fst ts) ->
  Forall2 (field_ok n absent) fields ts -> Forall2 (field_ok m absent') fields' ts -> kf ∈ fields ->
  match absent !! kf.1, absent' !! kf.1 with
  | None, None => match assoc kf.1 fields' with Some u => alike n m kf.2 u | None => False end
  | _, _ => True
  end ->
  match assoc kf.1 ts, assoc kf.1 fields' with Some T, Some u => unites shape N D T kf.2 u | _, _ => False end ->
  exists kd, field_appended D ts n m absent absent' fields' fuel kf kd.
Proof.
  intros IH Hh Hnd Ht Hu Hin Ha Hun. destruct kf as [k f]. simpl in *.
  destruct (field_mate _ _ _ _ _ _ _ k f Hnd Ht Hu Hin) as (T & u & HT & Eu & Hf & Hfu). rewrite HT, Eu in Hun.
  assert (Hscalar : is_Some (absent !! k) \/ is_Some (absent' !! k) -> exists ty, T = TScalar ty).
  { destruct Hf as [_ Hf], Hfu as [_ Hfu]. simpl in *. intros [[x E]|[x E]]; rewrite E in *.
    - destruct Hf as (_ & _ & ? & ? & _ & -> & _). eauto.
    - destruct Hfu as (_ & _ & ? & ? & _ & -> & _). eauto. }
  assert (Hsc : is_Some (absent !! k) \/ is_Some (absent' !! k) -> exists kd, field_appended D ts n m absent absent' fields' fuel (k, f) kd).
  { intros Hs. destruct (Hscalar Hs) as [ty ->].
    destruct (append_scalar_field ty n m absent absent' k f u Hf Hfu Hs) as (c & gone & (a & b & -> & -> & Ec) & Eg & Hd & H1 & H2).
    exists (k, (TileScalar c, gone)). split; [done|]. exists (TScalar ty), (TileScalar b). cbn [fst snd]. destruct fuel; [simpl in Hh; lia|].
    split; [done|]. split; [done|]. simpl. rewrite Ec. by repeat split. }
  destruct (absent !! k) as [x|] eqn:E1; [apply Hsc; left; by eexists|]. destruct (absent' !! k) as [y|] eqn:E2; [apply Hsc; right; by eexists|].
  clear Hsc Hscalar. rewrite Eu in Ha. destruct Hf as [_ Hf], Hfu as [_ Hfu]. simpl in Hf, Hfu. rewrite E1 in Hf. rewrite E2 in Hfu.
  destruct (IH T n m D f u Hh Hf Hfu Ha Hun) as (w & Ew & Hok & Hst & Hj & H1 & H2).
  exists (k, (w, None)). split; [done|]. exists T, u. cbn [fst snd]. rewrite E1, E2. split; [done|]. split; [done|]. split; [done|]. split; [done|].
  split; [done|]. split; [done|]. split; [done|]. unfold done_row, field_row. simpl. rewrite E1, E2.
  split; intros r Hr; [by rewrite <- H1; destruct w|by rewrite <- H2; destruct w].
Qed.

Lemma append_record fuel T n m D fields absent u :
  appends_rows fuel -> height (TileRecord fields absent) <= S fuel -> tile_ok T n (TileRecord fields absent) -> tile_ok T m u ->
  alike n m (TileRecord fields absent) u -> unites shape N D T (TileRecord fields absent) u ->
  exists w, (forall debug pf, N <= pf -> merge_part checks debug pf (S fuel) false (TileRecord fields absent) u = Some w) /\ appended D T n m (TileRecord fields absent) u w.
Proof.
  intros IH Hh Ht Hu Ha Hun. destruct u as [|fields' absent'| | |]; try done.
  apply tile_ok_record in Ht as (ts & -> & Hnd & Hsub & Ht). apply tile_ok_record in Hu as (ts' & [= <-] & _ & Hsub' & Hu).
  destruct Ha as [Hrows Ha]. rewrite all_of_Forall, Forall_forall in Ha. simpl in Hun. rewrite all_of_Forall, Forall_forall in Hun.
  assert (Hmax : forall kf, kf ∈ fields -> height kf.2 <= fuel).
  { intros [k f] Hin. simpl in Hh. pose proof (foldr_max_le (map (fun '(_, t) => height t) fields) (height f)) as Hle.
    etrans; [apply Hle|lia]. apply list_elem_of_In, in_map_iff. exists (k, f). split; [done|by apply list_elem_of_In]. }
  destruct (choose_list (field_appended D ts n m absent absent' fields' fuel) fields) as [done Hd].
  { intros [k f] Hin. apply (append_field fuel D ts n m absent absent' fields fields' (k, f)); try done.
    - by apply (Hmax (k, f)).
    - exact (Ha _ Hin).
    - exact (Hun _ Hin). }
  assert (Hfst : map fst done = map fst ts).
  { rewrite <- (record_aligned _ _ _ _ Ht). clear -Hd. induction Hd as [|a b fields done [E _] _ IH]; simpl; [done|]. by rewrite E, IH. }
  assert (Hndd : NoDup (map fst done)) by by rewrite Hfst.
  destruct (record_of_ok (n + m) done ts Hnd) as [Hok Hrow].
  { pose proof (record_aligned _ _ _ _ Ht) as Hal. apply Forall2_same_length_lookup. split.
    - apply (f_equal length) in Hfst. by rewrite !length_map in Hfst.
    - intros i [k d] [k' T] Hi Hi'. assert (k = k') as <-.
      { apply (f_equal (lookup i)) in Hfst. rewrite !list_lookup_fmap, Hi, Hi' in Hfst. simpl in Hfst. congruence. }
      split; [done|]. destruct (Forall2_lookup_r _ _ _ _ _ Hd Hi) as ([k' f] & _ & E & T' & u & HT & _ & _ & _ & Hfd & _). simpl in E. subst k'.
      simpl in HT. rewrite (In_assoc k T) in HT by (done || by eapply list_elem_of_lookup_2). by simplify_eq. }
  assert (Hfields : forall debug pf, N <= pf -> mapM (fun '(f, t) => o ← assoc f fields'; t ← merge_part checks debug pf fuel false t o; Some (f, t)) fields
    = Some (map (fun '(k, (t, _)) => (k, t)) done)).
  { intros debug pf Hpf. apply mapM_Some. apply Forall2_fmap_r. eapply Forall2_impl; [exact Hd|]. intros [k f] [k' [w g]] [E (T & u & _ & Eu & Ew & _)].
    simpl in *. subst k'. rewrite Eu. simpl. by rewrite (Ew debug pf Hpf). }
  assert (Habs : record_absence fields fields' absent absent' = Some (list_to_map (omap (fun '(k, (_, gone)) => gone ← gone; Some (k, gone)) done))).
  { clear Hfields Hok Hrow. unfold record_absence. destruct (decide (absent = ∅ /\ absent' = ∅)) as [[-> ->]|Hne].
    - f_equal. assert (E : TileRecord (map (fun '(k, (t, _)) => (k, t)) done) ∅ = record_of done).
      { apply record_of_map; [done| |by intros k [x Hx]]. intros [k [w g]] Hin. apply list_elem_of_lookup in Hin as [i Hi].
        destruct (Forall2_lookup_r _ _ _ _ _ Hd Hi) as ([k' f] & _ & E & T & u & _ & _ & _ & Eg & _). simpl in *. subst k'.
        rewrite !lookup_empty in *. simpl in Eg. by simplify_eq. }
      unfold record_of in E. by simplify_eq.
    - destruct Hrows as [?|[-> ->]]; [done|]. cbn [mbind option_bind].
      assert (Hg : mapM (fun '(name, field) => o_field ← assoc name fields';
          a ← appended_absence field (absent !! name) n o_field (absent' !! name) m; Some (name, a)) fields
        = Some (map (fun '(k, (_, g)) => (k, g)) done)).
      { apply mapM_Some. apply Forall2_fmap_r. eapply Forall2_impl; [exact Hd|]. intros [k f] [k' [w g]] [E (T & u & _ & Eu & _ & Eg & _)].
        simpl in *. subst k'. rewrite Eu. simpl. by rewrite Eg. }
      rewrite Hg. cbn [mbind option_bind]. f_equal.
      assert (Hnd2 : NoDup (map fst (map (fun '(k, (_, g)) => (k, g)) done))).
      { rewrite map_map. erewrite map_ext; [exact Hndd|]. by intros [? [? ?]]. }
      set (M := foldl _ _ _). assert (E : TileRecord (map (fun '(k, (t, _)) => (k, t)) done) M = record_of done).
      { apply record_of_map; [done| |].
        - intros [k [w g]] Hin. unfold M. rewrite foldl_absence by done. rewrite (In_assoc k g); [done|done|].
          apply list_elem_of_In, in_map_iff. exists (k, (w, g)). split; [done|by apply list_elem_of_In].
        - intros k. unfold M. rewrite foldl_absence by done. destruct (assoc k _) as [a|] eqn:Ea.
          + intros _. apply assoc_In, assoc_fst in Ea. rewrite map_map in Ea. erewrite map_ext in Ea; [exact Ea|]. by intros [? [? ?]].
          + intros Hk. rewrite Hfst. by apply Hsub. }
      unfold record_of in E. by simplify_eq. }
  exists (record_of done). split; [|split; [done|split; [|split; [|split]]]].
  - intros debug pf Hpf. cbn [merge_part asserted andb]. assert (length fields =? length fields' = true) as ->.
    { apply Nat.eqb_eq. by rewrite (Forall2_length _ _ _ Ht), (Forall2_length _ _ _ Hu). }
    rewrite Habs. cbn [mbind option_bind]. rewrite (Hfields debug pf Hpf). done.
  - simpl. apply all_of_Forall, Forall_forall. intros [k w] Hin. apply list_elem_of_In, in_map_iff in Hin as ([k' [w' g]] & E & Hin%list_elem_of_In).
    simplify_eq. apply list_elem_of_lookup in Hin as [i Hi].
    destruct (Forall2_lookup_r _ _ _ _ _ Hd Hi) as ([k' f] & _ & E & T & u & HT & _ & _ & _ & _ & Hst & _). simpl in *. subst k'. by rewrite HT.
  - simpl. apply all_of_Forall, Forall_forall. intros [k f] Hin. apply list_elem_of_lookup in Hin as [i Hi].
    destruct (Forall2_lookup_l _ _ _ _ _ Hd Hi) as ([k' [w g]] & Hi' & E & T & u & HT & Eu & _ & _ & _ & _ & Hj & _). simpl in *. subst k'.
    rewrite Eu. rewrite (In_assoc k w); [done| |].
    + by rewrite record_of_fst.
    + apply list_elem_of_In, in_map_iff. exists (k, (w, g)). split; [done|]. apply list_elem_of_In. by eapply list_elem_of_lookup_2.
  - intros r Hr. rewrite Hrow, row_of_record. f_equal. clear -Hd Hr. induction Hd as [|[k f] [k' d] fields done [E (T & u & Hx)] _ IH]; [done|].
    simpl in *. subst k'. rewrite IH. do 2 f_equal. by apply Hx.
  - intros r Hr. rewrite Hrow, row_of_record. f_equal.
    assert (Hmap : map (fun kf => (kf.1, field_row absent' kf r)) fields' = map (fun kd => (kd.1, match assoc kd.1 fields' with Some u => field_row absent' (kd.1, u) r | None => RCell None end)) done).
    { pose proof (record_aligned _ _ _ _ Hu) as Hal. assert (Hnd' : NoDup (map fst fields')) by by rewrite Hal.
      transitivity (map (fun k => (k, match assoc k fields' with Some u => field_row absent' (k, u) r | None => RCell None end)) (map fst fields')).
      - rewrite map_map. apply map_ext_in. intros [k u] Hin%list_elem_of_In. simpl. by rewrite (In_assoc k u).
      - by rewrite Hal, <- Hfst, map_map. }
    rewrite Hmap. apply map_ext_in. intros [k d] Hin%list_elem_of_In. apply list_elem_of_lookup in Hin as [i Hi].
    destruct (Forall2_lookup_r _ _ _ _ _ Hd Hi) as ([k' f] & _ & E & T & u & _ & Eu & _ & _ & _ & _ & _ & _ & H2). simpl in *. subst k'.
    rewrite Eu. f_equal. by apply H2.
Qed.

(** The keys of two levels run together. *)
Lemma append_entries ty T a b d d' d'' c c' c'' del del' x y :
  concatenation ty a b d d' d'' -> (forall k, k < a -> row_of c'' k = row_of c k) -> (forall k, k < b -> row_of c'' (a + k) = row_of c' k) ->
  (forall k, k ∈ del -> k < a) -> tile_ok T b c' ->
  (x + y <= a -> entries d'' c'' (del ∪ shifted a del') (seq x y) = entries d c del (seq x y)) /\
  (x + y <= b -> entries d'' c'' (del ∪ shifted a del') (seq (a + x) y) = entries d' c' del' (seq x y)).
Proof.
  intros (_ & Hl & Hr) Hc Hc' Hdel _. unfold entries. split; intros Hle.
  - apply map_ext_in. intros k Hk%list_elem_of_In%elem_of_seq. rewrite Hl, Hc by lia. do 2 f_equal. apply bool_decide_ext.
    rewrite elem_of_union, elem_of_shifted. split; [intros [?|?]; [done|lia]|by left].
  - replace (seq (a + x) y) with (map (Nat.add a) (seq x y)) by (by rewrite fmap_add_seq). rewrite map_map.
    apply map_ext_in. intros k Hk%list_elem_of_In%elem_of_seq. rewrite Hr, Hc' by lia. do 2 f_equal. apply bool_decide_ext.
    rewrite elem_of_union, elem_of_shifted. replace (a + k - a) with k by lia. split; [intros [Hi|[_ ?]]; [apply Hdel in Hi; lia|done]|right; split; [lia|done]].
Qed.

(** The rows of two collections run together, whatever their merged codomain. *)
Lemma append_function_rows ty T lens lens' d d' d'' c c' c'' p p' p'' del del' :
  let a := sum_list lens in let b := sum_list lens' in
  col ty a d -> col ty b d' -> concatenation ty a b d d' d'' -> tile_ok T b c' -> tile_ok T (a + b) c'' ->
  (forall k, k < a -> row_of c'' k = row_of c k) -> (forall k, k < b -> row_of c'' (a + k) = row_of c' k) ->
  (forall k, k ∈ del -> k < a) -> (forall k, k ∈ del' -> k < b) ->
  let w := TileDataFunction (run_starts 0 (lens ++ lens')) d'' c'' p'' (del ∪ shifted a del') in
  tile_ok (TDataFunction ty T) (length lens + length lens') w /\
  (forall r, r < length lens -> row_of w r = row_of (TileDataFunction (run_starts 0 lens) d c p del) r) /\
  (forall r, r < length lens' -> row_of w (length lens + r) = row_of (TileDataFunction (run_starts 0 lens') d' c' p' del') r).
Proof.
  intros a b Hd Hd' Hcat HT' HT'' Hc Hc' Hdel Hdel' w.
  assert (Hsum : sum_list (lens ++ lens') = a + b) by by rewrite sum_list_app'.
  destruct Hcat as (Hd'' & Hl & Hr). split; [|split].
  - exists (a + b). split; [done|]. split; [exists (lens ++ lens'); by rewrite length_app|]. split; [|done].
    intros k [Hk|[Hn Hk]%elem_of_shifted]%elem_of_union; [apply Hdel in Hk; lia|apply Hdel' in Hk; lia].
  - intros r Hr'. destruct (lookup_lt_is_Some_2 lens r Hr') as [x Hx].
    unfold w. rewrite (row_of_function (lens ++ lens') _ _ _ _ ty (a + b) r x), (row_of_function lens _ _ _ _ ty a r x)
      by (done || by rewrite lookup_app_l). f_equal. rewrite take_app_le by lia.
    pose proof (sum_take_S _ _ _ Hx). pose proof (sum_take_le lens (S r)).
    apply (append_entries ty T a b d d' d'' c c' c'' del del'); try done; lia.
  - intros r Hr'. destruct (lookup_lt_is_Some_2 lens' r Hr') as [x Hx].
    unfold w. rewrite (row_of_function (lens ++ lens') _ _ _ _ ty (a + b) _ x), (row_of_function lens' _ _ _ _ ty b r x)
      by (done || (rewrite lookup_app_r by lia; by replace (length lens + r - length lens) with r by lia)). f_equal.
    rewrite take_app_ge, sum_list_app' by lia. replace (length lens + r - length lens) with r by lia.
    pose proof (sum_take_S _ _ _ Hx). pose proof (sum_take_le lens' (S r)).
    apply (append_entries ty T a b d d' d'' c c' c'' del del'); try done; lia.
Qed.

Lemma append_function fuel T n m D starts domain codomain pred deleted u :
  appends_rows fuel -> height codomain <= fuel -> tile_ok T n (TileDataFunction starts domain codomain pred deleted) -> tile_ok T m u ->
  alike n m (TileDataFunction starts domain codomain pred deleted) u -> unites shape N D T (TileDataFunction starts domain codomain pred deleted) u ->
  exists w, (forall debug pf, N <= pf -> merge_part checks debug pf (S fuel) false (TileDataFunction starts domain codomain pred deleted) u = Some w) /\
    appended D T n m (TileDataFunction starts domain codomain pred deleted) u w.
Proof.
  intros IH Hh Ht Hu Ha Hun. destruct T as [| |ty T| |]; try done. destruct u as [| |starts' domain' codomain' pred' deleted'| |]; try done.
  destruct Ht as (a & Hd & (lens & -> & <- & Hsum) & Hdel & HT). destruct Hu as (b & Hd' & (lens' & -> & <- & Hsum') & Hdel' & HT').
  destruct Ha as (a' & b' & Ea & Eb & Ha). rewrite (col_len _ _ _ Hd) in Ea. rewrite (col_len _ _ _ Hd') in Eb. simplify_eq.
  destruct Hun as [(r & [Hwr _] & Er) Hun].
  destruct (IH T _ _ _ codomain codomain' Hh HT HT' Ha Hun) as (w & Ew & Hw & Hsw & Hj & H1 & H2).
  destruct (append_ok domain' ty _ _ domain Hd Hd') as (d'' & Ed & Hcat).
  destruct (append_function_rows ty T lens lens' domain domain' d'' codomain codomain' w pred pred' r deleted deleted') as (Hok & Hr1 & Hr2); try done.
  eexists. split; [|split; [exact Hok|split; [done|split; [done|split; [exact Hr1|exact Hr2]]]]].
  intros debug pf Hpf. cbn [merge_part asserted andb negb orb append_keys]. rewrite (col_len _ _ _ Hd). cbn [mbind option_bind]. rewrite Ed. cbn [mbind option_bind]. rewrite (Ew debug pf Hpf).
  cbn [mbind option_bind]. destruct Hcat as [Hc _]. rewrite (col_len _ _ _ Hc). cbn [mbind option_bind].
  rewrite (columns_whole_ok _ _ _ Hw). cbn [mbind option_bind]. rewrite (Er pf Hpf). cbn [mbind option_bind].
  by rewrite run_starts_app, run_starts_shift.
Qed.

Lemma append_rows_ok fuel : appends_rows fuel.
Proof.
  induction fuel as [|fuel IH]; intros T n m D t u Hh Ht Hu Ha Hun; [destruct t; simpl in Hh; lia|].
  destruct t as [cv|fields absent|starts domain codomain pred deleted|kind acc terminal|st se de fr te cl].
  - destruct T; try done. destruct u; try done. by apply append_scalar.
  - by apply append_record.
  - simpl in Hh. apply append_function; try done. lia.
  - destruct T as [| | |k T|]; try done. destruct u as [| | |k' acc' terminal'|]; try done. simpl in Hh.
    destruct Ht as (-> & Ht & Hterm). destruct Hu as (-> & Hu & Hterm').
    destruct (IH T n m D acc acc') as (w & Ew & Hw & Hsw & Hj & H1 & H2); [lia|done..|].
    destruct (append_ok terminal' TyBool _ _ terminal Hterm Hterm') as (c & Ec & Hc & Hl & Hr).
    exists (TileAggregation k w c). split.
    { intros debug pf Hpf. cbn [merge_part asserted andb]. rewrite bool_decide_true by done. rewrite (Ew debug pf Hpf). cbn [mbind option_bind]. by rewrite Ec. } split; [done|]. split; [done|]. split; [done|]. simpl. split; intros r Hr'.
    + by rewrite H1, Hl.
    + by rewrite H2, Hr.
  - by destruct u.
Qed.
End Append.
End AppendFacts.
