(* ===== verification/MergeFacts.v ===== *)
(** * Merging by key

    [merged_rows] of two tiles of one tiling over the rows of an order: each row of the result
    is the left's, the right's, or the two merged by key, and the result states the union of
    their completions. *)

From Stdlib Require Import List.
From stdpp Require Import gmap.
From S2P Require Import Prelude Predicate PredicateSem KeyMaps Guards Values Columns ColumnFacts Tiles TileRows TileFacts TileStores Aggregates TileValid TileMerges MergeSpec AppendFacts.
From S2P Require Import Returns PredicateParts PredicateAlgebra PredicatePaths PredicatePathFacts.
Set Warnings "-register-all,-clear-no-such-hyp".

Section Paths.
Context {K : Type} {KS : KeySets K} {KL : KeySetLaws K KS}.

Lemma anyM_total {A} (f : A -> option bool) l : Forall (fun x => is_Some (f x)) l -> is_Some (anyM f l).
Proof. induction 1 as [|x l [b Hb] _ IH]; simpl; [by eexists|]. rewrite Hb. destruct b; simpl; [by eexists|done]. Qed.

(** A well-formed region answers on every key and on every path. *)
Lemma contains_total sh (p : Predicate K) v : wf1 sh p -> is_Some (contains p v).
Proof.
  revert sh v. induction p as [| |s|m IH|arms IH|tags rest IH|e h IHe IHh] using pred_ind; intros sh v Hwf; try contradiction; try by eexists.
  - destruct v; by eexists.
  - destruct sh as [| |fs|]; try done. destruct Hwf as [_ Hwf]. destruct v as [| |vs|]; try by eexists. cbn [contains].
    revert fs Hwf. induction IH as [|[k p] m Hp _ IHm]; intros fs Hwf; [by eexists|]. destruct fs as [|[k' s] fs]; [done|].
    destruct Hwf as (-> & Hwf & Hrest). cbn [allM]. assert (is_Some (match assoc k' vs with Some v => contains p v | None => Some false end)) as [b Hb].
    { destruct (assoc k' vs); [by eapply Hp|by eexists]. }
    rewrite Hb. cbn [mbind option_bind]. destruct b; [by eapply IHm|by eexists].
  - cbn [contains]. apply anyM_total. destruct Hwf as [_ Hwf]. induction IH as [|a arms Ha _ IHa]; [constructor|].
    destruct Hwf as (_ & Hwa & Hwf). constructor; [by eapply Ha|by apply IHa].
  - destruct sh as [| | |arms r]; try done. destruct Hwf as [_ Hwf]. destruct v as [| | |t v]; try by eexists. cbn [contains].
    induction IH as [|[k p] tags Hp _ IHt]; [by eexists|]. destruct Hwf as [Hwp Hwf]. destruct (decide (t = k)); [by eapply Hp|by apply IHt].
Qed.

Lemma contains_path_total D (p : Predicate K) path : wf D p -> is_Some (contains_path p path).
Proof.
  revert D path. induction p as [| |s|m IH|arms IH|tags rest IH|e h IHe IHh] using pred_ind; intros D path Hwf;
    (destruct D as [|sh above]; [done|]); try by eexists.
  1,2,4: cbn [contains_path]; destruct (last path); [by eapply contains_total|by eexists].
  - cbn [contains_path]. apply anyM_total. apply wf_or in Hwf as [_ Hwf]. rewrite Forall_forall in *. intros a Ha. eapply IH; [done|].
    by apply arm_ok_wf, Hwf.
  - cbn [contains_path]. destruct Hwf as (He & Hh & _). destruct (split_last path) as [[key ab]|]; [|by eexists].
    destruct (IHe above ab He) as [b ->]. cbn [mbind option_bind]. destruct b; [by eapply contains_total|by eexists].
Qed.
End Paths.

Section MergeFacts.
Context {KS : KeySets Scalar} {KL : KeySetLaws Scalar KS}.
Abbreviation Tiling := (Tiling CTy).

(** A row of one of the two tiles, of [n] and of [m] rows. *)
Definition in_sides (n m : nat) (source : RowSource) : Prop :=
  match source with Left i => i < n | Right j => j < m | Both i j => i < n /\ j < m end.

(** ** Columns *)

(** Where a row's value sits in the two columns run together. *)
Definition pick (le re : bool) (offset : nat) (source : RowSource) : option nat :=
  match source with
  | Left i => if le then None else Some i
  | Right j => if re then None else Some (offset + j)
  | Both i j => if le then (if re then None else Some (offset + j)) else Some i
  end.

Lemma cell_of_arrived ty x a i : col ty x a -> cell_of_column a i = if x =? 0 then None else index_at a i.
Proof.
  intros Ha. unfold cell_of_column. rewrite (col_len _ _ _ Ha). destruct (x =? 0) eqn:E; breflect.
  - by rewrite bool_decide_true by by f_equal.
  - by rewrite bool_decide_false by (intros [=]; lia).
Qed.

(** The position of a row's value, that it is in range, and its value there. *)
Lemma pick_ok ty n m x y a b c s :
  col ty x a -> col ty y b -> x = 0 \/ x = n -> y = 0 \/ y = m -> concatenation ty x y a b c -> in_sides n m s ->
  once (cell_of_column a) (cell_of_column b) s ->
  (source_value (cell_of_column a) (cell_of_column b) s = (p ← pick (x =? 0) (y =? 0) x s; index_at c p)) /\
  (forall p, pick (x =? 0) (y =? 0) x s = Some p -> p < x + y) /\
  (is_Some (source_value (cell_of_column a) (cell_of_column b) s) <-> is_Some (pick (x =? 0) (y =? 0) x s)) /\
  match s with Both _ _ => (x =? 0) || (y =? 0) = true | _ => True end.
Proof.
  intros Ha Hb Hx Hy (_ & Hl & Hr) Hin Ho.
  assert (Hla : forall i, i < n -> cell_of_column a i = if x =? 0 then None else index_at c i).
  { intros i Hi. rewrite (cell_of_arrived ty x a i Ha). destruct (x =? 0) eqn:E; [done|]. breflect. rewrite Hl; [done|]. lia. }
  assert (Hrb : forall j, j < m -> cell_of_column b j = if y =? 0 then None else index_at c (x + j)).
  { intros j Hj. rewrite (cell_of_arrived ty y b j Hb). destruct (y =? 0) eqn:E; [done|]. breflect. rewrite Hr; [done|]. lia. }
  assert (Hsa : forall i, i < x -> is_Some (index_at c i)) by (intros i Hi; rewrite Hl by done; by eapply index_some).
  assert (Hsb : forall j, j < y -> is_Some (index_at c (x + j))) by (intros j Hj; rewrite Hr by done; by eapply index_some).
  assert (Hnone : forall v, v = None -> ~ is_Some (v : option Value)) by (by intros ? -> [? ?]).
  destruct s as [i|j|i j]; simpl in *.
  - rewrite Hla by done. destruct (x =? 0) eqn:E; breflect; (split; [done|]); (split; [by intros p [= <-]; lia|]); (split; [|done]).
    + split; by intros [? ?].
    + split; intros _; [by eexists|]. apply Hsa. lia.
  - rewrite Hrb by done. destruct (y =? 0) eqn:E; breflect; (split; [done|]); (split; [by intros p [= <-]; lia|]); (split; [|done]).
    + split; by intros [? ?].
    + split; intros _; [by eexists|]. apply Hsb. lia.
  - destruct Hin as [Hi Hj]. rewrite Hla, Hrb in * by done. destruct (x =? 0) eqn:E; [|destruct (y =? 0) eqn:E']; simpl in *; breflect.
    + destruct (y =? 0) eqn:E'; breflect; (split; [done|]); (split; [by intros p [= <-]; lia|]); (split; [|done]).
      * split; by intros [? ?].
      * split; intros _; [by eexists|]. apply Hsb. lia.
    + destruct (Hsa i) as [v Hv]; [lia|]. rewrite Hv. split; [done|]. split; [by intros p [= <-]; lia|]. split; [|done]. split; by eexists.
    + exfalso. destruct (Hsa i) as [v Hv]; [lia|]. destruct (Hsb j) as [w Hw]; [lia|]. destruct Ho; congruence.
Qed.

Lemma all_some {A} (l : list (option A)) : Forall is_Some l -> exists ps, l = map Some ps /\ omap id l = ps.
Proof.
  induction 1 as [|x l [p ->] _ (ps & -> & E)]; [by exists []|]. exists (p :: ps). split; [done|]. csimpl. by rewrite E.
Qed.

Lemma all_none {A} (l : list (option A)) : Forall (fun x => x = None) l -> omap id l = [].
Proof. induction 1 as [|x l -> _ IH]; [done|]. csimpl. done. Qed.

Lemma merged_column_ok ty n m l r order :
  tile_ok (TScalar ty) n (TileScalar l) -> tile_ok (TScalar ty) m (TileScalar r) -> Forall (in_sides n m) order ->
  carried n m (TileScalar l) (TileScalar r) order ->
  exists c, merged_column l r order = Some c /\ tile_ok (TScalar ty) (length order) (TileScalar c) /\
    forall k s, order !! k = Some s -> cell_of_column c k = source_value (cell_of_column l) (cell_of_column r) s.
Proof.
  intros (x & Hx & Ha) (y & Hy & Hb) Hin [Honce Hall]. unfold merged_column, col_is_empty.
  rewrite (col_len _ _ _ Ha), (col_len _ _ _ Hb). cbn [mbind option_bind].
  destruct (append_ok r ty _ _ l Ha Hb) as (c & Ec & Hcat).
  assert (Hp : forall s, s ∈ order -> (source_value (cell_of_column l) (cell_of_column r) s = (p ← pick (x =? 0) (y =? 0) x s; index_at c p)) /\
    (forall p, pick (x =? 0) (y =? 0) x s = Some p -> p < x + y) /\
    (is_Some (source_value (cell_of_column l) (cell_of_column r) s) <-> is_Some (pick (x =? 0) (y =? 0) x s)) /\
    match s with Both _ _ => (x =? 0) || (y =? 0) = true | _ => True end).
  { intros s Hs. rewrite Forall_forall in Hin, Honce. apply (pick_ok ty n m); auto. }
  destruct ((x =? 0) && (y =? 0)) eqn:E.
  - apply andb_true_iff in E as [E1 E2]. rewrite E1, E2 in Hp. breflect. subst x y. exists l. split; [done|]. split; [exists 0; by split; [left|]|].
    intros k s Hs. rewrite (cell_of_arrived ty 0 l k Ha). simpl. apply list_elem_of_lookup_2, Hp in Hs as [-> _]. by destruct s.
  - rewrite Ec. cbn [mbind option_bind].
    assert (Em : mapM (fun source => match source with
        | Left i => Some (if x =? 0 then None else Some i)
        | Right j => Some (if y =? 0 then None else Some (x + j))
        | Both i j => match x =? 0, y =? 0 with
            | false, true => Some (Some i) | true, false => Some (Some (x + j)) | true, true => Some None | false, false => None end
        end) order = Some (map (pick (x =? 0) (y =? 0) x) order)).
    { apply mapM_Some, Forall2_fmap_r, Forall_Forall2_diag, Forall_forall. intros s Hs. destruct (Hp s Hs) as (_ & _ & _ & Hb').
      destruct s; simpl; try done. destruct (x =? 0), (y =? 0); done. }
    rewrite Em. cbn [mbind option_bind]. destruct Hcat as (Hc & _).
    assert (Hlt : Forall (fun p => p < x + y) (omap id (map (pick (x =? 0) (y =? 0) x) order))).
    { apply Forall_forall. intros p (q & Hq & Eq)%list_elem_of_omap. simpl in Eq. subst q. apply list_elem_of_fmap in Hq as (s & Es & Hs).
      by apply (Hp s Hs). }
    destruct Hall as [Hall|Hall].
    + destruct (all_some (map (pick (x =? 0) (y =? 0) x) order)) as (ps & Eps & Eom).
      { apply Forall_fmap. rewrite Forall_forall in Hall. apply Forall_forall. intros s Hs. by apply (Hp s Hs), Hall. }
      rewrite Eom in *. assert (Hlen : length ps = length order) by (apply (f_equal length) in Eps; by rewrite !length_map in Eps).
      rewrite Hlen, Nat.eqb_refl. simpl. destruct (select_ok c ty _ ps Hc Hlt) as (c' & Es & Hc' & Hix). rewrite Es. exists c'. split; [done|].
      rewrite Hlen in Hc'. split; [exists (length order); by split; [right|]|]. intros k s Hs. rewrite (cell_of_arrived ty _ c' k Hc').
      pose proof (lookup_lt_Some _ _ _ Hs). destruct (length order =? 0) eqn:E0; breflect; [lia|].
      apply (f_equal (lookup k)) in Eps. rewrite !list_lookup_fmap, Hs in Eps. destruct (ps !! k) as [p|] eqn:Ek; [|done].
      simpl in Eps. simplify_eq. rewrite (Hix k p Ek). destruct (Hp s (list_elem_of_lookup_2 _ _ _ Hs)) as [-> _]. by rewrite Eps.
    + assert (E0 : omap id (map (pick (x =? 0) (y =? 0) x) order) = []).
      { apply all_none,  Forall_fmap. rewrite Forall_forall in Hall. apply Forall_forall. intros s Hs. simpl.
        destruct (pick _ _ _ s) eqn:Ep; [|done]. destruct (Hp s Hs) as (_ & _ & [_ H] & _). rewrite Ep in H.
        destruct H as [v Hv]; [by eexists|]. by rewrite Hall in Hv. }
      rewrite E0.
      assert ((length (@nil nat) =? length order) || (length (@nil nat) =? 0) = true) as -> by apply orb_true_r. destruct (select_ok c ty _ [] Hc) as (c' & Es & Hc' & _); [constructor|].
      rewrite Es. exists c'. split; [done|]. split; [exists 0; by split; [left|]|]. intros k s Hs. rewrite (cell_of_arrived ty _ c' k Hc'). simpl.
      rewrite Forall_forall in Hall. symmetry. by eapply Hall, list_elem_of_lookup_2.
Qed.

(** ** Cells *)

Lemma side_positions_ok n absent k f ty :
  field_ok n absent (k, f) (k, TScalar ty) ->
  exists cells X at_, f = TileScalar cells /\ side_positions cells (absent !! k) n = Some at_ /\
    (forall i, i < n -> at_ !! i = Some (cell_position X i)) /\ cells_ok ty n X cells /\
    forall r, r < n -> field_row absent (k, f) r = RCell (cell_at cells X r).
Proof.
  intros Hf. destruct (side_absence_ok n absent k f ty Hf) as (cells & X & -> & EX & HX & _ & Hrow). exists cells, X.
  destruct Hf as [_ Hf]. simpl in Hf. unfold side_positions, side_absence, not_arrived, col_is_empty in *.
  destruct (absent !! k) as [missing|].
  - simpl in EX. simplify_eq. destruct HX as [Hlt Hc]. rewrite (col_len _ _ _ Hc). cbn [mbind option_bind]. eexists. split; [done|].
    split; [by destruct (_ =? 0)|]. split; [|done]. intros i Hi. by rewrite cell_positions_lookup.
  - destruct Hf as (x & Hx & Hc). rewrite (col_len _ _ _ Hc) in *. cbn [mbind option_bind] in *. eexists. split; [done|]. split; [done|]. split; [|done].
    intros i Hi. destruct (x =? 0); simpl in EX; simplify_eq.
    + rewrite lookup_replicate_2 by done. unfold cell_position. rewrite decide_True; [done|]. apply elem_of_list_to_set, elem_of_seq. lia.
    + by rewrite cell_positions_lookup.
Qed.

(** Where a row's cell sits in the cells of both sides. *)
Definition cell_pick (X Y : gset nat) (offset : nat) (source : RowSource) : option nat :=
  match source with
  | Left i => cell_position X i
  | Right j => match cell_position Y j with Some c => Some (offset + c) | None => None end
  | Both i j => match cell_position X i with Some c => Some c | None => match cell_position Y j with Some c => Some (offset + c) | None => None end end
  end.

Lemma cell_pick_ok ty n m X Y a b c s :
  cells_ok ty n X a -> cells_ok ty m Y b -> concatenation ty (n - size X) (m - size Y) a b c -> in_sides n m s ->
  source_value (cell_at a X) (cell_at b Y) s = (p ← cell_pick X Y (n - size X) s; index_at c p) /\
  (forall p, cell_pick X Y (n - size X) s = Some p -> p < n - size X + (m - size Y)) /\
  (once (cell_at a X) (cell_at b Y) s -> match s with Both i j => cell_position X i = None \/ cell_position Y j = None | _ => True end).
Proof.
  intros [HX Ha] [HY Hb] (_ & Hl & Hr) Hin.
  assert (Hla : forall i p, i < n -> cell_position X i = Some p -> p < n - size X /\ index_at c p = index_at a p /\ is_Some (index_at a p)).
  { intros i p Hi Hp. pose proof (cell_position_lt _ _ _ _ HX Hi Hp). split; [done|]. split; [by apply Hl|by eapply index_some]. }
  assert (Hrb : forall j p, j < m -> cell_position Y j = Some p -> p < m - size Y /\ index_at c (n - size X + p) = index_at b p /\ is_Some (index_at b p)).
  { intros j p Hj Hp. pose proof (cell_position_lt _ _ _ _ HY Hj Hp). split; [done|]. split; [by apply Hr|by eapply index_some]. }
  destruct s as [i|j|i j]; simpl in *; rewrite ?cell_at_position.
  - destruct (cell_position X i) as [p|] eqn:E; simpl; [|done]. destruct (Hla i p Hin E) as (? & -> & _). split; [done|]. split; [intros q [= <-]; lia|done].
  - destruct (cell_position Y j) as [p|] eqn:E; simpl; [|done]. destruct (Hrb j p Hin E) as (? & -> & _). split; [done|]. split; [intros q [= <-]; lia|done].
  - destruct Hin as [Hi Hj]. destruct (cell_position X i) as [p|] eqn:E; simpl.
    + destruct (Hla i p Hi E) as (? & -> & v & ->). split; [done|]. split; [intros q [= <-]; lia|]. intros [?|Hn]; [done|].
      right. destruct (cell_position Y j) as [q|] eqn:Eq; [|done]. destruct (Hrb j q Hj Eq) as (_ & _ & w & Ew). simpl in Hn. congruence.
    + destruct (cell_position Y j) as [q|] eqn:Eq; simpl; [|by repeat split; [|left]]. destruct (Hrb j q Hj Eq) as (? & -> & _).
      split; [done|]. split; [intros q' [= <-]; lia|by left].
Qed.

Lemma source_value_ext la lb ra rb n m s :
  in_sides n m s -> (forall i, i < n -> la i = lb i) -> (forall j, j < m -> ra j = rb j) -> source_value la ra s = source_value lb rb s.
Proof. destruct s; simpl; intros H Hl Hr; [by apply Hl|by apply Hr|]. destruct H. by rewrite Hl, Hr. Qed.

Lemma once_ext la lb ra rb n m s :
  in_sides n m s -> (forall i, i < n -> la i = lb i) -> (forall j, j < m -> ra j = rb j) -> once la ra s -> once lb rb s.
Proof. destruct s; simpl; intros H Hl Hr; [done|done|]. destruct H. by rewrite Hl, Hr. Qed.

(** A field that has no cell at some rows of a side, merged. *)
Lemma merged_cells_ok ty n m absent absent' k f u order :
  field_ok n absent (k, f) (k, TScalar ty) -> field_ok m absent' (k, u) (k, TScalar ty) -> Forall (in_sides n m) order ->
  Forall (once (field_cell absent (k, f)) (field_cell absent' (k, u))) order ->
  exists a b c missing, f = TileScalar a /\ u = TileScalar b /\
    merged_cells a (absent !! k) n b (absent' !! k) m order = Some (c, missing) /\
    field_done (length order) (TScalar ty) (TileScalar c, if decide (missing = ∅) then None else Some missing) /\
    forall j s, order !! j = Some s ->
      done_row (TileScalar c, if decide (missing = ∅) then None else Some missing) j
      = RCell (source_value (field_cell absent (k, f)) (field_cell absent' (k, u)) s).
Proof.
  intros Hf Hu Hin Honce. destruct (side_positions_ok _ _ _ _ _ Hf) as (a & X & l_at & -> & El & Hl & HX & Hrx).
  destruct (side_positions_ok _ _ _ _ _ Hu) as (b & Y & r_at & -> & Er & Hr & HY & Hry).
  assert (Hca : forall i, i < n -> field_cell absent (k, TileScalar a) i = cell_at a X i) by (intros i Hi; unfold field_cell; by rewrite Hrx).
  assert (Hcb : forall j, j < m -> field_cell absent' (k, TileScalar b) j = cell_at b Y j) by (intros j Hj; unfold field_cell; by rewrite Hry).
  rewrite Forall_forall in Hin, Honce.
  destruct (append_ok b ty _ _ a (proj2 HX) (proj2 HY)) as (c & Ec & Hcat).
  assert (Hpick : forall s, s ∈ order -> _) by (intros s Hs; exact (cell_pick_ok ty n m X Y a b c s HX HY Hcat (Hin s Hs))).
  assert (Em : mapM (source_cell l_at r_at (n - size X)) order = Some (map (cell_pick X Y (n - size X)) order)).
  { apply mapM_Some, Forall2_fmap_r, Forall_Forall2_diag, Forall_forall. intros s Hs. pose proof (Hin s Hs) as Hs'.
    destruct (Hpick s Hs) as (_ & _ & Ho). specialize (Ho (once_ext _ _ _ _ n m s Hs' Hca Hcb (Honce s Hs))).
    destruct s as [i|j|i j]; simpl in *; [by apply Hl|by rewrite Hr|]. destruct Hs' as [Hi Hj]. rewrite Hl, Hr by done. simpl.
    destruct (cell_position X i), (cell_position Y j); try done. by destruct Ho. }
  destruct Hcat as (Hc & Hcl & Hcr).
  destruct (picked_cells_ok ty _ c (map (cell_pick X Y (n - size X)) order) Hc) as (c' & Es & Hc' & Hix).
  { intros p (s & E & Hs)%list_elem_of_fmap. by apply (Hpick s Hs). }
  rewrite length_map in Hc'. exists a, b, c', (gone_rows (map (cell_pick X Y (n - size X)) order)).
  split; [done|]. split; [done|]. split.
  { unfold merged_cells. rewrite El, Er. cbn [mbind option_bind]. rewrite (col_len _ _ _ (proj2 HX)). cbn [mbind option_bind].
    rewrite Ec. cbn [mbind option_bind]. rewrite Em. cbn [mbind option_bind]. by rewrite Es. }
  set (gone := gone_rows _) in *.
  assert (Hcell : forall j s, order !! j = Some s -> cell_at c' gone j = source_value (field_cell absent (k, TileScalar a)) (field_cell absent' (k, TileScalar b)) s).
  { intros j s Hj. rewrite (Hix j (cell_pick X Y (n - size X) s)) by by rewrite list_lookup_fmap, Hj. apply list_elem_of_lookup_2 in Hj.
    rewrite (source_value_ext _ _ _ _ n m s (Hin s Hj) Hca Hcb). destruct (Hpick s Hj) as [-> _]. done. }
  unfold field_done, done_row. destruct (decide (gone = ∅)) as [He|He]; simpl.
  - rewrite He, size_empty, Nat.sub_0_r in Hc'. split; [exists (length order); by split; [right|]|]. intros j s Hj. f_equal.
    rewrite <- (cell_at_whole c' ty (length order)), <- He by (done || by eapply lookup_lt_Some). by apply Hcell.
  - split; [|intros j s Hj; f_equal; by apply Hcell]. split; [done|]. split; [|by exists c', ty].
    intros j Hj%gone_lt. by rewrite length_map in Hj.
Qed.

(** ** Matched keys *)

Fixpoint find_key (domain : ColumnValue) (run : list nat) (k : option Value) : option nat :=
  match run with
  | [] => None
  | j :: run => if decide (k = index_at domain j) then Some j else find_key domain run k
  end.

Lemma entry_of_entries domain codomain deleted run k :
  entry_of k (entries domain codomain deleted run) = (j ← find_key domain run k; Some (bool_decide (j ∈ deleted), row_of codomain j)).
Proof. induction run as [|j run IH]; [done|]. simpl. destruct (decide (k = index_at domain j)); [done|]. apply IH. Qed.

Lemma find_key_some domain run k j : find_key domain run k = Some j -> j ∈ run /\ index_at domain j = k.
Proof.
  induction run as [|i run IH]; [done|]. simpl. destruct (decide (k = index_at domain i)) as [->|]; [intros [= <-]; split; [by left|done]|].
  intros [? ?]%IH. split; [by right|done].
Qed.

Lemma find_key_none domain run k : find_key domain run k = None <-> k ∉ map (index_at domain) run.
Proof.
  induction run as [|i run IH]; simpl; [split; [intros _; apply not_elem_of_nil|done]|]. rewrite not_elem_of_cons.
  destruct (decide (k = index_at domain i)); [split; [done|intros [? _]; done]|]. rewrite IH. tauto.
Qed.

Lemma find_key_unique domain run j :
  NoDup (map (index_at domain) run) -> j ∈ run -> find_key domain run (index_at domain j) = Some j.
Proof.
  induction run as [|i run IH]; intros Hnd Hj; [by apply not_elem_of_nil in Hj|]. simpl in Hnd. apply NoDup_cons in Hnd as [Hni Hnd]. simpl.
  apply elem_of_cons in Hj as [->|Hj]; [by rewrite decide_True|]. rewrite decide_False; [by apply IH|]. intros E. apply Hni. rewrite <- E.
  by apply list_elem_of_In, in_map, list_elem_of_In.
Qed.

(** The keys of a run with their positions. *)
Lemma run_pairs domain run :
  Forall (fun j => is_Some (index_at domain j)) run ->
  exists right, mapM (fun j => v ← index_at domain j; Some (v, j)) run = Some right /\
    map (fun vj => Some vj.1) right = map (index_at domain) run /\ forall v, assoc v right = find_key domain run (Some v).
Proof.
  induction 1 as [|j run [v Hv] _ (right & E & Em & Ha)]; [by exists []|]. exists ((v, j) :: right). simpl. rewrite Hv, E. simpl.
  split; [done|]. split; [by rewrite Em|]. intros w. rewrite Ha. destruct (decide (w = v)) as [->|Hne]; [by rewrite decide_True|].
  rewrite decide_False by congruence. done.
Qed.

Definition matched_source (r_domain : ColumnValue) (r_run : list nat) (l_domain : ColumnValue) (i : nat) : RowSource :=
  match find_key r_domain r_run (index_at l_domain i) with Some j => Both i j | None => Left i end.

Lemma matched_left_ok l_domain l_run r_domain r_run right :
  Forall (fun i => is_Some (index_at l_domain i)) l_run -> (forall v, assoc v right = find_key r_domain r_run (Some v)) ->
  exists left, mapM (fun i => v ← index_at l_domain i; Some (i, v)) l_run = Some left /\
    matched_left left right = map (matched_source r_domain r_run l_domain) l_run.
Proof.
  intros H Ha. induction H as [|i run [v Hv] _ (lefts & E & Em)]; [by exists []|]. exists ((i, v) :: lefts). simpl. rewrite Hv, E. simpl.
  split; [done|]. rewrite Em. unfold matched_source at 2. by rewrite Hv, Ha.
Qed.

Lemma elem_of_matched_rights l_domain l_run r_domain r_run j :
  NoDup (map (index_at r_domain) r_run) -> j ∈ r_run ->
  j ∈ matched_rights (map (matched_source r_domain r_run l_domain) l_run) <-> index_at r_domain j ∈ map (index_at l_domain) l_run.
Proof.
  intros Hnd Hj. unfold matched_rights. rewrite list_elem_of_omap. split.
  - intros (s & (i & -> & Hi)%list_elem_of_fmap & Es). unfold matched_source in Es. destruct (find_key _ _ _) as [j'|] eqn:Ef; [|done].
    simplify_eq. apply find_key_some in Ef as [_ E]. rewrite E. apply list_elem_of_In, in_map_iff. exists i. split; [done|by apply list_elem_of_In].
  - intros (i & E & Hi)%list_elem_of_fmap. exists (matched_source r_domain r_run l_domain i). split; [by apply list_elem_of_fmap_2|].
    unfold matched_source. by rewrite <- E, find_key_unique.
Qed.

Lemma matched_keys_ok l_domain l_run r_domain r_run :
  Forall (fun i => is_Some (index_at l_domain i)) l_run -> Forall (fun j => is_Some (index_at r_domain j)) r_run ->
  NoDup (map (index_at r_domain) r_run) ->
  matched_keys l_domain l_run r_domain r_run
  = Some (map (matched_source r_domain r_run l_domain) l_run ++
      map Right (List.filter (fun j => negb (bool_decide (index_at r_domain j ∈ map (index_at l_domain) l_run))) r_run)).
Proof.
  intros Hl Hr Hnd. unfold matched_keys. destruct (run_pairs r_domain r_run Hr) as (right & -> & Em & Ha). cbn [mbind option_bind].
  assert (Hndr : NoDup (map fst right)).
  { rewrite <- Em in Hnd. rewrite <- map_map in Hnd. clear -Hnd. by apply (NoDup_fmap_1 Some). }
  destruct (matched_left_ok l_domain l_run r_domain r_run (rev right)) as (lefts & -> & Eml); [done| |].
  { intros v. rewrite <- Ha. symmetry. apply assoc_perm; [done|]. apply Permutation_rev. }
  cbn [mbind option_bind]. rewrite Eml. do 3 f_equal. apply List.filter_ext_in. intros j Hj%list_elem_of_In. f_equal.
  apply bool_decide_ext. by apply elem_of_matched_rights.
Qed.

(** ** Keys of a merged row *)

Section Keys.
Context (ty : CTy) (T : Tiling) (a b : nat) (lens lens' : list nat) (d d' : ColumnValue) (c c' : Tile) (del del' : gset nat).
Context (Hd : col ty a d) (Hd' : col ty b d') (Ha : sum_list lens = a) (Hb : sum_list lens' = b).

(** The entry of a key of the merge. *)
Definition source_entry (key : RowSource) : option Value * bool * RowVal :=
  (key_value d d' key, key_deleted del del' key, source_row T c c' key).

Lemma matched_entries l_run r_run :
  map source_entry (map (matched_source d' r_run d) l_run ++
      map Right (List.filter (fun j => negb (bool_decide (index_at d' j ∈ map (index_at d) l_run))) r_run))
  = match_entries (merged_val T) (entries d c del l_run) (entries d' c' del' r_run).
Proof.
  rewrite map_app. unfold match_entries. f_equal.
  - unfold entries at 2. rewrite !map_map. apply map_ext. intros i. rewrite entry_of_entries. unfold matched_source, source_entry.
    by destruct (find_key d' r_run (index_at d i)).
  - assert (Ek : map (fun e : option Value * bool * RowVal => e.1.1) (entries d c del l_run) = map (index_at d) l_run).
    { unfold entries. by rewrite map_map. }
    rewrite Ek. clear Ek. induction r_run as [|j r_run IH]; [done|]. simpl. destruct (negb _); simpl; [|done]. f_equal. exact IH.
Qed.

Lemma level_run_keys ls i m : i < length ls -> sum_list ls = m -> exists run, level_run (run_starts 0 ls) i m = Some run /\ range run = run_keys ls i.
Proof.
  intros Hi Hm. eexists. split; [by apply level_run_starts|]. destruct (lookup_lt_is_Some_2 ls i Hi) as [x Hx].
  unfold run_keys. by rewrite (run_range _ _ _ Hx), (nth_lookup_Some _ _ _ _ Hx).
Qed.

Lemma row_of_keys ls domain codomain pred deleted t m r :
  col t m domain -> sum_list ls = m -> r < length ls ->
  row_of (TileDataFunction (run_starts 0 ls) domain codomain pred deleted) r = RColl (entries domain codomain deleted (run_keys ls r)).
Proof.
  intros Hc Hm Hr. destruct (lookup_lt_is_Some_2 ls r Hr) as [x Hx]. rewrite (row_of_function ls _ _ _ _ t m r x) by done.
  unfold run_keys. by rewrite (nth_lookup_Some _ _ _ _ Hx).
Qed.

Lemma run_some ls domain m r : col ty m domain -> sum_list ls = m -> r < length ls -> Forall (fun k => is_Some (index_at domain k)) (run_keys ls r).
Proof.
  intros Hc Hm Hr. apply Forall_forall. intros k Hk. eapply index_some; [exact Hc|]. rewrite <- Hm. by eapply run_keys_lt.
Qed.

Definition left_tile (p : Predicate Scalar) : Tile := TileDataFunction (run_starts 0 lens) d c p del.
Definition right_tile (p : Predicate Scalar) : Tile := TileDataFunction (run_starts 0 lens') d' c' p del'.

Lemma row_keys_ok p q s :
  in_sides (length lens) (length lens') s ->
  (forall i j, s = Both i j -> distinct (row_of (right_tile q) j)) ->
  exists ks, row_keys (holds_a_level T) (run_starts 0 lens) d (run_starts 0 lens') d' s = Some ks /\ Forall (in_sides a b) ks /\
    RColl (map source_entry ks) = source_row (TDataFunction ty T) (left_tile p) (right_tile q) s /\
    Forall (fun key => forall i j, key = Both i j -> distinct (row_of c' j)) ks.
Proof.
  intros Hin Hdis. unfold row_keys, left_tile, right_tile in *. rewrite (col_len _ _ _ Hd), (col_len _ _ _ Hd'). cbn [mbind option_bind].
  assert (Hlt : forall i, i < length lens -> forall k, k ∈ run_keys lens i -> k < a) by (intros i Hi k Hk; rewrite <- Ha; by eapply run_keys_lt).
  assert (Hlt' : forall j, j < length lens' -> forall k, k ∈ run_keys lens' j -> k < b) by (intros j Hj k Hk; rewrite <- Hb; by eapply run_keys_lt).
  destruct s as [i|j|i j]; simpl in Hin.
  - destruct (level_run_keys lens i a Hin Ha) as (run & -> & Er). cbn [mbind option_bind]. rewrite Er. eexists. split; [done|]. split; [|split].
    + apply Forall_fmap, Forall_forall. intros k Hk. by eapply Hlt.
    + cbn [source_row]. rewrite (row_of_keys lens _ _ _ _ ty a i) by done. f_equal. unfold entries. by rewrite map_map.
    + by apply Forall_fmap, Forall_forall.
  - destruct (level_run_keys lens' j b Hin Hb) as (run & -> & Er). cbn [mbind option_bind]. rewrite Er. eexists. split; [done|]. split; [|split].
    + apply Forall_fmap, Forall_forall. intros k Hk. by eapply Hlt'.
    + cbn [source_row]. rewrite (row_of_keys lens' _ _ _ _ ty b j) by done. f_equal. unfold entries. by rewrite map_map.
    + by apply Forall_fmap, Forall_forall.
  - destruct Hin as [Hi Hj]. destruct (level_run_keys lens i a Hi Ha) as (run & -> & Er). destruct (level_run_keys lens' j b Hj Hb) as (run' & -> & Er').
    cbn [mbind option_bind]. rewrite Er, Er'. cbn [source_row]. rewrite (row_of_keys lens _ _ _ _ ty a i), (row_of_keys lens' _ _ _ _ ty b j) by done.
    specialize (Hdis i j eq_refl). rewrite (row_of_keys lens' _ _ _ _ ty b j) in Hdis by done. destruct Hdis as [Hnd Hdis].
    unfold entries in Hnd at 1. rewrite map_map in Hnd. simpl in Hnd. cbn [merged_val]. destruct (holds_a_level T).
    + rewrite (matched_keys_ok d _ d' _ (run_some lens d a i Hd Ha Hi) (run_some lens' d' b j Hd' Hb Hj) Hnd). eexists. split; [done|].
      rewrite all_of_Forall, Forall_forall in Hdis. split; [|split; [by rewrite matched_entries|]].
      * apply Forall_app. split; apply Forall_fmap, Forall_forall; [intros k Hk|intros k Hk%list_elem_of_In%List.filter_In].
        -- simpl. unfold matched_source. destruct (find_key _ _ _) as [k'|] eqn:Ef; simpl; [|by apply (Hlt i)]. apply find_key_some in Ef as [Hk' _].
           split; [by apply (Hlt i)|by apply (Hlt' j)].
        -- simpl. apply (Hlt' j); [done|]. apply list_elem_of_In, Hk.
      * apply Forall_app. split; apply Forall_fmap, Forall_forall; [intros k Hk|by intros k Hk].
        simpl. unfold matched_source. intros i' j'. destruct (find_key _ _ _) as [k'|] eqn:Ef; [|done]. intros [= <- <-].
        apply find_key_some in Ef as [Hk' _]. apply (Hdis (index_at d' k', bool_decide (k' ∈ del'), row_of c' k')).
        unfold entries. apply list_elem_of_In, in_map_iff. exists k'. split; [done|by apply list_elem_of_In].
    + eexists. split; [done|]. split; [|split].
      * apply Forall_app. split; apply Forall_fmap, Forall_forall; intros k Hk; [by eapply Hlt|by eapply Hlt'].
      * f_equal. rewrite map_app, !map_map. done.
      * apply Forall_app. split; by apply Forall_fmap, Forall_forall.
Qed.
End Keys.

(** ** Merged tiles *)

Lemma holds_level_ok T n t : tile_ok T n t -> tile_holds_a_level t = holds_a_level T.
Proof.
  revert T n. induction t as [cv|fields absent IH|starts domain codomain pred deleted _|kind acc terminal _|st se de fr te cl _ _ _ _] using tile_ind;
    intros T n H; try by destruct T.
  apply tile_ok_record in H as (ts & -> & _ & _ & H). simpl. induction H as [|[k f] [k' U] fields ts [_ Hf] _ IHf]; [done|].
  apply Forall_cons in IH as [IHc IH]. simpl. rewrite (IHf IH). f_equal. simpl in *.
  destruct (absent !! k); [|by eapply IHc]. destruct Hf as (_ & _ & cells & ty & -> & -> & _). done.
Qed.

(** The paths of the keys of a merge. *)
Lemma merged_paths_ok l_domain r_domain paths keys :
  length paths = length keys -> Forall (Forall (fun key => is_Some (key_value l_domain r_domain key))) keys ->
  exists ps, merged_paths l_domain r_domain paths keys = Some ps /\ length ps = length (concat keys).
Proof.
  intros Hlen Hkeys. unfold merged_paths.
  destruct (mapM_rel (fun '(row, keys) => mapM (fun key => v ← key_value l_domain r_domain key; path ← paths !! row; Some (path ++ [v])) keys)
    (fun rk ps => length ps = length rk.2) (imap pair keys)) as (pss & -> & Hps).
  - intros [row ks] Hin. apply list_elem_of_lookup in Hin as [i Hi]. rewrite list_lookup_imap in Hi.
    destruct (keys !! i) as [ks'|] eqn:Ek; [|done]. simpl in Hi. simplify_eq. pose proof (lookup_lt_Some _ _ _ Ek) as Hlt.
    destruct (lookup_lt_is_Some_2 paths row) as [path Hpath]; [lia|]. rewrite Forall_forall in Hkeys.
    pose proof (Hkeys ks (list_elem_of_lookup_2 _ _ _ Ek)) as Hks. rewrite Forall_forall in Hks.
    destruct (mapM_some (fun key => v ← key_value l_domain r_domain key; path ← paths !! row; Some (path ++ [v])) ks) as (ps & Eps & Hl).
    + intros key Hkey. destruct (Hks key Hkey) as [v ->]. simpl. rewrite Hpath. by eexists.
    + exists ps. split; [done|]. simpl. by rewrite (Forall2_length _ _ _ Hl).
  - cbn [mbind option_bind]. eexists. split; [done|]. rewrite !length_concat. f_equal.
    apply list_eq. intros i. rewrite !list_lookup_fmap. pose proof (Forall2_length _ _ _ Hps) as Hl. rewrite length_imap in Hl.
    destruct (pss !! i) as [ps|] eqn:Ei.
    + destruct (Forall2_lookup_r _ _ _ _ _ Hps Ei) as ([row ks] & Hi & E). rewrite list_lookup_imap in Hi. destruct (keys !! i); [|done].
      simpl in *. simplify_eq. by rewrite E.
    + apply lookup_ge_None in Ei. by rewrite lookup_ge_None_2 by lia.
Qed.

Lemma elem_of_positions_where {A} (f : A -> bool) l j : j ∈ positions_where f l <-> exists x, l !! j = Some x /\ f x = true.
Proof.
  unfold positions_where. rewrite elem_of_list_to_set, list_elem_of_omap. split.
  - intros ([i x] & Hin & E). destruct (f x) eqn:Ef; [|done]. simplify_eq. apply list_elem_of_lookup in Hin as [k Hk].
    rewrite list_lookup_imap in Hk. destruct (l !! k) eqn:Ek; [|done]. simpl in Hk. simplify_eq. eauto.
  - intros (x & Hx & Hf). exists (j, x). rewrite Hf. split; [|done]. apply list_elem_of_lookup. exists j. by rewrite list_lookup_imap, Hx.
Qed.

Section Merge.
Context (shape : CTy -> Shape) (checks : bool) (N : nat).

Definition merged (D : Domain) (T : Tiling) (l r : Tile) (order : list RowSource) (w : Tile) : Prop :=
  tile_ok T (length order) w /\ stated shape D T w /\ joins N l r w /\
  forall k s, order !! k = Some s -> row_of w k = source_row T l r s.

(** The keys a row both sides delivered holds on the right are distinct. *)
Definition distinct_right (r : Tile) (s : RowSource) : Prop := forall i j, s = Both i j -> distinct (row_of r j).

Definition merges (fuel : nat) : Prop :=
  forall T n m D l r order settled paths,
    height l <= fuel -> tile_ok T n l -> tile_ok T m r -> Forall (in_sides n m) order -> carried n m l r order ->
    unites shape N D T l r -> stated shape D T l -> stated shape D T r -> Forall (distinct_right r) order -> length paths = length order ->
    exists w, (forall debug pf, N <= pf -> merged_rows checks debug pf fuel l r order settled paths = Some w) /\ merged D T l r order w.

(** The collection a merge builds over the keys of each row. *)
Lemma built_rows ty T a b d d' d'' c c' w p del del' (keys : list (list RowSource)) domain :
  concatenation ty a b d d' d'' -> Forall (in_sides a b) (concat keys) ->
  selection ty d'' (map (picked_at a) (concat keys)) domain -> tile_ok T (length (concat keys)) w ->
  (forall k s, concat keys !! k = Some s -> row_of w k = source_row T c c' s) ->
  let t := TileDataFunction (run_starts 0 (map length keys)) domain w p (positions_where (key_deleted del del') (concat keys)) in
  tile_ok (TDataFunction ty T) (length keys) t /\
  forall g ks, keys !! g = Some ks -> row_of t g = RColl (map (source_entry T d d' c c' del del') ks).
Proof.
  intros (_ & Hl & Hr) Hin [Hc Hix] Hw Hrow t. rewrite length_map in Hc.
  assert (Hsum : sum_list (map length keys) = length (concat keys)) by by rewrite length_concat. split.
  - exists (length (concat keys)). split; [done|]. split; [exists (map length keys); by rewrite length_map|]. split; [|done].
    intros k (x & Hx & _)%elem_of_positions_where. by apply lookup_lt_Some in Hx.
  - intros g ks Hg. unfold t.
    rewrite (row_of_function (map length keys) _ _ _ _ ty (length (concat keys)) g (length ks)); [|done..|by rewrite list_lookup_fmap, Hg].
    f_equal. unfold entries. apply (map_run keys g ks); [done|]. intros j s Hj. unfold source_entry. f_equal; [f_equal|].
    + rewrite (Hix j (picked_at a s)) by by rewrite list_lookup_fmap, Hj. rewrite Forall_forall in Hin.
      pose proof (Hin s (list_elem_of_lookup_2 _ _ _ Hj)) as Hs. destruct s as [i|i|i i']; simpl in *; [by apply Hl|by apply Hr|apply Hl; lia].
    + destruct (key_deleted del del' s) eqn:E.
      * apply bool_decide_true. apply elem_of_positions_where. eauto.
      * apply bool_decide_false. rewrite elem_of_positions_where. intros (x & Hx & Ex). congruence.
    + by apply Hrow.
Qed.

Lemma merge_function fuel T n m D starts domain codomain pred deleted r order settled paths :
  merges fuel -> let l := TileDataFunction starts domain codomain pred deleted in
  height codomain <= fuel -> tile_ok T n l -> tile_ok T m r -> Forall (in_sides n m) order -> carried n m l r order ->
  unites shape N D T l r -> stated shape D T l -> stated shape D T r -> Forall (distinct_right r) order -> length paths = length order ->
  exists w, (forall debug pf, N <= pf -> merged_rows checks debug pf (S fuel) l r order settled paths = Some w) /\ merged D T l r order w.
Proof.
  intros IH l Hh Ht Hu Hin Hca Hun Hst Hsu Hdis Hlen. destruct T as [| |ty T| |]; try done.
  destruct r as [| |starts' domain' codomain' pred' deleted'| |]; try done.
  destruct Ht as (a & Hd & (lens & -> & <- & Hsum) & Hdel & HT). destruct Hu as (b & Hd' & (lens' & -> & <- & Hsum') & Hdel' & HT').
  destruct Hca as (a' & b' & keys & Ea & Eb & Ek & Hca). rewrite (col_len _ _ _ Hd) in Ea. rewrite (col_len _ _ _ Hd') in Eb. simplify_eq.
  destruct Hun as [(q & [Hwq _] & Eq) Hun]. destruct Hst as [Hp Hst]. destruct Hsu as [Hp' Hsu]. rewrite (holds_level_ok _ _ _ HT) in Ek.
  rewrite Forall_forall in Hin, Hdis.
  destruct (mapM_rel (row_keys (holds_a_level T) (run_starts 0 lens) domain (run_starts 0 lens') domain') (fun s ks =>
      Forall (in_sides (sum_list lens) (sum_list lens')) ks /\
      RColl (map (source_entry T domain domain' codomain codomain' deleted deleted') ks)
        = source_row (TDataFunction ty T) l (TileDataFunction (run_starts 0 lens') domain' codomain' pred' deleted') s /\
      Forall (distinct_right codomain') ks) order) as (keys' & Ek' & Hks).
  { intros s Hs. destruct (row_keys_ok ty T _ _ lens lens' domain domain' codomain codomain' deleted deleted' Hd Hd' eq_refl eq_refl pred pred' s)
      as (ks & E & H1 & H2 & H3); [by apply Hin|intros i j ->; by eapply Hdis|]. by exists ks. }
  simplify_eq. assert (Hkin : Forall (in_sides (sum_list lens) (sum_list lens')) (concat keys)).
  { apply Forall_concat. apply Forall_forall. intros ks Hks'. apply list_elem_of_lookup in Hks' as [i Hi].
    by destruct (Forall2_lookup_r _ _ _ _ _ Hks Hi) as (s & _ & ? & _). }
  assert (Hkdis : Forall (distinct_right codomain') (concat keys)).
  { apply Forall_concat. apply Forall_forall. intros ks Hks'. apply list_elem_of_lookup in Hks' as [i Hi].
    by destruct (Forall2_lookup_r _ _ _ _ _ Hks Hi) as (s & _ & _ & _ & ?). }
  pose proof (Forall2_length _ _ _ Hks) as Hlk.
  destruct (merged_paths_ok domain domain' paths keys) as (kp & Ekp & Hlkp); [lia| |].
  { apply Forall_forall. intros ks Hks'. apply Forall_forall. intros key Hkey. rewrite Forall_forall in Hkin.
    assert (Hk : key ∈ concat keys) by (apply list_elem_of_In, in_concat; exists ks; split; by apply list_elem_of_In).
    apply Hkin in Hk. destruct key as [i|j|i j]; simpl in *; [eapply index_some|eapply index_some|eapply (index_some domain)]; eauto. apply Hk. }
  destruct (mapM_some (fun '(key, path) => contains_path (match key with Right _ => pred' | _ => pred end) path) (zip (concat keys) kp)) as (ks & Eks & _).
  { intros [key path] _. destruct key; eapply contains_path_total; eauto. }
  destruct (append_ok domain' ty _ _ domain Hd Hd') as (d'' & Ed & Hcat).
  destruct (select_ok d'' ty (sum_list lens + sum_list lens') (map (picked_at (sum_list lens)) (concat keys))) as (dom & Edom & Hdom); [apply Hcat| |].
  { apply Forall_fmap, Forall_forall. intros key Hkey. rewrite Forall_forall in Hkin. apply Hkin in Hkey. destruct key; simpl in *; lia. }
  destruct (IH T _ _ _ codomain codomain' (concat keys) ks kp Hh HT HT' Hkin Hca Hun Hst Hsu Hkdis Hlkp) as (w & Ew & Hw & Hsw & Hj & Hrow).
  destruct (built_rows ty T _ _ domain domain' d'' codomain codomain' w q deleted deleted' keys dom Hcat Hkin Hdom Hw Hrow) as [Hok Hrows].
  eexists. split; [|split; [rewrite Hlk; exact Hok|split; [done|split; [done|]]]].
  - intros debug pf Hpf. unfold l. cbn [merged_rows]. rewrite (holds_level_ok _ _ _ HT), Ek. cbn [mbind option_bind]. rewrite Ekp. cbn [mbind option_bind]. rewrite Eks. cbn [mbind option_bind].
    rewrite Ed. cbn [mbind option_bind]. rewrite (col_len _ _ _ Hd). cbn [mbind option_bind]. rewrite Edom. cbn [mbind option_bind]. rewrite (Ew debug pf Hpf). cbn [mbind option_bind].
    by rewrite (Eq pf Hpf).
  - intros k s Hk. destruct (Forall2_lookup_l _ _ _ _ _ Hks Hk) as (kl & Hkl & _ & E & _). rewrite (Hrows k kl Hkl). done.
Qed.

(** ** Records *)

(** The fields of two records of one tiling, side by side. *)
Lemma align n m absent absent' fields fields' (ts : list (string * Tiling)) :
  Forall2 (field_ok n absent) fields ts -> Forall2 (field_ok m absent') fields' ts ->
  exists Z : list (string * (Tiling * Tile * Tile)),
    ts = map (fun z => (z.1, z.2.1.1)) Z /\ fields = map (fun z => (z.1, z.2.1.2)) Z /\ fields' = map (fun z => (z.1, z.2.2)) Z /\
    Forall (fun z => field_ok n absent (z.1, z.2.1.2) (z.1, z.2.1.1) /\ field_ok m absent' (z.1, z.2.2) (z.1, z.2.1.1)) Z.
Proof.
  intros H. revert fields'. induction H as [|[k f] [k' T] fields ts Hf _ IH]; intros fields' H'.
  - inversion H'. by exists [].
  - inversion H' as [|[k'' u] ? fields'' ? Hu Hrest]; subst. destruct (IH _ Hrest) as (Z & -> & -> & -> & HZ).
    destruct Hf as [E Hf]. destruct Hu as [E' Hu]. simpl in E, E'. subst k k''. exists ((k', (T, f, u)) :: Z). simpl. repeat split; [done..|].
    constructor; [|done]. split; by split.
Qed.

(** What a field of a merged record holds. *)
Definition source_field (absent absent' : gmap string (gset nat)) (z : string * (Tiling * Tile * Tile)) (s : RowSource) : RowVal :=
  match s with
  | Left i => field_row absent (z.1, z.2.1.2) i
  | Right j => field_row absent' (z.1, z.2.2) j
  | Both i j => merged_val z.2.1.1 (field_row absent (z.1, z.2.1.2) i) (field_row absent' (z.1, z.2.2) j)
  end.

Lemma source_record absent absent' (Z : list (string * (Tiling * Tile * Tile))) s :
  source_row (TRecord (map (fun z => (z.1, z.2.1.1)) Z)) (TileRecord (map (fun z => (z.1, z.2.1.2)) Z) absent)
    (TileRecord (map (fun z => (z.1, z.2.2)) Z) absent') s
  = RRecord (map (fun z => (z.1, source_field absent absent' z s)) Z).
Proof.
  destruct s as [i|j|i j]; cbn [source_row]; rewrite !row_of_record; [by rewrite map_map..|].
  cbn [merged_val]. f_equal. induction Z as [|[k [[T f] u]] Z IH]; [done|]. simpl. by rewrite IH.
Qed.

Definition field_merged (D : Domain) (n m : nat) (absent absent' : gmap string (gset nat)) (order : list RowSource)
    (settled : list bool) (paths : list (list Value)) (fuel : nat)
    (z : string * (Tiling * Tile * Tile)) (kd : string * (Tile * option (gset nat))) : Prop :=
  kd.1 = z.1 /\
  match absent !! z.1, absent' !! z.1 with
  | None, None => (forall debug pf, N <= pf -> merged_rows checks debug pf fuel z.2.1.2 z.2.2 order settled paths = Some kd.2.1) /\ kd.2.2 = None
  | l_missing, r_missing =>
      exists a b c missing, z.2.1.2 = TileScalar a /\ z.2.2 = TileScalar b /\ merged_cells a l_missing n b r_missing m order = Some (c, missing) /\
        kd.2 = (TileScalar c, if decide (missing = ∅) then None else Some missing)
  end /\
  field_done (length order) z.2.1.1 kd.2 /\ stated shape D z.2.1.1 kd.2.1 /\ joins N z.2.1.2 z.2.2 kd.2.1 /\
  forall k s, order !! k = Some s -> done_row kd.2 k = source_field absent absent' z s.

Lemma merge_field fuel D n m absent absent' order settled paths z :
  merges fuel -> height z.2.1.2 <= fuel -> field_ok n absent (z.1, z.2.1.2) (z.1, z.2.1.1) -> field_ok m absent' (z.1, z.2.2) (z.1, z.2.1.1) ->
  Forall (in_sides n m) order ->
  match absent !! z.1, absent' !! z.1 with
  | None, None => carried n m z.2.1.2 z.2.2 order
  | _, _ => Forall (once (field_cell absent (z.1, z.2.1.2)) (field_cell absent' (z.1, z.2.2))) order
  end ->
  unites shape N D z.2.1.1 z.2.1.2 z.2.2 -> stated shape D z.2.1.1 z.2.1.2 -> stated shape D z.2.1.1 z.2.2 ->
  Forall (fun s => forall i j, s = Both i j -> distinct (field_row absent' (z.1, z.2.2) j)) order -> length paths = length order ->
  exists kd, field_merged D n m absent absent' order settled paths fuel z kd.
Proof.
  destruct z as [k [[T f] u]]. cbn [fst snd]. intros IH Hh Hf Hu Hin Hca Hun Hst Hsu Hdis Hlen.
  assert (Hsc : is_Some (absent !! k) \/ is_Some (absent' !! k) -> exists ty, T = TScalar ty).
  { destruct Hf as [_ Hf], Hu as [_ Hu]. simpl in *. intros [[x E]|[x E]]; rewrite E in *.
    - destruct Hf as (_ & _ & ? & ? & _ & -> & _). eauto.
    - destruct Hu as (_ & _ & ? & ? & _ & -> & _). eauto. }
  assert (Hcells : is_Some (absent !! k) \/ is_Some (absent' !! k) ->
    Forall (once (field_cell absent (k, f)) (field_cell absent' (k, u))) order ->
    exists kd, field_merged D n m absent absent' order settled paths fuel (k, (T, f, u)) kd).
  { intros Hs Ho. destruct (Hsc Hs) as [ty ->].
    destruct (merged_cells_ok ty n m absent absent' k f u order Hf Hu Hin Ho) as (a & b & c & missing & -> & -> & Em & Hd & Hrow).
    exists (k, (TileScalar c, if decide (missing = ∅) then None else Some missing)). unfold field_merged. cbn [fst snd].
    split; [done|]. split; [destruct (absent !! k), (absent' !! k); try (by exists a, b, c, missing); by destruct Hs as [[? ?]|[? ?]]|].
    split; [done|]. split; [done|]. split; [done|]. intros j s Hj. rewrite (Hrow j s Hj). unfold source_field, field_cell. cbn [fst snd].
    rewrite Forall_forall in Hin. apply list_elem_of_lookup_2, Hin in Hj.
    destruct (side_absence_ok _ _ _ _ _ Hf) as (? & X & _ & _ & _ & _ & Hrx). destruct (side_absence_ok _ _ _ _ _ Hu) as (? & Y & _ & _ & _ & _ & Hry).
    destruct s as [i|i|i i']; simpl in *; [by rewrite Hrx|by rewrite Hry|]. destruct Hj. by rewrite Hrx, Hry. }
  destruct (decide (is_Some (absent !! k) \/ is_Some (absent' !! k))) as [Hs|Hs].
  - apply Hcells; [done|]. destruct (absent !! k), (absent' !! k); try done. by destruct Hs as [[? ?]|[? ?]].
  - assert (E1 : absent !! k = None) by (apply eq_None_not_Some; tauto). assert (E2 : absent' !! k = None) by (apply eq_None_not_Some; tauto). clear Hcells Hsc. rewrite E1, E2 in Hca.
    destruct Hf as [_ Hf], Hu as [_ Hu]. simpl in Hf, Hu. rewrite E1 in Hf. rewrite E2 in Hu.
    assert (Hrow : forall j, field_row absent' (k, u) j = row_of u j) by (intros j; unfold field_row; simpl; by rewrite E2).
    assert (Hrow' : forall j, field_row absent (k, f) j = row_of f j) by (intros j; unfold field_row; simpl; by rewrite E1).
    destruct (IH T n m D f u order settled paths) as (w & Ew & Hw & Hsw & Hj & Hr); try done.
    { eapply Forall_impl; [exact Hdis|]. intros s Hd i j E. rewrite <- Hrow. by eapply Hd. }
    exists (k, (w, None)). unfold field_merged. cbn [fst snd]. rewrite E1, E2. split; [done|]. split; [done|]. split; [done|]. split; [done|]. split; [done|].
    intros j s Hj'. unfold done_row. cbn [fst snd]. transitivity (row_of w j); [by destruct w|]. rewrite (Hr j s Hj').
    unfold source_field. cbn [fst snd]. by destruct s; simpl; rewrite ?Hrow, ?Hrow'.
Qed.

Lemma merge_record fuel T n m D fields absent r order settled paths :
  merges fuel -> let l := TileRecord fields absent in
  height l <= S fuel -> tile_ok T n l -> tile_ok T m r -> Forall (in_sides n m) order -> carried n m l r order ->
  unites shape N D T l r -> stated shape D T l -> stated shape D T r -> Forall (distinct_right r) order -> length paths = length order ->
  exists w, (forall debug pf, N <= pf -> merged_rows checks debug pf (S fuel) l r order settled paths = Some w) /\ merged D T l r order w.
Proof.
  intros IH l Hh Ht Hu Hin Hca Hun Hst Hsu Hdis Hlen. destruct r as [|fields' absent'| | |]; try done.
  apply tile_ok_record in Ht as (ts & -> & Hnd & Hsub & Ht). apply tile_ok_record in Hu as (ts' & [= <-] & _ & Hsub' & Hu).
  destruct Hca as [Hrows Hca]. rewrite all_of_Forall in Hca. simpl in Hun, Hst, Hsu. rewrite all_of_Forall in Hun, Hst, Hsu.
  destruct (align _ _ _ _ _ _ _ Ht Hu) as (Z & -> & -> & -> & HZ). rewrite map_map in Hnd. simpl in Hnd.
  assert (Hassoc : forall (A : Type) (g : string * (Tiling * Tile * Tile) -> A) z, z ∈ Z -> assoc z.1 (map (fun z => (z.1, g z)) Z) = Some (g z)).
  { intros A g z Hz. apply In_assoc; [by rewrite map_map|]. apply list_elem_of_In, in_map_iff. exists z. split; [done|by apply list_elem_of_In]. }
  assert (Hmax : forall z, z ∈ Z -> height z.2.1.2 <= fuel).
  { intros z Hz. unfold l in Hh. simpl in Hh. pose proof (foldr_max_le (map (fun '(_, t) => height t) (map (fun z => (z.1, z.2.1.2)) Z)) (height z.2.1.2)) as Hle.
    etrans; [apply Hle|lia]. rewrite map_map. apply list_elem_of_In, in_map_iff. exists z. split; [done|by apply list_elem_of_In]. }
  assert (Hfields : forall z, z ∈ Z -> exists kd, field_merged D n m absent absent' order settled paths fuel z kd).
  { intros z Hz. rewrite Forall_forall in HZ. destruct (HZ z Hz) as [Hf Hfu].
    rewrite !Forall_fmap, !Forall_forall in *. specialize (Hca z Hz). specialize (Hun z Hz). specialize (Hst z Hz). specialize (Hsu z Hz). simpl in Hca, Hun, Hst, Hsu.
    rewrite (Hassoc _ (fun z => z.2.2) z Hz) in Hca. rewrite (Hassoc _ (fun z => z.2.1.1) z Hz) in Hst, Hsu.
    rewrite (Hassoc _ (fun z => z.2.1.1) z Hz), (Hassoc _ (fun z => z.2.2) z Hz) in Hun.
    apply merge_field; try done; [by apply Hmax|by apply Forall_forall|]. apply Forall_forall. intros s Hs i j E.
    specialize (Hdis s Hs i j E). rewrite row_of_record in Hdis. simpl in Hdis. rewrite all_of_Forall, map_map, Forall_fmap, Forall_forall in Hdis.
    exact (Hdis z Hz). }
  destruct (choose_list _ Z Hfields) as [done Hd]. clear Hfields.
  assert (Hfst : map fst done = map (fun z => z.1) Z).
  { clear -Hd. induction Hd as [|z kd Z done [E _] _ IHd]; simpl; [done|]. by rewrite E, IHd. }
  assert (Hndd : NoDup (map fst done)) by by rewrite Hfst.
  destruct (record_of_ok (length order) done (map (fun z => (z.1, z.2.1.1)) Z)) as [Hok Hrow]; [by rewrite map_map| |].
  { apply Forall2_fmap_r, Forall2_flip. eapply Forall2_impl; [exact Hd|]. intros z kd (E & _ & Hfd & _). done. }
  assert (Hlen2 : length (map (fun z : string * (Tiling * Tile * Tile) => (z.1, z.2.1.2)) Z) = length (map (fun z : string * (Tiling * Tile * Tile) => (z.1, z.2.2)) Z)) by by rewrite !length_map.
  exists (record_of done). split; [|split; [done|split; [|split]]].
  - intros debug pf Hpf. unfold l. cbn [merged_rows]. rewrite Hlen2, Nat.eqb_refl. cbn [negb]. destruct (decide (absent = ∅ /\ absent' = ∅)) as [[-> ->]|Hne].
    + assert (Em : mapM (fun '(name, t) => other ← assoc name (map (fun z => (z.1, z.2.2)) Z);
          t0 ← merged_rows checks debug pf fuel t other order settled paths; Some (name, t0)) (map (fun z => (z.1, z.2.1.2)) Z)
        = Some (map (fun '(k, (t, _)) => (k, t)) done)).
      { apply mapM_Some, Forall2_fmap. apply Forall2_same_length_lookup. split; [by apply Forall2_length in Hd|]. intros i z [k [w g]] Hz Hk.
        pose proof (Forall2_lookup_lr _ _ _ _ _ _ Hd Hz Hk) as (E & Hc & _). rewrite !lookup_empty in Hc. simpl in *. subst k.
        rewrite (Hassoc _ (fun z => z.2.2) z) by by eapply list_elem_of_lookup_2. simpl. destruct Hc as [Hc _]. by rewrite (Hc debug pf Hpf). }
      rewrite Em. cbn [mbind option_bind]. f_equal. apply record_of_map; [done| |by intros k [? ?]]. intros kd Hin'.
      apply list_elem_of_lookup in Hin' as [i Hi]. destruct (Forall2_lookup_r _ _ _ _ _ Hd Hi) as (z & _ & _ & Hc & _). rewrite !lookup_empty in *. symmetry. apply Hc.
    + destruct Hrows as [?|[-> ->]]; [done|]. cbn [mbind option_bind].
      assert (Em : mapM (fun '(name, t) => other ← assoc name (map (fun z => (z.1, z.2.2)) Z);
          match absent !! name, absent' !! name with
          | None, None => t0 ← merged_rows checks debug pf fuel t other order settled paths; Some (name, (t0, None))
          | l_missing, r_missing =>
              match t, other with
              | TileScalar l_cells, TileScalar r_cells =>
                  '(cells, missing) ← merged_cells l_cells l_missing n r_cells r_missing m order;
                  Some (name, (TileScalar cells, if decide (missing = ∅) then None else Some missing))
              | _, _ => None
              end
          end) (map (fun z => (z.1, z.2.1.2)) Z) = Some done).
      { apply mapM_Some, Forall2_fmap_l. apply Forall2_same_length_lookup. split; [by apply Forall2_length in Hd|]. intros i z [k [w g]] Hz Hk.
        pose proof (Forall2_lookup_lr _ _ _ _ _ _ Hd Hz Hk) as (E & Hc & _). cbn [fst snd] in *. subst k. unfold compose. cbv beta iota.
        rewrite (Hassoc _ (fun z => z.2.2) z) by by eapply list_elem_of_lookup_2. cbn [mbind option_bind].
        destruct (absent !! z.1), (absent' !! z.1).
        4: { destruct Hc as [Hc ->]. by rewrite (Hc debug pf Hpf). }
        all: destruct Hc as (a & b & c & missing & -> & -> & -> & [= -> ->]); done. }
      rewrite Em. done.
  - simpl. apply all_of_Forall, Forall_forall. intros [k w] Hin'. apply list_elem_of_In, in_map_iff in Hin' as ([k' [w' g]] & E & Hk%list_elem_of_In).
    simplify_eq. apply list_elem_of_lookup in Hk as [i Hi]. destruct (Forall2_lookup_r _ _ _ _ _ Hd Hi) as (z & Hz & E & _ & _ & Hsw & _).
    simpl in *. subst k. by rewrite (Hassoc _ (fun z => z.2.1.1) z) by by eapply list_elem_of_lookup_2.
  - unfold l. simpl. apply all_of_Forall, Forall_fmap, Forall_forall. intros z Hz. simpl. rewrite (Hassoc _ (fun z => z.2.2) z Hz).
    apply list_elem_of_lookup in Hz as [i Hi]. destruct (Forall2_lookup_l _ _ _ _ _ Hd Hi) as ([k [w g]] & Hk & E & _ & _ & _ & Hj & _). simpl in *. subst k.
    rewrite (In_assoc z.1 w); [done|by rewrite record_of_fst|]. apply list_elem_of_In, in_map_iff. exists (z.1, (w, g)). split; [done|].
    apply list_elem_of_In. by eapply list_elem_of_lookup_2.
  - intros k s Hk. rewrite Hrow. unfold l. rewrite source_record. f_equal. clear -Hd Hk.
    induction Hd as [|z kd Z done (E & _ & _ & _ & _ & Hr) _ IHd]; simpl; [done|]. rewrite IHd. f_equal. rewrite E. f_equal. by apply Hr.
Qed.

Lemma merged_rows_ok fuel : merges fuel.
Proof.
  induction fuel as [|fuel IH]; intros T n m D l r order settled paths Hh Ht Hu Hin Hca Hun Hst Hsu Hdis Hlen; [destruct l; simpl in Hh; lia|].
  destruct l as [cv|fields absent|starts domain codomain pred deleted|kind acc terminal|st se de fr te cl].
  - destruct T as [ty| | | |]; try done. destruct r as [cv'| | | |]; try done.
    destruct (merged_column_ok ty n m cv cv' order Ht Hu Hin Hca) as (c & Ec & Hc & Hrow).
    exists (TileScalar c). split; [intros debug pf _; cbn [merged_rows]; by rewrite Ec|]. split; [done|]. split; [done|]. split; [done|].
    intros k s Hk. simpl. rewrite (Hrow k s Hk). by destruct s.
  - by apply (merge_record fuel T n m).
  - simpl in Hh. apply (merge_function fuel T n m); try done. lia.
  - by destruct r.
  - by destruct r.
Qed.
End Merge.
End MergeFacts.

(** * Merging two deliveries of one collection

    [merge] of two deliveries of one collection: the entries of the two matched by key, and of
    the paths complete in one of them.  Dropping the completion that a level above already
    states changes no row, and no path that is complete. *)

Section MergeWhole.
Context {KS : KeySets Scalar} {KL : KeySetLaws Scalar KS}.
Abbreviation Tiling := (Tiling CTy).
Abbreviation Predicate := (Predicate Scalar).
Context (shape : CTy -> Shape).

(** ** Complete paths *)

(** Whether a level of the tile states a path complete: [pre] is the path to the tile, [rest] the
    keys below it and [names] the fields of the records on the way. *)
Fixpoint closed (t : Tile) (names : list string) (pre rest : list Value) : bool :=
  match t with
  | TileDataFunction _ _ codomain pred _ =>
      match rest with
      | [] => false
      | k :: rest => default false (contains_path pred (pre ++ [k])) || closed codomain names (pre ++ [k]) rest
      end
  | TileRecord fields _ =>
      match names with
      | [] => false
      | name :: names =>
          (fix find fields := match fields with
            | [] => false
            | (k, f) :: fields => if decide (name = k) then closed f names pre rest else find fields
            end) fields
      end
  | _ => false
  end.

Lemma closed_record fields absent name names pre rest :
  closed (TileRecord fields absent) (name :: names) pre rest
  = match assoc name fields with Some f => closed f names pre rest | None => false end.
Proof. cbn [closed]. induction fields as [|[k f] fields IH]; [done|]. simpl. by destruct (decide (name = k)). Qed.

(** The keys [rest] are of the types of the levels of a tiling. *)
Fixpoint path_of (T : Tiling) (names : list string) (rest : list Value) : Prop :=
  match T with
  | TDataFunction ty T => match rest with [] => True | k :: rest => has_shape (shape ty) k /\ path_of T names rest end
  | TRecord ts =>
      match names with
      | [] => True
      | name :: names =>
          (fix find ts := match ts with
            | [] => True
            | (k, T) :: ts => if decide (name = k) then path_of T names rest else find ts
            end) ts
      end
  | _ => True
  end.

Lemma path_of_record ts name names rest :
  path_of (TRecord ts) (name :: names) rest = match assoc name ts with Some T => path_of T names rest | None => True end.
Proof. cbn [path_of]. induction ts as [|[k T] ts IH]; [done|]. simpl. by destruct (decide (name = k)). Qed.

Lemma contains_snoc D ty p pre k :
  wf (shape ty :: D) p -> typed D (rev pre) -> has_shape (shape ty) k -> contains_path p (pre ++ [k]) = Some (den p (k :: rev pre)).
Proof.
  intros Hp Ht Hk. assert (E : rev (pre ++ [k]) = k :: rev pre) by by rewrite rev_app_distr.
  rewrite (contains_path_den (shape ty :: D)); [by rewrite E|done|]. rewrite E. by constructor.
Qed.

(** A tile that states the unions states what either states. *)
Lemma joins_closed N T n m x D l r w names pre rest :
  tile_ok T n l -> tile_ok T m r -> tile_ok T x w -> stated shape D T l -> stated shape D T r -> unites shape N D T l r -> joins N l r w ->
  typed D (rev pre) -> path_of T names rest -> closed w names pre rest = closed l names pre rest || closed r names pre rest.
Proof.
  revert T n m x D r w names pre rest.
  induction l as [cv|fields absent IH|starts domain codomain pred deleted IH|kind acc terminal _|st se de fr te cl _ _ _ _] using tile_ind;
    intros T n m x D r w names pre rest Ht Hu Hw Hst Hsu Hun Hj Htp Hpath.
  - destruct T; try done. destruct r; try done. by destruct w.
  - apply tile_ok_record in Ht as (ts & -> & Hnd & _ & Ht). destruct r as [|fields' absent'| | |]; try done. destruct w as [|fields'' absent''| | |]; try done.
    apply tile_ok_record in Hu as (ts' & [= <-] & _ & _ & Hu). apply tile_ok_record in Hw as (ts' & [= <-] & _ & _ & Hw).
    simpl in Hst, Hsu, Hun, Hj. rewrite all_of_Forall, Forall_forall in Hst, Hsu, Hun, Hj. rewrite Forall_forall in IH.
    destruct names as [|name names]; [done|]. rewrite !closed_record. rewrite path_of_record in Hpath.
    destruct (assoc name fields) as [f|] eqn:Ef.
    + apply assoc_In in Ef. destruct (field_mate _ _ _ _ _ _ _ name f Hnd Ht Hu Ef) as (T & u & HT & Eu & [_ Hf] & [_ Hfu]).
      destruct (field_mate _ _ _ _ _ _ _ name f Hnd Ht Hw Ef) as (T' & w & HT' & Ew & _ & [_ Hfw]). simplify_eq. simpl in Hf, Hfu, Hfw.
      rewrite HT in Hpath. rewrite Eu, Ew. specialize (Hst _ Ef). specialize (Hun _ Ef). specialize (Hj _ Ef). simpl in *. rewrite HT in Hst. rewrite HT, Eu in Hun.
      rewrite Eu, Ew in Hj. pose proof (Hsu _ (assoc_In _ _ _ Eu)) as Hsu'. simpl in Hsu'. rewrite HT in Hsu'.
      assert (Hscalar : forall ty, T = TScalar ty -> closed w names pre rest = closed f names pre rest || closed u names pre rest).
      { intros ty ->. assert (forall n a k t, match (a : gmap string (gset nat)) !! (k : string) with
          | None => tile_ok (TScalar ty) n t
          | Some missing => missing <> ∅ /\ (forall r, r ∈ missing -> r < n) /\ exists cells ty', t = TileScalar cells /\ TScalar ty = TScalar ty' /\ col ty' (n - size missing) cells
          end -> exists cells, t = TileScalar cells) as Hsc.
        { intros n0 a k t. destruct (a !! k); [|destruct t; try done; eauto]. by intros (_ & _ & cells & ? & -> & _); eauto. }
        apply Hsc in Hf as [? ->]. apply Hsc in Hfu as [? ->]. apply Hsc in Hfw as [? ->]. done. }
      destruct (absent !! name); [destruct Hf as (_ & _ & ? & ty & _ & -> & _); by eapply Hscalar|].
      destruct (absent' !! name); [destruct Hfu as (_ & _ & ? & ty & _ & -> & _); by eapply Hscalar|].
      destruct (absent'' !! name); [destruct Hfw as (_ & _ & ? & ty & _ & -> & _); by eapply Hscalar|].
      by apply (IH (name, f) Ef T n m x D u w).
    + assert (E : forall g : list (string * Tile), map fst g = map fst fields -> assoc name g = None).
      { intros g Hg. apply assoc_None. rewrite Hg. by apply assoc_None. }
      rewrite !E; [done|..]; rewrite (record_aligned _ _ _ _ Ht); [by apply (record_aligned _ _ _ _ Hu)|by apply (record_aligned _ _ _ _ Hw)].
  - destruct T as [| |ty T| |]; try done. destruct r as [| |starts' domain' codomain' pred' deleted'| |]; try done.
    destruct w as [| |starts'' domain'' codomain'' pred'' deleted''| |]; try done.
    destruct Ht as (a & _ & _ & _ & Ht). destruct Hu as (b & _ & _ & _ & Hu). destruct Hw as (c & _ & _ & _ & Hw).
    destruct Hst as [Hp Hst]. destruct Hsu as [Hq Hsu]. destruct Hun as [(u & [Hwu Hd] & Eu) Hun]. destruct Hj as [Ej Hj].
    specialize (Eu N (Nat.le_refl N)). specialize (Ej N (Nat.le_refl N)). simplify_eq.
    destruct rest as [|k rest]; [done|]. destruct Hpath as [Hk Hpath]. cbn [closed].
    rewrite !(contains_snoc D ty) by done. simpl.
    assert (Htk : typed (shape ty :: D) (rev (pre ++ [k]))) by (rewrite rev_app_distr; by constructor).
    rewrite (IH T a b c _ codomain' codomain'' names (pre ++ [k]) rest Ht Hu Hw Hst Hsu Hun Hj Htk Hpath).
    rewrite Hd by by constructor. unfold join_of. destruct (den pred _), (den pred' _), (closed codomain _ _ _); done.
  - destruct T; try done. destruct r; try done. by destruct w.
  - destruct T; try done. destruct r; try done. by destruct w.
Qed.

(** ** Dropping covered completion *)

(** The walk changes no row. *)
Lemma drop_walk_rows pf t above w :
  drop_walk pf t above = Some w -> (forall T n, tile_ok T n t -> tile_ok T n w) /\ (forall r, row_of w r = row_of t r).
Proof.
  revert above w. induction t as [cv|fields absent IH|starts domain codomain pred deleted IH|kind acc terminal _|st se de fr te cl _ _ _ _] using tile_ind;
    intros above w; cbn [drop_walk]; [by intros [= <-]| | |by intros [= <-]|by intros [= <-]].
  - destruct (mapM (fun '(k, t) => t ← drop_walk pf t above; Some (k, t)) fields) as [fields'|] eqn:E; [|done]. cbn [mbind option_bind]. intros [= <-].
    apply mapM_Some in E. split.
    + intros T n Hok. apply tile_ok_record in Hok as (ts & -> & Hnd & Hsub & H). apply tile_ok_record. exists ts. split; [done|]. split; [done|]. split; [done|].
      clear Hnd Hsub. revert ts H. induction E as [|[k f] [k' g] fields fields' Ef _ IHf]; intros ts H; [done|]. inversion H as [|? [k'' T] ? ts' Hf Hts]; subst.
      apply Forall_cons in IH as [IHc IH]. destruct (drop_walk pf f above) as [g'|] eqn:Eg; [|done]. simpl in Ef. simplify_eq.
      constructor; [|by apply IHf]. destruct (IHc above g Eg) as [Hok _]. destruct Hf as [Ek Hf]. split; [done|]. simpl in *.
      destruct (absent !! k') as [missing|]; [|by apply Hok]. destruct Hf as (H1 & H2 & cells & ty & -> & H3 & H4). simpl in Eg. simplify_eq.
      split; [done|]. split; [done|]. by exists cells, ty.
    + intros r. rewrite !row_of_record. f_equal. induction E as [|[k f] [k' g] fields fields' Ef _ IHf]; [done|].
      apply Forall_cons in IH as [IHc IH]. destruct (drop_walk pf f above) as [g'|] eqn:Eg; [|done]. simpl in Ef. simplify_eq. simpl. rewrite (IHf IH). do 2 f_equal.
      destruct (IHc above g Eg) as [_ Hr]. unfold field_row. simpl. simpl in Hr. destruct (absent !! k') as [missing|]; [|by apply Hr].
      destruct f; simpl in Eg; try (by simplify_eq).
      * destruct (mapM _ fields0); [|done]. simpl in Eg. by simplify_eq.
      * destruct (without_covered _ _ _); [|done]. simpl in Eg. destruct (drop_walk _ _ _); [|done]. simpl in Eg. by simplify_eq.
  - destruct (without_covered pf pred above) as [o|]; [|done]. cbn [mbind option_bind].
    destruct (drop_walk pf codomain (above ++ [default pred o])) as [c'|] eqn:Ec; [|done]. cbn [mbind option_bind]. intros [= <-].
    destruct (IH _ _ Ec) as [Hok Hr]. split.
    + intros T n. destruct T as [| |ty T| |]; try done. intros (m & H1 & H2 & H3 & H4). exists m. split; [done|]. split; [done|]. split; [done|]. by apply Hok.
    + intros r. simpl. f_equal. destruct (len domain); [|done]. destruct (level_run _ _ _); [|done]. apply map_ext. intros k. by rewrite Hr.
Qed.

Lemma covered_snoc above r k ab : covered_by (above ++ [r]) (k :: ab) = covered_by above ab || den r (k :: ab).
Proof.
  unfold covered_by. rewrite imap_app, existsb_app, length_app. simpl. rewrite Nat.add_0_r, orb_false_r. f_equal.
  - assert (H : forall lw, lw ∈ imap pair above -> lw.1 < length above).
    { intros [i w] Hin. apply list_elem_of_lookup in Hin as [j Hj]. rewrite list_lookup_imap in Hj. destruct (above !! j) eqn:E; [|done].
      simpl in Hj. simplify_eq. by apply lookup_lt_Some in E. }
    induction (imap pair above) as [|[i w] l IH]; [done|]. simpl. rewrite IH by (intros lw Hlw; apply H; by right). f_equal.
    specialize (H (i, w) (list_elem_of_here _ _)). simpl in H. replace (length above + 1 - 1 - i) with (S (length above - 1 - i)) by lia. done.
  - by replace (length above + 1 - 1 - length above) with 0 by lia.
Qed.

(** The completions above a level. *)
Definition above_ok (D : Domain) (above : list Predicate) : Prop :=
  length above = length D /\ forall level whole, above !! level = Some whole -> wf (drop (length above - 1 - level) D) whole.

Lemma above_snoc D sh above r : above_ok D above -> wf (sh :: D) r -> above_ok (sh :: D) (above ++ [r]).
Proof.
  intros [Hlen Ha] Hr. split; [rewrite length_app; simpl; lia|]. intros level whole. rewrite length_app. simpl. destruct (decide (level < length above)) as [Hlt|Hlt].
  - rewrite lookup_app_l by done. intros H. replace (length above + 1 - 1 - level) with (S (length above - 1 - level)) by lia. simpl. by apply Ha.
  - rewrite lookup_app_r by lia. intros H. destruct (level - length above) eqn:E; [|done]. simpl in H. simplify_eq.
    by replace (length above + 1 - 1 - level) with 0 by lia.
Qed.

(** What a level keeps of its completion. *)
Lemma kept_completion sh D p above :
  above_ok D above -> wf (sh :: D) p ->
  returns (fun pf => without_covered pf p above) (fun o => let r := default p o in
    wf (sh :: D) r /\ forall k ab, typed (sh :: D) (k :: ab) ->
      (den r (k :: ab) = true -> den p (k :: ab) = true) /\
      (den p (k :: ab) = true -> den r (k :: ab) = true \/ covered_by above ab = true)).
Proof.
  intros [Hlen Ha] Hp. destruct (decide (D = [])) as [->|HD].
  - destruct above; [|done]. apply (returns_ext (fun _ => Some None)); [done|]. apply returns_const. split; [done|]. intros k ab _. split; [done|by left].
  - eapply returns_impl; [apply (without_covered_ok sh D p above); try done; lia|]. intros o Ho. destruct o as [r|]; simpl; [|split; [done|]; split; [done|by left]].
    destruct (Ho r eq_refl) as [Hw Hd]. split; [done|]. intros k ab Ht. destruct (Hd k ab Ht) as [H1 H2]. split; [done|].
    intros Hden. destruct (covered_by above ab); [by right|left; by apply H2].
Qed.

Definition keeps_closed (D : Domain) (T : Tiling) (above : list Predicate) (t w : Tile) : Prop :=
  stated shape D T w /\ forall names pre rest, typed D (rev pre) -> path_of T names rest ->
    (closed w names pre rest = true -> closed t names pre rest = true) /\
    (closed t names pre rest = true -> closed w names pre rest = true \/ covered_by above (rev pre) = true).

Lemma drop_walk_ok T n D above t :
  tile_ok T n t -> stated shape D T t -> above_ok D above -> returns (fun pf => drop_walk pf t above) (keeps_closed D T above t).
Proof.
  revert T n D above. induction t as [cv|fields absent IH|starts domain codomain pred deleted IH|kind acc terminal _|st se de fr te cl _ _ _ _] using tile_ind;
    intros T n D above Ht Hst Ha; cbn [drop_walk].
  1,4,5: apply returns_const; split; [done|]; intros names pre rest _ _; split; [done|by left].
  - apply tile_ok_record in Ht as (ts & -> & Hnd & _ & Ht). simpl in Hst. rewrite all_of_Forall, Forall_forall in Hst. rewrite Forall_forall in IH.
    eapply returns_bind.
    + apply (returns_mapM (fun pf '(k, t) => t ← drop_walk pf t above; Some (k, t))
        (fun kf kw => kw.1 = kf.1 /\ exists T, assoc kf.1 ts = Some T /\ keeps_closed D T above kf.2 kw.2)).
      apply Forall_forall. intros [k f] Hin. destruct (field_type _ _ _ _ k f Hnd Ht Hin) as (T & HT & [_ Hf]). pose proof (Hst _ Hin) as Hsf. simpl in Hsf, Hf. rewrite HT in Hsf.
      eapply (returns_bind _ _ (keeps_closed D T above f)).
      * destruct (absent !! k); [|by apply (IH (k, f) Hin T n D above)]. destruct Hf as (_ & _ & cells & ty & -> & -> & _). simpl.
        apply returns_const. split; [done|]. intros names pre rest _ _. split; [done|by left].
      * intros w Hw. apply returns_const. split; [done|]. exists T. by split.
    + intros fields' Hf. apply returns_const. split.
      * simpl. apply all_of_Forall, Forall_forall. intros [k w] Hin. apply list_elem_of_lookup in Hin as [i Hi].
        destruct (Forall2_lookup_r _ _ _ _ _ Hf Hi) as ([k' f] & _ & E & T & HT & Hk & _). simpl in *. subst k'. by rewrite HT.
      * intros names pre rest Htp Hpath. destruct names as [|name names]; [by split; [|left]|]. rewrite !closed_record. rewrite path_of_record in Hpath.
        clear -Hf Htp Hpath. induction Hf as [|[k f] [k' w] fields fields' [E (T & HT & _ & Hk)] _ IHf]; [by split; [|left]|]. simpl in *. subst k'.
        destruct (decide (name = k)) as [->|]; [|done]. rewrite HT in Hpath. by apply Hk.
  - destruct T as [| |ty T| |]; try done. destruct Ht as (m & _ & _ & _ & Ht). destruct Hst as [Hp Hst].
    eapply returns_bind; [by apply (kept_completion (shape ty) D)|]. intros o [Hr Hd]. set (r := default pred o) in *.
    eapply returns_bind; [apply (IH T m (shape ty :: D) (above ++ [r])); [done|done|by apply above_snoc]|]. intros w [Hw Hc]. apply returns_const. split; [done|].
    intros names pre rest Htp Hpath. destruct rest as [|k rest]; [by split; [|left]|]. destruct Hpath as [Hk Hpath]. cbn [closed].
    rewrite !(contains_snoc D ty) by done. cbn [default from_option id].
    assert (E : rev (pre ++ [k]) = k :: rev pre) by by rewrite rev_app_distr.
    destruct (Hc names (pre ++ [k]) rest) as [H1 H2]; [rewrite E; by constructor|done|]. rewrite E, covered_snoc in H2.
    destruct (Hd k (rev pre)) as [H3 H4]; [by constructor|]. simpl. rewrite !orb_true_iff. split.
    + intros [H|H]; auto.
    + intros [H|H]; [destruct (H4 H); auto|]. apply H2 in H as [H|[H|H]%orb_true_iff]; auto.
Qed.

Lemma drop_covered_ok T n t :
  tile_ok T n t -> stated shape [] T t ->
  returns (fun pf => drop_covered_completion pf t) (fun w => (forall r, row_of w r = row_of t r) /\ tile_ok T n w /\ stated shape [] T w /\
    forall names rest, path_of T names rest -> closed w names [] rest = closed t names [] rest).
Proof.
  intros Ht Hst. unfold drop_covered_completion. destruct (states_a_qualified t); [|by apply returns_const].
  destruct (drop_walk_ok T n [] [] t Ht Hst) as (N & w & [Hs Hc] & Hn); [done|]. exists N, w. split; [|done].
  destruct (drop_walk_rows N t [] w (Hn N (Nat.le_refl N))) as [Hok Hr]. split; [done|]. split; [by apply Hok|]. split; [done|].
  intros names rest Hp. destruct (Hc names [] rest) as [H1 H2]; [constructor|done|]. apply eq_true_iff_eq. split; [done|].
  intros H. by destruct (H2 H).
Qed.

(** ** The whole merge *)

(** Two deliveries of one collection merge: by key where what a key holds can grow, and otherwise
    one run after the other. *)
Definition mergeable (T : Tiling) (l r : Tile) : Prop :=
  match T with
  | TDataFunction _ T => if holds_a_level T then carried 1 1 l r [Both 0 0] else alike 1 1 l r
  | _ => False
  end.

(** What a whole merge gives. *)
Definition merged_whole (N : nat) (T : Tiling) (l r w : Tile) : Prop :=
  tile_ok T 1 w /\ stated shape [] T w /\ joins N l r w /\ row_of w 0 = merged_val T (row_of l 0) (row_of r 0).

(** Appending keys in place: one run of the two. *)
Lemma append_whole N checks fuel ty T starts domain codomain pred deleted r :
  let l := TileDataFunction starts domain codomain pred deleted in
  height codomain <= fuel -> tile_ok (TDataFunction ty T) 1 l -> tile_ok (TDataFunction ty T) 1 r -> alike 1 1 l r ->
  holds_a_level T = false -> unites shape N [] (TDataFunction ty T) l r ->
  exists w, (forall debug pf, N <= pf -> merge_part checks debug pf (S fuel) true l r = asserted debug pf true (Some w)) /\ merged_whole N (TDataFunction ty T) l r w.
Proof.
  intros l Hh Ht Hu Ha Hlev Hun. destruct r as [| |starts' domain' codomain' pred' deleted'| |]; try done.
  destruct Ht as (a & Hd & (lens & -> & Hl1 & Hsum) & Hdel & HT). destruct Hu as (b & Hd' & (lens' & -> & Hl2 & Hsum') & Hdel' & HT').
  destruct lens as [|x [|]]; try done. destruct lens' as [|y [|]]; try done. simpl in Hsum, Hsum'. rewrite Nat.add_0_r in Hsum, Hsum'. subst x y.
  destruct Ha as (a' & b' & Ea & Eb & Ha). rewrite (col_len _ _ _ Hd) in Ea. rewrite (col_len _ _ _ Hd') in Eb. simplify_eq.
  destruct Hun as [(q & [Hwq _] & Eq) Hun].
  destruct (append_rows_ok shape checks N fuel T _ _ _ codomain codomain' Hh HT HT' Ha Hun) as (w & Ew & Hw & Hsw & Hj & H1 & H2).
  destruct (append_ok domain' ty _ _ domain Hd Hd') as (d'' & Ed & Hcat).
  exists (TileDataFunction [0] d'' w q (deleted ∪ shifted a' deleted')). split; [|split; [|split; [done|split; [done|]]]].
  - intros debug pf Hpf. unfold l. cbn [merge_part]. f_equal. rewrite (holds_level_ok _ _ _ HT), Hlev. cbn [negb orb append_keys]. rewrite (col_len _ _ _ Hd).
    cbn [mbind option_bind length run_starts Nat.eqb andb]. rewrite Ed. cbn [mbind option_bind]. rewrite (Ew debug pf Hpf). cbn [mbind option_bind].
    destruct Hcat as [Hc _]. rewrite (col_len _ _ _ Hc). cbn [mbind option_bind]. rewrite (columns_whole_ok _ _ _ Hw). cbn [mbind option_bind]. by rewrite (Eq pf Hpf).
  - destruct Hcat as [Hc _]. exists (a' + b'). split; [done|]. split; [exists [a' + b']; simpl; by rewrite Nat.add_0_r|]. split; [|done].
    intros k [Hk|[Hn Hk]%elem_of_shifted]%elem_of_union; [apply Hdel in Hk; lia|apply Hdel' in Hk; lia].
  - change [0] with (run_starts 0 [a' + b']). unfold l.
    rewrite (row_of_keys [a' + b'] _ _ _ _ ty (a' + b') 0), (row_of_keys [a'] _ _ _ _ ty a' 0), (row_of_keys [b'] _ _ _ _ ty b' 0)
      by (done || (simpl; lia) || apply Hcat).
    cbn [merged_val]. rewrite Hlev. f_equal. unfold run_keys. simpl. rewrite seq_app. unfold entries at 1. rewrite map_app. f_equal.
    + apply (append_entries ty T a' b' domain domain' d'' codomain codomain' w deleted deleted' 0 a'); try done; lia.
    + destruct (append_entries ty T a' b' domain domain' d'' codomain codomain' w deleted deleted' 0 b') as [_ Hr]; try done.
      rewrite Nat.add_0_r in Hr. apply Hr. lia.
Qed.

Lemma merge_whole N checks fuel T l r :
  height l <= fuel -> tile_ok T 1 l -> tile_ok T 1 r -> mergeable T l r -> distinct (row_of r 0) ->
  stated shape [] T l -> stated shape [] T r -> unites shape N [] T l r ->
  exists w, (forall debug pf, N <= pf -> merge_part checks debug pf (S fuel) true l r = asserted debug pf true (Some w)) /\ merged_whole N T l r w.
Proof.
  intros Hh Ht Hu Hm Hdis Hst Hsu Hun. destruct T as [| |ty T| |]; try done. destruct l as [| |starts domain codomain pred deleted| |]; try done.
  simpl in Hh. unfold mergeable in Hm. destruct (holds_a_level T) eqn:Hlev; [|apply append_whole; try done; lia].
  destruct (merged_rows_ok shape checks N fuel (TDataFunction ty T) 1 1 [] (TileDataFunction starts domain codomain pred deleted) r [Both 0 0] [true] [[]])
    as (w & Ew & Hw & Hsw & Hj & Hrow); try done.
  - by repeat constructor.
  - constructor; [|constructor]. by intros i j [= <- <-].
  - exists w. split; [|split; [done|split; [done|split; [done|by apply (Hrow 0 (Both 0 0))]]]].
    intros debug pf Hpf. destruct r as [| |starts' domain' codomain' pred' deleted'| |]; try done. cbn [merge_part]. f_equal.
    destruct Ht as (a & _ & (lens & -> & Hl1 & _) & _ & HT). destruct Hu as (b & _ & (lens' & -> & Hl2 & _) & _).
    rewrite (holds_level_ok _ _ _ HT), Hlev. cbn [negb orb rows mbind option_bind]. rewrite !length_run_starts, Hl1, Hl2. cbn [Nat.eqb andb]. by apply Ew.
Qed.

(** A merge of two wholes: the tile [m] the keys are merged into, which a debug build asserts to be
    valid, and [w], which states what it does without what a level above covers. *)
Lemma merge_ok checks T l r :
  tile_ok T 1 l -> tile_ok T 1 r -> mergeable T l r -> distinct (row_of r 0) -> stated shape [] T l -> stated shape [] T r ->
  exists N m w,
    (forall debug pf, N <= pf -> merge checks debug pf l r
      = if (debug : bool) then valid ← validate_tile pf m; if (valid : bool) then Some w else None else Some w) /\
    tile_ok T 1 m /\ row_of m 0 = row_of w 0 /\ tile_ok T 1 w /\
    row_of w 0 = merged_val T (row_of l 0) (row_of r 0) /\
    forall names path, path_of T names path -> closed w names [] path = closed l names [] path || closed r names [] path.
Proof.
  intros Ht Hu Hm Hdis Hst Hsu. destruct (unites_enough shape T 1 1 [] l r Ht Hu Hst Hsu) as [N HN]. specialize (HN N (Nat.le_refl N)).
  assert (Hf : exists f, 4 * height l = S f /\ height l <= f).
  { assert (1 <= height l) by (destruct l; simpl; lia). exists (4 * height l - 1). lia. }
  destruct Hf as (f & Ef & Hle). destruct (merge_whole N checks f T l r Hle Ht Hu Hm Hdis Hst Hsu HN) as (m & Em & Hw & Hsw & Hj & Hrow).
  destruct (drop_covered_ok T 1 m Hw Hsw) as (M & w & (Hr & Hv & Hsv & Hc) & Hn).
  exists (Nat.max N M), m, w. split_and!; [|done|by rewrite Hr|done|by rewrite Hr|].
  - intros debug pf Hpf. unfold merge. rewrite Ef, Em by lia. unfold asserted. destruct debug; cbn [andb mbind option_bind].
    + destruct (validate_tile pf m) as [[]|]; cbn [mbind option_bind]; [apply Hn; lia|done..].
    + apply Hn. lia.
  - intros names path Hp. rewrite Hc by done. apply (joins_closed N T 1 1 1 []); try done. constructor.
Qed.
End MergeWhole.
