(* ===== verification/TilePaths.v ===== *)
(** * The paths to the keys of a tile

    The path [path_to] reads up the levels to one key is the one [paths_at] lists for it, and
    [retain_paths] keeps, at every level, the entries whose paths it is asked to keep. *)

From Stdlib Require Import List.
From stdpp Require Import gmap.
From S2P Require Import Prelude Predicate Guards Values Columns ColumnFacts Tiles TileRows TileFacts AppendFacts MergeFacts.
Set Warnings "-register-all,-clear-no-such-hyp".

Section TilePaths.
Context {KS : KeySets Scalar}.
Abbreviation Tiling := (Tiling CTy).

(** ** The paths of a level *)

(** The paths of one level: each row's path, extended by each key of its run. *)
Definition level_paths (lens : list nat) (domain : ColumnValue) (paths ps : list (list Value)) : Prop :=
  length ps = sum_list lens /\
  forall r path k, paths !! r = Some path -> k ∈ run_keys lens r -> exists v, index_at domain k = Some v /\ ps !! k = Some (path ++ [v]).

Lemma key_paths_ok ty lens domain codomain pred deleted paths :
  length paths = length lens -> col ty (sum_list lens) domain ->
  exists ps, key_paths (TileDataFunction (run_starts 0 lens) domain codomain pred deleted) paths = Some ps /\ level_paths lens domain paths ps.
Proof.
  intros Hp Hc. unfold key_paths, row_run. rewrite (col_len _ _ _ Hc). cbn [mbind option_bind].
  destruct (mapM_rel (fun '(row, path) => run ← level_run (run_starts 0 lens) row (sum_list lens);
      mapM (fun key => v ← index_at domain key; Some (path ++ [v])) (range run))
    (fun rp ps => Forall2 (fun key p => exists v, index_at domain key = Some v /\ p = rp.2 ++ [v]) (run_keys lens rp.1) ps) (imap pair paths)) as (pss & -> & Hps).
  - intros [row path] Hin. apply list_elem_of_lookup in Hin as [i Hi]. rewrite list_lookup_imap in Hi. destruct (paths !! i) as [path'|] eqn:Ei; [|done].
    simpl in Hi. simplify_eq. assert (Hlt : row < length lens) by (apply lookup_lt_Some in Ei; lia).
    destruct (level_run_keys lens row (sum_list lens) Hlt eq_refl) as (run & -> & Er). cbn [mbind option_bind]. rewrite Er. apply mapM_rel.
    intros key Hkey. destruct (index_some domain ty (sum_list lens) key Hc) as [v Hv]; [by eapply run_keys_lt|]. rewrite Hv. simpl. eauto.
  - cbn [mbind option_bind]. eexists. split; [done|].
    assert (Hlens : map length pss = lens).
    { apply list_eq. intros i. rewrite list_lookup_fmap. pose proof (Forall2_length _ _ _ Hps) as Hll. rewrite length_imap in Hll.
      destruct (pss !! i) as [ps|] eqn:Ei.
      - destruct (Forall2_lookup_r _ _ _ _ _ Hps Ei) as ([row path] & Hi & H2). rewrite list_lookup_imap in Hi. destruct (paths !! i); [|done].
        simpl in Hi. simplify_eq. apply Forall2_length in H2. unfold run_keys in H2. rewrite length_seq in H2. simpl in *.
        destruct (lookup_lt_is_Some_2 lens row) as [x Hx]; [apply lookup_lt_Some in Ei; lia|]. rewrite (nth_lookup_Some _ _ _ _ Hx) in H2. by rewrite Hx, H2.
      - apply lookup_ge_None in Ei. by rewrite lookup_ge_None_2 by lia. }
    split; [rewrite length_concat; by rewrite Hlens|]. intros r path k Hr Hk.
    destruct (Forall2_lookup_l _ _ _ r (r, path) Hps) as (ps & Hi & H2); [by rewrite list_lookup_imap, Hr|]. simpl in H2.
    apply elem_of_seq in Hk. pose proof (lookup_lt_Some _ _ _ Hr) as Hlt.
    destruct (lookup_lt_is_Some_2 (run_keys lens r) (k - sum_list (take r lens))) as [k' Hk']; [unfold run_keys; rewrite length_seq; lia|].
    destruct (Forall2_lookup_l _ _ _ _ _ H2 Hk') as (p & Hp' & v & Hv & ->). unfold run_keys in Hk'. apply lookup_seq in Hk' as [-> _].
    replace (sum_list (take r lens) + (k - sum_list (take r lens))) with k in Hv by lia. exists v. split; [done|].
    rewrite <- Hp'. rewrite <- (lookup_concat pss r ps); [|done|by apply lookup_lt_Some in Hp']. f_equal. rewrite Hlens. lia.
Qed.

(** The row that holds a key. *)
Lemma row_of_key lens k :
  k < sum_list lens -> exists r, r < length lens /\ k ∈ run_keys lens r /\ partition_point (fun start => start <=? k) (run_starts 0 lens) = S r.
Proof.
  intros Hk. set (pp := partition_point _ _).
  assert (Hle : pp <= length lens).
  { rewrite <- (length_run_starts 0 lens). unfold pp. generalize (run_starts 0 lens). intros l. induction l as [|x l IH]; simpl; [lia|]. destruct (x <=? k); lia. }
  assert (Hpos : pp <> 0). { unfold pp. destruct lens as [|x lens]; simpl in *; [lia|]. done. }
  destruct pp as [|r] eqn:Epp; [done|]. exists r. split; [lia|]. split; [|done].
  destruct (lookup_lt_is_Some_2 lens r) as [x Hx]; [lia|]. unfold run_keys. rewrite (nth_lookup_Some _ _ _ _ Hx). apply elem_of_seq.
  assert (Hlo : sum_list (take r lens) <= k).
  { pose proof (partition_point_before (fun start => start <=? k) (run_starts 0 lens) r (sum_list (take r lens))) as H.
    apply Nat.leb_le, H; [fold pp; lia|]. rewrite lookup_run_starts by lia. done. }
  pose proof (sum_take_S _ _ _ Hx) as HS. rewrite <- HS. split; [done|]. destruct (decide (S r < length lens)) as [Hlt|Hge].
  - pose proof (partition_point_at (fun start => start <=? k) (run_starts 0 lens) (sum_list (take (S r) lens))) as H. fold pp in H. rewrite Epp in H.
    apply Nat.leb_gt, H. by rewrite lookup_run_starts.
  - by rewrite take_ge by lia.
Qed.

Lemma paths_from_snoc t paths level :
  paths_from t paths (S level) = (qs ← paths_from t paths level; node ← tile_values_at t (S level); key_paths node qs).
Proof.
  revert t paths. induction level as [|level IH]; intros t paths; destruct t as [| |starts domain codomain pred deleted| |]; try done.
  - cbn [paths_from tile_values_at]. destruct (key_paths _ paths) as [ps|]; [|done]. cbn [mbind option_bind]. destruct codomain; try done.
    cbn [paths_from tile_values_at mbind option_bind]. match goal with |- context [key_paths ?c ps] => destruct (key_paths c ps) end; reflexivity.
  - change (paths_from (TileDataFunction starts domain codomain pred deleted) paths (S (S level)))
      with (ps ← key_paths (TileDataFunction starts domain codomain pred deleted) paths; paths_from codomain ps (S level)).
    change (paths_from (TileDataFunction starts domain codomain pred deleted) paths (S level))
      with (ps ← key_paths (TileDataFunction starts domain codomain pred deleted) paths; paths_from codomain ps level).
    destruct (key_paths _ paths) as [ps|]; [|done]. cbn [mbind option_bind]. apply IH.
Qed.

Lemma values_at_0 (t : Tile) : tile_values_at t 0 = Some t.
Proof. by destruct t. Qed.

(** The levels of a tile: one over the rows the level above has keys. *)
Lemma tile_level T t level node :
  tile_ok T 1 t -> tile_values_at t level = Some node -> tile_is_data_function node = true ->
  exists lens domain codomain pred deleted ty n, node = TileDataFunction (run_starts 0 lens) domain codomain pred deleted /\ length lens = n /\
    col ty (sum_list lens) domain /\
    match level with
    | 0 => n = 1
    | S above => exists up, tile_values_at t above = Some up /\ tile_is_data_function up = true /\ level_width up = Some n
    end.
Proof.
  assert (H : forall n T t level node, tile_ok T n t -> tile_values_at t level = Some node -> tile_is_data_function node = true ->
    exists lens domain codomain pred deleted ty k, node = TileDataFunction (run_starts 0 lens) domain codomain pred deleted /\ length lens = k /\
    col ty (sum_list lens) domain /\
    match level with
    | 0 => k = n
    | S above => exists up, tile_values_at t above = Some up /\ tile_is_data_function up = true /\ level_width up = Some k
    end); [|by apply H].
  clear. intros n T t level. revert n T t. induction level as [|level IH]; intros n T t node Hok Hn Hdf.
  - rewrite values_at_0 in Hn. simplify_eq. destruct node as [| |starts domain codomain pred deleted| |]; try done. destruct T as [| |ty T| |]; try done.
    destruct Hok as (m & Hc & (lens & -> & Hl & <-) & _). by exists lens, domain, codomain, pred, deleted, ty, n.
  - destruct t as [| |starts domain codomain pred deleted| |]; try done. cbn [tile_values_at] in Hn. destruct T as [| |ty T| |]; try done.
    destruct Hok as (m & Hc & _ & _ & HT). destruct (IH m T codomain node HT Hn Hdf) as (lens & d & c & p & del & ty' & k & -> & Hl & Hc' & Hup).
    exists lens, d, c, p, del, ty', k. split; [done|]. split; [done|]. split; [done|]. destruct level as [|level].
    + subst k. exists (TileDataFunction starts domain codomain pred deleted). split; [done|]. split; [done|]. simpl. rewrite (col_len _ _ _ Hc). by rewrite Hup.
    + destruct Hup as (up & Hup & Hdu & Hw). exists up. by split.
Qed.

(** The path [path_to] reads is the one [paths_at] lists. *)
Lemma path_up_ok T t level node n :
  tile_ok T 1 t -> tile_values_at t level = Some node -> tile_is_data_function node = true -> level_width node = Some n ->
  exists ps, paths_at t level = Some ps /\ length ps = n /\
    forall k rest, k < n -> path_up t level k rest = (p ← ps !! k; Some (p ++ rest)).
Proof.
  intros Hok. revert node n. induction level as [|level IH]; intros node n Hn Hdf Hw;
    destruct (tile_level T t _ node Hok Hn Hdf) as (lens & domain & codomain & pred & deleted & ty & m & -> & Hl & Hc & Hup);
    simpl in Hw; rewrite (col_len _ _ _ Hc) in Hw; simplify_eq.
  - rewrite values_at_0 in Hn. simplify_eq. destruct (key_paths_ok ty lens domain codomain pred deleted [[]]) as (ps & Eps & Hlp & Hps); [by rewrite Hup|done|].
    exists ps. unfold paths_at. cbn [paths_from].
    rewrite Eps. split; [done|]. split; [done|]. intros k rest Hk. cbn [path_up tile_values_at mbind option_bind].
    destruct (row_of_key lens k Hk) as (r & Hr & Hin & ->). destruct lens as [|x [|]]; try done. simpl in Hr. assert (r = 0) as -> by lia.
    destruct (Hps 0 [] k eq_refl Hin) as (v & Hv & Hpk). rewrite Hv, Hpk. done.
  - destruct Hup as (up & Hup & Hdu & Hwu). destruct (IH up (length lens) Hup Hdu Hwu) as (qs & Eqs & Hlq & Hq).
    destruct (key_paths_ok ty lens domain codomain pred deleted qs) as (ps & Eps & Hlp & Hps); [done|done|].
    exists ps. unfold paths_at in *. rewrite paths_from_snoc, Eqs, Hn. split; [exact Eps|]. split; [done|]. intros k rest Hk. cbn [path_up]. rewrite Hn. cbn [mbind option_bind].
    destruct (row_of_key lens k Hk) as (r & Hr & Hin & ->). destruct (lookup_lt_is_Some_2 qs r) as [q Hqr]; [lia|].
    destruct (Hps r q k Hqr Hin) as (v & Hv & ->). rewrite Hv. cbn [mbind option_bind]. rewrite Hq, Hqr by lia. simpl. by rewrite <- app_assoc.
Qed.

(** ** Keeping paths *)

(** What is kept of a row whose path is [pre]: the entries on kept paths, down to [depth]. *)
Fixpoint keep_paths (keep : list Value -> bool) (depth : nat) (pre : list Value) (v : RowVal) : RowVal :=
  match v with
  | RColl es =>
      RColl (omap (fun '(k, d, v) =>
        match k with
        | Some key =>
            if keep (pre ++ [key]) then
              Some (k, d, match depth with O => v | S depth => keep_paths keep depth (pre ++ [key]) v end)
            else None
        | None => None
        end) es)
  | v => v
  end.

Lemma masked_lookup {A} (mask : list bool) (l : list A) j i : length mask = length l -> kept mask !! j = Some i -> masked mask l !! j = l !! i.
Proof.
  intros Hl Hj. pose proof (masked_select mask l Hl) as E. apply mapM_Some in E. destruct (Forall2_lookup_l _ _ _ _ _ E Hj) as (x & Hx & Hi).
  by rewrite Hx, Hi.
Qed.

(** A level whose keys a mask filters, whatever its values become. *)
Lemma filtered_level ty T m lens domain pred deleted mask domain' codomain' (g : nat -> RowVal) :
  sum_list lens = m -> length mask = m -> selection ty domain (kept mask) domain' -> tile_ok T (length (kept mask)) codomain' ->
  (forall j k, kept mask !! j = Some k -> row_of codomain' j = g k) ->
  let t := TileDataFunction (run_starts 0 (map length (kept_runs mask lens))) domain' codomain' pred (moved_bits deleted (kept mask)) in
  tile_ok (TDataFunction ty T) (length lens) t /\
  forall r, r < length lens -> row_of t r
    = RColl (map (fun k => (index_at domain k, bool_decide (k ∈ deleted), g k)) (List.filter (masks mask) (run_keys lens r))).
Proof.
  intros Hm Hl [Hc Hix] HT Hg. rewrite <- (concat_kept_runs mask lens) in * by lia. intros t.
  assert (Hlr : length (kept_runs mask lens) = length lens) by (unfold kept_runs; by rewrite length_map, length_seq).
  assert (Hsum : sum_list (map length (kept_runs mask lens)) = length (concat (kept_runs mask lens))) by by rewrite length_concat. split.
  - exists (length (concat (kept_runs mask lens))). split; [done|]. split; [exists (map length (kept_runs mask lens)); by rewrite length_map|]. split; [|done].
    intros k (i & Hi & _)%elem_of_moved. by apply lookup_lt_Some in Hi.
  - intros r Hr. assert (Hk : kept_runs mask lens !! r = Some (List.filter (masks mask) (run_keys lens r))).
    { unfold kept_runs. by rewrite list_lookup_fmap, lookup_seq_lt by done. }
    unfold t. rewrite (row_of_function (map length (kept_runs mask lens)) _ _ _ _ ty (length (concat (kept_runs mask lens))) r
      (length (List.filter (masks mask) (run_keys lens r)))); [|done|done|by rewrite list_lookup_fmap, Hk].
    f_equal. unfold entries. apply (map_run (kept_runs mask lens) r); [done|]. intros j x Hj. f_equal; [f_equal|].
    + by apply Hix.
    + apply bool_decide_ext. rewrite elem_of_moved, Hj. split; [|by exists x]. intros (i & [= <-] & ?). done.
    + by apply Hg.
Qed.

Definition kept_value (keep : list Value -> bool) (depth : nat) (path : list Value) (v : RowVal) : RowVal :=
  match depth with O => v | S depth => keep_paths keep depth path v end.

Lemma kept_entries keep depth (ps : list (list Value)) domain codomain deleted path run :
  (forall k, k ∈ run -> exists v, index_at domain k = Some v /\ ps !! k = Some (path ++ [v])) ->
  keep_paths keep depth path (RColl (entries domain codomain deleted run))
  = RColl (map (fun k => (index_at domain k, bool_decide (k ∈ deleted), kept_value keep depth (default [] (ps !! k)) (row_of codomain k)))
      (List.filter (masks (map keep ps)) run)).
Proof.
  intros H. assert (E : forall d es, keep_paths keep d path (RColl es) = RColl (omap (fun '(k, d', v) => match k with
      | Some key => if keep (path ++ [key]) then Some (k, d', kept_value keep d (path ++ [key]) v) else None | None => None end) es)) by by intros [|d].
  rewrite E. f_equal. induction run as [|k run IH]; [done|]. specialize (IH (fun k Hk => H k (list_elem_of_further _ _ _ Hk))).
  destruct (H k (list_elem_of_here _ _)) as (v & Hv & Hk). unfold entries in *. csimpl.
  assert (Em : masks (map keep ps) k = keep (path ++ [v])) by (unfold masks; by rewrite list_lookup_fmap, Hk).
  rewrite Em, Hv. destruct (keep (path ++ [v])); [|exact IH]. simpl. rewrite Hv, Hk. simpl. f_equal. exact IH.
Qed.

(** A tile has the levels of its tiling. *)
Lemma level_of_tiling depth T n t :
  tile_ok T n t -> (exists node, tile_values_at t depth = Some node /\ tile_is_data_function node = true)
    <-> exists ty U, values_at T depth = Some (TDataFunction ty U).
Proof.
  revert T n t. induction depth as [|depth IH]; intros T n t Hok.
  - rewrite values_at_0. assert (E : values_at T 0 = Some T) by by destruct T. rewrite E. split.
    + intros (node & [= <-] & Hdf). destruct t; try done. destruct T; try done. eauto.
    + intros (ty & U & [= ->]). destruct t; try done. eauto.
  - destruct t as [| |starts domain codomain pred deleted| |]; destruct T as [| |ty T| |]; try done; simpl.
    3: destruct Hok as (m & _ & _ & _ & HT); by apply (IH T m).
    all: split; [by intros (? & ? & _)|by intros (? & ? & ?)].
Qed.

Lemma retain_paths_ok depth : forall T n t paths keep,
  tile_ok T n t -> length paths = n -> (exists node, tile_values_at t depth = Some node /\ tile_is_data_function node = true) ->
  exists t', retain_paths_under t depth paths keep = Some t' /\ tile_ok T n t' /\
    forall r path, paths !! r = Some path -> row_of t' r = keep_paths keep depth path (row_of t r).
Proof.
  induction depth as [|depth IH]; intros T n t paths keep Hok Hlen (node & Hn & Hdf).
  all: destruct t as [| |starts domain codomain pred deleted| |]; try (rewrite ?values_at_0 in Hn; by simplify_eq).
  all: destruct T as [| |ty T| |]; try done.
  all: destruct Hok as (m & Hc & (lens & -> & Hl & Hm) & Hdel & HT).
  all: destruct (key_paths_ok ty lens domain codomain pred deleted paths) as (ps & Eps & Hlp & Hps); [lia|by rewrite Hm|].
  all: destruct (retain_keys_ok ty T m lens domain codomain pred deleted (map keep ps) Hc Hm HT) as (d' & c' & Er & _ & Hsel & Hgok & Hgrow);
    [rewrite length_map; lia|].
  - destruct (filtered_level ty T m lens domain pred deleted (map keep ps) d' c' (row_of codomain) Hm) as [Hok Hrow]; [rewrite length_map; lia|done|done|done|].
    eexists. split; [cbn [retain_paths_under]; rewrite Eps; cbn [mbind option_bind]; by rewrite Er|]. rewrite <- Hl. split; [done|].
    intros r path Hr. pose proof (lookup_lt_Some _ _ _ Hr). rewrite Hrow by lia. rewrite (row_of_keys lens _ _ _ _ ty m r) by (done || lia).
    rewrite (kept_entries keep 0 ps); [done|]. intros k Hk. by apply (Hps r path k).
  - destruct (IH T (length (kept (map keep ps))) c' (masked (map keep ps) ps) keep) as (c2 & Ec2 & Hok2 & Hrow2); [done| | |].
    { pose proof (masked_select (map keep ps) ps) as E. rewrite length_map in E. specialize (E eq_refl). apply mapM_Some, Forall2_length in E. done. }
    { apply (level_of_tiling depth T (length (kept (map keep ps))) c' Hgok). apply (level_of_tiling depth T m codomain HT). by exists node. }
    destruct (filtered_level ty T m lens domain pred deleted (map keep ps) d' c2 (fun k => keep_paths keep depth (default [] (ps !! k)) (row_of codomain k)) Hm)
      as [Hok Hrow]; [rewrite length_map; lia|done|done| |].
    { intros j k Hj. rewrite <- (Hgrow j k Hj). destruct (lookup_lt_is_Some_2 ps k) as [p Hp].
      { pose proof (kept_lt (map keep ps)) as Hlt. rewrite Forall_forall, length_map in Hlt. by eapply Hlt, list_elem_of_lookup_2. }
      rewrite Hp. simpl. apply Hrow2. rewrite (masked_lookup _ _ j k); [done|by rewrite length_map|done]. }
    eexists. split.
    { cbn [retain_paths_under]. rewrite Eps. cbn [mbind option_bind]. rewrite Er. cbn [mbind option_bind]. rewrite Ec2. done. }
    rewrite <- Hl. split; [done|]. intros r path Hr. pose proof (lookup_lt_Some _ _ _ Hr). rewrite Hrow by lia.
    rewrite (row_of_keys lens _ _ _ _ ty m r) by (done || lia). rewrite (kept_entries keep (S depth) ps); [done|]. intros k Hk. by apply (Hps r path k).
Qed.
End TilePaths.
