(* ===== verification/TileReleases.v ===== *)
(** * Releases of tiles ([src/interpreter/tiling/tile.rs])

    [remove_guarded] takes out of a tile what a consumer's guard names, and [withhold] leaves out
    keys that will arrive later.  The guards are those of [Guards]; [pf] is the fuel of their
    regions and of the predicates.  A panic is [None]. *)

From Stdlib Require Import List.
From stdpp Require Import gmap.
From S2P Require Import Prelude Predicate PredicatePaths Guards Values Columns Tiles TileStores TileMerges.
Set Warnings "-register-all".

Section TileReleases.
Context {KS : KeySets Scalar}.
Abbreviation Predicate := (Predicate Scalar).
Abbreviation TileGuard := (@TileGuard Scalar KS).

(** [empty_guard_of]. *)
Fixpoint empty_guard_of (t : Tile) : TileGuard :=
  match t with
  | TileScalar _ => GScalar PFalse
  | TileAggregation _ _ _ => GAggregation PFalse
  | TileRecord fields _ => GRecord (map (fun '(name, field) => (name, empty_guard_of field)) fields)
  | TileDataFunction _ _ _ _ _ | TileStore _ _ _ _ _ _ => GFunction (FDomain PFalse)
  end.

(** ** Removing what a guard names *)

(** The rows at which a release names a scalar field's cell, where the field has one. *)
Definition released_rows (named : Predicate) (at_ : list (option nat)) (row_paths : list (list Value)) (total : nat) : option (list nat) :=
  rows ← mapM (fun row =>
    p ← at_ !! row;
    match p with
    | None => Some None
    | Some _ =>
        if is_true named then Some (Some row)
        else path ← row_paths !! row; b ← contains_path named path; Some (if (b : bool) then Some row else None)
    end) (seq 0 total);
  Some (omap id rows).

(** [remove_guarded_under] of a scalar field under a level: its cells, and the rows it has none at. *)
Definition release_cells (p : Predicate) (row_paths : list (list Value)) (total : nat) (cells : ColumnValue)
    (missing : option (gset nat)) : option (ColumnValue * option (gset nat)) :=
  named ← leaf_rows p;
  if is_false named then Some (cells, missing)
  else
    let gone := default ∅ missing in
    let at_ := cell_positions total gone in
    released ← released_rows named at_ row_paths total;
    n ← len cells;
    if negb (bool_decide (released = [])) && negb (n =? 0) then
      let keep := map (fun cell => negb (existsb (fun row => bool_decide (at_ !! row = Some (Some cell))) released)) (seq 0 n) in
      cells ← retain cells keep;
      let gone := gone ∪ list_to_set released in
      Some (cells, if decide (gone = ∅) then None else Some gone)
    else Some (cells, if decide (gone = ∅) then None else Some gone).

(** The keys of a collection a predicate names: by their paths where the guard names one. *)
Definition named_keys (pred : Predicate) (domain : ColumnValue) (key_paths : option (list (list Value))) : option (gset nat) :=
  bits ← (match key_paths with
    | Some paths => mapM (contains_path pred) paths
    | None => n ← len domain; mapM (fun key => v ← index_at domain key; contains pred v) (seq 0 n)
    end);
  Some (list_to_set (kept bits)).

(** [remove_guarded_under]. *)
Fixpoint remove_guarded_under (guard : TileGuard) (t : Tile) (row_paths : list (list Value)) (under_a_level : bool) {struct guard} :
    option Tile :=
  key_paths ← (if tile_is_data_function t && names_a_path guard then paths ← key_paths t row_paths; Some (Some paths) else Some None);
  if guard_is_empty guard then Some t
  else match t, guard with
  | TileScalar cv, GScalar pred =>
      if under_a_level then Some t
      else if is_true pred then c ← select_indices cv []; Some (TileScalar c) else None
  | TileAggregation kind accumulator terminal, GAggregation pred =>
      if under_a_level then Some t
      else if is_true pred then
        accumulator ← select_rows accumulator []; terminal ← select_indices terminal []; Some (TileAggregation kind accumulator terminal)
      else None
  | TileRecord fields absent, GRecord guards =>
      total ← record_rows fields absent;
      let removals := map (fun '(k, g) => (k, (g, remove_guarded_under g))) guards in
      fields ← mapM (fun '(k, t) =>
        match assoc k removals with
        | None => Some (k, (t, absent !! k))
        | Some (g, remove) =>
            match under_a_level, t, g with
            | true, TileScalar cells, GScalar pred =>
                '(cells, missing) ← release_cells pred row_paths total cells (absent !! k); Some (k, (TileScalar cells, missing))
            | _, _, _ => t ← remove t row_paths under_a_level; Some (k, (t, absent !! k))
            end
        end) fields;
      Some (TileRecord (map (fun '(k, (t, _)) => (k, t)) fields)
        (foldl (fun absent '(k, (_, missing)) => match missing with Some rows => <[k := rows]> absent | None => delete k absent end) absent fields))
  | t, GOr arms => foldl (fun t arm => t ← t; remove_guarded_under arm t row_paths under_a_level) (Some t) arms
  | TileDataFunction starts domain codomain pred deleted, GFunction (FDomain p) =>
      keys ← named_keys p domain key_paths;
      Some (TileDataFunction starts domain codomain pred (deleted ∪ keys))
  | TileDataFunction starts domain codomain pred deleted, GFunction (FCodomain inner) =>
      codomain ← remove_guarded_under inner codomain (default [] key_paths) true;
      Some (TileDataFunction starts domain codomain pred deleted)
  | TileStore _ _ _ _ _ _, GFunction (FDomain _) => Some t
  | _, _ => None
  end.

(** [remove_guarded]. *)
Definition remove_guarded (pf : nat) (t : Tile) (guard : TileGuard) : option Tile :=
  guard ← guard_flatten_or pf [guard]; remove_guarded_under guard t [[]] false.

(** [contains_guarded]. *)
Definition contains_guarded (pf : nat) (t : Tile) (guard : TileGuard) : option bool :=
  probe ← remove_guarded pf t guard; Some (negb (tile_eqb probe t)).

(** ** Withholding keys *)

(** [withhold]: each level down to [level] stops stating the prefixes of the withheld paths. *)
Definition withhold (pf : nat) (t : Tile) (level : nat) (keep : list bool) (withheld : list (list Value)) : option Tile :=
  t ← foldl (fun t depth =>
    t ← t;
    points ← mapM (fun path => if S depth <=? length path then exactly (take (S depth) path) else None) withheld;
    prefixes ← flatten_or (ops pf) points;
    with_values_at t depth (fun node =>
      match node with
      | TileDataFunction starts domain codomain pred deleted =>
          pred ← minus pf pred prefixes; Some (TileDataFunction starts domain codomain pred deleted)
      | _ => None
      end)) (Some t) (seq 0 (S level));
  with_values_at t level (fun node => retain_keys node keep).

End TileReleases.
