(* ===== verification/RemoveFacts.v ===== *)
(** * What a release takes out of a tile

    [remove_guarded_under] takes out of every row exactly the cells its guard takes: the keys a
    domain predicate admits by their paths, and the cells of a record's scalar fields at the
    rows they are named at. *)

From Stdlib Require Import List.
From stdpp Require Import gmap.
From S2P Require Import Prelude Predicate PredicateSem KeyMaps Guards GuardSem Values Columns ColumnFacts Tiles TileRows TileFacts TileStores TileValid TileMerges MergeSpec AppendFacts MergeFacts TilePaths TileReleases.
From S2P Require Import PredicateAlgebra PredicatePaths PredicatePathFacts.
Set Warnings "-register-all,-clear-no-such-hyp".

(** ** Cells after a release *)

Lemma omap_id_positions X n : (forall r, r ∈ X -> r < n) -> omap id (map (cell_position X) (seq 0 n)) = seq 0 (n - size X).
Proof.
  intros HX. rewrite <- (countb_present n X HX). clear HX. induction n as [|n IH]; [done|].
  rewrite seq_S, map_app, omap_app, IH, countb_snoc. csimpl. unfold cell_position at 1.
  destruct (decide (n ∈ X)) as [Hin|Hin].
  - rewrite (present_false X n Hin). by rewrite app_nil_r, Nat.add_0_r.
  - rewrite (present_true X n Hin). simpl. by rewrite Nat.add_1_r, seq_S.
Qed.

Lemma filter_omap {A} (q : A -> bool) (l : list (option A)) :
  omap id (map (fun x => (p ← x; if q p then Some p else None)) l) = List.filter q (omap id l).
Proof. induction l as [|[p|] l IH]; [done| |done]. csimpl. destruct (q p); simpl; by rewrite IH. Qed.

Lemma cell_position_inj X r s p : cell_position X r = Some p -> cell_position X s = Some p -> r = s.
Proof.
  assert (H : forall r s, r < s -> cell_position X r = Some p -> cell_position X s = Some p -> False).
  { clear. intros r s Hlt. unfold cell_position. destruct (decide (r ∈ X)) as [|Hr]; [done|]. destruct (decide (s ∈ X)); [done|]. intros [= <-] [= E].
    pose proof (countb_seq_lt (present X) r s Hlt (present_true _ _ Hr)). lia. }
  intros Hr Hs. destruct (Nat.lt_trichotomy r s) as [?|[?|?]]; [exfalso; eauto|done|exfalso; eauto].
Qed.

(** The cells left once those of the rows [named] names are released. *)
Lemma kept_cells_ok ty n X cells (named : nat -> bool) :
  cells_ok ty n X cells ->
  let at_ := cell_positions n X in
  let released := List.filter (fun row => negb (bool_decide (row ∈ X)) && named row) (seq 0 n) in
  let keep := map (fun cell => negb (existsb (fun row => bool_decide (at_ !! row = Some (Some cell))) released)) (seq 0 (n - size X)) in
  let X' := X ∪ list_to_set released in
  exists cells', retain cells keep = Some cells' /\ cells_ok ty n X' cells' /\
    forall r, r < n -> cell_at cells' X' r = if named r then None else cell_at cells X r.
Proof.
  intros [HX Hc] at_ released keep X'.
  assert (Hrel : forall r, r ∈ released <-> r < n /\ r ∉ X /\ named r = true).
  { intros r. unfold released. rewrite list_elem_of_In, List.filter_In, <- list_elem_of_In, elem_of_seq, andb_true_iff, negb_true_iff, bool_decide_eq_false. naive_solver lia. }
  assert (HX' : forall r, r ∈ X' <-> r ∈ X \/ (r < n /\ named r = true)).
  { intros r. unfold X'. rewrite elem_of_union, elem_of_list_to_set, Hrel. destruct (decide (r ∈ X)); tauto. }
  assert (Hat : forall r, r < n -> at_ !! r = Some (cell_position X r)) by (intros r Hr; by apply cell_positions_lookup).
  assert (Hkeep : forall r p, r < n -> cell_position X r = Some p -> masks keep p = negb (named r)).
  { intros r p Hr Hp. pose proof (cell_position_lt n X r p HX Hr Hp) as Hlt. unfold masks, keep.
    rewrite list_lookup_fmap, lookup_seq_lt by done. simpl. f_equal. apply eq_true_iff_eq. rewrite existsb_exists. split.
    - intros (s & Hs%list_elem_of_In & E%bool_decide_eq_true). apply Hrel in Hs as (Hsn & _ & Hnamed). rewrite Hat in E by done.
      assert (s = r) as -> by (eapply cell_position_inj; [|exact Hp]; congruence). done.
    - intros Hnamed. exists r. rewrite bool_decide_eq_true, Hat by done. split; [|by f_equal]. apply list_elem_of_In, Hrel. split; [done|]. split; [|done].
      unfold cell_position in Hp. by destruct (decide (r ∈ X)). }
  set (ps := map (fun r => p ← cell_position X r; if masks keep p then Some p else None) (seq 0 n)).
  assert (Hlk : length keep = n - size X) by (unfold keep; by rewrite length_map, length_seq).
  assert (Eps : omap id ps = kept keep).
  { unfold ps. rewrite kept_filter, Hlk, <- omap_id_positions by done. rewrite <- filter_omap. by rewrite map_map. }
  assert (Hgone : gone_rows ps = X').
  { apply set_eq. intros r. rewrite elem_of_gone, HX'. unfold ps. rewrite list_lookup_fmap. destruct (decide (r < n)) as [Hr|Hr].
    - rewrite lookup_seq_lt by done. simpl. destruct (cell_position X r) as [p|] eqn:Ep.
      + simpl. rewrite (Hkeep r p Hr Ep). assert (r ∉ X) by (unfold cell_position in Ep; by destruct (decide (r ∈ X))).
        destruct (named r); simpl; naive_solver.
      + assert (r ∈ X) by (unfold cell_position in Ep; by destruct (decide (r ∈ X))). naive_solver.
    - rewrite lookup_seq_ge by lia. simpl. split; [done|]. intros [Hx|[? _]]; [apply HX in Hx; lia|done]. }
  destruct (picked_cells_ok ty _ cells ps Hc) as (c' & Ec & Hc' & Hix).
  { intros p (r & E & Hr%elem_of_seq)%list_elem_of_fmap. destruct (cell_position X r) as [p'|] eqn:Ep; [|done]. simpl in E.
    destruct (masks keep p'); [|done]. simplify_eq. eapply cell_position_lt; [done| |done]. lia. }
  rewrite Eps in Ec. exists c'. split; [rewrite (retain_ok ty); [done|by rewrite Hlk]|].
  assert (Hlps : length ps = n) by (unfold ps; by rewrite length_map, length_seq). rewrite Hlps, Hgone in *.
  split; [split; [|done]|].
  - intros r [Hr|[Hr _]]%HX'; [by apply HX|done].
  - intros r Hr. rewrite (Hix r (p ← cell_position X r; if masks keep p then Some p else None)).
    + rewrite cell_at_position. destruct (cell_position X r) as [p|] eqn:Ep; simpl; [|by destruct (named r)].
      rewrite (Hkeep r p Hr Ep). by destruct (named r).
    + unfold ps. by rewrite list_lookup_fmap, lookup_seq_lt by done.
Qed.

Section RemoveFacts.
Context {KS : KeySets Scalar} {KL : KeySetLaws Scalar KS}.
Abbreviation Tiling := (Tiling CTy).
Abbreviation Predicate := (Predicate Scalar).
Abbreviation TileGuard := (@TileGuard Scalar KS).
Abbreviation Step := (@Step Scalar).
(** A tiling with its keys read as shapes. *)
Fixpoint shaped (shape : CTy -> Shape) (T : Tiling) : Guards.Tiling Shape :=
  match T with
  | TScalar ty => TScalar (shape ty)
  | TRecord ts => TRecord (map (fun '(k, T) => (k, shaped shape T)) ts)
  | TDataFunction ty T => TDataFunction (shape ty) (shaped shape T)
  | TAggregation kind T => TAggregation kind (shaped shape T)
  | TStore ty T => TStore (shape ty) (shaped shape T)
  end.

(** Neither aggregates nor stores. *)
Fixpoint plain (T : Tiling) : Prop :=
  match T with
  | TScalar _ => True
  | TRecord ts => all_of (fun '(_, T) => plain T) ts
  | TDataFunction _ T => plain T
  | TAggregation _ _ | TStore _ _ => False
  end.

(** ** The cells of a row *)

(** Whether a row holds a cell, or the node on the way to one. *)
Fixpoint held (v : RowVal) (c : list Step) : bool :=
  match v with
  | RCell x => match c with [] => match x with Some _ => true | None => false end | _ => false end
  | RRecord fields =>
      match c with
      | [] => true
      | SField f :: c =>
          (fix find fields := match fields with
            | [] => false
            | (k, v) :: fields => if decide (f = k) then held v c else find fields
            end) fields
      | _ => false
      end
  | RColl es =>
      match c with
      | [] => true
      | SKey k :: c => existsb (fun '(key, d, v) => bool_decide (key = Some k) && negb d && held v c) es
      | _ => false
      end
  | _ => false
  end.

Lemma held_record fields f c : held (RRecord fields) (SField f :: c) = match assoc f fields with Some v => held v c | None => false end.
Proof. cbn [held]. induction fields as [|[k v] fields IH]; [done|]. simpl. by destruct (decide (f = k)). Qed.

Definition admits (p : Predicate) (path : list Value) : bool := default false (contains_path p path).

(** The cells a guard takes out of a row whose path is [pre]. *)
Fixpoint takes (g : TileGuard) (under : bool) (pre : list Value) (c : list Step) : bool :=
  if guard_is_empty g then false
  else match g with
  | GScalar _ => negb under && match c with [] => true | _ => false end
  | GAggregation _ => false
  | GRecord m =>
      match c with
      | SField f :: c =>
          (fix find m := match m with
            | [] => false
            | (k, g) :: m =>
                if decide (f = k) then
                  match under, g with
                  | true, GScalar p =>
                      let named := default PFalse (leaf_rows p) in
                      match c with [] => negb (is_false named) && (is_true named || admits named pre) | _ => false end
                  | _, _ => takes g under pre c
                  end
                else find m
            end) m
      | _ => false
      end
  | GFunction (FDomain p) => match c with SKey k :: _ => admits p (pre ++ [k]) | _ => false end
  | GFunction (FCodomain g) => match c with SKey k :: c => takes g true (pre ++ [k]) c | _ => false end
  | GOr arms => existsb (fun a => takes a under pre c) arms
  end.

Lemma takes_empty g under pre c : guard_is_empty g = true -> takes g under pre c = false.
Proof. intros H. destruct g; cbn [takes]; by rewrite H. Qed.

(** A predicate that names no path reads the key alone. *)
Lemma unqualified_path (p : Predicate) pre k : qualifies p = false -> contains_path p (pre ++ [k]) = contains p k.
Proof.
  induction p as [| |s|m IH|arms IH|tags rest IH|e h IHe IHh] using pred_ind; intros Hq; cbn [contains_path]; rewrite ?last_snoc; try done.
  cbn [contains]. simpl in Hq. induction IH as [|a arms Ha _ IHa]; [done|]. simpl in Hq. apply orb_false_iff in Hq as [Hqa Hq].
  simpl. rewrite (Ha Hqa). destruct (contains a k) as [[]|]; simpl; [done|by apply IHa|done].
Qed.

Lemma rows_plain T n t : plain T -> tile_ok T n t -> exists x, rows t = Some x /\ x <= n.
Proof.
  revert T n. induction t as [cv|fields absent IH|starts domain codomain pred deleted _|kind acc terminal _|st se de fr te cl _ _ _ _] using tile_ind;
    intros T n Hp H.
  - destruct T; try done. destruct H as (m & Hm & Hc). exists m. simpl. rewrite (col_len _ _ _ Hc). split; [done|]. lia.
  - apply tile_ok_record in H as (ts & -> & _ & _ & H). simpl in Hp.
    assert (Hc : exists counts, mapM (fun '(name, field) => n ← rows field; Some (n + match absent !! name with Some s => size s | None => 0 end)) fields = Some counts /\ Forall (fun x => x <= n) counts).
    { induction H as [|[k f] [k' U] fields ts [E Hf] _ IHf]; [by exists []|]. destruct Hp as [Hpu Hp]. apply Forall_cons in IH as [IHc IH].
      destruct (IHf IH Hp) as (counts & Ec & Hle). simpl in Hf, IHc.
      assert (exists y, rows f = Some y /\ y + match absent !! k with Some s => size s | None => 0 end <= n) as (y & Ey & Hy).
      { destruct (absent !! k) as [missing|].
        - destruct Hf as (_ & Hlt & cells & ty & -> & -> & Hc). simpl. rewrite (col_len _ _ _ Hc). eexists. split; [done|]. pose proof (size_bounded missing n Hlt). lia.
        - destruct (IHc U n Hpu Hf) as (y & Ey & Hy). exists y. split; [done|]. simpl in *. lia. }
      simpl. rewrite Ey. simpl. rewrite Ec. eexists. split; [done|]. by constructor. }
    destruct Hc as (counts & Ec & Hle). simpl. rewrite Ec. eexists. split; [done|].
    clear -Hle. induction Hle as [|x counts Hx _ IH]; simpl in *; lia.
  - destruct T; try done. destruct H as (m & _ & (lens & -> & <- & _) & _). exists (length lens). simpl. by rewrite length_run_starts.
  - by destruct T.
  - by destruct T.
Qed.

Lemma foldr_max_ge x (l : list nat) : x ∈ l -> x <= foldr Nat.max 0 l.
Proof. induction 1; simpl; lia. Qed.

(** The rows of a record are as many as the cells of any of its scalar fields stand at. *)
Lemma record_rows_fields ts n fields absent :
  plain (TRecord ts) -> tile_ok (TRecord ts) n (TileRecord fields absent) ->
  exists total, record_rows fields absent = Some total /\ total <= n /\
    forall k cells m, (k, TileScalar cells) ∈ fields -> len cells = Some m -> m + match absent !! k with Some s => size s | None => 0 end <= total.
Proof.
  intros Hp Hok. destruct (rows_plain _ _ _ Hp Hok) as (total & Et & Hle). exists total. split; [done|]. split; [done|].
  intros k cells m Hin Hm. simpl in Et. apply bind_Some in Et as (counts & Ec & [= <-]). apply mapM_Some in Ec.
  apply list_elem_of_lookup in Hin as [i Hi]. destruct (Forall2_lookup_l _ _ _ _ _ Ec Hi) as (x & Hx & E). simpl in E. rewrite Hm in E. simpl in E. simplify_eq.
  by apply foldr_max_ge, list_elem_of_lookup_2 with i.
Qed.

(** ** A scalar field under a level *)

(** Whether a leaf's rows take in the row with a path. *)
Definition leaf_named (p : Predicate) (pre : list Value) : bool :=
  let named := default PFalse (leaf_rows p) in negb (is_false named) && (is_true named || admits named pre).

Lemma leaf_rows_total D p :
  leaf_ok D p -> exists named, leaf_rows p = Some named /\
    (named = PTrue \/ named = PFalse \/ (wf D named /\ qualifies p = true)).
Proof.
  intros [->|[->|(e & -> & He & _ & _)]]; unfold leaf_rows; simpl; [exists PTrue; auto|exists PFalse; auto|]. exists e. auto.
Qed.

Lemma released_rows_ok D named (full paths : list (list Value)) X n :
  (named = PTrue \/ (wf D named /\ paths = full)) -> length full = n ->
  released_rows named (cell_positions n X) paths n
  = Some (List.filter (fun row => negb (bool_decide (row ∈ X)) && (is_true named || admits named (default [] (full !! row)))) (seq 0 n)).
Proof.
  intros Hn Hlen. unfold released_rows.
  set (q := fun row => negb (bool_decide (row ∈ X)) && (is_true named || admits named (default [] (full !! row)))).
  rewrite (mapM_Some_2 _ (seq 0 n) (map (fun row => if q row then Some row else None) (seq 0 n))).
  - simpl. f_equal. induction (seq 0 n) as [|x l IH]; [done|]. csimpl. destruct (q x); simpl; by rewrite IH.
  - apply Forall2_fmap_r, Forall_Forall2_diag, Forall_forall. intros row Hrow%elem_of_seq. unfold compose. cbv beta.
    rewrite cell_positions_lookup by lia. cbn [mbind option_bind]. unfold q. destruct (decide (row ∈ X)) as [Hx|Hx]; [by rewrite bool_decide_true|]. rewrite bool_decide_false by done. simpl.
    destruct Hn as [->|[Hw ->]]; [done|]. destruct (is_true named); [done|]. destruct (lookup_lt_is_Some_2 full row) as [path Hp]; [lia|].
    rewrite Hp. simpl. unfold admits. destruct (contains_path_total D named path Hw) as [b ->]. simpl. by destruct b.
Qed.

(** A scalar field over [n] rows, some of which may lack a cell. *)
Definition scalar_field (ty : CTy) (n : nat) (missing : option (gset nat)) (cells : ColumnValue) : Prop :=
  match missing with
  | None => exists m, (m = 0 \/ m = n) /\ col ty m cells
  | Some X => X <> ∅ /\ cells_ok ty n X cells
  end.

Definition scalar_cell (missing : option (gset nat)) (cells : ColumnValue) (r : nat) : option Value :=
  match missing with None => cell_of_column cells r | Some X => cell_at cells X r end.

Lemma scalar_field_cases ty n missing cells :
  scalar_field ty n missing cells ->
  (missing = None /\ col ty 0 cells /\ n <> 0) \/
  (cells_ok ty n (default ∅ missing) cells /\ forall r, r < n -> scalar_cell missing cells r = cell_at cells (default ∅ missing) r).
Proof.
  destruct missing as [X|]; [intros [_ H]; by right|]. intros (m & Hm & Hc). destruct (decide (m = n)) as [->|]; [right|left; naive_solver lia].
  simpl. split; [split; [set_solver|by rewrite size_empty, Nat.sub_0_r]|]. intros r Hr. symmetry. by apply (cell_at_whole _ ty n).
Qed.

Lemma cells_field ty n X cells :
  cells_ok ty n X cells ->
  let missing := if decide (X = ∅) then None else Some X in
  scalar_field ty n missing cells /\ forall r, r < n -> scalar_cell missing cells r = cell_at cells X r.
Proof.
  intros [HX Hc]. simpl. destruct (decide (X = ∅)) as [->|Hne]; [|by split].
  rewrite size_empty, Nat.sub_0_r in Hc. split; [exists n; by split; [right|]|]. intros r Hr. symmetry. by apply (cell_at_whole _ ty n).
Qed.

Lemma release_cells_ok D ty n total p full paths cells missing :
  leaf_ok D p -> scalar_field ty n missing cells -> length full = n -> (paths = full \/ qualifies p = false) -> total <= n ->
  (forall m, len cells = Some m -> m + match missing with Some X => size X | None => 0 end <= total) ->
  exists cells' missing', release_cells p paths total cells missing = Some (cells', missing') /\ scalar_field ty n missing' cells' /\
    forall r pre, full !! r = Some pre ->
      scalar_cell missing' cells' r = if leaf_named p pre then None else scalar_cell missing cells r.
Proof.
  intros Hleaf Hf Hlen Hpaths Htotal Hcount. destruct (leaf_rows_total D p Hleaf) as (named & En & Hnamed).
  assert (Eln : forall pre, leaf_named p pre = negb (is_false named) && (is_true named || admits named pre)) by (intros; unfold leaf_named; by rewrite En).
  unfold release_cells. rewrite En. cbn [mbind option_bind]. destruct (is_false named) eqn:Ef.
  { exists cells, missing. split; [done|]. split; [done|]. intros r pre _. by rewrite Eln. }
  assert (Hn : named = PTrue \/ (wf D named /\ paths = full)).
  { destruct Hnamed as [->|[->|[Hw Hq]]]; [by left|done|]. right. split; [done|]. destruct Hpaths as [->|Hq']; congruence. }
  destruct (scalar_field_cases _ _ _ _ Hf) as [(-> & Hc & Hne)|[Hc Hcell]].
  - assert (E : exists released, released_rows named (cell_positions total ∅) paths total = Some released).
    { destruct Hn as [->|[Hw ->]]; eexists.
      - apply (released_rows_ok D PTrue (replicate total [])); [by left|by rewrite length_replicate].
      - etrans; [|apply (released_rows_ok D named (take total full) (take total full) ∅ total); [by right|rewrite length_take; lia]].
        unfold released_rows. f_equal. apply Forall_mapM_ext, Forall_forall. intros row Hrow%elem_of_seq. rewrite lookup_take_lt by lia. done. }
    destruct E as [released Er]. simpl default. rewrite Er. cbn [mbind option_bind]. rewrite (col_len _ _ _ Hc). cbn [mbind option_bind]. simpl. rewrite andb_false_r.
    exists cells, None. split; [by rewrite decide_True|]. split; [by exists 0; split; [left|]|]. intros r pre _. simpl.
    rewrite (cell_of_arrived _ _ _ r Hc). simpl. by destruct (leaf_named p pre).
  - set (X := default ∅ missing) in *. pose proof Hc as [HX Hcol]. pose proof (size_bounded X n HX) as Hsz.
    assert (total = n) as ->.
    { specialize (Hcount _ (col_len _ _ _ Hcol)). pose proof (size_empty (C := gset nat)). unfold X in *. destruct missing; simpl in *; lia. }
    rewrite (released_rows_ok D named full) by done. cbn [mbind option_bind]. rewrite (col_len _ _ _ Hcol). cbn [mbind option_bind].
    destruct (kept_cells_ok ty n X cells (fun row => is_true named || admits named (default [] (full !! row))) Hc) as (cells' & Er & Hok & Hrow).
    set (released := List.filter _ _) in *.
    destruct (decide (released = [])) as [Hnil|Hsome].
    + rewrite bool_decide_true by done. simpl negb. cbn [andb]. destruct (cells_field ty n X cells Hc) as [Hf' Hcell'].
      eexists _, _. split; [done|]. split; [done|]. intros r pre Hr. pose proof (lookup_lt_Some _ _ _ Hr). rewrite Hcell', Hcell, Eln by lia. simpl negb. cbn [andb].
      destruct (is_true named || admits named pre) eqn:Eq; [|done]. rewrite cell_at_eq. destruct (decide (r ∈ X)) as [|Hx]; [done|]. exfalso.
      assert (Hin : r ∈ released); [|rewrite Hnil in Hin; by apply elem_of_nil in Hin].
      unfold released. rewrite list_elem_of_In, List.filter_In, <- list_elem_of_In, elem_of_seq, bool_decide_false, Hr by done. split; [lia|done].
    + rewrite bool_decide_false by done. simpl negb. assert (n - size X =? 0 = false) as ->.
      { apply Nat.eqb_neq. destruct released as [|r released'] eqn:E; [done|]. assert (Hin : r ∈ released) by (rewrite E; left).
        unfold released in Hin. rewrite list_elem_of_In, List.filter_In, <- list_elem_of_In, elem_of_seq, andb_true_iff, negb_true_iff, bool_decide_eq_false in Hin.
        destruct Hin as (Hr & Hx & _). assert (Hp : cell_position X r = Some (countb (present X) (seq 0 r))) by (unfold cell_position; by rewrite decide_False).
        pose proof (cell_position_lt n X r _ HX (proj2 Hr) Hp). lia. }
      cbn [negb andb]. rewrite Er. cbn [mbind option_bind]. destruct (cells_field ty n _ cells' Hok) as [Hf' Hcell'].
      eexists _, _. split; [done|]. split; [done|]. intros r pre Hr. pose proof (lookup_lt_Some _ _ _ Hr). rewrite Hcell', Hcell, Eln by lia.
      rewrite Hrow by lia. rewrite Hr. done.
Qed.
End RemoveFacts.

(** * A release, row by row

    [removes]: under the paths of its rows, a guard of the tile's tiling is removed without a
    panic, the tile stays well formed, and each row holds what it held less the cells the
    guard [takes].  What is taken is named by the guard ([takes_names]). *)

Section RemoveRows.
Context {KS : KeySets Scalar} {KL : KeySetLaws Scalar KS}.
Abbreviation Tiling := (Tiling CTy).
Abbreviation Predicate := (Predicate Scalar).
Abbreviation TileGuard := (@TileGuard Scalar KS).
Abbreviation Step := (@Step Scalar).
Context (shape : CTy -> Shape).

Definition removes (g : TileGuard) : Prop := forall D T n t full paths under,
  plain T -> tile_ok T n t -> wfg D (shaped shape T) g -> length full = n ->
  (paths = full \/ names_a_path g = false) -> (under = false -> D = [] /\ n = 1) ->
  exists t', remove_guarded_under g t paths under = Some t' /\ tile_ok T n t' /\
    forall r pre c, full !! r = Some pre -> held (row_of t' r) c = held (row_of t r) c && negb (takes g under pre c).

(** ** Leaves *)

Lemma select_none ty m cv : col ty m cv -> exists cv', select_indices cv [] = Some cv' /\ col ty 0 cv'.
Proof. intros H. destruct (select_ok cv ty m [] H) as (cv' & E & Hc & _); [constructor|]. by exists cv'. Qed.

(** Without paths above, a leaf is whole or nothing. *)
Lemma leaf_whole p : leaf_ok [] p -> guard_is_empty (GScalar p : TileGuard) = false -> is_true p = true.
Proof. intros [->|[->|(e & _ & He & _)]]; [done..|]. by destruct e. Qed.

Lemma held_none (c : list Step) : held (RCell None) c = false.
Proof. by destruct c. Qed.

Lemma removes_scalar p : removes (GScalar p).
Proof.
  intros D T n t full paths under Hp Hok Hw Hlen Hpaths Hunder. destruct t as [cv| | | |]; destruct T as [ty| | | |]; try done.
  cbn [remove_guarded_under tile_is_data_function andb mbind option_bind].
  destruct (guard_is_empty (GScalar p)) eqn:Ee; [exists (TileScalar cv); split; [done|]; split; [done|]; intros; by rewrite takes_empty, andb_true_r|].
  destruct under.
  { exists (TileScalar cv). split; [done|]. split; [done|]. intros r pre c _. cbn [takes]. rewrite Ee. simpl negb. cbn [andb]. by rewrite andb_true_r. }
  destruct (Hunder eq_refl) as [-> _]. rewrite (leaf_whole p Hw Ee). destruct Hok as (m & _ & Hc). destruct (select_none _ _ _ Hc) as (cv' & -> & Hc').
  exists (TileScalar cv'). split; [done|]. split; [by exists 0; split; [left|]|]. intros r pre c _. cbn [row_of takes]. rewrite Ee.
  rewrite (cell_of_arrived _ _ _ r Hc'). cbn [Nat.eqb]. rewrite held_none. destruct c; [by rewrite andb_false_r|done].
Qed.

(** A column some rows of which have no cell: a guard of it is removed under no level, or changes nothing. *)
Lemma scalar_guard ty g : forall D cells m paths under,
  wfg D (TScalar (shape ty)) g -> col ty m cells -> (under = false -> D = [] /\ m = 0) ->
  exists cells', remove_guarded_under g (TileScalar cells) paths under = Some (TileScalar cells') /\ col ty m cells' /\
    (under = true -> cells' = cells /\ forall pre c, takes g true pre c = false).
Proof.
  induction g as [p|p|gs IH|p|g IH|arms IH] using guard_ind; intros D cells m paths under Hw Hc Hu; try done.
  - cbn [remove_guarded_under tile_is_data_function andb mbind option_bind]. destruct (guard_is_empty (GScalar p)) eqn:Ee.
    { exists cells. split; [done|]. split; [done|]. intros _. split; [done|]. intros. by apply takes_empty. }
    destruct under.
    { exists cells. split; [done|]. split; [done|]. intros _. split; [done|]. intros. cbn [takes]. by rewrite Ee. }
    destruct (Hu eq_refl) as [-> ->]. rewrite (leaf_whole p Hw Ee). destruct (select_none _ _ _ Hc) as (cv' & -> & Hc'). by exists cv'.
  - apply wfg_or in Hw as [_ Hw]. cbn [remove_guarded_under tile_is_data_function andb mbind option_bind].
    destruct (guard_is_empty (GOr arms)) eqn:Ee.
    { exists cells. split; [done|]. split; [done|]. intros _. split; [done|]. intros. by apply takes_empty. }
    assert (H : exists cells', foldl (fun t arm => t ← t; remove_guarded_under arm t paths under) (Some (TileScalar cells)) arms = Some (TileScalar cells') /\
      col ty m cells' /\ (under = true -> cells' = cells /\ forall pre c, existsb (fun a => takes a true pre c) arms = false)).
    { clear Ee. revert cells Hc. induction arms as [|a arms IHa]; intros cells Hc; [by exists cells|].
      apply Forall_cons in IH as [IH1 IH2], Hw as [Hw1 Hw2]. destruct (IH1 D cells m paths under Hw1 Hc Hu) as (c1 & E1 & Hc1 & H1).
      destruct (IHa IH2 Hw2 c1 Hc1) as (c2 & E2 & Hc2 & H2). exists c2. simpl. rewrite E1, E2. split; [done|]. split; [done|].
      intros Hut. destruct (H1 Hut) as [-> Ht1], (H2 Hut) as [-> Ht2]. split; [done|]. intros pre c. by rewrite Ht1, Ht2. }
    destruct H as (cells' & E & Hc' & H). exists cells'. split; [done|]. split; [done|]. intros Hut. destruct (H Hut) as [-> Ht]. split; [done|].
    intros pre c. cbn [takes]. rewrite Ee. apply Ht.
Qed.

(** ** Collections *)

(** The key paths a guard asks for. *)
Lemma asked_paths g ty n m lens domain codomain pred deleted full paths :
  length lens = n -> length full = n -> sum_list lens = m -> col ty m domain -> (paths = full \/ names_a_path g = false) ->
  exists ps, level_paths lens domain full ps /\
    (if tile_is_data_function (TileDataFunction (run_starts 0 lens) domain codomain pred deleted) && names_a_path g
     then p ← key_paths (TileDataFunction (run_starts 0 lens) domain codomain pred deleted) paths; Some (Some p) else Some None)
    = Some (if names_a_path g then Some ps else None).
Proof.
  intros Hl Hf Hm Hc Hp. destruct (key_paths_ok ty lens domain codomain pred deleted full) as (ps & Eps & Hps); [lia|by rewrite Hm|].
  exists ps. split; [done|]. cbn [tile_is_data_function andb]. destruct (names_a_path g); [|done]. destruct Hp as [->|]; [|done]. by rewrite Eps.
Qed.

(** The entries of a row whose marks or values change. *)
Lemma held_entries (es es' : list (option Value * bool * RowVal)) k c (q : bool) :
  Forall2 (fun e e' => e'.1.1 = e.1.1 /\
    (e.1.1 = Some k -> negb e'.1.2 && held e'.2 c = negb e.1.2 && held e.2 c && negb q)) es es' ->
  held (RColl es') (SKey k :: c) = held (RColl es) (SKey k :: c) && negb q.
Proof.
  intros H. cbn [held]. induction H as [|[[k1 d1] v1] [[k2 d2] v2] es es' [E Hq] _ IH]; [done|]. simpl in *. subst k2. rewrite IH.
  destruct (decide (k1 = Some k)) as [Hk|Hk].
  - rewrite bool_decide_true by done. simpl. rewrite (Hq Hk). by rewrite andb_orb_distrib_l.
  - rewrite bool_decide_false by done. done.
Qed.

(** The keys a domain predicate names, whether by their paths or by themselves. *)
Lemma named_keys_ok D ty p lens domain full ps :
  wf D p -> col ty (sum_list lens) domain -> length full = length lens -> level_paths lens domain full ps ->
  exists keys, named_keys p domain (if qualifies p then Some ps else None) = Some keys /\ (forall k, k ∈ keys -> k < sum_list lens) /\
    forall r pre k v, full !! r = Some pre -> k ∈ run_keys lens r -> index_at domain k = Some v -> bool_decide (k ∈ keys) = admits p (pre ++ [v]).
Proof.
  intros Hw Hc Hlen [Hlp Hps].
  assert (H : exists bits, (match (if qualifies p then Some ps else None) with
      | Some paths => mapM (contains_path p) paths
      | None => n ← len domain; mapM (fun key => v ← index_at domain key; contains p v) (seq 0 n)
      end) = Some bits /\ length bits = sum_list lens /\
      forall r pre k v, full !! r = Some pre -> k ∈ run_keys lens r -> index_at domain k = Some v -> masks bits k = admits p (pre ++ [v])).
  { destruct (qualifies p) eqn:Eq.
    - destruct (mapM_rel (contains_path p) (fun path b => b = admits p path) ps) as (bits & -> & H2).
      { intros path _. unfold admits. destruct (contains_path_total D p path Hw) as [b ->]. by exists b. }
      exists bits. split; [done|]. split; [by rewrite <- (Forall2_length _ _ _ H2)|]. intros r pre k v Hr Hk Hv.
      destruct (Hps r pre k Hr Hk) as (v' & Hv' & Hpk). simplify_eq. destruct (Forall2_lookup_l _ _ _ _ _ H2 Hpk) as (b & Hb & ->). unfold masks. by rewrite Hb.
    - rewrite (col_len _ _ _ Hc). cbn [mbind option_bind].
      destruct (mapM_rel (fun key => v ← index_at domain key; contains p v) (fun key b => forall v pre, index_at domain key = Some v -> b = admits p (pre ++ [v]))
        (seq 0 (sum_list lens))) as (bits & -> & H2).
      { intros key Hkey%elem_of_seq. destruct (index_some domain ty (sum_list lens) key Hc) as [v Hv]; [lia|]. rewrite Hv. simpl.
        destruct (contains_path_total D p ([] ++ [v]) Hw) as [b Hb]. rewrite unqualified_path in Hb by done. exists b. split; [done|].
        intros v' pre [= <-]. unfold admits. by rewrite unqualified_path, Hb. }
      exists bits. split; [done|]. split; [by rewrite <- (Forall2_length _ _ _ H2), length_seq|]. intros r pre k v Hr Hk Hv.
      assert (Hlt : k < sum_list lens) by (eapply run_keys_lt; [|done]; apply lookup_lt_Some in Hr; lia).
      destruct (Forall2_lookup_l _ _ _ k k H2) as (b & Hb & Hbv); [by rewrite lookup_seq_lt|]. unfold masks. rewrite Hb. by apply Hbv. }
  destruct H as (bits & E & Hlb & Hbits). unfold named_keys. rewrite E. cbn [mbind option_bind]. eexists. split; [done|].
  assert (Hin : forall k, k ∈ (list_to_set (kept bits) : gset nat) <-> k < sum_list lens /\ masks bits k = true).
  { intros k. rewrite elem_of_list_to_set, kept_filter, Hlb, list_elem_of_In, List.filter_In, <- list_elem_of_In, elem_of_seq. naive_solver lia. }
  split; [by intros k [? _]%Hin|]. intros r pre k v Hr Hk Hv. rewrite <- (Hbits r pre k v) by done.
  assert (Hlt : k < sum_list lens) by (eapply run_keys_lt; [|done]; apply lookup_lt_Some in Hr; lia).
  destruct (masks bits k) eqn:Em; [apply bool_decide_eq_true|apply bool_decide_eq_false]; rewrite Hin; [by split|]. intros [_ ?]. congruence.
Qed.

Lemma held_coll_other es c : (forall k c', c <> SKey k :: c') -> held (RColl es) c = match c with [] => true | _ => false end.
Proof. intros H. destruct c as [|[k|f] c]; [done| |done]. by destruct (H k c). Qed.

Lemma Forall2_same_map {A B C} (f : A -> B) (g : A -> C) (P : B -> C -> Prop) (l : list A) :
  (forall x, x ∈ l -> P (f x) (g x)) -> Forall2 P (map f l) (map g l).
Proof. intros H. apply Forall2_fmap, Forall_Forall2_diag, Forall_forall, H. Qed.

Lemma removes_domain p : removes (GFunction (FDomain p)).
Proof.
  intros D T n t full paths under Hp Hok Hw Hlen Hpaths Hunder. destruct T as [| |ty T| |]; try done. destruct t as [| |starts domain codomain pred deleted| |]; try done.
  destruct Hok as (m & Hc & (lens & -> & Hl & Hm) & Hdel & HT).
  destruct (asked_paths (GFunction (FDomain p)) ty n m lens domain codomain pred deleted full paths) as (ps & Hps & Eps); [done..|].
  cbn [remove_guarded_under]. rewrite Eps. cbn [mbind option_bind]. destruct (guard_is_empty (GFunction (FDomain p))) eqn:Ee.
  { eexists. split; [done|]. split; [by exists m; split; [|split; [by exists lens|]]|]. intros. by rewrite takes_empty, andb_true_r. }
  cbn [names_a_path]. destruct (named_keys_ok (shape ty :: D) ty p lens domain full ps) as (keys & -> & Hlt & Hkeys); [done|by rewrite Hm|lia|done|]. cbn [mbind option_bind].
  eexists. split; [done|]. split.
  { exists m. split; [done|]. split; [by exists lens|]. split; [|done]. rewrite <- Hm in *. intros k [?|?]%elem_of_union; auto. }
  intros r pre c Hr. pose proof (lookup_lt_Some _ _ _ Hr). rewrite !(row_of_keys lens _ _ _ _ ty m r) by (done || lia).
  destruct c as [|[k|f] c]; cbn [takes]; rewrite Ee; [done| |done]. apply held_entries, Forall2_same_map. intros j Hj. simpl. split; [done|]. intros Hk.
  rewrite <- (Hkeys r pre j k Hr Hj Hk). destruct (decide (j ∈ keys)) as [Hin|Hni].
  - rewrite !(bool_decide_true _ Hin), bool_decide_true by (apply elem_of_union; by right). simpl. by rewrite andb_false_r.
  - rewrite (bool_decide_false _ Hni). simpl. rewrite andb_true_r. do 2 f_equal. apply bool_decide_ext. set_solver.
Qed.

Lemma removes_codomain g : removes g -> removes (GFunction (FCodomain g)).
Proof.
  intros IH D T n t full paths under Hp Hok Hw Hlen Hpaths Hunder. destruct T as [| |ty T| |]; try done. destruct t as [| |starts domain codomain pred deleted| |]; try done.
  destruct Hok as (m & Hc & (lens & -> & Hl & Hm) & Hdel & HT).
  destruct (asked_paths (GFunction (FCodomain g)) ty n m lens domain codomain pred deleted full paths) as (ps & Hps & Eps); [done..|].
  cbn [remove_guarded_under]. rewrite Eps. cbn [mbind option_bind]. destruct (guard_is_empty (GFunction (FCodomain g))) eqn:Ee.
  { eexists. split; [done|]. split; [by exists m; split; [|split; [by exists lens|]]|]. intros. by rewrite takes_empty, andb_true_r. }
  cbn [names_a_path]. destruct (IH (shape ty :: D) T m codomain ps (default [] (if names_a_path g then Some ps else None)) true) as (c' & -> & HT' & Hrow);
    [done|done|done|by rewrite (proj1 Hps)|destruct (names_a_path g); [by left|by right]|done|]. cbn [mbind option_bind].
  eexists. split; [done|]. split; [by exists m; split; [|split; [by exists lens|]]|].
  intros r pre c Hr. pose proof (lookup_lt_Some _ _ _ Hr). rewrite !(row_of_keys lens _ _ _ _ ty m r) by (done || lia).
  destruct c as [|[k|f] c]; cbn [takes]; rewrite Ee; [done| |done]. apply held_entries, Forall2_same_map. intros j Hj. simpl. split; [done|]. intros Hk.
  destruct (proj2 Hps r pre j Hr Hj) as (v & Hv & Hpj). simplify_eq. rewrite (Hrow j (pre ++ [k]) c Hpj). by rewrite andb_assoc.
Qed.

(** ** Arms *)

Lemma removes_or arms : Forall removes arms -> removes (GOr arms).
Proof.
  intros IH D T n t full paths under Hp Hok Hw Hlen Hpaths Hunder. apply wfg_or in Hw as [_ Hw].
  assert (Ek : exists kp, (if tile_is_data_function t && names_a_path (GOr arms) then ps ← key_paths t paths; Some (Some ps) else Some None) = Some kp).
  { destruct t as [| |starts domain codomain pred deleted| |]; try by eexists. destruct T as [| |ty T| |]; try done. destruct Hok as (m & Hc & (lens & -> & Hl & Hm) & _).
    destruct (asked_paths (GOr arms) ty n m lens domain codomain pred deleted full paths) as (ps & _ & E); [done..|]. eauto. }
  destruct Ek as [kp Ek].
  assert (H : exists t', foldl (fun t arm => t ← t; remove_guarded_under arm t paths under) (Some t) arms = Some t' /\ tile_ok T n t' /\
    forall r pre c, full !! r = Some pre -> held (row_of t' r) c = held (row_of t r) c && negb (existsb (fun a => takes a under pre c) arms)).
  { clear Ek. assert (Hpa : paths = full \/ Forall (fun a => names_a_path a = false) arms).
    { destruct Hpaths as [|Hn]; [by left|right]. simpl in Hn. by apply existsb_false_iff in Hn. }
    clear Hpaths. revert t Hok. induction arms as [|a arms IHa]; intros t Hok; [exists t; split; [done|]; split; [done|]; intros; by rewrite andb_true_r|].
    apply Forall_cons in IH as [IH1 IH2], Hw as [Hw1 Hw2].
    destruct (IH1 D T n t full paths under Hp Hok Hw1 Hlen) as (t1 & E1 & Hok1 & H1); [destruct Hpa as [|Hpa]; [by left|right; by apply Forall_cons in Hpa as [? _]]|done|].
    destruct (IHa IH2 Hw2) with (t := t1) as (t2 & E2 & Hok2 & H2); [destruct Hpa as [|Hpa]; [by left|right; by apply Forall_cons in Hpa as [_ ?]]|done|].
    exists t2. simpl. rewrite E1, E2. split; [done|]. split; [done|]. intros r pre c Hr. by rewrite (H2 r pre c Hr), (H1 r pre c Hr), negb_orb, andb_assoc. }
  destruct H as (t' & E & Hok' & Hrow). cbn [remove_guarded_under]. rewrite Ek. cbn [mbind option_bind].
  destruct (guard_is_empty (GOr arms)) eqn:Ee; [exists t; split; [done|]; split; [done|]; intros; by rewrite takes_empty, andb_true_r|].
  exists t'. split; [by destruct t|]. split; [done|]. intros r pre c Hr. rewrite (Hrow r pre c Hr). cbn [takes]. by rewrite Ee.
Qed.

(** ** Records *)

(** What a field's guard takes: the cell of a scalar field under a level, or what the guard does. *)
Definition field_takes (g : TileGuard) (under : bool) (pre : list Value) (c : list Step) : bool :=
  match under, g with
  | true, GScalar p => match c with [] => leaf_named p pre | _ => false end
  | _, _ => takes g under pre c
  end.

Lemma takes_record m under pre f c :
  guard_is_empty (GRecord m) = false ->
  takes (GRecord m) under pre (SField f :: c) = match assoc f m with Some g => field_takes g under pre c | None => false end.
Proof. intros E. cbn [takes]. rewrite E. clear E. induction m as [|[k g] m IH]; [done|]. cbn [assoc]. by destruct (decide (f = k)). Qed.

(** One field of a record: [remove_guarded_under]'s closure over the fields. *)
Definition remove_field (guards : list (string * TileGuard)) (absent : gmap string (gset nat)) (paths : list (list Value)) (under : bool) (total : nat)
    (kf : string * Tile) : option (string * (Tile * option (gset nat))) :=
  let '(k, t) := kf in
  match assoc k (map (fun '(k, g) => (k, (g, remove_guarded_under g))) guards) with
  | None => Some (k, (t, absent !! k))
  | Some (g, remove) =>
      match under, t, g with
      | true, TileScalar cells, GScalar pred =>
          '(cells, missing) ← release_cells pred paths total cells (absent !! k); Some (k, (TileScalar cells, missing))
      | _, _, _ => t ← remove t paths under; Some (k, (t, absent !! k))
      end
  end.

Definition field_removed (n : nat) (absent : gmap string (gset nat)) (full : list (list Value)) (under : bool) (g : TileGuard) (T : Tiling)
    (kf : string * Tile) (kd : string * (Tile * option (gset nat))) : Prop :=
  kd.1 = kf.1 /\ field_done n T kd.2 /\
  forall r pre c, full !! r = Some pre -> held (done_row kd.2 r) c = held (field_row absent kf r) c && negb (field_takes g under pre c).

(** The cells of a scalar field under a level. *)
Lemma release_field D ty n total absent full paths k cells p :
  leaf_ok D p -> field_ok n absent (k, TileScalar cells) (k, TScalar ty) -> length full = n -> (paths = full \/ qualifies p = false) -> total <= n ->
  (forall m, len cells = Some m -> m + match absent !! k with Some s => size s | None => 0 end <= total) ->
  exists kd, ('(cells, missing) ← release_cells p paths total cells (absent !! k); Some (k, (TileScalar cells, missing))) = Some kd /\
    field_removed n absent full true (GScalar p) (TScalar ty) (k, TileScalar cells) kd.
Proof.
  intros Hleaf [_ Hf] Hlen Hp Hle Hcount. simpl in Hf.
  assert (Hsf : scalar_field ty n (absent !! k) cells).
  { destruct (absent !! k) as [X|]; [|done]. destruct Hf as (Hne & Hlt & c & ty' & [= <-] & [= <-] & Hc). by split. }
  destruct (release_cells_ok D ty n total p full paths cells (absent !! k) Hleaf Hsf Hlen Hp Hle Hcount) as (cells' & missing' & -> & Hsf' & Hcell).
  cbn [mbind option_bind]. eexists. split; [done|]. split; [done|]. split.
  - unfold field_done. simpl. destruct missing' as [X|]; [|done]. destruct Hsf' as (Hne & Hlt & Hc). split; [done|]. split; [done|]. eauto.
  - intros r pre c Hr. assert (E1 : done_row (TileScalar cells', missing') r = RCell (scalar_cell missing' cells' r)) by by destruct missing'.
    assert (E2 : field_row absent (k, TileScalar cells) r = RCell (scalar_cell (absent !! k) cells r)) by (unfold field_row; simpl; by destruct (absent !! k)).
    cbn [snd]. rewrite E1, E2, (Hcell r pre Hr). destruct c as [|s c]; [|done]. simpl. destruct (leaf_named p pre); simpl; by rewrite ?andb_false_r, ?andb_true_r.
Qed.

(** A field whose guard is removed from it as from any tile. *)
Lemma remove_whole_field D T n absent full paths under k f g :
  removes g -> plain T -> field_ok n absent (k, f) (k, T) -> wfg D (shaped shape T) g -> length full = n ->
  (paths = full \/ names_a_path g = false) -> (under = false -> D = [] /\ n = 1) ->
  (forall pre c, field_takes g under pre c = takes g under pre c) ->
  exists kd, (t ← remove_guarded_under g f paths under; Some (k, (t, absent !! k))) = Some kd /\ field_removed n absent full under g T (k, f) kd.
Proof.
  intros IH Hp [_ Hf] Hw Hlen Hpaths Hu Htakes. simpl in Hf. destruct (absent !! k) as [X|] eqn:EX.
  - destruct Hf as (Hne & Hlt & cells & ty & -> & -> & Hc). simpl in Hw.
    destruct (scalar_guard ty g D cells (n - size X) paths under) as (cells' & -> & Hc' & Hsame); [done|done| |].
    { intros ->. destruct (Hu eq_refl) as [-> ->]. split; [done|]. pose proof (size_non_empty_iff (C := gset nat) X). destruct (decide (size X = 0)); [|lia].
      exfalso. apply Hne, leibniz_equiv, size_empty_inv. done. }
    cbn [mbind option_bind]. eexists. split; [done|]. split; [done|]. split.
    { unfold field_done. simpl. split; [done|]. split; [done|]. eauto. }
    intros r pre c Hr. rewrite Htakes. unfold done_row, field_row. simpl. rewrite EX. destruct under.
    + destruct (Hsame eq_refl) as [-> Hno]. by rewrite Hno, andb_true_r.
    + destruct (Hu eq_refl) as [-> ->]. pose proof (lookup_lt_Some _ _ _ Hr). assert (r = 0) as -> by lia.
      assert (0 ∈ X). { destruct (set_choose_L X Hne) as [x Hx]. pose proof (Hlt x Hx). by replace 0 with x by lia. }
      assert (E : forall cv, cell_at cv X 0 = None) by (intros cv; by rewrite cell_at_eq, decide_True). rewrite !E, held_none. by destruct c.
  - destruct (IH D T n f full paths under Hp Hf Hw Hlen Hpaths Hu) as (f' & -> & Hok & Hrow). cbn [mbind option_bind]. eexists. split; [done|]. split; [done|].
    split; [done|]. intros r pre c Hr. rewrite Htakes. unfold done_row, field_row. simpl. rewrite EX.
    rewrite <- (Hrow r pre c Hr). by destruct f'.
Qed.

Lemma remove_field_ok D guards n total absent full paths under k f g T :
  Forall (fun ng => removes ng.2) guards -> plain T -> field_ok n absent (k, f) (k, T) -> assoc k guards = Some g -> wfg D (shaped shape T) g ->
  length full = n -> (paths = full \/ names_a_path g = false) -> (under = false -> D = [] /\ n = 1) -> total <= n ->
  (forall cells m, f = TileScalar cells -> len cells = Some m -> m + match absent !! k with Some s => size s | None => 0 end <= total) ->
  exists kd, remove_field guards absent paths under total (k, f) = Some kd /\ field_removed n absent full under g T (k, f) kd.
Proof.
  intros IH Hp Hf Hg Hw Hlen Hpaths Hu Hle Hcount. unfold remove_field.
  assert (E : assoc k (map (fun '(k, g) => (k, (g, remove_guarded_under g))) guards) = Some (g, remove_guarded_under g)).
  { clear -Hg. induction guards as [|[k' g'] guards IH]; [done|]. simpl in *. destruct (decide (k = k')); [by simplify_eq|by apply IH]. }
  rewrite E. assert (Hr : removes g) by (rewrite Forall_forall in IH; by apply (IH (k, g)), assoc_In).
  destruct (match g with GScalar _ => under | _ => false end) eqn:Eb.
  - destruct g as [p| | | |]; try done. subst under. destruct f as [cells| | | |].
    2-5: exfalso; destruct Hf as [_ Hf]; destruct T; try done; simpl in Hf; destruct (absent !! k); [by destruct Hf as (_ & _ & ? & ? & ? & _)|done].
    destruct T as [ty| | | |]; try done. apply (release_field D); [done..|]. intros m Hm. by apply (Hcount cells m).
  - destruct (remove_whole_field D T n absent full paths under k f g) as (kd & Ekd & Hkd); [done..| |].
    { intros pre c. unfold field_takes. destruct under; [|done]. by destruct g. }
    exists kd. split; [|done]. rewrite <- Ekd. destruct under; [|done]. destruct f; try done. by destruct g.
Qed.

Lemma removes_record guards : Forall (fun ng => removes ng.2) guards -> removes (GRecord guards).
Proof.
  intros IH D T n t full paths under Hp Hok Hw Hlen Hpaths Hunder. destruct T as [|ts| | |]; try done. destruct t as [|fields absent| | |]; try done.
  destruct (record_rows_fields ts n fields absent Hp Hok) as (total & Et & Hle & Hcount).
  cbn [remove_guarded_under tile_is_data_function andb mbind option_bind].
  destruct (guard_is_empty (GRecord guards)) eqn:Ee; [eexists; split; [done|]; split; [done|]; intros; by rewrite takes_empty, andb_true_r|].
  rewrite Et. cbn [mbind option_bind].
  apply tile_ok_record in Hok as (ts' & [= <-] & Hnd & Hsub & Hfs). simpl in Hp. rewrite all_of_Forall, Forall_forall in Hp.
  destruct (choose_list (fun kf kd => remove_field guards absent paths under total kf = Some kd /\
    exists T g, assoc kf.1 ts = Some T /\ assoc kf.1 guards = Some g /\ field_removed n absent full under g T kf kd) fields) as [done Hd].
  { intros [k f] Hin. destruct (field_type _ _ _ _ k f Hnd Hfs Hin) as (T & HT & Hf).
    destruct (record_guard_field D guards (map (fun '(k, T) => (k, shaped shape T)) ts) k (shaped shape T)) as (g & Hg & Hwg & Hing); [done| |].
    { clear -HT. induction ts as [|[k' T'] ts IH]; [done|]. simpl in *. destruct (decide (k = k')); [by simplify_eq|by apply IH]. }
    destruct (remove_field_ok D guards n total absent full paths under k f g T) as (kd & Ekd & Hkd); try done.
    - by apply (Hp (k, T)), assoc_In.
    - destruct Hpaths as [|Hn]; [by left|right]. simpl in Hn. apply existsb_false_iff in Hn. rewrite Forall_forall in Hn. exact (Hn _ Hing).
    - intros cells m -> Hm. by apply (Hcount k cells m).
    - exists kd. split; [done|]. by exists T, g. }
  assert (Em : mapM (remove_field guards absent paths under total) fields = Some done) by (apply mapM_Some; eapply Forall2_impl; [exact Hd|]; by intros ? ? [? _]).
  assert (Hfst : map fst done = map fst ts).
  { rewrite <- (record_aligned _ _ _ _ Hfs). clear -Hd. induction Hd as [|a b fields done [_ (T & g & _ & _ & E & _)] _ IH]; simpl; [done|]. by rewrite E, IH. }
  assert (Hndd : NoDup (map fst done)) by by rewrite Hfst.
  destruct (record_of_ok n done ts Hnd) as [Hok Hrow].
  { apply Forall2_same_length_lookup. split; [apply (f_equal length) in Hfst; by rewrite !length_map in Hfst|]. intros i [k d] [k' T] Hi Hi'. assert (k = k') as <-.
    { apply (f_equal (lookup i)) in Hfst. rewrite !list_lookup_fmap, Hi, Hi' in Hfst. simpl in Hfst. congruence. }
    split; [done|]. destruct (Forall2_lookup_r _ _ _ _ _ Hd Hi) as ([k' f] & _ & _ & T' & g & HT & _ & E & Hfd & _). simpl in *. subst k'.
    rewrite (In_assoc k T) in HT by (done || by eapply list_elem_of_lookup_2). by simplify_eq. }
  exists (record_of done). split; [|split; [done|]].
  - change (mapM _ fields) with (mapM (remove_field guards absent paths under total) fields). rewrite Em. cbn [mbind option_bind]. f_equal.
    assert (Hl : forall k, foldl (fun absent '(k, (_, missing)) => match missing with Some rows => <[k := rows]> absent | None => delete k absent end) absent done !! k
      = match assoc k (map (fun '(k, (_, g)) => (k, g)) done) with Some a => a | None => absent !! k end).
    { intros k. rewrite <- (foldl_absence _ absent k).
      - f_equal. generalize absent. clear. induction done as [|[k [t m]] done IH]; intros absent; [done|]. apply IH.
      - rewrite map_map. erewrite map_ext; [exact Hndd|]. by intros [? [? ?]]. }
    apply record_of_map; [done| |].
    + intros [k [w g]] Hin. rewrite Hl. rewrite (In_assoc k g); [done| |].
      * rewrite map_map. erewrite map_ext; [exact Hndd|]. by intros [? [? ?]].
      * apply list_elem_of_In, in_map_iff. exists (k, (w, g)). split; [done|by apply list_elem_of_In].
    + intros k. rewrite Hl. destruct (assoc k _) as [a|] eqn:Ea.
      * intros _. apply assoc_In, assoc_fst in Ea. rewrite map_map in Ea. erewrite map_ext in Ea; [exact Ea|]. by intros [? [? ?]].
      * intros Hk. rewrite Hfst. by apply Hsub.
  - intros r pre c Hr. rewrite Hrow, row_of_record. destruct c as [|[k|f] c]; [cbn [takes]; by rewrite Ee|done|].
    rewrite takes_record, !held_record by done. clear -Hd Hr. induction Hd as [|[k f'] [k' d] fields done [_ (T & g & _ & Hg & E & _ & H)] _ IH]; [done|].
    simpl in E. subst k'. cbn [map assoc fst snd]. destruct (decide (f = k)) as [->|]; [|exact IH]. simpl in Hg. rewrite Hg. by apply H.
Qed.

(** Every guard of the tile's tiling. *)
Lemma removes_all g : removes g.
Proof.
  induction g as [p|p|m IH|p|g IH|arms IH] using guard_ind.
  - apply removes_scalar.
  - intros D T n t full paths under Hp Hok Hw. by destruct T.
  - by apply removes_record.
  - apply removes_domain.
  - by apply removes_codomain.
  - by apply removes_or.
Qed.

(** ** What is taken is named *)

Lemma admits_den D p pre k : wf D p -> typed D (k :: rev pre) -> admits p (pre ++ [k]) = den p (k :: rev pre).
Proof.
  intros Hw Ht. unfold admits. rewrite (contains_path_den D); rewrite ?rev_unit; done.
Qed.

Lemma leaf_names D p pre : leaf_ok D p -> typed D (rev pre) -> leaf_named p pre = true -> den p (VUnit :: rev pre) = true.
Proof.
  intros [->|[->|(e & -> & He & Et & Ef)]] Ht; [done|done|]. unfold leaf_named, leaf_rows. simpl. rewrite Et, Ef. simpl. unfold admits.
  rewrite (contains_path_den D) by done. simpl. by intros ->.
Qed.

Lemma takes_names g : forall D t under pre c,
  wfg D t g -> typed D (rev pre) -> cell_of t c -> (under = false -> D = []) -> takes g under pre c = true -> names g (rev pre) c = true.
Proof.
  induction g as [p|p|m IH|p|g IH|arms IH] using guard_ind; intros D t under pre c Hw Ht Hc Hu; cbn [takes];
    match goal with |- context [if ?b then _ else _] => destruct b eqn:Ee; [done|] end.
  - destruct t; try done. destruct under; [done|]. rewrite (Hu eq_refl) in Hw. intros _. by destruct Hw as [->|[->|(q & _ & Hq & _)]]; [| |destruct q].
  - done.
  - destruct c as [|[k|f] c]; [done..|]. destruct t as [|fs| | |]; try done. apply cell_record in Hc as (f' & c' & t & [= <- <-] & Hf & Hc).
    destruct (record_guard_field D m fs f t Hw Hf) as (g & Hg & Hwg & Hin). intros H. rewrite names_record, Hg.
    pose proof (takes_record m under pre f c Ee) as E. cbn [takes] in E. rewrite Ee in E. rewrite E, Hg in H. clear E.
    rewrite Forall_forall in IH. pose proof (IH (f, g) Hin D t under pre c Hwg Ht Hc Hu) as IHg. cbn [snd] in IHg.
    unfold field_takes in H. destruct under, g; try by apply IHg.
    destruct t; try done. simpl in Hc. subst c. simpl. by apply (leaf_names D).
  - destruct c as [|[k|f] c]; [done| |done].
    assert (H : forall sh, wf (sh :: D) p -> has_shape sh k -> admits p (pre ++ [k]) = true -> den p (k :: rev pre) = true).
    { intros sh Hp Hk. by rewrite (admits_den (sh :: D)) by (done || by constructor). }
    destruct t as [| |sh t| |sh t]; try done; simpl in *; [destruct Hc; by eapply H|]. destruct c; [|done]. by eapply H.
  - destruct c as [|[k|f] c]; [done| |done]. destruct t as [| |sh t| |]; try done. destruct Hc as [Hk Hc]. intros H. simpl. rewrite <- rev_unit.
    apply (IH (sh :: D) t true); [done| |done|done|done]. rewrite rev_unit. by constructor.
  - apply wfg_or in Hw as [_ Hw]. intros (a & Ha & H)%existsb_true_iff. simpl. apply existsb_true_iff. exists a. split; [done|].
    rewrite Forall_forall in *. by apply (IH a Ha D t under pre c); [apply Hw|..].
Qed.
End RemoveRows.
