(* ===== verification/TileGuards.v ===== *)
(** * The guards a tile gives ([src/interpreter/tiling/tile.rs], [predicate.rs], [guard.rs])

    What a consumer may release of what it holds: [to_guard] and the guards of held and of
    deleted keys, with the predicates of columns and of prefixes they are made of.  The set of
    the keys of a column and the sets below a key are the interface [ColumnSets]: the runs that
    [single_interval_set] and [vec_to_predicate] build and the half-bounded intervals.  [pf] is
    the fuel of predicates and guards; the depth of a column or of a tile bounds the rest.  A
    panic is [None].  A column of values tagged at run time is read where its values are
    scalars. *)

From Stdlib Require Import List.
From stdpp Require Import gmap.
From S2P Require Import Prelude Predicate PredicatePaths Guards Values Columns Tiles TileStores TileReleases.
Set Warnings "-register-all".

(** The sets of [intervalsets] that columns and bounds are read as. *)
Class ColumnSets (KS : KeySets Scalar) := {
  column_set : list Scalar -> iset;
  set_up_to : Scalar -> bool -> iset
}.

Section TileGuards.
Context {KS : KeySets Scalar} {CS : ColumnSets KS}.
Abbreviation Predicate := (Predicate Scalar).
Abbreviation TileGuard := (@TileGuard Scalar KS).

(** ** The predicate of a column *)

Fixpoint column_depth (c : ColumnValue) : nat :=
  match c with
  | Records fields => S (foldr Nat.max 0 (map (fun '(_, c) => column_depth c) fields))
  | Union arms => S (foldr Nat.max 0 (map (fun '(_, arm) => column_depth (arm_values arm)) arms))
  | FunctionBindings i o => S (Nat.max (column_depth i) (column_depth o))
  | _ => 1
  end.

(** [vec_to_predicate], of scalars. *)
Definition vec_to_predicate (keys : list Scalar) : Predicate :=
  match keys with [] => PFalse | _ => intervals (column_set keys) end.

(** [from_column_value], over the depth of the column. *)
Fixpoint from_column_at (pf fuel : nat) (c : ColumnValue) : option Predicate :=
  match fuel with
  | O => None
  | S fuel =>
      match c with
      | Units n => Some (if 0 <? n then PTrue else PFalse)
      | Ints v => Some (intervals (column_set (map SInt v)))
      | UInts v => Some (intervals (column_set (map SUInt v)))
      | Bools v =>
          Some (vec_to_predicate (map SBool ((if existsb id v then [true] else []) ++ (if existsb negb v then [false] else []))))
      | Strings v => Some (vec_to_predicate (map SString v))
      | Variants v => keys ← mapM (fun x => match x with VKey k => Some k | _ => None end) v; Some (vec_to_predicate keys)
      | Records fields =>
          n ← match fields with (_, cv) :: _ => len cv | [] => Some 0 end;
          if n =? 0 then Some PFalse
          else
            arms ← mapM (fun i =>
              m ← mapM (fun '(k, cv) => single ← select_indices cv [i]; p ← from_column_at pf fuel single; Some (k, p)) fields;
              Some (PRecord m)) (seq 0 n);
            flatten_or (ops pf) arms
      | FunctionBindings _ _ => None
      | Union arms =>
          if forallb (fun '(_, arm) => arm_is_empty arm) arms then Some PFalse
          else
            tags ← mapM (fun '(k, arm) => p ← from_column_at pf fuel (arm_values arm); Some (k, p)) arms;
            tagged tags false
      end
  end.

Definition from_column_value (pf : nat) (c : ColumnValue) : option Predicate := from_column_at pf (column_depth c) c.

(** ** Prefixes *)

Definition field_extent (extent : option Extent) (name : string) : option Extent :=
  match extent with Some (ERecord fs) => assoc name fs | _ => None end.

(** [up_to]: a record's prefix is a staircase over its fields in name order. *)
Fixpoint up_to (pf : nat) (v : Value) (inclusive : bool) (extent : option Extent) {struct v} : option Predicate :=
  match v with
  | VUnion tag inner =>
      match extent with
      | Some (EUnion arms) =>
          tags ← mapM (fun '(t, e) =>
            match fieldkey_compare t tag with
            | Lt => Some (Some (t, PTrue))
            | Eq => p ← up_to pf inner inclusive (Some e); Some (Some (t, p))
            | Gt => Some None
            end) arms;
          tags ← from_arms (omap id tags);
          tagged tags false
      | _ => None
      end
  | VUnit => Some (of_bool inclusive)
  | VKey k => Some (intervals (set_up_to k inclusive))
  | VRecord fields =>
      steps ← (fix go before fields := match fields with
        | [] => Some []
        | (name, field) :: rest =>
            let last := match rest with [] => true | _ => false end in
            bound ← up_to pf field (inclusive && last) (field_extent extent name);
            let step := PRecord (before ++ (name, bound) :: map (fun '(n, _) => (n, PTrue)) rest) in
            steps ← (if last then Some [] else p ← point field; go (before ++ [(name, p)]) rest);
            Some (step :: steps)
        end) [] fields;
      match List.filter (fun step => negb (is_false step)) steps with
      | [] => Some (of_bool (match fields with [] => inclusive | _ => false end))
      | steps => flatten_or (ops pf) steps
      end
  end.

(** [at_or_below] and [below]. *)
Definition at_or_below (pf : nat) (v : Value) : option Predicate := up_to pf v true None.
Definition below (pf : nat) (v : Value) : option Predicate := up_to pf v false None.

(** [domain_prefix_over] and [domain_prefix]. *)
Definition domain_prefix_over (pf : nat) (path : list Value) (levels : list Extent) : option TileGuard :=
  match path with
  | [] => None
  | _ =>
      arms ← mapM (fun '(level, key) =>
        bound ← up_to pf key (level =? length path - 1) (levels !! level);
        above ← exactly (take level path);
        Some (wrap_guard level (GFunction (FDomain (qualified above bound))))) (imap pair path);
      guard_flatten_or pf arms
  end.

Definition domain_prefix (pf : nat) (path : list Value) : option TileGuard := domain_prefix_over pf path [].

(** ** The paths of a level *)

(** [rows_by_path]: the last of the rows at a path. *)
Definition rows_by_path (t : Tile) (enclosing : nat) (path : list Value) : option (option nat) :=
  paths ← paths_at t enclosing; Some (position_map paths path).

(** [paths_predicate]. *)
Definition paths_predicate (pf : nat) (t : Tile) (level : nat) : option Predicate :=
  row_paths ← (match level with O => Some [[]] | S above => paths_at t above end);
  node ← tile_values_at t level;
  match node with
  | TileDataFunction _ domain _ _ _ =>
      n ← len domain;
      arms ← mapM (fun '(row, path) =>
        '(start, stop) ← row_run node row;
        keys ← (if (start =? 0) && (stop =? n) then from_column_value pf domain
                else c ← select_indices domain (seq start (stop - start)); from_column_value pf c);
        above ← exactly path;
        Some (qualified above keys)) (imap pair row_paths);
      union_all pf arms
  | _ => None
  end.

(** ** What a tile holds *)

(** [running_frontier]. *)
Definition row_frontier (pf : nat) (frontier : Tile) (row : nat) : option Predicate :=
  w ← row_watermark frontier row; match w with Some w => at_or_below pf w | None => Some PFalse end.

Definition running_frontier (pf : nat) (frontier : Tile) : option Predicate :=
  n ← rows frontier; match n with O => Some PFalse | S n => row_frontier pf frontier n end.

(** [to_guard] of a tile that is neither a record nor a collection. *)
Definition leaf_guard (pf : nat) (t : Tile) : option TileGuard :=
  match t with
  | TileScalar cv => e ← col_is_empty cv; Some (GScalar (of_bool (negb e)))
  | TileAggregation _ _ terminal => b ← single_true terminal; Some (GAggregation (of_bool b))
  | TileStore _ _ _ frontier terminal _ =>
      if (terminal : bool) then Some (GFunction (FDomain PTrue))
      else
        keys ← store_keys t;
        changed ← foldl (fun changed key =>
          changed ← changed;
          log ← store_changelog t key;
          match log with
          | Some (written, _) => p ← from_column_value pf written; union_of pf changed p
          | None => Some changed
          end) (Some PFalse) keys;
        running ← running_frontier pf frontier;
        p ← union_of pf changed running;
        Some (GFunction (FDomain p))
  | _ => None
  end.

(** The rows of a collection that hold keys, grouped by the keys they hold in the order the first of them appears. *)
Fixpoint group_row (keys : list Value) (row : nat) (groups : list (list Value * list nat)) : list (list Value * list nat) :=
  match groups with
  | [] => [(keys, [row])]
  | (held, rows) :: groups => if decide (held = keys) then (held, rows ++ [row]) :: groups else (held, rows) :: group_row keys row groups
  end.

(** [held_keys]. *)
Definition held_keys (pf : nat) (t : Tile) (row_paths : list (list Value)) : option Predicate :=
  match t with
  | TileDataFunction _ domain _ _ _ =>
      groups ← foldl (fun groups row =>
        groups ← groups;
        run ← row_run t row;
        if run.1 <? run.2 then keys ← mapM (index_at domain) (range run); Some (group_row keys row groups) else Some groups)
        (Some []) (seq 0 (length row_paths));
      arms ← mapM (fun '(_, rows) =>
        first ← head rows;
        run ← row_run t first;
        c ← select_indices domain (range run);
        keys ← from_column_value pf c;
        at_ ← mapM (fun row => path ← row_paths !! row; exactly path) rows;
        named ← union_all pf at_;
        Some (qualified named keys)) groups;
      union_all pf arms
  | _ => None
  end.

(** The predicate that admits just the rows a mask names. *)
Definition rows_predicate (pf : nat) (row_paths : list (list Value)) (at_ : list (option nat)) : option Predicate :=
  arms ← mapM (fun '(row, path) => p ← at_ !! row; match p with Some _ => e ← exactly path; Some (Some e) | None => Some None end)
    (imap pair row_paths);
  union_all pf (omap id arms).

(** [held_guard], over the height of the tile. *)
Fixpoint held_guard (pf fuel : nat) (t : Tile) (row_paths : list (list Value)) : option TileGuard :=
  match fuel with
  | O => None
  | S fuel =>
      match t with
      | TileRecord fields absent =>
          guards ← mapM (fun '(name, field) =>
            held ← (match field with
              | TileRecord _ _ => held_guard pf fuel field row_paths
              | TileScalar cells =>
                  e ← col_is_empty cells;
                  if (e : bool) then Some (empty_guard_of field)
                  else
                    named ← rows_predicate pf row_paths (cell_positions (length row_paths) (default ∅ (absent !! name)));
                    Some (GScalar (qualified named PTrue))
              | _ => if tile_holds_a_level field then held_guard pf fuel field row_paths else Some (empty_guard_of field)
              end);
            Some (name, held)) fields;
          Some (GRecord guards)
      | TileDataFunction _ _ codomain domain_predicate _ =>
          if negb (tile_holds_a_level codomain) then p ← held_keys pf t row_paths; Some (GFunction (FDomain p))
          else
            key_paths ← key_paths t row_paths;
            complete ← mapM (contains_path domain_predicate) key_paths;
            points ← mapM exactly (masked complete key_paths);
            whole ← union_fold pf points;
            open_values ← retain_rows codomain (map negb complete);
            inner ← held_guard pf fuel open_values (masked (map negb complete) key_paths);
            guard_flatten_or pf [GFunction (FDomain whole); GFunction (FCodomain inner)]
      | other => leaf_guard pf other
      end
  end.

(** [held_prefix], over the height of the tile: [Some None] where what is held is no prefix. *)
Fixpoint held_prefix (pf fuel : nat) (t : Tile) (row_paths : list (list Value)) : option (option (list Value)) :=
  match fuel with
  | O => None
  | S fuel =>
      match t with
      | TileDataFunction _ domain codomain domain_predicate _ =>
          n ← len domain;
          match n with
          | O => Some None
          | S last =>
              let level := tile_holds_a_level codomain in
              whole ← (if level then
                  if qualifies domain_predicate then
                    paths ← key_paths t row_paths; allM (fun i => p ← paths !! i; contains_path domain_predicate p) (seq 0 last)
                  else allM (fun i => v ← index_at domain i; contains domain_predicate v) (seq 0 last)
                else Some true);
              if negb whole then Some None
              else
                head ← index_at domain last;
                match head with
                | VUnion _ _ => Some None
                | _ =>
                    runs ← mapM (fun row => run ← row_run t row; Some (row, run)) (seq 0 (length row_paths));
                    let owner := match List.find (fun '(_, run) => (run.1 <=? last) && (last <? run.2)) (rev runs) with
                      | Some (row, _) => row | None => 0 end in
                    below_ ← below pf head;
                    run ← row_run t owner;
                    above_head ← anyM (fun i =>
                      key ← index_at domain i; if decide (key = head) then Some false else negb <$> contains below_ key) (range run);
                    if (above_head : bool) then Some None
                    else
                      path ← row_paths !! owner;
                      at_ ← exactly path;
                      settled_or_held ← (if level then Some domain_predicate
                        else
                          c ← select_indices domain (range run);
                          keys ← from_column_value pf c;
                          union_of pf domain_predicate (qualified at_ keys));
                      covers ← subsumes pf settled_or_held (qualified at_ below_);
                      if negb covers then Some None
                      else if negb level then Some (Some [head])
                      else
                        group ← retain_rows codomain (map (fun i => i =? last) (seq 0 n));
                        rest ← held_prefix pf fuel group [path ++ [head]];
                        Some (match rest with Some rest => Some (head :: rest) | None => None end)
                end
          end
      | _ => Some None
      end
  end.

(** [to_guard_impl] and [to_guard]. *)
Fixpoint to_guard_impl (pf : nat) (t : Tile) (row_paths : list (list Value)) : option TileGuard :=
  match t with
  | TileRecord fields _ =>
      guards ← mapM (fun '(k, t) => g ← to_guard_impl pf t row_paths; Some (k, g)) fields; Some (GRecord guards)
  | TileDataFunction _ domain codomain domain_predicate _ =>
      if is_true domain_predicate then Some (GFunction (FDomain PTrue))
      else if negb (tile_holds_a_level codomain) then
        keys ← from_column_value pf domain; p ← union_of pf keys domain_predicate; Some (GFunction (FDomain p))
      else
        prefix ← held_prefix pf (height t) t row_paths;
        match prefix with
        | Some path => domain_prefix pf path
        | None =>
            n ← len domain;
            open ← (if qualifies domain_predicate then
                paths ← key_paths t row_paths; mapM (fun p => negb <$> contains_path domain_predicate p) paths
              else mapM (fun key => v ← index_at domain key; negb <$> contains domain_predicate v) (seq 0 n));
            if negb (existsb id open) then Some (GFunction (FDomain domain_predicate))
            else
              open_values ← retain_rows codomain open;
              paths ← key_paths t row_paths;
              inner ← held_guard pf (height open_values) open_values (masked open paths);
              guard_flatten_or pf [GFunction (FDomain domain_predicate); GFunction (FCodomain inner)]
        end
  | other => leaf_guard pf other
  end.

Definition to_guard (pf : nat) (t : Tile) : option TileGuard := to_guard_impl pf t [[]].

(** ** What compaction removes *)

(** [deleted_guard_under]: [Some None] where nothing is deleted. *)
Fixpoint deleted_guard_under (pf : nat) (t : Tile) (row_paths : list (list Value)) : option (option TileGuard) :=
  match t with
  | TileDataFunction _ domain codomain _ deleted =>
      paths ← key_paths t row_paths;
      n ← len domain;
      let dropped := List.filter (fun k => bool_decide (k ∈ deleted)) (seq 0 n) in
      arms ← (if decide (deleted = ∅) then Some []
        else
          here ← (if forallb (fun p => match p with [] => true | _ => false end) row_paths then
              c ← select_indices domain dropped; from_column_value pf c
            else at_ ← mapM (fun k => p ← paths !! k; exactly p) dropped; union_all pf at_);
          Some [GFunction (FDomain here)]);
      inner ← deleted_guard_under pf codomain paths;
      let arms := arms ++ match inner with Some g => [GFunction (FCodomain g)] | None => [] end in
      match arms with [] => Some None | _ => Some <$> guard_flatten_or pf arms end
  | TileRecord fields _ =>
      named ← mapM (fun '(name, field) => g ← deleted_guard_under pf field row_paths; Some (name, (field, g))) fields;
      if forallb (fun '(_, (_, g)) => match g with Some _ => false | None => true end) named then Some None
      else Some (Some (GRecord (map (fun '(name, (field, g)) => (name, default (empty_guard_of field) g)) named)))
  | TileAggregation _ accumulator _ => if holds_deleted_rows accumulator then None else Some None
  | TileScalar _ | TileStore _ _ _ _ _ _ => Some None
  end.

(** [deleted_keys_guard]. *)
Definition deleted_keys_guard (pf : nat) (t : Tile) : option (option TileGuard) :=
  if negb (holds_deleted_rows t) then Some None
  else n ← rows t; if n =? 1 then deleted_guard_under pf t [[]] else None.
End TileGuards.
