(* ===== verification/ValidFacts.v ===== *)
(** * What a valid tile is

    The columns a tile holds read back by [drain_to_value_iter] are their values row by row,
    and a tile of typed columns that [valid_over] accepts is well formed over its rows, each
    collection with every key once: the hypotheses of the operations' theorems. *)

From Stdlib Require Import List.
From stdpp Require Import gmap sorting.
From Stdlib Require Import ZArith List.
From stdpp Require Import gmap infinite.
From S2P Require Import Prelude Predicate PredicateSem KeyMaps Guards Values Columns ColumnFacts Tiles TileRows TileFacts TileStores TileValid TileMerges MergeSpec AppendFacts MergeFacts TileReleases RemoveFacts GuardUnion.
Set Warnings "-clear-no-such-hyp".
Set Warnings "-register-all,-clear-no-such-hyp".

(** ** Reading a column back *)

Definition reads_back (c : ColumnValue) : Prop :=
  forall t n, col t n c -> exists vs, drain_to_value_iter c = Some vs /\ length vs = n /\ forall i, i < n -> vs !! i = index_at c i.

Lemma vec_reads {T} (v : list T) (f : T -> Value) (rd : nat -> option Value) :
  (forall i, rd i = (x ← v !! i; Some (f x))) -> forall i, i < length v -> map f v !! i = rd i.
Proof. intros H i _. rewrite H, list_lookup_fmap. by destruct (v !! i). Qed.

(** The rows a column of records or of tagged values is assembled from. *)
Lemma mapM_reads (f : nat -> option Value) n :
  (forall i, i < n -> is_Some (f i)) -> exists vs, mapM f (seq 0 n) = Some vs /\ length vs = n /\ forall i, i < n -> vs !! i = f i.
Proof.
  intros H. destruct (mapM_rel f (fun i v => f i = Some v) (seq 0 n)) as (vs & E & H2).
  { intros i Hi%elem_of_seq. destruct (H i) as [v Hv]; [lia|]. eauto. }
  exists vs. split; [done|]. split; [by rewrite <- (Forall2_length _ _ _ H2), length_seq|].
  intros i Hi. destruct (Forall2_lookup_l _ _ _ i i H2) as (v & Hv & E'); [by rewrite lookup_seq_lt|]. by rewrite Hv, E'.
Qed.

(** A list of rows, sorted, whose rows are [0..n]. *)
Lemma sorted_reads {A} (l : list (nat * A)) n :
  map fst l ≡ₚ seq 0 n -> map fst (sort_by_key fst l) = seq 0 n.
Proof.
  intros HP. apply (StronglySorted_unique le).
  - generalize (sort_by_key_sorted fst l). clear HP. generalize (sort_by_key fst l). intros k' H. induction H as [|x k Hk IH Hx]; simpl; constructor; [done|].
    apply Forall_forall. intros y (z & -> & Hz)%list_elem_of_fmap. rewrite Forall_forall in Hx. by apply Hx.
  - generalize (seq_sorted 0 n). clear HP. generalize (seq 0 n). intros k H. induction H as [|x k Hk IH Hx]; constructor; [done|]. eapply Forall_impl; [exact Hx|]. simpl. lia.
  - rewrite <- HP. by rewrite (sort_by_key_perm fst l).
Qed.

Lemma union_reads n arms ts :
  partition n arms -> arms_typed ts arms ->
  exists vs, drain_to_value_iter (Union arms) = Some vs /\ length vs = n /\ forall i, i < n -> vs !! i = index_at (Union arms) i.
Proof.
  intros Hp Hty.
  set (read := fun a : FieldKey * UnionArm ColumnValue => mapM (fun '(row, slot) => inner ← index_at (arm_values a.2) slot; Some (row, VUnion a.1 inner)) (row_slots a.2)).
  destruct (mapM_rel read (fun a rs => map fst rs = arm_rows a.2 /\ forall row v, (row, v) ∈ rs -> index_at (Union arms) row = Some v) arms) as (rows & Er & Hr).
  { intros [k arm] Hin. unfold read. cbn [fst snd]. unfold arms_typed in Hty. rewrite Forall_forall in Hty. destruct (Hty (k, arm) Hin) as (u & _ & Hc). cbn [fst snd] in Hc.
    assert (Hsorted : NoDup (arm_rows arm)). { destruct Hp as (_ & Hs & _). rewrite Forall_forall in Hs. apply sorted_NoDup, (Hs (k, arm) Hin). }
    destruct (mapM_rel (fun '(row, slot) => inner ← index_at (arm_values arm) slot; Some (row, VUnion k inner))
      (fun rs rv => rv.1 = rs.1 /\ exists inner, index_at (arm_values arm) rs.2 = Some inner /\ rv.2 = VUnion k inner) (row_slots arm)) as (out & -> & H2).
    { intros [row slot] Hrs%elem_of_row_slots. destruct (index_some _ _ _ slot Hc) as [inner Hi]; [by apply lookup_lt_Some in Hrs|]. rewrite Hi. eexists. split; [done|]. simpl. eauto. }
    exists out. split; [done|]. split.
    - transitivity (map fst (row_slots arm)).
      + clear -H2. induction H2 as [|a b l m [E _] _ IH]; simpl; [done|]. by rewrite E, IH.
      + unfold row_slots. apply list_eq. intros i. rewrite list_lookup_fmap, list_lookup_imap. by destruct (arm_rows arm !! i).
    - intros row v Hv. apply list_elem_of_lookup in Hv as [i Hi]. destruct (Forall2_lookup_r _ _ _ _ _ H2 Hi) as ([row' slot] & Hrs & E & inner & Hinner & Ev).
      cbn [fst snd] in *. subst row' v. rewrite (union_index n arms k arm row slot); [by rewrite Hinner|done|done|].
      apply position_of_NoDup; [done|]. by apply elem_of_row_slots, list_elem_of_lookup_2 with i. }
  cbn [drain_to_value_iter].
  assert (mapM (fun '(tag, arm) => mapM (fun '(row, slot) => inner ← index_at (arm_values arm) slot; Some (row, VUnion tag inner)) (row_slots arm)) arms = Some rows) as ->.
  { rewrite <- Er. apply Forall_mapM_ext, Forall_forall. by intros [tag arm] _. }
  cbn [mbind option_bind].
  assert (HP : map fst (concat rows) ≡ₚ seq 0 n).
  { rewrite <- (partition_perm n arms Hp), concat_map. apply reflexive_eq. f_equal.
    clear -Hr. induction Hr as [|a rs arms' rows' [E _] _ IH]; simpl; [done|]. by rewrite E, IH. }
  pose proof (sorted_reads _ _ HP) as Hs. set (out := sort_by_key fst (concat rows)) in *. eexists. split; [done|].
  assert (Hlen : length out = n) by (rewrite <- (length_map fst), Hs; apply length_seq). split; [by rewrite length_map|].
  intros i Hi. destruct (lookup_lt_is_Some_2 out i) as [[row v] Hv]; [lia|]. rewrite list_lookup_fmap, Hv. simpl.
  assert (row = i) as ->. { pose proof (f_equal (lookup i) Hs) as E. rewrite list_lookup_fmap, Hv, lookup_seq_lt in E by lia. simpl in E. congruence. }
  assert (Hin : (i, v) ∈ concat rows). { rewrite <- (sort_by_key_perm fst (concat rows)). by eapply list_elem_of_lookup_2. }
  apply list_elem_of_In, in_concat in Hin as (rs & Hrs%list_elem_of_In & Hin%list_elem_of_In). apply list_elem_of_lookup in Hrs as [j Hj].
  destruct (Forall2_lookup_r _ _ _ _ _ Hr Hj) as (a & _ & _ & Hread). symmetry. by apply Hread.
Qed.

Lemma drain_ok c : reads_back c.
Proof.
  induction c as [m|v|v|v|v|v|ci co IHi IHo|fields IH|arms IH] using column_ind; intros t n H.
  2-6: destruct t; try done; simpl in H; subst; eexists; (split; [done|]); rewrite ?length_map; (split; [done|]).
  2-5: by apply vec_reads.
  2: done.
  - destruct t; try done. simpl in H. subst. eexists. split; [done|]. rewrite length_replicate. split; [done|]. intros i Hi. by rewrite lookup_replicate_2.
  - destruct t; try done. destruct H as [Hi Ho]. destruct (IHi _ _ Hi) as (vi & Ei & Hli & Hri), (IHo _ _ Ho) as (vo & Eo & Hlo & Hro).
    cbn [drain_to_value_iter]. rewrite Ei, Eo. cbn [mbind option_bind]. eexists. split; [done|]. rewrite length_map, length_zip. split; [lia|].
    intros i Hlt. rewrite list_lookup_fmap. cbn [index_at]. rewrite <- Hri, <- Hro by done. destruct (lookup_lt_is_Some_2 vi i) as [x Hx], (lookup_lt_is_Some_2 vo i) as [y Hy]; [lia..|].
    rewrite Hx, Hy. cbn [mbind option_bind]. rewrite lookup_zip_with, Hx, Hy. done.
  - pose proof H as Hcol. cbn [drain_to_value_iter].
    assert (Hl : (match fields with (_, v) :: _ => len v | [] => Some 0 end) = Some n).
    { pose proof (col_len _ _ _ H) as E. destruct fields as [|[k v] fields]; [|done]. apply col_records in H as (ts & _ & Hne & _). done. }
    rewrite Hl. cbn [mbind option_bind]. apply mapM_reads. intros i Hi. by apply (index_some _ t n i Hcol).
  - apply col_union in H as (ts & -> & Hp & Hty). by apply (union_reads n arms ts).
Qed.

(** ** Valid tiles *)

Section ValidFacts.
Context {KS : KeySets Scalar}.
Abbreviation Tiling := (Tiling CTy).

(** The columns of a tile are of its tiling's types. *)
Fixpoint columns_of (T : Tiling) (t : Tile) {struct t} : Prop :=
  match t, T with
  | TileScalar cv, TScalar ty => exists m, col ty m cv
  | TileRecord fields absent, TRecord ts =>
      NoDup (map fst ts) /\ (forall k, is_Some (absent !! k) -> k ∈ map fst ts) /\
      (fix go fields ts := match fields, ts with
        | [], [] => True
        | (k, f) :: fields, (k', T) :: ts =>
            k = k' /\ columns_of T f /\
            match absent !! k with Some missing => missing <> ∅ /\ match f with TileScalar _ => True | _ => False end | None => True end /\ go fields ts
        | _, _ => False
        end) fields ts
  | TileDataFunction starts domain codomain _ _, TDataFunction ty T =>
      (exists m, col ty m domain) /\ columns_of T codomain
  | _, _ => False
  end.

(** A level with no rows holds no keys.  [valid_over] does not check it: with no starts there is no
    last one to compare with the keys. *)
Fixpoint grounded (t : Tile) : Prop :=
  match t with
  | TileRecord fields _ => all_of (fun '(_, f) => grounded f) fields
  | TileDataFunction starts domain codomain _ _ => (starts = [] -> len domain = Some 0) /\ grounded codomain
  | _ => True
  end.

(** A level of one key and no rows, which [valid_over] accepts over no rows. *)
Example ungrounded_accepted :
  let t := TileDataFunction [] (Ints [1%Z]) (TileScalar (Ints [2%Z])) PFalse ∅ in
  valid_over 5 t 0 = Some true /\ ~ tile_ok (TDataFunction TyInt (TScalar TyInt)) 0 t.
Proof.
  split; [by vm_compute|]. intros (m & Hm & (lens & E & Hl & Hs) & _). simpl in Hm. destruct lens; [|done]. simpl in Hs. lia.
Qed.

(** Starts that [starts_ok] accepts are those of runs. *)
Lemma starts_run a starts m :
  nondecreasing (a :: starts) = true -> match last (a :: starts) with Some s => s <=? m | None => true end = true ->
  exists lens, a :: starts = run_starts a lens /\ length lens = S (length starts) /\ a + sum_list lens = m.
Proof.
  revert a. induction starts as [|b starts IH]; intros a Hn Hl.
  - simpl in Hl. breflect. exists [m - a]. split; [done|]. split; [done|]. simpl. lia.
  - cbn [nondecreasing] in Hn. apply andb_true_iff in Hn as [Hab Hn]. breflect. destruct (IH b Hn) as (lens & E & Hlen & Hsum); [exact Hl|].
    exists ((b - a) :: lens). split; [simpl; f_equal; rewrite E; f_equal; lia|]. split; [simpl; lia|]. simpl. lia.
Qed.

Lemma starts_csr starts n m : starts_ok starts n m = true -> (starts = [] -> m = 0) -> csr n m starts.
Proof.
  unfold starts_ok. rewrite !andb_true_iff. intros (((Hl & H0) & Hn) & Hm) Hnil. breflect. destruct starts as [|a starts].
  - exists []. split; [done|]. split; [done|]. by rewrite Hnil.
  - simpl in H0. breflect. subst a. destruct (starts_run 0 starts m Hn Hm) as (lens & E & Hlen & Hsum). exists lens. split; [done|]. split; [simpl in Hl; lia|done].
Qed.

(** The keys of a row, once each. *)
Lemma run_distinct_ok ty m lens domain vs r :
  col ty m domain -> sum_list lens = m -> length vs = m -> (forall i, i < m -> vs !! i = index_at domain i) -> r < length lens ->
  run_distinct (run_starts 0 lens) vs r = Some true -> NoDup (map (index_at domain) (run_keys lens r)).
Proof.
  intros Hc Hm Hlen Hvs Hr. unfold run_distinct. rewrite Hlen. destruct (lookup_lt_is_Some_2 lens r Hr) as [x Hx].
  rewrite level_run_starts by done. cbn [mbind option_bind]. unfold slice_vec. pose proof (sum_take_S _ _ _ Hx) as HS. pose proof (sum_take_le lens (S r)).
  assert (Eb : (sum_list (take r lens) <=? sum_list (take (S r) lens)) && (sum_list (take (S r) lens) <=? length vs) = true) by (apply andb_true_iff; split; apply Nat.leb_le; lia).
  rewrite Eb. cbn [mbind option_bind]. intros [= Hd%bool_decide_eq_true].
  unfold run_keys. rewrite (nth_lookup_Some _ _ _ _ Hx).
  replace (map (index_at domain) (seq (sum_list (take r lens)) x)) with (map Some (take (sum_list (take (S r) lens) - sum_list (take r lens)) (drop (sum_list (take r lens)) vs))).
  - by apply (NoDup_fmap_2 Some).
  - apply list_eq. intros i. rewrite !list_lookup_fmap. replace (sum_list (take (S r) lens) - sum_list (take r lens)) with x by lia.
    destruct (decide (i < x)) as [Hi|Hi].
    + rewrite lookup_take_lt, lookup_drop, lookup_seq_lt by done. simpl. rewrite Hvs by lia.
      destruct (index_some domain ty m (sum_list (take r lens) + i) Hc) as [v ->]; [lia|]. done.
    + rewrite lookup_seq_ge by lia. rewrite lookup_take_ge by lia. done.
Qed.

Definition sound (t : Tile) : Prop := forall T pf n paths above settled,
  plain T -> columns_of T t -> grounded t -> valid_over_settled pf t n paths above settled = Some true ->
  tile_ok T n t /\ forall r, r < n -> distinct (row_of t r).

Lemma sound_record fields absent : Forall (fun kf => sound kf.2) fields -> sound (TileRecord fields absent).
Proof.
  intros IH T pf n paths above settled Hp Hc Hg Hv. destruct T as [|ts| | |]; try done. destruct Hc as (Hnd & Hsub & Hc).
  assert (H : Forall2 (field_ok n absent) fields ts /\ forall kf r, kf ∈ fields -> r < n -> distinct (field_row absent kf r)).
  { clear Hnd Hsub. simpl in Hp, Hg. revert ts Hp Hc Hg Hv. induction fields as [|[k f] fields IHf]; intros [|[k' U] ts] Hp Hc Hg Hv; try done.
    - split; [constructor|]. by intros ? ? ?%elem_of_nil.
    - destruct Hc as (<- & Hcf & Habs & Hc), Hp as [Hpu Hp], Hg as [Hgf Hg]. apply Forall_cons in IH as [IH1 IH2].
      assert (Hall : (match absent !! k with
          | Some missing => x ← rows f; Some ((x + size missing =? n) && bool_decide (set_Forall (fun r => r < n) missing))
          | None => valid_over_settled pf f n paths above settled
          end) = Some true /\ valid_over_settled pf (TileRecord fields absent) n paths above settled = Some true).
      { cbn [valid_over_settled allM] in Hv. apply bind_Some in Hv as ([] & Hv1 & Hv2); [|done]. by split. }
      destruct Hall as [Hv1 Hv2]. destruct (IHf IH2 ts Hp Hc Hg Hv2) as [Hfs Hrows]. cbn [snd] in IH1.
      assert (Hf : field_ok n absent (k, f) (k, U) /\ forall r, r < n -> distinct (field_row absent (k, f) r)).
      { unfold field_ok, field_row. cbn [fst snd]. destruct (absent !! k) as [missing|].
        - destruct Habs as [Hne Hsc]. destruct f as [cells| | | |]; try done. destruct U as [ty| | | |]; try done. destruct Hcf as [m Hm].
          cbn [rows] in Hv1. rewrite (col_len _ _ _ Hm) in Hv1. cbn [mbind option_bind] in Hv1. simplify_eq. apply andb_true_iff in Hv1 as [Hsz Hlt]. breflect. apply bool_decide_eq_true in Hlt.
          split; [|done]. split; [done|]. split; [done|]. split; [intros r Hr; by apply Hlt|]. exists cells, ty. split; [done|]. split; [done|]. by replace (n - size missing) with m by lia.
        - destruct (IH1 U pf n paths above settled Hpu Hcf Hgf Hv1) as [Hok Hd]. by split. }
      destruct Hf as [Hf Hd]. split; [by constructor|]. intros kf r [->|Hin]%elem_of_cons Hr; [by apply Hd|by apply Hrows]. }
  destruct H as [H Hd]. split; [apply tile_ok_record; by exists ts|]. intros r Hr. rewrite row_of_record. simpl. apply all_of_Forall, Forall_forall.
  intros [k v] Hin. apply list_elem_of_In, in_map_iff in Hin as (kf & [= <- <-] & Hin%list_elem_of_In). by apply Hd.
Qed.

Lemma sound_function starts domain codomain pred deleted : sound codomain -> sound (TileDataFunction starts domain codomain pred deleted).
Proof.
  intros IH T pf n paths above settled Hp Hc [Hnil Hg] Hv. destruct T as [| |ty T| |]; try done. destruct Hc as ((m & Hc) & HcT).
  rewrite (col_len _ _ _ Hc) in Hnil.
  cbn [valid_over_settled] in Hv. rewrite (col_len _ _ _ Hc) in Hv. cbn [mbind option_bind] in Hv.
  destruct (starts_ok starts n m) eqn:Es; [|done]. cbn [negb] in Hv. destruct (bool_decide (set_Forall (fun i => i < m) deleted)) eqn:Ed; [|done]. cbn [negb] in Hv.
  destruct (drain_ok domain ty m Hc) as (vs & Evs & Hlvs & Hvs). rewrite Evs in Hv. cbn [mbind option_bind] in Hv.
  apply bind_Some in Hv as ([] & Hu & Hv); [|done]. cbn [negb] in Hv. apply bind_Some in Hv as (kp & _ & Hv). apply bind_Some in Hv as ([st cm] & _ & Hv).
  destruct (IH T pf m kp cm st Hp HcT Hg Hv) as [HT HdT]. apply bool_decide_eq_true in Ed.
  destruct (starts_csr starts n m Es) as (lens & -> & Hl & Hm); [intros Hs; specialize (Hnil Hs); by simplify_eq|]. split.
  - exists m. split; [done|]. split; [by exists lens|]. split; [|done]. intros k Hk. by apply Ed.
  - intros r Hr. rewrite (row_of_keys lens _ _ _ _ ty m r) by (done || lia). simpl. split.
    + unfold entries. rewrite map_map. cbn [fst]. apply (run_distinct_ok ty m lens domain vs r); [done..|lia|]. apply (allM_true _ _ r Hu), elem_of_seq. lia.
    + apply all_of_Forall, Forall_forall. intros e Hin. unfold entries in Hin. apply list_elem_of_In, in_map_iff in Hin as (k & <- & Hk%list_elem_of_In). cbn [snd].
      apply HdT. rewrite <- Hm. eapply run_keys_lt; [|done]. lia.
Qed.

Lemma valid_sound t : sound t.
Proof.
  induction t as [cv|fields absent IH|starts domain codomain pred deleted IH|kind acc terminal _|st se de fr te cl _ _ _ _] using tile_ind.
  - intros T pf n paths above settled Hp Hc _ Hv. destruct T as [ty| | | |]; try done. destruct Hc as [m Hm]. cbn [valid_over_settled] in Hv.
    rewrite (col_len _ _ _ Hm) in Hv. cbn [mbind option_bind] in Hv. split; [|done]. exists m. split; [|done].
    destruct (m =? 0) eqn:E; breflect; [by left|right]. simplify_eq. by breflect.
  - by apply sound_record.
  - by apply sound_function.
  - intros T ? ? ? ? ? Hp. by destruct T.
  - intros T ? ? ? ? ? Hp. by destruct T.
Qed.
End ValidFacts.

(** * Sets of scalars

    The sets of run-time scalars that are finite or have a finite complement, as the instance
    of [KeySets] the properties of tiles are evaluated at. *)

(** [(false, X)] is [X], [(true, X)] everything but [X]. *)
Definition scalar_set : Type := bool * list Scalar.

Definition ss_mem (s : scalar_set) (k : Scalar) : bool := xorb s.1 (bool_decide (k ∈ s.2)).

Definition ss_complement (s : scalar_set) : scalar_set := (negb s.1, s.2).

Definition ss_intersection (a b : scalar_set) : scalar_set :=
  match a, b with
  | (false, X), _ => (false, List.filter (ss_mem b) X)
  | _, (false, Y) => (false, List.filter (ss_mem a) Y)
  | (true, X), (true, Y) => (true, X ++ Y)
  end.

Definition ss_union (a b : scalar_set) : scalar_set := ss_complement (ss_intersection (ss_complement a) (ss_complement b)).
Definition ss_difference (a b : scalar_set) : scalar_set := ss_intersection a (ss_complement b).
Definition ss_is_empty (s : scalar_set) : bool := negb s.1 && bool_decide (s.2 = []).

#[export] Instance scalar_keys : KeySets Scalar := {
  iset := scalar_set;
  is_empty := ss_is_empty;
  intersection := ss_intersection;
  union := ss_union;
  difference := ss_difference;
  complement := ss_complement;
  closed_point k := (false, [k]);
  canonical s := s;
  is_whole s := s.1 && bool_decide (s.2 = []);
  has_difference a b := negb (ss_is_empty (ss_difference a b));
  holds := ss_mem
}.

Lemma elem_filter (q : Scalar -> bool) X k : bool_decide (k ∈ List.filter q X) = bool_decide (k ∈ X) && q k.
Proof.
  apply eq_true_iff_eq. rewrite andb_true_iff, !bool_decide_eq_true, !list_elem_of_In, List.filter_In. done.
Qed.

Lemma ss_mem_complement s k : ss_mem (ss_complement s) k = negb (ss_mem s k).
Proof. destruct s as [[] X]; unfold ss_mem; simpl; by destruct (bool_decide _). Qed.

Lemma ss_mem_intersection a b k : ss_mem (ss_intersection a b) k = ss_mem a k && ss_mem b k.
Proof.
  assert (H : forall b X, ss_mem (false, List.filter (ss_mem b) X) k = ss_mem (false, X) k && ss_mem b k).
  { intros c X. unfold ss_mem at 1 3. cbn [fst snd xorb]. rewrite elem_filter. done. }
  destruct a as [[] X], b as [[] Y]; cbn [ss_intersection]; rewrite ?H; [|by rewrite andb_comm|done..].
  unfold ss_mem. cbn [fst snd]. rewrite <- negb_orb. rewrite !xorb_true_l. f_equal. apply eq_true_iff_eq.
  rewrite orb_true_iff, !bool_decide_eq_true. by rewrite elem_of_app.
Qed.

Lemma ss_mem_difference a b k : ss_mem (ss_difference a b) k = ss_mem a k && negb (ss_mem b k).
Proof. unfold ss_difference. by rewrite ss_mem_intersection, ss_mem_complement. Qed.

Lemma ss_empty s : ss_is_empty s = true -> forall k, ss_mem s k = false.
Proof. destruct s as [[] X]; [done|]. unfold ss_is_empty. cbn [fst snd negb andb]. intros ->%bool_decide_eq_true k. done. Qed.

(** An integer outside a list of scalars. *)
Definition fresh_scalar (X : list Scalar) : Scalar := SInt (fresh (omap (fun s => match s with SInt z => Some z | _ => None end) X)).

Lemma fresh_scalar_out X : fresh_scalar X ∉ X.
Proof.
  intros H. unfold fresh_scalar in H. set (ints := omap _ X) in H.
  assert (Hin : fresh ints ∈ ints) by (apply list_elem_of_omap; eexists; split; [exact H|done]). by apply (infinite_is_fresh ints) in Hin.
Qed.

Lemma ss_nonempty s : ss_is_empty s = false -> exists k, ss_mem s k = true.
Proof.
  destruct s as [[] X]; unfold ss_is_empty, ss_mem; cbn [fst snd negb andb].
  - intros _. exists (fresh_scalar X). by rewrite bool_decide_false by apply fresh_scalar_out.
  - intros HX%bool_decide_eq_false. destruct X as [|k X]; [done|]. exists k. rewrite bool_decide_true; [done|]. left.
Qed.

#[export] Instance scalar_key_laws : KeySetLaws Scalar scalar_keys.
Proof.
  refine {| base := unit; pt := Scalar; pt_of := fun k => k; of_base := fun _ => tt; over := fun _ _ => True; canon := fun _ _ => True; mem := ss_mem |}; simpl; try done.
  - intros t a b k _ _ _. apply ss_mem_intersection.
  - intros t a b k _ _ _. unfold ss_union. rewrite ss_mem_complement, ss_mem_intersection, !ss_mem_complement.
    by destruct (ss_mem a k), (ss_mem b k).
  - intros t a b k _ _ _. apply ss_mem_difference.
  - intros t a k _ _. apply ss_mem_complement.
  - intros k k' _. unfold ss_mem. cbn [fst snd xorb]. rewrite bool_decide_eq_true, list_elem_of_singleton. done.
  - intros t s k _ He _. by apply ss_empty.
  - intros t s _ He. destruct (ss_nonempty s He) as [k Hk]. exists k. by destruct t.
  - intros t [b X] k _ Hw _. apply andb_true_iff in Hw as [Hb HX]. apply bool_decide_eq_true in HX. simpl in *. by subst.
  - intros t a b k _ _ Hd _ Ha. apply negb_false_iff in Hd. pose proof (ss_empty _ Hd k) as Hm. rewrite ss_mem_difference, Ha in Hm. by destruct (ss_mem b k).
  - intros t a b _ _ Hd. apply negb_true_iff in Hd. destruct (ss_nonempty _ Hd) as [k Hk].
    exists k. rewrite ss_mem_difference in Hk. split; [by destruct t|]. apply andb_true_iff in Hk as [-> Hk%negb_true_iff]. done.
  - intros []. by exists (SInt 0).
Defined.

(** Every scalar type is one base type. *)
Definition scalar_shape (ty : CTy) : Shape := match ty with TyUnit => SUnit | _ => SBase tt end.
