(* ===== verification/TileProps.v ===== *)
(** * What the operations on tiles promise

    The rows a tile holds are what its operations are about: gathering and compacting rows,
    keeping paths, merging two deliveries and removing what a guard names, each stated over
    [row_of] and evaluated on tiles of integer keys. *)

From Stdlib Require Import List ZArith.
From stdpp Require Import gmap.
From S2P Require Import Prelude Predicate PredicateSem Returns KeyMaps PredicateParts PredicateAlgebra PredicatePaths PredicatePathFacts.
From S2P Require Import Guards GuardSem GuardFacts GuardUnion.
From S2P Require Import Values Columns ColumnFacts Tiles TileRows TileFacts TileStores TileValid TileMerges MergeSpec AppendFacts MergeFacts TilePaths.
From S2P Require Import TileReleases RemoveFacts ValidFacts.
Set Warnings "-register-all,-clear-no-such-hyp".

(** ** Columns *)

(** A column's values are read off its rows. *)
Lemma drained_rows ty n c vs : col ty n c -> drain_to_value_iter c = Some vs -> length vs = n /\ forall i, i < n -> vs !! i = index_at c i.
Proof. intros H E. destruct (drain_ok c ty n H) as (vs' & E' & ?). rewrite E in E'. by simplify_eq. Qed.

(** Appending one column to another of its type gives a column of their lengths together whose values are those of
    the first and then those of the second, also where the rows of a union column lie across several arms and one of the
    two lacks an arm of the other. *)
Theorem append_values ty n m a b :
  col ty n a -> col ty m b ->
  exists c va vb, append a b = Some c /\ col ty (n + m) c /\ drain_to_value_iter a = Some va /\ drain_to_value_iter b = Some vb /\
    drain_to_value_iter c = Some (va ++ vb).
Proof.
  intros Ha Hb. destruct (append_ok b ty n m a Ha Hb) as (c & Ec & Hc & Hl & Hr).
  destruct (drain_ok a ty n Ha) as (va & Ea & Hla & Hva), (drain_ok b ty m Hb) as (vb & Eb & Hlb & Hvb), (drain_ok c ty _ Hc) as (vc & Ec' & Hlc & Hvc).
  exists c, va, vb. split; [done|]. split; [done|]. split; [done|]. split; [done|]. rewrite Ec'. f_equal. apply list_eq_same_length with (n + m); [by rewrite length_app, Hla, Hlb|done|].
  intros i x y Hi Hx Hy. rewrite Hvc in Hx by done. destruct (decide (i < n)) as [Hlt|Hge].
  - rewrite lookup_app_l, Hva in Hy by lia. rewrite Hl in Hx by done. congruence.
  - rewrite lookup_app_r, Hla, Hvb in Hy by lia. replace i with (n + (i - n)) in Hx by lia. rewrite Hr in Hx by lia. congruence.
Qed.

Section Contract.
Context {KS : KeySets Scalar} {KL : KeySetLaws Scalar KS}.
Abbreviation Tiling := (Tiling CTy).
Abbreviation TileGuard := (@TileGuard Scalar KS).
Context (shape : CTy -> Shape).

(** ** Rows *)

(** [select_rows] at rows of the tile returns a tile of the same tiling that holds, row by row, what the tile holds at
    the rows asked for, in their order and as often as asked; [retain_rows] is the selection of the rows its mask keeps. *)
Theorem select_rows_exact (T : Tiling) n t rows_ :
  tile_ok T n t -> Forall (fun r => r < n) rows_ ->
  (exists t', select_rows t rows_ = Some t' /\ tile_ok T (length rows_) t' /\ forall j i, rows_ !! j = Some i -> row_of t' j = row_of t i) /\
  forall mask, length mask = n -> retain_rows t mask = select_rows t (kept mask).
Proof.
  intros Hok Hlt. split; [exact (select_rows_ok t T n rows_ Hok Hlt)|]. intros mask <-. by apply (retain_rows_select t T).
Qed.

(** C26: [compact] returns a tile with no key marked deleted left at any depth, whose rows are the tile's rows with the
    deleted entries, and all below them, left out. *)
Theorem compact_exact (T : Tiling) n t :
  tile_ok T n t ->
  exists t', compact t = Some t' /\ tile_ok T n t' /\ holds_deleted_rows t' = false /\ forall r, r < n -> row_of t' r = prune (row_of t r).
Proof. intros Hok. by apply (compact_ok (height t)). Qed.

(** ** Paths *)

(** The path read up the levels to a key is the one listed for it. *)
Theorem path_to_listed (T : Tiling) t level node n :
  tile_ok T 1 t -> tile_values_at t level = Some node -> tile_is_data_function node = true -> level_width node = Some n ->
  exists ps, paths_at t level = Some ps /\ length ps = n /\ forall k, k < n -> path_to t level k = ps !! k.
Proof.
  intros Hok Hn Hd Hw. destruct (path_up_ok T t level node n Hok Hn Hd Hw) as (ps & E & Hl & H). exists ps. split; [done|]. split; [done|].
  intros k Hk. unfold path_to. rewrite H by done. destruct (ps !! k); simpl; [by rewrite app_nil_r|done].
Qed.

(** C25: [retain_paths] at a level of the tile returns a tile whose one row holds, at every depth down to that level, just
    the entries whose paths are kept, with what lies below the last level whole. *)
Theorem retain_paths_exact (T : Tiling) t level node keep :
  tile_ok T 1 t -> tile_values_at t level = Some node -> tile_is_data_function node = true ->
  exists t', retain_paths t level keep = Some t' /\ tile_ok T 1 t' /\ row_of t' 0 = keep_paths keep level [] (row_of t 0).
Proof.
  intros Hok Hn Hd. destruct (retain_paths_ok level T 1 t [[]] keep Hok eq_refl) as (t' & E & Hok' & Hrow); [by exists node|].
  exists t'. split; [done|]. split; [done|]. by apply Hrow.
Qed.

(** ** Merging *)

(** C23: two deliveries of one collection, each with its keys distinct at every level, no key that
    holds no collection delivered by both, and every column arrived on the rows it is needed for
    ([mergeable]), merge with enough fuel.  The result holds the entries of the two matched by
    key, records field by field and collections in depth, its keys are distinct at every level,
    and it calls a path complete just when one of the two does.  A build that
    asserts the validity of a merged tile returns it where the tile [m] before covered completion is
    dropped passes [validate_tile], and panics elsewhere; one that does not returns it always.  Overflow checks make no difference. *)
Theorem merge_exact checks (T : Tiling) l r :
  tile_ok T 1 l -> tile_ok T 1 r -> mergeable T l r -> apart T (row_of l 0) (row_of r 0) ->
  distinct (row_of l 0) -> distinct (row_of r 0) -> stated shape [] T l -> stated shape [] T r ->
  exists N m w,
    (forall debug pf, N <= pf -> merge checks debug pf l r
      = if (debug : bool) then valid ← validate_tile pf m; if (valid : bool) then Some w else None else Some w) /\
    tile_ok T 1 m /\ row_of m 0 = row_of w 0 /\ tile_ok T 1 w /\
    row_of w 0 = merge_val T (row_of l 0) (row_of r 0) /\ distinct (row_of w 0) /\
    forall names path, path_of shape T names path -> closed w names [] path = closed l names [] path || closed r names [] path.
Proof.
  intros Hl Hr Hm Ha Hdl Hdr Hsl Hsr.
  destruct (merge_ok shape checks T l r Hl Hr Hm Hdr Hsl Hsr) as (N & m & w & Hn & Hok & Hrow & Hw & Hv & Hc).
  rewrite (merged_apart _ _ _ Ha) in Hv. exists N, m, w. split_and!; try done. rewrite Hv. by apply merge_distinct.
Qed.

(** ** Releases *)

(** C24: removing a guard of the tile's tiling returns with enough fuel; the tile keeps its form, and holds each cell it
    held unless the guard, in its normal form, takes it: the keys its predicates admit by their paths and the scalar
    fields at the rows they name.  Nothing is taken that the guard does not name. *)
Theorem remove_guarded_exact (T : Tiling) t (g : TileGuard) :
  plain T -> tile_ok T 1 t -> wfg [] (shaped shape T) g ->
  exists N g' t', (forall pf, N <= pf -> guard_flatten_or pf [g] = Some g' /\ remove_guarded pf t g = Some t') /\ tile_ok T 1 t' /\
    (forall c, held (row_of t' 0) c = held (row_of t 0) c && negb (takes g' false [] c)) /\
    forall c, cell_of (shaped shape T) c -> takes g' false [] c = true -> names g [] c = true.
Proof.
  intros Hp Hok Hw. destruct (proj1 (guards_all [] (shaped shape T)) [g]) as (N & g' & [Hw' Hd] & Hn); [done|by repeat constructor|].
  destruct (removes_all shape g' [] T 1 t [[]] [[]] false) as (t' & E & Hok' & Hrow); [done..|by left|done|].
  exists N, g', t'. split; [|split; [done|split]].
  - intros pf Hpf. split; [by apply Hn|]. unfold remove_guarded. by rewrite Hn.
  - intros c. by apply Hrow.
  - intros c Hc Ht. pose proof (takes_names g' [] (shaped shape T) false [] c Hw' (List.Forall2_nil _) Hc (fun _ => eq_refl) Ht) as Hnm.
    simpl in Hnm. rewrite Hd in Hnm by (done || constructor). unfold any_names in Hnm. simpl in Hnm. by rewrite orb_false_r in Hnm.
Qed.

(** ** Validity *)

(** C27: a tile of typed columns over collections, records and scalars that [valid_over] accepts at some rows, and in
    which no level with no rows holds keys ([grounded], which [valid_over] does not check and
    [ungrounded_accepted] shows is needed), is well formed over them: a run per row that divide the keys, the deleted keys
    inside them, a column per row or none, and in every row, at every depth, each key once. *)
Theorem valid_over_sound (T : Tiling) pf n t :
  plain T -> columns_of T t -> grounded t -> valid_over pf t n = Some true -> tile_ok T n t /\ forall r, r < n -> distinct (row_of t r).
Proof. intros Hp Hc Hg Hv. by apply (valid_sound t T pf n _ _ _ Hp Hc Hg Hv). Qed.
End Contract.

(** ** Deliveries of a collection of collections *)

Local Open Scope Z_scope.

Definition int_key (z : Z) : Value := VKey (SInt z).
Definition text (s : string) : Value := VKey (SString s).

Definition nested_tiling : Guards.Tiling CTy := TDataFunction TyInt (TDataFunction TyInt (TScalar TyString)).

(** Key 1 with an entry at 10; then 1 with an entry at 11, and 2, complete, with one at 20. *)
Definition first_delivery : Tile :=
  TileDataFunction [0%nat] (Ints [1]) (TileDataFunction [0%nat] (Ints [10]) (TileScalar (Strings ["x"%string])) PFalse ∅) PFalse ∅.
Definition second_delivery : Tile :=
  TileDataFunction [0%nat] (Ints [1; 2])
    (TileDataFunction [0%nat; 1%nat] (Ints [11; 20]) (TileScalar (Strings ["y"%string; "z"%string])) PFalse ∅) (PIntervals (false, [SInt 2])) ∅.

Lemma first_ok : tile_ok nested_tiling 1 first_delivery.
Proof.
  exists 1%nat. split; [done|]. split; [by exists [1%nat]|]. split; [set_solver|]. exists 1%nat. split; [done|]. split; [by exists [1%nat]|]. split; [set_solver|].
  exists 1%nat. split; [by right|done].
Qed.

Lemma second_ok : tile_ok nested_tiling 1 second_delivery.
Proof.
  exists 2%nat. split; [done|]. split; [by exists [2%nat]|]. split; [set_solver|]. exists 2%nat. split; [done|]. split; [by exists [1%nat; 1%nat]|]. split; [set_solver|].
  exists 2%nat. split; [by right|done].
Qed.

Lemma append_values_witness :
  exists c, append (Ints [1; 2]) (Ints [3]) = Some c /\ drain_to_value_iter c = Some [int_key 1; int_key 2; int_key 3].
Proof.
  destruct (append_values TyInt 2 1 (Ints [1; 2]) (Ints [3]) eq_refl eq_refl) as (c & va & vb & E & _ & Ea & Eb & Ec). exists c. split; [exact E|].
  rewrite Ec. simpl in Ea, Eb. by simplify_eq.
Defined.

(** The rows of the inner level, the second first. *)
Lemma select_rows_exact_witness :
  exists t', select_rows (TileDataFunction [0%nat; 1%nat] (Ints [11; 20]) (TileScalar (Strings ["y"%string; "z"%string])) PFalse ∅) [1%nat; 0%nat; 1%nat] = Some t' /\
    row_of t' 2 = RColl [(Some (int_key 20), false, RCell (Some (text "z"%string)))].
Proof.
  destruct (select_rows_exact (TDataFunction TyInt (TScalar TyString)) 2
    (TileDataFunction [0%nat; 1%nat] (Ints [11; 20]) (TileScalar (Strings ["y"%string; "z"%string])) PFalse ∅) [1%nat; 0%nat; 1%nat]) as [(t' & E & _ & H) _].
  - destruct second_ok as (m & _ & _ & _ & Hok). exists 2%nat. split; [done|]. split; [by exists [1%nat; 1%nat]|]. split; [set_solver|]. exists 2%nat. split; [by right|done].
  - repeat constructor; lia.
  - exists t'. split; [exact E|]. rewrite (H 2%nat 1%nat eq_refl). vm_compute. reflexivity.
Defined.

(** Key 2 deleted: key 1 is left. *)
Lemma compact_exact_witness :
  exists t', compact (TileDataFunction [0%nat] (Ints [1; 2]) (TileScalar (Strings ["y"%string; "z"%string])) PFalse {[1%nat]}) = Some t' /\
    holds_deleted_rows t' = false /\ row_of t' 0 = RColl [(Some (int_key 1), false, RCell (Some (text "y"%string)))].
Proof.
  destruct (compact_exact (TDataFunction TyInt (TScalar TyString)) 1
    (TileDataFunction [0%nat] (Ints [1; 2]) (TileScalar (Strings ["y"%string; "z"%string])) PFalse {[1%nat]})) as (t' & E & _ & Hd & H).
  - exists 2%nat. split; [done|]. split; [by exists [2%nat]|]. split; [intros k ->%elem_of_singleton; lia|]. exists 2%nat. split; [by right|done].
  - exists t'. split; [exact E|]. split; [exact Hd|]. rewrite (H 0%nat) by lia. vm_compute. reflexivity.
Defined.

(** The entries under key 2, of the two levels. *)
Definition under_key_two (path : list Value) : bool := bool_decide (head path = Some (int_key 2)).

Lemma retain_paths_exact_witness :
  exists t', retain_paths second_delivery 1 under_key_two = Some t' /\
    row_of t' 0 = RColl [(Some (int_key 2), false, RColl [(Some (int_key 20), false, RCell (Some (text "z"%string)))])].
Proof.
  destruct (retain_paths_exact nested_tiling second_delivery 1
    (TileDataFunction [0%nat; 1%nat] (Ints [11; 20]) (TileScalar (Strings ["y"%string; "z"%string])) PFalse ∅) under_key_two second_ok eq_refl eq_refl)
    as (t' & E & _ & H).
  exists t'. split; [exact E|]. rewrite H. vm_compute. reflexivity.
Defined.

Lemma deliveries_mergeable : mergeable nested_tiling first_delivery second_delivery.
Proof.
  eexists _, _, _. split; [reflexivity|]. split; [reflexivity|]. split; [vm_compute; reflexivity|].
  eexists _, _, _. split; [reflexivity|]. split; [reflexivity|]. split; [vm_compute; reflexivity|].
  split; [by repeat constructor|left]. repeat constructor; by eexists.
Qed.

Lemma first_distinct : distinct (row_of first_delivery 0).
Proof.
  split; [by apply (bool_decide_unpack (NoDup _))|]. split; [|done]. split; [by apply (bool_decide_unpack (NoDup _))|]. by split.
Qed.

Lemma second_distinct : distinct (row_of second_delivery 0).
Proof.
  split; [by apply (bool_decide_unpack (NoDup _))|]. split; [|split; [|done]]; (split; [by apply (bool_decide_unpack (NoDup _))|]); by split.
Qed.

Lemma deliveries_apart : apart nested_tiling (row_of first_delivery 0) (row_of second_delivery 0).
Proof. vm_compute. repeat constructor. intros H. inversion H as [|? ? ? H2]; inversion H2. Qed.

(** The entries of key 1 together, and key 2, complete. *)
Lemma merge_exact_witness :
  exists N w, (forall pf, (N <= pf)%nat -> merge true false pf first_delivery second_delivery = Some w) /\
    row_of w 0 = RColl [
      (Some (int_key 1), false, RColl [(Some (int_key 10), false, RCell (Some (text "x"%string))); (Some (int_key 11), false, RCell (Some (text "y"%string)))]);
      (Some (int_key 2), false, RColl [(Some (int_key 20), false, RCell (Some (text "z"%string)))])] /\
    closed w [] [] [int_key 2] = true.
Proof.
  destruct (merge_exact scalar_shape true nested_tiling first_delivery second_delivery first_ok second_ok deliveries_mergeable
    deliveries_apart first_distinct second_distinct) as (N & m & w & Hn & _ & _ & _ & Hrow & _ & Hc).
  - done.
  - done.
  - exists N, w. split; [intros pf Hpf; exact (Hn false pf Hpf)|]. split; [rewrite Hrow; vm_compute; reflexivity|].
    rewrite Hc by done. vm_compute. reflexivity.
Defined.

(** The assertion of a debug build: keys delivered once pass it, and a key delivered twice does not, where a build
    without it keeps both entries. *)
Example merge_asserts :
  let one k v : Tile := TileDataFunction [0%nat] (Ints [k]) (TileScalar (Ints [v])) PFalse ∅ in
  let two k k' v v' : Tile := TileDataFunction [0%nat] (Ints [k; k']) (TileScalar (Ints [v; v'])) PFalse ∅ in
  let gives o (t : Tile) := match o with Some w => tile_eqb w t | None => false end in
  gives (merge true true 4 (one 1 5) (one 2 6)) (two 1 2 5 6) = true /\
  match merge true true 4 (one 1 5) (one 1 6) with Some _ => true | None => false end = false /\
  gives (merge true false 4 (one 1 5) (one 1 6)) (two 1 1 5 6) = true.
Proof. split; [|split]; vm_compute; reflexivity. Qed.

(** Every key but 1. *)
Definition all_but_one : Guards.TileGuard Scalar := GFunction (FDomain (PIntervals ((true, [SInt 1]) : iset))).

(** Every key but 1 released: what key 2 held is gone. *)
Lemma remove_guarded_exact_witness :
  exists N g t', (forall pf, (N <= pf)%nat -> guard_flatten_or pf [all_but_one] = Some g /\
      remove_guarded pf second_delivery all_but_one = Some t') /\
    held (row_of t' 0) [SKey (int_key 2); SKey (int_key 20)] = negb (takes g false [] [SKey (int_key 2); SKey (int_key 20)]) /\
    (takes g false [] [SKey (int_key 1); SKey (int_key 11)] = false).
Proof.
  destruct (remove_guarded_exact scalar_shape nested_tiling second_delivery all_but_one) as (N & g & t' & Hn & _ & H & Hs).
  - done.
  - apply second_ok.
  - done.
  - exists N, g, t'. split; [exact Hn|]. split; [rewrite H; reflexivity|].
    destruct (takes g false [] [SKey (int_key 1); SKey (int_key 11)]) eqn:E; [|done]. specialize (Hs [SKey (int_key 1); SKey (int_key 11)]).
    assert (Hf : names all_but_one [] [SKey (int_key 1); SKey (int_key 11)] = true) by (apply Hs; done). done.
Defined.

Lemma valid_over_sound_witness : tile_ok nested_tiling 1 second_delivery /\ distinct (row_of second_delivery 0).
Proof.
  destruct (valid_over_sound nested_tiling 20 1 second_delivery) as [Hok Hd].
  - done.
  - split; [by exists 2%nat|]. split; [by exists 2%nat|]. by exists 2%nat.
  - done.
  - vm_compute. reflexivity.
  - split; [exact Hok|]. apply Hd. lia.
Defined.
