(* ===== verification/Ordered.v ===== *)
(** * Total orders, and the ordered sets and maps of the Rust standard library

    [Ord] as a class with its laws, the derived orders on options, pairs and
    vectors, and [BTreeSet] and [sort_by_key] as sorted lists: what the module
    loader uses of [std]. *)

From Stdlib Require Import Sorting.Sorted.
From stdpp Require Import list.
From S2P Require Import Prelude.
Set Warnings "-clear-no-such-hyp".
Local Open Scope nat_scope.

(** [Ord::cmp]. *)
Class Ord (A : Type) := cmp : A -> A -> comparison.

Class OrdLaws (A : Type) `{Ord A} := {
  cmp_eq (x y : A) : cmp x y = Eq <-> x = y;
  cmp_opp (x y : A) : cmp y x = CompOpp (cmp x y);
  cmp_trans (x y z : A) : cmp x y = Lt -> cmp y z = Lt -> cmp x z = Lt
}.

(** ** The orders of the standard library and of [#[derive(Ord)]] *)

#[export] Instance nat_ord : Ord nat := Nat.compare.

#[export] Instance ascii_ord : Ord ascii := fun a b => N.compare (N_of_ascii a) (N_of_ascii b).

(** Slices, and so strings as their bytes: lexicographic, a prefix first. *)
Fixpoint list_cmp {A} `{Ord A} (l k : list A) : comparison :=
  match l, k with
  | [], [] => Eq
  | [], _ :: _ => Lt
  | _ :: _, [] => Gt
  | x :: l, y :: k => match cmp x y with Eq => list_cmp l k | c => c end
  end.

#[export] Instance list_ord {A} `{Ord A} : Ord (list A) := list_cmp.

(** [None] comes first. *)
#[export] Instance option_ord {A} `{Ord A} : Ord (option A) := fun x y =>
  match x, y with
  | None, None => Eq
  | None, Some _ => Lt
  | Some _, None => Gt
  | Some x, Some y => cmp x y
  end.

#[export] Instance prod_ord {A B} `{Ord A, Ord B} : Ord (A * B) := fun x y =>
  match cmp x.1 y.1 with Eq => cmp x.2 y.2 | c => c end.

Lemma cmp_refl {A} `{OrdLaws A} (x : A) : cmp x x = Eq.
Proof. by apply cmp_eq. Qed.

Lemma cmp_gt {A} `{OrdLaws A} (x y : A) : cmp x y = Gt <-> cmp y x = Lt.
Proof. rewrite (cmp_opp x y). by destruct (cmp x y). Qed.

Lemma cmp_irrefl {A} `{OrdLaws A} (x : A) : cmp x x <> Lt.
Proof. by rewrite cmp_refl. Qed.

Lemma cmp_asym {A} `{OrdLaws A} (x y : A) : cmp x y = Lt -> cmp y x <> Lt.
Proof. intros Hxy Hyx. apply (cmp_irrefl x). by apply cmp_trans with y. Qed.

(** The three cases of a comparison, with the equality in place. *)
Ltac cmp_cases x y :=
  let E := fresh "E" in
  destruct (cmp x y) eqn:E;
  [apply cmp_eq in E; try subst| |apply cmp_gt in E].

#[export] Instance nat_ord_laws : OrdLaws nat.
Proof.
  split; unfold cmp, nat_ord; intros.
  - apply Nat.compare_eq_iff.
  - apply Nat.compare_antisym.
  - rewrite Nat.compare_lt_iff in *. lia.
Qed.

#[export] Instance ascii_ord_laws : OrdLaws ascii.
Proof.
  split; unfold cmp, ascii_ord; intros.
  - rewrite N.compare_eq_iff. split; [|by intros ->]. intros E.
    by rewrite <- (ascii_N_embedding x), E, ascii_N_embedding.
  - apply N.compare_antisym.
  - rewrite N.compare_lt_iff in *. lia.
Qed.

#[export] Instance list_ord_laws {A} `{OrdLaws A} : OrdLaws (list A).
Proof.
  split; unfold cmp, list_ord.
  - intros l. induction l as [|x l IH]; intros [|y k]; simpl; try done.
    cmp_cases x y; [by rewrite IH; naive_solver|split; [done|]..].
    + intros [= -> _]. by rewrite cmp_refl in E.
    + intros [= -> _]. by rewrite cmp_refl in E.
  - intros l. induction l as [|x l IH]; intros [|y k]; simpl; try done.
    rewrite (cmp_opp x y). destruct (cmp x y); simpl; [apply IH|done..].
  - intros l. induction l as [|x l IH]; intros [|y k] [|z m]; simpl; try done.
    cmp_cases x y; [|cmp_cases y z|done].
    + cmp_cases y z; [apply IH|done..].
    + by rewrite E.
    + by rewrite (cmp_trans _ _ _ E E0).
    + done.
Qed.

#[export] Instance option_ord_laws {A} `{OrdLaws A} : OrdLaws (option A).
Proof.
  split; unfold cmp, option_ord.
  - intros [x|] [y|]; try done. rewrite cmp_eq. naive_solver.
  - intros [x|] [y|]; try done. apply cmp_opp.
  - intros [x|] [y|] [z|]; try done. apply cmp_trans.
Qed.

#[export] Instance prod_ord_laws {A B} `{OrdLaws A, OrdLaws B} : OrdLaws (A * B).
Proof.
  split; unfold cmp, prod_ord.
  - intros [x a] [y b]; simpl. cmp_cases x y.
    + rewrite cmp_eq. naive_solver.
    + split; [done|]. intros [= -> _]. by rewrite cmp_refl in E.
    + split; [done|]. intros [= -> _]. by rewrite cmp_refl in E.
  - intros [x a] [y b]; simpl. rewrite (cmp_opp x y). destruct (cmp x y); simpl; [apply cmp_opp|done..].
  - intros [x a] [y b] [z c]; simpl. cmp_cases x y; [|cmp_cases y z|done].
    + cmp_cases y z; [apply cmp_trans|done..].
    + by rewrite E.
    + by rewrite (cmp_trans _ _ _ E E0).
    + done.
Qed.

(** ** [BTreeSet] *)
Section Sets.
Context {A : Type} `{Ord A}.

(** [BTreeSet::insert]. *)
Fixpoint set_insert (x : A) (s : list A) : list A :=
  match s with
  | [] => [x]
  | y :: s' =>
      match cmp x y with
      | Lt => x :: s
      | Eq => s
      | Gt => y :: set_insert x s'
      end
  end.

(** [collect] into a set. *)
Definition set_of_list (l : list A) : list A := foldl (fun s x => set_insert x s) [] l.

(** [BTreeSet::remove]. *)
Definition set_remove (x : A) (s : list A) : list A :=
  List.filter (fun y => match cmp x y with Eq => false | _ => true end) s.

(** The order of a set's elements. *)
Definition ascending : list A -> Prop := StronglySorted (fun x y => cmp x y = Lt).
End Sets.

Section SetFacts.
Context {A : Type} `{OrdLaws A}.
Implicit Types (x y : A) (s l : list A).

Lemma elem_of_set_insert x y s : y ∈ set_insert x s <-> y = x \/ y ∈ s.
Proof.
  induction s as [|z s IH]; simpl; [set_solver|]. cmp_cases x z; [set_solver..|].
  rewrite elem_of_cons, IH, elem_of_cons. naive_solver.
Qed.

Lemma ascending_insert x s : ascending s -> ascending (set_insert x s).
Proof.
  unfold ascending. induction 1 as [|z s Hs IH Hz]; simpl; [repeat constructor|]. cmp_cases x z.
  - by constructor.
  - constructor; [by constructor|]. constructor; [done|].
    eapply Forall_impl; [exact Hz|]. intros y. simpl. by apply cmp_trans.
  - constructor; [done|]. apply Forall_forall. intros y [->|Hy]%elem_of_set_insert; [done|].
    by apply (proj1 (Forall_forall _ _) Hz).
Qed.

Lemma ascending_NoDup s : ascending s -> NoDup s.
Proof.
  unfold ascending. induction 1 as [|z s Hs IH Hz]; constructor; [|done]. intros Hin.
  apply (cmp_irrefl z). by apply (proj1 (Forall_forall _ _) Hz).
Qed.

Lemma set_of_list_ok l :
  ascending (set_of_list l) /\ forall x, x ∈ set_of_list l <-> x ∈ l.
Proof.
  unfold set_of_list. assert (forall s, ascending s -> ascending (foldl (fun s x => set_insert x s) s l) /\
    forall x, x ∈ foldl (fun s x => set_insert x s) s l <-> x ∈ s \/ x ∈ l) as Hgen.
  { induction l as [|y l IH]; intros s Hs; simpl; [set_solver|].
    destruct (IH (set_insert y s)) as [Ha Hx]; [by apply ascending_insert|]. split; [done|].
    intros x. rewrite Hx, elem_of_set_insert. set_solver. }
  destruct (Hgen []) as [Ha Hx]; [constructor|]. split; [done|]. set_solver.
Qed.

Lemma elem_of_set_of_list l x : x ∈ set_of_list l <-> x ∈ l.
Proof. apply set_of_list_ok. Qed.

Lemma elem_of_set_remove x y s : y ∈ set_remove x s <-> y <> x /\ y ∈ s.
Proof.
  unfold set_remove. rewrite !list_elem_of_In, List.filter_In. cmp_cases x y.
  - naive_solver.
  - assert (y <> x); [|naive_solver]. intros ->. by rewrite cmp_refl in E.
  - assert (y <> x); [|naive_solver]. intros ->. by rewrite cmp_refl in E.
Qed.

(** The first element is below the others: what [pop_first] takes. *)
Lemma ascending_head x s y : ascending (x :: s) -> y ∈ s -> cmp x y = Lt.
Proof. intros [_ Hx]%StronglySorted_inv Hy. by apply (proj1 (Forall_forall _ _) Hx). Qed.

Lemma ascending_tail x s : ascending (x :: s) -> ascending s.
Proof. by intros [? _]%StronglySorted_inv. Qed.
End SetFacts.

(** ** [sort_by_key]: stable *)
Section Sort.
Context {A K : Type} `{Ord K} (key : A -> K).

Fixpoint insert_key (x : A) (l : list A) : list A :=
  match l with
  | [] => [x]
  | y :: l' => match cmp (key x) (key y) with Gt => y :: insert_key x l' | _ => x :: l end
  end.

Definition sort_keys (l : list A) : list A := foldr insert_key [] l.

Lemma insert_key_perm x l : insert_key x l ≡ₚ x :: l.
Proof.
  induction l as [|y l IH]; simpl; [done|]. destruct (cmp _ _); try done.
  rewrite IH. apply Permutation_swap.
Qed.

Lemma sort_keys_perm l : sort_keys l ≡ₚ l.
Proof. induction l as [|x l IH]; simpl; [done|]. by rewrite insert_key_perm, IH. Qed.

Context `{!OrdLaws K}.

Lemma sort_keys_sorted l : StronglySorted (fun x y => cmp (key x) (key y) <> Gt) (sort_keys l).
Proof.
  induction l as [|x l IH]; simpl; [constructor|].
  induction IH as [|y k Hs IHk Hy]; simpl; [repeat constructor|].
  destruct (cmp (key x) (key y)) eqn:E.
  - apply cmp_eq in E. constructor; [by constructor|]. rewrite E. constructor; [by rewrite cmp_refl|done].
  - constructor; [by constructor|]. constructor; [by rewrite E|]. apply Forall_forall. intros z Hz.
    pose proof (proj1 (Forall_forall _ _) Hy z Hz) as Hyz. simpl in Hyz.
    destruct (cmp (key y) (key z)) eqn:Ez; [| |done].
    + apply cmp_eq in Ez. rewrite <- Ez. by rewrite E.
    + by rewrite (cmp_trans _ _ _ E Ez).
  - constructor; [done|]. rewrite insert_key_perm. constructor; [|done]. by apply cmp_gt in E as ->.
Qed.
End Sort.
