(* ===== verification/ModulePaths.v ===== *)
(** * Module paths, labels and source maps

    The names a program of several files is made of: module paths and the rule
    for their segments ([chl-parser/src/module_path.rs]), paths as statements
    write them ([WrittenPath] of [ast.rs]), run paths ([src/ccl/names.rs]), labels
    and the keys run time knows them by ([src/ccl/label.rs]), and the files of a
    compilation ([chl-parser/src/source_map.rs]).  [debug] is whether debug
    assertions are on. *)

From stdpp Require Import list.
From S2P Require Import Prelude Tokens RawTokens.
Local Open Scope nat_scope.

(** ** What the code uses of [str] *)

Definition COLON : ascii := ":"%char.
Definition AT : ascii := "@"%char.

(** [slice::join]. *)
Fixpoint join_segments (sep : bytes) (l : list bytes) : bytes :=
  match l with
  | [] => []
  | [s] => s
  | s :: l => s ++ sep ++ join_segments sep l
  end.

(** The separator of paths, and whether a string starts with it. *)
Definition COLONS : bytes := [COLON; COLON].

Definition colons_at (c : ascii) (s : bytes) : bool :=
  Ascii.eqb c COLON && match s with d :: _ => Ascii.eqb d COLON | [] => false end.

(** [str::contains], of the separator. *)
Fixpoint contains_colons (s : bytes) : bool :=
  match s with [] => false | c :: s => colons_at c s || contains_colons s end.

(** [str::rsplit_once], at the last separator. *)
Fixpoint rsplit_once (s : bytes) : option (bytes * bytes) :=
  match s with
  | [] => None
  | c :: s =>
      match rsplit_once s with
      | Some (before, after) => Some (c :: before, after)
      | None => if colons_at c s then Some ([], tail s) else None
      end
  end.

Definition cons_head (c : ascii) (l : list bytes) : list bytes :=
  match l with [] => [[c]] | s :: l => (c :: s) :: l end.

(** [str::split], at each separator from the left. *)
Fixpoint split (s : bytes) : list bytes :=
  match s with
  | [] => [[]]
  | c :: s =>
      match s with
      | d :: rest => if colons_at c s then [] :: split rest else cons_head c (split s)
      | [] => [[c]]
      end
  end.

(** [str::starts_with]. *)
Definition starts_with (prefix s : bytes) : bool := bool_decide (take (length prefix) s = prefix).

Definition is_ascii_lowercase (c : ascii) : bool :=
  (97 <=? nat_of_ascii c) && (nat_of_ascii c <=? 122).

(** ** [ModulePath] *)

Definition STD_ROOT : bytes := lit "std".

(** [ModulePath]: one or more segments. *)
Definition ModulePath : Type := list bytes.

Section Paths.
Context {L : Logos}.

(** One identifier token that spans the whole name. *)
Definition one_identifier (name : bytes) : bool :=
  match logos_next name 0 with
  | Some (Some (TIdent _), s, e) =>
      (s =? 0) && (e =? length name) &&
      match logos_next name e with None => true | Some _ => false end
  | _ => false
  end.

(** [segment_error]. *)
Definition segment_error (name : bytes) : option bytes :=
  if negb (one_identifier name) then
    Some (lit "module name `" ++ name ++ lit "` is not an identifier")
  else if starts_with (lit "__") name then
    Some (lit "module name `" ++ name ++ lit "` begins with `__`, a namespace user code cannot bind")
  else if negb (match name with c :: _ => is_ascii_lowercase c | [] => false end) then
    Some (lit "module name `" ++ name ++
          lit "` must begin with a lowercase letter; a capitalized name is a type")
  else None.

Definition is_segment (name : bytes) : bool :=
  match segment_error name with None => true | Some _ => false end.

(** [ModulePath::new]: no segments is a panic, a bad one a panic in debug builds. *)
Definition ModulePath_new (debug : bool) (segments : list bytes) : option ModulePath :=
  match segments with
  | [] => None
  | _ => if debug && negb (forallb is_segment segments) then None else Some segments
  end.

(** [is_std]. *)
Definition is_std (p : ModulePath) : option bool :=
  s ← head p; Some (bool_decide (s = STD_ROOT)).

(** [relative_file]. *)
Definition relative_file (p : ModulePath) : bytes := join_segments (lit "/") p ++ lit ".cambra".

(** [Display for ModulePath]. *)
Definition path_display (p : ModulePath) : bytes := join_segments COLONS p.

(** ** [WrittenPath] *)

(** [WrittenPath]: each segment with its span. *)
Definition WrittenPath : Type := list (Span * bytes).

(** [WrittenPath::span]. *)
Definition written_span (w : WrittenPath) : option Span :=
  first ← head w;
  l ← last w;
  Some (span_join first.1 l.1).

(** [WrittenPath::to_path]: [Some None] when a segment breaks the rule. *)
Definition to_path (debug : bool) (w : WrittenPath) : option (option ModulePath) :=
  if forallb (fun s => is_segment s.2) w then Some <$> ModulePath_new debug (map snd w)
  else Some None.

(** ** [RunPath] *)

Definition RunPath : Type := list bytes.

(** [RunPath::child]. *)
Definition child (r : RunPath) (name : bytes) : RunPath := r ++ [name].

(** [RunPath::last]. *)
Definition run_last (r : RunPath) : option bytes := last r.

(** [Display for RunPath]. *)
Definition run_display (r : RunPath) : bytes :=
  concat (imap (fun i name => (if 0 <? i then COLONS else []) ++ name) r).

(** ** [Label] *)

Inductive Space := SpaceModule (p : ModulePath) | SpaceRun (r : RunPath).

Record Label := MkLabel { label_name : bytes; space : option Space }.

(** [debug_assert_spelling], before the label it guards. *)
Definition asserting (debug : bool) (l : Label) : option Label :=
  if debug && contains_colons (label_name l) then None else Some l.

(** [Label::new]. *)
Definition Label_new (debug : bool) (name : bytes) : option Label :=
  asserting debug (MkLabel name None).

(** [Label::in_module]. *)
Definition label_in_module (debug : bool) (p : ModulePath) (name : bytes) : option Label :=
  asserting debug (MkLabel name (Some (SpaceModule p))).

(** [Label::in_run]. *)
Definition label_in_run (debug : bool) (r : RunPath) (name : bytes) : option Label :=
  asserting debug (MkLabel name (Some (SpaceRun r))).

(** [str::strip_prefix], of the run marker. *)
Definition strip_at (s : bytes) : option bytes :=
  match s with c :: s => if Ascii.eqb c AT then Some s else None | [] => None end.

(** [Label::from_runtime_key]. *)
Definition from_runtime_key (debug : bool) (key : bytes) : option Label :=
  match rsplit_once key with
  | Some (space, name) =>
      match strip_at space with
      | Some run => label_in_run debug (foldl child [] (split run)) name
      | None => p ← ModulePath_new debug (split space); label_in_module debug p name
      end
  | None => Label_new debug key
  end.

(** [Label::module] and [Label::run]. *)
Definition label_module (l : Label) : option ModulePath :=
  match space l with Some (SpaceModule p) => Some p | _ => None end.

Definition label_run (l : Label) : option RunPath :=
  match space l with Some (SpaceRun r) => Some r | _ => None end.

(** [Label::runtime_key]. *)
Definition runtime_key (l : Label) : bytes :=
  match space l with
  | Some (SpaceModule p) => path_display p ++ COLONS ++ label_name l
  | Some (SpaceRun r) => [AT] ++ run_display r ++ COLONS ++ label_name l
  | None => label_name l
  end.

(** [Display for Label]. *)
Definition label_display (l : Label) : bytes :=
  match space l with
  | Some (SpaceModule p) => path_display p ++ COLONS ++ label_name l
  | Some (SpaceRun r) => run_display r ++ COLONS ++ label_name l
  | None => label_name l
  end.
End Paths.

(** ** [SourceMap] *)

(** [FileId::ROOT]. *)
Definition ROOT : FileId := 0.

(** [SourceFile], without the newline index that rendering caches. *)
Record SourceFile := MkSourceFile {
  file_path : bytes;
  file_module : option ModulePath;
  file_text : bytes
}.

Record SourceMap := MkSourceMap { files_of : list SourceFile }.

(** [SourceMap::push]: a panic at [2^32] files. *)
Definition push_file (m : SourceMap) (f : SourceFile) : option (FileId * SourceMap) :=
  let id := length (files_of m) in
  if (Z.of_nat id <? 2 ^ 32)%Z then Some (id, MkSourceMap (files_of m ++ [f])) else None.

(** [SourceMap::add]. *)
Definition add (m : SourceMap) (path text : bytes) : option (FileId * SourceMap) :=
  push_file m (MkSourceFile path None text).

(** [SourceMap::add_module]. *)
Definition add_module (m : SourceMap) (module : ModulePath) (path text : bytes) :
    option (FileId * SourceMap) :=
  push_file m (MkSourceFile path (Some module) text).

(** [SourceMap::single]. *)
Definition single (path text : bytes) : option SourceMap :=
  snd <$> add (MkSourceMap []) path text.

(** [SourceMap::files]. *)
Definition source_files (m : SourceMap) : list FileId := seq 0 (length (files_of m)).

(** [SourceMap::root]. *)
Definition source_root (m : SourceMap) : option FileId :=
  match files_of m with [] => None | _ => Some ROOT end.

(** [SourceMap::file], [path], [module] and [text]: a panic on a foreign id. *)
Definition source_file (m : SourceMap) (f : FileId) : option SourceFile := files_of m !! f.
Definition source_path (m : SourceMap) (f : FileId) : option bytes := file_path <$> source_file m f.
Definition source_module (m : SourceMap) (f : FileId) : option (option ModulePath) :=
  file_module <$> source_file m f.
Definition source_text (m : SourceMap) (f : FileId) : option bytes := file_text <$> source_file m f.
