(* ===== verification/PathProps.v ===== *)
(** * The rule for module names, and labels as run-time keys

    What the loader and the runtime rely on of [ModulePaths]: a segment is a
    lowercase identifier that is no keyword, and a label is read back from the
    key it is known by. *)

From stdpp Require Import list.
From S2P Require Import Prelude Tokens RawTokens LexRules ModulePaths.
Local Open Scope nat_scope.

(** ** Splitting and joining *)

Lemma colons_at_false c s : c <> COLON -> colons_at c s = false.
Proof. intros Hc. unfold colons_at. by rewrite (proj2 (Ascii.eqb_neq _ _) Hc). Qed.

Lemma rsplit_once_none s : contains_colons s = false -> rsplit_once s = None.
Proof. induction s as [|c s IH]; simpl; [done|]. intros [-> H]%orb_false_iff. by rewrite IH. Qed.

(** The separator before a spelling is the last of the key. *)
Lemma rsplit_once_app a b :
  contains_colons b = false -> head b <> Some COLON -> rsplit_once (a ++ COLONS ++ b) = Some (a, b).
Proof.
  intros Hb Hh. induction a as [|c a IH]; cbn [app rsplit_once].
  - simpl. rewrite (rsplit_once_none b Hb). unfold colons_at at 1. destruct b as [|d b]; [done|].
    rewrite (proj2 (Ascii.eqb_neq d COLON)) by (intros ->; by apply Hh). done.
  - by rewrite IH.
Qed.

Lemma split_app s rest : COLON ∉ s -> split (s ++ COLONS ++ rest) = s :: split rest.
Proof.
  induction s as [|c s IH]; intros Hs; [done|].
  apply not_elem_of_cons in Hs as [Hc Hs]. specialize (IH Hs).
  change ((c :: s) ++ COLONS ++ rest) with (c :: (s ++ COLONS ++ rest)).
  destruct (s ++ COLONS ++ rest) as [|d t] eqn:E; [by destruct s|].
  change (split (c :: d :: t)) with (if colons_at c (d :: t) then [] :: split t else cons_head c (split (d :: t))).
  by rewrite colons_at_false, IH by done.
Qed.

Lemma split_single s : COLON ∉ s -> split s = [s].
Proof.
  induction s as [|c s IH]; intros Hs; [done|].
  apply not_elem_of_cons in Hs as [Hc Hs]. specialize (IH Hs). destruct s as [|d t]; [done|].
  change (split (c :: d :: t)) with (if colons_at c (d :: t) then [] :: split t else cons_head c (split (d :: t))).
  by rewrite colons_at_false, IH by done.
Qed.

Lemma split_join l : l <> [] -> Forall (fun s => COLON ∉ s) l -> split (join_segments COLONS l) = l.
Proof.
  induction l as [|s l IH]; intros Hne H; [done|]. apply Forall_cons in H as [Hs H].
  destruct l as [|t l]; [by apply split_single|].
  change (join_segments COLONS (s :: t :: l)) with (s ++ COLONS ++ join_segments COLONS (t :: l)).
  by rewrite split_app, IH by done.
Qed.

Lemma foldl_child l r : foldl child r l = r ++ l.
Proof.
  revert r. induction l as [|s l IH]; intros r; simpl; [by rewrite app_nil_r|].
  rewrite IH. unfold child. by rewrite <- app_assoc.
Qed.

Lemma run_display_join r : run_display r = join_segments COLONS r.
Proof.
  unfold run_display. destruct r as [|s r]; [done|]. simpl. revert s.
  induction r as [|t r IH]; intros s; [by rewrite app_nil_r|]. simpl in *. by rewrite IH.
Qed.

(** ** Segments *)

Lemma span_len_all p s : span_len p s = length s <-> forallb p s = true.
Proof.
  induction s as [|c s IH]; simpl; [done|]. destruct (p c); simpl; [|done]. rewrite <- IH. lia.
Qed.

Lemma skip_zero c s : is_hspace c = false -> Ascii.eqb c HASH = false -> skip false (c :: s) = 0.
Proof. intros H1 H2. simpl. by rewrite H1, H2. Qed.

Lemma skip_zero_inv c s : skip false (c :: s) = 0 -> is_hspace c = false /\ Ascii.eqb c HASH = false.
Proof. simpl. by destruct (is_hspace c), (Ascii.eqb c HASH). Qed.

Lemma symbol_not_ident s name n : symbol s <> Some (TIdent name, n).
Proof.
  intros [_ H]%symbol_spec. revert H.
  assert (Forall (fun t => forall x, t <> TIdent x) (map snd SYMBOLS)) as HF
    by (unfold SYMBOLS; repeat constructor; done).
  intros H. by apply (proj1 (Forall_forall _ _) HF _ H name).
Qed.

Lemma keyword_not_ident s name : keyword s <> Some (TIdent name).
Proof.
  intros H%keyword_spec. revert H.
  assert (Forall (fun t => forall x, t <> TIdent x) (map snd KEYWORDS)) as HF
    by (unfold KEYWORDS; repeat constructor; done).
  intros H. by apply (proj1 (Forall_forall _ _) HF _ H name).
Qed.

(** The rule for identifiers is the only one that gives one. *)
Lemma rule_ident c s name n :
  rule c s = (Some (TIdent name), n) ->
  is_ident_start c = true /\ n = S (span_len is_ident_continue s) /\ keyword (c :: take (span_len is_ident_continue s) s) = None.
Proof.
  unfold rule. repeat case_match; try done; simpl in *; try (by intros [= ? ?]).
  - match goal with |- context [TString <$> ?o] => by destruct o end.
  - match goal with |- context [TInt <$> ?o] => by destruct o end.
  - intros [= -> <-]. by apply keyword_not_ident in H3.
  - intros [= -> <-]. by apply symbol_not_ident in H3.
Qed.

Lemma ident_start_classes c :
  is_ident_start c = true ->
  Ascii.eqb c LF = false /\ is_quote c = false /\ is_digit c = false /\ is_hspace c = false /\ Ascii.eqb c HASH = false.
Proof. destruct c as [[] [] [] [] [] [] [] []]; vm_compute; intros H; try discriminate H; auto. Qed.

Lemma rule_ident_intro c s :
  is_ident_start c = true -> keyword (c :: take (span_len is_ident_continue s) s) = None ->
  rule c s = (Some (TIdent (c :: take (span_len is_ident_continue s) s)), S (span_len is_ident_continue s)).
Proof.
  intros Hc Hk. destruct (ident_start_classes c Hc) as (H1 & H2 & H3 & _). unfold rule.
  by rewrite H1, H2, H3, Hc, Hk.
Qed.

Lemma chl_next_end src : logos_next (Logos := chl_logos) src (length src) = None.
Proof.
  unfold logos_next, chl_logos, chl_next. rewrite (drop_ge src (length src)) by lia. simpl.
  by rewrite drop_ge by lia.
Qed.

(** One identifier token, as the text of one. *)
Lemma one_identifier_exact name :
  one_identifier name = true <->
  exists c s, name = c :: s /\ is_ident_start c = true /\ forallb is_ident_continue s = true /\ keyword name = None.
Proof.
  unfold one_identifier. split.
  - destruct (logos_next name 0) as [[[[t|] b] e]|] eqn:E; try done. destruct t; try done.
    intros [[->%Nat.eqb_eq ->%Nat.eqb_eq]%andb_true_iff _]%andb_true_iff. revert E.
    unfold logos_next, chl_logos, chl_next. rewrite drop_0. simpl.
    destruct (drop (skip false name) name) as [|c s'] eqn:Ed; [done|].
    destruct (rule c s') as [r n] eqn:Er. intros [= -> Hk Hn]. rewrite Hk in Ed. rewrite drop_0 in Ed. subst name.
    apply rule_ident in Er as (Hc & -> & Hkw). rewrite Hk in Hn. simpl in Hn.
    assert (span_len is_ident_continue s' = length s') as Hs by lia.
    rewrite Hs, firstn_all in Hkw. exists c, s'. repeat split; auto. by apply span_len_all.
  - intros (c & s & -> & Hc & Hs & Hk). apply span_len_all in Hs.
    destruct (ident_start_classes c Hc) as (_ & _ & _ & H4 & H5).
    assert (logos_next (c :: s) 0 = Some (Some (TIdent (c :: s)), 0, length (c :: s))) as ->.
    { unfold logos_next, chl_logos, chl_next. rewrite drop_0, (skip_zero c s H4 H5). simpl.
      rewrite rule_ident_intro; rewrite ?Hs, ?firstn_all; done. }
    rewrite chl_next_end. by rewrite !Nat.eqb_refl.
Qed.

(** What the spellings of module names are. *)
Definition module_name_text (name : bytes) : Prop :=
  exists c s, name = c :: s /\ is_ascii_lowercase c = true /\ forallb is_ident_continue s = true /\ keyword name = None.

Lemma lowercase_start c : is_ascii_lowercase c = true -> is_ident_start c = true /\ Ascii.eqb c UNDERSCORE = false.
Proof. destruct c as [[] [] [] [] [] [] [] []]; vm_compute; intros H; try discriminate H; auto. Qed.

Lemma segment_error_text name : segment_error name = None <-> module_name_text name.
Proof.
  unfold segment_error, module_name_text. split.
  - destruct (one_identifier name) eqn:E; [|done]. apply one_identifier_exact in E as (c & s & -> & _ & Hs & Hk).
    simpl. destruct (starts_with _ _); [done|]. destruct (is_ascii_lowercase c) eqn:Hc; [|done]. intros _.
    by exists c, s.
  - intros (c & s & -> & Hc & Hs & Hk). destruct (lowercase_start c Hc) as [Hst Hu].
    assert (one_identifier (c :: s) = true) as -> by (apply one_identifier_exact; by exists c, s).
    simpl. rewrite Hc. unfold starts_with. rewrite bool_decide_false; [done|].
    intros [= -> _]. by rewrite Ascii.eqb_refl in Hu.
Qed.

Lemma ident_continue_plain c : is_ident_continue c = true -> c <> COLON /\ c <> AT.
Proof. intros H. by split; intros ->. Qed.

Lemma segment_plain name : is_segment name = true -> (COLON ∉ name) /\ head name <> Some AT /\ name <> [].
Proof.
  unfold is_segment. destruct (segment_error name) eqn:E; [done|]. intros _.
  apply segment_error_text in E as (c & s & -> & Hc & Hs & _). apply lowercase_start in Hc as [Hc _].
  assert (Hcc : is_ident_continue c = true) by (unfold is_ident_continue; by rewrite Hc).
  apply ident_continue_plain in Hcc as [H1 H2]. split; [|split; [simpl; congruence|done]].
  apply not_elem_of_cons. split; [congruence|]. intros Hin%list_elem_of_In.
  apply (proj1 (forallb_forall _ _) Hs) in Hin. by apply ident_continue_plain in Hin as [? _].
Qed.

(** ** Properties *)

(** The labels of a program: the spelling has no separator and does not run
    into the one before it, and the space is a module's path or a run's. *)
Definition label_ok (l : Label) : Prop :=
  contains_colons (label_name l) = false /\
  match space l with
  | None => True
  | Some (SpaceModule p) => p <> [] /\ forallb is_segment p = true /\ head (label_name l) <> Some COLON
  | Some (SpaceRun r) => r <> [] /\ Forall (fun s => COLON ∉ s) r /\ head (label_name l) <> Some COLON
  end.

Lemma module_segments p : forallb is_segment p = true -> Forall (fun s => COLON ∉ s) p.
Proof.
  intros H. apply Forall_forall. intros s Hs%list_elem_of_In.
  apply (segment_plain s). by apply (proj1 (forallb_forall _ _) H).
Qed.

Lemma strip_at_path p : p <> [] -> forallb is_segment p = true -> strip_at (path_display p) = None.
Proof.
  intros Hne H. destruct p as [|s p]; [done|]. apply andb_true_iff in H as [Hs _].
  apply segment_plain in Hs as (_ & Hat & Hs). destruct s as [|c s]; [done|].
  unfold path_display. assert (exists t, join_segments COLONS ((c :: s) :: p) = c :: t) as [t ->]
    by (destruct p; simpl; eauto).
  simpl. by rewrite (proj2 (Ascii.eqb_neq c AT)) by (intros ->; by apply Hat).
Qed.

Lemma from_runtime_key_ok debug l : label_ok l -> from_runtime_key debug (runtime_key l) = Some l.
Proof.
  destruct l as [name [[p|r]|]]; unfold label_ok, runtime_key, from_runtime_key; cbn [space label_name].
  - intros (Hn & Hne & Hp & Hh). rewrite rsplit_once_app, strip_at_path by done. unfold path_display.
    rewrite split_join by (auto using module_segments). unfold ModulePath_new.
    destruct p as [|s p]; [done|]. rewrite Hp, andb_false_r. simpl. unfold label_in_module, asserting. simpl.
    by rewrite Hn, andb_false_r.
  - intros (Hn & Hne & Hr & Hh). rewrite app_assoc, rsplit_once_app by done. simpl.
    rewrite run_display_join, split_join, foldl_child by done. unfold label_in_run, asserting. simpl.
    by rewrite Hn, andb_false_r.
  - intros [Hn _]. rewrite rsplit_once_none by done. unfold Label_new, asserting. simpl.
    by rewrite Hn, andb_false_r.
Qed.

(** A name is a module path segment just when it begins with a lowercase
    ASCII letter, goes on with letters, digits and underscores, and is no keyword. *)
Theorem segment_error_exact name :
  segment_error name = None <->
  exists c s, name = c :: s /\ is_ascii_lowercase c = true /\ forallb is_ident_continue s = true /\ keyword name = None.
Proof. apply segment_error_text. Qed.

(** C40: a label of a program ([label_ok]: a spelling without a separator, which in a space does
    not begin with a colon, and a space that is empty, a path of module segments or a run path of
    segments without colons) is read back from its run-time key in both build profiles, and no two
    such labels share a key. *)
Theorem label_key_roundtrip debug l :
  label_ok l ->
  from_runtime_key debug (runtime_key l) = Some l /\
  forall l', label_ok l' -> runtime_key l' = runtime_key l -> l' = l.
Proof.
  intros Hl. split; [by apply from_runtime_key_ok|]. intros l' Hl' E.
  apply (f_equal (from_runtime_key debug)) in E. rewrite !from_runtime_key_ok in E by done. by injection E.
Qed.

Lemma label_key_roundtrip_witness :
  from_runtime_key true (lit "@eu::inv::qty") = Some (MkLabel (lit "qty") (Some (SpaceRun [lit "eu"; lit "inv"]))) /\
  from_runtime_key true (lit "shop::cart::qty") = Some (MkLabel (lit "qty") (Some (SpaceModule [lit "shop"; lit "cart"]))).
Proof.
  split.
  - apply (label_key_roundtrip true (MkLabel (lit "qty") (Some (SpaceRun [lit "eu"; lit "inv"])))).
    split; [reflexivity|]. split; [discriminate|]. split; [|discriminate].
    repeat constructor; apply (bool_decide_unpack _); vm_compute; exact I.
  - apply (label_key_roundtrip true (MkLabel (lit "qty") (Some (SpaceModule [lit "shop"; lit "cart"])))).
    split; [reflexivity|]. split; [discriminate|]. split; [reflexivity|discriminate].
Defined.

(** A spelling that begins with a colon is not read back: the key's last separator
    is one byte to the right. *)
Example label_colon_spelling :
  from_runtime_key false (runtime_key (MkLabel (lit ":x") (Some (SpaceModule [lit "a"]))))
  = Some (MkLabel (lit "x") (Some (SpaceModule [lit "a:"]))).
Proof. reflexivity. Qed.
