(* ===== verification/Loading.v ===== *)
(** * Loading a program of modules ([src/ccl/load/mod.rs], [load/graph.rs])

    [load_with] follows the imports of a root file to every module it reaches,
    parses each once, and then orders the modules or reports the cycles of their
    graph.  The parser is an argument; where files come from is the interface
    [ModuleFiles], with [InMemory] as its instance.  A [BTreeMap] is a finite map,
    read in key order where its iterator is used; a panic is [None]. *)

From stdpp Require Import list gmap.
From S2P Require Import Prelude Tokens RawTokens ModulePaths Ordered Graphs.
Local Open Scope nat_scope.

(** ** Statements *)

(** [Stmt], as loading reads it: the other statements are one constructor, and
    only the paths of [import] and [run] are kept. *)
Inductive Stmt :=
  | StmtImport (path : WrittenPath)
  | StmtRun (path : WrittenPath)
  | StmtPub (stmt : Stmt)
  | StmtOther.

(** [EdgeKind]. *)
Inductive EdgeKind := EdgeImport | EdgeRun.

(** The inner [edge] of [statement_edges]. *)
Fixpoint stmt_edge (s : Stmt) : option (EdgeKind * WrittenPath) :=
  match s with
  | StmtImport path => Some (EdgeImport, path)
  | StmtRun path => Some (EdgeRun, path)
  | StmtPub s => stmt_edge s
  | StmtOther => None
  end.

(** [statement_edges], of a module's body. *)
Definition statement_edges (body : list Stmt) : list (EdgeKind * WrittenPath) := omap stmt_edge body.

(** ** What loading builds *)

(** [Edge]. *)
Record Edge := MkEdge { kind : EdgeKind; edge_span : Span; target : FileId }.

(** [LoadedModule]; the parse errors are of a type of the parser's. *)
Record LoadedModule {PE : Type} := MkLoadedModule {
  module_file : FileId;
  ast : option (list Stmt);
  parse_errors : list PE;
  edges : list Edge
}.
Arguments LoadedModule : clear implicits.

(** [ModuleFile]. *)
Record ModuleFile := MkModuleFile { mf_path : bytes; mf_text : bytes }.

(** [MissingModule]. *)
Inductive MissingModule :=
  | NoFile (file : bytes)
  | CaseMismatch (file found : bytes)
  | SameFile (file : bytes) (module : ModulePath)
  | Unreadable (file error : bytes).

(** [CycleStep]. *)
Record CycleStep := MkCycleStep {
  step_span : Span;
  step_kind : EdgeKind;
  from : bytes;
  to : bytes
}.

(** [LoadError]. *)
Inductive LoadError :=
  | Missing (span : Span) (module : ModulePath) (why : MissingModule)
  | NoStdModule (span : Span) (module : ModulePath)
  | Cycle (steps : list CycleStep).

(** [LoadError::span]. *)
Definition load_error_span (e : LoadError) : option Span :=
  match e with
  | Missing span _ _ | NoStdModule span _ => Some span
  | Cycle steps => step_span <$> head steps
  end.

(** ** [trait ModuleFiles] and [InMemory] *)

Class ModuleFiles (F : Type) := fetch : F -> ModulePath -> F * (ModuleFile + MissingModule).

Definition InMemory : Type := gmap ModulePath bytes.

(** [InMemory::with]: a panic on a segment that is no module name. *)
Definition with_module `{Logos} (debug : bool) (m : InMemory) (module text : bytes) : option InMemory :=
  let segments := split module in
  if forallb is_segment segments then
    p ← ModulePath_new debug segments; Some (<[p := text]> m)
  else None.

#[export] Instance in_memory_files : ModuleFiles InMemory := fun m module =>
  (m, match m !! module with
      | Some text => inl (MkModuleFile (relative_file module) text)
      | None => inr (NoFile (relative_file module))
      end).

(** ** [graph.rs] *)
Section Graph.
Context {PE : Type} (modules : list (LoadedModule PE)) (sources : SourceMap).

(** [key]. *)
Definition key (file : FileId) : option (option ModulePath) := source_module sources file.

(** [module_name]. *)
Definition module_name (file : FileId) : option bytes :=
  m ← source_module sources file;
  match m with
  | Some module => Some (path_display module)
  | None => source_path sources file
  end.

(** The [index] of [cycles]: the position of each file's module. *)
Definition file_index : gmap FileId nat :=
  foldl (fun m '(i, file) => <[file := i]> m) ∅ (imap (fun i m => (i, module_file m)) modules).

(** The [successors] of [cycles]. *)
Definition graph_successors : option (list (list nat)) :=
  mapM (fun m => mapM (fun e => file_index !! target e) (edges m)) modules.

(** [key], of the module at a position. *)
Definition key_at (i : nat) : option (option ModulePath) :=
  m ← modules !! i; key (module_file m).

(** [component.sort_by_key], and the sort of the components by their first module. *)
Definition sort_component (c : list nat) : option (list nat) :=
  keyed ← mapM (fun i => k ← key_at i; Some (k, i)) c;
  Some (map snd (sort_keys fst keyed)).

Definition sort_components (cs : list (list nat)) : option (list (list nat)) :=
  keyed ← mapM (fun c => i ← head c; k ← key_at i; Some (k, c)) cs;
  Some (map snd (sort_keys fst keyed)).

Section Search.
Context (start : nat) (inside : list nat).

(** The inner loop of the search over the edges of [at_]: the edge that closes
    the cycle if there is one, and the queue and [via] otherwise. *)
Fixpoint scan_edges (at_ e : nat) (es : list Edge) (via : gmap nat (nat * nat)) (queue : list nat) :
    option (option nat * gmap nat (nat * nat) * list nat) :=
  match es with
  | [] => Some (None, via, queue)
  | edge :: es =>
      v ← file_index !! target edge;
      if v =? start then Some (Some e, via, queue)
      else if existsb (Nat.eqb v) inside && bool_decide (via !! v = None)
      then scan_edges at_ (S e) es (<[v := (at_, e)]> via) (queue ++ [v])
      else scan_edges at_ (S e) es via queue
  end.

(** The search: breadth first from [start] within the component. *)
Fixpoint search (fuel : nat) (via : gmap nat (nat * nat)) (queue : list nat) :
    option (option (nat * nat) * gmap nat (nat * nat)) :=
  match fuel with
  | O => None
  | S fuel =>
      match queue with
      | [] => Some (None, via)
      | at_ :: queue =>
          m ← modules !! at_;
          '(closing, via, queue) ← scan_edges at_ 0 (edges m) via queue;
          match closing with
          | Some e => Some (Some (at_, e), via)
          | None => search fuel via queue
          end
      end
  end.

(** The loop that reads the path back; it is built in order. *)
Fixpoint walk_back (fuel : nat) (via : gmap nat (nat * nat)) (at_ : nat) (path : list (nat * nat)) :
    option (list (nat * nat)) :=
  if at_ =? start then Some path
  else
    match fuel with
    | O => None
    | S fuel => '(u, e) ← via !! at_; walk_back fuel via u ((u, e) :: path)
    end.
End Search.

(** The statement of one step. *)
Definition cycle_step (u e : nat) : option CycleStep :=
  m ← modules !! u;
  edge ← edges m !! e;
  source_name ← module_name (module_file m);
  target_name ← module_name (target edge);
  Some (MkCycleStep (edge_span edge) (kind edge) source_name target_name).

(** The path of one component's cycle. *)
Definition cycle_path (component : list nat) : option (list (nat * nat)) :=
  start ← head component;
  '(closing, via) ← search start component (S (length modules)) ∅ [start];
  '(at_, e) ← closing;
  walk_back start (length modules) via at_ [(at_, e)].

(** [cycles]. *)
Definition cycles : option (list LoadError) :=
  successors ← graph_successors;
  components ← cyclic_components (length modules) successors;
  components ← mapM sort_component components;
  components ← sort_components components;
  mapM (fun component =>
    path ← cycle_path component;
    steps ← mapM (fun '(u, e) => cycle_step u e) path;
    Some (Cycle steps)) components.

(** *** [link_order] *)

(** A [BTreeMap]'s iterator. *)
Definition in_order {V} (m : gmap FileId V) : list (FileId * V) := sort_keys fst (map_to_list m).

(** The initial [waiting]. *)
Definition waiting_on : gmap FileId (list FileId) :=
  foldl (fun w m => <[module_file m := set_of_list (map target (edges m))]> w) ∅ modules.

(** [dependents]. *)
Definition dependents_of (waiting : gmap FileId (list FileId)) : gmap FileId (list FileId) :=
  foldl (fun d '(file, targets) =>
    foldl (fun d t => <[t := default [] (d !! t) ++ [file]]> d) d targets) ∅ (in_order waiting).

(** [ready]: by key, then by file. *)
Abbreviation ReadySet := (list (option ModulePath * FileId)).

Definition ready_of (waiting : gmap FileId (list FileId)) : option ReadySet :=
  keyed ← mapM (fun '(file, _) => k ← key file; Some (k, file))
    (List.filter (fun '(_, targets) => match targets with [] => true | _ => false end) (in_order waiting));
  Some (set_of_list keyed).

(** One dependent of a module that was ordered. *)
Definition settle (file : FileId) (acc : option (gmap FileId (list FileId) * ReadySet)) (dependent : FileId) :
    option (gmap FileId (list FileId) * ReadySet) :=
  '(waiting, ready) ← acc;
  targets ← waiting !! dependent;
  let targets := set_remove file targets in
  let waiting := <[dependent := targets]> waiting in
  match targets with
  | [] => k ← key dependent; Some (waiting, set_insert (k, dependent) ready)
  | _ => Some (waiting, ready)
  end.

(** The loop of [link_order]. *)
Fixpoint order_loop (fuel : nat) (dependents waiting : gmap FileId (list FileId)) (ready : ReadySet)
    (order : list FileId) : option (list FileId) :=
  match fuel with
  | O => None
  | S fuel =>
      match ready with
      | [] => Some order
      | (_, file) :: ready =>
          '(waiting, ready) ← foldl (settle file) (Some (waiting, ready)) (default [] (dependents !! file));
          order_loop fuel dependents waiting ready (order ++ [file])
      end
  end.

(** [link_order], with its assertion. *)
Definition link_order : option (list FileId) :=
  let waiting := waiting_on in
  ready ← ready_of waiting;
  order ← order_loop (S (length modules)) (dependents_of waiting) waiting ready [];
  if length order =? length modules then Some order else None.
End Graph.

(** ** [load_with] *)

(** [RootFile]. *)
Record RootFile := MkRootFile { root_path : bytes; root_module : option ModulePath; root_text : bytes }.

(** [std_file]. *)
Definition std_file (module : ModulePath) (std : list (bytes * bytes)) : option ModuleFile :=
  '(_, text) ← List.find (fun entry => bool_decide (entry.1 = path_display module)) std;
  Some (MkModuleFile (lit "<std>/" ++ join_segments (lit "/") (tail module) ++ lit ".cambra") text).

Section Load.
Context {L : Logos} {F PE : Type} `{ModuleFiles F}.
Context (debug : bool) (std : list (bytes * bytes)).
Context (parse_module : FileId -> bytes -> option (list Stmt) * list PE).

(** What a path resolves to. *)
Abbreviation Resolved := (FileId + option MissingModule)%type.

(** The variables of [load_with]. *)
Record Loader := MkLoader {
  sources : SourceMap;
  resolved : gmap ModulePath Resolved;
  modules : list (LoadedModule PE);
  errors : list LoadError;
  pending : list FileId;
  files : F
}.

(** The [found] of the resolution, with the files after it. *)
Definition find_module (module : ModulePath) (f : F) : option (F * (ModuleFile + option MissingModule)) :=
  in_std ← is_std module;
  Some (if in_std : bool
        then (f, match std_file module std with Some file => inl file | None => inr None end)
        else let '(f, r) := fetch f module in
             (f, match r with inl file => inl file | inr why => inr (Some why) end)).

(** [resolved.entry(module).or_insert_with]. *)
Definition resolve (st : Loader) (module : ModulePath) : option (Loader * Resolved) :=
  match resolved st !! module with
  | Some t => Some (st, t)
  | None =>
      '(f, found) ← find_module module (files st);
      match found with
      | inl file =>
          '(added, sources) ← add_module (sources st) module (mf_path file) (mf_text file);
          Some (MkLoader sources (<[module := inl added]> (resolved st)) (modules st) (errors st)
                  (pending st ++ [added]) f, inl added)
      | inr why =>
          Some (MkLoader (sources st) (<[module := inr why]> (resolved st)) (modules st) (errors st)
                  (pending st) f, inr why)
      end
  end.

Definition push_load_error (st : Loader) (e : LoadError) : Loader :=
  MkLoader (sources st) (resolved st) (modules st) (errors st ++ [e]) (pending st) (files st).

(** One statement of a file. *)
Definition statement (acc : option (Loader * list Edge)) (s : EdgeKind * WrittenPath) :
    option (Loader * list Edge) :=
  '(st, edges) ← acc;
  let '(kind, written) := s in
  m ← to_path debug written;
  match m with
  | None => Some (st, edges)
  | Some module =>
      span ← written_span written;
      '(st, t) ← resolve st module;
      Some match t with
           | inl target => (st, edges ++ [MkEdge kind span target])
           | inr (Some why) => (push_load_error st (Missing span module why), edges)
           | inr None => (push_load_error st (NoStdModule span module), edges)
           end
  end.

(** One file, taken from the front of [pending]. *)
Definition load_file (st : Loader) (file : FileId) : option Loader :=
  text ← source_text (sources st) file;
  let '(value, parse_errors) := parse_module file text in
  '(st, edges) ← foldl statement (Some (st, [])) (statement_edges (default [] value));
  Some (MkLoader (sources st) (resolved st)
          (modules st ++ [MkLoadedModule PE file value parse_errors edges])
          (errors st) (pending st) (files st)).

(** The loop over [pending]. *)
Fixpoint load_loop (fuel : nat) (st : Loader) : option Loader :=
  match fuel with
  | O => None
  | S fuel =>
      match pending st with
      | [] => Some st
      | file :: rest =>
          st ← load_file (MkLoader (sources st) (resolved st) (modules st) (errors st) rest (files st)) file;
          load_loop fuel st
      end
  end.

(** The root: the loader before the loop. *)
Definition load_root (root : RootFile) (f : F) : option Loader :=
  match root_module root with
  | Some module =>
      '(file, s) ← add_module (MkSourceMap []) module (root_path root) (root_text root);
      Some (MkLoader s {[module := inl file]} [] [] [file] f)
  | None =>
      '(file, s) ← add (MkSourceMap []) (root_path root) (root_text root);
      Some (MkLoader s ∅ [] [] [file] f)
  end.

(** [LoadedProgram]. *)
Record LoadedProgram := MkLoadedProgram {
  program_sources : SourceMap;
  program_modules : list (LoadedModule PE);
  program_link_order : option (list FileId);
  program_errors : list LoadError
}.

Definition load_with (fuel : nat) (root : RootFile) (f : F) : option LoadedProgram :=
  st ← load_root root f;
  st ← load_loop fuel st;
  cyc ← cycles (modules st) (sources st);
  order ← match cyc with
          | [] => Some <$> link_order (modules st) (sources st)
          | _ => Some None
          end;
  Some (MkLoadedProgram (sources st) (modules st) order (errors st ++ cyc)).

(** [Iterator::find], of a test that may panic. *)
Fixpoint find_file (test : FileId -> option bool) (l : list FileId) : option (option FileId) :=
  match l with
  | [] => Some None
  | file :: l => b ← test file; if b : bool then Some (Some file) else find_file test l
  end.

(** [LoadedProgram::file_of]. *)
Definition file_of (p : LoadedProgram) (path : ModulePath) : option (option FileId) :=
  find_file (fun file => m ← source_module (program_sources p) file; Some (bool_decide (m = Some path)))
    (map module_file (program_modules p)).

(** [LoadedProgram::module]: a panic on a foreign file. *)
Definition program_module (p : LoadedProgram) (file : FileId) : option (LoadedModule PE) :=
  List.find (fun m => module_file m =? file) (program_modules p).

(** [LoadedProgram::edges]. *)
Definition program_edges (p : LoadedProgram) (file : FileId) : option (list (EdgeKind * FileId)) :=
  m ← program_module p file; Some (map (fun e => (kind e, target e)) (edges m)).

(** [LoadedProgram::parsed_cleanly]. *)
Definition parsed_cleanly (p : LoadedProgram) (file : FileId) : option bool :=
  m ← program_module p file; Some match parse_errors m with [] => true | _ => false end.

(** [LoadedProgram::compile_errors]: each file's parse errors, then loading's own. *)
Definition compile_errors (p : LoadedProgram) : list (PE + LoadError) :=
  concat (map (fun m => map inl (parse_errors m)) (program_modules p)) ++ map inr (program_errors p).
End Load.
