(* ===== verification/LinkFacts.v ===== *)
(** * Facts of [link_order]: a greedy topological order

    The graph of loaded modules, and the invariant of the loop of [link_order]:
    what is ordered, what each module still waits on, and which are ready. *)

From stdpp Require Import list gmap relations.
From Stdlib Require Import Sorting.Sorted.
From S2P Require Import Prelude Tokens ModulePaths Ordered Loading.
From S2P Require Import Graphs GraphProps.
Local Open Scope nat_scope.
Set Warnings "-clear-no-such-hyp".

(** ** Generic facts *)

(** A relation that leads from each element of a finite set into the set has a cycle. *)
Lemma total_on_cycle {A} `{EqDecision A} (R : A -> A -> Prop) (l : list A) :
  l <> [] -> (forall x, x ∈ l -> exists y, y ∈ l /\ R x y) -> exists x, tc R x x.
Proof.
  assert (exists n, length l <= n) as [n Hn] by eauto. revert l R Hn.
  induction n as [|n IH]; intros [|x l] R Hn Hne Htot; try done; simpl in Hn; [lia|].
  destruct (Htot x) as (y & Hy & Hxy); [set_solver|].
  destruct (decide (y = x)) as [->|Hyx]; [exists x; by apply tc_once|].
  set (R' := fun a b => R a b \/ R a x /\ R x b).
  assert (Hsub : forall a b, tc R' a b -> tc R a b).
  { intros a b. induction 1 as [a b [H|[H1 H2]]|a b c [H|[H1 H2]] _ IHt].
    - by apply tc_once.
    - eapply tc_l; [done|]. by apply tc_once.
    - by eapply tc_l.
    - eapply tc_l; [done|]. by eapply tc_l. }
  destruct (IH (filter (fun z => z <> x) l) R') as [z Hz].
  - pose proof (length_filter (fun z => z <> x) l). lia.
  - intros E. assert (y ∈ filter (fun z => z <> x) l) as Hf by (apply list_elem_of_filter; set_solver).
    rewrite E in Hf. set_solver.
  - intros z [Hzx Hz]%list_elem_of_filter. destruct (Htot z) as (w & Hw & Hzw); [set_solver|].
    destruct (decide (w = x)) as [->|Hwx].
    + exists y. split; [apply list_elem_of_filter; set_solver|]. by right.
    + exists w. split; [apply list_elem_of_filter; set_solver|]. by left.
  - exists z. by apply Hsub.
Qed.

(** A map built by inserting entries with distinct keys. *)
Lemma foldl_insert_lookup {A V} (f : A -> nat) (g : A -> V) (l : list A) (m : gmap nat V) k v :
  NoDup (map f l) ->
  foldl (fun m x => <[f x := g x]> m) m l !! k = Some v <->
  (exists x, x ∈ l /\ f x = k /\ g x = v) \/ (k ∉ map f l) /\ m !! k = Some v.
Proof.
  revert m. induction l as [|x l IH]; intros m Hnd; simpl; [set_solver|].
  apply NoDup_cons in Hnd as [Hx Hnd]. rewrite IH by done. rewrite not_elem_of_cons. split.
  - intros [(y & Hy & E)|[Hk Hm]]; [left; exists y; set_solver|].
    destruct (decide (f x = k)) as [<-|Hne].
    + rewrite lookup_insert_eq in Hm. injection Hm as Hm. left. exists x. set_solver.
    + rewrite lookup_insert_ne in Hm by done. right. naive_solver.
  - intros [(y & [->|Hy]%elem_of_cons & Hk & Hv)|[[Hk1 Hk2] Hm]].
    + right. subst k v. split; [done|]. apply lookup_insert_eq.
    + left. by exists y.
    + right. split; [done|]. by rewrite lookup_insert_ne.
Qed.

Lemma in_order_perm {V} (m : gmap nat V) : in_order m ≡ₚ map_to_list m.
Proof. apply sort_keys_perm. Qed.

Lemma elem_of_in_order {V} (m : gmap nat V) k v : (k, v) ∈ in_order m <-> m !! k = Some v.
Proof. by rewrite in_order_perm, elem_of_map_to_list. Qed.

Lemma NoDup_in_order {V} (m : gmap nat V) : NoDup (in_order m).*1.
Proof. rewrite in_order_perm. apply NoDup_fst_map_to_list. Qed.

(** ** Dependents *)

Lemma push_dependents file targets (d : gmap nat (list nat)) t :
  NoDup targets ->
  default [] (foldl (fun d t => <[t := default [] (d !! t) ++ [file]]> d) d targets !! t)
  = default [] (d !! t) ++ (if decide (t ∈ targets) then [file] else []).
Proof.
  revert d. induction targets as [|u targets IH]; intros d Hnd; simpl; [by rewrite app_nil_r|].
  apply NoDup_cons in Hnd as [Hu Hnd]. rewrite IH by done.
  destruct (decide (u = t)) as [->|Hne].
  - rewrite lookup_insert_eq. simpl. rewrite decide_False by done.
    rewrite decide_True by set_solver. by rewrite app_nil_r.
  - rewrite lookup_insert_ne by done. by destruct (decide (t ∈ targets)), (decide (t ∈ u :: targets)); set_solver.
Qed.

Lemma dependents_fold (es : list (nat * list nat)) (d : gmap nat (list nat)) t :
  Forall (fun e => NoDup e.2) es ->
  default [] (foldl (fun d '(file, targets) =>
    foldl (fun d t => <[t := default [] (d !! t) ++ [file]]> d) d targets) d es !! t)
  = default [] (d !! t) ++ (filter (fun e => t ∈ e.2) es).*1.
Proof.
  revert d. induction es as [|[f ts] es IH]; intros d H; simpl; [by rewrite app_nil_r|].
  apply Forall_cons in H as [Hts H]. rewrite IH, push_dependents by done. rewrite <- app_assoc. f_equal.
  rewrite filter_cons. simpl. by case_decide.
Qed.

Section Dependents.
Context (w : gmap nat (list nat)) (Hw : forall f ts, w !! f = Some ts -> NoDup ts).

Lemma dependents_eq t : default [] (dependents_of w !! t) = (filter (fun e => t ∈ e.2) (in_order w)).*1.
Proof.
  unfold dependents_of. rewrite dependents_fold; [by rewrite lookup_empty|].
  apply Forall_forall. intros [f ts] Hin. apply elem_of_in_order in Hin. simpl. eauto.
Qed.

Lemma elem_of_dependents f t :
  f ∈ default [] (dependents_of w !! t) <-> exists ts, w !! f = Some ts /\ t ∈ ts.
Proof.
  rewrite dependents_eq, list_elem_of_fmap. split.
  - intros ([g ts] & -> & [Ht Hin]%list_elem_of_filter). apply elem_of_in_order in Hin. eauto.
  - intros (ts & Hf & Ht). exists (f, ts). split; [done|]. apply list_elem_of_filter.
    split; [done|]. by apply elem_of_in_order.
Qed.

Lemma NoDup_dependents t : NoDup (default [] (dependents_of w !! t)).
Proof.
  rewrite dependents_eq. apply (sublist_NoDup _ ((in_order w).*1)); [apply NoDup_in_order|].
  apply fmap_sublist, sublist_filter.
Qed.
End Dependents.

(** ** One round of the loop *)

Lemma settle_ok sources file ds w r :
  NoDup ds -> (forall d, d ∈ ds -> is_Some (w !! d) /\ is_Some (key sources d)) -> ascending r ->
  exists w' r', foldl (settle sources file) (Some (w, r)) ds = Some (w', r') /\
    (forall d, w' !! d = if decide (d ∈ ds) then set_remove file <$> w !! d else w !! d) /\
    ascending r' /\
    forall k d, (k, d) ∈ r' <->
      (k, d) ∈ r \/ d ∈ ds /\ key sources d = Some k /\ set_remove file <$> w !! d = Some [].
Proof.
  revert w r. induction ds as [|d ds IH]; intros w r Hnd Hds Hr; simpl.
  { exists w, r. split; [done|]. split; [done|]. split; [done|]. set_solver. }
  apply NoDup_cons in Hnd as [Hd Hnd]. destruct (Hds d) as [[ts Hts] [k Hk]]; [set_solver|].
  rewrite Hts, Hk. simpl. set (ts' := set_remove file ts). set (w1 := <[d := ts']> w).
  set (r1 := match ts' with [] => set_insert (k, d) r | _ => r end).
  assert (Hr1 : ascending r1) by (unfold r1; destruct ts'; [by apply ascending_insert|done]).
  destruct (IH w1 r1) as (w' & r' & E & Hw' & Hr' & Hin); [done| |done|].
  { intros d' Hd'. unfold w1. rewrite lookup_insert_ne by set_solver. apply Hds. set_solver. }
  exists w', r'. split.
  { rewrite <- E. f_equal. unfold w1, r1. by destruct ts'. }
  split; [|split; [done|]].
  - intros g. rewrite Hw'. unfold w1. destruct (decide (g = d)) as [->|Hne].
    + rewrite decide_False by done. rewrite decide_True by set_solver. by rewrite lookup_insert_eq, Hts.
    + rewrite lookup_insert_ne by done. by destruct (decide (g ∈ ds)), (decide (g ∈ d :: ds)); set_solver.
  - assert (Hr1in : forall k' g, (k', g) ∈ r1 <-> (k', g) ∈ r \/ (k', g) = (k, d) /\ ts' = []).
    { intros k' g. unfold r1. destruct ts'; [rewrite elem_of_set_insert; tauto|]. split; [by left|]. by intros [?|[_ ?]]. }
    intros k' g. rewrite Hin, Hr1in. destruct (decide (g = d)) as [->|Hne].
    + assert (d ∈ d :: ds) by set_solver. rewrite Hts, Hk. simpl. fold ts'. split.
      * intros [[?|[[= ->] ->]]|[? _]]; [by left|by right|done].
      * intros [?|(_ & [= ->] & [= ->])]; [by left; left|left; by right].
    + unfold w1. rewrite lookup_insert_ne by done. rewrite elem_of_cons. split.
      * intros [[?|[[= _ ->] _]]|[? ?]]; [by left|done|right; by split; [right|]].
      * intros [?|([?|?] & ?)]; [by left; left|done|by right].
Qed.

(** ** The module graph *)
Section Order.
Context {PE : Type} (modules : list (LoadedModule PE)) (sources : SourceMap).

(** The files of the modules. *)
Definition module_files : list FileId := map module_file modules.

(** A statement of [f] names the module of [g]. *)
Definition imports (f g : FileId) : Prop :=
  exists m e, m ∈ modules /\ module_file m = f /\ e ∈ edges m /\ target e = g.

(** What loading builds: one module per file, edges to loaded modules, and every
    file in the source map. *)
Record graph_ok : Prop := {
  graph_files : NoDup module_files;
  graph_edges : forall f g, imports f g -> g ∈ module_files;
  graph_keys : forall f, f ∈ module_files -> is_Some (key sources f)
}.

Definition acyclic : Prop := forall f, ~ tc imports f f.

(** [f] is ordered before [g] when both are ready. *)
Definition precedes (f g : FileId) : Prop := cmp (key sources f, f) (key sources g, g) = Lt.

(** All that [f] names is in [l]. *)
Definition satisfied (l : list FileId) (f : FileId) : Prop := forall g, imports f g -> g ∈ l.

(** Each module of [l] comes after all it names, and before every other that was
    ready when it was taken and that it precedes. *)
Definition greedy (l : list FileId) : Prop :=
  forall before f after, l = before ++ f :: after ->
    satisfied before f /\
    forall g, g ∈ module_files -> g ∉ before -> g <> f -> satisfied before g -> precedes f g.

Record ordering (done : list FileId) (w : gmap FileId (list FileId)) (r : list (option ModulePath * FileId)) : Prop := {
  ord_nodup : NoDup done;
  ord_files : forall f, f ∈ done -> f ∈ module_files;
  ord_wait : forall f, f ∈ module_files ->
    exists ts, w !! f = Some ts /\ forall t, t ∈ ts <-> imports f t /\ t ∉ done;
  ord_ascending : ascending r;
  ord_ready : forall k f, (k, f) ∈ r <->
    f ∈ module_files /\ (f ∉ done) /\ key sources f = Some k /\ satisfied done f;
  ord_greedy : greedy done
}.

Context (Hok : graph_ok).

Lemma waiting_lookup f ts :
  waiting_on modules !! f = Some ts <->
  exists m, m ∈ modules /\ module_file m = f /\ set_of_list (map target (edges m)) = ts.
Proof.
  unfold waiting_on. rewrite foldl_insert_lookup by apply (graph_files Hok). rewrite lookup_empty. naive_solver.
Qed.

Lemma module_of_file m m' : m ∈ modules -> m' ∈ modules -> module_file m = module_file m' -> m = m'.
Proof.
  pose proof (graph_files Hok) as Hnd. unfold module_files in Hnd. clear Hok.
  induction modules as [|n l IH]; [set_solver|]. simpl in Hnd. apply NoDup_cons in Hnd as [Hn Hnd].
  intros [->|Hm]%elem_of_cons [->|Hm']%elem_of_cons E; try done; [| |by apply IH].
  - destruct Hn. rewrite E. by apply list_elem_of_fmap_2.
  - destruct Hn. rewrite <- E. by apply list_elem_of_fmap_2.
Qed.

Lemma imports_target m t : m ∈ modules -> imports (module_file m) t <-> t ∈ map target (edges m).
Proof.
  intros Hm. rewrite list_elem_of_fmap. split.
  - intros (m' & e & Hm' & E & He & <-). apply module_of_file in E as ->; [|done..]. eauto.
  - intros (e & -> & He). exists m, e. auto.
Qed.

Lemma waiting_initial f ts : waiting_on modules !! f = Some ts -> NoDup ts /\ forall t, t ∈ ts <-> imports f t.
Proof.
  intros (m & Hm & <- & <-)%waiting_lookup. destruct (set_of_list_ok (map target (edges m))) as [Ha Hin].
  split; [by apply ascending_NoDup|]. intros t. by rewrite Hin, imports_target.
Qed.

Lemma waiting_file f : f ∈ module_files -> is_Some (waiting_on modules !! f).
Proof. intros (m & -> & Hm)%list_elem_of_fmap. eexists. apply waiting_lookup. eauto. Qed.

Lemma elem_of_dependents_initial f t :
  f ∈ default [] (dependents_of (waiting_on modules) !! t) <-> imports f t.
Proof.
  rewrite elem_of_dependents by (intros g ts Hg; by apply waiting_initial in Hg as [? _]). split.
  - intros (ts & Hf & Ht). by apply (waiting_initial f ts Hf).
  - intros Hi. destruct (waiting_file f) as [ts Hts].
    { destruct Hi as (m & e & Hm & <- & _). by apply list_elem_of_fmap_2. }
    exists ts. split; [done|]. by apply (waiting_initial f ts Hts).
Qed.

Lemma ordering_initial : exists r, ready_of sources (waiting_on modules) = Some r /\ ordering [] (waiting_on modules) r.
Proof.
  unfold ready_of. set (l := List.filter _ _).
  assert (Hl : forall f ts, (f, ts) ∈ l <-> waiting_on modules !! f = Some ts /\ ts = []).
  { intros f ts. unfold l. rewrite list_elem_of_In, List.filter_In, <- list_elem_of_In, elem_of_in_order.
    destruct ts; split; intros [? ?]; by split. }
  assert (Hf : forall f ts, waiting_on modules !! f = Some ts -> f ∈ module_files).
  { intros f ts (m & Hm & <- & _)%waiting_lookup. by apply list_elem_of_fmap_2. }
  destruct (mapM_some (fun '(file, _) => k ← key sources file; Some (k, file)) l) as (r & E & _).
  { intros [f ts] [Hw _]%Hl. destruct (graph_keys Hok f (Hf f ts Hw)) as [k Ek]. exists (k, f). by rewrite Ek. }
  rewrite E. eexists. split; [reflexivity|]. destruct (set_of_list_ok r) as [Ha Hin].
  split; try done; [constructor|set_solver| | |].
  - intros f Hfile. destruct (waiting_file f Hfile) as [ts Hts]. exists ts. split; [done|].
    intros t. rewrite (proj2 (waiting_initial f ts Hts)). set_solver.
  - intros k f. rewrite Hin, (elem_of_mapM _ _ _ _ E). split.
    + intros ([g ts] & [Hw ->]%Hl & Eg). destruct (key sources g) as [k'|] eqn:Ek; [|done].
      injection Eg as <- <-. split; [eauto|]. split; [set_solver|]. split; [done|].
      intros t Ht. by apply (waiting_initial g [] Hw) in Ht.
    + intros (Hfile & _ & Hk & Hs). destruct (waiting_file f Hfile) as [ts Hts]. exists (f, ts).
      rewrite Hl, Hk. split; [|done]. split; [done|]. destruct ts as [|t ts]; [done|].
      destruct (not_elem_of_nil t). apply Hs, (waiting_initial f _ Hts). set_solver.
  - intros before f after Eq. by destruct before.
Qed.

(** The order grows by the first ready module. *)
Lemma greedy_snoc done f k r w :
  ordering done w ((k, f) :: r) -> greedy (done ++ [f]).
Proof.
  intros Ho before g after E. destruct after as [|x after] using rev_ind.
  - apply app_inj_tail in E as [<- <-].
    destruct (proj1 (ord_ready _ _ _ Ho k f)) as (Hf & Hd & Hk & Hs); [set_solver|]. split; [done|].
    intros h Hh Hhd Hne Hsat. unfold precedes. destruct (graph_keys Hok h Hh) as [k' Hk']. rewrite Hk, Hk'.
    assert ((k', h) ∈ (k, f) :: r) as Hin by (apply (ord_ready _ _ _ Ho); auto).
    apply elem_of_cons in Hin as [Hin|Hin]; [congruence|].
    apply (ascending_head _ _ _ (ord_ascending _ _ _ Ho) Hin).
  - clear IHafter. rewrite app_comm_cons, app_assoc in E. apply app_inj_tail in E as [E _].
    by apply (ord_greedy _ _ _ Ho before g after).
Qed.

(** A module that waits on one not ordered is not ordered. *)
Lemma ordered_satisfied done w r f : ordering done w r -> f ∈ done -> satisfied done f.
Proof.
  intros Ho (b & a & ->)%list_elem_of_split. destruct (ord_greedy _ _ _ Ho b f a eq_refl) as [Hs _].
  intros g Hg. apply elem_of_app. left. by apply Hs.
Qed.

Lemma ordering_step done w k f r :
  ordering done w ((k, f) :: r) ->
  exists w' r',
    foldl (settle sources f) (Some (w, r)) (default [] (dependents_of (waiting_on modules) !! f)) = Some (w', r') /\
    ordering (done ++ [f]) w' r'.
Proof.
  intros Ho. destruct (proj1 (ord_ready _ _ _ Ho k f)) as (Hf & Hd & Hk & Hs); [set_solver|].
  assert (Hself : forall g, g ∈ done -> ~ imports g f).
  { intros g Hg Hi. by apply Hd, (ordered_satisfied _ _ _ g Ho Hg). }
  assert (Hloop : ~ imports f f) by (intros Hi; by apply Hd, Hs).
  assert (Hsrc : forall g t, imports g t -> g ∈ module_files).
  { intros g t (m & e & Hm & <- & _). by apply list_elem_of_fmap_2. }
  set (ds := default [] _). assert (Hds : forall d, d ∈ ds <-> imports d f) by (intros d; apply elem_of_dependents_initial).
  destruct (settle_ok sources f ds w r) as (w' & r' & E & Hw' & Ha & Hr').
  { apply NoDup_dependents. intros g ts Hg. by apply waiting_initial in Hg as [? _]. }
  { intros d Hi%Hds%Hsrc. destruct (ord_wait _ _ _ Ho d Hi) as (ts & -> & _).
    split; [by eexists|by apply (graph_keys Hok)]. }
  { by apply (ascending_tail (k, f)), (ord_ascending _ _ _ Ho). }
  exists w', r'. split; [done|]. split; [| | |done| |by eapply greedy_snoc].
  - apply NoDup_app. split; [apply (ord_nodup _ _ _ Ho)|]. split; [set_solver|apply NoDup_singleton].
  - intros g [Hg|Hg]%elem_of_app; [by apply (ord_files _ _ _ Ho)|set_solver].
  - intros g Hg. destruct (ord_wait _ _ _ Ho g Hg) as (ts & Hts & Hin). rewrite Hw', Hts.
    destruct (decide (g ∈ ds)) as [Hi|Hi]; (eexists; split; [reflexivity|]); intros t.
    + rewrite elem_of_set_remove, Hin, not_elem_of_app, list_elem_of_singleton. naive_solver.
    + rewrite Hin, not_elem_of_app, list_elem_of_singleton. rewrite Hds in Hi. naive_solver.
  - intros k' g. rewrite Hr'.
    assert (Hold : (k', g) ∈ r <-> (k', g) ∈ (k, f) :: r /\ g <> f).
    { rewrite elem_of_cons. split; [intros Hin; split; [by right|]|naive_solver].
      intros ->. assert ((k', f) ∈ (k, f) :: r) as Hin' by (by right).
      apply (ord_ready _ _ _ Ho) in Hin' as (_ & _ & Hk' & _). assert (k' = k) as -> by congruence.
      by pose proof (cmp_irrefl (k, f) (ascending_head _ _ _ (ord_ascending _ _ _ Ho) Hin)). }
    rewrite Hold, (ord_ready _ _ _ Ho), not_elem_of_app, list_elem_of_singleton. split.
    + intros [((? & ? & ? & Hsat) & ?)|(Hi & Hk' & Hts)].
      * repeat split; try done. intros t Ht. apply elem_of_app. left. by apply Hsat.
      * apply Hds in Hi. pose proof (Hsrc g f Hi) as Hg. repeat split; try done.
        -- intros Hgd. by apply (Hself g Hgd).
        -- congruence.
        -- destruct (ord_wait _ _ _ Ho g Hg) as (ts & Ets & Hin). rewrite Ets in Hts. injection Hts as Hts.
           intros t Ht. apply elem_of_app. destruct (decide (t ∈ done)) as [|Hn]; [by left|right].
           apply list_elem_of_singleton. destruct (decide (t = f)) as [|Hne]; [done|].
           assert (t ∈ set_remove f ts) as Hc by (apply elem_of_set_remove; split; [done|]; by apply Hin).
           rewrite Hts in Hc. by apply not_elem_of_nil in Hc.
    + intros (Hg & [Hgd Hne] & Hk' & Hsat). destruct (decide (g ∈ ds)) as [Hi|Hi].
      * right. split; [done|]. split; [done|]. destruct (ord_wait _ _ _ Ho g Hg) as (ts & -> & Hin). simpl. f_equal.
        destruct (set_remove f ts) as [|t l] eqn:Er; [done|].
        assert (t ∈ set_remove f ts) as Ht by (rewrite Er; set_solver).
        apply elem_of_set_remove in Ht as [Htf [Hit Htd]%Hin]. apply Hsat in Hit. set_solver.
      * left. repeat split; try done. intros t Ht. pose proof (Hsat t Ht) as [|Htf]%elem_of_app; [done|].
        apply list_elem_of_singleton in Htf as ->. by destruct Hi; apply Hds.
Qed.

Lemma done_length done w r : ordering done w r -> length done <= length module_files.
Proof.
  intros Ho. apply submseteq_length, NoDup_submseteq; [apply (ord_nodup _ _ _ Ho)|apply (ord_files _ _ _ Ho)].
Qed.

Lemma order_loop_ok n done w r :
  ordering done w r -> length module_files < n + length done ->
  exists order w', order_loop sources n (dependents_of (waiting_on modules)) w r done = Some order /\ ordering order w' [].
Proof.
  revert done w r. induction n as [|n IH]; intros done w r Ho Hn.
  { pose proof (done_length _ _ _ Ho). lia. }
  destruct r as [|[k f] r]; simpl; [by exists done, w|].
  destruct (ordering_step _ _ _ _ _ Ho) as (w' & r' & -> & Ho'). simpl.
  apply (IH _ _ _ Ho'). rewrite length_app. simpl. lia.
Qed.

(** When nothing is ready, all modules are ordered or some lie on a cycle. *)
Lemma ordering_final order w : acyclic -> ordering order w [] -> order ≡ₚ module_files.
Proof.
  intros Hac Ho. apply NoDup_Permutation; [apply (ord_nodup _ _ _ Ho)|apply (graph_files Hok)|].
  intros f. split; [apply (ord_files _ _ _ Ho)|]. intros Hf.
  destruct (decide (f ∈ order)) as [|Hn]; [done|]. exfalso.
  destruct (total_on_cycle imports (filter (fun g => g ∉ order) module_files)) as [g Hg].
  - intros E. destruct (not_elem_of_nil f). rewrite <- E. by apply list_elem_of_filter.
  - intros g [Hg Hgf]%list_elem_of_filter. destruct (ord_wait _ _ _ Ho g Hgf) as (ts & _ & Hin).
    destruct (graph_keys Hok g Hgf) as [k Hk]. destruct ts as [|t ts].
    + destruct (not_elem_of_nil (k, g)). apply (ord_ready _ _ _ Ho). repeat split; try done.
      intros t Ht. destruct (decide (t ∈ order)) as [|Hnt]; [done|].
      destruct (not_elem_of_nil t). by apply Hin.
    + destruct (proj1 (Hin t)) as [Hi Ht]; [set_solver|]. exists t. split; [|done].
      apply list_elem_of_filter. split; [done|]. by apply (graph_edges Hok g).
  - by apply (Hac g).
Qed.

Lemma link_order_ok :
  acyclic -> exists order, link_order modules sources = Some order /\ order ≡ₚ module_files /\ greedy order.
Proof.
  intros Hac. unfold link_order. destruct ordering_initial as (r & -> & Ho). cbn [mbind option_bind].
  assert (length module_files = length modules) as Hlen by apply length_map.
  destruct (order_loop_ok (S (length modules)) _ _ _ Ho) as (order & w & -> & Hfin); [simpl; lia|].
  pose proof (ordering_final _ _ Hac Hfin) as Hp. cbn [mbind option_bind].
  rewrite (Permutation_length Hp), Hlen, Nat.eqb_refl. exists order.
  split; [done|]. split; [done|]. apply (ord_greedy _ _ _ Hfin).
Qed.
End Order.

(** * Facts of [cycles]: a breadth-first search finds a shortest cycle

    The graph over the positions of the modules, and the invariant of the search:
    distances from the start are settled in order. *)

Lemma rtc_ext {A} (R S : A -> A -> Prop) x y : (forall a b, R a b <-> S a b) -> rtc R x y <-> rtc S x y.
Proof.
  intros H. split; induction 1 as [|a b c Hab _ IH]; try reflexivity; eapply rtc_l; try done; by apply H.
Qed.

Section Cycles.
Context {PE : Type} (modules : list (LoadedModule PE)) (sources : SourceMap) (Hok : graph_ok modules sources).

(** Edge [e] of the module at [u] names the module at [v]. *)
Definition step (u e v : nat) : Prop :=
  exists m edge, modules !! u = Some m /\ edges m !! e = Some edge /\ file_index modules !! target edge = Some v.

Definition leads (u v : nat) : Prop := exists e, step u e v.

(** A path of statements from [u] to [v], each by its module and edge. *)
Fixpoint walk (u : nat) (p : list (nat * nat)) (v : nat) : Prop :=
  match p with
  | [] => u = v
  | (x, e) :: p => x = u /\ exists w, step u e w /\ walk w p v
  end.

Lemma walk_snoc u p v e w : walk u p v -> step v e w -> walk u (p ++ [(v, e)]) w.
Proof.
  revert u. induction p as [|[x f] p IH]; intros u; simpl.
  - intros ->. eauto.
  - intros [-> (y & Hy & Hp)] Hs. eauto.
Qed.

(** ** The graph over positions *)

Lemma file_index_lookup f i :
  file_index modules !! f = Some i <-> exists m, modules !! i = Some m /\ module_file m = f.
Proof.
  set (l := imap (fun i m => (i, module_file m)) modules).
  assert (file_index modules = foldl (fun m x => <[x.2 := x.1]> m) ∅ l) as ->.
  { unfold file_index. fold l. generalize (∅ : gmap FileId nat).
    induction l as [|[j g] l IH]; intros m; simpl; [done|]. apply IH. }
  assert (map snd l = module_files modules) as Hs.
  { unfold l, module_files. change (snd <$> imap (fun i m => (i, module_file m)) modules = module_file <$> modules).
    rewrite fmap_imap. rewrite (imap_ext _ (fun _ => module_file)) by done. clear. induction modules as [|m l IH]; [done|]. 
    simpl. f_equal. exact IH. }
  rewrite foldl_insert_lookup; [|change (NoDup (map snd l)); rewrite Hs; apply (graph_files _ _ Hok)]. rewrite lookup_empty. split.
  - intros [([j g] & Hin & <- & <-)|[_ ?]]; [|done]. apply elem_of_lookup_imap in Hin as (k & m & [= -> ->] & Hm). eauto.
  - intros (m & Hm & <-). left. exists (i, module_file m). split; [|done]. apply elem_of_lookup_imap. eauto.
Qed.

Lemma step_imports u e v : step u e v -> exists m n, modules !! u = Some m /\ modules !! v = Some n /\ imports modules (module_file m) (module_file n).
Proof.
  intros (m & edge & Hm & He & (n & Hn & E)%file_index_lookup). exists m, n. split; [done|]. split; [done|].
  exists m, edge. split; [by eapply list_elem_of_lookup_2|]. split; [done|]. split; [by eapply list_elem_of_lookup_2|done].
Qed.

Lemma successors_total : exists succ, graph_successors modules = Some succ /\ length succ = length modules /\
  forall u v, edge succ u v <-> leads u v.
Proof.
  unfold graph_successors.
  destruct (mapM_some (fun m => mapM (fun e => file_index modules !! target e) (edges m)) modules) as (succ & E & HF).
  { intros m Hm. destruct (mapM_some (fun e => file_index modules !! target e) (edges m)) as (r & -> & _); [|by eexists].
    intros e He. assert (target e ∈ module_files modules) as Ht.
    { apply (graph_edges _ _ Hok (module_file m)). exists m, e. auto. }
    apply list_elem_of_fmap in Ht as (n & Hn & Hin). apply list_elem_of_lookup in Hin as [i Hi].
    exists i. apply file_index_lookup. eauto. }
  exists succ. split; [done|]. split; [by apply Forall2_length in HF|]. intros u v. split.
  - intros (ws & Hws & Hv). destruct (Forall2_lookup_r _ _ _ _ _ HF Hws) as (m & Hm & Hmap).
    apply list_elem_of_lookup in Hv as [e He]. apply mapM_Some in Hmap.
    destruct (Forall2_lookup_r _ _ _ _ _ Hmap He) as (edge & Hedge & Hv). exists e, m, edge. auto.
  - intros (e & m & edge & Hm & He & Hv). destruct (Forall2_lookup_l _ _ _ _ _ HF Hm) as (ws & Hws & Hmap).
    apply mapM_Some in Hmap. destruct (Forall2_lookup_l _ _ _ _ _ Hmap He) as (v' & Hv' & E').
    exists ws. split; [done|]. rewrite Hv in E'. injection E' as <-. by eapply list_elem_of_lookup_2.
Qed.

(** ** The search *)
Section Search.
Context (start : nat) (inside : list nat).
Context (Hinside : forall x y, x ∈ inside -> (y ∈ inside <-> rtc leads x y /\ rtc leads y x)).
Context (Hstart : start ∈ inside) (Hrange : forall x, x ∈ inside -> x < length modules).
Context (Hcyclic : exists z, leads start z /\ rtc leads z start).

(** A step within the component. *)
Definition stays (u v : nat) : Prop := leads u v /\ v ∈ inside.

Lemma stays_back u v : u ∈ inside -> leads u v -> rtc leads v start -> stays u v.
Proof.
  intros Hu Huv Hv. split; [done|]. apply (Hinside start v Hstart). split; [|done].
  eapply rtc_r; [|done]. by apply (Hinside start u Hstart).
Qed.

Lemma nsteps_stays n u : u ∈ inside -> nsteps leads n u start -> nsteps stays n u start.
Proof.
  revert u. induction n as [|n IH]; intros u Hu H; inversion H as [|? ? w ? Huw Hw]; subst; [constructor|].
  assert (stays u w) as Hs by (apply stays_back; [done..|by eapply rtc_nsteps_2]).
  econstructor; [done|]. apply IH; [apply Hs|done].
Qed.

(** [scanned]: the edges gone through; [D]: distances; [d]: that of the vertex at
    the front. *)
Record searching (scanned : nat -> nat -> Prop) (d : nat) (popped queue : list nat)
    (via : gmap nat (nat * nat)) (D : nat -> nat) : Prop := {
  s_nodup : NoDup (popped ++ queue);
  s_inside : forall v, v ∈ popped ++ queue -> v ∈ inside;
  s_start : start ∈ popped ++ queue /\ D start = 0;
  s_via : forall v u e, via !! v = Some (u, e) ->
    v <> start /\ v ∈ popped ++ queue /\ u ∈ popped /\ step u e v /\ D v = S (D u);
  s_seen : forall v, v ∈ popped ++ queue -> v = start \/ is_Some (via !! v);
  s_bound : forall v, v ∈ popped ++ queue -> D v <= length popped;
  s_sorted : StronglySorted (fun a b => D a <= D b) queue;
  s_window : forall v, v ∈ queue -> d <= D v <= S d;
  s_popped : forall v, v ∈ popped -> D v <= d;
  s_closed : forall u e v, u ∈ popped -> scanned u e -> step u e v -> v ∈ inside ->
    v <> start /\ v ∈ popped ++ queue /\ D v <= S (D u);
  s_short : forall v k, v ∈ popped -> nsteps stays k start v -> D v <= k
}.

Lemma searching_sub (P Q : nat -> nat -> Prop) d popped queue via D :
  (forall u e v, u ∈ popped -> Q u e -> step u e v -> v ∈ inside -> P u e \/ v <> start /\ v ∈ popped ++ queue /\ D v <= S (D u)) ->
  searching P d popped queue via D -> searching Q d popped queue via D.
Proof.
  intros HPQ []. split; try done. intros u e v Hu Hq Hs Hv. destruct (HPQ u e v Hu Hq Hs Hv); [eauto|done].
Qed.

(** A new vertex at the end of the queue. *)
Lemma searching_push P d popped queue via D at_ e v :
  searching P d popped queue via D -> at_ ∈ popped -> D at_ = d -> d < length popped ->
  step at_ e v -> v ∈ inside -> v <> start -> via !! v = None ->
  exists D', D' at_ = d /\ D' v = S d /\ (forall x, x ∈ popped ++ queue -> D' x = D x) /\
    searching P d popped (queue ++ [v]) (<[v := (at_, e)]> via) D'.
Proof.
  intros Hb Hat Hd Hlt Hs Hv Hne Hnone. destruct Hb as [Hnd Hin [Hst Hst0] Hvia Hseen Hbd Hso Hw Hpo Hcl Hsh].
  assert (Hfresh : v ∉ popped ++ queue).
  { intros Hin'. apply Hseen in Hin' as [->|[? ?]]; [done|congruence]. }
  exists (fun x => if decide (x = v) then S d else D x).
  assert (Hsame : forall x, x ∈ popped ++ queue -> (if decide (x = v) then S d else D x) = D x).
  { intros x Hx. rewrite decide_False; [done|]. by intros ->. }
  assert (Hp : forall x, x ∈ popped -> x ∈ popped ++ queue) by set_solver.
  assert (Hq : forall x, x ∈ queue -> x ∈ popped ++ queue) by set_solver.
  split; [by rewrite Hsame by auto|]. split; [by rewrite decide_True|]. split; [done|].
  assert (Hsplit : forall x, x ∈ popped ++ queue ++ [v] <-> x ∈ popped ++ queue \/ x = v) by set_solver.
  split.
  - rewrite app_assoc. apply NoDup_app. split; [done|]. split; [|apply NoDup_singleton].
    intros x Hx ->%list_elem_of_singleton. done.
  - intros x [Hx| ->]%Hsplit; auto.
  - rewrite Hsplit, Hsame by done. auto.
  - intros x u f Hx. destruct (decide (x = v)) as [->|Hxv].
    + rewrite lookup_insert_eq in Hx. injection Hx as <- <-. rewrite Hsplit, Hsame by auto. subst d. auto.
    + rewrite lookup_insert_ne in Hx by done. destruct (Hvia x u f Hx) as (? & ? & ? & ? & ?).
      rewrite Hsplit, Hsame by auto. auto 6.
  - intros x [Hx| ->]%Hsplit; [|right; rewrite lookup_insert_eq; by eexists].
    destruct (Hseen x Hx) as [|Hx']; [by left|right]. rewrite lookup_insert_ne; [done|]. intros ->. done.
  - intros x [Hx| ->]%Hsplit; [rewrite Hsame by done; auto|rewrite decide_True by done; lia].
  - clear - Hso Hw Hsame Hq. induction Hso as [|a l Hl IH Ha]; simpl; [repeat constructor|]. constructor.
    + apply IH; set_solver.
    + apply Forall_forall. intros x Hx. rewrite (Hsame a) by set_solver. apply elem_of_app in Hx as [Hx|Hx].
      * rewrite Hsame by set_solver. by apply (proj1 (Forall_forall _ _) Ha).
      * apply list_elem_of_singleton in Hx as ->. rewrite decide_True by done. apply Hw. set_solver.
  - intros x [Hx| ->%list_elem_of_singleton]%elem_of_app; [rewrite Hsame by auto; auto|rewrite decide_True by done; lia].
  - intros x Hx. rewrite Hsame by auto. auto.
  - intros u f x Hu Hsc Hux Hxin. destruct (Hcl u f x Hu Hsc Hux Hxin) as (? & ? & ?).
    rewrite Hsplit, !Hsame by auto. auto.
  - intros x k Hx Hk. rewrite Hsame by auto. by apply Hsh.
Qed.

Lemma existsb_elem v (l : list nat) : existsb (Nat.eqb v) l = true <-> v ∈ l.
Proof.
  rewrite existsb_exists. split; [by intros (x & ?%list_elem_of_In & ->%Nat.eqb_eq)|].
  intros Hv%list_elem_of_In. exists v. by rewrite Nat.eqb_refl.
Qed.

(** One more edge of [at_] gone through. *)
Lemma scanned_next at_ e d popped queue via D :
  (forall v, step at_ e v -> v ∈ inside -> v <> start /\ v ∈ popped ++ queue /\ D v <= S (D at_)) ->
  searching (fun u f => u <> at_ \/ f < e) d popped queue via D ->
  searching (fun u f => u <> at_ \/ f < S e) d popped queue via D.
Proof.
  intros He. apply searching_sub. intros u f v _ [?|Hf] Hs Hv; [by left; left|].
  destruct (decide (u = at_)) as [->|]; [|by left; left].
  destruct (decide (f = e)) as [->|]; [right; by apply He|left; right; lia].
Qed.

Lemma edge_target m e edge : m ∈ modules -> edges m !! e = Some edge -> is_Some (file_index modules !! target edge).
Proof.
  intros Hm He. assert (target edge ∈ module_files modules) as Ht.
  { apply (graph_edges _ _ Hok (module_file m)). exists m, edge.
    repeat split; try done. by eapply list_elem_of_lookup_2. }
  apply list_elem_of_fmap in Ht as (n & Hn & Hin). apply list_elem_of_lookup in Hin as [v Hv].
  exists v. apply file_index_lookup. eauto.
Qed.

Lemma step_det u e v v' : step u e v -> step u e v' -> v = v'.
Proof. intros (m & x & Hm & Hx & Hv) (m' & x' & Hm' & Hx' & Hv'). by simplify_eq. Qed.

(** The edges of one vertex. *)
Lemma scan_edges_ok at_ m d popped : modules !! at_ = Some m -> at_ ∈ popped -> d < length popped ->
  forall es e via queue D, drop e (edges m) = es -> D at_ = d ->
  searching (fun u f => u <> at_ \/ f < e) d popped queue via D ->
  exists closing via' queue' D',
    scan_edges modules start inside at_ e es via queue = Some (closing, via', queue') /\ D' at_ = d /\
    match closing with
    | Some f => step at_ f start /\ searching (fun u f => u <> at_) d popped queue' via' D'
    | None => searching (fun _ _ => True) d popped queue' via' D'
    end.
Proof.
  intros Hm Hat Hlt es. induction es as [|edge es IH]; intros e via queue D Hes Hd Hb; simpl.
  - exists None, via, queue, D. split; [done|]. split; [done|]. eapply searching_sub; [|exact Hb].
    intros u f v _ _ (m' & x & Hm' & Hx & _) _. left. destruct (decide (u = at_)) as [->|]; [|by left]. right.
    assert (m' = m) as -> by congruence. apply lookup_lt_Some in Hx.
    assert (length (edges m) - e = 0) by (rewrite <- length_drop, Hes; done). lia.
  - assert (edges m !! e = Some edge) as He by (rewrite <- (Nat.add_0_r e), <- lookup_drop, Hes; done).
    assert (drop (S e) (edges m) = es) as Hes' by (rewrite <- Nat.add_1_r, <- drop_drop, Hes; done).
    destruct (edge_target m e edge) as [v Hv]; [by eapply list_elem_of_lookup_2|done|].
    rewrite Hv. cbn [mbind option_bind]. assert (Hs : step at_ e v) by (exists m, edge; auto).
    destruct (Nat.eqb_spec v start) as [->|Hne].
    + exists (Some e), via, queue, D. split; [done|]. split; [done|]. split; [done|].
      eapply searching_sub; [|exact Hb]. intros u f x _ Hu _ _. by left; left.
    + destruct (existsb (Nat.eqb v) inside) eqn:Ei; [apply existsb_elem in Ei; simpl; case_bool_decide as Hnone|]; simpl.
      * destruct (searching_push _ _ _ _ _ _ at_ e v Hb Hat Hd Hlt Hs Ei Hne Hnone) as (D' & Hd' & Hdv & _ & Hb').
        apply (IH (S e) _ _ D' Hes' Hd'), scanned_next; [|done].
        intros x Hx _. rewrite (step_det _ _ _ _ Hx Hs). split; [done|]. split; [set_solver|lia].
      * apply (IH (S e) _ _ D Hes' Hd), scanned_next; [|done].
        intros x Hx _. rewrite (step_det _ _ _ _ Hx Hs). destruct (via !! v) as [[w g]|] eqn:Ew; [|done].
        destruct (s_via _ _ _ _ _ _ Hb v w g Ew) as (_ & Hseen & _). split; [done|]. split; [done|].
        apply elem_of_app in Hseen as [Hp|Hq]; [pose proof (s_popped _ _ _ _ _ _ Hb v Hp); lia|].
        pose proof (s_window _ _ _ _ _ _ Hb v Hq). lia.
      * apply (IH (S e) _ _ D Hes' Hd), scanned_next; [|done].
        intros x Hx Hin. rewrite (step_det _ _ _ _ Hx Hs) in Hin. apply existsb_elem in Hin. congruence.
Qed.

(** The front of the queue is as near as any vertex not yet taken. *)
Lemma front_nearest d popped at_ queue via D w k :
  searching (fun _ _ => True) d popped (at_ :: queue) via D ->
  w ∉ popped -> nsteps stays k start w -> D at_ <= k.
Proof.
  intros Hb. assert (Hfront : forall v, v ∉ popped -> v ∈ popped ++ at_ :: queue -> D at_ <= D v).
  { intros v Hv [?|[->|Hq]%elem_of_cons]%elem_of_app; [done|lia|].
    pose proof (s_sorted _ _ _ _ _ _ Hb) as [_ Hs]%StronglySorted_inv. by apply (proj1 (Forall_forall _ _) Hs). }
  revert w. induction k as [|k IH]; intros w Hw Hk.
  - inversion Hk; subst. destruct (s_start _ _ _ _ _ _ Hb) as [Hst H0]. rewrite <- H0. by apply Hfront.
  - apply nsteps_inv_r in Hk as (u & Hu & [(e & Hs) Hwin]).
    destruct (decide (u ∈ popped)) as [Hup|Hup]; [|pose proof (IH u Hup Hu); lia].
    pose proof (s_short _ _ _ _ _ _ Hb u k Hup Hu).
    destruct (s_closed _ _ _ _ _ _ Hb u e w Hup I Hs Hwin) as (_ & Hseen & Hd). pose proof (Hfront w Hw Hseen). lia.
Qed.

Lemma searching_pop d popped at_ queue via D :
  searching (fun _ _ => True) d popped (at_ :: queue) via D ->
  searching (fun u _ => u <> at_) (D at_) (popped ++ [at_]) queue via D.
Proof.
  intros Hb. assert (Hnear : forall k, nsteps stays k start at_ -> D at_ <= k).
  { intros k. apply (front_nearest d popped at_ queue via D at_ k Hb).
    pose proof (s_nodup _ _ _ _ _ _ Hb) as (_ & Hd & _)%NoDup_app. set_solver. }
  destruct Hb as [Hnd Hin Hst Hvia Hseen Hbd Hso Hw Hpo Hcl Hsh].
  assert (Heq : (popped ++ [at_]) ++ queue = popped ++ at_ :: queue) by (by rewrite <- app_assoc).
  apply StronglySorted_inv in Hso as [Hso Hat]. rewrite Forall_forall in Hat.
  assert (d <= D at_ <= S d) by (apply Hw; set_solver). split; rewrite ?Heq; try done.
  - intros v u e Hv. destruct (Hvia v u e Hv) as (? & ? & ? & ? & ?). repeat split; try done. set_solver.
  - intros v Hv. rewrite length_app. simpl. pose proof (Hbd v Hv). lia.
  - intros v Hv. pose proof (Hat v Hv). assert (D v <= S d) by (apply Hw; set_solver). simpl in *. lia.
  - intros v [Hv|Hv]%elem_of_app; [pose proof (Hpo v Hv); lia|]. apply list_elem_of_singleton in Hv as ->. done.
  - intros u e v [Hu|Hu]%elem_of_app Hne Hs Hv; [by apply (Hcl u e v Hu I)|].
    by apply list_elem_of_singleton in Hu as ->.
  - intros v k [Hv|Hv]%elem_of_app; [by apply Hsh|]. apply list_elem_of_singleton in Hv as ->. apply Hnear.
Qed.

(** With an empty queue the start would not lie on a cycle. *)
Lemma search_nonempty d popped via D : ~ searching (fun _ _ => True) d popped [] via D.
Proof.
  intros Hb. destruct (s_start _ _ _ _ _ _ Hb) as [Hst _]. rewrite app_nil_r in Hst.
  assert (Hno : forall u, rtc leads u start -> u ∈ popped -> u <> start -> False).
  { intros u Hu. remember start as t eqn:Et in Hu at 1. revert Et.
    induction Hu as [u|u v t Huv Hvt IH]; intros -> Hup Hne; [done|].
    assert (stays u v) as [(e & Hs) Hv].
    { apply stays_back; try done. apply (s_inside _ _ _ _ _ _ Hb). rewrite app_nil_r. done. }
    destruct (s_closed _ _ _ _ _ _ Hb u e v Hup I Hs Hv) as (Hne' & Hseen & _). rewrite app_nil_r in Hseen. eauto. }
  destruct Hcyclic as (z & Hz & Hback). assert (stays start z) as [(e & Hs) Hzin] by (by apply stays_back).
  destruct (s_closed _ _ _ _ _ _ Hb start e z Hst I Hs Hzin) as (Hne & Hseen & _). rewrite app_nil_r in Hseen. eauto.
Qed.

Lemma popped_length P d popped queue via D : searching P d popped queue via D -> length popped <= length modules.
Proof.
  intros Hb. rewrite <- (length_seq (length modules) 0). apply submseteq_length, NoDup_submseteq.
  - by pose proof (s_nodup _ _ _ _ _ _ Hb) as [? _]%NoDup_app.
  - intros v Hv. apply elem_of_seq. split; [lia|]. simpl. apply Hrange, (s_inside _ _ _ _ _ _ Hb). set_solver.
Qed.

Lemma search_ok n d popped queue via D :
  searching (fun _ _ => True) d popped queue via D -> length modules < n + length popped ->
  exists at_ e via' popped' queue' D',
    search modules start inside n via queue = Some (Some (at_, e), via') /\ step at_ e start /\
    searching (fun u _ => u <> at_) (D' at_) popped' queue' via' D' /\ at_ ∈ popped' /\ D' at_ < length popped' /\
    forall k, nsteps leads (S k) start start -> D' at_ <= k.
Proof.
  revert d popped queue via D. induction n as [|n IH]; intros d popped queue via D Hb Hn.
  { pose proof (popped_length _ _ _ _ _ _ Hb). lia. }
  destruct queue as [|at_ queue]; [by apply search_nonempty in Hb|]. cbn [search].
  assert (at_ ∈ inside) as Hin by (apply (s_inside _ _ _ _ _ _ Hb); set_solver).
  destruct (lookup_lt_is_Some_2 modules at_) as [m Hm]; [by apply Hrange|]. rewrite Hm. cbn [mbind option_bind].
  pose proof (searching_pop _ _ _ _ _ _ Hb) as Hp.
  assert (Hlt : D at_ < length (popped ++ [at_])).
  { rewrite length_app. simpl. assert (D at_ <= length popped) by (apply (s_bound _ _ _ _ _ _ Hb); set_solver). lia. }
  destruct (scan_edges_ok at_ m (D at_) (popped ++ [at_]) Hm ltac:(set_solver) Hlt (edges m) 0 via queue D) as
    (closing & via' & queue' & D' & -> & Hd' & Hc); [done|done| |].
  { eapply searching_sub; [|exact Hp]. intros u f v _ [?|?]; [by left|lia]. }
  cbn [mbind option_bind]. destruct closing as [e|].
  - destruct Hc as [Hs Hb']. exists at_, e, via', (popped ++ [at_]), queue', D'.
    rewrite Hd'. split; [done|]. split; [done|]. split; [done|]. split; [set_solver|]. split; [done|].
    intros k Hk. apply nsteps_stays, nsteps_inv_r in Hk as (w & Hw & [(f & Hf) _]); [|done].
    apply (front_nearest d popped at_ queue via D w k Hb); [|done]. intros Hwp.
    by destruct (s_closed _ _ _ _ _ _ Hb w f start Hwp I Hf Hstart) as [? _].
  - apply (IH _ _ _ _ _ Hc). rewrite length_app. simpl. lia.
Qed.

(** The path read back is as long as the distance. *)
Lemma walk_back_ok P d popped queue via D n v path :
  searching P d popped queue via D -> v ∈ popped ++ queue -> D v <= n ->
  exists p, walk_back start n via v path = Some (p ++ path) /\ walk start p v /\ length p = D v.
Proof.
  intros Hb. revert v path. induction n as [|n IH]; intros v path Hv Hn.
  - exists []. destruct (s_seen _ _ _ _ _ _ Hb v Hv) as [->|[[u e] Hu]].
    + simpl. rewrite Nat.eqb_refl. by rewrite (proj2 (s_start _ _ _ _ _ _ Hb)).
    + destruct (s_via _ _ _ _ _ _ Hb v u e Hu) as (_ & _ & _ & _ & E). lia.
  - cbn [walk_back]. destruct (Nat.eqb_spec v start) as [->|Hne].
    { exists []. by rewrite (proj2 (s_start _ _ _ _ _ _ Hb)). }
    destruct (s_seen _ _ _ _ _ _ Hb v Hv) as [->|[[u e] Hu]]; [done|]. rewrite Hu. cbn [mbind option_bind].
    destruct (s_via _ _ _ _ _ _ Hb v u e Hu) as (_ & _ & Hup & Hs & E).
    destruct (IH u ((u, e) :: path)) as (p & -> & Hw & Hl); [set_solver|lia|].
    exists (p ++ [(u, e)]). rewrite <- app_assoc. split; [done|]. split; [by apply walk_snoc|].
    rewrite length_app. simpl. lia.
Qed.

Lemma searching_initial : searching (fun _ _ => True) 0 [] [start] ∅ (fun _ => 0).
Proof.
  split; simpl.
  - apply NoDup_singleton.
  - by intros v ->%list_elem_of_singleton.
  - set_solver.
  - intros v u e. by rewrite lookup_empty.
  - intros v ->%list_elem_of_singleton. by left.
  - lia.
  - repeat constructor.
  - lia.
  - set_solver.
  - set_solver.
  - set_solver.
Qed.

(** The path of a cycle, as [cycle_path] builds it, is a shortest one. *)
Lemma search_path_ok :
  exists at_ e via p, search modules start inside (S (length modules)) ∅ [start] = Some (Some (at_, e), via) /\
    walk_back start (length modules) via at_ [(at_, e)] = Some p /\ p <> [] /\ walk start p start /\
    forall k, nsteps leads (S k) start start -> length p <= S k.
Proof.
  destruct (search_ok (S (length modules)) 0 [] [start] ∅ (fun _ => 0) searching_initial) as
    (at_ & e & via & popped & queue & D & -> & Hs & Hb & Hat & Hlt & Hmin); [simpl; lia|].
  pose proof (popped_length _ _ _ _ _ _ Hb).
  destruct (walk_back_ok _ _ _ _ _ _ (length modules) at_ [(at_, e)] Hb) as (p & E & Hw & Hl); [set_solver|lia|].
  exists at_, e, via, (p ++ [(at_, e)]). split; [done|]. split; [done|]. split; [by destruct p|].
  split; [by apply walk_snoc|]. intros k Hk. rewrite length_app. simpl. pose proof (Hmin k Hk). lia.
Qed.
End Search.
End Cycles.
