(* ===== verification/LinkProps.v ===== *)
(** * The contract of the module graph: cycles and link order

    An acyclic graph is linked in the one order that takes, at each point, the
    least module that is ready; a graph with cycles is refused with one error per
    component, each a shortest cycle through its least module. *)

From Stdlib Require Import Sorting.Sorted.
From stdpp Require Import list gmap relations.
From S2P Require Import Prelude Tokens ModulePaths Ordered Graphs GraphProps Loading LinkFacts.
Set Warnings "-clear-no-such-hyp".
Local Open Scope nat_scope.

(** ** Sorting with a key that may be missing *)

Lemma sort_keyed {A K} `{OrdLaws K} (f : A -> option K) l :
  (forall x, x ∈ l -> is_Some (f x)) ->
  exists keyed, mapM (fun x => k ← f x; Some (k, x)) l = Some keyed /\
    map snd (sort_keys fst keyed) ≡ₚ l /\
    StronglySorted (fun x y => cmp (f x) (f y) <> Gt) (map snd (sort_keys fst keyed)).
Proof.
  intros Hl. destruct (mapM_some (fun x => k ← f x; Some (k, x)) l) as (keyed & E & HF).
  { intros x Hx. destruct (Hl x Hx) as [k ->]. by eexists. }
  exists keyed. split; [done|]. assert (Hk : forall p, p ∈ keyed -> f p.2 = Some p.1).
  { intros [k x] (y & Hy & Ey)%(elem_of_mapM _ _ _ _ E). by destruct (f y) eqn:Ef; simplify_eq/=. }
  split.
  - rewrite (Permutation_map snd (sort_keys_perm fst keyed)). clear -HF.
    induction HF as [|x [k y] l r Hx _ IH]; [done|]. simpl. destruct (f x); simplify_eq/=. by constructor.
  - pose proof (sort_keys_sorted fst keyed) as Hs. assert (forall p, p ∈ sort_keys fst keyed -> f p.2 = Some p.1) as Hk'.
    { intros p. rewrite sort_keys_perm. apply Hk. }
    induction Hs as [|p r Hr IH Hp]; simpl; constructor; [apply IH; set_solver|].
    apply Forall_forall. intros x (q & -> & Hq)%list_elem_of_fmap.
    rewrite (Hk' p), (Hk' q) by set_solver. by apply (proj1 (Forall_forall _ _) Hp).
Qed.

Section Props.
Context {PE : Type} (modules : list (LoadedModule PE)) (sources : SourceMap).

(** A module from which a statement leads back to it. *)
Definition on_cycle (i : nat) : Prop := exists z, leads modules i z /\ rtc (leads modules) z i.

(** [c], with its least module first, is a component of mutual reachability, and
    [e] reports a shortest cycle through that module. *)
Definition reports (c : list nat) (e : LoadError) : Prop :=
  exists start rest p steps, c = start :: rest /\ e = Cycle steps /\
    mapM (fun '(u, i) => cycle_step modules sources u i) p = Some steps /\
    p <> [] /\ walk modules start p start /\
    (forall k, nsteps (leads modules) (S k) start start -> length p <= S k) /\
    (forall i, i ∈ rest -> cmp (key_at modules sources start) (key_at modules sources i) <> Gt) /\
    forall x y, x ∈ c -> (y ∈ c <-> rtc (leads modules) x y /\ rtc (leads modules) y x).

Context (Hok : graph_ok modules sources).

Lemma key_at_some i : i < length modules -> is_Some (key_at modules sources i).
Proof.
  intros Hi. destruct (lookup_lt_is_Some_2 modules i Hi) as [m Hm]. unfold key_at. rewrite Hm. simpl.
  apply (graph_keys _ _ Hok). apply list_elem_of_fmap_2. by eapply list_elem_of_lookup_2.
Qed.

Lemma module_name_some f : f ∈ module_files modules -> is_Some (module_name sources f).
Proof.
  intros Hf. destruct (graph_keys _ _ Hok f Hf) as [k Hk]. unfold module_name, key in *. rewrite Hk. simpl.
  destruct k; [by eexists|]. unfold source_module, source_path in *. destruct (source_file sources f); [by eexists|done].
Qed.

Lemma walk_steps u p v : walk modules u p v ->
  exists steps, mapM (fun '(u, e) => cycle_step modules sources u e) p = Some steps.
Proof.
  intros Hw. destruct (mapM_some (fun '(u, e) => cycle_step modules sources u e) p) as (r & E & _); [|eauto].
  revert u Hw. induction p as [|[x e] p IH]; intros u; [set_solver|].
  intros [-> (w & Hs & Hw)] [y f] [[= -> ->]|Hin]%elem_of_cons; [|by apply (IH w Hw (y, f))].
  destruct Hs as (m & edge & Hm & He & _). unfold cycle_step. rewrite Hm. simpl. rewrite He. simpl.
  assert (m ∈ modules) as Hmm by (by eapply list_elem_of_lookup_2).
  destruct (module_name_some (module_file m)) as [n1 ->]; [by apply list_elem_of_fmap_2|].
  destruct (module_name_some (target edge)) as [n2 ->]; [|by eexists].
  apply (graph_edges _ _ Hok (module_file m)). exists m, edge.
  repeat split; try done. by eapply list_elem_of_lookup_2.
Qed.

(** One component, from its sorting to its error. *)
Lemma component_ok c :
  c <> [] -> (forall x, x ∈ c -> x < length modules /\ on_cycle x) ->
  (forall x y, x ∈ c -> (y ∈ c <-> rtc (leads modules) x y /\ rtc (leads modules) y x)) ->
  exists c' path steps, sort_component modules sources c = Some c' /\ c' ≡ₚ c /\
    cycle_path modules c' = Some path /\
    mapM (fun '(u, e) => cycle_step modules sources u e) path = Some steps /\ reports c' (Cycle steps).
Proof.
  intros Hne Hx Hc. unfold sort_component.
  destruct (sort_keyed (key_at modules sources) c) as (keyed & -> & Hp & Hs).
  { intros x Hin. by apply key_at_some, Hx. }
  cbn [mbind option_bind]. set (c' := map snd (sort_keys fst keyed)) in *. exists c'.
  assert (Hin : forall x, x ∈ c' <-> x ∈ c) by (intros x; by rewrite Hp).
  destruct c' as [|start rest] eqn:E; [by apply Permutation_nil_l in Hp|].
  assert (start ∈ start :: rest) as Hst by set_solver.
  destruct (search_path_ok modules sources Hok start (start :: rest)) as (at_ & e & via & p & E1 & E2 & Hpn & Hw & Hmin).
  { intros x y Hxc. rewrite !Hin. by apply Hc, Hin. }
  { done. }
  { intros x Hxc. by apply Hx, Hin. }
  { by apply Hx, Hin. }
  destruct (walk_steps start p start Hw) as [steps Es].
  exists p, steps. split; [done|]. split; [done|]. split.
  { unfold cycle_path. cbn [head mbind option_bind]. rewrite E1. cbn [mbind option_bind]. exact E2. }
  split; [done|]. exists start, rest, p, steps. do 6 (split; [done|]). split.
  - intros i Hi. apply StronglySorted_inv in Hs as [_ Hs]. by apply (proj1 (Forall_forall _ _) Hs).
  - intros x y Hxc. rewrite Hin. by apply Hc, Hin.
Qed.

(** The key of a component: its least module's. *)
Definition least_key (c : list nat) : option (option ModulePath) := i ← head c; key_at modules sources i.

Lemma sublist_concat {A} (l k : list (list A)) : l `sublist_of` k -> concat l `sublist_of` concat k.
Proof. induction 1; simpl; [done|by apply sublist_app|by apply sublist_inserts_l]. Qed.

Lemma elem_of_concat {A} (l : list (list A)) x : x ∈ concat l <-> exists c, c ∈ l /\ x ∈ c.
Proof.
  rewrite list_elem_of_In, in_concat. split; intros (c & H1 & H2); exists c; by rewrite !list_elem_of_In in *.
Qed.

Lemma concat_proper_perm {A} (l k : list (list A)) : l ≡ₚ k -> concat l ≡ₚ concat k.
Proof.
  induction 1 as [|x l k _ IH|x y l|l k m _ IH1 _ IH2]; simpl; [done|by rewrite IH| |by rewrite IH1].
  by rewrite !app_assoc, (Permutation_app_comm x).
Qed.

Lemma concat_perm {A} (l k : list (list A)) : Forall2 Permutation l k -> concat l ≡ₚ concat k.
Proof. induction 1; simpl; [done|by apply Permutation_app]. Qed.

Lemma cyclic_ok : exists succ cyclic, graph_successors modules = Some succ /\
  cyclic_components (length modules) succ = Some cyclic /\ NoDup (concat cyclic) /\
  (forall c, c ∈ cyclic -> c <> [] /\
    forall x y, x ∈ c -> (y ∈ c <-> rtc (leads modules) x y /\ rtc (leads modules) y x)) /\
  forall i, i ∈ concat cyclic <-> i < length modules /\ on_cycle i.
Proof.
  destruct (successors_total modules sources Hok) as (succ & Es & Hlen & Hedge).
  assert (Hreach : forall x y, rtc (edge succ) x y <-> rtc (leads modules) x y) by (intros; by apply rtc_ext).
  destruct (cyclic_components_ok succ (length modules)) as (comps & cyclic & _ & Ec & Hsub & Hnd & Hcls & Hin).
  { intros x y (e & m & edge & _ & _ & (n & Hn & _)%(file_index_lookup modules sources Hok))%Hedge.
    rewrite Hlen. by eapply lookup_lt_Some. }
  { lia. }
  exists succ, cyclic. split; [done|]. split; [done|].
  split; [by eapply sublist_NoDup; [|apply sublist_concat]|]. split.
  - intros c Hc. destruct (Hcls c Hc) as [Hne Hl]. split; [done|]. intros x y Hx.
    rewrite (Hl x y Hx). unfold linked. by rewrite !Hreach.
  - intros i. rewrite Hin, Hlen. unfold on_cycle. setoid_rewrite Hedge. by setoid_rewrite Hreach.
Qed.

Lemma cycles_ok : exists comps errs, cycles modules sources = Some errs /\
  Forall2 reports comps errs /\ NoDup (concat comps) /\
  (forall i, i ∈ concat comps <-> i < length modules /\ on_cycle i) /\
  StronglySorted (fun c d => cmp (least_key c) (least_key d) <> Gt) comps.
Proof.
  destruct cyclic_ok as (succ & cyclic & Es & Ec & Hnd & Hcls & Hin).
  set (report := fun c e => exists path steps, cycle_path modules c = Some path /\
    mapM (fun '(u, e) => cycle_step modules sources u e) path = Some steps /\ e = Cycle steps /\ reports c e).
  destruct (mapM_rel (sort_component modules sources) (fun c c' => c ≡ₚ c' /\ exists e, report c' e) cyclic) as (cs & Em & HF).
  { intros c Hc. destruct (Hcls c Hc) as [Hne Hl].
    destruct (component_ok c Hne) as (c' & path & steps & E1 & Hp & E2 & E3 & Hr); [|done|].
    - intros x Hx. apply Hin, elem_of_concat. eauto.
    - exists c'. split; [done|]. split; [done|]. exists (Cycle steps), path, steps. auto. }
  assert (Hperm : concat cyclic ≡ₚ concat cs) by (apply concat_perm; eapply Forall2_impl; [exact HF|naive_solver]).
  assert (Hrep : forall c, c ∈ cs -> exists e, report c e).
  { intros c [i Hi]%list_elem_of_lookup. destruct (Forall2_lookup_r _ _ _ _ _ HF Hi) as (c0 & _ & _ & He). done. }
  assert (Hkey : forall c, c ∈ cs -> is_Some (least_key c)).
  { intros c Hc. destruct (Hrep c Hc) as (e & _ & _ & _ & _ & _ & start & rest & _ & _ & -> & _). simpl.
    apply key_at_some. assert (start ∈ concat cs) as Hst by (apply elem_of_concat; exists (start :: rest); set_solver).
    rewrite <- Hperm in Hst. by apply Hin. }
  destruct (sort_keyed least_key cs Hkey) as (keyed & Ek & Hsp & Hss). set (sorted := map snd (sort_keys fst keyed)) in *.
  destruct (mapM_rel (fun component => path ← cycle_path modules component;
    steps ← mapM (fun '(u, e) => cycle_step modules sources u e) path; Some (Cycle steps)) reports sorted) as (errs & Ee & HR).
  { intros c Hc. rewrite Hsp in Hc. destruct (Hrep c Hc) as (e & path & steps & E1 & E2 & -> & Hr).
    exists (Cycle steps). rewrite E1. simpl. by rewrite E2. }
  exists sorted, errs. split.
  { unfold cycles. rewrite Es. cbn [mbind option_bind]. rewrite Ec. cbn [mbind option_bind]. rewrite Em.
    cbn [mbind option_bind]. unfold sort_components.
    rewrite (mapM_ext _ (fun c => k ← least_key c; Some (k, c))), Ek; [done|].
    intros c. unfold least_key. by destruct (head c). }
  assert (concat sorted ≡ₚ concat cyclic) as Hall by (rewrite Hperm; by apply concat_proper_perm).
  split; [done|]. split; [by rewrite Hall|]. split; [|done]. intros i. by rewrite Hall, Hin.
Qed.
End Props.

(** ** Cycles of statements and of files *)
Section Cyclic.
Context {PE : Type} (modules : list (LoadedModule PE)) (sources : SourceMap) (Hok : graph_ok modules sources).

Lemma imports_leads f g u m : imports modules f g -> modules !! u = Some m -> module_file m = f ->
  exists v n, modules !! v = Some n /\ module_file n = g /\ leads modules u v.
Proof.
  intros (m' & e & Hm' & Ef & He & <-) Hu Hf.
  assert (m' = m) as -> by (apply (module_of_file modules sources Hok); [done|by eapply list_elem_of_lookup_2|congruence]).
  apply list_elem_of_lookup in He as [i He].
  destruct (edge_target modules sources Hok m i e) as [v Hv]; [done..|].
  pose proof Hv as (n & Hn & En)%(file_index_lookup modules sources Hok). exists v, n. split; [done|]. split; [done|].
  exists i, m, e. auto.
Qed.

Lemma tc_imports_leads f g u m : tc (imports modules) f g -> modules !! u = Some m -> module_file m = f ->
  exists v n, modules !! v = Some n /\ module_file n = g /\ tc (leads modules) u v.
Proof.
  intros Ht. revert u m. induction Ht as [f g Hi|f h g Hi _ IH]; intros u m Hu Hf.
  - destruct (imports_leads f g u m Hi Hu Hf) as (v & n & ? & ? & ?). exists v, n. auto using tc_once.
  - destruct (imports_leads f h u m Hi Hu Hf) as (v & n & Hv & Hn & Huv).
    destruct (IH v n Hv Hn) as (w & n' & ? & ? & ?). exists w, n'. eauto using tc_l.
Qed.

Lemma tc_leads_imports u v : tc (leads modules) u v ->
  exists m n, modules !! u = Some m /\ modules !! v = Some n /\ tc (imports modules) (module_file m) (module_file n).
Proof.
  induction 1 as [u v (e & Hs)|u w v (e & Hs) _ (m' & n & Hm' & Hn & IH)];
    apply (step_imports modules sources Hok) in Hs as (m & x & Hm & Hx & Hi).
  - exists m, x. auto using tc_once.
  - exists m, n. assert (x = m') as -> by congruence. eauto using tc_l.
Qed.

Lemma acyclic_spec : acyclic modules <-> forall i, i < length modules -> ~ on_cycle modules i.
Proof.
  split.
  - intros Hac i _ (z & Hiz & Hzi). assert (tc (leads modules) i i) as Ht by (eapply tc_rtc_r; [by apply tc_once|done]).
    apply tc_leads_imports in Ht as (m & n & Hm & Hn & Ht). rewrite Hm in Hn. injection Hn as <-. by apply (Hac (module_file m)).
  - intros Hno f Ht. assert (exists m, m ∈ modules /\ module_file m = f) as (m & Hm & Hf).
    { inversion Ht as [? ? (m & e & Hm & Hf & _)|? ? ? (m & e & Hm & Hf & _)]; eauto. }
    apply list_elem_of_lookup in Hm as [u Hu]. destruct (tc_imports_leads f f u m Ht Hu Hf) as (v & n & Hv & Hn & Hc).
    assert (v = u) as ->.
    { apply (NoDup_lookup (module_file <$> modules) v u f); [apply (graph_files _ _ Hok)| |];
        rewrite list_lookup_fmap; [rewrite Hv|rewrite Hu]; simpl; congruence. }
    apply (Hno u); [by eapply lookup_lt_Some|].
    inversion Hc as [? ? H|? z ? Hz Hzu]; subst; [exists u; auto using rtc_refl|exists z; auto using tc_rtc].
Qed.
End Cyclic.

(** ** The one greedy order *)
Section Unique.
Context {K : Type} `{OrdLaws K} (nodes : K -> Prop) (dep : K -> K -> Prop).

Record greedy_order (l : list K) : Prop := {
  go_nodup : NoDup l;
  go_nodes k : k ∈ l <-> nodes k;
  go_least before k after : l = before ++ k :: after ->
    (forall k', dep k k' -> k' ∈ before) /\
    forall g, nodes g -> g ∉ before -> g <> k -> (forall k', dep g k' -> k' ∈ before) -> cmp k g = Lt
}.

Lemma greedy_order_unique l k : greedy_order l -> greedy_order k -> l = k.
Proof.
  intros Hl Hk. assert (forall s b t, l = b ++ s -> k = b ++ t -> s = t) as Hgen; [|by apply (Hgen l [] k)].
  assert (Hmem : forall x, x ∈ l <-> x ∈ k) by (intros x; by rewrite (go_nodes _ Hl), (go_nodes _ Hk)).
  assert (Hend : forall (b : list K) x t, NoDup (b ++ x :: t) -> x ∈ b -> False).
  { intros b x t (_ & Hd & _)%NoDup_app Hx. apply (Hd x Hx). set_solver. }
  induction s as [|x s IH]; intros b [|y t] El Ek; [done| | |].
  - exfalso. apply (Hend b y t); [rewrite <- Ek; apply (go_nodup _ Hk)|].
    assert (y ∈ k) as Hy by (rewrite Ek; set_solver). apply Hmem in Hy. by rewrite El, app_nil_r in Hy.
  - exfalso. apply (Hend b x s); [rewrite <- El; apply (go_nodup _ Hl)|].
    assert (x ∈ l) as Hx by (rewrite El; set_solver). apply Hmem in Hx. by rewrite Ek, app_nil_r in Hx.
  - destruct (go_least _ Hl b x s El) as [Hdx Hlx], (go_least _ Hk b y t Ek) as [Hdy Hly].
    assert (x ∈ l) as Hx by (rewrite El; set_solver). assert (y ∈ k) as Hy by (rewrite Ek; set_solver).
    assert (x ∉ b) as Hxb by (intros Hb; apply (Hend b x s); [rewrite <- El; apply (go_nodup _ Hl)|done]).
    assert (y ∉ b) as Hyb by (intros Hb; apply (Hend b y t); [rewrite <- Ek; apply (go_nodup _ Hk)|done]).
    assert (x = y) as ->.
    { destruct (cmp x y) eqn:E; [by apply cmp_eq| |].
      - exfalso. assert (y <> x) as Hne by (intros ->; by rewrite cmp_refl in E).
        apply (cmp_asym x y E). apply Hly; try done. by apply (go_nodes _ Hl).
      - exfalso. apply cmp_gt in E. assert (y <> x) as Hne by (intros ->; by rewrite cmp_refl in E).
        apply (cmp_asym y x E). apply Hlx; try done. by apply (go_nodes _ Hk). }
    f_equal. apply (IH (b ++ [y])); by rewrite <- app_assoc.
Qed.
End Unique.

(** ** Orders by module path *)
Section Keys.
Context {PE : Type} (modules : list (LoadedModule PE)) (sources : SourceMap).

(** The keys of the modules, and which key names which. *)
Definition node (k : option (option ModulePath)) : Prop := exists f, f ∈ module_files modules /\ key sources f = k.

Definition named (k k' : option (option ModulePath)) : Prop :=
  exists f g, key sources f = k /\ key sources g = k' /\ imports modules f g.

(** No two modules have one path. *)
Definition distinct_keys : Prop :=
  forall f g, f ∈ module_files modules -> g ∈ module_files modules -> key sources f = key sources g -> f = g.

Context (Hok : graph_ok modules sources) (Hdist : distinct_keys).

Lemma imports_file f g : imports modules f g -> f ∈ module_files modules.
Proof. intros (m & e & Hm & <- & _). by apply list_elem_of_fmap_2. Qed.

Lemma keys_greedy order :
  order ≡ₚ module_files modules -> greedy modules sources order -> greedy_order node named (map (key sources) order).
Proof.
  intros Hp Hg. assert (Hin : forall f, f ∈ order <-> f ∈ module_files modules) by (intros f; by rewrite Hp).
  split.
  - apply NoDup_fmap_2_strong; [intros f g Hf%Hin Hg'%Hin; by apply Hdist|]. rewrite Hp. apply (graph_files _ _ Hok).
  - intros k. rewrite list_elem_of_fmap. unfold node. split; intros (f & H1 & H2); exists f; by rewrite ?Hin in *.
  - intros before k after E. apply fmap_app_inv in E as (b & a' & -> & Ea & ->).
    symmetry in Ea. apply fmap_cons_inv in Ea as (f & a & -> & -> & ->). destruct (Hg b f a eq_refl) as [Hs Hl].
    assert (Hb : forall x, x ∈ b -> x ∈ module_files modules) by (intros x Hx; apply Hin; set_solver).
    assert (f ∈ module_files modules) as Hf by (apply Hin; set_solver). split.
    + intros k' (f' & g & Ef & <- & Hi). assert (f' = f) as -> by (apply Hdist; [by eapply imports_file|done|done]).
      by apply list_elem_of_fmap_2, Hs.
    + intros k' (h & Hh & <-) Hnb Hne Hsat.
      assert (precedes sources f h) as Hpr.
      { apply Hl; [done| | |].
        - intros Hhb. by apply Hnb, list_elem_of_fmap_2.
        - by intros ->.
        - intros t Ht. assert (key sources t ∈ map (key sources) b) as Hk by (apply Hsat; by exists h, t).
          apply list_elem_of_fmap in Hk as (t' & Ek & Ht'). apply Hdist in Ek as ->; [done| |by apply Hb].
          by apply (graph_edges _ _ Hok h). }
      unfold precedes, cmp, prod_ord in Hpr. simpl in Hpr. destruct (cmp (key sources f) (key sources h)) eqn:Ec; [|done..].
      apply cmp_eq in Ec. congruence.
Qed.
End Keys.

(** ** Deciding the hypotheses on a given program *)
Section Checks.
Context {PE : Type} (modules : list (LoadedModule PE)) (sources : SourceMap).

Definition import_pairs : list (FileId * FileId) :=
  concat (map (fun m => map (fun e => (module_file m, target e)) (edges m)) modules).

Lemma elem_of_import_pairs f g : (f, g) ∈ import_pairs <-> imports modules f g.
Proof.
  unfold import_pairs, imports. rewrite elem_of_concat. split.
  - intros (c & (m & -> & Hm)%list_elem_of_fmap & (e & [= -> ->] & He)%list_elem_of_fmap). by exists m, e.
  - intros (m & e & Hm & <- & He & <-). exists (map (fun e => (module_file m, target e)) (edges m)).
    split; [by apply list_elem_of_fmap; exists m|]. apply list_elem_of_fmap. by exists e.
Qed.

Definition graph_check : bool :=
  bool_decide (NoDup (module_files modules)) &&
  forallb (fun p => bool_decide (p.2 ∈ module_files modules)) import_pairs &&
  forallb (fun f => bool_decide (is_Some (key sources f))) (module_files modules).

Lemma graph_check_ok : graph_check = true -> graph_ok modules sources.
Proof.
  unfold graph_check. intros [[H1%bool_decide_eq_true H2]%andb_true_iff H3]%andb_true_iff.
  rewrite forallb_forall in H2, H3. split; [done| |].
  - intros f g Hi%elem_of_import_pairs%list_elem_of_In. by apply H2, bool_decide_eq_true in Hi.
  - intros f Hf%list_elem_of_In. by apply H3, bool_decide_eq_true in Hf.
Qed.

Lemma no_cycles comps errs : graph_ok modules sources -> Forall2 (reports modules sources) comps errs ->
  (forall i, i ∈ concat comps <-> i < length modules /\ on_cycle modules i) -> errs = [] <-> acyclic modules.
Proof.
  intros Hok HF Hin. rewrite (acyclic_spec modules sources Hok). split.
  - intros ->. apply Forall2_nil_inv_r in HF as ->. intros i Hi Hc. by apply (not_elem_of_nil i), Hin.
  - intros Hno. destruct comps as [|c comps]; [by apply Forall2_nil_inv_l in HF|]. exfalso.
    apply Forall2_cons_inv_l in HF as (e & errs' & (start & rest & p & steps & -> & _) & _ & _).
    destruct (proj1 (Hin start)) as [Hlt Hc]; [set_solver|]. by apply (Hno start).
Qed.

Lemma acyclic_check : graph_ok modules sources -> cycles modules sources = Some [] -> acyclic modules.
Proof.
  intros Hok E. destruct (cycles_ok modules sources Hok) as (comps & errs & E' & HF & _ & Hin & _).
  apply (no_cycles comps errs Hok HF Hin). congruence.
Qed.

Lemma distinct_check : NoDup (map (key sources) (module_files modules)) -> distinct_keys modules sources.
Proof.
  intros Hnd f g [i Hi]%list_elem_of_lookup [j Hj]%list_elem_of_lookup E.
  assert (i = j) as ->; [|congruence].
  apply (NoDup_lookup (key sources <$> module_files modules) i j (key sources f)); [done|by rewrite list_lookup_fmap, Hi|].
  by rewrite list_lookup_fmap, Hj, E.
Qed.

Lemma node_spec k : node modules sources k <-> k ∈ map (key sources) (module_files modules).
Proof. rewrite list_elem_of_fmap. unfold node. naive_solver. Qed.

Lemma named_spec k k' :
  named modules sources k k' <-> (k, k') ∈ map (fun p => (key sources p.1, key sources p.2)) import_pairs.
Proof.
  rewrite list_elem_of_fmap. unfold named. split.
  - intros (f & g & <- & <- & Hi). exists (f, g). by rewrite elem_of_import_pairs.
  - intros ([f g] & [= -> ->] & Hi%elem_of_import_pairs). by exists f, g.
Qed.
End Checks.

Lemma same_elements {A} `{OrdLaws A} (l k : list A) x : set_of_list l = set_of_list k -> x ∈ l <-> x ∈ k.
Proof. intros E. by rewrite <- (elem_of_set_of_list l), E, elem_of_set_of_list. Qed.

(** ** Properties *)

(** C36: on an acyclic module graph [link_order] returns every module once; each
    comes after all it names, and before every later one that was ready when it was
    taken, by module path and then by file. *)
Theorem link_order_exact {PE} (modules : list (LoadedModule PE)) sources :
  graph_ok modules sources -> acyclic modules ->
  exists order, link_order modules sources = Some order /\ order ≡ₚ map module_file modules /\
    forall before f after, order = before ++ f :: after ->
      (forall g, imports modules f g -> g ∈ before) /\
      forall g, g ∈ after -> (forall h, imports modules g h -> h ∈ before) ->
        cmp (key sources f, f) (key sources g, g) = Lt.
Proof.
  intros Hok Hac. destruct (link_order_ok modules sources Hok Hac) as (order & E & Hp & Hg).
  exists order. split; [done|]. split; [done|]. intros before f after Eo.
  destruct (Hg before f after Eo) as [Hs Hl]. split; [done|]. intros g Hg' Hsat.
  assert (NoDup order) as Hnd by (rewrite Hp; apply (graph_files _ _ Hok)). rewrite Eo in Hnd.
  apply NoDup_app in Hnd as (_ & Hd & [Hfa _]%NoDup_cons). apply Hl; [| | |done].
  - rewrite <- Hp, Eo. set_solver.
  - intros Hgb. apply (Hd g Hgb). set_solver.
  - by intros ->.
Qed.

(** The link order is a function of the graph and the modules' paths: two
    loadings of one graph, however their files are numbered and their modules
    listed, are ordered alike. *)
Theorem link_order_by_path {PE} (modules modules' : list (LoadedModule PE)) sources sources' :
  graph_ok modules sources -> graph_ok modules' sources' ->
  distinct_keys modules sources -> distinct_keys modules' sources' -> acyclic modules -> acyclic modules' ->
  (forall k, node modules sources k <-> node modules' sources' k) ->
  (forall k k', named modules sources k k' <-> named modules' sources' k k') ->
  exists order order', link_order modules sources = Some order /\ link_order modules' sources' = Some order' /\
    map (key sources) order = map (key sources') order'.
Proof.
  intros Hok Hok' Hd Hd' Hac Hac' Hn Hi.
  destruct (link_order_ok modules sources Hok Hac) as (o & E & Hp & Hg).
  destruct (link_order_ok modules' sources' Hok' Hac') as (o' & E' & Hp' & Hg'). exists o, o'. split; [done|]. split; [done|].
  destruct (keys_greedy modules' sources' Hok' Hd' o' Hp' Hg') as [G1 G2 G3].
  apply (greedy_order_unique (node modules sources) (named modules sources)); [by apply keys_greedy|]. split; [done| |].
  - intros k. by rewrite G2, Hn.
  - intros before k after Eq. destruct (G3 before k after Eq) as [H1 H2]. split.
    + intros k' ?%Hi. by apply H1.
    + intros g Hg1 Hg2 Hg3 Hg4. apply H2; [by apply Hn|done|done|]. intros k' ?%Hi. by apply Hg4.
Qed.

(** C37: [cycles] reports one error for each strongly connected component of the
    module graph that has a cycle, in the order of their least modules; each error
    is a cycle through that module with no shorter one; and there is none just
    when the graph is acyclic. *)
Theorem cycles_exact {PE} (modules : list (LoadedModule PE)) sources :
  graph_ok modules sources ->
  exists comps errs, cycles modules sources = Some errs /\ Forall2 (reports modules sources) comps errs /\
    NoDup (concat comps) /\ (forall i, i ∈ concat comps <-> i < length modules /\ on_cycle modules i) /\
    StronglySorted (fun c d => cmp (least_key modules sources c) (least_key modules sources d) <> Gt) comps /\
    (errs = [] <-> acyclic modules).
Proof.
  intros Hok. destruct (cycles_ok modules sources Hok) as (comps & errs & E & HF & Hnd & Hin & Hs).
  exists comps, errs. do 5 (split; [done|]). by apply (no_cycles modules sources comps).
Qed.

(** A program of four modules, and its files found in another order. *)
Definition sample_span : Span := mkSpan 0 0 0.

Definition sample_module (f : FileId) (targets : list FileId) : LoadedModule unit :=
  MkLoadedModule unit f None [] (map (MkEdge EdgeImport sample_span) targets).

Definition sample_sources (names : list string) : SourceMap :=
  MkSourceMap (map (fun n => MkSourceFile (lit n) (Some [lit n]) []) names).

Definition shop : list (LoadedModule unit) :=
  [sample_module 0 [1; 2]; sample_module 1 [3]; sample_module 2 []; sample_module 3 []].

Definition shop_sources : SourceMap := sample_sources ["main"; "cart"; "tax"; "item"]%string.

Definition shop' : list (LoadedModule unit) :=
  [sample_module 0 [2; 1]; sample_module 1 []; sample_module 2 [3]; sample_module 3 []].

Definition shop_sources' : SourceMap := sample_sources ["main"; "tax"; "cart"; "item"]%string.

Lemma shop_ok : graph_ok shop shop_sources.
Proof. apply graph_check_ok. vm_compute. reflexivity. Qed.

Lemma shop_ok' : graph_ok shop' shop_sources'.
Proof. apply graph_check_ok. vm_compute. reflexivity. Qed.

Lemma link_order_exact_witness :
  link_order shop shop_sources = Some [3; 1; 2; 0] /\
  exists order, link_order shop shop_sources = Some order /\ order ≡ₚ [0; 1; 2; 3].
Proof.
  split; [vm_compute; reflexivity|].
  destruct (link_order_exact shop shop_sources shop_ok) as (order & E & Hp & _).
  - apply (acyclic_check shop shop_sources shop_ok). vm_compute. reflexivity.
  - exists order. split; [exact E|exact Hp].
Defined.

Lemma link_order_by_path_witness :
  link_order shop' shop_sources' = Some [3; 2; 1; 0] /\
  exists order order', link_order shop shop_sources = Some order /\ link_order shop' shop_sources' = Some order' /\
    map (key shop_sources) order = map (key shop_sources') order'.
Proof.
  split; [vm_compute; reflexivity|]. apply (link_order_by_path shop shop' shop_sources shop_sources' shop_ok shop_ok').
  - apply distinct_check, (bool_decide_unpack _). vm_compute. exact I.
  - apply distinct_check, (bool_decide_unpack _). vm_compute. exact I.
  - apply (acyclic_check shop shop_sources shop_ok). vm_compute. reflexivity.
  - apply (acyclic_check shop' shop_sources' shop_ok'). vm_compute. reflexivity.
  - intros k. rewrite !node_spec. apply same_elements. vm_compute. reflexivity.
  - intros k k'. rewrite !named_spec. apply same_elements. vm_compute. reflexivity.
Defined.

(** Two modules that import each other, beside a module that imports itself. *)
Definition import_ring : list (LoadedModule unit) :=
  [sample_module 0 [1; 3]; sample_module 1 [2; 3]; sample_module 2 [1]; sample_module 3 [3]].

Lemma cycles_exact_witness :
  exists comps errs, cycles import_ring shop_sources = Some errs /\ Forall2 (reports import_ring shop_sources) comps errs /\
    length errs = 2 /\ ~ acyclic import_ring.
Proof.
  destruct (cycles_exact import_ring shop_sources) as (comps & errs & E & HF & _ & _ & _ & Hac).
  - apply graph_check_ok. vm_compute. reflexivity.
  - exists comps, errs. assert (option_map length (cycles import_ring shop_sources) = Some 2) as Hl by (vm_compute; reflexivity).
    rewrite E in Hl. injection Hl as Hl. split; [exact E|]. split; [exact HF|]. split; [exact Hl|].
    intros H. apply Hac in H as ->. discriminate Hl.
Defined.
