(* ===== verification/LoadFacts.v ===== *)
(** * Facts of [load_with]: every module reached, each resolved once

    The state of the loader between files: what paths resolve to agrees with the
    source map, and the edges and errors of each module are those its statements
    have under that resolution. *)

From stdpp Require Import list gmap.
From S2P Require Import Prelude Tokens RawTokens ModulePaths Ordered Loading LinkFacts.
Set Warnings "-clear-no-such-hyp".
Local Open Scope nat_scope.

Section Facts.
Context {L : Logos} {F PE : Type} `{ModuleFiles F}.
Context (debug : bool) (std : list (bytes * bytes)).
Context (parse_module : FileId -> bytes -> option (list Stmt) * list PE).
Implicit Types (st : Loader (F := F) (PE := PE)) (ss : list (EdgeKind * WrittenPath)).

Abbreviation resolution := (gmap ModulePath (FileId + option MissingModule)).

(** The statement's path names the module [p]. *)
Definition names (w : WrittenPath) (p : ModulePath) : Prop := to_path debug w = Some (Some p).

(** What a statement contributes under a resolution: an edge or an error. *)
Definition outcome (res : resolution) (s : EdgeKind * WrittenPath) : option (Edge + LoadError) :=
  match to_path debug s.2, written_span s.2 with
  | Some (Some p), Some span =>
      match res !! p with
      | Some (inl t) => Some (inl (MkEdge s.1 span t))
      | Some (inr (Some why)) => Some (inr (Missing span p why))
      | Some (inr None) => Some (inr (NoStdModule span p))
      | None => None
      end
  | _, _ => None
  end.

Definition edges_of (res : resolution) ss : list Edge :=
  omap (fun s => match outcome res s with Some (inl e) => Some e | _ => None end) ss.

Definition errors_of (res : resolution) ss : list LoadError :=
  omap (fun s => match outcome res s with Some (inr e) => Some e | _ => None end) ss.

(** The statements of a loaded module. *)
Definition statements (m : LoadedModule PE) : list (EdgeKind * WrittenPath) := statement_edges (default [] (ast m)).

(** Every path that the statements name is resolved. *)
Definition covers (res : resolution) ss : Prop :=
  forall s p, s ∈ ss -> names s.2 p -> is_Some (res !! p).

(** ** Paths as the parser writes them *)

Lemma forallb_segments (w : WrittenPath) : forallb (fun s => is_segment s.2) w = forallb is_segment (map snd w).
Proof. induction w as [|s w IH]; simpl; [done|]. by rewrite IH. Qed.

Lemma to_path_some w : w <> [] ->
  to_path debug w = Some None \/ exists p span b, names w p /\ written_span w = Some span /\ is_std p = Some b.
Proof.
  intros Hw. unfold names, to_path. rewrite forallb_segments. destruct (forallb is_segment (map snd w)) eqn:E; [right|by left].
  unfold ModulePath_new, written_span. destruct w as [|s w]; [done|]. cbn [map] in *. rewrite E, andb_false_r.
  destruct (last (s :: w)) as [l|] eqn:El; [|by apply last_None in El]. simpl. eauto 6.
Qed.

(** ** Resolutions grow *)

Lemma outcome_mono (r r' : resolution) s :
  r ⊆ r' -> (forall p, names s.2 p -> is_Some (r !! p)) -> outcome r' s = outcome r s.
Proof.
  intros Hsub Hc. unfold outcome. destruct (to_path debug s.2) as [[p|]|] eqn:E; [|done..].
  destruct (written_span s.2); [|done]. destruct (Hc p E) as [t Ht].
  by rewrite Ht, (lookup_weaken _ _ _ _ Ht Hsub).
Qed.

Lemma edges_of_mono r r' ss : r ⊆ r' -> covers r ss -> edges_of r' ss = edges_of r ss.
Proof.
  intros Hsub Hc. unfold edges_of. apply list_omap_ext, Forall_Forall2_diag, Forall_forall.
  intros s Hs. rewrite (outcome_mono r r' s Hsub); [done|]. intros p. by apply Hc.
Qed.

Lemma errors_of_mono r r' ss : r ⊆ r' -> covers r ss -> errors_of r' ss = errors_of r ss.
Proof.
  intros Hsub Hc. unfold errors_of. apply list_omap_ext, Forall_Forall2_diag, Forall_forall.
  intros s Hs. rewrite (outcome_mono r r' s Hsub); [done|]. intros p. by apply Hc.
Qed.

Lemma covers_mono r r' ss : r ⊆ r' -> covers r ss -> covers r' ss.
Proof. intros Hsub Hc s p Hs Hp. destruct (Hc s p Hs Hp) as [t Ht]. exists t. by eapply lookup_weaken. Qed.

(** ** One resolution *)
Section Bounded.
Context (root : option ModulePath) (universe : list ModulePath) (initial : F).

(** The files after any number of requests. *)
Inductive fetched : F -> Prop :=
  | fetched_none : fetched initial
  | fetched_one f p : fetched f -> fetched (fetch f p).1.

Context (Hfinite : forall p f f' file, fetched f -> find_module std p f = Some (f', inl file) -> p ∈ universe).
Context (Hsmall : (Z.of_nat (length universe) + 1 < 2 ^ 32)%Z).

(** A path resolves to what its files gave, as the source map holds it. *)
Definition found (src : SourceMap) (p : ModulePath) (t : FileId + option MissingModule) : Prop :=
  root = Some p \/ exists f f' r, fetched f /\ find_module std p f = Some (f', r) /\
    match t, r with
    | inl id, inl file => source_file src id = Some (MkSourceFile (mf_path file) (Some p) (mf_text file))
    | inr why, inr why' => why = why'
    | _, _ => False
    end.

(** The resolution agrees with the source map, whose files are the root and
    distinct modules of the universe. *)
Record consistent st : Prop := {
  c_resolved p f : resolved st !! p = Some (inl f) <-> source_module (sources st) f = Some (Some p);
  c_files : exists ps, map file_module (files_of (sources st)) = root :: map Some ps /\ NoDup ps /\
    forall p, p ∈ ps -> p ∈ universe;
  c_found p t : resolved st !! p = Some t -> found (sources st) p t;
  c_fetched : fetched (files st)
}.

(** What the statements [ss] may change. *)
Record grows ss st st' : Prop := {
  g_resolved : resolved st ⊆ resolved st';
  g_modules : modules st' = modules st;
  g_new : exists new, files_of (sources st') = files_of (sources st) ++ new /\
    pending st' = pending st ++ seq (length (files_of (sources st))) (length new);
  g_named p : is_Some (resolved st' !! p) -> is_Some (resolved st !! p) \/ exists s, s ∈ ss /\ names s.2 p
}.

Lemma grows_refl st : grows [] st st.
Proof. split; try done; [|by left]. exists []. by rewrite !app_nil_r. Qed.

Lemma grows_trans ss1 ss2 st1 st2 st3 : grows ss1 st1 st2 -> grows ss2 st2 st3 -> grows (ss1 ++ ss2) st1 st3.
Proof.
  intros [R1 M1 (n1 & F1 & P1) N1] [R2 M2 (n2 & F2 & P2) N2]. split.
  - by etransitivity.
  - congruence.
  - exists (n1 ++ n2). rewrite F2, F1, P2, P1, F1, !length_app, seq_app, <- !app_assoc. done.
  - intros p Hp. destruct (N2 p Hp) as [Hp'|(s & Hs & Hn)]; [|right; exists s; set_solver].
    destruct (N1 p Hp') as [|(s & Hs & Hn)]; [by left|right; exists s; set_solver].
Qed.

Lemma files_bound st : consistent st -> (Z.of_nat (length (files_of (sources st))) < 2 ^ 32)%Z /\
  length (files_of (sources st)) <= S (length universe).
Proof.
  intros [_ (ps & E & Hnd & Hps) _ _]. assert (length (files_of (sources st)) = S (length ps)) as ->.
  { rewrite <- (length_map file_module), E. simpl. by rewrite length_map. }
  assert (length ps <= length universe) by (apply submseteq_length, NoDup_submseteq; auto). lia.
Qed.

Lemma source_module_spec m f p : source_module m f = Some p <-> map file_module (files_of m) !! f = Some p.
Proof. unfold source_module, source_file. by rewrite <- list_lookup_fmap. Qed.

(** A file added for a path not resolved yet. *)
Lemma consistent_add st p file f :
  consistent st -> resolved st !! p = None -> p ∈ universe -> (exists f0, fetched f0 /\ find_module std p f0 = Some (f, inl file)) -> fetched f ->
  exists src, add_module (sources st) p (mf_path file) (mf_text file) = Some (length (files_of (sources st)), src) /\
    files_of src = files_of (sources st) ++ [MkSourceFile (mf_path file) (Some p) (mf_text file)] /\
    consistent (MkLoader src (<[p := inl (length (files_of (sources st)))]> (resolved st)) (modules st) (errors st)
      (pending st ++ [length (files_of (sources st))]) f).
Proof.
  intros Hc Hp Hu (f0 & Hf0 & Hfind) Hff. destruct (files_bound st Hc) as [Hb _]. unfold add_module, push_file.
  rewrite (proj2 (Z.ltb_lt _ _) Hb). eexists. split; [done|]. split; [done|].
  destruct Hc as [Hr (ps & E & Hnd & Hps) Hfound _]. split; simpl; [| | |done].
  - intros q g. rewrite source_module_spec. simpl. rewrite map_app. simpl.
    destruct (decide (g = length (files_of (sources st)))) as [->|Hg].
    + rewrite lookup_app_r, length_map, Nat.sub_diag by (by rewrite length_map). simpl.
      destruct (decide (p = q)) as [->|Hpq]; [by rewrite lookup_insert_eq|].
      rewrite lookup_insert_ne by done. split; [|congruence]. rewrite Hr, source_module_spec.
      intros Hl%lookup_lt_Some. rewrite length_map in Hl. lia.
    + assert ((map file_module (files_of (sources st)) ++ [Some p]) !! g = map file_module (files_of (sources st)) !! g) as ->.
      { destruct (decide (g < length (files_of (sources st)))).
        - rewrite lookup_app_l by (by rewrite length_map). done.
        - rewrite !lookup_ge_None_2; rewrite ?length_app, ?length_map; simpl; [done|lia|lia]. }
      rewrite <- source_module_spec, <- Hr. destruct (decide (p = q)) as [->|Hpq]; [|by rewrite lookup_insert_ne].
      rewrite lookup_insert_eq, Hp. split; [congruence|done].
  - exists (ps ++ [p]). rewrite map_app, E, map_app. split; [done|]. split.
    + apply NoDup_app. split; [done|]. split; [|apply NoDup_singleton].
      intros q Hq ->%list_elem_of_singleton. apply list_elem_of_lookup in Hq as [i Hi].
      assert (resolved st !! p = Some (inl (S i : FileId))) as Hi'; [|by rewrite Hp in Hi'].
      apply Hr, source_module_spec. rewrite E. simpl. rewrite list_lookup_fmap, Hi. done.
    + intros q [Hq| ->%list_elem_of_singleton]%elem_of_app; auto.
  - intros q t Hq. destruct (decide (p = q)) as [->|Hpq].
    + rewrite lookup_insert_eq in Hq. injection Hq as <-. right. exists f0, f, (inl file). split; [done|]. split; [done|].
      unfold source_file. simpl. by rewrite lookup_app_r, Nat.sub_diag by done.
    + rewrite lookup_insert_ne in Hq by done. destruct (Hfound q t Hq) as [|(g & g' & r & Hg & Hq' & Ht)]; [by left|right].
      exists g, g', r. split; [done|]. split; [done|]. destruct t as [id|why], r as [file'|why']; try done.
      unfold source_file in *. simpl. by apply lookup_app_l_Some.
Qed.

Lemma fetched_find p f f' r : fetched f -> find_module std p f = Some (f', r) -> fetched f'.
Proof.
  intros Hf. unfold find_module. destruct (is_std p) as [[]|]; simpl; [by intros [= <- _]| |done].
  pose proof (fetched_one f p Hf) as Hf'. destruct (fetch f p). by intros [= <- _].
Qed.

Lemma resolve_ok st p b k w :
  consistent st -> is_std p = Some b -> names w p ->
  exists st' t, resolve std st p = Some (st', t) /\ consistent st' /\ resolved st' !! p = Some t /\
    grows [(k, w)] st st' /\ errors st' = errors st.
Proof.
  intros Hc Hb Hn. unfold resolve. destruct (resolved st !! p) as [t|] eqn:Ep.
  { exists st, t. split; [done|]. split; [done|]. split; [done|]. split; [|done].
    destruct (grows_refl st). split; try done. by left. }
  assert (exists f' found, find_module std p (files st) = Some (f', found)) as (f' & found & Ef).
  { unfold find_module. rewrite Hb. simpl. destruct b; [eauto|]. destruct (fetch _ _). eauto. }
  pose proof (c_fetched _ Hc) as Hst. pose proof (fetched_find _ _ _ _ Hst Ef) as Hst'.
  rewrite Ef. cbn [mbind option_bind]. destruct found as [file|why].
  - pose proof (Hfinite _ _ _ _ Hst Ef) as Hu. destruct (consistent_add st p file f' Hc Ep Hu) as (src & -> & Es & Hc'); [eauto|done|].
    cbn [mbind option_bind]. eexists _, _. split; [done|]. split; [exact Hc'|]. split; [apply lookup_insert_eq|].
    split; [|done]. split; simpl.
    + by apply insert_subseteq.
    + done.
    + eexists [_]. split; [exact Es|done].
    + intros q Hq. destruct (decide (p = q)) as [->|Hpq]; [right; exists (k, w); set_solver|].
      rewrite lookup_insert_ne in Hq by done. by left.
  - eexists _, _. split; [done|]. destruct Hc as [Hr Hf Hfd _]. split; [|split; [apply lookup_insert_eq|split; [|done]]].
    + split; simpl; [|done| |done].
      * intros q g. rewrite <- Hr. destruct (decide (p = q)) as [->|Hpq]; [|by rewrite lookup_insert_ne].
        by rewrite lookup_insert_eq, Ep.
      * intros q t Hq. destruct (decide (p = q)) as [->|Hpq]; [|rewrite lookup_insert_ne in Hq by done; by apply Hfd].
        rewrite lookup_insert_eq in Hq. injection Hq as <-. right. by exists (files st), f', (inr why).
    + split; simpl; [by apply insert_subseteq|done|exists []; by rewrite !app_nil_r|].
      intros q Hq. destruct (decide (p = q)) as [->|Hpq]; [right; exists (k, w); set_solver|].
      rewrite lookup_insert_ne in Hq by done. by left.
Qed.

(** ** The statements of a file *)

Lemma grows_weaken ss ss' st st' : (forall s, s ∈ ss -> s ∈ ss') -> grows ss st st' -> grows ss' st st'.
Proof. intros Hsub [R M N P]. split; try done. intros p Hp. destruct (P p Hp) as [|(s & Hs & ?)]; eauto. Qed.

Lemma push_load_error_ok st e : consistent st -> consistent (push_load_error st e).
Proof. by intros []. Qed.

Lemma push_load_error_grows ss st st' e : grows ss st st' -> grows ss st (push_load_error st' e).
Proof. by intros []. Qed.

(** One statement, with what it adds to the edges and the errors. *)
Lemma statement_ok st es s :
  consistent st -> s.2 <> [] ->
  exists st', consistent st' /\ grows [s] st st' /\ covers (resolved st') [s] /\
    (forall r, resolved st' ⊆ r ->
      statement debug std (Some (st, es)) s = Some (st', es ++ edges_of r [s]) /\
      errors st' = errors st ++ errors_of r [s]).
Proof.
  intros Hc Hw. destruct s as [k w]. simpl in Hw. destruct (to_path_some w Hw) as [E|(p & span & b & Hn & Hsp & Hb)].
  - exists st. split; [done|]. split; [eapply grows_weaken; [|apply grows_refl]; set_solver|]. split.
    + intros s p ->%list_elem_of_singleton Hn. unfold names in Hn. simpl in Hn. congruence.
    + intros r _. unfold edges_of, errors_of, outcome. simpl. rewrite E. simpl. by rewrite !app_nil_r.
  - destruct (resolve_ok st p b k w Hc Hb Hn) as (st1 & t & Er & Hc1 & Ht & Hg & He).
    assert (Hcov : covers (resolved st1) [(k, w)]).
    { intros s q ->%list_elem_of_singleton Hq. simpl in Hq. unfold names in Hq, Hn. rewrite Hn in Hq.
      injection Hq as <-. by eexists. }
    assert (Hout : forall r, resolved st1 ⊆ r -> outcome r (k, w) =
      Some match t with
           | inl g => inl (MkEdge k span g)
           | inr (Some why) => inr (Missing span p why)
           | inr None => inr (NoStdModule span p)
           end).
    { intros r Hsub. unfold outcome. simpl. unfold names in Hn. rewrite Hn, Hsp, (lookup_weaken _ _ _ _ Ht Hsub).
      by destruct t as [g|[why|]]. }
    exists (match t with
            | inl _ => st1
            | inr (Some why) => push_load_error st1 (Missing span p why)
            | inr None => push_load_error st1 (NoStdModule span p)
            end).
    split; [destruct t as [g|[why|]]; auto using push_load_error_ok|].
    split; [destruct t as [g|[why|]]; auto using push_load_error_grows|].
    split; [by destruct t as [g|[why|]]|]. intros r Hsub.
    assert (resolved st1 ⊆ r) as Hsub1 by (by destruct t as [g|[why|]]).
    unfold statement, edges_of, errors_of. cbn [mbind option_bind omap list_omap]. unfold names in Hn.
    rewrite Hn. cbn [mbind option_bind]. rewrite Hsp. cbn [mbind option_bind]. rewrite Er. cbn [mbind option_bind].
    rewrite (Hout r Hsub1). destruct t as [g|[why|]]; simpl; rewrite ?app_nil_r, ?He; done.
Qed.

Lemma edges_of_cons r s ss : edges_of r (s :: ss) = edges_of r [s] ++ edges_of r ss.
Proof. unfold edges_of. by rewrite <- omap_app. Qed.

Lemma errors_of_cons r s ss : errors_of r (s :: ss) = errors_of r [s] ++ errors_of r ss.
Proof. unfold errors_of. by rewrite <- omap_app. Qed.

Lemma statements_ok ss st es :
  consistent st -> (forall s, s ∈ ss -> s.2 <> []) ->
  exists st', foldl (statement debug std) (Some (st, es)) ss = Some (st', es ++ edges_of (resolved st') ss) /\
    consistent st' /\ grows ss st st' /\ covers (resolved st') ss /\
    errors st' = errors st ++ errors_of (resolved st') ss.
Proof.
  revert st es. induction ss as [|s ss IH]; intros st es Hc Hs; cbn [foldl].
  { exists st. rewrite !app_nil_r. split; [done|]. split; [done|]. split; [apply grows_refl|]. split; [|done].
    intros s p Hs'. by apply not_elem_of_nil in Hs'. }
  destruct (statement_ok st es s Hc) as (st1 & Hc1 & Hg1 & Hcov1 & Hst); [apply Hs; set_solver|].
  destruct (Hst (resolved st1) (reflexivity _)) as [E1 _]. rewrite E1.
  destruct (IH st1 (es ++ edges_of (resolved st1) [s]) Hc1) as (st2 & E2 & Hc2 & Hg2 & Hcov2 & He2); [set_solver|].
  destruct (Hst (resolved st2) (g_resolved _ _ _ Hg2)) as [E1' He1]. exists st2. split.
  { etransitivity; [exact E2|]. rewrite (edges_of_cons _ s ss), (app_assoc es).
    assert (es ++ edges_of (resolved st1) [s] = es ++ edges_of (resolved st2) [s]) as ->; [|done].
    pose proof (eq_trans (eq_sym E1) E1') as Ee. by apply (inj Some), (f_equal snd) in Ee. }
  split; [done|]. split; [by apply (grows_trans [s] ss st st1 st2)|]. split.
  - intros s' p [->|Hs']%elem_of_cons Hn; [|by apply (Hcov2 s' p)].
    apply (covers_mono _ _ _ (g_resolved _ _ _ Hg2) Hcov1 s p); [set_solver|done].
  - rewrite He2, He1, (errors_of_cons _ s ss). by rewrite app_assoc.
Qed.

(** ** The files *)

(** What the parser promises: every module path it writes has a segment. *)
Context (Hparse : forall f text body errs, parse_module f text = (Some body, errs) ->
  forall s, s ∈ statement_edges body -> s.2 <> []).

(** The module's tree is the parse of its file, and its edges are what its
    statements resolve to. *)
Definition module_ok (src : SourceMap) (res : resolution) (m : LoadedModule PE) : Prop :=
  exists text, source_text src (module_file m) = Some text /\
    parse_module (module_file m) text = (ast m, parse_errors m) /\
    edges m = edges_of res (statements m) /\ covers res (statements m).

(** A file past the root is named by a module loaded from an earlier one. *)
Definition reached st (f : FileId) : Prop :=
  f = ROOT \/ exists m e, m ∈ modules st /\ e ∈ edges m /\ target e = f /\ module_file m < f.

Record loaded st : Prop := {
  ld_consistent : consistent st;
  ld_files : map module_file (modules st) ++ pending st = source_files (sources st);
  ld_modules : forall m, m ∈ modules st -> module_ok (sources st) (resolved st) m;
  ld_errors : errors st = concat (map (fun m => errors_of (resolved st) (statements m)) (modules st));
  ld_reached : forall f, f ∈ source_files (sources st) -> reached st f
}.

Lemma source_text_app st st' ss f text :
  grows ss st st' -> source_text (sources st) f = Some text -> source_text (sources st') f = Some text.
Proof.
  intros [_ _ (new & E & _) _]. unfold source_text, source_file. rewrite E.
  destruct (files_of (sources st) !! f) eqn:Ef; [|done]. by rewrite (lookup_app_l_Some _ _ _ _ Ef).
Qed.

Lemma module_ok_mono ss st st' m : grows ss st st' -> module_ok (sources st) (resolved st) m -> module_ok (sources st') (resolved st') m.
Proof.
  intros Hg (text & Ht & Hp & He & Hc). exists text. split; [by eapply source_text_app|]. split; [done|].
  pose proof (g_resolved _ _ _ Hg). split; [rewrite He; symmetry; by apply edges_of_mono|by eapply covers_mono].
Qed.

(** A file that a statement added is the target of one of the edges. *)
Lemma new_file_named ss st st' f :
  consistent st -> consistent st' -> grows ss st st' -> (forall s, s ∈ ss -> s.2 <> []) ->
  f ∈ source_files (sources st') -> f ∉ source_files (sources st) -> f <> ROOT ->
  exists e, e ∈ edges_of (resolved st') ss /\ target e = f.
Proof.
  intros Hc Hc' Hg Hne Hf Hold Hr. unfold source_files in *. rewrite elem_of_seq in Hf, Hold.
  destruct (c_files _ Hc') as (ps & E & _). assert (exists p, source_module (sources st') f = Some (Some p)) as [p Hp].
  { destruct f as [|f]; [done|]. setoid_rewrite source_module_spec. rewrite E. simpl.
    destruct (lookup_lt_is_Some_2 ps f) as [p Hp]; [|exists p; by rewrite list_lookup_fmap, Hp].
    apply (f_equal length) in E. rewrite length_map in E. simpl in E. rewrite length_map in E. lia. }
  pose proof (proj2 (c_resolved _ Hc' p f) Hp) as Hres.
  destruct (g_named _ _ _ Hg p) as [[t Ht]|([k w] & Hs & Hn)]; [by eexists| |].
  - exfalso. apply Hold. pose proof (lookup_weaken _ _ _ _ Ht (g_resolved _ _ _ Hg)) as Ht'.
    rewrite Hres in Ht'. injection Ht' as <-. apply (c_resolved _ Hc), source_module_spec, lookup_lt_Some in Ht.
    rewrite length_map in Ht. lia.
  - destruct (to_path_some w) as [Hx|(q & span & b & Hq & Hsp & _)]; [by apply (Hne (k, w))| |].
    { unfold names in Hn. simpl in Hn. congruence. }
    exists (MkEdge k span f). split; [|done]. unfold edges_of. apply list_elem_of_omap. exists (k, w). split; [done|].
    unfold outcome, names in *. simpl in *. by rewrite Hn, Hsp, Hres.
Qed.

Lemma load_file_ok st file rest :
  loaded st -> pending st = file :: rest ->
  exists st', load_file debug std parse_module
      (MkLoader (sources st) (resolved st) (modules st) (errors st) rest (files st)) file = Some st' /\
    loaded st' /\ length (modules st') = S (length (modules st)).
Proof.
  intros Hl Hpend. set (st0 := MkLoader (sources st) (resolved st) (modules st) (errors st) rest (files st)).
  assert (file ∈ source_files (sources st)) as Hfile by (rewrite <- (ld_files _ Hl), Hpend; set_solver).
  assert (exists text, source_text (sources st0) file = Some text) as [text Htext].
  { unfold source_files in Hfile. apply elem_of_seq in Hfile.
    destruct (lookup_lt_is_Some_2 (files_of (sources st)) file) as [x Hx]; [lia|].
    exists (file_text x). exact (f_equal (fmap file_text) Hx). }
  unfold load_file. rewrite Htext. cbn [mbind option_bind]. destruct (parse_module file text) as [value pe] eqn:Ep.
  set (ss := statement_edges (default [] value)).
  assert (Hne : forall s, s ∈ ss -> s.2 <> []).
  { destruct value as [body|]; [by eapply Hparse|]. intros s Hs. by apply not_elem_of_nil in Hs. }
  assert (consistent st0) as Hc0 by (by destruct (ld_consistent _ Hl)).
  destruct (statements_ok ss st0 [] Hc0 Hne) as (st1 & -> & Hc1 & Hg & Hcov & He). cbn [mbind option_bind].
  simpl app. set (m := MkLoadedModule PE file value pe (edges_of (resolved st1) ss)). eexists. split; [done|].
  pose proof (g_modules _ _ _ Hg) as Em. simpl in Em. destruct (g_new _ _ _ Hg) as (new & En & Epend).
  assert (Hlen : length (source_files (sources st1)) = length (source_files (sources st)) + length new).
  { unfold source_files. rewrite !length_seq, En, length_app. done. }
  split; [split|simpl; rewrite Em, length_app; simpl; lia]; cbn [sources modules pending resolved errors].
  - by destruct Hc1.
  - rewrite Em, map_app, Epend, <- !app_assoc. simpl. rewrite app_comm_cons, app_assoc, <- Hpend, (ld_files _ Hl).
    unfold source_files. rewrite En, length_app, seq_app. done.
  - rewrite Em. intros x [Hx|Hx]%elem_of_app.
    + apply (module_ok_mono ss st0 st1 x Hg). by apply (ld_modules _ Hl).
    + apply list_elem_of_singleton in Hx as ->. exists text. split; [exact (source_text_app st0 st1 ss file text Hg Htext)|]. done.
  - rewrite He. simpl. rewrite Em, map_app, concat_app. simpl. rewrite app_nil_r, (ld_errors _ Hl). f_equal. f_equal.
    apply map_ext_in. intros x Hx%list_elem_of_In. symmetry. apply errors_of_mono; [apply (g_resolved _ _ _ Hg)|].
    by destruct (ld_modules _ Hl x Hx) as (? & _ & _ & _ & ?).
  - intros f Hf. unfold reached. cbn [modules]. destruct (decide (f ∈ source_files (sources st))) as [Hold|Hnew].
    + destruct (ld_reached _ Hl f Hold) as [|(x & e & Hx & Hr)]; [by left|right]. exists x, e.
      split; [rewrite Em; set_solver|done].
    + destruct (decide (f = ROOT)) as [|Hroot]; [by left|right].
      destruct (new_file_named ss st0 st1 f Hc0 Hc1 Hg Hne Hf Hnew Hroot) as (e & Hedge & Ht).
      exists m, e. split; [rewrite Em; set_solver|]. split; [done|]. split; [done|]. simpl.
      unfold source_files in *. rewrite elem_of_seq in *. lia.
Qed.

Lemma load_loop_ok n st :
  loaded st -> S (length universe) < n + length (modules st) ->
  exists st', load_loop debug std parse_module n st = Some st' /\ loaded st' /\ pending st' = [].
Proof.
  revert st. induction n as [|n IH]; intros st Hl Hn.
  - destruct (files_bound st (ld_consistent _ Hl)) as [_ Hb]. pose proof (f_equal length (ld_files _ Hl)) as E.
    unfold source_files in E. rewrite length_app, length_map, length_seq in E. lia.
  - cbn [load_loop]. destruct (pending st) as [|file rest] eqn:Ep; [by exists st|].
    destruct (load_file_ok st file rest Hl Ep) as (st' & -> & Hl' & Hm). cbn [mbind option_bind].
    apply IH; [done|]. lia.
Qed.
End Bounded.
End Facts.
