(* ===== verification/LoadProps.v ===== *)
(** * The contract of loading

    Loading ends with every file the root reaches, each loaded once under its own
    module path; every statement has its edge or its error; and the program is
    linked just when its graph has no cycle. *)

From stdpp Require Import list gmap relations.
From S2P Require Import Prelude Tokens RawTokens LexRules ModulePaths Ordered Loading LinkFacts LinkProps LoadFacts.
Set Warnings "-clear-no-such-hyp".
Local Open Scope nat_scope.

Section Load.
Context {L : Logos} {F PE : Type} `{ModuleFiles F}.
Context (debug : bool) (std : list (bytes * bytes)).
Context (parse_module : FileId -> bytes -> option (list Stmt) * list PE).

(** What the parser promises: every module path it writes has a segment. *)
Definition writes_paths : Prop :=
  forall f text body errs, parse_module f text = (Some body, errs) ->
  forall s, s ∈ statement_edges body -> s.2 <> [].

(** [universe] holds every module that has a file, whatever was asked for before,
    and is a number of files that file ids can tell apart. *)
Definition has_files (initial : F) (universe : list ModulePath) : Prop :=
  (forall p (f f' : F) file, fetched initial f -> find_module std p f = Some (f', inl file) -> p ∈ universe) /\
  (Z.of_nat (length universe) + 1 < 2 ^ 32)%Z.

Section Proofs.
Context (universe : list ModulePath) (root : RootFile) (initial : F).
Context (Hparse : writes_paths) (Huniverse : has_files initial universe).

Abbreviation loaded' := (loaded (F := F) debug std parse_module (root_module root) universe initial).

Lemma load_root_ok : exists st, load_root (PE := PE) root initial = Some st /\ loaded' st /\ modules st = [].
Proof.
  unfold load_root. destruct (root_module root) as [p|] eqn:Er; simpl; eexists; (split; [reflexivity|]); split; try done; split; simpl.
  - split; simpl.
    + intros q g. rewrite source_module_spec. simpl. destruct (decide (p = q)) as [->|Hpq].
      * rewrite lookup_singleton_eq. destruct g as [|[|g]]; split; naive_solver.
      * rewrite lookup_singleton_ne by done. destruct g as [|[|g]]; split; naive_solver.
    + exists []. split; [done|]. split; [constructor|set_solver].
    + intros q t [<- _]%lookup_singleton_Some. by left.
    + constructor.
  - done.
  - set_solver.
  - done.
  - intros g Hg. left. unfold source_files in Hg. simpl in Hg. by apply list_elem_of_singleton in Hg.
  - split; simpl.
    + intros q g. rewrite lookup_empty, source_module_spec. simpl. destruct g as [|[|g]]; split; naive_solver.
    + exists []. split; [done|]. split; [constructor|set_solver].
    + intros q t. by rewrite lookup_empty.
    + constructor.
  - done.
  - set_solver.
  - done.
  - intros g Hg. left. unfold source_files in Hg. simpl in Hg. by apply list_elem_of_singleton in Hg.
Qed.

Lemma loaded_files st : loaded' st -> pending st = [] -> module_files (modules st) = source_files (sources st).
Proof. intros Hl Hp. pose proof (ld_files _ _ _ _ _ _ _ Hl) as E. by rewrite Hp, app_nil_r in E. Qed.

Lemma loaded_graph st : loaded' st -> pending st = [] -> graph_ok (modules st) (sources st).
Proof.
  intros Hl Hp. pose proof (loaded_files st Hl Hp) as E. split; rewrite E.
  - apply NoDup_seq.
  - intros f g (m & e & Hm & _ & He & <-). destruct (ld_modules _ _ _ _ _ _ _ Hl m Hm) as (text & _ & _ & Ee & _).
    rewrite Ee in He. apply list_elem_of_omap in He as (s & _ & Hs). unfold outcome in Hs.
    destruct (to_path debug s.2) as [[p|]|]; try done. destruct (written_span s.2); [|done].
    destruct (resolved st !! p) as [[t|[w|]]|] eqn:Er; try done. injection Hs as <-. simpl.
    apply (c_resolved _ _ _ _ _ (ld_consistent _ _ _ _ _ _ _ Hl)), source_module_spec, lookup_lt_Some in Er.
    rewrite length_map in Er. unfold source_files. apply elem_of_seq. lia.
  - intros f Hf. unfold source_files in Hf. apply elem_of_seq in Hf. unfold key, source_module, source_file.
    apply fmap_is_Some, lookup_lt_is_Some_2. lia.
Qed.

Lemma loaded_distinct st : loaded' st -> pending st = [] -> distinct_keys (modules st) (sources st).
Proof.
  intros Hl Hp f g Hf Hg E. destruct (graph_keys _ _ (loaded_graph st Hl Hp) f Hf) as [[p|] Hk].
  - pose proof (c_resolved _ _ _ _ _ (ld_consistent _ _ _ _ _ _ _ Hl) p) as Hr.
    pose proof (proj2 (Hr f) Hk) as H1. rewrite E in Hk. pose proof (proj2 (Hr g) Hk) as H2. congruence.
  - assert (Hroot : forall x, key (sources st) x = Some None -> x = 0).
    { intros x Hx. unfold key in Hx. apply source_module_spec in Hx.
      destruct (c_files _ _ _ _ _ (ld_consistent _ _ _ _ _ _ _ Hl)) as (ps & Ef & _). rewrite Ef in Hx.
      destruct x as [|x]; [done|]. simpl in Hx. rewrite list_lookup_fmap in Hx. by destruct (ps !! x). }
    rewrite (Hroot f Hk), (Hroot g); [done|]. by rewrite <- E.
Qed.

(** Every file is reached from the root: its importer is an earlier file. *)
Lemma loaded_reached st f : loaded' st -> pending st = [] -> f ∈ source_files (sources st) -> rtc (imports (modules st)) ROOT f.
Proof.
  intros Hl Hp. induction f as [f IH] using lt_wf_ind. intros Hf.
  destruct (ld_reached _ _ _ _ _ _ _ Hl f Hf) as [->|(m & e & Hm & He & Ht & Hlt)]; [apply rtc_refl|].
  apply rtc_r with (module_file m).
  - apply IH; [done|]. rewrite <- (loaded_files st Hl Hp). by apply list_elem_of_fmap_2.
  - exists m, e. auto.
Qed.

(** A whole load, by the state it ends in. *)
Lemma load_with_ok fuel :
  length universe + 2 <= fuel ->
  exists st cyc, loaded' st /\ pending st = [] /\ cycles (modules st) (sources st) = Some cyc /\
    exists order, load_with debug std parse_module fuel root initial =
      Some (MkLoadedProgram (sources st) (modules st) order (errors st ++ cyc)) /\
      match cyc with [] => order = link_order (modules st) (sources st) /\ is_Some order /\ acyclic (modules st)
                | _ => order = None /\ ~ acyclic (modules st) end.
Proof.
  intros Hfuel. destruct load_root_ok as (st0 & E0 & Hl0 & Hm0).
  destruct Huniverse as [Hfin Hsmall].
  destruct (load_loop_ok debug std parse_module (root_module root) universe initial Hfin Hsmall Hparse fuel st0 Hl0) as (st & E1 & Hl & Hp).
  { rewrite Hm0. simpl. lia. }
  pose proof (loaded_graph st Hl Hp) as Hok.
  destruct (cycles_ok (modules st) (sources st) Hok) as (comps & cyc & Ec & HF & _ & Hin & _).
  pose proof (no_cycles _ _ comps cyc Hok HF Hin) as Hac. exists st, cyc. do 3 (split; [done|]).
  unfold load_with. rewrite E0. cbn [mbind option_bind]. rewrite E1. cbn [mbind option_bind]. rewrite Ec. cbn [mbind option_bind].
  destruct cyc as [|e cyc].
  - assert (acyclic (modules st)) as Ha by (by apply Hac).
    destruct (link_order_ok _ _ Hok Ha) as (order & -> & _). exists (Some order). simpl. eauto.
  - exists None. split; [done|]. split; [done|]. intros Ha. by apply Hac in Ha.
Qed.
End Proofs.
End Load.

(** ** Each path is asked for once *)

(** Files that record what they are asked for. *)
#[export] Instance recorded_files {F} `{ModuleFiles F} : ModuleFiles (F * list ModulePath) := fun '(f, log) p =>
  let '(f, r) := fetch f p in ((f, log ++ [p]), r).

Section Invariant.
Context {L : Logos} {F PE : Type} `{ModuleFiles F} (debug : bool) (std : list (bytes * bytes)).
Context (parse_module : FileId -> bytes -> option (list Stmt) * list PE).
Context (I : gmap ModulePath (FileId + option MissingModule) -> F -> Prop).
Context (Hresolve : forall (st st' : Loader (F := F) (PE := PE)) p t,
  resolve std st p = Some (st', t) -> I (resolved st) (files st) -> I (resolved st') (files st')).

Implicit Types st : Loader (F := F) (PE := PE).

Lemma statement_invariant st es s st' es' :
  statement debug std (Some (st, es)) s = Some (st', es') -> I (resolved st) (files st) -> I (resolved st') (files st').
Proof.
  unfold statement. destruct s as [k w]. simpl. destruct (to_path debug w) as [[p|]|]; simpl; [|by intros [= <- <-]|done].
  destruct (written_span w); simpl; [|done]. destruct (resolve std st p) as [[st1 t]|] eqn:E; simpl; [|done].
  intros Es HI. apply (Hresolve _ _ _ _ E) in HI. destruct t as [g|[why|]]; simplify_eq; done.
Qed.

Lemma load_loop_invariant n st st' :
  load_loop debug std parse_module n st = Some st' -> I (resolved st) (files st) -> I (resolved st') (files st').
Proof.
  revert st. induction n as [|n IH]; intros st; simpl; [done|].
  destruct (pending st) as [|file rest]; [by intros [= ->]|]. unfold load_file. simpl.
  destruct (source_text (sources st) file) as [text|]; simpl; [|done]. destruct (parse_module file text) as [value pe].
  set (st0 := MkLoader (sources st) (resolved st) (modules st) (errors st) rest (files st)).
  destruct (foldl (statement debug std) (Some (st0, [])) (statement_edges (default [] value))) as [[st1 es1]|] eqn:E; [|done].
  simpl. intros Hl HI. apply (IH _ Hl). simpl. assert (I (resolved st0) (files st0)) as HI0 by done. revert E HI0.
  generalize st0, (@nil Edge). clear -Hresolve.
  induction (statement_edges (default [] value)) as [|s ss IHs]; intros st0 es; cbn [foldl].
  - by intros [= -> _].
  - destruct (statement debug std (Some (st0, es)) s) as [[st2 es2]|] eqn:E; intros Ef HI.
    + apply (IHs _ _ Ef). by apply (statement_invariant _ _ _ _ _ E).
    + exfalso. clear -Ef. induction ss as [|x ss IH]; [done|]. by apply IH.
Qed.
End Invariant.

(** ** Properties *)

(** C38: loading ends, with fuel for one round per module that has a file, in a
    program whose modules are its files in the order found, each loaded once; every
    file is reached from the root, every edge leads to a loaded file, and no two
    files are one module. *)
Theorem load_reaches {L : Logos} {F PE} `{ModuleFiles F} debug std
    (parse_module : FileId -> bytes -> option (list Stmt) * list PE) universe root (f : F) fuel :
  writes_paths parse_module -> has_files std f universe -> length universe + 2 <= fuel ->
  exists prog, load_with debug std parse_module fuel root f = Some prog /\
    map module_file (program_modules prog) = source_files (program_sources prog) /\
    graph_ok (program_modules prog) (program_sources prog) /\
    distinct_keys (program_modules prog) (program_sources prog) /\
    forall file, file ∈ source_files (program_sources prog) -> rtc (imports (program_modules prog)) ROOT file.
Proof.
  intros Hparse Hu Hfuel. destruct (load_with_ok debug std parse_module universe root f Hparse Hu fuel Hfuel)
    as (st & cyc & Hl & Hp & _ & order & -> & _). eexists. split; [reflexivity|]. cbn [program_modules program_sources].
  split; [by apply (loaded_files debug std parse_module universe root f)|].
  split; [by apply (loaded_graph debug std parse_module universe root f)|].
  split; [by apply (loaded_distinct debug std parse_module universe root f)|].
  intros file. by apply (loaded_reached debug std parse_module universe root f).
Qed.

(** C39: every statement of a loaded module has its edge or its error: under one
    resolution of the paths they name, which is what the files gave and agrees with the
    source map, each module's edges are those of its statements in their order, and the
    errors are those of all modules in file order, then the cycles. *)
Theorem load_resolves {L : Logos} {F PE} `{ModuleFiles F} debug std
    (parse_module : FileId -> bytes -> option (list Stmt) * list PE) universe root (f : F) fuel :
  writes_paths parse_module -> has_files std f universe -> length universe + 2 <= fuel ->
  exists prog res cyc, load_with debug std parse_module fuel root f = Some prog /\
    (forall p file, res !! p = Some (inl file) <-> source_module (program_sources prog) file = Some (Some p)) /\
    (forall p t, res !! p = Some t -> found std (root_module root) f (program_sources prog) p t) /\
    (forall m, m ∈ program_modules prog -> module_ok debug parse_module (program_sources prog) res m) /\
    cycles (program_modules prog) (program_sources prog) = Some cyc /\
    program_errors prog = concat (map (fun m => errors_of debug res (statements m)) (program_modules prog)) ++ cyc.
Proof.
  intros Hparse Hu Hfuel. destruct (load_with_ok debug std parse_module universe root f Hparse Hu fuel Hfuel)
    as (st & cyc & Hl & Hp & Hc & order & -> & _). eexists _, (resolved st), cyc. split; [reflexivity|].
  cbn [program_modules program_sources program_errors]. destruct (ld_consistent _ _ _ _ _ _ _ Hl) as [Hr _ Hf _].
  split; [done|]. split; [done|]. split; [apply (ld_modules _ _ _ _ _ _ _ Hl)|]. split; [done|].
  by rewrite (ld_errors _ _ _ _ _ _ _ Hl).
Qed.

(** A program is linked just when its module graph is acyclic; otherwise it
    has a cycle among its errors. *)
Theorem load_links {L : Logos} {F PE} `{ModuleFiles F} debug std
    (parse_module : FileId -> bytes -> option (list Stmt) * list PE) universe root (f : F) fuel :
  writes_paths parse_module -> has_files std f universe -> length universe + 2 <= fuel ->
  exists prog, load_with debug std parse_module fuel root f = Some prog /\
    (is_Some (program_link_order prog) <-> acyclic (program_modules prog)) /\
    (is_Some (program_link_order prog) ->
      program_link_order prog = link_order (program_modules prog) (program_sources prog)) /\
    (program_link_order prog = None <-> exists steps, Cycle steps ∈ program_errors prog).
Proof.
  intros Hparse Hu Hfuel. destruct (load_with_ok debug std parse_module universe root f Hparse Hu fuel Hfuel)
    as (st & cyc & Hl & Hp & Hc & order & -> & Hcyc). eexists. split; [reflexivity|].
  cbn [program_modules program_sources program_link_order program_errors].
  assert (Hno : forall steps, Cycle steps ∉ errors st).
  { intros steps. rewrite (ld_errors _ _ _ _ _ _ _ Hl), elem_of_concat.
    intros (c & (m & -> & _)%list_elem_of_fmap & (s & _ & Hs)%list_elem_of_omap). unfold outcome in Hs.
    repeat case_match; simplify_eq. }
  destruct cyc as [|e cyc].
  - destruct Hcyc as (-> & Hs & Ha). split; [done|]. split; [done|]. split.
    + intros E. rewrite E in Hs. by destruct Hs.
    + intros (steps & Hin). rewrite app_nil_r in Hin. by apply Hno in Hin.
  - destruct Hcyc as [-> Hna]. split; [|split; [|split]].
    + split; [by intros [? ?]|done].
    + by intros [? ?].
    + intros _. pose proof (loaded_graph debug std parse_module universe root f st Hl Hp) as Hok.
      destruct (cycles_ok _ _ Hok) as (comps & errs & Ec & HF & _). rewrite Hc in Ec. injection Ec as <-.
      apply Forall2_cons_inv_r in HF as (c & cs & (start & rest & p & steps & _ & -> & _) & _ & _).
      exists steps. set_solver.
    + done.
Qed.

(** Loading asks its files for a module path at most once, and never for a
    path under the std root. *)
Theorem fetches_once {L : Logos} {F PE} `{ModuleFiles F} debug std
    (parse_module : FileId -> bytes -> option (list Stmt) * list PE) root (f : F) fuel st0 st :
  load_root root (f, []) = Some st0 -> load_loop debug std parse_module fuel st0 = Some st ->
  NoDup (files st).2 /\ forall p, p ∈ (files st).2 -> is_std p = Some false.
Proof.
  intros E0 E.
  set (I := fun (res : gmap ModulePath (FileId + option MissingModule)) (fl : F * list ModulePath) =>
    NoDup fl.2 /\ forall p, p ∈ fl.2 -> is_std p = Some false /\ is_Some (res !! p)).
  assert (I (resolved st) (files st)) as [Hnd Hin]; [|split; [done|intros p Hp; by apply Hin]].
  apply (load_loop_invariant debug std parse_module I) with (n := fuel) (st := st0); [|done|].
  - clear. intros st st' p t. unfold resolve. destruct (resolved st !! p) as [t'|] eqn:Ep; [by intros [= <- <-]|].
    destruct (find_module std p (files st)) as [[fl found]|] eqn:Ef; simpl; [|done]. intros E [Hnd Hin].
    assert (Hfl : NoDup fl.2 /\ forall q, q ∈ fl.2 -> is_std q = Some false /\ (q = p \/ q ∈ (files st).2)).
    { unfold find_module in Ef. destruct (is_std p) as [b|] eqn:Eb; simpl in Ef; [|done]. injection Ef as Ef.
      destruct b; [injection Ef as <- _; split; [done|]; intros q Hq; split; [by apply Hin|by right]|].
      destruct (files st) as [g log] eqn:Eg. unfold fetch, recorded_files in Ef. destruct (fetch g p) as [g' r].
      injection Ef as <- _. simpl in *. split.
      - apply NoDup_app. split; [done|]. split; [|apply NoDup_singleton]. intros q Hq ->%list_elem_of_singleton.
        destruct (Hin p Hq) as [_ [? ?]]. congruence.
      - intros q [Hq| ->%list_elem_of_singleton]%elem_of_app; [split; [by apply Hin|by right]|by split; [|left]]. }
    destruct Hfl as [Hnd' Hin']. assert (Hins : forall v, I (<[p := v]> (resolved st)) fl).
    { intros v. split; [done|]. intros q Hq. destruct (Hin' q Hq) as [Hs Hq']. split; [done|].
      destruct (decide (p = q)) as [->|Hne]; [rewrite lookup_insert_eq; by eexists|].
      rewrite lookup_insert_ne by done. destruct Hq' as [->|Hq']; [done|]. by apply Hin. }
    destruct found as [file|why].
    + destruct (add_module _ _ _ _) as [[added src]|]; simpl in E; [|done]. injection E as <- <-. apply Hins.
    + injection E as <- <-. apply Hins.
  - unfold load_root in E0. destruct (root_module root).
    + destruct (add_module _ _ _ _) as [[x y]|]; simpl in E0; [|done]. injection E0 as <-. split; [constructor|set_solver].
    + destruct (add _ _ _) as [[x y]|]; simpl in E0; [|done]. injection E0 as <-. split; [constructor|set_solver].
Qed.

(** ** Modules held in memory *)

Lemma in_memory_fetched (m f : InMemory) : fetched m f -> f = m.
Proof. induction 1 as [|f p _ IH]; [done|exact IH]. Qed.

(** The modules held are the ones that have a file. *)
Lemma in_memory_has_files (m : InMemory) :
  (Z.of_nat (length (map_to_list m)) + 1 < 2 ^ 32)%Z -> has_files [] m (map fst (map_to_list m)).
Proof.
  intros Hs. split; [|by rewrite length_map].
  intros p f f' file ->%in_memory_fetched. unfold find_module, fetch, in_memory_files.
  destruct (is_std p) as [[]|]; simpl; [done| |done]. destruct (m !! p) as [text|] eqn:E; [|done]. intros _.
  apply list_elem_of_fmap. exists (p, text). split; [done|]. by apply elem_of_map_to_list.
Qed.

(** A shop of three modules, whose root also names a module with no file and one
    that the std root lacks. *)
Definition written (segments : list string) : WrittenPath := map (fun s => (sample_span, lit s)) segments.

Definition shop_parse (_ : FileId) (text : bytes) : option (list Stmt) * list unit :=
  (if decide (text = lit "main") then
     Some [StmtImport (written ["cart"]); StmtPub (StmtImport (written ["tax"])); StmtImport (written ["gone"]);
           StmtImport (written ["std"; "io"]); StmtOther]
   else if decide (text = lit "cart") then Some [StmtRun (written ["tax"]); StmtImport (written ["cart"; "Item"])]
   else Some [], []).

Definition shop_files : InMemory := {[ [lit "cart"] := lit "cart"; [lit "tax"] := lit "tax" ]}.

Definition shop_root : RootFile := MkRootFile (lit "main.cambra") (Some [lit "main"]) (lit "main").

Lemma shop_writes_paths : writes_paths shop_parse.
Proof.
  intros f text body errs E s. apply (f_equal fst) in E. unfold shop_parse in E. cbn [fst] in E.
  destruct (decide (text = lit "main")).
  - injection E as <-. revert s. apply Forall_forall. vm_compute. repeat (constructor; [discriminate|]). constructor.
  - destruct (decide (text = lit "cart")); injection E as <-.
    + revert s. apply Forall_forall. vm_compute. repeat (constructor; [discriminate|]). constructor.
    + intros Hs. by apply not_elem_of_nil in Hs.
Qed.

Lemma shop_has_files : has_files [] shop_files (map fst (map_to_list shop_files)).
Proof. apply in_memory_has_files. vm_compute. reflexivity. Qed.

(** What a load returned, reduced to data. *)
Definition summary (p : option (LoadedProgram (PE := unit))) :=
  (fun p => (program_link_order p, length (program_errors p), length (program_modules p))) <$> p.

Lemma shop_summary :
  summary (load_with true [] shop_parse 4 shop_root shop_files) = Some (Some [2; 1; 0], 2, 3).
Proof. vm_compute. reflexivity. Qed.

Lemma load_reaches_witness :
  exists prog, load_with true [] shop_parse 4 shop_root shop_files = Some prog /\ length (program_modules prog) = 3 /\
    forall file, file ∈ source_files (program_sources prog) -> rtc (imports (program_modules prog)) ROOT file.
Proof.
  destruct (load_reaches true [] shop_parse (map fst (map_to_list shop_files)) shop_root shop_files 4)
    as (prog & E & _ & _ & _ & Hr).
  - exact shop_writes_paths.
  - exact shop_has_files.
  - vm_compute. lia.
  - pose proof shop_summary as Hs. rewrite E in Hs. injection Hs as _ _ Hs. exists prog. split; [exact E|]. split; [exact Hs|exact Hr].
Defined.

Lemma load_resolves_witness :
  exists prog res cyc, load_with true [] shop_parse 4 shop_root shop_files = Some prog /\
    (forall m, m ∈ program_modules prog -> module_ok true shop_parse (program_sources prog) res m) /\
    program_errors prog = concat (map (fun m => errors_of true res (statements m)) (program_modules prog)) ++ cyc /\
    length (program_errors prog) = 2.
Proof.
  destruct (load_resolves true [] shop_parse (map fst (map_to_list shop_files)) shop_root shop_files 4)
    as (prog & res & cyc & E & _ & _ & Hm & _ & He).
  - exact shop_writes_paths.
  - exact shop_has_files.
  - vm_compute. lia.
  - pose proof shop_summary as Hs. rewrite E in Hs. injection Hs as _ Hs _. exists prog, res, cyc.
    split; [exact E|]. split; [exact Hm|]. split; [exact He|exact Hs].
Defined.

Lemma load_links_witness :
  exists prog, load_with true [] shop_parse 4 shop_root shop_files = Some prog /\
    program_link_order prog = Some [2; 1; 0] /\ acyclic (program_modules prog).
Proof.
  destruct (load_links true [] shop_parse (map fst (map_to_list shop_files)) shop_root shop_files 4)
    as (prog & E & Hac & _).
  - exact shop_writes_paths.
  - exact shop_has_files.
  - vm_compute. lia.
  - pose proof shop_summary as Hs. rewrite E in Hs. injection Hs as Hs _ _. exists prog. split; [exact E|]. split; [exact Hs|].
    apply Hac. rewrite Hs. by eexists.
Defined.

(** The load of the shop over files that record their requests. *)
Definition shop_run : option (Loader (F := InMemory * list ModulePath) (PE := unit)) :=
  st ← load_root shop_root (shop_files, []); load_loop true [] shop_parse 4 st.

Lemma fetches_once_witness :
  exists st, shop_run = Some st /\ (files st).2 = [[lit "cart"]; [lit "tax"]; [lit "gone"]] /\ NoDup (files st).2.
Proof.
  destruct (load_root (PE := unit) (F := InMemory * list ModulePath) shop_root (shop_files, [])) as [st0|] eqn:E0;
    [|exfalso; vm_compute in E0; discriminate E0].
  destruct shop_run as [st|] eqn:E.
  - exists st. split; [reflexivity|]. split.
    + assert ((fun st => (files st).2) <$> shop_run = Some [[lit "cart"]; [lit "tax"]; [lit "gone"]]) as Hs
        by (vm_compute; reflexivity).
      rewrite E in Hs. injection Hs as Hs. exact Hs.
    + unfold shop_run in E. rewrite E0 in E. apply (fetches_once true [] shop_parse shop_root shop_files 4 st0 st E0 E).
  - exfalso. assert (bool_decide (is_Some shop_run) = true) as Hs by (vm_compute; reflexivity). rewrite E in Hs. discriminate Hs.
Defined.
