(* ===== verification/Syntax.v ===== *)
(** * CHL syntax ([chl-parser/src/ast.rs], [builtins.rs])

    The syntax tree that the parser builds and that lowering and the reference interpreter
    read, every constructor and field, with the table of surface builtins.  A [SmolStr] is a
    [string].  The structs that hold expressions or statements are records over those types, so
    that [Expr], [Stmt] and [AssignTarget] are one mutual family nested through them; the
    abbreviations after it are the Rust types.  [Expr::X] is [EX], [Stmt::X] is [SX] and
    [AssignTarget::X] is [TargetX]. *)

From stdpp Require Import list strings.
From S2P Require Import Prelude Tokens.
Set Warnings "-register-all".

(** [Spanned]. *)
Record Spanned (T : Type) := MkSpanned { span : Span; node : T }.
Arguments MkSpanned {T}.
Arguments span {T}.
Arguments node {T}.

(** ** Operators *)

Inductive BinOp :=
  | OpAdd | OpAddRefined | OpSub | OpMul | OpFloorDiv | OpPow
  | OpLogicalAnd | OpLogicalOr | OpLogicalXor | OpCollectionUnion.
Inductive UnaryOp := OpNeg | OpNot.
Inductive BoolOp := OpAnd | OpOr.
Inductive CmpOp := CEq | CNotEq | CLt | CLtE | CGt | CGtE.
Inductive AugOp := AugAdd | AugSub | AugMul | AugFloorDiv.
Inductive Arrow := ArrowCompute | ArrowData.

(** ** Parts that hold no expression *)

Inductive Lit := LitInt (n : Z) | LitString (s : string) | LitBool (b : bool).

Record WrittenPath := MkWrittenPath { segments : list (Spanned string) }.
Record UseItem := MkUseItem { use_name : Spanned string; use_alias : option (Spanned string) }.
Inductive DiscardHead :=
  | DiscardName (name : Spanned string)
  | DiscardRun (path : WrittenPath) (alias : option (Spanned string)).

Record ConstructorPattern := MkConstructorPattern {
  type_path : list (Spanned string);
  ctor : Spanned string;
  binders : option (list (Spanned (option string)))
}.
Inductive PayloadPattern := PayloadNamed (n : string) | PayloadIgnored | PayloadAbsent.
Record MatchPattern := MkMatchPattern {
  mp_tag : string; mp_tag_span : Span; mp_tag_qualifier : list (Spanned string); mp_payload : PayloadPattern
}.
Inductive ArmPattern := ArmTag (p : MatchPattern) | ArmConstructor (p : ConstructorPattern).

Inductive AnnotationMode := AnnExact | AnnBounded.
Inductive BindingTransparency := Transparent | Opaque.
Inductive EntryForm := EntryAnnotated | EntryExact | EntryBounded.
Record QualifiedName := MkQualifiedName { qualifier : list (Spanned string); q_name : Spanned string }.

(** ** Parts over the types of expressions, statements and targets *)

Section Parts.
Context (E : Type).

Record TypeAnnotation_ := MkTypeAnnotation { mode : AnnotationMode; ann_ty : Spanned E }.
Record KeywordArg_ := MkKeywordArg { kw_name : Spanned string; kw_value : Spanned E }.
Record Param_ := MkParam { p_name : string; p_name_span : Span; p_annotation : option TypeAnnotation_ }.
Inductive KindAnnotation_ := KindIs (kind : Spanned E) | KindBound (bound : Spanned E).
Record TypeParam_ := MkTypeParam { tp_name : string; tp_name_span : Span; tp_annotation : option KindAnnotation_ }.
Record TraitType_ := MkTraitType {
  tt_qualifier : list (Spanned string); tt_name : string; tt_name_span : Span; tt_args : list (Spanned E)
}.
Record AssocArg_ := MkAssocArg { aa_name : string; aa_name_span : Span; aa_value : Spanned E }.

Inductive Requirement_ :=
  | ReqTrait (binder : option (Spanned string)) (ty : TraitType_)
  | ReqBound (instance member : Spanned string) (bound : Spanned E)
  | ReqSubtype (sub sup : Spanned E)
  | ReqForall (binders : list (Spanned string * Spanned E)) (requirements : list (Spanned Requirement_)).

Record FunctionSignature_ := MkFunctionSignature {
  sig_name : Spanned string; sig_type_params : list TypeParam_; sig_params : list Param_;
  sig_output : option (Spanned E); sig_requires : list (Spanned Requirement_)
}.
Inductive TraitItem_ :=
  | ItemAssocType (name : Spanned string) (bound : option (Spanned E))
  | ItemFunction (sig : Spanned FunctionSignature_).
Record TraitDecl_ := MkTraitDecl {
  td_name : Spanned string; td_params : list (Spanned string);
  td_requires : list (Spanned Requirement_); td_items : list TraitItem_
}.

Record ConstructorParam_ := MkConstructorParam { cp_name : option (Spanned string); cp_ty : Spanned E }.
Record Constructor_ := MkConstructor { ct_name : Spanned string; ct_params : list ConstructorParam_ }.
Inductive TypeDeclBody_ := DeclConstructors (ctors : list Constructor_) | DeclSingle (ty : Spanned E).
Record TypeDecl_ := MkTypeDecl { decl_name : Spanned string; decl_params : list TypeParam_; decl_body : TypeDeclBody_ }.

Inductive VariantPayload_ := PayloadTerm (e : Spanned E) | PayloadFields (e : Spanned E).
Record RecordField_ := MkRecordField {
  rf_name : string; rf_name_span : Span; rf_qualifier : list (Spanned string); rf_value : Spanned E
}.
Record ModuleTypeEntry_ := MkModuleTypeEntry {
  me_name : string; me_name_span : Span; me_qualifier : list (Spanned string); me_form : EntryForm; me_value : Spanned E
}.

Context (S T : Type).
Record ImplBlock_ := MkImplBlock {
  ib_vars : list (Spanned string); ib_qualifier : list (Spanned string); ib_ty : Spanned string;
  ib_args : list (Spanned E); ib_assoc : list AssocArg_; ib_requires : list (Spanned Requirement_);
  ib_defs : list (Spanned S)
}.
Record IfBranch_ := MkIfBranch { cond : Spanned E; branch_body : list (Spanned S) }.
Record MatchArm_ := MkMatchArm { arm_pattern : option ArmPattern; arm_body : list (Spanned S) }.
Inductive CompClause_ := ClauseFor (target : Spanned T) (iter : Spanned E) | ClauseIf (guard : Spanned E).
Record Comprehension_ := MkComprehension { element : Spanned E; clauses : list CompClause_ }.
End Parts.

(** ** Expressions, assignment targets and statements *)

Inductive Expr :=
  | ELit (l : Lit)
  | EName (n : string)
  | EQualified (q : QualifiedName)
  | ESummon (trait_type : Spanned (TraitType_ Expr)) (function : Spanned string)
  | EBinOp (left : Spanned Expr) (op : BinOp) (right : Spanned Expr)
  | EUnaryOp (op : UnaryOp) (operand : Spanned Expr)
  | EBoolOp (op : BoolOp) (operands : list (Spanned Expr))
  | ECompare (left : Spanned Expr) (ops : list CmpOp) (comparators : list (Spanned Expr))
  | ECall (func : Spanned Expr) (args : list (Spanned Expr))
  | EMethodCall (receiver : Spanned Expr) (method : Spanned string) (args : list (Spanned Expr))
  | EList (items : list (Spanned Expr))
  | ETuple (items : list (Spanned Expr))
  | ERecord (fields : list (RecordField_ Expr))
  | EBraceRecord (fields : list (RecordField_ Expr))
  | EModuleType (entries : list (ModuleTypeEntry_ Expr))
  | EBraceGroup (items : list (Spanned Expr))
  | ERest
  | EBraceRefinement (base predicate : Spanned Expr)
  | EFunctionType (domain : Spanned Expr) (arrow : Arrow) (codomain : Spanned Expr)
  | ESubscript (target index : Spanned Expr) (checked : bool)
  | EAttribute (target : Spanned Expr) (attr : string) (attr_span : Span) (attr_qualifier : list (Spanned string))
  | EVariantCtor (tag : string) (tag_span : Span) (tag_qualifier : list (Spanned string)) (payload : option (VariantPayload_ Expr))
  | ELambda (params : list (Param_ Expr)) (body : Spanned Expr)
  | EForall (type_params : list (TypeParam_ Expr)) (body : Spanned Expr) (requires : list (Spanned (Requirement_ Expr)))
  | ETypeBinder (name : Spanned string) (ty : Spanned Expr)
  | EIfExp (cond then_expr else_expr : Spanned Expr)
  | EListComp (comp : Comprehension_ Expr AssignTarget)
  | EGenExp (comp : Comprehension_ Expr AssignTarget)
  | EYield (e : Spanned Expr)
  | EFeed (target value : Spanned Expr)
  | EBlock (stmt : Spanned Stmt)
  | EError
with AssignTarget :=
  | TargetName (n : string)
  | TargetTuple (elts : list (Spanned AssignTarget))
  | TargetSubscript (target index : Spanned Expr)
  | TargetQualified (q : QualifiedName)
  | TargetConstructor (p : ConstructorPattern)
with Stmt :=
  | SExpr (e : Spanned Expr)
  | SAssign (target : Spanned AssignTarget) (value : Spanned Expr) (transparency : BindingTransparency)
  | SAnnAssign (target : Spanned AssignTarget) (annotation : TypeAnnotation_ Expr) (value : Spanned Expr)
  | SDeclare (target : Spanned AssignTarget) (annotation : TypeAnnotation_ Expr)
  | SAugAssign (target : Spanned AssignTarget) (op : AugOp) (value : Spanned Expr)
  | SMutAssign (target : Spanned AssignTarget) (annotation : option (TypeAnnotation_ Expr)) (value : Spanned Expr)
  | SLoadFrom (target : Spanned AssignTarget) (annotation : TypeAnnotation_ Expr) (source : Spanned string)
  | SDefine (target : Spanned AssignTarget) (value : Spanned Expr)
  | SIf (branches : list (IfBranch_ Expr Stmt)) (else_body : option (list (Spanned Stmt)))
  | SMatch (scrutinee : Spanned Expr) (arms : list (MatchArm_ Stmt))
  | SFor (target : Spanned AssignTarget) (iter : Spanned Expr) (body : list (Spanned Stmt))
  | SFunctionDef (owner : option (Spanned string)) (name : Spanned string) (type_params : list (TypeParam_ Expr))
      (params : list (Param_ Expr)) (output : option (Spanned Expr)) (requires : list (Spanned (Requirement_ Expr)))
      (body : list (Spanned Stmt))
  | STypeDecl (decl : TypeDecl_ Expr)
  | SImpl (block : ImplBlock_ Expr Stmt)
  | SInstance (block : ImplBlock_ Expr Stmt)
  | STraitDecl (decl : TraitDecl_ Expr)
  | SWith (binding : option string) (context : Spanned Expr) (body : list (Spanned Stmt))
  | SReturn (value : option (Spanned Expr))
  | SImport (path : WrittenPath) (args : list (KeywordArg_ Expr)) (alias : option (Spanned string)) (uses : list UseItem)
  | SRun (path : WrittenPath) (args : list (KeywordArg_ Expr)) (alias : option (Spanned string)) (uses : list UseItem)
      (renamed_from : option (Spanned string))
  | SParam (name : Spanned string) (annotation : option (TypeAnnotation_ Expr)) (default : option (Spanned Expr))
      (constant : option Span)
  | SDiscard (head : DiscardHead)
  | SPub (keyword : Span) (stmt : Spanned Stmt)
  | SPass
  | SError.

Abbreviation TypeAnnotation := (TypeAnnotation_ Expr).
Abbreviation Param := (Param_ Expr).
Abbreviation Requirement := (Requirement_ Expr).
Abbreviation ImplBlock := (ImplBlock_ Expr Stmt).
Abbreviation IfBranch := (IfBranch_ Expr Stmt).
Abbreviation MatchArm := (MatchArm_ Stmt).
Abbreviation CompClause := (CompClause_ Expr AssignTarget).
Abbreviation Comprehension := (Comprehension_ Expr AssignTarget).

(** [Module]. *)
Record Module_ := MkModule { module_file_id : FileId; module_body : list (Spanned Stmt) }.

(** [ArmPattern::as_tag]. *)
Definition as_tag (p : ArmPattern) : option MatchPattern :=
  match p with ArmTag p => Some p | ArmConstructor _ => None end.

(** The names a constructor pattern binds. *)
Definition pattern_names (p : ConstructorPattern) : list string :=
  omap node (default [] (binders p)).

(** [AssignTarget::bound_names] and [collect_bound_names]. *)
Fixpoint bound_names (t : AssignTarget) : list string :=
  match t with
  | TargetName n => if decide (n = "_"%string) then [] else [n]
  | TargetTuple components => flat_map (fun c => bound_names (node c)) components
  | TargetConstructor p => pattern_names p
  | TargetSubscript _ _ | TargetQualified _ => []
  end.

(** [Expr::is_variant_arms]. *)
Fixpoint is_variant_arms (e : Expr) : bool :=
  match e with
  | EVariantCtor _ _ _ _ => true
  | EBinOp l OpLogicalOr r => is_variant_arms (node l) && is_variant_arms (node r)
  | _ => false
  end.

(** [is_type_name], of a name whose first character is in the Basic Latin block. *)
Definition is_type_name (name : string) : bool :=
  match name with
  | String c _ => let n := nat_of_ascii c in (65 <=? n) && (n <=? 90)
  | EmptyString => false
  end.

(** ** The surface builtins *)

Inductive SurfaceBuiltin :=
  | BSum | BMax | BMin | BGroupby | BSet | BMap | BBox | BEmptyMap | BIntToUint | BAwaitFinal
  | BBegin | BHttpServe | BTestSink | BStdin | BSummon.

#[export] Instance SurfaceBuiltin_eq_dec : EqDecision SurfaceBuiltin.
Proof. solve_decision. Defined.

Inductive Arity := ArityExact (k : nat) | ArityAny.

(** [Arity::accepts]. *)
Definition accepts (a : Arity) (n : nat) : bool :=
  match a with ArityExact k => n =? k | ArityAny => true end.

Inductive SurfaceBuiltinKind := KFunction | KTransactionMarker | KSinkDeclaration | KSource | KQualifier.

Record SurfaceBuiltinEntry := MkEntry {
  spelling : string; builtin : SurfaceBuiltin; arity : Arity; builtin_kind : SurfaceBuiltinKind
}.

(** [SURFACE_BUILTINS]. *)
Definition SURFACE_BUILTINS : list SurfaceBuiltinEntry := [
  MkEntry "sum" BSum (ArityExact 1) KFunction;
  MkEntry "max" BMax (ArityExact 1) KFunction;
  MkEntry "min" BMin (ArityExact 1) KFunction;
  MkEntry "groupby" BGroupby (ArityExact 2) KFunction;
  MkEntry "set" BSet (ArityExact 1) KFunction;
  MkEntry "map" BMap (ArityExact 1) KFunction;
  MkEntry "box" BBox (ArityExact 1) KFunction;
  MkEntry "empty_map" BEmptyMap (ArityExact 0) KFunction;
  MkEntry "int_to_uint" BIntToUint (ArityExact 1) KFunction;
  MkEntry "await_final" BAwaitFinal (ArityExact 1) KFunction;
  MkEntry "begin" BBegin (ArityExact 0) KTransactionMarker;
  MkEntry "http_serve" BHttpServe (ArityExact 3) KSinkDeclaration;
  MkEntry "test_sink" BTestSink (ArityExact 0) KSinkDeclaration;
  MkEntry "stdin" BStdin (ArityExact 0) KSource;
  MkEntry "summon" BSummon (ArityExact 1) KQualifier
].

(** [SurfaceBuiltin::from_name]. *)
Definition from_name (name : string) : option SurfaceBuiltin :=
  builtin <$> List.find (fun e => bool_decide (spelling e = name)) SURFACE_BUILTINS.

(** The discriminant of a builtin, [self as usize]. *)
Definition builtin_index (b : SurfaceBuiltin) : nat :=
  match b with
  | BSum => 0 | BMax => 1 | BMin => 2 | BGroupby => 3 | BSet => 4 | BMap => 5 | BBox => 6 | BEmptyMap => 7
  | BIntToUint => 8 | BAwaitFinal => 9 | BBegin => 10 | BHttpServe => 11 | BTestSink => 12 | BStdin => 13 | BSummon => 14
  end.

(** [SurfaceBuiltin::entry]. *)
Definition builtin_entry (b : SurfaceBuiltin) : option SurfaceBuiltinEntry := SURFACE_BUILTINS !! builtin_index b.

(** [SurfaceBuiltin::arity]. *)
Definition builtin_arity (b : SurfaceBuiltin) : option Arity := arity <$> builtin_entry b.

(** The table is in declaration order and its spellings are distinct, so the two look-ups agree. *)
Lemma from_name_entry (b : SurfaceBuiltin) (name : string) :
  from_name name = Some b <-> exists e, builtin_entry b = Some e /\ builtin e = b /\ spelling e = name.
Proof.
  unfold from_name, builtin_entry, SURFACE_BUILTINS. split.
  - simpl. repeat (case_bool_decide; [intros [= <-]; subst; eexists; split; [reflexivity|done]|]). done.
  - intros (e & He & _ & <-). by destruct b; injection He as <-; vm_compute.
Qed.
