(* ===== verification/InterpValues.v ===== *)
(** * The values of the reference interpreter ([chl-interp/src/value.rs])

    Values, collections as key-to-value maps, the order that canonicalises them, their
    rendering and their equality.  A [Collection] is its entries.  [Display] and [total_cmp]
    call each other: a record or a collection is ordered by its rendering, and a collection is
    rendered in order.  [order_key] is what [total_cmp] reads of one value, so that both are
    functions of one value, by recursion on it.  Equality recurs into entries that are ranked
    and sorted first; the depth of the two values is its fuel.  The [Debug] rendering of a string is
    the parameter [debug_str]. *)

From stdpp Require Import list strings pretty.
From S2P Require Import Prelude Ordered.
Set Warnings "-register-all".
Local Open Scope Z_scope.

Inductive Value :=
  | VInt (i : Z)
  | VStr (s : string)
  | VBool (b : bool)
  | VUnit
  | VCommitTime (t : Z)
  | VRecord (fields : list (string * Value))
  | VVariant (tag : string) (payload : Value)
  | VNominal (ty ctor : string) (payload : Value)
  | VCollection (entries : list (Value * Value))
  | VPending.

Abbreviation Collection := (list (Value * Value)).

(** ** The order *)

(** What [total_cmp] reads of a value. *)
Inductive OrderKey :=
  | KUnit | KBool (b : bool) | KInt (i : Z) | KStr (s : string) | KTime (t : Z)
  | KVariant (tag : string) (payload : OrderKey)
  | KNominal (ty ctor : string) (payload : OrderKey)
  | KRecord (text : string) | KCollection (text : string) | KPending.

(** The inner [rank] of [total_cmp]. *)
Definition key_rank (k : OrderKey) : nat :=
  match k with
  | KUnit => 0 | KBool _ => 1 | KInt _ => 2 | KStr _ => 3 | KRecord _ => 4
  | KVariant _ _ => 5 | KCollection _ => 6 | KTime _ => 7 | KPending => 8 | KNominal _ _ _ => 9
  end.

#[export] Instance Z_ord : Ord Z := Z.compare.
#[export] Instance string_ord : Ord string := String.compare.
#[export] Instance bool_ord : Ord bool := fun a b => match a, b with false, true => Lt | true, false => Gt | _, _ => Eq end.

(** [Ordering::then_with]. *)
Definition then_with (c d : comparison) : comparison := match c with Eq => d | c => c end.

Fixpoint key_cmp (a b : OrderKey) : comparison :=
  match a, b with
  | KInt x, KInt y => cmp x y
  | KStr x, KStr y => cmp x y
  | KBool x, KBool y => cmp x y
  | KUnit, KUnit => Eq
  | KTime x, KTime y => cmp x y
  | KVariant x p, KVariant y q => then_with (cmp x y) (key_cmp p q)
  | KNominal t x p, KNominal u y q => then_with (cmp t u) (then_with (cmp x y) (key_cmp p q))
  | KRecord x, KRecord y | KCollection x, KCollection y => cmp x y
  | a, b => cmp (key_rank a) (key_rank b)
  end.

#[export] Instance key_ord : Ord OrderKey := key_cmp.

Section Values.
Context (debug_str : string -> string).

Definition join (sep : string) (l : list string) : string := String.concat sep l.

(** [Display] of a value, with what the order reads of it. *)
Fixpoint shown (v : Value) : string * OrderKey :=
  match v with
  | VInt i => (pretty i, KInt i)
  | VStr s => (debug_str s, KStr s)
  | VBool b => (if b then "true" else "false", KBool b)
  | VUnit => ("()", KUnit)
  | VCommitTime t => ("t" +:+ pretty t, KTime t)
  | VPending => ("?", KPending)
  | VRecord fields =>
      let sorted := sort_keys fst (map (fun '(n, v) => (n, (shown v).1)) fields) in
      let text := "(" +:+ join ", " (map (fun '(n, s) => n +:+ ": " +:+ s) sorted) +:+ ")" in
      (text, KRecord text)
  | VVariant tag payload =>
      let '(s, k) := shown payload in ("`" +:+ tag +:+ "(" +:+ s +:+ ")", KVariant tag k)
  | VNominal ty ctor payload =>
      let '(s, k) := shown payload in (ty +:+ "::" +:+ ctor +:+ "(" +:+ s +:+ ")", KNominal ty ctor k)
  | VCollection entries =>
      let sorted := sort_keys (fun '(k, v) => (k.2, v.2)) (map (fun '(k, v) => (shown k, shown v)) entries) in
      let dense := forallb id (imap (fun i '(k, _) => match k.2 with KInt n => n =? Z.of_nat i | _ => false end) sorted) in
      let text := "[" +:+ join ", " (map (fun '(k, v) => if dense then v.1 else k.1 +:+ " -> " +:+ v.1) sorted) +:+ "]" in
      (text, KCollection text)
  end.

Definition to_string (v : Value) : string := (shown v).1.
Definition order_key (v : Value) : OrderKey := (shown v).2.

(** [total_cmp]. *)
Definition total_cmp (a b : Value) : comparison := cmp (order_key a) (order_key b).

(** ** Equality *)

(** The inner [context], [commit_time] and [replace] of [ranked_commit_times]. *)
Fixpoint context (key : Value) : option Value :=
  match key with
  | VCommitTime _ => Some VUnit
  | VVariant tag payload => VVariant tag <$> context payload
  | _ => None
  end.

Fixpoint commit_time (key : Value) : option Z :=
  match key with
  | VCommitTime t => Some t
  | VVariant _ payload => commit_time payload
  | _ => None
  end.

Fixpoint replace (key : Value) (rank : Z) : Value :=
  match key with
  | VCommitTime _ => VCommitTime rank
  | VVariant tag payload => VVariant tag (replace payload rank)
  | other => other
  end.

(** [binary_search] of a sorted vector, where an element that occurs occurs once. *)
Fixpoint position_of (t : Z) (l : list Z) : nat :=
  match l with [] => 0 | u :: l => if t =? u then 0 else S (position_of t l) end.

Section Ranked.
Context (eq : Value -> Value -> bool).

(** A commit time joins the times of its context. *)
Fixpoint push_time (c : Value) (t : Z) (by_context : list (Value * list Z)) : list (Value * list Z) :=
  match by_context with
  | [] => [(c, [t])]
  | (k, times) :: rest => if eq k c then (k, times ++ [t]) :: rest else (k, times) :: push_time c t rest
  end.

Definition by_context (entries : Collection) : list (Value * list Z) :=
  map (fun '(k, times) => (k, sort_keys id times))
    (foldl (fun acc '(key, _) =>
      match context key, commit_time key with Some c, Some t => push_time c t acc | _, _ => acc end) [] entries).

(** [ranked_commit_times]; every context was collected. *)
Definition ranked_commit_times (entries : Collection) : Collection :=
  map (fun '(key, value) =>
    match context key, commit_time key with
    | Some c, Some t =>
        match List.find (fun '(k, _) => eq k c) (by_context entries) with
        | Some (_, times) => (replace key (Z.of_nat (position_of t times)), value)
        | None => (key, value)
        end
    | _, _ => (key, value)
    end) entries.
End Ranked.

(** [Collection::sorted]. *)
Definition sorted (c : Collection) : Collection := sort_keys (fun '(k, v) => (order_key k, order_key v)) c.

Fixpoint depth (v : Value) : nat :=
  match v with
  | VRecord fields => S (foldr Nat.max 0%nat (map (fun '(_, v) => depth v) fields))
  | VVariant _ payload | VNominal _ _ payload => S (depth payload)
  | VCollection entries => S (foldr Nat.max 0%nat (map (fun '(k, v) => Nat.max (depth k) (depth v)) entries))
  | _ => 1
  end.

(** Both halves of two pairs, row by row: [zip] and [all]. *)
Definition all_pairs {A B} (f : A -> A -> bool) (g : B -> B -> bool) (l r : list (A * B)) : bool :=
  forallb (fun '(x, y) => f x.1 y.1 && g x.2 y.2) (zip l r).

(** [PartialEq] of [Value] and of [Collection], over the depth. *)
Fixpoint value_eq_at (fuel : nat) (a b : Value) : bool :=
  match fuel with
  | O => false
  | S fuel =>
      match a, b with
      | VInt a, VInt b => a =? b
      | VStr a, VStr b => bool_decide (a = b)
      | VBool a, VBool b => Bool.eqb a b
      | VUnit, VUnit => true
      | VCommitTime a, VCommitTime b => a =? b
      | VRecord a, VRecord b =>
          (length a =? length b)%nat
          && all_pairs (fun x y => bool_decide (x = y)) (value_eq_at fuel) (sort_keys fst a) (sort_keys fst b)
      | VVariant t1 p1, VVariant t2 p2 => bool_decide (t1 = t2) && value_eq_at fuel p1 p2
      | VNominal n1 c1 p1, VNominal n2 c2 p2 => bool_decide (n1 = n2) && bool_decide (c1 = c2) && value_eq_at fuel p1 p2
      | VCollection a, VCollection b =>
          let a := ranked_commit_times (value_eq_at fuel) a in
          let b := ranked_commit_times (value_eq_at fuel) b in
          (length a =? length b)%nat && all_pairs (value_eq_at fuel) (value_eq_at fuel) (sorted a) (sorted b)
      | _, _ => false
      end
  end.

Definition value_eq (a b : Value) : bool := value_eq_at (Nat.max (depth a) (depth b)) a b.

(** ** Building collections *)

(** [windows(2).find]: the first of two neighbours that are equal. *)
Fixpoint repeated (l : list Value) : option Value :=
  match l with
  | a :: ((b :: _) as rest) => if value_eq a b then Some a else repeated rest
  | _ => None
  end.

(** [Collection::try_from_entries]: the entries, or a key that two of them share. *)
Definition try_from_entries (entries : Collection) : Value + Collection :=
  match repeated (sort_keys order_key (map fst entries)) with
  | Some key => inl key
  | None => inr entries
  end.

(** [Collection::from_entries]: a panic is [None]. *)
Definition from_entries (entries : Collection) : option Collection :=
  match try_from_entries entries with inl _ => None | inr c => Some c end.
End Values.

(** [Collection::from_list]. *)
Definition from_list (values : list Value) : Collection := imap (fun i v => (VInt (Z.of_nat i), v)) values.

(** ** [Debug] of a string of ASCII *)

Definition hex_digit (n : nat) : ascii := ascii_of_nat (if (n <? 10)%nat then 48 + n else 87 + n).

(** [char::escape_debug], with the double quote escaped and the single one not. *)
Definition escape_ascii (c : ascii) : string :=
  let n := nat_of_ascii c in
  if (n =? 0)%nat then "\0"
  else if (n =? 9)%nat then "\t"
  else if (n =? 10)%nat then "\n"
  else if (n =? 13)%nat then "\r"
  else if (n =? 34)%nat || (n =? 92)%nat then String "\" (String c EmptyString)
  else if ((32 <=? n) && (n <? 127))%nat then String c EmptyString
  else if (n <? 16)%nat then "\u{" +:+ String (hex_digit n) "}"
  else "\u{" +:+ String (hex_digit (n / 16)) (String (hex_digit (n mod 16)) "}").

Definition quote : ascii := ascii_of_nat 34.

Definition ascii_debug (s : string) : string :=
  String quote (String.concat "" (map escape_ascii (String.list_ascii_of_string s)) +:+ String quote EmptyString).
