(* ===== verification/InterpText.v ===== *)
(** * What the reference interpreter reads of a program's text ([chl-interp/src/eval.rs])

    The interpreter's state, the walks over the program text, the types and traits a module
    declares, and the values and patterns dispatch and binding read.  Nothing here runs the
    program.

    [Result] is [Res]: an error is the text of its message with its holes left open, a panic
    (an [expect], an index out of range) is [Panic], and [Exhausted] is a definition out of
    fuel.  A [BTreeMap] is a [gmap], walked in key order where the order shows. *)

From stdpp Require Import list strings pretty gmap.
From S2P Require Import Prelude Ordered Tokens Syntax InterpValues.
Set Warnings "-register-all".
Local Open Scope Z_scope.

(** ** Results *)

Abbreviation Error := string.

Inductive Res (A : Type) := Done (a : A) | Fail (why : Error) | Panic | Exhausted.
Arguments Done {A}.
Arguments Fail {A}.
Arguments Panic {A}.
Arguments Exhausted {A}.

#[export] Instance res_ret : MRet Res := fun A a => Done a.
#[export] Instance res_bind : MBind Res := fun A B k r =>
  match r with Done a => k a | Fail e => Fail e | Panic => Panic | Exhausted => Exhausted end.

#[export] Instance res_fmap : FMap Res := fun A B f r => r ≫= fun a => Done (f a).

Definition ok_or {A} (o : option A) (why : Error) : Res A := match o with Some a => Done a | None => Fail why end.
Definition expect {A} (o : option A) : Res A := match o with Some a => Done a | None => Panic end.

(** ** State *)

(** [MutCell]: a mutable variable's storage, shared by reference.  A cell is its index in the store. *)
Record MutCell := MkMutCell { value : Value; is_txn : bool; born : nat; writer_site : option nat }.

(** [Function]: the scopes captured at the definition, innermost first. *)
Record Function_ (S : Type) := MkFunction {
  params : list (string * bool); fn_body : list (Spanned Stmt); env : list (list (string * S))
}.
Arguments MkFunction {S}.
Arguments params {S}.
Arguments fn_body {S}.
Arguments env {S}.

(** [Slot]: what a name is bound to. *)
Inductive Slot :=
  | SlotVal (v : Value)
  | SlotMut (cell : nat)
  | SlotFn (f : Function_ Slot)
  | SlotChan (key : string)
  | SlotInstance (trait_ : string).

Abbreviation Function := (Function_ Slot).

(** [Scope]: bindings, oldest first. *)
Abbreviation Scope := (list (string * Slot)).

(** [Site]: the positions of the calls between a channel's declaration and a feed, then the feed's own. *)
Abbreviation Site := (list nat).

(** [TxnFrame]: a [with begin():] block in progress. *)
Record TxnFrame := MkTxnFrame {
  site : nat; wrote : bool; writes : gset string; replies : list (string * Site * Value); uncertain : bool
}.

(** [Channel]. *)
Record Channel := MkChannel {
  chan_name : string; fed : list (Site * Value * Value); defined : option Value; sites : list Site; calls_at : nat
}.

(** [OrderWatch]. *)
Record OrderWatch := MkOrderWatch { cells_before : nat; moved : bool }.

(** [ValueOrder]. *)
Inductive ValueOrder := Whole | Fields (fields : list (string * ValueOrder)).

(** [DeclaredType]. *)
Record DeclaredType := MkDeclaredType { dt_params : list string; dt_ctors : gmap string (list Expr) }.

(** [TypePattern]. *)
Inductive TypePattern :=
  | PVar (x : string)
  | PBase (b : string)
  | PNominal (name : string) (args : list TypePattern)
  | PTuple (parts : list TypePattern)
  | PRecord (parts : list (string * TypePattern))
  | PElements (p : TypePattern)
  | POpaque.

(** [InstanceShape]. *)
Record InstanceShape := MkInstanceShape { is_trait : string; heads : list TypePattern; bound : string }.

(** [Traits]. *)
Record Traits := MkTraits {
  functions : gmap (string * string) (list (option nat));
  instances : list InstanceShape;
  declared : gmap string DeclaredType;
  named : gmap string Scope;
  orders : gmap (string * string) ValueOrder
}.

(** [BuiltinMethod], [Member] and [TypeMembers]. *)
Inductive BuiltinMethod := Extract | IsNone.
Inductive Member := MemberConstructor (arity : nat) | MemberBuiltin (m : BuiltinMethod).
Record TypeMembers := MkTypeMembers { members : gmap string Member; methods : gset string }.

(** [Interp]: the fields a pass assigns, with the store of cells.  [feed_sites], [finals],
    [types] and [traits], which it does not, are the [Program] below.  [scopes], [calls] and
    [loop_keys] are stacks, innermost first, as are [order_watches] and [running_instances]. *)
Record Interp := MkInterp {
  scopes : list Scope;
  channels : gmap string Channel;
  observed : gset string;
  yielded : option (list (Value * Value));
  commit_time_count : Z;
  clock_known : bool;
  waited_on : gset string;
  speculating : nat;
  speculating_at_call : nat;
  lost : option Error;
  txn : option TxnFrame;
  loop_keys : list Value;
  calls : list (nat * Value * bool);
  cells_made : nat;
  order_watches : list OrderWatch;
  instance_functions : gmap string Function;
  running_instances : list string;
  cells : list MutCell
}.

Record Program := MkProgram {
  feed_sites : gmap string (list nat);
  finals : gmap string Value;
  types : gmap string TypeMembers;
  traits : Traits
}.

(** [Interp::new]. *)
Definition new_interp : Interp :=
  MkInterp [[]] ∅ ∅ None 0 true ∅ 0 0 None None [] [] 0 [] ∅ [] [].

(** ** Small helpers *)

(** [any_pending]. *)
Definition is_pending (v : Value) : bool := match v with VPending => true | _ => false end.
Definition any_pending (values : list Value) : bool := existsb is_pending values.
Definition entries_pending (entries : list (Value * Value)) : bool :=
  any_pending (flat_map (fun '(k, v) => [k; v]) entries).

(** [format!("_{i}")]: a position's field. *)
Definition position_name (i : nat) : string := "_" +:+ pretty i.

(** [tuple_key]. *)
Definition tuple_key (keys : list Value) : Value :=
  if any_pending keys then VPending
  else match keys with
  | [] => VUnit
  | [k] => k
  | ks => VRecord (imap (fun i k => (position_name i, k)) ks)
  end.

(** The field [name] of a record's fields. *)
Definition field_of {A} (name : string) (fields : list (string * A)) : option A :=
  snd <$> List.find (fun '(n, _) => bool_decide (n = name)) fields.

(** [unqualified]. *)
Definition unqualified {A} (qualifier : list A) : Res unit :=
  match qualifier with [] => Done () | _ => Fail "a qualified {what} is not supported" end.

Section Text.
Context (debug_str : string -> string).
Abbreviation value_eq := (value_eq debug_str).

(** [collection]. *)
Definition collection (entries : list (Value * Value)) : Res Collection :=
  match try_from_entries debug_str entries with
  | inl _ => Fail "two entries share the key {key}"
  | inr c => Done c
  end.

(** [channel_value]: what a channel holds. *)
Definition channel_value (channel : Channel) : Res Value :=
  match defined channel with
  | Some v => Done v
  | None =>
      entries ← mapM (fun '(site, key, value) =>
        if (1 <? length (sites channel))%nat then
          match list_find (eq site) (sites channel) with
          | Some (tag, _) => Done (VVariant (pretty tag) key, value)
          | None => Fail "the feed at {site} fired but was not collected from the program text"
          end
        else Done (key, value)) (fed channel);
      VCollection <$> collection entries
  end.

(** [Channel::complete]: the contents, if no contribution is pending. *)
Definition complete (channel : Channel) : option (Res Value) :=
  let pending := match defined channel with Some VPending => true | _ => false end
    || existsb (fun '(_, k, v) => is_pending k || is_pending v) (fed channel) in
  if pending then None else Some (channel_value channel).

(** ** Operators *)

Definition I64_MIN : Z := - 2 ^ 63.
Definition I64_MAX : Z := 2 ^ 63 - 1.
Definition in_i64 (z : Z) : bool := (I64_MIN <=? z) && (z <=? I64_MAX).

(** [checked_add] and the like. *)
Definition checked (z : Z) : option Z := if in_i64 z then Some z else None.

(** [floor_div]: [checked_div] has no value at a zero divisor and at [i64::MIN / -1]. *)
Definition floor_div (a b : Z) : option Z :=
  q ← (if b =? 0 then None else checked (Z.quot a b));
  let rounds_down := negb (Z.rem a b =? 0) && xorb (a <? 0) (b <? 0) in
  Some (if rounds_down then q - 1 else q).

(** [int_pow]: by squaring, each product checked.  The exponent is a [u64], so 64 rounds empty it. *)
Fixpoint int_pow_loop (fuel : nat) (base exponent acc : Z) : option Z :=
  match fuel with
  | O => Some acc
  | S fuel =>
      if 0 <? exponent then
        acc ← (if Z.land exponent 1 =? 1 then checked (acc * base) else Some acc);
        let exponent := Z.shiftr exponent 1 in
        base ← (if 0 <? exponent then checked (base * base) else Some base);
        int_pow_loop fuel base exponent acc
      else Some acc
  end.

Definition int_pow (base exponent : Z) : option Z :=
  if exponent <? 0 then None else int_pow_loop 64 base exponent 1.

Definition int (v : option Z) : Res Value := ok_or (VInt <$> v) "{l} {op} {r} is not defined".

(** [binop]. *)
Definition binop (op : BinOp) (l r : Value) : Res Value :=
  if any_pending [l; r] then Done VPending
  else match op, l, r with
  | OpAdd, VInt a, VInt b | OpAddRefined, VInt a, VInt b => int (checked (a + b))
  | OpAdd, VStr a, VStr b => Done (VStr (a +:+ b))
  | OpSub, VInt a, VInt b => int (checked (a - b))
  | OpMul, VInt a, VInt b => int (checked (a * b))
  | OpFloorDiv, VInt a, VInt b => int (floor_div a b)
  | OpPow, VInt a, VInt b => int (int_pow a b)
  | OpLogicalAnd, VBool a, VBool b => Done (VBool (a && b))
  | OpLogicalOr, VBool a, VBool b => Done (VBool (a || b))
  | OpLogicalXor, VBool a, VBool b => Done (VBool (xorb a b))
  | OpCollectionUnion, VCollection a, VCollection b =>
      let tagged (i : nat) (c : Collection) := map (fun '(k, v) => (VVariant (pretty i) k, v)) c in
      VCollection <$> collection (tagged 0%nat a ++ tagged 1%nat b)
  | _, _, _ => Fail "unsupported {op} on {l} and {r}"
  end.

(** [builtin_function]: [None] where no compiler instance has the function at the values. *)
Definition builtin_function (trait_ function : string) (values : list Value) : option (Res Value) :=
  let pair op := match values with [l; r] => Some (binop op l r) | _ => None end in
  if decide ((trait_, function) = ("Addable", "add")) then pair OpAdd
  else if decide ((trait_, function) = ("Subtractable", "sub")) then pair OpSub
  else if decide ((trait_, function) = ("Multipliable", "mul")) then pair OpMul
  else if decide ((trait_, function) = ("Divisible", "div")) then pair OpFloorDiv
  else if decide ((trait_, function) = ("Exponentiable", "pow")) then pair OpPow
  else if decide ((trait_, function) = ("Iterable", "elements")) then
    match values with [VCollection c] => Some (Done (VCollection c)) | _ => None end
  else if decide ((trait_, function) = ("Negatable", "neg")) then
    match values with [VInt i] => Some (ok_or (VInt <$> checked (- i)) "-({i}) is not defined") | _ => None end
  else None.

(** [arithmetic_function]. *)
Definition arithmetic_function (op : BinOp) : option (string * string) :=
  match op with
  | OpAdd => Some ("Addable", "add")
  | OpSub => Some ("Subtractable", "sub")
  | OpMul => Some ("Multipliable", "mul")
  | OpFloorDiv => Some ("Divisible", "div")
  | OpPow => Some ("Exponentiable", "pow")
  | _ => None
  end.

(** ** The order of values *)

(** [ValueOrder::written] and [ValueOrder::positions]. *)
Fixpoint written (ty : Expr) : ValueOrder :=
  match ty with
  | EBraceRefinement base _ => written (node base)
  | EBraceRecord fields => Fields (map (fun f => (rf_name _ f, written (node (rf_value _ f)))) fields)
  | EBraceGroup ((_ :: _) as parts) => Fields (imap (fun i o => (position_name i, o)) (map (fun p => written (node p)) parts))
  | _ => Whole
  end.

(** [Interp::order] ([None]) and [Interp::order_by].  Three calls at most go one level into the values. *)
Fixpoint order_at (traits : Traits) (fuel : nat) (l r : Value) (by_ : option ValueOrder) : Res comparison :=
  match fuel with
  | O => Exhausted
  | S fuel =>
      match by_ with
      | None =>
          match l, r with
          | VInt a, VInt b => Done (cmp a b)
          | VStr a, VStr b => Done (cmp a b)
          | VBool a, VBool b => Done (cmp a b)
          | VRecord a, VRecord _ =>
              order_at traits fuel l r (Some (Fields (map (fun i => (position_name i, Whole)) (seq 0 (length a)))))
          | VNominal ty ctor a, VNominal other_ty other b =>
              if bool_decide (ty = other_ty) && bool_decide (ctor = other) then
                order_at traits fuel a b (orders traits !! (ty, ctor))
              else Fail "{l} and {r} have no order"
          | _, _ => Fail "{l} and {r} have no order"
          end
      | Some Whole => order_at traits fuel l r None
      | Some (Fields fields) =>
          match l, r with
          | VRecord a, VRecord b =>
              (fix go fields := match fields with
                | [] => Done Eq
                | (name, inner) :: rest =>
                    x ← ok_or (field_of name a) "a product has no field `{name}`";
                    y ← ok_or (field_of name b) "a product has no field `{name}`";
                    c ← order_at traits fuel x y (Some inner);
                    match c with Eq => go rest | other => Done other end
                end) fields
          | _, _ => Fail "{l} and {r} are not the products their order reads"
          end
      end
  end.

Definition order (traits : Traits) (l r : Value) : Res comparison := order_at traits (3 * depth l) l r None.

(** [Interp::extreme]. *)
Definition extreme (traits : Traits) (c : Collection) (greatest : bool) : Res Value :=
  best ← foldl (fun best '(_, v) =>
    best ← best;
    match best with
    | None => Done (Some v)
    | Some b =>
        o ← order traits v b;
        Done (Some (match o, greatest with Gt, true | Lt, false => v | _, _ => b end))
    end) (Done None) c;
  ok_or best "`{name}` of an empty collection is not defined".

(** [Interp::comparison]. *)
Definition comparison_ (traits : Traits) (op : CmpOp) (l r : Value) : Res Value :=
  if any_pending [l; r] then Done VPending
  else match op with
  | CEq => Done (VBool (value_eq l r))
  | CNotEq => Done (VBool (negb (value_eq l r)))
  | _ =>
      ord ← order traits l r;
      Done (VBool (match op, ord with
        | CLt, Lt | CLtE, (Lt | Eq) | CGt, Gt | CGtE, (Gt | Eq) => true
        | _, _ => false
        end))
  end.

(** ** Walks over the text *)

(** [Bodies]: whether a walk enters a lambda's body. *)
Inductive Bodies := Enter | Skip.

(** [for_each_stmt] and [for_each_block], as the statements they visit, in order: those nested
    in a statement, and those in the blocks of an expression. *)
Fixpoint stmt_walk (bodies : Bodies) (s : Stmt) : list (Spanned Stmt) :=
  let each := flat_map (fun s => s :: stmt_walk bodies (node s)) in
  match s with
  | SIf branches else_body =>
      flat_map (fun b => expr_walk bodies (node (cond _ _ b))
        ++ flat_map (fun s => s :: stmt_walk bodies (node s)) (branch_body _ _ b)) branches
      ++ match else_body with Some body => each body | None => [] end
  | SMatch scrutinee arms =>
      expr_walk bodies (node scrutinee)
      ++ flat_map (fun a => flat_map (fun s => s :: stmt_walk bodies (node s)) (arm_body _ a)) arms
  | SFor _ iter body => expr_walk bodies (node iter) ++ each body
  | SWith _ _ body => each body
  | SExpr e | SReturn (Some e) | SAssign _ e _ | SAnnAssign _ _ e | SAugAssign _ _ e | SMutAssign _ _ e | SDefine _ e =>
      expr_walk bodies (node e)
  | _ => []
  end
with expr_walk (bodies : Bodies) (e : Expr) : list (Spanned Stmt) :=
  let each := flat_map (fun e => expr_walk bodies (node e)) in
  match e with
  | EBlock stmt => stmt :: stmt_walk bodies (node stmt)
  | ELambda _ body => match bodies with Enter => expr_walk bodies (node body) | Skip => [] end
  | EBinOp l _ r => expr_walk bodies (node l) ++ expr_walk bodies (node r)
  | EUnaryOp _ operand => expr_walk bodies (node operand)
  | EBoolOp _ operands => each operands
  | ECompare l _ comparators => expr_walk bodies (node l) ++ each comparators
  | ECall func args => expr_walk bodies (node func) ++ each args
  | EList items | ETuple items | EBraceGroup items => each items
  | ERecord fields | EBraceRecord fields => flat_map (fun f => expr_walk bodies (node (rf_value _ f))) fields
  | ESubscript target index _ => expr_walk bodies (node target) ++ expr_walk bodies (node index)
  | EAttribute target _ _ _ => expr_walk bodies (node target)
  | EVariantCtor _ _ _ (Some (PayloadTerm _ inner)) | EYield inner => expr_walk bodies (node inner)
  | EIfExp cond then_expr else_expr =>
      expr_walk bodies (node cond) ++ expr_walk bodies (node then_expr) ++ expr_walk bodies (node else_expr)
  | EListComp comp | EGenExp comp =>
      flat_map (fun c => match c with
        | ClauseFor _ _ _ iter => expr_walk bodies (node iter)
        | ClauseIf _ _ guard => expr_walk bodies (node guard)
        end) (clauses _ _ comp)
      ++ expr_walk bodies (node (element _ _ comp))
  | EFeed target value => expr_walk bodies (node target) ++ expr_walk bodies (node value)
  | _ => []
  end.

Definition for_each_stmt (body : list (Spanned Stmt)) (bodies : Bodies) : list (Spanned Stmt) :=
  flat_map (fun s => s :: stmt_walk bodies (node s)) body.

(** [runs_any]. *)
Definition runs_any (body : list (Spanned Stmt)) (pred : Stmt -> bool) : bool :=
  existsb (fun s => pred (node s)) (for_each_stmt body Skip).

(** [contains_yield]. *)
Definition contains_yield (body : list (Spanned Stmt)) : bool :=
  runs_any body (fun s => match s with SExpr e => match node e with EYield _ => true | _ => false end | _ => false end).

(** [written_names]. *)
Definition written_names (body : list (Spanned Stmt)) : gset string :=
  list_to_set (omap (fun s =>
    match node s with
    | SMutAssign target _ _ | SAugAssign target _ _ =>
        match node target with
        | TargetName n => Some n
        | TargetSubscript target _ => match node target with EName n => Some n | _ => None end
        | _ => None
        end
    | _ => None
    end) (for_each_stmt body Skip)).

(** The names a [def]'s body binds itself. *)
Definition names_bound (body : list (Spanned Stmt)) : gset string :=
  list_to_set (omap (fun s =>
    match node s with
    | SDeclare target _ | SAssign target _ _ | SAnnAssign target _ _ =>
        match node target with TargetName n => Some n | _ => None end
    | _ => None
    end) (for_each_stmt body Enter)).

(** [collect_function_feed_sites], over the nesting of [def]s. *)
Fixpoint collect_function_feed_sites (fuel : nat) (body : list (Spanned Stmt)) (local : option (gset string))
    (feeds : gmap string (list nat)) : Res (gmap string (list nat)) :=
  match fuel with
  | O => Exhausted
  | S fuel =>
      foldl (fun feeds s =>
        feeds ← feeds;
        match node s with
        | SExpr e =>
            match node e with
            | EFeed target value =>
                match node target with
                | EName n =>
                    if match local with None => true | Some names => bool_decide (n ∈ names) end then
                      Done (<[n := default [] (feeds !! n) ++ [start (span value)]]> feeds)
                    else Done feeds
                | _ => Done feeds
                end
            | _ => Done feeds
            end
        | SFunctionDef _ _ _ _ _ _ body => collect_function_feed_sites fuel body (Some (names_bound body)) feeds
        | _ => Done feeds
        end) (Done feeds) (for_each_stmt body Enter)
  end.

(** [collect_feed_sites]. *)
Definition collect_feed_sites (fuel : nat) (body : list (Spanned Stmt)) : Res (gmap string (list nat)) :=
  collect_function_feed_sites fuel body None ∅.

(** [is_txn_annotation] and [is_mut_annotation]. *)
Definition names (name : string) (e : Spanned Expr) : bool :=
  match node e with EName n => bool_decide (n = name) | _ => false end.
Definition is_txn_annotation (a : TypeAnnotation) : bool :=
  match node (ann_ty _ a) with ECall func args => names "Mut" func && existsb (names "Txn") args | _ => false end.
Definition is_mut_annotation (a : TypeAnnotation) : bool :=
  match node (ann_ty _ a) with ECall func _ => names "Mut" func | _ => false end.

(** [is_zero_arg_call]. *)
Definition is_zero_arg_call (e : Expr) (b : SurfaceBuiltin) : bool :=
  match e with
  | ECall func [] => match node func with EName n => bool_decide (from_name n = Some b) | _ => false end
  | _ => false
  end.

(** [unwrap_pub]. *)
Definition unwrap_pub (s : Spanned Stmt) : Spanned Stmt := match node s with SPub _ s => s | _ => s end.
End Text.

(** ** Dispatch by values *)

(** [Tells] and [Tells::and]. *)
Inductive Tells := Yes | No | Unknown.

Definition tells_and (a b : Tells) : Tells :=
  match a, b with
  | No, _ | _, No => No
  | Unknown, _ | _, Unknown => Unknown
  | _, _ => Yes
  end.

(** [tell]. *)
Definition tell (yes : bool) : Tells := if yes then Yes else No.

(** [describe]: the type a value shows, where it shows one. *)
Fixpoint describe (v : Value) : option string :=
  match v with
  | VInt _ => Some "Int"
  | VStr _ => Some "String"
  | VBool _ => Some "Bool"
  | VUnit => Some "Unit"
  | VNominal ty _ _ => Some ty
  | VRecord fields =>
      parts ← mapM (fun '(n, f) => d ← describe f; Some (n +:+ ": " +:+ d)) fields;
      Some ("{" +:+ join ", " parts +:+ "}")
  | _ => None
  end.

(** [BTreeMap::contains_key]. *)
Definition has {A} (m : gmap string A) (key : string) : bool := match m !! key with Some _ => true | None => false end.

(** [Traits::pattern]. *)
Fixpoint pattern (declared : gmap string DeclaredType) (ty : Expr) (vars : list string) (env : gmap string TypePattern) :
    TypePattern :=
  match ty with
  | EName n =>
      match env !! n with
      | Some p => p
      | None =>
          if bool_decide (n ∈ vars) then PVar n
          else if has declared n then PNominal n [] else PBase n
      end
  | ECall func args =>
      match node func with
      | EName n =>
          if has declared n then PNominal n (map (fun a => pattern declared (node a) vars env) args)
          else if bool_decide (n ∈ ["List"; "Set"; "Collection"]) then
            match args with a :: _ => PElements (pattern declared (node a) vars env) | [] => POpaque end
          else POpaque
      | _ => POpaque
      end
  | EBraceGroup parts => PTuple (map (fun p => pattern declared (node p) vars env) parts)
  | EBraceRecord fields => PRecord (map (fun f => (rf_name _ f, pattern declared (node (rf_value _ f)) vars env)) fields)
  | EBraceRefinement base _ => pattern declared (node base) vars env
  | _ => POpaque
  end.

Abbreviation Bound := (gmap string string).

(** The fields at the names of a pattern, each read in turn. *)
Definition tells_fields (reads : list (string * (TypePattern -> Bound -> Tells * Bound))) (parts : list (string * TypePattern))
    (bound : Bound) : Tells * Bound :=
  foldl (fun '(out, bound) '(name, p) =>
    match field_of name reads with
    | Some read => let '(t, bound) := read p bound in (tells_and out t, bound)
    | None => (tells_and out No, bound)
    end) (Yes, bound) parts.

(** The elements of a collection. *)
Definition tells_elements (reads : list (TypePattern -> Bound -> Tells * Bound)) (p : TypePattern) (bound : Bound) : Tells * Bound :=
  foldl (fun '(out, bound) read =>
    let '(t, bound) := read p bound in
    (match out with Unknown => t | known => tells_and known t end, bound)) (Unknown, bound) reads.

(** [Traits::tells], by recursion on the value, with what each variable stands for. *)
Fixpoint tells (declared : gmap string DeclaredType) (v : Value) (p : TypePattern) (bound : Bound) : Tells * Bound :=
  match p, v with
  | _, VPending => (Unknown, bound)
  | POpaque, _ => (Yes, bound)
  | PVar x, _ =>
      match describe v, bound !! x with
      | Some d, Some b => (tell (bool_decide (d = b)), bound)
      | Some d, None => (Yes, <[x := d]> bound)
      | None, _ => (Yes, bound)
      end
  | PBase b, VInt _ => (tell (bool_decide (b = "Int") || bool_decide (b = "UInt")), bound)
  | PBase b, VStr _ => (tell (bool_decide (b = "String")), bound)
  | PBase b, VBool _ => (tell (bool_decide (b = "Bool")), bound)
  | PBase b, VUnit => (tell (bool_decide (b = "Unit")), bound)
  | PNominal name args, VNominal ty ctor payload =>
      if negb (bool_decide (name = ty)) then (No, bound)
      else if bool_decide (length args = 0%nat) then (Yes, bound)
      else match declared !! name with
      | None => (Unknown, bound)
      | Some decl =>
          let env := list_to_map (rev (zip (dt_params decl) args)) in
          match dt_ctors decl !! ctor with
          | None => (Unknown, bound)
          | Some params =>
              match map (fun t => pattern declared t [] env) params with
              | [] => (Yes, bound)
              | [one] => tells declared payload one bound
              | several => tells declared payload (PTuple several) bound
              end
          end
      end
  | PTuple parts, VRecord fields =>
      if bool_decide (length fields = length parts) then
        tells_fields (map (fun '(n, f) => (n, tells declared f)) fields) (imap (fun i p => (position_name i, p)) parts) bound
      else (No, bound)
  | PRecord parts, VRecord fields => tells_fields (map (fun '(n, f) => (n, tells declared f)) fields) parts bound
  | PElements p, VCollection entries => tells_elements (map (fun '(_, e) => tells declared e) entries) p bound
  | _, _ => (No, bound)
  end.

(** [Traits::admitting]. *)
Definition admitting (traits : Traits) (trait_ : string) (params : list (option nat)) (values : list Value) :
    list (InstanceShape * Tells) :=
  List.filter (fun '(_, t) => match t with No => false | _ => true end)
    (map (fun i =>
      (i, (foldl (fun '(out, bound) '(operand, v) =>
        match operand ≫= fun o => heads i !! o with
        | Some h => let '(t, bound) := tells (declared traits) v h bound in (tells_and out t, bound)
        | None => (out, bound)
        end) (Yes, ∅) (zip params values)).1))
      (List.filter (fun i => bool_decide (is_trait i = trait_)) (instances traits))).

(** [Interp::declares_instance_for]. *)
Definition declares_instance_for (traits : Traits) (trait_ function : string) (values : list Value) : bool :=
  match functions traits !! (trait_, function) with
  | Some params => match admitting traits trait_ params values with [] => false | _ => true end
  | None => false
  end.

(** ** What a module declares *)

(** [BUILTIN_FUNCTIONS]. *)
Definition BUILTIN_FUNCTIONS : list (string * string * list nat) := [
  ("Addable", "add", [0; 1]%nat); ("Subtractable", "sub", [0; 1]%nat); ("Multipliable", "mul", [0; 1]%nat);
  ("Divisible", "div", [0; 1]%nat); ("Exponentiable", "pow", [0; 1]%nat); ("Negatable", "neg", [0]%nat); ("Iterable", "elements", [0]%nat)
].

(** [instance_names]. *)
Definition instance_names (requires : list (Spanned Requirement)) : Scope :=
  omap (fun r => match node r with
    | ReqTrait _ (Some binder) ty => Some (node binder +:+ "::", SlotInstance (tt_name _ ty))
    | _ => None
    end) requires.

(** [instance_prefix]. *)
Definition instance_prefix (trait_ : string) (at_ : nat) : string := "instance " +:+ trait_ +:+ "@" +:+ pretty at_.

(** Whether a trait has a function. *)
Definition has_functions {A} (functions : gmap (string * string) A) (trait_ : string) : bool :=
  existsb (fun '((t, _), _) => bool_decide (t = trait_)) (map_to_list functions).

(** The functions a trait declares, each parameter with the operand its annotation names. *)
Definition trait_functions (decl : TraitDecl_ Expr) : list ((string * string) * list (option nat)) :=
  omap (fun item => match item with
    | ItemFunction _ sig =>
        let params := map (fun p =>
          match (fun a => node (ann_ty _ a)) <$> p_annotation _ p with
          | Some (EName n) => fst <$> list_find (fun o => node o = n) (td_params _ decl)
          | _ => None
          end) (sig_params _ (node sig)) in
        Some ((node (td_name _ decl), node (sig_name _ (node sig))), params)
    | ItemAssocType _ _ _ => None
    end) (td_items _ decl).

(** The constructors of a declaration, with their parameter types and the order of their argument. *)
Definition decl_ctors (decl : TypeDecl_ Expr) : list (string * list Expr) :=
  match decl_body _ decl with
  | DeclSingle _ ty => [("new", [node ty])]
  | DeclConstructors _ lines => map (fun c => (node (ct_name _ c), map (fun p => node (cp_ty _ p)) (ct_params _ c))) lines
  end.

Definition ctor_order (params : list Expr) : ValueOrder :=
  match params with
  | [one] => written one
  | several => Fields (imap (fun i p => (position_name i, written p)) several)
  end.

(** [collect_traits]. *)
Definition collect_traits (body : list (Spanned Stmt)) : Traits :=
  let builtins : gmap (string * string) (list (option nat)) :=
    list_to_map (map (fun '(t, f, params) => ((t, f), map Some params)) BUILTIN_FUNCTIONS) in
  let decls := omap (fun s => match node s with STraitDecl d => Some d | _ => None end) body in
  let types := omap (fun s => match node s with STypeDecl d => Some d | _ => None end) body in
  let functions := foldl (fun m '(k, v) => <[k := v]> m) builtins (flat_map trait_functions decls) in
  let named := foldl (fun m d => <[node (td_name _ d) := instance_names (td_requires _ d)]> m) ∅ decls in
  let option_decl := MkDeclaredType ["T"] (list_to_map [("none", []); ("some", [EName "T"])]) in
  let declared : gmap string DeclaredType := foldl (fun m d =>
    <[node (decl_name _ d) := MkDeclaredType (map (tp_name _) (decl_params _ d)) (list_to_map (rev (decl_ctors d)))]> m)
    {["Option" := option_decl]} types in
  let orders : gmap (string * string) ValueOrder := foldl (fun m d =>
    foldl (fun m '(c, params) => <[(node (decl_name _ d), c) := ctor_order params]> m) m (decl_ctors d)) ∅ types in
  let instances := omap (fun s =>
    match node s with
    | SInstance block =>
        let trait_ := node (ib_ty _ _ block) in
        if has_functions functions trait_ then
          let vars := map node (ib_vars _ _ block) in
          Some (MkInstanceShape trait_ (map (fun a => pattern declared (node a) vars ∅) (ib_args _ _ block))
            (instance_prefix trait_ (start (span s))))
        else None
    | _ => None
    end) body in
  MkTraits functions instances declared named orders.

(** [BuiltinMethod::name], [BuiltinMethod::apply] and [TypeMembers::add_builtin]. *)
Definition method_name (m : BuiltinMethod) : string := match m with Extract => "extract" | IsNone => "is_none" end.
Definition method_apply (m : BuiltinMethod) (ctor : string) (payload : Value) : Value :=
  match m with Extract => payload | IsNone => VBool (bool_decide (ctor = "none")) end.
Definition add_builtin (m : BuiltinMethod) (t : TypeMembers) : TypeMembers :=
  MkTypeMembers (<[method_name m := MemberBuiltin m]> (members t)) ({[method_name m]} ∪ methods t).

(** A method of a type: an associated function whose first parameter is [self]. *)
Definition add_function (ty name : string) (params : list Param) (out : gmap string TypeMembers) : gmap string TypeMembers :=
  match params with
  | p :: _ =>
      if decide (p_name _ p = "self") then
        let t := default (MkTypeMembers ∅ ∅) (out !! ty) in
        <[ty := MkTypeMembers (members t) ({[name]} ∪ methods t)]> out
      else out
  | [] => out
  end.

(** [collect_types]. *)
Definition collect_types (body : list (Spanned Stmt)) : gmap string TypeMembers :=
  let option_members := add_builtin IsNone
    (MkTypeMembers (list_to_map [("none", MemberConstructor 0); ("some", MemberConstructor 1)]) ∅) in
  let out := foldl (fun out s =>
    match node s with
    | SFunctionDef (Some owner) name _ params _ _ _ => add_function (node owner) (node name) params out
    | SImpl block =>
        foldl (fun out def =>
          match node (unwrap_pub def) with
          | SFunctionDef _ name _ params _ _ _ => add_function (node (ib_ty _ _ block)) (node name) params out
          | _ => out
          end) out (ib_defs _ _ block)
    | _ => out
    end) {["Option" := option_members]} body in
  foldl (fun out s =>
    match node s with
    | STypeDecl decl =>
        let ty := default (MkTypeMembers ∅ ∅) (out !! node (decl_name _ decl)) in
        let ty := match decl_body _ decl with
          | DeclSingle _ _ => add_builtin Extract (MkTypeMembers (<["new" := MemberConstructor 1]> (members ty)) (methods ty))
          | DeclConstructors _ ctors =>
              MkTypeMembers (foldl (fun m c => <[node (ct_name _ c) := MemberConstructor (length (ct_params _ c))]> m) (members ty) ctors)
                (methods ty)
          end in
        <[node (decl_name _ decl) := ty]> out
    | _ => out
    end) out body.

(** ** Patterns *)

(** [is_constructor]. *)
Definition is_constructor (p : ConstructorPattern) (ty ctor_ : string) : bool :=
  bool_decide (node (ctor p) = ctor_)
  && match last (type_path p) with Some t => bool_decide (node t = ty) | None => false end.

(** [constructor_binds]. *)
Definition constructor_binds (p : ConstructorPattern) (payload : Value) : Res (list (string * Value)) :=
  match default [] (binders p) with
  | [] => Done []
  | [only] => Done (match node only with Some n => [(n, payload)] | None => [] end)
  | binders =>
      match payload with
      | VRecord fields =>
          bound ← mapM (fun '(i, b) =>
            match node b with
            | Some n => v ← ok_or (field_of (position_name i) fields) "no position {i} in a constructor's tuple"; Done [(n, v)]
            | None => Done []
            end) (imap pair binders);
          Done (concat bound)
      | _ => Fail "a constructor of several parameters holds their tuple"
      end
  end.

(** [constructor_value_binds]. *)
Definition constructor_value_binds (p : ConstructorPattern) (value : Value) : Res (list (string * Value)) :=
  match value with
  | VPending => Done (map (fun n => (n, VPending)) (pattern_names p))
  | VNominal ty ctor_ payload =>
      if is_constructor p ty ctor_ then constructor_binds p payload else Fail "`{ctor}` does not match {other}"
  | _ => Fail "`{ctor}` does not match {other}"
  end.

(** [tuple_binds]. *)
Fixpoint tuple_binds (target : AssignTarget) (value : Value) : Res (list (string * Value)) :=
  match target with
  | TargetName n => Done [(n, value)]
  | TargetConstructor p => constructor_value_binds p value
  | TargetTuple elts =>
      if match value with VRecord fields => negb (length fields =? length elts)%nat | _ => false end then
        Fail "a pattern of {n} components does not match {value}"
      else
        out ← mapM (fun '(i, bind) =>
          component ← match value with
            | VPending => Done VPending
            | VRecord fields => ok_or (field_of (position_name i) fields) "a tuple pattern does not match {value}"
            | _ => Fail "a tuple pattern does not match {other}"
            end;
          bind component) (imap pair (map (fun elt => tuple_binds (node elt)) elts));
        Done (concat out)
  | TargetSubscript _ _ | TargetQualified _ => Fail "{form} is not a component of a tuple pattern"
  end.

(** [name_of]. *)
Definition name_of (target : Spanned AssignTarget) : Res string :=
  match node target with
  | TargetName n => Done n
  | _ => Fail "{form} is not supported here, where an assignment binds one name"
  end.

(** The name a pattern binds twice, if it does. *)
Fixpoint bound_twice (seen names : list string) : bool :=
  match names with
  | [] => false
  | n :: rest => bool_decide (n ∈ seen) || bound_twice (n :: seen) rest
  end.

(** The names an arm binds. *)
Definition arm_names (arm : MatchArm) : list string :=
  match arm_pattern _ arm with
  | Some (ArmTag p) => match mp_payload p with PayloadNamed n => [n] | PayloadIgnored | PayloadAbsent => [] end
  | Some (ArmConstructor p) => pattern_names p
  | None => []
  end.
