(* ===== verification/Interp.v ===== *)
(** * The reference interpreter ([chl-interp/src/eval.rs])

    One definition per method of [Interp], in a state monad whose state survives a failure:
    what ran before an error stays done, as the source's mutations do.  [eval], [exec] and
    [block_value] recur into the program, so the methods are written over the three of them and
    [eval_at], [exec_at] and [block_value_at] tie the knot by fuel; a method never recurs into
    itself otherwise.  [run] is the loop of passes over a parsed module. *)

From stdpp Require Import list strings pretty gmap.
From S2P Require Import Prelude Ordered Tokens Syntax InterpValues InterpText.
Set Warnings "-register-all".
Local Open Scope Z_scope.

(** ** Assignment to the fields *)

Definition with_scopes x (s : Interp) : Interp :=
  MkInterp x (channels s) (observed s) (yielded s) (commit_time_count s) (clock_known s) (waited_on s) (speculating s) (speculating_at_call s) (lost s) (txn s) (loop_keys s) (calls s) (cells_made s) (order_watches s) (instance_functions s) (running_instances s) (cells s).
Definition with_channels x (s : Interp) : Interp :=
  MkInterp (scopes s) x (observed s) (yielded s) (commit_time_count s) (clock_known s) (waited_on s) (speculating s) (speculating_at_call s) (lost s) (txn s) (loop_keys s) (calls s) (cells_made s) (order_watches s) (instance_functions s) (running_instances s) (cells s).
Definition with_observed x (s : Interp) : Interp :=
  MkInterp (scopes s) (channels s) x (yielded s) (commit_time_count s) (clock_known s) (waited_on s) (speculating s) (speculating_at_call s) (lost s) (txn s) (loop_keys s) (calls s) (cells_made s) (order_watches s) (instance_functions s) (running_instances s) (cells s).
Definition with_yielded x (s : Interp) : Interp :=
  MkInterp (scopes s) (channels s) (observed s) x (commit_time_count s) (clock_known s) (waited_on s) (speculating s) (speculating_at_call s) (lost s) (txn s) (loop_keys s) (calls s) (cells_made s) (order_watches s) (instance_functions s) (running_instances s) (cells s).
Definition with_commit_time_count x (s : Interp) : Interp :=
  MkInterp (scopes s) (channels s) (observed s) (yielded s) x (clock_known s) (waited_on s) (speculating s) (speculating_at_call s) (lost s) (txn s) (loop_keys s) (calls s) (cells_made s) (order_watches s) (instance_functions s) (running_instances s) (cells s).
Definition with_clock_known x (s : Interp) : Interp :=
  MkInterp (scopes s) (channels s) (observed s) (yielded s) (commit_time_count s) x (waited_on s) (speculating s) (speculating_at_call s) (lost s) (txn s) (loop_keys s) (calls s) (cells_made s) (order_watches s) (instance_functions s) (running_instances s) (cells s).
Definition with_waited_on x (s : Interp) : Interp :=
  MkInterp (scopes s) (channels s) (observed s) (yielded s) (commit_time_count s) (clock_known s) x (speculating s) (speculating_at_call s) (lost s) (txn s) (loop_keys s) (calls s) (cells_made s) (order_watches s) (instance_functions s) (running_instances s) (cells s).
Definition with_speculating x (s : Interp) : Interp :=
  MkInterp (scopes s) (channels s) (observed s) (yielded s) (commit_time_count s) (clock_known s) (waited_on s) x (speculating_at_call s) (lost s) (txn s) (loop_keys s) (calls s) (cells_made s) (order_watches s) (instance_functions s) (running_instances s) (cells s).
Definition with_speculating_at_call x (s : Interp) : Interp :=
  MkInterp (scopes s) (channels s) (observed s) (yielded s) (commit_time_count s) (clock_known s) (waited_on s) (speculating s) x (lost s) (txn s) (loop_keys s) (calls s) (cells_made s) (order_watches s) (instance_functions s) (running_instances s) (cells s).
Definition with_lost x (s : Interp) : Interp :=
  MkInterp (scopes s) (channels s) (observed s) (yielded s) (commit_time_count s) (clock_known s) (waited_on s) (speculating s) (speculating_at_call s) x (txn s) (loop_keys s) (calls s) (cells_made s) (order_watches s) (instance_functions s) (running_instances s) (cells s).
Definition with_txn x (s : Interp) : Interp :=
  MkInterp (scopes s) (channels s) (observed s) (yielded s) (commit_time_count s) (clock_known s) (waited_on s) (speculating s) (speculating_at_call s) (lost s) x (loop_keys s) (calls s) (cells_made s) (order_watches s) (instance_functions s) (running_instances s) (cells s).
Definition with_loop_keys x (s : Interp) : Interp :=
  MkInterp (scopes s) (channels s) (observed s) (yielded s) (commit_time_count s) (clock_known s) (waited_on s) (speculating s) (speculating_at_call s) (lost s) (txn s) x (calls s) (cells_made s) (order_watches s) (instance_functions s) (running_instances s) (cells s).
Definition with_calls x (s : Interp) : Interp :=
  MkInterp (scopes s) (channels s) (observed s) (yielded s) (commit_time_count s) (clock_known s) (waited_on s) (speculating s) (speculating_at_call s) (lost s) (txn s) (loop_keys s) x (cells_made s) (order_watches s) (instance_functions s) (running_instances s) (cells s).
Definition with_cells_made x (s : Interp) : Interp :=
  MkInterp (scopes s) (channels s) (observed s) (yielded s) (commit_time_count s) (clock_known s) (waited_on s) (speculating s) (speculating_at_call s) (lost s) (txn s) (loop_keys s) (calls s) x (order_watches s) (instance_functions s) (running_instances s) (cells s).
Definition with_order_watches x (s : Interp) : Interp :=
  MkInterp (scopes s) (channels s) (observed s) (yielded s) (commit_time_count s) (clock_known s) (waited_on s) (speculating s) (speculating_at_call s) (lost s) (txn s) (loop_keys s) (calls s) (cells_made s) x (instance_functions s) (running_instances s) (cells s).
Definition with_instance_functions x (s : Interp) : Interp :=
  MkInterp (scopes s) (channels s) (observed s) (yielded s) (commit_time_count s) (clock_known s) (waited_on s) (speculating s) (speculating_at_call s) (lost s) (txn s) (loop_keys s) (calls s) (cells_made s) (order_watches s) x (running_instances s) (cells s).
Definition with_running_instances x (s : Interp) : Interp :=
  MkInterp (scopes s) (channels s) (observed s) (yielded s) (commit_time_count s) (clock_known s) (waited_on s) (speculating s) (speculating_at_call s) (lost s) (txn s) (loop_keys s) (calls s) (cells_made s) (order_watches s) (instance_functions s) x (cells s).
Definition with_cells x (s : Interp) : Interp :=
  MkInterp (scopes s) (channels s) (observed s) (yielded s) (commit_time_count s) (clock_known s) (waited_on s) (speculating s) (speculating_at_call s) (lost s) (txn s) (loop_keys s) (calls s) (cells_made s) (order_watches s) (instance_functions s) (running_instances s) x.

(** ** The monad *)

Definition M (A : Type) : Type := Interp -> Res A * Interp.

#[export] Instance M_ret : MRet M := fun A a s => (Done a, s).
#[export] Instance M_bind : MBind M := fun A B k m s =>
  match m s with
  | (Done a, s) => k a s
  | (Fail e, s) => (Fail e, s)
  | (Panic, s) => (Panic, s)
  | (Exhausted, s) => (Exhausted, s)
  end.

Definition lift {A} (r : Res A) : M A := fun s => (r, s).
Definition err {A} (why : Error) : M A := lift (Fail why).
Definition get : M Interp := fun s => (Done s, s).
Definition modify (f : Interp -> Interp) : M unit := fun s => (Done (), f s).

(** Run [m] and assign with [f] however it ends. *)
Definition finally {A} (m : M A) (f : Interp -> Interp) : M A := fun s => let '(r, s) := m s in (r, f s).

(** ** Scopes, calls and speculation *)

(** [Interp::slot]. *)
Definition slot_in (name : string) (scopes : list Scope) : option Slot :=
  head (omap (fun scope => field_of name (rev scope)) scopes).
Definition slot (s : Interp) (name : string) : option Slot := slot_in name (scopes s).

(** [Interp::mut_cell]. *)
Definition mut_cell (s : Interp) (name : string) : option nat :=
  match slot s name with Some (SlotMut cell) => Some cell | _ => None end.

(** [Interp::bind]. *)
Definition bind (name : string) (sl : Slot) : M unit := fun s =>
  match scopes s with
  | top :: rest => (Done (), with_scopes ((top ++ [(name, sl)]) :: rest) s)
  | [] => (Panic, s)
  end.

(** Each name bound to its value. *)
Fixpoint bind_all (bound : list (string * Value)) : M unit :=
  match bound with
  | [] => mret ()
  | (n, v) :: rest => bind n (SlotVal v);; bind_all rest
  end.

(** [Interp::scoped]. *)
Definition scoped {A} (m : M A) : M A :=
  modify (fun s => with_scopes ([] :: scopes s) s);;
  finally m (fun s => with_scopes (tail (scopes s)) s).

(** [Interp::site_key]: the keys outermost first. *)
Definition site_key (s : Interp) : Value := tuple_key (rev (loop_keys s)).

(** [Interp::at_position] and [Interp::at_call]. *)
Definition at_place {A} (at_ : nat) (key : Value) (call : bool) (m : M A) : M A :=
  modify (fun s => with_calls ((at_, key, call) :: calls s) s);;
  finally m (fun s => with_calls (tail (calls s)) s).
Definition at_position {A} (at_ : nat) (key : Value) (m : M A) : M A := at_place at_ key false m.
Definition at_call {A} (at_ : nat) (m : M A) : M A := s ← get; at_place at_ (site_key s) true m.

(** [Interp::speculate]. *)
Definition speculate {A} (m : M A) : M A :=
  modify (fun s => with_speculating (S (speculating s)) s);;
  finally m (fun s => with_speculating (pred (speculating s)) s).

(** The key of a loop around [m]. *)
Definition under_key {A} (key : Value) (m : M A) : M A :=
  modify (fun s => with_loop_keys (key :: loop_keys s) s);;
  finally m (fun s => with_loop_keys (tail (loop_keys s)) s).

(** [Interp::lose]: the first reason is kept. *)
Definition lose (why : Error) : M unit :=
  modify (fun s => match lost s with Some _ => s | None => with_lost (Some why) s end).

(** ** Cells *)

(** A new cell, bound to [name]. *)
Definition new_cell (name : string) (v : Value) (is_txn : bool) : M unit :=
  s ← get;
  let made := S (cells_made s) in
  modify (fun s => with_cells (cells s ++ [MkMutCell v is_txn made None]) (with_cells_made made s));;
  bind name (SlotMut (length (cells s))).

Definition set_cell (cell : nat) (c : MutCell) (s : Interp) : Interp := with_cells (<[cell := c]> (cells s)) s.

(** [Interp::write]. *)
Definition write (cell : nat) (v : Value) : M unit :=
  s ← get;
  c ← lift (expect (cells s !! cell));
  if (0 <? speculating s)%nat then
    modify (set_cell cell (MkMutCell VPending (is_txn c) (born c) (writer_site c)));;
    modify (fun s => match txn s with
      | Some f => with_txn (Some (MkTxnFrame (site f) (wrote f) (writes f) (replies f) true)) s
      | None => s
      end)
  else
    writer ← match is_txn c, txn s with
      | true, Some frame =>
          match writer_site c with
          | Some at_ => if (at_ =? site frame)%nat then mret (Some (site frame)) else err "`{name}` is written by more than one `with` block"
          | None => mret (Some (site frame))
          end
      | _, _ => mret (writer_site c)
      end;
    modify (set_cell cell (MkMutCell v (is_txn c) (born c) writer));;
    modify (fun s => with_order_watches
      (map (fun w => if (born c <=? cells_before w)%nat then MkOrderWatch (cells_before w) true else w) (order_watches s)) s);;
    modify (fun s => match txn s with
      | Some f => with_txn (Some (MkTxnFrame (site f) true (writes f) (replies f) (uncertain f))) s
      | None => s
      end).

(** [Interp::read_mut]. *)
Definition read_mut (name : string) (cell : nat) : M Value :=
  s ← get;
  c ← lift (expect (cells s !! cell));
  if is_txn c then
    match txn s with
    | None => err "`{name}` is a `Txn` variable read outside a block"
    | Some frame =>
        if decide (name ∈ writes frame) then mret (value c) else err "`{name}` is read as of an arbitrary commit position"
    end
  else mret (value c).

(** [Interp::captured_scopes]. *)
Definition captured_slot (cells : list MutCell) (sl : Slot) : option Slot :=
  match sl with
  | SlotMut cell => c ← cells !! cell; Some (if is_txn c then sl else SlotVal (value c))
  | other => Some other
  end.

Definition captured_scopes : M (list Scope) :=
  s ← get;
  lift (expect (mapM (mapM (fun '(n, sl) => sl ← captured_slot (cells s) sl; Some (n, sl))) (scopes s))).

Section Interpreter.
Context (debug_str : string -> string) (program : Program).
Abbreviation value_eq := (value_eq debug_str).
Abbreviation to_string := (to_string debug_str).
Abbreviation collection := (collection debug_str).
Abbreviation binop := (binop debug_str).

(** ** Channels *)

(** [Interp::channel_key]. *)
Definition channel_key (s : Interp) (name : string) (at_ : nat) : string :=
  name +:+ "@" +:+ pretty at_
  +:+ join "" (map (fun '(at_, under, _) => " in @" +:+ pretty at_ +:+ "[" +:+ to_string under +:+ "]") (rev (calls s)))
  +:+ " [" +:+ to_string (site_key s) +:+ "]".

(** [Interp::declare_channel]. *)
Definition declare_channel (name : string) (at_ : nat) (is_observed : bool) : M unit :=
  s ← get;
  let key := channel_key s name at_ in
  match channels s !! key with
  | Some _ => err "`{name}` is declared again at one position of the loops, comprehensions and calls around it"
  | None =>
      let sites := map (fun at_ => [at_]) (default [] (feed_sites program !! name)) in
      modify (fun s => with_channels (<[key := MkChannel name [] None sites (length (calls s))]> (channels s)) s);;
      bind name (SlotChan key);;
      if is_observed then modify (fun s => with_observed ({[key]} ∪ observed s) s) else mret ()
  end.

(** [Interp::channel_of]. *)
Definition channel_of (s : Interp) (name : string) : option string :=
  match slot s name with Some (SlotChan key) => Some key | _ => None end.

(** [Interp::contribute], with the contribution. *)
Definition contribute (key : string) (c : Site * Value * Value) : M unit :=
  s ← get;
  ch ← lift (expect (channels s !! key));
  modify (fun s => with_channels
    (<[key := MkChannel (chan_name ch) (fed ch ++ [c]) (defined ch) (sites ch) (calls_at ch)]> (channels s)) s).

Fixpoint contribute_all (l : list (string * (Site * Value * Value))) : M unit :=
  match l with [] => mret () | (key, c) :: rest => contribute key c;; contribute_all rest end.

(** [Interp::feed_site]: the calls below the channel's declaration, outermost first. *)
Definition feed_site (key : string) (at_ : nat) : M Site :=
  s ← get;
  ch ← lift (expect (channels s !! key));
  let outermost_first := rev (calls s) in
  if (length outermost_first <? calls_at ch)%nat then lift Panic
  else
    let below := drop (calls_at ch) outermost_first in
    let site := omap (fun '(at_, _, call) => if (call : bool) then Some at_ else None) below ++ [at_] in
    if decide (site ∈ sites ch) then mret site
    else
      modify (fun s => with_channels
        (<[key := MkChannel (chan_name ch) (fed ch) (defined ch) (sort_keys id (sites ch ++ [site])) (calls_at ch)]> (channels s)) s);;
      mret site.

(** ** Over the recursive calls *)

Section Handlers.
Context (eval : Spanned Expr -> M Value) (exec : Spanned Stmt -> M (option Value))
  (block_value : list (Spanned Stmt) -> bool -> M Value).

(** Each evaluated in turn, for its effects. *)
Fixpoint eval_each (es : list (Spanned Expr)) : M unit :=
  match es with [] => mret () | e :: rest => eval e;; eval_each rest end.

(** [Interp::exec_block]. *)
Fixpoint exec_block (stmts : list (Spanned Stmt)) : M (option Value) :=
  match stmts with
  | [] => mret None
  | s :: rest => r ← exec s; match r with Some v => mret (Some v) | None => exec_block rest end
  end.

(** [Interp::bind_pattern]. *)
Definition bind_pattern (target : Spanned AssignTarget) (value : Value) : M unit :=
  if bound_twice [] (bound_names (node target)) then err "`{twice}` is bound twice in this pattern"
  else
    bound ← lift (tuple_binds (node target) value);
    bind_all (List.filter (fun '(n, _) => negb (bool_decide (n = "_"))) bound).

(** A generator's body, in [Interp::run_call]: the collection of what it yields, keyed by its own loops. *)
Definition run_generator (body : list (Spanned Stmt)) : M Value := fun s =>
  let '(ran, s1) := exec_block body (with_loop_keys [] (with_yielded (Some []) s)) in
  let s2 := with_loop_keys (loop_keys s) (with_yielded (yielded s) s1) in
  match yielded s1, ran with
  | None, _ => (Panic, s2)
  | Some collected, Done _ =>
      (if entries_pending collected then Done VPending else VCollection <$> collection collected, s2)
  | _, Fail e => (Fail e, s2)
  | _, Panic => (Panic, s2)
  | _, Exhausted => (Exhausted, s2)
  end.

(** [Interp::run_call]: the body runs against the scopes the function captured. *)
Definition run_call (function : Function) (params : Scope) : M Value := fun s =>
  let inside := with_speculating_at_call (speculating s) (with_scopes (params :: env function) s) in
  let '(r, s1) := (if contains_yield (fn_body function) then run_generator (fn_body function)
    else block_value (fn_body function) true) inside in
  (r, with_speculating_at_call (speculating_at_call s) (with_scopes (scopes s) s1)).

(** [Interp::call_with_values]. *)
Definition call_with_values (function : Function) (values : list Value) : M Value :=
  if (length (params function) =? length values)%nat then
    run_call function (zip_with (fun '(param, _) v => (param, SlotVal v)) (params function) values)
  else err "`{name}` takes {n} argument(s), given {m}".

(** [Interp::dispatch]. *)
Definition dispatch (trait_ function : string) (values : list Value) : M Value :=
  if any_pending values then mret VPending
  else match functions (traits program) !! (trait_, function) with
  | None => err "`{trait_}` declares no function `{function}`"
  | Some params =>
      match admitting (traits program) trait_ params values with
      | [(one, Yes)] =>
          s ← get;
          let instance := bound one in
          let name := instance +:+ "::" +:+ function in
          f ← match slot s name with
            | Some (SlotFn f) => mret f
            | _ =>
                match instance_functions s !! name with
                | Some f =>
                    if decide (instance ∈ running_instances s) then mret f
                    else err "`{trait_}::{function}` is answered by an instance declared after the call"
                | None => err "`{trait_}::{function}` is answered by an instance declared after the call"
                end
            end;
          modify (fun s => with_running_instances (instance :: running_instances s) s);;
          finally (call_with_values f values) (fun s => with_running_instances (tail (running_instances s)) s)
      | [] =>
          match builtin_function debug_str trait_ function values with
          | Some answer => lift answer
          | None => err "no instance of `{trait_}` admits the arguments of `{trait_}::{function}`"
          end
      | _ => err "{n} instances of `{trait_}` may admit the arguments of `{trait_}::{function}`"
      end
  end.

(** [Interp::arithmetic]. *)
Definition arithmetic (op : BinOp) (l r : Value) : M Value :=
  match arithmetic_function op with
  | Some (trait_, function) =>
      if negb (any_pending [l; r]) && declares_instance_for (traits program) trait_ function [l; r] then
        dispatch trait_ function [l; r]
      else lift (binop op l r)
  | None => lift (binop op l r)
  end.

(** [Interp::eval_loop_source]. *)
Definition eval_loop_source (iter : Spanned Expr) : M Value :=
  v ← eval iter;
  match v with VNominal _ _ _ => dispatch "Iterable" "elements" [v] | v => mret v end.

(** [Interp::instance_function]. *)
Definition instance_function (e : Spanned Expr) : M (option (string * string)) :=
  s ← get;
  let found (trait_ function : string) : M (option (string * string)) :=
    match functions (traits program) !! (trait_, function) with
    | Some _ => mret (Some (trait_, function))
    | None => err "`{trait_}` declares no function `{function}`"
    end in
  match node e with
  | ESummon trait_type function => found (tt_name _ (node trait_type)) (node function)
  | EQualified q =>
      match qualifier q with
      | [] => mret None
      | first :: rest =>
          match slot s (node first +:+ "::") with
          | Some (SlotInstance trait_) =>
              match rest with
              | [] => found trait_ (node (q_name q))
              | _ => err "`{first}` is an instance of `{trait_}`, which shows only its trait's functions"
              end
          | _ => mret None
          end
      end
  | _ => mret None
  end.

(** [Interp::binding_of]. *)
Definition binding_of (e : Spanned Expr) : M Slot :=
  s ← get;
  match node e with
  | ELambda params body =>
      env ← captured_scopes;
      mret (SlotFn (MkFunction (map (fun p => (p_name _ p, false)) params) [MkSpanned (span body) (SExpr body)] env))
  | _ =>
      match match node e with EName n => slot s n | _ => None end with
      | Some (SlotFn function) => mret (SlotFn function)
      | Some (SlotChan key) => mret (SlotChan key)
      | _ =>
          read ← instance_function e;
          match read with
          | Some (trait_, function) =>
              let arity := match functions (traits program) !! (trait_, function) with Some params => length params | None => 0%nat end in
              let params := map (fun i => "__arg" +:+ pretty i) (seq 0 arity) in
              let call := ECall e (map (fun p => MkSpanned (span e) (EName p)) params) in
              env ← captured_scopes;
              mret (SlotFn (MkFunction (map (fun p => (p, false)) params)
                [MkSpanned (span e) (SExpr (MkSpanned (span e) call))] env))
          | None => v ← eval e; mret (SlotVal v)
          end
      end
  end.

(** [Interp::apply]. *)
Definition apply (lambda : Spanned Expr) (arg : Value) : M Value :=
  match node lambda with
  | ELambda [param] body => scoped (bind (p_name _ param) (SlotVal arg);; eval body)
  | ELambda _ _ => err "expected a one-parameter lambda"
  | _ => err "expected a lambda"
  end.

(** The entries of a source, each in turn. *)
Fixpoint each_entry (f : Value -> Value -> M (list (Value * Value))) (entries : Collection) : M (list (Value * Value)) :=
  match entries with
  | [] => mret []
  | (key, elem) :: more => out ← f key elem; outs ← each_entry f more; mret (out ++ outs)
  end.

(** [Interp::comprehend]: the entries it adds, under [keys], outermost first. *)
Fixpoint comprehend (clauses : list CompClause) (element : Spanned Expr) (keys : list Value) : M (list (Value * Value)) :=
  match clauses with
  | [] =>
      let key := tuple_key keys in
      v ← at_position (start (span element)) key (eval element);
      mret [(key, v)]
  | ClauseIf _ _ guard :: rest =>
      g ← eval guard;
      match g with
      | VBool true => comprehend rest element keys
      | VBool false => mret []
      | VPending => out ← speculate (comprehend rest element keys); mret (out ++ [(VPending, VPending)])
      | _ => err "a comprehension guard is a boolean"
      end
  | ClauseFor _ _ target iter :: rest =>
      source ← eval_loop_source iter;
      match source with
      | VCollection c =>
          each_entry (fun key elem => scoped (bind_pattern target elem;; comprehend rest element (keys ++ [key]))) c
      | VPending =>
          out ← speculate (scoped (bind_pattern target VPending;; comprehend rest element (keys ++ [VPending])));
          mret (out ++ [(VPending, VPending)])
      | _ => err "a comprehension iterates a collection"
      end
  end.

(** [Interp::feed]. *)
Definition add_reply (channel : string) (site_ : Site) (v : Value) (speculating : bool) (f : TxnFrame) : TxnFrame :=
  MkTxnFrame (site f) (wrote f) (writes f) (replies f ++ [(channel, site_, v)]) (uncertain f || speculating).

(** The contribution, once its value is known. *)
Definition feed_value (channel : string) (at_ : nat) (contributed : Value) : M unit :=
  s ← get;
  let speculating := (0 <? speculating s)%nat in
  let contributed := if speculating then VPending else contributed in
  site ← feed_site channel at_;
  s ← get;
  match txn s with
  | Some frame => modify (with_txn (Some (add_reply channel site contributed speculating frame)))
  | None => contribute channel (site, site_key s, contributed)
  end.

Definition feed (target value : Spanned Expr) : M unit :=
  match node target with
  | EName name =>
      s ← get;
      match channel_of s name with
      | None => err "`{name}` is not a channel"
      | Some channel => contributed ← eval value; feed_value channel (start (span value)) contributed
      end
  | _ => err "a feed's target is a name"
  end.

(** [Taken] and [Interp::select_branch]. *)
Inductive Taken := TakenBody (body : list (Spanned Stmt)) | TakenNothing | TakenUndecided (bodies : list (list (Spanned Stmt))).

Fixpoint select_branch (branches : list IfBranch) (else_body : option (list (Spanned Stmt))) : M Taken :=
  match branches with
  | [] => mret (match else_body with Some body => TakenBody body | None => TakenNothing end)
  | branch :: rest =>
      c ← eval (cond _ _ branch);
      match c with
      | VBool true => mret (TakenBody (branch_body _ _ branch))
      | VBool false => select_branch rest else_body
      | VPending =>
          speculate (eval_each (map (cond _ _) rest));;
          mret (TakenUndecided (map (branch_body _ _) (branch :: rest) ++ match else_body with Some b => [b] | None => [] end))
      | _ => err "an `if` condition is a boolean"
      end
  end.

(** [Chosen] and [Interp::match_arm]. *)
Inductive Chosen :=
  | ChosenArm (bound : list (string * Value)) (body : list (Spanned Stmt))
  | ChosenUndecided (arms : list (list string * list (Spanned Stmt))).

Fixpoint check_patterns (arms : list MatchArm) : Res unit :=
  match arms with
  | [] => Done ()
  | arm :: rest =>
      match arm_pattern _ arm with
      | Some (ArmTag p) => unqualified (mp_tag_qualifier p)
      | Some (ArmConstructor p) => match type_path p with [] => Panic | path => unqualified (take (length path - 1) path) end
      | None => Done ()
      end;;
      check_patterns rest
  end.

(** The first arm that matches a variant ([nominal] absent) or a nominal value. *)
Fixpoint choose_arm (arms : list MatchArm) (nominal : option string) (tag : string) (payload : Value) : Res Chosen :=
  match arms with
  | [] => Fail "no `match` arm for `{tag}`"
  | arm :: rest =>
      match arm_pattern _ arm, nominal with
      | Some (ArmTag p), None =>
          if decide (mp_tag p = tag) then Done (ChosenArm (map (fun n => (n, payload)) (arm_names arm)) (arm_body _ arm))
          else choose_arm rest nominal tag payload
      | Some (ArmConstructor p), Some ty =>
          if is_constructor p ty tag then bound ← constructor_binds p payload; Done (ChosenArm bound (arm_body _ arm))
          else choose_arm rest nominal tag payload
      | Some (ArmTag p), Some _ => Fail "the tag arm `{tag} does not match a value of the nominal type `{ty}`"
      | Some (ArmConstructor p), None => Fail "the constructor arm `{ctor}` does not match the variant `{tag}"
      | None, _ => Done (ChosenArm (map (fun n => (n, payload)) (arm_names arm)) (arm_body _ arm))
      end
  end.

Definition match_arm (scrutinee : Spanned Expr) (arms : list MatchArm) : M Chosen :=
  lift (check_patterns arms);;
  v ← eval scrutinee;
  match v with
  | VPending => mret (ChosenUndecided (map (fun arm => (arm_names arm, arm_body _ arm)) arms))
  | VVariant tag payload => lift (choose_arm arms None tag payload)
  | VNominal ty ctor payload => lift (choose_arm arms (Some ty) ctor payload)
  | _ => err "`match` dispatches on a variant or a nominal value"
  end.

(** Bodies that may run, each in a scope of its own, for their effects. *)
Fixpoint run_undecided {A} (run : list (Spanned Stmt) -> M A) (bodies : list (list string * list (Spanned Stmt))) : M unit :=
  match bodies with
  | [] => mret ()
  | (bound, body) :: rest =>
      scoped (bind_all (map (fun n => (n, VPending)) bound);; run body);;
      run_undecided run rest
  end.

(** What a conditional runs, [Stmt::If] and [Stmt::Match]: the branch taken, or every branch speculatively. *)
Definition run_taken {A} (run : list (Spanned Stmt) -> M A) (nothing : M A) (undecided : A) (taken : Taken) : M A :=
  match taken with
  | TakenBody body => scoped (run body)
  | TakenNothing => nothing
  | TakenUndecided bodies => speculate (run_undecided run (map (pair []) bodies);; mret undecided)
  end.

Definition run_chosen {A} (run : list (Spanned Stmt) -> M A) (undecided : A) (chosen : Chosen) : M A :=
  match chosen with
  | ChosenArm bound body => scoped (bind_all bound;; run body)
  | ChosenUndecided arms => speculate (run_undecided run arms;; mret undecided)
  end.

(** [Interp::branch_value]. *)
Definition branch_value (stmt : Spanned Stmt) (effects_denote_unit : bool) : M Value :=
  let run body := block_value body effects_denote_unit in
  match node stmt with
  | SMatch scrutinee arms => chosen ← match_arm scrutinee arms; run_chosen run VPending chosen
  | SIf branches else_body =>
      taken ← select_branch branches else_body;
      run_taken run (err "an `if` with no `else` denotes no value") VPending taken
  | _ => err "{other} in expression position"
  end.

(** [Interp::block_value]. *)
Definition block_value_step (body : list (Spanned Stmt)) (effects_denote_unit : bool) : M Value :=
  match last body with
  | None => err "an empty block has no value"
  | Some last =>
      r ← exec_block (take (length body - 1) body);
      match r with
      | Some v => mret v
      | None =>
          let effects :=
            if effects_denote_unit then returned ← exec last; mret (default VUnit returned)
            else err "a block ends with {other}, which denotes no value" in
          match node last with
          | SExpr e => match node e with EFeed _ _ | EYield _ => effects | _ => eval e end
          | SReturn (Some e) => eval e
          | SIf _ (Some _) | SMatch _ _ => branch_value last effects_denote_unit
          | _ => effects
          end
      end
  end.

(** The arguments of a call, in [Interp::call_user]. *)
Fixpoint bind_args (params : list (string * bool)) (args : list (Spanned Expr)) : M Scope :=
  match params, args with
  | (param, by_ref) :: params, arg :: args =>
      sl ← (if (by_ref : bool) then
          match node arg with
          | EName n => s ← get; match mut_cell s n with Some cell => mret (SlotMut cell) | None => err "`{n}` is not a mutable variable" end
          | _ => err "`{param}` takes a mutable variable"
          end
        else binding_of arg);
      rest ← bind_args params args;
      mret ((param, sl) :: rest)
  | _, _ => mret []
  end.

(** [Interp::call_user]. *)
Definition call_user (function : Function) (args : list (Spanned Expr)) : M Value :=
  if (length (params function) =? length args)%nat then
    scope ← bind_args (params function) args; run_call function scope
  else err "`{name}` takes {n} argument(s), given {m}".

(** [Interp::call_method]. *)
Definition call_method (receiver : Spanned Expr) (method : string) (args : list (Spanned Expr)) : M Value :=
  v ← eval receiver;
  match v with
  | VNominal ty ctor payload =>
      match types program !! ty with
      | Some t =>
          if decide (method ∈ methods t) then
            s ← get;
            match slot s (ty +:+ "::" +:+ method), members t !! method with
            | None, Some (MemberBuiltin builtin) => mret (method_apply builtin ctor payload)
            | Some (SlotFn function), _ =>
                values ← mapM eval args;
                if any_pending (v :: values) then mret VPending else call_with_values function (v :: values)
            | _, _ => err "`{bound}` is not bound"
            end
          else err "`{ty}` declares no method `{method}`"
      | None => err "`{ty}` declares no method `{method}`"
      end
  | VPending => mret VPending
  | _ => err "`.{method}(…)` on {other}, which is not a nominal value"
  end.

(** [Interp::member] and [Interp::constructor_arity]. *)
Definition member (q : QualifiedName) : Res Member :=
  match qualifier q with
  | [ty] => ok_or (t ← types program !! node ty; members t !! node (q_name q)) "`{ty}::{name}` is not a declared member"
  | _ => Fail "unsupported qualified name: {q}"
  end.

Definition constructor_arity (q : QualifiedName) : Res nat :=
  m ← member q;
  match m with MemberConstructor arity => Done arity | MemberBuiltin _ => Fail "`{name}` as a function value is not supported" end.

(** A nominal value of the type [q] names. *)
Definition nominal_value (q : QualifiedName) (payload : Value) : Res Value :=
  ty ← expect (head (qualifier q)); Done (VNominal (node ty) (node (q_name q)) payload).

(** An associated function, [N::f], is bound under its qualified name. *)
Definition associated (s : Interp) (q : QualifiedName) : option Slot :=
  match qualifier q with [ty] => slot s (node ty +:+ "::" +:+ node (q_name q)) | _ => None end.

(** A constructor's argument: the one, or the tuple of several. *)
Definition product (values : list Value) : Value :=
  match values with [only] => only | values => VRecord (imap (fun i v => (position_name i, v)) values) end.

(** [Interp::construct]. *)
Definition construct (q : QualifiedName) (args : list (Spanned Expr)) : M Value :=
  s ← get;
  match associated s q with
  | Some (SlotFn function) => call_user function args
  | _ =>
      m ← lift (member q);
      match m with
      | MemberBuiltin method =>
          match args with
          | [arg] =>
              v ← eval arg;
              match v with
              | VPending => mret VPending
              | VNominal ty ctor payload =>
                  if match last (qualifier q) with Some t => bool_decide (node t = ty) | None => false end then
                    mret (method_apply method ctor payload)
                  else err "`{name}` takes a nominal value, got {other}"
              | _ => err "`{name}` takes a nominal value, got {other}"
              end
          | _ => err "`{name}` takes one argument"
          end
      | MemberConstructor arity =>
          if (arity =? 0)%nat || negb (arity =? length args)%nat then err "`{name}` takes {arity} arguments, got {n}"
          else
            values ← mapM eval args;
            if any_pending values then mret VPending
            else lift (nominal_value q (product values))
      end
  end.

(** [Interp::bind_associated]. *)
Definition bind_associated (ty name : string) (ps : list Param) (body : list (Spanned Stmt)) : M unit :=
  if existsb (fun p => match p_annotation _ p with Some a => is_mut_annotation a | None => false end) ps then
    err "`{ty}::{name}` takes a `Mut` parameter, which an associated function does not"
  else
    env ← captured_scopes;
    bind (ty +:+ "::" +:+ name) (SlotFn (MkFunction (map (fun p => (p_name _ p, false)) ps) body env)).

(** ** Calls of builtins *)

(** The collection a builtin takes, or [VPending]. *)
Definition eval_collection (e : Spanned Expr) (why : Error) : M (option Collection) :=
  v ← eval e;
  match v with VCollection c => mret (Some c) | VPending => mret None | _ => err why end.

(** The entries [map] reads from pairs. *)
Definition pair_entries (pairs : Collection) : Res (list (Value * Value)) :=
  mapM (fun '(_, pair_) =>
    match pair_ with
    | VRecord fields =>
        k ← ok_or (field_of "_0" fields) "a pair has no component {n}";
        v ← ok_or (field_of "_1" fields) "a pair has no component {n}";
        Done (k, v)
    | _ => Fail "`map` takes a collection of pairs"
    end) pairs.

(** [sum]. *)
Definition sum_entries (c : Collection) : Res Value :=
  foldl (fun total '(_, v) =>
    total ← total;
    match v with VInt _ => binop OpAdd total v | _ => Fail "`sum` takes a collection of integers" end) (Done (VInt 0)) c.

(** An entry joins the group of its key. *)
Fixpoint push_group (gk : Value) (entry : Value * Value) (groups : list (Value * list (Value * Value))) :
    list (Value * list (Value * Value)) :=
  match groups with
  | [] => [(gk, [entry])]
  | (k, held) :: rest => if value_eq k gk then (k, held ++ [entry]) :: rest else (k, held) :: push_group gk entry rest
  end.

(** The groups of [groupby], or [None] where a key is pending. *)
Fixpoint group_entries (f : Spanned Expr) (entries : Collection) (groups : list (Value * list (Value * Value))) :
    M (option (list (Value * list (Value * Value)))) :=
  match entries with
  | [] => mret (Some groups)
  | (key, elem) :: rest =>
      gk ← apply f elem;
      if is_pending gk then mret None else group_entries f rest (push_group gk (key, elem) groups)
  end.

(** [Interp::call], of a builtin with as many arguments as it takes. *)
Definition call_builtin (b : SurfaceBuiltin) (args : list (Spanned Expr)) : M Value :=
  match b, args with
  | BAwaitFinal, [arg] =>
      match node arg with
      | EName n =>
          s ← get;
          match mut_cell s n with
          | Some cell => c ← lift (expect (cells s !! cell)); mret (value c)
          | None => err "`{n}` is not a mutable variable"
          end
      | _ => err "`await_final` takes a mutable variable"
      end
  | BMap, [arg] =>
      pairs ← eval_collection arg "`map` takes a collection of pairs";
      match pairs with
      | None => mret VPending
      | Some pairs => entries ← lift (pair_entries pairs); c ← lift (collection entries); mret (VCollection c)
      end
  | BBox, [arg] => eval arg
  | BMax, [arg] =>
      c ← eval_collection arg "`max` takes a collection";
      match c with None => mret VPending | Some c => lift (extreme (traits program) c true) end
  | BMin, [arg] =>
      c ← eval_collection arg "`min` takes a collection";
      match c with None => mret VPending | Some c => lift (extreme (traits program) c false) end
  | BSum, [arg] =>
      c ← eval_collection arg "`sum` takes a collection";
      match c with None => mret VPending | Some c => lift (sum_entries c) end
  | BGroupby, [arg; f] =>
      c ← eval_collection arg "`groupby` takes a collection";
      match c with
      | None => speculate (apply f VPending);; mret VPending
      | Some c =>
          groups ← group_entries f c [];
          match groups with
          | None => mret VPending
          | Some groups =>
              entries ← lift (mapM (fun '(k, held) => c ← collection held; Done (k, VCollection c)) groups);
              c ← lift (collection entries);
              mret (VCollection c)
          end
      end
  | BSummon, _ => err "`summon(T)` is an instance, which stands only before `::`"
  | _, _ => err "unknown function `{name}` of {n} argument(s)"
  end.

(** [Interp::call]. *)
Definition call (func : Spanned Expr) (args : list (Spanned Expr)) : M Value :=
  read ← instance_function func;
  match read with
  | Some (trait_, function) => values ← mapM eval args; dispatch trait_ function values
  | None =>
      match node func with
      | EQualified q => construct q args
      | EName name =>
          s ← get;
          match slot s name with
          | Some (SlotFn function) => call_user function args
          | _ =>
              match from_name name ≫= fun b => a ← builtin_arity b; if accepts a (length args) then Some b else None with
              | Some b => call_builtin b args
              | None => err "unknown function `{name}` of {n} argument(s)"
              end
          end
      | _ => err "only a named function can be called"
      end
  end.

(** ** Expressions *)

(** [str::parse::<usize>]: decimal digits, after a plus sign or none. *)
Definition digit (c : ascii) : option nat :=
  let n := nat_of_ascii c in if ((48 <=? n) && (n <=? 57))%nat then Some (n - 48)%nat else None.
Fixpoint digits (acc : Z) (s : string) : option Z :=
  match s with
  | EmptyString => Some acc
  | String c s => d ← digit c; digits (acc * 10 + Z.of_nat d) s
  end.
Definition parse_usize (s : string) : option Z :=
  let s := match s with String "+" rest => rest | s => s end in
  match s with
  | EmptyString => None
  | s => n ← digits 0 s; if n <? 2 ^ 64 then Some n else None
  end.

(** The chain of a comparison, from the value on its left. *)
Fixpoint compare_chain (prev : Value) (ops : list CmpOp) (comparators : list (Spanned Expr)) : M Value :=
  match ops, comparators with
  | op :: ops, rhs :: later =>
      next ← eval rhs;
      c ← lift (comparison_ debug_str (traits program) op prev next);
      match c with
      | VBool true => compare_chain next ops later
      | VBool false => mret (VBool false)
      | VPending => speculate (eval_each later);; mret VPending
      | _ => err "a comparison answers a boolean"
      end
  | _, _ => mret (VBool true)
  end.

(** The operands of a short-circuiting operator. *)
Fixpoint bool_chain (op : BoolOp) (last : bool) (operands : list (Spanned Expr)) : M Value :=
  match operands with
  | [] => mret (VBool last)
  | operand :: later =>
      v ← eval operand;
      match v with
      | VBool b =>
          match op, b with
          | OpAnd, false => mret (VBool false)
          | OpOr, true => mret (VBool true)
          | _, _ => bool_chain op b later
          end
      | VPending => speculate (eval_each later);; mret VPending
      | _ => err "a boolean operator takes booleans"
      end
  end.

(** A subscript of a collection or of a product. *)
Definition subscript (t k : Value) (checked : bool) : Res Value :=
  match t with
  | VCollection c =>
      match List.find (fun '(key, _) => value_eq key k) c, checked with
      | Some (_, v), false => Done v
      | None, false => Fail "no entry at key {k}"
      | Some (_, v), true => Done (VNominal "Option" "some" v)
      | None, true => Done (VNominal "Option" "none" VUnit)
      end
  | VRecord fields =>
      if checked then Fail "a checked subscript of a product is not defined"
      else match k with
      | VInt i => ok_or (field_of ("_" +:+ pretty i) fields) "no component _{i}"
      | _ => Fail "a product is subscripted by position"
      end
  | _ => Fail "cannot subscript {other}"
  end.

(** A read of a channel that no earlier pass completed. *)
Definition wait_on (key : string) : M Value :=
  modify (fun s => with_waited_on ({[key]} ∪ waited_on s) s);; mret VPending.

(** [Interp::eval_expr]. *)
Definition eval_expr (e : Spanned Expr) : M Value :=
  match node e with
  | ELit (LitInt i) => mret (VInt i)
  | ELit (LitString s) => mret (VStr s)
  | ELit (LitBool b) => mret (VBool b)
  | EMethodCall receiver method args => at_call (start (span e)) (call_method receiver (node method) args)
  | EQualified q =>
      arity ← lift (constructor_arity q);
      if (arity =? 0)%nat then lift (nominal_value q VUnit)
      else err "the constructor `{name}` as a function value is not supported"
  | EName n =>
      s ← get;
      match slot s n with
      | Some (SlotVal v) => mret v
      | Some (SlotMut cell) => read_mut n cell
      | Some (SlotChan key) =>
          match finals program !! key with
          | Some v => mret v
          | None => wait_on key
          end
      | Some (SlotFn _) => err "`{n}` is a function, which is not a value"
      | Some (SlotInstance _) => lift Panic
      | None => err "unbound name: {n}"
      end
  | EList items =>
      out ← mapM eval items;
      mret (if any_pending out then VPending else VCollection (from_list out))
  | ERecord fields =>
      out ← mapM (fun f => lift (unqualified (rf_qualifier _ f));; v ← eval (rf_value _ f); mret (rf_name _ f, v)) fields;
      mret (if any_pending (map snd out) then VPending else VRecord out)
  | EAttribute target attr _ attr_qualifier =>
      lift (unqualified attr_qualifier);;
      v ← eval target;
      match v with
      | VPending => mret VPending
      | VRecord fields =>
          let wanted := match parse_usize attr with Some i => "_" +:+ pretty i | None => attr end in
          lift (ok_or (field_of wanted fields) "no field `{attr}`")
      | _ => err "field access `.{attr}` on a non-record"
      end
  | EVariantCtor tag _ tag_qualifier payload =>
      lift (unqualified tag_qualifier);;
      inner ← match payload with
        | None => mret VUnit
        | Some (PayloadTerm _ inner) => eval inner
        | Some (PayloadFields _ _) => err "unsupported variant payload: {p}"
        end;
      mret (if is_pending inner then VPending else VVariant tag inner)
  | EUnaryOp op operand =>
      v ← eval operand;
      match op with
      | OpNeg =>
          if declares_instance_for (traits program) "Negatable" "neg" [v] then dispatch "Negatable" "neg" [v]
          else match v with
          | VPending => mret VPending
          | VInt i => lift (ok_or (VInt <$> checked (- i)) "-({i}) is not defined")
          | _ => err "unsupported unary {op} on {v}"
          end
      | OpNot => match v with VPending => mret VPending | VBool b => mret (VBool (negb b)) | _ => err "unsupported unary {op} on {v}" end
      end
  | EBinOp l op r => l ← eval l; r ← eval r; arithmetic op l r
  | ECompare l ops comparators => prev ← eval l; compare_chain prev ops comparators
  | EBoolOp op operands => bool_chain op (match op with OpAnd => true | OpOr => false end) operands
  | EIfExp cond then_expr else_expr =>
      c ← eval cond;
      match c with
      | VBool true => eval then_expr
      | VBool false => eval else_expr
      | VPending => speculate (eval then_expr;; eval else_expr);; mret VPending
      | _ => err "a conditional's test is a boolean"
      end
  | EListComp comp =>
      out ← comprehend (clauses _ _ comp) (element _ _ comp) [];
      if entries_pending out then mret VPending else c ← lift (collection out); mret (VCollection c)
  | ETuple items =>
      out ← mapM eval items;
      mret (if any_pending out then VPending else VRecord (imap (fun i v => (position_name i, v)) out))
  | ESubscript target index checked =>
      t ← eval target;
      k ← eval index;
      if any_pending [t; k] then mret VPending else lift (subscript t k checked)
  | EBlock stmt => branch_value stmt false
  | ECall func args => at_call (start (span e)) (call func args)
  | _ => err "unsupported expression: {other}"
  end.

(** [Interp::eval]. *)
Definition eval_step (e : Spanned Expr) : M Value := fun s =>
  match eval_expr e s with
  | (Fail why, s) => if (0 <? speculating s)%nat then (lose why;; mret VPending) s else (Fail why, s)
  | evaluated => evaluated
  end.

(** ** Statements *)

(** [Stmt::MutAssign]. *)
Definition exec_mut_assign (target : Spanned AssignTarget) (annotation : option TypeAnnotation) (value_ : Spanned Expr) : M unit :=
  v ← eval value_;
  match node target with
  | TargetName n =>
      s ← get;
      match mut_cell s n with
      | Some cell => write cell v
      | None => new_cell n v (match annotation with Some a => is_txn_annotation a | None => false end)
      end
  | TargetSubscript target index =>
      match node target with
      | EName n =>
          key ← eval index;
          s ← get;
          match mut_cell s n with
          | None => err "`{n}` is not a mutable variable"
          | Some cell =>
              c ← lift (expect (cells s !! cell));
              let current := value c in
              if any_pending [key; v; current] then write cell VPending
              else match current with
              | VCollection entries =>
                  let entries :=
                    match list_find (fun '(k, _) => value_eq k key) entries with
                    | Some (i, (k, _)) => <[i := (k, v)]> entries
                    | None => entries ++ [(key, v)]
                    end in
                  c ← lift (collection entries);
                  write cell (VCollection c)
              | _ => err "`{n}` is not a mutable collection"
              end
          end
      | _ => err "a keyed write names a mutable variable"
      end
  | _ => err "unsupported write target: {other}"
  end.

Definition aug_binop (op : AugOp) : BinOp :=
  match op with AugAdd => OpAdd | AugSub => OpSub | AugMul => OpMul | AugFloorDiv => OpFloorDiv end.

(** [Stmt::Define], once its value is known. *)
Definition define_as (name : string) (v : Value) : M unit :=
  s ← get;
  match channel_of s name with
  | None => bind name (SlotVal v)
  | Some key =>
      ch ← lift (expect (channels s !! key));
      let set_defined d := modify (fun s => with_channels
        (<[key := MkChannel (chan_name ch) (fed ch) (Some d) (sites ch) (calls_at ch)]> (channels s)) s) in
      if (0 <? speculating s)%nat || match defined ch with Some VPending => true | _ => false end then set_defined VPending
      else match defined ch, sites ch with
      | None, [] => set_defined v
      | _, _ => err "`{name}` is defined twice, or both fed and defined"
      end
  end.

(** [Stmt::Define]. *)
Definition exec_define (target : Spanned AssignTarget) (value_ : Spanned Expr) : M unit :=
  name ← lift (name_of target);
  v ← eval value_;
  define_as name v.

(** The iterations of a loop, until one returns or fails. *)
Fixpoint iterate (target : Spanned AssignTarget) (body : list (Spanned Stmt)) (entries : Collection) : M (option Value) :=
  match entries with
  | [] => mret None
  | (key, elem) :: rest =>
      ran ← under_key key (scoped (bind_pattern target elem;; exec_block body));
      match ran with Some v => mret (Some v) | None => iterate target body rest end
  end.

(** The loop over a collection that is not keyed by position, under an [OrderWatch]. *)
Definition iterate_watched (target : Spanned AssignTarget) (body : list (Spanned Stmt)) (entries : Collection) : M (option Value) := fun s =>
  let '(ran, s1) := iterate target body entries
    (with_order_watches (MkOrderWatch (cells_made s) false :: order_watches s) s) in
  match order_watches s1 with
  | [] => (Panic, s1)
  | watch :: watches =>
      let s2 := with_order_watches watches s1 in
      match ran with
      | Done r =>
          let returned_early := (1 <? length entries)%nat && match r with Some _ => true | None => false end in
          if moved watch || returned_early then (Fail "a loop whose result may depend on its iteration order", s2) else (Done r, s2)
      | ran => (ran, s2)
      end
  end.

(** [Stmt::For]. *)
Definition exec_for (target : Spanned AssignTarget) (iter : Spanned Expr) (body : list (Spanned Stmt)) : M (option Value) :=
  source ← eval_loop_source iter;
  match source with
  | VPending =>
      speculate (under_key VPending (scoped (bind_pattern target VPending;; exec_block body));; mret None)
  | VCollection entries =>
      match mapM (fun '(k, v) => match k with VInt i => Some (i, (k, v)) | _ => None end) entries with
      | Some positioned => iterate target body (map snd (sort_keys fst positioned))
      | None => iterate_watched target body entries
      end
  | _ => err "a `for` loop iterates a collection"
  end.

(** A [yield], in [Stmt::Expr]. *)
Definition push_yield (key v : Value) : M unit :=
  s ← get;
  let v := if (0 <? speculating s)%nat then VPending else v in
  held ← lift (expect (yielded s));
  modify (with_yielded (Some (held ++ [(key, v)]))).

Definition exec_yield (inner : Spanned Expr) : M unit :=
  s ← get;
  match yielded s with
  | None => err "`yield` outside a generator"
  | Some _ => let key := site_key s in v ← eval inner; push_yield key v
  end.

(** The end of a [with begin():] block. *)
Definition commit (frame : TxnFrame) : M unit :=
  if uncertain frame then
    modify (with_clock_known false);;
    contribute_all (map (fun '(channel, site, _) => (channel, (site, VPending, VPending))) (replies frame))
  else if negb (wrote frame) && bool_decide (length (replies frame) = 0%nat) then mret ()
  else
    modify (fun s => with_commit_time_count (commit_time_count s + 1) s);;
    modify (fun s => with_order_watches (map (fun w => MkOrderWatch (cells_before w) true) (order_watches s)) s);;
    s ← get;
    let at_ := if clock_known s then VCommitTime (commit_time_count s) else VPending in
    contribute_all (map (fun '(channel, site, v) => (channel, (site, at_, v))) (replies frame)).

(** The body of a block, and the frame it leaves. *)
Definition in_block (body : list (Spanned Stmt)) : M TxnFrame := fun s =>
  let '(outcome, s1) := scoped (exec_block body) s in
  match txn s1, outcome with
  | None, _ => (Panic, s1)
  | Some frame, Done _ => (Done frame, with_txn None s1)
  | _, Fail e => (Fail e, with_txn None s1)
  | _, Panic => (Panic, with_txn None s1)
  | _, Exhausted => (Exhausted, with_txn None s1)
  end.

(** [Stmt::With]. *)
Definition exec_with (at_ : nat) (binding : option string) (context : Spanned Expr) (body : list (Spanned Stmt)) : M unit :=
  match binding with
  | Some _ => err "the `with t = begin():` transaction handle is not supported"
  | None =>
      if negb (is_zero_arg_call (node context) BBegin) then err "the only transaction context is `begin()`"
      else
        s ← get;
        match txn s with
        | Some _ => err "nested `with begin():` transactions are not supported"
        | None =>
            modify (with_txn (Some (MkTxnFrame at_ false (written_names body) [] false)));;
            frame ← in_block body;
            commit frame
        end
  end.

(** The functions of an [instance] block. *)
Fixpoint bind_instance (prefix : string) (names : Scope) (defs : list (Spanned Stmt)) : M unit :=
  match defs with
  | [] => mret ()
  | def :: rest =>
      match node def with
      | SFunctionDef _ name _ ps _ _ body =>
          captured ← captured_scopes;
          let function := MkFunction (map (fun p => (p_name _ p, false)) ps) body (names :: captured) in
          let bound := prefix +:+ "::" +:+ node name in
          modify (fun s => with_instance_functions (<[bound := function]> (instance_functions s)) s);;
          bind bound (SlotFn function);;
          bind_instance prefix names rest
      | _ => err "an `instance` block holds `def`s"
      end
  end.

(** The functions of an [impl] block. *)
Fixpoint bind_impl (ty : string) (defs : list (Spanned Stmt)) : M unit :=
  match defs with
  | [] => mret ()
  | def :: rest =>
      match node (unwrap_pub def) with
      | SFunctionDef _ name _ ps _ _ body => bind_associated ty (node name) ps body;; bind_impl ty rest
      | _ => err "an `impl` block holds `def`s"
      end
  end.

(** [Interp::exec_stmt]. *)
Definition exec_stmt (stmt : Spanned Stmt) : M (option Value) :=
  let at_ := start (span stmt) in
  match node stmt with
  | SAssign target value_ _ =>
      match node target with
      | TargetConstructor p => v ← eval value_; bound ← lift (constructor_value_binds p v); bind_all bound;; mret None
      | TargetTuple _ => v ← eval value_; bind_pattern target v;; mret None
      | _ =>
          name ← lift (name_of target);
          if is_zero_arg_call (node value_) BTestSink then declare_channel name at_ true;; mret None
          else sl ← binding_of value_; bind name sl;; mret None
      end
  | SDeclare target annotation =>
      name ← lift (name_of target);
      if match node (ann_ty _ annotation) with ECall func _ => names "Feed" func | _ => false end then
        declare_channel name at_ false;; mret None
      else err "`{name}` is declared with no value, which only a feed is"
  | SAnnAssign target _ value_ =>
      name ← lift (name_of target);
      sl ← binding_of value_;
      bind name sl;; mret None
  | SMutAssign target annotation value_ => exec_mut_assign target annotation value_;; mret None
  | SAugAssign target op value_ =>
      name ← lift (name_of target);
      s ← get;
      match mut_cell s name with
      | None => err "`{name}` is not a mutable variable"
      | Some cell =>
          current ← read_mut name cell;
          rhs ← eval value_;
          updated ← arithmetic (aug_binop op) current rhs;
          write cell updated;; mret None
      end
  | SDefine target value_ => exec_define target value_;; mret None
  | SIf branches else_body =>
      taken ← select_branch branches else_body;
      run_taken exec_block (mret None) None taken
  | SMatch scrutinee arms => chosen ← match_arm scrutinee arms; run_chosen exec_block None chosen
  | SInstance block =>
      let ty := node (ib_ty _ _ block) in
      if has_functions (functions (traits program)) ty then
        bind_instance (instance_prefix ty at_)
          (default [] (named (traits program) !! ty) ++ instance_names (ib_requires _ _ block)) (ib_defs _ _ block);;
        mret None
      else mret None
  | SImpl block => bind_impl (node (ib_ty _ _ block)) (ib_defs _ _ block);; mret None
  | SFunctionDef (Some owner) name _ ps _ _ body => bind_associated (node owner) (node name) ps body;; mret None
  | SFunctionDef None name _ ps _ requires body =>
      captured ← captured_scopes;
      let by_ref p := match p_annotation _ p with Some a => is_mut_annotation a | None => false end in
      bind (node name) (SlotFn (MkFunction (map (fun p => (p_name _ p, by_ref p)) ps) body (instance_names requires :: captured)));;
      mret None
  | SReturn (Some e) => v ← eval e; mret (Some v)
  | SReturn None => mret (Some VUnit)
  | SFor target iter body => exec_for target iter body
  | SExpr e =>
      match node e with
      | EFeed target value_ => feed target value_;; mret None
      | EYield inner => exec_yield inner;; mret None
      | _ => eval e;; mret None
      end
  | SWith binding context body => exec_with at_ binding context body;; mret None
  | SPass | STypeDecl _ | STraitDecl _ => mret None
  | _ => err "unsupported statement: {other}"
  end.

(** [Interp::exec]. *)
Definition exec_step (stmt : Spanned Stmt) : M (option Value) := fun s =>
  let '(ran, s) := exec_stmt stmt s in
  if (speculating s =? 0)%nat then (ran, s)
  else match ran with
  | Fail why => (lose why;; mret None) s
  | Done (Some _) =>
      if (speculating_at_call s <? speculating s)%nat then
        (lose "a `return` whose branch depends on a channel still being built";; mret None) s
      else (ran, s)
  | ran => (ran, s)
  end.

End Handlers.

(** ** The knot *)

Fixpoint eval_at (fuel : nat) (e : Spanned Expr) : M Value :=
  match fuel with
  | O => lift Exhausted
  | S fuel => eval_step (eval_at fuel) (exec_at fuel) (block_value_at fuel) e
  end
with exec_at (fuel : nat) (s : Spanned Stmt) : M (option Value) :=
  match fuel with
  | O => lift Exhausted
  | S fuel => exec_step (eval_at fuel) (exec_at fuel) (block_value_at fuel) s
  end
with block_value_at (fuel : nat) (body : list (Spanned Stmt)) (effects_denote_unit : bool) : M Value :=
  match fuel with
  | O => lift Exhausted
  | S fuel => block_value_step (eval_at fuel) (exec_at fuel) (block_value_at fuel) body effects_denote_unit
  end.

(** One pass over a module. *)
Definition pass (fuel : nat) (body : list (Spanned Stmt)) : Res (option Value) * Interp :=
  exec_block (exec_at fuel) body new_interp.
End Interpreter.

(** ** The loop of passes *)

(** The open channels, in key order. *)
Definition channels_in_order (s : Interp) : list (string * Channel) := sort_keys fst (map_to_list (channels s)).

Section Run.
Context (debug_str : string -> string).

(** What each sink observed, under the name its declaration binds. *)
Definition observations (s : Interp) : Res (gmap string Value) :=
  foldl (fun out '(key, channel) =>
    out ← out;
    if decide (key ∈ observed s) then v ← channel_value debug_str channel; Done (<[chan_name channel := v]> out) else Done out)
    (Done ∅) (channels_in_order s).

(** The channels this pass completed. *)
Definition completed (finals : gmap string Value) (s : Interp) : Res (list (string * Value)) :=
  foldl (fun out '(key, channel) =>
    out ← out;
    match finals !! key, complete debug_str channel with
    | None, Some v => v ← v; Done (out ++ [(key, v)])
    | _, _ => Done out
    end) (Done []) (channels_in_order s).

(** [run], from the finals of the passes so far. *)
Fixpoint run_passes (passes fuel : nat) (p : Program) (body : list (Spanned Stmt)) : Res (gmap string Value) :=
  match passes with
  | O => Exhausted
  | S passes =>
      match pass debug_str p fuel body with
      | (Done _, s) =>
          if decide (waited_on s = ∅) then observations s
          else match lost s with
          | Some why => Fail "{why}, in code that runs only if a channel still being built has particular contents"
          | None =>
              done ← completed (finals p) s;
              match done with
              | [] => Fail "no read of {waited} can be answered: the contents of each depend on a read of one of them, a cycle"
              | _ =>
                  run_passes passes fuel (MkProgram (feed_sites p) (list_to_map done ∪ finals p) (types p) (traits p)) body
              end
          end
      | (Fail e, _) => Fail e
      | (Panic, _) => Panic
      | (Exhausted, _) => Exhausted
      end
  end.

(** [run], of a parsed module. *)
Definition run (passes fuel : nat) (m : Module_) : Res (gmap string Value) :=
  let body := module_body m in
  feeds ← collect_feed_sites fuel body;
  run_passes passes fuel (MkProgram feeds ∅ (collect_types body) (collect_traits body)) body.
End Run.
