(* ===== verification/InterpFrames.v ===== *)
(** * What the reference interpreter may change ([chl-interp/src/eval.rs])

    [Frame s s'] is what running any part of a program does to the interpreter's state, however
    it ends: the stacks are as they were, the scopes around the innermost are untouched, and
    cells, contributions and replies are only added to.  While it speculates, every effect is
    pending.  One lemma per primitive and per bracket; the handlers follow by the [frames]
    tactic, over the frames of the recursive calls, and the knot by induction on fuel. *)

From stdpp Require Import list strings gmap.
From S2P Require Import Prelude Ordered Tokens Syntax InterpValues InterpText Interp.
Set Warnings "-register-all,-clear-no-such-hyp".
Local Open Scope nat_scope.

(** ** Steps of the parts of a state, [p] where they speculate *)

(** Only the innermost scope grows. *)
Definition scopes_step (l l' : list Scope) : Prop :=
  match l, l' with
  | [], [] => True
  | top :: rest, top' :: rest' => (exists new, top' = top ++ new) /\ rest' = rest
  | _, _ => False
  end.

(** A cell keeps what it is; where it speculates, its value stays or is pending. *)
Definition cell_step (p : bool) (c c' : MutCell) : Prop :=
  is_txn c' = is_txn c /\ born c' = born c /\
  (p = true -> writer_site c' = writer_site c /\ (value c' = value c \/ value c' = VPending)).

Definition cells_step (p : bool) (l l' : list MutCell) : Prop :=
  forall i c, l !! i = Some c -> exists c', l' !! i = Some c' /\ cell_step p c c'.

(** A list grows, by elements with [P] where it speculates. *)
Definition grows {A} (P : A -> Prop) (p : bool) (l l' : list A) : Prop :=
  exists new, l' = l ++ new /\ (p = true -> Forall P new).

(** A contribution, a yield and a reply that are pending. *)
Definition pending_feed (c : Site * Value * Value) : Prop := c.2 = VPending.
Definition pending_entry (e : Value * Value) : Prop := e.2 = VPending.

Definition channel_step (p : bool) (c c' : Channel) : Prop :=
  chan_name c' = chan_name c /\ calls_at c' = calls_at c /\ grows pending_feed p (fed c) (fed c') /\
  (forall x, x ∈ sites c -> x ∈ sites c') /\ (p = true -> defined c' = defined c \/ defined c' = Some VPending).

Definition channels_step (p : bool) (m m' : gmap string Channel) : Prop :=
  forall key c, m !! key = Some c -> exists c', m' !! key = Some c' /\ channel_step p c c'.

Definition txn_frame_step (p : bool) (f f' : TxnFrame) : Prop :=
  site f' = site f /\ writes f' = writes f /\
  (exists new, replies f' = replies f ++ new /\
    (p = true -> Forall (fun r => r.2 = VPending) new /\ (new = [] \/ uncertain f' = true))) /\
  (wrote f = true -> wrote f' = true) /\ (uncertain f = true -> uncertain f' = true) /\ (p = true -> wrote f' = wrote f).

Definition option_step {A} (R : A -> A -> Prop) (x y : option A) : Prop :=
  match x, y with None, None => True | Some a, Some b => R a b | _, _ => False end.

Definition watch_step (p : bool) (w w' : OrderWatch) : Prop :=
  cells_before w' = cells_before w /\ (moved w = true -> moved w' = true) /\ (p = true -> moved w' = moved w).

(** Whether a state speculates. *)
Definition speculates (s : Interp) : bool := 0 <? speculating s.

Record Frame (s s' : Interp) : Prop := {
  frame_scopes : scopes_step (scopes s) (scopes s');
  frame_calls : calls s' = calls s;
  frame_loop_keys : loop_keys s' = loop_keys s;
  frame_running : running_instances s' = running_instances s;
  frame_speculating : speculating s' = speculating s;
  frame_at_call : speculating_at_call s' = speculating_at_call s;
  frame_watches : Forall2 (watch_step (speculates s)) (order_watches s) (order_watches s');
  frame_txn : option_step (txn_frame_step (speculates s)) (txn s) (txn s');
  frame_yielded : option_step (grows pending_entry (speculates s)) (yielded s) (yielded s');
  frame_cells : cells_step (speculates s) (cells s) (cells s');
  frame_cells_made : cells_made s <= cells_made s';
  frame_channels : channels_step (speculates s) (channels s) (channels s');
  frame_observed : observed s ⊆ observed s';
  frame_waited : waited_on s ⊆ waited_on s';
  frame_clock : clock_known s' = true -> clock_known s = true;
  frame_time : (commit_time_count s <= commit_time_count s')%Z;
  frame_time_pending : speculates s = true -> commit_time_count s' = commit_time_count s;
  frame_lost : forall why, lost s = Some why -> lost s' = Some why
}.

(** *** Each is a preorder *)

Lemma scopes_step_refl l : scopes_step l l.
Proof. destruct l; simpl; [done|]. split; [|done]. exists []. by rewrite app_nil_r. Qed.

Lemma scopes_step_trans l1 l2 l3 : scopes_step l1 l2 -> scopes_step l2 l3 -> scopes_step l1 l3.
Proof.
  destruct l1, l2, l3; simpl; try done. intros [[n1 ->] ->] [[n2 ->] ->]. split; [|done].
  exists (n1 ++ n2). by rewrite app_assoc.
Qed.

Lemma cell_step_refl p c : cell_step p c c.
Proof. unfold cell_step. naive_solver. Qed.

Lemma cell_step_trans p c1 c2 c3 : cell_step p c1 c2 -> cell_step p c2 c3 -> cell_step p c1 c3.
Proof.
  intros (Ht1 & Hb1 & H1) (Ht2 & Hb2 & H2). split; [congruence|]. split; [congruence|]. intros Hp.
  destruct (H1 Hp) as [? [?|?]], (H2 Hp) as [? [?|?]]; (split; [congruence|]); [left|right..]; congruence.
Qed.

Lemma cells_step_refl p l : cells_step p l l.
Proof. intros i c Hc. exists c. split; [done|apply cell_step_refl]. Qed.

Lemma cells_step_trans p l1 l2 l3 : cells_step p l1 l2 -> cells_step p l2 l3 -> cells_step p l1 l3.
Proof.
  intros H1 H2 i c Hc. destruct (H1 i c Hc) as (c2 & Hc2 & Hs2). destruct (H2 i c2 Hc2) as (c3 & Hc3 & Hs3).
  exists c3. split; [done|]. by eapply cell_step_trans.
Qed.

Lemma gains_refl {A} (P : A -> Prop) p l : grows P p l l.
Proof. exists []. by rewrite app_nil_r. Qed.

Lemma gains_trans {A} (P : A -> Prop) p l1 l2 l3 : grows P p l1 l2 -> grows P p l2 l3 -> grows P p l1 l3.
Proof.
  intros (n1 & -> & H1) (n2 & -> & H2). exists (n1 ++ n2). split; [by rewrite app_assoc|].
  intros Hp. apply Forall_app; auto.
Qed.

Lemma channel_step_refl p c : channel_step p c c.
Proof. unfold channel_step. naive_solver eauto using gains_refl. Qed.

Lemma channel_step_trans p c1 c2 c3 : channel_step p c1 c2 -> channel_step p c2 c3 -> channel_step p c1 c3.
Proof.
  intros (Hn1 & Ha1 & Hf1 & Hs1 & Hd1) (Hn2 & Ha2 & Hf2 & Hs2 & Hd2).
  split; [congruence|]. split; [congruence|]. split; [by eapply gains_trans|]. split; [auto|].
  intros Hp. destruct (Hd1 Hp), (Hd2 Hp); [left|right..]; congruence.
Qed.

Lemma channels_step_refl p m : channels_step p m m.
Proof. intros key c Hc. exists c. split; [done|apply channel_step_refl]. Qed.

Lemma channels_step_trans p m1 m2 m3 : channels_step p m1 m2 -> channels_step p m2 m3 -> channels_step p m1 m3.
Proof.
  intros H1 H2 key c Hc. destruct (H1 key c Hc) as (c2 & Hc2 & Hs2). destruct (H2 key c2 Hc2) as (c3 & Hc3 & Hs3).
  exists c3. split; [done|]. by eapply channel_step_trans.
Qed.

Lemma txn_frame_step_refl p f : txn_frame_step p f f.
Proof. repeat split; try done. exists []. split; [by rewrite app_nil_r|]. intros _. split; [constructor|by left]. Qed.

Lemma txn_frame_step_trans p f1 f2 f3 : txn_frame_step p f1 f2 -> txn_frame_step p f2 f3 -> txn_frame_step p f1 f3.
Proof.
  intros (Hs1 & Hw1 & (n1 & Hr1 & Hp1) & Hwr1 & Hu1 & Hpw1) (Hs2 & Hw2 & (n2 & Hr2 & Hp2) & Hwr2 & Hu2 & Hpw2).
  repeat split; try congruence; auto.
  - exists (n1 ++ n2). split; [by rewrite Hr2, Hr1, app_assoc|]. intros Hp.
    destruct (Hp1 Hp) as [Hn1 H1], (Hp2 Hp) as [Hn2 H2]. split; [by apply Forall_app|].
    destruct H1 as [->|H1]; [|auto]. destruct H2 as [->|H2]; auto.
  - intros Hp. rewrite (Hpw2 Hp). auto.
Qed.

Lemma option_step_refl {A} (R : A -> A -> Prop) x : (forall a, R a a) -> option_step R x x.
Proof. destruct x; simpl; auto. Qed.

Lemma option_step_trans {A} (R : A -> A -> Prop) x y z :
  (forall a b c, R a b -> R b c -> R a c) -> option_step R x y -> option_step R y z -> option_step R x z.
Proof. destruct x, y, z; simpl; try done. eauto. Qed.

Lemma watch_step_refl p w : watch_step p w w.
Proof. done. Qed.

Lemma watch_step_trans p w1 w2 w3 : watch_step p w1 w2 -> watch_step p w2 w3 -> watch_step p w1 w3.
Proof. intros (?&?&H1) (?&?&H2). repeat split; [congruence|auto|]. intros Hp. rewrite (H2 Hp). auto. Qed.

Lemma Forall2_trans' {A} (R : A -> A -> Prop) l1 l2 l3 :
  (forall a b c, R a b -> R b c -> R a c) -> Forall2 R l1 l2 -> Forall2 R l2 l3 -> Forall2 R l1 l3.
Proof. intros HR H. revert l3. induction H; inversion 1; subst; constructor; eauto. Qed.

Lemma watches_refl p l : Forall2 (watch_step p) l l.
Proof. induction l; constructor; auto using watch_step_refl. Qed.

Create HintDb frames.
#[local] Hint Resolve scopes_step_refl cells_step_refl channels_step_refl txn_frame_step_refl watches_refl
  option_step_refl gains_refl : frames.

Lemma Frame_refl s : Frame s s.
Proof. split; auto with frames; done || apply option_step_refl; auto with frames. Qed.

Lemma Frame_trans s1 s2 s3 : Frame s1 s2 -> Frame s2 s3 -> Frame s1 s3.
Proof.
  intros F1 F2. assert (Hp : speculates s2 = speculates s1) by (unfold speculates; by rewrite (frame_speculating _ _ F1)).
  destruct F1, F2. rewrite Hp in *.
  split; try congruence; try (etrans; eassumption); eauto using scopes_step_trans, cells_step_trans, channels_step_trans.
  - eauto using Forall2_trans', watch_step_trans.
  - eapply option_step_trans; eauto using txn_frame_step_trans.
  - eapply option_step_trans; eauto using gains_trans.
  - intros Hs. etrans; [|by apply frame_time_pending0]. auto.
Qed.

(** A speculative step is a step. *)
Lemma channel_step_weaken p c c' : channel_step true c c' -> channel_step p c c'.
Proof.
  intros (?&?&(n & ? & ?)&?&?). repeat split; auto. by exists n; auto.
Qed.

Lemma txn_frame_step_weaken p f f' : txn_frame_step true f f' -> txn_frame_step p f f'.
Proof. intros (?&?&(n & ? & ?)&?&?&?). repeat split; auto. exists n; auto. Qed.

(** ** Primitives *)

(** A change of one part of the state, by the step of that part. *)
Ltac one_part := split; simpl; auto with frames; try done; try (by apply option_step_refl; auto with frames).

Lemma frame_scopes_of s l : scopes_step (scopes s) l -> Frame s (with_scopes l s).
Proof. intros H. one_part. Qed.

Lemma frame_channels_of s m : channels_step (speculates s) (channels s) m -> Frame s (with_channels m s).
Proof. intros H. one_part. Qed.

Lemma frame_cells_of s l n : cells_made s <= n -> cells_step (speculates s) (cells s) l -> Frame s (with_cells l (with_cells_made n s)).
Proof. intros Hn H. one_part. Qed.

Lemma frame_set_cell s i c c' : cells s !! i = Some c -> cell_step (speculates s) c c' -> Frame s (set_cell i c' s).
Proof.
  intros Hc Hs. unfold set_cell. one_part. intros j d Hd. destruct (decide (j = i)) as [->|Hj].
  - rewrite Hc in Hd. injection Hd as <-. exists c'. split; [|done]. apply list_lookup_insert_eq. by eapply lookup_lt_Some.
  - exists d. rewrite list_lookup_insert_ne by done. split; [done|apply cell_step_refl].
Qed.

Lemma frame_channel s key c c' :
  channels s !! key = Some c -> channel_step (speculates s) c c' -> Frame s (with_channels (<[key := c']> (channels s)) s).
Proof.
  intros Hc Hs. apply frame_channels_of. intros k d Hd. destruct (decide (k = key)) as [->|Hk].
  - rewrite Hc in Hd. injection Hd as <-. exists c'. by rewrite lookup_insert_eq.
  - exists d. rewrite lookup_insert_ne by done. split; [done|apply channel_step_refl].
Qed.

Lemma frame_open s key c : channels s !! key = None -> Frame s (with_channels (<[key := c]> (channels s)) s).
Proof.
  intros Hn. apply frame_channels_of. intros k d Hd. exists d. split; [|apply channel_step_refl].
  rewrite lookup_insert_ne; [done|]. by intros ->; rewrite Hn in Hd.
Qed.

Lemma frame_txn_of s f f' : txn s = Some f -> txn_frame_step (speculates s) f f' -> Frame s (with_txn (Some f') s).
Proof. intros Hf H. one_part. by rewrite Hf. Qed.

Lemma frame_watches_of s l : Forall2 (watch_step (speculates s)) (order_watches s) l -> Frame s (with_order_watches l s).
Proof. intros H. one_part. Qed.

Lemma frame_yielded_of s l l' :
  yielded s = Some l -> grows pending_entry (speculates s) l l' -> Frame s (with_yielded (Some l') s).
Proof. intros Hl H. one_part. by rewrite Hl. Qed.

Lemma frame_observed_of s o : observed s ⊆ o -> Frame s (with_observed o s).
Proof. intros H. one_part. Qed.

Lemma frame_waited_of s o : waited_on s ⊆ o -> Frame s (with_waited_on o s).
Proof. intros H. one_part. Qed.

Lemma frame_clock_false s : Frame s (with_clock_known false s).
Proof. one_part. Qed.

Lemma frame_tick s : speculates s = false -> Frame s (with_commit_time_count (commit_time_count s + 1)%Z s).
Proof. intros H. one_part; [lia|]. by rewrite H. Qed.

Lemma frame_lost_of s why : lost s = None -> Frame s (with_lost (Some why) s).
Proof. intros H. one_part. by rewrite H. Qed.

Lemma frame_instances s m : Frame s (with_instance_functions m s).
Proof. one_part. Qed.

(** ** Brackets: a stack pushed before and popped after *)

Ltac bracket := intros F; destruct F; simpl in *; one_part.

Lemma frame_scoped s s1 : Frame (with_scopes ([] :: scopes s) s) s1 -> Frame s (with_scopes (tail (scopes s1)) s1).
Proof. bracket. destruct (scopes s1) as [|top rest]; simpl in *; [done|]. destruct frame_scopes0 as [_ ->]. auto with frames. Qed.

Lemma frame_call s l s1 : Frame (with_scopes l s) s1 -> Frame s (with_scopes (scopes s) s1).
Proof. bracket. Qed.

Lemma frame_at_place s x s1 : Frame (with_calls (x :: calls s) s) s1 -> Frame s (with_calls (tail (calls s1)) s1).
Proof. bracket. by rewrite frame_calls0. Qed.

Lemma frame_under_key s k s1 : Frame (with_loop_keys (k :: loop_keys s) s) s1 -> Frame s (with_loop_keys (tail (loop_keys s1)) s1).
Proof. bracket. by rewrite frame_loop_keys0. Qed.

Lemma frame_running_in s x s1 :
  Frame (with_running_instances (x :: running_instances s) s) s1 ->
  Frame s (with_running_instances (tail (running_instances s1)) s1).
Proof. bracket. by rewrite frame_running0. Qed.

Lemma frame_inside s s1 :
  Frame (with_speculating_at_call (speculating s) s) s1 -> Frame s (with_speculating_at_call (speculating_at_call s) s1).
Proof. bracket. Qed.

Lemma frame_generator s l keys s1 :
  Frame (with_loop_keys keys (with_yielded (Some l) s)) s1 ->
  Frame s (with_loop_keys (loop_keys s) (with_yielded (yielded s) s1)).
Proof. bracket. Qed.

Lemma frame_watch s w s1 :
  Frame (with_order_watches (w :: order_watches s) s) s1 ->
  exists w' watches, order_watches s1 = w' :: watches /\ Frame s (with_order_watches watches s1).
Proof.
  intros F. pose proof (frame_watches _ _ F) as H. simpl in H. inversion H as [|? w' ? watches ? Hw]; subst.
  exists w', watches. split; [done|]. revert F. bracket.
Qed.

Lemma frame_speculate s s1 :
  Frame (with_speculating (S (speculating s)) s) s1 -> Frame s (with_speculating (pred (speculating s1)) s1).
Proof.
  intros F. destruct F; simpl in *. unfold speculates in *; simpl in *. split; simpl; auto.
  - by rewrite frame_speculating0.
  - eapply Forall2_impl; [exact frame_watches0|]. intros w w' (?&?&?). repeat split; auto.
  - destruct (txn s), (txn s1); simpl in *; try done. by apply txn_frame_step_weaken.
  - destruct (yielded s), (yielded s1); simpl in *; try done. destruct frame_yielded0 as (n & ? & ?). exists n; auto.
  - intros i c Hc. destruct (frame_cells0 i c Hc) as (c' & ? & ? & ? & ?). exists c'. repeat split; auto; naive_solver.
  - intros key c Hc. destruct (frame_channels0 key c Hc) as (c' & ? & ?). exists c'. split; [done|]. by apply channel_step_weaken.
Qed.

(** ** Computations *)

Definition framed_at {A} (s : Interp) (m : M A) : Prop := Frame s (m s).2.
Definition framed {A} (m : M A) : Prop := forall s, framed_at s m.

Section Rules.
Context {A B : Type}.

Lemma framed_at_ret s (a : A) : framed_at s (mret a).
Proof. apply Frame_refl. Qed.

Lemma framed_at_lift s (r : Res A) : framed_at s (lift r).
Proof. apply Frame_refl. Qed.

Lemma framed_at_get s (k : Interp -> M A) : framed_at s (k s) -> framed_at s (get ≫= k).
Proof. done. Qed.

Lemma framed_at_lift_bind s (r : Res A) (k : A -> M B) :
  (forall a, r = Done a -> framed_at s (k a)) -> framed_at s (lift r ≫= k).
Proof. unfold framed_at, mbind, M_bind, lift. destruct r; intros H; try apply Frame_refl. by apply H. Qed.

Lemma framed_at_modify_bind s f (k : unit -> M A) : Frame s (f s) -> framed_at (f s) (k ()) -> framed_at s (modify f ≫= k).
Proof. intros H1 H2. eapply Frame_trans; [exact H1|exact H2]. Qed.

Lemma framed_at_bind s (m : M A) (k : A -> M B) :
  framed_at s m -> (forall a s', m s = (Done a, s') -> framed_at s' (k a)) -> framed_at s (m ≫= k).
Proof.
  unfold framed_at, mbind, M_bind. intros Hm Hk. destruct (m s) as [r s'] eqn:E. simpl in Hm.
  destruct r; try done. eapply Frame_trans; [exact Hm|]. by apply Hk.
Qed.

Lemma framed_bind (m : M A) (k : A -> M B) : framed m -> (forall a, framed (k a)) -> framed (m ≫= k).
Proof. intros Hm Hk s. apply framed_at_bind; [apply Hm|]. intros a s' _. apply Hk. Qed.
End Rules.

(** What a computation leaves the state speculating. *)
Lemma framed_speculates {A} s (m : M A) r s' : framed_at s m -> m s = (r, s') -> speculates s' = speculates s.
Proof. unfold framed_at, speculates. intros F E. rewrite E in F. by rewrite (frame_speculating s s' F). Qed.

Lemma framed_at_modify s f : Frame s (f s) -> framed_at s (modify f).
Proof. done. Qed.

Lemma framed_finally {A} (m : M A) (enter leave : Interp -> Interp) :
  framed m -> (forall s s1, Frame (enter s) s1 -> Frame s (leave s1)) -> framed (modify enter;; finally m leave).
Proof.
  intros Hm Hl s. unfold framed_at, finally, mbind, M_bind, modify. specialize (Hm (enter s)). unfold framed_at in Hm.
  destruct (m (enter s)) as [r s1]. by apply Hl.
Qed.

Lemma framed_scoped {A} (m : M A) : framed m -> framed (scoped m).
Proof. intros Hm. apply framed_finally; [done|apply frame_scoped]. Qed.

Lemma framed_at_place {A} at_ key c (m : M A) : framed m -> framed (at_place at_ key c m).
Proof. intros Hm. apply framed_finally; [done|]. intros s s1. apply frame_at_place. Qed.

Lemma framed_speculate {A} (m : M A) : framed m -> framed (speculate m).
Proof. intros Hm. apply framed_finally; [done|apply frame_speculate]. Qed.

Lemma framed_under_key {A} key (m : M A) : framed m -> framed (under_key key m).
Proof. intros Hm. apply framed_finally; [done|]. intros s s1. apply frame_under_key. Qed.

Lemma framed_name name sl : framed (bind name sl).
Proof.
  intros s. unfold framed_at, bind. destruct (scopes s) as [|top rest] eqn:E; [apply Frame_refl|].
  apply frame_scopes_of. rewrite E. split; [by eexists|done].
Qed.

Lemma framed_names bound : framed (bind_all bound).
Proof. induction bound as [|[n v] bound IH]; simpl; [intros s; apply framed_at_ret|]. apply framed_bind; auto using framed_name. Qed.

Lemma framed_lose why : framed (lose why).
Proof. intros s. apply framed_at_modify. destruct (lost s) eqn:E; [apply Frame_refl|by apply frame_lost_of]. Qed.

Lemma framed_map {A B} (f : A -> M B) l : (forall a, framed (f a)) -> framed (mapM f l).
Proof.
  intros Hf. induction l as [|a l IH]; simpl; [intros s; apply framed_at_ret|].
  apply framed_bind; [done|]. intros b. apply framed_bind; [done|]. intros bs s. apply framed_at_ret.
Qed.

Lemma framed_each f es : (forall k v, framed (f k v)) -> framed (each_entry f es).
Proof.
  intros Hf. induction es as [|[k v] es IH]; simpl; [intros s; apply framed_at_ret|].
  apply framed_bind; [done|]. intros b. apply framed_bind; [done|]. intros bs s. apply framed_at_ret.
Qed.

(** *** Cells and channels *)

Lemma framed_new_cell name v t : framed (new_cell name v t).
Proof.
  intros s. apply framed_at_get, framed_at_modify_bind; [|apply framed_name]. apply frame_cells_of; [lia|].
  intros i c Hc. exists c. split; [by apply lookup_app_l_Some|apply cell_step_refl].
Qed.

Lemma expect_done {A} (o : option A) a : expect o = Done a -> o = Some a.
Proof. destruct o; simpl; congruence. Qed.

(** A change of the block in progress. *)
Lemma framed_txn g s : (forall f, txn s = Some f -> txn_frame_step (speculates s) f (g f)) ->
  Frame s (match txn s with Some f => with_txn (Some (g f)) s | None => s end).
Proof. intros H. destruct (txn s) as [f|] eqn:E; [|apply Frame_refl]. by apply (frame_txn_of s f), H. Qed.

(** The rest of [write], once the writer is known. *)
Lemma framed_store s cell c v t w :
  cells s !! cell = Some c -> is_txn c = t -> speculates s = false ->
  framed_at s (modify (set_cell cell (MkMutCell v t (born c) w));;
    modify (fun s => with_order_watches
      (map (fun w => if born c <=? cells_before w then MkOrderWatch (cells_before w) true else w) (order_watches s)) s);;
    modify (fun s => match txn s with
      | Some f => with_txn (Some (MkTxnFrame (site f) true (writes f) (replies f) (uncertain f))) s
      | None => s
      end)).
Proof.
  intros Hc <- Hp. apply framed_at_modify_bind; [apply (frame_set_cell s cell c); [done|by rewrite Hp]|].
  apply framed_at_modify_bind.
  - apply frame_watches_of. unfold speculates in *. simpl. rewrite Hp. clear. induction (order_watches s); constructor; [|done].
    by case_match.
  - apply framed_at_modify. apply (framed_txn (fun f => MkTxnFrame (site f) true (writes f) (replies f) (uncertain f))).
    intros f _. unfold speculates in *. simpl in *. rewrite Hp. repeat split; try done. exists []. by rewrite app_nil_r.
Qed.

Lemma framed_write cell v : framed (write cell v).
Proof.
  intros s. apply framed_at_get, framed_at_lift_bind. intros c Hc%expect_done.
  destruct (0 <? speculating s) eqn:Hp.
  - apply framed_at_modify_bind; [apply (frame_set_cell s cell c); [done|]; repeat split; by right|].
    apply framed_at_modify. apply (framed_txn (fun f => MkTxnFrame (site f) (wrote f) (writes f) (replies f) true)).
    intros f _. repeat split; try done. exists []. rewrite app_nil_r. split; [done|]. intros _. split; [constructor|by left].
  - destruct (is_txn c) eqn:Ht, (txn s) as [f|] eqn:Hf; try by apply (framed_store s cell c).
    destruct (writer_site c) as [w|]; [destruct (w =? site f)|]; try by apply (framed_store s cell c).
    apply Frame_refl.
Qed.

Lemma framed_contribute key c :
  forall s, (speculates s = true -> pending_feed c) -> framed_at s (contribute key c).
Proof.
  intros s Hc. apply framed_at_get, framed_at_lift_bind. intros ch Hch%expect_done. apply framed_at_modify.
  apply (frame_channel s key ch); [done|]. repeat split; simpl; try done; [|by left].
  exists [c]. split; [done|]. intros Hp. by repeat constructor; auto.
Qed.

Lemma framed_contribute_all l :
  forall s, (speculates s = true -> Forall (fun x => pending_feed x.2) l) -> framed_at s (contribute_all l).
Proof.
  induction l as [|[key c] l IH]; intros s Hl; simpl; [apply framed_at_ret|].
  assert (Hc : forall s, (speculates s = true -> Forall (fun x => pending_feed x.2) ((key, c) :: l)) -> framed_at s (contribute key c)).
  { intros s1 H. apply framed_contribute. intros Hp. specialize (H Hp). by inversion H. }
  apply framed_at_bind; [by apply Hc|].
  intros a s' E. apply IH. intros Hp. rewrite (framed_speculates _ _ _ _ (Hc s Hl) E) in Hp. specialize (Hl Hp). by inversion Hl.
Qed.

Lemma framed_feed_site key at_ : framed (feed_site key at_).
Proof.
  intros s. apply framed_at_get, framed_at_lift_bind. intros ch Hch%expect_done.
  cbv beta zeta. case_match; [apply framed_at_lift|]. case_match; [apply framed_at_ret|].
  apply framed_at_modify_bind; [|apply framed_at_ret].
  apply (frame_channel s key ch); [done|]. repeat split; simpl; try done; [apply gains_refl| |by left].
  intros x Hx. rewrite sort_keys_perm. set_solver.
Qed.

(** *** The [frames] tactic *)

(** Goals [framed m] and [framed_at s m]: the monad's structure, the cases, and the lemmas of the
    hint database [framed]. *)
Create HintDb framed.
#[local] Hint Resolve framed_name framed_names framed_lose framed_new_cell framed_write framed_feed_site : framed.

Ltac frames_step :=
  cbv beta zeta;
  match goal with
  | |- framed_at _ (mret _) => apply framed_at_ret
  | |- framed_at _ (lift _) => apply framed_at_lift
  | |- framed_at _ (err _) => apply framed_at_lift
  | |- framed_at _ (get ≫= _) => apply framed_at_get
  | |- framed_at _ (lift _ ≫= _) => apply framed_at_lift_bind; intros ? ?
  | |- framed_at _ (modify _ ≫= (fun _ => finally _ _)) => apply framed_finally
  | |- framed_at _ (_ ≫= _) => apply framed_at_bind; [|intros ? ? _]
  | |- framed_at _ (match ?x with _ => _ end) => destruct x
  | |- framed_at _ (scoped _) => apply framed_scoped
  | |- framed_at _ (at_place _ _ _ _) => apply framed_at_place
  | |- framed_at _ (at_position _ _ _) => apply framed_at_place
  | |- framed_at _ (at_call _ _) => apply framed_at_get, framed_at_place
  | |- framed_at _ (speculate _) => apply framed_speculate
  | |- framed_at _ (under_key _ _) => apply framed_under_key
  | |- framed_at _ (mapM _ _) => apply framed_map; intros ?
  | |- framed_at _ (each_entry _ _) => apply framed_each; intros ? ?
  | H : context [framed _] |- framed_at ?s _ => solve [apply H]
  | |- framed_at ?s ?m => apply (fun H : framed m => H s); solve [auto with framed]
  | |- framed ?m => solve [auto with framed]
  | |- framed _ => intros ?
  end.
Ltac frames := repeat frames_step.

Lemma framed_captured : framed captured_scopes.
Proof. intros s. apply framed_at_get. frames. Qed.

Lemma framed_read name cell : framed (read_mut name cell).
Proof. unfold read_mut. frames. Qed.
#[local] Hint Resolve framed_captured framed_read : framed.

Section Handlers.
Context (debug_str : string -> string) (program : Program).

Lemma framed_declare name at_ o : framed (declare_channel debug_str program name at_ o).
Proof.
  intros s. apply framed_at_get. cbv beta zeta. destruct (channels s !! _) eqn:E; [apply framed_at_lift|].
  apply framed_at_modify_bind; [by apply frame_open|]. frames. apply framed_at_modify, frame_observed_of. set_solver.
Qed.

Context (eval : Spanned Expr -> M Value) (exec : Spanned Stmt -> M (option Value))
  (block_value : list (Spanned Stmt) -> bool -> M Value)
  (Heval : forall e, framed (eval e)) (Hexec : forall s, framed (exec s)) (Hblock : forall b u, framed (block_value b u)).

Lemma framed_eval_each es : framed (eval_each eval es).
Proof. induction es; simpl; frames. Qed.

Lemma framed_exec_block stmts : framed (exec_block exec stmts).
Proof. induction stmts; simpl; frames. Qed.

Lemma framed_bind_pattern target v : framed (bind_pattern target v).
Proof. unfold bind_pattern. frames. Qed.
#[local] Hint Resolve framed_declare framed_eval_each framed_exec_block framed_bind_pattern : framed.

Lemma framed_generator body : framed (run_generator debug_str exec body).
Proof.
  intros s. unfold framed_at, run_generator.
  pose proof (framed_exec_block body (with_loop_keys [] (with_yielded (Some []) s))) as F. unfold framed_at in F.
  destruct (exec_block exec body _) as [ran s1]. apply frame_generator in F.
  destruct (yielded s1); [destruct ran|]; exact F.
Qed.

Lemma framed_run_call f ps : framed (run_call debug_str exec block_value f ps).
Proof.
  intros s. unfold framed_at, run_call.
  assert (F : forall m : M Value, framed m ->
    Frame s (let '(r, s1) := m (with_speculating_at_call (speculating s) (with_scopes (ps :: env f) s)) in
      (r, with_speculating_at_call (speculating_at_call s) (with_scopes (scopes s) s1))).2).
  { intros m Hm. specialize (Hm (with_speculating_at_call (speculating s) (with_scopes (ps :: env f) s))). unfold framed_at in Hm.
    destruct (m _) as [r s1]. simpl in *. apply frame_inside.
    exact (frame_call (with_speculating_at_call (speculating s) s) (ps :: env f) s1 Hm). }
  destruct (contains_yield (fn_body f)); apply F; [apply framed_generator|done].
Qed.
#[local] Hint Resolve framed_run_call : framed.

Lemma framed_call_with_values f vs : framed (call_with_values debug_str exec block_value f vs).
Proof. unfold call_with_values. frames. Qed.
#[local] Hint Resolve framed_call_with_values : framed.

Lemma framed_dispatch t f vs : framed (dispatch debug_str program exec block_value t f vs).
Proof.
  unfold dispatch. frames. intros s1 s2. apply frame_running_in.
Qed.
#[local] Hint Resolve framed_dispatch : framed.

Lemma framed_arithmetic op l r : framed (arithmetic debug_str program exec block_value op l r).
Proof. unfold arithmetic. frames. Qed.

Lemma framed_loop_source e : framed (eval_loop_source debug_str program eval exec block_value e).
Proof. unfold eval_loop_source. frames. Qed.

Lemma framed_instance_function e : framed (instance_function program e).
Proof. unfold instance_function. frames. Qed.
#[local] Hint Resolve framed_arithmetic framed_loop_source framed_instance_function : framed.

Lemma framed_binding_of e : framed (binding_of program eval e).
Proof. unfold binding_of. frames. Qed.

Lemma framed_apply f v : framed (apply eval f v).
Proof. unfold apply. frames. Qed.
#[local] Hint Resolve framed_binding_of framed_apply : framed.

Lemma framed_comprehend cs : forall e keys, framed (comprehend debug_str program eval exec block_value cs e keys).
Proof.
  induction cs as [|[target iter|guard] cs IH]; intros e keys; simpl; frames.
Qed.
#[local] Hint Resolve framed_comprehend : framed.

(** *** Statements and expressions *)

Lemma framed_feed_value channel at_ v : framed (feed_value channel at_ v).
Proof.
  intros s1. apply framed_at_get. cbv zeta. apply framed_at_bind; [apply framed_feed_site|]. intros st s2 E2.
  pose proof (framed_speculates _ _ _ _ (framed_feed_site channel at_ s1) E2) as Hp.
  apply framed_at_get. cbv beta zeta. fold (speculates s1). destruct (txn s2) as [f|] eqn:Ef.
  - apply framed_at_modify, (frame_txn_of s2 f); [done|]. rewrite Hp. unfold add_reply.
    repeat split; simpl; try done; [|by intros ->].
    eexists. split; [done|]. intros ->. split; [by repeat constructor|]. right. apply orb_true_r.
  - apply framed_contribute. rewrite Hp. by intros ->.
Qed.
#[local] Hint Resolve framed_feed_value : framed.

Lemma framed_feed target v : framed (feed eval target v).
Proof. unfold feed. frames. Qed.

Lemma framed_select bs eb : framed (select_branch eval bs eb).
Proof. induction bs; simpl; frames. Qed.

Lemma framed_match_arm e arms : framed (match_arm eval e arms).
Proof. unfold match_arm. frames. Qed.
#[local] Hint Resolve framed_feed framed_select framed_match_arm : framed.

Lemma framed_undecided {A} (run : list (Spanned Stmt) -> M A) l : (forall b, framed (run b)) -> framed (run_undecided run l).
Proof. intros Hrun. induction l as [|[bound body] l IH]; simpl; frames. Qed.

Lemma framed_taken {A} (run : list (Spanned Stmt) -> M A) nothing u t :
  (forall b, framed (run b)) -> framed nothing -> framed (run_taken run nothing u t).
Proof. intros Hrun Hn. destruct t; simpl; frames. apply framed_undecided, Hrun. Qed.

Lemma framed_chosen {A} (run : list (Spanned Stmt) -> M A) u c : (forall b, framed (run b)) -> framed (run_chosen run u c).
Proof. intros Hrun. destruct c; simpl; frames. apply framed_undecided, Hrun. Qed.

Lemma framed_branch_value s u : framed (branch_value eval block_value s u).
Proof.
  unfold branch_value. frames; [apply framed_taken|apply framed_chosen]; try done. intros s2. frames.
Qed.
#[local] Hint Resolve framed_branch_value : framed.

Lemma framed_block_value body u : framed (block_value_step eval exec block_value body u).
Proof. unfold block_value_step. frames. Qed.

Lemma framed_bind_args ps : forall args, framed (bind_args program eval ps args).
Proof. induction ps as [|[p r] ps IH]; intros [|a args]; simpl; frames. Qed.
#[local] Hint Resolve framed_bind_args : framed.

Lemma framed_call_user f args : framed (call_user debug_str program eval exec block_value f args).
Proof. unfold call_user. frames. Qed.
#[local] Hint Resolve framed_call_user : framed.

Lemma framed_call_method r m args : framed (call_method debug_str program eval exec block_value r m args).
Proof. unfold call_method. frames. Qed.

Lemma framed_construct q args : framed (construct debug_str program eval exec block_value q args).
Proof. unfold construct. frames. Qed.

Lemma framed_associated ty n ps b : framed (bind_associated ty n ps b).
Proof. unfold bind_associated. frames. Qed.

Lemma framed_group f es : forall groups, framed (group_entries debug_str eval f es groups).
Proof. induction es as [|[k v] es IH]; intros groups; simpl; frames. Qed.
#[local] Hint Resolve framed_call_method framed_construct framed_associated framed_group : framed.

Lemma framed_builtin b args : framed (call_builtin debug_str program eval b args).
Proof. unfold call_builtin, eval_collection. frames. Qed.
#[local] Hint Resolve framed_builtin : framed.

Lemma framed_call_expr f args : framed (call debug_str program eval exec block_value f args).
Proof. unfold call. frames. Qed.

Lemma framed_compare ops : forall v es, framed (compare_chain debug_str program eval v ops es).
Proof. induction ops; intros v [|e es]; simpl; frames. Qed.

Lemma framed_bool_chain op es : forall b, framed (bool_chain eval op b es).
Proof. induction es; intros b; simpl; frames. Qed.
#[local] Hint Resolve framed_call_expr framed_compare framed_bool_chain : framed.

Lemma framed_wait key : framed (wait_on key).
Proof. intros s. apply framed_at_modify_bind; [|apply framed_at_ret]. apply frame_waited_of. set_solver. Qed.
#[local] Hint Resolve framed_wait : framed.

Lemma framed_eval_expr e : framed (eval_expr debug_str program eval exec block_value e).
Proof. unfold eval_expr. frames. Qed.

Lemma framed_mut_assign target a v : framed (exec_mut_assign debug_str eval target a v).
Proof. unfold exec_mut_assign. frames. Qed.

Lemma framed_define_as name v : framed (define_as name v).
Proof.
  intros s1. apply framed_at_get. cbv beta zeta. destruct (channel_of s1 name) as [key|]; [|apply framed_name].
  apply framed_at_lift_bind. intros ch Hch%expect_done. fold (speculates s1).
  assert (Hset : forall d, (speculates s1 = true -> d = VPending) ->
    framed_at s1 (modify (fun s => with_channels (<[key := MkChannel (chan_name ch) (fed ch) (Some d) (sites ch) (calls_at ch)]> (channels s)) s))).
  { intros d Hd. apply framed_at_modify, (frame_channel s1 key ch); [done|]. repeat split; simpl; try done; [apply gains_refl|].
    intros Hp. right. by rewrite Hd. }
  destruct (speculates s1) eqn:Hp; simpl; [by apply Hset|].
  destruct (defined ch) as [d|]; [destruct d|destruct (sites ch)]; try apply framed_at_lift; by apply Hset.
Qed.
#[local] Hint Resolve framed_define_as : framed.

Lemma framed_define target v : framed (exec_define eval target v).
Proof. unfold exec_define. frames. Qed.

Lemma framed_iterate target body es : framed (iterate exec target body es).
Proof. induction es as [|[k v] es IH]; simpl; frames. Qed.

Lemma framed_watched target body es : framed (iterate_watched exec target body es).
Proof.
  intros s. unfold framed_at, iterate_watched.
  pose proof (framed_iterate target body es (with_order_watches (MkOrderWatch (cells_made s) false :: order_watches s) s)) as F.
  unfold framed_at in F. destruct (iterate _ _ _ _ _) as [ran s1]. simpl in F.
  destruct (frame_watch _ _ _ F) as (w & ws & E & F'). rewrite E. destruct ran; simpl; try done. by case_match.
Qed.
#[local] Hint Resolve framed_mut_assign framed_define framed_iterate framed_watched : framed.

Lemma framed_for target iter body : framed (exec_for debug_str program eval exec block_value target iter body).
Proof. unfold exec_for. frames. Qed.

Lemma framed_push_yield key v : framed (push_yield key v).
Proof.
  intros s1. apply framed_at_get, framed_at_lift_bind. intros held Hh%expect_done.
  apply framed_at_modify, (frame_yielded_of s1 held); [done|]. eexists. split; [done|]. unfold speculates. intros ->.
  by repeat constructor.
Qed.
#[local] Hint Resolve framed_push_yield : framed.

Lemma framed_yield e : framed (exec_yield eval e).
Proof. unfold exec_yield. frames. Qed.

(** A speculative block commits nothing. *)
Lemma framed_commit f s :
  (speculates s = true -> uncertain f = true \/ wrote f = false /\ replies f = []) -> framed_at s (commit f).
Proof.
  intros Hf. unfold commit. destruct (uncertain f) eqn:Eu.
  - apply framed_at_modify_bind; [apply frame_clock_false|]. apply framed_contribute_all. intros _.
    apply Forall_map, Forall_true. by intros [[? ?] ?].
  - destruct (negb (wrote f) && bool_decide (length (replies f) = 0)) eqn:Ew; [apply framed_at_ret|].
    assert (Hp : speculates s = false).
    { destruct (speculates s); [|done]. destruct (Hf eq_refl) as [?|[Hw Hr]]; [done|]. by rewrite Hw, Hr in Ew. }
    apply framed_at_modify_bind; [by apply frame_tick|].
    apply framed_at_modify_bind.
    + apply frame_watches_of. unfold speculates in *. simpl. rewrite Hp. clear. induction (order_watches s); by constructor.
    + apply framed_at_get, framed_contribute_all. unfold speculates in *. simpl. by rewrite Hp.
Qed.

Lemma framed_with at_ b c body : framed (exec_with exec at_ b c body).
Proof.
  unfold exec_with. destruct b; [frames|]. destruct (negb _); [frames|]. intros s. apply framed_at_get. cbv beta.
  destruct (txn s) eqn:Et; [apply framed_at_lift|].
  unfold framed_at, mbind, M_bind, modify, in_block. set (s0 := with_txn _ s).
  assert (F : framed (scoped (exec_block exec body))) by (apply framed_scoped, framed_exec_block).
  specialize (F s0). unfold framed_at in F. destruct (scoped (exec_block exec body) s0) as [o s1]. simpl in F.
  pose proof (frame_txn _ _ F) as Hf. destruct (txn s1) as [f|] eqn:E1; [|done]. simpl in Hf.
  destruct Hf as (_ & _ & (new & Hr & Hnew) & _ & _ & Hw). simpl in *.
  assert (F1 : Frame s (with_txn None s1)).
  { revert F. bracket. by rewrite Et. }
  destruct o; simpl; try done. eapply Frame_trans; [exact F1|]. apply framed_commit.
  unfold speculates. simpl. rewrite (frame_speculating _ _ F). intros Hp. rewrite Hr. simpl.
  destruct (Hnew Hp) as [_ [->|Hu]]; [right|by left]. split; [by apply Hw|done].
Qed.

Lemma framed_instance prefix ns defs : framed (bind_instance prefix ns defs).
Proof. induction defs; simpl; frames. apply framed_at_modify, frame_instances. Qed.

Lemma framed_impl ty defs : framed (bind_impl ty defs).
Proof. induction defs; simpl; frames. Qed.
#[local] Hint Resolve framed_for framed_yield framed_with framed_instance framed_impl : framed.

Lemma framed_exec_stmt s : framed (exec_stmt debug_str program eval exec block_value s).
Proof.
  unfold exec_stmt. frames; [apply framed_taken|apply framed_chosen]; auto with framed.
Qed.

Lemma framed_eval_step e : framed (eval_step debug_str program eval exec block_value e).
Proof.
  intros s. unfold framed_at, eval_step. pose proof (framed_eval_expr e s) as F. unfold framed_at in F.
  destruct (eval_expr _ _ _ _ _ e s) as [r s1]. destruct r; try exact F. case_match; [|exact F].
  eapply Frame_trans; [exact F|]. apply framed_at_bind; [apply framed_lose|]. intros. apply framed_at_ret.
Qed.

Lemma framed_exec_step st : framed (exec_step debug_str program eval exec block_value st).
Proof.
  intros s. unfold framed_at, exec_step. pose proof (framed_exec_stmt st s) as F. unfold framed_at in F.
  destruct (exec_stmt _ _ _ _ _ st s) as [r s1]. simpl in F.
  assert (H : forall why, Frame s ((lose why;; mret None : M (option Value)) s1).2).
  { intros why. eapply Frame_trans; [exact F|]. apply framed_at_bind; [apply framed_lose|]. intros. apply framed_at_ret. }
  case_match; [done|]. destruct r as [[v|]| | |]; [case_match; [apply H|done]|done|apply H|done|done].
Qed.
End Handlers.

(** ** The knot *)

(** Whatever a program runs, its state moves by a frame. *)
Lemma knot_framed debug_str program fuel :
  (forall e, framed (eval_at debug_str program fuel e)) /\ (forall s, framed (exec_at debug_str program fuel s)) /\
  (forall b u, framed (block_value_at debug_str program fuel b u)).
Proof.
  induction fuel as [|fuel (He & Hs & Hb)]; [by split_and!; intros * s; apply framed_at_lift|].
  split; [|split]; intros; simpl.
  - by apply framed_eval_step.
  - by apply framed_exec_step.
  - by apply framed_block_value.
Qed.

#[export] Hint Resolve framed_name framed_names framed_lose framed_new_cell framed_write framed_feed_site
  framed_captured framed_read framed_declare framed_eval_each framed_exec_block framed_bind_pattern framed_run_call
  framed_call_with_values framed_dispatch framed_arithmetic framed_loop_source framed_instance_function
  framed_binding_of framed_apply framed_comprehend framed_feed framed_select framed_match_arm framed_branch_value
  framed_bind_args framed_call_user framed_call_method framed_construct framed_associated framed_group framed_builtin
  framed_call_expr framed_compare framed_bool_chain framed_mut_assign framed_define framed_iterate framed_watched
  framed_for framed_yield framed_with framed_instance framed_impl framed_block_value framed_eval_expr framed_exec_stmt
  framed_generator framed_undecided framed_taken framed_chosen
  framed_feed_value framed_define_as framed_push_yield framed_wait : framed.
