(* ===== verification/InterpSettled.v ===== *)
(** * Pending values absorb ([chl-interp/src/eval.rs], [value.rs])

    A value is [settled] when nothing in it is pending.  [Settled] says of a state that every
    value it holds is settled or is [VPending] itself, and the latter only in a pass that reads
    a channel before it is complete ([w]).  Every part of the interpreter keeps it: one lemma
    per method, by the [settles] tactic over the frames of [InterpFrames]. *)

From stdpp Require Import list strings gmap.
From S2P Require Import Prelude Ordered Tokens Syntax InterpValues InterpText Interp InterpFrames.
Set Warnings "-register-all,-clear-no-such-hyp".
Local Open Scope nat_scope.

(** Nothing in the value is pending. *)
Fixpoint settled (v : Value) : bool :=
  match v with
  | VPending => false
  | VRecord fields => forallb (fun '(_, v) => settled v) fields
  | VVariant _ payload | VNominal _ _ payload => settled payload
  | VCollection entries => forallb (fun '(k, v) => settled k && settled v) entries
  | _ => true
  end.

(** A predicate on every element, by recursion, so that it nests. *)
Definition every {A} (P : A -> Prop) (l : list A) : Prop := foldr (fun x acc => P x /\ acc) True l.

Lemma every_Forall {A} (P : A -> Prop) l : every P l <-> Forall P l.
Proof. induction l; simpl; rewrite ?Forall_cons; [by split; constructor|]. by rewrite IHl. Qed.

(** [Forall] of a list written out. *)
Ltac each := repeat (apply Forall_cons_2; [solve [auto]|]); apply Forall_nil_2.

Section Settled.
Context (w : bool).

(** Settled, or pending in a pass that waits. *)
Definition value_ok (v : Value) : Prop := settled v = true \/ v = VPending /\ w = true.
Definition entry_ok (e : Value * Value) : Prop := value_ok e.1 /\ value_ok e.2.
Definition bind_ok (b : string * Value) : Prop := value_ok b.2.

(** ** Values *)

Lemma pending_waits : value_ok VPending -> w = true.
Proof. by intros [?|[_ ?]]. Qed.

Lemma pending_ok : w = true -> value_ok VPending.
Proof. by right. Qed.

Lemma settled_ok v : settled v = true -> value_ok v.
Proof. by left. Qed.

Lemma any_pending_waits vs : Forall value_ok vs -> any_pending vs = true -> value_ok VPending.
Proof.
  intros H Hp. apply existsb_exists in Hp as (v & Hv & Hs). destruct v; try done.
  apply list_elem_of_In in Hv. by apply (proj1 (Forall_forall _ _) H) in Hv.
Qed.

Lemma none_pending vs : Forall value_ok vs -> any_pending vs = false -> Forall (fun v => settled v = true) vs.
Proof.
  intros H Hp. apply Forall_forall. intros v Hv. destruct (proj1 (Forall_forall _ _) H v Hv) as [?|[-> _]]; [done|].
  enough (any_pending vs = true) by congruence. apply existsb_exists. exists VPending. split; [by apply list_elem_of_In|done].
Qed.

(** A value built from others: pending where one of them is, settled otherwise. *)
Lemma built_ok vs (v : Value) :
  Forall value_ok vs -> (Forall (fun v => settled v = true) vs -> settled v = true) ->
  value_ok (if any_pending vs then VPending else v).
Proof. intros H Hv. destruct (any_pending vs) eqn:E; [by eapply any_pending_waits|]. left. apply Hv. by apply none_pending. Qed.

Lemma entries_flat es : Forall entry_ok es <-> Forall value_ok (flat_map (fun '(k, v) => [k; v]) es).
Proof.
  induction es as [|[k v] es IH]; simpl; [by split; constructor|]. rewrite !Forall_cons, IH. unfold entry_ok. simpl. tauto.
Qed.

Lemma settled_entries es : Forall (fun v => settled v = true) (flat_map (fun '(k, v) => [k; v]) es) <-> settled (VCollection es) = true.
Proof.
  induction es as [|[k v] es IH]; simpl; [by split; constructor|]. rewrite !Forall_cons, IH. simpl.
  rewrite !andb_true_iff. tauto.
Qed.

Lemma settled_fields fs : settled (VRecord fs) = true <-> Forall (fun f => settled f.2 = true) fs.
Proof. simpl. induction fs as [|[n v] fs IH]; simpl; [by split; constructor|]. rewrite Forall_cons, andb_true_iff, IH. done. Qed.

(** The parts of a settled value. *)
Lemma field_settled name fs v : settled (VRecord fs) = true -> field_of name fs = Some v -> settled v = true.
Proof.
  rewrite settled_fields. unfold field_of. intros H Hf. destruct (List.find _ fs) as [[n u]|] eqn:E; [|done].
  injection Hf as <-. apply List.find_some in E as [E _]. by apply list_elem_of_In, (proj1 (Forall_forall _ _) H) in E.
Qed.

Lemma settled_collection c : settled (VCollection c) = true <-> Forall (fun e => settled e.1 = true /\ settled e.2 = true) c.
Proof. simpl. induction c as [|[k v] c IH]; simpl; [by split; constructor|]. by rewrite Forall_cons, !andb_true_iff, IH. Qed.

Lemma collection_done ds es c : collection ds es = Done c -> c = es.
Proof. unfold collection, try_from_entries. destruct (repeated _ _); congruence. Qed.

Lemma collection_ok ds es c : settled (VCollection es) = true -> collection ds es = Done c -> value_ok (VCollection c).
Proof. intros Hs ->%collection_done. by left. Qed.

Lemma Forall_imap {A B} (P : B -> Prop) (f : nat -> A -> B) l : (forall i x, x ∈ l -> P (f i x)) -> Forall P (imap f l).
Proof.
  intros H. apply Forall_lookup. intros i y Hy. rewrite list_lookup_imap in Hy. destruct (l !! i) as [x|] eqn:E; [|done].
  injection Hy as <-. apply H. by eapply list_elem_of_lookup_2.
Qed.

Lemma from_list_settled vs : Forall (fun v => settled v = true) vs -> settled (VCollection (from_list vs)) = true.
Proof.
  intros H. apply settled_collection, Forall_imap. intros i x Hx. split; [done|]. by apply (proj1 (Forall_forall _ _) H).
Qed.

Lemma positions_settled vs :
  Forall (fun v => settled v = true) vs -> settled (VRecord (imap (fun i v => (position_name i, v)) vs)) = true.
Proof. intros H. apply settled_fields, Forall_imap. intros i x Hx. by apply (proj1 (Forall_forall _ _) H). Qed.

Lemma tuple_key_ok keys : Forall value_ok keys -> value_ok (tuple_key keys).
Proof.
  intros H. apply (built_ok keys (match keys with [] => VUnit | [k] => k | ks => VRecord (imap (fun i k => (position_name i, k)) ks) end)); [done|].
  intros Hs. destruct keys as [|k [|k' keys]]; [done|by inversion Hs|by apply positions_settled].
Qed.

(** ** Pure parts of the interpreter *)

Section Pure.
Context (ds : string -> string).

Lemma ok_or_done {A} (o : option A) why a : ok_or o why = Done a -> o = Some a.
Proof. destruct o; simpl; congruence. Qed.

Lemma tag_settled i c : settled (VCollection c) = true ->
  settled (VCollection (map (fun '(k, v) => (VVariant i k, v)) c)) = true.
Proof. rewrite !settled_collection. intros H. apply Forall_map. eapply Forall_impl; [exact H|]. by intros [k v]. Qed.

Lemma int_ok o v : int o = Done v -> value_ok v.
Proof. unfold int. destruct o; simpl; intros [= <-]. by left. Qed.

Lemma fmap_done {A B} (f : A -> B) (r : Res A) b : f <$> r = Done b -> exists a, r = Done a /\ b = f a.
Proof. destruct r; intros H; inversion H; eauto. Qed.

Lemma bind_done {A B} (r : Res A) (k : A -> Res B) b : r ≫= k = Done b -> exists a, r = Done a /\ k a = Done b.
Proof. destruct r; intros H; inversion H; eauto. Qed.

Lemma binop_ok op l r v : value_ok l -> value_ok r -> binop ds op l r = Done v -> value_ok v.
Proof.
  intros Hl Hr. unfold binop. destruct (any_pending [l; r]) eqn:E.
  { intros [= <-]. eapply any_pending_waits; [|exact E]. each. }
  apply none_pending in E; [|each]. apply Forall_cons in E as [El Er]. apply Forall_cons in Er as [Er _].
  destruct op, l, r; simpl; intros H; try done; try (by apply int_ok in H); try (by injection H as <-; left).
  apply fmap_done in H as (c & Hc & ->). eapply collection_ok; [|exact Hc].
  rewrite settled_collection, Forall_app, <- !settled_collection. split; by apply tag_settled.
Qed.

Lemma builtin_function_ok t f vs r v : Forall value_ok vs -> builtin_function ds t f vs = Some r -> r = Done v -> value_ok v.
Proof.
  intros H. unfold builtin_function. repeat case_decide; destruct vs as [|a [|b [|? ?]]]; try done;
    try (intros [= <-]; rewrite !Forall_cons in H; destruct H as (Ha & Hb & _); by apply binop_ok).
  all: intros Hr Hv; destruct a; simplify_eq/=; try by inversion H.
  apply ok_or_done in Hr. destruct (checked _); simplify_eq/=; by left.
Qed.

Lemma extreme_in tr c g v : extreme tr c g = Done v -> exists k, (k, v) ∈ c.
Proof.
  unfold extreme. intros H. apply bind_done in H as (best & Hb & H). apply ok_or_done in H as ->.
  assert (G : forall (c : Collection) acc r, foldl (fun best '(_, v) =>
      best ← best;
      match best with
      | None => Done (Some v)
      | Some b => o ← order tr v b; Done (Some (match o, g with Gt, true | Lt, false => v | _, _ => b end))
      end) acc c = Done (Some r) -> acc = Done (Some r) \/ exists k, (k, r) ∈ c).
  { clear. induction c as [|[k v] c IH]; intros acc r H; simpl in H; [by left|].
    destruct (IH _ _ H) as [Hd|[k' Hk]]; [|right; exists k'; by right].
    apply bind_done in Hd as (b & -> & Hb). destruct b as [b|]; simplify_eq/=; [|right; exists k; by left].
    apply bind_done in Hb as (o & _ & Ho). destruct o, g; simplify_eq; auto; right; exists k; by left. }
  by destruct (G _ _ _ Hb).
Qed.

Lemma extreme_ok tr c g v : settled (VCollection c) = true -> extreme tr c g = Done v -> value_ok v.
Proof.
  rewrite settled_collection. intros H (k & Hk)%extreme_in. left. by apply (proj1 (Forall_forall _ _) H) in Hk as [_ ?].
Qed.

Lemma comparison_ok tr op l r v : value_ok l -> value_ok r -> comparison_ ds tr op l r = Done v -> value_ok v.
Proof.
  intros Hl Hr. unfold comparison_. destruct (any_pending [l; r]) eqn:E.
  { intros [= <-]. eapply any_pending_waits; [|exact E]. each. }
  destruct op; try (intros [= <-]; by left); intros H; apply bind_done in H as (o & _ & H); injection H as <-; by left.
Qed.

Lemma mapM_done {A B} (f : A -> Res B) (P : A -> Prop) (Q : B -> Prop) l r :
  (forall a b, P a -> f a = Done b -> Q b) -> Forall P l -> mapM f l = Done r -> Forall Q r.
Proof.
  intros Hf Hl. revert r. induction Hl as [|a l Ha Hl IH]; intros r H; simpl in H; [injection H as <-; constructor|].
  apply bind_done in H as (b & Hb & H). apply bind_done in H as (bs & Hbs & H). injection H as <-. constructor; eauto.
Qed.

Lemma pair_entries_ok c es : settled (VCollection c) = true -> pair_entries c = Done es -> settled (VCollection es) = true.
Proof.
  rewrite !settled_collection. intros H. apply (mapM_done _ (fun e => settled e.1 = true /\ settled e.2 = true)); [|done].
  intros [k p] [x y] [_ Hp] E. simpl in Hp. destruct p; try done.
  apply bind_done in E as (a & Ha%ok_or_done & E). apply bind_done in E as (b & Hb%ok_or_done & E). injection E as -> ->.
  split; by eapply field_settled.
Qed.

Lemma sum_ok c v : settled (VCollection c) = true -> sum_entries ds c = Done v -> value_ok v.
Proof.
  intros _. unfold sum_entries.
  assert (G : forall (c : Collection) acc, (forall v, acc = Done v -> value_ok v) -> forall v, foldl (fun total '(_, v) =>
    total ← total;
    match v with VInt _ => binop ds OpAdd total v | _ => Fail "`sum` takes a collection of integers" end) acc c = Done v -> value_ok v).
  { clear. induction c as [|[k x] c IH]; intros acc Ha v H; simpl in H; [by apply Ha|]. revert H. apply IH. clear v.
    intros v H. apply bind_done in H as (t & Ht & H). destruct x; try done.
    apply (binop_ok OpAdd t (VInt i)); [by apply Ha|by left|done]. }
  apply G. intros u [= <-]. by left.
Qed.

Lemma subscript_ok t k ch v : settled t = true -> subscript ds t k ch = Done v -> value_ok v.
Proof.
  intros Ht H. left. destruct t; try done; simpl in H.
  - destruct ch; [done|]. destruct k; try done. apply ok_or_done in H. by eapply field_settled.
  - destruct (List.find _ _) as [[k' u]|] eqn:E; destruct ch; simplify_eq; try done.
    all: apply List.find_some in E as [E%list_elem_of_In _]; rewrite settled_collection in Ht;
      by apply (proj1 (Forall_forall _ _) Ht) in E as [_ ?].
Qed.

Lemma method_apply_ok m c p : settled p = true -> value_ok (method_apply m c p).
Proof. destruct m; by left. Qed.

(** *** What patterns bind *)

Lemma constructor_binds_ok p v bs : settled v = true -> constructor_binds p v = Done bs -> Forall bind_ok bs.
Proof.
  intros Hv. unfold constructor_binds. destruct (default [] (binders p)) as [|b [|b' rest]].
  - intros [= <-]. constructor.
  - intros [= <-]. destruct (node b); [|constructor]. apply Forall_singleton. by left.
  - destruct v; try done. intros H. apply bind_done in H as (out & Ho & H). injection H as <-. apply Forall_concat.
    revert Ho. apply (mapM_done _ (fun _ => True)); [|by apply Forall_true]. intros [i x] y _ E. destruct (node x); simpl in E.
    + apply bind_done in E as (u & Hu%ok_or_done & E). injection E as <-. apply Forall_singleton. left. by eapply field_settled.
    + injection E as <-. constructor.
Qed.

Lemma pending_names ns : value_ok VPending -> Forall bind_ok (map (fun n => (n, VPending)) ns).
Proof. intros H. by apply Forall_map, Forall_true. Qed.

Lemma constructor_value_binds_ok p v bs : value_ok v -> constructor_value_binds p v = Done bs -> Forall bind_ok bs.
Proof.
  intros Hv. destruct v; simpl; try done.
  - case_match; [|done]. destruct Hv as [Hv|[? _]]; [|done]. by apply constructor_binds_ok.
  - intros [= <-]. by apply pending_names.
Qed.

Lemma tuple_binds_ok t : forall v bs, value_ok v -> tuple_binds t v = Done bs -> Forall bind_ok bs.
Proof.
  revert t. fix IH 1. intros t v bs Hv. destruct t as [n|elts|target index|q|p]; simpl; try done.
  - intros [= <-]. each.
  - case_match; [done|]. intros H'. apply bind_done in H' as (out & Ho & H'). injection H' as <-. apply Forall_concat.
    assert (Hb : Forall (fun b : Value -> Res (list (string * Value)) => forall v bs, value_ok v -> b v = Done bs -> Forall bind_ok bs)
      (map (fun elt => tuple_binds (node elt)) elts)).
    { clear Ho H. induction elts as [|e elts IHe]; simpl; constructor; [|exact IHe]. destruct e as [sp nd]. exact (IH nd). }
    revert Ho. apply (mapM_done _ (fun b => forall v bs, value_ok v -> b.2 v = Done bs -> Forall bind_ok bs)).
    + intros [i b] y Hi E. apply bind_done in E as (c & Hc & E). eapply Hi; [|exact E].
      destruct v; try done.
      * left. apply ok_or_done in Hc. destruct Hv as [Hv|[? _]]; [|done]. by eapply field_settled.
      * by injection Hc as <-.
    + apply Forall_imap. intros i b Hin. by apply (proj1 (Forall_forall _ _) Hb).
  - apply constructor_value_binds_ok, Hv.
Qed.

Lemma choose_arm_ok arms nom tag p c :
  settled p = true -> choose_arm arms nom tag p = Done c -> exists bound body, c = ChosenArm bound body /\ Forall bind_ok bound.
Proof.
  intros Hp. assert (Hn : forall ns, Forall bind_ok (map (fun n => (n, p)) ns)).
  { intros ns. apply Forall_map, Forall_true. intros n. by left. }
  induction arms as [|arm arms IH]; simpl; [done|].
  destruct (arm_pattern _ arm) as [[q|q]|], nom; try done; try (intros [= <-]; eauto; fail).
  - case_decide; [|done]. intros [= <-]. eauto.
  - case_match; [|done]. intros H'. apply bind_done in H' as (bs & Hbs & H'). injection H' as <-.
    eauto using constructor_binds_ok.
Qed.
End Pure.

(** ** States *)

(** What a name is bound to: a value, or a function over scopes of such. *)
Fixpoint slot_ok (sl : Slot) : Prop :=
  match sl with
  | SlotVal v => value_ok v
  | SlotFn f => every (every (fun b => slot_ok b.2)) (env f)
  | SlotMut _ | SlotChan _ | SlotInstance _ => True
  end.

Definition scope_ok (l : Scope) : Prop := Forall (fun b => slot_ok b.2) l.
Definition scopes_ok (l : list Scope) : Prop := Forall scope_ok l.
Definition function_ok (f : Function) : Prop := scopes_ok (env f).

Lemma slot_fn_ok f : slot_ok (SlotFn f) <-> function_ok f.
Proof.
  simpl. rewrite every_Forall. unfold function_ok, scopes_ok, scope_ok. apply Forall_iff. intros l. apply every_Forall.
Qed.

Lemma slot_val_ok v : value_ok v -> slot_ok (SlotVal v).
Proof. done. Qed.

Lemma fn_slot_ok ps b env : scopes_ok env -> slot_ok (SlotFn (MkFunction ps b env)).
Proof. intros H. by apply slot_fn_ok. Qed.

Lemma function_slot_ok f : function_ok f -> slot_ok (SlotFn f).
Proof. apply slot_fn_ok. Qed.
Arguments slot_ok : simpl never.

Definition feed_ok (c : Site * Value * Value) : Prop := value_ok c.1.2 /\ value_ok c.2.

Definition channel_ok (c : Channel) : Prop := Forall feed_ok (fed c) /\ forall v, defined c = Some v -> value_ok v.

Definition txn_ok (f : TxnFrame) : Prop := Forall (fun r => value_ok r.2) (replies f) /\ (uncertain f = true -> w = true).

Record Settled (s : Interp) : Prop := {
  ok_scopes : scopes_ok (scopes s);
  ok_functions : forall n f, instance_functions s !! n = Some f -> function_ok f;
  ok_cells : Forall (fun c => value_ok (value c)) (cells s);
  ok_channels : forall key c, channels s !! key = Some c -> channel_ok c;
  ok_yielded : forall l, yielded s = Some l -> Forall entry_ok l;
  ok_txn : forall f, txn s = Some f -> txn_ok f;
  ok_keys : Forall value_ok (loop_keys s);
  ok_speculating : speculates s = true -> w = true;
  ok_clock : clock_known s = false -> w = true
}.

(** A pass that waits on nothing ends with [waited_on] empty. *)
Definition ends (s : Interp) : Prop := w = false -> waited_on s = ∅.

Lemma ends_before s s' : Frame s s' -> ends s' -> ends s.
Proof. intros F H Hw. pose proof (frame_waited _ _ F). rewrite (H Hw) in *. set_solver. Qed.

Definition holds_at {A} (s : Interp) (m : M A) (Q : A -> Prop) : Prop :=
  ends (m s).2 -> Settled s -> Settled (m s).2 /\ forall a, (m s).1 = Done a -> Q a.
Definition holds {A} (m : M A) (Q : A -> Prop) : Prop := forall s, holds_at s m Q.

Section Rules.
Context {A B : Type}.

Lemma holds_ret s (a : A) (Q : A -> Prop) : Q a -> holds_at s (mret a) Q.
Proof. intros H _ Hs. split; [done|]. by intros ? [= <-]. Qed.

Lemma holds_lift s (r : Res A) (Q : A -> Prop) : (forall a, r = Done a -> Q a) -> holds_at s (lift r) Q.
Proof. intros H _ Hs. by split. Qed.

Lemma holds_err s why (Q : A -> Prop) : holds_at s (err why) Q.
Proof. by apply holds_lift. Qed.

Lemma holds_get s (k : Interp -> M A) Q : (Settled s -> holds_at s (k s) Q) -> holds_at s (get ≫= k) Q.
Proof. intros H He Hs. by apply H. Qed.

Lemma holds_lift_bind s (r : Res A) (k : A -> M B) Q :
  (forall a, r = Done a -> holds_at s (k a) Q) -> holds_at s (lift r ≫= k) Q.
Proof. unfold holds_at, mbind, M_bind, lift. destruct r; intros H; try done. by apply H. Qed.

Lemma holds_modify s f : (Settled s -> Settled (f s)) -> holds_at s (modify f) (fun _ => True).
Proof. intros H _ Hs. split; [by apply H|done]. Qed.

Lemma holds_modify_bind s f (k : unit -> M A) Q :
  (Settled s -> Settled (f s)) -> holds_at (f s) (k ()) Q -> holds_at s (modify f ≫= k) Q.
Proof. intros H1 H2 He Hs. apply H2; auto. Qed.

Lemma holds_bind_waited s (m : M A) (k : A -> M B) P Q :
  holds_at s m P -> (forall a s', waited_on s' ⊆ waited_on (k a s').2) -> (forall a s', P a -> holds_at s' (k a) Q) ->
  holds_at s (m ≫= k) Q.
Proof.
  unfold holds_at, mbind, M_bind. intros Hm Hf Hk He Hs.
  destruct (m s) as [r s1]. simpl in *. destruct r; try (by apply Hm); try (by destruct (Hm He Hs)).
  destruct Hm as [Hs1 HP]; [|done|apply Hk; auto]. intros Hw. specialize (Hf a s1). rewrite (He Hw) in Hf. set_solver.
Qed.

Lemma holds_bind s (m : M A) (k : A -> M B) P Q :
  holds_at s m P -> (forall a s', framed_at s' (k a)) -> (forall a s', P a -> holds_at s' (k a) Q) -> holds_at s (m ≫= k) Q.
Proof. intros Hm Hf. apply holds_bind_waited; [done|]. intros a s'. apply (frame_waited _ _ (Hf a s')). Qed.

Lemma holds_weaken s (m : M A) (P Q : A -> Prop) : holds_at s m P -> (forall a, P a -> Q a) -> holds_at s m Q.
Proof. intros H HPQ He Hs. destruct (H He Hs). split; auto. Qed.
End Rules.

Lemma holds_finally {A} (m : M A) (enter leave : Interp -> Interp) s Q :
  holds_at (enter s) m Q -> (Settled s -> Settled (enter s)) ->
  (forall s1, waited_on (leave s1) = waited_on s1) ->
  (forall s1, Settled s -> Frame (enter s) s1 -> Settled s1 -> Settled (leave s1)) -> framed m ->
  holds_at s (modify enter;; finally m leave) Q.
Proof.
  unfold holds_at, finally, mbind, M_bind, modify, framed, framed_at. intros Hm Hin Hw Hout Hf.
  specialize (Hf (enter s)). destruct (m (enter s)) as [r s1]. simpl in *. unfold ends. rewrite Hw. intros He Hs.
  destruct (Hm He (Hin Hs)) as [Hs1 HQ]. auto.
Qed.

(** *** Brackets *)

Ltac keeps := intros []; split; simpl; auto.

Lemma holds_scoped {A} (m : M A) Q : framed m -> holds m Q -> holds (scoped m) Q.
Proof.
  intros Hf H s. apply holds_finally; auto; [keeps; by repeat constructor|]. intros s1 _ _. keeps.
  destruct (scopes s1); simpl; [constructor|]. by inversion ok_scopes0.
Qed.

Lemma holds_at_place {A} at_ key c (m : M A) Q : framed m -> holds m Q -> holds (at_place at_ key c m) Q.
Proof. intros Hf H s. apply holds_finally; auto; [by keeps|]. intros s1 _ _. keeps. Qed.

Lemma holds_speculate {A} (m : M A) Q : w = true -> framed m -> holds m Q -> holds (speculate m) Q.
Proof. intros Hw Hf H s. apply holds_finally; auto; [by keeps|]. intros s1 _ _. keeps. Qed.

Lemma holds_under_key {A} key (m : M A) Q : value_ok key -> framed m -> holds m Q -> holds (under_key key m) Q.
Proof.
  intros Hk Hf H s. apply holds_finally; auto; [by keeps; constructor|]. intros s1 _ _. keeps.
  destruct (loop_keys s1); simpl; [constructor|]. by inversion ok_keys0.
Qed.

(** *** Primitives *)

Lemma slot_of_ok s name sl : Settled s -> slot s name = Some sl -> slot_ok sl.
Proof.
  intros Hs. unfold slot, slot_in. pose proof (ok_scopes _ Hs) as H. induction H as [|l ls Hl H IH]; simpl; [done|].
  unfold field_of at 1. destruct (List.find _ (rev l)) as [[n u]|] eqn:E; simpl; [|done]. intros [= <-].
  apply List.find_some in E as [E%in_rev%list_elem_of_In _]. by apply (proj1 (Forall_forall _ _) Hl) in E.
Qed.

Lemma associated_ok s q sl : Settled s -> associated s q = Some sl -> slot_ok sl.
Proof. unfold associated. destruct (qualifier q) as [|? [|? ?]]; try done. apply slot_of_ok. Qed.

Lemma cell_of_ok s i c : Settled s -> cells s !! i = Some c -> value_ok (value c).
Proof. intros Hs Hc. by apply (Forall_lookup_1 _ _ _ _ (ok_cells _ Hs) Hc). Qed.

Lemma site_key_ok s : Settled s -> value_ok (site_key s).
Proof. intros Hs. apply tuple_key_ok, Forall_rev, (ok_keys _ Hs). Qed.

Lemma holds_name name sl : slot_ok sl -> holds (bind name sl) (fun _ => True).
Proof.
  intros Hsl s _ Hs. unfold bind. destruct (scopes s) as [|top rest] eqn:E; simpl; [done|]. split; [|done]. revert Hs. keeps.
  rewrite E in ok_scopes0. inversion ok_scopes0; subst. constructor; [|done]. apply Forall_app. split; [done|].
  by apply Forall_singleton.
Qed.

Lemma holds_names bs : Forall bind_ok bs -> holds (bind_all bs) (fun _ => True).
Proof.
  induction 1 as [|[n v] bs Hb H IH]; intros s; simpl; [by apply holds_ret|].
  eapply holds_bind; [by apply holds_name| |]; [intros; apply framed_names|]. intros. apply IH.
Qed.

Lemma holds_lose why : holds (lose why) (fun _ => True).
Proof. intros s. apply holds_modify. destruct (lost s); [done|keeps]. Qed.

Lemma holds_new_cell name v t : value_ok v -> holds (new_cell name v t) (fun _ => True).
Proof.
  intros Hv s. apply holds_get. intros _. apply holds_modify_bind; [|by apply holds_name]. keeps. apply Forall_app.
  split; [done|]. by apply Forall_singleton.
Qed.

Lemma set_cell_ok s i v t b ws : value_ok v -> Settled s -> Settled (set_cell i (MkMutCell v t b ws) s).
Proof. intros Hv. keeps. by apply Forall_insert. Qed.

(** A change of the block in progress. *)
Lemma set_txn_ok g s : (forall f, txn s = Some f -> txn_ok f -> txn_ok (g f)) -> Settled s ->
  Settled (match txn s with Some f => with_txn (Some (g f)) s | None => s end).
Proof. intros H Hs. destruct (txn s) as [f|] eqn:E; [|done]. revert Hs. keeps. intros f' [= <-]. auto. Qed.

Lemma holds_write cell v : value_ok v -> holds (write cell v) (fun _ => True).
Proof.
  intros Hv s. apply holds_get. intros Hs. apply holds_lift_bind. intros c _. fold (speculates s).
  destruct (speculates s) eqn:Hp.
  - assert (Hw : w = true) by (by apply (ok_speculating _ Hs)).
    apply holds_modify_bind; [apply set_cell_ok; by apply pending_ok|]. apply holds_modify.
    apply (set_txn_ok (fun f => MkTxnFrame (site f) (wrote f) (writes f) (replies f) true)). intros f _ [? _]. by split.
  - assert (G : forall ws, holds_at s (modify (set_cell cell (MkMutCell v (is_txn c) (born c) ws));;
      modify (fun s => with_order_watches
        (map (fun w => if born c <=? cells_before w then MkOrderWatch (cells_before w) true else w) (order_watches s)) s);;
      modify (fun s => match txn s with
        | Some f => with_txn (Some (MkTxnFrame (site f) true (writes f) (replies f) (uncertain f))) s
        | None => s
        end)) (fun _ => True)).
    { intros ws. apply holds_modify_bind; [by apply set_cell_ok|]. apply holds_modify_bind; [keeps|]. apply holds_modify.
      apply (set_txn_ok (fun f => MkTxnFrame (site f) true (writes f) (replies f) (uncertain f))). by intros f _ [? ?]. }
    destruct (is_txn c), (txn s) as [f|]; try apply G.
    destruct (writer_site c) as [x|]; [destruct (x =? site f)|]; try apply G. by apply holds_err.
Qed.

Lemma set_channel_ok s key c : channel_ok c -> Settled s -> Settled (with_channels (<[key := c]> (channels s)) s).
Proof. intros Hc. keeps. intros k d [[<- <-]|[? ?]]%lookup_insert_Some; eauto. Qed.

Lemma holds_contribute key c : feed_ok c -> holds (contribute key c) (fun _ => True).
Proof.
  intros Hc s. apply holds_get. intros Hs. apply holds_lift_bind. intros ch Hch%expect_done. apply holds_modify.
  apply set_channel_ok. destruct (ok_channels _ Hs key ch Hch) as [Hf Hd]. split; [|done]. simpl. apply Forall_app.
  split; [done|]. by apply Forall_singleton.
Qed.

Lemma holds_feed_site key at_ : holds (feed_site key at_) (fun _ => True).
Proof.
  intros s. apply holds_get. intros Hs. apply holds_lift_bind. intros ch Hch%expect_done. cbv beta zeta.
  case_match; [by apply holds_lift|]. case_match; [by apply holds_ret|]. apply holds_modify_bind; [|by apply holds_ret].
  apply set_channel_ok, (ok_channels _ Hs key ch Hch).
Qed.

Lemma holds_read name cell : holds (read_mut name cell) value_ok.
Proof.
  intros s. apply holds_get. intros Hs. apply holds_lift_bind. intros c Hc%expect_done.
  assert (value_ok (value c)) by (by eapply cell_of_ok).
  destruct (is_txn c); [|by apply holds_ret]. destruct (txn s); [|apply holds_err]. case_decide; [by apply holds_ret|apply holds_err].
Qed.

Lemma holds_captured : holds captured_scopes scopes_ok.
Proof.
  intros s. apply holds_get. intros Hs. apply holds_lift. intros l Hl%expect_done.
  assert (Hsl : forall sl sl', slot_ok sl -> captured_slot (cells s) sl = Some sl' -> slot_ok sl').
  { intros [v|i|f|k|t] sl' Hsl; simpl; try (by intros [= <-]). destruct (cells s !! i) as [c|] eqn:E; simpl; [|done].
    intros [= <-]. destruct (is_txn c); [done|]. by eapply cell_of_ok. }
  pose proof (ok_scopes _ Hs) as H. apply mapM_Some_1 in Hl. revert H. induction Hl as [|l1 l2 ls1 ls2 H12 H IH]; [done|].
  intros [Hl1 Hls]%Forall_cons. constructor; [|by apply IH]. clear H IH Hls. apply mapM_Some_1 in H12.
  induction H12 as [|[n x] y l1 l2 Hxy H12 IH]; [constructor|]. apply Forall_cons in Hl1 as [Hx Hl1].
  constructor; [|by apply IH]. destruct (captured_slot (cells s) x) as [x'|] eqn:E; simplify_eq/=. by eapply Hsl.
Qed.

Lemma contribute_waited key c s : waited_on (contribute key c s).2 = waited_on s.
Proof. unfold contribute, get, mbind, M_bind, lift, modify. by destruct (channels s !! key). Qed.

Lemma contribute_all_waited l : forall s, waited_on (contribute_all l s).2 = waited_on s.
Proof.
  induction l as [|[key c] l IH]; intros s; [done|]. simpl. unfold mbind, M_bind.
  pose proof (contribute_waited key c s) as H. destruct (contribute key c s) as [[] s1]; simpl in *; try done. by rewrite IH.
Qed.

Lemma holds_contribute_all l : Forall (fun x => feed_ok x.2) l -> holds (contribute_all l) (fun _ => True).
Proof.
  induction 1 as [|[key c] l Hc H IH]; intros s; simpl; [by apply holds_ret|].
  intros He Hs. unfold mbind, M_bind in *. pose proof (holds_contribute key c Hc s) as Hc'. unfold holds_at in Hc'.
  destruct (contribute key c s) as [r s1]. simpl in *. destruct r; try (by destruct (Hc' He Hs)).
  apply IH; [done|]. apply Hc'; [|done]. intros Hw. rewrite <- (contribute_all_waited l s1). by apply He.
Qed.

Lemma holds_commit f : txn_ok f -> holds (commit f) (fun _ => True).
Proof.
  intros [Hr Hu] s. unfold commit. destruct (uncertain f).
  - specialize (Hu eq_refl). apply holds_modify_bind; [by keeps|]. apply holds_contribute_all, Forall_map, Forall_true.
    intros [[? ?] ?]. by split; apply pending_ok.
  - case_match; [by apply holds_ret|]. apply holds_modify_bind; [keeps|]. apply holds_modify_bind; [keeps|].
    apply holds_get. intros Hs. apply holds_contribute_all, Forall_map. eapply Forall_impl; [exact Hr|].
    intros [[ch st] v] Hv. split; [|done]. simpl. destruct (clock_known s) eqn:E; [by left|]. apply pending_ok, (ok_clock _ Hs), E.
Qed.

(** ** The methods *)

Definition opt_ok (o : option Value) : Prop := match o with Some v => value_ok v | None => True end.

Definition taken_ok (t : Taken) : Prop := match t with TakenUndecided _ => w = true | _ => True end.
Definition chosen_ok (c : Chosen) : Prop :=
  match c with ChosenArm bound _ => Forall bind_ok bound | ChosenUndecided _ => w = true end.
Definition some_ok (c : option Collection) : Prop :=
  match c with Some c => settled (VCollection c) = true | None => w = true end.
Definition groups_ok (g : list (Value * list (Value * Value))) : Prop :=
  Forall (fun g => settled g.1 = true /\ settled (VCollection g.2) = true) g.
Definition some_groups_ok (g : option (list (Value * list (Value * Value)))) : Prop :=
  match g with Some g => groups_ok g | None => w = true end.

(** What a computation's result is to satisfy, by its type. *)
Ltac post T :=
  match T with
  | Value => constr:(value_ok)
  | unit => constr:(fun _ : unit => True)
  | option Value => constr:(opt_ok)
  | list Value => constr:(Forall value_ok)
  | list (Value * Value) => constr:(Forall entry_ok)
  | Scope => constr:(scope_ok)
  | list (string * Value) => constr:(Forall bind_ok)
  | list Scope => constr:(scopes_ok)
  | Slot => constr:(slot_ok)
  | Function => constr:(function_ok)
  | Taken => constr:(taken_ok)
  | Chosen => constr:(chosen_ok)
  | option Collection => constr:(some_ok)
  | option (list (Value * list (Value * Value))) => constr:(some_groups_ok)
  | ?T => constr:(fun _ : T => True)
  end.

Create HintDb settles.
Create HintDb okays.
#[local] Hint Resolve holds_name holds_names holds_lose holds_new_cell holds_write holds_feed_site holds_read holds_captured holds_contribute slot_val_ok fn_slot_ok function_slot_ok pending_ok site_key_ok Forall_nil_2 Forall_cons_2 : settles.
#[local] Hint Resolve any_pending_waits built_ok none_pending : okays.

(** Facts that a case analysis leaves. *)
Ltac note :=
  repeat match goal with
  | H : value_ok VPending |- _ => pose proof (pending_waits H); clear H
  | Hs : Settled ?s, H : slot ?s _ = Some ?sl |- _ => apply (slot_of_ok s _ sl Hs) in H
  | Hs : Settled ?s, H : associated ?s _ = Some ?sl |- _ => apply (associated_ok s _ sl Hs) in H
  | H : slot_ok (SlotFn _) |- _ => apply slot_fn_ok in H
  | H : slot_ok (SlotVal ?v) |- _ => change (value_ok v) in H
  end; simpl in *.

Ltac settles_step :=
  cbv beta zeta;
  match goal with
  | |- holds_at _ (mret _) _ => apply holds_ret
  | |- holds_at _ (err _) _ => apply holds_err
  | |- holds_at _ (lift _) _ => apply holds_lift; intros ? ?
  | |- holds_at _ (get ≫= _) _ => apply holds_get; intros ?
  | |- holds_at _ (lift _ ≫= _) _ => apply holds_lift_bind; intros ? ?
  | |- @holds_at ?B ?s (@mbind _ _ ?A _ ?k ?m) _ =>
      let P := post A in apply (holds_bind s m k P); [|intros; solve [frames]|intros ? ? ?]
  | |- holds_at _ (scoped _) _ => apply holds_scoped; [solve [frames]|]
  | |- holds_at _ (at_position _ _ _) _ => apply holds_at_place; [solve [frames]|]
  | |- holds_at _ (at_call _ _) _ => apply holds_get; intros ?; apply holds_at_place; [solve [frames]|]
  | |- holds_at _ (speculate _) _ => apply holds_speculate; [solve [note; auto]|solve [frames]|]
  | |- holds_at _ (under_key _ _) _ => apply holds_under_key; [solve [note; auto with settles]|solve [frames]|]
  | |- holds_at _ (match ?x with _ => _ end) _ => destruct x eqn:?
  | H : context [holds _ _] |- holds_at _ _ _ => solve [apply H]
  | |- holds_at ?s ?m ?Q => apply (fun H : holds m Q => H s); solve [note; eauto with settles]
  | |- holds ?m _ => solve [note; eauto with settles]
  | |- holds _ _ => intros ?
  end.
Ltac settles := repeat settles_step; note; try solve [eauto with settles]; try solve [eauto 4 with okays]; try by left.

Lemma holds_map {A B} (f : A -> M B) (P : B -> Prop) l :
  (forall a, framed (f a)) -> (forall a, holds (f a) P) -> holds (mapM f l) (Forall P).
Proof.
  intros Hf Hh. induction l as [|a l IH]; intros s; simpl; [by apply holds_ret|].
  eapply holds_bind; [apply Hh| |].
  - intros b s'. apply framed_at_bind; [by apply framed_map|]. intros. apply framed_at_ret.
  - intros b s' Hb. eapply holds_bind; [apply IH|intros; apply framed_at_ret|]. intros bs s2 Hbs. apply holds_ret. by constructor.
Qed.

(** The finals of earlier passes are settled, and a trait's requirements bind instances. *)
Definition program_ok (p : Program) : Prop :=
  (forall key v, finals p !! key = Some v -> settled v = true) /\
  (forall t sc, named (traits p) !! t = Some sc -> scope_ok sc).

Section Methods.
Context (ds : string -> string) (program : Program) (Hprog : program_ok program).

Lemma holds_declare name at_ o : holds (declare_channel ds program name at_ o) (fun _ => True).
Proof.
  intros s. apply holds_get. intros Hs. cbv beta zeta. destruct (channels s !! _); [apply holds_err|].
  apply holds_modify_bind; [by apply set_channel_ok; split; [constructor|]|].
  eapply holds_bind; [by apply holds_name| |].
  - intros a s'. destruct o; [|apply framed_at_ret]. apply framed_at_modify, frame_observed_of. set_solver.
  - intros a s' _. destruct o; [|by apply holds_ret]. apply holds_modify. keeps.
Qed.

Context (eval : Spanned Expr -> M Value) (exec : Spanned Stmt -> M (option Value))
  (block_value : list (Spanned Stmt) -> bool -> M Value)
  (Feval : forall e, framed (eval e)) (Fexec : forall s, framed (exec s)) (Fblock : forall b u, framed (block_value b u))
  (Heval : forall e, holds (eval e) value_ok) (Hexec : forall s, holds (exec s) opt_ok)
  (Hblock : forall b u, holds (block_value b u) value_ok).
#[local] Hint Resolve holds_declare : settles.

Lemma holds_args es : holds (mapM eval es) (Forall value_ok).
Proof. by apply holds_map. Qed.

Lemma holds_eval_each es : holds (eval_each eval es) (fun _ => True).
Proof. induction es; simpl; settles. Qed.

Lemma holds_exec_block stmts : holds (exec_block exec stmts) opt_ok.
Proof. induction stmts; simpl; settles. Qed.
#[local] Hint Resolve holds_args holds_eval_each holds_exec_block : settles.

Lemma holds_bind_pattern target v : value_ok v -> holds (bind_pattern target v) (fun _ => True).
Proof.
  intros Hv. unfold bind_pattern. settles.
  apply holds_names. apply Forall_forall. intros b Hb. apply list_elem_of_In, filter_In in Hb as [Hb%list_elem_of_In _].
  by apply (proj1 (Forall_forall _ _) (tuple_binds_ok _ _ _ Hv H)).
Qed.
#[local] Hint Resolve holds_bind_pattern : settles.

(** A collection of entries that are not pending. *)
Lemma entries_settled es : Forall entry_ok es -> entries_pending es = false -> settled (VCollection es) = true.
Proof. intros H Hp. apply settled_entries, none_pending; [by apply entries_flat|done]. Qed.

Lemma entries_waits es : Forall entry_ok es -> entries_pending es = true -> value_ok VPending.
Proof. intros H Hp. eapply any_pending_waits; [by apply entries_flat|done]. Qed.
#[local] Hint Resolve entries_waits collection_ok entries_settled : okays.

Lemma holds_generator body : holds (run_generator ds exec body) value_ok.
Proof.
  intros s. unfold holds_at, run_generator.
  pose proof (holds_exec_block body (with_loop_keys [] (with_yielded (Some []) s))) as H. unfold holds_at in H.
  destruct (exec_block exec body _) as [ran s1]. simpl in H. intros He Hs.
  assert (He1 : ends s1) by (destruct (yielded s1), ran; exact He).
  destruct H as [Hs1 _]; [done|by revert Hs; keeps; intros l [= <-]|].
  assert (Hs2 : Settled (with_loop_keys (loop_keys s) (with_yielded (yielded s) s1))).
  { revert Hs1. keeps; by apply Hs. }
  destruct (yielded s1) as [l|] eqn:E; [|done]. destruct ran; try done. split; [done|]. simpl. intros v.
  pose proof (ok_yielded _ Hs1 l E) as Hl. destruct (entries_pending l) eqn:Ep; [intros [= <-]; by eapply entries_waits|].
  intros (c & Hc & ->)%fmap_done. eapply collection_ok; [|done]. by apply entries_settled.
Qed.

Lemma holds_run_call f ps : function_ok f -> scope_ok ps -> holds (run_call ds exec block_value f ps) value_ok.
Proof.
  intros Hf Hps s. unfold holds_at, run_call.
  set (m := if contains_yield (fn_body f) then run_generator ds exec (fn_body f) else block_value (fn_body f) true).
  assert (Hm : holds m value_ok) by (unfold m; destruct (contains_yield _); [apply holds_generator|apply Hblock]).
  set (s0 := with_speculating_at_call _ _). specialize (Hm s0). unfold holds_at in Hm. destruct (m s0) as [r s1].
  intros He Hs. destruct Hm as [Hs1 HQ]; [exact He|revert Hs; keeps; by constructor|]. split; [|done].
  revert Hs1. keeps. apply Hs.
Qed.
#[local] Hint Resolve holds_run_call : settles.

Lemma zip_args_ok (ps : list (string * bool)) vs :
  Forall value_ok vs -> scope_ok (zip_with (fun '(param, _) v => (param, SlotVal v)) ps vs).
Proof.
  intros H. revert ps. induction H as [|v vs Hv H IH]; intros [|[p b] ps]; simpl; try constructor; try done. apply IH.
Qed.
#[local] Hint Resolve zip_args_ok : settles.

Lemma holds_call_with_values f vs : function_ok f -> Forall value_ok vs -> holds (call_with_values ds exec block_value f vs) value_ok.
Proof. intros Hf Hv. unfold call_with_values. settles. Qed.
#[local] Hint Resolve holds_call_with_values : settles.

Lemma holds_dispatch t f vs : Forall value_ok vs -> holds (dispatch ds program exec block_value t f vs) value_ok.
Proof.
  intros Hv s. unfold dispatch. destruct (any_pending vs) eqn:Ep; [apply holds_ret; by eapply any_pending_waits|].
  destruct (functions _ !! _); [|apply holds_err]. destruct (admitting _ _ _ _) as [|[one []] [|? ?]]; try apply holds_err.
  - destruct (builtin_function ds t f vs) as [r|] eqn:E; [|apply holds_err]. apply holds_lift. intros a Ha.
    by eapply builtin_function_ok.
  - apply holds_get. intros Hs. cbv beta zeta. apply (holds_bind _ _ _ function_ok).
    + destruct (slot s _) as [[]|] eqn:E; note; try (by apply holds_ret);
        (destruct (instance_functions s !! _) eqn:Ef; [|apply holds_err]); (case_decide; [|apply holds_err]);
        apply holds_ret; by eapply (ok_functions _ Hs).
    + intros a s'. apply (framed_finally (call_with_values ds exec block_value a vs)); [auto with framed|].
      intros s1 s2. apply frame_running_in.
    + intros fn s' Hfn. apply holds_finally; try done.
      * by apply holds_call_with_values.
      * keeps.
      * intros s1 _ _. keeps.
      * auto with framed.
Qed.
#[local] Hint Resolve holds_dispatch : settles.

Lemma holds_arithmetic op l r : value_ok l -> value_ok r -> holds (arithmetic ds program exec block_value op l r) value_ok.
Proof. intros Hl Hr. unfold arithmetic. settles; by apply (binop_ok ds op l r). Qed.

Lemma holds_loop_source e : holds (eval_loop_source ds program eval exec block_value e) value_ok.
Proof. unfold eval_loop_source. settles. Qed.

Lemma holds_instance_function e : holds (instance_function program e) (fun _ => True).
Proof. unfold instance_function. settles. Qed.
#[local] Hint Resolve holds_arithmetic holds_loop_source holds_instance_function : settles.

Lemma holds_binding_of e : holds (binding_of program eval e) slot_ok.
Proof. unfold binding_of. settles. Qed.

Lemma holds_apply f v : value_ok v -> holds (apply eval f v) value_ok.
Proof. intros Hv. unfold apply. settles. Qed.
#[local] Hint Resolve holds_binding_of holds_apply : settles.

Lemma pending_pair : w = true -> Forall entry_ok [(VPending, VPending)].
Proof. intros Hw. apply Forall_singleton. by split; apply pending_ok. Qed.

Lemma collection_entries c : value_ok (VCollection c) -> Forall entry_ok c.
Proof.
  intros [H|[? _]]; [|done]. rewrite settled_collection in H. eapply Forall_impl; [exact H|]. intros [k v] [? ?]. by split; left.
Qed.

Lemma holds_each f es :
  (forall k v, framed (f k v)) -> (forall k v, value_ok k -> value_ok v -> holds (f k v) (Forall entry_ok)) ->
  Forall entry_ok es -> holds (each_entry f es) (Forall entry_ok).
Proof.
  intros Ff Hf H. induction H as [|[k v] es [Hk Hv] H IH]; simpl; [intros s; by apply holds_ret|].
  settles. apply Forall_app. by split.
Qed.

Lemma holds_comprehend cs : forall e keys, Forall value_ok keys ->
  holds (comprehend ds program eval exec block_value cs e keys) (Forall entry_ok).
Proof.
  assert (Hend : forall keys k, Forall value_ok keys -> value_ok k -> Forall value_ok (keys ++ [k])).
  { intros. apply Forall_app. split; [done|]. by apply Forall_singleton. }
  induction cs as [|[target iter|guard] cs IH]; intros e keys Hk; simpl; settles.
  all: try (apply Forall_app; split; [done|by apply pending_pair]).
  - apply Forall_singleton. split; [by apply tuple_key_ok|done].
  - apply holds_each; [intros; frames|intros; settles|by apply collection_entries].
Qed.
#[local] Hint Resolve holds_comprehend : settles.

Lemma holds_feed_value channel at_ v : value_ok v -> holds (feed_value channel at_ v) (fun _ => True).
Proof.
  intros Hv s. apply holds_get. intros Hs. cbv zeta. fold (speculates s).
  assert (Hc : value_ok (if speculates s then VPending else v)).
  { destruct (speculates s) eqn:E; [|done]. by apply pending_ok, (ok_speculating _ Hs). }
  apply (holds_bind_waited s _ _ (fun _ => True)); [apply holds_feed_site| |].
  - intros st s'. unfold mbind, M_bind, get. destruct (txn s'); [done|]. by rewrite contribute_waited.
  - intros st s' _. apply holds_get. intros Hs'. cbv beta. destruct (txn s') as [f|] eqn:Ef.
    + apply holds_modify. keeps. intros f' [= <-]. destruct (ok_txn _ Hs' f Ef) as [Hr Hu]. split; simpl.
      * apply Forall_app. split; [done|]. by apply Forall_singleton.
      * intros [?|Hp]%orb_true_iff; [auto|]. by apply (ok_speculating _ Hs).
    + apply holds_contribute. split; [by apply site_key_ok|done].
Qed.
#[local] Hint Resolve holds_feed_value : settles.

Lemma holds_feed target v : holds (feed eval target v) (fun _ => True).
Proof. unfold feed. settles. Qed.
#[local] Hint Resolve holds_feed : settles.

Lemma holds_select bs eb : holds (select_branch eval bs eb) taken_ok.
Proof. induction bs; simpl; settles. by destruct eb. Qed.

Lemma holds_match_arm e arms : holds (match_arm eval e arms) chosen_ok.
Proof.
  unfold match_arm. settles.
  all: match goal with
    | Hv : value_ok _, Hc : choose_arm _ _ _ ?p = Done _ |- _ =>
        destruct Hv as [Hv|[? _]]; [|done]; by destruct (choose_arm_ok _ _ _ p _ Hv Hc) as (b & body & -> & Hb)
    end.
Qed.
#[local] Hint Resolve holds_select holds_match_arm : settles.

Lemma holds_undecided {A} (run : list (Spanned Stmt) -> M A) l (Q : A -> Prop) :
  w = true -> (forall b, framed (run b)) -> (forall b, holds (run b) Q) -> holds (run_undecided run l) (fun _ => True).
Proof.
  intros Hw Hf Hr. induction l as [|[bound body] l IH]; simpl; [intros s; by apply holds_ret|]. intros s.
  apply (holds_bind s _ _ Q); [|intros; apply framed_undecided, Hf|intros; apply IH]. apply holds_scoped; [frames|].
  intros s1. eapply holds_bind; [by apply holds_names, pending_names, pending_ok|intros; apply Hf|intros; apply Hr].
Qed.

Lemma holds_taken {A} (run : list (Spanned Stmt) -> M A) nothing u t (Q : A -> Prop) :
  (forall b, framed (run b)) -> (forall b, holds (run b) Q) -> holds nothing Q -> (w = true -> Q u) -> taken_ok t ->
  holds (run_taken run nothing u t) Q.
Proof.
  intros Hf Hr Hn Hu Ht. destruct t; simpl in *; [by apply holds_scoped|done|]. apply holds_speculate; [done| |].
  - apply framed_bind; [by apply framed_undecided|]. intros a s. apply framed_at_ret.
  - intros s. apply (holds_bind s _ _ (fun _ => True)); [by apply (holds_undecided _ _ Q)|intros; apply framed_at_ret|].
    intros. apply holds_ret. auto.
Qed.

Lemma holds_chosen {A} (run : list (Spanned Stmt) -> M A) u c (Q : A -> Prop) :
  (forall b, framed (run b)) -> (forall b, holds (run b) Q) -> (w = true -> Q u) -> chosen_ok c -> holds (run_chosen run u c) Q.
Proof.
  intros Hf Hr Hu Hc. destruct c; simpl in *.
  - apply holds_scoped; [frames|]. intros s. eapply holds_bind; [by apply holds_names|intros; apply Hf|intros; apply Hr].
  - apply holds_speculate; [done| |].
    + apply framed_bind; [by apply framed_undecided|]. intros a s. apply framed_at_ret.
    + intros s. apply (holds_bind s _ _ (fun _ => True)); [by apply (holds_undecided _ _ Q)|intros; apply framed_at_ret|].
      intros. apply holds_ret. auto.
Qed.

Lemma holds_branch_value s u : holds (branch_value eval block_value s u) value_ok.
Proof.
  unfold branch_value. settles; [apply holds_taken|apply holds_chosen]; auto with settles. intros s2. apply holds_err.
Qed.
#[local] Hint Resolve holds_branch_value : settles.

Lemma holds_block_value body u : holds (block_value_step eval exec block_value body u) value_ok.
Proof.
  unfold block_value_step. settles.
  all: match goal with |- value_ok (default VUnit ?o) => destruct o; [done|by left] end.
Qed.

Lemma holds_bind_args ps : forall args, holds (bind_args program eval ps args) scope_ok.
Proof. induction ps as [|[p r] ps IH]; intros [|a args]; simpl; settles; try (by constructor). Qed.
#[local] Hint Resolve holds_bind_args : settles.

Lemma holds_call_user f args : function_ok f -> holds (call_user ds program eval exec block_value f args) value_ok.
Proof. intros Hf. unfold call_user. settles. Qed.
#[local] Hint Resolve holds_call_user : settles.

Lemma not_pending_ok v : value_ok v -> is_pending v = false -> settled v = true.
Proof. intros [?|[-> _]]; done. Qed.

Lemma method_ok m ty c p : value_ok (VNominal ty c p) -> value_ok (method_apply m c p).
Proof. intros [?|[? _]]; [|done]. by apply method_apply_ok. Qed.
#[local] Hint Resolve method_ok : okays.

Lemma holds_call_method r m args : holds (call_method ds program eval exec block_value r m args) value_ok.
Proof. unfold call_method. settles. Qed.

Lemma nominal_value_ok q v r : settled v = true -> nominal_value q v = Done r -> value_ok r.
Proof. intros Hv H. apply bind_done in H as (ty & _ & H). injection H as <-. by left. Qed.

Lemma product_ok q vs r : Forall value_ok vs -> any_pending vs = false -> nominal_value q (product vs) = Done r -> value_ok r.
Proof.
  intros H Hp. apply none_pending in H; [|done]. apply nominal_value_ok.
  destruct vs as [|v [|v' vs]]; [done|by inversion H|by apply positions_settled].
Qed.
#[local] Hint Resolve product_ok : okays.

Lemma holds_construct q args : holds (construct ds program eval exec block_value q args) value_ok.
Proof. unfold construct. settles. Qed.
#[local] Hint Resolve holds_call_method holds_construct : settles.

Lemma holds_associated ty n ps b : holds (bind_associated ty n ps b) (fun _ => True).
Proof. unfold bind_associated. settles. Qed.

Lemma push_group_ok gk k v groups :
  settled gk = true -> settled k = true -> settled v = true -> groups_ok groups -> groups_ok (push_group ds gk (k, v) groups).
Proof.
  intros Hg Hk Hv H. induction H as [|[g held] groups [H1 H2] H IH]; simpl.
  - apply Forall_singleton. split; [done|]. simpl. by rewrite Hk, Hv.
  - case_match; constructor; try done. split; [done|]. simpl. rewrite forallb_app. simpl in *. by rewrite H2, Hk, Hv.
Qed.

Lemma holds_group f es : forall groups, settled (VCollection es) = true -> groups_ok groups ->
  holds (group_entries ds eval f es groups) some_groups_ok.
Proof.
  induction es as [|[k v] es IH]; intros groups Hes Hg; simpl; [intros s; by apply holds_ret|]. simpl in Hes.
  apply andb_true_iff in Hes as [[Hk Hv]%andb_true_iff Hes]. intros s.
  apply (holds_bind s _ _ value_ok); [apply holds_apply; by left|intros; frames|]. intros gk s' Hgk.
  destruct (is_pending gk) eqn:E; [destruct gk; try done; apply holds_ret; by apply pending_waits|].
  apply IH; [done|]. apply push_group_ok; auto. by apply not_pending_ok.
Qed.

Lemma groups_settled groups es :
  groups_ok groups -> mapM (fun '(k, held) => c ← collection ds held; Done (k, VCollection c)) groups = Done es ->
  settled (VCollection es) = true.
Proof.
  intros H E. apply settled_collection. revert E.
  apply (mapM_done _ (fun g => settled g.1 = true /\ settled (VCollection g.2) = true)); [|done].
  intros [k held] [k' v] [Hk Hh] E. apply bind_done in E as (c & ->%collection_done & E). injection E as -> <-. by split.
Qed.

Lemma holds_collection e why : holds (eval_collection eval e why) some_ok.
Proof. unfold eval_collection. settles. match goal with H : value_ok (VCollection _) |- _ => by destruct H as [?|[? _]] end. Qed.
#[local] Hint Resolve holds_associated holds_group holds_collection : settles.
#[local] Hint Resolve groups_settled extreme_ok sum_ok pair_entries_ok : okays.

Lemma groups_nil : groups_ok [].
Proof. constructor. Qed.

Lemma cell_value_ok s cell c : Settled s -> expect (cells s !! cell) = Done c -> value_ok (value c).
Proof. intros Hs H%expect_done. by eapply cell_of_ok. Qed.
#[local] Hint Resolve groups_nil : settles.
#[local] Hint Resolve cell_value_ok : okays.

Lemma holds_builtin b args : holds (call_builtin ds program eval b args) value_ok.
Proof.
  destruct args as [|a1 [|a2 [|? ?]]]; try (intros s; destruct b; apply holds_err); destruct b; try (intros s; apply holds_err);
    unfold call_builtin; settles.
Qed.
#[local] Hint Resolve holds_builtin : settles.

Lemma holds_call_expr f args : holds (call ds program eval exec block_value f args) value_ok.
Proof. unfold call. settles. Qed.

Lemma holds_compare ops : forall v es, value_ok v -> holds (compare_chain ds program eval v ops es) value_ok.
Proof.
  induction ops as [|op ops IH]; intros v [|e es] Hv; simpl; try (intros s; apply holds_ret; by left). intros s.
  apply (holds_bind s _ _ value_ok); [apply Heval|intros; frames|]. intros next s' Hn. apply holds_lift_bind. intros c Hc.
  assert (value_ok c) by (by apply (comparison_ok ds (traits program) op v next)). clear Hc. settles; by left.
Qed.

Lemma holds_bool_chain op es : forall b, holds (bool_chain eval op b es) value_ok.
Proof. induction es; intros b; simpl; settles; by left. Qed.
#[local] Hint Resolve holds_call_expr holds_compare holds_bool_chain : settles.

Lemma fields_ok r : Forall bind_ok r -> value_ok (if any_pending (map snd r) then VPending else VRecord r).
Proof.
  intros H. apply built_ok; [by apply Forall_map|]. intros Hs. apply settled_fields. by apply Forall_map in Hs.
Qed.

Lemma checked_neg_ok i v : ok_or (VInt <$> checked (- i)%Z) "-({i}) is not defined" = Done v -> value_ok v.
Proof. intros H%ok_or_done. destruct (checked _); simplify_eq/=. by left. Qed.

Lemma record_field_ok fs name why v : value_ok (VRecord fs) -> ok_or (field_of name fs) why = Done v -> value_ok v.
Proof. intros [H|[? _]] Hf%ok_or_done; [|done]. left. by eapply field_settled. Qed.

Lemma subscripted_ok t k ch v : value_ok t -> value_ok k -> any_pending [t; k] = false -> subscript ds t k ch = Done v -> value_ok v.
Proof. intros Ht Hk Hp. apply subscript_ok. apply none_pending in Hp; [|each]. by inversion Hp. Qed.
#[local] Hint Resolve checked_neg_ok record_field_ok subscripted_ok from_list_settled positions_settled nominal_value_ok : okays.

Lemma final_ok key v : finals program !! key = Some v -> value_ok v.
Proof. intros H. left. by apply (proj1 Hprog) in H. Qed.

(** A read of a channel that is not complete waits. *)
Lemma holds_wait key : holds (wait_on key) value_ok.
Proof.
  intros s He Hs. simpl in *. assert (Hw : w = true).
  { apply not_false_is_true. intros Hw. specialize (He Hw). simpl in He. set_solver. }
  split; [revert Hs; keeps|]. intros a [= <-]. by apply pending_ok.
Qed.
#[local] Hint Resolve holds_wait : settles.
#[local] Hint Resolve final_ok : okays.

Lemma holds_record fs : holds (mapM (fun f => lift (unqualified (rf_qualifier Expr f));; v ← eval (rf_value _ f); mret (rf_name _ f, v)) fs)
  (Forall bind_ok).
Proof.
  apply holds_map; [intros f; frames|]. intros f s. apply holds_lift_bind. intros _ _.
  apply (holds_bind s _ _ value_ok); [apply Heval|intros; frames|]. intros v s' Hv. by apply holds_ret.
Qed.

Lemma variant_ok tag v : value_ok v -> value_ok (if is_pending v then VPending else VVariant tag v).
Proof. intros Hv. destruct (is_pending v) eqn:E; [by destruct v|]. left. exact (not_pending_ok v Hv E). Qed.
#[local] Hint Resolve variant_ok : okays.

Lemma nominal_unit_ok q v : nominal_value q VUnit = Done v -> value_ok v.
Proof. by apply nominal_value_ok. Qed.
#[local] Hint Resolve holds_record : settles.
#[local] Hint Resolve nominal_unit_ok fields_ok : okays.

Lemma holds_eval_expr e : holds (eval_expr ds program eval exec block_value e) value_ok.
Proof.
  unfold eval_expr. destruct (node e) eqn:En; try (intros s; apply holds_err). all: settles.
Qed.

(** *** Statements *)

Lemma keyed_write_ok es i k k' v u : settled (VCollection es) = true -> settled u = true ->
  list_find (fun '(k, _) => value_eq ds k k') es = Some (i, (k, v)) -> settled (VCollection (<[i := (k, u)]> es)) = true.
Proof.
  rewrite !settled_collection. intros H Hu Hf. apply list_find_Some in Hf as (Hi & _ & _). apply Forall_insert; [done|].
  split; [|done]. by apply (Forall_lookup_1 _ _ _ _ H) in Hi as [? _].
Qed.

Lemma keyed_add_ok es k v : settled (VCollection es) = true -> settled k = true -> settled v = true ->
  settled (VCollection (es ++ [(k, v)])) = true.
Proof. rewrite !settled_collection, Forall_app. intros. split; [done|]. by apply Forall_singleton. Qed.

Lemma holds_mut_assign target a v : holds (exec_mut_assign ds eval target a v) (fun _ => True).
Proof.
  unfold exec_mut_assign. intros s. apply (holds_bind s _ _ value_ok); [apply Heval|intros; frames|]. intros x s1 Hx.
  destruct (node target) as [n|elts|tgt index|q|p]; try apply holds_err; [settles|].
  destruct (node tgt); try apply holds_err. apply (holds_bind s1 _ _ value_ok); [apply Heval|intros; frames|]. intros key s2 Hk.
  apply holds_get. intros Hs. cbv beta. destruct (mut_cell s2 n) as [cell|]; [|apply holds_err].
  apply holds_lift_bind. intros c Hc. assert (Hv : value_ok (value c)) by eauto with okays. cbv zeta.
  destruct (any_pending [key; x; value c]) eqn:Ep.
  - apply holds_write. eapply any_pending_waits; [|exact Ep]. each.
  - apply none_pending in Ep; [|each]. rewrite !Forall_cons in Ep. destruct Ep as (Ek & Ex & Ec & _).
    destruct (value c) as [| | | | | | | |es|]; try apply holds_err. apply holds_lift_bind. intros out Hout. apply holds_write.
    eapply collection_ok; [|exact Hout]. destruct (list_find _ es) as [[i [k u]]|] eqn:Ef.
    + by eapply keyed_write_ok.
    + by apply keyed_add_ok.
Qed.

Lemma holds_define_as name v : value_ok v -> holds (define_as name v) (fun _ => True).
Proof.
  intros Hv s. apply holds_get. intros Hs. cbv beta zeta. destruct (channel_of s name) as [key|]; [|by apply holds_name].
  apply holds_lift_bind. intros ch Hch%expect_done. pose proof (ok_channels _ Hs key ch Hch) as [Hf Hd].
  assert (Hset : forall d, value_ok d ->
    holds_at s (modify (fun s => with_channels (<[key := MkChannel (chan_name ch) (fed ch) (Some d) (sites ch) (calls_at ch)]> (channels s)) s)) (fun _ => True)).
  { intros d Hd'. apply holds_modify, set_channel_ok. split; [done|]. by intros ? [= <-]. }
  fold (speculates s). destruct (speculates s) eqn:Hp; simpl; [by apply Hset, pending_ok, (ok_speculating _ Hs)|].
  destruct (defined ch) as [d|] eqn:Ed; [destruct d|destruct (sites ch)]; try apply holds_err; auto.
Qed.
#[local] Hint Resolve holds_mut_assign holds_define_as : settles.

Lemma holds_define target v : holds (exec_define eval target v) (fun _ => True).
Proof. unfold exec_define. settles. Qed.

Lemma holds_iterate target body es : Forall entry_ok es -> holds (iterate exec target body es) opt_ok.
Proof. induction 1 as [|[k v] es [Hk Hv] H IH]; simpl; [intros s; by apply holds_ret|]. settles. Qed.

Lemma holds_watched target body es : Forall entry_ok es -> holds (iterate_watched exec target body es) opt_ok.
Proof.
  intros H s. unfold holds_at, iterate_watched.
  set (s0 := with_order_watches _ s). pose proof (holds_iterate target body es H s0) as Hi. unfold holds_at in Hi.
  destruct (iterate exec target body es s0) as [ran s1]. intros He Hs.
  assert (He1 : ends s1) by (destruct (order_watches s1), ran; try exact He; revert He; by case_match).
  destruct Hi as [Hs1 HQ]; [done|revert Hs; keeps|]. simpl in *.
  destruct (order_watches s1) as [|x ws]; [done|].
  assert (Hs2 : Settled (with_order_watches ws s1)) by (revert Hs1; keeps).
  destruct ran; try done. case_match; [done|]. split; [done|]. intros b [= <-]. by apply HQ.
Qed.
#[local] Hint Resolve holds_define holds_iterate holds_watched collection_entries : settles.

(** The entries of a list, in the order of their keys. *)
Lemma positioned_ok es ps :
  Forall entry_ok es -> mapM (fun '(k, v) => match k with VInt i => Some (i, (k, v)) | _ => None end) es = Some ps ->
  Forall entry_ok (map snd (sort_keys fst ps)).
Proof.
  intros H Hm. apply Forall_map. rewrite sort_keys_perm. revert Hm. 
  assert (G : forall ps, mapM (fun '(k, v) => match k with VInt i => Some (i, (k, v)) | _ => None end) es = Some ps -> Forall (fun p => entry_ok p.2) ps).
  { induction H as [|[k v] es He H IH]; intros qs Hq; simpl in Hq; [by injection Hq as <-|].
    destruct k; try done. destruct (mapM _ es) as [qs'|]; [|done]. injection Hq as <-. constructor; [done|]. by apply IH. }
  apply G.
Qed.

Lemma holds_for target iter body : holds (exec_for ds program eval exec block_value target iter body) opt_ok.
Proof.
  unfold exec_for. intros s. apply (holds_bind s _ _ value_ok); [apply holds_loop_source|intros; frames|]. intros v s1 Hv.
  destruct v as [| | | | | | | |es|]; try apply holds_err.
  - apply collection_entries in Hv. destruct (mapM _ es) as [ps|] eqn:Em.
    + apply holds_iterate. by eapply positioned_ok.
    + by apply holds_watched.
  - settles.
Qed.

Lemma holds_push_yield key v : value_ok key -> value_ok v -> holds (push_yield key v) (fun _ => True).
Proof.
  intros Hk Hv s. apply holds_get. intros Hs. apply holds_lift_bind. intros held Hh%expect_done. apply holds_modify. keeps.
  intros l [= <-]. apply Forall_app. split; [by apply (ok_yielded _ Hs)|]. apply Forall_singleton. split; [done|]. simpl.
  fold (speculates s). destruct (speculates s) eqn:E; [|done]. by apply pending_ok, (ok_speculating _ Hs).
Qed.
#[local] Hint Resolve holds_for holds_push_yield : settles.

Lemma holds_yield e : holds (exec_yield eval e) (fun _ => True).
Proof. unfold exec_yield. settles. Qed.

Lemma holds_in_block body : holds (in_block exec body) txn_ok.
Proof.
  intros s. unfold holds_at, in_block.
  assert (H : holds (scoped (exec_block exec body)) opt_ok) by (apply holds_scoped; [frames|apply holds_exec_block]).
  specialize (H s). unfold holds_at in H. destruct (scoped (exec_block exec body) s) as [o s1]. intros He Hs.
  assert (He1 : ends s1) by (destruct (txn s1), o; exact He). destruct H as [Hs1 _]; [done..|]. simpl in *.
  assert (Hs2 : Settled (with_txn None s1)) by (revert Hs1; by keeps).
  destruct (txn s1) as [f|] eqn:Ef; [|done]. destruct o; try done. split; [done|]. intros g [= <-]. by apply (ok_txn _ Hs1).
Qed.

Lemma commit_waited f s : waited_on (commit f s).2 = waited_on s.
Proof.
  unfold commit. case_match; [|case_match; [done|]]; unfold mbind, M_bind, modify, get; by rewrite contribute_all_waited.
Qed.

Lemma holds_with at_ b c body : holds (exec_with exec at_ b c body) (fun _ => True).
Proof.
  intros s. unfold exec_with. destruct b; [apply holds_err|]. destruct (negb _); [apply holds_err|]. apply holds_get. intros _.
  cbv beta. destruct (txn s); [apply holds_err|].
  apply holds_modify_bind; [by keeps; intros f [= <-]; split; [constructor|]|].
  apply (holds_bind_waited _ _ _ txn_ok); [apply holds_in_block| |].
  - intros f s'. by rewrite commit_waited.
  - intros f s' Hf. by apply holds_commit.
Qed.

Lemma holds_instance prefix ns defs : scope_ok ns -> holds (bind_instance prefix ns defs) (fun _ => True).
Proof.
  intros Hns. induction defs as [|def defs IH]; simpl; [intros s; by apply holds_ret|]. intros s.
  destruct (node def); try apply holds_err. apply (holds_bind s _ _ scopes_ok); [apply holds_captured| |].
  - intros a s'. apply framed_at_modify_bind; [apply frame_instances|]. frames.
  - intros env s' He. cbv zeta. set (f := MkFunction _ _ _).
    assert (Hf : function_ok f) by (by constructor).
    apply holds_modify_bind; [by keeps; intros n g [[<- <-]|[? ?]]%lookup_insert_Some; eauto|].
    eapply holds_bind; [by apply holds_name, function_slot_ok|intros; apply framed_instance|]. intros. apply IH.
Qed.

Lemma holds_impl ty defs : holds (bind_impl ty defs) (fun _ => True).
Proof. induction defs; simpl; settles. Qed.

Lemma instance_names_ok rs : scope_ok (instance_names rs).
Proof.
  induction rs as [|r rs IH]; [constructor|]. unfold instance_names. simpl. repeat case_match; simplify_eq; try done; constructor; [exact I|done].
Qed.

Lemma constructor_names_ok p v bs : value_ok v -> constructor_value_binds p v = Done bs -> Forall bind_ok bs.
Proof. apply constructor_value_binds_ok. Qed.

Lemma def_ok ps b rs env : scopes_ok env -> slot_ok (SlotFn (MkFunction ps b (instance_names rs :: env))).
Proof. intros H. apply fn_slot_ok. constructor; [apply instance_names_ok|done]. Qed.
#[local] Hint Resolve holds_yield holds_with holds_impl constructor_names_ok def_ok : settles.

Lemma opt_none : opt_ok None.
Proof. exact I. Qed.

Lemma holds_exec_stmt s : holds (exec_stmt ds program eval exec block_value s) opt_ok.
Proof.
  unfold exec_stmt. destruct (node s) eqn:En; try (intros s1; apply holds_err); try (intros s1; by apply holds_ret). all: settles.
  - apply holds_taken; auto using holds_exec_block, framed_exec_block, opt_none. intros s1. by apply holds_ret.
  - apply holds_chosen; auto using holds_exec_block, framed_exec_block, opt_none.
  - apply holds_instance, Forall_app. split; [|apply instance_names_ok].
    destruct (named (traits program) !! _) as [sc|] eqn:E; [by apply (proj2 Hprog) in E|constructor].
Qed.

(** A failure or a return that speculation drops. *)
Lemma holds_lost {A} s why (a : A) (Q : A -> Prop) : (Settled s -> Q a) -> holds_at s (lose why;; mret a) Q.
Proof.
  intros Ha He Hs. destruct (holds_lose why s) as [Hs1 _]; [|done|]; [|split; [done|intros ? [= <-]; auto]].
  unfold lose, modify in *. simpl in *. by destruct (lost s).
Qed.

Lemma lost_waited {A} s why (a : A) : waited_on ((lose why;; mret a) s).2 = waited_on s.
Proof. unfold lose, modify, mbind, M_bind. simpl. by destruct (lost s). Qed.

Lemma holds_eval_step e : holds (eval_step ds program eval exec block_value e) value_ok.
Proof.
  intros s. unfold holds_at, eval_step. pose proof (holds_eval_expr e s) as H. unfold holds_at in H.
  destruct (eval_expr _ _ _ _ _ e s) as [[v|why| |] s1]; try exact H. fold (speculates s1). simpl in H.
  destruct (speculates s1) eqn:E; [|intros He Hs; by destruct (H He Hs)].
  intros He Hs. destruct H as [Hs1 _]; [|done|]. { intros Hw. specialize (He Hw). by rewrite lost_waited in He. }
  apply holds_lost; auto. intros _. by apply pending_ok, (ok_speculating _ Hs1).
Qed.

Lemma holds_exec_step st : holds (exec_step ds program eval exec block_value st) opt_ok.
Proof.
  intros s. unfold holds_at, exec_step. pose proof (holds_exec_stmt st s) as H. unfold holds_at in H.
  destruct (exec_stmt _ _ _ _ _ st s) as [ran s1]. simpl in H. destruct (speculating s1 =? 0); [exact H|].
  assert (G : forall why, ends ((lose why;; mret (@None Value)) s1).2 -> Settled s ->
    Settled ((lose why;; mret (@None Value)) s1).2 /\ forall a, ((lose why;; mret None) s1).1 = Done a -> opt_ok a).
  { intros why He Hs. destruct H as [Hs1 _]; [|done|by apply holds_lost].
    intros Hw. specialize (He Hw). by rewrite lost_waited in He. }
  destruct ran as [[v|]|why| |]; try exact H; [|apply G]. destruct (_ <? _); [apply G|exact H].
Qed.
End Methods.

(** ** The knot *)

Lemma knot_settles ds program fuel : program_ok program ->
  (forall e, holds (eval_at ds program fuel e) value_ok) /\ (forall st, holds (exec_at ds program fuel st) opt_ok) /\
  (forall b u, holds (block_value_at ds program fuel b u) value_ok).
Proof.
  intros Hp. induction fuel as [|fuel (He & Hs & Hb)]; [by split_and!; intros * s; apply holds_lift|].
  destruct (knot_framed ds program fuel) as (Fe & Fs & Fb). split; [|split]; intros; simpl.
  - by apply holds_eval_step.
  - by apply holds_exec_step.
  - by apply holds_block_value.
Qed.

Lemma new_interp_ok : Settled new_interp.
Proof. split; simpl; try done; repeat constructor. Qed.

(** A pass keeps the state settled, or waits. *)
Lemma pass_ok ds program fuel body : program_ok program -> ends (pass ds program fuel body).2 ->
  Settled (pass ds program fuel body).2.
Proof.
  intros Hp He. destruct (knot_settles ds program fuel Hp) as (_ & Hs & _). destruct (knot_framed ds program fuel) as (_ & Fs & _).
  by apply (holds_exec_block _ Fs Hs body new_interp He), new_interp_ok.
Qed.
End Settled.

(** ** The answer *)

Lemma value_ok_false v : value_ok false v -> settled v = true.
Proof. by intros [?|[_ ?]]. Qed.

(** The contents of a channel with no contribution pending. *)
Lemma channel_value_settled ds c v : Forall (fun x : Site * Value * Value => settled x.1.2 = true /\ settled x.2 = true) (fed c) ->
  (forall v, defined c = Some v -> settled v = true) -> channel_value ds c = Done v -> settled v = true.
Proof.
  intros Hf Hd. unfold channel_value. destruct (defined c) as [d|]; [intros [= <-]; by apply Hd|].
  intros H. apply bind_done in H as (es & He & H). apply fmap_done in H as (c' & Hc & ->). apply collection_done in Hc as ->.
  apply settled_collection. revert He. apply (mapM_done _ (fun x => settled x.1.2 = true /\ settled x.2 = true)); [|done].
  intros [[st k] x] [k' x'] [Hk Hx]. simpl in *. case_match; [|by intros [= <- <-]].
  case_match; [|done]. case_match. by intros [= <- <-].
Qed.

Lemma complete_settled w ds c v : channel_ok w c -> complete ds c = Some (Done v) -> settled v = true.
Proof.
  intros [Hf Hd]. unfold complete. case_match eqn:E; [done|]. intros [= H]. apply orb_false_iff in E as [Ed Ef].
  revert H. apply channel_value_settled.
  - apply Forall_forall. intros [[st k] x] Hx. destruct (proj1 (Forall_forall _ _) Hf _ Hx) as [Hk Hv]. simpl in *.
    assert (G : is_pending k || is_pending x = false).
    { apply not_true_is_false. intros G. rewrite <- not_true_iff_false in Ef. apply Ef, existsb_exists.
      exists (st, k, x). split; [by apply list_elem_of_In|done]. }
    apply orb_false_iff in G as [Gk Gx]. split; by eapply not_pending_ok.
  - intros u Hu. eapply not_pending_ok; [by apply Hd|]. rewrite Hu in Ed. by destruct u.
Qed.

(** [channels_in_order] lists the channels of the state. *)
Lemma in_order_elem s key c : (key, c) ∈ channels_in_order s -> channels s !! key = Some c.
Proof. unfold channels_in_order. intros H. apply elem_of_map_to_list. by rewrite sort_keys_perm in H. Qed.

(** What a fold that may fail keeps of its accumulator. *)
Lemma foldl_done {A B} (f : Res B -> A -> Res B) (P : B -> Prop) l :
  (forall r x b, x ∈ l -> f r x = Done b -> exists b0, r = Done b0 /\ (P b0 -> P b)) ->
  forall r b, (forall b0, r = Done b0 -> P b0) -> foldl f r l = Done b -> P b.
Proof.
  induction l as [|x l IH]; intros Hf r b Hr H; simpl in H; [by apply Hr|].
  eapply IH; [intros; eapply Hf; [by right|done]| |exact H]. intros b0 Hb0.
  destruct (Hf r x b0) as (b1 & -> & Hb1); [by left|done|]. by apply Hb1, Hr.
Qed.

Lemma observations_settled ds s out : Settled false s -> observations ds s = Done out ->
  map_Forall (fun _ v => settled v = true) out.
Proof.
  intros Hs. unfold observations. apply foldl_done; [|by intros ? [= <-]; apply map_Forall_empty].
  intros r [key c] b Hin%in_order_elem H. apply bind_done in H as (b0 & -> & H). exists b0. split; [done|]. intros Hb0.
  case_decide; [|by injection H as <-]. apply bind_done in H as (v & Hv & H). injection H as <-.
  apply map_Forall_insert_2; [|done]. destruct (ok_channels _ _ Hs key c Hin) as [Hf Hd]. revert Hv. apply channel_value_settled.
  - eapply Forall_impl; [exact Hf|]. intros x [Hk Hx]. by split; apply value_ok_false.
  - intros u Hu. by apply value_ok_false, Hd.
Qed.

Lemma completed_settled w ds fs s out : Settled w s -> completed ds fs s = Done out -> Forall (fun x => settled x.2 = true) out.
Proof.
  intros Hs. unfold completed. apply foldl_done; [|by intros ? [= <-]; constructor].
  intros r [key c] b Hin%in_order_elem H. apply bind_done in H as (b0 & -> & H). exists b0. split; [done|]. intros Hb0.
  destruct (fs !! key); [by injection H as <-|]. destruct (complete ds c) as [v|] eqn:E; [|by injection H as <-].
  apply bind_done in H as (u & -> & H). injection H as <-. apply Forall_app. split; [done|]. apply Forall_singleton.
  eapply complete_settled; [|exact E]. by apply (ok_channels _ _ Hs key c).
Qed.

(** Finals of a pass join those of the passes before it. *)
Lemma finals_ok w p done : program_ok w p -> Forall (fun x : string * Value => settled x.2 = true) done ->
  program_ok w (MkProgram (feed_sites p) (list_to_map done ∪ finals p) (types p) (traits p)).
Proof.
  intros [Hf Hn] Hd. split; [|done]. simpl. intros key v [H|[_ H]]%lookup_union_Some_raw; [|by apply Hf in H].
  apply elem_of_list_to_map_2 in H. by apply (proj1 (Forall_forall _ _) Hd) in H.
Qed.

Lemma run_passes_settled ds fuel body passes : forall p out, (forall w, program_ok w p) ->
  run_passes ds passes fuel p body = Done out -> map_Forall (fun _ v => settled v = true) out.
Proof.
  induction passes as [|passes IH]; intros p out Hp H; simpl in H; [done|].
  pose proof (pass_ok true ds p fuel body (Hp true)) as Ht. pose proof (pass_ok false ds p fuel body (Hp false)) as Hf.
  destruct (pass ds p fuel body) as [[r|why| |] s]; simpl in *; try done. case_decide as Hw.
  - eapply observations_settled; [|exact H]. apply Hf. by intros _.
  - destruct (lost s); [done|]. apply bind_done in H as (done & Hd & H).
    apply completed_settled with (w := true) in Hd; [|by apply Ht]. destruct done as [|x done]; [done|].
    eapply IH; [|exact H]. intros w. by apply finals_ok.
Qed.

(** Requirements bind instances. *)
Lemma collected_names_ok w body t sc : named (collect_traits body) !! t = Some sc -> scope_ok w sc.
Proof.
  unfold collect_traits. cbv zeta. cbn [named].
  assert (G : forall decls (m : gmap string Scope), (forall t sc, m !! t = Some sc -> scope_ok w sc) ->
    forall t sc, foldl (fun m d => <[node (td_name Expr d) := instance_names (td_requires Expr d)]> m) m decls !! t = Some sc ->
      scope_ok w sc).
  { clear. induction decls as [|d decls IH]; intros m Hm; simpl; [done|]. apply IH.
    intros t sc [[_ <-]|[_ H]]%lookup_insert_Some; [apply instance_names_ok|eauto]. }
  apply G. intros t' sc' H. by rewrite lookup_empty in H.
Qed.

Lemma run_settled ds passes fuel m out : run ds passes fuel m = Done out -> map_Forall (fun _ v => settled v = true) out.
Proof.
  unfold run. cbv zeta. intros H. apply bind_done in H as (feeds & _ & H). revert H. apply run_passes_settled. intros w.
  split; simpl; [intros key v H; by rewrite lookup_empty in H|]. intros t sc. apply collected_names_ok.
Qed.
