(* ===== verification/InterpFuel.v ===== *)
(** * The fuel of the reference interpreter ([chl-interp/src/eval.rs])

    The recursion of the interpreter is on fuel.  [below m m'] says that where [m] does not run
    out, [m'] does exactly what it does.  Every method keeps it, so more fuel never changes an
    answer: the answer of [run] is one of the program, not of the fuel.  And where the channels a
    program opens are finitely many, [run] needs one pass for each and one more. *)

From stdpp Require Import list strings gmap.
From S2P Require Import Prelude Ordered Tokens Syntax InterpValues InterpText Interp InterpFrames InterpSettled.
Set Warnings "-register-all,-clear-no-such-hyp".
Local Open Scope nat_scope.

Definition below_at {A} (s : Interp) (m m' : M A) : Prop := (m s).1 = Exhausted \/ m s = m' s.
Definition below {A} (m m' : M A) : Prop := forall s, below_at s m m'.

Section Rules.
Context {A B : Type}.

Lemma below_at_refl s (m : M A) : below_at s m m.
Proof. by right. Qed.

Lemma below_at_bind s (m m' : M A) (k k' : A -> M B) :
  below_at s m m' -> (forall a s', below_at s' (k a) (k' a)) -> below_at s (m ≫= k) (m' ≫= k').
Proof.
  unfold below_at, mbind, M_bind. intros [H|H] Hk.
  - left. destruct (m s) as [[] s1]; simpl in *; done.
  - rewrite <- H. destruct (m s) as [[] s1]; simpl; auto.
Qed.

Lemma below_finally (m m' : M A) enter leave :
  below m m' -> below (modify enter;; finally m leave) (modify enter;; finally m' leave).
Proof.
  intros Hm s. unfold below_at, finally, mbind, M_bind, modify. destruct (Hm (enter s)) as [H|H].
  - left. by destruct (m (enter s)).
  - right. by rewrite H.
Qed.
End Rules.

Lemma below_map {A B} (f f' : A -> M B) l : (forall a, below (f a) (f' a)) -> below (mapM f l) (mapM f' l).
Proof.
  intros Hf. induction l as [|a l IH]; intros s; simpl; [apply below_at_refl|].
  apply below_at_bind; [apply Hf|]. intros b s1. apply below_at_bind; [apply IH|]. intros. apply below_at_refl.
Qed.

Lemma below_each f f' es : (forall k v, below (f k v) (f' k v)) -> below (each_entry f es) (each_entry f' es).
Proof.
  intros Hf. induction es as [|[k v] es IH]; intros s; simpl; [apply below_at_refl|].
  apply below_at_bind; [apply Hf|]. intros b s1. apply below_at_bind; [apply IH|]. intros. apply below_at_refl.
Qed.

(** ** The [lifts] tactic *)

Create HintDb below.

Ltac lifts_step :=
  cbv beta zeta;
  match goal with
  | |- below_at _ ?m ?m => apply below_at_refl
  | |- below_at _ (scoped _) _ => apply below_finally
  | |- below_at _ (at_place _ _ _ _) _ => apply below_finally
  | |- below_at _ (at_position _ _ _) _ => apply below_finally
  | |- below_at _ (at_call _ _) _ => apply below_at_bind; [|intros ? ?]
  | |- below_at _ (speculate _) _ => apply below_finally
  | |- below_at _ (under_key _ _) _ => apply below_finally
  | |- below_at _ (modify _ ≫= (fun _ => finally _ _)) _ => apply below_finally
  | |- below_at _ (mapM _ _) _ => apply below_map; intros ?
  | |- below_at _ (each_entry _ _) _ => apply below_each; intros ? ?
  | |- below_at _ (_ ≫= _) _ => apply below_at_bind; [|intros ? ?]
  | |- below_at _ (match ?x with _ => _ end) _ => destruct x
  | H : context [below _ _] |- below_at _ _ _ => solve [apply H]
  | |- below_at ?s ?m ?m' => apply (fun H : below m m' => H s); solve [auto with below]
  | |- below _ _ => solve [auto with below]
  | |- below _ _ => intros ?
  end.
Ltac lifts := repeat lifts_step.

Section Handlers.
Context (ds : string -> string) (program : Program)
  (eval eval' : Spanned Expr -> M Value) (exec exec' : Spanned Stmt -> M (option Value))
  (block_value block_value' : list (Spanned Stmt) -> bool -> M Value)
  (Fexec : forall s, framed (exec s))
  (Heval : forall e, below (eval e) (eval' e)) (Hexec : forall s, below (exec s) (exec' s))
  (Hblock : forall b u, below (block_value b u) (block_value' b u)).

Lemma below_eval_each es : below (eval_each eval es) (eval_each eval' es).
Proof. induction es; simpl; lifts. Qed.

Lemma below_exec_block stmts : below (exec_block exec stmts) (exec_block exec' stmts).
Proof. induction stmts; simpl; lifts. Qed.
#[local] Hint Resolve below_eval_each below_exec_block : below.

(** The frame says that a generator still collects. *)
Lemma below_generator body : below (run_generator ds exec body) (run_generator ds exec' body).
Proof.
  intros s. unfold below_at, run_generator. set (s0 := with_loop_keys [] _).
  pose proof (framed_exec_block exec Fexec body s0) as F. unfold framed_at in F. apply frame_yielded in F.
  destruct (below_exec_block body s0) as [H|H]; [|right; by rewrite H].
  left. destruct (exec_block exec body s0) as [ran s1]. simpl in H, F. subst ran. by destruct (yielded s1).
Qed.

Lemma below_run_call f ps : below (run_call ds exec block_value f ps) (run_call ds exec' block_value' f ps).
Proof.
  intros s. unfold below_at, run_call. set (s0 := with_speculating_at_call _ (with_scopes (ps :: _) s)).
  assert (G : forall m m' : M Value, below m m' ->
    let out (r : Res Value * Interp) := let '(r, s1) := r in
      (r, with_speculating_at_call (speculating_at_call s) (with_scopes (scopes s) s1)) in
    (out (m s0)).1 = Exhausted \/ out (m s0) = out (m' s0)).
  { intros m m' Hm out. destruct (Hm s0) as [H|H]; [left|right; by rewrite H]. by destruct (m s0). }
  destruct (contains_yield _); apply G; [apply below_generator|apply Hblock].
Qed.
#[local] Hint Resolve below_run_call : below.

Lemma below_call_with_values f vs : below (call_with_values ds exec block_value f vs) (call_with_values ds exec' block_value' f vs).
Proof. unfold call_with_values. lifts. Qed.
#[local] Hint Resolve below_call_with_values : below.

Lemma below_dispatch t f vs : below (dispatch ds program exec block_value t f vs) (dispatch ds program exec' block_value' t f vs).
Proof. unfold dispatch. lifts. Qed.
#[local] Hint Resolve below_dispatch : below.

Lemma below_arithmetic op l r : below (arithmetic ds program exec block_value op l r) (arithmetic ds program exec' block_value' op l r).
Proof. unfold arithmetic. lifts. Qed.

Lemma below_loop_source e :
  below (eval_loop_source ds program eval exec block_value e) (eval_loop_source ds program eval' exec' block_value' e).
Proof. unfold eval_loop_source. lifts. Qed.

Lemma below_binding_of e : below (binding_of program eval e) (binding_of program eval' e).
Proof. unfold binding_of. lifts. Qed.

Lemma below_apply f v : below (apply eval f v) (apply eval' f v).
Proof. unfold apply. lifts. Qed.
#[local] Hint Resolve below_arithmetic below_loop_source below_binding_of below_apply : below.

Lemma below_comprehend cs : forall e keys, below (comprehend ds program eval exec block_value cs e keys)
  (comprehend ds program eval' exec' block_value' cs e keys).
Proof. induction cs as [|[target iter|guard] cs IH]; intros e keys; simpl; lifts. Qed.
#[local] Hint Resolve below_comprehend : below.

Lemma below_feed target v : below (feed eval target v) (feed eval' target v).
Proof. unfold feed. lifts. Qed.

Lemma below_select bs eb : below (select_branch eval bs eb) (select_branch eval' bs eb).
Proof. induction bs; simpl; lifts. Qed.

Lemma below_match_arm e arms : below (match_arm eval e arms) (match_arm eval' e arms).
Proof. unfold match_arm. lifts. Qed.
#[local] Hint Resolve below_feed below_select below_match_arm : below.

Lemma below_undecided {A} (run run' : list (Spanned Stmt) -> M A) l :
  (forall b, below (run b) (run' b)) -> below (run_undecided run l) (run_undecided run' l).
Proof. intros Hrun. induction l as [|[bound body] l IH]; simpl; lifts. Qed.

Lemma below_taken {A} (run run' : list (Spanned Stmt) -> M A) nothing u t :
  (forall b, below (run b) (run' b)) -> below (run_taken run nothing u t) (run_taken run' nothing u t).
Proof. intros Hrun. destruct t; simpl; lifts. by apply below_undecided. Qed.

Lemma below_chosen {A} (run run' : list (Spanned Stmt) -> M A) u c :
  (forall b, below (run b) (run' b)) -> below (run_chosen run u c) (run_chosen run' u c).
Proof. intros Hrun. destruct c; simpl; lifts. by apply below_undecided. Qed.
#[local] Hint Resolve below_taken below_chosen : below.

Lemma below_branch_value s u : below (branch_value eval block_value s u) (branch_value eval' block_value' s u).
Proof. unfold branch_value. lifts. Qed.
#[local] Hint Resolve below_branch_value : below.

Lemma below_block_value body u :
  below (block_value_step eval exec block_value body u) (block_value_step eval' exec' block_value' body u).
Proof. unfold block_value_step. lifts. Qed.

Lemma below_bind_args ps : forall args, below (bind_args program eval ps args) (bind_args program eval' ps args).
Proof. induction ps as [|[p r] ps IH]; intros [|a args]; simpl; lifts. Qed.
#[local] Hint Resolve below_bind_args : below.

Lemma below_call_user f args :
  below (call_user ds program eval exec block_value f args) (call_user ds program eval' exec' block_value' f args).
Proof. unfold call_user. lifts. Qed.
#[local] Hint Resolve below_call_user : below.

Lemma below_call_method r m args :
  below (call_method ds program eval exec block_value r m args) (call_method ds program eval' exec' block_value' r m args).
Proof. unfold call_method. lifts. Qed.

Lemma below_construct q args :
  below (construct ds program eval exec block_value q args) (construct ds program eval' exec' block_value' q args).
Proof. unfold construct. lifts. Qed.

Lemma below_group f es : forall groups, below (group_entries ds eval f es groups) (group_entries ds eval' f es groups).
Proof. induction es as [|[k v] es IH]; intros groups; simpl; lifts. Qed.
#[local] Hint Resolve below_call_method below_construct below_group : below.

Lemma below_builtin b args : below (call_builtin ds program eval b args) (call_builtin ds program eval' b args).
Proof. unfold call_builtin, eval_collection. lifts. Qed.
#[local] Hint Resolve below_builtin : below.

Lemma below_call_expr f args :
  below (call ds program eval exec block_value f args) (call ds program eval' exec' block_value' f args).
Proof. unfold call. lifts. Qed.

Lemma below_compare ops : forall v es, below (compare_chain ds program eval v ops es) (compare_chain ds program eval' v ops es).
Proof. induction ops; intros v [|e es]; simpl; lifts. Qed.

Lemma below_bool_chain op es : forall b, below (bool_chain eval op b es) (bool_chain eval' op b es).
Proof. induction es; intros b; simpl; lifts. Qed.
#[local] Hint Resolve below_call_expr below_compare below_bool_chain : below.

Lemma below_eval_expr e :
  below (eval_expr ds program eval exec block_value e) (eval_expr ds program eval' exec' block_value' e).
Proof. unfold eval_expr. lifts. Qed.

Lemma below_mut_assign target a v : below (exec_mut_assign ds eval target a v) (exec_mut_assign ds eval' target a v).
Proof. unfold exec_mut_assign. lifts. Qed.

Lemma below_define target v : below (exec_define eval target v) (exec_define eval' target v).
Proof. unfold exec_define. lifts. Qed.

Lemma below_iterate target body es : below (iterate exec target body es) (iterate exec' target body es).
Proof. induction es as [|[k v] es IH]; simpl; lifts. Qed.

Lemma below_watched target body es : below (iterate_watched exec target body es) (iterate_watched exec' target body es).
Proof.
  intros s. unfold below_at, iterate_watched. set (s0 := with_order_watches _ s).
  pose proof (framed_iterate exec Fexec target body es s0) as F. unfold framed_at in F. apply frame_watches in F. simpl in F.
  destruct (below_iterate target body es s0) as [H|H]; [|right; by rewrite H].
  left. destruct (iterate exec target body es s0) as [ran s1]. simpl in H, F. subst ran.
  destruct (order_watches s1); [by inversion F|done].
Qed.
#[local] Hint Resolve below_mut_assign below_define below_iterate below_watched : below.

Lemma below_for target iter body :
  below (exec_for ds program eval exec block_value target iter body) (exec_for ds program eval' exec' block_value' target iter body).
Proof. unfold exec_for. lifts. Qed.

Lemma below_yield e : below (exec_yield eval e) (exec_yield eval' e).
Proof. unfold exec_yield. lifts. Qed.

(** The frame says that the block is still in progress. *)
Lemma below_in_block body : forall s, txn s <> None -> below_at s (in_block exec body) (in_block exec' body).
Proof.
  intros s Ht. unfold below_at, in_block.
  assert (F : framed (scoped (exec_block exec body))) by (by apply framed_scoped, framed_exec_block).
  specialize (F s). unfold framed_at in F. apply frame_txn in F.
  assert (G : below (scoped (exec_block exec body)) (scoped (exec_block exec' body))) by lifts.
  destruct (G s) as [H|H]; [|right; by rewrite H].
  left. destruct (scoped (exec_block exec body) s) as [o s1]. simpl in H, F. subst o.
  destruct (txn s), (txn s1); done.
Qed.

Lemma below_with at_ b c body : below (exec_with exec at_ b c body) (exec_with exec' at_ b c body).
Proof.
  unfold exec_with. destruct b; [lifts|]. destruct (negb _); [lifts|]. intros s. apply below_at_bind; [lifts|].
  intros s0 s1. destruct (txn s0); [lifts|].
  set (k := fun m : M TxnFrame => frame ← m; commit frame).
  change (below_at s1 (modify (with_txn (Some (MkTxnFrame at_ false (written_names body) [] false)));; k (in_block exec body))
    (modify (with_txn (Some (MkTxnFrame at_ false (written_names body) [] false)));; k (in_block exec' body))).
  unfold k. clear k. unfold below_at, mbind at 1 3 5, M_bind at 1 3 5, modify.
  match goal with |- (?l ?s).1 = _ \/ _ = ?r ?s => change (below_at s l r) end.
  apply below_at_bind; [by apply below_in_block|]. intros. apply below_at_refl.
Qed.
#[local] Hint Resolve below_for below_yield below_with : below.

Lemma below_exec_stmt st :
  below (exec_stmt ds program eval exec block_value st) (exec_stmt ds program eval' exec' block_value' st).
Proof. unfold exec_stmt. lifts. Qed.

Lemma below_eval_step e :
  below (eval_step ds program eval exec block_value e) (eval_step ds program eval' exec' block_value' e).
Proof.
  intros s. unfold below_at, eval_step. destruct (below_eval_expr e s) as [H|H]; [left|right; by rewrite H].
  destruct (eval_expr _ _ _ _ _ e s) as [r s1]. simpl in H. by subst r.
Qed.

Lemma below_exec_step st :
  below (exec_step ds program eval exec block_value st) (exec_step ds program eval' exec' block_value' st).
Proof.
  intros s. unfold below_at, exec_step. destruct (below_exec_stmt st s) as [H|H]; [left|right; by rewrite H].
  destruct (exec_stmt _ _ _ _ _ st s) as [r s1]. simpl in H. subst r. by destruct (speculating s1 =? 0).
Qed.
End Handlers.

(** ** More fuel *)

Lemma knot_below ds program fuel :
  (forall e, below (eval_at ds program fuel e) (eval_at ds program (S fuel) e)) /\
  (forall s, below (exec_at ds program fuel s) (exec_at ds program (S fuel) s)) /\
  (forall b u, below (block_value_at ds program fuel b u) (block_value_at ds program (S fuel) b u)).
Proof.
  induction fuel as [|fuel (He & Hs & Hb)]; [by split_and!; intros * s; left|].
  destruct (knot_framed ds program fuel) as (_ & Fs & _). split; [|split]; intros.
  - by apply (below_eval_step ds program (eval_at ds program fuel) (eval_at ds program (S fuel))).
  - by apply (below_exec_step ds program (eval_at ds program fuel) (eval_at ds program (S fuel))).
  - by apply (below_block_value (eval_at ds program fuel) (eval_at ds program (S fuel))).
Qed.

Lemma pass_more ds program fuel more body : fuel <= more ->
  (pass ds program fuel body).1 <> Exhausted -> pass ds program more body = pass ds program fuel body.
Proof.
  intros Hle Hx. induction Hle as [|more Hle IH]; [done|]. rewrite <- IH. symmetry.
  destruct (knot_below ds program more) as (_ & Hs & _).
  destruct (below_exec_block _ _ Hs body new_interp) as [H|H]; [|exact H].
  change (exec_block (exec_at ds program more) body new_interp) with (pass ds program more body) in H. by rewrite IH in H.
Qed.

(** A pass that answers answers alike at more fuel, and so do the passes. *)
Lemma run_passes_more ds fuel more body : fuel <= more -> forall passes longer p, passes <= longer ->
  run_passes ds passes fuel p body <> Exhausted -> run_passes ds longer more p body = run_passes ds passes fuel p body.
Proof.
  intros Hf. induction passes as [|passes IH]; intros longer p Hle Hx; [done|]. destruct longer as [|longer]; [lia|].
  simpl in *. rewrite (pass_more ds p fuel more body Hf); [|by destruct (pass ds p fuel body) as [[] ?]].
  destruct (pass ds p fuel body) as [[r|why| |] s]; try done. case_decide; [done|]. destruct (lost s); [done|].
  destruct (completed ds (finals p) s) as [done| | |]; try reflexivity. destruct done; [done|]. apply IH; [lia|exact Hx].
Qed.

Lemma foldl_more {A B} (g g' : A -> B -> Res B) l :
  (forall x b, g x b = Exhausted \/ g' x b = g x b) ->
  forall acc, let run g := foldl (fun acc x => b ← acc; g x b) acc l in run g = Exhausted \/ run g' = run g.
Proof.
  intros Hg. induction l as [|x l IH]; intros acc; simpl in *; [by right|].
  destruct acc as [b| | |]; simpl; try apply IH.
  destruct (Hg x b) as [H|H]; [|by rewrite H; apply IH].
  left. rewrite H. clear. by induction l.
Qed.

Lemma collect_more fuel : forall more body local feeds, fuel <= more ->
  collect_function_feed_sites fuel body local feeds = Exhausted \/
  collect_function_feed_sites more body local feeds = collect_function_feed_sites fuel body local feeds.
Proof.
  induction fuel as [|fuel IH]; intros more body local feeds Hle; [by left|]. destruct more as [|more]; [lia|].
  simpl. apply (foldl_more (fun s feeds => _) (fun s feeds => _)). intros st fs.
  destruct (node st); try (by right). apply IH. lia.
Qed.

(** The answer of [run], an error included, is the same at more fuel and passes. *)
Lemma run_more ds passes longer fuel more m : passes <= longer -> fuel <= more ->
  run ds passes fuel m <> Exhausted -> run ds longer more m = run ds passes fuel m.
Proof.
  intros Hp Hf. unfold run, collect_feed_sites. cbv zeta. destruct (collect_more fuel more (module_body m) None ∅ Hf) as [->| ->]; [done|].
  destruct (collect_function_feed_sites _ _ _ _); simpl; try done. by apply run_passes_more.
Qed.

(** ** Enough passes *)

(** The program of a later pass: the channels a pass completed are final in the next. *)
Inductive later ds (fuel : nat) (body : list (Spanned Stmt)) (p : Program) : Program -> Prop :=
  | later_here : later ds fuel body p p
  | later_next q r s done :
      later ds fuel body p q -> pass ds q fuel body = (Done r, s) -> completed ds (finals q) s = Done done ->
      later ds fuel body p (MkProgram (feed_sites q) (list_to_map done ∪ finals q) (types q) (traits q)).

Lemma later_trans ds fuel body p q r : later ds fuel body p q -> later ds fuel body q r -> later ds fuel body p r.
Proof. intros Hpq. induction 1; [done|]. by eapply later_next. Qed.

(** A pass completes channels that it opened, and that were not final. *)
Lemma completed_new ds fs s out : completed ds fs s = Done out ->
  Forall (fun x => fs !! x.1 = None /\ x.1 ∈ dom (channels s)) out.
Proof.
  unfold completed. apply foldl_done; [|by intros ? [= <-]; constructor].
  intros r [key c] b Hin%in_order_elem H. apply bind_done in H as (b0 & -> & H). exists b0. split; [done|]. intros Hb0.
  destruct (fs !! key) eqn:Ef; [by injection H as <-|]. destruct (complete ds c); [|by injection H as <-].
  apply bind_done in H as (u & -> & H). injection H as <-. apply Forall_app. split; [done|]. apply Forall_singleton.
  split; [done|]. apply elem_of_dom. by exists c.
Qed.

(** *** Nothing of an answer runs out *)

Lemma mapM_answers {A B} (f : A -> Res B) l : (forall a, f a <> Exhausted) -> mapM f l <> Exhausted.
Proof.
  intros Hf. induction l as [|a l IH]; simpl; [done|]. specialize (Hf a). destruct (f a); simpl; try done.
  destruct (mapM f l); simpl; done.
Qed.

Lemma channel_value_answers ds c : channel_value ds c <> Exhausted.
Proof.
  unfold channel_value. destruct (defined c); [done|].
  destruct (mapM _ (fed c)) as [es| | |] eqn:E; simpl; try done.
  - unfold collection. destruct (try_from_entries _ _); simpl; done.
  - exfalso. revert E. apply mapM_answers. intros [[st k] v]. repeat case_match; done.
Qed.

Lemma foldl_answers {A B} (f : Res B -> A -> Res B) l : (forall acc x, acc <> Exhausted -> f acc x <> Exhausted) ->
  forall acc, acc <> Exhausted -> foldl f acc l <> Exhausted.
Proof. intros Hf. induction l as [|x l IH]; intros acc Ha; simpl; auto. Qed.

Lemma observations_answers ds s : observations ds s <> Exhausted.
Proof.
  unfold observations. apply foldl_answers; [|done]. intros [out| | |] [key c] Ha; simpl; try done. case_decide; [|done].
  pose proof (channel_value_answers ds c). by destruct (channel_value ds c).
Qed.

Lemma completed_answers ds fs s : completed ds fs s <> Exhausted.
Proof.
  unfold completed. apply foldl_answers; [|done]. intros [out| | |] [key c] Ha; simpl; try done.
  destruct (fs !! key); [done|]. unfold complete. case_match; [|done].
  pose proof (channel_value_answers ds c). case_match; simplify_eq. by destruct (channel_value ds c).
Qed.

(** Each pass that waits makes a channel final, so there are no more passes than channels, and one. *)
Lemma enough_passes ds fuel body (K : gset string) passes : forall p,
  (forall q, later ds fuel body p q -> (pass ds q fuel body).1 <> Exhausted /\ dom (channels (pass ds q fuel body).2) ⊆ K) ->
  size (K ∖ dom (finals p)) < passes -> run_passes ds passes fuel p body <> Exhausted.
Proof.
  induction passes as [|passes IH]; intros p Hp Hs; [lia|]. simpl. destruct (Hp p (later_here _ _ _ _)) as [Hx HK].
  destruct (pass ds p fuel body) as [[r|why| |] s] eqn:Ep; simpl in *; try done.
  case_decide; [apply observations_answers|]. destruct (lost s); [done|].
  destruct (completed ds (finals p) s) as [fin| | |] eqn:Ec;
    [|discriminate|discriminate|by destruct (completed_answers ds (finals p) s)]. unfold mbind, res_bind.
  destruct fin as [|[key v] rest] eqn:Ed; [discriminate|]. rewrite <- Ed in *. apply IH.
  - intros q Hq. apply Hp. eapply later_trans; [|exact Hq]. eapply later_next; [apply later_here|done|done].
  - simpl. apply completed_new in Ec. rewrite Ed in Ec. apply Forall_cons in Ec as [[Hn Hk] _]. simpl in Hn, Hk.
    eapply Nat.lt_le_trans; [|apply Nat.lt_succ_r, Hs]. apply subset_size.
    assert (Hk' : key ∈ dom (list_to_map fin : gmap string Value)) by (rewrite Ed; simpl; set_solver).
    rewrite dom_union. apply not_elem_of_dom in Hn. split; [set_solver|]. intros Hsub.
    assert (key ∈ K ∖ dom (finals p)) as Hin by set_solver. apply Hsub in Hin. set_solver.
Qed.
