(* ===== verification/InterpFacts.v ===== *)
(** * Facts of the reference interpreter's values and operators ([chl-interp/src/value.rs], [eval.rs])

    The laws of the orders that canonicalise values, equality of values, duplicate keys, and
    checked arithmetic. *)

From Stdlib Require Import Sorting.Sorted.
From stdpp Require Import list strings pretty.
From S2P Require Import Prelude ScalarOps Tokens Ordered Syntax InterpValues InterpText Interp InterpFrames InterpSettled.
Set Warnings "-register-all,-clear-no-such-hyp".
Local Open Scope Z_scope.

(** ** The orders *)

#[export] Instance Z_ord_laws : OrdLaws Z.
Proof.
  split; unfold cmp, Z_ord; intros.
  - apply Z.compare_eq_iff.
  - apply Z.compare_antisym.
  - rewrite Z.compare_lt_iff in *. lia.
Qed.

#[export] Instance bool_ord_laws : OrdLaws bool.
Proof. split; by intros [] []; try intros []. Qed.

(** A string is its bytes. *)
Lemma string_cmp_bytes s t : cmp s t = cmp (String.list_ascii_of_string s) (String.list_ascii_of_string t).
Proof.
  unfold cmp, string_ord, list_ord. revert t. induction s as [|a s IH]; intros [|b t]; simpl; try done.
  rewrite IH. unfold cmp, ascii_ord, Ascii.compare. done.
Qed.

#[export] Instance string_ord_laws : OrdLaws string.
Proof.
  split; intros *; rewrite ?string_cmp_bytes.
  - rewrite cmp_eq. split; [|by intros ->]. intros H.
    by rewrite <- (String.string_of_list_ascii_of_string x), H, String.string_of_list_ascii_of_string.
  - apply cmp_opp.
  - apply cmp_trans.
Qed.

Lemma then_with_eq c d : then_with c d = Eq <-> c = Eq /\ d = Eq.
Proof. destruct c; naive_solver. Qed.

Lemma then_with_opp c d : then_with (CompOpp c) (CompOpp d) = CompOpp (then_with c d).
Proof. by destruct c. Qed.

(** Two steps of a lexicographic order compose when those of its parts do. *)
Lemma then_with_trans {A} `{OrdLaws A} (x y z : A) c1 c2 c3 :
  (c1 = Lt -> c2 = Lt -> c3 = Lt) ->
  then_with (cmp x y) c1 = Lt -> then_with (cmp y z) c2 = Lt -> then_with (cmp x z) c3 = Lt.
Proof.
  intros Hc. cmp_cases x y; simpl; [|cmp_cases y z|done].
  - cmp_cases y z; simpl; auto; done.
  - by rewrite E.
  - by rewrite (cmp_trans _ _ _ E E0).
  - done.
Qed.

Lemma key_cmp_eq a : forall b, key_cmp a b = Eq <-> a = b.
Proof.
  induction a; intros []; simpl; rewrite ?then_with_eq, ?cmp_eq, ?IHa; try done; try naive_solver.
Qed.

Lemma key_cmp_opp a : forall b, key_cmp b a = CompOpp (key_cmp a b).
Proof.
  induction a as [| | | | |tag p IH|ty c p IH| | |]; intros []; simpl; try done; try apply cmp_opp.
  - by rewrite (cmp_opp tag), IH, then_with_opp.
  - by rewrite (cmp_opp ty), (cmp_opp c), IH, !then_with_opp.
Qed.

Lemma key_cmp_trans a : forall b c, key_cmp a b = Lt -> key_cmp b c = Lt -> key_cmp a c = Lt.
Proof.
  induction a as [| | | | |tag p IH|ty ctor p IH| | |]; intros [] []; simpl; try done; try apply cmp_trans.
  - apply then_with_trans, IH.
  - apply then_with_trans, then_with_trans, IH.
Qed.

#[export] Instance key_ord_laws : OrdLaws OrderKey.
Proof. split; [apply key_cmp_eq|intros; apply key_cmp_opp|intros *; apply key_cmp_trans]. Qed.

(** Sorting is canonical where no two elements share a key. *)
Lemma sorted_unique {A K} `{OrdLaws K} (key : A -> K) l : forall k,
  StronglySorted (fun x y => cmp (key x) (key y) <> Gt) l -> StronglySorted (fun x y => cmp (key x) (key y) <> Gt) k ->
  NoDup (map key l) -> l ≡ₚ k -> l = k.
Proof.
  induction l as [|x l IH]; intros k Hl Hk Hn Hp; [by apply Permutation_nil in Hp|].
  destruct k as [|y k]; [by apply Permutation_sym, Permutation_nil in Hp|].
  apply StronglySorted_inv in Hl as [Hl Hx]. apply StronglySorted_inv in Hk as [Hk Hy].
  apply NoDup_cons in Hn as [Hni Hn].
  assert (x = y) as <-.
  { assert (Hin : x ∈ y :: k) by (rewrite <- Hp; by left). assert (Hjn : y ∈ x :: l) by (rewrite Hp; by left).
    apply elem_of_cons in Hin as [?|Hin]; [done|]. apply elem_of_cons in Hjn as [?|Hjn]; [done|].
    apply (proj1 (Forall_forall _ _) Hy) in Hin. destruct Hni. apply list_elem_of_fmap. exists y. split; [|done].
    apply (proj1 (Forall_forall _ _) Hx) in Hjn. rewrite (cmp_opp (key x)) in Hin. apply cmp_eq. by destruct (cmp (key x) (key y)). }
  f_equal. apply IH; try done. by apply Permutation.Permutation_cons_inv in Hp.
Qed.

Lemma sort_keys_unique {A K} `{OrdLaws K} (key : A -> K) l k :
  NoDup (map key l) -> l ≡ₚ k -> sort_keys key l = sort_keys key k.
Proof.
  intros Hn Hp. apply (sorted_unique key); try (by apply sort_keys_sorted);
    [|by rewrite (sort_keys_perm key l), (sort_keys_perm key k)].
  eapply NoDup_Permutation_proper; [apply fmap_Permutation, sort_keys_perm|done].
Qed.

(** ** Equality *)

(** A value whose order reads all of it. *)
Fixpoint plain (v : Value) : bool :=
  match v with
  | VRecord _ | VCollection _ | VPending => false
  | VVariant _ p | VNominal _ _ p => plain p
  | _ => true
  end.

Section Equality.
Context (ds : string -> string).

Lemma order_key_variant t p : order_key ds (VVariant t p) = KVariant t (order_key ds p).
Proof. unfold order_key. simpl. by destruct (shown ds p). Qed.

Lemma order_key_nominal t c p : order_key ds (VNominal t c p) = KNominal t c (order_key ds p).
Proof. unfold order_key. simpl. by destruct (shown ds p). Qed.

(** On plain values equality is identity, and the order tells them apart. *)
Lemma plain_eq_at a : forall fuel b, (depth a <= fuel)%nat -> plain a = true -> value_eq_at ds fuel a b = true <-> a = b.
Proof.
  induction a as [i|s|x| |t|fs|tag p IH|ty c p IH|es|]; intros fuel b Hf Hp; try done; destruct fuel as [|fuel]; simpl in Hf; try lia.
  all: destruct b; simpl; try done; rewrite ?andb_true_iff, ?bool_decide_eq_true, ?Z.eqb_eq, ?eqb_true_iff; try naive_solver.
  - rewrite IH by (done || lia). naive_solver.
  - rewrite IH by (done || lia). naive_solver.
Qed.

Lemma plain_key a : forall b, plain a = true -> plain b = true -> order_key ds a = order_key ds b -> a = b.
Proof.
  induction a as [i|s|x| |t|fs|tag p IH|ty c p IH|es|]; intros b; try done.
  all: destruct b; rewrite ?order_key_variant, ?order_key_nominal; unfold order_key; simpl; intros Ha Hb H; try done; try congruence.
  all: try (by destruct (shown ds b)); try (by destruct (shown ds p)).
  - injection H as -> H. f_equal. by apply IH.
  - injection H as -> -> H. f_equal. by apply IH.
Qed.

Lemma plain_value_eq a b : plain a = true -> value_eq ds a b = true <-> a = b.
Proof. intros Hp. unfold value_eq. apply plain_eq_at; [lia|done]. Qed.

(** *** Reflexivity *)

Lemma all_pairs_refl {A B} (f : A -> A -> bool) (g : B -> B -> bool) l :
  Forall (fun x => f x.1 x.1 = true /\ g x.2 x.2 = true) l -> all_pairs f g l l = true.
Proof. unfold all_pairs. induction 1 as [|x l [Hf Hg] _ IH]; simpl; [done|]. by rewrite Hf, Hg, IH. Qed.

Lemma le_max_elem n l : n ∈ l -> (n <= foldr Nat.max 0 l)%nat.
Proof. induction 1 as [|x y l _ IH]; simpl; lia. Qed.

Lemma depth_field fs n v : (n, v) ∈ fs -> (depth v < depth (VRecord fs))%nat.
Proof. intros H. simpl. apply Nat.lt_succ_r, le_max_elem, list_elem_of_fmap. by exists (n, v). Qed.

Lemma depth_entry es k v : (k, v) ∈ es -> (depth k < depth (VCollection es))%nat /\ (depth v < depth (VCollection es))%nat.
Proof.
  intros H. simpl. rewrite !Nat.lt_succ_r.
  assert (Nat.max (depth k) (depth v) <= foldr Nat.max 0 (map (fun '(k, v) => Nat.max (depth k) (depth v)) es))%nat; [|lia].
  apply le_max_elem, list_elem_of_fmap. by exists (k, v).
Qed.

Lemma replace_depth k r : depth (replace k r) = depth k.
Proof. induction k; simpl; congruence. Qed.

Lemma replace_settled k r : settled (replace k r) = settled k.
Proof. induction k; simpl; congruence. Qed.

(** Ranking changes nothing of an entry but its commit time. *)
Lemma ranked_elem eq es x : x ∈ ranked_commit_times eq es -> exists k r, (k, x.2) ∈ es /\ (x.1 = k \/ x.1 = replace k r).
Proof.
  intros ([k v] & -> & Hkv)%list_elem_of_fmap. exists k. destruct (context k), (commit_time k); try (by exists 0; eauto).
  destruct (List.find _ _) as [[c ts]|]; [|by exists 0; eauto]. eexists. split; [exact Hkv|]. by right.
Qed.

Lemma value_eq_at_refl fuel : forall v, (depth v <= fuel)%nat -> settled v = true -> value_eq_at ds fuel v v = true.
Proof.
  induction fuel as [|fuel IH]; intros v Hd Hs; [destruct v; simpl in Hd; lia|].
  destruct v as [i|s|x| |t|fs|tag p|ty c p|es|]; simpl; try done.
  - lia.
  - by apply bool_decide_eq_true.
  - by destruct x.
  - lia.
  - rewrite Nat.eqb_refl. apply all_pairs_refl, Forall_forall. intros [n v] H. rewrite sort_keys_perm in H.
    split; [by apply bool_decide_eq_true|]. apply depth_field in H as Hv. apply IH; [simpl in *; lia|].
    apply settled_fields in Hs. by apply (proj1 (Forall_forall _ _) Hs) in H.
  - rewrite bool_decide_true by done. apply IH; [simpl in Hd; lia|done].
  - rewrite !bool_decide_true by done. apply IH; [simpl in Hd; lia|done].
  - rewrite Nat.eqb_refl. apply all_pairs_refl, Forall_forall. intros [k v] H. unfold sorted in H. rewrite sort_keys_perm in H.
    apply ranked_elem in H as (k' & r & H & Hk). simpl in H, Hk. destruct (depth_entry _ _ _ H) as [Dk Dv].
    apply settled_collection in Hs. apply (proj1 (Forall_forall _ _) Hs) in H as [Sk Sv]. simpl in Sk, Sv.
    split; apply IH; try done; simpl in *; try lia.
    all: destruct Hk as [-> | ->]; rewrite ?replace_depth, ?replace_settled; try done; lia.
Qed.

(** *** Duplicate keys *)

Lemma repeated_some l k : repeated ds l = Some k ->
  exists l1 l2 k', l = l1 ++ k :: k' :: l2 /\ value_eq ds k k' = true.
Proof.
  induction l as [|a [|b l] IH]; simpl; try done. destruct (value_eq ds a b) eqn:E.
  - intros [= <-]. by exists [], l, b.
  - intros H. destruct (IH H) as (l1 & l2 & k' & Hl & Hk). exists (a :: l1), l2, k'. split; [|done]. simpl. by rewrite Hl.
Qed.

(** Sorted and without equal neighbours: no two are equal. *)
Lemma repeated_none l : Forall (fun v => plain v = true) l ->
  StronglySorted (fun x y => cmp (order_key ds x) (order_key ds y) <> Gt) l -> repeated ds l = None -> NoDup l.
Proof.
  intros Hp Hs. revert Hp. induction Hs as [|a l Hs IH Ha]; intros Hp H; [constructor|].
  apply Forall_cons in Hp as [Hpa Hp]. destruct l as [|b l]; [by apply NoDup_singleton|].
  simpl in H. destruct (value_eq ds a b) eqn:E; [done|]. constructor; [|by apply IH].
  assert (Hab : a <> b) by (intros ->; apply not_true_iff_false in E; destruct E; by apply plain_value_eq; [inversion Hp|]).
  intros [?|Hin]%elem_of_cons; [done|]. apply Forall_cons in Hp as [Hpb Hp]. apply Forall_cons in Ha as [Hb Ha].
  apply StronglySorted_inv in Hs as [_ Hbl]. apply (proj1 (Forall_forall _ _) Hbl) in Hin.
  rewrite (cmp_opp (order_key ds a)) in Hin. destruct (cmp _ (order_key ds b)) eqn:Ec; try done.
  apply cmp_eq in Ec. by apply plain_key in Ec.
Qed.

Lemma try_from_entries_ok es :
  match try_from_entries ds es with
  | inl k => exists l1 l2 k', map fst es ≡ₚ l1 ++ k :: k' :: l2 /\ value_eq ds k k' = true
  | inr c => c = es /\ (Forall (fun e => plain e.1 = true) es -> NoDup (map fst es))
  end.
Proof.
  unfold try_from_entries. destruct (repeated _ _) as [k|] eqn:E.
  - apply repeated_some in E as (l1 & l2 & k' & Hl & Hk). exists l1, l2, k'. split; [|done].
    by rewrite <- Hl, sort_keys_perm.
  - split; [done|]. intros Hp. rewrite <- (sort_keys_perm (order_key ds)). apply repeated_none; [| |done].
    + rewrite sort_keys_perm. by apply Forall_map.
    + apply sort_keys_sorted, _.
Qed.

(** *** Collections keyed by commit time *)

(** Entries at their commit times. *)
Definition timed (l : list (Z * Value)) : Collection := map (fun '(t, v) => (VCommitTime t, v)) l.

(** Entries at the ranks of their commit times among [times]. *)
Definition at_ranks (times : list Z) (l : list (Z * Value)) : Collection :=
  map (fun '(t, v) => (VCommitTime (Z.of_nat (position_of t times)), v)) l.

Lemma ranked_timed eq l : eq VUnit VUnit = true -> ranked_commit_times eq (timed l) = at_ranks (sort_keys id (map fst l)) l.
Proof.
  intros He. destruct l as [|[t0 v0] l0] eqn:El; [done|]. rewrite <- El. assert (Hl : l <> []) by (by rewrite El). clear El.
  assert (G : by_context eq (timed l) = [(VUnit, sort_keys id (map fst l))]).
  { unfold by_context. destruct l as [|[t v] l]; [done|]. simpl.
    assert (G : forall l ts, foldl (fun acc '(key, _) =>
      match context key, commit_time key with Some c, Some t => push_time eq c t acc | _, _ => acc end) [(VUnit, ts)] (timed l)
      = [(VUnit, ts ++ map fst l)]).
    { induction l1 as [|[t1 v1] l1 IH]; intros ts; simpl; [by rewrite app_nil_r|]. by rewrite He, IH, <- app_assoc. }
    by rewrite (G l [t]). }
  unfold ranked_commit_times. rewrite G. unfold timed, at_ranks. rewrite map_map. apply map_ext. intros [t v]. simpl. by rewrite He.
Qed.

Lemma position_injective l t u : t ∈ l -> position_of t l = position_of u l -> t = u.
Proof.
  induction l as [|x l IH]; simpl; [by intros ?%not_elem_of_nil|]. intros Hin%elem_of_cons.
  destruct (Z.eqb_spec t x), (Z.eqb_spec u x); try lia. intros H. apply IH; [|lia]. by destruct Hin.
Qed.

Section Renumbered.
Context (f : Z -> Z) (Hf : forall a b, a < b -> f a < f b).

#[local] Instance renumber_inj : Inj (=) (=) f.
Proof. intros a b E. destruct (Z.lt_total a b) as [?%Hf|[?|?%Hf]]; lia. Qed.

Lemma renumber_cmp a b : cmp (f a) (f b) = cmp a b.
Proof.
  unfold cmp, Z_ord. destruct (Z.compare_spec a b) as [->|H|H]; [apply Z.compare_refl| |].
  - by apply Z.compare_lt_iff, Hf.
  - by apply Z.compare_gt_iff, Hf.
Qed.

Lemma renumber_sort l : sort_keys id (map f l) = map f (sort_keys id l).
Proof.
  induction l as [|x l IH]; simpl; [done|]. rewrite IH. generalize (sort_keys id l). intros k.
  induction k as [|y k IHk]; simpl; [done|]. unfold id in *. rewrite renumber_cmp. destruct (cmp x y); simpl; congruence.
Qed.

Lemma renumber_position t l : position_of (f t) (map f l) = position_of t l.
Proof.
  induction l as [|u l IH]; simpl; [done|]. rewrite IH. destruct (Z.eqb_spec t u) as [->|H]; [by rewrite Z.eqb_refl|].
  destruct (Z.eqb_spec (f t) (f u)) as [E|]; [|done]. by apply (inj f) in E.
Qed.

(** No two ranks are one. *)
Lemma ranks_distinct l : NoDup (map fst l) ->
  NoDup (map (fun '(k, v) => (order_key ds k, order_key ds v)) (at_ranks (sort_keys id (map fst l)) l)).
Proof.
  intros Hn. set (ts := sort_keys id (map fst l)).
  apply (NoDup_fmap_1 fst). change (NoDup (map fst (map (fun '(k, v) => (order_key ds k, order_key ds v)) (at_ranks ts l)))).
  unfold at_ranks. rewrite !map_map.
  rewrite (map_ext _ (fun x => KTime (Z.of_nat (position_of x.1 ts)))) by (by intros [t v]).
  rewrite <- (map_map fst (fun t => KTime (Z.of_nat (position_of t ts)))).
  apply NoDup_fmap_2_strong; [|done]. intros t u Ht Hu H. apply (position_injective ts); [|by injection H as ?%Nat2Z.inj].
  unfold ts. by rewrite sort_keys_perm.
Qed.

(** Neither the order of the entries nor what times a run handed out is part of a collection. *)
Lemma renumbered_eq l l' : NoDup (map fst l) -> Forall (fun e => settled e.2 = true) l ->
  l' ≡ₚ map (fun '(t, v) => (f t, v)) l -> value_eq ds (VCollection (timed l)) (VCollection (timed l')) = true.
Proof.
  intros Hn Hs Hp. unfold value_eq. set (n := Nat.max _ _).
  assert (Hd : (depth (VCollection (timed l)) <= n)%nat) by (unfold n; lia). clearbody n. destruct n as [|n]; [simpl in Hd; lia|].
  destruct l as [|e0 l0] eqn:El. { apply Permutation_sym, Permutation_nil in Hp as ->. done. } rewrite <- El in *.
  assert (Hu : value_eq_at ds n VUnit VUnit = true).
  { destruct n; [|done]. exfalso. rewrite El in Hd. destruct e0 as [t v]. simpl in Hd. destruct v; simpl in Hd; lia. }
  cbn [value_eq_at]. rewrite !ranked_timed by done.
  assert (Ht : sort_keys id (map fst l') = map f (sort_keys id (map fst l))).
  { rewrite <- renumber_sort. symmetry. apply sort_keys_unique.
    - rewrite map_id. by apply (NoDup_fmap_2 f).
    - rewrite Hp, !map_map. by apply reflexive_eq, map_ext; intros [t v]. }
  assert (Hr : at_ranks (sort_keys id (map fst l)) l ≡ₚ at_ranks (sort_keys id (map fst l')) l').
  { rewrite Ht. unfold at_ranks. rewrite Hp, map_map. apply reflexive_eq, map_ext. intros [t v]. by rewrite renumber_position. }
  set (a := at_ranks _ l) in *. set (b := at_ranks _ l') in *.
  rewrite (Permutation_length Hr), Nat.eqb_refl. unfold sorted.
  rewrite <- (sort_keys_unique _ a b); [|by apply ranks_distinct|done].
  apply all_pairs_refl, Forall_forall. intros x Hx. rewrite sort_keys_perm in Hx.
  apply list_elem_of_fmap in Hx as ([t v] & -> & Hin). simpl. split.
  - apply plain_eq_at; [destruct n; [done|simpl; lia]|done|done].
  - assert (He : (VCommitTime t, v) ∈ timed l) by (apply list_elem_of_fmap; by exists (t, v)).
    apply depth_entry in He as [_ He]. apply value_eq_at_refl; [lia|]. by apply (proj1 (Forall_forall _ _) Hs) in Hin.
Qed.
End Renumbered.
End Equality.

(** ** Arithmetic *)

(** What an arithmetic operator denotes on integers, where it denotes anything. *)
Definition denoted (op : ScalarOps.ArithmeticKind) (a b : Z) : option Z :=
  match op with
  | ScalarOps.Add => Some (a + b)
  | ScalarOps.Sub => Some (a - b)
  | ScalarOps.Mul => Some (a * b)
  | ScalarOps.FloorDiv => if b =? 0 then None else Some (a / b)
  | ScalarOps.Pow => if b <? 0 then None else Some (a ^ b)
  end.

Definition kind_op (op : ScalarOps.ArithmeticKind) : BinOp :=
  match op with
  | ScalarOps.Add => OpAdd | ScalarOps.Sub => OpSub | ScalarOps.Mul => OpMul
  | ScalarOps.FloorDiv => OpFloorDiv | ScalarOps.Pow => OpPow
  end.

Lemma checked_some z v : checked z = Some v <-> v = z /\ I64_MIN <= z <= I64_MAX.
Proof.
  unfold checked, in_i64. destruct (Z.leb_spec I64_MIN z), (Z.leb_spec z I64_MAX); simpl; split; try naive_solver lia.
Qed.

Lemma checked_none z : checked z = None <-> ~ I64_MIN <= z <= I64_MAX.
Proof.
  unfold checked, in_i64. destruct (Z.leb_spec I64_MIN z), (Z.leb_spec z I64_MAX); simpl; split; try naive_solver lia.
Qed.

Lemma checked_in z : I64_MIN <= z <= I64_MAX -> checked z = Some z.
Proof. intros H. by apply checked_some. Qed.

(** A square no [i64] holds is beyond [2 ^ 63]: that is no square. *)
Lemma square_beyond b : ~ I64_MIN <= b * b <= I64_MAX -> 2 ^ 63 < b * b.
Proof.
  unfold I64_MIN, I64_MAX. intros H. assert (b * b <> 2 ^ 63); [|nia]. intros E.
  assert (Z.abs b * Z.abs b = 2 ^ 63) as E' by (rewrite <- Z.abs_mul; lia).
  assert (3037000499 < Z.abs b < 3037000500) by nia. lia.
Qed.

Lemma scaled_beyond a p : ~ I64_MIN <= a <= I64_MAX -> 1 <= p -> ~ I64_MIN <= a * p <= I64_MAX.
Proof. unfold I64_MIN, I64_MAX. intros. nia. Qed.

Lemma pow_at_least b e : 1 <= b -> 1 <= b ^ e \/ e < 0.
Proof. intros Hb. destruct (Z.lt_ge_cases e 0); [by right|left]. pose proof (Z.pow_le_mono_l 1 b e). rewrite Z.pow_1_l in * by lia. lia. Qed.

(** A round of the loop, over the rounds after it. *)
Lemma int_pow_round (loop : Z -> Z -> Z -> option Z) base h acc :
  (forall b e a, e = h -> I64_MIN <= a <= I64_MAX -> (a = 0 -> b = 0) -> loop b e a = checked (a * b ^ e)) ->
  (acc = 0 -> base = 0) -> (base = 0 -> I64_MIN <= acc <= I64_MAX) -> 0 <= h ->
  (acc ← checked acc; base ← (if 0 <? h then checked (base * base) else Some base); loop base h acc)
  = checked (acc * (base * base) ^ h).
Proof.
  intros IH Hz Hr Hh. destruct (checked acc) as [a|] eqn:Ea; simpl.
  - apply checked_some in Ea as [-> Ha]. destruct (Z.ltb_spec 0 h) as [Hp|].
    + destruct (checked (base * base)) as [b|] eqn:Eb; simpl.
      * apply checked_some in Eb as [-> Hb]. apply IH; [done..|]. intros ->. by rewrite (Hz eq_refl).
      * apply checked_none, square_beyond in Eb. symmetry. apply checked_none.
        assert (base * base <= (base * base) ^ h). { rewrite <- (Z.pow_1_r (base * base)) at 1. apply Z.pow_le_mono_r; lia. }
        assert (acc <> 0) by (intros ->; rewrite (Hz eq_refl) in Eb; lia). unfold I64_MIN, I64_MAX. nia.
    + simpl. assert (h = 0) as -> by lia. rewrite IH by auto. done.
  - apply checked_none in Ea. symmetry. apply checked_none, scaled_beyond; [done|].
    destruct (pow_at_least (base * base) h); [|done|lia]. assert (base <> 0) by auto. nia.
Qed.

(** The loop's invariant: the product is exact, and once a factor overflows so does it. *)
Lemma int_pow_loop_ok fuel : forall base e acc, 0 <= e < 2 ^ Z.of_nat fuel -> I64_MIN <= acc <= I64_MAX ->
  (acc = 0 -> base = 0) -> int_pow_loop fuel base e acc = checked (acc * base ^ e).
Proof.
  induction fuel as [|fuel IH]; intros base e acc He Ha Hz.
  - simpl in He. assert (e = 0) as -> by lia. simpl. rewrite Z.mul_1_r. symmetry. by apply checked_in.
  - simpl. destruct (Z.ltb_spec 0 e) as [Hpos|H0].
    2:{ assert (e = 0) as -> by lia. simpl. rewrite Z.mul_1_r. symmetry. by apply checked_in. }
    rewrite Nat2Z.inj_succ, Z.pow_succ_r in He by lia.
    assert (Z.land e 1 = e mod 2) as -> by (apply (Z.land_ones e 1); lia).
    rewrite Z.shiftr_div_pow2 by lia. change (2 ^ 1) with 2.
    pose proof (Z.div_mod e 2 ltac:(lia)) as Hdm. pose proof (Z.mod_pos_bound e 2 ltac:(lia)).
    assert (Hh : 0 <= e / 2 < 2 ^ Z.of_nat fuel) by (split; [apply Z.div_pos; lia|apply Z.div_lt_upper_bound; lia]).
    rewrite (ScalarOps.pow_halves base e), Z.mul_assoc by lia.
    set (acc' := acc * base ^ (e mod 2)).
    assert (Hacc : (if e mod 2 =? 1 then checked (acc * base) else Some acc) = checked acc').
    { unfold acc'. destruct (Z.eqb_spec (e mod 2) 1) as [->|]; [by rewrite Z.pow_1_r|].
      assert (e mod 2 = 0) as -> by lia. rewrite Z.mul_1_r. symmetry. by apply checked_in. }
    rewrite Hacc. assert (Hz' : acc' = 0 -> base = 0).
    { unfold acc'. intros [?|E]%Z.mul_eq_0; [auto|]. apply Z.pow_eq_0_iff in E as [?|[_ ?]]; [lia|done]. }
    assert (Hr : base = 0 -> I64_MIN <= acc' <= I64_MAX).
    { intros ->. unfold acc'. destruct (Z.eq_dec (e mod 2) 0) as [-> |]; [by rewrite Z.mul_1_r|].
      rewrite Z.pow_0_l by lia. unfold I64_MIN, I64_MAX. lia. }
    clearbody acc'. clear Hacc. apply (int_pow_round (int_pow_loop fuel)); try done; [|lia]. intros b' h a -> Ha' Hb'. by apply IH.
Qed.

Lemma int_pow_ok b e : e <= I64_MAX -> int_pow b e = if e <? 0 then None else checked (b ^ e).
Proof.
  intros He. unfold int_pow. destruct (Z.ltb_spec e 0); [done|]. unfold I64_MAX in He.
  rewrite int_pow_loop_ok; [by rewrite Z.mul_1_l|change (Z.of_nat 64) with 64; lia|unfold I64_MIN, I64_MAX; lia|done].
Qed.

Lemma floor_div_ok a b : I64_MIN <= a <= I64_MAX -> I64_MIN <= b <= I64_MAX ->
  floor_div a b = if b =? 0 then None else checked (a / b).
Proof.
  intros Ha Hb. unfold floor_div. destruct (Z.eqb_spec b 0) as [|H0]; [done|]. pose proof (ScalarOps.quot_floor a b H0) as Hq.
  destruct (ScalarOps.i64_panics a b) eqn:Hp.
  - unfold ScalarOps.i64_panics in Hp. apply orb_true_iff in Hp as [?%Z.eqb_eq|[->%Z.eqb_eq ->%Z.eqb_eq]%andb_true_iff]; [lia|done].
  - pose proof (ScalarOps.i64_div_range a b Ha Hb Hp) as Hr. fold I64_MIN I64_MAX in Hr. symmetry. rewrite checked_in by done.
    assert (Hc : I64_MIN <= Z.quot a b <= I64_MAX).
    { unfold I64_MIN, I64_MAX, ScalarOps.I64_MIN, ScalarOps.I64_MAX in *. destruct (_ && _) eqn:E; [|lia].
      apply andb_true_iff in E as [E _]. apply negb_true_iff, Z.eqb_neq in E. pose proof (Z.quot_rem' a b).
      pose proof (Z.rem_bound_abs a b H0). nia. }
    rewrite checked_in by done. simpl. by rewrite Hq.
Qed.

(** Integer arithmetic is exact: what is denoted where an [i64] holds it, an error elsewhere. *)
Lemma binop_exact ds op a b : I64_MIN <= a <= I64_MAX -> I64_MIN <= b <= I64_MAX ->
  binop ds (kind_op op) (VInt a) (VInt b) = int (denoted op a b ≫= checked).
Proof.
  intros Ha Hb. destruct op; [done..| |].
  - change (int (floor_div a b) = int ((if b =? 0 then None else Some (a / b)) ≫= checked)).
    rewrite floor_div_ok by done. by destruct (b =? 0).
  - change (int (int_pow a b) = int ((if b <? 0 then None else Some (a ^ b)) ≫= checked)).
    rewrite int_pow_ok by lia. by destruct (b <? 0).
Qed.

Lemma int_done o v : int o = Done v <-> exists z, o = Some z /\ v = VInt z.
Proof.
  split; [destruct o as [z|]; simpl; [intros [= <-]; eauto|done]|]. by intros (z & -> & ->).
Qed.

Lemma kernel_checked checks z v : checked z = Some v -> ScalarOps.checked (E := ScalarOps.i64_elem) checks z = Some v.
Proof.
  unfold checked, ScalarOps.checked, ScalarOps.in_rangeb, in_i64. simpl. unfold I64_MIN, I64_MAX, ScalarOps.I64_MIN, ScalarOps.I64_MAX.
  by destruct (_ && _).
Qed.

(** The compiled operators give what the reference gives, in either profile. *)
Lemma kernel_agrees checks op a b z : I64_MIN <= a <= I64_MAX -> I64_MIN <= b <= I64_MAX ->
  denoted op a b ≫= checked = Some z -> ScalarOps.arithmetic (E := ScalarOps.i64_elem) checks op a b = Some z.
Proof.
  intros Ha Hb. destruct op; simpl; try apply kernel_checked.
  - intros H. destruct (Z.eqb_spec b 0) as [|H0]; [done|]. simpl in H. apply checked_some in H as [-> H].
    unfold ScalarOps.i64_floor_div. pose proof (ScalarOps.quot_floor a b H0) as Hq. 
    assert (Hp : ScalarOps.i64_panics a b = false).
    { apply not_true_is_false. intros [?%Z.eqb_eq|[->%Z.eqb_eq ->%Z.eqb_eq]%andb_true_iff]%orb_true_iff; [lia|].
      change (ScalarOps.I64_MIN / -1) with (2 ^ 63) in H. unfold I64_MAX in H. lia. }
    rewrite Hp. destruct (_ && _); [|by rewrite Hq]. rewrite <- Hq. 
    destruct (Z.ltb_spec (a / b) ScalarOps.I64_MIN) as [Hl|]; [|done]. unfold ScalarOps.I64_MIN, I64_MIN in *. lia.
  - unfold ScalarOps.int_pow, ScalarOps.raised. cbn [ScalarOps.pow_exponent ScalarOps.i64_elem].
    destruct (Z.ltb_spec b 0) as [|H0]; [done|]. cbn [mbind option_bind]. intros [-> H]%checked_some.
    rewrite (proj2 (Z.leb_le 0 b) H0). cbn [fmap option_fmap option_map].
    rewrite ScalarOps.raised_loop_spec.
    + rewrite Z.mul_1_l, Z.abs_eq by lia. f_equal. symmetry. by apply ScalarOps.wrap_i64_unique.
    + change (Z.of_nat 64) with 64. unfold I64_MAX in *. lia.
    + apply ScalarOps.one_in_range.
Qed.

(** With overflow checks a compiled operator panics where the reference refuses; [**] wraps instead. *)
Lemma kernel_refuses op a b : I64_MIN <= a <= I64_MAX -> I64_MIN <= b <= I64_MAX -> op <> ScalarOps.Pow ->
  denoted op a b ≫= checked = None -> ScalarOps.arithmetic (E := ScalarOps.i64_elem) true op a b = None.
Proof.
  intros Ha Hb Hop. destruct op; try done; simpl; intros H.
  destruct (ScalarOps.i64_panics a b) eqn:Hp; [by unfold ScalarOps.i64_floor_div; rewrite Hp|].
  assert (H0 : b <> 0) by (intros ->; done). apply Z.eqb_neq in H0. rewrite H0 in H. simpl in H.
  rewrite checked_in in H; [done|]. by apply ScalarOps.i64_div_range.
Qed.
