(* ===== verification/InterpProps.v ===== *)
(** * Properties of the reference interpreter

    What running a program may change, what speculation may do, what [run] answers and when, and
    what its values and operators denote. *)

From stdpp Require Import list strings gmap.
From S2P Require Import Prelude ScalarOps Tokens Ordered Syntax InterpValues InterpText Interp InterpFrames InterpSettled InterpFuel InterpFacts.
Set Warnings "-register-all,-clear-no-such-hyp".
Local Open Scope Z_scope.

(** ** Programs, for the witnesses *)

Section Samples.
Local Open Scope nat_scope.

Definition sp {A} (n : nat) (x : A) : Spanned A := MkSpanned (mkSpan 0 n n) x.
Definition nm (n : nat) (s : string) : Spanned Expr := sp n (EName s).
Definition tg (n : nat) (s : string) : Spanned AssignTarget := sp n (TargetName s).
Definition ilit (n : nat) (z : Z) : Spanned Expr := sp n (ELit (LitInt z)).
Definition cal (n : nat) (f : string) (args : list (Spanned Expr)) : Spanned Expr := sp n (ECall (nm n f) args).
Definition feeds (n : nat) (c : string) (v : Spanned Expr) : Spanned Stmt := sp n (SExpr (sp n (EFeed (nm n c) v))).
Definition feed_type (n : nat) : TypeAnnotation := MkTypeAnnotation _ AnnExact (cal n "Feed" []).

(** [c: Feed(); out = test_sink(); for x in c: out <- x + 1; c <- 5]: two passes. *)
Definition forwarding : Module_ := MkModule 0 [
  sp 1 (SDeclare (tg 1 "c") (feed_type 1));
  sp 2 (SAssign (tg 2 "out") (cal 2 "test_sink" []) Transparent);
  sp 3 (SFor (tg 3 "x") (nm 3 "c") [feeds 7 "out" (sp 8 (EBinOp (nm 8 "x") OpAdd (ilit 9 1)))]);
  feeds 20 "c" (ilit 20 5)].

(** [c: Feed(); out = test_sink(); out <- [y for x in [1] if guard for y in x]]. *)
Definition guarded_clause (guard : Spanned Expr) : Module_ := MkModule 0 [
  sp 1 (SDeclare (tg 1 "c") (feed_type 1));
  sp 2 (SAssign (tg 2 "out") (cal 2 "test_sink" []) Transparent);
  feeds 20 "out" (sp 21 (EListComp (MkComprehension _ _ (nm 22 "y") [
    ClauseFor _ _ (tg 23 "x") (sp 24 (EList [ilit 24 1]));
    ClauseIf _ _ guard;
    ClauseFor _ _ (tg 25 "y") (nm 26 "x")])))].

(** [c != []]: false, and pending until [c] is complete. *)
Definition nonempty_c : Spanned Expr := sp 30 (ECompare (nm 30 "c") [CNotEq] [sp 31 (EList [])]).

(** [x = 1 // 0], and a state that speculates inside a branch. *)
Definition failing : Spanned Stmt :=
  sp 1 (SAssign (tg 1 "x") (sp 2 (EBinOp (ilit 2 1) OpFloorDiv (ilit 3 0))) Transparent).
Definition speculating_state : Interp := with_speculating 1 new_interp.
Definition no_program : Program := MkProgram ∅ ∅ ∅ (MkTraits ∅ [] ∅ ∅ ∅).
End Samples.

(** ** What running changes *)

(** C8: whatever an expression, a statement or a block does, and however it ends (a value, an
    error, a panic, no more fuel), the interpreter's stacks are as they were: scopes around the
    innermost one, calls, loop keys, running instances and the depth of speculation.  Cells,
    contributions, replies, yields, sinks and waits are only added to, a cell's binding kind and
    a channel's identity never change, and time does not go back. *)
Theorem evaluation_frames ds program fuel s :
  (forall e, Frame s (eval_at ds program fuel e s).2) /\
  (forall st, Frame s (exec_at ds program fuel st s).2) /\
  (forall body u, Frame s (block_value_at ds program fuel body u s).2).
Proof. destruct (knot_framed ds program fuel) as (He & Hs & Hb). split_and!; intros; [apply He|apply Hs|apply Hb]. Qed.

(** A method's own step is what the knot runs. *)
Lemma eval_speculates ds program fuel e s :
  speculates s = true -> forall why, (eval_at ds program fuel e s).1 <> Fail why.
Proof.
  intros Hs why. destruct fuel as [|fuel]; simpl; [done|]. unfold eval_step.
  destruct (knot_framed ds program fuel) as (He & Hx & Hb).
  pose proof (framed_eval_expr ds program _ _ _ He Hx Hb e s) as F. unfold framed_at in F.
  destruct (eval_expr _ _ _ _ _ e s) as [[v|w| |] s1]; try done. fold (speculates s1). simpl in F.
  unfold speculates in *. by rewrite (frame_speculating _ _ F), Hs.
Qed.

Lemma exec_speculates ds program fuel st s :
  speculates s = true -> forall why, (exec_at ds program fuel st s).1 <> Fail why.
Proof.
  intros Hs why. destruct fuel as [|fuel]; simpl; [done|]. unfold exec_step.
  destruct (knot_framed ds program fuel) as (He & Hx & Hb).
  pose proof (framed_exec_stmt ds program _ _ _ He Hx Hb st s) as F. unfold framed_at in F.
  destruct (exec_stmt _ _ _ _ _ st s) as [ran s1]. simpl in F. unfold speculates in Hs. apply Nat.ltb_lt in Hs.
  rewrite (frame_speculating _ _ F). destruct (Nat.eqb_spec (speculating s) 0); [lia|].
  destruct ran as [[v|]|w| |]; try done. by case_match.
Qed.

(** What the enclosing transaction and the enclosing generator gain while speculating. *)
Lemma pending_replies f o : option_step (txn_frame_step true) (Some f) o ->
  exists f' new, o = Some f' /\ replies f' = replies f ++ new /\ Forall (fun r => r.2 = VPending) new /\
    (new = [] \/ uncertain f' = true) /\ writes f' = writes f /\ wrote f' = wrote f.
Proof.
  destruct o as [f'|]; [|done]. intros (_ & Hw & (new & Hr & Hp) & _ & _ & Hwr). destruct (Hp eq_refl).
  exists f', new. split_and!; auto.
Qed.

Lemma pending_yields ys o : option_step (grows pending_entry true) (Some ys) o ->
  exists new, o = Some (ys ++ new) /\ Forall (fun y => y.2 = VPending) new.
Proof. destruct o as [ys'|]; [|done]. intros (new & -> & Hp). exists new. split; [done|]. by apply Hp. Qed.

(** C7: while it speculates, no expression and no statement fails the program, and every effect
    is pending: a cell keeps its value or holds [Pending]; what a channel, the replies of the
    enclosing transaction or the enclosing generator gain is [Pending]; a definition is unchanged
    or [Pending]; a transaction that gains a reply becomes uncertain and is not taken to have
    written; no block commits, and no loop's order is taken to matter. *)
Theorem speculation_contained ds program fuel st s : speculates s = true ->
  let '(r, s') := exec_at ds program fuel st s in
  (forall why, r <> Fail why) /\ (forall e why, (eval_at ds program fuel e s).1 <> Fail why) /\
  (forall i c, cells s !! i = Some c -> exists c', cells s' !! i = Some c' /\ (value c' = value c \/ value c' = VPending)) /\
  (forall key c, channels s !! key = Some c -> exists c' new, channels s' !! key = Some c' /\
    fed c' = fed c ++ new /\ Forall (fun x => x.2 = VPending) new /\ (defined c' = defined c \/ defined c' = Some VPending)) /\
  (forall f, txn s = Some f -> exists f' new, txn s' = Some f' /\ replies f' = replies f ++ new /\
    Forall (fun r => r.2 = VPending) new /\ (new = [] \/ uncertain f' = true) /\
    writes f' = writes f /\ wrote f' = wrote f) /\
  (forall ys, yielded s = Some ys -> exists new, yielded s' = Some (ys ++ new) /\ Forall (fun y => y.2 = VPending) new) /\
  (txn s = None -> txn s' = None) /\ (yielded s = None -> yielded s' = None) /\
  commit_time_count s' = commit_time_count s /\ map moved (order_watches s') = map moved (order_watches s).
Proof.
  intros Hs. pose proof (exec_speculates ds program fuel st s Hs) as Hf.
  destruct (knot_framed ds program fuel) as (_ & Fs & _). specialize (Fs st s). unfold framed_at in Fs.
  destruct (exec_at ds program fuel st s) as [r s']. simpl in *. destruct Fs. rewrite Hs in *. split_and!.
  - done.
  - intros e. by apply eval_speculates.
  - intros i c Hc. destruct (frame_cells i c Hc) as (c' & Hc' & _ & _ & Hv). exists c'. split; [done|]. by apply Hv.
  - intros key c Hc. destruct (frame_channels key c Hc) as (c' & Hc' & _ & _ & (new & Hn & Hp) & _ & Hd).
    exists c', new. split_and!; [done|done|by apply Hp|by apply Hd].
  - intros f Ef. apply (pending_replies f (txn s')). by rewrite <- Ef.
  - intros ys Ey. apply (pending_yields ys (yielded s')). by rewrite <- Ey.
  - intros E. rewrite E in frame_txn. by destruct (txn s').
  - intros E. rewrite E in frame_yielded. by destruct (yielded s').
  - by apply frame_time_pending.
  - induction frame_watches as [|w w' ws ws' Hw _ IH]; simpl; [done|]. destruct Hw as (_ & _ & Hw). by rewrite (Hw eq_refl), IH.
Qed.

Lemma speculation_contained_witness :
  speculates speculating_state = true /\
  (exec_at ascii_debug no_program 10 failing speculating_state).1 <> Fail "{l} {op} {r} is not defined".
Proof.
  split; [reflexivity|].
  pose proof (speculation_contained ascii_debug no_program 10 failing speculating_state eq_refl) as H.
  destruct (exec_at ascii_debug no_program 10 failing speculating_state) as [r s']. apply H.
Defined.

(** ** What [run] answers *)

(** C6: an answer of [run] is settled: in no observed value, at whatever depth, is anything
    pending, though the passes before the last hold [Pending] wherever a channel is read before
    it is complete. *)
Theorem run_answers_settled ds passes fuel m out :
  run ds passes fuel m = Done out -> forall sink v, out !! sink = Some v -> settled v = true.
Proof. intros H sink v Hv. apply (run_settled ds passes fuel m out H sink v Hv). Qed.

Lemma run_answers_settled_witness :
  exists out v, run ascii_debug 5 50 forwarding = Done out /\ out !! "out" = Some v /\ settled v = true.
Proof.
  destruct (run ascii_debug 5 50 forwarding) as [out| | |] eqn:E; [|vm_compute in E; discriminate..].
  destruct (out !! "out") as [v|] eqn:Ev.
  - exists out, v. split; [reflexivity|]. split; [exact Ev|]. exact (run_answers_settled _ _ _ _ _ E "out" v Ev).
  - exfalso. assert (H : (match run ascii_debug 5 50 forwarding with Done o => o !! "out" | _ => None end) <> None)
      by (vm_compute; discriminate).
    rewrite E in H. by apply H.
Defined.

(** C9: [run] ends.  Every pass that waits makes a channel it opened final, so where the passes
    end and open channels of a set [K], the passes are at most one more than the channels: then
    the loop answers or refuses. *)
Theorem passes_end ds fuel body (K : gset string) p passes :
  (forall q, later ds fuel body p q -> (pass ds q fuel body).1 <> Exhausted /\ dom (channels (pass ds q fuel body).2) ⊆ K) ->
  (size K < passes)%nat -> run_passes ds passes fuel p body <> Exhausted.
Proof.
  intros Hp Hs. apply (enough_passes ds fuel body K); [done|]. eapply Nat.le_lt_trans; [|exact Hs].
  apply subseteq_size. set_solver.
Qed.

(** The programs of the passes of a module, for the witness. *)
Definition first_program (m : Module_) : Program :=
  MkProgram (match collect_feed_sites 20 (module_body m) with Done f => f | _ => ∅ end) ∅
    (collect_types (module_body m)) (collect_traits (module_body m)).
Definition next_program (m : Module_) (q : Program) : Program :=
  match pass ascii_debug q 20 (module_body m) with
  | (Done _, s) =>
      match completed ascii_debug (finals q) s with
      | Done done => MkProgram (feed_sites q) (list_to_map done ∪ finals q) (types q) (traits q)
      | _ => q
      end
  | _ => q
  end.

Lemma later_iterates m p : next_program m (next_program m (next_program m p)) = next_program m (next_program m p) ->
  forall q, later ascii_debug 20 (module_body m) p q ->
  q = p \/ q = next_program m p \/ q = next_program m (next_program m p).
Proof.
  intros Hn q. induction 1 as [|q r s done _ IH Hp Hc]; [by left|].
  assert (E : MkProgram (feed_sites q) (list_to_map done ∪ finals q) (types q) (traits q) = next_program m q).
  { unfold next_program. by rewrite Hp, Hc. }
  rewrite E. destruct IH as [-> |[-> | ->]]; auto.
Qed.

Lemma passes_end_witness :
  run_passes ascii_debug 3 20 (first_program forwarding) (module_body forwarding) <> Exhausted.
Proof.
  apply (passes_end ascii_debug 20 (module_body forwarding)
    (dom (channels (pass ascii_debug (first_program forwarding) 20 (module_body forwarding)).2))).
  - intros q Hq. apply later_iterates in Hq; [|vm_compute; reflexivity].
    destruct Hq as [-> |[-> | ->]]; split; try (vm_compute; discriminate); [reflexivity|..].
    all: apply (bool_decide_unpack _); vm_compute; exact I.
  - apply (proj1 (Nat.ltb_lt _ _)). vm_compute. reflexivity.
Defined.

(** A failure that [comprehend] raises itself escapes speculation, on an example.  The clause
    [for y in x] over an integer runs only if [c != []], which is false: with the guard written
    [False] the program answers, and with the guard pending in the first pass it is refused,
    although nothing in its final pass fails. *)
Example comprehension_failure_escapes :
  (exists out, run ascii_debug 5 50 (guarded_clause (sp 30 (ELit (LitBool false)))) = Done out) /\
  run ascii_debug 5 50 (guarded_clause nonempty_c) = Fail "a comprehension iterates a collection".
Proof. split; [eexists|]; vm_compute; reflexivity. Qed.

(** ** Values and operators *)

(** C10: integer arithmetic of the reference interpreter is exact.  [+], [-], [*], [//] and
    [**] of two [i64]s give the integer they denote where it is an [i64], and are refused
    elsewhere: on overflow, on a zero divisor and on a negative exponent.  In [**] a square that
    overflows is always one the result needs. *)
Theorem reference_arithmetic_exact ds op a b :
  I64_MIN <= a <= I64_MAX -> I64_MIN <= b <= I64_MAX ->
  binop ds (kind_op op) (VInt a) (VInt b) =
  match denoted op a b with
  | Some z => if (I64_MIN <=? z) && (z <=? I64_MAX) then Done (VInt z) else Fail "{l} {op} {r} is not defined"
  | None => Fail "{l} {op} {r} is not defined"
  end.
Proof.
  intros Ha Hb. rewrite binop_exact by done. destruct (denoted op a b) as [z|]; [|done]. simpl. unfold checked, in_i64.
  by destruct (_ && _).
Qed.

Lemma reference_arithmetic_exact_witness :
  binop ascii_debug OpPow (VInt (-2)) (VInt 63) = Done (VInt I64_MIN) /\
  binop ascii_debug OpFloorDiv (VInt I64_MIN) (VInt (-1)) = Fail "{l} {op} {r} is not defined".
Proof.
  split.
  - etransitivity; [apply (reference_arithmetic_exact ascii_debug Pow (-2) 63); unfold I64_MIN, I64_MAX; lia|].
    vm_compute. reflexivity.
  - etransitivity; [apply (reference_arithmetic_exact ascii_debug FloorDiv I64_MIN (-1)); unfold I64_MIN, I64_MAX; lia|].
    vm_compute. reflexivity.
Defined.

(** C11: the compiled arithmetic implements the reference.  Whatever integer the reference gives
    an operator, the element kernel of [zip_arithmetic] gives it too, with and without overflow
    checks; and where the reference refuses, a kernel built with overflow checks panics, [**]
    apart, which wraps on an overflow and panics on a negative exponent. *)
Theorem kernels_implement_reference ds checks op a b :
  I64_MIN <= a <= I64_MAX -> I64_MIN <= b <= I64_MAX ->
  (forall z, binop ds (kind_op op) (VInt a) (VInt b) = Done (VInt z) -> ScalarOps.arithmetic (E := i64_elem) checks op a b = Some z) /\
  (op <> Pow -> (exists why, binop ds (kind_op op) (VInt a) (VInt b) = Fail why) -> ScalarOps.arithmetic (E := i64_elem) true op a b = None).
Proof.
  intros Ha Hb. rewrite binop_exact by done. split.
  - intros z (z' & H & [= ->])%int_done. by apply kernel_agrees.
  - intros Hop [why H]. apply kernel_refuses; [done..|]. by destruct (denoted op a b ≫= _).
Qed.

Lemma kernels_implement_reference_witness :
  ScalarOps.arithmetic (E := i64_elem) false FloorDiv (-7) 3 = Some (-3) /\ ScalarOps.arithmetic (E := i64_elem) true Mul (2 ^ 62) 2 = None.
Proof.
  split.
  - destruct (kernels_implement_reference ascii_debug false FloorDiv (-7) 3) as [H _]; try (unfold I64_MIN, I64_MAX; lia).
    apply H. vm_compute. reflexivity.
  - destruct (kernels_implement_reference ascii_debug true Mul (2 ^ 62) 2) as [_ H]; try (unfold I64_MIN, I64_MAX; lia).
    apply H; [discriminate|]. eexists. vm_compute. reflexivity.
Defined.

(** C12: the keys of a collection.  [try_from_entries] names a key that another entry holds too,
    or keeps the entries as they are; and where the keys are scalars, commit times, or variants
    and nominals of such, the two keys are the same, and it keeps the entries only if no two keys
    are equal, though it compares only neighbours of the sorted keys. *)
Theorem try_from_entries_exact ds entries :
  match try_from_entries ds entries with
  | inl key => exists l1 l2 key', map fst entries ≡ₚ l1 ++ key :: key' :: l2 /\ value_eq ds key key' = true /\
      (Forall (fun e => plain e.1 = true) entries -> key' = key)
  | inr c => c = entries /\ (Forall (fun e => plain e.1 = true) entries -> NoDup (map fst entries))
  end.
Proof.
  pose proof (try_from_entries_ok ds entries) as H. destruct (try_from_entries ds entries) as [k|c]; [|done].
  destruct H as (l1 & l2 & k' & Hl & Hk). exists l1, l2, k'. split_and!; [done..|]. intros Hp.
  symmetry. apply (plain_value_eq ds); [|done].
  assert (Hin : k ∈ map fst entries) by (rewrite Hl; set_solver). apply list_elem_of_fmap in Hin as (e & -> & He).
  by apply (proj1 (Forall_forall _ _) Hp).
Qed.

Lemma try_from_entries_exact_witness :
  exists l1 l2 key', [VInt 1; VStr "a"; VInt 1] ≡ₚ l1 ++ VInt 1 :: key' :: l2 /\ key' = VInt 1.
Proof.
  pose proof (try_from_entries_exact ascii_debug [(VInt 1, VUnit); (VStr "a", VUnit); (VInt 1, VUnit)]) as H.
  assert (E : try_from_entries ascii_debug [(VInt 1, VUnit); (VStr "a", VUnit); (VInt 1, VUnit)] = inl (VInt 1))
    by (vm_compute; reflexivity).
  rewrite E in H. destruct H as (l1 & l2 & key' & Hl & _ & Hk). exists l1, l2, key'. split; [exact Hl|].
  apply Hk. repeat constructor.
Defined.

(** C13: collections keyed by commit time compare by the order of their commits.  Renumbering the
    times of one by any increasing function, and listing its entries in any order, gives an equal
    collection: neither the times a run hands out nor the order of the entries is observed. *)
Theorem commit_times_compare_by_rank ds (f : Z -> Z) l l' :
  (forall a b, a < b -> f a < f b) -> NoDup (map fst l) -> Forall (fun e => settled e.2 = true) l ->
  l' ≡ₚ map (fun '(t, v) => (f t, v)) l -> value_eq ds (VCollection (timed l)) (VCollection (timed l')) = true.
Proof. intros Hf. by apply renumbered_eq. Qed.

Lemma commit_times_compare_by_rank_witness :
  value_eq ascii_debug (VCollection (timed [(1, VStr "a"); (2, VStr "b")])) (VCollection (timed [(9, VStr "b"); (4, VStr "a")])) = true.
Proof.
  apply (commit_times_compare_by_rank ascii_debug (fun t => 5 * t - 1)); [lia| |by repeat constructor|by apply Permutation_swap].
  simpl. apply NoDup_cons. split; [set_solver|]. apply NoDup_singleton.
Defined.
